(* ===== verification/_CoqProject ===== *)
-Q . S2P
Prelude.v
Gaptos.v
Types.v
Bytes.v
Floats.v
Certificates.v
Payloads.v
Blocks.v
SafetyRules.v
SafetySpec.v
Bft.v
BlockTree.v
PendingVotes.v
RoundState.v
Buffer.v
BlockBufferManager.v
BufferItem.v
PipelineManager.v
PipelineSpec.v
ConsensusDb.v
BatchStore.v
ProofQueue.v
ProofManager.v
ProofCoordinator.v
Shuffler.v
UseCaseShuffler.v
BlockPreparer.v
Recovery.v
BlockStore.v
StoreSpec.v
SyncManager.v
SyncSpec.v
Election.v
LeaderReputation.v
ProposalGenerator.v
RoundManager.v
RoundSpec.v
Concrete.v
ConcreteSafety.v
ConcreteConsensus.v
ConcreteBuffer.v
ConcretePipeline.v
ConcreteDb.v
ConcreteRecovery.v
ConcreteStore.v
ConcreteElection.v
ConcreteRound.v
ConcreteQuorumStore.v
ConcreteProofs.v
ConcreteShuffler.v
