(* ===== verification/Prelude.v ===== *)
(** * Gravity SDK: a verification development

    Gravity SDK runs an AptosBFT consensus (2-chain HotStuff with order votes and
    decoupled execution) in front of an Ethereum execution layer.  A validator
    receives a proposal and the certificates it rests on, asks its safety rules
    for a vote, collects the votes of a round into certificates, stores blocks
    and certificates in a tree, moves to the next round when a certificate
    arrives, and hands ordered blocks to execution through the block buffer
    manager, from which results and committed blocks flow back.  Who may propose
    in a round is decided by a leader election over the committed history; blocks,
    certificates, votes and ledger infos are kept in a database, from which a
    restarted validator recovers and which can be unwound to an earlier block.
    This library models that path and proves what keeps it correct.  All paths below are under
    src/; "consensus" stands for src/aptos-core/consensus.

    ** Files and the code they model

    - [Prelude]: machine integers with Rust's overflow checks (Cargo.toml sets
      [overflow-checks = true], so plain [+] and [-] panic), [Result] with panics
      as a third outcome, the state monad [M] in which a handler keeps the state
      reached on its error paths, [wp] for reasoning about it, shared lemmas,
      tactics and hints.
    - [Gaptos]: the interface of the external crate [gaptos] (hashes, block and
      ledger infos, validator verifier) as classes, and its documented behaviour
      as law classes.
    - [Types]: the structs and enums of consensus/consensus-types/src, and the
      interface of cryptography on them.
    - [Certificates]: vote_data.rs, quorum_cert.rs, wrapped_ledger_info.rs,
      timeout_2chain.rs, vote.rs, order_vote.rs, sync_info.rs, vote_msg.rs.
    - [Payloads]: the payload part of common.rs, payload.rs, proof_of_store.rs.
    - [Blocks]: block_data.rs, block.rs, proposal_ext.rs, vote_proposal.rs,
      proposal_msg.rs.
    - [SafetyRules]: consensus/safety-rules/src (safety_rules.rs,
      safety_rules_2chain.rs, persistent_safety_storage.rs, error.rs).  The state
      is the struct [SafetyRules]; each guarded handler is one definition, and
      [exec] is the [TSafetyRules] interface with a restart added.
    - [SafetySpec]: the abstract voting rules and the refinement.
    - [Bft]: a system of validators that run [SafetyRules] against Byzantine
      ones, [generate_commit_ledger_info] of consensus/src/pipeline/buffer_item.rs
      and the agreement theorem.
    - [BlockTree]: consensus/src/block_storage/block_tree.rs.
    - [PendingVotes]: consensus/src/pending_votes.rs, qc_aggregator.rs and
      pending_order_votes.rs.
    - [RoundState]: consensus/src/liveness/round_state.rs.
    - [Buffer]: consensus/src/pipeline/buffer.rs.
    - [BlockBufferManager]: crates/block-buffer-manager/src/block_buffer_manager.rs
      and [StateComputeResult] of dependencies/aptos-executor-types/src/lib.rs.
    - [BufferItem]: consensus-types/src/pipeline, the part of pipelined_block.rs the
      pipeline uses, consensus/src/pipeline/commit_reliable_broadcast.rs and
      buffer_item.rs.
    - [PipelineManager]: consensus/src/pipeline/buffer_manager.rs and the phases it
      talks to (execution_schedule_phase.rs, execution_wait_phase.rs,
      signing_phase.rs, persisting_phase.rs).  The record [BufferManager] is the
      state, with everything sent kept in order; [pipeline_step] is one round of
      [start].
    - [PipelineSpec]: the abstract pipeline, the invariant and its theorems.
    - [Bytes]: big-endian bytes and their order.  [Floats]: [f64] and [f32], exactly,
      on the Standard Library's specification of floating point.
    - [ConsensusDb]: consensus/src/consensusdb (mod.rs, the schemas of the tables,
      ledger_metadata_db.rs, the reader and writer), with RocksDB behind the
      interface [SchemaDb].
    - [BatchStore]: consensus/src/quorum_store types.rs, batch_store.rs,
      batch_coordinator.rs, quorum_store_db.rs and schema.rs.
    - [ProofQueue], [ProofManager]: the queue of proofs of quorum_store/utils.rs
      and proof_manager.rs.
    - [ProofCoordinator]: quorum_store/proof_coordinator.rs and the message checks
      of consensus-types/src/proof_of_store.rs it depends on.
    - [Shuffler]: consensus/src/transaction_filter, transaction_deduper.rs,
      txn_hash_and_authenticator_deduper.rs and
      transaction_shuffler/sender_aware.rs.
    - [UseCaseShuffler]: transaction_shuffler/use_case_aware.
    - [BlockPreparer]: block_preparer.rs and transaction_shuffler/mod.rs.
    - [Recovery]: consensus/src/persistent_liveness_storage.rs.
    - [BlockStore]: consensus/src/block_storage/block_store.rs and pending_blocks.rs,
      [finalize_order] of pipeline/execution_client.rs and the validator transactions
      of state_computer.rs.  The record [BlockStore] holds the tree, the storage, the
      cells of the pipelined blocks (result, randomness) and everything sent.
    - [SyncManager]: block_storage/sync_manager.rs, [request_block] of network.rs and
      consensus-types/src/block_retrieval.rs, with the answers of the peers as input.
    - [StoreSpec], [SyncSpec]: the invariants of the store, of what it has written and
      of what it fetches, and their theorems.
    - [Election]: the elections of consensus/src/liveness (proposer_election.rs,
      rotating_, round_, unequivocal_ and cached_proposer_election.rs).
    - [LeaderReputation]: leader_reputation.rs, and what epoch_manager.rs does to
      create an election.
    - [ProposalGenerator]: liveness/proposal_generator.rs, payload_client/mixed.rs,
      payload_client/user/quorum_store_client.rs, and the latencies of block_store.rs
      it reads.
    - [RoundManager]: consensus/src/round_manager.rs, the event loop of a validator
      over all of the above, metrics_safety_rules.rs and util/mod.rs.  The record
      [RoundManager] is the state, with everything sent kept in order; each handler is
      a definition, [round_manager_step] is one round of [start].
    - [RoundSpec]: the actions a handler consists of, and the theorems about a
      validator, a leader and a replica.
    - [Concrete], [ConcreteSafety], [ConcreteConsensus], [ConcreteBuffer], and
      [ConcreteDb], [ConcreteRecovery], [ConcreteElection],
      [ConcreteQuorumStore], [ConcreteProofs], [ConcreteShuffler],
      [ConcretePipeline], [ConcreteStore], [ConcreteRound]: executable instances of every interface that satisfy every
      law, and the theorems applied to concrete runs on them.

    ** How code becomes definitions

    A struct is a record with the source's field names behind a prefix, an enum
    an inductive type with the source's constructors.  A method is a definition
    with the method's name (prefixed by its type where several types have it);
    [&mut self] becomes a state passed through [M] or returned beside the
    result.  [u64] is [N] with the checked, saturating or panicking operation the
    source uses.  [HashMap], [BTreeMap] and [HashSet] are [gmap] and [gset];
    where the source iterates over an unordered collection, the order is that of
    [map_to_list] and no theorem depends on it.  [Arc], [Mutex] and references
    are transparent: each method of the block buffer manager holds its mutex for
    the whole body, or for one round of its polling loop, and is one atomic step.
    The time a check reads is an argument.  Logging, metrics and fail points have
    no counterpart.  Code outside src/ is a class argument, never a definition.

    ** What the theorems show

    - Agreement ([Bft.agreement]): with less than a third of the voting power
      Byzantine, two certified ledger infos commit blocks of one branch.  It
      rests on [SafetySpec.safety_rules_refine] (each call of the detailed
      handlers is a step of the abstract rules, under any storage failure) and
      comes with [SafetySpec.one_vote_per_round].  The assumptions are those of
      the law classes, that a certificate presented to an honest node and
      accepted by it carries signatures its honest signers made, and that one
      epoch is considered.
    - Aggregation: certificates made of checked votes and timeouts verify, a
      quorum makes a certificate, nobody counts twice, order votes likewise
      ([Certificates], [PendingVotes]).
    - Block tree: an invariant of all reachable trees, with parent and child links
      that agree as long as a block comes before its children, exactness of pruning and
      of paths, effects of insertion, certification and commit ([BlockTree]).
    - Pacemaker: rounds only increase, the branches of [process_certificates],
      pending votes belong to the current round ([RoundState]).
    - Messages: what acceptance of a proposal implies, the proof cache does not
      change verdicts, nil blocks are well formed ([Blocks], [Payloads]).
    - Pipeline buffer: the linked hash map refines a list ([Buffer]).
    - Execution pipeline: blocks are committed in the order they were ordered, with
      proofs of a quorum that verify, at once when a quorum is there; the caches of
      early votes and proofs are bounded.  All this under [PipelineSpec.events_ok]:
      results find their item still ordered, with ConsensusAlpha active, and decisions
      agree with what was executed ([PipelineSpec]).
    - Block buffer manager: life cycle of a block, the epoch change end to end,
      contiguous hand-over to execution, conservation of transactions, agreement
      of its two epoch flags, all-or-nothing [init] ([BlockBufferManager]).
    - Database: keys are read back and ordered as the scans need, a saved block is
      read back with its number, what unwinding deletes and keeps (it keeps the block
      after the target as well, which its doc comment denies), the anchor of
      leader reputation is the newest ledger info that qualifies ([ConsensusDb]).
    - Recovery: when the database can be read, which block becomes the root, that
      exactly the stored blocks and certificates above it come back, what is cleaned up
      and when the clean-up panics; at an epoch boundary the root is the virtual genesis
      block ([Recovery]).
    - Block store: with a database that takes every write ([StoreSpec.StorageAccepts]),
      blocks are sent to execution as one numbered chain, each once, with a
      certificate, and the tree can be read back from the database ([StoreSpec]).
    - Block retrieval: what a retrieval by block id returns is a checked chain whatever
      the peers answered, an honest answer is accepted; retrieval by epoch uses its first
      answer unchecked and has no such theorem ([SyncSpec]).
    - Leader election: the weighted choice is total and exact, replicas with one
      configuration that see the same anchor elect the same leader once ConsensusAlpha
      is active (nothing is claimed of the legacy election), accepted proposals are
      unequivocal, the cache is transparent ([Election], [LeaderReputation]).
    - Quorum store: a signed batch can be served, quotas and counters are exact,
      a payload respects the limits of its request, exceeds the soft limit by at most a
      proof of each author and leaves nothing behind unless it is full, back pressure
      follows the exact load ([BatchStore], [ProofQueue], [ProofManager]).
    - Proofs of store: the coordinator only makes proofs that verify; a quorum makes
      exactly one, however its signatures are spread over messages, as long as the
      clock does not step back and the timeout is not reached; and the batch of an
      accepted proof is held by an honest validator with a payload of its digest
      ([ProofCoordinator]).
    - Preparing a block: the deduper is the one-pass filter it optimises, both
      shufflers terminate, keep the transactions and the order of every sender, and
      no assertion of theirs fails; together with the filter and the limit they give
      what a block executes ([Shuffler], [UseCaseShuffler], [BlockPreparer]).
    - Round manager: whatever happens, a validator sends only what its safety rules
      signed in the calls that took them to their present state, does not equivocate,
      and proposes once per round; with clocks that fit and equal elections a leader's
      proposal passes the checks of a replica, which votes for it when its store and its
      safety rules accept it; the initialization of the safety rules ends ([RoundSpec]).
    - Deviations found: a clock that steps back loses a proof of store
      ([ProofCoordinator.clock_step_back_panics]), two batches with one id falsify the counters
      of the proof manager or stop it ([ProofQueue.commit_of_equivocated_batch_panics]),
      a block that comes back above its child leaves the child unlinked
      ([BlockTree.reinserted_unlinked]), reads of safety data fail when the cache is disabled
      ([SafetySpec.safety_data_after_set]), a warning that cannot fire
      ([Blocks.set_block_number_keeps_first_silently]), a failed insertion that
      moves the head of the tree ([BlockTree.insert_block_error_moves_head]), commit
      votes on different ledger infos are aggregated
      ([ConcretePipeline.mixed_votes_sent]), a second result of a block after a retry
      panics ([ConcretePipeline.retried_item_panics]), an empty answer to a block
      request stops the node ([SyncSpec.empty_answer_panics]).

    ** Fuel

    Eighteen loops take fuel.  [prune_loop] visits each block of the tree at most
    once and gets the number of blocks.  [path_loop] follows parents with
    decreasing rounds and gets one step more than that; out of fuel it answers
    [None], which [BlockTree.path_from_commit_root_exact] excludes, since it shows
    that every chain of ancestors is found.  [collect_ordered] and
    [collect_committed] consume a different entry in every round but the last and
    get one more than the number of blocks of the manager.  [find_loop] of
    [Buffer] follows the links of distinct items and gets the size of its map.
    [binary_search_loop] of [Election] halves its interval and gets the length of
    the list; [Election.choose_index_spec] shows the result for every list.
    [pull_rounds] and [inline_rounds] lose an entry of every iterator in every
    round and get one more than the number of entries; that they return is part of
    [ProofManager.proposal_within_limits].  [shuffle_loop] adds one transaction in every round and gets
    their number; [collect_shuffled] gets one more than that, for the round in which
    the iterator ends.  [advance_head_loop] takes an item off the pipeline buffer in
    every round, [retry_loop] and [rebroadcast_loop] walk along its links, and each
    gets the length of the buffer.  [missing_randomness] follows parents with
    decreasing rounds and gets one more than the number of blocks of the tree.
    [retrieve_loop] and [fetch_ancestors] use up one round of answers of the peers in
    every iteration and get one more than there are; without answers the retrieval
    fails, and [SyncSpec.retrieve_loop_fuel] shows that more fuel changes nothing.
    [recent_summaries] follows parents in the tree and gets two more than its size.
    [loop_until] gets 2^64 rounds for a loop in which the version of a waypoint, a
    [u64], grows ([RoundSpec.initialization_terminates]).  Wherever a loop does not say otherwise here,
    running out of fuel is a panic in the model, so every theorem that states a
    result excludes it.

    ** What is not modelled

    Networking, runtimes, storage backends, command line tools and tests are I/O
    around this core.  Not modelled yet, though they carry logic: the batch generator of
    the quorum store, randomness generation, the DAG, the consensus observer and the
    mempool glue.  The payload manager, the pool of validator transactions and the
    proofs of epoch changes enter the round manager as their answers.  Of the database, opening it and its checkpoints are left out.  Within the modelled parts [Display], metrics and
    test-only code are left out. *)

From stdpp Require Export sorting base tactics numbers option list strings gmap fin_maps fin_sets sets.
From Stdlib Require Export Lia.

Declare Scope gravity_scope.
Delimit Scope gravity_scope with gravity.
#[global] Open Scope N_scope.
#[global] Open Scope gravity_scope.

(** ** Machine integers

    The Rust code is compiled with [overflow-checks = true] in every profile
    (Cargo.toml), so a plain [+] or [-] on [u64] panics instead of wrapping.
    Unsigned integers are [N]; the width appears in the operations. *)

Definition u64_max : N := 18446744073709551615.
Definition u32_max : N := 4294967295.
Definition u128_max : N := 340282366920938463463374607431768211455.

(** [u64::checked_add]. *)
Definition checked_add (a b : N) : option N :=
  if a + b <=? u64_max then Some (a + b) else None.

(** [u64::checked_sub]. *)
Definition checked_sub (a b : N) : option N :=
  if b <=? a then Some (a - b) else None.

(** [u64::saturating_add]. *)
Definition saturating_add (a b : N) : N := N.min (a + b) u64_max.

(** ** Results, errors and panics

    [Ok] and [Err] are the constructors of Rust's [Result]; [Panic] is an
    unwinding panic ([unwrap] on [None], a failed [assert!], an arithmetic
    overflow). *)

Inductive result (E A : Type) : Type :=
| Ok (a : A)
| Err (e : E)
| Panic (msg : string).
Arguments Ok {E A} _.
Arguments Err {E A} _.
Arguments Panic {E A} _.

#[global] Instance result_ret {E} : MRet (result E) := fun _ a => Ok a.
#[global] Instance result_bind {E} : MBind (result E) := fun _ _ k c =>
  match c with
  | Ok a => k a
  | Err e => Err e
  | Panic m => Panic m
  end.

Definition is_ok {E A} (r : result E A) : bool :=
  match r with Ok _ => true | _ => false end.

Definition is_err {E A} (r : result E A) : bool :=
  match r with Err _ => true | _ => false end.

(** [Result::map_err]. *)
Definition map_err {E F A} (f : E → F) (r : result E A) : result F A :=
  match r with
  | Ok a => Ok a
  | Err e => Err (f e)
  | Panic m => Panic m
  end.

(** [Option::ok_or]. *)
Definition ok_or {E A} (e : E) (o : option A) : result E A :=
  match o with Some a => Ok a | None => Err e end.

(** [Option::unwrap] / [Option::expect]. *)
Definition expect {E A} (msg : string) (o : option A) : result E A :=
  match o with Some a => Ok a | None => Panic msg end.

(** [Result::unwrap] / [Result::expect]. *)
Definition expect_ok {E A} (msg : string) (r : result E A) : result E A :=
  match r with Ok a => Ok a | Err _ => Panic msg | Panic m => Panic m end.

(** [ensure!(b, e)] of the [anyhow] crate: an early return with [e]. *)
Definition ensure {E} (b : bool) (e : E) : result E unit :=
  if b then Ok tt else Err e.

(** [assert!(b, msg)]. *)
Definition assert_ {E} (b : bool) (msg : string) : result E unit :=
  if b then Ok tt else Panic msg.

(** Checked [+] on [u64]. *)
Definition add_u64 {E} (a b : N) : result E N :=
  expect "attempt to add with overflow" (checked_add a b).

(** Checked [-] on [u64]. *)
Definition sub_u64 {E} (a b : N) : result E N :=
  expect "attempt to subtract with overflow" (checked_sub a b).

(** [Iterator::sum] over [u64] or [usize]: overflow panics. *)
Definition sum_u64 {E} (l : list N) : result E N :=
  foldl (λ acc x, acc ≫= λ a, add_u64 a x) (Ok 0) l.

Definition i64_min : Z := (-9223372036854775808)%Z.
Definition i64_max : Z := 9223372036854775807%Z.

(** Checked [+] on [i64] and [u128]. *)
Definition add_i64 {E} (a b : Z) : result E Z :=
  if bool_decide (i64_min ≤ a + b ≤ i64_max)%Z then Ok (a + b)%Z
  else Panic "attempt to add with overflow".
Definition add_u128 {E} (a b : N) : result E N :=
  if a + b <=? u128_max then Ok (a + b) else Panic "attempt to add with overflow".

(** [n as i64] of a [usize] wraps. *)
Definition as_i64 (n : N) : Z :=
  if bool_decide (Z.of_N n ≤ i64_max)%Z then Z.of_N n else (Z.of_N n - 2 ^ 64)%Z.

(** [Iterator::max] over unsigned integers. *)
Definition max_of (l : list N) : option N :=
  match l with [] => None | x :: l => Some (foldr N.max x l) end.

(** The values of a [BTreeMap<usize, _>], in increasing order of the keys. *)
Definition key_le {A} (x y : nat * A) : Prop := (x.1 <= y.1)%nat.
#[global] Instance key_le_dec {A} : RelDecision (@key_le A) :=
  fun x y => decide (x.1 <= y.1)%nat.
Definition values_by_index {A} (m : gmap nat A) : list A :=
  (merge_sort key_le (map_to_list m)).*2.

(** The entries of [f] on a list, with the positions they come from. *)
Fixpoint listing {A B} (k : nat) (f : A → option B) (l : list A) : list (nat * B) :=
  match l with
  | [] => []
  | a :: l =>
      match f a with
      | Some b => (k, b) :: listing (S k) f l
      | None => listing (S k) f l
      end
  end.

(** ** Stateful fallible code

    A method with [&mut self] that returns a [Result]: the state after the call
    is kept on the error paths too, as in the source. *)

Definition M (S E A : Type) : Type := S → result E A * S.

#[global] Instance M_ret {S E} : MRet (M S E) := fun _ a s => (Ok a, s).
#[global] Instance M_bind {S E} : MBind (M S E) := fun _ _ k c s =>
  match c s with
  | (Ok a, s') => k a s'
  | (Err e, s') => (Err e, s')
  | (Panic m, s') => (Panic m, s')
  end.

(** A computation that reads the state without changing it. *)
Definition gets {S E A} (f : S → result E A) : M S E A := λ s, (f s, s).

(** A computation that does not look at the state. *)
Definition lift {S E A} (r : result E A) : M S E A := λ s, (r, s).

Definition modify {S E} (f : S → S) : M S E unit := λ s, (Ok tt, f s).

(** [for x in l { f(x)?; }]. *)
Fixpoint try_for_each {S E A} (f : A → M S E unit) (l : list A) : M S E unit :=
  match l with
  | [] => mret ()
  | x :: l => f x ≫= λ _, try_for_each f l
  end.

(** Weakest preconditions of stateful computations: [Q] holds of the outcome,
    whatever it is. *)
Definition wp {S E A} (c : M S E A) (Q : result E A → S → Prop) (s : S) : Prop :=
  Q (c s).1 (c s).2.

(** How an outcome continues: errors and panics skip the continuation. *)
Definition continue {S E A B} (k : A → S → Prop) (Q : result E B → S → Prop)
    (r : result E A) (s : S) : Prop :=
  match r with
  | Ok a => k a s
  | Err e => Q (Err e) s
  | Panic m => Q (Panic m) s
  end.

(** ** Inversion of binds *)

Lemma bind_Ok {E A B} (c : result E A) (k : A → result E B) b :
  c ≫= k = Ok b ↔ ∃ a, c = Ok a ∧ k a = Ok b.
Proof.
  unfold mbind, result_bind. destruct c as [a|e|m]; naive_solver.
Qed.

(** The form of a guard: [check?; rest]. *)
Lemma bind_unit_Ok {E B} (c : result E unit) (k : result E B) b :
  c ≫= (λ _, k) = Ok b ↔ c = Ok tt ∧ k = Ok b.
Proof.
  unfold mbind, result_bind. destruct c as [[]|e|m]; naive_solver.
Qed.

Lemma mbind_M_Ok {S E A B} (c : M S E A) (k : A → M S E B) s b s' :
  (c ≫= k) s = (Ok b, s') ↔ ∃ a s1, c s = (Ok a, s1) ∧ k a s1 = (Ok b, s').
Proof.
  unfold mbind, M_bind. destruct (c s) as [[a|e|m] s1]; naive_solver.
Qed.

Lemma ensure_Ok {E} b (e : E) u : ensure b e = Ok u ↔ b = true.
Proof. destruct b, u; unfold ensure; naive_solver. Qed.

Lemma assert_Ok {E} b m u : @assert_ E b m = Ok u ↔ b = true.
Proof. destruct b, u; unfold assert_; naive_solver. Qed.

Lemma map_err_Ok {E F A} (f : E → F) (r : result E A) a :
  map_err f r = Ok a ↔ r = Ok a.
Proof. destruct r; unfold map_err; naive_solver. Qed.

Lemma ok_or_Ok {E A} (e : E) (o : option A) a : ok_or e o = Ok a ↔ o = Some a.
Proof. destruct o; unfold ok_or; naive_solver. Qed.

Lemma expect_Ok {E A} m (o : option A) a : @expect E A m o = Ok a ↔ o = Some a.
Proof. destruct o; unfold expect; naive_solver. Qed.

Lemma expect_ok_Ok {E A} m (r : result E A) a : expect_ok m r = Ok a ↔ r = Ok a.
Proof. destruct r; simpl; naive_solver. Qed.

Lemma checked_add_Some a b c : checked_add a b = Some c ↔ c = a + b ∧ a + b ≤ u64_max.
Proof. unfold checked_add. destruct (N.leb_spec (a + b) u64_max); naive_solver lia. Qed.

Lemma checked_add_None a b : checked_add a b = None ↔ u64_max < a + b.
Proof. unfold checked_add. destruct (N.leb_spec (a + b) u64_max); naive_solver lia. Qed.

Lemma checked_sub_Some a b c : checked_sub a b = Some c ↔ c = a - b ∧ b ≤ a.
Proof. unfold checked_sub. destruct (N.leb_spec b a); naive_solver lia. Qed.

Lemma add_u64_Ok {E} a b c : @add_u64 E a b = Ok c ↔ c = a + b ∧ a + b ≤ u64_max.
Proof. unfold add_u64. by rewrite expect_Ok, checked_add_Some. Qed.

Lemma sub_u64_Ok {E} a b c : @sub_u64 E a b = Ok c ↔ c = a - b ∧ b ≤ a.
Proof. unfold sub_u64. by rewrite expect_Ok, checked_sub_Some. Qed.

Lemma add_u64_fits {E} a b : a + b ≤ u64_max → @add_u64 E a b = Ok (a + b).
Proof. intros H. by apply add_u64_Ok. Qed.

Lemma sub_u64_fits {E} a b : b ≤ a → @sub_u64 E a b = Ok (a - b).
Proof. intros H. by apply sub_u64_Ok. Qed.

(** The exact sum of a list of numbers. *)
Definition total (l : list N) : N := foldr N.add 0 l.

Lemma sum_u64_fits {E} l : total l ≤ u64_max → @sum_u64 E l = Ok (total l).
Proof.
  unfold sum_u64. intros Hle. enough (Hgen : ∀ a, a + total l ≤ u64_max →
    foldl (λ acc x, acc ≫= λ a, add_u64 a x) (Ok a : result E N) l = Ok (a + total l))
    by (by rewrite (Hgen 0)).
  clear Hle. induction l as [|x l IH]; intros a Ha; simpl in *; [by rewrite N.add_0_r|].
  rewrite add_u64_fits by lia. rewrite IH by lia. f_equal. lia.
Qed.

Lemma total_cons {A} (f : A → N) x l : total (f <$> x :: l) = f x + total (f <$> l).
Proof. done. Qed.

Lemma total_app l1 l2 : total (l1 ++ l2) = total l1 + total l2.
Proof. induction l1 as [|x l1 IH]; simpl; [done|]. rewrite IH. lia. Qed.

#[global] Instance total_perm : Proper ((≡ₚ) ==> (=)) total.
Proof. intros l1 l2. induction 1; simpl; lia. Qed.

Lemma total_submseteq l1 l2 : l1 ⊆+ l2 → total l1 ≤ total l2.
Proof. induction 1; simpl; lia. Qed.

(** ** Rules for weakest preconditions *)

Section wp.
Context {S E : Type}.

Lemma wp_bind {A B} (c : M S E A) (k : A → M S E B) Q s :
  wp c (continue (λ a, wp (k a) Q) Q) s → wp (c ≫= k) Q s.
Proof.
  unfold wp, mbind, M_bind. destruct (c s) as [[a|e|m] s1]; simpl; done.
Qed.

Lemma wp_ret {A} (a : A) (Q : result E A → S → Prop) s : Q (Ok a) s → wp (mret a) Q s.
Proof. done. Qed.

Lemma wp_gets {A} (f : S → result E A) (Q : result E A → S → Prop) s :
  Q (f s) s → wp (gets f) Q s.
Proof. done. Qed.

Lemma wp_lift {A} (r : result E A) (Q : result E A → S → Prop) s : Q r s → wp (lift r) Q s.
Proof. done. Qed.

Lemma wp_modify (f : S → S) (Q : result E unit → S → Prop) s : Q (Ok tt) (f s) → wp (modify f) Q s.
Proof. done. Qed.

Lemma wp_mono {A} (c : M S E A) (Q Q' : result E A → S → Prop) s :
  wp c Q s → (∀ r s', Q r s' → Q' r s') → wp c Q' s.
Proof. unfold wp. auto. Qed.

End wp.

(** One step of a handler: a read of the state or a pure check is decided, its
    failure continues with the error case of the postcondition. *)
Ltac wp_step :=
  lazymatch goal with
  | |- wp (mbind _ _) _ _ => apply wp_bind
  | |- wp (gets ?f) _ ?s =>
      apply wp_gets; let H := fresh "Hwp" in destruct (f s) eqn:H; simpl
  | |- wp (lift ?r) _ ?s =>
      apply wp_lift; let H := fresh "Hwp" in destruct r eqn:H; simpl
  | |- wp (mret _) _ _ => apply wp_ret; simpl
  | |- wp (modify _) _ _ => apply wp_modify; simpl
  end.

(** Total correctness: the computation returns, and [Q] holds of what it returns. *)
Definition runs {S E A} (c : M S E A) (s : S) (Q : A → S → Prop) : Prop :=
  match c s with (Ok a, s') => Q a s' | _ => False end.

Section runs.
Context {S E : Type}.

Lemma runs_bind {A B} (c : M S E A) (k : A → M S E B) Q s :
  runs c s (λ a s', runs (k a) s' Q) → runs (c ≫= k) s Q.
Proof. unfold runs, mbind, M_bind. destruct (c s) as [[a|e|m] s1]; done. Qed.

Lemma runs_ret {A} (a : A) (Q : A → S → Prop) s : Q a s → runs (mret a : M S E A) s Q.
Proof. done. Qed.

Lemma runs_gets {A} (f : S → result E A) a (Q : A → S → Prop) s : f s = Ok a → Q a s → runs (gets f) s Q.
Proof. unfold runs, gets. by intros ->. Qed.

Lemma runs_lift {A} (r : result E A) a (Q : A → S → Prop) s : r = Ok a → Q a s → runs (lift r) s Q.
Proof. unfold runs, lift. by intros ->. Qed.

Lemma runs_modify (f : S → S) (Q : unit → S → Prop) s : Q tt (f s) → runs (modify f : M S E unit) s Q.
Proof. done. Qed.

Lemma runs_mono {A} (c : M S E A) (Q Q' : A → S → Prop) s :
  runs c s Q → (∀ a s', Q a s' → Q' a s') → runs c s Q'.
Proof. unfold runs. destruct (c s) as [[a|e|m] s1]; auto. Qed.

Lemma runs_eq {A} (c : M S E A) (Q : A → S → Prop) s a s' : c s = (Ok a, s') → Q a s' → runs c s Q.
Proof. unfold runs. by intros ->. Qed.

Lemma runs_inv {A} (c : M S E A) (Q : A → S → Prop) s : runs c s Q → ∃ a s', c s = (Ok a, s') ∧ Q a s'.
Proof. unfold runs. destruct (c s) as [[a|e|m] s1]; naive_solver. Qed.

End runs.

(** ** Reflection of the boolean tests of the code *)

Lemma bool_decide_true_iff (P : Prop) `{!Decision P} : bool_decide P = true ↔ P.
Proof. apply bool_decide_eq_true. Qed.

Lemma bool_decide_false_iff (P : Prop) `{!Decision P} : bool_decide P = false ↔ ¬ P.
Proof. apply bool_decide_eq_false. Qed.

(** The equations that turn a boolean guard of the code into a proposition. *)
Create Rewrite HintDb guards.
#[export] Hint Rewrite
  N.eqb_eq N.eqb_neq N.ltb_lt N.ltb_ge N.leb_le N.leb_gt
  Nat.eqb_eq Nat.eqb_neq Nat.ltb_lt Nat.ltb_ge Nat.leb_le Nat.leb_gt
  andb_true_iff andb_false_iff orb_true_iff orb_false_iff
  negb_true_iff negb_false_iff
  @bool_decide_true_iff @bool_decide_false_iff : guards.

(** The inversion lemmas of the error monad. *)
Create Rewrite HintDb results.
#[export] Hint Rewrite
  @ensure_Ok @assert_Ok @map_err_Ok @ok_or_Ok @expect_Ok
  @checked_add_Some @checked_sub_Some @add_u64_Ok @sub_u64_Ok : results.

(** Decompose a successful run: every bind, [ensure!], [map_err] and checked
    operation in a hypothesis [_ = Ok _] becomes the fact it was guarding. *)
Ltac run_step :=
  match goal with
  | H : mbind _ _ = Ok _ |- _ =>
      let a := fresh "a" in let Ha := fresh "Hrun" in
      apply bind_Ok in H as (a & Ha & H)
  | H : mbind _ _ _ = (Ok _, _) |- _ =>
      let a := fresh "a" in let s := fresh "s" in let Ha := fresh "Hrun" in
      apply mbind_M_Ok in H as (a & s & Ha & H)
  | H : ensure _ _ = Ok _ |- _ => apply ensure_Ok in H
  | H : assert_ _ _ = Ok _ |- _ => apply assert_Ok in H
  | H : map_err _ _ = Ok _ |- _ => apply map_err_Ok in H
  | H : ok_or _ _ = Ok _ |- _ => apply ok_or_Ok in H
  | H : expect _ _ = Ok _ |- _ => apply expect_Ok in H
  | H : checked_add _ _ = Some _ |- _ => apply checked_add_Some in H as [-> H]
  | H : checked_sub _ _ = Some _ |- _ => apply checked_sub_Some in H as [-> H]
  | H : add_u64 _ _ = Ok _ |- _ => apply add_u64_Ok in H as [-> H]
  | H : sub_u64 _ _ = Ok _ |- _ => apply sub_u64_Ok in H as [-> H]
  | H : gets _ _ = (Ok _, _) |- _ => unfold gets in H
  | H : lift _ _ = (Ok _, _) |- _ => unfold lift in H
  | H : modify _ _ = (Ok _, _) |- _ => unfold modify in H
  | H : (_, _) = (_, _) |- _ => apply pair_equal_spec in H as [H ?]
  | H : Ok _ = Ok _ |- _ => injection H as H
  | H : Err _ = Ok _ |- _ => discriminate H
  | H : Panic _ = Ok _ |- _ => discriminate H
  | H : mret _ = Ok _ |- _ => injection H as H
  | H : mret _ _ = (Ok _, _) |- _ => unfold mret, M_ret in H
  | a : unit |- _ => destruct a
  end.
Ltac run_inv := repeat (run_step; simplify_eq/=).

(** Boolean guards in the context become propositions. *)
Ltac guards := autorewrite with guards in *.

(** ** Generic facts *)

Lemma StronglySorted_reverse {A} (R : relation A) l :
  StronglySorted R l → StronglySorted (flip R) (reverse l).
Proof.
  induction 1 as [|x l Hl IH Hx]; [constructor|]. rewrite reverse_cons.
  apply StronglySorted_app_2; [|done|repeat constructor].
  intros y z Hy ->%list_elem_of_singleton. rewrite elem_of_reverse in Hy.
  eapply Forall_forall in Hx; [exact Hx|done].
Qed.

(** ** Lists grouped by a key *)

Section grouping.
Context {A K : Type} `{!EqDecision K} (f : A → K).
Implicit Types (k : K) (x : A) (l : list A).

(** The elements of a key, in their order. *)
Definition group k l : list A := filter (λ x, f x = k) l.

Lemma group_app k l1 l2 : group k (l1 ++ l2) = group k l1 ++ group k l2.
Proof. apply filter_app. Qed.

Lemma group_single k x : group k [x] = if decide (f x = k) then [x] else [].
Proof. unfold group. rewrite filter_cons, filter_nil. by case_decide. Qed.

Lemma group_cons k x l : group k (x :: l) = group k [x] ++ group k l.
Proof. apply (group_app k [x] l). Qed.

Lemma elem_of_group k x l : x ∈ group k l ↔ f x = k ∧ x ∈ l.
Proof. unfold group. by rewrite list_elem_of_filter. Qed.

Lemma group_split k x r l :
  group k l = x :: r → ∃ l1 l2, l = l1 ++ x :: l2 ∧ group k l1 = [] ∧ group k l2 = r.
Proof.
  induction l as [|y l IH]; [done|]. rewrite group_cons, group_single. case_decide as Hy; simpl.
  - intros [= -> <-]. by exists [], l.
  - intros (l1 & l2 & -> & H1 & H2)%IH. exists (y :: l1), l2. split; [done|]. split; [|done].
    by rewrite group_cons, group_single, decide_False.
Qed.

(** A list is determined up to its order by its groups. *)
Lemma group_submseteq l1 l2 : (∀ k, group k l1 `prefix_of` group k l2) → l1 ⊆+ l2.
Proof.
  revert l2. induction l1 as [|x l1 IH]; intros l2 H; [apply submseteq_nil_l|].
  pose proof (H (f x)) as [r Hr]. rewrite group_cons, group_single, decide_True in Hr by done.
  destruct (group_split _ _ _ _ Hr) as (k1 & k2 & -> & H1 & H2).
  rewrite <- Permutation_middle. apply submseteq_skip, IH. intros k. destruct (H k) as [r' Hr'].
  rewrite group_app, (group_cons k x k2), (group_cons k x l1), !group_single in Hr'.
  rewrite group_app. case_decide as Hk; [subst k|by exists r'].
  rewrite H1 in *. simpl in *. injection Hr' as ->. by exists r'.
Qed.

Lemma group_perm l1 l2 : (∀ k, group k l1 = group k l2) → l1 ≡ₚ l2.
Proof.
  intros H. apply submseteq_length_Permutation; [apply group_submseteq; intros k; by rewrite H|].
  assert (H' : l2 ⊆+ l1) by (apply group_submseteq; intros k; by rewrite H). by apply submseteq_length.
Qed.

End grouping.

Lemma max_of_Some l m :
  max_of l = Some m ↔ m ∈ l ∧ (∀ x, x ∈ l → x ≤ m).
Proof.
  destruct l as [|x l]; simpl; [set_solver|].
  assert (Hspec : ∀ l x, foldr N.max x l ∈ x :: l ∧ ∀ y, y ∈ x :: l → y ≤ foldr N.max x l).
  { clear. induction l as [|z l IH]; intros x; simpl.
    - split; [set_solver|]. intros y Hy. apply list_elem_of_singleton in Hy as ->. lia.
    - destruct (IH x) as [Hin Hub]. split.
      + destruct (N.max_spec z (foldr N.max x l)) as [[_ ->]|[_ ->]]; set_solver.
      + intros y Hy. assert (y = z ∨ y ∈ x :: l) as [->|Hy'] by set_solver; [lia|].
        specialize (Hub y Hy'). lia. }
  destruct (Hspec l x) as [Hin Hub]. split.
  - intros [= <-]. done.
  - intros [Hin' Hub']. f_equal. apply N.le_antisymm; auto.
Qed.

Lemma max_of_is_Some l : l ≠ [] → is_Some (max_of l).
Proof. destruct l; [done|]. simpl. eauto. Qed.

(** Two lists sorted by a strict key order with the same elements are equal. *)
Lemma sorted_by_key_unique {A} (l1 l2 : list (nat * A)) :
  StronglySorted (λ x y, (x.1 < y.1)%nat) l1 →
  StronglySorted (λ x y, (x.1 < y.1)%nat) l2 →
  l1 ≡ₚ l2 → l1 = l2.
Proof.
  revert l2. induction l1 as [|x l1 IH]; intros l2 Hs1 Hs2 Hp.
  { by apply Permutation_nil_l in Hp. }
  destruct l2 as [|y l2]; [by apply Permutation_nil_r in Hp|].
  inversion Hs1 as [|?? Hs1' Hx]; inversion Hs2 as [|?? Hs2' Hy]; subst.
  assert (x = y) as ->.
  { assert (Hxin : x ∈ y :: l2) by (rewrite <- Hp; set_solver).
    assert (Hyin : y ∈ x :: l1) by (rewrite Hp; set_solver).
    rewrite Forall_forall in Hx, Hy.
    apply elem_of_cons in Hxin as [->|Hxin]; [done|].
    apply elem_of_cons in Hyin as [->|Hyin]; [done|].
    specialize (Hx _ Hyin). specialize (Hy _ Hxin). lia. }
  f_equal. apply IH; auto. by apply Permutation_cons_inv in Hp.
Qed.

Lemma sorted_key_le_strict {A} (l : list (nat * A)) :
  Sorted key_le l → NoDup l.*1 → StronglySorted (λ x y, (x.1 < y.1)%nat) l.
Proof.
  intros Hs Hnd. apply Sorted_StronglySorted in Hs; [|intros ???; unfold key_le; lia].
  induction Hs as [|x l Hs IH Hx]; [constructor|].
  simpl in Hnd. apply NoDup_cons in Hnd as [Hnin Hnd]. constructor; [auto|].
  rewrite Forall_forall in Hx |- *. intros y Hy. specialize (Hx y Hy).
  assert (x.1 ≠ y.1) by (intros Heq; apply Hnin; rewrite Heq; by apply list_elem_of_fmap_2).
  unfold key_le in Hx. lia.
Qed.

#[global] Instance key_le_total {A} : Total (@key_le A).
Proof. intros x y. unfold key_le. lia. Qed.

(** The values of an index map are those of any strictly sorted listing of it. *)
Lemma values_by_index_sorted {A} (m : gmap nat A) (l : list (nat * A)) :
  StronglySorted (λ x y, (x.1 < y.1)%nat) l → l ≡ₚ map_to_list m →
  values_by_index m = l.*2.
Proof.
  intros Hs Hp. unfold values_by_index. f_equal. apply sorted_by_key_unique; [|done|].
  - apply sorted_key_le_strict; [apply Sorted_merge_sort, _|].
    rewrite (merge_sort_Permutation key_le). apply NoDup_fst_map_to_list.
  - by rewrite merge_sort_Permutation, Hp.
Qed.

Section listing.
Context {A B : Type}.
Implicit Types (f : A → option B) (l : list A).

Lemma listing_values k f l : (listing k f l).*2 = omap f l.
Proof.
  revert k. induction l as [|a l IH]; intros k; [done|]. simpl.
  destruct (f a); simpl; by rewrite IH.
Qed.

Lemma elem_of_listing k f l i b :
  (i, b) ∈ listing k f l ↔ ∃ j a, i = (k + j)%nat ∧ l !! j = Some a ∧ f a = Some b.
Proof.
  revert k. induction l as [|a l IH]; intros k; simpl.
  { split; [set_solver|]. intros (j & ? & _ & Hj & _). by destruct j. }
  trans ((i = k ∧ f a = Some b) ∨ (i, b) ∈ listing (S k) f l).
  { destruct (f a); set_solver. }
  rewrite IH. split.
  - intros [[-> Hf]|(j & c & -> & Hj & Hc)].
    + exists 0%nat, a. split; [lia|done].
    + exists (S j), c. split; [lia|done].
  - intros ([|j] & c & -> & Hj & Hc); simpl in Hj.
    + left. simplify_eq. split; [lia|done].
    + right. exists j, c. split; [lia|done].
Qed.

Lemma listing_sorted k f l : StronglySorted (λ x y, (x.1 < y.1)%nat) (listing k f l).
Proof.
  revert k. induction l as [|a l IH]; intros k; simpl; [constructor|].
  destruct (f a); [|apply IH]. constructor; [apply IH|].
  apply Forall_forall. intros [i b'] (j & c & -> & _)%elem_of_listing. simpl. lia.
Qed.

Lemma listing_NoDup k f l : NoDup (listing k f l).
Proof.
  assert (Hs := listing_sorted k f l). induction Hs as [|x m Hs IH Hx]; [constructor|].
  constructor; [|done]. intros Hin. rewrite Forall_forall in Hx.
  specialize (Hx x Hin). lia.
Qed.

End listing.
