(* ===== verification/Gaptos.v ===== *)
(** * The types and operations the consensus code takes from [gaptos]

    [gaptos] is the Galxe fork of aptos-core, a git dependency that is not part
    of this repository: hashes, signatures, [BlockInfo], [LedgerInfo], the
    validator verifier.  The code only uses them through their interface, so the
    development takes the interface as a class [Gaptos] and every statement
    holds for every implementation of it.  What a theorem relies on beyond the
    types of the operations is stated as a law class, for documented
    behaviour only: a constructor stores what its accessor returns, a quorum
    check sums voting power. *)

From S2P Require Import Prelude.

(** [aptos_types::transaction::TransactionPayload], by its variants. *)
Inductive TransactionPayload : Type :=
| GTxnBytes | Script | ModuleBundle | EntryFunction | Multisig.

Class Gaptos := {
  (** aptos_crypto *)
  HashValue : Type;
  HashValue_eqdec :: EqDecision HashValue;
  HashValue_countable :: Countable HashValue;
  HashValue_zero : HashValue;
  ACCUMULATOR_PLACEHOLDER_HASH : HashValue;
  GENESIS_BLOCK_ID : HashValue;
  Signature : Type;
  Signature_eqdec :: EqDecision Signature;
  CryptoMaterialError : Type;
  PublicKey : Type;
  PublicKey_eqdec :: EqDecision PublicKey;
  PrivateKey : Type;
  public_key : PrivateKey → PublicKey;
  (** aptos_types::account_address *)
  AccountAddress : Type;
  AccountAddress_eqdec :: EqDecision AccountAddress;
  AccountAddress_countable :: Countable AccountAddress;
  (** aptos_types::transaction, validator_txn *)
  SignedTransaction : Type;
  ValidatorTransaction : Type;
  txn_payload : SignedTransaction → TransactionPayload;
  (** aptos_types::epoch_state and validator_verifier *)
  ValidatorVerifier : Type;
  EpochState : Type;
  es_epoch : EpochState → N;
  es_verifier : EpochState → ValidatorVerifier;
  (** aptos_types::block_info *)
  BlockInfo : Type;
  BlockInfo_eqdec :: EqDecision BlockInfo;
  BlockInfo_new : N → N → HashValue → HashValue → N → N → option EpochState → BlockInfo;
  BlockInfo_empty : BlockInfo;
  bi_epoch : BlockInfo → N;
  bi_round : BlockInfo → N;
  bi_id : BlockInfo → HashValue;
  bi_version : BlockInfo → N;
  bi_timestamp_usecs : BlockInfo → N;
  bi_has_reconfiguration : BlockInfo → bool;
  bi_is_ordered_only : BlockInfo → bool;
  bi_match_ordered_only : BlockInfo → BlockInfo → bool;
  EpochBlockInfo : Type;
  bi_epoch_block_info : BlockInfo → option EpochBlockInfo;
  ebi_block_number : EpochBlockInfo → N;
  ebi_epoch_start_timestamp_usecs : EpochBlockInfo → N;
  (** aptos_types::ledger_info *)
  LedgerInfo : Type;
  LedgerInfo_new : BlockInfo → HashValue → LedgerInfo;
  LedgerInfo_new_with_block_info : BlockInfo → HashValue → HashValue → N → LedgerInfo;
  li_commit_info : LedgerInfo → BlockInfo;
  li_consensus_data_hash : LedgerInfo → HashValue;
  li_hash : LedgerInfo → HashValue;
  li_epoch : LedgerInfo → N;
  li_round : LedgerInfo → N;
  li_ends_epoch : LedgerInfo → bool;
  li_next_epoch_state : LedgerInfo → option EpochState;
  li_block_hash : LedgerInfo → HashValue;
  li_block_number : LedgerInfo → N;
  li_version : LedgerInfo → N;
  li_waypoint_version : LedgerInfo → N;
  li_timestamp_usecs : LedgerInfo → N;
  (** aptos_types::aggregate_signature *)
  BitVec : Type;
  BitVec_with_num_bits : N → BitVec;
  BitVec_default : BitVec;
  AggregateSignature : Type;
  AggregateSignature_eqdec :: EqDecision AggregateSignature;
  AggregateSignature_empty : AggregateSignature;
  AggregateSignature_new : BitVec → option Signature → AggregateSignature;
  agg_num_voters : AggregateSignature → nat;
  agg_signers_addresses : AggregateSignature → list AccountAddress → list AccountAddress;
  LedgerInfoWithSignatures : Type;
  LedgerInfoWithSignatures_new : LedgerInfo → AggregateSignature → LedgerInfoWithSignatures;
  liws_ledger_info : LedgerInfoWithSignatures → LedgerInfo;
  liws_num_voters : LedgerInfoWithSignatures → nat;
}.

(** The errors of the validator verifier: the two constructors the code names,
    and the others it only forwards. *)
Inductive VerifyError : Type :=
| TooLittleVotingPower (voting_power : N)
| EmptySignature
| OtherVerifyError (code : N).

(** [anyhow::Error], up to its display: a literal message of the code (format
    arguments dropped), or a library error forwarded by [?]. *)
Inductive Anyhow `{!Gaptos} : Type :=
| Msg (text : string)
| VerifyErr (e : VerifyError)
| CryptoErr (e : CryptoMaterialError).

(** [anyhow::Context::context]: the displayed message becomes [text]. *)
Definition with_context `{!Gaptos} {E A} (text : string) (r : result E A) : result Anyhow A :=
  map_err (λ _, Msg text) r.

Lemma with_context_Ok `{!Gaptos} {E A} text (r : result E A) a :
  with_context text r = Ok a ↔ r = Ok a.
Proof. apply map_err_Ok. Qed.

(** [run_inv] through [with_context]. *)
Ltac gaptos_inv :=
  run_inv;
  repeat match goal with
  | H : with_context _ _ = Ok _ |- _ => apply with_context_Ok in H; run_inv
  end.

(** The verifier of an epoch's validator set. *)
Class Verifier `{!Gaptos} := {
  liws_verify_signatures :
    LedgerInfoWithSignatures → ValidatorVerifier → result VerifyError unit;
  vv_len : ValidatorVerifier → N;
  vv_ordered_addresses : ValidatorVerifier → list AccountAddress;
  vv_address_to_validator_index : ValidatorVerifier → gmap AccountAddress nat;
  vv_get_public_key : ValidatorVerifier → AccountAddress → option PublicKey;
  vv_get_voting_power : ValidatorVerifier → AccountAddress → option N;
  vv_quorum_voting_power : ValidatorVerifier → N;
  vv_total_voting_power : ValidatorVerifier → N;
  vv_check_voting_power :
    ValidatorVerifier → list AccountAddress → bool → result VerifyError N;
}.

(** ** Laws *)

(** [BlockInfo::new] stores its arguments; [BlockInfo::empty] is the block info
    of round 0; matching "ordered only" means agreeing on the ordering fields. *)
Class BlockInfoLaws `{!Gaptos} : Prop := {
  bi_epoch_new e r id x v t n : bi_epoch (BlockInfo_new e r id x v t n) = e;
  bi_round_new e r id x v t n : bi_round (BlockInfo_new e r id x v t n) = r;
  bi_id_new e r id x v t n : bi_id (BlockInfo_new e r id x v t n) = id;
  bi_version_new e r id x v t n : bi_version (BlockInfo_new e r id x v t n) = v;
  bi_timestamp_new e r id x v t n : bi_timestamp_usecs (BlockInfo_new e r id x v t n) = t;
  bi_reconfiguration_new e r id x v t n :
    bi_has_reconfiguration (BlockInfo_new e r id x v t n) = bool_decide (is_Some n);
  bi_round_empty : bi_round BlockInfo_empty = 0;
  bi_match_ordered_only_fields b1 b2 :
    bi_match_ordered_only b1 b2 = true →
    bi_epoch b1 = bi_epoch b2 ∧ bi_round b1 = bi_round b2 ∧ bi_id b1 = bi_id b2;
}.

(** [LedgerInfo] is the pair of a commit info and a consensus data hash. *)
Class LedgerInfoLaws `{!Gaptos} : Prop := {
  li_commit_info_new b h : li_commit_info (LedgerInfo_new b h) = b;
  li_consensus_data_hash_new b h : li_consensus_data_hash (LedgerInfo_new b h) = h;
  li_commit_info_new_with b h x n : li_commit_info (LedgerInfo_new_with_block_info b h x n) = b;
  li_consensus_data_hash_new_with b h x n :
    li_consensus_data_hash (LedgerInfo_new_with_block_info b h x n) = h;
  li_epoch_eq l : li_epoch l = bi_epoch (li_commit_info l);
  li_round_eq l : li_round l = bi_round (li_commit_info l);
  liws_ledger_info_new l s : liws_ledger_info (LedgerInfoWithSignatures_new l s) = l;
}.

Create Rewrite HintDb gaptos.
#[export] Hint Rewrite @bi_epoch_new @bi_round_new @bi_id_new @bi_version_new
  @bi_timestamp_new @bi_reconfiguration_new @bi_round_empty
  @li_commit_info_new @li_consensus_data_hash_new
  @li_commit_info_new_with @li_consensus_data_hash_new_with @liws_ledger_info_new
  using typeclasses eauto : gaptos.
