(* ===== verification/Types.v ===== *)
(** * The data of the consensus protocol

    The structs and enums of [consensus-types] that the safety rules, the block
    tree and the vote aggregation exchange, and the interface of the
    cryptography applied to them.  A struct is a record with the source's field
    names behind a short prefix; [Arc] and references are transparent. *)

From S2P Require Import Prelude Gaptos.

(** The type aliases [Round] and [Author] of common.rs. *)
Abbreviation Round := N (only parsing).
Abbreviation Author := AccountAddress (only parsing).

Section types.
Context `{!Gaptos}.


(** ** Batches and payloads (proof_of_store.rs, common.rs) *)

Record BatchId := { bid_id : N; bid_nonce : N }.

Record BatchInfo := {
  bin_author : Author;
  bin_batch_id : BatchId;
  bin_epoch : N;
  bin_expiration : N;
  bin_digest : HashValue;
  bin_num_txns : N;
  bin_num_bytes : N;
  bin_gas_bucket_start : N;
}.

#[global] Instance BatchId_eqdec : EqDecision BatchId.
Proof. solve_decision. Defined.
#[global] Instance BatchInfo_eqdec : EqDecision BatchInfo.
Proof. solve_decision. Defined.

Record ProofOfStore := { pos_info : BatchInfo; pos_multi_signature : AggregateSignature }.

(** [ProofWithData]; the [status] cell, a prefetch cache that is skipped by
    serialization and hashing, is not part of the model. *)
Record ProofWithData := { pwd_proofs : list ProofOfStore }.

Record ProofWithDataWithTxnLimit := {
  pwl_proof_with_data : ProofWithData;
  pwl_max_txns_to_execute : option N;
}.

Inductive PayloadExecutionLimit :=
| LimitNone
| MaxTransactionsToExecute (limit : N).

Record InlineBatch := {
  inb_batch_info : BatchInfo;
  inb_transactions : list SignedTransaction;
}.

(** payload.rs; the enum has the single version [V1], whose [BatchPointer]s are
    their summaries (the [status] cells are prefetch caches again). *)
Record OptQuorumStorePayload := {
  oqs_inline_batches : list InlineBatch;
  oqs_opt_batches : list BatchInfo;
  oqs_proofs : list ProofOfStore;
  oqs_execution_limits : PayloadExecutionLimit;
}.

Inductive Payload :=
| DirectMempool (txns : list SignedTransaction)
| InQuorumStore (p : ProofWithData)
| InQuorumStoreWithLimit (p : ProofWithDataWithTxnLimit)
| QuorumStoreInlineHybrid (inline_batches : list (BatchInfo * list SignedTransaction))
    (proof_with_data : ProofWithData) (max_txns : option N)
| OptQuorumStore (p : OptQuorumStorePayload).

(** ** Votes and certificates *)

(** vote_data.rs *)
Record VoteData := { vd_proposed : BlockInfo; vd_parent : BlockInfo }.

(** quorum_cert.rs *)
Record QuorumCert := {
  qc_vote_data : VoteData;
  qc_signed_ledger_info : LedgerInfoWithSignatures;
}.

(** wrapped_ledger_info.rs *)
Record WrappedLedgerInfo := {
  wli_vote_data : VoteData;
  wli_signed_ledger_info : LedgerInfoWithSignatures;
}.

(** timeout_2chain.rs *)
Record TwoChainTimeout := {
  tmo_epoch : N;
  tmo_round : Round;
  tmo_quorum_cert : QuorumCert;
}.

Record TimeoutSigningRepr := {
  tsr_epoch : N;
  tsr_round : Round;
  tsr_hqc_round : Round;
}.

Record AggregateSignatureWithRounds := {
  asr_sig : AggregateSignature;
  asr_rounds : list Round;
}.

Record TwoChainTimeoutCertificate := {
  tc_timeout : TwoChainTimeout;
  tc_signatures_with_rounds : AggregateSignatureWithRounds;
}.

(** [BTreeMap<AccountAddress, (Round, Signature)>]. *)
Record PartialSignaturesWithRound := {
  psr_signatures : gmap Author (Round * Signature);
}.

Record TwoChainTimeoutWithPartialSignatures := {
  tps_timeout : TwoChainTimeout;
  tps_signatures : PartialSignaturesWithRound;
}.

(** vote.rs *)
Record Vote := {
  vote_vote_data : VoteData;
  vote_author : Author;
  vote_ledger_info : LedgerInfo;
  vote_signature : Signature;
  vote_two_chain_timeout : option (TwoChainTimeout * Signature);
}.

(** order_vote.rs *)
Record OrderVote := {
  ov_author : Author;
  ov_ledger_info : LedgerInfo;
  ov_signature : Signature;
}.

(** order_vote_msg.rs *)
Record OrderVoteMsg := { ovm_order_vote : OrderVote; ovm_quorum_cert : QuorumCert }.

(** sync_info.rs *)
Record SyncInfo := {
  si_highest_quorum_cert : QuorumCert;
  si_highest_ordered_cert : option WrappedLedgerInfo;
  si_highest_commit_cert : WrappedLedgerInfo;
  si_highest_2chain_timeout_cert : option TwoChainTimeoutCertificate;
}.

(** vote_msg.rs *)
Record VoteMsg := { vm_vote : Vote; vm_sync_info : SyncInfo }.

(** ** Blocks *)

(** proposal_ext.rs; the enum has the single constructor [V0]. *)
Inductive ProposalExt :=
| ProposalExt_V0 (validator_txns : list ValidatorTransaction) (payload : Payload)
    (author : Author) (failed_authors : list (Round * Author)).

(** block_data.rs *)
Inductive BlockType :=
| Proposal (payload : Payload) (author : Author) (failed_authors : list (Round * Author))
| NilBlock (failed_authors : list (Round * Author))
| Genesis
| ProposalExtBlock (p : ProposalExt)
| DAGBlock (author : Author) (failed_authors : list (Round * Author))
    (validator_txns : list ValidatorTransaction) (payload : Payload)
    (node_digests : list HashValue) (parent_block_id : HashValue) (parents_bitvec : BitVec).

Record BlockData := {
  bd_epoch : N;
  bd_round : Round;
  bd_timestamp_usecs : N;
  bd_quorum_cert : QuorumCert;
  bd_block_type : BlockType;
}.

(** block.rs; [block_number] is a [OnceCell<u64>]. *)
Record Block := {
  block_id : HashValue;
  block_block_data : BlockData;
  block_signature : option Signature;
  block_block_number : option N;
}.

(** proposal_msg.rs *)
Record ProposalMsg := { pm_proposal : Block; pm_sync_info : SyncInfo }.

(** vote_proposal.rs *)
Record VoteProposal := {
  vp_block : Block;
  vp_next_epoch_state : option EpochState;
  vp_decoupled_execution : bool;
}.

(** order_vote_proposal.rs *)
Record OrderVoteProposal := {
  ovp_block : Block;
  ovp_block_info : BlockInfo;
  ovp_quorum_cert : QuorumCert;
}.

(** safety_data.rs *)
Record SafetyData := {
  sd_epoch : N;
  sd_last_voted_round : N;
  sd_preferred_round : N;
  sd_one_chain_round : N;
  sd_last_vote : option Vote;
  sd_highest_timeout_round : N;
}.

(** The messages validators sign: the types the code passes to
    [ValidatorSigner::sign] and [ValidatorVerifier::verify]. *)
Inductive Signable :=
| SignLedgerInfo (li : LedgerInfo)
| SignTimeout (t : TimeoutSigningRepr)
| SignBlockData (b : BlockData)
| SignBatchInfo (b : BatchInfo).

End types.

(** ** Cryptography over these types

    The derived [BCSCryptoHash] hashes and the signature scheme of [gaptos]. *)
Class Crypto `{!Gaptos, !Verifier} := {
  hash_vote_data : VoteData → HashValue;
  hash_block_data : BlockData → HashValue;
  (** [BatchPayload::new(author, txns).hash()]: the BCS bytes, hashed. *)
  hash_batch_payload : AccountAddress → list SignedTransaction → HashValue;
  ValidatorSigner : Type;
  ValidatorSigner_new : AccountAddress → PrivateKey → ValidatorSigner;
  signer_author : ValidatorSigner → AccountAddress;
  signer_public_key : ValidatorSigner → PublicKey;
  signer_sign : ValidatorSigner → Signable → result CryptoMaterialError Signature;
  vv_verify : ValidatorVerifier → AccountAddress → Signable → Signature → result VerifyError unit;
  vv_verify_multi_signatures :
    ValidatorVerifier → BatchInfo → AggregateSignature → result VerifyError unit;
  vv_verify_aggregate_signatures :
    ValidatorVerifier → list Signable → AggregateSignature → result VerifyError unit;
  vv_aggregate_signatures :
    ValidatorVerifier → gmap AccountAddress Signature → result VerifyError AggregateSignature;
}.

(** Collision resistance of the vote-data hash, in the symbolic form in which
    the protocol uses it: equal digests come from equal vote data, no vote data
    has the all-zero digest reserved for order votes, and block data with equal
    digests has equal rounds. *)
Class HashLaws `{!Gaptos, !Verifier, !Crypto} : Prop := {
  hash_vote_data_inj vd1 vd2 : hash_vote_data vd1 = hash_vote_data vd2 → vd1 = vd2;
  hash_vote_data_nonzero vd : hash_vote_data vd ≠ HashValue_zero;
  hash_block_data_round b1 b2 : hash_block_data b1 = hash_block_data b2 → bd_round b1 = bd_round b2;
}.

(** Aggregation of BLS signatures: the bit mask of an aggregate lists the
    signers in validator order, and an aggregate of valid signatures of a
    quorum verifies against the messages they signed. *)
Class AggregateLaws `{!Gaptos, !Verifier, !Crypto} : Prop := {
  vv_index_spec v a i :
    vv_address_to_validator_index v !! a = Some i ↔ vv_ordered_addresses v !! i = Some a;
  agg_signers v m s :
    vv_aggregate_signatures v m = Ok s →
    agg_signers_addresses s (vv_ordered_addresses v)
    = filter (λ a, is_Some (m !! a)) (vv_ordered_addresses v);
  agg_num v m s :
    vv_aggregate_signatures v m = Ok s →
    agg_num_voters s = length (agg_signers_addresses s (vv_ordered_addresses v));
  agg_verify v m s msgs authors :
    vv_aggregate_signatures v m = Ok s →
    authors ≡ₚ (map_to_list m).*1 →
    is_ok (vv_check_voting_power v authors true) = true →
    Forall2 (λ a msg, ∃ sig, m !! a = Some sig ∧ vv_verify v a msg sig = Ok tt)
      (agg_signers_addresses s (vv_ordered_addresses v)) msgs →
    vv_verify_aggregate_signatures v msgs s = Ok tt;
}.
