(* ===== verification/Bytes.v ===== *)
(** * Byte strings

    Fixed-width big- and little-endian encodings of unsigned integers
    ([to_be_bytes], [from_be_bytes], [to_le_bytes], [from_le_bytes]) and the
    lexicographic order on byte strings, which is the key order of the database.
    A byte is a number below 256. *)

From S2P Require Import Prelude.

Definition is_byte (b : N) : Prop := b < 256.

(** ** Encodings of a given number of bytes *)

Fixpoint to_le_bytes (n : nat) (x : N) : list N :=
  match n with
  | O => []
  | S n => x mod 256 :: to_le_bytes n (x / 256)
  end.

Fixpoint from_le_bytes (l : list N) : N :=
  match l with
  | [] => 0
  | b :: l => b + 256 * from_le_bytes l
  end.

Definition to_be_bytes (n : nat) (x : N) : list N := reverse (to_le_bytes n x).
Definition from_be_bytes (l : list N) : N := from_le_bytes (reverse l).

(** ** The order of byte strings *)

Fixpoint bytes_ltb (l1 l2 : list N) : bool :=
  match l1, l2 with
  | _, [] => false
  | [], _ :: _ => true
  | b1 :: l1, b2 :: l2 => (b1 <? b2) || (b1 =? b2) && bytes_ltb l1 l2
  end.

Definition bytes_lt (l1 l2 : list N) : Prop := bytes_ltb l1 l2 = true.

(** ** Facts *)

Lemma length_to_le_bytes n x : length (to_le_bytes n x) = n.
Proof. revert x. induction n as [|n IH]; intros x; simpl; [done|]. by rewrite IH. Qed.

Lemma to_le_bytes_bytes n x : Forall is_byte (to_le_bytes n x).
Proof.
  revert x. induction n as [|n IH]; intros x; simpl; constructor; [|done].
  unfold is_byte. apply N.mod_lt. lia.
Qed.

Lemma from_to_le_bytes n x : x < 256 ^ N.of_nat n → from_le_bytes (to_le_bytes n x) = x.
Proof.
  revert x. induction n as [|n IH]; intros x Hx.
  { change (256 ^ N.of_nat 0) with 1 in Hx. simpl. lia. }
  cbn [to_le_bytes from_le_bytes]. rewrite Nat2N.inj_succ, N.pow_succ_r' in Hx.
  rewrite IH by (apply N.Div0.div_lt_upper_bound; lia).
  pose proof (N.Div0.div_mod x 256). lia.
Qed.

Lemma to_from_le_bytes l : Forall is_byte l → to_le_bytes (length l) (from_le_bytes l) = l.
Proof.
  induction 1 as [|b l Hb Hl IH]; [done|]. unfold is_byte in Hb.
  cbn [from_le_bytes length to_le_bytes].
  rewrite (N.mul_comm 256), N.Div0.mod_add, N.mod_small by done.
  rewrite N.div_add, N.div_small, N.add_0_l by lia. by rewrite IH.
Qed.

Lemma from_le_bytes_bound l : Forall is_byte l → from_le_bytes l < 256 ^ N.of_nat (length l).
Proof.
  induction 1 as [|b l Hb Hl IH]; [done|]. unfold is_byte in Hb.
  cbn [from_le_bytes length]. rewrite Nat2N.inj_succ, N.pow_succ_r'. lia.
Qed.

Lemma to_le_bytes_inj n x y :
  x < 256 ^ N.of_nat n → y < 256 ^ N.of_nat n → to_le_bytes n x = to_le_bytes n y → x = y.
Proof. intros Hx Hy Heq. by rewrite <- (from_to_le_bytes n x), Heq, from_to_le_bytes. Qed.

Lemma length_to_be_bytes n x : length (to_be_bytes n x) = n.
Proof. unfold to_be_bytes. by rewrite length_reverse, length_to_le_bytes. Qed.

Lemma from_to_be_bytes n x : x < 256 ^ N.of_nat n → from_be_bytes (to_be_bytes n x) = x.
Proof. intros Hx. unfold from_be_bytes, to_be_bytes. by rewrite reverse_involutive, from_to_le_bytes. Qed.

Lemma to_from_be_bytes n l :
  Forall is_byte l → length l = n → to_be_bytes n (from_be_bytes l) = l.
Proof.
  intros Hl <-. unfold to_be_bytes, from_be_bytes. rewrite <- (length_reverse l).
  rewrite to_from_le_bytes by (by apply Forall_reverse). apply reverse_involutive.
Qed.

(** A [u64] takes eight bytes. *)
Lemma u64_bytes x : x ≤ u64_max → x < 256 ^ N.of_nat 8.
Proof. unfold u64_max. change (256 ^ N.of_nat 8) with 18446744073709551616. lia. Qed.

Lemma from_to_be_bytes_u64 x : from_be_bytes (to_be_bytes 8 x) ≤ u64_max.
Proof.
  unfold from_be_bytes, to_be_bytes. rewrite reverse_involutive.
  pose proof (from_le_bytes_bound (to_le_bytes 8 x) (to_le_bytes_bytes 8 x)) as Hb.
  rewrite length_to_le_bytes in Hb. change (256 ^ N.of_nat 8) with 18446744073709551616 in Hb.
  unfold u64_max. lia.
Qed.

Lemma to_be_bytes_S n x :
  to_be_bytes (S n) x = to_be_bytes n (x / 256) ++ [x mod 256].
Proof. unfold to_be_bytes. simpl. by rewrite reverse_cons. Qed.

(** *** The lexicographic order *)

Lemma bytes_ltb_irrefl l : bytes_ltb l l = false.
Proof. induction l as [|b l IH]; [done|]. simpl. by rewrite N.ltb_irrefl, N.eqb_refl, IH. Qed.

#[global] Instance bytes_lt_dec : RelDecision bytes_lt := λ l1 l2, decide (bytes_ltb l1 l2 = true).

#[global] Instance bytes_lt_strict : StrictOrder bytes_lt.
Proof.
  split.
  - intros l Hl. unfold bytes_lt in Hl. by rewrite bytes_ltb_irrefl in Hl.
  - unfold bytes_lt. intros l1. induction l1 as [|b1 l1 IH]; intros [|b2 l2] [|b3 l3]; simpl; try done.
    intros H12 H23. guards.
    destruct H12 as [H12|[-> H12]], H23 as [H23|[-> H23]]; [left; lia|by left|by left|].
    right. split; [done|]. by apply (IH l2).
Qed.

Lemma bytes_lt_trichotomy l1 l2 : bytes_lt l1 l2 ∨ l1 = l2 ∨ bytes_lt l2 l1.
Proof.
  unfold bytes_lt. revert l2. induction l1 as [|b1 l1 IH]; intros [|b2 l2]; simpl; auto.
  destruct (N.lt_trichotomy b1 b2) as [H|[->|H]].
  - left. guards. by left.
  - destruct (IH l2) as [?|[->|?]]; [left|by right; left|right; right]; guards; auto.
  - right; right. guards. by left.
Qed.

(** Prefixes of one length decide, suffixes break the tie. *)
Lemma bytes_ltb_app p1 p2 l1 l2 :
  length p1 = length p2 →
  bytes_ltb (p1 ++ l1) (p2 ++ l2) = bytes_ltb p1 p2 || bool_decide (p1 = p2) && bytes_ltb l1 l2.
Proof.
  revert p2. induction p1 as [|b1 p1 IH]; intros [|b2 p2]; simpl; try done. intros [= Hlen].
  rewrite (IH p2 Hlen). destruct (N.ltb_spec b1 b2); simpl; [done|].
  destruct (N.eqb_spec b1 b2) as [->|Hne]; simpl.
  - destruct (bytes_ltb p1 p2); simpl; [done|].
    by rewrite (bool_decide_ext (p1 = p2) (b2 :: p1 = b2 :: p2)) by naive_solver.
  - rewrite bool_decide_eq_false_2 by naive_solver. done.
Qed.

(** Big-endian encodings of one width are ordered like the numbers. *)
Lemma to_be_bytes_ltb n x y :
  x < 256 ^ N.of_nat n → y < 256 ^ N.of_nat n →
  bytes_ltb (to_be_bytes n x) (to_be_bytes n y) = (x <? y).
Proof.
  revert x y. induction n as [|n IH]; intros x y Hx Hy.
  { change (256 ^ N.of_nat 0) with 1 in *. symmetry. apply N.ltb_ge. lia. }
  rewrite Nat2N.inj_succ, N.pow_succ_r' in Hx, Hy. rewrite !to_be_bytes_S.
  assert (x / 256 < 256 ^ N.of_nat n) by (apply N.Div0.div_lt_upper_bound; lia).
  assert (y / 256 < 256 ^ N.of_nat n) by (apply N.Div0.div_lt_upper_bound; lia).
  rewrite bytes_ltb_app, IH by (done || by rewrite !length_to_be_bytes). simpl.
  pose proof (N.Div0.div_mod x 256). pose proof (N.Div0.div_mod y 256).
  assert (x mod 256 < 256 ∧ y mod 256 < 256) as [? ?] by (split; apply N.mod_lt; lia).
  assert (bool_decide (to_be_bytes n (x / 256) = to_be_bytes n (y / 256))
    = bool_decide (x / 256 = y / 256)) as ->.
  { apply bool_decide_ext. split; [|by intros ->]. intros Heq%(f_equal from_be_bytes).
    by rewrite !from_to_be_bytes in Heq. }
  set (qx := x / 256) in *. set (qy := y / 256) in *.
  set (rx := x mod 256) in *. set (ry := y mod 256) in *. clearbody qx qy rx ry.
  destruct (N.ltb_spec (qx) (qy)); simpl; [symmetry; apply N.ltb_lt; lia|].
  case_bool_decide; simpl; [|symmetry; apply N.ltb_ge; lia].
  rewrite andb_false_r, orb_false_r.
  destruct (N.ltb_spec (rx) (ry)), (N.ltb_spec x y); try done; lia.
Qed.

#[global] Arguments to_be_bytes : simpl never.
#[global] Arguments from_be_bytes : simpl never.
