(* ===== verification/Floats.v ===== *)
(** * Floating point numbers

    [f64] and [f32] of Rust are IEEE 754 binary64 and binary32 with rounding to
    nearest, ties to even; the operations are those of the specification of
    floating point numbers in the standard library, at the two precisions. *)

From S2P Require Import Prelude.
From Stdlib Require Import SpecFloat.

Definition f64 : Type := spec_float.
Definition f32 : Type := spec_float.

(** [n as f64]. *)
Definition f64_of_u64 (n : N) : f64 := binary_normalize 53 1024 (Z.of_N n) 0 false.
Definition f64_zero : f64 := f64_of_u64 0.
Definition f64_one : f64 := f64_of_u64 1.
Definition f64_add : f64 → f64 → f64 := SFadd 53 1024.
Definition f64_mul : f64 → f64 → f64 := SFmul 53 1024.
Definition f64_div : f64 → f64 → f64 := SFdiv 53 1024.
Definition f64_geb (x y : f64) : bool := SFleb y x.

(** [x as u64]: towards zero and saturating, zero for NaN; on what is not negative
    [floor] before it changes nothing. *)
Definition f64_to_u64 (x : f64) : N :=
  match x with
  | S754_finite false m e => N.min u64_max (Z.to_N (Z.shiftl (Z.pos m) e))
  | S754_infinity false => u64_max
  | _ => 0
  end.

(** [n as f32]. *)
Definition f32_of_u64 (n : N) : f32 := binary_normalize 24 128 (Z.of_N n) 0 false.
Definition f32_div : f32 → f32 → f32 := SFdiv 24 128.
Definition f32_ltb : f32 → f32 → bool := SFltb.

(** [f32::max]: a NaN loses against a number. *)
Definition f32_max (x y : f32) : f32 :=
  match SFcompare x y with
  | Some Lt => y
  | Some _ => x
  | None => match x with S754_nan => y | _ => x end
  end.
