(* ===== verification/Certificates.v ===== *)
(** * Votes and certificates (consensus-types)

    The operations of [VoteData], [QuorumCert], [WrappedLedgerInfo], the 2-chain
    timeout types, [Vote], [OrderVote] and [SyncInfo], with the theorems that
    their [verify] functions establish exactly what the rest of the protocol
    relies on, and that a timeout certificate assembled from partial signatures
    carries the highest round its signers attested. *)

From S2P Require Import Prelude Gaptos Types.

Section certificates.
Context {GA : Gaptos} {VE : Verifier} {CR : Crypto}.

(** ** VoteData (vote_data.rs) *)

Definition VoteData_new (proposed parent : BlockInfo) : VoteData :=
  {| vd_proposed := proposed; vd_parent := parent |}.

Definition VoteData_dummy : VoteData :=
  {| vd_proposed := BlockInfo_empty; vd_parent := BlockInfo_empty |}.

Definition VoteData_verify (vd : VoteData) : result Anyhow unit :=
  _ ← ensure (bi_epoch (vd_parent vd) =? bi_epoch (vd_proposed vd))
        (Msg "Parent and proposed epochs do not match");
  _ ← ensure (bi_round (vd_parent vd) <? bi_round (vd_proposed vd))
        (Msg "Proposed round is less than parent round");
  _ ← ensure (bi_timestamp_usecs (vd_parent vd) <=? bi_timestamp_usecs (vd_proposed vd))
        (Msg "Proposed happened before parent");
  ensure ((bi_version (vd_proposed vd) =? 0)
          || (bi_version (vd_parent vd) <=? bi_version (vd_proposed vd)))
        (Msg "Proposed version is less than parent version").

Definition VoteData_is_for_nil (vd : VoteData) : bool :=
  bi_timestamp_usecs (vd_proposed vd) =? bi_timestamp_usecs (vd_parent vd).

(** ** QuorumCert (quorum_cert.rs) *)

Definition QuorumCert_new (vd : VoteData) (li : LedgerInfoWithSignatures) : QuorumCert :=
  {| qc_vote_data := vd; qc_signed_ledger_info := li |}.

Definition certified_block (qc : QuorumCert) : BlockInfo := vd_proposed (qc_vote_data qc).
Definition parent_block (qc : QuorumCert) : BlockInfo := vd_parent (qc_vote_data qc).

Definition QuorumCert_ledger_info (qc : QuorumCert) : LedgerInfo :=
  liws_ledger_info (qc_signed_ledger_info qc).

Definition QuorumCert_commit_info (qc : QuorumCert) : BlockInfo :=
  li_commit_info (QuorumCert_ledger_info qc).

Definition QuorumCert_ends_epoch (qc : QuorumCert) : bool :=
  li_ends_epoch (QuorumCert_ledger_info qc).

Definition certificate_for_genesis_from_ledger_info
    (ledger_info : LedgerInfo) (genesis_id : HashValue) : result Anyhow QuorumCert :=
  epoch ← expect "Integer overflow when creating cert for genesis from ledger info"
            (checked_add (li_epoch ledger_info) 1);
  let ancestor := BlockInfo_new epoch 0 genesis_id (li_block_hash ledger_info)
                    (li_waypoint_version ledger_info) (li_timestamp_usecs ledger_info) None in
  let vote_data := VoteData_new ancestor ancestor in
  let li := LedgerInfo_new ancestor (hash_vote_data vote_data) in
  next ← expect "Next epoch state not found in ledger info" (li_next_epoch_state ledger_info);
  let validator_set_size := vv_len (es_verifier next) in
  Ok (QuorumCert_new vote_data
        (LedgerInfoWithSignatures_new li
           (AggregateSignature_new (BitVec_with_num_bits (validator_set_size mod 65536)) None))).

Definition QuorumCert_verify (qc : QuorumCert) (validator : ValidatorVerifier)
    : result Anyhow unit :=
  let vote_hash := hash_vote_data (qc_vote_data qc) in
  _ ← ensure (bool_decide (li_consensus_data_hash (QuorumCert_ledger_info qc) = vote_hash))
        (Msg "Quorum Cert's hash mismatch LedgerInfo");
  if bi_round (certified_block qc) =? 0 then
    _ ← ensure (bool_decide (parent_block qc = certified_block qc))
          (Msg "Genesis QC has inconsistent parent block with certified block");
    _ ← ensure (bool_decide (certified_block qc = QuorumCert_commit_info qc))
          (Msg "Genesis QC has inconsistent commit block with certified block");
    ensure (liws_num_voters (qc_signed_ledger_info qc) =? 0)%nat
          (Msg "Genesis QC should not carry signatures")
  else
    _ ← with_context "Fail to verify QuorumCert"
          (liws_verify_signatures (qc_signed_ledger_info qc) validator);
    VoteData_verify (qc_vote_data qc).

Definition QuorumCert_create_merged_with_executed_state (qc : QuorumCert)
    (executed_ledger_info : LedgerInfoWithSignatures) : result Anyhow QuorumCert :=
  _ ← ensure (bi_match_ordered_only (QuorumCert_commit_info qc)
                (li_commit_info (liws_ledger_info executed_ledger_info)))
        (Msg "Block info from QC and executed LI need to match");
  Ok (QuorumCert_new (qc_vote_data qc) executed_ledger_info).

Definition into_wrapped_ledger_info (qc : QuorumCert) : WrappedLedgerInfo :=
  {| wli_vote_data := qc_vote_data qc; wli_signed_ledger_info := qc_signed_ledger_info qc |}.

(** ** WrappedLedgerInfo (wrapped_ledger_info.rs) *)

Definition WrappedLedgerInfo_new (vd : VoteData) (li : LedgerInfoWithSignatures)
    : WrappedLedgerInfo :=
  {| wli_vote_data := vd; wli_signed_ledger_info := li |}.

Definition WrappedLedgerInfo_ledger_info (w : WrappedLedgerInfo) : LedgerInfo :=
  liws_ledger_info (wli_signed_ledger_info w).

Definition WrappedLedgerInfo_commit_info (w : WrappedLedgerInfo) : BlockInfo :=
  li_commit_info (WrappedLedgerInfo_ledger_info w).

Definition verify_consensus_data_hash (w : WrappedLedgerInfo) : result Anyhow unit :=
  let vote_hash := hash_vote_data (wli_vote_data w) in
  ensure (bool_decide (li_consensus_data_hash (WrappedLedgerInfo_ledger_info w) = vote_hash))
    (Msg "WrappedLedgerInfo's vote data hash mismatch LedgerInfo").

Definition WrappedLedgerInfo_certified_block (w : WrappedLedgerInfo) (order_vote_enabled : bool)
    : result Anyhow BlockInfo :=
  _ ← ensure (negb order_vote_enabled)
        (Msg "wrapped_ledger_info.certified_block should not be called when order votes are enabled");
  _ ← verify_consensus_data_hash w;
  Ok (vd_proposed (wli_vote_data w)).

Definition WrappedLedgerInfo_verify (w : WrappedLedgerInfo) (validator : ValidatorVerifier)
    : result Anyhow unit :=
  let li := WrappedLedgerInfo_ledger_info w in
  if li_round li =? 0 then
    let commit_info := li_commit_info li in
    _ ← ensure (bool_decide (li_consensus_data_hash li
                             = hash_vote_data (VoteData_new commit_info commit_info)))
          (Msg "Genesis QC has inconsistent commit block");
    ensure (liws_num_voters (wli_signed_ledger_info w) =? 0)%nat
          (Msg "Genesis QC should not carry signatures")
  else
    with_context "Fail to verify WrappedLedgerInfo"
      (liws_verify_signatures (wli_signed_ledger_info w) validator).

Definition WrappedLedgerInfo_create_merged_with_executed_state (w : WrappedLedgerInfo)
    (executed_ledger_info : LedgerInfoWithSignatures) : result Anyhow WrappedLedgerInfo :=
  _ ← ensure (bi_match_ordered_only (WrappedLedgerInfo_commit_info w)
                (li_commit_info (liws_ledger_info executed_ledger_info)))
        (Msg "Block info from QC and executed LI need to match");
  Ok (WrappedLedgerInfo_new (wli_vote_data w) executed_ledger_info).

Definition into_quorum_cert (w : WrappedLedgerInfo) (order_vote_enabled : bool)
    : result Anyhow QuorumCert :=
  _ ← ensure (negb order_vote_enabled)
        (Msg "wrapped_ledger_info.into_quorum_cert should not be called when order votes are enabled");
  _ ← verify_consensus_data_hash w;
  Ok (QuorumCert_new (wli_vote_data w) (wli_signed_ledger_info w)).

(** ** 2-chain timeouts (timeout_2chain.rs) *)

Definition hqc_round (t : TwoChainTimeout) : Round :=
  bi_round (certified_block (tmo_quorum_cert t)).

Definition signing_format (t : TwoChainTimeout) : TimeoutSigningRepr :=
  {| tsr_epoch := tmo_epoch t; tsr_round := tmo_round t; tsr_hqc_round := hqc_round t |}.

Definition TwoChainTimeout_verify (t : TwoChainTimeout) (validators : ValidatorVerifier)
    : result Anyhow unit :=
  _ ← ensure (hqc_round t <? tmo_round t)
        (Msg "Timeout round should be larger than the QC round");
  QuorumCert_verify (tmo_quorum_cert t) validators.

Definition get_voters (s : AggregateSignatureWithRounds) (addresses : list Author)
    : list Author :=
  agg_signers_addresses (asr_sig s) addresses.

Definition get_voters_and_rounds (s : AggregateSignatureWithRounds) (addresses : list Author)
    : list (Author * Round) :=
  zip (agg_signers_addresses (asr_sig s) addresses) (asr_rounds s).

Definition AggregateSignatureWithRounds_new (sig : AggregateSignature) (rounds : list Round)
    : result Anyhow AggregateSignatureWithRounds :=
  _ ← assert_ (agg_num_voters sig =? length rounds)%nat "assertion failed: num_voters == rounds.len()";
  Ok {| asr_sig := sig; asr_rounds := rounds |}.

Definition tc_epoch (tc : TwoChainTimeoutCertificate) : N := tmo_epoch (tc_timeout tc).
Definition tc_round (tc : TwoChainTimeoutCertificate) : Round := tmo_round (tc_timeout tc).
Definition highest_hqc_round (tc : TwoChainTimeoutCertificate) : Round :=
  hqc_round (tc_timeout tc).

(** The messages the signers of a timeout certificate signed. *)
Definition timeout_messages (tc : TwoChainTimeoutCertificate) (validators : ValidatorVerifier)
    : list TimeoutSigningRepr :=
  (λ p : Author * Round,
     {| tsr_epoch := tmo_epoch (tc_timeout tc);
        tsr_round := tmo_round (tc_timeout tc);
        tsr_hqc_round := p.2 |})
  <$> get_voters_and_rounds (tc_signatures_with_rounds tc) (vv_ordered_addresses validators).

Definition TwoChainTimeoutCertificate_verify (tc : TwoChainTimeoutCertificate)
    (validators : ValidatorVerifier) : result Anyhow unit :=
  _ ← TwoChainTimeout_verify (tc_timeout tc) validators;
  let hqc := hqc_round (tc_timeout tc) in
  _ ← map_err VerifyErr
        (vv_verify_aggregate_signatures validators
           (SignTimeout <$> timeout_messages tc validators)
           (asr_sig (tc_signatures_with_rounds tc)));
  signed_hqc ← ok_or (Msg "Empty rounds") (max_of (asr_rounds (tc_signatures_with_rounds tc)));
  ensure (hqc =? signed_hqc)
    (Msg "Inconsistent hqc round").

Definition PartialSignaturesWithRound_empty : PartialSignaturesWithRound :=
  {| psr_signatures := ∅ |}.

(** [entry(validator).or_insert((round, signature))]. *)
Definition add_signature (ps : PartialSignaturesWithRound) (validator : Author)
    (round : Round) (signature : Signature) : PartialSignaturesWithRound :=
  match psr_signatures ps !! validator with
  | Some _ => ps
  | None => {| psr_signatures := <[validator := (round, signature)]> (psr_signatures ps) |}
  end.

Definition get_partial_sig_with_rounds (ps : PartialSignaturesWithRound)
    (address_to_validator_index : gmap Author nat)
    : gmap Author Signature * list Round :=
  let partial_sig :=
    map_imap (λ address p, (λ _, p.2) <$> address_to_validator_index !! address)
      (psr_signatures ps) in
  let index_to_rounds :=
    map_fold (λ address p (acc : gmap nat Round),
                match address_to_validator_index !! address with
                | Some index => <[index := p.1]> acc
                | None => acc
                end) ∅ (psr_signatures ps) in
  (partial_sig, values_by_index index_to_rounds).

Definition TwoChainTimeoutWithPartialSignatures_new (timeout : TwoChainTimeout)
    : TwoChainTimeoutWithPartialSignatures :=
  {| tps_timeout := timeout; tps_signatures := PartialSignaturesWithRound_empty |}.

Definition tps_highest_hqc_round (t : TwoChainTimeoutWithPartialSignatures) : Round :=
  hqc_round (tps_timeout t).

Definition tps_signers (t : TwoChainTimeoutWithPartialSignatures) : list Author :=
  (map_to_list (psr_signatures (tps_signatures t))).*1.

(** The two [debug_assert_eq!]s on epoch and round are off in release builds. *)
Definition TwoChainTimeoutWithPartialSignatures_add (t : TwoChainTimeoutWithPartialSignatures)
    (author : Author) (timeout : TwoChainTimeout) (signature : Signature)
    : TwoChainTimeoutWithPartialSignatures :=
  let hqc := hqc_round timeout in
  let timeout' := if hqc_round (tps_timeout t) <? hqc then timeout else tps_timeout t in
  {| tps_timeout := timeout';
     tps_signatures := add_signature (tps_signatures t) author hqc signature |}.

Definition TwoChainTimeoutWithPartialSignatures_aggregate_signatures
    (t : TwoChainTimeoutWithPartialSignatures) (verifier : ValidatorVerifier)
    : result VerifyError TwoChainTimeoutCertificate :=
  let '(partial_sig, ordered_rounds) :=
    get_partial_sig_with_rounds (tps_signatures t) (vv_address_to_validator_index verifier) in
  aggregated_sig ← vv_aggregate_signatures verifier partial_sig;
  match AggregateSignatureWithRounds_new aggregated_sig ordered_rounds with
  | Ok sigs => Ok {| tc_timeout := tps_timeout t; tc_signatures_with_rounds := sigs |}
  | Err _ => Panic "unreachable"
  | Panic m => Panic m
  end.

(** ** Vote (vote.rs, vote_msg.rs) *)

Definition Vote_new_with_signature (vote_data : VoteData) (author : Author)
    (ledger_info : LedgerInfo) (signature : Signature) : Vote :=
  {| vote_vote_data := vote_data; vote_author := author; vote_ledger_info := ledger_info;
     vote_signature := signature; vote_two_chain_timeout := None |}.

Definition add_2chain_timeout (v : Vote) (timeout : TwoChainTimeout) (signature : Signature)
    : Vote :=
  {| vote_vote_data := vote_vote_data v; vote_author := vote_author v;
     vote_ledger_info := vote_ledger_info v; vote_signature := vote_signature v;
     vote_two_chain_timeout := Some (timeout, signature) |}.

Definition Vote_epoch (v : Vote) : N := bi_epoch (vd_proposed (vote_vote_data v)).
Definition Vote_round (v : Vote) : Round := bi_round (vd_proposed (vote_vote_data v)).

Definition generate_2chain_timeout (v : Vote) (qc : QuorumCert) : TwoChainTimeout :=
  {| tmo_epoch := Vote_epoch v; tmo_round := Vote_round v; tmo_quorum_cert := qc |}.

Definition is_timeout (v : Vote) : bool :=
  match vote_two_chain_timeout v with Some _ => true | None => false end.

Definition Vote_verify (v : Vote) (validator : ValidatorVerifier) : result Anyhow unit :=
  _ ← ensure (bool_decide (li_consensus_data_hash (vote_ledger_info v)
                           = hash_vote_data (vote_vote_data v)))
        (Msg "Vote's hash mismatch with LedgerInfo");
  _ ← with_context "Failed to verify Vote"
        (vv_verify validator (vote_author v) (SignLedgerInfo (vote_ledger_info v))
           (vote_signature v));
  _ ← match vote_two_chain_timeout v with
      | Some (timeout, signature) =>
          _ ← ensure ((tmo_epoch timeout =? Vote_epoch v) && (tmo_round timeout =? Vote_round v))
                (Msg "2-chain timeout has different (epoch, round) than Vote");
          _ ← TwoChainTimeout_verify timeout validator;
          with_context "Failed to verify 2-chain timeout signature"
            (vv_verify validator (vote_author v) (SignTimeout (signing_format timeout)) signature)
      | None => Ok tt
      end;
  VoteData_verify (vote_vote_data v).

(** ** OrderVote (order_vote.rs, order_vote_msg.rs) *)

Definition OrderVote_new_with_signature (author : Author) (ledger_info : LedgerInfo)
    (signature : Signature) : OrderVote :=
  {| ov_author := author; ov_ledger_info := ledger_info; ov_signature := signature |}.

Definition OrderVote_epoch (v : OrderVote) : N := li_epoch (ov_ledger_info v).

Definition OrderVote_verify (v : OrderVote) (validator : ValidatorVerifier)
    : result Anyhow unit :=
  _ ← ensure (bool_decide (li_consensus_data_hash (ov_ledger_info v) = HashValue_zero))
        (Msg "Failed to verify OrderVote. Consensus data hash is not Zero");
  with_context "Failed to verify OrderVote"
    (vv_verify validator (ov_author v) (SignLedgerInfo (ov_ledger_info v)) (ov_signature v)).

Definition verify_order_vote (m : OrderVoteMsg) (validator : ValidatorVerifier)
    : result Anyhow unit :=
  _ ← ensure (bool_decide (certified_block (ovm_quorum_cert m)
                           = li_commit_info (ov_ledger_info (ovm_order_vote m))))
        (Msg "QuorumCert and OrderVote do not match");
  with_context "[OrderVoteMsg] OrderVote verification failed"
    (OrderVote_verify (ovm_order_vote m) validator).

(** ** SyncInfo (sync_info.rs) *)

(** The [fail_point!] branch only exists in fault-injection builds. *)
Definition SyncInfo_new_decoupled (highest_quorum_cert : QuorumCert)
    (highest_ordered_cert highest_commit_cert : WrappedLedgerInfo)
    (highest_2chain_timeout_cert : option TwoChainTimeoutCertificate) : SyncInfo :=
  {| si_highest_quorum_cert := highest_quorum_cert;
     si_highest_ordered_cert := Some highest_ordered_cert;
     si_highest_commit_cert := highest_commit_cert;
     si_highest_2chain_timeout_cert :=
       match highest_2chain_timeout_cert with
       | Some tc => if bi_round (certified_block highest_quorum_cert) <? tc_round tc
                    then Some tc else None
       | None => None
       end |}.

Definition SyncInfo_new (highest_quorum_cert : QuorumCert)
    (highest_ordered_cert : WrappedLedgerInfo)
    (highest_2chain_timeout_cert : option TwoChainTimeoutCertificate) : SyncInfo :=
  SyncInfo_new_decoupled highest_quorum_cert highest_ordered_cert highest_ordered_cert
    highest_2chain_timeout_cert.

Definition highest_ordered_cert (s : SyncInfo) : WrappedLedgerInfo :=
  match si_highest_ordered_cert s with
  | Some cert => cert
  | None => into_wrapped_ledger_info (si_highest_quorum_cert s)
  end.

Definition highest_certified_round (s : SyncInfo) : Round :=
  bi_round (certified_block (si_highest_quorum_cert s)).

Definition highest_timeout_round (s : SyncInfo) : Round :=
  match si_highest_2chain_timeout_cert s with Some tc => tc_round tc | None => 0 end.

Definition highest_ordered_round (s : SyncInfo) : Round :=
  bi_round (WrappedLedgerInfo_commit_info (highest_ordered_cert s)).

Definition highest_commit_round (s : SyncInfo) : Round :=
  bi_round (WrappedLedgerInfo_commit_info (si_highest_commit_cert s)).

Definition highest_round (s : SyncInfo) : Round :=
  N.max (highest_certified_round s) (highest_timeout_round s).

Definition SyncInfo_epoch (s : SyncInfo) : N :=
  bi_epoch (certified_block (si_highest_quorum_cert s)).

(** The checks [SyncInfo::verify] makes before any signature is verified. *)
Definition SyncInfo_verify_consistency (s : SyncInfo) : result Anyhow unit :=
  let epoch := SyncInfo_epoch s in
  _ ← ensure (epoch =? bi_epoch (WrappedLedgerInfo_commit_info (highest_ordered_cert s)))
        (Msg "Multi epoch in SyncInfo - HOC and HQC");
  _ ← ensure (epoch =? bi_epoch (WrappedLedgerInfo_commit_info (si_highest_commit_cert s)))
        (Msg "Multi epoch in SyncInfo - HOC and HCC");
  _ ← match si_highest_2chain_timeout_cert s with
      | Some tc => ensure (epoch =? tc_epoch tc) (Msg "Multi epoch in SyncInfo - TC and HQC")
      | None => Ok tt
      end;
  _ ← ensure (highest_ordered_round s <=? highest_certified_round s)
        (Msg "HQC has lower round than HOC");
  _ ← ensure (highest_commit_round s <=? highest_ordered_round s)
        (Msg "HOC has lower round than HLI");
  _ ← ensure (bool_decide (WrappedLedgerInfo_commit_info (highest_ordered_cert s)
                           ≠ BlockInfo_empty))
        (Msg "HOC has no committed block");
  _ ← ensure (bool_decide (WrappedLedgerInfo_commit_info (si_highest_commit_cert s)
                           ≠ BlockInfo_empty))
        (Msg "HLI has empty commit info");
  ensure (negb (bi_is_ordered_only (WrappedLedgerInfo_commit_info (si_highest_commit_cert s))))
    (Msg "HLI has ordered only commit info").

(** The signature checks, chained with [and_then]. *)
Definition SyncInfo_verify_certificates (s : SyncInfo) (validator : ValidatorVerifier)
    : result Anyhow unit :=
  _ ← QuorumCert_verify (si_highest_quorum_cert s) validator;
  _ ← with_context "Fail to verify ordered certificate"
        (match si_highest_ordered_cert s with
         | Some cert => WrappedLedgerInfo_verify cert validator
         | None => Ok tt
         end);
  _ ← (if 0 <? highest_commit_round s
       then with_context "Fail to verify commit certificate"
              (WrappedLedgerInfo_verify (si_highest_commit_cert s) validator)
       else Ok tt);
  match si_highest_2chain_timeout_cert s with
  | Some tc => TwoChainTimeoutCertificate_verify tc validator
  | None => Ok tt
  end.

Definition SyncInfo_verify (s : SyncInfo) (validator : ValidatorVerifier)
    : result Anyhow unit :=
  _ ← SyncInfo_verify_consistency s;
  with_context "Fail to verify SyncInfo" (SyncInfo_verify_certificates s validator).

Definition has_newer_certificates (s other : SyncInfo) : bool :=
  (highest_certified_round other <? highest_certified_round s)
  || (highest_timeout_round other <? highest_timeout_round s)
  || (highest_ordered_round other <? highest_ordered_round s)
  || (highest_commit_round other <? highest_commit_round s).

Definition VoteMsg_verify (m : VoteMsg) (validator : ValidatorVerifier) : result Anyhow unit :=
  _ ← ensure (Vote_epoch (vm_vote m) =? SyncInfo_epoch (vm_sync_info m))
        (Msg "VoteMsg has different epoch");
  _ ← ensure (highest_round (vm_sync_info m) <? Vote_round (vm_vote m))
        (Msg "Vote Round should be higher than SyncInfo");
  _ ← match vote_two_chain_timeout (vm_vote m) with
      | Some (timeout, _) =>
          ensure (hqc_round timeout <=? highest_certified_round (vm_sync_info m))
            (Msg "2-chain Timeout hqc should be less or equal than the sync info hqc")
      | None => Ok tt
      end;
  Vote_verify (vm_vote m) validator.

(** ** What verification establishes *)

(** The merged certificate carries the commit info of the executed one. *)
Lemma create_merged_commit_info w e p :
  WrappedLedgerInfo_create_merged_with_executed_state w e = Ok p →
  WrappedLedgerInfo_commit_info p = li_commit_info (liws_ledger_info e).
Proof.
  unfold WrappedLedgerInfo_create_merged_with_executed_state. intros H. by run_inv.
Qed.

Lemma VoteData_verify_Ok vd :
  VoteData_verify vd = Ok tt ↔
  bi_epoch (vd_parent vd) = bi_epoch (vd_proposed vd) ∧
  bi_round (vd_parent vd) < bi_round (vd_proposed vd) ∧
  bi_timestamp_usecs (vd_parent vd) ≤ bi_timestamp_usecs (vd_proposed vd) ∧
  (bi_version (vd_proposed vd) = 0 ∨ bi_version (vd_parent vd) ≤ bi_version (vd_proposed vd)).
Proof.
  unfold VoteData_verify. rewrite !bind_unit_Ok, !ensure_Ok. guards. done.
Qed.

(** A verified certificate of a round above 0 is signed, matches its vote data
    and extends a parent of a lower round of the same epoch. *)
Lemma QuorumCert_verify_Ok qc v :
  QuorumCert_verify qc v = Ok tt →
  li_consensus_data_hash (QuorumCert_ledger_info qc) = hash_vote_data (qc_vote_data qc) ∧
  (bi_round (certified_block qc) = 0 ∧ parent_block qc = certified_block qc ∧
     certified_block qc = QuorumCert_commit_info qc ∨
   0 < bi_round (certified_block qc) ∧
     liws_verify_signatures (qc_signed_ledger_info qc) v = Ok tt ∧
     bi_epoch (parent_block qc) = bi_epoch (certified_block qc) ∧
     bi_round (parent_block qc) < bi_round (certified_block qc)).
Proof.
  intros H. unfold QuorumCert_verify in H. run_inv. guards. split; [done|].
  destruct (bi_round (certified_block qc) =? 0) eqn:Hr; guards; gaptos_inv; guards; [by left|].
  apply VoteData_verify_Ok in H as (? & ? & ?). right. split; [lia|done].
Qed.

Lemma TwoChainTimeout_verify_Ok t v :
  TwoChainTimeout_verify t v = Ok tt ↔
  hqc_round t < tmo_round t ∧ QuorumCert_verify (tmo_quorum_cert t) v = Ok tt.
Proof.
  unfold TwoChainTimeout_verify. rewrite bind_unit_Ok, ensure_Ok. guards. done.
Qed.

(** A verified timeout certificate carries the maximum of the rounds its
    signers attested, below its own round, with a verified certificate for it. *)
Lemma TwoChainTimeoutCertificate_verify_Ok tc v :
  TwoChainTimeoutCertificate_verify tc v = Ok tt ↔
  highest_hqc_round tc < tc_round tc ∧
  QuorumCert_verify (tmo_quorum_cert (tc_timeout tc)) v = Ok tt ∧
  vv_verify_aggregate_signatures v (SignTimeout <$> timeout_messages tc v)
    (asr_sig (tc_signatures_with_rounds tc)) = Ok tt ∧
  max_of (asr_rounds (tc_signatures_with_rounds tc)) = Some (highest_hqc_round tc).
Proof.
  unfold TwoChainTimeoutCertificate_verify, highest_hqc_round, tc_round. split.
  - intros H. run_inv. guards. subst. apply TwoChainTimeout_verify_Ok in Hrun as [? ?].
    done.
  - intros (? & ? & Hv & ->). rewrite (proj2 (TwoChainTimeout_verify_Ok _ _)) by done.
    simpl. rewrite Hv. simpl. by rewrite N.eqb_refl.
Qed.

(** ** Assembling timeout certificates *)

(** The recorded rounds and the kept timeout agree: the kept timeout has the
    highest round among the recorded ones. *)
Definition tps_consistent (t : TwoChainTimeoutWithPartialSignatures) : Prop :=
  (∃ a s, psr_signatures (tps_signatures t) !! a = Some (tps_highest_hqc_round t, s)) ∧
  ∀ a r s, psr_signatures (tps_signatures t) !! a = Some (r, s) → r ≤ tps_highest_hqc_round t.

Lemma tps_new_add_consistent timeout a s :
  tps_consistent (TwoChainTimeoutWithPartialSignatures_add
                    (TwoChainTimeoutWithPartialSignatures_new timeout) a timeout s).
Proof.
  unfold tps_consistent, tps_highest_hqc_round, TwoChainTimeoutWithPartialSignatures_add. simpl.
  rewrite N.ltb_irrefl. unfold add_signature. simpl. rewrite lookup_empty. simpl. split.
  - exists a, s. by rewrite lookup_insert_eq.
  - intros b r s'. rewrite lookup_insert_Some, lookup_empty. intros [[-> [= <- <-]]|[_ ?]]; done.
Qed.

Lemma tps_add_consistent t a timeout s :
  tps_consistent t → psr_signatures (tps_signatures t) !! a = None →
  tps_consistent (TwoChainTimeoutWithPartialSignatures_add t a timeout s).
Proof.
  intros [(b & s0 & Hb) Hmax] Hnew.
  unfold tps_consistent, tps_highest_hqc_round, TwoChainTimeoutWithPartialSignatures_add in *.
  simpl. unfold add_signature. rewrite Hnew. simpl.
  destruct (N.ltb_spec (hqc_round (tps_timeout t)) (hqc_round timeout)); split.
  - exists a, s. by rewrite lookup_insert_eq.
  - intros c r s'. rewrite lookup_insert_Some.
    intros [[-> [= <- <-]]|[_ Hc]]; [done|]. specialize (Hmax c r s' Hc). lia.
  - exists b, s0. by rewrite lookup_insert_ne by congruence.
  - intros c r s'. rewrite lookup_insert_Some.
    intros [[-> [= <- <-]]|[_ Hc]]; [done|]. by eapply Hmax.
Qed.

Lemma get_partial_sig_lookup ps idx a s :
  (get_partial_sig_with_rounds ps idx).1 !! a = Some s ↔
  (∃ r, psr_signatures ps !! a = Some (r, s)) ∧ is_Some (idx !! a).
Proof.
  simpl. rewrite map_lookup_imap. destruct (psr_signatures ps !! a) as [[r s']|]; simpl.
  - destruct (idx !! a); simpl; naive_solver.
  - naive_solver.
Qed.

(** The fold that indexes the rounds, one entry at a time. *)
Lemma index_to_rounds_lookup (idx : gmap Author nat) (m : gmap Author (Round * Signature)) :
  (∀ a b i, idx !! a = Some i → idx !! b = Some i → a = b) → ∀ i r,
  map_fold (λ a (p : Round * Signature) (acc : gmap nat Round),
    match idx !! a with Some index => <[index := p.1]> acc | None => acc end) ∅ m !! i = Some r
  ↔ ∃ a s, idx !! a = Some i ∧ m !! a = Some (r, s).
Proof.
  intros Hinj. apply (map_fold_weak_ind (λ acc m', ∀ i r,
    acc !! i = Some r ↔ ∃ a s, idx !! a = Some i ∧ m' !! a = Some (r, s))).
  { intros i r. setoid_rewrite lookup_empty. naive_solver. }
  intros a [r0 s0] m' acc Hnew IH i r. simpl.
  destruct (idx !! a) as [j|] eqn:Hj.
  - rewrite lookup_insert_Some, IH. setoid_rewrite lookup_insert_Some. split.
    + intros [[-> ->]|(Hne & b & s & Hb & Hm)]; [naive_solver|].
      exists b, s. split; [done|]. right. split; [|done]. congruence.
    + intros (b & s & Hb & [[-> [= -> ->]]|[Hne Hm]]); [left; split; congruence|].
      right. split; [|eauto]. intros ->. eauto.
  - rewrite IH. setoid_rewrite lookup_insert_Some. split.
    + intros (b & s & Hb & Hm). exists b, s. split; [done|]. right. split; [|done]. congruence.
    + intros (b & s & Hb & [[-> [= -> ->]]|[Hne Hm]]); [congruence|eauto].
Qed.

Section aggregation.
Context {AL : AggregateLaws}.
Implicit Types (v : ValidatorVerifier) (t : TwoChainTimeoutWithPartialSignatures).

(** The round an author recorded, if any. *)
Definition recorded_round (ps : PartialSignaturesWithRound) (a : Author) : option Round :=
  fst <$> psr_signatures ps !! a.

Lemma vv_index_inj v a b i :
  vv_address_to_validator_index v !! a = Some i →
  vv_address_to_validator_index v !! b = Some i → a = b.
Proof. rewrite !vv_index_spec. congruence. Qed.

Lemma vv_index_ordered v a :
  a ∈ vv_ordered_addresses v → is_Some (vv_address_to_validator_index v !! a).
Proof. intros [i Hi]%list_elem_of_lookup. exists i. by apply vv_index_spec. Qed.

(** The collected rounds come in the order of the validator set. *)
Lemma ordered_rounds_spec ps v :
  (get_partial_sig_with_rounds ps (vv_address_to_validator_index v)).2
  = omap (recorded_round ps) (vv_ordered_addresses v).
Proof.
  rewrite <- (listing_values 0). unfold get_partial_sig_with_rounds.
  apply values_by_index_sorted; [apply listing_sorted|].
  apply NoDup_Permutation; [apply listing_NoDup|apply NoDup_map_to_list|].
  intros [i r]. rewrite elem_of_listing, elem_of_map_to_list, index_to_rounds_lookup
    by eauto using vv_index_inj.
  unfold recorded_round. split.
  - intros (j & a & -> & Hj & Ha). apply fmap_Some in Ha as ([r' s] & Ha & ->).
    exists a, s. by rewrite vv_index_spec.
  - intros (a & s & Ha & Hm). apply vv_index_spec in Ha.
    exists i, a. split; [done|]. by rewrite Hm.
Qed.

Lemma signers_spec t v sig :
  vv_aggregate_signatures v
    (get_partial_sig_with_rounds (tps_signatures t) (vv_address_to_validator_index v)).1 = Ok sig →
  agg_signers_addresses sig (vv_ordered_addresses v)
  = filter (λ a, is_Some (recorded_round (tps_signatures t) a)) (vv_ordered_addresses v).
Proof.
  intros ->%agg_signers.
  assert (Hl : ∀ l : list Author, (∀ a, a ∈ l → a ∈ vv_ordered_addresses v) →
    filter (λ a, is_Some ((get_partial_sig_with_rounds (tps_signatures t)
      (vv_address_to_validator_index v)).1 !! a)) l
    = filter (λ a, is_Some (recorded_round (tps_signatures t) a)) l); [|by apply Hl].
  induction l as [|a l IH]; intros Hin; [done|].
  assert (Hiff : is_Some ((get_partial_sig_with_rounds (tps_signatures t)
      (vv_address_to_validator_index v)).1 !! a)
      ↔ is_Some (recorded_round (tps_signatures t) a)).
  { unfold recorded_round. rewrite fmap_is_Some. split.
    - intros [s [[r Hr] _]%get_partial_sig_lookup]. rewrite Hr. eauto.
    - intros [[r s] Hr]. exists s. apply get_partial_sig_lookup. split; [eauto|].
      apply vv_index_ordered, Hin. set_solver. }
  destruct (decide (is_Some (recorded_round (tps_signatures t) a))) as [Hd|Hd].
  - rewrite !filter_cons_True by tauto. rewrite IH; set_solver.
  - rewrite !filter_cons_False by tauto. apply IH. set_solver.
Qed.

Lemma length_omap_filter {A B} (f : A → option B) (l : list A) :
  length (omap f l) = length (filter (λ a, is_Some (f a)) l).
Proof.
  induction l as [|a l IH]; [done|]. simpl. destruct (f a) eqn:E.
  - rewrite filter_cons_True by eauto. simpl. by f_equal.
  - rewrite filter_cons_False; [done|]. rewrite E. by intros [? ?].
Qed.

(** Aggregation succeeds whenever the signatures can be combined: the assertion
    on the number of rounds never fires. *)
Lemma aggregate_signatures_Ok t v sig :
  vv_aggregate_signatures v
    (get_partial_sig_with_rounds (tps_signatures t) (vv_address_to_validator_index v)).1 = Ok sig →
  TwoChainTimeoutWithPartialSignatures_aggregate_signatures t v
  = Ok {| tc_timeout := tps_timeout t;
          tc_signatures_with_rounds :=
            {| asr_sig := sig;
               asr_rounds := omap (recorded_round (tps_signatures t)) (vv_ordered_addresses v) |} |}.
Proof.
  intros Hsig. pose proof (ordered_rounds_spec (tps_signatures t) v) as Hr.
  unfold TwoChainTimeoutWithPartialSignatures_aggregate_signatures.
  destruct (get_partial_sig_with_rounds _ _) as [ps rs] eqn:E. simpl in *. subst rs.
  rewrite Hsig. simpl. unfold AggregateSignatureWithRounds_new.
  assert (Hn : agg_num_voters sig
    = length (omap (recorded_round (tps_signatures t)) (vv_ordered_addresses v))).
  { rewrite (agg_num _ _ _ Hsig), length_omap_filter, (signers_spec t v); [done|]. by rewrite E. }
  rewrite (proj2 (Nat.eqb_eq _ _) Hn). done.
Qed.

(** Each signer of the aggregate is paired with the round it recorded. *)
Lemma timeout_messages_match (P : Author → Round → Prop) ps (l : list Author) :
  (∀ a r, a ∈ l → recorded_round ps a = Some r → P a r) →
  Forall2 P (filter (λ a, is_Some (recorded_round ps a)) l) (omap (recorded_round ps) l).
Proof.
  induction l as [|a l IH]; intros HP; [constructor|]. simpl.
  destruct (recorded_round ps a) as [r|] eqn:E.
  - rewrite filter_cons_True by eauto. constructor; [apply HP; set_solver|].
    apply IH. set_solver.
  - rewrite filter_cons_False by (rewrite E; by intros [? ?]). apply IH. set_solver.
Qed.

(** Timeouts received from distinct authors, the first one opening the
    collection, as [PendingVotes::insert_vote] does. *)
Definition collect_timeouts (first : Author * TwoChainTimeout * Signature)
    (rest : list (Author * TwoChainTimeout * Signature)) : TwoChainTimeoutWithPartialSignatures :=
  foldl (λ t '(a, timeout, s), TwoChainTimeoutWithPartialSignatures_add t a timeout s)
    (TwoChainTimeoutWithPartialSignatures_new first.1.2) (first :: rest).

(** What a collection holds after receiving [seen]. *)
Record collected (t : TwoChainTimeoutWithPartialSignatures)
    (seen : list (Author * TwoChainTimeout * Signature)) : Prop := {
  col_consistent : tps_consistent t;
  col_recorded a r s : psr_signatures (tps_signatures t) !! a = Some (r, s) →
    ∃ timeout, (a, timeout, s) ∈ seen ∧ r = hqc_round timeout;
  col_kept a timeout s : (a, timeout, s) ∈ seen →
    psr_signatures (tps_signatures t) !! a = Some (hqc_round timeout, s);
  col_timeout : ∃ a s, (a, tps_timeout t, s) ∈ seen;
}.

Lemma collected_add t seen a timeout s :
  collected t seen → a ∉ (fst ∘ fst <$> seen) →
  collected (TwoChainTimeoutWithPartialSignatures_add t a timeout s) (seen ++ [(a, timeout, s)]).
Proof.
  intros [Hc Hr Hk (b & s0 & Ht)] Hnew.
  assert (Hnone : psr_signatures (tps_signatures t) !! a = None).
  { destruct (psr_signatures (tps_signatures t) !! a) as [[r s']|] eqn:E; [|done].
    destruct (Hr _ _ _ E) as (tm & Hin & _). destruct Hnew.
    apply list_elem_of_fmap. by exists (a, tm, s'). }
  split; [by apply tps_add_consistent|..].
  - intros c r s'. simpl. unfold add_signature. rewrite Hnone. simpl.
    rewrite lookup_insert_Some. intros [[-> [= <- <-]]|[_ Hl]]; [set_solver|].
    destruct (Hr _ _ _ Hl) as (tm & ? & ?). set_solver.
  - intros c tm s'. simpl. unfold add_signature. rewrite Hnone. simpl.
    rewrite elem_of_app, list_elem_of_singleton. intros [Hin|[= -> -> ->]].
    + pose proof (Hk _ _ _ Hin). rewrite lookup_insert_ne by congruence. done.
    + by rewrite lookup_insert_eq.
  - simpl. destruct (_ <? _); set_solver.
Qed.

Lemma collected_first a timeout s :
  collected (TwoChainTimeoutWithPartialSignatures_add
    (TwoChainTimeoutWithPartialSignatures_new timeout) a timeout s) [(a, timeout, s)].
Proof.
  split.
  - apply tps_new_add_consistent.
  - intros c r s'. simpl. unfold add_signature. simpl. rewrite lookup_empty. simpl.
    rewrite lookup_insert_Some, lookup_empty. intros [[-> [= <- <-]]|[_ ?]]; set_solver.
  - intros c tm s' [= -> -> ->]%list_elem_of_singleton. simpl. unfold add_signature. simpl.
    rewrite lookup_empty. simpl. by rewrite lookup_insert_eq.
  - simpl. rewrite N.ltb_irrefl. set_solver.
Qed.

Lemma collect_timeouts_collected first rest :
  NoDup (fst ∘ fst <$> first :: rest) →
  collected (collect_timeouts first rest) (first :: rest).
Proof.
  destruct first as [[a timeout] s]. unfold collect_timeouts. simpl. intros Hnd.
  assert (Hgen : ∀ l t seen, collected t seen → NoDup (fst ∘ fst <$> seen ++ l) →
    collected (foldl (λ t '(a, timeout, s),
      TwoChainTimeoutWithPartialSignatures_add t a timeout s) t l) (seen ++ l)).
  { clear Hnd a timeout s rest. induction l as [|[[a timeout] s] l IH]; intros t seen Hc Hnd; simpl.
    { by rewrite app_nil_r. }
    rewrite (cons_middle _ seen l), app_assoc. apply IH.
    - apply collected_add; [done|]. rewrite fmap_app, NoDup_app in Hnd. simpl in Hnd. set_solver.
    - by rewrite <- app_assoc. }
  apply (Hgen rest _ [(a, timeout, s)]); [apply collected_first|done].
Qed.

(** A received timeout that passed the checks of [Vote::verify]. *)
Definition timeout_checked v (epoch round : N) (x : Author * TwoChainTimeout * Signature) : Prop :=
  x.1.1 ∈ vv_ordered_addresses v ∧
  tmo_epoch x.1.2 = epoch ∧ tmo_round x.1.2 = round ∧
  TwoChainTimeout_verify x.1.2 v = Ok tt ∧
  vv_verify v x.1.1 (SignTimeout (signing_format x.1.2)) x.2 = Ok tt.

Lemma collected_max t seen v epoch round :
  collected t seen → Forall (timeout_checked v epoch round) seen →
  max_of (omap (recorded_round (tps_signatures t)) (vv_ordered_addresses v))
  = Some (tps_highest_hqc_round t).
Proof.
  intros [[(a & s & Ha) Hmax] Hr _ _] Hall. apply max_of_Some. unfold recorded_round.
  setoid_rewrite list_elem_of_omap. split.
  - exists a. rewrite Ha. split; [|done]. destruct (Hr _ _ _ Ha) as (tm & Hin & _).
    rewrite Forall_forall in Hall. by destruct (Hall _ Hin).
  - intros x (b & _ & Hb). apply fmap_Some in Hb as ([r s'] & Hb & ->). by eapply Hmax.
Qed.

Lemma tps_signers_keys t v seen epoch round :
  collected t seen → Forall (timeout_checked v epoch round) seen →
  tps_signers t ≡ₚ (map_to_list (get_partial_sig_with_rounds (tps_signatures t)
                      (vv_address_to_validator_index v)).1).*1.
Proof.
  intros [_ Hr _ _] Hall. apply NoDup_Permutation; [apply NoDup_fst_map_to_list..|].
  intros a. unfold tps_signers. rewrite !list_elem_of_fmap. split.
  - intros ([b [r s]] & -> & Hin). apply elem_of_map_to_list in Hin. exists (b, s).
    split; [done|]. apply elem_of_map_to_list, get_partial_sig_lookup. split; [eauto|].
    destruct (Hr _ _ _ Hin) as (tm & Hs & _). rewrite Forall_forall in Hall.
    destruct (Hall _ Hs) as [Ho _]. by apply vv_index_ordered.
  - intros ([b s] & -> & Hin).
    apply elem_of_map_to_list, get_partial_sig_lookup in Hin as [[r Hb] _].
    exists (b, (r, s)). by rewrite elem_of_map_to_list.
Qed.

(** The messages of a certificate, one per recorded round. *)
Lemma timeout_messages_rounds tc v :
  length (agg_signers_addresses (asr_sig (tc_signatures_with_rounds tc)) (vv_ordered_addresses v))
  = length (asr_rounds (tc_signatures_with_rounds tc)) →
  SignTimeout <$> timeout_messages tc v
  = (λ r, SignTimeout {| tsr_epoch := tc_epoch tc; tsr_round := tc_round tc; tsr_hqc_round := r |})
    <$> asr_rounds (tc_signatures_with_rounds tc).
Proof.
  intros Hlen. unfold timeout_messages, get_voters_and_rounds.
  rewrite <- list_fmap_compose.
  rewrite <- (snd_zip (agg_signers_addresses (asr_sig (tc_signatures_with_rounds tc))
    (vv_ordered_addresses v)) (asr_rounds (tc_signatures_with_rounds tc))) at 2 by lia.
  by rewrite <- list_fmap_compose.
Qed.

(** Timeouts that were collected one by one aggregate to a certificate that verifies. *)
Lemma collected_aggregate_verify t seen v epoch round sig :
  collected t seen → Forall (timeout_checked v epoch round) seen →
  is_ok (vv_check_voting_power v (tps_signers t) true) = true →
  vv_aggregate_signatures v
    (get_partial_sig_with_rounds (tps_signatures t) (vv_address_to_validator_index v)).1 = Ok sig →
  ∃ tc, TwoChainTimeoutWithPartialSignatures_aggregate_signatures t v = Ok tc ∧
    TwoChainTimeoutCertificate_verify tc v = Ok tt ∧
    tc_epoch tc = epoch ∧ tc_round tc = round ∧
    ∀ x, x ∈ seen → hqc_round x.1.2 ≤ highest_hqc_round tc.
Proof.
  intros Hcol Hall Hq Hsig. pose proof (collected_max _ _ _ _ _ Hcol Hall) as Hmax.
  pose proof (tps_signers_keys _ _ _ _ _ Hcol Hall) as Hkeys.
  rewrite (aggregate_signatures_Ok t v sig Hsig). eexists. split; [done|].
  destruct Hcol as [[_ Hub] Hr Hk (a0 & s0 & Hin0)]. rewrite Forall_forall in Hall.
  destruct (Hall _ Hin0) as (_ & He & Hrd & Htv & _). simpl in He, Hrd, Htv.
  rewrite TwoChainTimeoutCertificate_verify_Ok. unfold tc_epoch, tc_round, highest_hqc_round. simpl.
  apply TwoChainTimeout_verify_Ok in Htv as [Hlt Hqc].
  repeat split; try done.
  - eapply agg_verify; [done|exact Hkeys|done|].
    rewrite timeout_messages_rounds, (signers_spec t v sig Hsig); simpl.
    2: by rewrite (signers_spec t v sig Hsig), length_omap_filter.
    rewrite Forall2_fmap_r. apply timeout_messages_match. intros a r Ha Hrec.
    apply fmap_Some in Hrec as ([r' s] & Hl & ->). exists s.
    destruct (Hr _ _ _ Hl) as (tm & Hin & Heq). simpl. subst r'.
    destruct (Hall _ Hin) as (_ & He' & Hr' & _ & Hv). simpl in *. split.
    + apply get_partial_sig_lookup. split; [eauto|]. by apply vv_index_ordered.
    + unfold tc_epoch, tc_round. simpl. rewrite He, Hrd, <- He', <- Hr'. done.
  - intros [[a tm] s] Hin. simpl. eapply Hub, Hk, Hin.
Qed.

(** Signatures of validators that verify, one at least, can be aggregated. *)
Context (aggregate_total : ∀ v m, m ≠ ∅ →
  map_Forall (λ a s, ∃ msg, vv_verify v a msg s = Ok tt) m → is_ok (vv_aggregate_signatures v m) = true).

Lemma collected_aggregates t seen v epoch round :
  collected t seen → Forall (timeout_checked v epoch round) seen →
  ∃ sig, vv_aggregate_signatures v
    (get_partial_sig_with_rounds (tps_signatures t) (vv_address_to_validator_index v)).1 = Ok sig.
Proof.
  intros [_ Hr Hk (a0 & s0 & Hin0)] Hall. rewrite Forall_forall in Hall.
  match goal with |- ∃ _, vv_aggregate_signatures v ?m = _ =>
    assert (Hok : is_ok (vv_aggregate_signatures v m) = true) end.
  - apply aggregate_total.
    + intros He. assert (Ha : (get_partial_sig_with_rounds (tps_signatures t)
        (vv_address_to_validator_index v)).1 !! a0 = Some s0).
      { apply get_partial_sig_lookup. split; [by eauto|]. destruct (Hall _ Hin0) as [Ho _]. by apply vv_index_ordered. }
      rewrite He in Ha. by rewrite lookup_empty in Ha.
    + intros a s [[r Ha] _]%get_partial_sig_lookup. destruct (Hr _ _ _ Ha) as (tm & Hin & _).
      destruct (Hall _ Hin) as (_ & _ & _ & _ & Hv). by eexists.
  - destruct (vv_aggregate_signatures _ _) as [sig| |]; [by exists sig|done..].
Qed.

(** C6: A timeout certificate built from checked timeouts exists and verifies. When
    timeouts of distinct validators for one epoch and round have each been verified
    with their signature and are added one after the other, and their signers hold a
    quorum, then, given that signatures that verify can be aggregated, aggregation
    returns a certificate that [TwoChainTimeoutCertificate::verify] accepts, of that
    epoch and round, whose highest quorum-certificate round bounds the one of every
    timeout collected. *)
Theorem collected_timeouts_aggregate_verify first rest v epoch round :
  let t := collect_timeouts first rest in
  NoDup (fst ∘ fst <$> first :: rest) →
  Forall (timeout_checked v epoch round) (first :: rest) →
  is_ok (vv_check_voting_power v (tps_signers t) true) = true →
  ∃ tc, TwoChainTimeoutWithPartialSignatures_aggregate_signatures t v = Ok tc ∧
    TwoChainTimeoutCertificate_verify tc v = Ok tt ∧
    tc_epoch tc = epoch ∧ tc_round tc = round ∧
    ∀ x, x ∈ first :: rest → hqc_round x.1.2 ≤ highest_hqc_round tc.
Proof.
  intros t Hnd Hall Hq. pose proof (collect_timeouts_collected _ _ Hnd) as Hcol.
  destruct (collected_aggregates _ _ _ _ _ Hcol Hall) as [sig Hsig]. by eapply collected_aggregate_verify.
Qed.

End aggregation.
(** ** Votes *)

Lemma Vote_verify_Ok vote v :
  Vote_verify vote v = Ok tt →
  li_consensus_data_hash (vote_ledger_info vote) = hash_vote_data (vote_vote_data vote) ∧
  vv_verify v (vote_author vote) (SignLedgerInfo (vote_ledger_info vote)) (vote_signature vote)
    = Ok tt ∧
  (∀ timeout s, vote_two_chain_timeout vote = Some (timeout, s) →
     tmo_epoch timeout = Vote_epoch vote ∧ tmo_round timeout = Vote_round vote ∧
     TwoChainTimeout_verify timeout v = Ok tt ∧
     vv_verify v (vote_author vote) (SignTimeout (signing_format timeout)) s = Ok tt) ∧
  VoteData_verify (vote_vote_data vote) = Ok tt.
Proof.
  intros H. unfold Vote_verify in H. gaptos_inv. guards. repeat split; try done.
  all: destruct (vote_two_chain_timeout vote) as [[tm sg]|]; simplify_eq; gaptos_inv; guards; tauto.
Qed.

Lemma OrderVote_verify_Ok ov v :
  OrderVote_verify ov v = Ok tt ↔
  li_consensus_data_hash (ov_ledger_info ov) = HashValue_zero ∧
  vv_verify v (ov_author ov) (SignLedgerInfo (ov_ledger_info ov)) (ov_signature ov) = Ok tt.
Proof.
  unfold OrderVote_verify. rewrite bind_unit_Ok, ensure_Ok, with_context_Ok. guards. done.
Qed.

(** ** SyncInfo *)

Lemma SyncInfo_verify_consistency_Ok s :
  SyncInfo_verify_consistency s = Ok tt →
  bi_epoch (WrappedLedgerInfo_commit_info (highest_ordered_cert s)) = SyncInfo_epoch s ∧
  bi_epoch (WrappedLedgerInfo_commit_info (si_highest_commit_cert s)) = SyncInfo_epoch s ∧
  (∀ tc, si_highest_2chain_timeout_cert s = Some tc → tc_epoch tc = SyncInfo_epoch s) ∧
  highest_commit_round s ≤ highest_ordered_round s ∧
  highest_ordered_round s ≤ highest_certified_round s.
Proof.
  intros H. unfold SyncInfo_verify_consistency in H. run_inv. guards.
  repeat split; try done.
  intros tc Htc. rewrite Htc in Hrun1. run_inv. guards. done.
Qed.

Lemma SyncInfo_verify_certificates_Ok s v :
  SyncInfo_verify_certificates s v = Ok tt →
  QuorumCert_verify (si_highest_quorum_cert s) v = Ok tt ∧
  (∀ w, si_highest_ordered_cert s = Some w → WrappedLedgerInfo_verify w v = Ok tt) ∧
  (0 < highest_commit_round s → WrappedLedgerInfo_verify (si_highest_commit_cert s) v = Ok tt) ∧
  (∀ tc, si_highest_2chain_timeout_cert s = Some tc →
     TwoChainTimeoutCertificate_verify tc v = Ok tt).
Proof.
  intros H. unfold SyncInfo_verify_certificates in H. gaptos_inv. repeat split; try done.
  - intros w Hw. by rewrite Hw in Hrun0.
  - intros Hlt. rewrite (proj2 (N.ltb_lt _ _) Hlt) in Hrun1. by apply with_context_Ok in Hrun1.
  - intros tc Htc. by rewrite Htc in H.
Qed.

End certificates.
