(* ===== verification/Payloads.v ===== *)
(** * Payloads and proofs of store (consensus-types: common.rs, payload.rs,
    proof_of_store.rs)

    The payload of a block, its sizes, and its verification through the cache of
    already verified proofs.  The theorems show that the cache never changes the
    outcome: verification with a cache of verified proofs accepts exactly what
    verification without it accepts, and keeps the cache sound. *)

From S2P Require Import Prelude Gaptos Types.

Section payloads.
Context {GA : Gaptos} {VE : Verifier} {CR : Crypto}.

Definition ensure_supported_transaction_payloads (transactions : list SignedTransaction)
    : result Anyhow unit :=
  ensure (forallb (λ t, match txn_payload t with GTxnBytes => true | _ => false end) transactions)
    (Msg "Unsupported transaction payload type for Gravity execution").

(** ** Sizes *)

Definition ProofWithData_len (p : ProofWithData) : result Anyhow N :=
  sum_u64 ((λ pos, bin_num_txns (pos_info pos)) <$> pwd_proofs p).

(** [a + b] in [usize], each operand evaluated left to right. *)
Definition add_usize (a b : result Anyhow N) : result Anyhow N :=
  x ← a; y ← b; add_u64 x y.

Definition InlineBatches_num_txns (l : list InlineBatch) : result Anyhow N :=
  sum_u64 ((λ b, bin_num_txns (inb_batch_info b)) <$> l).

Definition OptQuorumStorePayload_num_txns (p : OptQuorumStorePayload) : result Anyhow N :=
  add_usize (add_usize (sum_u64 (bin_num_txns <$> oqs_opt_batches p))
                       (sum_u64 ((λ pos, bin_num_txns (pos_info pos)) <$> oqs_proofs p)))
            (InlineBatches_num_txns (oqs_inline_batches p)).

Definition OptQuorumStorePayload_is_empty (p : OptQuorumStorePayload) : bool :=
  match oqs_opt_batches p, oqs_proofs p, oqs_inline_batches p with
  | [], [], [] => true
  | _, _, _ => false
  end.

Definition max_txns_to_execute (p : OptQuorumStorePayload) : option N :=
  match oqs_execution_limits p with
  | LimitNone => None
  | MaxTransactionsToExecute max => Some max
  end.

Definition inline_txns_len (inline : list (BatchInfo * list SignedTransaction))
    : result Anyhow N :=
  sum_u64 ((λ b, N.of_nat (length b.2)) <$> inline).

Definition Payload_len (p : Payload) : result Anyhow N :=
  match p with
  | DirectMempool txns => Ok (N.of_nat (length txns))
  | InQuorumStore p => ProofWithData_len p
  | InQuorumStoreWithLimit p => ProofWithData_len (pwl_proof_with_data p)
  | QuorumStoreInlineHybrid inline p _ =>
      add_usize (ProofWithData_len p) (inline_txns_len inline)
  | OptQuorumStore p => OptQuorumStorePayload_num_txns p
  end.

Definition len_for_execution (p : Payload) : result Anyhow N :=
  match p with
  | DirectMempool txns => Ok (N.of_nat (length txns))
  | InQuorumStore p => ProofWithData_len p
  | InQuorumStoreWithLimit p =>
      n ← ProofWithData_len (pwl_proof_with_data p);
      Ok (N.min n (default u64_max (pwl_max_txns_to_execute p)))
  | QuorumStoreInlineHybrid inline p max =>
      n ← add_usize (ProofWithData_len p) (inline_txns_len inline);
      Ok (N.min n (default u64_max max))
  | OptQuorumStore p => Ok (default u64_max (max_txns_to_execute p))
  end.

Definition Payload_is_empty (p : Payload) : bool :=
  match p with
  | DirectMempool txns => match txns with [] => true | _ => false end
  | InQuorumStore p => match pwd_proofs p with [] => true | _ => false end
  | InQuorumStoreWithLimit p =>
      match pwd_proofs (pwl_proof_with_data p) with [] => true | _ => false end
  | QuorumStoreInlineHybrid inline p _ =>
      match pwd_proofs p, inline with [], [] => true | _, _ => false end
  | OptQuorumStore p => OptQuorumStorePayload_is_empty p
  end.

Definition Payload_empty (quorum_store_enabled allow_batches_without_pos_in_proposal : bool)
    : Payload :=
  if quorum_store_enabled then
    if allow_batches_without_pos_in_proposal
    then QuorumStoreInlineHybrid [] {| pwd_proofs := [] |} None
    else InQuorumStore {| pwd_proofs := [] |}
  else DirectMempool [].

Definition transform_to_quorum_store_v2 (p : Payload) (max : option N) : result Anyhow Payload :=
  match p with
  | InQuorumStore p =>
      Ok (InQuorumStoreWithLimit {| pwl_proof_with_data := p; pwl_max_txns_to_execute := max |})
  | QuorumStoreInlineHybrid inline p _ => Ok (QuorumStoreInlineHybrid inline p max)
  | InQuorumStoreWithLimit _ => Panic "Payload is already in quorumStoreV2 format"
  | DirectMempool _ => Panic "Payload is in direct mempool format"
  | OptQuorumStore _ => Panic "OptQuorumStore Payload is incompatible with QuorumStoreV2"
  end.

(** ** Verification *)

(** [ProofCache]: the verified proofs, most recent first.  The cache of the code
    may also evict entries; [cache_sound] below is closed under eviction. *)
Definition ProofCache : Type := list (BatchInfo * AggregateSignature).

Fixpoint cache_get (c : ProofCache) (b : BatchInfo) : option AggregateSignature :=
  match c with
  | [] => None
  | (b', s) :: c => if bool_decide (b' = b) then Some s else cache_get c b
  end.

Definition cache_insert (b : BatchInfo) (s : AggregateSignature) (c : ProofCache) : ProofCache :=
  (b, s) :: c.

Definition ProofOfStore_verify (p : ProofOfStore) (validator : ValidatorVerifier)
    : M ProofCache Anyhow unit := λ cache,
  if bool_decide (cache_get cache (pos_info p) = Some (pos_multi_signature p)) then (Ok tt, cache)
  else
    let result := with_context "Failed to verify ProofOfStore"
                    (vv_verify_multi_signatures validator (pos_info p) (pos_multi_signature p)) in
    (result,
     if is_ok result then cache_insert (pos_info p) (pos_multi_signature p) cache else cache).

Definition verify_with_cache (proofs : list ProofOfStore) (validator : ValidatorVerifier)
    : M ProofCache Anyhow unit := λ cache,
  let unverified :=
    filter (λ p, cache_get cache (pos_info p) ≠ Some (pos_multi_signature p)) proofs in
  try_for_each (λ p, ProofOfStore_verify p validator) unverified cache.

(** The loop over the inline batches of a hybrid payload. *)
Definition verify_inline_batch (b : BatchInfo * list SignedTransaction) : result Anyhow unit :=
  if bool_decide (hash_batch_payload (bin_author b.1) b.2 = bin_digest b.1)
  then ensure_supported_transaction_payloads b.2
  else Err (Msg "Hash of the received inline batch doesn't match the digest value").

Definition Payload_verify (p : Payload) (validator : ValidatorVerifier)
    (quorum_store_enabled : bool) : M ProofCache Anyhow unit :=
  match quorum_store_enabled, p with
  | false, DirectMempool txns => lift (ensure_supported_transaction_payloads txns)
  | true, InQuorumStore p => verify_with_cache (pwd_proofs p) validator
  | true, InQuorumStoreWithLimit p =>
      verify_with_cache (pwd_proofs (pwl_proof_with_data p)) validator
  | true, QuorumStoreInlineHybrid inline p _ =>
      _ ← verify_with_cache (pwd_proofs p) validator;
      try_for_each (λ b, lift (verify_inline_batch b)) inline
  | true, OptQuorumStore p =>
      _ ← verify_with_cache (oqs_proofs p) validator;
      lift (Err (Msg "OptQuorumStore is not supported yet."))
  | _, _ => lift (Err (Msg "Wrong payload type."))
  end.

(** ** The cache does not change what is accepted *)

(** Every cached proof has been verified for this validator set. *)
Definition cache_sound (validator : ValidatorVerifier) (c : ProofCache) : Prop :=
  ∀ b s, (b, s) ∈ c → vv_verify_multi_signatures validator b s = Ok tt.

Definition proof_valid (validator : ValidatorVerifier) (p : ProofOfStore) : Prop :=
  vv_verify_multi_signatures validator (pos_info p) (pos_multi_signature p) = Ok tt.

(** The proofs a payload carries. *)
Definition payload_proofs (p : Payload) : list ProofOfStore :=
  match p with
  | DirectMempool _ => []
  | InQuorumStore p => pwd_proofs p
  | InQuorumStoreWithLimit p => pwd_proofs (pwl_proof_with_data p)
  | QuorumStoreInlineHybrid _ p _ => pwd_proofs p
  | OptQuorumStore p => oqs_proofs p
  end.

Lemma cache_get_elem c b s : cache_get c b = Some s → (b, s) ∈ c.
Proof.
  induction c as [|[b' s'] c IH]; simpl; [done|].
  case_bool_decide as Hb; [intros [= ->]; subst; left|]. intros H. right. by apply IH.
Qed.

Lemma ProofOfStore_verify_spec p v c :
  cache_sound v c →
  cache_sound v (ProofOfStore_verify p v c).2 ∧
  ((ProofOfStore_verify p v c).1 = Ok tt ↔ proof_valid v p).
Proof.
  intros Hc. unfold ProofOfStore_verify, proof_valid. case_bool_decide as Hget; simpl.
  { split; [done|]. split; [|done]. intros _. by apply Hc, cache_get_elem. }
  rewrite with_context_Ok. split; [|done].
  destruct (vv_verify_multi_signatures v (pos_info p) (pos_multi_signature p))
    as [[]|e|m] eqn:E; simpl; try done.
  intros b s [[= -> ->]|Hin]%elem_of_cons; [done|]. by apply Hc.
Qed.

Lemma try_for_each_spec v (l : list ProofOfStore) c :
  cache_sound v c →
  cache_sound v (try_for_each (λ p, ProofOfStore_verify p v) l c).2 ∧
  ((try_for_each (λ p, ProofOfStore_verify p v) l c).1 = Ok tt ↔ Forall (proof_valid v) l).
Proof.
  revert c. induction l as [|p l IH]; intros c Hc; simpl.
  { split; [done|]. split; [constructor|done]. }
  destruct (ProofOfStore_verify_spec p v c Hc) as [Hs Hiff].
  unfold mbind, M_bind.
  destruct (ProofOfStore_verify p v c) as [[[]|e|m] c'] eqn:E; simpl in *.
  - destruct (IH c' Hs) as [Hs' Hiff']. rewrite Forall_cons, <- Hiff, Hiff'. naive_solver.
  - split; [done|]. rewrite Forall_cons, <- Hiff. naive_solver.
  - split; [done|]. rewrite Forall_cons, <- Hiff. naive_solver.
Qed.

Lemma verify_with_cache_spec l v c :
  cache_sound v c →
  cache_sound v (verify_with_cache l v c).2 ∧
  ((verify_with_cache l v c).1 = Ok tt ↔ Forall (proof_valid v) l).
Proof.
  intros Hc. unfold verify_with_cache.
  destruct (try_for_each_spec v (filter (λ p, cache_get c (pos_info p)
    ≠ Some (pos_multi_signature p)) l) c Hc) as [Hs Hiff].
  split; [done|]. rewrite Hiff, !Forall_forall. setoid_rewrite list_elem_of_filter.
  split; [|naive_solver]. intros H p Hp.
  destruct (decide (cache_get c (pos_info p) = Some (pos_multi_signature p))) as [Hg|Hg].
  - by apply Hc, cache_get_elem.
  - by apply H.
Qed.

(** A computation that only looks at its argument leaves the cache alone. *)
Lemma try_for_each_lift {S E A} (f : A → result E unit) l (s : S) :
  (try_for_each (λ x, lift (f x)) l s).2 = s ∧
  ∀ s' : S, (try_for_each (λ x, lift (f x)) l s').1 = (try_for_each (λ x, lift (f x)) l s).1.
Proof.
  induction l as [|x l [IH1 IH2]]; simpl; [done|]. unfold mbind, M_bind, lift.
  destruct (f x); done.
Qed.

(** A sequence after the proofs of a payload, which leaves the cache alone. *)
Lemma verify_with_cache_then l v c (k : M ProofCache Anyhow unit) :
  (∀ c', (k c').2 = c' ∧ (k c').1 = (k []).1) → cache_sound v c →
  cache_sound v ((verify_with_cache l v ≫= λ _, k) c).2 ∧
  (((verify_with_cache l v ≫= λ _, k) c).1 = Ok tt ↔
   Forall (proof_valid v) l ∧ (k []).1 = Ok tt).
Proof.
  intros Hk Hc. destruct (verify_with_cache_spec l v c Hc) as [Hs Hiff].
  rewrite <- Hiff. unfold mbind, M_bind.
  destruct (verify_with_cache l v c) as [[[]|e|m] c'] eqn:E; simpl in *.
  - destruct (Hk c') as [-> ->]. split; [done|]. split; [done|by intros [_ ?]].
  - split; [done|]. split; [done|by intros [? _]].
  - split; [done|]. split; [done|by intros [? _]].
Qed.

(** What a payload must satisfy to be accepted, without mention of a cache. *)
Definition payload_accepted (v : ValidatorVerifier) (qs : bool) (p : Payload) : Prop :=
  match qs, p with
  | false, DirectMempool txns => ensure_supported_transaction_payloads txns = Ok tt
  | true, (InQuorumStore _ | InQuorumStoreWithLimit _) => Forall (proof_valid v) (payload_proofs p)
  | true, QuorumStoreInlineHybrid inline _ _ =>
      Forall (proof_valid v) (payload_proofs p) ∧
      (try_for_each (λ b, lift (verify_inline_batch b)) inline ([] : ProofCache)).1 = Ok tt
  | _, _ => False
  end.

Lemma Payload_verify_spec p v qs c :
  cache_sound v c →
  cache_sound v (Payload_verify p v qs c).2 ∧
  ((Payload_verify p v qs c).1 = Ok tt ↔ payload_accepted v qs p).
Proof.
  intros Hc. destruct qs, p; simpl; try (split; [done|]; split; done);
    try (by apply verify_with_cache_spec).
  - apply verify_with_cache_then; [|done]. intros c'.
    destruct (try_for_each_lift verify_inline_batch inline_batches c'). split; [done|].
    by rewrite <- (H0 []).
  - destruct (verify_with_cache_then (oqs_proofs p) v c
      (lift (Err (Msg "OptQuorumStore is not supported yet.")))) as [Hs Hiff]; [done|done|].
    split; [done|]. rewrite Hiff. split; [by intros [_ ?]|done].
Qed.

(** The proof cache does not change what a payload verification accepts: starting
    from a cache that only holds valid proofs, the cache stays so, the verdict is
    that of an empty cache, and acceptance means that every proof of the payload is
    validly signed. *)
Theorem Payload_verify_cache_transparent p v qs c :
  cache_sound v c →
  cache_sound v (Payload_verify p v qs c).2 ∧
  ((Payload_verify p v qs c).1 = Ok tt ↔ (Payload_verify p v qs []).1 = Ok tt) ∧
  ((Payload_verify p v qs c).1 = Ok tt → Forall (proof_valid v) (payload_proofs p)).
Proof.
  intros Hc. assert (He : cache_sound v []) by (intros ?? ?%not_elem_of_nil; done).
  destruct (Payload_verify_spec p v qs c Hc) as [Hs Hiff].
  destruct (Payload_verify_spec p v qs [] He) as [_ Hiff0].
  split; [done|]. rewrite Hiff, Hiff0. split; [done|].
  destruct qs, p; simpl; intros H; try done; try constructor; by destruct H.
Qed.

End payloads.
