(* ===== verification/Blocks.v ===== *)
(** * Blocks and proposals (consensus-types: block_data.rs, block.rs,
    vote_proposal.rs, proposal_msg.rs)

    Construction and verification of blocks.  The theorems characterise
    well-formedness: a proposal that passes [verify] extends a certified parent,
    names only rounds between its parent and itself as failed, and is proposed
    exactly one round above the highest certificate it carries. *)

From S2P Require Import Prelude Gaptos Types Certificates Payloads.

Section blocks.
Context {GA : Gaptos} {VE : Verifier} {CR : Crypto}.

(** ** BlockData (block_data.rs) *)

Definition ProposalExt_author (p : ProposalExt) : Author :=
  let '(ProposalExt_V0 _ _ author _) := p in author.
Definition ProposalExt_failed_authors (p : ProposalExt) : list (Round * Author) :=
  let '(ProposalExt_V0 _ _ _ failed) := p in failed.
Definition ProposalExt_validator_txns (p : ProposalExt) : option (list ValidatorTransaction) :=
  let '(ProposalExt_V0 txns _ _ _) := p in Some txns.
Definition ProposalExt_payload (p : ProposalExt) : option Payload :=
  let '(ProposalExt_V0 _ payload _ _) := p in Some payload.

Definition BlockData_author (b : BlockData) : option Author :=
  match bd_block_type b with
  | Proposal _ author _ | DAGBlock author _ _ _ _ _ _ => Some author
  | ProposalExtBlock p => Some (ProposalExt_author p)
  | NilBlock _ | Genesis => None
  end.

Definition BlockData_parent_id (b : BlockData) : HashValue :=
  match bd_block_type b with
  | DAGBlock _ _ _ _ _ parent_block_id _ => parent_block_id
  | _ => bi_id (certified_block (bd_quorum_cert b))
  end.

Definition BlockData_payload (b : BlockData) : option Payload :=
  match bd_block_type b with
  | Proposal payload _ _ | DAGBlock _ _ _ payload _ _ _ => Some payload
  | ProposalExtBlock p => ProposalExt_payload p
  | NilBlock _ | Genesis => None
  end.

Definition BlockData_validator_txns (b : BlockData) : option (list ValidatorTransaction) :=
  match bd_block_type b with
  | ProposalExtBlock p => ProposalExt_validator_txns p
  | Proposal _ _ _ | NilBlock _ | Genesis => None
  | DAGBlock _ _ txns _ _ _ _ => Some txns
  end.

Definition BlockData_is_genesis_block (b : BlockData) : bool :=
  match bd_block_type b with Genesis => true | _ => false end.

Definition BlockData_is_nil_block (b : BlockData) : bool :=
  match bd_block_type b with NilBlock _ => true | _ => false end.

Definition BlockData_failed_authors (b : BlockData) : option (list (Round * Author)) :=
  match bd_block_type b with
  | Proposal _ _ failed | NilBlock failed | DAGBlock _ failed _ _ _ _ _ => Some failed
  | ProposalExtBlock p => Some (ProposalExt_failed_authors p)
  | Genesis => None
  end.

(** The [assume!] of the source is an annotation without run-time effect; the
    checked addition is what fails. *)
Definition BlockData_new_genesis (timestamp_usecs : N) (quorum_cert : QuorumCert)
    : result Anyhow BlockData :=
  epoch ← add_u64 (bi_epoch (certified_block quorum_cert)) 1;
  Ok {| bd_epoch := epoch; bd_round := 0; bd_timestamp_usecs := timestamp_usecs;
        bd_quorum_cert := quorum_cert; bd_block_type := Genesis |}.

Definition new_genesis_from_ledger_info (li : LedgerInfo) : result Anyhow BlockData :=
  _ ← assert_ (li_ends_epoch li) "assertion failed: ledger_info.ends_epoch()";
  let '(version, timestamp) :=
    match bi_epoch_block_info (li_commit_info li) with
    | Some info => (ebi_block_number info, ebi_epoch_start_timestamp_usecs info)
    | None => (li_version li, li_timestamp_usecs li)
    end in
  let ancestor := BlockInfo_new (li_epoch li) 0 HashValue_zero (li_block_hash li)
                    version timestamp None in
  let genesis_quorum_cert :=
    QuorumCert_new (VoteData_new ancestor ancestor)
      (LedgerInfoWithSignatures_new (LedgerInfo_new ancestor HashValue_zero)
         AggregateSignature_empty) in
  BlockData_new_genesis timestamp genesis_quorum_cert.

Definition BlockData_new_nil (round : Round) (quorum_cert : QuorumCert)
    (failed_authors : list (Round * Author)) : BlockData :=
  {| bd_epoch := bi_epoch (certified_block quorum_cert); bd_round := round;
     bd_timestamp_usecs := bi_timestamp_usecs (certified_block quorum_cert);
     bd_quorum_cert := quorum_cert; bd_block_type := NilBlock failed_authors |}.

Definition BlockData_new_for_dag (epoch : N) (round : Round) (timestamp_usecs : N)
    (validator_txns : list ValidatorTransaction) (payload : Payload) (author : Author)
    (failed_authors : list (Round * Author)) (parent_block_id : HashValue)
    (parents_bitvec : BitVec) (node_digests : list HashValue) : BlockData :=
  {| bd_epoch := epoch; bd_round := round; bd_timestamp_usecs := timestamp_usecs;
     bd_quorum_cert :=
       QuorumCert_new (VoteData_new BlockInfo_empty BlockInfo_empty)
         (LedgerInfoWithSignatures_new (LedgerInfo_new BlockInfo_empty HashValue_zero)
            (AggregateSignature_new BitVec_default None));
     bd_block_type := DAGBlock author failed_authors validator_txns payload node_digests
                        parent_block_id parents_bitvec |}.

Definition BlockData_new_proposal (payload : Payload) (author : Author)
    (failed_authors : list (Round * Author)) (round : Round) (timestamp_usecs : N)
    (quorum_cert : QuorumCert) : BlockData :=
  {| bd_epoch := bi_epoch (certified_block quorum_cert); bd_round := round;
     bd_timestamp_usecs := timestamp_usecs; bd_quorum_cert := quorum_cert;
     bd_block_type := Proposal payload author failed_authors |}.

Definition BlockData_new_proposal_ext (validator_txns : list ValidatorTransaction)
    (payload : Payload) (author : Author) (failed_authors : list (Round * Author))
    (round : Round) (timestamp_usecs : N) (quorum_cert : QuorumCert) : BlockData :=
  {| bd_epoch := bi_epoch (certified_block quorum_cert); bd_round := round;
     bd_timestamp_usecs := timestamp_usecs; bd_quorum_cert := quorum_cert;
     bd_block_type :=
       ProposalExtBlock (ProposalExt_V0 validator_txns payload author failed_authors) |}.

Definition is_reconfiguration_suffix (b : BlockData) : bool :=
  bi_has_reconfiguration (certified_block (bd_quorum_cert b)).

(** ** Block (block.rs) *)

Definition Block_author (b : Block) : option Author := BlockData_author (block_block_data b).
Definition Block_epoch (b : Block) : N := bd_epoch (block_block_data b).
Definition Block_round (b : Block) : Round := bd_round (block_block_data b).
Definition Block_timestamp_usecs (b : Block) : N := bd_timestamp_usecs (block_block_data b).
Definition Block_quorum_cert (b : Block) : QuorumCert := bd_quorum_cert (block_block_data b).
Definition Block_parent_id (b : Block) : HashValue := BlockData_parent_id (block_block_data b).
Definition Block_payload (b : Block) : option Payload := BlockData_payload (block_block_data b).
Definition Block_is_genesis_block (b : Block) : bool :=
  BlockData_is_genesis_block (block_block_data b).
Definition Block_is_nil_block (b : Block) : bool := BlockData_is_nil_block (block_block_data b).

Definition gen_block_info (b : Block) (executed_state_id : HashValue) (version : N)
    (next_epoch_state : option EpochState) : BlockInfo :=
  BlockInfo_new (Block_epoch b) (Block_round b) (block_id b) executed_state_id version
    (Block_timestamp_usecs b) next_epoch_state.

Definition make_genesis_block_from_ledger_info (li : LedgerInfo) : result Anyhow Block :=
  block_data ← new_genesis_from_ledger_info li;
  let block_number :=
    match bi_epoch_block_info (li_commit_info li) with
    | Some info => ebi_block_number info
    | None => li_block_number li
    end in
  Ok {| block_id := hash_block_data block_data; block_block_data := block_data;
        block_signature := None; block_block_number := Some block_number |}.

Definition Block_new_nil (round : Round) (quorum_cert : QuorumCert)
    (failed_authors : list (Round * Author)) : Block :=
  let block_data := BlockData_new_nil round quorum_cert failed_authors in
  {| block_id := hash_block_data block_data; block_block_data := block_data;
     block_signature := None; block_block_number := None |}.

Definition Block_new_for_dag (epoch : N) (round : Round) (timestamp_usecs : N)
    (validator_txns : list ValidatorTransaction) (payload : Payload) (author : Author)
    (failed_authors : list (Round * Author)) (parent_block_id : HashValue)
    (parents_bitvec : BitVec) (node_digests : list HashValue) : Block :=
  let block_data := BlockData_new_for_dag epoch round timestamp_usecs validator_txns payload
                      author failed_authors parent_block_id parents_bitvec node_digests in
  {| block_id := hash_block_data block_data; block_block_data := block_data;
     block_signature := None; block_block_number := None |}.

Definition new_proposal_from_block_data_and_signature (block_data : BlockData)
    (signature : Signature) : Block :=
  {| block_id := hash_block_data block_data; block_block_data := block_data;
     block_signature := Some signature; block_block_number := None |}.

Definition new_proposal_from_block_data (block_data : BlockData) (signer : ValidatorSigner)
    : result Anyhow Block :=
  signature ← map_err CryptoErr (signer_sign signer (SignBlockData block_data));
  Ok (new_proposal_from_block_data_and_signature block_data signature).

Definition Block_new_proposal (payload : Payload) (round : Round) (timestamp_usecs : N)
    (quorum_cert : QuorumCert) (signer : ValidatorSigner)
    (failed_authors : list (Round * Author)) : result Anyhow Block :=
  new_proposal_from_block_data
    (BlockData_new_proposal payload (signer_author signer) failed_authors round
       timestamp_usecs quorum_cert) signer.

Definition Block_new_proposal_ext (validator_txns : list ValidatorTransaction)
    (payload : Payload) (round : Round) (timestamp_usecs : N) (quorum_cert : QuorumCert)
    (signer : ValidatorSigner) (failed_authors : list (Round * Author))
    : result Anyhow Block :=
  new_proposal_from_block_data
    (BlockData_new_proposal_ext validator_txns payload (signer_author signer) failed_authors
       round timestamp_usecs quorum_cert) signer.

(** The branch shared by [Proposal] and [ProposalExt]. *)
Definition validate_author_signature (b : Block) (author : Author)
    (validator : ValidatorVerifier) : result Anyhow unit :=
  signature ← ok_or (Msg "Missing signature in Proposal") (block_signature b);
  _ ← map_err VerifyErr (vv_verify validator author (SignBlockData (block_block_data b)) signature);
  QuorumCert_verify (Block_quorum_cert b) validator.

Definition validate_signature (b : Block) (validator : ValidatorVerifier) : result Anyhow unit :=
  match bd_block_type (block_block_data b) with
  | Genesis => Err (Msg "We should not accept genesis from others")
  | NilBlock _ => QuorumCert_verify (Block_quorum_cert b) validator
  | Proposal _ author _ => validate_author_signature b author validator
  | ProposalExtBlock p => validate_author_signature b (ProposalExt_author p) validator
  | DAGBlock _ _ _ _ _ _ _ => Err (Msg "We should not accept DAG block from others")
  end.

(** The loop over the failed authors, with its running bound. *)
Fixpoint check_failed_rounds (bound succ_round : Round) (failed_authors : list (Round * Author))
    : result Anyhow unit :=
  match failed_authors with
  | [] => Ok tt
  | (round, _) :: rest =>
      _ ← ensure ((bound <? round) && (round <? succ_round))
            (Msg "Incorrect round in failed authors");
      check_failed_rounds round succ_round rest
  end.

Definition check_failed_authors (b : Block) : result Anyhow unit :=
  match BlockData_failed_authors (block_block_data b) with
  | None => Ok tt
  | Some failed_authors =>
      let parent := certified_block (Block_quorum_cert b) in
      succ_round ← ok_or (Msg "Block round overflow")
        (checked_add (Block_round b) (if Block_is_nil_block b then 1 else 0));
      next ← add_u64 (bi_round parent) 1;
      skipped_rounds ← ok_or (Msg "Block round is smaller than block's parent round")
        (checked_sub succ_round next);
      _ ← ensure (N.of_nat (length failed_authors) <=? skipped_rounds)
            (Msg "Block has more failed authors than missed rounds");
      check_failed_rounds (bi_round parent) succ_round failed_authors
  end.

Definition TIMEBOUND : N := 300000000.

(** [now] is [duration_since_epoch().as_micros()].  The final
    [debug_checked_verify_eq!] on the block id is off in release builds. *)
Definition Block_verify_well_formed (b : Block) (now : N) : result Anyhow unit :=
  _ ← ensure (negb (Block_is_genesis_block b)) (Msg "We must not accept genesis from others");
  let parent := certified_block (Block_quorum_cert b) in
  _ ← ensure (bi_round parent <? Block_round b)
        (Msg "Block must have a greater round than parent's block");
  _ ← ensure (bi_epoch parent =? Block_epoch b)
        (Msg "block's parent should be in the same epoch");
  _ ← (if bi_has_reconfiguration parent
       then ensure (match Block_payload b with Some p => Payload_is_empty p | None => true end)
              (Msg "Reconfiguration suffix should not carry payload")
       else Ok tt);
  _ ← check_failed_authors b;
  _ ← (if Block_is_nil_block b || bi_has_reconfiguration parent
       then ensure (Block_timestamp_usecs b =? bi_timestamp_usecs parent)
              (Msg "Nil/reconfig suffix block must have same timestamp as parent")
       else
         _ ← ensure (bi_timestamp_usecs parent <? Block_timestamp_usecs b)
               (Msg "Blocks must have strictly increasing timestamps");
         ensure (Block_timestamp_usecs b <=? saturating_add now TIMEBOUND)
               (Msg "Blocks must not be too far in the future"));
  ensure (negb (QuorumCert_ends_epoch (Block_quorum_cert b)))
    (Msg "Block cannot be proposed in an epoch that has ended").

Fixpoint position (l : list Author) (a : Author) : option N :=
  match l with
  | [] => None
  | x :: l => if bool_decide (x = a) then Some 0 else N.succ <$> position l a
  end.

Fixpoint failed_authors_to_indices (validators : list Author)
    (failed_authors : list (Round * Author)) : result Anyhow (list N) :=
  match failed_authors with
  | [] => Ok []
  | (_, author) :: rest =>
      index ← expect "Failed author not in validator list" (position validators author);
      _ ← assert_ (index <=? u32_max) "Index is out of bounds for u32";
      indices ← failed_authors_to_indices validators rest;
      Ok (index :: indices)
  end.

(** [OnceCell::set] of [once_cell]: on a full cell the error carries the value
    that was passed in. *)
Definition once_cell_set {A} (cell : option A) (v : A) : result A unit * option A :=
  match cell with
  | None => (Ok tt, Some v)
  | Some old => (Err v, Some old)
  end.

(** The block after [set_block_number] and whether it logged the warning. *)
Definition set_block_number (b : Block) (block_number : N) : Block * bool :=
  let '(r, cell) := once_cell_set (block_block_number b) block_number in
  ({| block_id := block_id b; block_block_data := block_block_data b;
      block_signature := block_signature b; block_block_number := cell |},
   match r with Err existing => negb (existing =? block_number) | _ => false end).

(** Serialization drops the id; deserialization recomputes it and leaves the
    block number unset. *)
Definition Block_serialize (b : Block) : BlockData * option Signature * option N :=
  (block_block_data b, block_signature b, block_block_number b).
Definition Block_deserialize (x : BlockData * option Signature * option N) : Block :=
  {| block_id := hash_block_data x.1.1; block_block_data := x.1.1;
     block_signature := x.1.2; block_block_number := None |}.

(** ** VoteProposal (vote_proposal.rs) *)

Definition vote_data_ordering_only (vp : VoteProposal) : VoteData :=
  VoteData_new
    (gen_block_info (vp_block vp) ACCUMULATOR_PLACEHOLDER_HASH 0 (vp_next_epoch_state vp))
    (certified_block (Block_quorum_cert (vp_block vp))).

Definition gen_vote_data (vp : VoteProposal) : result Anyhow VoteData :=
  if vp_decoupled_execution vp then Ok (vote_data_ordering_only vp)
  else Panic "decoupled_execution must be true".

(** ** ProposalMsg (proposal_msg.rs) *)

Definition ProposalMsg_verify_well_formed (m : ProposalMsg) (now : N) : result Anyhow unit :=
  let proposal := pm_proposal m in
  let sync_info := pm_sync_info m in
  _ ← ensure (negb (Block_is_nil_block proposal)) (Msg "Proposal for a NIL block");
  _ ← with_context "Fail to verify ProposalMsg's block" (Block_verify_well_formed proposal now);
  _ ← ensure (0 <? Block_round proposal) (Msg "Proposal has an incorrect round of 0");
  _ ← ensure (Block_epoch proposal =? SyncInfo_epoch sync_info)
        (Msg "ProposalMsg has different epoch number from SyncInfo");
  _ ← ensure (bool_decide (Block_parent_id proposal
                           = bi_id (certified_block (si_highest_quorum_cert sync_info))))
        (Msg "Proposal HQC in SyncInfo certifies another block than the parent");
  previous_round ← ok_or (Msg "proposal round overflowed!") (checked_sub (Block_round proposal) 1);
  let highest_certified :=
    N.max (bi_round (certified_block (Block_quorum_cert proposal)))
          (highest_timeout_round sync_info) in
  _ ← ensure (previous_round =? highest_certified)
        (Msg "Proposal does not have a certified round");
  ensure (bool_decide (is_Some (Block_author proposal)))
    (Msg "Proposal does not define an author").

Definition ProposalMsg_verify (m : ProposalMsg) (validator : ValidatorVerifier)
    (quorum_store_enabled : bool) (now : N) : M ProofCache Anyhow unit :=
  _ ← match Block_payload (pm_proposal m) with
      | Some p => Payload_verify p validator quorum_store_enabled
      | None => mret tt
      end;
  _ ← lift (validate_signature (pm_proposal m) validator);
  _ ← lift (match si_highest_2chain_timeout_cert (pm_sync_info m) with
            | Some tc => TwoChainTimeoutCertificate_verify tc validator
            | None => Ok tt
            end);
  lift (ProposalMsg_verify_well_formed m now).

(** ** Well-formed blocks *)

(** Rounds listed between a bound (excluded) and [hi] (excluded), increasing. *)
Fixpoint increasing_within (lo hi : N) (l : list N) : Prop :=
  match l with
  | [] => True
  | x :: l => lo < x ∧ x < hi ∧ increasing_within x hi l
  end.

Lemma increasing_within_elem lo hi l x :
  increasing_within lo hi l → x ∈ l → lo < x < hi.
Proof.
  revert lo. induction l as [|y l IH]; intros lo; simpl; [set_solver|].
  intros (? & ? & Hl) [->|Hin]%elem_of_cons; [lia|]. specialize (IH y Hl Hin). lia.
Qed.

Lemma increasing_within_NoDup lo hi l : increasing_within lo hi l → NoDup l.
Proof.
  revert lo. induction l as [|y l IH]; intros lo; simpl; [constructor|].
  intros (? & ? & Hl). constructor; [|by eapply IH].
  intros Hin. pose proof (increasing_within_elem _ _ _ _ Hl Hin). lia.
Qed.

(** At most [hi - lo - 1] rounds lie strictly between [lo] and [hi]. *)
Lemma increasing_within_length lo hi l :
  lo < hi → increasing_within lo hi l → N.of_nat (length l) ≤ hi - (lo + 1).
Proof.
  revert lo. induction l as [|y l IH]; intros lo Hlt; simpl; [lia|].
  intros (? & ? & Hl). specialize (IH y ltac:(lia) Hl). lia.
Qed.

Lemma check_failed_rounds_Ok lo hi l :
  check_failed_rounds lo hi l = Ok tt ↔ increasing_within lo hi l.*1.
Proof.
  revert lo. induction l as [|[r a] l IH]; intros lo; simpl; [done|].
  rewrite bind_unit_Ok, ensure_Ok, IH. guards. tauto.
Qed.

(** The exclusive upper bound of the failed rounds of a block. *)
Definition failed_upper (b : Block) : N :=
  Block_round b + (if Block_is_nil_block b then 1 else 0).

(** The failed authors of a block above its parent are accepted exactly when
    their rounds increase strictly inside the gap; the length test is implied. *)
Lemma check_failed_authors_Ok b failed :
  BlockData_failed_authors (block_block_data b) = Some failed →
  bi_round (certified_block (Block_quorum_cert b)) < Block_round b →
  failed_upper b ≤ u64_max →
  check_failed_authors b = Ok tt ↔
  increasing_within (bi_round (certified_block (Block_quorum_cert b))) (failed_upper b) failed.*1.
Proof.
  intros Hf Hlt Hmax. unfold check_failed_authors. rewrite Hf. fold (failed_upper b).
  set (lo := bi_round (certified_block (Block_quorum_cert b))) in *.
  assert (Hup : lo < failed_upper b) by (unfold failed_upper; destruct (Block_is_nil_block b); lia).
  unfold checked_add. fold (failed_upper b). rewrite (proj2 (N.leb_le _ _) Hmax). simpl.
  unfold add_u64, checked_add. rewrite (proj2 (N.leb_le (lo + 1) u64_max)) by lia. simpl.
  unfold checked_sub. rewrite (proj2 (N.leb_le (lo + 1) (failed_upper b))) by lia. simpl.
  rewrite bind_unit_Ok, ensure_Ok, check_failed_rounds_Ok. guards. split; [tauto|].
  intros H. split; [|done]. rewrite <- (length_fmap fst). by apply increasing_within_length.
Qed.

Lemma Block_verify_well_formed_Ok b now :
  Block_verify_well_formed b now = Ok tt →
  let parent := certified_block (Block_quorum_cert b) in
  Block_is_genesis_block b = false ∧
  bi_round parent < Block_round b ∧ bi_epoch parent = Block_epoch b ∧
  bi_timestamp_usecs parent ≤ Block_timestamp_usecs b ∧
  QuorumCert_ends_epoch (Block_quorum_cert b) = false ∧
  check_failed_authors b = Ok tt.
Proof.
  intros H. unfold Block_verify_well_formed in H. run_inv. guards.
  repeat split; try done.
  destruct (Block_is_nil_block b || _); run_inv; guards; lia.
Qed.

Lemma validate_signature_Ok b v :
  validate_signature b v = Ok tt →
  QuorumCert_verify (Block_quorum_cert b) v = Ok tt ∧
  (Block_is_nil_block b = true ∨ ∃ author s, Block_author b = Some author ∧
     block_signature b = Some s ∧
     vv_verify v author (SignBlockData (block_block_data b)) s = Ok tt).
Proof.
  unfold validate_signature, validate_author_signature, Block_is_nil_block, Block_author,
    BlockData_is_nil_block, BlockData_author.
  destruct (bd_block_type (block_block_data b)); intros H; run_inv; eauto 10.
Qed.

Lemma failed_authors_increasing b now failed :
  Block_verify_well_formed b now = Ok tt → failed_upper b ≤ u64_max →
  BlockData_failed_authors (block_block_data b) = Some failed →
  increasing_within (bi_round (certified_block (Block_quorum_cert b))) (failed_upper b) failed.*1.
Proof.
  intros (_ & ? & _ & _ & _ & Hc)%Block_verify_well_formed_Ok Hmax Hf.
  by apply check_failed_authors_Ok.
Qed.

(** A proposal message that verifies is what the protocol expects: its quorum
    certificate and timeout certificate verify, it is signed by its author, its
    round follows the higher of the two certificates, its epoch is that of its
    parent and of the sync info, its parent is the block certified in the sync info,
    and the failed authors it lists have strictly increasing rounds strictly between
    its parent's and its own. *)
Theorem ProposalMsg_verify_sound m v qs now c c' :
  ProposalMsg_verify m v qs now c = (Ok tt, c') →
  let b := pm_proposal m in
  let parent := certified_block (Block_quorum_cert b) in
  QuorumCert_verify (Block_quorum_cert b) v = Ok tt ∧
  (∀ tc, si_highest_2chain_timeout_cert (pm_sync_info m) = Some tc →
     TwoChainTimeoutCertificate_verify tc v = Ok tt) ∧
  (∃ author s, Block_author b = Some author ∧ block_signature b = Some s ∧
     vv_verify v author (SignBlockData (block_block_data b)) s = Ok tt) ∧
  Block_round b = N.max (bi_round parent) (highest_timeout_round (pm_sync_info m)) + 1 ∧
  bi_round parent < Block_round b ∧
  bi_epoch parent = Block_epoch b ∧ Block_epoch b = SyncInfo_epoch (pm_sync_info m) ∧
  Block_parent_id b = bi_id (certified_block (si_highest_quorum_cert (pm_sync_info m))) ∧
  ∀ failed, BlockData_failed_authors (block_block_data b) = Some failed →
    Block_round b ≤ u64_max → increasing_within (bi_round parent) (Block_round b) failed.*1.
Proof.
  intros H. unfold ProposalMsg_verify in H. run_inv.
  unfold ProposalMsg_verify_well_formed in H. gaptos_inv. guards.
  rename select (validate_signature _ _ = Ok _) into Hval.
  rename select (Block_verify_well_formed _ _ = Ok _) into Hwf.
  match goal with H : context [TwoChainTimeoutCertificate_verify] |- _ => rename H into Htc end.
  rename select (Block_is_nil_block _ = false) into Hnil.
  apply validate_signature_Ok in Hval as [Hqc [?|Hsig]]; [congruence|].
  pose proof (Block_verify_well_formed_Ok _ _ Hwf) as (_ & Hlt & He & _ & _ & _).
  repeat split; try done; try lia.
  - intros tc Heq. by rewrite Heq in Htc.
  - intros failed Hf Hmax.
    pose proof (failed_authors_increasing _ _ failed Hwf) as Hinc.
    unfold failed_upper in Hinc. rewrite Hnil, N.add_0_r in Hinc. by apply Hinc.
Qed.

(** A nil block built on a certificate that does not end the epoch is well formed
    exactly when the failed authors given to it have strictly increasing rounds
    between its parent's round (excluded) and its own (included). *)
Theorem Block_new_nil_well_formed round qc failed now :
  let b := Block_new_nil round qc failed in
  bi_round (certified_block qc) < round → round < u64_max →
  QuorumCert_ends_epoch qc = false →
  (Block_verify_well_formed b now = Ok tt ↔
   increasing_within (bi_round (certified_block qc)) (round + 1) failed.*1).
Proof.
  intros b Hlt Hmax Hends.
  change (round + 1) with (failed_upper b).
  change (bi_round (certified_block qc)) with (bi_round (certified_block (Block_quorum_cert b))).
  rewrite <- (check_failed_authors_Ok b failed);
    [|done|done|change (failed_upper b) with (round + 1); lia].
  unfold Block_verify_well_formed.
  rewrite (proj2 (N.ltb_lt (bi_round (certified_block (Block_quorum_cert b))) (Block_round b)) Hlt).
  change (Block_epoch b) with (bi_epoch (certified_block (Block_quorum_cert b))).
  change (Block_timestamp_usecs b) with (bi_timestamp_usecs (certified_block (Block_quorum_cert b))).
  change (QuorumCert_ends_epoch (Block_quorum_cert b)) with (QuorumCert_ends_epoch qc).
  rewrite !N.eqb_refl, Hends.
  destruct (check_failed_authors b) as [[]|e|msg], (bi_has_reconfiguration _); done.
Qed.

(** [set_block_number] keeps the first number ever set, and its warning about a
    different number never fires, because the error of the once cell carries the
    rejected value and not the stored one. *)
Theorem set_block_number_keeps_first_silently b n :
  block_block_number (set_block_number b n).1
  = Some (default n (block_block_number b)) ∧
  (set_block_number b n).2 = false.
Proof.
  unfold set_block_number, once_cell_set. destruct (block_block_number b); simpl.
  - by rewrite N.eqb_refl.
  - done.
Qed.

End blocks.
