(* ===== verification/SafetyRules.v ===== *)
(** * Safety rules (consensus/safety-rules)

    The component that decides what a validator signs: the persistent safety
    data and its cache, the 2-chain voting, timeout and order-vote rules, the
    handlers of [TSafetyRules].  Every handler is a computation on the state
    [SafetyRules] that keeps the state reached on its error paths.  The theorems
    about it are in [SafetySpec] and [Bft]. *)

From S2P Require Import Prelude Gaptos Types Certificates Blocks.

(** ** Errors *)

(** [aptos_secure_storage::Error], up to the variants the code tells apart. *)
Inductive StorageError : Type :=
| PermissionDenied
| KeyVersionNotFound
| KeyNotSet
| KeyAlreadyExists
| StorageSerializationError
| OtherStorageError (code : N).

(** What an error message is made of. *)
Inductive ErrorText {GA : Gaptos} : Type :=
| Text (s : string)
| OfAnyhow (e : Anyhow)
| OfVerify (e : VerifyError)
| OfStorage (e : StorageError)
| OfCrypto (e : CryptoMaterialError)
| OfAuthor (a : AccountAddress)
| OfLedgerInfo (li : LedgerInfo)
| OfBlockInfo (b : BlockInfo).

(** error.rs *)
Inductive Error {GA : Gaptos} : Type :=
| IncorrectEpoch (provided expected : N)
| IncorrectRound (round : N)
| IncorrectLastVotedRound (provided last_voted : N)
| IncorrectPreferredRound (provided preferred : N)
| InvalidAccumulatorExtension (t : ErrorText)
| InvalidEpochChangeProof (t : ErrorText)
| InternalError (t : ErrorText)
| InvalidLedgerInfo
| InvalidProposal (t : ErrorText)
| InvalidQuorumCertificate (t : ErrorText)
| NotInitialized (t : ErrorText)
| NotSafeForOrderVote (round highest_timeout : N)
| SecureStorageMissingDataError (t : ErrorText)
| SecureStorageUnexpectedError (t : ErrorText)
| SerializationError (t : ErrorText)
| ValidatorKeyNotFound (t : ErrorText)
| ValidatorNotInSet (t : ErrorText)
| VoteProposalSignatureNotFound
| NotSafeToVote (round qc_round tc_round hqc : N)
| NotSafeToTimeout (round qc_round tc_round one_chain : N)
| InvalidTimeoutCertificate (t : ErrorText)
| InconsistentExecutionResult (ordered executed : ErrorText)
| InvalidOrderedLedgerInfo (t : ErrorText)
| WaypointOutOfDate (previous updated current_epoch provided_epoch : N)
| InvalidTimeout (t : ErrorText)
| InvalidOneChainQuorumCertificate (qc_id block_id : HashValue).

(** [impl From<aptos_secure_storage::Error> for Error]. *)
Definition from_storage_error {GA : Gaptos} {A} (e : StorageError) : result Error A :=
  match e with
  | PermissionDenied => Panic "A permission error was thrown"
  | KeyVersionNotFound | KeyNotSet => Err (SecureStorageMissingDataError (OfStorage e))
  | _ => Err (SecureStorageUnexpectedError (OfStorage e))
  end.

(** ** The secure storage and the epoch change proofs of [gaptos] *)

(** A key-value store of JSON values, the (de)serializers of the types the code
    keeps in it, waypoints and epoch change proofs.  [Deserialize] for
    [Result<SafetyData, Error>] is listed since the code reads at that type. *)
Class SecureStorage {GA : Gaptos} := {
  Storage : Type;
  Json : Type;
  storage_get : string → Storage → result StorageError Json * Storage;
  storage_set : string → Json → Storage → result StorageError unit * Storage;
  json_of_safety_data : SafetyData → Json;
  safety_data_of_json : Json → option SafetyData;
  result_safety_data_of_json : Json → option (result Error SafetyData);
  json_of_author : AccountAddress → Json;
  author_of_json : Json → option AccountAddress;
  json_of_private_key : PrivateKey → Json;
  private_key_of_json : Json → option PrivateKey;
  Waypoint : Type;
  wp_version : Waypoint → N;
  json_of_waypoint : Waypoint → Json;
  waypoint_of_json : Json → option Waypoint;
  Waypoint_new_epoch_boundary : LedgerInfo → result Anyhow Waypoint;
  EpochChangeProof : Type;
  ecp_verify : EpochChangeProof → Waypoint → result Anyhow LedgerInfoWithSignatures;
  CONSENSUS_KEY : string;
  OWNER_ACCOUNT : string;
  SAFETY_DATA : string;
  WAYPOINT : string;
  (** [format!("{}_{}", CONSENSUS_KEY, hex::encode(pk.to_bytes()))]. *)
  explicit_storage_key : PublicKey → string;
}.

Section safety_rules.
Context {GA : Gaptos} {VE : Verifier} {CR : Crypto} {SS : SecureStorage}.

(** ** PersistentSafetyStorage (persistent_safety_storage.rs) *)

Record PersistentSafetyStorage := {
  pss_enable_cached_safety_data : bool;
  pss_cached_safety_data : option SafetyData;
  pss_internal_store : Storage;
}.

Definition with_cached (c : option SafetyData) (p : PersistentSafetyStorage)
    : PersistentSafetyStorage :=
  {| pss_enable_cached_safety_data := pss_enable_cached_safety_data p;
     pss_cached_safety_data := c; pss_internal_store := pss_internal_store p |}.

Definition with_store (st : Storage) (p : PersistentSafetyStorage) : PersistentSafetyStorage :=
  {| pss_enable_cached_safety_data := pss_enable_cached_safety_data p;
     pss_cached_safety_data := pss_cached_safety_data p; pss_internal_store := st |}.

(** [self.internal_store.get::<T>(key).map(|v| v.value)], the storage error
    still unconverted. *)
Definition store_get {A} (dec : Json → option A) (key : string)
    : M PersistentSafetyStorage StorageError A := λ p,
  let '(r, st) := storage_get key (pss_internal_store p) in
  (j ← r; ok_or StorageSerializationError (dec j), with_store st p).

Definition store_set (key : string) (j : Json) : M PersistentSafetyStorage StorageError unit := λ p,
  let '(r, st) := storage_set key j (pss_internal_store p) in (r, with_store st p).

(** The conversion made by [?]. *)
Definition try_storage {S A} (c : M S StorageError A) : M S Error A := λ s,
  let '(r, s') := c s in
  (match r with Ok a => Ok a | Err e => from_storage_error e | Panic m => Panic m end, s').

Definition SafetyData_new (epoch last_voted_round preferred_round one_chain_round : N)
    (last_vote : option Vote) (highest_timeout_round : N) : SafetyData :=
  {| sd_epoch := epoch; sd_last_voted_round := last_voted_round;
     sd_preferred_round := preferred_round; sd_one_chain_round := one_chain_round;
     sd_last_vote := last_vote; sd_highest_timeout_round := highest_timeout_round |}.

Definition PersistentSafetyStorage_new (internal_store : Storage) (enable : bool)
    : PersistentSafetyStorage :=
  {| pss_enable_cached_safety_data := enable; pss_cached_safety_data := None;
     pss_internal_store := internal_store |}.

Definition author : M PersistentSafetyStorage Error Author :=
  try_storage (store_get author_of_json OWNER_ACCOUNT).

Definition default_consensus_sk : M PersistentSafetyStorage StorageError PrivateKey :=
  store_get private_key_of_json CONSENSUS_KEY.

Definition consensus_sk_by_pk (pk : PublicKey) : M PersistentSafetyStorage Error PrivateKey := λ p,
  let '(explicit_sk, p) := store_get private_key_of_json (explicit_storage_key pk) p in
  let '(default_sk, p) := default_consensus_sk p in
  (key ← match explicit_sk, default_sk with
         | Ok sk_0, _ => Ok sk_0
         | Err _, Ok sk_1 => Ok sk_1
         | Err _, Err _ => Err (ValidatorKeyNotFound (Text "not found!"))
         | Panic m, _ | _, Panic m => Panic m
         end;
   if bool_decide (public_key key = pk) then Ok key
   else Err (SecureStorageMissingDataError (Text "Incorrect sk saved for the expected pk")), p).

(** With the cache disabled the code is
    [return self.internal_store.get(SAFETY_DATA).map(|v| v.value)?;]: the value
    left by [?] is returned as the function's own [Result], so the stored JSON is
    read at type [Result<SafetyData, Error>]. *)
Definition safety_data : M PersistentSafetyStorage Error SafetyData := λ p,
  if negb (pss_enable_cached_safety_data p) then
    let '(r, p) := try_storage (store_get result_safety_data_of_json SAFETY_DATA) p in
    (r ≫= id, p)
  else
    match pss_cached_safety_data p with
    | Some cached => (Ok cached, p)
    | None =>
        let '(r, p) := try_storage (store_get safety_data_of_json SAFETY_DATA) p in
        match r with
        | Ok sd => (Ok sd, with_cached (Some sd) p)
        | Err e => (Err e, p)
        | Panic m => (Panic m, p)
        end
    end.

Definition set_safety_data (data : SafetyData) : M PersistentSafetyStorage Error unit := λ p,
  let '(r, p) := store_set SAFETY_DATA (json_of_safety_data data) p in
  match r with
  | Ok _ => (Ok tt, with_cached (Some data) p)
  | Err e => (Err (SecureStorageUnexpectedError (OfStorage e)), with_cached None p)
  | Panic m => (Panic m, p)
  end.

Definition waypoint : M PersistentSafetyStorage Error Waypoint :=
  try_storage (store_get waypoint_of_json WAYPOINT).

Definition set_waypoint (w : Waypoint) : M PersistentSafetyStorage Error unit :=
  try_storage (store_set WAYPOINT (json_of_waypoint w)).

Definition initialize_keys_and_accounts (account : Author) (sk : PrivateKey)
    : M PersistentSafetyStorage Error unit := λ p,
  let '(r, p) := store_set CONSENSUS_KEY (json_of_private_key sk) p in
  match r with
  | Err KeyAlreadyExists => (Ok tt, p)
  | Panic m => (Panic m, p)
  | _ => try_storage (store_set OWNER_ACCOUNT (json_of_author account)) p
  end.

Definition PersistentSafetyStorage_initialize (internal_store : Storage) (account : Author)
    (sk : PrivateKey) (w : Waypoint) (enable : bool) : result Error PersistentSafetyStorage :=
  let '(r, p) := initialize_keys_and_accounts account sk
                   (PersistentSafetyStorage_new internal_store enable) in
  _ ← expect_ok "Unable to initialize keys and accounts in storage" r;
  let sd := SafetyData_new 1 0 0 0 None 0 in
  let '(r, p) := set_safety_data sd (with_cached (Some sd) p) in
  _ ← expect_ok "Unable to initialize safety data" r;
  let '(r, p) := set_waypoint w p in
  _ ← expect_ok "Unable to initialize waypoint" r;
  Ok p.

(** ** SafetyRules (safety_rules.rs) *)

Record SafetyRules := {
  sr_persistent_storage : PersistentSafetyStorage;
  sr_validator_signer : option ValidatorSigner;
  sr_epoch_state : option EpochState;
}.

Definition SafetyRules_new (p : PersistentSafetyStorage) : SafetyRules :=
  {| sr_persistent_storage := p; sr_validator_signer := None; sr_epoch_state := None |}.

Definition with_storage (p : PersistentSafetyStorage) (s : SafetyRules) : SafetyRules :=
  {| sr_persistent_storage := p; sr_validator_signer := sr_validator_signer s;
     sr_epoch_state := sr_epoch_state s |}.

Definition with_signer (v : option ValidatorSigner) (s : SafetyRules) : SafetyRules :=
  {| sr_persistent_storage := sr_persistent_storage s; sr_validator_signer := v;
     sr_epoch_state := sr_epoch_state s |}.

Definition with_epoch_state (e : option EpochState) (s : SafetyRules) : SafetyRules :=
  {| sr_persistent_storage := sr_persistent_storage s;
     sr_validator_signer := sr_validator_signer s; sr_epoch_state := e |}.

(** A call on [self.persistent_storage]. *)
Definition in_storage {A} (c : M PersistentSafetyStorage Error A) : M SafetyRules Error A := λ s,
  let '(r, p) := c (sr_persistent_storage s) in (r, with_storage p s).

Definition next_round (round : Round) : result Error Round :=
  ok_or (IncorrectRound round) (checked_add round 1).

Definition signer (s : SafetyRules) : result Error ValidatorSigner :=
  ok_or (NotInitialized (Text "validator_signer")) (sr_validator_signer s).

Definition epoch_state (s : SafetyRules) : result Error EpochState :=
  ok_or (NotInitialized (Text "epoch_state")) (sr_epoch_state s).

Definition sign (message : Signable) (s : SafetyRules) : result Error Signature :=
  sg ← signer s;
  map_err (λ e, SerializationError (OfCrypto e)) (signer_sign sg message).

Definition verify_epoch (epoch : N) (sd : SafetyData) : result Error unit :=
  ensure (epoch =? sd_epoch sd) (IncorrectEpoch epoch (sd_epoch sd)).

Definition verify_qc (qc : QuorumCert) (s : SafetyRules) : result Error unit :=
  es ← epoch_state s;
  map_err (λ e, InvalidQuorumCertificate (OfAnyhow e)) (QuorumCert_verify qc (es_verifier es)).

Definition with_last_voted_round (r : Round) (sd : SafetyData) : SafetyData :=
  SafetyData_new (sd_epoch sd) r (sd_preferred_round sd) (sd_one_chain_round sd)
    (sd_last_vote sd) (sd_highest_timeout_round sd).

Definition with_last_vote (v : option Vote) (sd : SafetyData) : SafetyData :=
  SafetyData_new (sd_epoch sd) (sd_last_voted_round sd) (sd_preferred_round sd)
    (sd_one_chain_round sd) v (sd_highest_timeout_round sd).

(** The safety data after [observe_qc] and whether it changed. *)
Definition observe_qc (qc : QuorumCert) (sd : SafetyData) : SafetyData * bool :=
  let one_chain := bi_round (certified_block qc) in
  let two_chain := bi_round (parent_block qc) in
  let u1 := sd_one_chain_round sd <? one_chain in
  let u2 := sd_preferred_round sd <? two_chain in
  (SafetyData_new (sd_epoch sd) (sd_last_voted_round sd)
     (if u2 then two_chain else sd_preferred_round sd)
     (if u1 then one_chain else sd_one_chain_round sd)
     (sd_last_vote sd) (sd_highest_timeout_round sd),
   u1 || u2).

Definition update_highest_timeout_round (timeout : TwoChainTimeout) (sd : SafetyData)
    : SafetyData :=
  if sd_highest_timeout_round sd <? tmo_round timeout
  then SafetyData_new (sd_epoch sd) (sd_last_voted_round sd) (sd_preferred_round sd)
         (sd_one_chain_round sd) (sd_last_vote sd) (tmo_round timeout)
  else sd.

Definition verify_and_update_preferred_round (qc : QuorumCert) (sd : SafetyData)
    : result Error (SafetyData * bool) :=
  let preferred_round := sd_preferred_round sd in
  let one_chain_round := bi_round (certified_block qc) in
  _ ← ensure (negb (one_chain_round <? preferred_round))
        (IncorrectPreferredRound one_chain_round preferred_round);
  Ok (observe_qc qc sd).

Definition verify_author (a : option Author) (s : SafetyRules) : result Error unit :=
  sg ← signer s;
  a ← ok_or (InvalidProposal (Text "No author found in the proposal")) a;
  ensure (bool_decide (signer_author sg = a))
    (InvalidProposal (Text "Proposal author is not validator signer!")).

Definition verify_and_update_last_vote_round (round : Round) (sd : SafetyData)
    : result Error SafetyData :=
  _ ← ensure (negb (round <=? sd_last_voted_round sd))
        (IncorrectLastVotedRound round (sd_last_voted_round sd));
  Ok (with_last_voted_round round sd).

(** [now] is the clock read by [Block::verify_well_formed]. *)
Definition verify_proposal (vp : VoteProposal) (now : N) : M SafetyRules Error VoteData :=
  let proposed_block := vp_block vp in
  sd ← in_storage safety_data;
  _ ← lift (verify_epoch (Block_epoch proposed_block) sd);
  _ ← gets (verify_qc (Block_quorum_cert proposed_block));
  es ← gets epoch_state;
  _ ← lift (map_err (λ e, InvalidProposal (OfAnyhow e))
              (validate_signature proposed_block (es_verifier es)));
  _ ← lift (map_err (λ e, InvalidProposal (OfAnyhow e))
              (Block_verify_well_formed proposed_block now));
  lift (map_err (λ e, InvalidAccumulatorExtension (OfAnyhow e)) (gen_vote_data vp)).

Definition verify_order_vote_proposal (ovp : OrderVoteProposal) : M SafetyRules Error unit :=
  let proposed_block := ovp_block ovp in
  sd ← in_storage safety_data;
  _ ← lift (verify_epoch (Block_epoch proposed_block) sd);
  let qc := ovp_quorum_cert ovp in
  _ ← lift (ensure (bool_decide (certified_block qc = ovp_block_info ovp))
              (InvalidOneChainQuorumCertificate (bi_id (certified_block qc))
                 (bi_id (ovp_block_info ovp))));
  _ ← lift (ensure (bool_decide (bi_id (certified_block qc) = block_id proposed_block))
              (InvalidOneChainQuorumCertificate (bi_id (certified_block qc))
                 (block_id proposed_block)));
  gets (verify_qc qc).

(** ** 2-chain rules (safety_rules_2chain.rs) *)

Definition tc_round_or_0 (tc : option TwoChainTimeoutCertificate) : Round :=
  match tc with Some tc => tc_round tc | None => 0 end.

Definition safe_to_timeout (timeout : TwoChainTimeout)
    (maybe_tc : option TwoChainTimeoutCertificate) (sd : SafetyData) : result Error unit :=
  let round := tmo_round timeout in
  let qc_round := hqc_round timeout in
  let tc_round := tc_round_or_0 maybe_tc in
  next_qc ← next_round qc_round;
  after ← (if round =? next_qc then Ok true
           else next_tc ← next_round tc_round; Ok (round =? next_tc));
  if after && (sd_one_chain_round sd <=? qc_round) then Ok tt
  else Err (NotSafeToTimeout round qc_round tc_round (sd_one_chain_round sd)).

Definition safe_to_vote (block : Block) (maybe_tc : option TwoChainTimeoutCertificate)
    : result Error unit :=
  let round := Block_round block in
  let qc_round := bi_round (certified_block (Block_quorum_cert block)) in
  let tc_round := tc_round_or_0 maybe_tc in
  let hqc := match maybe_tc with Some tc => highest_hqc_round tc | None => 0 end in
  next_qc ← next_round qc_round;
  if round =? next_qc then Ok tt
  else
    next_tc ← next_round tc_round;
    if (round =? next_tc) && (hqc <=? qc_round) then Ok tt
    else Err (NotSafeToVote round qc_round tc_round hqc).

Definition safe_for_order_vote (block : Block) (sd : SafetyData) : result Error unit :=
  let round := Block_round block in
  ensure (sd_highest_timeout_round sd <? round)
    (NotSafeForOrderVote round (sd_highest_timeout_round sd)).

Definition verify_tc (tc : TwoChainTimeoutCertificate) (s : SafetyRules) : result Error unit :=
  es ← epoch_state s;
  map_err (λ e, InvalidTimeoutCertificate (OfAnyhow e))
    (TwoChainTimeoutCertificate_verify tc (es_verifier es)).

Definition verify_maybe_tc (tc : option TwoChainTimeoutCertificate) (s : SafetyRules)
    : result Error unit :=
  match tc with Some tc => verify_tc tc s | None => Ok tt end.

Definition construct_ledger_info_2chain (proposed_block : Block)
    (consensus_data_hash : HashValue) : result Error LedgerInfo :=
  let block1 := Block_round proposed_block in
  let block0 := bi_round (certified_block (Block_quorum_cert proposed_block)) in
  next0 ← next_round block0;
  let commit_info := if next0 =? block1
                     then certified_block (Block_quorum_cert proposed_block)
                     else BlockInfo_empty in
  Ok (LedgerInfo_new commit_info consensus_data_hash).

Definition guarded_sign_timeout_with_qc (timeout : TwoChainTimeout)
    (timeout_cert : option TwoChainTimeoutCertificate) : M SafetyRules Error Signature :=
  _ ← gets signer;
  sd ← in_storage safety_data;
  _ ← lift (verify_epoch (tmo_epoch timeout) sd);
  es ← gets epoch_state;
  _ ← lift (map_err (λ e, InvalidTimeout (OfAnyhow e))
              (TwoChainTimeout_verify timeout (es_verifier es)));
  _ ← gets (verify_maybe_tc timeout_cert);
  _ ← lift (safe_to_timeout timeout timeout_cert sd);
  _ ← lift (ensure (negb (tmo_round timeout <? sd_last_voted_round sd))
              (IncorrectLastVotedRound (tmo_round timeout) (sd_last_voted_round sd)));
  sd ← lift (if sd_last_voted_round sd <? tmo_round timeout
             then verify_and_update_last_vote_round (tmo_round timeout) sd
             else Ok sd);
  _ ← in_storage (set_safety_data (update_highest_timeout_round timeout sd));
  gets (sign (SignTimeout (signing_format timeout))).

(** The part of [guarded_construct_and_sign_vote_two_chain] after the test for
    an earlier vote of the same round. *)
Definition construct_new_vote (vp : VoteProposal) (vote_data : VoteData)
    (timeout_cert : option TwoChainTimeoutCertificate) (sd : SafetyData)
    : M SafetyRules Error Vote :=
  let proposed_block := vp_block vp in
  sd ← lift (verify_and_update_last_vote_round (Block_round proposed_block) sd);
  _ ← lift (safe_to_vote proposed_block timeout_cert);
  let sd := (observe_qc (Block_quorum_cert proposed_block) sd).1 in
  sg ← gets signer;
  ledger_info ← lift (construct_ledger_info_2chain proposed_block (hash_vote_data vote_data));
  signature ← gets (sign (SignLedgerInfo ledger_info));
  let vote := Vote_new_with_signature vote_data (signer_author sg) ledger_info signature in
  _ ← in_storage (set_safety_data (with_last_vote (Some vote) sd));
  mret vote.

Definition guarded_construct_and_sign_vote_two_chain (vp : VoteProposal)
    (timeout_cert : option TwoChainTimeoutCertificate) (now : N) : M SafetyRules Error Vote :=
  _ ← gets signer;
  vote_data ← verify_proposal vp now;
  _ ← gets (verify_maybe_tc timeout_cert);
  sd ← in_storage safety_data;
  match sd_last_vote sd with
  | Some vote =>
      if Vote_round vote =? Block_round (vp_block vp) then mret vote
      else construct_new_vote vp vote_data timeout_cert sd
  | None => construct_new_vote vp vote_data timeout_cert sd
  end.

Definition guarded_construct_and_sign_order_vote (ovp : OrderVoteProposal)
    : M SafetyRules Error OrderVote :=
  _ ← gets signer;
  _ ← verify_order_vote_proposal ovp;
  sd ← in_storage safety_data;
  let sd := (observe_qc (ovp_quorum_cert ovp) sd).1 in
  _ ← lift (safe_for_order_vote (ovp_block ovp) sd);
  sg ← gets signer;
  let ledger_info := LedgerInfo_new (ovp_block_info ovp) HashValue_zero in
  signature ← gets (sign (SignLedgerInfo ledger_info));
  let order_vote := OrderVote_new_with_signature (signer_author sg) ledger_info signature in
  _ ← in_storage (set_safety_data sd);
  mret order_vote.

(** ** The other handlers (safety_rules.rs) *)

Record ConsensusState := {
  cst_safety_data : SafetyData;
  cst_waypoint : Waypoint;
  cst_in_validator_set : bool;
}.

(** The arguments of [trace!] are evaluated only when the trace level is on. *)
Definition guarded_consensus_state : M SafetyRules Error ConsensusState :=
  _ ← in_storage waypoint;
  _ ← in_storage safety_data;
  sd ← in_storage safety_data;
  w ← in_storage waypoint;
  in_set ← gets (λ s, Ok (is_ok (signer s)));
  mret {| cst_safety_data := sd; cst_waypoint := w; cst_in_validator_set := in_set |}.

(** The reconciliation of the signer with the key the validator set expects. *)
Definition reconcile_key (account : Author) (expected : option PublicKey)
    : M SafetyRules Error unit :=
  match expected with
  | None => lift (Err (ValidatorNotInSet (OfAuthor account)))
  | Some expected_key => λ s,
      if bool_decide (signer_public_key <$> sr_validator_signer s = Some expected_key)
      then (Ok tt, s)
      else
        let '(r, s) := in_storage (consensus_sk_by_pk expected_key) s in
        match r with
        | Ok sk => (Ok tt, with_signer (Some (ValidatorSigner_new account sk)) s)
        | Err (SecureStorageMissingDataError e) => (Err (ValidatorKeyNotFound e), s)
        | Err e => (Err e, s)
        | Panic m => (Panic m, s)
        end
  end.

Definition clear_signer_on_error (c : M SafetyRules Error unit) : M SafetyRules Error unit := λ s,
  let '(r, s) := c s in
  match r with Err e => (Err e, with_signer None s) | _ => (r, s) end.

Definition guarded_initialize (proof : EpochChangeProof) : M SafetyRules Error unit :=
  w ← in_storage waypoint;
  last_li ← lift (map_err (λ e, InvalidEpochChangeProof (OfAnyhow e)) (ecp_verify proof w));
  let ledger_info := liws_ledger_info last_li in
  es ← lift (ok_or InvalidLedgerInfo (li_next_epoch_state ledger_info));
  new_waypoint ← lift (map_err (λ e, InternalError (OfAnyhow e))
                         (Waypoint_new_epoch_boundary ledger_info));
  _ ← (if wp_version w <? wp_version new_waypoint
       then in_storage (set_waypoint new_waypoint) else mret tt);
  sd ← in_storage safety_data;
  let current_epoch := sd_epoch sd in
  _ ← match current_epoch ?= es_epoch es with
      | Gt => lift (Err (WaypointOutOfDate (wp_version w) (wp_version new_waypoint)
                           current_epoch (es_epoch es)))
      | Lt => in_storage (set_safety_data (SafetyData_new (es_epoch es) 0 0 0 None 0))
      | Eq => mret tt
      end;
  _ ← modify (with_epoch_state (Some es));
  account ← in_storage author;
  clear_signer_on_error
    (reconcile_key account (vv_get_public_key (es_verifier es) account)).

Definition guarded_sign_proposal (block_data : BlockData) : M SafetyRules Error Signature :=
  _ ← gets signer;
  _ ← gets (verify_author (BlockData_author block_data));
  sd ← in_storage safety_data;
  _ ← lift (verify_epoch (bd_epoch block_data) sd);
  _ ← lift (ensure (negb (bd_round block_data <=? sd_last_voted_round sd))
              (InvalidProposal
                 (Text "Proposed round is not higher than last voted round")));
  _ ← gets (verify_qc (bd_quorum_cert block_data));
  _ ← lift (verify_and_update_preferred_round (bd_quorum_cert block_data) sd);
  gets (sign (SignBlockData block_data)).

Definition guarded_sign_commit_vote (ledger_info : LedgerInfoWithSignatures)
    (new_ledger_info : LedgerInfo) : M SafetyRules Error Signature :=
  _ ← gets signer;
  let old_ledger_info := liws_ledger_info ledger_info in
  _ ← lift (ensure (bi_is_ordered_only (li_commit_info old_ledger_info)
                    || bool_decide (li_commit_info old_ledger_info
                                    = li_commit_info new_ledger_info))
              (InvalidOrderedLedgerInfo (OfLedgerInfo old_ledger_info)));
  _ ← lift (ensure (bi_match_ordered_only (li_commit_info old_ledger_info)
                      (li_commit_info new_ledger_info))
              (InconsistentExecutionResult (OfBlockInfo (li_commit_info old_ledger_info))
                 (OfBlockInfo (li_commit_info new_ledger_info))));
  es ← gets epoch_state;
  _ ← lift (map_err (λ e, InvalidQuorumCertificate (OfVerify e))
              (liws_verify_signatures ledger_info (es_verifier es)));
  gets (sign (SignLedgerInfo new_ledger_info)).

(** ** The interface [TSafetyRules] and a restart of the process *)

Inductive Call :=
| ConsensusState_call
| Initialize (proof : EpochChangeProof)
| SignProposal (block_data : BlockData)
| SignTimeoutWithQC (timeout : TwoChainTimeout) (tc : option TwoChainTimeoutCertificate)
| ConstructAndSignVoteTwoChain (vp : VoteProposal) (tc : option TwoChainTimeoutCertificate) (now : N)
| ConstructAndSignOrderVote (ovp : OrderVoteProposal)
| SignCommitVote (ledger_info : LedgerInfoWithSignatures) (new_ledger_info : LedgerInfo)
| Restart (enable_cached : bool).

(** What a successful call hands out under the validator's signature. *)
Inductive Signed :=
| SignedNothing
| SignedProposal (block_data : BlockData) (s : Signature)
| SignedTimeout (t : TimeoutSigningRepr) (s : Signature)
| SignedVote (v : Vote)
| SignedOrderVote (v : OrderVote)
| SignedCommitVote (li : LedgerInfo) (s : Signature).

(** A restart keeps the store and loses everything else
    ([PersistentSafetyStorage::new], [SafetyRules::new]). *)
Definition restart (enable_cached : bool) : M SafetyRules Error unit :=
  modify (λ s, SafetyRules_new (PersistentSafetyStorage_new
    (pss_internal_store (sr_persistent_storage s)) enable_cached)).

Definition exec (c : Call) : M SafetyRules Error Signed :=
  match c with
  | ConsensusState_call => _ ← guarded_consensus_state; mret SignedNothing
  | Initialize proof => _ ← guarded_initialize proof; mret SignedNothing
  | SignProposal bd => s ← guarded_sign_proposal bd; mret (SignedProposal bd s)
  | SignTimeoutWithQC t tc =>
      s ← guarded_sign_timeout_with_qc t tc; mret (SignedTimeout (signing_format t) s)
  | ConstructAndSignVoteTwoChain vp tc now =>
      v ← guarded_construct_and_sign_vote_two_chain vp tc now; mret (SignedVote v)
  | ConstructAndSignOrderVote ovp =>
      v ← guarded_construct_and_sign_order_vote ovp; mret (SignedOrderVote v)
  | SignCommitVote l n => s ← guarded_sign_commit_vote l n; mret (SignedCommitVote n s)
  | Restart enable => _ ← restart enable; mret SignedNothing
  end.

End safety_rules.

#[global] Arguments update_highest_timeout_round : simpl never.
#[global] Arguments with_last_vote : simpl never.
