(* ===== verification/SafetySpec.v ===== *)
(** * What the safety rules promise

    An abstract transition system [rules_step] on the persisted [SafetyData]:
    which messages a validator may sign in which state, and how the state moves.
    [exec_refines] shows that every call of the detailed handlers of
    [SafetyRules], on every outcome and across restarts and storage failures, is
    a step of it.  On the abstract side follow the properties of one validator:
    safety data only moves forward, and no two different votes are ever handed
    out for the same epoch and round. *)

From S2P Require Import Prelude Gaptos Types Certificates Blocks SafetyRules.

(** The storage interface: reads return what was written, a failed write leaves
    the old value or the new one, other keys are untouched; serialization round
    trips, and JSON of one type is not JSON of another. *)
Class StorageLaws {GA : Gaptos} {VE : Verifier} {CR : Crypto} {SS : SecureStorage} := {
  storage_contents : Storage → gmap string Json;
  storage_get_contents k st : storage_contents (storage_get k st).2 = storage_contents st;
  storage_get_Ok k st j : (storage_get k st).1 = Ok j → storage_contents st !! k = Some j;
  storage_set_Ok k j st u :
    (storage_set k j st).1 = Ok u →
    storage_contents (storage_set k j st).2 = <[k := j]> (storage_contents st);
  storage_set_Err k j st e :
    (storage_set k j st).1 = Err e →
    storage_contents (storage_set k j st).2 = storage_contents st ∨
    storage_contents (storage_set k j st).2 = <[k := j]> (storage_contents st);
  storage_set_no_panic k j st m : (storage_set k j st).1 ≠ Panic m;
  safety_data_roundtrip sd : safety_data_of_json (json_of_safety_data sd) = Some sd;
  result_safety_data_disjoint j sd :
    safety_data_of_json j = Some sd → result_safety_data_of_json j = None;
  waypoint_key_distinct : WAYPOINT ≠ SAFETY_DATA;
}.

Section spec.
Context {GA : Gaptos} {VE : Verifier} {CR : Crypto} {SS : SecureStorage}.

(** ** The abstract rules *)

(** [observe_qc] and the persisted outcome of each signing call. *)
Definition timeout_update (t : TwoChainTimeout) (sd : SafetyData) : SafetyData :=
  {| sd_epoch := sd_epoch sd;
     sd_last_voted_round := N.max (sd_last_voted_round sd) (tmo_round t);
     sd_preferred_round := sd_preferred_round sd;
     sd_one_chain_round := sd_one_chain_round sd;
     sd_last_vote := sd_last_vote sd;
     sd_highest_timeout_round := N.max (sd_highest_timeout_round sd) (tmo_round t) |}.

Definition observe_update (qc : QuorumCert) (sd : SafetyData) : SafetyData :=
  {| sd_epoch := sd_epoch sd;
     sd_last_voted_round := sd_last_voted_round sd;
     sd_preferred_round := N.max (sd_preferred_round sd) (bi_round (parent_block qc));
     sd_one_chain_round := N.max (sd_one_chain_round sd) (bi_round (certified_block qc));
     sd_last_vote := sd_last_vote sd;
     sd_highest_timeout_round := sd_highest_timeout_round sd |}.

Definition vote_update (b : Block) (vote : Vote) (sd : SafetyData) : SafetyData :=
  with_last_vote (Some vote)
    (observe_update (Block_quorum_cert b) (with_last_voted_round (Block_round b) sd)).

Definition tc_verified (v : ValidatorVerifier) (tc : option TwoChainTimeoutCertificate) : Prop :=
  ∀ c, tc = Some c → TwoChainTimeoutCertificate_verify c v = Ok tt.

(** The 2-chain timeout rule. *)
Record timeout_allowed (v : ValidatorVerifier) (t : TwoChainTimeout)
    (tc : option TwoChainTimeoutCertificate) (sd : SafetyData) : Prop := {
  ta_epoch : tmo_epoch t = sd_epoch sd;
  ta_verified : TwoChainTimeout_verify t v = Ok tt;
  ta_tc : tc_verified v tc;
  ta_round : tmo_round t = hqc_round t + 1 ∨ tmo_round t = tc_round_or_0 tc + 1;
  ta_one_chain : sd_one_chain_round sd ≤ hqc_round t;
  ta_last_voted : sd_last_voted_round sd ≤ tmo_round t;
}.

(** The 2-chain voting rule: the block is one round above its parent, or one
    round above a timeout certificate that no honest timeout contradicts. *)
Definition vote_round_rule (b : Block) (tc : option TwoChainTimeoutCertificate) : Prop :=
  let qc_round := bi_round (certified_block (Block_quorum_cert b)) in
  Block_round b = qc_round + 1 ∨
  ∃ hqc, hqc = match tc with Some c => highest_hqc_round c | None => 0 end ∧
    Block_round b = tc_round_or_0 tc + 1 ∧ hqc ≤ qc_round.

(** The ledger info a vote commits to: the parent when the two rounds are
    consecutive, nothing otherwise. *)
Definition vote_ledger (b : Block) (vd : VoteData) : LedgerInfo :=
  LedgerInfo_new
    (if Block_round b =? bi_round (certified_block (Block_quorum_cert b)) + 1
     then certified_block (Block_quorum_cert b) else BlockInfo_empty)
    (hash_vote_data vd).

Record vote_allowed (v : ValidatorVerifier) (vp : VoteProposal)
    (tc : option TwoChainTimeoutCertificate) (sd : SafetyData) (vote : Vote) : Prop := {
  va_epoch : Block_epoch (vp_block vp) = sd_epoch sd;
  va_qc : QuorumCert_verify (Block_quorum_cert (vp_block vp)) v = Ok tt;
  va_parent : bi_round (certified_block (Block_quorum_cert (vp_block vp))) < Block_round (vp_block vp);
  va_tc : tc_verified v tc;
  va_last_voted : sd_last_voted_round sd < Block_round (vp_block vp);
  va_round : vote_round_rule (vp_block vp) tc;
  va_data : vote_vote_data vote = vote_data_ordering_only vp;
  va_ledger : vote_ledger_info vote = vote_ledger (vp_block vp) (vote_vote_data vote);
}.

Record order_vote_allowed (v : ValidatorVerifier) (ovp : OrderVoteProposal) (sd : SafetyData)
    : Prop := {
  oa_epoch : Block_epoch (ovp_block ovp) = sd_epoch sd;
  oa_qc : QuorumCert_verify (ovp_quorum_cert ovp) v = Ok tt;
  oa_info : certified_block (ovp_quorum_cert ovp) = ovp_block_info ovp;
  oa_id : bi_id (ovp_block_info ovp) = block_id (ovp_block ovp);
  oa_timeout : sd_highest_timeout_round sd < Block_round (ovp_block ovp);
}.

(** One call, seen from the persisted data.  A message may be lost after the
    data was written ([SignedNothing]), never handed out before. *)
Inductive rules_step (v : option ValidatorVerifier) : Call → SafetyData → Signed → SafetyData → Prop :=
| rs_silent c sd : rules_step v c sd SignedNothing sd
| rs_new_epoch proof sd e :
    sd_epoch sd < e →
    rules_step v (Initialize proof) sd SignedNothing (SafetyData_new e 0 0 0 None 0)
| rs_proposal vv bd sd s :
    v = Some vv → bd_epoch bd = sd_epoch sd → sd_last_voted_round sd < bd_round bd →
    QuorumCert_verify (bd_quorum_cert bd) vv = Ok tt →
    rules_step v (SignProposal bd) sd (SignedProposal bd s) sd
| rs_timeout vv t tc sd out :
    v = Some vv → timeout_allowed vv t tc sd →
    (∃ s, out = SignedTimeout (signing_format t) s) ∨ out = SignedNothing →
    rules_step v (SignTimeoutWithQC t tc) sd out (timeout_update t sd)
| rs_vote vv vp tc now sd vote out :
    v = Some vv → vote_allowed vv vp tc sd vote →
    out = SignedVote vote ∨ out = SignedNothing →
    rules_step v (ConstructAndSignVoteTwoChain vp tc now) sd out
      (vote_update (vp_block vp) vote sd)
| rs_revote vp tc now sd vote :
    sd_last_vote sd = Some vote → Block_epoch (vp_block vp) = sd_epoch sd →
    Vote_round vote = Block_round (vp_block vp) →
    rules_step v (ConstructAndSignVoteTwoChain vp tc now) sd (SignedVote vote) sd
| rs_order_vote vv ovp sd ov out :
    v = Some vv → order_vote_allowed vv ovp sd →
    ov_ledger_info ov = LedgerInfo_new (ovp_block_info ovp) HashValue_zero →
    out = SignedOrderVote ov ∨ out = SignedNothing →
    rules_step v (ConstructAndSignOrderVote ovp) sd out (observe_update (ovp_quorum_cert ovp) sd)
| rs_commit_vote vv l n sd s :
    v = Some vv → liws_verify_signatures l vv = Ok tt →
    bi_match_ordered_only (li_commit_info (liws_ledger_info l)) (li_commit_info n) = true →
    rules_step v (SignCommitVote l n) sd (SignedCommitVote n s) sd.

(** ** Runs *)

Definition output (r : result Error Signed) : Signed :=
  match r with Ok out => out | _ => SignedNothing end.

(** A sequence of calls on one validator, with what each handed out. *)
Fixpoint exec_all (calls : list Call) (s : SafetyRules) : list (Call * Signed) * SafetyRules :=
  match calls with
  | [] => ([], s)
  | c :: calls =>
      let '(r, s1) := exec c s in
      let '(trace, s2) := exec_all calls s1 in
      ((c, output r) :: trace, s2)
  end.

Inductive rules_run : SafetyData → list (Call * Signed) → SafetyData → Prop :=
| run_nil sd : rules_run sd [] sd
| run_cons v c out sd sd1 trace sd2 :
    rules_step v c sd out sd1 → rules_run sd1 trace sd2 →
    rules_run sd ((c, out) :: trace) sd2.

(** The votes handed out in a trace. *)
Definition votes_of (trace : list (Call * Signed)) : list Vote :=
  omap (λ x, match x.2 with SignedVote v => Some v | _ => None end) trace.

(** The last vote recorded belongs to the current epoch and is not above the
    last voted round. *)
Definition last_vote_ok (sd : SafetyData) : Prop :=
  ∀ lv, sd_last_vote sd = Some lv →
    Vote_epoch lv = sd_epoch sd ∧ Vote_round lv ≤ sd_last_voted_round sd.

(** The order in which safety data moves: a new epoch, or no round decreases. *)
Definition sd_le (sd sd' : SafetyData) : Prop :=
  sd_epoch sd < sd_epoch sd' ∨
  sd_epoch sd = sd_epoch sd' ∧
  sd_last_voted_round sd ≤ sd_last_voted_round sd' ∧
  sd_preferred_round sd ≤ sd_preferred_round sd' ∧
  sd_one_chain_round sd ≤ sd_one_chain_round sd' ∧
  sd_highest_timeout_round sd ≤ sd_highest_timeout_round sd'.

(** ** The pure rules meet their specification *)

Lemma next_round_Ok r n : next_round r = Ok n ↔ n = r + 1 ∧ r + 1 ≤ u64_max.
Proof. unfold next_round. by rewrite ok_or_Ok, checked_add_Some. Qed.

Lemma safe_to_timeout_Ok t tc sd :
  safe_to_timeout t tc sd = Ok tt →
  (tmo_round t = hqc_round t + 1 ∨ tmo_round t = tc_round_or_0 tc + 1) ∧
  sd_one_chain_round sd ≤ hqc_round t.
Proof.
  intros H. unfold safe_to_timeout in H. run_inv.
  apply next_round_Ok in Hrun as [-> _].
  destruct (tmo_round t =? hqc_round t + 1) eqn:E; run_inv; guards.
  - destruct (sd_one_chain_round sd <=? hqc_round t) eqn:E2; [|done]. guards. auto.
  - apply next_round_Ok in Hrun as [-> _].
    destruct (_ && _) eqn:E2; [|done]. guards. tauto.
Qed.

Lemma safe_to_vote_Ok b tc : safe_to_vote b tc = Ok tt → vote_round_rule b tc.
Proof.
  intros H. unfold safe_to_vote in H. run_inv. apply next_round_Ok in Hrun as [-> _].
  unfold vote_round_rule.
  destruct (Block_round b =? bi_round (certified_block (Block_quorum_cert b)) + 1) eqn:E;
    guards; [by left|]. run_inv. apply next_round_Ok in Hrun as [-> _].
  destruct (_ && _) eqn:E2; [|done]. guards. right. eexists. by split.
Qed.

Lemma construct_ledger_info_2chain_Ok b vd li :
  construct_ledger_info_2chain b (hash_vote_data vd) = Ok li → li = vote_ledger b vd.
Proof.
  intros H. unfold construct_ledger_info_2chain in H. run_inv.
  apply next_round_Ok in Hrun as [-> _]. unfold vote_ledger.
  by rewrite (N.eqb_sym (Block_round b)).
Qed.

Lemma observe_qc_update qc sd : (observe_qc qc sd).1 = observe_update qc sd.
Proof.
  unfold observe_qc, observe_update, SafetyData_new. simpl. f_equal.
  - destruct (N.ltb_spec (sd_preferred_round sd) (bi_round (parent_block qc))); lia.
  - destruct (N.ltb_spec (sd_one_chain_round sd) (bi_round (certified_block qc))); lia.
Qed.

#[local] Opaque observe_qc.

Lemma update_highest_timeout_round_spec t sd sd1 :
  sd_last_voted_round sd ≤ tmo_round t →
  (if sd_last_voted_round sd <? tmo_round t
   then verify_and_update_last_vote_round (tmo_round t) sd else Ok sd) = Ok sd1 →
  update_highest_timeout_round t sd1 = timeout_update t sd.
Proof.
  intros Hle H.
  assert (sd1 = with_last_voted_round (N.max (sd_last_voted_round sd) (tmo_round t)) sd) as ->.
  { destruct (N.ltb_spec (sd_last_voted_round sd) (tmo_round t)).
    - unfold verify_and_update_last_vote_round in H. run_inv. by rewrite N.max_r by lia.
    - run_inv. rewrite N.max_l by lia. by destruct sd1. }
  unfold update_highest_timeout_round, timeout_update, with_last_voted_round, SafetyData_new. simpl.
  destruct (N.ltb_spec (sd_highest_timeout_round sd) (tmo_round t)); f_equal; lia.
Qed.

(** ** Refinement *)

Section refinement.
Context {SL : StorageLaws}.

Definition store_of (s : SafetyRules) : Storage :=
  pss_internal_store (sr_persistent_storage s).

(** The safety data in the store. *)
Definition persisted (s : SafetyRules) : option SafetyData :=
  storage_contents (store_of s) !! SAFETY_DATA ≫= safety_data_of_json.

(** The store holds [sd], and the cache, if it is in use and filled, agrees. *)
Definition holds (sd : SafetyData) (s : SafetyRules) : Prop :=
  persisted s = Some sd ∧
  (pss_enable_cached_safety_data (sr_persistent_storage s) = true →
   ∀ d, pss_cached_safety_data (sr_persistent_storage s) = Some d → d = sd).

(** The fields no storage access touches. *)
Definition same_keys (s s' : SafetyRules) : Prop :=
  sr_validator_signer s' = sr_validator_signer s ∧ sr_epoch_state s' = sr_epoch_state s.

(** A storage access that keeps the contents and the cache. *)
Definition quiet {A} (c : M PersistentSafetyStorage Error A) : Prop := ∀ p,
  storage_contents (pss_internal_store (c p).2) !! SAFETY_DATA
    = storage_contents (pss_internal_store p) !! SAFETY_DATA ∧
  pss_cached_safety_data (c p).2 = pss_cached_safety_data p ∧
  pss_enable_cached_safety_data (c p).2 = pss_enable_cached_safety_data p.

Lemma quiet_get {A} (dec : Json → option A) k : quiet (try_storage (store_get dec k)).
Proof.
  intros p. unfold try_storage, store_get.
  pose proof (storage_get_contents k (pss_internal_store p)) as Hc.
  destruct (storage_get k (pss_internal_store p)) as [r st]. simpl in *. by rewrite Hc.
Qed.

Lemma storage_set_lookup_ne k j st k' :
  k ≠ k' → storage_contents (storage_set k j st).2 !! k' = storage_contents st !! k'.
Proof.
  intros Hne. destruct (storage_set k j st).1 as [u|e|m] eqn:E.
  - rewrite (storage_set_Ok _ _ _ _ E). by rewrite lookup_insert_ne.
  - destruct (storage_set_Err _ _ _ _ E) as [->| ->]; [done|]. by rewrite lookup_insert_ne.
  - by apply storage_set_no_panic in E.
Qed.

Lemma quiet_set_waypoint w : quiet (set_waypoint w).
Proof.
  intros p. unfold set_waypoint, try_storage, store_set.
  pose proof (storage_set_lookup_ne WAYPOINT (json_of_waypoint w) (pss_internal_store p)
    SAFETY_DATA waypoint_key_distinct) as Hc.
  destruct (storage_set _ _ (pss_internal_store p)) as [r st]. simpl in *. by rewrite Hc.
Qed.

Lemma quiet_consensus_sk_by_pk pk : quiet (consensus_sk_by_pk pk).
Proof.
  intros p. unfold consensus_sk_by_pk, default_consensus_sk, store_get.
  pose proof (storage_get_contents (explicit_storage_key pk) (pss_internal_store p)) as H1.
  destruct (storage_get (explicit_storage_key pk) (pss_internal_store p)) as [r1 st1]. simpl in *.
  pose proof (storage_get_contents CONSENSUS_KEY st1) as H2.
  destruct (storage_get CONSENSUS_KEY st1) as [r2 st2]. simpl in *. by rewrite H2, H1.
Qed.

Lemma wp_quiet {A} (c : M PersistentSafetyStorage Error A) Q sd s :
  quiet c → holds sd s → (∀ r s', holds sd s' → same_keys s s' → Q r s') →
  wp (in_storage c) Q s.
Proof.
  intros Hq [Hp Hc] HQ. unfold wp, in_storage.
  destruct (Hq (sr_persistent_storage s)) as (H1 & H2 & H3).
  destruct (c (sr_persistent_storage s)) as [r p]. simpl in *. apply HQ; [|done].
  unfold holds, persisted, store_of in *. simpl. by rewrite H1, H2, H3.
Qed.

Lemma safety_data_cached p :
  pss_enable_cached_safety_data p = true →
  safety_data p = match pss_cached_safety_data p with
  | Some d => (Ok d, p)
  | None =>
      let '(r, p) := try_storage (store_get safety_data_of_json SAFETY_DATA) p in
      match r with
      | Ok sd => (Ok sd, with_cached (Some sd) p)
      | Err e => (Err e, p)
      | Panic m => (Panic m, p)
      end
  end.
Proof. intros H. unfold safety_data. by rewrite H. Qed.

(** Reading the store at the type of the persisted data returns that data. *)
Lemma store_get_safety_data sd p r p' :
  storage_contents (pss_internal_store p) !! SAFETY_DATA ≫= safety_data_of_json = Some sd →
  try_storage (store_get safety_data_of_json SAFETY_DATA) p = (r, p') →
  r = Ok sd ∨ is_ok r = false.
Proof.
  intros Hp. unfold try_storage, store_get.
  destruct (storage_get SAFETY_DATA (pss_internal_store p)) as [[j|e|m] st] eqn:E; simpl.
  - pose proof (storage_get_Ok SAFETY_DATA (pss_internal_store p) j) as Hg.
    rewrite E in Hg. rewrite (Hg eq_refl) in Hp. simpl in Hp. rewrite Hp. simpl.
    intros [= <- <-]. by left.
  - intros [= <- _]. right. by destruct e.
  - intros [= <- _]. by right.
Qed.

(** With the cache disabled the stored data cannot be read back. *)
Lemma safety_data_uncached sd p :
  pss_enable_cached_safety_data p = false →
  storage_contents (pss_internal_store p) !! SAFETY_DATA ≫= safety_data_of_json = Some sd →
  is_ok (safety_data p).1 = false.
Proof.
  intros He Hp. unfold safety_data. rewrite He. simpl. unfold try_storage, store_get.
  destruct (storage_get SAFETY_DATA (pss_internal_store p)) as [[j|e|m] st] eqn:E; simpl.
  - pose proof (storage_get_Ok SAFETY_DATA (pss_internal_store p) j) as Hg.
    rewrite E in Hg. rewrite (Hg eq_refl) in Hp. simpl in Hp.
    by rewrite (result_safety_data_disjoint _ _ Hp).
  - by destruct e.
  - done.
Qed.

Lemma wp_safety_data Q sd s :
  holds sd s →
  (∀ s', holds sd s' → same_keys s s' → Q (Ok sd) s') →
  (∀ r s', holds sd s' → is_ok r = false → Q r s') →
  wp (in_storage safety_data) Q s.
Proof.
  intros [Hp Hc] Hok Herr. unfold wp, in_storage.
  destruct (pss_enable_cached_safety_data (sr_persistent_storage s)) eqn:He.
  - rewrite (safety_data_cached _ He).
    destruct (pss_cached_safety_data (sr_persistent_storage s)) as [d|] eqn:Hd.
    { simpl. rewrite (Hc eq_refl d eq_refl) in *. apply Hok; [|done]. split; [done|].
      intros _ d'. simpl. rewrite Hd. by intros [= <-]. }
    destruct (quiet_get safety_data_of_json SAFETY_DATA (sr_persistent_storage s)) as (H1 & H2 & H3).
    destruct (try_storage _ (sr_persistent_storage s)) as [r p] eqn:E.
    pose proof (store_get_safety_data sd _ _ _ Hp E) as Hr. simpl in *.
    assert (Hh : holds sd (with_storage p s)).
    { unfold holds, persisted, store_of in *. simpl. rewrite H1, H2. split; [done|].
      by rewrite Hd. }
    destruct Hr as [->|Hr]; [|destruct r; by apply Herr]. simpl. apply Hok; [|done].
    destruct Hh as [Hh _]. split; [done|]. simpl. by intros _ d [= <-].
  - pose proof (safety_data_uncached sd _ He Hp) as Hno. unfold safety_data in *.
    rewrite He in *. simpl in *.
    destruct (quiet_get result_safety_data_of_json SAFETY_DATA (sr_persistent_storage s))
      as (H1 & H2 & H3).
    destruct (try_storage _ (sr_persistent_storage s)) as [r p]. simpl in *. apply Herr; [|done].
    unfold holds, persisted, store_of in *. simpl. rewrite H1, H3, He. by split.
Qed.

Lemma wp_set_safety_data Q sd sd' s :
  holds sd s →
  (∀ s', holds sd' s' → same_keys s s' → Q (Ok tt) s') →
  (∀ r s', holds sd s' ∨ holds sd' s' → is_ok r = false → Q r s') →
  wp (in_storage (set_safety_data sd')) Q s.
Proof.
  intros [Hp Hc] Hok Herr. unfold wp, in_storage, set_safety_data, store_set.
  set (st0 := pss_internal_store (sr_persistent_storage s)).
  destruct (storage_set SAFETY_DATA (json_of_safety_data sd') st0) as [r st] eqn:E.
  assert (Hnew : storage_contents st = <[SAFETY_DATA := json_of_safety_data sd']>
    (storage_contents st0) → ∀ c, (∀ d, c = Some d → d = sd') →
    holds sd' (with_storage (with_cached c (with_store st (sr_persistent_storage s))) s)).
  { intros Hst c Hcd. split; [|by intros _]. unfold persisted, store_of. simpl.
    rewrite Hst, lookup_insert_eq. simpl. apply safety_data_roundtrip. }
  pose proof (storage_set_Ok SAFETY_DATA (json_of_safety_data sd') st0) as HOk.
  pose proof (storage_set_Err SAFETY_DATA (json_of_safety_data sd') st0) as HErr.
  pose proof (storage_set_no_panic SAFETY_DATA (json_of_safety_data sd') st0) as HPanic.
  rewrite E in HOk, HErr, HPanic. simpl in *.
  destruct r as [[]|e|m]; simpl; [..|by destruct (HPanic m)].
  - apply Hok; [|done]. apply Hnew; [by apply (HOk tt)|]. by intros d [= <-].
  - apply Herr; [|done]. destruct (HErr e eq_refl) as [Hold|Hst]; [left|right; by apply Hnew].
    split; [|done]. unfold persisted, store_of in *. simpl. by rewrite Hold.
Qed.

(** The postcondition of a call: the store holds the data of an abstract step
    that signed what the call returned. *)
Definition refines {A} (s : SafetyRules) (c : Call) (sd : SafetyData) (f : A → Signed)
    (r : result Error A) (s' : SafetyRules) : Prop :=
  ∃ sd', holds sd' s' ∧
    rules_step (es_verifier <$> sr_epoch_state s) c sd
      (match r with Ok a => f a | _ => SignedNothing end) sd'.

Lemma refines_silent {A} s c sd (f : A → Signed) r s' :
  holds sd s' → is_ok r = false → refines s c sd f r s'.
Proof. intros H Hr. exists sd. split; [done|]. destruct r; [done|constructor..]. Qed.

Lemma epoch_state_Ok s es : epoch_state s = Ok es ↔ sr_epoch_state s = Some es.
Proof. unfold epoch_state. apply ok_or_Ok. Qed.

Lemma verify_qc_Ok qc s :
  verify_qc qc s = Ok tt →
  ∃ es, sr_epoch_state s = Some es ∧ QuorumCert_verify qc (es_verifier es) = Ok tt.
Proof.
  intros H. unfold verify_qc in H. run_inv.
  exists a. split; [by apply epoch_state_Ok|done].
Qed.

Lemma verify_maybe_tc_Ok tc s es :
  verify_maybe_tc tc s = Ok tt → sr_epoch_state s = Some es → tc_verified (es_verifier es) tc.
Proof.
  intros H Hes c ->. unfold verify_maybe_tc, verify_tc in H. run_inv.
  apply epoch_state_Ok in Hrun. by simplify_eq.
Qed.

Lemma same_keys_trans s1 s2 s3 : same_keys s1 s2 → same_keys s2 s3 → same_keys s1 s3.
Proof. unfold same_keys. intuition congruence. Qed.

(** The steps of a handler, its failing checks discharged. *)
Ltac silent := by apply refines_silent.
Ltac run := repeat (wp_step; try silent); run_inv; guards.
Ltac run_safety_data :=
  eapply wp_safety_data;
  [eassumption| |by (intros [?|?|?] ???; [done|simpl; apply refines_silent..])]; simpl.

(** The end of a signing call: once the new data is stored, what follows may
    fail but not change it. *)
Lemma refines_after_set {A} s0 c sd sd' (f : A → Signed) (k : unit → M SafetyRules Error A) s :
  holds sd s →
  rules_step (es_verifier <$> sr_epoch_state s0) c sd SignedNothing sd' →
  (∀ s', holds sd' s' → same_keys s s' → (k tt s').2 = s' ∧
     ∀ a, (k tt s').1 = Ok a →
     rules_step (es_verifier <$> sr_epoch_state s0) c sd (f a) sd') →
  wp (in_storage (set_safety_data sd'))
    (continue (λ u, wp (k u) (refines s0 c sd f)) (refines s0 c sd f)) s.
Proof.
  intros Hs Hlost Hk. eapply wp_set_safety_data; [done|..].
  - intros s' Hs' Hkeys. simpl. destruct (Hk s' Hs' Hkeys) as [Hst Hok].
    exists sd'. rewrite Hst. split; [done|]. destruct (k tt s').1; [by apply Hok|done..].
  - intros r s' [Hs'|Hs'] Hr; destruct r; simpl; [done|silent..|done| |]; by exists sd'.
Qed.

Lemma refine_commit_vote l n sd s :
  holds sd s →
  wp (guarded_sign_commit_vote l n) (refines s (SignCommitVote l n) sd (SignedCommitVote n)) s.
Proof.
  intros Hs. unfold guarded_sign_commit_vote. run.
  rename select (epoch_state _ = Ok _) into He. apply epoch_state_Ok in He.
  exists sd. split; [done|]. rewrite He. by eapply rs_commit_vote.
Qed.

Lemma refine_proposal bd sd s :
  holds sd s →
  wp (guarded_sign_proposal bd) (refines s (SignProposal bd) sd (SignedProposal bd)) s.
Proof.
  intros Hs. unfold guarded_sign_proposal. run. run_safety_data. intros s1 Hs1 [_ Hk]. run.
  rename select (verify_epoch _ _ = Ok _) into He. unfold verify_epoch in He. run_inv. guards.
  rename select (verify_qc _ _ = Ok _) into Hq. apply verify_qc_Ok in Hq as (es & Hes & Hq).
  exists sd. split; [done|]. rewrite <- Hk, Hes. by eapply rs_proposal.
Qed.

Lemma refine_timeout t tc sd s :
  holds sd s →
  wp (guarded_sign_timeout_with_qc t tc)
    (refines s (SignTimeoutWithQC t tc) sd (SignedTimeout (signing_format t))) s.
Proof.
  intros Hs. unfold guarded_sign_timeout_with_qc. run. run_safety_data. intros s1 Hs1 [_ Hk]. run.
  rename select (verify_epoch _ _ = Ok _) into He. unfold verify_epoch in He. run_inv. guards.
  rename select (epoch_state _ = Ok _) into Hes. apply epoch_state_Ok in Hes.
  rename select (verify_maybe_tc _ _ = Ok _) into Htc. eapply verify_maybe_tc_Ok in Htc; [|done].
  rename select (safe_to_timeout _ _ _ = Ok _) into Hsafe.
  apply safe_to_timeout_Ok in Hsafe as [Hround Hone].
  match goal with H : (if _ then _ else _) = Ok _ |- _ => rename H into Hupd end.
  apply update_highest_timeout_round_spec in Hupd; [|done]. rewrite Hupd.
  match type of Hes with _ = Some ?e => rename e into es end.
  assert (Hta : timeout_allowed (es_verifier es) t tc sd) by by constructor.
  apply (refines_after_set s _ sd (timeout_update t sd) (SignedTimeout (signing_format t))
    (λ _, gets (sign (SignTimeout (signing_format t))))); [done|..]; rewrite <- Hk, Hes.
  - eapply rs_timeout; [done|done|by right].
  - intros s2 _ _. split; [done|]. intros sg _. eapply rs_timeout; [done|done|]. left. by exists sg.
Qed.

Lemma verify_and_update_last_vote_round_Ok r sd sd' :
  verify_and_update_last_vote_round r sd = Ok sd' →
  sd_last_voted_round sd < r ∧ sd' = with_last_voted_round r sd.
Proof.
  intros H. unfold verify_and_update_last_vote_round in H. run_inv. guards. split; [lia|done].
Qed.

(** What the checks of a proposal establish. *)
Lemma wp_verify_proposal {A} vp now sd s s0 c (f : A → Signed) (k : VoteData → M SafetyRules Error A) :
  holds sd s →
  (∀ es s', holds sd s' → same_keys s s' → sr_epoch_state s' = Some es →
     Block_epoch (vp_block vp) = sd_epoch sd →
     QuorumCert_verify (Block_quorum_cert (vp_block vp)) (es_verifier es) = Ok tt →
     bi_round (certified_block (Block_quorum_cert (vp_block vp))) < Block_round (vp_block vp) →
     wp (k (vote_data_ordering_only vp)) (refines s0 c sd f) s') →
  wp (verify_proposal vp now)
    (continue (λ vd, wp (k vd) (refines s0 c sd f)) (refines s0 c sd f)) s.
Proof.
  intros Hs Hk. unfold verify_proposal. wp_step. run_safety_data. intros s1 Hs1 Hkeys. run.
  rename select (verify_epoch _ _ = Ok _) into He. unfold verify_epoch in He. run_inv. guards.
  rename select (verify_qc _ _ = Ok _) into Hq. apply verify_qc_Ok in Hq as (es & Hes & Hq).
  rename select (Block_verify_well_formed _ _ = Ok _) into Hwf.
  apply Block_verify_well_formed_Ok in Hwf as (_ & Hlt & _).
  rename select (gen_vote_data _ = Ok _) into Hvd. unfold gen_vote_data in Hvd.
  destruct (vp_decoupled_execution vp); [|done]. run_inv. by eapply Hk.
Qed.

Lemma refine_new_vote vp tc now sd s0 s es :
  holds sd s → sr_epoch_state s = sr_epoch_state s0 → sr_epoch_state s = Some es →
  Block_epoch (vp_block vp) = sd_epoch sd →
  QuorumCert_verify (Block_quorum_cert (vp_block vp)) (es_verifier es) = Ok tt →
  bi_round (certified_block (Block_quorum_cert (vp_block vp))) < Block_round (vp_block vp) →
  tc_verified (es_verifier es) tc →
  wp (construct_new_vote vp (vote_data_ordering_only vp) tc sd)
    (refines s0 (ConstructAndSignVoteTwoChain vp tc now) sd SignedVote) s.
Proof.
  intros Hs Hk Hes Hep Hqc Hlt Htc. unfold construct_new_vote. run.
  rename select (verify_and_update_last_vote_round _ _ = Ok _) into Hup.
  apply verify_and_update_last_vote_round_Ok in Hup as [Hvoted ->].
  rename select (safe_to_vote _ _ = Ok _) into Hsafe. apply safe_to_vote_Ok in Hsafe.
  rename select (construct_ledger_info_2chain _ _ = Ok _) into Hli.
  apply construct_ledger_info_2chain_Ok in Hli as ->.
  rewrite observe_qc_update.
  match goal with |- context [with_last_vote (Some ?v) _] => set (vote := v) end.
  change (with_last_vote (Some vote) _) with (vote_update (vp_block vp) vote sd).
  assert (Hva : vote_allowed (es_verifier es) vp tc sd vote) by by constructor.
  apply (refines_after_set s0 _ sd (vote_update (vp_block vp) vote sd) SignedVote
    (λ _, mret vote)); [done|..]; rewrite <- Hk, Hes.
  - eapply rs_vote; [done|done|by right].
  - intros s2 _ _. split; [done|]. intros v [= <-]. eapply rs_vote; [done|done|by left].
Qed.

Lemma refine_vote vp tc now sd s :
  holds sd s →
  wp (guarded_construct_and_sign_vote_two_chain vp tc now)
    (refines s (ConstructAndSignVoteTwoChain vp tc now) sd SignedVote) s.
Proof.
  intros Hs. unfold guarded_construct_and_sign_vote_two_chain. wp_step. wp_step; [|silent..].
  wp_step. apply (wp_verify_proposal vp now sd); [done|].
  intros es s1 Hs1 [_ Hk1] Hes Hep Hqc Hlt. wp_step. wp_step; [|silent..].
  run_inv. rename select (verify_maybe_tc _ _ = Ok _) into Htc.
  eapply verify_maybe_tc_Ok in Htc; [|done].
  wp_step. run_safety_data. intros s2 Hs2 [_ Hk2].
  assert (Hnew : wp (construct_new_vote vp (vote_data_ordering_only vp) tc sd)
    (refines s (ConstructAndSignVoteTwoChain vp tc now) sd SignedVote) s2).
  { apply (refine_new_vote vp tc now sd s s2 es); [done|congruence|congruence|done..]. }
  destruct (sd_last_vote sd) as [vote|] eqn:Hlast; [|done].
  destruct (Vote_round vote =? Block_round (vp_block vp)) eqn:Hr; [|done]. guards.
  apply wp_ret. exists sd. split; [done|]. by apply rs_revote.
Qed.

Lemma refine_order_vote ovp sd s :
  holds sd s →
  wp (guarded_construct_and_sign_order_vote ovp)
    (refines s (ConstructAndSignOrderVote ovp) sd SignedOrderVote) s.
Proof.
  intros Hs. unfold guarded_construct_and_sign_order_vote, verify_order_vote_proposal.
  wp_step. wp_step; [|silent..]. wp_step. wp_step. run_safety_data. intros s1 Hs1 [_ Hk1].
  repeat (wp_step; try silent). run_inv. guards.
  rename select (verify_epoch _ _ = Ok _) into He. unfold verify_epoch in He. run_inv. guards.
  rename select (verify_qc _ _ = Ok _) into Hq. apply verify_qc_Ok in Hq as (es & Hes & Hq).
  run_safety_data. intros s2 Hs2 [_ Hk2]. rewrite observe_qc_update. run.
  rename select (safe_for_order_vote _ _ = Ok _) into Hsafe.
  unfold safe_for_order_vote in Hsafe. run_inv. guards.
  assert (Hoa : order_vote_allowed (es_verifier es) ovp sd) by (constructor; congruence || done).
  match goal with |- context [mret ?v] => set (ov := v) end.
  apply (refines_after_set s _ sd (observe_update (ovp_quorum_cert ovp) sd) SignedOrderVote
    (λ _, mret ov)); [done|..]; rewrite <- Hk1, Hes.
  - eapply (rs_order_vote _ _ _ _ ov); [done|done|done|by right].
  - intros s3 _ _. split; [done|]. intros v [= <-]. eapply (rs_order_vote _ _ _ _ ov); [done|done|done|by left].
Qed.

(** Nothing after the epoch change of [guarded_initialize] touches the data. *)
Lemma wp_reconcile_key account key sd s :
  holds sd s →
  wp (clear_signer_on_error (reconcile_key account key)) (λ _ s', holds sd s') s.
Proof.
  intros Hs. unfold wp, clear_signer_on_error, reconcile_key.
  destruct key as [k|]; [|done]. case_bool_decide; [done|].
  pose proof (wp_quiet (consensus_sk_by_pk k) (λ _ s', holds sd s') sd s
    (quiet_consensus_sk_by_pk k) Hs) as Hw.
  specialize (Hw ltac:(done)). unfold wp in Hw.
  destruct (in_storage (consensus_sk_by_pk k) s) as [[sk|e|m] s']; simpl in *; [done| |done].
  by destruct e.
Qed.

Lemma wp_initialize_tail es sd s :
  holds sd s →
  wp (_ ← modify (with_epoch_state (Some es));
      account ← in_storage author;
      clear_signer_on_error (reconcile_key account (vv_get_public_key (es_verifier es) account)))
    (λ _ s', holds sd s') s.
Proof.
  intros Hs. wp_step. wp_step. wp_step.
  apply (wp_quiet _ _ sd); [apply quiet_get|done|]. intros r s' Hs' _.
  destruct r; simpl; [|done..]. by apply wp_reconcile_key.
Qed.

Lemma refine_initialize proof sd s :
  holds sd s →
  wp (guarded_initialize proof) (refines s (Initialize proof) sd (λ _, SignedNothing)) s.
Proof.
  intros Hs. unfold guarded_initialize.
  assert (Hkeep : ∀ (r : result Error unit) s', holds sd s' →
    refines s (Initialize proof) sd (λ _, SignedNothing) r s').
  { intros r s' H. exists sd. split; [done|]. destruct r; constructor. }
  wp_step. apply (wp_quiet _ _ sd); [apply quiet_get|done|].
  intros [w|e|m] s1 Hs1 _; simpl; [|silent..].
  repeat (wp_step; try silent).
  apply (wp_mono _ (λ r s', holds sd s')).
  { destruct (_ <? _); [|by apply wp_ret].
    apply (wp_quiet _ _ sd); [apply quiet_set_waypoint|done|]. done. }
  intros [u|e|m] s2 Hs2; simpl; [|silent..].
  wp_step. run_safety_data. intros s3 Hs3 _. wp_step.
  destruct (N.compare_spec (sd_epoch sd) (es_epoch a0)) as [Heq|Hlt|Hgt].
  - wp_step. eapply wp_mono; [by apply wp_initialize_tail|]. simpl. auto.
  - assert (Hnew : ∀ (r : result Error unit) s', holds (SafetyData_new (es_epoch a0) 0 0 0 None 0) s' →
      refines s (Initialize proof) sd (λ _, SignedNothing) r s').
    { intros r s' H. eexists. split; [exact H|]. destruct r; by apply rs_new_epoch. }
    eapply wp_set_safety_data; [done|..].
    + intros s4 Hs4 _. simpl. eapply wp_mono; [by apply wp_initialize_tail|]. simpl. auto.
    + intros r s4 [H4|H4] Hr; destruct r; simpl; auto; done.
  - apply wp_lift. simpl. silent.
Qed.

Lemma refine_consensus_state sd s :
  holds sd s →
  wp guarded_consensus_state (refines s ConsensusState_call sd (λ _, SignedNothing)) s.
Proof.
  intros Hs. unfold guarded_consensus_state.
  wp_step. apply (wp_quiet _ _ sd); [apply quiet_get|done|].
  intros [w|e|m] s1 Hs1 _; simpl; [|silent..].
  wp_step. run_safety_data. intros s2 Hs2 _. wp_step. run_safety_data. intros s3 Hs3 _.
  wp_step. apply (wp_quiet _ _ sd); [apply quiet_get|done|].
  intros [w'|e|m] s4 Hs4 _; simpl; [|silent..].
  wp_step. apply wp_gets. simpl. apply wp_ret. exists sd. split; [done|constructor].
Qed.

(** The result of a handler, wrapped as the output of [exec]. *)
Lemma wp_exec {A} (c : M SafetyRules Error A) call sd (f : A → Signed) s :
  wp c (refines s call sd f) s →
  wp (c ≫= λ a, mret (f a)) (refines s call sd id) s.
Proof.
  intros H. wp_step. eapply wp_mono; [exact H|]. intros [a|e|m] s' Hr; exact Hr.
Qed.

(** Every call is a step of the abstract rules, whatever its outcome. *)
Lemma exec_refines c sd s :
  holds sd s →
  ∃ sd', holds sd' (exec c s).2 ∧
    rules_step (es_verifier <$> sr_epoch_state s) c sd
      (match (exec c s).1 with Ok out => out | _ => SignedNothing end) sd'.
Proof.
  intros Hs. change (wp (exec c) (refines s c sd id) s). destruct c; simpl.
  - apply (wp_exec _ _ _ (λ _, SignedNothing)). by apply refine_consensus_state.
  - apply (wp_exec _ _ _ (λ _, SignedNothing)). by apply refine_initialize.
  - apply (wp_exec _ _ _ (SignedProposal block_data)). by apply refine_proposal.
  - apply (wp_exec _ _ _ (SignedTimeout (signing_format timeout))). by apply refine_timeout.
  - apply (wp_exec _ _ _ SignedVote). by apply refine_vote.
  - apply (wp_exec _ _ _ SignedOrderVote). by apply refine_order_vote.
  - apply (wp_exec _ _ _ (SignedCommitVote new_ledger_info)). by apply refine_commit_vote.
  - exists sd. split; [|constructor]. destruct Hs as [Hp _]. split; [exact Hp|done].
Qed.

(** So is every sequence of calls. *)
Lemma exec_all_refines calls sd s :
  holds sd s →
  ∃ sd', holds sd' (exec_all calls s).2 ∧ rules_run sd (exec_all calls s).1 sd'.
Proof.
  revert sd s. induction calls as [|c calls IH]; intros sd s Hs; simpl.
  { exists sd. split; [done|constructor]. }
  destruct (exec_refines c sd s Hs) as (sd1 & Hs1 & Hstep).
  destruct (exec c s) as [r s1]. simpl in *.
  destruct (IH sd1 s1 Hs1) as (sd2 & Hs2 & Hrun).
  destruct (exec_all calls s1) as [trace s2]. simpl in *.
  exists sd2. split; [done|]. by eapply run_cons.
Qed.

End refinement.

(** ** Properties of the abstract rules *)

#[export] Instance sd_le_preorder : PreOrder sd_le.
Proof.
  split.
  - intros sd. right. repeat split; lia.
  - intros a b c. unfold sd_le. intros [H1|(H1 & ?)] [H2|(H2 & ?)]; [left; lia..|]. right.
    repeat split; lia.
Qed.

Lemma rules_step_sd_le v c sd out sd' : rules_step v c sd out sd' → sd_le sd sd'.
Proof.
  intros H. destruct H; try reflexivity.
  - by left.
  - right. unfold timeout_update. simpl. repeat split; lia.
  - right. destruct H0. unfold vote_update, with_last_vote. simpl. repeat split; lia.
  - right. unfold observe_update. simpl. repeat split; lia.
Qed.

Lemma rules_run_sd_le sd trace sd' : rules_run sd trace sd' → sd_le sd sd'.
Proof.
  induction 1 as [|v c out sd sd1 trace sd2 Hstep _ IH]; [done|].
  etrans; [by eapply rules_step_sd_le|done].
Qed.

Section votes.
Context {BL : BlockInfoLaws}.

Lemma vote_allowed_key v vp tc sd vote :
  vote_allowed v vp tc sd vote →
  Vote_epoch vote = sd_epoch sd ∧ Vote_round vote = Block_round (vp_block vp).
Proof.
  intros H. unfold Vote_epoch, Vote_round. rewrite (va_data _ _ _ _ _ H).
  unfold vote_data_ordering_only, gen_block_info. simpl. autorewrite with gaptos.
  by rewrite (va_epoch _ _ _ _ _ H).
Qed.

(** The votes already handed out, against the persisted data. *)
Record votes_inv (votes : list Vote) (sd : SafetyData) : Prop := {
  vi_past v : v ∈ votes → Vote_epoch v < sd_epoch sd ∨
    Vote_epoch v = sd_epoch sd ∧ Vote_round v ≤ sd_last_voted_round sd ∧
    ∀ lv, sd_last_vote sd = Some lv → Vote_round lv = Vote_round v → lv = v;
  vi_last : last_vote_ok sd;
  vi_unique v1 v2 : v1 ∈ votes → v2 ∈ votes →
    Vote_epoch v1 = Vote_epoch v2 → Vote_round v1 = Vote_round v2 → v1 = v2;
}.

Definition vote_of (out : Signed) : list Vote :=
  match out with SignedVote v => [v] | _ => [] end.

(** Steps that keep the epoch and the last vote keep the invariant. *)
Lemma votes_inv_weaken votes sd sd' :
  sd_epoch sd' = sd_epoch sd → sd_last_vote sd' = sd_last_vote sd →
  sd_last_voted_round sd ≤ sd_last_voted_round sd' →
  votes_inv votes sd → votes_inv votes sd'.
Proof.
  intros He Hl Hr [Hp Hlast Hu]. split; [| |done].
  - intros v Hv. rewrite He, Hl. destruct (Hp v Hv) as [?|(? & ? & ?)]; [by left|].
    right. repeat split; [done|lia|done].
  - intros lv Hlv. rewrite Hl in Hlv. destruct (Hlast lv Hlv). rewrite He. split; [done|lia].
Qed.

Lemma votes_inv_new_vote votes sd v vp tc vote :
  vote_allowed v vp tc sd vote → votes_inv votes sd →
  votes_inv votes (vote_update (vp_block vp) vote sd) ∧
  votes_inv (votes ++ [vote]) (vote_update (vp_block vp) vote sd).
Proof.
  intros Ha [Hp Hlast Hu]. destruct (vote_allowed_key _ _ _ _ _ Ha) as [Hep Hrd].
  pose proof (va_last_voted _ _ _ _ _ Ha) as Hlt.
  assert (Hold : ∀ v, v ∈ votes → Vote_epoch v < sd_epoch sd ∨
    Vote_epoch v = sd_epoch sd ∧ Vote_round v < Block_round (vp_block vp)).
  { intros w Hw. destruct (Hp w Hw) as [?|(? & ? & _)]; [by left|]. right. split; [done|lia]. }
  assert (Hpast : ∀ w, w ∈ votes ++ [vote] → Vote_epoch w < sd_epoch sd ∨
    Vote_epoch w = sd_epoch sd ∧ Vote_round w ≤ Block_round (vp_block vp) ∧
    ∀ lv, Some vote = Some lv → Vote_round lv = Vote_round w → lv = w).
  { intros w [Hw|Hw]%elem_of_app.
    - destruct (Hold w Hw) as [?|[? ?]]; [by left|]. right. repeat split; [done|lia|].
      intros lv [= <-] ?. lia.
    - apply list_elem_of_singleton in Hw as ->. right. repeat split; [done|lia|].
      by intros lv [= <-]. }
  assert (Hlo : last_vote_ok (vote_update (vp_block vp) vote sd)).
  { intros lv [= <-]. simpl. rewrite Hep, Hrd. done. }
  split; (split; [|done|]); [intros w Hw; apply Hpast; set_solver|done|exact Hpast|].
  intros v1 v2 H1 H2 He Hr. apply elem_of_app in H1, H2.
  destruct H1 as [H1|H1%list_elem_of_singleton], H2 as [H2|H2%list_elem_of_singleton];
    subst; [by apply Hu| | |done].
  - destruct (Hold v1 H1) as [?|[? ?]]; lia.
  - destruct (Hold v2 H2) as [?|[? ?]]; lia.
Qed.

Lemma votes_inv_step votes v c sd out sd' :
  rules_step v c sd out sd' → votes_inv votes sd → votes_inv (votes ++ vote_of out) sd'.
Proof.
  intros Hstep Hinv.
  destruct Hstep as [| proof sd e Hlt | | vv t tc sd out -> Ha Hout | vv vp tc now sd vote out -> Ha Hout
    | vp tc now sd vote Hlast Hep Hr | vv ovp sd ov out -> Ha Hov Hout |]; simpl;
    rewrite ?app_nil_r; try done.
  - destruct Hinv as [Hp Hl Hu]. split; [|done|done]. intros w Hw. left. simpl.
    destruct (Hp w Hw) as [?|(-> & _)]; [lia|done].
  - assert (vote_of out = []) as -> by by destruct Hout as [[? ->]| ->].
    rewrite app_nil_r. eapply votes_inv_weaken; [..|done]; try done. simpl. lia.
  - destruct (votes_inv_new_vote _ _ _ _ _ _ Ha Hinv). by destruct Hout as [-> | ->];
      simpl; rewrite ?app_nil_r.
  - destruct Hinv as [Hp Hl Hu]. destruct (Hl vote Hlast) as [Hve Hvr].
    assert (Hnew : ∀ w, w ∈ votes → Vote_epoch w = Vote_epoch vote →
      Vote_round w = Vote_round vote → vote = w).
    { intros w Hw He Hrd. destruct (Hp w Hw) as [?|(_ & _ & H)]; [lia|]. by apply H. }
    split; [|done|].
    + intros w [Hw|Hw]%elem_of_app; [by apply Hp|]. apply list_elem_of_singleton in Hw as ->.
      right. repeat split; [done|done|]. intros lv Hlv _. congruence.
    + intros v1 v2 H1 H2 He Hrd. apply elem_of_app in H1, H2.
      destruct H1 as [H1|H1%list_elem_of_singleton], H2 as [H2|H2%list_elem_of_singleton];
        subst; [by apply Hu| | |done]; [symmetry|]; by apply Hnew.
  - assert (vote_of out = []) as -> by by destruct Hout as [-> | ->].
    rewrite app_nil_r. eapply votes_inv_weaken; [..|done]; done.
Qed.

Lemma votes_inv_run votes sd trace sd' :
  rules_run sd trace sd' → votes_inv votes sd → votes_inv (votes ++ votes_of trace) sd'.
Proof.
  intros Hrun. revert votes.
  induction Hrun as [|v c out sd sd1 trace sd2 Hstep _ IH]; intros votes Hinv.
  { by rewrite app_nil_r. }
  assert (votes_of ((c, out) :: trace) = vote_of out ++ votes_of trace) as ->.
  { unfold votes_of. simpl. by destruct out. }
  rewrite app_assoc. apply IH. by eapply votes_inv_step.
Qed.

End votes.

(** ** Properties of the handlers *)

Section handlers.
Context {SL : StorageLaws}.

(** C2: Refinement of the safety rules. Every sequence of calls on a node whose store
    holds the safety data [sd] is a run of the abstract voting rules: each signature
    handed out is one the rules allow at that point, the safety data persisted at
    the end is the one the rules reach, whatever storage errors, panics or restarts
    happen in between, and its epoch and rounds never move back. *)
Theorem safety_rules_refine calls sd s :
  holds sd s →
  ∃ sd', holds sd' (exec_all calls s).2 ∧ rules_run sd (exec_all calls s).1 sd' ∧ sd_le sd sd'.
Proof.
  intros Hs. destruct (exec_all_refines calls sd s Hs) as (sd' & H & Hrun).
  exists sd'. split; [done|]. split; [done|]. by eapply rules_run_sd_le.
Qed.

(** C3: A validator never equivocates: two votes obtained from one node by any sequence
    of calls, restarts included, that are for the same epoch and round are the same
    vote. *)
Theorem one_vote_per_round {BL : BlockInfoLaws} calls sd s v1 v2 :
  holds sd s → last_vote_ok sd →
  v1 ∈ votes_of (exec_all calls s).1 → v2 ∈ votes_of (exec_all calls s).1 →
  Vote_epoch v1 = Vote_epoch v2 → Vote_round v1 = Vote_round v2 → v1 = v2.
Proof.
  intros Hs Hl H1 H2. destruct (exec_all_refines calls sd s Hs) as (sd' & _ & Hrun).
  apply (votes_inv_run []) in Hrun; [|split; set_solver].
  by apply (vi_unique _ _ Hrun).
Qed.

(** Reading safety data back after it was stored. With the cache enabled the stored
    value is returned; with the cache disabled every read fails, since the value is
    read at the type [Result<SafetyData, Error>] it was not written at. *)
Theorem safety_data_after_set sd p p' :
  set_safety_data sd p = (Ok tt, p') →
  if pss_enable_cached_safety_data p
  then safety_data p' = (Ok sd, p')
  else is_ok (safety_data p').1 = false.
Proof.
  unfold set_safety_data, store_set.
  destruct (storage_set SAFETY_DATA (json_of_safety_data sd) (pss_internal_store p))
    as [[u|e|m] st] eqn:E; simpl; [|done..]. intros [= <-].
  destruct (pss_enable_cached_safety_data p) eqn:He.
  - by rewrite safety_data_cached.
  - apply (safety_data_uncached sd); [done|]. simpl.
    pose proof (storage_set_Ok SAFETY_DATA (json_of_safety_data sd) (pss_internal_store p) u) as Hst.
    rewrite E in Hst. simpl in Hst. rewrite (Hst eq_refl), lookup_insert_eq. simpl. apply safety_data_roundtrip.
Qed.

End handlers.

End spec.
