(* ===== verification/Bft.v ===== *)
(** * Agreement

    A system of validators within one epoch, each running the handlers of
    [SafetyRules], against an adversary that schedules the calls, controls the
    Byzantine validators and can present any certificate, as long as a
    certificate that verifies carries signatures its honest signers really made.
    The main theorem is agreement: any two blocks ordered or committed by
    certificates that verify lie on one chain of certified blocks. *)

From S2P Require Import Prelude Gaptos Types Certificates Blocks SafetyRules SafetySpec.

Section bft.
Context {GA : Gaptos} {VE : Verifier} {CR : Crypto} {SS : SecureStorage}.

(** ** The commit ledger info (pipeline/buffer_item.rs) *)

Definition generate_commit_ledger_info (commit_info : BlockInfo)
    (ordered_proof : LedgerInfoWithSignatures) (order_vote_enabled : bool)
    (block_hash : HashValue) (block_number : N) : LedgerInfo :=
  LedgerInfo_new_with_block_info commit_info
    (if order_vote_enabled then HashValue_zero
     else li_consensus_data_hash (liws_ledger_info ordered_proof))
    block_hash block_number.

(** ** The system *)

(** The state of each validator, and everything handed out so far. *)
Record world := {
  w_node : Author → SafetyRules;
  w_log : list (Author * Signed);
}.

(** [out] carries a signature on the ledger info [li]. *)
Definition signs_ledger_info (out : Signed) (li : LedgerInfo) : Prop :=
  match out with
  | SignedVote v => vote_ledger_info v = li
  | SignedOrderVote ov => ov_ledger_info ov = li
  | SignedCommitVote li' _ => li' = li
  | _ => False
  end.

(** Voting power of a set of validators. *)
Definition power_of (v : ValidatorVerifier) (l : list Author) : N :=
  foldr (λ a n, default 0 (vv_get_voting_power v a) + n) 0 l.
Definition power (v : ValidatorVerifier) (Q : gset Author) : N := power_of v (elements Q).

(** The validators of a verifier, and the sets [check_voting_power] accepts. *)
Definition members (v : ValidatorVerifier) : gset Author := list_to_set (vv_ordered_addresses v).
Definition power_quorum (v : ValidatorVerifier) (Q : gset Author) : Prop :=
  Q ⊆ members v ∧ vv_quorum_voting_power v ≤ power v Q.

Section system.
(** The honest validators, the quorums, the epoch and its validator set. *)
Context (honest : gset Author) (quorum : gset Author → Prop).
Context (epoch : N) (validators : ValidatorVerifier).

(** The honest members of some quorum all signed [li]. *)
Definition quorum_signed (log : list (Author * Signed)) (li : LedgerInfo) : Prop :=
  ∃ Q, quorum Q ∧ ∀ a, a ∈ Q → a ∈ honest →
    ∃ out, (a, out) ∈ log ∧ signs_ledger_info out li.

(** The honest members of some quorum all timed out in [round] reporting a
    certificate of at most round [hqc]. *)
Definition timeout_quorum (log : list (Author * Signed)) (round hqc : Round) : Prop :=
  ∃ Q, quorum Q ∧ ∀ a, a ∈ Q → a ∈ honest →
    ∃ t s, (a, SignedTimeout t s) ∈ log ∧ tsr_round t = round ∧ tsr_hqc_round t ≤ hqc.

(** Unforgeability: what verifies has been signed. *)
Definition authentic (log : list (Author * Signed)) (l : LedgerInfoWithSignatures) : Prop :=
  liws_verify_signatures l validators = Ok tt → quorum_signed log (liws_ledger_info l).

Definition authentic_tc (log : list (Author * Signed)) (tc : TwoChainTimeoutCertificate) : Prop :=
  TwoChainTimeoutCertificate_verify tc validators = Ok tt →
  ∃ Q, quorum Q ∧ ∀ a, a ∈ Q → a ∈ honest →
    ∃ r s, r ∈ asr_rounds (tc_signatures_with_rounds tc) ∧
      (a, SignedTimeout {| tsr_epoch := tc_epoch tc; tsr_round := tc_round tc;
                           tsr_hqc_round := r |} s) ∈ log.

(** What the caller of the safety rules guarantees: the certificates are
    authentic, timeout certificates are of this epoch ([SyncInfo::verify]),
    block ids are the hashes of their data (as every constructor of [Block]
    makes them), and commit votes are requested for the ledger info
    [generate_commit_ledger_info] builds. *)
Definition call_ok (log : list (Author * Signed)) (c : Call) : Prop :=
  match c with
  | ConstructAndSignVoteTwoChain vp tc _ =>
      authentic log (qc_signed_ledger_info (Block_quorum_cert (vp_block vp))) ∧
      (∀ x, tc = Some x → authentic_tc log x ∧ tc_epoch x = epoch) ∧
      block_id (vp_block vp) = hash_block_data (block_block_data (vp_block vp))
  | ConstructAndSignOrderVote ovp =>
      authentic log (qc_signed_ledger_info (ovp_quorum_cert ovp)) ∧
      block_id (ovp_block ovp) = hash_block_data (block_block_data (ovp_block ovp))
  | SignCommitVote l n =>
      authentic log l ∧
      ∃ commit_info order_vote_enabled block_hash block_number,
        n = generate_commit_ledger_info commit_info l order_vote_enabled block_hash block_number
  | _ => True
  end.

(** The run stays within the epoch. *)
Definition in_epoch {SL : StorageLaws} (s : SafetyRules) : Prop :=
  (∀ es, sr_epoch_state s = Some es → es_verifier es = validators) ∧
  (∀ sd, persisted s = Some sd → sd_epoch sd = epoch).

Definition set_node (a : Author) (s : SafetyRules) (f : Author → SafetyRules) (b : Author)
    : SafetyRules :=
  if bool_decide (b = a) then s else f b.

(** Agreement on the ordering fields. *)
Definition same_block (b1 b2 : BlockInfo) : Prop :=
  bi_round b1 = bi_round b2 ∧ bi_id b1 = bi_id b2.

Inductive world_step {SL : StorageLaws} : world → world → Prop :=
(** An honest validator serves a call. *)
| ws_call w a c :
    a ∈ honest → call_ok (w_log w) c → in_epoch (exec c (w_node w a)).2 →
    world_step w
      {| w_node := set_node a (exec c (w_node w a)).2 (w_node w);
         w_log := w_log w ++ [(a, output (exec c (w_node w a)).1)] |}
(** The execution pipeline of an honest validator signs a commit vote by itself,
    with a zero consensus hash, once the validator has order-voted for the block
    or seen it ordered (pipeline_builder.rs, [sign_commit_vote]). *)
| ws_pipeline w a li s :
    a ∈ honest → li_consensus_data_hash li = HashValue_zero →
    (∃ ov, (a, SignedOrderVote ov) ∈ w_log w ∧
       same_block (li_commit_info (ov_ledger_info ov)) (li_commit_info li)) ∨
    (∃ l, authentic (w_log w) l ∧ liws_verify_signatures l validators = Ok tt ∧
       same_block (li_commit_info (liws_ledger_info l)) (li_commit_info li)) →
    world_step w {| w_node := w_node w; w_log := w_log w ++ [(a, SignedCommitVote li s)] |}
(** A Byzantine validator hands out anything. *)
| ws_byzantine w a out :
    a ∉ honest →
    world_step w {| w_node := w_node w; w_log := w_log w ++ [(a, out)] |}.

(** Every honest validator enters the epoch with fresh safety data. *)
Definition initial {SL : StorageLaws} (w : world) : Prop :=
  w_log w = [] ∧
  ∀ a, a ∈ honest →
    holds (SafetyData_new epoch 0 0 0 None 0) (w_node w a) ∧ in_epoch (w_node w a).

Inductive reachable {SL : StorageLaws} : world → Prop :=
| reach_initial w : initial w → reachable w
| reach_step w w' : reachable w → world_step w w' → reachable w'.

(** ** Quorums of votes and chains *)

(** The honest members of some quorum all voted for [vd]. *)
Definition vote_quorum (log : list (Author * Signed)) (vd : VoteData) : Prop :=
  ∃ Q, quorum Q ∧ ∀ a, a ∈ Q → a ∈ honest →
    ∃ v, (a, SignedVote v) ∈ log ∧ vote_vote_data v = vd.

Definition order_quorum (log : list (Author * Signed)) (b : BlockInfo) : Prop :=
  ∃ Q, quorum Q ∧ ∀ a, a ∈ Q → a ∈ honest →
    ∃ ov, (a, SignedOrderVote ov) ∈ log ∧ same_block (li_commit_info (ov_ledger_info ov)) b.

(** Why a block is ordered: a 2-chain on top of it, or a quorum of order votes. *)
Definition ordered (log : list (Author * Signed)) (b : BlockInfo) : Prop :=
  (∃ vd, vote_quorum log vd ∧ same_block (vd_parent vd) b ∧
     bi_round (vd_proposed vd) = bi_round (vd_parent vd) + 1) ∨
  order_quorum log b.

(** [b'] descends from [b] through blocks a quorum voted for. *)
Inductive extends (log : list (Author * Signed)) (b : BlockInfo) : BlockInfo → Prop :=
| ext_refl : extends log b b
| ext_step vd :
    vote_quorum log vd → extends log b (vd_parent vd) → extends log b (vd_proposed vd).

(** ** What honest validators keep true *)

(** The parent of a vote was certified, in a lower round. *)
Definition certified (log : list (Author * Signed)) (b : BlockInfo) : Prop :=
  bi_round b = 0 ∨ ∃ vd, vd_proposed vd = b ∧ vote_quorum log vd.

Record vote_shape (log : list (Author * Signed)) (v : Vote) : Prop := {
  vs_epoch : Vote_epoch v = epoch;
  vs_hash : li_consensus_data_hash (vote_ledger_info v) = hash_vote_data (vote_vote_data v);
  vs_commit : 0 < bi_round (li_commit_info (vote_ledger_info v)) →
    li_commit_info (vote_ledger_info v) = vd_parent (vote_vote_data v) ∧
    Vote_round v = bi_round (vd_parent (vote_vote_data v)) + 1;
  vs_block : ∃ bd, bi_id (vd_proposed (vote_vote_data v)) = hash_block_data bd ∧
    bd_round bd = Vote_round v;
  vs_parent : certified log (vd_parent (vote_vote_data v));
  vs_lt : bi_round (vd_parent (vote_vote_data v)) < Vote_round v;
  vs_rule : Vote_round v = bi_round (vd_parent (vote_vote_data v)) + 1 ∨
    timeout_quorum log (Vote_round v - 1) (bi_round (vd_parent (vote_vote_data v)));
}.

Definition order_shape (log : list (Author * Signed)) (ov : OrderVote) : Prop :=
  li_consensus_data_hash (ov_ledger_info ov) = HashValue_zero ∧
  certified log (li_commit_info (ov_ledger_info ov)).

(** What a commit vote of [a] rests on. *)
Definition commit_shape (log : list (Author * Signed)) (a : Author) (li : LedgerInfo) : Prop :=
  (∀ vd, li_consensus_data_hash li = hash_vote_data vd → vote_quorum log vd) ∧
  (0 < bi_round (li_commit_info li) → ordered log (li_commit_info li) ∨
   li_consensus_data_hash li = HashValue_zero ∧
   ∃ ov, (a, SignedOrderVote ov) ∈ log ∧
     same_block (li_commit_info (ov_ledger_info ov)) (li_commit_info li)).

(** A vote handed out, or recorded and possibly handed out later. *)
Definition cast (log : list (Author * Signed)) (a : Author) (sd : SafetyData) (v : Vote) : Prop :=
  (a, SignedVote v) ∈ log ∨ sd_last_vote sd = Some v.

Definition votes_by (log : list (Author * Signed)) (a : Author) : list Vote :=
  omap (λ x, if bool_decide (x.1 = a)
             then match x.2 with SignedVote v => Some v | _ => None end else None) log.

Record node_inv (log : list (Author * Signed)) (a : Author) (sd : SafetyData) : Prop := {
  ni_epoch : sd_epoch sd = epoch;
  ni_votes : votes_inv (votes_by log a) sd;
  ni_shape v : cast log a sd v → vote_shape log v;
  ni_one_chain v : cast log a sd v →
    bi_round (vd_parent (vote_vote_data v)) ≤ sd_one_chain_round sd;
  ni_timeout t s : (a, SignedTimeout t s) ∈ log →
    tsr_round t ≤ sd_last_voted_round sd ∧ tsr_round t ≤ sd_highest_timeout_round sd;
  ni_vote_timeout v t s : cast log a sd v → (a, SignedTimeout t s) ∈ log →
    Vote_round v ≤ tsr_round t → bi_round (vd_parent (vote_vote_data v)) ≤ tsr_hqc_round t;
  ni_order ov : (a, SignedOrderVote ov) ∈ log →
    order_shape log ov ∧
    bi_round (li_commit_info (ov_ledger_info ov)) ≤ sd_one_chain_round sd;
  ni_order_timeout ov t s : (a, SignedOrderVote ov) ∈ log → (a, SignedTimeout t s) ∈ log →
    bi_round (li_commit_info (ov_ledger_info ov)) ≤ tsr_round t →
    bi_round (li_commit_info (ov_ledger_info ov)) ≤ tsr_hqc_round t;
  ni_commit li s : (a, SignedCommitVote li s) ∈ log → commit_shape log a li;
}.

Definition world_inv {SL : StorageLaws} (w : world) : Prop :=
  ∀ a, a ∈ honest → ∃ sd, holds sd (w_node w a) ∧ in_epoch (w_node w a) ∧ node_inv (w_log w) a sd.

(** ** Monotonicity in the log *)

Section monotone.
Context (log log' : list (Author * Signed)) (Hsub : ∀ x, x ∈ log → x ∈ log').

Lemma vote_quorum_mono vd : vote_quorum log vd → vote_quorum log' vd.
Proof.
  intros (Q & HQ & H). exists Q. split; [done|]. intros a Ha Hh.
  destruct (H a Ha Hh) as (v & Hv & Hd). eauto.
Qed.

Lemma order_quorum_mono b : order_quorum log b → order_quorum log' b.
Proof.
  intros (Q & HQ & H). exists Q. split; [done|]. intros a Ha Hh.
  destruct (H a Ha Hh) as (v & Hv & Hd). eauto.
Qed.

Lemma timeout_quorum_mono r h : timeout_quorum log r h → timeout_quorum log' r h.
Proof.
  intros (Q & HQ & H). exists Q. split; [done|]. intros a Ha Hh.
  destruct (H a Ha Hh) as (t & s & Ht & ?). exists t, s. eauto.
Qed.

Lemma ordered_mono b : ordered log b → ordered log' b.
Proof.
  intros [(vd & H & ?)|H]; [left|right; by apply order_quorum_mono].
  exists vd. split; [by apply vote_quorum_mono|done].
Qed.

Lemma certified_mono b : certified log b → certified log' b.
Proof.
  intros [?|(vd & ? & H)]; [by left|right]. exists vd. split; [done|by apply vote_quorum_mono].
Qed.

Lemma vote_shape_mono v : vote_shape log v → vote_shape log' v.
Proof.
  intros []. split; try done; [by apply certified_mono|].
  destruct vs_rule0 as [?|?]; [by left|right; by apply timeout_quorum_mono].
Qed.

Lemma order_shape_mono ov : order_shape log ov → order_shape log' ov.
Proof. intros [? ?]. split; [done|by apply certified_mono]. Qed.

Lemma commit_shape_mono a li : commit_shape log a li → commit_shape log' a li.
Proof.
  intros [Hv Ho]. split; [intros vd H; by apply vote_quorum_mono, Hv|].
  intros Hr. destruct (Ho Hr) as [?|(? & ov & ? & ?)]; [left; by apply ordered_mono|right; eauto].
Qed.

End monotone.

Lemma votes_by_elem log a v : v ∈ votes_by log a ↔ (a, SignedVote v) ∈ log.
Proof.
  unfold votes_by. rewrite list_elem_of_omap. split.
  - intros ([b out] & Hin & H). simpl in H. case_bool_decide; [|done].
    destruct out; simplify_eq. done.
  - intros Hin. exists (a, SignedVote v). split; [done|]. simpl. by rewrite bool_decide_eq_true_2.
Qed.

Lemma votes_by_app log a out : votes_by (log ++ [(a, out)]) a = votes_by log a ++ vote_of out.
Proof.
  unfold votes_by. rewrite omap_app. simpl. rewrite bool_decide_eq_true_2 by done.
  by destruct out.
Qed.

Lemma votes_by_app_ne log a b out : a ≠ b → votes_by (log ++ [(a, out)]) b = votes_by log b.
Proof.
  intros Hne. unfold votes_by. rewrite omap_app. simpl.
  rewrite bool_decide_eq_false_2 by done. by rewrite app_nil_r.
Qed.

(** Entries of one author in a log extended by another. *)
Lemma elem_of_app_ne (log : list (Author * Signed)) a b out out' :
  a ≠ b → (b, out') ∈ log ++ [(a, out)] → (b, out') ∈ log.
Proof. intros Hne [H|H]%elem_of_app; [done|]. apply list_elem_of_singleton in H. congruence. Qed.

Lemma elem_of_app_same (log : list (Author * Signed)) a out out' :
  (a, out') ∈ log ++ [(a, out)] ↔ (a, out') ∈ log ∨ out' = out.
Proof.
  rewrite elem_of_app, list_elem_of_singleton. naive_solver.
Qed.

(** The invariant of a validator survives steps of the others. *)
Lemma node_inv_other log a b out sd :
  a ≠ b → node_inv log b sd → node_inv (log ++ [(a, out)]) b sd.
Proof.
  intros Hne H. assert (Hsub : ∀ x, x ∈ log → x ∈ log ++ [(a, out)]) by set_solver.
  assert (Hc : ∀ v, cast (log ++ [(a, out)]) b sd v → cast log b sd v).
  { intros v [?|?]; [left; by eapply elem_of_app_ne|by right]. }
  destruct H. split; try done.
  - by rewrite votes_by_app_ne.
  - intros v Hv. eapply vote_shape_mono; eauto.
  - eauto.
  - intros t s Ht%elem_of_app_ne; eauto.
  - intros v t s Hv Ht%elem_of_app_ne; eauto.
  - intros ov Hov%elem_of_app_ne; [|done]. destruct (ni_order0 ov Hov).
    split; [by eapply order_shape_mono|done].
  - intros ov t s Hov%elem_of_app_ne Ht%elem_of_app_ne; eauto.
  - intros li s Hl%elem_of_app_ne; [|done]. eapply commit_shape_mono; eauto.
Qed.

(** ** Certificates of the log *)

Section certificates.
Context {HL : HashLaws}.

(** Each honest member of a set has a property, unless one of them yields [B]. *)
Lemma all_or (Q : gset Author) (A : Author → Prop) (B : Prop) :
  (∀ a, a ∈ Q → a ∈ honest → A a ∨ B) → (∀ a, a ∈ Q → a ∈ honest → A a) ∨ B.
Proof.
  induction Q as [|x Q Hx IH] using set_ind_L; intros H; [left; set_solver|].
  destruct IH as [IH|?]; [set_solver| |by right].
  destruct (decide (x ∈ honest)) as [Hh|Hh]; [|left; set_solver].
  destruct (H x) as [?|?]; [set_solver|done| |by right]. left. set_solver.
Qed.

Definition nodes_inv (log : list (Author * Signed)) : Prop :=
  ∀ a, a ∈ honest → ∃ sd, node_inv log a sd.

(** A signed ledger info with the hash of some vote data rests on a quorum of
    votes for that data, whatever mixture of votes and commit votes signed it. *)
Lemma quorum_signed_votes log li vd :
  nodes_inv log → quorum_signed log li →
  li_consensus_data_hash li = hash_vote_data vd → vote_quorum log vd.
Proof.
  intros Hinv (Q & HQ & H) Hh.
  destruct (all_or Q (λ a, ∃ v, (a, SignedVote v) ∈ log ∧ vote_vote_data v = vd)
    (vote_quorum log vd)) as [Hall|Hdone]; [|by exists Q|done].
  intros a Ha Hhon. destruct (H a Ha Hhon) as (out & Hin & Hsig).
  destruct (Hinv a Hhon) as (sd & Hn). destruct out; simpl in Hsig; try done; subst.
  - left. exists v. split; [done|]. apply hash_vote_data_inj. rewrite <- Hh.
    symmetry. by apply (vs_hash _ _ (ni_shape _ _ _ Hn v (or_introl Hin))).
  - destruct (ni_order _ _ _ Hn v Hin) as [[Hz _] _]. rewrite Hz in Hh.
    by destruct (hash_vote_data_nonzero vd).
  - right. by apply (ni_commit _ _ _ Hn _ _ Hin).
Qed.

(** ** One step of an honest validator *)

(** A vote cast only now. *)
Definition fresh_vote (log : list (Author * Signed)) (a : Author) (sd' : SafetyData) (v : Vote)
    : Prop :=
  vote_shape log v ∧ bi_round (vd_parent (vote_vote_data v)) ≤ sd_one_chain_round sd' ∧
  ∀ t s, (a, SignedTimeout t s) ∈ log → tsr_round t < Vote_round v.

(** The invariant after a step, from what the step adds. *)
Lemma node_inv_update log a sd sd' out :
  node_inv log a sd → sd_epoch sd' = epoch → sd_le sd sd' →
  votes_inv (votes_by log a ++ vote_of out) sd' →
  (∀ v, out = SignedVote v ∨ sd_last_vote sd' = Some v →
     cast log a sd v ∨ fresh_vote log a sd' v ∧ ∀ t s, out ≠ SignedTimeout t s) →
  (∀ t s, out = SignedTimeout t s →
     tsr_round t ≤ sd_last_voted_round sd' ∧ tsr_round t ≤ sd_highest_timeout_round sd' ∧
     sd_one_chain_round sd ≤ tsr_hqc_round t) →
  (∀ ov, out = SignedOrderVote ov →
     order_shape log ov ∧
     bi_round (li_commit_info (ov_ledger_info ov)) ≤ sd_one_chain_round sd' ∧
     ∀ t s, (a, SignedTimeout t s) ∈ log →
       bi_round (li_commit_info (ov_ledger_info ov)) ≤ tsr_round t →
       bi_round (li_commit_info (ov_ledger_info ov)) ≤ tsr_hqc_round t) →
  (∀ li s, out = SignedCommitVote li s → commit_shape log a li) →
  node_inv (log ++ [(a, out)]) a sd'.
Proof.
  intros Hn He Hle Hvotes Hcast Htime Horder Hcommit.
  assert (Hsub : ∀ x, x ∈ log → x ∈ log ++ [(a, out)]) by set_solver.
  assert (Hge : sd_last_voted_round sd ≤ sd_last_voted_round sd' ∧
    sd_one_chain_round sd ≤ sd_one_chain_round sd' ∧
    sd_highest_timeout_round sd ≤ sd_highest_timeout_round sd').
  { destruct Hle as [Hlt|(_ & ? & _ & ? & ?)]; [|done]. rewrite He, (ni_epoch _ _ _ Hn) in Hlt. lia. }
  destruct Hge as (Hlv & Hoc & Hht).
  assert (Hc : ∀ v, cast (log ++ [(a, out)]) a sd' v → cast log a sd v ∨
    fresh_vote log a sd' v ∧ ∀ t s, out ≠ SignedTimeout t s).
  { intros v [[Hv|Hv]%elem_of_app_same|Hv]; [by left; left|by apply Hcast; left|
      by apply Hcast; right]. }
  split; [done|by rewrite votes_by_app|..].
  - intros v [Hv|[[Hv _] _]]%Hc; [apply (ni_shape _ _ _ Hn) in Hv|]; by eapply vote_shape_mono.
  - intros v [Hv|[(_ & ? & _) _]]%Hc; [|done]. apply (ni_one_chain _ _ _ Hn) in Hv. lia.
  - intros t s [Ht|Ht]%elem_of_app_same; [apply (ni_timeout _ _ _ Hn) in Ht; lia|].
    by destruct (Htime t s (eq_sym Ht)) as (? & ? & ?).
  - intros v t s Hv [Ht|Ht]%elem_of_app_same Hr.
    + apply Hc in Hv as [Hv|[(_ & _ & Hf) _]]; [by eapply (ni_vote_timeout _ _ _ Hn)|].
      specialize (Hf t s Ht). lia.
    + apply Hc in Hv as [Hv|[_ Hf]]; [|by destruct (Hf t s)].
      destruct (Htime t s (eq_sym Ht)) as (_ & _ & ?). apply (ni_one_chain _ _ _ Hn) in Hv. lia.
  - intros ov [Hov|Hov]%elem_of_app_same.
    + destruct (ni_order _ _ _ Hn ov Hov). split; [by eapply order_shape_mono|lia].
    + destruct (Horder ov (eq_sym Hov)) as (? & ? & _). split; [by eapply order_shape_mono|done].
  - intros ov t s [Hov|Hov]%elem_of_app_same [Ht|Ht]%elem_of_app_same Hr.
    + by eapply (ni_order_timeout _ _ _ Hn).
    + destruct (Htime t s (eq_sym Ht)) as (_ & _ & ?). destruct (ni_order _ _ _ Hn ov Hov). lia.
    + destruct (Horder ov (eq_sym Hov)) as (_ & _ & H). by eapply H.
    + by rewrite <- Ht in Hov.
  - intros li s [Hl|Hl]%elem_of_app_same; eapply commit_shape_mono; try done.
    + by eapply (ni_commit _ _ _ Hn).
    + by eapply Hcommit.
Qed.

(** A verified, authentic certificate certifies its block in the log. *)
Lemma verified_certified log qc :
  nodes_inv log → QuorumCert_verify qc validators = Ok tt →
  authentic log (qc_signed_ledger_info qc) → certified log (certified_block qc).
Proof.
  intros Hinv Hv Ha. apply QuorumCert_verify_Ok in Hv as [Hh [(? & _)|(_ & Hs & _)]]; [by left|].
  right. exists (qc_vote_data qc). split; [done|]. by eapply quorum_signed_votes; [|apply Ha|].
Qed.

Lemma verified_timeout_quorum log tc :
  TwoChainTimeoutCertificate_verify tc validators = Ok tt → authentic_tc log tc →
  timeout_quorum log (tc_round tc) (highest_hqc_round tc).
Proof.
  intros Hv Ha. destruct (Ha Hv) as (Q & HQ & H). exists Q. split; [done|].
  intros a Haq Hh. destruct (H a Haq Hh) as (r & s & Hr & Hin).
  apply TwoChainTimeoutCertificate_verify_Ok in Hv as (_ & _ & _ & Hmax).
  apply max_of_Some in Hmax as [_ Hmax]. eexists _, s. split; [exact Hin|].
  split; [done|]. simpl. by apply Hmax.
Qed.

Lemma timeout_quorum_weaken log r h h' :
  timeout_quorum log r h → h ≤ h' → timeout_quorum log r h'.
Proof.
  intros (Q & HQ & H) Hle. exists Q. split; [done|]. intros a Ha Hh.
  destruct (H a Ha Hh) as (t & s & ? & ? & ?). exists t, s. repeat split; [done..|lia].
Qed.

(** ** Agreement of quorums *)

Context (quorum_meet : ∀ Q1 Q2, quorum Q1 → quorum Q2 →
  ∃ a, a ∈ Q1 ∧ a ∈ Q2 ∧ a ∈ honest).

(** A signed ledger info above round 0 orders the block it names. *)
Lemma quorum_signed_ordered log li :
  nodes_inv log → quorum_signed log li → 0 < bi_round (li_commit_info li) →
  ordered log (li_commit_info li).
Proof.
  intros Hinv (Q & HQ & H) Hr.
  destruct (decide (li_consensus_data_hash li = HashValue_zero)) as [Hz|Hnz].
  - destruct (all_or Q (λ a, ∃ ov, (a, SignedOrderVote ov) ∈ log ∧
      same_block (li_commit_info (ov_ledger_info ov)) (li_commit_info li))
      (ordered log (li_commit_info li))) as [Hall|Hdone]; [|right; by exists Q|done].
    intros a Ha Hhon. destruct (H a Ha Hhon) as (out & Hin & Hsig).
    destruct (Hinv a Hhon) as (sd & Hn). destruct out; simpl in Hsig; try done; subst.
    + pose proof (vs_hash _ _ (ni_shape _ _ _ Hn v (or_introl Hin))) as Hv.
      rewrite Hz in Hv. by destruct (hash_vote_data_nonzero (vote_vote_data v)).
    + left. by exists v.
    + destruct (ni_commit _ _ _ Hn _ _ Hin) as [_ Hc].
      destruct (Hc Hr) as [?|(_ & ?)]; [by right|by left].
  - destruct (all_or Q (λ a, ∃ v, (a, SignedVote v) ∈ log ∧ vote_ledger_info v = li)
      (ordered log (li_commit_info li))) as [Hall|Hdone]; [| |done].
    { intros a Ha Hhon. destruct (H a Ha Hhon) as (out & Hin & Hsig).
      destruct (Hinv a Hhon) as (sd & Hn). destruct out; simpl in Hsig; try done; subst.
      + left. by exists v.
      + destruct (ni_order _ _ _ Hn v Hin) as [[Hz _] _]. done.
      + destruct (ni_commit _ _ _ Hn _ _ Hin) as [_ Hc].
        destruct (Hc Hr) as [?|(? & _)]; [by right|done]. }
    left. destruct (quorum_meet Q Q HQ HQ) as (a0 & Ha0 & _ & Hh0).
    destruct (Hall a0 Ha0 Hh0) as (v0 & Hv0 & Hli). destruct (Hinv a0 Hh0) as (sd0 & Hn0).
    pose proof (ni_shape _ _ _ Hn0 v0 (or_introl Hv0)) as Hs0. subst li.
    destruct (vs_commit _ _ Hs0 Hr) as [-> Hnext]. exists (vote_vote_data v0).
    split; [|by split]. eapply quorum_signed_votes; [done| |by apply (vs_hash _ _ Hs0)].
    exists Q. split; [done|]. done.
Qed.

(** Two quorums that voted in the same round voted for the same data. *)
Lemma vote_quorum_unique log vd1 vd2 :
  nodes_inv log → vote_quorum log vd1 → vote_quorum log vd2 →
  bi_round (vd_proposed vd1) = bi_round (vd_proposed vd2) → vd1 = vd2.
Proof.
  intros Hinv (Q1 & HQ1 & H1) (Q2 & HQ2 & H2) Hr.
  destruct (quorum_meet Q1 Q2 HQ1 HQ2) as (a & Ha1 & Ha2 & Hh).
  destruct (H1 a Ha1 Hh) as (v1 & Hv1 & <-). destruct (H2 a Ha2 Hh) as (v2 & Hv2 & <-).
  destruct (Hinv a Hh) as (sd & Hn). f_equal.
  apply (vi_unique _ _ (ni_votes _ _ _ Hn)); [by apply votes_by_elem..| |done].
  by rewrite (vs_epoch _ _ (ni_shape _ _ _ Hn v1 (or_introl Hv1))),
    (vs_epoch _ _ (ni_shape _ _ _ Hn v2 (or_introl Hv2))).
Qed.

(** Some honest validator cast each vote of a quorum. *)
Lemma vote_quorum_honest log vd :
  nodes_inv log → vote_quorum log vd →
  ∃ a v sd, a ∈ honest ∧ (a, SignedVote v) ∈ log ∧ vote_vote_data v = vd ∧
    node_inv log a sd ∧ vote_shape log v.
Proof.
  intros Hinv (Q & HQ & H). destruct (quorum_meet Q Q HQ HQ) as (a & Ha & _ & Hh).
  destruct (H a Ha Hh) as (v & Hv & Hd). destruct (Hinv a Hh) as (sd & Hn).
  exists a, v, sd. repeat (split; [done|]). by apply (ni_shape _ _ _ Hn v (or_introl Hv)).
Qed.

Lemma same_block_refl b : same_block b b.
Proof. done. Qed.

(** An ordered block has itself been voted for by a quorum. *)
Lemma ordered_certified log b :
  nodes_inv log → ordered log b → 0 < bi_round b →
  ∃ vd, vote_quorum log vd ∧ same_block (vd_proposed vd) b.
Proof.
  intros Hinv [(vd & Hvq & [Hr Hid] & _)|(Q & HQ & H)] Hpos.
  - destruct (vote_quorum_honest _ _ Hinv Hvq) as (a & v & sd & _ & _ & <- & _ & Hs).
    destruct (vs_parent _ _ Hs) as [?|(vd' & Heq & Hvq')]; [lia|].
    exists vd'. split; [done|]. by rewrite Heq.
  - destruct (quorum_meet Q Q HQ HQ) as (a & Ha & _ & Hh).
    destruct (H a Ha Hh) as (ov & Hov & [Hr Hid]). destruct (Hinv a Hh) as (sd & Hn).
    destruct (ni_order _ _ _ Hn ov Hov) as [[_ [?|(vd & Heq & Hvq)]] _]; [lia|].
    exists vd. split; [done|]. by rewrite Heq.
Qed.

(** The heart of the argument: every block a quorum votes for above an ordered
    block has its parent at or above it. *)
Lemma ordered_parent_above log b vd :
  nodes_inv log → ordered log b → 0 < bi_round b → vote_quorum log vd →
  bi_round b < bi_round (vd_proposed vd) → bi_round b ≤ bi_round (vd_parent vd).
Proof.
  intros Hinv Hord Hpos Hvq Hlt.
  destruct (vote_quorum_honest _ _ Hinv Hvq) as (a & v & sd & Hh & Hv & Hd & Hn & Hs).
  pose proof (vs_rule _ _ Hs) as Hrule. unfold Vote_round in Hrule. rewrite Hd in Hrule.
  destruct Hrule as [?|(Qt & HQt & Ht)]; [lia|].
  destruct Hord as [(vd1 & Hvq1 & [Hr1 Hid1] & Hnext)|(Qo & HQo & Ho)].
  - destruct (decide (bi_round (vd_proposed vd) = bi_round b + 1)) as [Heq|Hne].
    { assert (vd = vd1) as -> by (eapply vote_quorum_unique; [done..|lia]). lia. }
    destruct Hvq1 as (Qv & HQv & Hvotes).
    destruct (quorum_meet Qt Qv HQt HQv) as (c & Hct & Hcv & Hch).
    destruct (Ht c Hct Hch) as (t & s & Htl & Htr & Hthqc).
    destruct (Hvotes c Hcv Hch) as (v1 & Hv1 & Hd1). destruct (Hinv c Hch) as (sdc & Hnc).
    pose proof (ni_vote_timeout _ _ _ Hnc v1 t s (or_introl Hv1) Htl) as Hvt.
    unfold Vote_round in Hvt. rewrite Hd1 in Hvt. lia.
  - destruct (quorum_meet Qt Qo HQt HQo) as (c & Hct & Hco & Hch).
    destruct (Ht c Hct Hch) as (t & s & Htl & Htr & Hthqc).
    destruct (Ho c Hco Hch) as (ov & Hov & [Hrov _]). destruct (Hinv c Hch) as (sdc & Hnc).
    pose proof (ni_order_timeout _ _ _ Hnc ov t s Hov Htl). lia.
Qed.

(** Every block a quorum votes for from the round of an ordered block on
    descends from it. *)
Lemma ordered_extends log b vd0 vd :
  nodes_inv log → ordered log b → 0 < bi_round b →
  vote_quorum log vd0 → same_block (vd_proposed vd0) b →
  vote_quorum log vd → bi_round b ≤ bi_round (vd_proposed vd) →
  extends log (vd_proposed vd0) (vd_proposed vd).
Proof.
  intros Hinv Hord Hpos Hvq0 [Hr0 Hid0].
  remember (N.to_nat (bi_round (vd_proposed vd))) as n eqn:Hn. revert vd Hn.
  induction n as [n IH] using lt_wf_ind. intros vd -> Hvq Hle.
  destruct (decide (bi_round (vd_proposed vd) = bi_round b)) as [Heq|Hne].
  { assert (vd = vd0) as -> by (eapply vote_quorum_unique; [done..|lia]). constructor. }
  pose proof (ordered_parent_above _ _ _ Hinv Hord Hpos Hvq ltac:(lia)) as Hpar.
  destruct (vote_quorum_honest _ _ Hinv Hvq) as (a & v & sd & _ & _ & Hd & _ & Hs).
  pose proof (vs_lt _ _ Hs) as Hlt. unfold Vote_round in Hlt. rewrite Hd in Hlt.
  pose proof (vs_parent _ _ Hs) as Hcert. rewrite Hd in Hcert.
  destruct Hcert as [?|(vdp & Hp & Hvqp)]; [lia|].
  apply ext_step; [done|]. rewrite <- Hp in *. eapply IH; [|done|done|lia]. lia.
Qed.

End certificates.

Section laws.
Context {HL : HashLaws} {BL : BlockInfoLaws} {LL : LedgerInfoLaws}.
Context (quorum_meet : ∀ Q1 Q2, quorum Q1 → quorum Q2 →
  ∃ a, a ∈ Q1 ∧ a ∈ Q2 ∧ a ∈ honest).

(** A vote the rules allow has the shape the agreement proof relies on. *)
Lemma vote_allowed_shape log vp tc now sd vote :
  nodes_inv log → call_ok log (ConstructAndSignVoteTwoChain vp tc now) →
  sd_epoch sd = epoch → vote_allowed validators vp tc sd vote → vote_shape log vote.
Proof.
  intros Hinv (Hauth & Htc & Hid) He Ha.
  destruct (vote_allowed_key _ _ _ _ _ Ha) as [Hep Hrd].
  assert (Hpar : vd_parent (vote_vote_data vote) = certified_block (Block_quorum_cert (vp_block vp))).
  { by rewrite (va_data _ _ _ _ _ Ha). }
  split.
  - congruence.
  - rewrite (va_ledger _ _ _ _ _ Ha). unfold vote_ledger. by autorewrite with gaptos.
  - rewrite (va_ledger _ _ _ _ _ Ha), Hpar, Hrd. unfold vote_ledger. autorewrite with gaptos.
    destruct (N.eqb_spec (Block_round (vp_block vp))
      (bi_round (certified_block (Block_quorum_cert (vp_block vp))) + 1)); [done|].
    rewrite bi_round_empty. lia.
  - exists (block_block_data (vp_block vp)). rewrite (va_data _ _ _ _ _ Ha), Hrd. split; [|done].
    unfold vote_data_ordering_only, gen_block_info. simpl. by autorewrite with gaptos.
  - rewrite Hpar. eapply verified_certified; [done|by apply (va_qc _ _ _ _ _ Ha)|done].
  - rewrite Hpar, Hrd. by apply (va_parent _ _ _ _ _ Ha).
  - rewrite Hpar, Hrd. destruct (va_round _ _ _ _ _ Ha) as [?|(h & -> & Hr & Hle)]; [by left|].
    pose proof (va_parent _ _ _ _ _ Ha) as Hlt. destruct tc as [x|]; simpl in Hr, Hle.
    + right. destruct (Htc x eq_refl) as [Hax _]. replace (Block_round _ - 1) with (tc_round x) by lia.
      eapply timeout_quorum_weaken; [|done].
      apply verified_timeout_quorum; [|done]. by apply (va_tc _ _ _ _ _ Ha).
    + left. lia.
Qed.

(** The block of an order vote has the round of the block info it signs. *)
Lemma order_vote_round log ovp sd :
  nodes_inv log → call_ok log (ConstructAndSignOrderVote ovp) →
  order_vote_allowed validators ovp sd → 0 < bi_round (ovp_block_info ovp) →
  certified log (ovp_block_info ovp) → Block_round (ovp_block ovp) = bi_round (ovp_block_info ovp).
Proof.
  intros Hinv [_ Hid] Ha Hpos [?|(vd & Hp & Hvq)]; [lia|].
  destruct (vote_quorum_honest quorum_meet _ _ Hinv Hvq) as (a & v & sd' & _ & _ & Hd & _ & Hs).
  destruct (vs_block _ _ Hs) as (bd & Hbid & Hbr). unfold Vote_round in Hbr.
  rewrite Hd, Hp in Hbid, Hbr. rewrite (oa_id _ _ _ Ha), Hid in Hbid.
  rewrite <- Hbr. unfold Block_round. by apply hash_block_data_round.
Qed.

Lemma commit_vote_shape log a l n :
  nodes_inv log → call_ok log (SignCommitVote l n) →
  liws_verify_signatures l validators = Ok tt →
  bi_match_ordered_only (li_commit_info (liws_ledger_info l)) (li_commit_info n) = true →
  commit_shape log a n.
Proof.
  intros Hinv [Hauth (ci & ov & bh & bn & ->)] Hv Hm. specialize (Hauth Hv).
  apply bi_match_ordered_only_fields in Hm as (_ & Hr & Hid).
  unfold generate_commit_ledger_info in *. split.
  - intros vd. autorewrite with gaptos. destruct ov.
    + intros Hz. by destruct (hash_vote_data_nonzero vd).
    + intros Hh. by eapply quorum_signed_votes.
  - intros Hpos. left. autorewrite with gaptos in *.
    pose proof (quorum_signed_ordered quorum_meet _ _ Hinv Hauth) as Ho.
    rewrite Hr in Ho. destruct (Ho Hpos) as [(vd & ? & [? ?] & ?)|(Q & HQ & H)].
    + left. exists vd. split; [done|]. split; [split; congruence|done].
    + right. exists Q. split; [done|]. intros b Hb Hh.
      destruct (H b Hb Hh) as (x & ? & ? & ?). exists x. split; [done|]. split; congruence.
Qed.

Lemma vote_update_last b vote sd : sd_last_vote (vote_update b vote sd) = Some vote.
Proof. done. Qed.

(** Outputs that a rule cannot produce. *)
Ltac wrong_output :=
  try match goal with
  | H : _ = SignedVote _ ∨ _ |- _ => by destruct H
  | H : _ = SignedOrderVote _ ∨ _ |- _ => by destruct H
  | H : (∃ _, _) ∨ _ |- _ => by destruct H as [[? ?]|?]
  end.

(** The last vote after a step is an old one, or one the rules just allowed. *)
Lemma node_votes_step log a sd v c out sd' vote :
  nodes_inv log → node_inv log a sd → call_ok log c →
  rules_step v c sd out sd' → (∀ vv, v = Some vv → vv = validators) →
  sd_epoch sd' = epoch → out = SignedVote vote ∨ sd_last_vote sd' = Some vote →
  cast log a sd vote ∨ fresh_vote log a sd' vote ∧ ∀ t s, out ≠ SignedTimeout t s.
Proof.
  intros Hinv Hn Hok Hstep Hv He Hvote.
  destruct Hstep as [| proof sd e Hlt | | vv t tc sd out -> Ha Hout
    | vv vp tc now sd vt out -> Ha Hout | vp tc now sd vt Hlast Hep Hr
    | vv ovp sd ov out -> Ha Hov Hout |]; simpl in Hvote;
    try (left; right; by destruct Hvote).
  - left; right. destruct Hvote as [->|?]; [by destruct Hout as [[? ?]|?]|done].
  - right. rewrite (Hv vv eq_refl) in Ha.
    assert (vote = vt) as ->.
    { destruct Hvote as [->|[= ->]]; [|done]. by destruct Hout as [[= ->]|?]. }
    split; [|intros t s ->; by destruct Hout].
    split; [by eapply vote_allowed_shape; [..|exact Ha]|].
    destruct (vote_allowed_key _ _ _ _ _ Ha) as [_ Hrd]. split.
    + rewrite (va_data _ _ _ _ _ Ha). simpl. lia.
    + intros t s Ht. apply (ni_timeout _ _ _ Hn) in Ht as [? _].
      pose proof (va_last_voted _ _ _ _ _ Ha). lia.
  - left; right. by destruct Hvote as [[= ->]|?].
  - left; right. destruct Hvote as [->|?]; [by destruct Hout|done].
Qed.

Lemma node_inv_step log a sd v c out sd' :
  nodes_inv log → node_inv log a sd → call_ok log c →
  rules_step v c sd out sd' → (∀ vv, v = Some vv → vv = validators) →
  sd_epoch sd' = epoch → node_inv (log ++ [(a, out)]) a sd'.
Proof.
  intros Hinv Hn Hok Hstep Hv He.
  apply (node_inv_update log a sd sd' out); [done|done|by eapply rules_step_sd_le|
    by eapply votes_inv_step, Hn|..].
  - intros vote Hvote. by eapply node_votes_step.
  - (* timeouts *)
    intros t s ->. inversion Hstep as [| | |vv tm tc sd0 out0 -> Ha Hout| | | |]; subst;
      wrong_output.
    destruct Hout as [[s' [= -> ->]]|?]; [|done]. simpl.
    pose proof (ta_one_chain _ _ _ _ Ha). repeat split; [lia|lia|done].
  - (* order votes *)
    intros ov ->. inversion Hstep as [| | | | | |vv ovp sd0 ov0 out0 -> Ha Hov Hout|]; subst;
      wrong_output.
    destruct Hout as [[= ->]|?]; [|done]. rewrite (Hv vv eq_refl) in Ha.
    assert (Hcert : certified log (ovp_block_info ovp)).
    { rewrite <- (oa_info _ _ _ Ha). destruct Hok.
      eapply verified_certified; [done|by apply (oa_qc _ _ _ Ha)|done]. }
    unfold order_shape. rewrite Hov. autorewrite with gaptos. split; [done|]. split.
    + simpl. rewrite (oa_info _ _ _ Ha). lia.
    + intros t s Ht Hle. apply (ni_timeout _ _ _ Hn) in Ht as [_ Hto].
      pose proof (oa_timeout _ _ _ Ha) as Hlt.
      destruct (decide (bi_round (ovp_block_info ovp) = 0)) as [->|Hne]; [lia|].
      rewrite (order_vote_round log ovp sd) in Hlt by (done || lia). lia.
  - (* commit votes *)
    intros li s ->. inversion Hstep; subst; wrong_output. rewrite (Hv vv eq_refl) in *.
    by eapply commit_vote_shape.
Qed.

Context {SL : StorageLaws}.

Lemma initial_inv w : initial w → world_inv w.
Proof.
  intros [Hlog Hnode] a Ha. destruct (Hnode a Ha) as [Hs Hep].
  exists (SafetyData_new epoch 0 0 0 None 0). split; [done|]. split; [done|]. rewrite Hlog.
  assert (Hc : ∀ v, ¬ cast [] a (SafetyData_new epoch 0 0 0 None 0) v).
  { intros v [?|?]; [set_solver|done]. }
  assert (Hnil : ∀ x : Author * Signed, ¬ x ∈ []) by (intros x; apply not_elem_of_nil).
  split; [done| |by intros v ?%Hc|by intros v ?%Hc|by intros t s ?%Hnil|
    by intros v t s ?%Hc|by intros ov ?%Hnil|by intros ov t s ?%Hnil|by intros li s ?%Hnil].
  split; [by intros v ?%not_elem_of_nil|done|by intros v1 v2 ?%not_elem_of_nil].
Qed.

(** A log entry that is no message of the validator itself. *)
Lemma nodes_inv_weaken w : world_inv w → nodes_inv (w_log w).
Proof. intros H a Ha. destruct (H a Ha) as (sd & _ & _ & ?). by exists sd. Qed.

Lemma world_step_inv w w' : world_inv w → world_step w w' → world_inv w'.
Proof.
  intros Hinv Hstep. pose proof (nodes_inv_weaken w Hinv) as Hnodes.
  destruct Hstep as [w a c Ha Hok Hep | w a li s Ha Hz Hwhy | w a out Ha]; intros b Hb.
  - destruct (Hinv a Ha) as (sda & Hsa & [Hes _] & Hna). simpl. unfold set_node.
    case_bool_decide as Hba; [subst b|].
    + destruct (exec_refines c sda (w_node w a) Hsa) as (sd' & Hs' & Hr). exists sd'.
      split; [done|]. split; [done|]. eapply node_inv_step; [done|done|done|exact Hr|..].
      * intros vv Hvv. apply fmap_Some in Hvv as (es & Hes' & ->). by apply Hes.
      * destruct Hep as [_ Hep]. apply Hep. by destruct Hs'.
    + destruct (Hinv b Hb) as (sdb & Hsb & Hepb & Hnb). exists sdb. split; [done|].
      split; [done|]. by apply node_inv_other.
  - destruct (Hinv b Hb) as (sdb & Hsb & Hepb & Hnb). exists sdb. split; [done|]. split; [done|].
    simpl. destruct (decide (a = b)) as [->|Hne]; [|by apply node_inv_other].
    apply (node_inv_update _ _ sdb sdb); try done.
    + by apply (ni_epoch _ _ _ Hnb).
    + simpl. rewrite app_nil_r. by apply (ni_votes _ _ _ Hnb).
    + intros v [?|?]; [done|]. by left; right.
    + intros li' s' [= <- <-]. split.
      { intros vd Hvd. rewrite Hz in Hvd. by destruct (hash_vote_data_nonzero vd). }
      intros Hpos. destruct Hwhy as [(ov & Hov & Hsame)|(l & Hauth & Hver & [Hr Hid])].
      { right. split; [done|]. by exists ov. }
      left. pose proof (quorum_signed_ordered quorum_meet _ _ Hnodes (Hauth Hver)) as Ho.
      rewrite Hr in Ho. destruct (Ho Hpos) as [(vd & ? & [? ?] & ?)|(Q & HQ & H)].
      * left. exists vd. split; [done|]. split; [split; congruence|done].
      * right. exists Q. split; [done|]. intros x Hx Hh.
        destruct (H x Hx Hh) as (y & ? & ? & ?). exists y. split; [done|]. split; congruence.
  - destruct (Hinv b Hb) as (sdb & Hsb & Hepb & Hnb). exists sdb. split; [done|]. split; [done|].
    apply node_inv_other; [|done]. intros ->. done.
Qed.

Lemma reachable_inv w : reachable w → world_inv w.
Proof. induction 1; [by apply initial_inv|by eapply world_step_inv]. Qed.

(** Agreement for any system of quorums that meet in an honest validator. *)
Lemma agreement_quorums w l1 l2 :
  reachable w →
  liws_verify_signatures l1 validators = Ok tt → authentic (w_log w) l1 →
  liws_verify_signatures l2 validators = Ok tt → authentic (w_log w) l2 →
  0 < bi_round (li_commit_info (liws_ledger_info l1)) →
  0 < bi_round (li_commit_info (liws_ledger_info l2)) →
  ∃ c1 c2, same_block c1 (li_commit_info (liws_ledger_info l1)) ∧
    same_block c2 (li_commit_info (liws_ledger_info l2)) ∧
    (extends (w_log w) c1 c2 ∨ extends (w_log w) c2 c1).
Proof.
  intros Hreach Hv1 Ha1 Hv2 Ha2 Hr1 Hr2.
  pose proof (nodes_inv_weaken w (reachable_inv w Hreach)) as Hinv.
  pose proof (quorum_signed_ordered quorum_meet _ _ Hinv (Ha1 Hv1) Hr1) as Ho1.
  pose proof (quorum_signed_ordered quorum_meet _ _ Hinv (Ha2 Hv2) Hr2) as Ho2.
  destruct (ordered_certified quorum_meet _ _ Hinv Ho1 Hr1) as (vd1 & Hq1 & Hs1).
  destruct (ordered_certified quorum_meet _ _ Hinv Ho2 Hr2) as (vd2 & Hq2 & Hs2).
  exists (vd_proposed vd1), (vd_proposed vd2). split; [done|]. split; [done|].
  destruct (N.le_ge_cases (bi_round (li_commit_info (liws_ledger_info l1)))
    (bi_round (li_commit_info (liws_ledger_info l2)))) as [Hle|Hle].
  - left. eapply ordered_extends; [done|done|exact Ho1|done|done|done|done|].
    destruct Hs2 as [-> _]. done.
  - right. eapply ordered_extends; [done|done|exact Ho2|done|done|done|done|].
    destruct Hs1 as [-> _]. done.
Qed.

End laws.


End system.
(** ** Voting power *)

(** Quorum thresholds of the validator verifier: two thirds of the total, plus
    one. *)
Class PowerLaws {GA' : Gaptos} {VE' : @Verifier GA'} : Prop := {
  vv_ordered_NoDup v : NoDup (vv_ordered_addresses v);
  vv_quorum_threshold v :
    vv_quorum_voting_power v = vv_total_voting_power v * 2 / 3 + 1;
  vv_total_power v :
    vv_total_voting_power v
    = foldr (λ a n, default 0 (vv_get_voting_power v a) + n) 0 (vv_ordered_addresses v);
}.

Section power.
Context {PL : PowerLaws}.
Implicit Types (v : ValidatorVerifier) (Q : gset Author).

#[local] Instance power_of_proper v : Proper ((≡ₚ) ==> (=)) (power_of v).
Proof. intros l1 l2 H. induction H; simpl; lia. Qed.

Lemma power_of_app v l1 l2 : power_of v (l1 ++ l2) = power_of v l1 + power_of v l2.
Proof. induction l1; simpl; lia. Qed.

Lemma power_disj_union v Q1 Q2 : Q1 ## Q2 → power v (Q1 ∪ Q2) = power v Q1 + power v Q2.
Proof. intros H. unfold power. by rewrite elements_disj_union, power_of_app. Qed.

Lemma power_mono v Q1 Q2 : Q1 ⊆ Q2 → power v Q1 ≤ power v Q2.
Proof.
  intros H. rewrite (union_difference_L Q1 Q2 H), power_disj_union by set_solver. lia.
Qed.

Lemma power_members v : power v (members v) = vv_total_voting_power v.
Proof.
  rewrite vv_total_power. unfold power, members.
  by rewrite (elements_list_to_set _ (vv_ordered_NoDup v)).
Qed.

(** Two quorums share an honest validator when the others hold less than a third
    of the voting power. *)
Lemma power_quorum_meet v honest Q1 Q2 :
  3 * power v (members v ∖ honest) < vv_total_voting_power v →
  power_quorum v Q1 → power_quorum v Q2 → ∃ a, a ∈ Q1 ∧ a ∈ Q2 ∧ a ∈ honest.
Proof.
  intros Hf [Hs1 Hq1] [Hs2 Hq2].
  destruct (set_choose_or_empty (Q1 ∩ Q2 ∩ honest)) as [[a Ha]|Hempty]; [set_solver|].
  exfalso.
  assert (Hcap : power v (Q1 ∩ Q2) ≤ power v (members v ∖ honest))
    by (apply power_mono; set_solver).
  assert (Hsum : power v Q1 + power v Q2 = power v (Q1 ∪ Q2) + power v (Q1 ∩ Q2)).
  { rewrite <- (difference_union_intersection_L Q1 Q2) at 1.
    rewrite power_disj_union by set_solver.
    assert (Q1 ∖ Q2 ∪ Q2 = Q1 ∪ Q2) as <- by apply difference_union_L.
    rewrite (power_disj_union v (Q1 ∖ Q2) Q2) by set_solver. lia. }
  assert (Htot : power v (Q1 ∪ Q2) ≤ vv_total_voting_power v).
  { rewrite <- power_members. apply power_mono. set_solver. }
  rewrite (vv_quorum_threshold v) in Hq1, Hq2.
  pose proof (N.div_mod' (vv_total_voting_power v * 2) 3).
  pose proof (N.mod_lt (vv_total_voting_power v * 2) 3 ltac:(done)). lia.
Qed.

End power.

(** C1: Agreement of the whole protocol as far as signatures go. When the validators
    outside [honest] hold less than a third of the voting power, every honest
    validator signs only through the safety-rules calls of its own node (restarts
    included), and honest signatures cannot be forged, any two ledger infos whose
    aggregate signatures verify and that commit a block of a positive round commit
    blocks on one branch: one of the two blocks extends the other through certified
    parent links. *)
Theorem agreement {HL : HashLaws} {BL : BlockInfoLaws} {LL : LedgerInfoLaws} {SL : StorageLaws}
    {PL : PowerLaws} honest epoch validators w l1 l2 :
  let Q := power_quorum validators in
  3 * power validators (members validators ∖ honest) < vv_total_voting_power validators →
  reachable honest Q epoch validators w →
  liws_verify_signatures l1 validators = Ok tt → authentic honest Q validators (w_log w) l1 →
  liws_verify_signatures l2 validators = Ok tt → authentic honest Q validators (w_log w) l2 →
  0 < bi_round (li_commit_info (liws_ledger_info l1)) →
  0 < bi_round (li_commit_info (liws_ledger_info l2)) →
  ∃ c1 c2, same_block c1 (li_commit_info (liws_ledger_info l1)) ∧
    same_block c2 (li_commit_info (liws_ledger_info l2)) ∧
    (extends honest Q (w_log w) c1 c2 ∨ extends honest Q (w_log w) c2 c1).
Proof.
  intros Q Hf. refine (agreement_quorums honest Q epoch validators _ w l1 l2).
  intros Q1 Q2. by apply power_quorum_meet.
Qed.

End bft.
