(* ===== verification/BlockTree.v ===== *)
(** * The block tree (consensus/src/block_storage/block_tree.rs)

    The in-memory tree of blocks with its roots and highest certificates:
    insertion of blocks and certificates, pruning below a new commit root, paths
    from a root.  The theorems show that the tree stays consistent, that pruning
    removes exactly what no longer descends from the new root, and that a path
    from a root is the chain of ancestors. *)

From S2P Require Import Prelude Gaptos Types Certificates Blocks.

Section block_tree.
Context {GA : Gaptos} {VE : Verifier} {CR : Crypto}.

(** A [PipelinedBlock] is a [Block] with its execution state; the tree keeps and
    looks at the block, see [insert_block] for the one use of the state. *)
Record LinkableBlock := {
  lb_executed_block : Block;
  lb_children : gset HashValue;
}.

Record BlockTree := {
  bt_id_to_block : gmap HashValue LinkableBlock;
  bt_ordered_root_id : HashValue;
  bt_commit_root_id : HashValue;
  bt_highest_certified_block_id : HashValue;
  bt_head_block_id : HashValue;
  bt_safe_block_id : HashValue;
  bt_finalized_block_id : HashValue;
  bt_highest_quorum_cert : QuorumCert;
  bt_highest_2chain_timeout_cert : option TwoChainTimeoutCertificate;
  bt_highest_ordered_cert : WrappedLedgerInfo;
  bt_highest_commit_cert : WrappedLedgerInfo;
  bt_id_to_quorum_cert : gmap HashValue QuorumCert;
  bt_pruned_block_ids : list HashValue;
  bt_max_pruned_blocks_in_mem : nat;
}.

(** ** Field updates *)

Definition set_id_to_block (m : gmap HashValue LinkableBlock) (t : BlockTree) : BlockTree :=
  {| bt_id_to_block := m; bt_ordered_root_id := bt_ordered_root_id t;
     bt_commit_root_id := bt_commit_root_id t;
     bt_highest_certified_block_id := bt_highest_certified_block_id t;
     bt_head_block_id := bt_head_block_id t; bt_safe_block_id := bt_safe_block_id t;
     bt_finalized_block_id := bt_finalized_block_id t;
     bt_highest_quorum_cert := bt_highest_quorum_cert t;
     bt_highest_2chain_timeout_cert := bt_highest_2chain_timeout_cert t;
     bt_highest_ordered_cert := bt_highest_ordered_cert t;
     bt_highest_commit_cert := bt_highest_commit_cert t;
     bt_id_to_quorum_cert := bt_id_to_quorum_cert t;
     bt_pruned_block_ids := bt_pruned_block_ids t;
     bt_max_pruned_blocks_in_mem := bt_max_pruned_blocks_in_mem t |}.

(** The root and cursor fields: ordered, commit, certified, head, safe, finalized. *)
Definition set_roots (ordered commit certified head safe finalized : HashValue) (t : BlockTree)
    : BlockTree :=
  {| bt_id_to_block := bt_id_to_block t; bt_ordered_root_id := ordered;
     bt_commit_root_id := commit; bt_highest_certified_block_id := certified;
     bt_head_block_id := head; bt_safe_block_id := safe; bt_finalized_block_id := finalized;
     bt_highest_quorum_cert := bt_highest_quorum_cert t;
     bt_highest_2chain_timeout_cert := bt_highest_2chain_timeout_cert t;
     bt_highest_ordered_cert := bt_highest_ordered_cert t;
     bt_highest_commit_cert := bt_highest_commit_cert t;
     bt_id_to_quorum_cert := bt_id_to_quorum_cert t;
     bt_pruned_block_ids := bt_pruned_block_ids t;
     bt_max_pruned_blocks_in_mem := bt_max_pruned_blocks_in_mem t |}.

Definition set_head (h : HashValue) (t : BlockTree) : BlockTree :=
  set_roots (bt_ordered_root_id t) (bt_commit_root_id t) (bt_highest_certified_block_id t)
    h (bt_safe_block_id t) (bt_finalized_block_id t) t.

(** The certificates: highest QC, highest TC, ordered, commit, per-block map. *)
Definition set_certs (qc : QuorumCert) (tc : option TwoChainTimeoutCertificate)
    (ordered commit : WrappedLedgerInfo) (certs : gmap HashValue QuorumCert) (t : BlockTree)
    : BlockTree :=
  {| bt_id_to_block := bt_id_to_block t; bt_ordered_root_id := bt_ordered_root_id t;
     bt_commit_root_id := bt_commit_root_id t;
     bt_highest_certified_block_id := bt_highest_certified_block_id t;
     bt_head_block_id := bt_head_block_id t; bt_safe_block_id := bt_safe_block_id t;
     bt_finalized_block_id := bt_finalized_block_id t;
     bt_highest_quorum_cert := qc; bt_highest_2chain_timeout_cert := tc;
     bt_highest_ordered_cert := ordered; bt_highest_commit_cert := commit;
     bt_id_to_quorum_cert := certs; bt_pruned_block_ids := bt_pruned_block_ids t;
     bt_max_pruned_blocks_in_mem := bt_max_pruned_blocks_in_mem t |}.

Definition set_pruned (ids : list HashValue) (t : BlockTree) : BlockTree :=
  {| bt_id_to_block := bt_id_to_block t; bt_ordered_root_id := bt_ordered_root_id t;
     bt_commit_root_id := bt_commit_root_id t;
     bt_highest_certified_block_id := bt_highest_certified_block_id t;
     bt_head_block_id := bt_head_block_id t; bt_safe_block_id := bt_safe_block_id t;
     bt_finalized_block_id := bt_finalized_block_id t;
     bt_highest_quorum_cert := bt_highest_quorum_cert t;
     bt_highest_2chain_timeout_cert := bt_highest_2chain_timeout_cert t;
     bt_highest_ordered_cert := bt_highest_ordered_cert t;
     bt_highest_commit_cert := bt_highest_commit_cert t;
     bt_id_to_quorum_cert := bt_id_to_quorum_cert t;
     bt_pruned_block_ids := ids;
     bt_max_pruned_blocks_in_mem := bt_max_pruned_blocks_in_mem t |}.

(** ** Operations *)

Definition LinkableBlock_new (b : Block) : LinkableBlock :=
  {| lb_executed_block := b; lb_children := ∅ |}.

Definition add_child (child : HashValue) (lb : LinkableBlock) : result Anyhow LinkableBlock :=
  _ ← assert_ (bool_decide (child ∉ lb_children lb)) "Block already existed.";
  Ok {| lb_executed_block := lb_executed_block lb; lb_children := {[child]} ∪ lb_children lb |}.

Definition BlockTree_new (root : Block) (root_quorum_cert : QuorumCert)
    (root_ordered_cert root_commit_cert : WrappedLedgerInfo) (max_pruned_blocks_in_mem : nat)
    (highest_2chain_timeout_cert : option TwoChainTimeoutCertificate)
    : result Anyhow BlockTree :=
  _ ← assert_ (bool_decide (block_id root = bi_id (WrappedLedgerInfo_commit_info root_ordered_cert)))
        "inconsistent root and ledger info";
  let root_id := block_id root in
  Ok {| bt_id_to_block := {[root_id := LinkableBlock_new root]};
        bt_ordered_root_id := root_id; bt_commit_root_id := root_id;
        bt_highest_certified_block_id := root_id;
        bt_head_block_id := root_id; bt_safe_block_id := root_id; bt_finalized_block_id := root_id;
        bt_highest_quorum_cert := root_quorum_cert;
        bt_highest_2chain_timeout_cert := highest_2chain_timeout_cert;
        bt_highest_ordered_cert := root_ordered_cert;
        bt_highest_commit_cert := root_commit_cert;
        bt_id_to_quorum_cert := {[bi_id (certified_block root_quorum_cert) := root_quorum_cert]};
        bt_pruned_block_ids := [];
        bt_max_pruned_blocks_in_mem := max_pruned_blocks_in_mem |}.

Definition get_linkable_block (t : BlockTree) (id : HashValue) : option LinkableBlock :=
  bt_id_to_block t !! id.

Definition block_exists (t : BlockTree) (id : HashValue) : bool :=
  bool_decide (is_Some (bt_id_to_block t !! id)).

Definition get_block (t : BlockTree) (id : HashValue) : option Block :=
  lb_executed_block <$> get_linkable_block t id.

Definition linkable_root (t : BlockTree) : result Anyhow LinkableBlock :=
  expect "Root must exist" (get_linkable_block t (bt_commit_root_id t)).

Definition ordered_root (t : BlockTree) : result Anyhow Block :=
  expect "Root must exist" (get_block t (bt_ordered_root_id t)).

Definition commit_root (t : BlockTree) : result Anyhow Block :=
  expect "Commit root must exist" (get_block t (bt_commit_root_id t)).

Definition highest_certified_block (t : BlockTree) : result Anyhow Block :=
  expect "Highest cerfified block must exist" (get_block t (bt_highest_certified_block_id t)).

Definition remove_block (id : HashValue) (t : BlockTree) : BlockTree :=
  set_certs (bt_highest_quorum_cert t) (bt_highest_2chain_timeout_cert t)
    (bt_highest_ordered_cert t) (bt_highest_commit_cert t) (delete id (bt_id_to_quorum_cert t))
    (set_id_to_block (delete id (bt_id_to_block t)) t).

Definition replace_2chain_timeout_cert (tc : TwoChainTimeoutCertificate) (t : BlockTree)
    : BlockTree :=
  set_certs (bt_highest_quorum_cert t) (Some tc) (bt_highest_ordered_cert t)
    (bt_highest_commit_cert t) (bt_id_to_quorum_cert t) t.

(** For a block that is already there, [checked_verify_eq!] panics unless the two
    pipelined blocks hold the same execution result.  The results live in cells
    that execution fills; [same_result] tells whether they agree at the call.  The
    final [assert!] of the source cannot fail: the id was just looked up. *)
Definition insert_block (same_result : bool) (block : Block) : M BlockTree Anyhow Block := λ t,
  let id := block_id block in
  let t := if negb (Block_is_nil_block block) then set_head id t else t in
  match get_block t id with
  | Some existing_block =>
      (if same_result then Ok existing_block else Panic "assertion failed: left == right", t)
  | None =>
      match get_linkable_block t (Block_parent_id block) with
      | Some parent_block =>
          match add_child id parent_block with
          | Ok parent_block =>
              (Ok block,
               set_id_to_block (<[id := LinkableBlock_new block]>
                 (<[Block_parent_id block := parent_block]> (bt_id_to_block t))) t)
          | Err e => (Err e, t)
          | Panic m => (Panic m, t)
          end
      | None =>
          if bool_decide (Block_parent_id block ≠ GENESIS_BLOCK_ID)
          then (Err (Msg "Parent block not found"), t)
          else (Ok block,
                set_id_to_block (<[id := LinkableBlock_new block]> (bt_id_to_block t)) t)
      end
  end.

Definition update_ordered_root (root_id : HashValue) : M BlockTree Anyhow unit := λ t,
  if block_exists t root_id
  then (Ok tt, set_roots root_id (bt_commit_root_id t) (bt_highest_certified_block_id t)
                 (bt_head_block_id t) (bt_safe_block_id t) (bt_finalized_block_id t) t)
  else (Panic "assertion failed: self.block_exists(&root_id)", t).

Definition update_commit_and_finalized_root (root_id : HashValue) : M BlockTree Anyhow unit := λ t,
  match get_block t root_id with
  | None => (Panic "assertion failed: self.block_exists(&root_id)", t)
  | Some block =>
      let finalized := if negb (Block_is_nil_block block) then root_id
                       else bt_finalized_block_id t in
      (Ok tt, set_roots (bt_ordered_root_id t) root_id (bt_highest_certified_block_id t)
                (bt_head_block_id t) (bt_safe_block_id t) finalized t)
  end.

Definition update_highest_commit_cert (new_commit_cert : WrappedLedgerInfo)
    : M BlockTree Anyhow unit := λ t,
  if bi_round (WrappedLedgerInfo_commit_info (bt_highest_commit_cert t))
     <? bi_round (WrappedLedgerInfo_commit_info new_commit_cert)
  then update_commit_and_finalized_root
         (bi_id (WrappedLedgerInfo_commit_info new_commit_cert))
         (set_certs (bt_highest_quorum_cert t) (bt_highest_2chain_timeout_cert t)
            (bt_highest_ordered_cert t) new_commit_cert (bt_id_to_quorum_cert t) t)
  else (Ok tt, t).

(** [entry(id).or_insert(qc)]. *)
Definition or_insert_cert (id : HashValue) (qc : QuorumCert) (m : gmap HashValue QuorumCert)
    : gmap HashValue QuorumCert :=
  match m !! id with Some _ => m | None => <[id := qc]> m end.

(** The [precondition!] on certificates of the same round is an annotation for a
    static analyser, without effect at run time. *)
Definition insert_quorum_cert (qc : QuorumCert) : M BlockTree Anyhow unit := λ t,
  let id := bi_id (certified_block qc) in
  match get_block t id with
  | None => (Err (Msg "Block not found"), t)
  | Some block =>
      match highest_certified_block t with
      | Panic m => (Panic m, t)
      | Err e => (Err e, t)
      | Ok highest =>
          let newer := Block_round highest <? Block_round block in
          let t := if newer
                   then set_roots (bt_ordered_root_id t) (bt_commit_root_id t) (block_id block)
                          (bt_head_block_id t)
                          (if negb (Block_is_nil_block block) then block_id block
                           else bt_safe_block_id t)
                          (bt_finalized_block_id t) t
                   else t in
          (Ok tt,
           set_certs (if newer then qc else bt_highest_quorum_cert t)
             (bt_highest_2chain_timeout_cert t)
             (if bi_round (WrappedLedgerInfo_commit_info (bt_highest_ordered_cert t))
                 <? bi_round (QuorumCert_commit_info qc)
              then into_wrapped_ledger_info qc else bt_highest_ordered_cert t)
             (bt_highest_commit_cert t)
             (or_insert_cert id qc (bt_id_to_quorum_cert t)) t)
      end
  end.

Definition insert_ordered_cert (ordered_cert : WrappedLedgerInfo) (t : BlockTree) : BlockTree :=
  if bi_round (WrappedLedgerInfo_commit_info (bt_highest_ordered_cert t))
     <? bi_round (WrappedLedgerInfo_commit_info ordered_cert)
  then set_certs (bt_highest_quorum_cert t) (bt_highest_2chain_timeout_cert t) ordered_cert
         (bt_highest_commit_cert t) (bt_id_to_quorum_cert t) t
  else t.

(** The children of a block that are not the new root, looked up; the iteration
    order of a [HashSet] is unspecified, [elements] is one. *)
Definition children_to_prune (t : BlockTree) (next_root_id : HashValue) (lb : LinkableBlock)
    : result Anyhow (list LinkableBlock) :=
  foldl (λ acc child_id,
           stack ← acc;
           if bool_decide (next_root_id = child_id) then Ok stack
           else c ← expect "Child must exist in the tree" (get_linkable_block t child_id);
                Ok (c :: stack))
    (Ok []) (elements (lb_children lb)).

(** The loop of [find_blocks_to_prune]; the stack has its top first.  [fuel]
    bounds the number of blocks visited, see [find_blocks_to_prune]. *)
Fixpoint prune_loop (fuel : nat) (t : BlockTree) (next_root_id : HashValue)
    (stack : list LinkableBlock) : result Anyhow (list (N * HashValue)) :=
  match stack with
  | [] => Ok []
  | lb :: stack =>
      match fuel with
      | O => Panic "out of fuel"
      | S fuel =>
          children ← children_to_prune t next_root_id lb;
          pruned ← prune_loop fuel t next_root_id (children ++ stack);
          Ok ((Block_epoch (lb_executed_block lb), block_id (lb_executed_block lb)) :: pruned)
      end
  end.

(** Each block is visited once, so the number of blocks in the tree is enough
    fuel ([prune_loop_spec]). *)
Definition find_blocks_to_prune (t : BlockTree) (next_root_id : HashValue)
    : result Anyhow (list (N * HashValue)) :=
  if bool_decide (next_root_id = bt_commit_root_id t) then Ok []
  else match get_block t next_root_id with
  | None => Ok []
  | Some next_root =>
      root ← commit_root t;
      if Block_round next_root <=? Block_round root then Ok []
      else
        lroot ← linkable_root t;
        prune_loop (size (bt_id_to_block t)) t next_root_id [lroot]
  end.

Definition process_pruned_blocks (newly_pruned_blocks : list (N * HashValue)) (t : BlockTree)
    : BlockTree :=
  let ids := bt_pruned_block_ids t ++ newly_pruned_blocks.*2 in
  let num_blocks_to_remove := (length ids - bt_max_pruned_blocks_in_mem t)%nat in
  foldl (λ t id, remove_block id t) (set_pruned (drop num_blocks_to_remove ids) t)
    (take num_blocks_to_remove ids).

(** The loop walks from the block to its ancestors; [fuel] bounds its steps. *)
Fixpoint path_loop (fuel : nat) (t : BlockTree) (cur_block_id : HashValue) (root_round : N)
    (res : list Block) : option (HashValue * list Block) :=
  match fuel with
  | O => None
  | S fuel =>
      match get_block t cur_block_id with
      | None => None
      | Some block =>
          if Block_round block <=? root_round then Some (cur_block_id, res)
          else path_loop fuel t (Block_parent_id block) root_round (block :: res)
      end
  end.

(** Rounds decrease along the walk, so one step per block of the tree, and one
    more to stop, is enough ([path_loop_spec]). *)
Definition path_from_root_to_block (t : BlockTree) (id root_id : HashValue) (root_round : N)
    : option (list Block) :=
  match path_loop (S (size (bt_id_to_block t))) t id root_round [] with
  | Some (cur, res) => if bool_decide (cur ≠ root_id) then None else Some res
  | None => None
  end.

Definition path_from_ordered_root (t : BlockTree) (id : HashValue)
    : result Anyhow (option (list Block)) :=
  root ← ordered_root t;
  Ok (path_from_root_to_block t id (bt_ordered_root_id t) (Block_round root)).

Definition path_from_commit_root (t : BlockTree) (id : HashValue)
    : result Anyhow (option (list Block)) :=
  root ← commit_root t;
  Ok (path_from_root_to_block t id (bt_commit_root_id t) (Block_round root)).

(** The counters and log lines of the source are not part of the state. *)
Definition commit_callback (blocks_to_commit : list Block) (finality_proof : WrappedLedgerInfo)
    (commit_decision : LedgerInfoWithSignatures) : M BlockTree Anyhow unit :=
  block_to_commit ← lift (expect "pipeline is empty" (last blocks_to_commit));
  root ← gets commit_root;
  if Block_round block_to_commit <=? Block_round root then mret tt
  else
    commit_proof ← lift
      (match WrappedLedgerInfo_create_merged_with_executed_state finality_proof commit_decision with
       | Ok p => Ok p
       | _ => Panic "Inconsistent commit proof and evaluation decision, cannot commit block"
       end);
    ids_to_remove ← gets (λ t, find_blocks_to_prune t (block_id block_to_commit));
    _ ← modify (process_pruned_blocks ids_to_remove);
    update_highest_commit_cert commit_proof.

(** ** Consistency of the tree *)

Implicit Types (t : BlockTree) (id : HashValue) (lb : LinkableBlock).

(** The round and parent of a block in the tree. *)
Definition lb_round lb : N := Block_round (lb_executed_block lb).
Definition lb_parent lb : HashValue := Block_parent_id (lb_executed_block lb).

(** Every block is stored under its id; child links lead to blocks of the tree
    that have the parent link back, and rounds grow along them. *)
Record links_ok (m : gmap HashValue LinkableBlock) : Prop := {
  lo_id id lb : m !! id = Some lb → block_id (lb_executed_block lb) = id;
  lo_child p lp c : m !! p = Some lp → c ∈ lb_children lp →
    ∃ lc, m !! c = Some lc ∧ lb_parent lc = p ∧ lb_round lp < lb_round lc;
  lo_below c lc lp : m !! c = Some lc → m !! lb_parent lc = Some lp → lb_round lp < lb_round lc;
}.

(** The other direction: for every parent link in the tree, a child link exists. *)
Definition parents_linked (m : gmap HashValue LinkableBlock) : Prop :=
  ∀ c lc lp, m !! c = Some lc → m !! lb_parent lc = Some lp → c ∈ lb_children lp.

(** A block that is new to the tree comes before its children. *)
Definition before_children (m : gmap HashValue LinkableBlock) (block : Block) : Prop :=
  m !! block_id block = None → ∀ c lc, m !! c = Some lc → lb_parent lc ≠ block_id block.

(** A block fits the rounds of the tree: above its parent, below its children. *)
Definition fits (m : gmap HashValue LinkableBlock) (block : Block) : Prop :=
  (∀ lp, m !! Block_parent_id block = Some lp → lb_round lp < Block_round block) ∧
  (∀ c lc, m !! c = Some lc → lb_parent lc = block_id block → Block_round block < lb_round lc).

(** [b] descends from [a] by child links. *)
Inductive desc (m : gmap HashValue LinkableBlock) (a : HashValue) : HashValue → Prop :=
| desc_refl : desc m a a
| desc_child p lp c : desc m a p → m !! p = Some lp → c ∈ lb_children lp → desc m a c.

(** ... without passing through [next]. *)
Inductive reach (m : gmap HashValue LinkableBlock) (a next : HashValue) : HashValue → Prop :=
| reach_refl : reach m a next a
| reach_child p lp c :
    reach m a next p → m !! p = Some lp → c ∈ lb_children lp → c ≠ next → reach m a next c.

(** The rounds along parent links after an insertion. *)
Lemma below_insert (m m' : gmap HashValue LinkableBlock) block :
  links_ok m → fits m block → Block_parent_id block ≠ block_id block →
  (∀ id lb, m' !! id = Some lb → id = block_id block ∧ lb_executed_block lb = block ∨
     ∃ lb0, m !! id = Some lb0 ∧ lb_executed_block lb = lb_executed_block lb0) →
  ∀ c lc lp, m' !! c = Some lc → m' !! lb_parent lc = Some lp → lb_round lp < lb_round lc.
Proof.
  intros Hok [Hf1 Hf2] Hne Hm' c lc lp Hc Hp. unfold lb_parent, lb_round in *.
  destruct (Hm' _ _ Hc) as [[-> Hlc]|(lc0 & Hc0 & Hlc)];
    destruct (Hm' _ _ Hp) as [[Hpe Hlp]|(lp0 & Hp0 & Hlp)]; rewrite Hlc, ?Hlp in *.
  - done.
  - by apply Hf1.
  - by eapply Hf2.
  - by eapply (lo_below _ Hok).
Qed.

(** Inserting a block above its parent keeps the links. *)
Lemma links_insert m block lp :
  links_ok m → fits m block → m !! block_id block = None →
  m !! Block_parent_id block = Some lp →
  links_ok (<[block_id block := LinkableBlock_new block]>
    (<[Block_parent_id block :=
       {| lb_executed_block := lb_executed_block lp;
          lb_children := {[block_id block]} ∪ lb_children lp |}]> m)).
Proof.
  intros Hok Hfit Hnew Hp. pose proof (proj1 Hfit lp Hp) as Hr. split.
  - intros id lb. rewrite !lookup_insert_Some.
    intros [[<- <-]|[_ [[<- <-]|[_ ?]]]]; [done| |by apply (lo_id _ Hok)].
    simpl. by apply (lo_id _ Hok).
  - intros p lp' c. rewrite !lookup_insert_Some.
    assert (Hold : ∀ q lq, m !! q = Some lq → c ∈ lb_children lq →
      ∃ lc, <[block_id block := LinkableBlock_new block]>
        (<[Block_parent_id block := {| lb_executed_block := lb_executed_block lp;
           lb_children := {[block_id block]} ∪ lb_children lp |}]> m) !! c = Some lc ∧
        lb_parent lc = q ∧ lb_round lq < lb_round lc).
    { intros q lq Hq Hc. destruct (lo_child _ Hok q lq c Hq Hc) as (lc & Hlc & Hpar & Hlt).
      rewrite lookup_insert_ne by congruence.
      destruct (decide (c = Block_parent_id block)) as [->|Hne].
      - rewrite lookup_insert_eq. eexists. split; [done|].
        assert (lc = lp) as -> by congruence. split; [exact Hpar|exact Hlt].
      - exists lc. by rewrite lookup_insert_ne by congruence. }
    intros [[<- <-]|[Hnp [[<- <-]|[Hnp' Hp']]]] Hc; simpl in Hc; [set_solver| |by eapply Hold].
    apply elem_of_union in Hc as [Hc|Hc]; [|exact (Hold _ _ Hp Hc)].
    apply elem_of_singleton in Hc as ->. exists (LinkableBlock_new block).
    by rewrite lookup_insert_eq.
  - apply (below_insert m _ block); [done|done|congruence|].
    intros id lb. rewrite !lookup_insert_Some.
    intros [[<- <-]|[_ [[<- <-]|[_ ?]]]]; [by left|right; by exists lp|right; by exists lb].
Qed.

Lemma links_insert_orphan m block :
  links_ok m → fits m block → m !! block_id block = None →
  m !! Block_parent_id block = None → Block_parent_id block ≠ block_id block →
  links_ok (<[block_id block := LinkableBlock_new block]> m).
Proof.
  intros Hok Hfit Hnew Hnp Hself. split.
  - intros id lb. rewrite lookup_insert_Some. intros [[<- <-]|[_ ?]]; [done|by apply (lo_id _ Hok)].
  - intros p lp c. rewrite lookup_insert_Some.
    intros [[<- <-]|[_ Hp]] Hc; simpl in Hc; [set_solver|].
    destruct (lo_child _ Hok p lp c Hp Hc) as (lc & Hlc & ?). exists lc.
    by rewrite lookup_insert_ne by congruence.
  - apply (below_insert m _ block); [done|done|done|].
    intros id lb. rewrite lookup_insert_Some. intros [[<- <-]|[_ ?]]; [by left|right; by exists lb].
Qed.

(** ** Pruning *)

Lemma desc_round m a b la :
  links_ok m → desc m a b → m !! a = Some la →
  ∃ lb, m !! b = Some lb ∧ lb_round la ≤ lb_round lb ∧ (a ≠ b → lb_round la < lb_round lb).
Proof.
  intros Hok Hd Ha. induction Hd as [|p lp c Hd IH Hp Hc].
  { exists la. repeat split; [done|lia|done]. }
  destruct IH as (lp' & Hp' & Hle & _). simplify_eq.
  destruct (lo_child _ Hok p lp c Hp Hc) as (lc & Hlc & _ & Hlt).
  exists lc. repeat split; [done|lia|lia].
Qed.

Lemma reach_desc m a next b : reach m a next b → desc m a b.
Proof. induction 1; [constructor|by eapply desc_child]. Qed.

(** What descends from the new root is not reached from the old one. *)
Lemma reach_not_desc m root next lr ln b :
  links_ok m → m !! root = Some lr → m !! next = Some ln → lb_round lr < lb_round ln →
  reach m root next b → ¬ desc m next b.
Proof.
  intros Hok Hr Hn Hlt Hreach. induction Hreach as [|p lp c Hreach IH Hp Hc Hne]; intros Hd.
  - destruct (desc_round _ _ _ _ Hok Hd Hn) as (lr' & Hr' & Hle & _). simplify_eq. lia.
  - destruct (lo_child _ Hok p lp c Hp Hc) as (lc & Hlc & Hpar & _).
    inversion Hd as [|p' lp' c' Hd' Hp' Hc']; subst; [done|].
    destruct (lo_child _ Hok p' lp' c Hp' Hc') as (lc' & Hlc' & Hpar' & _). simplify_eq; auto.
Qed.

(** The children pushed for one block. *)
Lemma children_to_prune_Ok t next lb :
  links_ok (bt_id_to_block t) → bt_id_to_block t !! block_id (lb_executed_block lb) = Some lb →
  ∃ cs, children_to_prune t next lb = Ok cs ∧
    NoDup (block_id ∘ lb_executed_block <$> cs) ∧
    (∀ c, c ∈ cs → bt_id_to_block t !! block_id (lb_executed_block c) = Some c) ∧
    ∀ id, id ∈ (block_id ∘ lb_executed_block <$> cs) ↔ id ∈ lb_children lb ∧ id ≠ next.
Proof.
  intros Hok Hlb. unfold children_to_prune.
  assert (Hgen : ∀ l acc, NoDup (l ++ (block_id ∘ lb_executed_block <$> acc)) →
    (∀ id, id ∈ l → id ∈ lb_children lb) →
    (∀ c, c ∈ acc → bt_id_to_block t !! block_id (lb_executed_block c) = Some c) →
    ∃ cs, foldl (λ acc child_id, stack ← acc;
        if bool_decide (next = child_id) then Ok stack
        else c ← expect "Child must exist in the tree" (get_linkable_block t child_id);
             Ok (c :: stack)) (Ok acc : result Anyhow _) l = Ok cs ∧
      NoDup (block_id ∘ lb_executed_block <$> cs) ∧
      (∀ c, c ∈ cs → bt_id_to_block t !! block_id (lb_executed_block c) = Some c) ∧
      ∀ id, id ∈ (block_id ∘ lb_executed_block <$> cs) ↔
        id ∈ (block_id ∘ lb_executed_block <$> acc) ∨ id ∈ l ∧ id ≠ next).
  { induction l as [|x l IH]; intros acc Hnd Hl Hacc; simpl.
    { exists acc. split; [done|]. split; [done|]. split; [done|]. set_solver. }
    case_bool_decide as Hx.
    - subst x. destruct (IH acc) as (cs & ? & ? & ? & Hiff).
      + simpl in Hnd. by apply NoDup_cons in Hnd as [_ ?].
      + set_solver.
      + done.
      + exists cs. split; [done|]. split; [done|]. split; [done|].
        intros id. rewrite Hiff. set_solver.
    - destruct (lo_child _ Hok _ _ x Hlb) as (lx & Hlx & _); [set_solver|].
      unfold get_linkable_block. rewrite Hlx. simpl.
      pose proof (lo_id _ Hok _ _ Hlx) as Hidx.
      destruct (IH (lx :: acc)) as (cs & ? & ? & ? & Hiff).
      + simpl in *. rewrite Hidx. rewrite <- Permutation_middle. done.
      + set_solver.
      + intros c [->|Hc]%elem_of_cons; [by rewrite Hidx|by apply Hacc].
      + exists cs. split; [done|]. split; [done|]. split; [done|].
        intros id. rewrite Hiff. simpl. rewrite Hidx. set_solver. }
  destruct (Hgen (elements (lb_children lb)) []) as (cs & ? & ? & ? & Hiff).
  - simpl. rewrite app_nil_r. apply NoDup_elements.
  - set_solver.
  - set_solver.
  - exists cs. split; [done|]. split; [done|]. split; [done|]. intros id. rewrite Hiff. set_solver.
Qed.

(** Each entry after the first has its parent among the earlier ones. *)
Definition parents_before (m : gmap HashValue LinkableBlock) (root : HashValue)
    (l : list HashValue) : Prop :=
  ∀ l1 c l2, l = l1 ++ c :: l2 →
    c = root ∨ ∃ lc, m !! c = Some lc ∧ lb_parent lc ∈ l1.

(** The state of the pruning loop: [V] has been visited, [stack] is pending. *)
Record worklist t (root next : HashValue) (V : list HashValue) (stack : list LinkableBlock)
    : Prop := {
  wl_nodup : NoDup (V ++ (block_id ∘ lb_executed_block <$> stack));
  wl_stack lb : lb ∈ stack → bt_id_to_block t !! block_id (lb_executed_block lb) = Some lb;
  wl_reach id : id ∈ V ++ (block_id ∘ lb_executed_block <$> stack) →
    reach (bt_id_to_block t) root next id ∧
    (id = root ∨ ∃ lc, bt_id_to_block t !! id = Some lc ∧ lb_parent lc ∈ V);
  wl_closed p lp c : p ∈ V → bt_id_to_block t !! p = Some lp → c ∈ lb_children lp →
    c = next ∨ c ∈ V ++ (block_id ∘ lb_executed_block <$> stack);
  wl_order : parents_before (bt_id_to_block t) root V;
}.

Lemma reach_lookup m root next b :
  links_ok m → is_Some (m !! root) → reach m root next b → is_Some (m !! b).
Proof.
  intros Hok Hr Hb. induction Hb as [|p lp c Hb IH Hp Hc Hne]; [done|].
  destruct (lo_child _ Hok p lp c Hp Hc) as (lc & Hlc & _). by exists lc.
Qed.

(** Visiting the top of the stack. *)
Lemma worklist_step t root next V lb stack cs lr :
  links_ok (bt_id_to_block t) → bt_id_to_block t !! root = Some lr →
  worklist t root next V (lb :: stack) →
  NoDup (block_id ∘ lb_executed_block <$> cs) →
  (∀ c, c ∈ cs → bt_id_to_block t !! block_id (lb_executed_block c) = Some c) →
  (∀ id, id ∈ (block_id ∘ lb_executed_block <$> cs) ↔ id ∈ lb_children lb ∧ id ≠ next) →
  worklist t root next (V ++ [block_id (lb_executed_block lb)]) (cs ++ stack).
Proof.
  intros Hok Hroot [Hnd Hst Hre Hcl Hor] Hcnd Hcst Hciff.
  set (x := block_id (lb_executed_block lb)) in *.
  assert (Hx : bt_id_to_block t !! x = Some lb) by (apply Hst; set_solver).
  simpl in Hnd, Hre, Hcl. fold x in Hnd, Hre, Hcl.
  assert (Hxreach : reach (bt_id_to_block t) root next x) by (apply Hre; set_solver).
  assert (HxV : x ∉ V).
  { intros HV. apply NoDup_app in Hnd as (_ & Hd & _). apply (Hd x HV). set_solver. }
  assert (Hfresh : ∀ c, c ∈ (block_id ∘ lb_executed_block <$> cs) →
    c ∉ V ++ x :: (block_id ∘ lb_executed_block <$> stack)).
  { intros c [Hc Hcn]%Hciff Hin. destruct (lo_child _ Hok x lb c Hx Hc) as (lc & Hlc & Hpar & Hlt).
    destruct (Hre c Hin) as [_ [->|(lc' & Hlc' & HpV)]].
    - destruct (desc_round _ _ _ _ Hok (reach_desc _ _ _ _ Hxreach) Hroot) as (lx & Hlx & Hle & _).
      simplify_eq. lia.
    - assert (lc' = lc) as -> by congruence. by rewrite Hpar in HpV. }
  split.
  - rewrite fmap_app, Permutation_app_swap_app, <- (app_assoc V). by apply NoDup_app.
  - intros c [?|?]%elem_of_app; [by apply Hcst|apply Hst; set_solver].
  - intros id. rewrite fmap_app, !elem_of_app. intros [[Hid|Hid]|[Hid|Hid]].
    + destruct (Hre id) as [? [?|(lc & ? & ?)]]; [set_solver|auto|].
      split; [done|]. right. exists lc. set_solver.
    + apply list_elem_of_singleton in Hid as ->.
      destruct (Hre x) as [? [?|(lc & ? & ?)]]; [set_solver|auto|].
      split; [done|]. right. exists lc. set_solver.
    + apply Hciff in Hid as [Hc Hcn]. split; [by eapply reach_child|].
      destruct (lo_child _ Hok x lb id Hx Hc) as (lc & Hlc & Hpar & _).
      right. exists lc. split; [done|]. set_solver.
    + destruct (Hre id) as [? [?|(lc & ? & ?)]]; [set_solver|auto|].
      split; [done|]. right. exists lc. set_solver.
  - intros p lp c Hp Hlp Hc. apply elem_of_app in Hp as [Hp|Hp].
    + destruct (Hcl p lp c Hp Hlp Hc) as [?|Hin]; [by left|right].
      rewrite fmap_app. set_solver.
    + apply list_elem_of_singleton in Hp as ->. assert (lp = lb) as -> by congruence.
      destruct (decide (c = next)); [by left|right]. rewrite fmap_app.
      apply elem_of_app. right. apply elem_of_app. left. by apply Hciff.
  - intros l1 c l2 Heq. destruct l2 as [|y l2 _] using rev_ind.
    + apply app_inj_2 in Heq as [-> [= ->]]; [|done].
      destruct (Hre c) as [_ [?|?]]; [set_solver|by left|by right].
    + rewrite app_comm_cons, app_assoc in Heq. apply app_inj_2 in Heq as [Heq _]; [|done].
      by apply (Hor l1 c l2).
Qed.

Lemma prune_loop_spec fuel t root next V stack lr :
  links_ok (bt_id_to_block t) → bt_id_to_block t !! root = Some lr →
  worklist t root next V stack → (size (bt_id_to_block t) ≤ length V + fuel)%nat →
  ∃ L, prune_loop fuel t next stack = Ok L ∧ worklist t root next (V ++ L.*2) [].
Proof.
  intros Hok Hroot. revert V stack. induction fuel as [|fuel IH]; intros V stack Hwl Hfuel.
  - destruct stack as [|lb stack].
    { exists []. split; [done|]. by rewrite app_nil_r. }
    exfalso. assert (Hsub : NoDup (V ++ [block_id (lb_executed_block lb)])).
    { destruct Hwl as [Hnd _ _ _ _]. simpl in Hnd.
      rewrite cons_middle, app_assoc in Hnd. by apply NoDup_app in Hnd as [? _]. }
    assert (Hdom : ∀ id, id ∈ V ++ [block_id (lb_executed_block lb)] →
      id ∈ dom (bt_id_to_block t)).
    { intros id Hid. apply elem_of_dom. eapply reach_lookup; [done|by exists lr|].
      apply (wl_reach _ _ _ _ _ Hwl). simpl. set_solver. }
    assert (Hle : (size (list_to_set (V ++ [block_id (lb_executed_block lb)]) : gset HashValue)
      ≤ size (dom (bt_id_to_block t)))%nat).
    { apply subseteq_size. intros id Hid%elem_of_list_to_set. by apply Hdom. }
    rewrite size_list_to_set, size_dom, length_app in Hle by done. simpl in Hle. lia.
  - destruct stack as [|lb stack]; simpl.
    { exists []. split; [done|]. by rewrite app_nil_r. }
    destruct (children_to_prune_Ok t next lb Hok) as (cs & Hcs & Hnd & Hst & Hiff).
    { apply (wl_stack _ _ _ _ _ Hwl). set_solver. }
    rewrite Hcs. simpl.
    destruct (IH (V ++ [block_id (lb_executed_block lb)]) (cs ++ stack)) as (L & HL & Hwl').
    + by eapply worklist_step.
    + rewrite length_app. simpl. lia.
    + rewrite HL. simpl. eexists. split; [done|]. simpl. by rewrite <- app_assoc in Hwl'.
Qed.

Lemma prune_loop_head fuel t next lb stack L :
  prune_loop fuel t next (lb :: stack) = Ok L → block_id (lb_executed_block lb) ∈ L.*2.
Proof. intros H. destruct fuel; simpl in H; run_inv. simpl. left. Qed.

(** The blocks found are those reached from the commit root without passing the
    new root, each once, every one after its parent. *)
Lemma find_blocks_to_prune_spec t next lr ln :
  links_ok (bt_id_to_block t) → bt_id_to_block t !! bt_commit_root_id t = Some lr →
  bt_id_to_block t !! next = Some ln → lb_round lr < lb_round ln →
  ∃ L, find_blocks_to_prune t next = Ok L ∧ NoDup L.*2 ∧
    parents_before (bt_id_to_block t) (bt_commit_root_id t) L.*2 ∧
    ∀ id, id ∈ L.*2 ↔ reach (bt_id_to_block t) (bt_commit_root_id t) next id.
Proof.
  intros Hok Hr Hn Hlt. set (root := bt_commit_root_id t) in *.
  assert (Hid : block_id (lb_executed_block lr) = root) by by apply (lo_id _ Hok).
  unfold find_blocks_to_prune. rewrite bool_decide_eq_false_2 by (intros ->; simplify_eq; lia).
  unfold get_block, commit_root, linkable_root, get_block, get_linkable_block.
  fold root. rewrite Hn, Hr. simpl.
  unfold lb_round in Hlt. rewrite (proj2 (N.leb_gt _ _) Hlt).
  destruct (prune_loop_spec (size (bt_id_to_block t)) t root next [] [lr] lr)
    as (L & HL & [Hnd _ Hre Hcl Hor]); [done|done| |simpl; lia|].
  { split; simpl; rewrite ?Hid; try set_solver.
    - apply NoDup_singleton.
    - intros lb ->%list_elem_of_singleton. by rewrite Hid.
    - intros id ->%list_elem_of_singleton. split; [constructor|by left].
    - intros l1 c l2 Heq. by destruct l1. }
  exists L. simpl in *. rewrite app_nil_r in *. split; [done|]. split; [done|]. split; [done|].
  intros id. split; [intros Hin; by apply Hre|].
  induction 1 as [|p lp c Hp IH Hlp Hc Hne].
  - rewrite <- Hid. by eapply prune_loop_head.
  - by destruct (Hcl p lp c IH Hlp Hc).
Qed.

(** ** The invariant of the tree *)

Record tree_ok t : Prop := {
  to_links : links_ok (bt_id_to_block t);
  to_root : ∃ lr, bt_id_to_block t !! bt_commit_root_id t = Some lr ∧
    bi_round (WrappedLedgerInfo_commit_info (bt_highest_commit_cert t)) ≤ lb_round lr;
  to_order l1 c l2 p lp : bt_pruned_block_ids t = l1 ++ c :: l2 →
    bt_id_to_block t !! p = Some lp → c ∈ lb_children lp → p ∈ l1;
  to_active id : id ∈ bt_pruned_block_ids t →
    ¬ desc (bt_id_to_block t) (bt_commit_root_id t) id;
  to_root_parent p lp : bt_id_to_block t !! p = Some lp →
    bt_commit_root_id t ∈ lb_children lp → p ∈ bt_pruned_block_ids t;
  to_pruned : NoDup (bt_pruned_block_ids t) ∧
    ∀ id, id ∈ bt_pruned_block_ids t → is_Some (bt_id_to_block t !! id);
  to_bound : (length (bt_pruned_block_ids t) ≤ bt_max_pruned_blocks_in_mem t)%nat;
}.

Lemma remove_blocks_lookup l t id :
  bt_id_to_block (foldl (λ t id, remove_block id t) t l) !! id
  = if bool_decide (id ∈ l) then None else bt_id_to_block t !! id.
Proof.
  revert t. induction l as [|x l IH]; intros t.
  { by rewrite bool_decide_eq_false_2 by apply not_elem_of_nil. }
  cbn [foldl]. rewrite IH. cbn [bt_id_to_block remove_block set_certs set_id_to_block].
  case_bool_decide as H.
  { by rewrite bool_decide_eq_true_2 by set_solver. }
  destruct (decide (id = x)) as [->|Hne].
  - rewrite lookup_delete_eq. by rewrite bool_decide_eq_true_2 by set_solver.
  - rewrite lookup_delete_ne by done. by rewrite bool_decide_eq_false_2 by set_solver.
Qed.

(** Removing blocks touches neither the roots, the certificates in force nor the
    list of pruned ids. *)
Lemma remove_blocks_fields l t :
  let t' := foldl (λ t id, remove_block id t) t l in
  bt_commit_root_id t' = bt_commit_root_id t ∧
  bt_highest_commit_cert t' = bt_highest_commit_cert t ∧
  bt_pruned_block_ids t' = bt_pruned_block_ids t ∧
  bt_max_pruned_blocks_in_mem t' = bt_max_pruned_blocks_in_mem t.
Proof.
  revert t. induction l as [|x l IH]; intros t; simpl; [done|].
  destruct (IH (remove_block x t)) as (-> & -> & -> & ->). done.
Qed.

Lemma desc_trans m a b c : desc m a b → desc m b c → desc m a c.
Proof. intros H1 H2. induction H2; [done|by eapply desc_child]. Qed.

Lemma desc_reach m root next b : desc m root b → reach m root next b ∨ desc m next b.
Proof.
  induction 1 as [|p lp c Hd IH Hp Hc]; [left; constructor|].
  destruct IH as [IH|IH]; [|right; by eapply desc_child].
  destruct (decide (c = next)) as [->|Hne]; [right; constructor|left; by eapply reach_child].
Qed.

(** Pruning to a descendant of the commit root, before the root is moved. *)
Section prune.
Context (t : BlockTree) (next : HashValue) (L : list (N * HashValue)) (lr ln : LinkableBlock).
Context (Hok : tree_ok t) (Hdesc : desc (bt_id_to_block t) (bt_commit_root_id t) next).
Context (Hr : bt_id_to_block t !! bt_commit_root_id t = Some lr).
Context (Hn : bt_id_to_block t !! next = Some ln) (Hlt : lb_round lr < lb_round ln).
Context (Horder : parents_before (bt_id_to_block t) (bt_commit_root_id t) L.*2).
Context (HL : ∀ id, id ∈ L.*2 ↔ reach (bt_id_to_block t) (bt_commit_root_id t) next id).

Let ids := bt_pruned_block_ids t ++ L.*2.
Let n := (length ids - bt_max_pruned_blocks_in_mem t)%nat.
Let m := bt_id_to_block t.
Let m' := bt_id_to_block (process_pruned_blocks L t).

Lemma pruned_lookup id lb : m' !! id = Some lb ↔ (id ∉ take n ids) ∧ m !! id = Some lb.
Proof.
  unfold m', process_pruned_blocks. rewrite remove_blocks_lookup. simpl. fold ids n.
  case_bool_decide as H; split; [done|by intros [? _]|done|by intros [_ ?]].
Qed.

Lemma pruned_ids : bt_pruned_block_ids (process_pruned_blocks L t) = drop n ids.
Proof.
  unfold process_pruned_blocks. fold ids n.
  by destruct (remove_blocks_fields (take n ids) (set_pruned (drop n ids) t)) as (_ & _ & -> & _).
Qed.

(** Every parent in the tree of an id to remove comes before it. *)
Lemma ids_order l1 c l2 p lp :
  ids = l1 ++ c :: l2 → m !! p = Some lp → c ∈ lb_children lp → p ∈ l1.
Proof.
  intros Heq Hp Hc. unfold ids in Heq.
  apply app_eq_inv in Heq as [(k & Heq1 & Heq2)|(k & Heq1 & Heq2)].
  - destruct k as [|x k]; simpl in Heq2.
    + rewrite app_nil_r in Heq1. subst l1.
      destruct (Horder [] c l2 (eq_sym Heq2)) as [->|(lc & _ & Hpar)];
        [by eapply (to_root_parent _ Hok)|by apply not_elem_of_nil in Hpar].
    + injection Heq2 as <- ->. by eapply (to_order _ Hok).
  - rewrite Heq1. apply elem_of_app.
    destruct (Horder k c l2 Heq2) as [->|(lc & Hlc & Hpar)].
    + left. by eapply (to_root_parent _ Hok).
    + right. destruct (lo_child _ (to_links _ Hok) p lp c Hp Hc) as (lc' & Hlc' & <- & _).
      by simplify_eq.
Qed.

Lemma removed_parent c p lp :
  c ∈ take n ids → m !! p = Some lp → c ∈ lb_children lp → p ∈ take n ids.
Proof.
  intros (a & b & Hab)%list_elem_of_split Hp Hc.
  assert (Hids : ids = a ++ c :: (b ++ drop n ids)).
  { rewrite <- (take_drop n ids) at 1. by rewrite Hab, <- app_assoc. }
  pose proof (ids_order _ _ _ _ _ Hids Hp Hc). rewrite Hab. set_solver.
Qed.

Lemma pruned_links : links_ok m'.
Proof.
  split.
  - intros id lb [_ H]%pruned_lookup. by apply (lo_id _ (to_links _ Hok)).
  - intros p lp c [Hnp Hp]%pruned_lookup Hc.
    destruct (lo_child _ (to_links _ Hok) p lp c Hp Hc) as (lc & Hlc & ?).
    exists lc. rewrite pruned_lookup. split; [|done]. split; [|done].
    intros Hin. apply Hnp. by eapply removed_parent.
  - intros c lc lp [_ Hc]%pruned_lookup [_ Hp]%pruned_lookup.
    by eapply (lo_below _ (to_links _ Hok)).
Qed.

(** Nothing below the new root is pruned. *)
Lemma desc_next_not_ids id : desc m next id → id ∉ ids.
Proof.
  intros Hd [Hin|Hin]%elem_of_app.
  - apply (to_active _ Hok id Hin). by eapply desc_trans.
  - apply HL in Hin. exact (reach_not_desc _ _ _ _ _ _ (to_links _ Hok) Hr Hn Hlt Hin Hd).
Qed.

Lemma desc_pruned a b : desc m' a b → desc m a b.
Proof.
  induction 1 as [|p lp c Hd IH Hp Hc]; [constructor|].
  apply pruned_lookup in Hp as [_ Hp]. by eapply desc_child.
Qed.

Lemma next_kept : m' !! next = Some ln.
Proof.
  apply pruned_lookup. split; [|done]. intros Hin.
  apply (desc_next_not_ids next); [constructor|]. rewrite <- (take_drop n ids). set_solver.
Qed.

(** The parent of the new root is among the pruned ids. *)
Lemma next_parent_pruned p lp : m !! p = Some lp → next ∈ lb_children lp → p ∈ ids.
Proof.
  intros Hp Hc. apply elem_of_app. right. apply HL.
  pose proof (to_links _ Hok) as Hlinks.
  inversion Hdesc as [Heq|q lq c Hd Hq Hqc]; subst; [simplify_eq; lia|].
  destruct (lo_child _ Hlinks p lp next Hp Hc) as (l1 & H1 & Hpar1 & _).
  destruct (lo_child _ Hlinks q lq next Hq Hqc) as (l2 & H2 & Hpar2 & Hltq).
  assert (q = p) as -> by congruence.
  destruct (desc_reach _ _ next _ Hd) as [?|Hd']; [done|]. exfalso.
  destruct (desc_round _ _ _ _ Hlinks Hd' Hn) as (lp' & Hp' & Hle & _).
  simplify_eq. lia.
Qed.

End prune.

(** The tree after the root has moved to [next]. *)
Lemma prune_tree_ok t next L lr ln (t' : BlockTree) :
  tree_ok t → desc (bt_id_to_block t) (bt_commit_root_id t) next →
  bt_id_to_block t !! bt_commit_root_id t = Some lr →
  bt_id_to_block t !! next = Some ln → lb_round lr < lb_round ln →
  find_blocks_to_prune t next = Ok L →
  bt_id_to_block t' = bt_id_to_block (process_pruned_blocks L t) →
  bt_pruned_block_ids t' = bt_pruned_block_ids (process_pruned_blocks L t) →
  bt_max_pruned_blocks_in_mem t' = bt_max_pruned_blocks_in_mem t →
  bt_commit_root_id t' = next →
  bi_round (WrappedLedgerInfo_commit_info (bt_highest_commit_cert t')) ≤ lb_round ln →
  tree_ok t' ∧ (∀ id lb, desc (bt_id_to_block t) next id →
    bt_id_to_block t !! id = Some lb → bt_id_to_block t' !! id = Some lb).
Proof.
  intros Hok Hd Hr Hn Hlt HL Hm Hp Hmax Hroot Hcert.
  destruct (find_blocks_to_prune_spec t next lr ln (to_links _ Hok) Hr Hn Hlt)
    as (L' & HL' & HLnd & Horder & Hreach). rewrite HL in HL'. injection HL' as <-.
  rewrite pruned_ids in Hp. rename Hp into Hpr.
  set (ids := bt_pruned_block_ids t ++ L.*2) in *.
  set (k := (length ids - bt_max_pruned_blocks_in_mem t)%nat) in *.
  assert (Hlook := pruned_lookup t L). fold ids k in Hlook. rewrite <- Hm in Hlook.
  assert (Hdrop : ∀ x, x ∈ ids → x ∉ take k ids → x ∈ drop k ids).
  { intros x Hx Hnx. rewrite <- (take_drop k ids) in Hx. set_solver. }
  split; [split|].
  - rewrite Hm. by eapply pruned_links.
  - rewrite Hroot, Hm. exists ln. split; [by eapply next_kept|done].
  - intros l1 c l2 p lp Heq [Hnp Hlp]%Hlook Hc. rewrite Hpr in Heq.
    assert (Hids : ids = (take k ids ++ l1) ++ c :: l2).
    { rewrite <- app_assoc, <- Heq. by rewrite take_drop. }
    assert (p ∈ take k ids ++ l1) by by eapply ids_order. set_solver.
  - intros id Hid Hdid. rewrite Hroot, Hm in Hdid. rewrite Hpr in Hid.
    eapply (desc_next_not_ids t next L lr ln); try done; [by eapply desc_pruned|].
    fold ids. rewrite <- (take_drop k ids). set_solver.
  - intros p lp [Hnp Hlp]%Hlook Hc. rewrite Hroot in Hc. rewrite Hpr. apply Hdrop; [|done].
    by eapply (next_parent_pruned t next L lr ln).
  - destruct (to_pruned _ Hok) as [Hnd Hin].
    assert (Hidsnd : NoDup (take k ids ++ drop k ids)).
    { rewrite take_drop. apply NoDup_app. split; [done|]. split; [|done].
      intros x Hx HxL%Hreach%reach_desc. by apply (to_active _ Hok x). }
    apply NoDup_app in Hidsnd as (_ & Hdisj & Hdnd). rewrite Hpr. split; [done|].
    intros id Hid. assert (is_Some (bt_id_to_block t !! id)) as [lb Hlb].
    { assert (id ∈ ids) as [?|HidL]%elem_of_app by (rewrite <- (take_drop k ids); set_solver).
      - by apply Hin.
      - eapply reach_lookup; [apply (to_links _ Hok)|by exists lr|by apply Hreach]. }
    exists lb. apply Hlook. split; [|done]. intros Ht. by apply (Hdisj id).
  - rewrite Hpr, Hmax, length_drop. lia.
  - intros id lb Hdid Hlb. apply Hlook. split; [|done]. intros Hin.
    eapply (desc_next_not_ids t next L lr ln); try done.
    fold ids. rewrite <- (take_drop k ids). set_solver.
Qed.

(** The pruning search terminates without a panic and lists, each exactly once, the
    blocks reachable from the commit root through child links without entering the
    next root; no descendant of the next root is listed. *)
Theorem find_blocks_to_prune_exact t next lr ln :
  tree_ok t → bt_id_to_block t !! bt_commit_root_id t = Some lr →
  bt_id_to_block t !! next = Some ln → lb_round lr < lb_round ln →
  ∃ L, find_blocks_to_prune t next = Ok L ∧ NoDup L.*2 ∧
    (∀ id, id ∈ L.*2 ↔ reach (bt_id_to_block t) (bt_commit_root_id t) next id) ∧
    (∀ id, desc (bt_id_to_block t) next id → id ∉ L.*2).
Proof.
  intros Hok Hr Hn Hlt.
  destruct (find_blocks_to_prune_spec t next lr ln (to_links _ Hok) Hr Hn Hlt)
    as (L & HL & Hnd & _ & Hiff).
  exists L. split; [done|]. split; [done|]. split; [done|]. intros id Hd Hin%Hiff.
  exact (reach_not_desc _ _ _ _ _ _ (to_links _ Hok) Hr Hn Hlt Hin Hd).
Qed.

(** A commit that is not stale prunes, then moves the root. *)
Lemma commit_callback_fresh t blocks proof decision b lr commit_proof L :
  bt_id_to_block t !! bt_commit_root_id t = Some lr → last blocks = Some b →
  lb_round lr < Block_round b →
  WrappedLedgerInfo_create_merged_with_executed_state proof decision = Ok commit_proof →
  find_blocks_to_prune t (block_id b) = Ok L →
  commit_callback blocks proof decision t
  = update_highest_commit_cert commit_proof (process_pruned_blocks L t).
Proof.
  intros Hr Hlast Hlt Hproof HL. unfold commit_callback. rewrite Hlast.
  unfold mbind, M_bind, lift, gets. simpl. unfold commit_root, get_block, get_linkable_block.
  rewrite Hr. simpl. fold (lb_round lr). rewrite (proj2 (N.leb_gt _ _) Hlt), Hproof. simpl.
  rewrite HL. done.
Qed.

Lemma process_pruned_fields L t :
  bt_highest_commit_cert (process_pruned_blocks L t) = bt_highest_commit_cert t ∧
  bt_max_pruned_blocks_in_mem (process_pruned_blocks L t) = bt_max_pruned_blocks_in_mem t.
Proof.
  unfold process_pruned_blocks.
  match goal with |- context [foldl _ ?t0 ?l] =>
    destruct (remove_blocks_fields l t0) as (_ & -> & _ & ->) end. done.
Qed.

(** What a newer commit certificate does to a tree that holds its block. *)
Lemma update_highest_commit_cert_Ok t p ln :
  bt_id_to_block t !! bi_id (WrappedLedgerInfo_commit_info p) = Some ln →
  bi_round (WrappedLedgerInfo_commit_info (bt_highest_commit_cert t))
    < bi_round (WrappedLedgerInfo_commit_info p) →
  ∃ t', update_highest_commit_cert p t = (Ok tt, t') ∧
    bt_id_to_block t' = bt_id_to_block t ∧ bt_pruned_block_ids t' = bt_pruned_block_ids t ∧
    bt_max_pruned_blocks_in_mem t' = bt_max_pruned_blocks_in_mem t ∧
    bt_commit_root_id t' = bi_id (WrappedLedgerInfo_commit_info p) ∧
    bt_highest_commit_cert t' = p.
Proof.
  intros Hn Hlt. unfold update_highest_commit_cert. rewrite (proj2 (N.ltb_lt _ _) Hlt).
  unfold update_commit_and_finalized_root, get_block, get_linkable_block. simpl.
  rewrite Hn. simpl. eexists. by split.
Qed.

Lemma commit_callback_run t blocks proof decision b lr commit_proof :
  tree_ok t → bt_id_to_block t !! bt_commit_root_id t = Some lr →
  last blocks = Some b → get_block t (block_id b) = Some b →
  desc (bt_id_to_block t) (bt_commit_root_id t) (block_id b) → lb_round lr < Block_round b →
  WrappedLedgerInfo_create_merged_with_executed_state proof decision = Ok commit_proof →
  bi_id (WrappedLedgerInfo_commit_info commit_proof) = block_id b →
  bi_round (WrappedLedgerInfo_commit_info commit_proof) = Block_round b →
  ∃ t', commit_callback blocks proof decision t = (Ok tt, t') ∧ tree_ok t' ∧
    bt_commit_root_id t' = block_id b ∧
    (∀ id lb, desc (bt_id_to_block t) (block_id b) id → bt_id_to_block t !! id = Some lb →
       bt_id_to_block t' !! id = Some lb).
Proof.
  intros Hok Hr Hlast Hb Hd Hlt Hproof Hid Hround.
  apply fmap_Some in Hb as (ln & Hn & Heq). rewrite Heq in *.
  destruct (find_blocks_to_prune_spec t _ lr ln (to_links _ Hok) Hr Hn Hlt)
    as (L & HL & _ & Hord & Hiff).
  rewrite (commit_callback_fresh t blocks proof decision _ lr commit_proof L) by done.
  destruct (process_pruned_fields L t) as [Hcert Hmax].
  destruct (update_highest_commit_cert_Ok (process_pruned_blocks L t) commit_proof ln)
    as (t' & -> & Hm & Hpr & Hmax' & Hroot & Hc).
  - rewrite Hid. by eapply (next_kept t _ L lr ln).
  - rewrite Hcert, Hround. destruct (to_root _ Hok) as (lr' & Hr' & Hle).
    assert (lr' = lr) as -> by congruence. lia.
  - exists t'. split; [done|]. rewrite Hid in Hroot.
    destruct (prune_tree_ok t (block_id (lb_executed_block ln)) L lr ln t') as [Htree Hkeep];
      try done; [congruence|by rewrite Hc, Hround].
Qed.

(** A stale commit changes nothing; neither does one whose proof does not match. *)
Lemma commit_callback_old t blocks proof decision b lr :
  bt_id_to_block t !! bt_commit_root_id t = Some lr → last blocks = Some b →
  Block_round b ≤ lb_round lr → commit_callback blocks proof decision t = (Ok tt, t).
Proof.
  intros Hr Hlast Hle. unfold commit_callback. rewrite Hlast.
  unfold mbind, M_bind, lift, gets. simpl. unfold commit_root, get_block, get_linkable_block.
  rewrite Hr. simpl. fold (lb_round lr). by rewrite (proj2 (N.leb_le _ _) Hle).
Qed.

Lemma commit_callback_no_proof t blocks proof decision b lr :
  bt_id_to_block t !! bt_commit_root_id t = Some lr → last blocks = Some b →
  lb_round lr < Block_round b →
  (∀ p, WrappedLedgerInfo_create_merged_with_executed_state proof decision ≠ Ok p) →
  commit_callback blocks proof decision t
  = (Panic "Inconsistent commit proof and evaluation decision, cannot commit block", t).
Proof.
  intros Hr Hlast Hlt Hm. unfold commit_callback. rewrite Hlast.
  unfold mbind, M_bind, lift, gets. simpl. unfold commit_root, get_block, get_linkable_block.
  rewrite Hr. simpl. fold (lb_round lr). rewrite (proj2 (N.leb_gt _ _) Hlt). simpl.
  destruct (WrappedLedgerInfo_create_merged_with_executed_state proof decision); [|done..].
  by destruct (Hm a).
Qed.

(** ** Insertion *)

(** What insertion does to the map of blocks: the new block without children, its
    parent with one child more, the others as they were. *)
Definition inserted (m m' : gmap HashValue LinkableBlock) (block : Block) : Prop :=
  ∀ id lb, m' !! id = Some lb ↔
    id = block_id block ∧ lb = LinkableBlock_new block ∨
    id ≠ block_id block ∧ ∃ lb0, m !! id = Some lb0 ∧
      lb_executed_block lb = lb_executed_block lb0 ∧
      lb_children lb = if bool_decide (id = Block_parent_id block)
                       then {[block_id block]} ∪ lb_children lb0 else lb_children lb0.

(** Descending in the larger tree to an old block is descending in the old one. *)
Lemma desc_inserted m m' block a b :
  inserted m m' block → a ≠ block_id block → desc m' a b → b = block_id block ∨ desc m a b.
Proof.
  intros Hins Ha Hd. induction Hd as [|p lp c Hd IH Hp Hc]; [right; constructor|].
  apply Hins in Hp as [[-> ->]|(Hne & lp0 & Hp0 & _ & Hch)]; [simpl in Hc; set_solver|].
  destruct IH as [->|IH]; [done|]. rewrite Hch in Hc.
  case_bool_decide; [apply elem_of_union in Hc as [->%elem_of_singleton|Hc]; [by left|]|];
    right; by eapply desc_child.
Qed.

Lemma inserted_old m m' block id lb :
  inserted m m' block → id ≠ block_id block → m !! id = Some lb →
  ∃ lb', m' !! id = Some lb' ∧ lb_executed_block lb' = lb_executed_block lb.
Proof.
  intros Hins Hne Hid.
  exists {| lb_executed_block := lb_executed_block lb;
            lb_children := if bool_decide (id = Block_parent_id block)
                           then {[block_id block]} ∪ lb_children lb else lb_children lb |}.
  split; [|done]. apply Hins. right. split; [done|]. by exists lb.
Qed.

(** The invariant of the tree only depends on the map, the commit root, its
    certificate and the pruned blocks. *)
Lemma inserted_tree_ok t t' block :
  tree_ok t → bt_id_to_block t !! block_id block = None →
  inserted (bt_id_to_block t) (bt_id_to_block t') block → links_ok (bt_id_to_block t') →
  bt_commit_root_id t' = bt_commit_root_id t →
  bt_highest_commit_cert t' = bt_highest_commit_cert t →
  bt_pruned_block_ids t' = bt_pruned_block_ids t →
  bt_max_pruned_blocks_in_mem t' = bt_max_pruned_blocks_in_mem t → tree_ok t'.
Proof.
  intros Hok Hnew Hins Hlinks Hroot Hcert Hpr Hmax.
  destruct (to_root _ Hok) as (lr & Hr & Hle). destruct (to_pruned _ Hok) as [Hnd Hin].
  assert (Hne : ∀ id, is_Some (bt_id_to_block t !! id) → id ≠ block_id block).
  { intros id [? ?] ->. congruence. }
  assert (Hchild : ∀ p lp c, bt_id_to_block t' !! p = Some lp → c ∈ lb_children lp →
    c ≠ block_id block → ∃ lp0, bt_id_to_block t !! p = Some lp0 ∧ c ∈ lb_children lp0).
  { intros p lp c Hp Hc Hcne.
    apply Hins in Hp as [[-> ->]|(_ & lp0 & Hp0 & _ & Hch)]; [simpl in Hc; set_solver|].
    exists lp0. split; [done|]. rewrite Hch in Hc. case_bool_decide; set_solver. }
  split; rewrite ?Hroot, ?Hcert, ?Hpr, ?Hmax; try done.
  - destruct (inserted_old _ _ _ _ lr Hins (Hne _ ltac:(by exists lr)) Hr) as (lr' & Hr' & He).
    exists lr'. unfold lb_round in *. by rewrite He.
  - intros l1 c l2 p lp Heq Hp Hc.
    destruct (Hchild p lp c Hp Hc) as (lp0 & Hp0 & Hc0); [apply Hne, Hin; rewrite Heq; set_solver|].
    by eapply (to_order _ Hok).
  - intros id Hid Hd.
    destruct (desc_inserted _ _ _ _ _ Hins (Hne _ ltac:(by exists lr)) Hd)
      as [->|Hd']; [by apply (Hne _ (Hin _ Hid))|by apply (to_active _ Hok id)].
  - intros p lp Hp Hc.
    destruct (Hchild p lp _ Hp Hc) as (lp0 & Hp0 & Hc0); [apply Hne; by exists lr|].
    by eapply (to_root_parent _ Hok).
  - split; [done|]. intros id Hid. destruct (Hin id Hid) as [lb Hlb].
    destruct (inserted_old _ _ _ _ lb Hins (Hne _ (Hin id Hid)) Hlb) as (lb' & Hlb' & _).
    by exists lb'.
  - apply (to_bound _ Hok).
Qed.

(** The whole of [insert_block] on a block that is new to the tree. *)
Lemma insert_block_run same t block :
  links_ok (bt_id_to_block t) → fits (bt_id_to_block t) block →
  bt_id_to_block t !! block_id block = None →
  is_Some (bt_id_to_block t !! Block_parent_id block) ∨
    Block_parent_id block = GENESIS_BLOCK_ID ∧ Block_parent_id block ≠ block_id block →
  ∃ m', insert_block same block t
    = (Ok block, set_id_to_block m' (if negb (Block_is_nil_block block)
                                     then set_head (block_id block) t else t)) ∧
    inserted (bt_id_to_block t) m' block ∧ links_ok m'.
Proof.
  intros Hok Hfit Hnew Hpar. unfold insert_block, get_block, get_linkable_block.
  assert (Hm : bt_id_to_block (if negb (Block_is_nil_block block)
    then set_head (block_id block) t else t) = bt_id_to_block t) by by destruct negb.
  rewrite Hm, Hnew. simpl.
  destruct (bt_id_to_block t !! Block_parent_id block) as [lp|] eqn:Hp.
  - unfold add_child. rewrite bool_decide_eq_true_2; simpl.
    2:{ intros Hc. destruct (lo_child _ Hok _ _ _ Hp Hc) as (? & ? & _). congruence. }
    eexists. split; [done|]. split; [|by apply links_insert].
    intros id lb. rewrite !lookup_insert_Some. split.
    + intros [[<- <-]|[Hne [[<- <-]|[Hne' Hid]]]]; [by left|right; split; [done|]..].
      * exists lp. by rewrite bool_decide_eq_true_2.
      * exists lb. by rewrite bool_decide_eq_false_2.
    + intros [[-> ->]|(Hne & lb0 & Hid & He & Hc)]; [by left|right; split; [done|]].
      case_bool_decide as Hdec; [left|right; split; [done|destruct lb, lb0; simpl in *; congruence]].
      split; [done|]. destruct lb; simpl in *. by simplify_eq.
  - destruct Hpar as [[? ?]|[Hg Hself]]; [done|]. rewrite bool_decide_eq_false_2 by (intros []; done).
    eexists. split; [done|]. split; [|by apply links_insert_orphan].
    intros id lb. rewrite lookup_insert_Some. split.
    + intros [[<- <-]|[Hne Hid]]; [by left|right; split; [done|]]. exists lb.
      rewrite bool_decide_eq_false_2; [done|congruence].
    + intros [[-> ->]|(Hne & lb0 & Hid & He & Hc)]; [by left|right; split; [done|]].
      rewrite bool_decide_eq_false_2 in Hc by congruence.
      destruct lb, lb0; simpl in *; congruence.
Qed.

(** Inserting a new block whose parent is in the tree (or is the genesis block)
    succeeds, keeps the invariant, makes the block available under its id and leaves
    every other block as it was. *)
Theorem insert_block_keeps_tree same t block :
  tree_ok t → fits (bt_id_to_block t) block → get_block t (block_id block) = None →
  block_exists t (Block_parent_id block) = true ∨
    Block_parent_id block = GENESIS_BLOCK_ID ∧ Block_parent_id block ≠ block_id block →
  ∃ t', insert_block same block t = (Ok block, t') ∧ tree_ok t' ∧
    get_block t' (block_id block) = Some block ∧
    ∀ id, id ≠ block_id block → get_block t' id = get_block t id.
Proof.
  intros Hok Hfit Hnew%fmap_None Hpar.
  destruct (insert_block_run same t block (to_links _ Hok) Hfit Hnew) as (m' & -> & Hins & Hlinks).
  { destruct Hpar as [Hp|Hp]; [left; exact (bool_decide_eq_true_1 _ Hp)|by right]. }
  eexists. split; [done|]. split.
  { apply (inserted_tree_ok t _ block); try done; by destruct negb. }
  unfold get_block, get_linkable_block. simpl. split.
  { assert (m' !! block_id block = Some (LinkableBlock_new block)) as -> by (apply Hins; by left).
    done. }
  intros id Hne. destruct (bt_id_to_block t !! id) as [lb|] eqn:Hid.
  - destruct (inserted_old _ _ _ _ _ Hins Hne Hid) as (lb' & -> & He). simpl. by rewrite He.
  - destruct (m' !! id) as [lb|] eqn:Hid'; [|done].
    apply Hins in Hid' as [[? _]|(_ & lb0 & ? & _)]; congruence.
Qed.

(** A failed insertion is not free of effects: a block whose parent is unknown is
    refused, but [head_block_id] already points to it, and so to a block that is not
    in the tree. *)
Theorem insert_block_error_moves_head same t block :
  Block_is_nil_block block = false → get_block t (block_id block) = None →
  get_block t (Block_parent_id block) = None → Block_parent_id block ≠ GENESIS_BLOCK_ID →
  ∃ t', insert_block same block t = (Err (Msg "Parent block not found"), t') ∧
    bt_head_block_id t' = block_id block ∧ get_block t' (bt_head_block_id t') = None.
Proof.
  intros Hnil Hid Hpar Hg. exists (set_head (block_id block) t). unfold insert_block.
  rewrite Hnil. simpl. unfold get_block, get_linkable_block in *. simpl.
  apply fmap_None in Hpar. rewrite Hid, Hpar, bool_decide_eq_true_2 by done. done.
Qed.

(** ** Paths *)

(** [path] leads from [root] to [id] by parent links, oldest block first. *)
Inductive ancestry (m : gmap HashValue LinkableBlock) (root : HashValue)
    : HashValue → list Block → Prop :=
| ancestry_root : ancestry m root root []
| ancestry_step id lb path :
    m !! id = Some lb → ancestry m root (lb_parent lb) path →
    ancestry m root id (path ++ [lb_executed_block lb]).

Section paths.
Context (t : BlockTree) (root : HashValue) (lr : LinkableBlock).
Context (Hlinks : links_ok (bt_id_to_block t)) (Hroot : bt_id_to_block t !! root = Some lr).

(** A path ends at its block, rounds grow along it, and it stays in the tree. *)
Lemma ancestry_bounds id path :
  ancestry (bt_id_to_block t) root id path →
  ∃ lb, bt_id_to_block t !! id = Some lb ∧
    lb_round lr ≤ lb_round lb ∧ (path ≠ [] → lb_round lr < lb_round lb) ∧
    NoDup (block_id <$> path) ∧
    ∀ b, b ∈ path → Block_round b ≤ lb_round lb ∧
      lb_executed_block <$> bt_id_to_block t !! block_id b = Some b.
Proof.
  induction 1 as [|id lb path Hid Hanc (lp & Hp & Hle & _ & Hnd & Hall)].
  { exists lr. split; [done|]. split; [lia|]. split; [done|]. split; [constructor|set_solver]. }
  pose proof (lo_below _ Hlinks _ _ _ Hid Hp) as Hlt. exists lb.
  split; [done|]. split; [lia|]. split; [lia|]. split.
  - rewrite fmap_app. apply NoDup_app. split; [done|]. split; [|apply NoDup_singleton].
    intros x (b & -> & Hb)%list_elem_of_fmap Hx%list_elem_of_singleton.
    destruct (Hall b Hb) as [Hb1 Hb2]. rewrite Hx, (lo_id _ Hlinks _ _ Hid), Hid in Hb2.
    simpl in Hb2. injection Hb2 as <-. unfold lb_round in *. lia.
  - intros b [Hb| ->%list_elem_of_singleton]%elem_of_app.
    + destruct (Hall b Hb). split; [lia|done].
    + split; [done|]. by rewrite (lo_id _ Hlinks _ _ Hid), Hid.
Qed.

Lemma ancestry_length id path :
  ancestry (bt_id_to_block t) root id path → (length path ≤ size (bt_id_to_block t))%nat.
Proof.
  intros Hanc. destruct (ancestry_bounds _ _ Hanc) as (lb & _ & _ & _ & Hnd & Hall).
  rewrite <- (length_fmap block_id), <- size_dom.
  rewrite <- (size_list_to_set (C := gset HashValue) (block_id <$> path)) by done.
  apply subseteq_size. intros x [b [-> Hb]]%elem_of_list_to_set%list_elem_of_fmap.
  apply elem_of_dom. destruct (Hall b Hb) as [_ Hb']. by apply fmap_Some in Hb' as (? & -> & _).
Qed.

(** The loop follows a path given enough fuel, and whatever it finds is a path. *)
Lemma path_loop_complete id path fuel res :
  ancestry (bt_id_to_block t) root id path → (length path < fuel)%nat →
  path_loop fuel t id (lb_round lr) res = Some (root, path ++ res).
Proof.
  intros Hanc. revert fuel res. induction Hanc as [|id lb path Hid Hanc IH]; intros fuel res Hf;
    (destruct fuel as [|fuel]; [lia|]); simpl; unfold get_block, get_linkable_block.
  - rewrite Hroot. simpl. by rewrite (proj2 (N.leb_le _ _)) by (unfold lb_round; lia).
  - rewrite Hid. simpl.
    destruct (ancestry_bounds id (path ++ [lb_executed_block lb])) as (lb' & Hid' & _ & Hlt & _).
    { by econstructor. }
    assert (lb' = lb) as -> by congruence.
    assert (lb_round lr < lb_round lb) by (apply Hlt; by destruct path).
    rewrite (proj2 (N.leb_gt _ _)) by done.
    rewrite length_app in Hf. simpl in Hf. change (Block_parent_id _) with (lb_parent lb).
    rewrite IH by lia. by rewrite <- app_assoc.
Qed.

Lemma path_loop_sound fuel id res res' rr :
  path_loop fuel t id rr res = Some (root, res') →
  ∃ path, res' = path ++ res ∧ ancestry (bt_id_to_block t) root id path.
Proof.
  revert id res. induction fuel as [|fuel IH]; intros id res H; simpl in H; [done|].
  unfold get_block, get_linkable_block in H.
  destruct (bt_id_to_block t !! id) as [lb|] eqn:Hid; simpl in H; [|done].
  destruct (_ <=? _); [simplify_eq; exists []; by split; [|constructor]|].
  apply IH in H as (path & -> & Hanc). exists (path ++ [lb_executed_block lb]).
  rewrite <- app_assoc. split; [done|by econstructor].
Qed.

Lemma path_from_root_spec id path :
  path_from_root_to_block t id root (lb_round lr) = Some path ↔
  ancestry (bt_id_to_block t) root id path.
Proof.
  unfold path_from_root_to_block. split.
  - destruct (path_loop _ _ _ _ _) as [[cur res]|] eqn:Hloop; [|done].
    case_bool_decide as Hcur; [done|]. subst cur. intros [= ->].
    apply path_loop_sound in Hloop as (p & -> & ?). by rewrite app_nil_r.
  - intros Hanc. rewrite (path_loop_complete id path) by (try done; apply ancestry_length in Hanc; lia).
    rewrite bool_decide_eq_false_2 by (intros []; done). by rewrite app_nil_r.
Qed.

End paths.

(** The path search terminates on a well-formed tree and is exact: it returns a
    path precisely when the block descends from the commit root, and the path is the
    chain of blocks from the root (excluded) to the block, oldest first. *)
Theorem path_from_commit_root_exact t id :
  tree_ok t →
  ∃ r, path_from_commit_root t id = Ok r ∧
    ∀ path, r = Some path ↔ ancestry (bt_id_to_block t) (bt_commit_root_id t) id path.
Proof.
  intros Hok. destruct (to_root _ Hok) as (lr & Hr & _).
  exists (path_from_root_to_block t id (bt_commit_root_id t) (lb_round lr)). split.
  - unfold path_from_commit_root, commit_root, get_block, get_linkable_block. by rewrite Hr.
  - intros path. by apply path_from_root_spec; [apply to_links|].
Qed.

(** ** Reachable trees *)

(** A tree as the block store drives it: started at a root, then new blocks,
    certificates and commits in any order. *)
Inductive tree_run : BlockTree → Prop :=
| run_new root qc ordered commit n tc t :
    BlockTree_new root qc ordered commit n tc = Ok t →
    bi_round (WrappedLedgerInfo_commit_info commit) ≤ Block_round root →
    Block_parent_id root ≠ block_id root → tree_run t
| run_insert same t block r t' :
    tree_run t → fits (bt_id_to_block t) block → before_children (bt_id_to_block t) block →
    Block_parent_id block ≠ block_id block → insert_block same block t = (r, t') → tree_run t'
| run_qc t qc r t' : tree_run t → insert_quorum_cert qc t = (r, t') → tree_run t'
| run_ordered_cert t cert : tree_run t → tree_run (insert_ordered_cert cert t)
| run_ordered_root t id r t' : tree_run t → update_ordered_root id t = (r, t') → tree_run t'
| run_timeout t tc : tree_run t → tree_run (replace_2chain_timeout_cert tc t)
| run_commit t blocks proof decision b r t' :
    tree_run t → last blocks = Some b → get_block t (block_id b) = Some b →
    desc (bt_id_to_block t) (bt_commit_root_id t) (block_id b) →
    (∀ p, WrappedLedgerInfo_create_merged_with_executed_state proof decision = Ok p →
       bi_id (WrappedLedgerInfo_commit_info p) = block_id b ∧
       bi_round (WrappedLedgerInfo_commit_info p) = Block_round b) →
    commit_callback blocks proof decision t = (r, t') → tree_run t'.

(** The invariant looks at five fields only. *)
Lemma tree_ok_ext t t' :
  bt_id_to_block t' = bt_id_to_block t → bt_commit_root_id t' = bt_commit_root_id t →
  bt_highest_commit_cert t' = bt_highest_commit_cert t →
  bt_pruned_block_ids t' = bt_pruned_block_ids t →
  bt_max_pruned_blocks_in_mem t' = bt_max_pruned_blocks_in_mem t → tree_ok t → tree_ok t'.
Proof.
  intros Hm Hr Hc Hp Hx [H1 H2 H3 H4 H5 H6 H7].
  split; rewrite ?Hm, ?Hr, ?Hc, ?Hp, ?Hx; done.
Qed.

Lemma BlockTree_new_ok root qc ordered commit n tc t :
  BlockTree_new root qc ordered commit n tc = Ok t →
  bi_round (WrappedLedgerInfo_commit_info commit) ≤ Block_round root →
  Block_parent_id root ≠ block_id root → tree_ok t.
Proof.
  intros Hnew Hle Hself. unfold BlockTree_new in Hnew. run_inv.
  split; simpl; [split| | | | | |lia].
  - intros id lb [<- <-]%lookup_singleton_Some. done.
  - intros p lp c [<- <-]%lookup_singleton_Some Hc. simpl in Hc. set_solver.
  - intros c lc lp [<- <-]%lookup_singleton_Some [? _]%lookup_singleton_Some. by exfalso.
  - exists (LinkableBlock_new root). by rewrite lookup_singleton_eq.
  - intros [] ? ? ? ? ?; done.
  - intros id Hin. by apply not_elem_of_nil in Hin.
  - intros p lp [<- <-]%lookup_singleton_Some Hc. simpl in Hc. set_solver.
  - split; [constructor|]. intros id Hin. by apply not_elem_of_nil in Hin.
Qed.

Lemma insert_quorum_cert_frame qc t r t' :
  insert_quorum_cert qc t = (r, t') → tree_ok t → tree_ok t'.
Proof.
  intros Hrun Hok. unfold insert_quorum_cert in Hrun.
  destruct (get_block _ _); [|by simplify_eq].
  destruct (highest_certified_block t); simplify_eq; try done.
  by apply (tree_ok_ext t); try done; destruct (_ <? _).
Qed.

Lemma insert_block_ok same t block r t' :
  tree_ok t → fits (bt_id_to_block t) block → Block_parent_id block ≠ block_id block →
  insert_block same block t = (r, t') → tree_ok t'.
Proof.
  intros Hok Hfit Hself Hrun.
  destruct (bt_id_to_block t !! block_id block) as [lb|] eqn:Hid.
  - unfold insert_block, get_block, get_linkable_block in Hrun.
    destruct (negb _); simpl in Hrun; rewrite Hid in Hrun; simpl in Hrun; simplify_eq; try done.
    by apply (tree_ok_ext t).
  - destruct (decide (is_Some (bt_id_to_block t !! Block_parent_id block) ∨
      Block_parent_id block = GENESIS_BLOCK_ID)) as [Hp|Hp].
    + destruct (insert_block_run same t block (to_links _ Hok) Hfit Hid) as (m' & Hr & Hins & Hl).
      { destruct Hp as [?|?]; [by left|right; done]. }
      rewrite Hr in Hrun. simplify_eq.
      apply (inserted_tree_ok t _ block); try done; by destruct (negb _).
    + assert (Hg : Block_parent_id block ≠ GENESIS_BLOCK_ID) by tauto.
      assert (Hp' : bt_id_to_block t !! Block_parent_id block = None)
        by (apply eq_None_not_Some; tauto).
      unfold insert_block, get_block, get_linkable_block in Hrun.
      destruct (negb _); simpl in Hrun; rewrite Hid, Hp' in Hrun; simpl in Hrun;
        rewrite bool_decide_eq_true_2 in Hrun by done; simplify_eq; [by apply (tree_ok_ext t)|done].
Qed.

Lemma commit_callback_ok t blocks proof decision b r t' :
  tree_ok t → last blocks = Some b → get_block t (block_id b) = Some b →
  desc (bt_id_to_block t) (bt_commit_root_id t) (block_id b) →
  (∀ p, WrappedLedgerInfo_create_merged_with_executed_state proof decision = Ok p →
     bi_id (WrappedLedgerInfo_commit_info p) = block_id b ∧
     bi_round (WrappedLedgerInfo_commit_info p) = Block_round b) →
  commit_callback blocks proof decision t = (r, t') → tree_ok t'.
Proof.
  intros Hok Hlast Hb Hd Hp Hrun. destruct (to_root _ Hok) as (lr & Hr & _).
  destruct (decide (Block_round b ≤ lb_round lr)) as [Hle|Hlt].
  { rewrite (commit_callback_old t blocks proof decision b lr) in Hrun by done. by simplify_eq. }
  destruct (WrappedLedgerInfo_create_merged_with_executed_state proof decision) as [p| |] eqn:Hm.
  - destruct (Hp p eq_refl) as [Hid Hrd].
    destruct (commit_callback_run t blocks proof decision b lr p) as (t2 & Hrun2 & Hok2 & _);
      try done; [lia|]. rewrite Hrun2 in Hrun. by simplify_eq.
  - rewrite (commit_callback_no_proof t blocks proof decision b lr) in Hrun;
      [by simplify_eq|done|done|lia|congruence].
  - rewrite (commit_callback_no_proof t blocks proof decision b lr) in Hrun;
      [by simplify_eq|done|done|lia|congruence].
Qed.

(** *** Child links *)

(** Links stay where blocks are only removed. *)
Lemma parents_linked_sub (m m' : gmap HashValue LinkableBlock) : m' ⊆ m → parents_linked m → parents_linked m'.
Proof. intros Hsub Hm c lc lp Hc Hp. eapply Hm; by eapply lookup_weaken. Qed.

(** A new block becomes a child of its parent. *)
Lemma parents_linked_inserted m m' block :
  inserted m m' block → m !! block_id block = None → before_children m block →
  Block_parent_id block ≠ block_id block → parents_linked m → parents_linked m'.
Proof.
  intros Hins Hnew Hbc Hself Hm c lc lp Hc Hp.
  apply Hins in Hp as [[Hp ->]|(_ & lp0 & Hp0 & _ & ->)];
    apply Hins in Hc as [[-> ->]|(_ & lc0 & Hc0 & He & _)].
  - by destruct Hself.
  - unfold lb_parent in Hp. rewrite He in Hp. by destruct (Hbc Hnew c lc0 Hc0).
  - unfold lb_parent. simpl. rewrite bool_decide_eq_true_2 by done. set_solver.
  - assert (lb_parent lc = lb_parent lc0) as Heq by (unfold lb_parent; by rewrite He). rewrite Heq in *.
    pose proof (Hm c lc0 lp0 Hc0 Hp0). case_bool_decide; set_solver.
Qed.

Lemma insert_block_map same t block r t' :
  insert_block same block t = (r, t') → bt_id_to_block t' = bt_id_to_block t ∨
  bt_id_to_block t !! block_id block = None ∧
    (is_Some (bt_id_to_block t !! Block_parent_id block) ∨ Block_parent_id block = GENESIS_BLOCK_ID).
Proof.
  intros Hrun. destruct (bt_id_to_block t !! block_id block) as [lb|] eqn:Hid.
  { left. unfold insert_block, get_block, get_linkable_block in Hrun.
    destruct (negb _); simpl in Hrun; rewrite Hid in Hrun; by simplify_eq/=. }
  destruct (bt_id_to_block t !! Block_parent_id block) as [lp|] eqn:Hp; [by right; eauto|].
  destruct (decide (Block_parent_id block = GENESIS_BLOCK_ID)) as [Hg|Hg]; [by right; eauto|]. left.
  unfold insert_block, get_block, get_linkable_block in Hrun.
  destruct (negb _); simpl in Hrun; rewrite Hid, Hp in Hrun; simpl in Hrun;
    rewrite bool_decide_eq_true_2 in Hrun by done; by simplify_eq/=.
Qed.

Lemma insert_block_linked same t block r t' :
  links_ok (bt_id_to_block t) → fits (bt_id_to_block t) block → before_children (bt_id_to_block t) block →
  Block_parent_id block ≠ block_id block → insert_block same block t = (r, t') →
  parents_linked (bt_id_to_block t) → parents_linked (bt_id_to_block t').
Proof.
  intros Hl Hfit Hbc Hself Hrun Hm. destruct (insert_block_map _ _ _ _ _ Hrun) as [->|[Hnew Hp]]; [done|].
  destruct (insert_block_run same t block Hl Hfit Hnew) as (m' & Hrun' & Hins & _); [by destruct Hp; auto|].
  rewrite Hrun' in Hrun. simplify_eq. by eapply parents_linked_inserted.
Qed.

(** A commit only removes blocks. *)
Lemma process_pruned_sub L t : bt_id_to_block (process_pruned_blocks L t) ⊆ bt_id_to_block t.
Proof.
  apply map_subseteq_spec. intros id lb. unfold process_pruned_blocks. rewrite remove_blocks_lookup. by case_bool_decide.
Qed.

Lemma update_highest_commit_cert_map p t : bt_id_to_block (update_highest_commit_cert p t).2 = bt_id_to_block t.
Proof.
  unfold update_highest_commit_cert, update_commit_and_finalized_root. destruct (_ <? _); [|done].
  by destruct (get_block _ _).
Qed.

Lemma commit_callback_sub blocks proof decision t :
  bt_id_to_block (commit_callback blocks proof decision t).2 ⊆ bt_id_to_block t.
Proof.
  unfold commit_callback, mbind, M_bind, lift, gets, modify. destruct (expect _ _) as [b| |]; simpl; [|done..].
  destruct (commit_root t); simpl; [|done..]. destruct (_ <=? _); [done|].
  destruct (WrappedLedgerInfo_create_merged_with_executed_state _ _); simpl; [|done..].
  destruct (find_blocks_to_prune _ _) as [L| |]; simpl; [|done..].
  rewrite update_highest_commit_cert_map. apply process_pruned_sub.
Qed.

(** [insert_block] does not look for children: a block that was removed and whose
    parent is the genesis block can come back above a child that is still there, and
    then this child has no link. *)
Lemma reinserted_unlinked same t block c lc :
  bt_id_to_block t !! block_id block = None → bt_id_to_block t !! Block_parent_id block = None →
  Block_parent_id block = GENESIS_BLOCK_ID → bt_id_to_block t !! c = Some lc → lb_parent lc = block_id block →
  ∃ t', insert_block same block t = (Ok block, t') ∧ ¬ parents_linked (bt_id_to_block t').
Proof.
  intros Hnew Hnp Hg Hc Hpar. unfold insert_block, get_block, get_linkable_block.
  set (t1 := if negb _ then _ else _). assert (bt_id_to_block t1 = bt_id_to_block t) as -> by (unfold t1; by destruct negb).
  rewrite Hnew, Hnp. simpl. rewrite bool_decide_eq_false_2 by (intros []; done). eexists. split; [done|].
  intros Hl. cut (c ∈ lb_children (LinkableBlock_new block)); [simpl; set_solver|].
  apply (Hl c lc); simpl; [|by rewrite Hpar, lookup_insert_eq]. rewrite lookup_insert_ne; [done|congruence].
Qed.

Lemma tree_run_tree_ok t : tree_run t → tree_ok t.
Proof.
  induction 1.
  - by eapply BlockTree_new_ok.
  - by eapply insert_block_ok.
  - by eapply insert_quorum_cert_frame.
  - unfold insert_ordered_cert. destruct (_ <? _); [by apply (tree_ok_ext t)|done].
  - unfold update_ordered_root in *. destruct (block_exists _ _); simplify_eq; [|done].
    by apply (tree_ok_ext t).
  - by apply (tree_ok_ext t).
  - by eapply commit_callback_ok.
Qed.

Lemma insert_quorum_cert_map qc t : bt_id_to_block (insert_quorum_cert qc t).2 = bt_id_to_block t.
Proof.
  unfold insert_quorum_cert. destruct (get_block _ _); [|done].
  destruct (highest_certified_block t); [|done..]. simpl. by destruct (_ <? _).
Qed.

Lemma tree_run_linked t : tree_run t → parents_linked (bt_id_to_block t).
Proof.
  induction 1 as [root qc ordered commit n tc t Hnew _ Hself|same t b r t' Ht IH Hf Hbc Hs Hrun|t qc r t' _ IH Hrun
    |t cert _ IH|t id r t' _ IH Hrun|t tc _ IH|t bs p d b r t' _ IH _ _ _ _ Hrun].
  - unfold BlockTree_new in Hnew. run_inv. simpl.
    intros c lc lp [<- <-]%lookup_singleton_Some [Heq _]%lookup_singleton_Some. by destruct Hself.
  - eapply insert_block_linked; [apply to_links, tree_run_tree_ok; exact Ht|done..].
  - pose proof (insert_quorum_cert_map qc t) as Hm. rewrite Hrun in Hm. simpl in Hm. by rewrite Hm.
  - unfold insert_ordered_cert. by destruct (_ <? _).
  - unfold update_ordered_root in Hrun. by destruct (block_exists _ _); simplify_eq.
  - done.
  - pose proof (commit_callback_sub bs p d t) as Hsub. rewrite Hrun in Hsub. by eapply parents_linked_sub.
Qed.

(** C39: The block tree keeps its invariant under every sequence of its operations from
    a new tree on, for blocks that are not their own parent, whose round lies
    between those of their neighbours and that come before their children, and for
    commits of a descendant of the commit root with a proof of that block: parent
    and child links agree in both directions, rounds increase along them, the commit
    root is in the tree with at least the round of the highest commit certificate,
    and the pruned blocks still in memory are distinct, bounded in number, queued
    parents first and never descendants of the commit root. *)
Theorem tree_run_ok t : tree_run t → tree_ok t ∧ parents_linked (bt_id_to_block t).
Proof. intros Ht. split; [by apply tree_run_tree_ok|by apply tree_run_linked]. Qed.

(** Committing the last block of a list that descends from the commit root with a
    higher round succeeds: it becomes the commit root, the path from the commit root
    to it is empty, at most [max_pruned_blocks_in_mem] pruned blocks stay in memory,
    and every descendant of it is kept unchanged. *)
Theorem commit_callback_advances t blocks proof decision b lr commit_proof :
  tree_ok t → linkable_root t = Ok lr →
  last blocks = Some b → get_block t (block_id b) = Some b →
  desc (bt_id_to_block t) (bt_commit_root_id t) (block_id b) → lb_round lr < Block_round b →
  WrappedLedgerInfo_create_merged_with_executed_state proof decision = Ok commit_proof →
  bi_id (WrappedLedgerInfo_commit_info commit_proof) = block_id b →
  bi_round (WrappedLedgerInfo_commit_info commit_proof) = Block_round b →
  ∃ t', commit_callback blocks proof decision t = (Ok tt, t') ∧
    commit_root t' = Ok b ∧ path_from_commit_root t' (block_id b) = Ok (Some []) ∧
    (length (bt_pruned_block_ids t') ≤ bt_max_pruned_blocks_in_mem t')%nat ∧
    (∀ id lb, desc (bt_id_to_block t) (block_id b) id → bt_id_to_block t !! id = Some lb →
       bt_id_to_block t' !! id = Some lb).
Proof.
  intros Hok Hr Hlast Hb Hd Hlt Hproof Hid Hround.
  apply fmap_Some in Hb as Hb'. destruct Hb' as (lb & Hlb & Heb).
  unfold linkable_root, get_linkable_block in Hr.
  destruct (bt_id_to_block t !! bt_commit_root_id t) as [lr'|] eqn:Hr'; [|done].
  injection Hr as ->.
  destruct (commit_callback_run t blocks proof decision b lr commit_proof)
    as (t' & -> & Hok' & Hroot & Hkeep); try done.
  assert (Hroot' : bt_id_to_block t' !! bt_commit_root_id t' = Some lb).
  { rewrite Hroot. apply Hkeep; [constructor|done]. }
  assert (Hcr : commit_root t' = Ok b).
  { unfold commit_root, get_block, get_linkable_block. rewrite Hroot'. simpl. by rewrite Heb. }
  exists t'. split; [done|]. split; [done|]. split; [|split; [apply (to_bound _ Hok')|done]].
  unfold path_from_commit_root. rewrite Hcr. simpl. f_equal. rewrite <- Hroot.
  replace (Block_round b) with (lb_round lb) by (unfold lb_round; by rewrite Heb).
  apply (path_from_root_spec t' _ lb (to_links _ Hok') Hroot'). constructor.
Qed.

(** Inserting a quorum certificate for a block of the tree succeeds, the round of
    the highest certified block becomes the maximum of the old one and the block's,
    the committed round of the highest ordered certificate becomes the maximum of
    the old one and the certificate's, and the first certificate stored for a block
    is the one kept. *)
Theorem insert_quorum_cert_highest t qc b hb :
  tree_ok t → get_block t (bi_id (certified_block qc)) = Some b →
  highest_certified_block t = Ok hb →
  ∃ t' hb', insert_quorum_cert qc t = (Ok tt, t') ∧
    highest_certified_block t' = Ok hb' ∧ Block_round hb' = N.max (Block_round hb) (Block_round b) ∧
    bi_round (WrappedLedgerInfo_commit_info (bt_highest_ordered_cert t'))
    = N.max (bi_round (WrappedLedgerInfo_commit_info (bt_highest_ordered_cert t)))
        (bi_round (QuorumCert_commit_info qc)) ∧
    bt_id_to_quorum_cert t' !! bi_id (certified_block qc)
    = Some (default qc (bt_id_to_quorum_cert t !! bi_id (certified_block qc))).
Proof.
  intros Hok Hb Hhb. unfold insert_quorum_cert. rewrite Hb, Hhb.
  assert (Hid : block_id b = bi_id (certified_block qc)).
  { apply fmap_Some in Hb as (lb & Hlb & ->). by apply (lo_id _ (to_links _ Hok)). }
  eexists _, (if Block_round hb <? Block_round b then b else hb). split; [done|].
  split; [|split; [destruct (N.ltb_spec (Block_round hb) (Block_round b)); lia|split]].
  - unfold highest_certified_block, get_block, get_linkable_block in *. simpl.
    destruct (_ <? _); simpl; [by rewrite Hid, Hb|done].
  - assert (Hto : ∀ c x, bt_highest_ordered_cert (if x : bool then c else t)
      = if x then bt_highest_ordered_cert c else bt_highest_ordered_cert t) by by intros c [].
    cbn [bt_highest_ordered_cert set_certs]. rewrite !Hto. cbn [bt_highest_ordered_cert set_roots].
    destruct (Block_round hb <? Block_round b);
      (destruct (N.ltb_spec (bi_round (WrappedLedgerInfo_commit_info (bt_highest_ordered_cert t)))
        (bi_round (QuorumCert_commit_info qc))); [|lia]); rewrite N.max_r by lia; done.
  - cbn [bt_id_to_quorum_cert set_certs]. unfold or_insert_cert.
    destruct (Block_round hb <? Block_round b); cbn [bt_id_to_quorum_cert set_roots];
      (destruct (bt_id_to_quorum_cert t !! _) as [q|] eqn:Hq; [exact Hq|by rewrite lookup_insert_eq]).
Qed.

End block_tree.
