(* ===== verification/PendingVotes.v ===== *)
(** * Pending votes (consensus/src/pending_votes.rs, qc_aggregator.rs,
    pending_order_votes.rs)

    The votes, timeouts and order votes a validator collects for a round, and
    the certificates it makes of them.  The theorems show that every certificate
    made of checked votes verifies, that a validator is counted for one ledger
    info only, and that a quorum of signatures is turned into a certificate. *)

From S2P Require Import Prelude Gaptos Types Certificates.

(** [aptos_types::ledger_info::LedgerInfoWithVerifiedSignatures]: a ledger info
    with the signatures collected for it. *)
Class PartialLedgerInfo {GA : Gaptos} {VE : Verifier} := {
  LedgerInfoWithVerifiedSignatures : Type;
  (** [new(ledger_info, PartialSignatures::empty())] *)
  livs_new : LedgerInfo → LedgerInfoWithVerifiedSignatures;
  livs_ledger_info : LedgerInfoWithVerifiedSignatures → LedgerInfo;
  livs_signatures : LedgerInfoWithVerifiedSignatures → gmap AccountAddress Signature;
  livs_add_signature :
    AccountAddress → Signature → LedgerInfoWithVerifiedSignatures →
    LedgerInfoWithVerifiedSignatures;
  livs_aggregate_signatures :
    LedgerInfoWithVerifiedSignatures → ValidatorVerifier →
    result VerifyError LedgerInfoWithSignatures;
}.

(** What the collection relies on: the signatures added are the signatures held;
    aggregation keeps the ledger info, and an aggregate of valid signatures of a
    quorum verifies; only validators of the set have valid signatures; digests
    of ledger infos are collision free; a quorum check that succeeds reports at
    least the quorum, whatever the order of the signers; valid signatures
    aggregate. *)
Class PendingLaws {GA : Gaptos} {VE : Verifier} {CR : Crypto} {PI : PartialLedgerInfo} : Prop := {
  livs_ledger_info_new li : livs_ledger_info (livs_new li) = li;
  livs_signatures_new li : livs_signatures (livs_new li) = ∅;
  livs_ledger_info_add a s l : livs_ledger_info (livs_add_signature a s l) = livs_ledger_info l;
  livs_signatures_add a s l : livs_signatures (livs_add_signature a s l) = <[a := s]> (livs_signatures l);
  livs_aggregate_ledger_info l v x :
    livs_aggregate_signatures l v = Ok x → liws_ledger_info x = livs_ledger_info l;
  livs_aggregate_verify l v x :
    livs_aggregate_signatures l v = Ok x →
    is_ok (vv_check_voting_power v (map_to_list (livs_signatures l)).*1 true) = true →
    map_Forall (λ a s, vv_verify v a (SignLedgerInfo (livs_ledger_info l)) s = Ok tt)
      (livs_signatures l) →
    liws_verify_signatures x v = Ok tt;
  vv_verify_known v a m s : vv_verify v a m s = Ok tt → a ∈ vv_ordered_addresses v;
  li_hash_inj l1 l2 : li_hash l1 = li_hash l2 → l1 = l2;
  vv_check_quorum v l p :
    vv_check_voting_power v l true = Ok p → vv_quorum_voting_power v ≤ p;
  vv_check_perm v l1 l2 :
    l1 ≡ₚ l2 → is_ok (vv_check_voting_power v l1 true) = is_ok (vv_check_voting_power v l2 true);
  livs_aggregate_valid l v :
    livs_signatures l ≠ ∅ →
    map_Forall (λ a s, vv_verify v a (SignLedgerInfo (livs_ledger_info l)) s = Ok tt)
      (livs_signatures l) →
    is_ok (livs_aggregate_signatures l v) = true;
}.

Section pending_votes.
Context {GA : Gaptos} {VE : Verifier} {CR : Crypto} {PI : PartialLedgerInfo}.

(** ** Votes *)

Inductive VoteReceptionResult :=
| VoteAdded (power : N)
| VoteAddedQCDelayed (power : N)
| DuplicateVote
| EquivocateVote
| NewQuorumCertificate (qc : QuorumCert)
| New2ChainTimeoutCertificate (tc : TwoChainTimeoutCertificate)
| ErrorAddingVote (e : VerifyError)
| ErrorAggregatingSignature (e : VerifyError)
| ErrorAggregatingTimeoutCertificate (e : VerifyError)
| UnexpectedRound (expected got : N)
| EchoTimeout (power : N).

(** [qc_aggregator_type] has the single variant [NoDelay], whose aggregator has
    no state. *)
Record PendingVotes := {
  pv_li_digest_to_votes : gmap HashValue (nat * LedgerInfoWithVerifiedSignatures);
  pv_maybe_partial_2chain_tc : option TwoChainTimeoutWithPartialSignatures;
  pv_author_to_vote : gmap Author (Vote * HashValue);
  pv_echo_timeout : bool;
}.

Definition PendingVotes_new : PendingVotes :=
  {| pv_li_digest_to_votes := ∅; pv_maybe_partial_2chain_tc := None;
     pv_author_to_vote := ∅; pv_echo_timeout := false |}.

(** [signatures().keys()]. *)
Definition livs_signers (l : LedgerInfoWithVerifiedSignatures) : list Author :=
  (map_to_list (livs_signatures l)).*1.

Definition aggregate_qc_now (validator_verifier : ValidatorVerifier)
    (li_with_sig : LedgerInfoWithVerifiedSignatures) (vote_data : VoteData)
    : result Anyhow VoteReceptionResult :=
  match livs_aggregate_signatures li_with_sig validator_verifier with
  | Ok ledger_info_with_sig => Ok (NewQuorumCertificate (QuorumCert_new vote_data ledger_info_with_sig))
  | Err e => Ok (ErrorAggregatingSignature e)
  | Panic m => Panic m
  end.

Definition handle_aggregated_qc (validator_verifier : ValidatorVerifier)
    (aggregated_voting_power : N) (vote : Vote) (li_with_sig : LedgerInfoWithVerifiedSignatures)
    : result Anyhow VoteReceptionResult :=
  _ ← assert_ (vv_quorum_voting_power validator_verifier <=? aggregated_voting_power)
        "QC aggregation should not be triggered if we don't have enough votes to form a QC";
  aggregate_qc_now validator_verifier li_with_sig (vote_vote_data vote).

(** Step 1 of [insert_vote]: the early return for an author already seen. *)
Definition already_voted (st : PendingVotes) (vote : Vote) : option VoteReceptionResult :=
  match pv_author_to_vote st !! vote_author vote with
  | Some (previously_seen_vote, previous_li_digest) =>
      if bool_decide (li_hash (vote_ledger_info vote) = previous_li_digest) then
        if is_timeout vote && negb (is_timeout previously_seen_vote) then None
        else Some DuplicateVote
      else Some EquivocateVote
  | None => None
  end.

(** Steps 2 and 3: store the vote, add its signature to its ledger info. *)
Definition store_vote (vote : Vote) (st : PendingVotes)
    : LedgerInfoWithVerifiedSignatures * PendingVotes :=
  let li_digest := li_hash (vote_ledger_info vote) in
  let len := (size (pv_li_digest_to_votes st) + 1)%nat in
  let entry := default (len, livs_new (vote_ledger_info vote))
                 (pv_li_digest_to_votes st !! li_digest) in
  let li_with_sig := livs_add_signature (vote_author vote) (vote_signature vote) entry.2 in
  (li_with_sig,
   {| pv_li_digest_to_votes := <[li_digest := (entry.1, li_with_sig)]> (pv_li_digest_to_votes st);
      pv_maybe_partial_2chain_tc := pv_maybe_partial_2chain_tc st;
      pv_author_to_vote := <[vote_author vote := (vote, li_digest)]> (pv_author_to_vote st);
      pv_echo_timeout := pv_echo_timeout st |}).

Definition set_partial_tc (tc : TwoChainTimeoutWithPartialSignatures) (st : PendingVotes)
    : PendingVotes :=
  {| pv_li_digest_to_votes := pv_li_digest_to_votes st;
     pv_maybe_partial_2chain_tc := Some tc;
     pv_author_to_vote := pv_author_to_vote st; pv_echo_timeout := pv_echo_timeout st |}.

Definition set_echo_timeout (st : PendingVotes) : PendingVotes :=
  {| pv_li_digest_to_votes := pv_li_digest_to_votes st;
     pv_maybe_partial_2chain_tc := pv_maybe_partial_2chain_tc st;
     pv_author_to_vote := pv_author_to_vote st; pv_echo_timeout := true |}.

(** [total - quorum + 1] on [u128]. *)
Definition f_plus_one (v : ValidatorVerifier) : result Anyhow N :=
  d ← sub_u64 (vv_total_voting_power v) (vv_quorum_voting_power v);
  if d + 1 <=? u128_max then Ok (d + 1) else Panic "attempt to add with overflow".

(** Step 5 with the echo of step 4. *)
Definition maybe_echo (v : ValidatorVerifier) (tc_voting_power voting_power : N)
    : M PendingVotes Anyhow VoteReceptionResult := λ st,
  if negb (pv_echo_timeout st) then
    match f_plus_one v with
    | Ok f => if f <=? tc_voting_power then (Ok (EchoTimeout tc_voting_power), set_echo_timeout st)
              else (Ok (VoteAdded voting_power), st)
    | Err e => (Err e, st)
    | Panic m => (Panic m, st)
    end
  else (Ok (VoteAdded voting_power), st).

(** Step 4: the timeout of the vote, when there is no quorum certificate. *)
Definition insert_timeout (vote : Vote) (v : ValidatorVerifier) (voting_power : N)
    : M PendingVotes Anyhow VoteReceptionResult := λ st,
  match vote_two_chain_timeout vote with
  | None => (Ok (VoteAdded voting_power), st)
  | Some (timeout, signature) =>
      let partial_tc := default (TwoChainTimeoutWithPartialSignatures_new timeout)
                          (pv_maybe_partial_2chain_tc st) in
      let partial_tc :=
        TwoChainTimeoutWithPartialSignatures_add partial_tc (vote_author vote) timeout signature in
      let st := set_partial_tc partial_tc st in
      match vv_check_voting_power v (tps_signers partial_tc) true with
      | Ok _ =>
          match TwoChainTimeoutWithPartialSignatures_aggregate_signatures partial_tc v with
          | Ok tc_with_sig => (Ok (New2ChainTimeoutCertificate tc_with_sig), st)
          | Err e => (Ok (ErrorAggregatingTimeoutCertificate e), st)
          | Panic m => (Panic m, st)
          end
      | Err (TooLittleVotingPower tc_voting_power) => maybe_echo v tc_voting_power voting_power st
      | Err e => (Ok (ErrorAddingVote e), st)
      | Panic m => (Panic m, st)
      end
  end.

(** The counters and log lines of the source are not part of the state. *)
Definition insert_vote (vote : Vote) (validator_verifier : ValidatorVerifier)
    : M PendingVotes Anyhow VoteReceptionResult := λ st,
  match already_voted st vote with
  | Some r => (Ok r, st)
  | None =>
      let '(li_with_sig, st) := store_vote vote st in
      match vv_check_voting_power validator_verifier (livs_signers li_with_sig) true with
      | Ok aggregated_voting_power =>
          (handle_aggregated_qc validator_verifier aggregated_voting_power vote li_with_sig, st)
      | Err (TooLittleVotingPower voting_power) =>
          insert_timeout vote validator_verifier voting_power st
      | Err e => (Ok (ErrorAddingVote e), st)
      | Panic m => (Panic m, st)
      end
  end.

Definition process_delayed_qc (validator_verifier : ValidatorVerifier) (vote : Vote)
    (st : PendingVotes) : result Anyhow VoteReceptionResult :=
  match pv_li_digest_to_votes st !! li_hash (vote_ledger_info vote) with
  | Some (_, li_with_sig) =>
      match vv_check_voting_power validator_verifier (livs_signers li_with_sig) true with
      | Ok _ => aggregate_qc_now validator_verifier li_with_sig (vote_vote_data vote)
      | Err (TooLittleVotingPower _) => Ok (ErrorAddingVote EmptySignature)
      | Err e => Ok (ErrorAddingVote e)
      | Panic m => Panic m
      end
  | None => Ok (ErrorAddingVote EmptySignature)
  end.

(** [HashMap::drain] lists the entries in an unspecified order. *)
Definition drain_votes (st : PendingVotes)
    : (list (HashValue * LedgerInfoWithVerifiedSignatures)
       * option TwoChainTimeoutWithPartialSignatures) * PendingVotes :=
  ((prod_map id snd <$> map_to_list (pv_li_digest_to_votes st), pv_maybe_partial_2chain_tc st),
   {| pv_li_digest_to_votes := ∅; pv_maybe_partial_2chain_tc := None;
      pv_author_to_vote := pv_author_to_vote st; pv_echo_timeout := pv_echo_timeout st |}).

(** ** Order votes *)

Inductive OrderVoteReceptionResult :=
| OrderVoteAdded (power : N)
| NewLedgerInfoWithSignatures (l : LedgerInfoWithSignatures)
| OrderErrorAddingVote (e : VerifyError)
| OrderErrorAggregatingSignature (e : VerifyError)
| UnknownAuthor (a : Author).

Inductive OrderVoteStatus :=
| EnoughVotes (l : LedgerInfoWithSignatures)
| NotEnoughVotes (l : LedgerInfoWithVerifiedSignatures).

Abbreviation PendingOrderVotes := (gmap HashValue OrderVoteStatus).

Definition PendingOrderVotes_new : PendingOrderVotes := ∅.

Definition insert_order_vote (order_vote : OrderVote) (validator_verifier : ValidatorVerifier)
    : M PendingOrderVotes Anyhow OrderVoteReceptionResult := λ st,
  let li_digest := li_hash (ov_ledger_info order_vote) in
  let status := default (NotEnoughVotes (livs_new (ov_ledger_info order_vote)))
                  (st !! li_digest) in
  let st := <[li_digest := status]> st in
  match status with
  | EnoughVotes li_with_sig => (Ok (NewLedgerInfoWithSignatures li_with_sig), st)
  | NotEnoughVotes li_with_sig =>
      match vv_get_voting_power validator_verifier (ov_author order_vote) with
      | None => (Ok (UnknownAuthor (ov_author order_vote)), st)
      | Some _ =>
          let li_with_sig :=
            livs_add_signature (ov_author order_vote) (ov_signature order_vote) li_with_sig in
          let st := <[li_digest := NotEnoughVotes li_with_sig]> st in
          match vv_check_voting_power validator_verifier (livs_signers li_with_sig) true with
          | Ok aggregated_voting_power =>
              if vv_quorum_voting_power validator_verifier <=? aggregated_voting_power then
                match livs_aggregate_signatures li_with_sig validator_verifier with
                | Ok l => (Ok (NewLedgerInfoWithSignatures l), <[li_digest := EnoughVotes l]> st)
                | Err e => (Ok (OrderErrorAggregatingSignature e), st)
                | Panic m => (Panic m, st)
                end
              else (Panic "QC aggregation should not be triggered if we don't have enough votes to form a QC", st)
          | Err (TooLittleVotingPower voting_power) => (Ok (OrderVoteAdded voting_power), st)
          | Err e => (Ok (OrderErrorAddingVote e), st)
          | Panic m => (Panic m, st)
          end
      end
  end.

(** The round of the ledger info of a status. *)
Definition status_round (s : OrderVoteStatus) : N :=
  match s with
  | EnoughVotes l => li_round (liws_ledger_info l)
  | NotEnoughVotes l => li_round (livs_ledger_info l)
  end.

Definition garbage_collect (highest_ordered_round : N) (st : PendingOrderVotes)
    : PendingOrderVotes :=
  filter (λ kv, highest_ordered_round < status_round kv.2) st.

Definition has_enough_order_votes (ledger_info : LedgerInfo) (st : PendingOrderVotes) : bool :=
  match st !! li_hash ledger_info with
  | Some (EnoughVotes _) => true
  | _ => false
  end.

(** ** Votes received one after the other *)

(** The results of a sequence of [insert_vote]s, and the final state. *)
Fixpoint insert_votes (votes : list Vote) (v : ValidatorVerifier) (st : PendingVotes)
    : list (result Anyhow VoteReceptionResult) * PendingVotes :=
  match votes with
  | [] => ([], st)
  | vote :: votes =>
      let '(r, st) := insert_vote vote v st in
      let '(rs, st) := insert_votes votes v st in
      (r :: rs, st)
  end.

Fixpoint insert_order_votes (votes : list OrderVote) (v : ValidatorVerifier)
    (st : PendingOrderVotes) : list (result Anyhow OrderVoteReceptionResult) * PendingOrderVotes :=
  match votes with
  | [] => ([], st)
  | vote :: votes =>
      let '(r, st) := insert_order_vote vote v st in
      let '(rs, st) := insert_order_votes votes v st in
      (r :: rs, st)
  end.

Section laws.
Context {PL : PendingLaws} {AL : AggregateLaws}.
Context (v : ValidatorVerifier) (epoch round : N).
Implicit Types (st : PendingVotes) (vote : Vote) (a : Author) (d : HashValue)
  (l : LedgerInfoWithVerifiedSignatures).

(** A vote as the round manager passes it on: verified, for this round. *)
Definition vote_checked vote : Prop :=
  Vote_verify vote v = Ok tt ∧ Vote_epoch vote = epoch ∧ Vote_round vote = round.

(** The signatures held for a ledger info are those of the votes held for it, and
    the timeouts held come with votes held. *)
Record pv_inv st : Prop := {
  pi_entry d i l : pv_li_digest_to_votes st !! d = Some (i, l) →
    li_hash (livs_ledger_info l) = d ∧
    ∀ a s, livs_signatures l !! a = Some s →
      ∃ vote, pv_author_to_vote st !! a = Some (vote, d) ∧ vote_signature vote = s;
  pi_vote a vote d : pv_author_to_vote st !! a = Some (vote, d) →
    vote_checked vote ∧ vote_author vote = a ∧ d = li_hash (vote_ledger_info vote) ∧
    ∃ i l, pv_li_digest_to_votes st !! d = Some (i, l) ∧
      livs_signatures l !! a = Some (vote_signature vote);
  pi_timeout t : pv_maybe_partial_2chain_tc st = Some t →
    ∃ seen, collected t seen ∧
      ∀ x, x ∈ seen → ∃ vote d, pv_author_to_vote st !! x.1.1 = Some (vote, d) ∧
        vote_two_chain_timeout vote = Some (x.1.2, x.2);
}.

Lemma PendingVotes_new_inv : pv_inv PendingVotes_new.
Proof. split; simpl; [intros ???|intros ???|]; by rewrite ?lookup_empty. Qed.

(** An author seen before only gets through with the same digest, and its first
    timeout. *)
Lemma already_voted_None st vote w d :
  already_voted st vote = None → pv_author_to_vote st !! vote_author vote = Some (w, d) →
  d = li_hash (vote_ledger_info vote) ∧ is_timeout vote = true ∧ vote_two_chain_timeout w = None.
Proof.
  intros Hnew Hw. unfold already_voted in Hnew. rewrite Hw in Hnew.
  case_bool_decide; [|done]. destruct (is_timeout vote); simpl in Hnew; [|done].
  unfold is_timeout in Hnew. by destruct (vote_two_chain_timeout w).
Qed.

(** The entry a vote is added to has the vote's ledger info. *)
Lemma store_vote_entry st vote :
  pv_inv st →
  livs_ledger_info (store_vote vote st).1 = vote_ledger_info vote ∧
  (∀ a s, livs_signatures (store_vote vote st).1 !! a = Some s ↔
     a = vote_author vote ∧ s = vote_signature vote ∨
     a ≠ vote_author vote ∧ ∃ i l, pv_li_digest_to_votes st !! li_hash (vote_ledger_info vote)
       = Some (i, l) ∧ livs_signatures l !! a = Some s).
Proof.
  intros Hinv. unfold store_vote. simpl.
  rewrite livs_ledger_info_add. setoid_rewrite livs_signatures_add.
  destruct (pv_li_digest_to_votes st !! _) as [[i l]|] eqn:He; simpl.
  - apply (pi_entry _ Hinv) in He as [Hh _]. split; [by apply li_hash_inj|].
    intros a s. rewrite lookup_insert_Some. split.
    + intros [[-> ->]|[? ?]]; [by left|right; split; [done|by exists i, l]].
    + intros [[-> ->]|(? & i' & l' & [= <- <-] & ?)]; [by left|right; done].
  - split; [apply livs_ledger_info_new|]. intros a s.
    rewrite livs_signatures_new, lookup_insert_Some, lookup_empty. split.
    + intros [[-> ->]|[_ ?]]; [by left|done].
    + intros [[-> ->]|(_ & i' & l' & ? & _)]; [by left|done].
Qed.

Lemma store_vote_inv st vote :
  pv_inv st → vote_checked vote → already_voted st vote = None → pv_inv (store_vote vote st).2.
Proof.
  intros Hinv Hvote Hnew. destruct (store_vote_entry st vote Hinv) as [Hli Hsigs].
  unfold store_vote in Hli, Hsigs |- *. simpl in Hli, Hsigs. split; simpl.
  - intros d i l. rewrite lookup_insert_Some. intros [[<- [= <- <-]]|[Hne Hl]].
    + split; [by rewrite Hli|]. intros a s [[-> ->]|(Hne & i & l & Hl & Hs)]%Hsigs.
      { exists vote. by rewrite lookup_insert_eq. }
      apply (pi_entry _ Hinv) in Hl as [_ Hl]. destruct (Hl a s Hs) as (w & Hw & Hws).
      exists w. by rewrite lookup_insert_ne.
    + apply (pi_entry _ Hinv) in Hl as [Hh Hl]. split; [done|]. intros a s Hs.
      destruct (Hl a s Hs) as (w & Hw & Hws). exists w. rewrite lookup_insert_ne; [done|].
      intros <-. by destruct (already_voted_None _ _ _ _ Hnew Hw) as [-> _].
  - intros a w d. rewrite lookup_insert_Some. intros [[<- [= <- <-]]|[Hne Hw]].
    + split; [done|]. split; [done|]. split; [done|]. eexists _, _. rewrite lookup_insert_eq.
      split; [done|]. apply Hsigs. by left.
    + destruct (pi_vote _ Hinv _ _ _ Hw) as (Hc & Ha & Hd & i & l & Hl & Hs).
      split; [done|]. split; [done|]. split; [done|].
      destruct (decide (li_hash (vote_ledger_info vote) = d)) as [He|He].
      * rewrite <- He in Hl |- *. eexists _, _. rewrite lookup_insert_eq. split; [done|].
        apply Hsigs. right. split; [done|]. by exists i, l.
      * exists i, l. by rewrite lookup_insert_ne.
  - intros t Ht. destruct (pi_timeout _ Hinv t Ht) as (seen & Hcol & Hseen).
    exists seen. split; [done|]. intros x Hx. destruct (Hseen x Hx) as (w & d & Hw & Htm).
    exists w, d. rewrite lookup_insert_ne; [done|].
    intros Heq. rewrite <- Heq in Hw.
    destruct (already_voted_None _ _ _ _ Hnew Hw) as (_ & _ & ?). congruence.
Qed.

(** The signatures of an entry are valid for its ledger info. *)
Lemma entry_valid st d i l :
  pv_inv st → pv_li_digest_to_votes st !! d = Some (i, l) →
  map_Forall (λ a s, vv_verify v a (SignLedgerInfo (livs_ledger_info l)) s = Ok tt)
    (livs_signatures l).
Proof.
  intros Hinv Hl a s Hs. destruct (pi_entry _ Hinv _ _ _ Hl) as [Hh Hsig].
  destruct (Hsig a s Hs) as (w & Hw & <-).
  destruct (pi_vote _ Hinv _ _ _ Hw) as ([Hv _] & <- & Hd & _).
  apply Vote_verify_Ok in Hv as (_ & Hv & _). rewrite <- Hh in Hd.
  by rewrite (li_hash_inj _ _ Hd).
Qed.

Lemma store_vote_lookup st vote :
  ∃ i, pv_li_digest_to_votes (store_vote vote st).2 !! li_hash (vote_ledger_info vote)
    = Some (i, (store_vote vote st).1).
Proof. eexists. unfold store_vote. simpl. by rewrite lookup_insert_eq. Qed.

(** The timeouts held belong to votes held, none of them of author [a]. *)
Definition timeouts_without a st : Prop :=
  ∀ t, pv_maybe_partial_2chain_tc st = Some t →
    ∃ seen, collected t seen ∧ (a ∉ (fst ∘ fst <$> seen)) ∧
      ∀ x, x ∈ seen → ∃ w d, pv_author_to_vote st !! x.1.1 = Some (w, d) ∧
        vote_two_chain_timeout w = Some (x.1.2, x.2).

(** A vote that gets past step 1 has no timeout counted yet. *)
Lemma store_vote_fresh st vote :
  pv_inv st → already_voted st vote = None →
  timeouts_without (vote_author vote) (store_vote vote st).2.
Proof.
  intros Hinv Hnew t Ht. simpl in Ht. destruct (pi_timeout _ Hinv t Ht) as (seen & Hcol & Hseen).
  assert (Hne : ∀ x, x ∈ seen → x.1.1 ≠ vote_author vote).
  { intros x Hx Heq. destruct (Hseen x Hx) as (w & d & Hw & Htm). rewrite Heq in Hw.
    destruct (already_voted_None _ _ _ _ Hnew Hw) as (_ & _ & ?). congruence. }
  exists seen. split; [done|]. split.
  - intros (x & Heq & Hx)%list_elem_of_fmap. by apply (Hne x Hx).
  - intros x Hx. destruct (Hseen x Hx) as (w & d & Hw & Htm). exists w, d. simpl.
    rewrite lookup_insert_ne; [done|]. intros Heq. by apply (Hne x Hx).
Qed.

(** Adding the timeout of a vote that is held, and was not counted before. *)
Lemma set_partial_tc_inv st vote d timeout s :
  pv_inv st → pv_author_to_vote st !! vote_author vote = Some (vote, d) →
  vote_two_chain_timeout vote = Some (timeout, s) → timeouts_without (vote_author vote) st →
  pv_inv (set_partial_tc (TwoChainTimeoutWithPartialSignatures_add
    (default (TwoChainTimeoutWithPartialSignatures_new timeout) (pv_maybe_partial_2chain_tc st))
    (vote_author vote) timeout s) st).
Proof.
  intros Hinv Hw Htm Hfresh. split; [apply (pi_entry _ Hinv)|apply (pi_vote _ Hinv)|].
  simpl. intros t [= <-]. destruct (pv_maybe_partial_2chain_tc st) as [t|] eqn:Ht; simpl.
  - destruct (Hfresh t Ht) as (seen & Hcol & Hnot & Hseen).
    exists (seen ++ [(vote_author vote, timeout, s)]).
    split; [by apply collected_add|].
    intros x [Hx| ->%list_elem_of_singleton]%elem_of_app; [by apply Hseen|]. by exists vote, d.
  - eexists. split; [apply collected_first|].
    intros x ->%list_elem_of_singleton. by exists vote, d.
Qed.

(** A certificate made of the timeouts held verifies. *)
Lemma aggregate_timeouts_verify st t p tc :
  pv_inv st → pv_maybe_partial_2chain_tc st = Some t →
  vv_check_voting_power v (tps_signers t) true = Ok p →
  TwoChainTimeoutWithPartialSignatures_aggregate_signatures t v = Ok tc →
  TwoChainTimeoutCertificate_verify tc v = Ok tt ∧ tc_epoch tc = epoch ∧ tc_round tc = round.
Proof.
  intros Hinv Ht Hp Hagg. destruct (pi_timeout _ Hinv t Ht) as (seen & Hcol & Hseen).
  assert (Hall : Forall (timeout_checked v epoch round) seen).
  { apply Forall_forall. intros x Hx. destruct (Hseen x Hx) as (w & d & Hw & Htm).
    destruct (pi_vote _ Hinv _ _ _ Hw) as ((Hv & He & Hr) & Ha & _).
    apply Vote_verify_Ok in Hv as (_ & _ & Hv & _).
    destruct (Hv _ _ Htm) as (He' & Hr' & Htv & Hs). rewrite Ha in Hs.
    split; [by eapply vv_verify_known|]. split; [congruence|]. split; [congruence|done]. }
  destruct (vv_aggregate_signatures v (get_partial_sig_with_rounds (tps_signatures t)
    (vv_address_to_validator_index v)).1) as [sig| |] eqn:Hsig.
  - destruct (collected_aggregate_verify t seen v epoch round sig) as (tc' & Htc' & ? & ? & ? & _);
      [done|done|by rewrite Hp|done|]. rewrite Hagg in Htc'. by injection Htc' as ->.
  - unfold TwoChainTimeoutWithPartialSignatures_aggregate_signatures in Hagg.
    destruct (get_partial_sig_with_rounds _ _). simpl in Hsig. by rewrite Hsig in Hagg.
  - unfold TwoChainTimeoutWithPartialSignatures_aggregate_signatures in Hagg.
    destruct (get_partial_sig_with_rounds _ _). simpl in Hsig. by rewrite Hsig in Hagg.
Qed.

(** A certificate made of an entry verifies. *)
Lemma aggregate_votes_verify st vote i l p x :
  pv_inv st → vote_checked vote →
  pv_li_digest_to_votes st !! li_hash (vote_ledger_info vote) = Some (i, l) →
  vv_check_voting_power v (livs_signers l) true = Ok p →
  livs_aggregate_signatures l v = Ok x →
  QuorumCert_verify (QuorumCert_new (vote_vote_data vote) x) v = Ok tt.
Proof.
  intros Hinv (Hv & _ & _) Hl Hp Hx. destruct (pi_entry _ Hinv _ _ _ Hl) as [Hh%li_hash_inj _].
  apply Vote_verify_Ok in Hv as (Hhash & _ & _ & Hvd).
  assert (Hsig : liws_verify_signatures x v = Ok tt).
  { eapply livs_aggregate_verify; [done| |by eapply entry_valid]. unfold livs_signers in Hp.
    by rewrite Hp. }
  pose proof (livs_aggregate_ledger_info _ _ _ Hx) as Hli.
  unfold QuorumCert_verify, QuorumCert_ledger_info, certified_block. simpl.
  rewrite Hli, Hh, (bool_decide_eq_true_2 _ Hhash). simpl.
  pose proof (proj1 (VoteData_verify_Ok _) Hvd) as (_ & Hlt & _).
  rewrite (proj2 (N.eqb_neq _ _)) by lia. by rewrite Hsig.
Qed.

(** What one [insert_vote] returns and leaves behind. *)
Definition result_sound (r : result Anyhow VoteReceptionResult) : Prop :=
  match r with
  | Ok (NewQuorumCertificate qc) =>
      QuorumCert_verify qc v = Ok tt ∧
      bi_epoch (certified_block qc) = epoch ∧ bi_round (certified_block qc) = round
  | Ok (New2ChainTimeoutCertificate tc) =>
      TwoChainTimeoutCertificate_verify tc v = Ok tt ∧ tc_epoch tc = epoch ∧ tc_round tc = round
  | _ => True
  end.

Lemma maybe_echo_sound st tp p r st' :
  pv_inv st → maybe_echo v tp p st = (r, st') → pv_inv st' ∧ result_sound r.
Proof.
  intros Hinv. unfold maybe_echo. destruct (negb _); [|by intros [= <- <-]].
  destruct (f_plus_one v); [destruct (_ <=? _)|..]; intros [= <- <-]; try done.
  split; [|done]. split; [apply (pi_entry _ Hinv)|apply (pi_vote _ Hinv)|apply (pi_timeout _ Hinv)].
Qed.

Lemma insert_timeout_sound st vote d p r st' :
  pv_inv st → pv_author_to_vote st !! vote_author vote = Some (vote, d) →
  timeouts_without (vote_author vote) st →
  insert_timeout vote v p st = (r, st') → pv_inv st' ∧ result_sound r.
Proof.
  intros Hinv Hw Hfresh. unfold insert_timeout.
  destruct (vote_two_chain_timeout vote) as [[timeout s]|] eqn:Htm; [|by intros [= <- <-]].
  pose proof (set_partial_tc_inv st vote d timeout s Hinv Hw Htm Hfresh) as Hinv'.
  set (t := TwoChainTimeoutWithPartialSignatures_add _ _ _ _) in *.
  destruct (vv_check_voting_power v (tps_signers t) true) as [q|[]|] eqn:Hq;
    [|by apply maybe_echo_sound|by intros [= <- <-]..].
  destruct (TwoChainTimeoutWithPartialSignatures_aggregate_signatures t v) eqn:Hagg;
    intros [= <- <-]; try done.
  split; [done|]. by eapply aggregate_timeouts_verify.
Qed.

Lemma insert_vote_sound st vote r st' :
  pv_inv st → vote_checked vote → insert_vote vote v st = (r, st') → pv_inv st' ∧ result_sound r.
Proof.
  intros Hinv Hvote. unfold insert_vote.
  destruct (already_voted st vote) as [r0|] eqn:Hnew.
  { intros [= <- <-]. split; [done|]. unfold already_voted in Hnew.
    repeat case_match; by simplify_eq. }
  pose proof (store_vote_inv st vote Hinv Hvote Hnew) as Hinv'.
  pose proof (store_vote_fresh st vote Hinv Hnew) as Hfresh.
  destruct (store_vote_lookup st vote) as [i Hl].
  assert (Hw : pv_author_to_vote (store_vote vote st).2 !! vote_author vote
    = Some (vote, li_hash (vote_ledger_info vote))) by apply lookup_insert_eq.
  destruct (store_vote vote st) as [l st1]. simpl in *.
  destruct (vv_check_voting_power v (livs_signers l) true) as [p|[]|] eqn:Hp;
    [|by eapply insert_timeout_sound|by intros [= <- <-]..].
  intros [= <- <-]. split; [done|]. unfold handle_aggregated_qc, assert_, aggregate_qc_now.
  destruct (_ <=? _); simpl; [|done].
  destruct (livs_aggregate_signatures l v) eqn:Hx; try done. simpl.
  split; [by eapply aggregate_votes_verify|]. apply Hvote.
Qed.

Lemma insert_votes_sound votes st rs st' :
  pv_inv st → Forall vote_checked votes → insert_votes votes v st = (rs, st') →
  pv_inv st' ∧ Forall result_sound rs.
Proof.
  revert st rs st'. induction votes as [|vote votes IH]; intros st rs st' Hinv Hall; simpl.
  { intros [= <- <-]. by split; [|constructor]. }
  apply Forall_cons in Hall as [Hvote Hall].
  destruct (insert_vote vote v st) as [r st1] eqn:Hone.
  destruct (insert_vote_sound _ _ _ _ Hinv Hvote Hone) as [Hinv1 Hr].
  destruct (insert_votes votes v st1) as [rs1 st2] eqn:Hrest. intros [= <- <-].
  destruct (IH _ _ _ Hinv1 Hall Hrest) as [? ?]. split; [done|by constructor].
Qed.

(** C7: Every certificate [PendingVotes::insert_vote] reports is valid. From an empty
    collection and any sequence of verified votes, a reported quorum certificate
    passes [QuorumCert::verify] and a reported timeout certificate passes
    [TwoChainTimeoutCertificate::verify] for the round of the collection. *)
Theorem insert_votes_certificates votes rs st :
  Forall vote_checked votes → insert_votes votes v PendingVotes_new = (rs, st) →
  Forall result_sound rs.
Proof.
  intros Hall Hrun.
  by destruct (insert_votes_sound _ _ _ _ PendingVotes_new_inv Hall Hrun).
Qed.

(** C14: An author is counted for at most one ledger info of a round: after any sequence
    of verified votes, the signer sets collected under two digests share an author
    only if the digests are equal. *)
Theorem insert_votes_count_once votes rs st a d1 d2 i1 i2 l1 l2 :
  Forall vote_checked votes → insert_votes votes v PendingVotes_new = (rs, st) →
  pv_li_digest_to_votes st !! d1 = Some (i1, l1) → a ∈ livs_signers l1 →
  pv_li_digest_to_votes st !! d2 = Some (i2, l2) → a ∈ livs_signers l2 → d1 = d2.
Proof.
  intros Hall Hrun Hl1 Ha1 Hl2 Ha2.
  destruct (insert_votes_sound _ _ _ _ PendingVotes_new_inv Hall Hrun) as [Hinv _].
  unfold livs_signers in *.
  apply list_elem_of_fmap in Ha1 as ([? s1] & -> & Hs1%elem_of_map_to_list).
  apply list_elem_of_fmap in Ha2 as ([? s2] & Heq & Hs2%elem_of_map_to_list). simpl in *. subst.
  destruct (pi_entry _ Hinv _ _ _ Hl1) as [_ H1]. destruct (H1 _ _ Hs1) as (w1 & Hw1 & _).
  destruct (pi_entry _ Hinv _ _ _ Hl2) as [_ H2]. destruct (H2 _ _ Hs2) as (w2 & Hw2 & _).
  congruence.
Qed.

(** [insert_vote] leaves the votes held by other authors alone. *)
Lemma insert_vote_author_to_vote st vote r st' :
  already_voted st vote = None → insert_vote vote v st = (r, st') →
  pv_author_to_vote st'
  = <[vote_author vote := (vote, li_hash (vote_ledger_info vote))]> (pv_author_to_vote st).
Proof.
  intros Hnew. unfold insert_vote. rewrite Hnew. unfold insert_timeout, maybe_echo.
  destruct (store_vote vote st) as [l st1] eqn:Hst. unfold store_vote in Hst.
  injection Hst as _ <-. intros H. repeat case_match; by simplify_eq.
Qed.

(** Without equivocation the votes held are the votes received. *)
Lemma insert_votes_held votes rs st :
  NoDup (vote_author <$> votes) → insert_votes votes v PendingVotes_new = (rs, st) →
  ∀ a w d, pv_author_to_vote st !! a = Some (w, d) ↔
    w ∈ votes ∧ vote_author w = a ∧ d = li_hash (vote_ledger_info w).
Proof.
  assert (Hgen : ∀ votes st0 rs st, NoDup (vote_author <$> votes) →
    (∀ w, w ∈ votes → pv_author_to_vote st0 !! vote_author w = None) →
    insert_votes votes v st0 = (rs, st) →
    ∀ a w d, pv_author_to_vote st !! a = Some (w, d) ↔
      pv_author_to_vote st0 !! a = Some (w, d) ∨
      w ∈ votes ∧ vote_author w = a ∧ d = li_hash (vote_ledger_info w)).
  { clear. induction votes as [|vote votes IH]; intros st0 rs st Hnd Hfree Hrun a w d; simpl in Hrun.
    { injection Hrun as _ <-. split; [by left|by intros [?|[?%not_elem_of_nil _]]]. }
    apply NoDup_cons in Hnd as [Hnot Hnd].
    destruct (insert_vote vote v st0) as [r st1] eqn:Hone.
    destruct (insert_votes votes v st1) as [rs1 st2] eqn:Hrest. injection Hrun as _ <-.
    assert (Hvote : pv_author_to_vote st0 !! vote_author vote = None)
      by (apply Hfree, elem_of_cons; by left).
    assert (Hnew : already_voted st0 vote = None) by (unfold already_voted; by rewrite Hvote).
    pose proof (insert_vote_author_to_vote _ _ _ _ Hnew Hone) as Hmap.
    assert (Hfree1 : ∀ w', w' ∈ votes → pv_author_to_vote st1 !! vote_author w' = None).
    { intros w' Hw'. rewrite Hmap, lookup_insert_ne; [apply Hfree, elem_of_cons; by right|].
      intros Heq. apply Hnot. rewrite Heq. by apply list_elem_of_fmap_2. }
    rewrite (IH st1 rs1 st2 Hnd Hfree1 Hrest).
    rewrite Hmap, lookup_insert_Some, elem_of_cons. split.
    - intros [[[<- [= <- <-]]|[_ ?]]|(? & ? & ?)]; [right; by split; [left|]|by left|].
      right. split; [by right|done].
    - intros [Hw|[[->|Hw] [<- ->]]]; [|left; by left|by right].
      left. right. split; [congruence|done]. }
  intros Hnd Hrun a w d. rewrite (Hgen votes PendingVotes_new rs st Hnd (λ _ _, lookup_empty _) Hrun).
  simpl. rewrite lookup_empty. split; [by intros [?|?]|by right].
Qed.

Lemma insert_votes_app votes1 votes2 st :
  insert_votes (votes1 ++ votes2) v st
  = let '(rs1, st1) := insert_votes votes1 v st in
    let '(rs2, st2) := insert_votes votes2 v st1 in (rs1 ++ rs2, st2).
Proof.
  revert st. induction votes1 as [|vote votes1 IH]; intros st; simpl.
  { by destruct (insert_votes votes2 v st). }
  destruct (insert_vote vote v st) as [r st1]. rewrite IH.
  destruct (insert_votes votes1 v st1) as [rs1 st2]. by destruct (insert_votes votes2 v st2).
Qed.

(** The votes of a list for the ledger info of a vote. *)
Definition same_ledger_info vote (votes : list Vote) : list Vote :=
  filter (λ w, li_hash (vote_ledger_info w) = li_hash (vote_ledger_info vote)) votes.

Lemma elem_of_livs_signers l a : a ∈ livs_signers l ↔ is_Some (livs_signatures l !! a).
Proof.
  unfold livs_signers. rewrite list_elem_of_fmap. split.
  - intros ([b s] & -> & Hs%elem_of_map_to_list). by exists s.
  - intros [s Hs]. exists (a, s). by rewrite elem_of_map_to_list.
Qed.

(** Without equivocation, the signers held for a ledger info are the authors of
    the votes received for it. *)
Lemma store_vote_signers votes rs st vote :
  Forall vote_checked votes → NoDup (vote_author <$> votes ++ [vote]) →
  insert_votes votes v PendingVotes_new = (rs, st) →
  livs_signers (store_vote vote st).1 ≡ₚ vote_author <$> same_ledger_info vote (votes ++ [vote]).
Proof.
  intros Hall Hnd Hrun.
  destruct (insert_votes_sound _ _ _ _ PendingVotes_new_inv Hall Hrun) as [Hinv _].
  assert (Hnd1 : NoDup (vote_author <$> votes)) by (rewrite fmap_app, NoDup_app in Hnd; by destruct Hnd).
  pose proof (insert_votes_held votes rs st Hnd1 Hrun) as Hheld.
  destruct (store_vote_entry st vote Hinv) as [_ Hsigs].
  apply NoDup_Permutation; [apply NoDup_fst_map_to_list| |].
  { eapply sublist_NoDup; [exact Hnd|]. apply fmap_sublist, sublist_filter. }
  intros a. rewrite elem_of_livs_signers, list_elem_of_fmap. unfold same_ledger_info.
  setoid_rewrite list_elem_of_filter. setoid_rewrite elem_of_app.
  setoid_rewrite list_elem_of_singleton. split.
  - intros [s [[-> _]|(Hne & i & l & Hl & Hs)]%Hsigs]; [exists vote; auto|].
    destruct (pi_entry _ Hinv _ _ _ Hl) as [_ Hsig]. destruct (Hsig _ _ Hs) as (w & Hw & _).
    apply Hheld in Hw as (Hw & <- & Hh). exists w. auto.
  - intros (w & -> & Hh & [Hw| ->]); [|exists (vote_signature vote); apply Hsigs; by left].
    destruct (pi_vote _ Hinv (vote_author w) w (li_hash (vote_ledger_info w)))
      as (_ & _ & _ & i & l & Hl & Hs); [by apply Hheld|].
    exists (vote_signature w). apply Hsigs. right. rewrite Hh in Hl. split; [|by exists i, l].
    intros Heq. rewrite fmap_app, NoDup_app in Hnd. destruct Hnd as (_ & Hdis & _).
    apply (Hdis (vote_author w)); [by apply list_elem_of_fmap_2|]. simpl. set_solver.
Qed.

(** C8: A quorum yields a certificate. When verified votes of distinct authors arrive
    and the last one completes a quorum among the votes for its own ledger info,
    that insertion returns a new quorum certificate for its vote data, whatever
    other ledger infos and timeouts were voted for in between. *)
Theorem insert_votes_quorum votes vote :
  Forall vote_checked (votes ++ [vote]) → NoDup (vote_author <$> votes ++ [vote]) →
  is_ok (vv_check_voting_power v
    (vote_author <$> same_ledger_info vote (votes ++ [vote])) true) = true →
  ∃ rs st qc, insert_votes (votes ++ [vote]) v PendingVotes_new
    = (rs ++ [Ok (NewQuorumCertificate qc)], st) ∧ qc_vote_data qc = vote_vote_data vote.
Proof.
  intros [Hall1 [Hvote _]%Forall_cons]%Forall_app Hnd Hok.
  rewrite insert_votes_app. destruct (insert_votes votes v PendingVotes_new) as [rs st] eqn:Hrun.
  destruct (insert_votes_sound _ _ _ _ PendingVotes_new_inv Hall1 Hrun) as [Hinv _].
  pose proof (store_vote_signers votes rs st vote Hall1 Hnd Hrun) as Hperm.
  rewrite fmap_app, NoDup_app in Hnd. destruct Hnd as (Hnd1 & Hdis & _).
  assert (Hnew : already_voted st vote = None).
  { unfold already_voted. destruct (_ !! _) as [[w d]|] eqn:Hw; [|done].
    apply (insert_votes_held votes rs st Hnd1 Hrun) in Hw as (Hw & Ha & _).
    destruct (Hdis (vote_author vote)); [rewrite <- Ha; by apply list_elem_of_fmap_2|].
    by apply list_elem_of_singleton. }
  pose proof (store_vote_inv st vote Hinv Hvote Hnew) as Hinv'.
  destruct (store_vote_lookup st vote) as [i Hl].
  destruct (store_vote_entry st vote Hinv) as [_ Hsigs].
  rewrite <- (vv_check_perm v _ _ Hperm) in Hok. simpl. unfold insert_vote. rewrite Hnew.
  destruct (store_vote vote st) as [l st1]. simpl in *.
  destruct (vv_check_voting_power v (livs_signers l) true) as [p| |] eqn:Hp; [|done..].
  assert (Hagg : is_ok (livs_aggregate_signatures l v) = true).
  { apply livs_aggregate_valid; [|by eapply entry_valid]. intros He.
    pose proof (proj2 (Hsigs _ _) (or_introl (conj eq_refl eq_refl))) as Hs.
    by rewrite He, lookup_empty in Hs. }
  unfold handle_aggregated_qc, aggregate_qc_now.
  rewrite (proj2 (N.leb_le _ _) (vv_check_quorum _ _ _ Hp)). simpl.
  destruct (livs_aggregate_signatures l v) as [x| |]; [|done..]. by eexists _, _, _.
Qed.

(** The echoes among the results. *)
Definition echoes (rs : list (result Anyhow VoteReceptionResult)) : list N :=
  omap (λ r, match r with Ok (EchoTimeout p) => Some p | _ => None end) rs.

Lemma insert_vote_echo st vote r st' :
  insert_vote vote v st = (r, st') →
  echoes [r] = [] ∧ pv_echo_timeout st' = pv_echo_timeout st ∨
  ∃ p f, r = Ok (EchoTimeout p) ∧ f_plus_one v = Ok f ∧ f ≤ p ∧
    pv_echo_timeout st = false ∧ pv_echo_timeout st' = true.
Proof.
  unfold insert_vote. destruct (already_voted st vote) as [r0|] eqn:Hnew.
  { intros [= <- <-]. left. split; [|done]. unfold already_voted in Hnew.
    repeat case_match; by simplify_eq. }
  unfold store_vote, insert_timeout, maybe_echo, handle_aggregated_qc, aggregate_qc_now, assert_.
  intros H. repeat case_match; simplify_eq; try (left; by split).
  right. eexists _, _. split; [done|]. split; [done|]. split; [by apply N.leb_le|].
  split; [by apply negb_true_iff|done].
Qed.

(** The echo of timeouts fires at most once per round, whatever votes arrive, and
    only when the timeout voting power has reached f+1 (total minus quorum plus
    one). *)
Theorem insert_votes_echo_once votes rs st :
  insert_votes votes v PendingVotes_new = (rs, st) →
  echoes rs = [] ∨ ∃ p f, echoes rs = [p] ∧ f_plus_one v = Ok f ∧ f ≤ p.
Proof.
  assert (Hgen : ∀ votes st0 rs st, insert_votes votes v st0 = (rs, st) →
    echoes rs = [] ∨ pv_echo_timeout st0 = false ∧
      ∃ p f, echoes rs = [p] ∧ f_plus_one v = Ok f ∧ f ≤ p).
  { clear. induction votes as [|vote votes IH]; intros st0 rs st; simpl.
    { intros [= <- <-]. by left. }
    destruct (insert_vote vote v st0) as [r st1] eqn:Hone.
    destruct (insert_votes votes v st1) as [rs1 st2] eqn:Hrest. intros [= <- <-].
    change (echoes (r :: rs1)) with (echoes ([r] ++ rs1)). unfold echoes in *. rewrite omap_app.
    destruct (IH _ _ _ Hrest) as [Hnone|(Hf & p & f & Hsome)];
      destruct (insert_vote_echo _ _ _ _ Hone) as [[He Hst]|(q & g & -> & Hg & Hle & Hf0 & Ht)].
    - left. unfold echoes in He. by rewrite He, Hnone.
    - right. split; [done|]. exists q, g. by rewrite Hnone.
    - right. split; [congruence|]. exists p, f. unfold echoes in He. by rewrite He.
    - congruence. }
  intros Hrun. destruct (Hgen _ _ _ _ Hrun) as [?|[_ ?]]; [by left|by right].
Qed.

(** ** Order votes *)

Definition order_vote_checked (ov : OrderVote) : Prop := OrderVote_verify ov v = Ok tt.

(** A status collects valid signatures for the ledger info of its digest, or
    holds a certificate for it that verifies. *)
Definition status_ok d (s : OrderVoteStatus) : Prop :=
  match s with
  | EnoughVotes x => li_hash (liws_ledger_info x) = d ∧ liws_verify_signatures x v = Ok tt
  | NotEnoughVotes l =>
      li_hash (livs_ledger_info l) = d ∧
      map_Forall (λ a s, vv_verify v a (SignLedgerInfo (livs_ledger_info l)) s = Ok tt)
        (livs_signatures l)
  end.

Definition order_result_sound (r : result Anyhow OrderVoteReceptionResult) : Prop :=
  match r with
  | Ok (NewLedgerInfoWithSignatures x) => liws_verify_signatures x v = Ok tt
  | _ => True
  end.

Lemma add_order_vote_ok ov d l :
  order_vote_checked ov → d = li_hash (ov_ledger_info ov) → status_ok d (NotEnoughVotes l) →
  status_ok d (NotEnoughVotes (livs_add_signature (ov_author ov) (ov_signature ov) l)).
Proof.
  intros [_ Hv]%OrderVote_verify_Ok -> [Hh Hs]. simpl. rewrite livs_ledger_info_add.
  split; [done|]. rewrite livs_signatures_add. apply map_Forall_insert_2; [|done].
  by rewrite (li_hash_inj _ _ Hh).
Qed.

Lemma insert_order_vote_sound (st st' : PendingOrderVotes) ov r :
  map_Forall status_ok st → order_vote_checked ov →
  insert_order_vote ov v st = (r, st') →
  map_Forall status_ok st' ∧ order_result_sound r ∧
  (∀ x, r = Ok (NewLedgerInfoWithSignatures x) →
     liws_ledger_info x = ov_ledger_info ov ∧ has_enough_order_votes (ov_ledger_info ov) st' = true).
Proof.
  intros Hst Hov. unfold insert_order_vote. set (d := li_hash (ov_ledger_info ov)).
  set (status := default _ _). assert (Hs : status_ok d status).
  { unfold status. destruct (st !! d) as [s|] eqn:Hd; simpl; [by apply Hst|].
    rewrite livs_ledger_info_new, livs_signatures_new. split; [done|apply map_Forall_empty]. }
  clearbody status. unfold has_enough_order_votes.
  destruct status as [x|l].
  { intros [= <- <-]. pose proof Hs as [Hh%li_hash_inj Hv].
    split; [by apply map_Forall_insert_2|]. split; [done|]. intros ? [= <-]. split; [done|].
    fold d. by rewrite lookup_insert_eq. }
  destruct (vv_get_voting_power _ _).
  2:{ intros [= <- <-]. split; [by apply map_Forall_insert_2|]. by split. }
  pose proof (add_order_vote_ok ov d l Hov eq_refl Hs) as Hs'.
  set (l' := livs_add_signature _ _ _) in *.
  assert (Hst' : map_Forall status_ok (<[d := NotEnoughVotes l']> (<[d := NotEnoughVotes l]> st)))
    by (apply map_Forall_insert_2; [|apply map_Forall_insert_2]; done).
  destruct (vv_check_voting_power v (livs_signers l') true) as [p|[]|] eqn:Hp;
    [|by intros [= <- <-]..].
  destruct (_ <=? _); [|by intros [= <- <-]].
  destruct (livs_aggregate_signatures l' v) as [x| |] eqn:Hx; intros [= <- <-]; try done.
  destruct Hs' as [Hh Hsig]. pose proof (livs_aggregate_ledger_info _ _ _ Hx) as Hli.
  assert (Hver : liws_verify_signatures x v = Ok tt).
  { eapply livs_aggregate_verify; [done| |done]. unfold livs_signers in Hp. by rewrite Hp. }
  split; [apply map_Forall_insert_2; [by rewrite <- Hh, <- Hli|done]|]. split; [done|].
  intros ? [= <-]. split; [rewrite Hli; by apply li_hash_inj|]. fold d. by rewrite lookup_insert_eq.
Qed.

(** A certificate that was made is kept. *)
Lemma insert_order_vote_keeps (st st' : PendingOrderVotes) ov r li :
  insert_order_vote ov v st = (r, st') → has_enough_order_votes li st = true →
  has_enough_order_votes li st' = true.
Proof.
  unfold insert_order_vote, has_enough_order_votes. intros Hrun Hhas.
  destruct (decide (li_hash (ov_ledger_info ov) = li_hash li)) as [Heq|Hne].
  - rewrite Heq in Hrun. destruct (st !! li_hash li) as [[x|l]|]; [|done..]. simpl in Hrun.
    injection Hrun as _ <-. by rewrite lookup_insert_eq.
  - repeat case_match; simplify_eq; rewrite ?lookup_insert_ne in * by done; congruence.
Qed.

Lemma insert_order_votes_keeps votes rs (st st' : PendingOrderVotes) li :
  insert_order_votes votes v st = (rs, st') → has_enough_order_votes li st = true →
  has_enough_order_votes li st' = true.
Proof.
  revert rs st. induction votes as [|ov votes IH]; intros rs st; simpl; [by intros [= _ <-]|].
  destruct (insert_order_vote ov v st) as [r st1] eqn:Hone.
  destruct (insert_order_votes votes v st1) as [rs1 st2] eqn:Hrest. intros [= <- <-] Hhas.
  eapply IH; [done|]. by eapply insert_order_vote_keeps.
Qed.

(** C15: Order votes. From an empty collection and any sequence of verified order votes,
    a ledger info reported as newly certified has a valid aggregate signature and a
    zero consensus data hash, and from then on [has_enough_order_votes] answers true
    for it. *)
Theorem insert_order_votes_certificates votes rs (st : PendingOrderVotes) x :
  Forall order_vote_checked votes → insert_order_votes votes v PendingOrderVotes_new = (rs, st) →
  Ok (NewLedgerInfoWithSignatures x) ∈ rs →
  liws_verify_signatures x v = Ok tt ∧ li_consensus_data_hash (liws_ledger_info x) = HashValue_zero ∧
  has_enough_order_votes (liws_ledger_info x) st = true.
Proof.
  assert (Hempty : map_Forall status_ok PendingOrderVotes_new) by apply map_Forall_empty.
  revert Hempty. generalize PendingOrderVotes_new. revert rs.
  induction votes as [|ov votes IH]; intros rs st0 Hst Hall; simpl.
  { by intros [= <- <-] ?%not_elem_of_nil. }
  apply Forall_cons in Hall as [Hov Hall].
  destruct (insert_order_vote ov v st0) as [r st1] eqn:Hone.
  destruct (insert_order_votes votes v st1) as [rs1 st2] eqn:Hrest. intros [= <- <-].
  destruct (insert_order_vote_sound _ _ _ _ Hst Hov Hone) as (Hst1 & Hr & Hx).
  intros [<-|Hin]%elem_of_cons; [|by eapply IH].
  destruct (Hx x eq_refl) as [Hli Hhas]. split; [done|]. rewrite Hli.
  apply OrderVote_verify_Ok in Hov as [Hzero _]. split; [done|].
  by eapply insert_order_votes_keeps.
Qed.

End laws.
End pending_votes.
