(* ===== verification/RoundState.v ===== *)
(** * The round state (consensus/src/liveness/round_state.rs)

    The pacemaker: the current round of a validator, the votes pending for it
    and the local timeout.  The theorems show that new-round events carry
    strictly increasing rounds, that the current round is one above the highest
    certificate seen, that the votes kept are votes of the current round and
    that no arithmetic of the deadline overflows. *)

From S2P Require Import Prelude Gaptos Types Certificates PendingVotes.

Section round_state.
Context {GA : Gaptos} {VE : Verifier} {CR : Crypto} {PI : PartialLedgerInfo}.

(** ** Durations, in nanoseconds *)

Abbreviation Duration := N (only parsing).

(** [Duration::from_secs(u64::MAX)]. *)
Definition from_secs_max : Duration := u64_max * 1000000000.
(** The largest [Duration]. *)
Definition duration_max : Duration := from_secs_max + 999999999.

(** [Duration * u32] and [Duration + Duration] panic on overflow. *)
Definition duration_mul (d : Duration) (k : N) : result Anyhow Duration :=
  if d * k <=? duration_max then Ok (d * k) else Panic "overflow when multiplying duration by scalar".
Definition duration_add (d1 d2 : Duration) : result Anyhow Duration :=
  if d1 + d2 <=? duration_max then Ok (d1 + d2) else Panic "overflow when adding durations".

Inductive NewRoundReason := QCReady | Timeout_.

Record NewRoundEvent := {
  nre_round : Round;
  nre_reason : NewRoundReason;
  nre_timeout : Duration;
  nre_prev_round_votes : list (HashValue * LedgerInfoWithVerifiedSignatures);
  nre_prev_round_timeout_votes : option TwoChainTimeoutWithPartialSignatures;
}.

(** [time_interval] is a trait object, here its method [get_round_duration].  The
    channels and the timer task behind [abort_handle] are one field: the timeout
    that is scheduled, with the round it will report; scheduling another one
    aborts it.  The clock is an argument of the operations that read it. *)
Record RoundState := {
  rs_get_round_duration : N → Duration;
  rs_highest_ordered_round : Round;
  rs_current_round : Round;
  rs_current_round_deadline : Duration;
  rs_pending_votes : PendingVotes;
  rs_vote_sent : option Vote;
  rs_scheduled : option (Duration * Round);
  rs_is_validator : bool;
}.

Definition RoundState_new (time_interval : N → Duration) (is_validator : bool) : RoundState :=
  {| rs_get_round_duration := time_interval;
     rs_highest_ordered_round := 0; rs_current_round := 0;
     rs_current_round_deadline := from_secs_max;
     rs_pending_votes := PendingVotes_new; rs_vote_sent := None;
     rs_scheduled := None; rs_is_validator := is_validator |}.

(** ** Field updates *)

Definition set_rounds (ordered current : Round) (rs : RoundState) : RoundState :=
  {| rs_get_round_duration := rs_get_round_duration rs;
     rs_highest_ordered_round := ordered; rs_current_round := current;
     rs_current_round_deadline := rs_current_round_deadline rs;
     rs_pending_votes := rs_pending_votes rs; rs_vote_sent := rs_vote_sent rs;
     rs_scheduled := rs_scheduled rs; rs_is_validator := rs_is_validator rs |}.

Definition set_timer (deadline : Duration) (scheduled : option (Duration * Round))
    (rs : RoundState) : RoundState :=
  {| rs_get_round_duration := rs_get_round_duration rs;
     rs_highest_ordered_round := rs_highest_ordered_round rs;
     rs_current_round := rs_current_round rs; rs_current_round_deadline := deadline;
     rs_pending_votes := rs_pending_votes rs; rs_vote_sent := rs_vote_sent rs;
     rs_scheduled := scheduled; rs_is_validator := rs_is_validator rs |}.

Definition set_votes (pending : PendingVotes) (sent : option Vote) (rs : RoundState) : RoundState :=
  {| rs_get_round_duration := rs_get_round_duration rs;
     rs_highest_ordered_round := rs_highest_ordered_round rs;
     rs_current_round := rs_current_round rs;
     rs_current_round_deadline := rs_current_round_deadline rs;
     rs_pending_votes := pending; rs_vote_sent := sent;
     rs_scheduled := rs_scheduled rs; rs_is_validator := rs_is_validator rs |}.

(** ** Operations *)

Definition is_vote_timeout (rs : RoundState) : bool :=
  match rs_vote_sent rs with Some v => is_timeout v | None => false end.

Definition round_index_after_ordered_round (rs : RoundState) : result Anyhow N :=
  if rs_highest_ordered_round rs =? 0 then sub_u64 (rs_current_round rs) 1
  else
    limit ← add_u64 (rs_highest_ordered_round rs) 3;
    if rs_current_round rs <? limit then Ok 0
    else d ← sub_u64 (rs_current_round rs) (rs_highest_ordered_round rs); sub_u64 d 3.

Definition setup_deadline (now : Duration) (multiplier : N) : M RoundState Anyhow Duration :=
  index ← gets round_index_after_ordered_round;
  timeout ← gets (λ rs, duration_mul (rs_get_round_duration rs index) multiplier);
  deadline ← lift (duration_add now timeout);
  _ ← modify (λ rs, set_timer deadline (rs_scheduled rs) rs);
  mret timeout.

Definition setup_timeout (now : Duration) (multiplier : N) : M RoundState Anyhow Duration :=
  timeout ← setup_deadline now (multiplier * 2);
  _ ← modify (λ rs, set_timer (rs_current_round_deadline rs)
                      (Some (timeout, rs_current_round rs)) rs);
  mret timeout.

Definition process_local_timeout (now : Duration) (round : Round) : M RoundState Anyhow bool := λ rs,
  if negb (rs_is_validator rs) || negb (round =? rs_current_round rs) then (Ok false, rs)
  else (_ ← setup_timeout now 1; mret true) rs.

(** The validator's part of [process_certificates], once the round has moved. *)
Definition start_round (now : Duration) (sync_info : SyncInfo) (new_round : Round)
    : M RoundState Anyhow (option NewRoundEvent) := λ rs,
  let prev := (drain_votes (rs_pending_votes rs)).1 in
  (timeout ← setup_timeout now 1;
   certified ← lift (add_u64 (highest_certified_round sync_info) 1);
   mret (Some {| nre_round := new_round;
                 nre_reason := if certified =? new_round then QCReady else Timeout_;
                 nre_timeout := timeout;
                 nre_prev_round_votes := prev.1; nre_prev_round_timeout_votes := prev.2 |}))
  (set_votes PendingVotes_new None rs).

Definition process_certificates (now : Duration) (sync_info : SyncInfo)
    : M RoundState Anyhow (option NewRoundEvent) := λ rs,
  let ordered := if rs_highest_ordered_round rs <? highest_ordered_round sync_info
                 then highest_ordered_round sync_info else rs_highest_ordered_round rs in
  let rs := set_rounds ordered (rs_current_round rs) rs in
  match add_u64 (highest_round sync_info) 1 with
  | Ok new_round =>
      if rs_current_round rs <? new_round then
        let rs := set_rounds ordered new_round rs in
        if negb (rs_is_validator rs) then (Ok None, rs) else start_round now sync_info new_round rs
      else (Ok None, rs)
  | Err e => (Err e, rs)
  | Panic m => (Panic m, rs)
  end.

Definition RoundState_insert_vote (vote : Vote) (verifier : ValidatorVerifier)
    : M RoundState Anyhow VoteReceptionResult := λ rs,
  if Vote_round vote =? rs_current_round rs then
    let '(r, pending) := insert_vote vote verifier (rs_pending_votes rs) in
    (r, set_votes pending (rs_vote_sent rs) rs)
  else (Ok (UnexpectedRound (Vote_round vote) (rs_current_round rs)), rs).

Definition record_vote (vote : Vote) (rs : RoundState) : RoundState :=
  if Vote_round vote =? rs_current_round rs
  then set_votes (rs_pending_votes rs) (Some vote) rs else rs.

Definition process_delayed_qc_msg (validator_verifier : ValidatorVerifier) (vote : Vote)
    (rs : RoundState) : result Anyhow VoteReceptionResult :=
  process_delayed_qc validator_verifier vote (rs_pending_votes rs).

(** ** Runs *)

Inductive RoundInput :=
| InLocalTimeout (now : Duration) (round : Round)
| InCertificates (now : Duration) (sync_info : SyncInfo)
| InVote (vote : Vote) (verifier : ValidatorVerifier)
| InRecordVote (vote : Vote).

Definition round_step (i : RoundInput) : M RoundState Anyhow (option NewRoundEvent) :=
  match i with
  | InLocalTimeout now round => _ ← process_local_timeout now round; mret None
  | InCertificates now si => process_certificates now si
  | InVote vote verifier => _ ← RoundState_insert_vote vote verifier; mret None
  | InRecordVote vote => _ ← modify (record_vote vote); mret None
  end.

(** The events a run emits; a panic ends it. *)
Fixpoint round_run (inputs : list RoundInput) (rs : RoundState)
    : list NewRoundEvent * result Anyhow RoundState :=
  match inputs with
  | [] => ([], Ok rs)
  | i :: inputs =>
      match round_step i rs with
      | (Ok e, rs) => let '(es, r) := round_run inputs rs in (option_list e ++ es, r)
      | (Err e, _) => ([], Err e)
      | (Panic m, _) => ([], Panic m)
      end
  end.

(** ** Deadlines *)

(** The index of the current round, as a total function. *)
Definition round_index (ordered current : Round) : N :=
  if ordered =? 0 then current - 1 else current - (ordered + 3).

(** The durations a clock reading leaves room for. *)
Definition clock_ok (rs : RoundState) (now : Duration) : Prop :=
  ∀ i, now + rs_get_round_duration rs i * 2 ≤ duration_max.

(** The state after [setup_timeout]. *)
Definition timed (now : Duration) (rs : RoundState) : RoundState :=
  let t := rs_get_round_duration rs
             (round_index (rs_highest_ordered_round rs) (rs_current_round rs)) * 2 in
  set_timer (now + t) (Some (t, rs_current_round rs)) rs.

Lemma round_index_ok rs :
  0 < rs_current_round rs → rs_highest_ordered_round rs + 3 ≤ u64_max →
  round_index_after_ordered_round rs
  = Ok (round_index (rs_highest_ordered_round rs) (rs_current_round rs)).
Proof.
  intros Hcur Hord. unfold round_index_after_ordered_round, round_index.
  destruct (N.eqb_spec (rs_highest_ordered_round rs) 0) as [Hz|Hz].
  { unfold sub_u64, checked_sub. by rewrite (proj2 (N.leb_le _ _)) by lia. }
  unfold add_u64, checked_add. rewrite (proj2 (N.leb_le _ _)) by lia. simpl.
  destruct (N.ltb_spec (rs_current_round rs) (rs_highest_ordered_round rs + 3)).
  { f_equal. lia. }
  unfold sub_u64, checked_sub. rewrite (proj2 (N.leb_le _ _)) by lia. simpl.
  rewrite (proj2 (N.leb_le _ _)) by lia. simpl. f_equal. lia.
Qed.

Lemma setup_timeout_ok rs now :
  0 < rs_current_round rs → rs_highest_ordered_round rs + 3 ≤ u64_max → clock_ok rs now →
  setup_timeout now 1 rs
  = (Ok (rs_get_round_duration rs
           (round_index (rs_highest_ordered_round rs) (rs_current_round rs)) * 2), timed now rs).
Proof.
  intros Hcur Hord Hclock. unfold setup_timeout, setup_deadline, mbind, M_bind, gets, lift.
  rewrite round_index_ok by done. specialize (Hclock (round_index (rs_highest_ordered_round rs)
    (rs_current_round rs))).
  unfold duration_mul, duration_add. change (1 * 2) with 2.
  rewrite (proj2 (N.leb_le _ duration_max)) by lia.
  rewrite (proj2 (N.leb_le _ duration_max)) by lia. done.
Qed.

(** What [process_certificates] does on every branch: the highest ordered round is
    the maximum of both; if the sync info's highest round is not below the current
    one, the state moves to its successor, and a validator then starts with empty
    votes, a new deadline and an event that carries the drained votes and the reason
    QCReady exactly when the quorum certificate is at least as high as the timeout
    certificate; otherwise no event. *)
Theorem process_certificates_spec now si rs :
  highest_round si < u64_max → highest_ordered_round si + 3 ≤ u64_max →
  rs_highest_ordered_round rs + 3 ≤ u64_max → clock_ok rs now →
  let ordered := N.max (rs_highest_ordered_round rs) (highest_ordered_round si) in
  let moved := set_rounds ordered (highest_round si + 1) rs in
  process_certificates now si rs
  = if rs_current_round rs <=? highest_round si then
      if rs_is_validator rs then
        let rs' := timed now (set_votes PendingVotes_new None moved) in
        (Ok (Some {| nre_round := highest_round si + 1;
                     nre_reason := if highest_timeout_round si <=? highest_certified_round si
                                   then QCReady else Timeout_;
                     nre_timeout := default 0 (fst <$> rs_scheduled rs');
                     nre_prev_round_votes := (drain_votes (rs_pending_votes rs)).1.1;
                     nre_prev_round_timeout_votes :=
                       pv_maybe_partial_2chain_tc (rs_pending_votes rs) |}), rs')
      else (Ok None, moved)
    else (Ok None, set_rounds ordered (rs_current_round rs) rs).
Proof.
  intros Hr Ho Ho' Hclock ordered moved. unfold process_certificates.
  assert (Hord : (if rs_highest_ordered_round rs <? highest_ordered_round si
    then highest_ordered_round si else rs_highest_ordered_round rs) = ordered).
  { unfold ordered. destruct (N.ltb_spec (rs_highest_ordered_round rs) (highest_ordered_round si)); lia. }
  rewrite Hord. unfold add_u64, checked_add. rewrite (proj2 (N.leb_le _ u64_max)) by lia.
  cbn [expect rs_current_round set_rounds].
  destruct (N.leb_spec (rs_current_round rs) (highest_round si)) as [Hle|Hlt];
    [rewrite (proj2 (N.ltb_lt _ _)) by lia|by rewrite (proj2 (N.ltb_ge _ _)) by lia].
  cbn [rs_is_validator set_rounds]. destruct (rs_is_validator rs) eqn:Hval; simpl; [|done].
  unfold start_round. cbv zeta. unfold mbind at 1, M_bind at 1.
  change (set_rounds ordered (highest_round si + 1) (set_rounds ordered (rs_current_round rs) rs))
    with moved.
  rewrite setup_timeout_ok; [| | |exact Hclock];
    [|simpl; lia|unfold moved, ordered; simpl; lia].
  unfold mbind, M_bind, lift, add_u64, checked_add.
  assert (Hc : highest_certified_round si + 1 ≤ u64_max) by (unfold highest_round in *; lia).
  rewrite (proj2 (N.leb_le _ u64_max)) by done. simpl. repeat f_equal.
  unfold highest_round in *. destruct (N.leb_spec (highest_timeout_round si) (highest_certified_round si));
    [rewrite (proj2 (N.eqb_eq _ _)) by lia|rewrite (proj2 (N.eqb_neq _ _)) by lia]; done.
Qed.

(** ** The current round over a run *)

(** Setting the timer touches nothing else, and schedules the current round. *)
Lemma setup_timeout_frame now k rs t rs' :
  setup_timeout now k rs = (Ok t, rs') →
  ∃ d, rs' = set_timer d (Some (t, rs_current_round rs)) rs.
Proof.
  unfold setup_timeout, setup_deadline, mbind, M_bind, gets, lift, modify, mret, M_ret.
  intros H. repeat case_match; simplify_eq. by eexists.
Qed.

(** How one input moves the current round. *)
Lemma round_step_current i rs e rs' :
  round_step i rs = (Ok e, rs') →
  rs_is_validator rs' = rs_is_validator rs ∧ rs_current_round rs ≤ rs_current_round rs' ∧
  (∀ ev, e = Some ev → rs_current_round rs < nre_round ev ∧ nre_round ev = rs_current_round rs' ∧
     ∃ now si, i = InCertificates now si ∧ nre_round ev = highest_round si + 1) ∧
  (e = None → rs_is_validator rs = true → rs_current_round rs' = rs_current_round rs).
Proof.
  destruct i as [now round|now si|vote verifier|vote]; simpl.
  - unfold process_local_timeout, mbind, M_bind. destruct (_ || _); [by intros [= <- <-]|].
    destruct (setup_timeout now 1 rs) as [[t| |] rs1] eqn:Ht; intros [= <- <-].
    apply setup_timeout_frame in Ht as [d ->]. by split.
  - unfold process_certificates, start_round.
    destruct (add_u64 (highest_round si) 1) as [n| |] eqn:Hn; [|done..].
    unfold add_u64, checked_add in Hn. destruct (_ <=? u64_max); simplify_eq/=.
    destruct (N.ltb_spec (rs_current_round rs) (highest_round si + 1)) as [Hlt|Hge];
      [|by intros [= <- <-]].
    destruct (rs_is_validator rs) eqn:Hval; simpl; [|intros [= <- <-]; simpl; split; [done|]; split; [lia|by split]].
    unfold mbind, M_bind. destruct (setup_timeout _ _ _) as [[t| |] rs1] eqn:Ht; try done.
    apply setup_timeout_frame in Ht as [d ->]. unfold lift.
    destruct (add_u64 _ _) as [c| |]; intros [= <- <-]. simpl.
    split; [done|]. split; [lia|]. split; [|done].
    intros ev [= <-]. simpl. split; [done|]. split; [done|]. by exists now, si.
  - unfold RoundState_insert_vote, mbind, M_bind.
    destruct (_ =? _); [|by intros [= <- <-]].
    destruct (insert_vote _ _ _) as [[r| |] pv]; by intros [= <- <-].
  - intros [= <- <-]. unfold record_vote. by destruct (_ =? _).
Qed.

(** Rounds only go up: over any sequence of inputs the rounds of the new-round
    events are strictly increasing and above the initial round, and each one is the
    successor of the highest round of sync info that was processed. *)
Theorem new_round_events_increasing inputs rs es r :
  round_run inputs rs = (es, r) →
  StronglySorted N.lt (rs_current_round rs :: (nre_round <$> es)) ∧
  Forall (λ e, ∃ now si, InCertificates now si ∈ inputs ∧ nre_round e = highest_round si + 1) es.
Proof.
  revert rs es. induction inputs as [|i inputs IH]; intros rs es; simpl.
  { intros [= <- <-]. split; [by repeat constructor|constructor]. }
  destruct (round_step i rs) as [[e| |] rs1] eqn:Hstep;
    [|intros [= <- <-]; split; [by repeat constructor|constructor]..].
  destruct (round_run inputs rs1) as [es1 r1] eqn:Hrun. intros [= <- <-].
  destruct (round_step_current _ _ _ _ Hstep) as (_ & Hle & Hsome & _).
  destruct (IH _ _ Hrun) as [Hsort Hall]. clear IH.
  apply StronglySorted_inv in Hsort as [Hsort Hlt].
  assert (Hrest : Forall (N.lt (rs_current_round rs)) (nre_round <$> es1)).
  { eapply Forall_impl; [exact Hlt|]. simpl. intros; lia. }
  assert (Hmore : Forall (λ e, ∃ now si, InCertificates now si ∈ i :: inputs ∧
    nre_round e = highest_round si + 1) es1).
  { eapply Forall_impl; [exact Hall|]. intros ev (now & si & Hin & ?). exists now, si.
    by rewrite elem_of_cons; auto. }
  destruct e as [ev|]; simpl; [|split; [by constructor|done]].
  destruct (Hsome ev eq_refl) as (Hev & Heq & now & si & -> & Hr).
  split; [constructor; [constructor|constructor]; try done; by rewrite Heq|].
  constructor; [|done]. exists now, si. rewrite elem_of_cons. auto.
Qed.

(** ** The votes kept *)

(** A validator keeps votes of its current round only, and the timeout it waits
    for is the one of its current round. *)
Record votes_current (rs : RoundState) : Prop := {
  vc_sent vote : rs_vote_sent rs = Some vote → Vote_round vote = rs_current_round rs;
  vc_held a vote d : pv_author_to_vote (rs_pending_votes rs) !! a = Some (vote, d) →
    Vote_round vote = rs_current_round rs;
  vc_timer t round : rs_scheduled rs = Some (t, round) → round = rs_current_round rs;
}.

Lemma insert_vote_held vote v st r st' a w d :
  insert_vote vote v st = (r, st') → pv_author_to_vote st' !! a = Some (w, d) →
  w = vote ∨ pv_author_to_vote st !! a = Some (w, d).
Proof.
  unfold insert_vote, store_vote, insert_timeout, maybe_echo. intros H.
  repeat case_match; simplify_eq/=; auto; rewrite lookup_insert_Some; intros [[_ [= <- _]]|[_ ?]]; auto.
Qed.

Lemma round_step_votes i rs e rs' :
  rs_is_validator rs = true → votes_current rs → round_step i rs = (Ok e, rs') → votes_current rs'.
Proof.
  intros Hval Hinv. destruct i as [now round|now si|vote verifier|vote]; simpl.
  - unfold process_local_timeout, mbind, M_bind. destruct (_ || _); [by intros [= <- <-]|].
    destruct (setup_timeout now 1 rs) as [[t| |] rs1] eqn:Ht; intros [= <- <-].
    apply setup_timeout_frame in Ht as [d ->].
    split; [apply (vc_sent _ Hinv)|apply (vc_held _ Hinv)|]. simpl. by intros ?? [= _ <-].
  - unfold process_certificates, start_round.
    destruct (add_u64 (highest_round si) 1) as [n| |]; [|done..].
    cbn [rs_current_round set_rounds].
    destruct (rs_current_round rs <? n).
    + cbn [rs_is_validator set_rounds]. rewrite Hval. simpl. unfold mbind, M_bind.
      destruct (setup_timeout _ _ _) as [[t| |] rs1] eqn:Ht; try done.
      apply setup_timeout_frame in Ht as [d ->]. unfold lift.
      destruct (add_u64 _ _) as [c| |]; intros [= <- <-].
      split; simpl; [done|intros ???; by rewrite lookup_empty|by intros ?? [= _ <-]].
    + intros [= <- <-]. split; [apply (vc_sent _ Hinv)|apply (vc_held _ Hinv)|apply (vc_timer _ Hinv)].
  - unfold RoundState_insert_vote, mbind, M_bind.
    destruct (N.eqb_spec (Vote_round vote) (rs_current_round rs)) as [Heq|];
      [|by intros [= <- <-]].
    destruct (insert_vote _ _ _) as [r pv] eqn:Hone. destruct r as [r| |]; intros [= <- <-].
    split; [apply (vc_sent _ Hinv)| |apply (vc_timer _ Hinv)]. simpl.
    intros a w d Hw. destruct (insert_vote_held _ _ _ _ _ _ _ _ Hone Hw) as [->|?]; [done|].
    by eapply (vc_held _ Hinv).
  - intros [= <- <-]. unfold record_vote.
    destruct (N.eqb_spec (Vote_round vote) (rs_current_round rs)) as [Heq|]; [|done].
    split; [by intros ? [= <-]|apply (vc_held _ Hinv)|apply (vc_timer _ Hinv)].
Qed.

(** A validator holds votes of its current round only: after any sequence of inputs
    from a new round state, the collected votes, the vote sent and the timeout
    waited for are of the current round, which is the round of the last new-round
    event. *)
Theorem round_run_votes_current inputs interval es rs :
  round_run inputs (RoundState_new interval true) = (es, Ok rs) →
  votes_current rs ∧ rs_current_round rs = default 0 (nre_round <$> last es).
Proof.
  assert (Hgen : ∀ inputs rs0 es0 es rs, rs_is_validator rs0 = true → votes_current rs0 →
    rs_current_round rs0 = default 0 (nre_round <$> last es0) →
    round_run inputs rs0 = (es, Ok rs) →
    votes_current rs ∧ rs_current_round rs = default 0 (nre_round <$> last (es0 ++ es))).
  { clear. induction inputs as [|i inputs IH]; intros rs0 es0 es rs Hval Hinv Hcur; simpl.
    { intros [= <- <-]. by rewrite app_nil_r. }
    destruct (round_step i rs0) as [[e| |] rs1] eqn:Hstep; [|done..].
    destruct (round_run inputs rs1) as [es1 r1] eqn:Hrun. intros [= <- ->].
    pose proof (round_step_votes _ _ _ _ Hval Hinv Hstep) as Hinv1.
    destruct (round_step_current _ _ _ _ Hstep) as (Hval1 & _ & Hsome & Hnone).
    rewrite app_assoc. apply (IH rs1 (es0 ++ option_list e) es1 rs); [by rewrite Hval1|done| |done].
    destruct e as [ev|]; simpl.
    - destruct (Hsome ev eq_refl) as (_ & <- & _). by rewrite last_snoc.
    - rewrite app_nil_r. by rewrite Hnone. }
  intros Hrun. by apply (Hgen inputs (RoundState_new interval true) [] es rs).
Qed.

End round_state.
