(* ===== verification/Buffer.v ===== *)
(** * The pipeline buffer (consensus/src/pipeline/buffer.rs)

    An ordered dictionary: a hash map of linked items with a head and a tail,
    giving a FIFO queue with lookup by key.  The theorems show that it implements
    a queue of elements with distinct keys: each operation is related to its
    counterpart on lists. *)

From S2P Require Import Prelude Gaptos.

Section buffer.
Context {GA : Gaptos}.
(** The element type, with [Hashable::hash]. *)
Context {T : Type} (hash : T → HashValue).

Record LinkedItem := {
  li_elem : option T;
  li_index : N;
  li_next : option HashValue;
}.

Abbreviation Cursor := (option HashValue).

Record Buffer := {
  buf_map : gmap HashValue LinkedItem;
  buf_count : N;
  buf_head : Cursor;
  buf_tail : Cursor;
}.

Definition Buffer_new : Buffer :=
  {| buf_map := ∅; buf_count := 0; buf_head := None; buf_tail := None |}.

Definition Buffer_len (b : Buffer) : nat := size (buf_map b).

(** [self.map.get(&k).unwrap()]. *)
Definition get_item (b : Buffer) (k : HashValue) : result Empty_set LinkedItem :=
  expect "called `Option::unwrap()` on a `None` value" (buf_map b !! k).

(** [cursor.as_ref().unwrap()]. *)
Definition unwrap {A} (o : option A) : result Empty_set A :=
  expect "called `Option::unwrap()` on a `None` value" o.

Definition push_back (elem : T) (b : Buffer) : result Empty_set Buffer :=
  count ← unwrap (checked_add (buf_count b) 1);
  let t_hash := hash elem in
  let map := <[t_hash := {| li_elem := Some elem; li_index := count; li_next := None |}]>
               (buf_map b) in
  map ← match buf_tail b with
        | Some tail =>
            item ← unwrap (map !! tail);
            Ok (<[tail := {| li_elem := li_elem item; li_index := li_index item;
                             li_next := Some t_hash |}]> map)
        | None => Ok map
        end;
  Ok {| buf_map := map; buf_count := count;
        buf_head := match buf_head b with Some h => Some h | None => Some t_hash end;
        buf_tail := Some t_hash |}.

Definition pop_front (b : Buffer) : result Empty_set (option T * Buffer) :=
  match buf_head b with
  | None => Ok (None, b)
  | Some head =>
      item ← get_item b head;
      let tail := match li_next item with None => None | Some _ => buf_tail b end in
      elem ← unwrap (li_elem item);
      Ok (Some elem, {| buf_map := delete head (buf_map b); buf_count := buf_count b;
                        buf_head := li_next item; buf_tail := tail |})
  end.

Definition get_next (b : Buffer) (cursor : Cursor) : result Empty_set Cursor :=
  k ← unwrap cursor; item ← get_item b k; Ok (li_next item).

Definition Buffer_get (b : Buffer) (cursor : Cursor) : result Empty_set T :=
  k ← unwrap cursor; item ← get_item b k; unwrap (li_elem item).

Definition set_elem (e : option T) (k : HashValue) (item : LinkedItem) (b : Buffer) : Buffer :=
  {| buf_map := <[k := {| li_elem := e; li_index := li_index item; li_next := li_next item |}]>
                  (buf_map b);
     buf_count := buf_count b; buf_head := buf_head b; buf_tail := buf_tail b |}.

Definition Buffer_set (cursor : Cursor) (new_val : T) (b : Buffer) : result Empty_set Buffer :=
  k ← unwrap cursor; item ← get_item b k; Ok (set_elem (Some new_val) k item b).

Definition Buffer_take (cursor : Cursor) (b : Buffer) : result Empty_set (T * Buffer) :=
  k ← unwrap cursor;
  item ← get_item b k;
  e ← unwrap (li_elem item);
  Ok (e, set_elem None k item b).

Definition Buffer_exist (b : Buffer) (cursor : Cursor) : bool :=
  match cursor with Some key => bool_decide (is_Some (buf_map b !! key)) | None => false end.

(** The loop of [find_elem_from]; [fuel] bounds its steps. *)
Fixpoint find_loop (fuel : nat) (b : Buffer) (compare : T → bool) (current : Cursor)
    : result Empty_set Cursor :=
  match current with
  | None => Ok None
  | Some _ =>
      match fuel with
      | O => Panic "out of fuel"
      | S fuel =>
          e ← Buffer_get b current;
          if compare e then Ok current
          else next ← get_next b current; find_loop fuel b compare next
      end
  end.

(** A walk visits each item at most once ([find_elem_from_spec]). *)
Definition find_elem_from (b : Buffer) (cursor : Cursor) (compare : T → bool)
    : result Empty_set Cursor :=
  if negb (Buffer_exist b cursor) then Ok None
  else find_loop (Buffer_len b) b compare cursor.

Definition find_elem_by_key (b : Buffer) (cursor : Cursor) (key : HashValue) : Cursor :=
  cursor_item ← (c ← cursor; buf_map b !! c);
  item ← buf_map b !! key;
  if li_index cursor_item <=? li_index item then Some key else None.

(** ** The queue it implements *)

(** Keys with their elements, front first; an element that was taken leaves its
    place. *)
Abbreviation queue := (list (HashValue * option T)).

(** The queue from a key on. *)
Fixpoint suffix_from (k : HashValue) (q : queue) : queue :=
  match q with
  | [] => []
  | (k', e) :: q => if bool_decide (k = k') then (k', e) :: q else suffix_from k q
  end.

Definition panic_none {A} : result Empty_set A :=
  Panic "called `Option::unwrap()` on a `None` value".

(** The first element from the front of a queue that satisfies [p]. *)
Fixpoint first_match (p : T → bool) (q : queue) : result Empty_set Cursor :=
  match q with
  | [] => Ok None
  | (_, None) :: _ => panic_none
  | (k, Some e) :: q => if p e then Ok (Some k) else first_match p q
  end.

Definition replace (k : HashValue) (e : option T) (q : queue) : queue :=
  (λ '(k', e'), (k', if bool_decide (k = k') then e else e')) <$> q.

Inductive BufferOp :=
| OpLen
| OpPush (e : T)
| OpPop
| OpNext (c : Cursor)
| OpGet (c : Cursor)
| OpSet (c : Cursor) (e : T)
| OpTake (c : Cursor)
| OpExist (c : Cursor)
| OpFind (c : Cursor) (p : T → bool)
| OpFindKey (c : Cursor) (k : HashValue).

Inductive BufferOut :=
| OutUnit
| OutLen (n : nat)
| OutBool (b : bool)
| OutElem (e : option T)
| OutCursor (c : Cursor).

Definition buffer_exec (op : BufferOp) (b : Buffer) : result Empty_set (BufferOut * Buffer) :=
  match op with
  | OpLen => Ok (OutLen (Buffer_len b), b)
  | OpPush e => b ← push_back e b; Ok (OutUnit, b)
  | OpPop => '(e, b) ← pop_front b; Ok (OutElem e, b)
  | OpNext c => n ← get_next b c; Ok (OutCursor n, b)
  | OpGet c => e ← Buffer_get b c; Ok (OutElem (Some e), b)
  | OpSet c e => b ← Buffer_set c e b; Ok (OutUnit, b)
  | OpTake c => '(e, b) ← Buffer_take c b; Ok (OutElem (Some e), b)
  | OpExist c => Ok (OutBool (Buffer_exist b c), b)
  | OpFind c p => r ← find_elem_from b c p; Ok (OutCursor r, b)
  | OpFindKey c k => Ok (OutCursor (find_elem_by_key b c k), b)
  end.

(** The entry a cursor points to, and what follows it. *)
Definition at_cursor (q : queue) (c : Cursor) : result Empty_set (HashValue * option T * queue) :=
  k ← unwrap c;
  match suffix_from k q with
  | [] => panic_none
  | x :: q => Ok (x, q)
  end.

Definition queue_exec (op : BufferOp) (q : queue) : result Empty_set (BufferOut * queue) :=
  match op with
  | OpLen => Ok (OutLen (length q), q)
  | OpPush e => Ok (OutUnit, q ++ [(hash e, Some e)])
  | OpPop =>
      match q with
      | [] => Ok (OutElem None, [])
      | (_, None) :: _ => panic_none
      | (_, Some e) :: q => Ok (OutElem (Some e), q)
      end
  | OpNext c => '(_, q') ← at_cursor q c; Ok (OutCursor (fst <$> head q'), q)
  | OpGet c => '(_, e, _) ← at_cursor q c; e ← unwrap e; Ok (OutElem (Some e), q)
  | OpSet c e => '(k, _, _) ← at_cursor q c; Ok (OutUnit, replace k (Some e) q)
  | OpTake c =>
      '(k, e, _) ← at_cursor q c; e ← unwrap e; Ok (OutElem (Some e), replace k None q)
  | OpExist c => Ok (OutBool (is_ok (at_cursor q c)), q)
  | OpFind c p =>
      match c with
      | None => Ok (OutCursor None, q)
      | Some k => r ← first_match p (suffix_from k q); Ok (OutCursor r, q)
      end
  | OpFindKey c k =>
      Ok (OutCursor (c ← c; if bool_decide (k ∈ (suffix_from c q).*1) then Some k else None), q)
  end.

(** ** The representation *)

(** The items reached from [h] are the entries of [q], with consecutive indices. *)
Fixpoint chain (m : gmap HashValue LinkedItem) (i : N) (h : Cursor) (q : queue) : Prop :=
  match q with
  | [] => h = None
  | (k, e) :: q =>
      h = Some k ∧
      ∃ next, m !! k = Some {| li_elem := e; li_index := i; li_next := next |} ∧
        chain m (i + 1) next q
  end.

Record repr (b : Buffer) (q : queue) : Prop := {
  rp_nodup : NoDup q.*1;
  rp_dom k : is_Some (buf_map b !! k) ↔ k ∈ q.*1;
  rp_chain : ∃ i, chain (buf_map b) i (buf_head b) q ∧ i + N.of_nat (length q) = buf_count b + 1;
  rp_tail : buf_tail b = last q.*1;
}.

Lemma chain_ext m m' i h q :
  (∀ k, k ∈ q.*1 → m' !! k = m !! k) → chain m i h q → chain m' i h q.
Proof.
  revert i h. induction q as [|[k e] q IH]; intros i h Hm; simpl; [done|].
  intros (-> & next & Hk & Hq). split; [done|]. exists next.
  rewrite Hm by (simpl; set_solver). split; [done|]. apply IH; [|done]. simpl in Hm. set_solver.
Qed.

(** Linking a new item behind the last one. *)
Lemma chain_snoc m i h q kt et k x :
  NoDup (q ++ [(kt, et)]).*1 → k ∉ (q ++ [(kt, et)]).*1 →
  chain m i h (q ++ [(kt, et)]) →
  ∃ it, m !! kt = Some it ∧
    chain (<[kt := {| li_elem := li_elem it; li_index := li_index it; li_next := Some k |}]>
      (<[k := {| li_elem := x; li_index := i + N.of_nat (S (length q)); li_next := None |}]> m))
      i h (q ++ [(kt, et); (k, x)]).
Proof.
  intros Hnd Hk. revert i h Hnd Hk. induction q as [|[k0 e0] q IH]; intros i h Hnd Hk; simpl.
  - intros (-> & next & Hkt & ->). eexists. split; [done|]. split; [done|].
    exists (Some k). rewrite lookup_insert_eq. split; [done|]. split; [done|]. exists None.
    simpl in Hk. apply not_elem_of_cons in Hk as [Hne _].
    by rewrite lookup_insert_ne, lookup_insert_eq by done.
  - intros (-> & next & Hk0 & Hq). simpl in Hnd, Hk.
    apply NoDup_cons in Hnd as [Hk0n Hnd]. apply not_elem_of_cons in Hk as [Hkk0 Hk].
    destruct (IH (i + 1) next Hnd Hk Hq) as (it & Hit & Hch).
    exists it. split; [done|]. split; [done|]. exists next.
    assert (kt ≠ k0).
    { intros ->. apply Hk0n. rewrite fmap_app. apply elem_of_app. right. by apply elem_of_cons; left. }
    rewrite !lookup_insert_ne by done. split; [done|].
    replace (i + N.of_nat (S (S (length q)))) with (i + 1 + N.of_nat (S (length q))) by lia. done.
Qed.

Lemma Buffer_new_repr : repr Buffer_new [].
Proof.
  split; simpl; [constructor| |exists 1; done|done].
  intros k. rewrite lookup_empty. split; [by intros [? ?]|by intros ?%not_elem_of_nil].
Qed.

Lemma push_back_repr b q e :
  repr b q → hash e ∉ q.*1 → buf_count b < u64_max →
  ∃ b', push_back e b = Ok b' ∧ repr b' (q ++ [(hash e, Some e)]).
Proof.
  intros [Hnd Hdom (i & Hch & Hi) Htail] Hnew Hmax. unfold push_back, checked_add.
  rewrite (proj2 (N.leb_le _ _)) by lia. simpl. rewrite Htail.
  assert (Hnd' : NoDup (q ++ [(hash e, Some e)]).*1).
  { rewrite fmap_app. apply NoDup_app. split; [done|]. simpl. split; [|apply NoDup_singleton].
    by intros x Hx ->%list_elem_of_singleton. }
  destruct (decide (q = [])) as [->|Hne].
  - simpl in *. eexists. split; [done|]. split; simpl; [done| | |done].
    + intros k. rewrite lookup_insert_is_Some', Hdom. set_solver.
    + exists (buf_count b + 1). rewrite Hch. split; [|lia]. split; [done|].
      eexists. by rewrite lookup_insert_eq.
  - destruct (exists_last Hne) as (q0 & [kt et] & ->). rewrite fmap_app. simpl. rewrite last_snoc.
    destruct (chain_snoc _ _ _ _ _ _ (hash e) (Some e) Hnd Hnew Hch) as (it & Hit & Hch').
    rewrite length_app in Hi. simpl in Hi.
    assert (hash e ≠ kt).
    { intros <-. apply Hnew. rewrite fmap_app. apply elem_of_app. right. by apply elem_of_cons; left. }
    rewrite lookup_insert_ne, Hit by done. simpl. eexists. split; [done|].
    replace (i + N.of_nat (S (length q0))) with (buf_count b + 1) in Hch' by lia.
    split; cbn [buf_map buf_head buf_tail buf_count]; [done| | |].
    + intros k. rewrite !lookup_insert_is_Some', Hdom, !fmap_app. simpl. set_solver.
    + exists i. rewrite <- app_assoc. rewrite !length_app. simpl. split; [|lia].
      destruct q0 as [|[k0 e0] q0]; simpl in Hch', Hch |- *; destruct Hch as [Hh _];
        rewrite Hh in *; done.
    + rewrite fmap_app. simpl. by rewrite last_snoc.
Qed.

Lemma pop_front_repr b k e q :
  repr b ((k, Some e) :: q) → ∃ b', pop_front b = Ok (Some e, b') ∧ repr b' q.
Proof.
  intros [Hnd Hdom (i & Hch & Hi) Htail]. simpl in Hch, Hnd, Htail.
  apply NoDup_cons in Hnd as [Hk Hnd]. destruct Hch as (Hhead & next & Hkl & Hch).
  unfold pop_front, get_item. rewrite Hhead, Hkl. simpl. eexists. split; [done|].
  split; simpl; [done| | |].
  - intros k'. rewrite lookup_delete_is_Some, Hdom. simpl. set_solver.
  - exists (i + 1). simpl in Hi. split; [|lia]. eapply chain_ext; [|done].
    intros k' Hk'. apply lookup_delete_ne. by intros ->.
  - destruct q as [|[k2 e2] q]; simpl in *; [by rewrite Hch|]. destruct Hch as [-> _].
    by rewrite Htail.
Qed.

(** Where a cursor leads: the rest of the chain. *)
Lemma chain_suffix m i h q k :
  chain m i h q → suffix_from k q ≠ [] →
  ∃ j, chain m j (Some k) (suffix_from k q) ∧ i ≤ j.
Proof.
  revert i h. induction q as [|[k' e] q IH]; intros i h; simpl; [done|].
  intros (-> & next & Hk & Hq). case_bool_decide as Heq.
  - intros _. subst k'. exists i. split; [|lia]. split; [done|]. by exists next.
  - intros Hne. destruct (IH _ _ Hq Hne) as (j & Hj & Hle). exists j. split; [done|lia].
Qed.

Lemma suffix_from_nil k q : suffix_from k q = [] ↔ k ∉ q.*1.
Proof.
  induction q as [|[k' e] q IH]; simpl; [split; [intros _; apply not_elem_of_nil|done]|].
  rewrite not_elem_of_cons. case_bool_decide as Heq; [split; [done|by intros [? _]]|].
  rewrite IH. split; [done|by intros [_ ?]].
Qed.

Lemma suffix_from_incl k q x : x ∈ (suffix_from k q).*1 → x ∈ q.*1.
Proof.
  induction q as [|[k' e] q IH]; simpl; [done|]. case_bool_decide; [done|].
  intros Hx. apply elem_of_cons. right. by apply IH.
Qed.

Lemma suffix_from_length k q : (length (suffix_from k q) ≤ length q)%nat.
Proof. induction q as [|[k' e] q IH]; simpl; [done|]. case_bool_decide; simpl; lia. Qed.

Lemma chain_head m i h q : chain m i h q → h = fst <$> head q.
Proof. destruct q as [|[k e] q]; simpl; [done|by intros [-> _]]. Qed.

(** The item under a key, as the queue sees it. *)
Lemma repr_lookup b q k :
  repr b q →
  match suffix_from k q with
  | [] => buf_map b !! k = None
  | (k', e) :: q' =>
      k' = k ∧ ∃ j, buf_map b !! k
        = Some {| li_elem := e; li_index := j; li_next := fst <$> head q' |}
  end.
Proof.
  intros Hrep. destruct (rp_chain _ _ Hrep) as (i & Hch & _).
  destruct (suffix_from k q) as [|[k' e] q'] eqn:Hs.
  - apply suffix_from_nil in Hs. rewrite <- (rp_dom _ _ Hrep) in Hs. by apply eq_None_not_Some.
  - destruct (chain_suffix _ _ _ _ k Hch) as (j & Hj & _); [by rewrite Hs|].
    rewrite Hs in Hj. destruct Hj as ([= ->] & next & Hk & Hq). split; [done|]. exists j.
    by rewrite (chain_head _ _ _ _ Hq) in Hk.
Qed.

Lemma repr_len b q : repr b q → Buffer_len b = length q.
Proof.
  intros Hrep. unfold Buffer_len. rewrite <- size_dom, <- (length_fmap fst q).
  rewrite <- (size_list_to_set (C := gset HashValue) q.*1) by apply (rp_nodup _ _ Hrep).
  f_equal. apply set_eq. intros k. rewrite elem_of_dom, elem_of_list_to_set. apply (rp_dom _ _ Hrep).
Qed.

(** The walk of [find_elem_from] needs one step per item left. *)
Lemma find_loop_chain b p fuel j h q :
  chain (buf_map b) j h q → (length q ≤ fuel)%nat → find_loop fuel b p h = first_match p q.
Proof.
  revert fuel j h. induction q as [|[k e] q IH]; intros fuel j h; simpl.
  { intros ->. by destruct fuel. }
  intros (-> & next & Hk & Hq) Hf. destruct fuel as [|fuel]; [lia|]. simpl.
  unfold Buffer_get, get_next, get_item. simpl. rewrite Hk. simpl. destruct e as [e|]; simpl; [|done].
  destruct (p e); [done|]. apply (IH fuel (j + 1)); [done|lia].
Qed.

(** Indices order the keys. *)
Lemma chain_index_ge m i h q k it :
  chain m i h q → k ∈ q.*1 → m !! k = Some it → i ≤ li_index it.
Proof.
  revert i h. induction q as [|[k' e] q IH]; intros i h; simpl; [by intros _ ?%not_elem_of_nil|].
  intros (-> & next & Hk & Hq) [->|Hin]%elem_of_cons Hit; [simplify_eq; simpl; lia|].
  pose proof (IH _ _ Hq Hin Hit). lia.
Qed.

Lemma chain_index m i h q c :
  NoDup q.*1 → chain m i h q → c ∈ q.*1 →
  ∃ ic, m !! c = Some ic ∧
    ∀ k it, k ∈ q.*1 → m !! k = Some it →
      (li_index ic ≤ li_index it ↔ k ∈ (suffix_from c q).*1).
Proof.
  revert i h. induction q as [|[k' e] q IH]; intros i h Hnd; simpl.
  { by intros _ ?%not_elem_of_nil. }
  intros (-> & next & Hk' & Hq) Hc. apply NoDup_cons in Hnd as [Hnot Hnd].
  case_bool_decide as Heq.
  - subst k'. eexists. split; [done|]. intros k it Hk Hit. simpl. split; [done|]. intros _.
    eapply (chain_index_ge m i (Some c) ((c, e) :: q)); [|done|done].
    split; [done|]. by exists next.
  - apply elem_of_cons in Hc as [?|Hc]; [done|].
    destruct (IH _ _ Hnd Hq Hc) as (ic & Hic & Hiff). exists ic. split; [done|].
    intros k it [->|Hk]%elem_of_cons Hit; [|by apply Hiff]. simplify_eq/=. split.
    + intros Hle. pose proof (chain_index_ge _ _ _ _ _ _ Hq Hc Hic). lia.
    + intros Hin. by apply suffix_from_incl in Hin.
Qed.

(** Replacing the element under a key. *)
Lemma replace_keys k e q : (replace k e q).*1 = q.*1.
Proof. induction q as [|[k' e'] q IH]; simpl; [done|]. by f_equal. Qed.

Lemma replace_absent k e q : k ∉ q.*1 → replace k e q = q.
Proof.
  induction q as [|[k' e'] q IH]; simpl; [done|]. intros [Hne Hk]%not_elem_of_cons.
  rewrite bool_decide_eq_false_2 by done. by f_equal; apply IH.
Qed.

Lemma chain_replace m i h q k e it :
  NoDup q.*1 → chain m i h q → m !! k = Some it →
  chain (<[k := {| li_elem := e; li_index := li_index it; li_next := li_next it |}]> m) i h
    (replace k e q).
Proof.
  revert i h. induction q as [|[k' e'] q IH]; intros i h Hnd; simpl; [done|].
  intros (-> & next & Hk' & Hq) Hit. apply NoDup_cons in Hnd as [Hnot Hnd]. split; [done|].
  exists next. case_bool_decide as Heq.
  - subst k'. rewrite lookup_insert_eq. simplify_eq. simpl. split; [done|].
    change (chain (<[k := {| li_elem := e; li_index := i; li_next := next |}]> m) (i + 1) next
      (replace k e q)). rewrite replace_absent by done. eapply chain_ext; [|done].
    intros x Hx. apply lookup_insert_ne. by intros ->.
  - rewrite lookup_insert_ne by done. split; [done|]. by apply IH.
Qed.

Lemma set_elem_repr b q k e it :
  repr b q → buf_map b !! k = Some it → repr (set_elem e k it b) (replace k e q).
Proof.
  intros [Hnd Hdom (i & Hch & Hi) Htail] Hit.
  split; rewrite ?replace_keys; simpl; [done| | |done].
  - intros x. rewrite lookup_insert_is_Some', <- Hdom. split; [|by right].
    intros [<-|?]; [by exists it|done].
  - exists i. split; [by apply chain_replace|]. unfold replace. by rewrite length_fmap.
Qed.

(** What a push needs: a new key, and room in the counter. *)
Definition op_ok (op : BufferOp) (n : N) (q : queue) : Prop :=
  match op with
  | OpPush e => (hash e ∉ q.*1) ∧ n < u64_max
  | _ => True
  end.

(** The buffer does to its map what the operation does to the queue; it panics
    exactly when the queue operation does. *)
Definition simulated (r : result Empty_set (BufferOut * Buffer))
    (r' : result Empty_set (BufferOut * queue)) : Prop :=
  match r' with
  | Ok (o, q) => ∃ b, r = Ok (o, b) ∧ repr b q
  | Err e => r = Err e
  | Panic m => r = Panic m
  end.

(** Reading under a cursor. *)
Lemma read_simulated {A} b q c (f : LinkedItem → result Empty_set A)
    (g : HashValue * option T * queue → result Empty_set A) :
  repr b q →
  (∀ k j e q', suffix_from k q = (k, e) :: q' →
     buf_map b !! k = Some {| li_elem := e; li_index := j; li_next := fst <$> head q' |} →
     f {| li_elem := e; li_index := j; li_next := fst <$> head q' |} = g (k, e, q')) →
  (k ← unwrap c; item ← get_item b k; f item) = (x ← at_cursor q c; g x).
Proof.
  intros Hrep Hfg. destruct c as [k|]; [|done]. simpl. unfold get_item, at_cursor. simpl.
  pose proof (repr_lookup b q k Hrep) as Hl.
  destruct (suffix_from k q) as [|[k' e] q'] eqn:Hs; [by rewrite Hl|].
  destruct Hl as [-> [j Hj]]. rewrite Hj. simpl. by apply Hfg.
Qed.

Lemma find_elem_from_repr b q c p :
  repr b q →
  find_elem_from b c p = match c with None => Ok None | Some k => first_match p (suffix_from k q) end.
Proof.
  intros Hrep. unfold find_elem_from. destruct c as [k|]; simpl; [|done].
  pose proof (repr_lookup b q k Hrep) as Hl.
  destruct (suffix_from k q) as [|[k' e] q'] eqn:Hs.
  { rewrite Hl, bool_decide_eq_false_2; [done|]. by intros [? ?]. }
  destruct Hl as [-> [j Hj]]. rewrite Hj, bool_decide_eq_true_2 by done. simpl negb. cbv iota.
  destruct (rp_chain _ _ Hrep) as (i & Hch & _).
  destruct (chain_suffix _ _ _ _ k Hch) as (j' & Hj' & _); [by rewrite Hs|]. rewrite Hs in Hj'.
  eapply find_loop_chain; [done|]. rewrite (repr_len _ _ Hrep), <- Hs. apply suffix_from_length.
Qed.

Lemma find_elem_by_key_repr b q c k :
  repr b q →
  find_elem_by_key b c k
  = (c ← c; if bool_decide (k ∈ (suffix_from c q).*1) then Some k else None).
Proof.
  intros Hrep. unfold find_elem_by_key. destruct c as [c|]; simpl; [|done].
  destruct (decide (c ∈ q.*1)) as [Hc|Hc].
  - destruct (rp_chain _ _ Hrep) as (i & Hch & _).
    destruct (chain_index _ _ _ _ c (rp_nodup _ _ Hrep) Hch Hc) as (ic & -> & Hiff). simpl.
    destruct (buf_map b !! k) as [it|] eqn:Hk; simpl.
    + assert (k ∈ q.*1) as Hin by (apply (rp_dom _ _ Hrep); by exists it).
      specialize (Hiff k it Hin Hk).
      destruct (N.leb_spec (li_index ic) (li_index it)) as [Hle|Hlt].
      * by rewrite bool_decide_eq_true_2 by tauto.
      * rewrite bool_decide_eq_false_2; [done|]. intros ?%Hiff. lia.
    + rewrite bool_decide_eq_false_2; [done|]. intros Hin%suffix_from_incl%(rp_dom _ _ Hrep).
      rewrite Hk in Hin. by destruct Hin.
  - rewrite (proj2 (suffix_from_nil c q) Hc), bool_decide_eq_false_2 by apply not_elem_of_nil.
    rewrite <- (rp_dom _ _ Hrep) in Hc. apply eq_None_not_Some in Hc as ->. done.
Qed.

Lemma buffer_step_simulated op b q :
  repr b q → op_ok op (buf_count b) q → simulated (buffer_exec op b) (queue_exec op q).
Proof.
  intros Hrep Hop. destruct op as [|e| |c|c|c e|c|c|c p|c k]; simpl.
  - exists b. by rewrite (repr_len _ _ Hrep).
  - destruct Hop as [Hnew Hmax]. destruct (push_back_repr b q e Hrep Hnew Hmax) as (b' & -> & ?).
    by exists b'.
  - destruct q as [|[k [e|]] q]; simpl.
    + exists b. destruct (rp_chain _ _ Hrep) as (i & Hch & _). simpl in Hch.
      unfold pop_front. by rewrite Hch.
    + destruct (pop_front_repr b k e q Hrep) as (b' & -> & ?). by exists b'.
    + destruct (rp_chain _ _ Hrep) as (i & (Hh & next & Hk & _) & _).
      unfold pop_front, get_item. by rewrite Hh, Hk.
  - unfold get_next. rewrite (read_simulated b q c _ (λ '(_, q'), Ok (fst <$> head q')) Hrep) by done.
    destruct (at_cursor q c) as [[[k e] q']|[]|]; simpl; [by exists b|done].
  - unfold Buffer_get. rewrite (read_simulated b q c _ (λ '(_, e, _), unwrap e) Hrep) by done.
    destruct (at_cursor q c) as [[[k [e|]] q']|[]|]; simpl; [by exists b|done..].
  - destruct c as [k|]; [|done]. unfold Buffer_set, get_item, at_cursor. simpl.
    pose proof (repr_lookup b q k Hrep) as Hl.
    destruct (suffix_from k q) as [|[k' x] q']; [by rewrite Hl|].
    destruct Hl as [-> [j Hj]]. rewrite Hj. simpl. eexists. split; [done|]. by apply set_elem_repr.
  - destruct c as [k|]; [|done]. unfold Buffer_take, get_item, at_cursor. simpl.
    pose proof (repr_lookup b q k Hrep) as Hl.
    destruct (suffix_from k q) as [|[k' [x|]] q']; [by rewrite Hl| |].
    + destruct Hl as [-> [j Hj]]. rewrite Hj. simpl. eexists. split; [done|]. by apply set_elem_repr.
    + destruct Hl as [-> [j Hj]]. by rewrite Hj.
  - exists b. split; [|done]. do 2 f_equal. destruct c as [k|]; [|done]. unfold at_cursor. simpl.
    pose proof (repr_lookup b q k Hrep) as Hl.
    destruct (suffix_from k q) as [|[k' x] q']; simpl.
    + by rewrite Hl.
    + by destruct Hl as [-> [j ->]].
  - rewrite (find_elem_from_repr b q c p Hrep). destruct c as [k|]; simpl; [|by exists b].
    destruct (first_match p (suffix_from k q)) as [r|[]|]; simpl; [by exists b|done].
  - exists b. by rewrite (find_elem_by_key_repr b q c k Hrep).
Qed.

(** The counter counts the pushes. *)
Definition pushes (op : BufferOp) : N := match op with OpPush _ => 1 | _ => 0 end.

Lemma buffer_exec_count op b o b' :
  buffer_exec op b = Ok (o, b') → buf_count b' = buf_count b + pushes op.
Proof.
  destruct op; simpl; intros H; run_inv; try lia.
  - unfold push_back, unwrap in *. run_inv; simpl; lia.
  - destruct a as [e b1]. run_inv. unfold pop_front, unwrap, get_item in *.
    destruct (buf_head b); run_inv; simpl; lia.
  - unfold Buffer_set, unwrap, get_item in *. run_inv. simpl. lia.
  - destruct a as [e b1]. run_inv. unfold Buffer_take, unwrap, get_item in *. run_inv. simpl. lia.
Qed.

(** ** Runs *)

(** The outputs of a sequence of operations, and whether it ended in a panic. *)
Fixpoint run_ops {S} (exec : BufferOp → S → result Empty_set (BufferOut * S))
    (ops : list BufferOp) (s : S) : list BufferOut * bool :=
  match ops with
  | [] => ([], false)
  | op :: ops =>
      match exec op s with
      | Ok (o, s) => let '(os, p) := run_ops exec ops s in (o :: os, p)
      | Err e => match e with end
      | Panic _ => ([], true)
      end
  end.

(** Every push is of a key that is not in the queue at that point, and there are
    fewer than [2^64] of them. *)
Fixpoint ops_ok (ops : list BufferOp) (n : N) (q : queue) : Prop :=
  match ops with
  | [] => True
  | op :: ops =>
      op_ok op n q ∧
      match queue_exec op q with Ok (_, q) => ops_ok ops (n + pushes op) q | _ => True end
  end.

Lemma run_ops_simulated ops b q :
  repr b q → ops_ok ops (buf_count b) q → run_ops buffer_exec ops b = run_ops queue_exec ops q.
Proof.
  revert b q. induction ops as [|op ops IH]; intros b q Hrep; simpl; [done|].
  intros [Hop Hrest]. pose proof (buffer_step_simulated op b q Hrep Hop) as Hsim.
  unfold simulated in Hsim. destruct (queue_exec op q) as [[o q']|[]|]; [|by rewrite Hsim].
  destruct Hsim as (b' & Hb & Hrep'). rewrite Hb.
  rewrite <- (buffer_exec_count _ _ _ _ Hb) in Hrest. by rewrite (IH b' q').
Qed.

(** The linked hash map of the pipeline refines a plain list. Every sequence of
    buffer operations that pushes items under hashes not in the buffer, fewer than
    2^64 - 1 of them, has the results of the same sequence on a list of items,
    panics and searches included. *)
Theorem buffer_refines_queue ops :
  ops_ok ops 0 [] → run_ops buffer_exec ops Buffer_new = run_ops queue_exec ops [].
Proof. intros Hok. apply run_ops_simulated; [apply Buffer_new_repr|done]. Qed.

End buffer.
