(* ===== verification/BlockBufferManager.v ===== *)
(** * The block buffer manager
    (crates/block-buffer-manager/src/block_buffer_manager.rs, and
    [StateComputeResult] of dependencies/aptos-executor-types/src/lib.rs)

    The bridge between consensus and execution: blocks go from ordered to
    computed to committed, and an epoch change cuts the blocks ordered after it.
    Every method holds the mutex of the state machine for its whole body, or for
    one round of its polling loop, so it is one step on the state; a poll that has
    to wait returns [Pending].  The theorems show that blocks only move forward,
    that what is handed to execution is a contiguous run, that transactions leave
    the buffer in order and none is lost, and how an epoch change is carried out. *)

From S2P Require Import Prelude Gaptos.

(** What the manager uses of [gaptos::api_types] and of the epoch types. *)
Class ApiTypes {GA : Gaptos} := {
  BlockId : Type;
  BlockId_eqdec :: EqDecision BlockId;
  (** 32-byte arrays and their embedding in [HashValue] *)
  Bytes32 : Type;
  HashValue_of_bytes : Bytes32 → HashValue;
  HashValue_to_bytes : HashValue → Bytes32;
  block_id_bytes : BlockId → Bytes32;
  (** [ExternalBlock], by the parts read here *)
  ExternalBlock : Type;
  eb_block_id : ExternalBlock → BlockId;
  eb_block_number : ExternalBlock → N;
  eb_epoch : ExternalBlock → N;
  eb_usecs : ExternalBlock → N;
  eb_num_txns : ExternalBlock → N;
  VerifiedTxnWithAccountSeqNum : Type;
  Transaction : Type;
  TxnStatus : Type;
  is_discarded : TxnStatus → bool;
  BlockEndInfo : Type;
  (** the events execution reports, beside [NewEpoch] *)
  EventBytes : Type;
  OtherEvent : Type;
  ApiValidatorSet : Type;
  validator_set_from_bytes : EventBytes → result string ApiValidatorSet;
  ValidatorSet : Type;
  convert_validator_set : ApiValidatorSet → result string ValidatorSet;
  EpochState_new : N → ValidatorSet → EpochState;
}.

Section block_buffer_manager.
Context {GA : Gaptos} {AT : ApiTypes}.

(** ** Execution results (aptos-executor-types) *)

Inductive GravityEvent :=
| NewEpoch (epoch : N) (bytes : EventBytes)
| ObservedJWKsUpdated (number : N)
| OtherGravityEvent (e : OtherEvent).

Record ComputeRes := {
  cr_data : Bytes32;
  cr_txn_num : N;
  cr_txn_status : option (list TxnStatus);
  cr_events : list GravityEvent;
}.

Record StateComputeResult := {
  scr_execution_output : ComputeRes;
  scr_epoch_state : option EpochState;
  scr_block_end_info : option BlockEndInfo;
}.

Definition StateComputeResult_new (out : ComputeRes) (es : option EpochState)
    (info : option BlockEndInfo) : StateComputeResult :=
  {| scr_execution_output := out; scr_epoch_state := es; scr_block_end_info := info |}.

Definition with_root_hash (root_hash : HashValue) : StateComputeResult :=
  {| scr_execution_output :=
       {| cr_data := HashValue_to_bytes root_hash; cr_txn_num := 0;
          cr_txn_status := None; cr_events := [] |};
     scr_epoch_state := None; scr_block_end_info := None |}.

Definition new_dummy : StateComputeResult := with_root_hash ACCUMULATOR_PLACEHOLDER_HASH.

Definition new_dummy_with_epoch_state (epoch_state : EpochState) : StateComputeResult :=
  StateComputeResult_new (scr_execution_output new_dummy) (Some epoch_state)
    (scr_block_end_info new_dummy).

Definition root_hash (r : StateComputeResult) : HashValue :=
  HashValue_of_bytes (cr_data (scr_execution_output r)).

Definition has_reconfiguration (r : StateComputeResult) : bool :=
  bool_decide (is_Some (scr_epoch_state r)).

Definition transactions_to_commit (r : StateComputeResult) (input_txns : list Transaction)
    : list Transaction :=
  match cr_txn_status (scr_execution_output r) with
  | None => input_txns
  | Some status =>
      fst <$> filter (λ p : Transaction * TxnStatus, is_discarded p.2 = false)
                (zip input_txns status)
  end.

(** ** The state *)

(** [BlockKey]: epoch and block number. *)
Abbreviation BlockKey := (N * N)%type.

(** The persist channel of a block is named by the key of the block. *)
Inductive BlockState :=
| Ordered (block : ExternalBlock) (parent_id : BlockId) (round : N)
| Computed (id : BlockId) (compute_result : StateComputeResult)
| Committed (hash : option Bytes32) (compute_result : StateComputeResult) (id : BlockId)
    (persist_notifier : option BlockKey)
| Historical (id : BlockId).

Definition get_block_id (s : BlockState) : BlockId :=
  match s with
  | Ordered block _ _ => eb_block_id block
  | Computed id _ => id
  | Committed _ _ id _ => id
  | Historical id => id
  end.

Inductive BufferState := Uninitialized | BufferReady | EpochChange.

#[global] Instance BufferState_eqdec : EqDecision BufferState.
Proof. solve_decision. Defined.

(** [EpochBlockInfo], a struct literal in the source. *)
Record EpochChangeInfo := {
  eci_block_id : HashValue;
  eci_block_number : N;
  eci_epoch_start_round : N;
  eci_epoch_start_timestamp_usecs : N;
  eci_block_hash : HashValue;
}.

Record EpochChangeCache := {
  ecc_epoch_block_info : EpochChangeInfo;
  ecc_epoch_state : EpochState;
}.

Record TxnItem := {
  ti_txns : list VerifiedTxnWithAccountSeqNum;
  ti_gas_limit : N;
}.

(** [BlockStateMachine] with the fields of [BlockBufferManager] around it.  The
    profile map holds time stamps for the logs, the broadcast sender only wakes
    pollers; neither is state an operation reads. *)
Record Manager := {
  bm_txns : list TxnItem;
  bm_buffer_state : BufferState;
  bm_max_block_size : N;
  bm_blocks : gmap BlockKey BlockState;
  bm_latest_commit_block_number : N;
  bm_latest_finalized_block_number : N;
  bm_block_number_to_block_id : gmap N BlockId;
  bm_current_epoch : N;
  bm_next_epoch : option N;
  bm_latest_epoch_change_block_number : N;
  bm_epoch_change_block_info : option EpochChangeCache;
  bm_epoch_change_ready : bool;
}.

Definition Manager_new (max_block_size : N) : Manager :=
  {| bm_txns := []; bm_buffer_state := Uninitialized; bm_max_block_size := max_block_size;
     bm_blocks := ∅; bm_latest_commit_block_number := 0; bm_latest_finalized_block_number := 0;
     bm_block_number_to_block_id := ∅; bm_current_epoch := 0; bm_next_epoch := None;
     bm_latest_epoch_change_block_number := 0; bm_epoch_change_block_info := None;
     bm_epoch_change_ready := false |}.

(** ** Field updates *)

Definition set_blocks (blocks : gmap BlockKey BlockState) (m : Manager) : Manager :=
  {| bm_txns := bm_txns m; bm_buffer_state := bm_buffer_state m;
     bm_max_block_size := bm_max_block_size m; bm_blocks := blocks;
     bm_latest_commit_block_number := bm_latest_commit_block_number m;
     bm_latest_finalized_block_number := bm_latest_finalized_block_number m;
     bm_block_number_to_block_id := bm_block_number_to_block_id m;
     bm_current_epoch := bm_current_epoch m; bm_next_epoch := bm_next_epoch m;
     bm_latest_epoch_change_block_number := bm_latest_epoch_change_block_number m;
     bm_epoch_change_block_info := bm_epoch_change_block_info m;
     bm_epoch_change_ready := bm_epoch_change_ready m |}.

Definition set_txns (txns : list TxnItem) (m : Manager) : Manager :=
  {| bm_txns := txns; bm_buffer_state := bm_buffer_state m;
     bm_max_block_size := bm_max_block_size m; bm_blocks := bm_blocks m;
     bm_latest_commit_block_number := bm_latest_commit_block_number m;
     bm_latest_finalized_block_number := bm_latest_finalized_block_number m;
     bm_block_number_to_block_id := bm_block_number_to_block_id m;
     bm_current_epoch := bm_current_epoch m; bm_next_epoch := bm_next_epoch m;
     bm_latest_epoch_change_block_number := bm_latest_epoch_change_block_number m;
     bm_epoch_change_block_info := bm_epoch_change_block_info m;
     bm_epoch_change_ready := bm_epoch_change_ready m |}.

Definition set_numbers (commit finalized : N) (ids : gmap N BlockId) (m : Manager) : Manager :=
  {| bm_txns := bm_txns m; bm_buffer_state := bm_buffer_state m;
     bm_max_block_size := bm_max_block_size m; bm_blocks := bm_blocks m;
     bm_latest_commit_block_number := commit; bm_latest_finalized_block_number := finalized;
     bm_block_number_to_block_id := ids;
     bm_current_epoch := bm_current_epoch m; bm_next_epoch := bm_next_epoch m;
     bm_latest_epoch_change_block_number := bm_latest_epoch_change_block_number m;
     bm_epoch_change_block_info := bm_epoch_change_block_info m;
     bm_epoch_change_ready := bm_epoch_change_ready m |}.

(** The epoch fields: current epoch, next epoch, number of the epoch-change block,
    cache, ready flag, and the atomic buffer state. *)
Definition set_epoch (current : N) (next : option N) (change_num : N)
    (cache : option EpochChangeCache) (ready : bool) (bs : BufferState) (m : Manager) : Manager :=
  {| bm_txns := bm_txns m; bm_buffer_state := bs;
     bm_max_block_size := bm_max_block_size m; bm_blocks := bm_blocks m;
     bm_latest_commit_block_number := bm_latest_commit_block_number m;
     bm_latest_finalized_block_number := bm_latest_finalized_block_number m;
     bm_block_number_to_block_id := bm_block_number_to_block_id m;
     bm_current_epoch := current; bm_next_epoch := next;
     bm_latest_epoch_change_block_number := change_num;
     bm_epoch_change_block_info := cache; bm_epoch_change_ready := ready |}.

(** ** Waiting *)

Inductive poll (A : Type) : Type :=
| Pending
| Ready (r : result Anyhow A).

Definition is_ready (m : Manager) : bool := bool_decide (bm_buffer_state m ≠ Uninitialized).

Definition is_epoch_change (m : Manager) : bool := bool_decide (bm_buffer_state m = EpochChange).

(** [wait_until_ready] before the body. *)
Definition when_ready {A} (body : M Manager Anyhow A) (m : Manager) : poll A * Manager :=
  if is_ready m then let '(r, m) := body m in (Ready _ r, m) else (Pending _, m).

(** One round of a polling loop; [elapsed] tells whether [max_wait_timeout] has
    passed, a body that returns [None] waits for the next change. *)
Definition polling {A} (elapsed : bool) (timeout : string) (body : M Manager Anyhow (option A))
    (m : Manager) : poll A * Manager :=
  if is_ready m then
    if elapsed then (Ready _ (Err (Msg timeout)), m)
    else match body m with
         | (Ok (Some a), m) => (Ready _ (Ok a), m)
         | (Ok None, m) => (Pending _, m)
         | (Err e, m) => (Ready _ (Err e), m)
         | (Panic s, m) => (Ready _ (Panic s), m)
         end
  else (Pending _, m).

(** ** Operations *)

Definition is_suffix_block (m : Manager) (block_num : N) : bool :=
  match bm_epoch_change_block_info m with
  | Some cache => eci_block_number (ecc_epoch_block_info cache) <? block_num
  | None => false
  end.

Definition is_stale_commit_after_epoch_change (m : Manager) (epoch block_num : N) : bool :=
  (epoch <? bm_current_epoch m)
  || match bm_epoch_change_block_info m with
     | Some cache =>
         (epoch =? bm_current_epoch m)
         && (eci_block_number (ecc_epoch_block_info cache) <? block_num)
     | None => false
     end.

Definition remove_committed_blocks (m : Manager) : Manager :=
  if N.of_nat (size (bm_blocks m)) <? bm_max_block_size m then m
  else set_blocks (filter (λ kv : BlockKey * BlockState,
                             bm_latest_finalized_block_number m ≤ kv.1.2) (bm_blocks m)) m.

(** The block at the commit number, checked before anything is written. *)
Definition init_commit_block (latest_commit_block_number : N)
    (block_number_to_block_id_with_epoch : gmap N (N * BlockId))
    : result Anyhow (option (N * BlockId)) :=
  if bool_decide (block_number_to_block_id_with_epoch = ∅) then
    if 0 <? latest_commit_block_number
    then Err (Msg "requires a non-empty block_number_to_block_id_with_epoch map")
    else Ok None
  else
    b ← ok_or (Msg "not found in block_number_to_block_id_with_epoch map")
          (block_number_to_block_id_with_epoch !! latest_commit_block_number);
    Ok (Some b).

Definition init (latest_commit_block_number : N)
    (block_number_to_block_id_with_epoch : gmap N (N * BlockId)) (initial_epoch : N)
    : M Manager Anyhow unit := λ m,
  match init_commit_block latest_commit_block_number block_number_to_block_id_with_epoch with
  | Ok commit_block =>
      let m := set_numbers latest_commit_block_number latest_commit_block_number
                 (snd <$> block_number_to_block_id_with_epoch) m in
      let '(blocks, change_num) :=
        match commit_block with
        | Some (commit_block_epoch, commit_block_id) =>
            (<[(commit_block_epoch, latest_commit_block_number) := Historical commit_block_id]>
               (bm_blocks m), 0)
        | None => (bm_blocks m, bm_latest_epoch_change_block_number m)
        end in
      (Ok tt,
       set_epoch initial_epoch (bm_next_epoch m) change_num (bm_epoch_change_block_info m)
         (bm_epoch_change_ready m) BufferReady (set_blocks blocks m))
  | Err e => (Err e, m)
  | Panic s => (Panic s, m)
  end.

Definition init_epoch (epoch : N) (m : Manager) : Manager :=
  set_epoch epoch (bm_next_epoch m) (bm_latest_epoch_change_block_number m)
    (bm_epoch_change_block_info m) (bm_epoch_change_ready m) (bm_buffer_state m) m.

Definition push_txns (txns : list VerifiedTxnWithAccountSeqNum) (gas_limit : N) (m : Manager)
    : Manager :=
  set_txns (bm_txns m ++ [{| ti_txns := txns; ti_gas_limit := gas_limit |}]) m.

Definition consume_epoch_change (m : Manager) : (N * N) * Manager :=
  let epoch_change_block_number := bm_latest_epoch_change_block_number m in
  let new_epoch := default (bm_current_epoch m) (bm_next_epoch m) in
  let effective_block_number :=
    if epoch_change_block_number =? 0 then bm_latest_commit_block_number m
    else epoch_change_block_number in
  ((new_epoch, effective_block_number),
   set_epoch (bm_current_epoch m) (bm_next_epoch m) 0 (bm_epoch_change_block_info m) false
     BufferReady m).

(** The scan of [pop_txns]: the number of leading items within the limits. *)
Fixpoint split_point (items : list TxnItem) (total_gas_limit count max_size gas_limit : N)
    : result Anyhow nat :=
  match items with
  | [] => Ok 0%nat
  | item :: items =>
      total ← add_u64 total_gas_limit (ti_gas_limit item);
      if (gas_limit <? total) || (max_size <=? count) then Ok 0%nat
      else n ← split_point items total (count + 1) max_size gas_limit; Ok (S n)
  end.

(** The count of transactions is only logged, but its sum is computed. *)
Definition pop_txns (max_size gas_limit : N)
    : M Manager Anyhow (list VerifiedTxnWithAccountSeqNum) := λ m,
  (_ ← lift (sum_u64 ((λ i, N.of_nat (length (ti_txns i))) <$> bm_txns m));
   n ← lift (split_point (bm_txns m) 0 0 max_size gas_limit);
   let n := if (n =? 0)%nat && negb (bool_decide (bm_txns m = [])) && (0 <? max_size)
            then 1%nat else n in
   _ ← modify (set_txns (drop n (bm_txns m)));
   mret (concat (ti_txns <$> take n (bm_txns m)))) m.

(** The parent recorded for a new block: the block one below, of the same epoch or
    of the previous one, if there is one. *)
Definition actual_parent (m : Manager) (block : ExternalBlock) (parent_id : BlockId) : BlockId :=
  match checked_sub (eb_block_number block) 1 with
  | Some parent_block_num =>
      match bm_blocks m !! (eb_epoch block, parent_block_num) with
      | Some state => get_block_id state
      | None =>
          match (if 0 <? eb_epoch block
                 then bm_blocks m !! (eb_epoch block - 1, parent_block_num) else None) with
          | Some state => get_block_id state
          | None => parent_id
          end
      end
  | None => parent_id
  end.

Definition set_ordered_blocks (parent_id : BlockId) (block : ExternalBlock) (round : N)
    : M Manager Anyhow unit := λ m,
  if bm_epoch_change_ready m
  then (Err (Msg "set_ordered_blocks: epoch change is waiting to be consumed"), m)
  else if eb_epoch block <? bm_current_epoch m then (Ok tt, m)
  else if bm_current_epoch m <? eb_epoch block
  then (Err (Msg "set_ordered_blocks: block has future epoch"), m)
  else
    let block_key := (eb_epoch block, eb_block_number block) in
    match bm_blocks m !! block_key with
    | Some _ => (Ok tt, m)
    | None =>
        (Ok tt, set_blocks (<[block_key := Ordered block (actual_parent m block parent_id) round]>
                              (bm_blocks m)) m)
    end.

(** The inner loop of [get_ordered_blocks]; [taken] blocks are in [result]
    already.  [fuel] bounds the number of rounds, see [get_ordered_blocks]. *)
Fixpoint collect_ordered (fuel : nat) (m : Manager) (epoch current_num : N) (taken : N)
    (max_size : N) : result Anyhow (list (ExternalBlock * BlockId)) :=
  match fuel with
  | O => Panic "out of fuel"
  | S fuel =>
      match bm_blocks m !! (epoch, current_num) with
      | Some (Ordered block parent_id _) =>
          if max_size <=? taken + 1 then Ok [(block, parent_id)]
          else
            next ← add_u64 current_num 1;
            rest ← collect_ordered fuel m epoch next (taken + 1) max_size;
            Ok ((block, parent_id) :: rest)
      | _ => Ok []
      end
  end.

(** Every round but the last finds another block of the map, so one round per
    block and one more are enough. *)
Definition get_ordered_blocks (start_num : N) (max_size : option N) (expected_epoch : N)
    : M Manager Anyhow (option (list (ExternalBlock * BlockId))) := λ m,
  if bm_epoch_change_ready m || negb (bm_current_epoch m =? expected_epoch)
  then (Err (Msg "Buffer is in epoch change"), m)
  else
    (result ← lift (collect_ordered (S (size (bm_blocks m))) m expected_epoch start_num 0
                      (default u64_max max_size));
     mret (if bool_decide (length result = 0%nat) then None else Some result)) m.

(** [StateComputeResult] of a suffix block: no output, but the new epoch state. *)
Definition suffix_result (cache : EpochChangeCache) : StateComputeResult :=
  new_dummy_with_epoch_state (ecc_epoch_state cache).

Definition get_executed_res (block_id : BlockId) (block_num epoch : N)
    : M Manager Anyhow (option StateComputeResult) := λ m,
  let block_key := (epoch, block_num) in
  match bm_blocks m !! block_key with
  | Some (Computed id compute_result) =>
      if bool_decide (id ≠ block_id)
      then (Err (Msg "get_executed_res: block id mismatch for Computed block"), m)
      else (Ok (Some compute_result), m)
  | Some (Ordered _ _ _) =>
      if is_suffix_block m block_num then
        match bm_epoch_change_block_info m with
        | Some cache =>
            (Ok (Some (suffix_result cache)),
             set_blocks (<[block_key := Computed block_id (suffix_result cache)]> (bm_blocks m)) m)
        | None => (Panic "is_suffix_block implies epoch_change_block_info set", m)
        end
      else (Ok None, m)
  | Some (Committed _ compute_result id _) =>
      if bool_decide (id ≠ block_id)
      then (Err (Msg "get_executed_res: block id mismatch for Committed block"), m)
      else (Ok (Some compute_result), m)
  | Some (Historical _) => (Err (Msg "Cannot get executed result for historical block"), m)
  | None =>
      if epoch <? bm_current_epoch m then (Ok (Some new_dummy), m)
      else (Err (Msg "There is no Ordered Block but try to get executed result"), m)
  end.

(** The first [NewEpoch] among the events. *)
Fixpoint find_new_epoch (events : list GravityEvent) : option (N * EventBytes) :=
  match events with
  | [] => None
  | NewEpoch epoch bytes :: _ => Some (epoch, bytes)
  | _ :: events => find_new_epoch events
  end.

Definition calculate_new_epoch_state (events : list GravityEvent) (block_num : N)
    : M Manager Anyhow (option EpochState) := λ m,
  match find_new_epoch events with
  | None => (Ok None, m)
  | Some (new_epoch, bytes) =>
      match (api ← with_context "Failed to deserialize into config" (validator_set_from_bytes bytes);
             with_context "Failed to convert validator set" (convert_validator_set api)) with
      | Ok validator_set =>
          (Ok (Some (EpochState_new new_epoch validator_set)),
           set_epoch (bm_current_epoch m) (Some new_epoch) block_num (bm_epoch_change_block_info m)
             (bm_epoch_change_ready m) (bm_buffer_state m) m)
      | Err e => (Err e, m)
      | Panic s => (Panic s, m)
      end
  end.

(** An ordered block after the epoch change becomes computed, with a dummy. *)
Definition cut_suffix (epoch epoch_change_block_num : N) (epoch_state : EpochState)
    (key : BlockKey) (state : BlockState) : BlockState :=
  match state with
  | Ordered block _ _ =>
      if (key.1 =? epoch) && (epoch_change_block_num <? key.2)
      then Computed (eb_block_id block) (new_dummy_with_epoch_state epoch_state)
      else state
  | _ => state
  end.

Definition handle_epoch_change_suffix_blocks (epoch_change_block_num epoch : N)
    (block_id : BlockId) (block_timestamp_usecs block_round : N) (block_hash : Bytes32)
    (epoch_state : EpochState) (m : Manager) : Manager :=
  let cache :=
    {| ecc_epoch_block_info :=
         {| eci_block_id := HashValue_of_bytes (block_id_bytes block_id);
            eci_block_number := epoch_change_block_num;
            eci_epoch_start_round := block_round;
            eci_epoch_start_timestamp_usecs := block_timestamp_usecs;
            eci_block_hash := HashValue_of_bytes block_hash |};
       ecc_epoch_state := epoch_state |} in
  set_epoch (bm_current_epoch m) (bm_next_epoch m) (bm_latest_epoch_change_block_number m)
    (Some cache) (bm_epoch_change_ready m) (bm_buffer_state m)
    (set_blocks (map_imap (λ key state,
                   Some (cut_suffix epoch epoch_change_block_num epoch_state key state))
                   (bm_blocks m)) m).

Definition set_compute_res (block_id : BlockId) (block_hash : Bytes32) (block_num epoch : N)
    (txn_status : option (list TxnStatus)) (events : list GravityEvent)
    : M Manager Anyhow unit := λ m,
  let block_key := (epoch, block_num) in
  match bm_blocks m !! block_key with
  | Some (Ordered block _ round) =>
      if bool_decide (eb_block_id block ≠ block_id)
      then (Err (Msg "set_compute_res: block id mismatch"), m)
      else
        (new_epoch_state ← calculate_new_epoch_state events block_num;
         let compute_result :=
           StateComputeResult_new
             {| cr_data := block_hash; cr_txn_num := eb_num_txns block;
                cr_txn_status := txn_status; cr_events := events |} new_epoch_state None in
         _ ← modify (λ m, set_blocks (<[block_key := Computed block_id compute_result]>
                                        (bm_blocks m)) m);
         match new_epoch_state with
         | Some epoch_state =>
             modify (handle_epoch_change_suffix_blocks block_num epoch block_id (eb_usecs block)
                       round block_hash epoch_state)
         | None => mret tt
         end) m
  | _ => (Err (Msg "There is no Ordered Block but try to push compute result"), m)
  end.

Record BlockHashRef := {
  bhr_block_id : BlockId;
  bhr_num : N;
  bhr_hash : option Bytes32;
  bhr_persist_notifier : option BlockKey;
}.

(** One block of [set_commit_blocks]: the receivers it adds. *)
Definition commit_block (epoch : N) (b : BlockHashRef) : M Manager Anyhow (list BlockKey) := λ m,
  let block_key := (epoch, bhr_num b) in
  let is_suffix := is_suffix_block m (bhr_num b) in
  match bm_blocks m !! block_key with
  | Some (Computed id compute_result) =>
      if bool_decide (id = bhr_block_id b) then
        let notify := has_reconfiguration compute_result && negb is_suffix in
        (Ok (if notify then [block_key] else []),
         set_blocks (<[block_key :=
                         Committed (bhr_hash b) compute_result (bhr_block_id b)
                           (if notify then Some block_key else None)]> (bm_blocks m)) m)
      else (Err (Msg "Computed Block id and number is not equal"), m)
  | Some (Committed _ _ id _) =>
      if negb is_suffix && bool_decide (id ≠ bhr_block_id b)
      then (Err (Msg "Committed Block id mismatch"), m)
      else (Ok [], m)
  | Some (Ordered _ _ _) => (Err (Msg "Set commit block meet ordered block"), m)
  | Some (Historical id) =>
      if bool_decide (id ≠ bhr_block_id b)
      then (Err (Msg "Historical Block id mismatch"), m)
      else (Ok [], m)
  | None =>
      if is_stale_commit_after_epoch_change m epoch (bhr_num b) then (Ok [], m)
      else (Err (Msg "There is no Block but try to push commit block"), m)
  end.

Fixpoint set_commit_blocks (block_ids : list BlockHashRef) (epoch : N)
    : M Manager Anyhow (list BlockKey) :=
  match block_ids with
  | [] => mret []
  | b :: block_ids =>
      notifiers ← commit_block epoch b;
      rest ← set_commit_blocks block_ids epoch;
      mret (notifiers ++ rest)
  end.

(** The inner loop of [get_committed_blocks]; [persist_notifier.take()] empties the
    notifier of each block it returns. *)
Fixpoint collect_committed (fuel : nat) (epoch current_num taken max_size : N)
    : M Manager Anyhow (list BlockHashRef) := λ m,
  match fuel with
  | O => (Panic "out of fuel", m)
  | S fuel =>
      if is_suffix_block m current_num then (Ok [], m)
      else
        let block_key := (epoch, current_num) in
        match bm_blocks m !! block_key with
        | Some (Committed hash compute_result id persist_notifier) =>
            let ref := {| bhr_block_id := id; bhr_num := current_num; bhr_hash := hash;
                          bhr_persist_notifier := persist_notifier |} in
            let m := set_blocks (<[block_key := Committed hash compute_result id None]>
                                   (bm_blocks m)) m in
            if max_size <=? taken + 1 then (Ok [ref], m)
            else
              (next ← lift (add_u64 current_num 1);
               rest ← collect_committed fuel epoch next (taken + 1) max_size;
               mret (ref :: rest)) m
        | _ => (Ok [], m)
        end
  end.

Definition get_committed_blocks (start_num : N) (max_size : option N) (epoch : N)
    : M Manager Anyhow (option (list BlockHashRef)) := λ m,
  (result ← collect_committed (S (size (bm_blocks m))) epoch start_num 0
              (default u64_max max_size);
   mret (if bool_decide (length result = 0%nat) then None else Some result)) m.

Definition set_state (latest_commit_block_number latest_finalized_block_number : N) (m : Manager)
    : Manager :=
  set_numbers latest_commit_block_number latest_finalized_block_number
    (bm_block_number_to_block_id m) m.

Definition get_epoch_change_block_info (m : Manager) (block_num epoch : N)
    : option EpochChangeInfo :=
  match bm_epoch_change_block_info m with
  | Some cache =>
      if (eci_block_number (ecc_epoch_block_info cache) <? block_num)
         && (epoch =? bm_current_epoch m)
      then Some (ecc_epoch_block_info cache) else None
  | None => None
  end.

Definition has_pending_epoch_change (m : Manager) : bool :=
  negb (bm_latest_epoch_change_block_number m =? 0)
  || bool_decide (is_Some (bm_next_epoch m))
  || match bm_epoch_change_block_info m with Some _ => true | None => false end.

Definition release_inflight_blocks (m : Manager) : Manager :=
  if negb (has_pending_epoch_change m) then m
  else
    set_epoch (default (bm_current_epoch m) (bm_next_epoch m)) None
      (bm_latest_epoch_change_block_number m) None true EpochChange
      (set_blocks (filter (λ kv : BlockKey * BlockState,
                             kv.1.2 ≤ bm_latest_epoch_change_block_number m) (bm_blocks m)) m).

(** ** The transaction buffer *)

Implicit Types (m : Manager) (key : BlockKey) (s : BlockState).

(** The scan stops at the first item that does not fit any more. *)
Lemma split_point_spec items g c max_size gas_limit :
  g + total (ti_gas_limit <$> items) ≤ u64_max →
  ∃ n, split_point items g c max_size gas_limit = Ok n ∧ (n ≤ length items)%nat ∧
    ((0 < n)%nat → g + total (ti_gas_limit <$> take n items) ≤ gas_limit ∧ c + N.of_nat n ≤ max_size) ∧
    ((n < length items)%nat →
       gas_limit < g + total (ti_gas_limit <$> take (S n) items) ∨ max_size ≤ c + N.of_nat n).
Proof.
  revert g c. induction items as [|item items IH]; intros g c Hg; cbn [split_point].
  { exists 0%nat. repeat split; simpl; lia. }
  rewrite total_cons in Hg. rewrite add_u64_fits by lia. cbn [mbind result_bind].
  destruct (N.ltb_spec gas_limit (g + ti_gas_limit item)) as [Hlt|Hge]; simpl orb; cbv iota.
  { exists 0%nat. split; [done|]. split; [lia|]. split; [lia|]. intros _. left. simpl. lia. }
  destruct (N.leb_spec max_size c) as [Hle|Hgt].
  { exists 0%nat. split; [done|]. split; [lia|]. split; [lia|]. intros _. right. lia. }
  destruct (IH (g + ti_gas_limit item) (c + 1)) as (n & -> & Hn & Hpos & Hmax); [lia|].
  exists (S n). split; [done|]. split; [simpl; lia|]. cbn [take]. rewrite !total_cons. split.
  - intros _. destruct n as [|n]; [simpl; lia|]. destruct Hpos as [? ?]; lia.
  - intros Hlen. simpl in Hlen. destruct Hmax as [?|?]; [lia|left|right]; lia.
Qed.

(** [pop_txns] takes a prefix of the buffered batches: at least one when there is
    one and the size limit is positive, at most [max_size] batches, within the gas
    limit when more than one is taken, and maximal, since one more batch would
    exceed the gas limit or the size limit. *)
Theorem pop_txns_spec max_size gas_limit m :
  total (ti_gas_limit <$> bm_txns m) ≤ u64_max →
  total ((λ i, N.of_nat (length (ti_txns i))) <$> bm_txns m) ≤ u64_max →
  ∃ n, pop_txns max_size gas_limit m
    = (Ok (concat (ti_txns <$> take n (bm_txns m))), set_txns (drop n (bm_txns m)) m) ∧
    (n ≤ length (bm_txns m))%nat ∧
    (bm_txns m ≠ [] → 0 < max_size → (0 < n)%nat) ∧
    ((1 < n)%nat → total (ti_gas_limit <$> take n (bm_txns m)) ≤ gas_limit) ∧
    (N.of_nat n ≤ max_size) ∧
    ((n < length (bm_txns m))%nat →
       gas_limit < total (ti_gas_limit <$> take (S n) (bm_txns m)) ∨ max_size ≤ N.of_nat n).
Proof.
  intros Hgas Hlen. unfold pop_txns, mbind, M_bind, lift. rewrite sum_u64_fits by done.
  destruct (split_point_spec (bm_txns m) 0 0 max_size gas_limit) as (n & -> & Hn & Hpos & Hmax);
    [lia|].
  destruct n as [|n]; simpl.
  - case_bool_decide as Hempty; simpl.
    { exists 0%nat. rewrite Hempty. simpl. repeat split; try done; lia. }
    destruct (N.ltb_spec 0 max_size) as [Hms|Hms]; simpl.
    + exists 1%nat. destruct (bm_txns m) as [|i items]; [done|]. simpl in *.
      split; [done|]. split; [lia|]. split; [lia|]. split; [lia|]. split; [lia|]. intros Hl.
      destruct Hmax as [?|?]; [lia| |lia]. left. destruct items; simpl in *; lia.
    + exists 0%nat. split; [done|]. repeat split; intros; lia.
  - exists (S n). split; [done|]. destruct Hpos as [? ?]; [lia|].
    repeat split; try done; lia.
Qed.

(** Pushes and pops, and the transactions that went through them. *)
Inductive TxnOp :=
| TPush (txns : list VerifiedTxnWithAccountSeqNum) (gas : N)
| TPop (max_size gas_limit : N).

Fixpoint txn_run (ops : list TxnOp) (m : Manager)
    : list VerifiedTxnWithAccountSeqNum * Manager :=
  match ops with
  | [] => ([], m)
  | TPush txns gas :: ops => txn_run ops (push_txns txns gas m)
  | TPop max_size gas_limit :: ops =>
      let '(r, m) := pop_txns max_size gas_limit m in
      let '(out, m) := txn_run ops m in
      (match r with Ok txns => txns | _ => [] end ++ out, m)
  end.

Definition pushed (ops : list TxnOp) : list VerifiedTxnWithAccountSeqNum :=
  concat ((λ op, match op with TPush txns _ => txns | TPop _ _ => [] end) <$> ops).

Definition buffered m : list VerifiedTxnWithAccountSeqNum := concat (ti_txns <$> bm_txns m).

Lemma pop_txns_conserves max_size gas_limit m r m' :
  pop_txns max_size gas_limit m = (r, m') →
  buffered m = match r with Ok txns => txns | _ => [] end ++ buffered m'.
Proof.
  unfold pop_txns, mbind, M_bind, lift, modify, mret, M_ret, buffered. intros H.
  repeat case_match; simplify_eq/=; try done; by rewrite <- concat_app, <- fmap_app, take_drop.
Qed.

(** No transaction is lost, duplicated or reordered between mempool and proposer:
    over any sequence of pushes and pops, what was buffered followed by what is
    pushed is what is popped followed by what stays buffered. *)
Theorem txns_conserved ops m out m' :
  txn_run ops m = (out, m') → buffered m ++ pushed ops = out ++ buffered m'.
Proof.
  revert m out. induction ops as [|[txns gas|max_size gas_limit] ops IH]; intros m out; simpl.
  - intros [= <- <-]. by rewrite app_nil_r.
  - intros Hrun. rewrite <- (IH _ _ Hrun). unfold buffered, push_txns, pushed. simpl.
    rewrite fmap_app, concat_app. simpl. by rewrite app_nil_r, <- app_assoc.
  - destruct (pop_txns max_size gas_limit m) as [r m1] eqn:Hpop.
    destruct (txn_run ops m1) as [out1 m2] eqn:Hrun. intros [= <- <-].
    rewrite (pop_txns_conserves _ _ _ _ _ Hpop), <- !app_assoc. f_equal.
    by apply IH.
Qed.

(** ** Runs of consecutive blocks *)

(** [f] holds for the [n] blocks from [start] on. *)
Definition consecutive (f : BlockState → Prop) m (epoch start : N) (n : nat) : Prop :=
  ∀ i, (i < n)%nat → ∃ s, bm_blocks m !! (epoch, start + N.of_nat i) = Some s ∧ f s.

Lemma consecutive_bound f m epoch start n :
  consecutive f m epoch start n → (n ≤ size (bm_blocks m))%nat.
Proof.
  intros Hrun. transitivity (length ((λ i, (epoch, start + N.of_nat i)) <$> seq 0 n)).
  { by rewrite length_fmap, length_seq. }
  rewrite <- size_dom, <- (size_list_to_set (C := gset BlockKey)).
  - apply subseteq_size. intros k (i & -> & [_ Hi]%elem_of_seq)%elem_of_list_to_set%list_elem_of_fmap.
    apply elem_of_dom. destruct (Hrun i Hi) as (s & -> & _). by exists s.
  - apply NoDup_fmap_2_strong; [|apply NoDup_seq]. intros i j _ _ [= ?]. lia.
Qed.

Lemma consecutive_snoc f m epoch start n s :
  consecutive f m epoch start n → bm_blocks m !! (epoch, start + N.of_nat n) = Some s → f s →
  consecutive f m epoch start (S n).
Proof.
  intros Hrun Hs Hf i Hi. destruct (decide (i = n)) as [->|]; [by exists s|]. apply Hrun. lia.
Qed.

Definition ordered_state s : Prop := match s with Ordered _ _ _ => True | _ => False end.

(** What [get_ordered_blocks] hands out, from [cur] on, when [taken] are taken. *)
Definition ordered_run m (epoch cur taken max_size : N) (l : list (ExternalBlock * BlockId)) : Prop :=
  (∀ i b p, l !! i = Some (b, p) →
     ∃ r, bm_blocks m !! (epoch, cur + N.of_nat i) = Some (Ordered b p r)) ∧
  (taken + N.of_nat (length l) ≤ N.max max_size (taken + 1)) ∧
  (l ≠ [] ∧ max_size ≤ taken + N.of_nat (length l) ∨
   ∀ b p r, bm_blocks m !! (epoch, cur + N.of_nat (length l)) ≠ Some (Ordered b p r)).

Lemma collect_ordered_spec m epoch start max_size fuel taken :
  bm_blocks m !! (epoch, u64_max) = None → start + N.of_nat taken ≤ u64_max →
  consecutive ordered_state m epoch start taken → (size (bm_blocks m) < fuel + taken)%nat →
  ∃ l, collect_ordered fuel m epoch (start + N.of_nat taken) (N.of_nat taken) max_size = Ok l ∧
    ordered_run m epoch (start + N.of_nat taken) (N.of_nat taken) max_size l.
Proof.
  intros Hmax. revert taken. induction fuel as [|fuel IH]; intros taken Hle Hrun Hf.
  { apply consecutive_bound in Hrun. lia. }
  cbn [collect_ordered]. unfold ordered_run.
  destruct (bm_blocks m !! (epoch, start + N.of_nat taken)) as [s|] eqn:Hs;
    [destruct s as [b p r| | |]|].
  2-5: exists []; split; [done|]; split; [done|]; split; [simpl; lia|]; right; simpl;
    rewrite N.add_0_r, Hs; done.
  pose proof (consecutive_snoc _ _ _ _ _ _ Hrun Hs I) as Hrun'.
  destruct (N.leb_spec max_size (N.of_nat taken + 1)) as [Hlim|Hlim].
  { exists [(b, p)]. split; [done|]. split; [|simpl; split; [lia|left; split; [done|lia]]].
    intros [|i] b' p' Hl; [|done]. injection Hl as <- <-. exists r. by rewrite N.add_0_r. }
  assert (Hne : start + N.of_nat taken ≠ u64_max) by congruence.
  rewrite add_u64_fits by lia. cbn [mbind result_bind].
  replace (start + N.of_nat taken + 1) with (start + N.of_nat (S taken)) by lia.
  replace (N.of_nat taken + 1) with (N.of_nat (S taken)) by lia.
  destruct (IH (S taken)) as (l & -> & Hl & Hlen & Hstop); [lia|done|lia|].
  exists ((b, p) :: l). split; [done|]. cbn [length]. split; [|split].
  - intros [|i] b' p' Hl'; [injection Hl' as <- <-; exists r; by rewrite N.add_0_r|].
    destruct (Hl i b' p' Hl') as [r' Hr']. exists r'.
    by replace (start + N.of_nat taken + N.of_nat (S i))
      with (start + N.of_nat (S taken) + N.of_nat i) by lia.
  - lia.
  - destruct Hstop as [[? ?]|Hstop]; [left; split; [done|lia]|right].
    by replace (start + N.of_nat taken + N.of_nat (S (length l)))
      with (start + N.of_nat (S taken) + N.of_nat (length l)) by lia.
Qed.

(** [get_ordered_blocks] returns the longest run of consecutive ordered blocks of
    the epoch from the start number on, cut at the maximal size (a maximal size of
    zero still gives one block), with their parents, and waits when there is none;
    it changes nothing. The entry at number u64::MAX is assumed free, since the loop
    counter would overflow there. *)
Theorem get_ordered_blocks_spec start max_size epoch m :
  bm_blocks m !! (epoch, u64_max) = None → start ≤ u64_max →
  bm_epoch_change_ready m = false → bm_current_epoch m = epoch →
  ∃ l, get_ordered_blocks start max_size epoch m
    = (Ok (if bool_decide (length l = 0%nat) then None else Some l), m) ∧
    ordered_run m epoch start 0 (default u64_max max_size) l.
Proof.
  intros Hmax Hle Hready Hepoch.
  destruct (collect_ordered_spec m epoch start (default u64_max max_size)
    (S (size (bm_blocks m))) 0) as (l & Hcol & Hrun); [done|lia|intros i Hi; lia|lia|].
  change (N.of_nat 0) with 0 in Hcol, Hrun. rewrite N.add_0_r in Hcol, Hrun.
  exists l. split; [|done].
  unfold get_ordered_blocks. rewrite Hready, Hepoch, N.eqb_refl. simpl negb. simpl orb. cbv iota.
  unfold mbind, M_bind, lift. by rewrite Hcol.
Qed.

(** ** The life of a block *)

(** One step forward. *)
Inductive forward : BlockState → BlockState → Prop :=
| fw_same s : forward s s
| fw_computed b p r res : forward (Ordered b p r) (Computed (eb_block_id b) res)
| fw_dummy b p r id es : forward (Ordered b p r) (Computed id (new_dummy_with_epoch_state es))
| fw_committed id res h n : forward (Computed id res) (Committed h res id n)
| fw_notified h res id n : forward (Committed h res id n) (Committed h res id None).

Inductive ManagerOp :=
| MRemoveCommitted
| MInitEpoch (epoch : N)
| MPushTxns (txns : list VerifiedTxnWithAccountSeqNum) (gas : N)
| MPopTxns (max_size gas : N)
| MConsumeEpochChange
| MSetOrdered (parent : BlockId) (block : ExternalBlock) (round : N)
| MGetOrdered (start : N) (max_size : option N) (epoch : N)
| MGetExecuted (id : BlockId) (num epoch : N)
| MSetCompute (id : BlockId) (hash : Bytes32) (num epoch : N) (st : option (list TxnStatus))
    (events : list GravityEvent)
| MSetCommit (refs : list BlockHashRef) (epoch : N)
| MGetCommitted (start : N) (max_size : option N) (epoch : N)
| MSetState (commit finalized : N)
| MRelease.

(** The state an operation leaves; the methods that wait for [init] do nothing
    before it. *)
Definition manager_step (op : ManagerOp) m : Manager :=
  match op with
  | MRemoveCommitted => remove_committed_blocks m
  | MInitEpoch epoch => init_epoch epoch m
  | MPushTxns txns gas => push_txns txns gas m
  | MPopTxns max_size gas => (pop_txns max_size gas m).2
  | MConsumeEpochChange => (consume_epoch_change m).2
  | MSetOrdered parent block round => (when_ready (set_ordered_blocks parent block round) m).2
  | MGetOrdered start max_size epoch =>
      (polling false "Timeout waiting for ordered blocks" (get_ordered_blocks start max_size epoch) m).2
  | MGetExecuted id num epoch =>
      (polling false "get_executed_res timeout" (get_executed_res id num epoch) m).2
  | MSetCompute id hash num epoch st events =>
      (when_ready (set_compute_res id hash num epoch st events) m).2
  | MSetCommit refs epoch => (when_ready (set_commit_blocks refs epoch) m).2
  | MGetCommitted start max_size epoch =>
      (polling false "Timeout waiting for committed blocks"
         (get_committed_blocks start max_size epoch) m).2
  | MSetState commit finalized => set_state commit finalized m
  | MRelease => release_inflight_blocks m
  end.

(** Every block that stays makes at most a step forward; a block appears as
    ordered, in the current epoch. *)
Definition blocks_step m m' : Prop :=
  ∀ key s', bm_blocks m' !! key = Some s' →
    match bm_blocks m !! key with
    | Some s => rtc forward s s'
    | None => ordered_state s' ∧ key.1 = bm_current_epoch m
    end.

Lemma blocks_step_same m m' : bm_blocks m' = bm_blocks m → blocks_step m m'.
Proof. intros Heq key s' Hs'. rewrite Heq in Hs'. by rewrite Hs'. Qed.

Lemma blocks_step_filter m m' (P : BlockKey * BlockState → Prop) `{!∀ kv, Decision (P kv)} :
  bm_blocks m' = filter P (bm_blocks m) → blocks_step m m'.
Proof.
  intros Heq key s'. rewrite Heq, map_lookup_filter_Some. intros [-> _]. done.
Qed.

(** The operations of execution and commit move blocks forward and neither add nor
    drop any. *)
Definition moves m m' : Prop :=
  ∀ key, option_Forall2 (rtc forward) (bm_blocks m !! key) (bm_blocks m' !! key).

#[local] Instance moves_preorder : PreOrder moves.
Proof.
  split; [intros m key; reflexivity|].
  intros m1 m2 m3 H12 H23 key. by transitivity (bm_blocks m2 !! key).
Qed.

Lemma moves_blocks_step m m' : moves m m' → blocks_step m m'.
Proof. intros Hm key s' Hs'. specialize (Hm key). rewrite Hs' in Hm. by inversion Hm. Qed.

Lemma moves_same m m' : bm_blocks m' = bm_blocks m → moves m m'.
Proof. intros Heq key. by rewrite Heq. Qed.

(** One entry replaced by a later state. *)
Lemma moves_insert m m' key s s' :
  bm_blocks m !! key = Some s → forward s s' → bm_blocks m' = <[key := s']> (bm_blocks m) →
  moves m m'.
Proof.
  intros Hs Hf Heq k. rewrite Heq. destruct (decide (k = key)) as [->|Hne].
  - rewrite Hs, lookup_insert_eq. by constructor; apply rtc_once.
  - by rewrite lookup_insert_ne.
Qed.

Lemma get_executed_res_moves id num epoch m r m' :
  get_executed_res id num epoch m = (r, m') → moves m m'.
Proof.
  unfold get_executed_res. intros H. repeat case_match; simplify_eq; try done.
  eapply moves_insert; [done|apply fw_dummy|done].
Qed.

Lemma commit_block_moves epoch b m r m' : commit_block epoch b m = (r, m') → moves m m'.
Proof.
  unfold commit_block. intros H. repeat case_match; simplify_eq; try done.
  all: eapply moves_insert; [done| |done]; case_bool_decide; simplify_eq; apply fw_committed.
Qed.

Lemma set_commit_blocks_moves refs epoch m r m' :
  set_commit_blocks refs epoch m = (r, m') → moves m m'.
Proof.
  revert m r m'. induction refs as [|b refs IH]; intros m r m'; simpl; [by intros [= _ <-]|].
  unfold mbind, M_bind. destruct (commit_block epoch b m) as [r1 m1] eqn:Hone.
  apply commit_block_moves in Hone. destruct r1; [|by intros [= _ <-]..].
  destruct (set_commit_blocks refs epoch m1) as [r2 m2] eqn:Hrest. apply IH in Hrest.
  destruct r2; intros [= _ <-]; by transitivity m1.
Qed.

Lemma collect_committed_moves fuel epoch num taken max_size m r m' :
  collect_committed fuel epoch num taken max_size m = (r, m') → moves m m'.
Proof.
  revert num taken m r m'. induction fuel as [|fuel IH]; intros num taken m r m'; simpl.
  { by intros [= _ <-]. }
  destruct (is_suffix_block m num); [by intros [= _ <-]|].
  destruct (bm_blocks m !! (epoch, num)) as [[]|] eqn:Hs; try by intros [= _ <-].
  set (m1 := set_blocks _ m). assert (Hm : moves m m1).
  { eapply moves_insert; [exact Hs|apply fw_notified|done]. }
  destruct (_ <=? _); [by intros [= _ <-]|]. unfold mbind, M_bind, lift.
  destruct (add_u64 num 1); [|by intros [= _ <-]..].
  destruct (collect_committed fuel epoch a (taken + 1) max_size m1) as [r2 m2] eqn:Hrest.
  apply IH in Hrest. destruct r2; intros [= _ <-]; by transitivity m1.
Qed.

Lemma handle_epoch_change_moves num epoch id ts round hash es m :
  moves m (handle_epoch_change_suffix_blocks num epoch id ts round hash es m).
Proof.
  intros key. simpl. rewrite map_lookup_imap.
  destruct (bm_blocks m !! key) as [s|]; simpl; constructor.
  destruct s; simpl; try done. destruct (_ && _); [apply rtc_once, fw_computed|done].
Qed.

Lemma calculate_new_epoch_state_blocks events num m r m' :
  calculate_new_epoch_state events num m = (r, m') → bm_blocks m' = bm_blocks m.
Proof. unfold calculate_new_epoch_state. intros H. repeat case_match; by simplify_eq. Qed.

Lemma set_compute_res_moves id hash num epoch st events m r m' :
  set_compute_res id hash num epoch st events m = (r, m') → moves m m'.
Proof.
  unfold set_compute_res. destruct (bm_blocks m !! (epoch, num)) as [[b p rd| | |]|] eqn:Hs;
    try by intros [= _ <-].
  case_bool_decide as Hid; [by intros [= _ <-]|]. unfold mbind, M_bind.
  destruct (calculate_new_epoch_state events num m) as [r1 m1] eqn:Hcalc.
  apply calculate_new_epoch_state_blocks in Hcalc as Hb.
  destruct r1 as [es| |]; [|by intros [= _ <-]; apply moves_same..].
  unfold modify. set (m2 := set_blocks _ m1). assert (Hm2 : moves m m2).
  { eapply moves_insert; [exact Hs| |]; [|by unfold m2; simpl; rewrite Hb].
    rewrite <- Hid. apply fw_computed. }
  destruct es as [es|]; intros [= _ <-]; [|done].
  transitivity m2; [done|apply handle_epoch_change_moves].
Qed.

(** C40: A block of the buffer manager only moves forward in its life cycle. Across
    every operation other than [init], an entry that stays is unchanged or has moved
    from Ordered to Computed to Committed, with its id kept (only the empty result
    of a suffix block is stored under the caller's id) and its result kept on
    commit; an entry that appears is an ordered block of the current epoch. *)
Theorem manager_step_forward op m : blocks_step m (manager_step op m).
Proof.
  destruct op; simpl; unfold when_ready, polling.
  - unfold remove_committed_blocks. destruct (_ <? _); [by apply blocks_step_same|].
    by eapply blocks_step_filter.
  - by apply blocks_step_same.
  - by apply blocks_step_same.
  - apply blocks_step_same. unfold pop_txns, mbind, M_bind, lift, modify, mret, M_ret.
    repeat case_match; by simplify_eq/=.
  - by apply blocks_step_same.
  - destruct (is_ready m); [|by apply blocks_step_same].
    unfold set_ordered_blocks. destruct (bm_epoch_change_ready m); [by apply blocks_step_same|].
    destruct (N.ltb_spec (eb_epoch block) (bm_current_epoch m)); [by apply blocks_step_same|].
    destruct (N.ltb_spec (bm_current_epoch m) (eb_epoch block)); [by apply blocks_step_same|].
    destruct (bm_blocks m !! _) eqn:Hnone; [by apply blocks_step_same|].
    intros key s'. simpl. rewrite lookup_insert_Some. intros [[<- <-]|[_ ->]]; [|done].
    rewrite Hnone. split; [done|]. simpl. lia.
  - apply blocks_step_same. unfold get_ordered_blocks, mbind, M_bind, lift, mret, M_ret.
    repeat case_match; by simplify_eq/=.
  - apply moves_blocks_step. destruct (is_ready m); [|done].
    destruct (get_executed_res id num epoch m) as [r m'] eqn:H. apply get_executed_res_moves in H.
    by repeat case_match; simplify_eq.
  - apply moves_blocks_step. destruct (is_ready m); [|done].
    destruct (set_compute_res id hash num epoch st events m) as [r m'] eqn:H.
    by apply set_compute_res_moves in H.
  - apply moves_blocks_step. destruct (is_ready m); [|done].
    destruct (set_commit_blocks refs epoch m) as [r m'] eqn:H. by apply set_commit_blocks_moves in H.
  - apply moves_blocks_step. destruct (is_ready m); [|done].
    unfold get_committed_blocks, mbind, M_bind.
    destruct (collect_committed _ _ _ _ _ m) as [r m'] eqn:H. apply collect_committed_moves in H.
    by destruct r; simpl; repeat case_match; simplify_eq.
  - by apply blocks_step_same.
  - unfold release_inflight_blocks. destruct (negb _); [by apply blocks_step_same|].
    by eapply blocks_step_filter.
Qed.

(** ** Committed blocks *)

Definition committed_state s : Prop := match s with Committed _ _ _ _ => True | _ => False end.

(** What [get_committed_blocks] hands out from [cur] on, and what it leaves. *)
Record committed_run m m' (epoch cur taken max_size : N) (l : list BlockHashRef) : Prop := {
  cmr_block i ref : l !! i = Some ref →
    bhr_num ref = cur + N.of_nat i ∧ is_suffix_block m (bhr_num ref) = false ∧
    ∃ res, bm_blocks m !! (epoch, bhr_num ref)
        = Some (Committed (bhr_hash ref) res (bhr_block_id ref) (bhr_persist_notifier ref)) ∧
      bm_blocks m' !! (epoch, bhr_num ref)
        = Some (Committed (bhr_hash ref) res (bhr_block_id ref) None);
  cmr_length : taken + N.of_nat (length l) ≤ N.max max_size (taken + 1);
  cmr_stop : l ≠ [] ∧ max_size ≤ taken + N.of_nat (length l) ∨
    is_suffix_block m (cur + N.of_nat (length l)) = true ∨
    ∀ s, bm_blocks m !! (epoch, cur + N.of_nat (length l)) = Some s → ¬ committed_state s;
  cmr_frame key : key.1 ≠ epoch ∨ key.2 < cur ∨ cur + N.of_nat (length l) ≤ key.2 →
    bm_blocks m' !! key = bm_blocks m !! key;
}.

Lemma committed_run_nil m epoch cur taken max_size :
  is_suffix_block m cur = true ∨
    (∀ s, bm_blocks m !! (epoch, cur) = Some s → ¬ committed_state s) →
  committed_run m m epoch cur taken max_size [].
Proof.
  intros Hstop. split; [done|simpl; lia| |done]. right. cbn [length]. by rewrite N.add_0_r.
Qed.

Lemma committed_run_cons m m1 m' epoch cur taken max_size h res id n l :
  bm_blocks m !! (epoch, cur) = Some (Committed h res id n) → is_suffix_block m cur = false →
  m1 = set_blocks (<[(epoch, cur) := Committed h res id None]> (bm_blocks m)) m →
  taken + 1 < max_size →
  committed_run m1 m' epoch (cur + 1) (taken + 1) max_size l →
  committed_run m m' epoch cur taken max_size
    ({| bhr_block_id := id; bhr_num := cur; bhr_hash := h; bhr_persist_notifier := n |} :: l).
Proof.
  intros Hs Hsuf -> Hlim [Hb Hlen Hstop Hframe].
  assert (Hother : ∀ k, k ≠ cur → <[(epoch, cur) := Committed h res id None]> (bm_blocks m)
    !! (epoch, k) = bm_blocks m !! (epoch, k)) by (intros k Hk; apply lookup_insert_ne; congruence).
  assert (Hnext : cur + 1 + N.of_nat (length l) = cur + N.of_nat (S (length l))) by lia.
  rewrite Hnext in Hstop, Hframe. cbn [bm_blocks set_blocks] in *.
  split; cbn [length].
  - intros [|i] ref Hl.
    + injection Hl as <-. simpl. split; [lia|]. split; [done|]. exists res. split; [done|].
      rewrite Hframe by (right; left; simpl; lia). apply lookup_insert_eq.
    + destruct (Hb i ref Hl) as (Hnum & Hsf & res' & H1 & H2). split; [lia|]. split; [done|].
      exists res'. rewrite Hother in H1 by lia. done.
  - lia.
  - destruct Hstop as [[? ?]|[?|Hno]]; [left; split; [done|lia]|by right; left|right; right].
    intros s. rewrite <- Hother by lia. apply Hno.
  - intros key Hk. rewrite Hframe by lia. apply lookup_insert_ne. intros <-. simpl in Hk. lia.
Qed.

Lemma collect_committed_spec epoch start max_size fuel taken m :
  bm_blocks m !! (epoch, u64_max) = None → start + N.of_nat taken ≤ u64_max →
  consecutive committed_state m epoch start taken → (size (bm_blocks m) < fuel + taken)%nat →
  ∃ l m', collect_committed fuel epoch (start + N.of_nat taken) (N.of_nat taken) max_size m
      = (Ok l, m') ∧
    committed_run m m' epoch (start + N.of_nat taken) (N.of_nat taken) max_size l.
Proof.
  revert taken m. induction fuel as [|fuel IH]; intros taken m Hmax Hle Hrun Hf.
  { apply consecutive_bound in Hrun. lia. }
  cbn [collect_committed]. set (cur := start + N.of_nat taken) in *.
  destruct (is_suffix_block m cur) eqn:Hsuf.
  { exists [], m. split; [done|]. apply committed_run_nil. by left. }
  destruct (bm_blocks m !! (epoch, cur)) as [s|] eqn:Hs; [destruct s as [| |h res id n|]|].
  1,2,4,5: exists [], m; split; [done|]; apply committed_run_nil; right; rewrite Hs;
    intros s Hx; simplify_eq; by intros [].
  set (m1 := set_blocks _ m).
  destruct (N.leb_spec max_size (N.of_nat taken + 1)) as [Hlim|Hlim].
  { eexists _, m1. split; [done|]. split; simpl.
    - intros [|i] ref Hl; [|done]. injection Hl as <-. simpl. split; [lia|]. split; [done|].
      exists res. split; [done|]. apply lookup_insert_eq.
    - lia.
    - left. split; [done|lia].
    - intros key Hk. apply lookup_insert_ne. intros <-. simpl in Hk. lia. }
  assert (Hne : cur ≠ u64_max) by congruence.
  unfold mbind, M_bind, lift. rewrite add_u64_fits by lia.
  replace (cur + 1) with (start + N.of_nat (S taken)) by lia.
  replace (N.of_nat taken + 1) with (N.of_nat (S taken)) by lia.
  destruct (IH (S taken) m1) as (l & m' & -> & Hl).
  - simpl. rewrite lookup_insert_ne by congruence. done.
  - lia.
  - apply (consecutive_snoc _ _ _ _ _ (Committed h res id None)); [|apply lookup_insert_eq|done].
    intros i Hi. destruct (Hrun i Hi) as (s & Hsi & Hc). exists s. split; [|done]. simpl.
    rewrite lookup_insert_ne; [done|]. intros [= ?]. lia.
  - simpl. rewrite map_size_insert_Some by done. lia.
  - eexists _, m'. split; [done|].
    eapply committed_run_cons; [exact Hs|done|done|lia|].
    replace (cur + 1) with (start + N.of_nat (S taken)) by lia.
    by replace (N.of_nat taken + 1) with (N.of_nat (S taken)) by lia.
Qed.

(** [get_committed_blocks] returns the longest run of consecutive committed blocks
    of the epoch from the start number on, cut at the maximal size and at the first
    suffix block of an epoch change, and hands each persistence notifier out once:
    the entries it returns lose the notifier and keep everything else, all other
    entries are unchanged. *)
Theorem get_committed_blocks_spec start max_size epoch m :
  bm_blocks m !! (epoch, u64_max) = None → start ≤ u64_max →
  ∃ l m', get_committed_blocks start max_size epoch m
    = (Ok (if bool_decide (length l = 0%nat) then None else Some l), m') ∧
    committed_run m m' epoch start 0 (default u64_max max_size) l.
Proof.
  intros Hmax Hle.
  destruct (collect_committed_spec epoch start (default u64_max max_size)
    (S (size (bm_blocks m))) 0 m) as (l & m' & Hcol & Hrun); [done|lia|intros i Hi; lia|lia|].
  change (N.of_nat 0) with 0 in Hcol, Hrun. rewrite N.add_0_r in Hcol, Hrun.
  exists l, m'. split; [|done]. unfold get_committed_blocks, mbind, M_bind. by rewrite Hcol.
Qed.

(** ** Epoch changes *)

(** The state after the block [num] has announced a new epoch. *)
Lemma set_compute_res_new_epoch id hash num epoch st events m block p round ne bytes api vs :
  bm_blocks m !! (epoch, num) = Some (Ordered block p round) → eb_block_id block = id →
  find_new_epoch events = Some (ne, bytes) →
  validator_set_from_bytes bytes = Ok api → convert_validator_set api = Ok vs →
  ∃ m1, set_compute_res id hash num epoch st events m = (Ok tt, m1) ∧
    bm_current_epoch m1 = bm_current_epoch m ∧ bm_next_epoch m1 = Some ne ∧
    bm_latest_epoch_change_block_number m1 = num ∧
    (∀ n b p' r, num < n → bm_blocks m !! (epoch, n) = Some (Ordered b p' r) →
       bm_blocks m1 !! (epoch, n)
       = Some (Computed (eb_block_id b) (new_dummy_with_epoch_state (EpochState_new ne vs)))) ∧
    (∀ n, num < n → is_suffix_block m1 n = true).
Proof.
  intros Hs Hid Hev Hapi Hvs. unfold set_compute_res. rewrite Hs.
  rewrite bool_decide_eq_false_2 by (intros Hne; by apply Hne).
  unfold mbind, M_bind, calculate_new_epoch_state. rewrite Hev. cbn [mbind result_bind].
  rewrite Hapi. cbn. rewrite Hvs. cbn. eexists. split; [done|].
  do 3 (split; [done|]). split.
  - intros n b p' r Hn Hb. simpl. rewrite map_lookup_imap, lookup_insert_ne by (intros [= ?]; lia).
    rewrite Hb. simpl. rewrite N.eqb_refl, (proj2 (N.ltb_lt _ _) Hn). done.
  - intros n Hn. unfold is_suffix_block. simpl. by apply N.ltb_lt.
Qed.

(** The epoch change end to end. When the result of an ordered block (of a positive
    number) carries a new-epoch event with a readable validator set, the result is
    accepted; every later ordered block of the epoch answers at once with the empty
    result carrying the new epoch state; no later block is handed out as committed;
    releasing the in-flight blocks switches to the new epoch and drops every block
    above the epoch change; ordered blocks are refused until the change is consumed;
    consuming it returns the new epoch and the block number, after which blocks of
    the new epoch above that number are accepted. *)
Theorem epoch_change_flow id hash num epoch st events m block p round ne bytes api vs :
  bm_blocks m !! (epoch, num) = Some (Ordered block p round) → eb_block_id block = id →
  find_new_epoch events = Some (ne, bytes) →
  validator_set_from_bytes bytes = Ok api → convert_validator_set api = Ok vs → num ≠ 0 →
  ∃ m1, set_compute_res id hash num epoch st events m = (Ok tt, m1) ∧
    (∀ n b p' r, num < n → bm_blocks m !! (epoch, n) = Some (Ordered b p' r) →
       get_executed_res (eb_block_id b) n epoch m1
       = (Ok (Some (new_dummy_with_epoch_state (EpochState_new ne vs))), m1)) ∧
    (∀ n, num < n → get_committed_blocks n None epoch m1 = (Ok None, m1)) ∧
    let m2 := release_inflight_blocks m1 in
    bm_current_epoch m2 = ne ∧
    (∀ key s, bm_blocks m2 !! key = Some s → key.2 ≤ num) ∧
    (∀ parent b r, is_err (set_ordered_blocks parent b r m2).1 = true) ∧
    ∃ m3, consume_epoch_change m2 = ((ne, num), m3) ∧ bm_blocks m3 = bm_blocks m2 ∧
      (∀ parent b r, eb_epoch b = ne → num < eb_block_number b →
         bm_blocks (set_ordered_blocks parent b r m3).2 !! (ne, eb_block_number b)
         = Some (Ordered b (actual_parent m3 b parent) r)).
Proof.
  intros Hs Hid Hev Hapi Hvs Hnum.
  destruct (set_compute_res_new_epoch id hash num epoch st events m block p round ne bytes api vs)
    as (m1 & -> & Hcur & Hnext & Hlast & Hcut & Hsuf); try done.
  exists m1. split; [done|]. split.
  { intros n b p' r Hn Hb. unfold get_executed_res. rewrite (Hcut n b p' r Hn Hb).
    by rewrite bool_decide_eq_false_2 by (intros Hne; by apply Hne). }
  split.
  { intros n Hn. unfold get_committed_blocks, mbind, M_bind. simpl. by rewrite Hsuf. }
  unfold release_inflight_blocks, has_pending_epoch_change.
  rewrite Hlast, Hnext, (proj2 (N.eqb_neq _ _) Hnum). simpl. split; [done|]. split.
  { intros key s. rewrite map_lookup_filter_Some. by intros [_ ?]. }
  split; [done|]. unfold consume_epoch_change. simpl.
  rewrite (proj2 (N.eqb_neq _ _) Hnum). eexists. split; [done|]. split; [done|].
  intros parent b r He Hb. unfold set_ordered_blocks. simpl.
  rewrite He, N.ltb_irrefl. rewrite map_lookup_filter_None_2; [apply lookup_insert_eq|].
  right. intros s _. simpl. lia.
Qed.

(** A manager as the node drives it: [init] once, before everything that waits. *)
Inductive manager_run (max_block_size : N) : Manager → Prop :=
| mr_new : manager_run max_block_size (Manager_new max_block_size)
| mr_init m commit ids epoch :
    manager_run max_block_size m → is_ready m = false →
    manager_run max_block_size (init commit ids epoch m).2
| mr_step m op : manager_run max_block_size m → manager_run max_block_size (manager_step op m).

(** The atomic [buffer_state] and the flag under the mutex tell the same story. *)
Definition flags_agree m : Prop :=
  bm_epoch_change_ready m = bool_decide (bm_buffer_state m = EpochChange).

(** The operations on blocks and transactions leave both flags alone. *)
Definition same_flags m m' : Prop :=
  bm_epoch_change_ready m' = bm_epoch_change_ready m ∧ bm_buffer_state m' = bm_buffer_state m.

Lemma collect_committed_flags fuel epoch num taken max_size m r m' :
  collect_committed fuel epoch num taken max_size m = (r, m') → same_flags m m'.
Proof.
  revert num taken m r m'. induction fuel as [|fuel IH]; intros num taken m r m'; simpl.
  { by intros [= _ <-]. }
  destruct (is_suffix_block m num); [by intros [= _ <-]|].
  destruct (bm_blocks m !! (epoch, num)) as [[]|]; try by intros [= _ <-].
  destruct (_ <=? _); [by intros [= _ <-]|]. unfold mbind, M_bind, lift.
  destruct (add_u64 num 1); [|by intros [= _ <-]..].
  match goal with |- context [collect_committed fuel ?e ?n ?t ?x ?m1] =>
    destruct (collect_committed fuel e n t x m1) as [r2 m2] eqn:Hrest end.
  apply IH in Hrest. destruct r2; intros [= _ <-]; exact Hrest.
Qed.

Lemma set_commit_blocks_flags refs epoch m r m' :
  set_commit_blocks refs epoch m = (r, m') → same_flags m m'.
Proof.
  revert m r m'. induction refs as [|b refs IH]; intros m r m'; simpl; [by intros [= _ <-]|].
  unfold mbind, M_bind. destruct (commit_block epoch b m) as [r1 m1] eqn:Hone.
  assert (H1 : same_flags m m1).
  { unfold commit_block in Hone. repeat case_match; by simplify_eq. }
  destruct r1; [|by intros [= _ <-]..].
  destruct (set_commit_blocks refs epoch m1) as [r2 m2] eqn:Hrest. apply IH in Hrest.
  destruct H1 as [H1 H1'], Hrest as [H2 H2'].
  destruct r2; intros [= _ <-]; split; congruence.
Qed.

Lemma set_compute_res_flags id hash num epoch st events m r m' :
  set_compute_res id hash num epoch st events m = (r, m') → same_flags m m'.
Proof.
  unfold set_compute_res, mbind, M_bind, calculate_new_epoch_state, modify, mret, M_ret.
  intros H. repeat case_match; by simplify_eq.
Qed.

Lemma manager_step_flags op m : flags_agree m → flags_agree (manager_step op m).
Proof.
  intros Hf. assert (Hsame : ∀ m', same_flags m m' → flags_agree m').
  { intros m' [H1 H2]. unfold flags_agree in *. by rewrite H1, H2. }
  destruct op; simpl; unfold when_ready, polling.
  - unfold remove_committed_blocks. by destruct (_ <? _).
  - done.
  - done.
  - apply Hsame. unfold pop_txns, mbind, M_bind, lift, modify, mret, M_ret.
    repeat case_match; by simplify_eq/=.
  - done.
  - apply Hsame. unfold set_ordered_blocks. repeat case_match; by simplify_eq/=.
  - apply Hsame. unfold get_ordered_blocks, mbind, M_bind, lift, mret, M_ret.
    repeat case_match; by simplify_eq/=.
  - apply Hsame. unfold get_executed_res. repeat case_match; by simplify_eq/=.
  - apply Hsame. destruct (is_ready m); [|done].
    destruct (set_compute_res id hash num epoch st events m) as [r m'] eqn:H.
    by apply set_compute_res_flags in H.
  - apply Hsame. destruct (is_ready m); [|done].
    destruct (set_commit_blocks refs epoch m) as [r m'] eqn:H. by apply set_commit_blocks_flags in H.
  - apply Hsame. destruct (is_ready m); [|done]. unfold get_committed_blocks, mbind, M_bind.
    destruct (collect_committed _ _ _ _ _ m) as [r m'] eqn:H. apply collect_committed_flags in H.
    by destruct r; simpl; repeat case_match; simplify_eq.
  - done.
  - unfold release_inflight_blocks. by destruct (negb _).
Qed.

(** The atomic buffer state and the flag inside the lock agree: after any run of
    the operations from a new manager, the state is EpochChange exactly when an
    epoch change waits to be consumed. *)
Theorem manager_flags_agree n m : manager_run n m → is_epoch_change m = bm_epoch_change_ready m.
Proof.
  intros Hrun. enough (flags_agree m) as -> by done.
  induction Hrun as [|m commit ids epoch Hrun IH Hready|m op Hrun IH]; [done| |by apply manager_step_flags].
  unfold init. destruct (init_commit_block _ _) as [c| |]; [|done..].
  unfold flags_agree in *. unfold is_ready in Hready. apply bool_decide_eq_false in Hready.
  destruct c as [[e id]|]; simpl; rewrite IH, bool_decide_eq_false_2; try done;
    intros He; apply Hready; by rewrite He.
Qed.

(** [init] either fails and changes nothing, exactly when the latest committed
    block is missing from a map that should have it, or makes the manager ready at
    the given epoch and commit number with the committed block recorded as
    historical. *)
Theorem init_all_or_nothing commit ids epoch m r m' :
  init commit ids epoch m = (r, m') →
  (is_err r = true ∧ m' = m ∧ ids !! commit = None ∧ (ids ≠ ∅ ∨ 0 < commit)) ∨
  (r = Ok tt ∧ is_ready m' = true ∧ bm_current_epoch m' = epoch ∧
   bm_latest_commit_block_number m' = commit ∧
   ∀ e id, ids !! commit = Some (e, id) → bm_blocks m' !! (e, commit) = Some (Historical id)).
Proof.
  unfold init, init_commit_block. case_bool_decide as Hempty.
  - subst ids. destruct (N.ltb_spec 0 commit).
    + intros [= <- <-]. left. rewrite lookup_empty. auto.
    + intros [= <- <-]. right. do 4 (split; [done|]). intros e id. by rewrite lookup_empty.
  - destruct (ids !! commit) as [[e id]|] eqn:Hc; simpl.
    + intros [= <- <-]. right. do 4 (split; [done|]). intros ? ? [= <- <-]. simpl.
      apply lookup_insert_eq.
    + intros [= <- <-]. left. auto.
Qed.

End block_buffer_manager.
