(* ===== verification/BufferItem.v ===== *)
(** * Commit messages and the items of the pipeline buffer
    (consensus-types/src/pipeline/commit_vote.rs and commit_decision.rs,
    pipelined_block.rs, consensus/src/pipeline/commit_reliable_broadcast.rs and
    buffer_item.rs)

    An item of the pipeline holds a list of blocks ordered together.  It goes from
    ordered to executed when their results arrive, to signed when the validator has
    signed the commit ledger info, and to aggregated when a quorum has, from any of
    the earlier stages.  Votes for an item that is not executed yet are kept
    unchecked and checked at execution.  The lemmas give the outcome of every
    transition and the conditions under which its assertions hold. *)

From S2P Require Import Prelude Gaptos Types Certificates Payloads Blocks SafetyRules SafetySpec Bft PendingVotes BlockBufferManager.

(** What the pipeline uses of [gaptos] beyond the other components: the remaining
    fields of a [BlockInfo] and its constructor with an [EpochBlockInfo], the
    hard fork that changes the commit timestamp, partial signatures of a ledger
    info.  The callback of a commit is carried along unchanged. *)
Class PipelineTypes {GA : Gaptos} {VE : Verifier} {PI : PartialLedgerInfo} := {
  Randomness : Type;
  Callback : Type;
  bi_executed_state_id : BlockInfo → HashValue;
  bi_next_epoch_state : BlockInfo → option EpochState;
  BlockInfo_new_with_epoch_block_info :
    N → N → HashValue → HashValue → N → N → option EpochState → option EpochBlockInfo → BlockInfo;
  bi_change_timestamp : N → BlockInfo → result Empty_set BlockInfo;
  (** the struct literal [EpochBlockInfo { .. }] *)
  EpochBlockInfo_of : EpochChangeInfo → EpochBlockInfo;
  (** [is_consensus_fork_active(ConsensusAlpha, _)] *)
  consensus_alpha_active : N → bool;
  (** [LedgerInfoWithVerifiedSignatures::new] *)
  livs_new_with : LedgerInfo → gmap AccountAddress Signature → LedgerInfoWithVerifiedSignatures;
  (** [HashValue::new] of the bytes of an address *)
  hash_of_address : AccountAddress → HashValue;
}.

(** A [BlockInfo] is the record of its eight fields, and changing the timestamp of a
    reconfiguration block to an earlier one replaces that field. *)
Class PipelineLaws {GA : Gaptos} {VE : Verifier} {PI : PartialLedgerInfo} {PT : PipelineTypes} : Prop := {
  bi_new_with b :
    BlockInfo_new_with_epoch_block_info (bi_epoch b) (bi_round b) (bi_id b) (bi_executed_state_id b)
      (bi_version b) (bi_timestamp_usecs b) (bi_next_epoch_state b) (bi_epoch_block_info b) = b;
  bi_epoch_new_with e r id x v t n i :
    bi_epoch (BlockInfo_new_with_epoch_block_info e r id x v t n i) = e;
  bi_round_new_with e r id x v t n i :
    bi_round (BlockInfo_new_with_epoch_block_info e r id x v t n i) = r;
  bi_id_new_with e r id x v t n i :
    bi_id (BlockInfo_new_with_epoch_block_info e r id x v t n i) = id;
  bi_executed_state_id_new_with e r id x v t n i :
    bi_executed_state_id (BlockInfo_new_with_epoch_block_info e r id x v t n i) = x;
  bi_version_new_with e r id x v t n i :
    bi_version (BlockInfo_new_with_epoch_block_info e r id x v t n i) = v;
  bi_timestamp_new_with e r id x v t n i :
    bi_timestamp_usecs (BlockInfo_new_with_epoch_block_info e r id x v t n i) = t;
  bi_executed_state_id_new e r id x v t n : bi_executed_state_id (BlockInfo_new e r id x v t n) = x;
  bi_change_timestamp_Ok b t b' :
    bi_change_timestamp t b = Ok b' →
    bi_epoch b' = bi_epoch b ∧ bi_round b' = bi_round b ∧ bi_id b' = bi_id b ∧
    bi_executed_state_id b' = bi_executed_state_id b ∧ bi_version b' = bi_version b ∧
    bi_timestamp_usecs b' = t;
  bi_change_timestamp_allowed b t :
    bi_has_reconfiguration b = true → t ≤ bi_timestamp_usecs b →
    is_ok (bi_change_timestamp t b) = true;
  livs_ledger_info_new_with li m : livs_ledger_info (livs_new_with li m) = li;
  livs_signatures_new_with li m : livs_signatures (livs_new_with li m) = m;
}.

(** Signatures of validators aggregate, and if they are valid and of a quorum the
    aggregate verifies; a quorum is not empty. *)
Class CommitProofLaws {GA : Gaptos} {VE : Verifier} {CR : Crypto} : Prop := {
  vv_aggregate_known v m :
    m ≠ ∅ → (∀ a s, m !! a = Some s → a ∈ vv_ordered_addresses v) →
    is_ok (vv_aggregate_signatures v m) = true;
  liws_aggregate_verify v m sig li :
    vv_aggregate_signatures v m = Ok sig →
    is_ok (vv_check_voting_power v (map_to_list m).*1 true) = true →
    map_Forall (λ a s, vv_verify v a (SignLedgerInfo li) s = Ok tt) m →
    liws_verify_signatures (LedgerInfoWithSignatures_new li sig) v = Ok tt;
  vv_check_nonempty v : is_ok (vv_check_voting_power v [] true) = false;
}.

#[export] Hint Rewrite @bi_epoch_new_with @bi_round_new_with @bi_id_new_with
  @bi_executed_state_id_new_with @bi_version_new_with @bi_timestamp_new_with
  @bi_executed_state_id_new @livs_ledger_info_new_with @livs_signatures_new_with
  using typeclasses eauto : gaptos.

Section buffer_item.
Context {GA : Gaptos} {VE : Verifier} {CR : Crypto} {PI : PartialLedgerInfo} {AT : ApiTypes} {PT : PipelineTypes}.

(** ** Commit messages *)

Record CommitVote := {
  cv_author : Author;
  cv_ledger_info : LedgerInfo;
  cv_signature : Signature;
}.

Definition cv_commit_info (vote : CommitVote) : BlockInfo := li_commit_info (cv_ledger_info vote).

(** [CommitVote::new]. *)
Definition CommitVote_new (author : Author) (ledger_info_placeholder : LedgerInfo) (signer : ValidatorSigner)
    : result CryptoMaterialError CommitVote :=
  signature ← signer_sign signer (SignLedgerInfo ledger_info_placeholder);
  Ok {| cv_author := author; cv_ledger_info := ledger_info_placeholder; cv_signature := signature |}.

Definition CommitVote_verify (vote : CommitVote) (validator : ValidatorVerifier) : result Anyhow unit :=
  with_context "Failed to verify Commit Vote"
    (vv_verify validator (cv_author vote) (SignLedgerInfo (cv_ledger_info vote)) (cv_signature vote)).

Record CommitDecision := { cd_ledger_info : LedgerInfoWithSignatures }.

Definition CommitDecision_verify (d : CommitDecision) (validator : ValidatorVerifier) : result Anyhow unit :=
  _ ← ensure (negb (bi_is_ordered_only (li_commit_info (liws_ledger_info (cd_ledger_info d)))))
        (Msg "Unexpected ordered only commit info");
  with_context "Failed to verify Commit Decision" (liws_verify_signatures (cd_ledger_info d) validator).

Inductive CommitMessage :=
| CommitMessageVote (vote : CommitVote)
| CommitMessageDecision (decision : CommitDecision)
| CommitMessageAck
| CommitMessageNack.

Definition CommitMessage_verify (m : CommitMessage) (verifier : ValidatorVerifier) : result Anyhow unit :=
  match m with
  | CommitMessageVote vote => CommitVote_verify vote verifier
  | CommitMessageDecision decision => CommitDecision_verify decision verifier
  | CommitMessageAck => Err (Msg "Unexpected ack in incoming commit message")
  | CommitMessageNack => Err (Msg "Unexpected NACK in incoming commit message")
  end.

Definition CommitMessage_epoch (m : CommitMessage) : option N :=
  match m with
  | CommitMessageVote vote => Some (li_epoch (cv_ledger_info vote))
  | CommitMessageDecision decision => Some (li_epoch (liws_ledger_info (cd_ledger_info decision)))
  | _ => None
  end.

(** [AckState]: the validators that have not acknowledged a broadcast yet. *)
Record AckState := { ack_validators : gset Author }.

Definition AckState_new (validators : list Author) : AckState := {| ack_validators := list_to_set validators |}.

Definition AckState_add (peer : Author) (ack : CommitMessage) : M AckState Anyhow (option unit) := λ s,
  match ack with
  | CommitMessageVote _ => (Err (Msg "unexected Vote reply to broadcast"), s)
  | CommitMessageDecision _ => (Err (Msg "unexected Decision reply to broadcast"), s)
  | CommitMessageNack => (Err (Msg "unexected Nack reply to broadcast"), s)
  | CommitMessageAck =>
      if bool_decide (peer ∈ ack_validators s) then
        let validators := ack_validators s ∖ {[peer]} in
        (Ok (if bool_decide (validators = ∅) then Some tt else None), {| ack_validators := validators |})
      else (Err (Msg "Unknown author"), s)
  end.

(** ** Blocks in the pipeline *)

(** The futures of a block, its time of insertion and the summary kept for
    statistics are left out. *)
Record PipelinedBlock := {
  plb_block : Block;
  plb_input_transactions : list SignedTransaction;
  plb_state_compute_result : StateComputeResult;
  plb_randomness : option Randomness;
}.

Definition plb_id (b : PipelinedBlock) : HashValue := block_id (plb_block b).
Definition plb_round (b : PipelinedBlock) : Round := Block_round (plb_block b).
Definition plb_timestamp_usecs (b : PipelinedBlock) : N := Block_timestamp_usecs (plb_block b).

Definition PipelinedBlock_new_ordered (block : Block) : PipelinedBlock :=
  {| plb_block := block; plb_input_transactions := []; plb_state_compute_result := new_dummy;
     plb_randomness := None |}.

(** [OnceCell::set]: a block keeps its first randomness.  Returns whether the
    pipeline is notified. *)
Definition set_randomness `{!EqDecision Randomness} (randomness : Randomness) (b : PipelinedBlock)
    : bool * PipelinedBlock :=
  match plb_randomness b with
  | None =>
      (true, {| plb_block := plb_block b; plb_input_transactions := plb_input_transactions b;
                plb_state_compute_result := plb_state_compute_result b;
                plb_randomness := Some randomness |})
  | Some existing => (bool_decide (existing = randomness), b)
  end.

Record PipelineExecutionResult := {
  per_input_txns : list SignedTransaction;
  per_result : StateComputeResult;
}.

Definition set_execution_result (r : PipelineExecutionResult) (b : PipelinedBlock) : PipelinedBlock :=
  {| plb_block := plb_block b; plb_input_transactions := per_input_txns r;
     plb_state_compute_result := per_result r; plb_randomness := plb_randomness b |}.

Definition plb_block_info (b : PipelinedBlock) : BlockInfo :=
  let version := default 0 (block_block_number (plb_block b)) in
  gen_block_info (plb_block b) (root_hash (plb_state_compute_result b)) version
    (scr_epoch_state (plb_state_compute_result b)).

Definition plb_is_reconfiguration_suffix (b : PipelinedBlock) : bool :=
  has_reconfiguration (plb_state_compute_result b).

(** ** Items *)

Record OrderedItem := {
  oi_unverified_signatures : gmap Author Signature;
  oi_commit_proof : option LedgerInfoWithSignatures;
  oi_callback : Callback;
  oi_ordered_blocks : list PipelinedBlock;
  oi_ordered_proof : LedgerInfoWithSignatures;
}.

Record ExecutedItem := {
  ei_executed_blocks : list PipelinedBlock;
  ei_partial_commit_proof : LedgerInfoWithVerifiedSignatures;
  ei_callback : Callback;
  ei_commit_info : BlockInfo;
  ei_ordered_proof : LedgerInfoWithSignatures;
}.

(** [rb_handle] is the time the running broadcast was started at. *)
Record SignedItem := {
  si_executed_blocks : list PipelinedBlock;
  si_partial_commit_proof : LedgerInfoWithVerifiedSignatures;
  si_callback : Callback;
  si_commit_vote : CommitVote;
  si_rb_handle : option N;
}.

Definition with_rb_handle (h : option N) (i : SignedItem) : SignedItem :=
  {| si_executed_blocks := si_executed_blocks i; si_partial_commit_proof := si_partial_commit_proof i;
     si_callback := si_callback i; si_commit_vote := si_commit_vote i; si_rb_handle := h |}.

Record AggregatedItem := {
  ai_executed_blocks : list PipelinedBlock;
  ai_commit_proof : LedgerInfoWithSignatures;
  ai_callback : Callback;
}.

Inductive BufferItem :=
| ItemOrdered (i : OrderedItem)
| ItemExecuted (i : ExecutedItem)
| ItemSigned (i : SignedItem)
| ItemAggregated (i : AggregatedItem).

Definition is_ordered (i : BufferItem) : bool := match i with ItemOrdered _ => true | _ => false end.
Definition is_executed (i : BufferItem) : bool := match i with ItemExecuted _ => true | _ => false end.
Definition is_signed (i : BufferItem) : bool := match i with ItemSigned _ => true | _ => false end.
Definition is_aggregated (i : BufferItem) : bool := match i with ItemAggregated _ => true | _ => false end.

Definition get_blocks (i : BufferItem) : list PipelinedBlock :=
  match i with
  | ItemOrdered ordered => oi_ordered_blocks ordered
  | ItemExecuted executed => ei_executed_blocks executed
  | ItemSigned signed => si_executed_blocks signed
  | ItemAggregated aggregated => ai_executed_blocks aggregated
  end.

Definition item_block_id (i : BufferItem) : result Empty_set HashValue :=
  b ← expect "Vec<PipelinedBlock> should not be empty" (last (get_blocks i)); Ok (plb_id b).

(** The key of an item in the buffer, [block_id]; for an item without blocks, whose
    [block_id] panics, any value. *)
Definition item_hash (i : BufferItem) : HashValue := from_option plb_id HashValue_zero (last (get_blocks i)).

Definition item_commit_info (i : BufferItem) : BlockInfo :=
  match i with
  | ItemOrdered ordered => li_commit_info (liws_ledger_info (oi_ordered_proof ordered))
  | ItemExecuted executed => ei_commit_info executed
  | ItemSigned signed => li_commit_info (livs_ledger_info (si_partial_commit_proof signed))
  | ItemAggregated aggregated => li_commit_info (liws_ledger_info (ai_commit_proof aggregated))
  end.

Definition BufferItem_new_ordered (ordered_blocks : list PipelinedBlock)
    (ordered_proof : LedgerInfoWithSignatures) (callback : Callback) : BufferItem :=
  ItemOrdered {| oi_unverified_signatures := ∅; oi_commit_proof := None; oi_callback := callback;
                 oi_ordered_blocks := ordered_blocks; oi_ordered_proof := ordered_proof |}.

(** ** Transitions *)

Definition verify_signatures (unverified_signatures : gmap Author Signature) (validator : ValidatorVerifier)
    (commit_ledger_info : LedgerInfo) : gmap Author Signature :=
  filter (λ '(author, sig), is_ok (vv_verify validator author (SignLedgerInfo commit_ledger_info) sig) = true)
    unverified_signatures.

Definition aggregate_commit_proof (commit_ledger_info : LedgerInfo)
    (verified_signatures : gmap Author Signature) (validator : ValidatorVerifier)
    : result Empty_set LedgerInfoWithSignatures :=
  match vv_aggregate_signatures validator verified_signatures with
  | Ok aggregated_sig => Ok (LedgerInfoWithSignatures_new commit_ledger_info aggregated_sig)
  | Err _ => Panic "Failed to generate aggregated signature"
  | Panic m => Panic m
  end.

Definition executed_commit_timestamp_usecs (corrected_commit_timestamp_usecs block_timestamp_usecs : N)
    (use_corrected_commit_timestamp : bool) : N :=
  if use_corrected_commit_timestamp then corrected_commit_timestamp_usecs else block_timestamp_usecs.

Definition unwrap_number (b : PipelinedBlock) : result Empty_set N :=
  expect "called `Option::unwrap()` on a `None` value" (block_block_number (plb_block b)).

Definition generate_executed_item_from_ordered (commit_info : BlockInfo)
    (executed_blocks : list PipelinedBlock) (verified_signatures : gmap Author Signature)
    (callback : Callback) (ordered_proof : LedgerInfoWithSignatures)
    (order_vote_enabled use_corrected_commit_timestamp : bool) : result Empty_set BufferItem :=
  block ← expect "execute_blocks should not be empty!" (last executed_blocks);
  let timestamp_usecs :=
    executed_commit_timestamp_usecs (bi_timestamp_usecs commit_info) (plb_timestamp_usecs block)
      use_corrected_commit_timestamp in
  block_number ← unwrap_number block;
  let new_commit_info :=
    BlockInfo_new_with_epoch_block_info (bi_epoch commit_info) (bi_round commit_info) (bi_id commit_info)
      (bi_executed_state_id commit_info) block_number timestamp_usecs
      (bi_next_epoch_state commit_info) (bi_epoch_block_info commit_info) in
  let commit_ledger_info :=
    generate_commit_ledger_info new_commit_info ordered_proof order_vote_enabled
      (root_hash (plb_state_compute_result block)) block_number in
  Ok (ItemExecuted
        {| ei_executed_blocks := executed_blocks;
           ei_partial_commit_proof := livs_new_with commit_ledger_info verified_signatures;
           ei_callback := callback; ei_commit_info := new_commit_info;
           ei_ordered_proof := ordered_proof |}).

(** The loop over [zip_eq(ordered_blocks, executed_blocks)]. *)
Fixpoint check_same_ids (ordered_blocks executed_blocks : list PipelinedBlock) : result Empty_set unit :=
  match ordered_blocks, executed_blocks with
  | [], [] => Ok tt
  | b1 :: ordered_blocks, b2 :: executed_blocks =>
      _ ← assert_ (bool_decide (plb_id b1 = plb_id b2)) "assertion `left == right` failed";
      check_same_ids ordered_blocks executed_blocks
  | _, _ => Panic "itertools: .zip_eq() reached end of one iterator before the other"
  end.

(** The commit info of executed blocks: the timestamp of the epoch change replaces
    that of a suffix block, and the epoch change is recorded. *)
Definition executed_commit_info (block : PipelinedBlock) (epoch_end_timestamp : option N)
    (epoch_block_info : option EpochBlockInfo) : result Empty_set BlockInfo :=
  let commit_info := plb_block_info block in
  commit_info ← match epoch_end_timestamp with
                | Some timestamp =>
                    if negb (bi_timestamp_usecs commit_info =? timestamp) then
                      _ ← assert_ (plb_is_reconfiguration_suffix block)
                            "assertion failed: executed_blocks.last().expect(..).is_reconfiguration_suffix()";
                      bi_change_timestamp timestamp commit_info
                    else Ok commit_info
                | None => Ok commit_info
                end;
  Ok (BlockInfo_new_with_epoch_block_info (bi_epoch commit_info) (bi_round commit_info) (bi_id commit_info)
        (bi_executed_state_id commit_info) (bi_version commit_info) (bi_timestamp_usecs commit_info)
        (bi_next_epoch_state commit_info)
        (match epoch_block_info with Some i => Some i | None => bi_epoch_block_info commit_info end)).

Definition advance_to_executed_or_aggregated (executed_blocks : list PipelinedBlock)
    (validator : ValidatorVerifier) (epoch_end_timestamp : option N) (order_vote_enabled : bool)
    (epoch_block_info : option EpochBlockInfo) (self : BufferItem) : result Empty_set BufferItem :=
  match self with
  | ItemOrdered ordered_item =>
      _ ← check_same_ids (oi_ordered_blocks ordered_item) executed_blocks;
      block ← expect "execute_blocks should not be empty!" (last executed_blocks);
      commit_info ← executed_commit_info block epoch_end_timestamp epoch_block_info;
      match oi_commit_proof ordered_item with
      | Some commit_proof =>
          _ ← assert_ (bool_decide (li_commit_info (liws_ledger_info commit_proof) = commit_info))
                "assertion `left == right` failed";
          Ok (ItemAggregated {| ai_executed_blocks := executed_blocks; ai_commit_proof := commit_proof;
                                ai_callback := oi_callback ordered_item |})
      | None =>
          block_number ← unwrap_number block;
          let commit_ledger_info :=
            generate_commit_ledger_info commit_info (oi_ordered_proof ordered_item) order_vote_enabled
              (root_hash (plb_state_compute_result block)) block_number in
          let verified_signatures :=
            verify_signatures (oi_unverified_signatures ordered_item) validator commit_ledger_info in
          if is_ok (vv_check_voting_power validator (map_to_list verified_signatures).*1 true) then
            commit_proof ← aggregate_commit_proof commit_ledger_info verified_signatures validator;
            Ok (ItemAggregated {| ai_executed_blocks := executed_blocks; ai_commit_proof := commit_proof;
                                  ai_callback := oi_callback ordered_item |})
          else
            generate_executed_item_from_ordered commit_info executed_blocks verified_signatures
              (oi_callback ordered_item) (oi_ordered_proof ordered_item) order_vote_enabled
              (consensus_alpha_active (plb_timestamp_usecs block))
      end
  | _ => Panic "Only ordered blocks can advance to executed blocks."
  end.

Definition advance_to_signed (author : Author) (signature : Signature) (self : BufferItem)
    : result Empty_set BufferItem :=
  match self with
  | ItemExecuted executed_item =>
      Ok (ItemSigned
            {| si_executed_blocks := ei_executed_blocks executed_item;
               si_partial_commit_proof := ei_partial_commit_proof executed_item;
               si_callback := ei_callback executed_item;
               si_commit_vote :=
                 {| cv_author := author;
                    cv_ledger_info := livs_ledger_info (ei_partial_commit_proof executed_item);
                    cv_signature := signature |};
               si_rb_handle := None |})
  | _ => Panic "Only executed buffer items can advance to signed blocks."
  end.

Definition try_advance_to_aggregated_with_ledger_info (commit_proof : LedgerInfoWithSignatures)
    (self : BufferItem) : result Empty_set BufferItem :=
  let commit_info := li_commit_info (liws_ledger_info commit_proof) in
  match self with
  | ItemSigned signed_item =>
      _ ← assert_ (bool_decide (li_commit_info (livs_ledger_info (si_partial_commit_proof signed_item))
                                = commit_info)) "assertion `left == right` failed";
      Ok (ItemAggregated {| ai_executed_blocks := si_executed_blocks signed_item;
                            ai_commit_proof := commit_proof; ai_callback := si_callback signed_item |})
  | ItemExecuted executed_item =>
      _ ← assert_ (bool_decide (ei_commit_info executed_item = commit_info)) "assertion `left == right` failed";
      _ ← expect (E := Empty_set) "called `Option::unwrap()` on a `None` value"
            (last (ei_executed_blocks executed_item));
      Ok (ItemAggregated {| ai_executed_blocks := ei_executed_blocks executed_item;
                            ai_commit_proof := commit_proof; ai_callback := ei_callback executed_item |})
  | ItemOrdered ordered =>
      _ ← assert_ (bi_match_ordered_only (li_commit_info (liws_ledger_info (oi_ordered_proof ordered)))
                     commit_info) "assertion failed: match_ordered_only";
      Ok (ItemOrdered {| oi_unverified_signatures := oi_unverified_signatures ordered;
                         oi_commit_proof := Some commit_proof; oi_callback := oi_callback ordered;
                         oi_ordered_blocks := oi_ordered_blocks ordered;
                         oi_ordered_proof := oi_ordered_proof ordered |})
  | ItemAggregated _ =>
      Panic "internal error: entered unreachable code: Found aggregated buffer item but any aggregated buffer item should get dequeued right away."
  end.

(** Whether the signatures collected for a ledger info are of a quorum. *)
Definition has_quorum (validator : ValidatorVerifier) (p : LedgerInfoWithVerifiedSignatures) : bool :=
  is_ok (vv_check_voting_power validator (livs_signers p) true).

Definition try_advance_to_aggregated (validator : ValidatorVerifier) (self : BufferItem)
    : result Empty_set BufferItem :=
  match self with
  | ItemSigned signed_item =>
      let p := si_partial_commit_proof signed_item in
      if has_quorum validator p then
        commit_proof ← aggregate_commit_proof (livs_ledger_info p) (livs_signatures p) validator;
        _ ← expect (E := Empty_set) "called `Option::unwrap()` on a `None` value"
              (last (si_executed_blocks signed_item));
        Ok (ItemAggregated {| ai_executed_blocks := si_executed_blocks signed_item;
                              ai_commit_proof := commit_proof; ai_callback := si_callback signed_item |})
      else Ok self
  | ItemExecuted executed_item =>
      let p := ei_partial_commit_proof executed_item in
      if has_quorum validator p then
        commit_proof ← aggregate_commit_proof (livs_ledger_info p) (livs_signatures p) validator;
        Ok (ItemAggregated {| ai_executed_blocks := ei_executed_blocks executed_item;
                              ai_commit_proof := commit_proof; ai_callback := ei_callback executed_item |})
      else Ok self
  | _ => Ok self
  end.

(** Returns whether the vote was added, or matches an aggregated item; on a mismatch
    ([Err] "Inconsistent commit info.") the item is unchanged. *)
Definition add_signature_if_matched (vote : CommitVote) (self : BufferItem) : bool * BufferItem :=
  let target_commit_info := cv_commit_info vote in
  match self with
  | ItemOrdered ordered =>
      if bi_match_ordered_only (li_commit_info (liws_ledger_info (oi_ordered_proof ordered)))
           target_commit_info then
        (true, ItemOrdered
           {| oi_unverified_signatures :=
                <[cv_author vote := cv_signature vote]> (oi_unverified_signatures ordered);
              oi_commit_proof := oi_commit_proof ordered; oi_callback := oi_callback ordered;
              oi_ordered_blocks := oi_ordered_blocks ordered;
              oi_ordered_proof := oi_ordered_proof ordered |})
      else (false, self)
  | ItemExecuted executed =>
      if bool_decide (ei_commit_info executed = target_commit_info) then
        (true, ItemExecuted
           {| ei_executed_blocks := ei_executed_blocks executed;
              ei_partial_commit_proof :=
                livs_add_signature (cv_author vote) (cv_signature vote) (ei_partial_commit_proof executed);
              ei_callback := ei_callback executed; ei_commit_info := ei_commit_info executed;
              ei_ordered_proof := ei_ordered_proof executed |})
      else (false, self)
  | ItemSigned signed =>
      if bool_decide (li_commit_info (livs_ledger_info (si_partial_commit_proof signed))
                      = target_commit_info) then
        (true, ItemSigned
           {| si_executed_blocks := si_executed_blocks signed;
              si_partial_commit_proof :=
                livs_add_signature (cv_author vote) (cv_signature vote) (si_partial_commit_proof signed);
              si_callback := si_callback signed; si_commit_vote := si_commit_vote signed;
              si_rb_handle := si_rb_handle signed |})
      else (false, self)
  | ItemAggregated aggregated =>
      (bool_decide (li_commit_info (liws_ledger_info (ai_commit_proof aggregated)) = target_commit_info), self)
  end.

Definition unwrap_executed_ref (i : BufferItem) : result Empty_set ExecutedItem :=
  match i with ItemExecuted item => Ok item | _ => Panic "Not executed item" end.

Definition unwrap_signed (i : BufferItem) : result Empty_set SignedItem :=
  match i with ItemSigned item => Ok item | _ => Panic "Not signed item" end.

Definition unwrap_aggregated (i : BufferItem) : result Empty_set AggregatedItem :=
  match i with ItemAggregated item => Ok item | _ => Panic "Not aggregated item" end.

(** ** What the transitions keep *)

Definition ids_of (i : BufferItem) : list HashValue := plb_id <$> get_blocks i.

(** The ledger info the pipeline of a validator with order votes builds for a commit
    info. *)
Definition commit_form (li : LedgerInfo) : Prop :=
  let ci := li_commit_info li in
  li = LedgerInfo_new_with_block_info ci HashValue_zero (bi_executed_state_id ci) (bi_version ci).

Lemma commit_form_unique l1 l2 :
  commit_form l1 → commit_form l2 → li_commit_info l1 = li_commit_info l2 → l1 = l2.
Proof. unfold commit_form. intros H1 H2 Heq. rewrite H1, H2. simpl. by rewrite Heq. Qed.

(** An item is about its last block. *)
Definition about_last (i : BufferItem) : Prop :=
  ∃ b, last (get_blocks i) = Some b ∧
    bi_id (item_commit_info i) = plb_id b ∧ bi_round (item_commit_info i) = plb_round b.

Section items.
Context {BL : BlockInfoLaws} {LL : LedgerInfoLaws} {PL : PendingLaws} {QL : PipelineLaws} {GL : CommitProofLaws}.
(** [uniform] is the assumption that all commit votes are on the ledger info their
    commit info determines; the parts of the invariant that need it are under it. *)
Context (uniform : Prop) (v : ValidatorVerifier).

Definition known (m : gmap Author Signature) : Prop :=
  ∀ a s, m !! a = Some s → a ∈ vv_ordered_addresses v.

Definition signed_on (li : LedgerInfo) (m : gmap Author Signature) : Prop :=
  map_Forall (λ a s, vv_verify v a (SignLedgerInfo li) s = Ok tt) m.

Definition partial_ok (p : LedgerInfoWithVerifiedSignatures) : Prop :=
  known (livs_signatures p) ∧
  (uniform → commit_form (livs_ledger_info p) ∧ signed_on (livs_ledger_info p) (livs_signatures p)).

Definition vote_ok (vote : CommitVote) : Prop :=
  vv_verify v (cv_author vote) (SignLedgerInfo (cv_ledger_info vote)) (cv_signature vote) = Ok tt ∧
  (uniform → commit_form (cv_ledger_info vote)).

(** An item of the buffer, up to its number of signatures. *)
Definition item_pre (i : BufferItem) : Prop :=
  about_last i ∧
  match i with
  | ItemOrdered o =>
      known (oi_unverified_signatures o) ∧
      ∀ p, oi_commit_proof o = Some p → liws_verify_signatures p v = Ok tt
  | ItemExecuted e =>
      partial_ok (ei_partial_commit_proof e) ∧
      li_commit_info (livs_ledger_info (ei_partial_commit_proof e)) = ei_commit_info e
  | ItemSigned s => partial_ok (si_partial_commit_proof s)
  | ItemAggregated _ => False
  end.

(** No quorum has signed it yet. *)
Definition waiting (i : BufferItem) : Prop :=
  match i with
  | ItemExecuted e => has_quorum v (ei_partial_commit_proof e) = false
  | ItemSigned s => has_quorum v (si_partial_commit_proof s) = false
  | _ => True
  end.

Definition item_ok (i : BufferItem) : Prop := item_pre i ∧ waiting i.

Definition aggregated_ok (i : BufferItem) : Prop :=
  about_last i ∧
  match i with
  | ItemAggregated a => uniform → liws_verify_signatures (ai_commit_proof a) v = Ok tt
  | _ => False
  end.

Lemma item_hash_last i b : last (get_blocks i) = Some b → item_hash i = plb_id b.
Proof. unfold item_hash. by intros ->. Qed.

Lemma item_hash_ids i j : ids_of i = ids_of j → item_hash i = item_hash j.
Proof.
  intros H. unfold item_hash. apply (f_equal last) in H. unfold ids_of in H. rewrite !fmap_last in H.
  destruct (last (get_blocks i)), (last (get_blocks j)); simplify_eq/=; done.
Qed.

Lemma about_last_hash i : about_last i → bi_id (item_commit_info i) = item_hash i.
Proof. intros (b & Hb & -> & _). by rewrite (item_hash_last _ _ Hb). Qed.

Lemma item_block_id_Ok i : about_last i → item_block_id i = Ok (item_hash i).
Proof. intros (b & Hb & _). unfold item_block_id. by rewrite (item_hash_last _ _ Hb), Hb. Qed.

(** [about_last] for another item with the same blocks and commit info. *)
Lemma about_last_eq i j :
  get_blocks j = get_blocks i → item_commit_info j = item_commit_info i → about_last i → about_last j.
Proof. unfold about_last. by intros -> ->. Qed.

Lemma has_quorum_nonempty p : has_quorum v p = true → livs_signatures p ≠ ∅.
Proof.
  unfold has_quorum, livs_signers. intros H Hz. rewrite Hz, map_to_list_empty in H. simpl in H.
  by rewrite vv_check_nonempty in H.
Qed.

Lemma aggregate_commit_proof_ok li m :
  is_ok (vv_check_voting_power v (map_to_list m).*1 true) = true → known m →
  ∃ proof, aggregate_commit_proof li m v = Ok proof ∧ liws_ledger_info proof = li ∧
    (signed_on li m → liws_verify_signatures proof v = Ok tt).
Proof.
  intros Hq Hk. assert (m ≠ ∅) as Hne.
  { intros ->. rewrite map_to_list_empty in Hq. simpl in Hq. by rewrite vv_check_nonempty in Hq. }
  pose proof (vv_aggregate_known v m Hne Hk) as Hag. unfold aggregate_commit_proof.
  destruct (vv_aggregate_signatures v m) as [sig| |] eqn:Hs; [|done..].
  eexists. split; [done|]. rewrite liws_ledger_info_new. split; [done|].
  intros Hv. by eapply liws_aggregate_verify.
Qed.

Lemma verify_signatures_known m li : known m → known (verify_signatures m v li).
Proof. intros Hk a s [H _]%map_lookup_filter_Some. by eapply Hk. Qed.

Lemma verify_signatures_signed m li : signed_on li (verify_signatures m v li).
Proof.
  intros a s [_ H]%map_lookup_filter_Some. destruct (vv_verify _ _ _ _) as [[]| |]; done.
Qed.

Lemma vote_ok_known vote : vote_ok vote → cv_author vote ∈ vv_ordered_addresses v.
Proof. intros [H _]. by eapply vv_verify_known. Qed.

(** A vote for the commit info of a partial proof. *)
Lemma partial_ok_add vote p :
  vote_ok vote → partial_ok p → li_commit_info (livs_ledger_info p) = cv_commit_info vote →
  partial_ok (livs_add_signature (cv_author vote) (cv_signature vote) p).
Proof.
  intros Hv [Hk Hu] Heq. split.
  - intros a s. rewrite livs_signatures_add. intros [[<- <-]|[_ H]]%lookup_insert_Some;
      [by apply vote_ok_known|by eapply Hk].
  - intros u. destruct (Hu u) as [Hf Hs]. destruct Hv as [Hv Hvf].
    rewrite livs_ledger_info_add, livs_signatures_add. split; [done|].
    apply map_Forall_insert_2; [|done].
    by rewrite (commit_form_unique _ _ Hf (Hvf u) Heq).
Qed.

(** ** Votes *)

Lemma add_signature_same vote i :
  let i' := (add_signature_if_matched vote i).2 in
  get_blocks i' = get_blocks i ∧ item_commit_info i' = (item_commit_info i) ∧ is_ordered i' = is_ordered i ∧
  is_executed i' = is_executed i.
Proof.
  destruct i as [o|e|s|a]; simpl; unfold add_signature_if_matched; simpl; repeat case_match; simpl;
    rewrite ?livs_ledger_info_add; done.
Qed.

(** A vote is only added to an item of its round. *)
Lemma add_signature_round vote i :
  item_pre i → bi_round (cv_commit_info vote) ≠ bi_round (item_commit_info i) →
  add_signature_if_matched vote i = (false, i).
Proof.
  intros [_ Hi] Hr. unfold add_signature_if_matched. destruct i as [o|e|s|a]; simpl in *; [| | |done].
  - destruct (bi_match_ordered_only _ _) eqn:Hm; [|done].
    apply bi_match_ordered_only_fields in Hm as (_ & Hm & _). congruence.
  - rewrite bool_decide_false; [done|congruence].
  - rewrite bool_decide_false; [done|congruence].
Qed.

Lemma add_signature_pre vote i :
  vote_ok vote → item_pre i → item_pre (add_signature_if_matched vote i).2.
Proof.
  intros Hv [Hl Hi]. destruct (add_signature_same vote i) as (Hb & Hc & _).
  split; [by eapply about_last_eq|]. clear Hb Hc Hl.
  destruct i as [o|e|s|a]; simpl in *; unfold add_signature_if_matched; simpl; [| | |done].
  - destruct (bi_match_ordered_only _ _); simpl; [|done]. destruct Hi as [Hk Hp]. split; [|done].
    intros b sg [[<- <-]|[_ H]]%lookup_insert_Some; [by apply vote_ok_known|by eapply Hk].
  - case_bool_decide as Heq; simpl; [|done]. destruct Hi as [Hp Hc]. rewrite livs_ledger_info_add.
    split; [|done]. apply partial_ok_add; [done..|congruence].
  - case_bool_decide as Heq; simpl; [|done]. by apply partial_ok_add.
Qed.

(** ** The transitions *)

Lemma try_advance_to_aggregated_ok i :
  item_pre i →
  ∃ i', try_advance_to_aggregated v i = Ok i' ∧ ids_of i' = ids_of i ∧
    ((item_ok i' ∧ i' = i) ∨ aggregated_ok i').
Proof.
  intros [Hl Hi]. assert (Hsame : waiting i → ∃ i', Ok (E := Empty_set) i = Ok i' ∧ ids_of i' = ids_of i ∧
    ((item_ok i' ∧ i' = i) ∨ aggregated_ok i')) by (intros Hw; exists i; split; [done|]; split; [done|]; by left).
  pose proof Hl as (b & Hb & Hid & Hrd).
  destruct i as [o|e|s|a]; simpl in *; [by apply Hsame| | |done].
  - destruct Hi as [[Hk Hu] Hc]. destruct (has_quorum v (ei_partial_commit_proof e)) eqn:Hq; [|by apply Hsame].
    destruct (aggregate_commit_proof_ok (livs_ledger_info (ei_partial_commit_proof e)) _ Hq Hk)
      as (pr & -> & Hli & Hv). cbn [mbind result_bind].
    eexists. split; [done|]. split; [done|]. right. split.
    { exists b. simpl. by rewrite Hli, Hc. }
    intros u. by apply Hv, Hu.
  - destruct Hi as [Hk Hu]. destruct (has_quorum v (si_partial_commit_proof s)) eqn:Hq; [|by apply Hsame].
    destruct (aggregate_commit_proof_ok (livs_ledger_info (si_partial_commit_proof s)) _ Hq Hk)
      as (pr & -> & Hli & Hv). cbn [mbind result_bind]. rewrite Hb. cbn.
    eexists. split; [done|]. split; [done|]. right. split.
    { exists b. simpl. by rewrite Hli. }
    intros u. by apply Hv, Hu.
Qed.

(** A commit proof for an item agrees with what the validator has of it. *)
Definition agrees (proof : LedgerInfoWithSignatures) (i : BufferItem) : Prop :=
  match i with
  | ItemOrdered _ =>
      bi_match_ordered_only (item_commit_info i) (li_commit_info (liws_ledger_info proof)) = true
  | _ => item_commit_info i = li_commit_info (liws_ledger_info proof)
  end.

Lemma advance_with_ledger_info_ok proof i :
  item_ok i → agrees proof i → liws_verify_signatures proof v = Ok tt →
  ∃ i', try_advance_to_aggregated_with_ledger_info proof i = Ok i' ∧ ids_of i' = ids_of i ∧
    (is_ordered i = true ∧ is_ordered i' = true ∧ item_commit_info i' = item_commit_info i ∧ item_ok i'
     ∨ is_ordered i = false ∧ aggregated_ok i').
Proof.
  intros [[Hl Hi] _] Ha Hv. pose proof Hl as (b & Hb & Hid & Hrd).
  destruct i as [o|e|s|a]; simpl in *; [| | |done].
  - rewrite Ha. cbn. eexists. split; [done|]. split; [done|]. left. split_and!; [done..|].
    split; [|done]. split; [by exists b|]. simpl. destruct Hi as [Hk _]. split; [done|].
    by intros p [= <-].
  - rewrite bool_decide_true by done. cbn. rewrite Hb. cbn. eexists. split; [done|]. split; [done|].
    right. split; [done|]. split; [|done]. exists b. simpl. by rewrite <- Ha.
  - rewrite bool_decide_true by done. cbn. eexists. split; [done|]. split; [done|].
    right. split; [done|]. split; [|done]. exists b. simpl. by rewrite <- Ha.
Qed.

Lemma advance_to_signed_ok author sig e :
  item_ok (ItemExecuted e) →
  ∃ s, advance_to_signed author sig (ItemExecuted e) = Ok (ItemSigned s) ∧
    ids_of (ItemSigned s) = ids_of (ItemExecuted e) ∧
    item_commit_info (ItemSigned s) = item_commit_info (ItemExecuted e) ∧
    item_ok (ItemSigned s).
Proof.
  intros [[(b & Hb & Hid & Hrd) [Hp Hc]] Hw]. simpl in *. eexists. split; [done|]. simpl.
  split; [done|]. split; [done|]. split; [|done]. split; [|done]. exists b. simpl. by rewrite Hc.
Qed.

(** ** Execution *)

Lemma executed_commit_info_fields block ts ebi ci :
  executed_commit_info block ts ebi = Ok ci →
  bi_id ci = plb_id block ∧ bi_round ci = plb_round block ∧
  bi_executed_state_id ci = root_hash (plb_state_compute_result block) ∧
  bi_version ci = default 0 (block_block_number (plb_block block)).
Proof.
  unfold executed_commit_info, plb_block_info, gen_block_info. intros (ci' & Hci & [= <-])%bind_Ok.
  autorewrite with gaptos. revert Hci. destruct ts as [t|]; [destruct (negb _)|].
  - intros (_ & (_ & -> & -> & -> & -> & _)%bi_change_timestamp_Ok)%bind_unit_Ok. by autorewrite with gaptos.
  - intros [= <-]. by autorewrite with gaptos.
  - intros [= <-]. by autorewrite with gaptos.
Qed.

(** When the timestamp of a suffix block can be moved back to that of the epoch
    change, the commit info is defined. *)
Lemma executed_commit_info_defined block ts ebi :
  (∀ t, ts = Some t → t ≠ plb_timestamp_usecs block →
     is_Some (scr_epoch_state (plb_state_compute_result block)) ∧ t ≤ plb_timestamp_usecs block) →
  is_ok (executed_commit_info block ts ebi) = true.
Proof.
  intros Hts. unfold executed_commit_info, plb_block_info, gen_block_info. destruct ts as [t|]; [|done].
  rewrite bi_timestamp_new. destruct (N.eqb_spec (Block_timestamp_usecs (plb_block block)) t) as [|Hne]; [done|].
  destruct (Hts t eq_refl ltac:(done)) as [Hs Hle]. cbn [negb]. cbv iota.
  unfold plb_is_reconfiguration_suffix, has_reconfiguration. rewrite bool_decide_true by done. cbn [assert_ mbind result_bind].
  set (b := BlockInfo_new _ _ _ _ _ _ _).
  assert (Hok : is_ok (bi_change_timestamp t b) = true).
  { apply bi_change_timestamp_allowed; unfold b; autorewrite with gaptos; [by apply bool_decide_true|done]. }
  destruct (bi_change_timestamp t b); done.
Qed.

Lemma check_same_ids_Ok l1 l2 :
  Forall2 (λ b1 b2, plb_id b1 = plb_id b2 ∧ plb_round b1 = plb_round b2) l1 l2 → check_same_ids l1 l2 = Ok tt.
Proof.
  induction 1 as [|b1 b2 l1 l2 [Hid _] _ IH]; simpl; [done|]. by rewrite bool_decide_true.
Qed.

(** The results [blocks] of an item, with the commit info [ci] they give. *)
Record results_of (o : OrderedItem) (blocks : list PipelinedBlock) (block : PipelinedBlock) (n : N)
    (ci : BlockInfo) : Prop := {
  ro_blocks : Forall2 (λ b1 b2, plb_id b1 = plb_id b2 ∧ plb_round b1 = plb_round b2)
                (oi_ordered_blocks o) blocks;
  ro_last : last blocks = Some block;
  ro_number : block_block_number (plb_block block) = Some n;
  ro_alpha : consensus_alpha_active (plb_timestamp_usecs block) = true;
  ro_proof p : oi_commit_proof o = Some p → li_commit_info (liws_ledger_info p) = ci;
}.

Lemma generate_commit_form ci proof root n :
  bi_executed_state_id ci = root → bi_version ci = n →
  commit_form (generate_commit_ledger_info ci proof true root n).
Proof.
  intros <- <-. unfold commit_form, generate_commit_ledger_info. by autorewrite with gaptos.
Qed.

Lemma advance_to_executed_or_aggregated_ok o blocks block n ci ts ove ebi :
  item_pre (ItemOrdered o) → results_of o blocks block n ci →
  executed_commit_info block ts ebi = Ok ci → (uniform → ove = true) →
  ∃ i', advance_to_executed_or_aggregated blocks v ts ove ebi (ItemOrdered o) = Ok i' ∧
    get_blocks i' = blocks ∧ item_commit_info i' = ci ∧ is_ordered i' = false ∧
    (item_ok i' ∨ aggregated_ok i').
Proof.
  intros [_ [Hk Hpr]] [Hids Hlast Hnum Hal Hp] Hci Hove.
  destruct (executed_commit_info_fields _ _ _ _ Hci) as (Hid & Hrd & Hst & Hve). rewrite Hnum in Hve. simpl in Hve.
  unfold advance_to_executed_or_aggregated. rewrite (check_same_ids_Ok _ _ Hids), Hlast.
  cbn [expect mbind result_bind]. rewrite Hci. cbn [mbind result_bind].
  destruct (oi_commit_proof o) as [p|] eqn:Ho.
  { rewrite bool_decide_true by by apply Hp. cbn. eexists. split; [done|]. split; [done|].
    rewrite <- (Hp p eq_refl) in *. split; [done|]. split; [done|]. right. split; [by exists block|]. auto. }
  unfold unwrap_number. rewrite Hnum. cbn [expect mbind result_bind].
  set (li := generate_commit_ledger_info ci _ _ _ _). set (sigs := verify_signatures _ v li).
  assert (Hli : li_commit_info li = ci) by (unfold li, generate_commit_ledger_info; by autorewrite with gaptos).
  assert (Hform : uniform → commit_form li).
  { intros u. unfold li. rewrite (Hove u). by apply generate_commit_form. }
  assert (Hsk : known sigs) by by apply verify_signatures_known.
  destruct (is_ok (vv_check_voting_power v _ true)) eqn:Hq.
  - destruct (aggregate_commit_proof_ok li sigs Hq Hsk) as (pr & -> & Hl & Hver). cbn [mbind result_bind].
    eexists. split; [done|]. split; [done|]. simpl. rewrite Hl. split; [done|]. split; [done|]. right.
    split; [exists block; simpl; by rewrite Hl, Hli|]. intros u. apply Hver, verify_signatures_signed.
  - unfold generate_executed_item_from_ordered, unwrap_number, executed_commit_timestamp_usecs.
    rewrite Hlast, Hal. cbn [expect mbind result_bind]. rewrite Hnum. cbn [expect mbind result_bind].
    assert (Heta : BlockInfo_new_with_epoch_block_info (bi_epoch ci) (bi_round ci) (bi_id ci)
      (bi_executed_state_id ci) n (bi_timestamp_usecs ci) (bi_next_epoch_state ci) (bi_epoch_block_info ci) = ci)
      by (rewrite <- Hve; apply bi_new_with).
    rewrite Heta. fold li.
    eexists. split; [done|]. split; [done|]. split; [done|]. split; [done|]. left.
    split; [|by unfold waiting, has_quorum, livs_signers; simpl; rewrite livs_signatures_new_with].
    split; [by exists block|]. simpl. rewrite livs_ledger_info_new_with. split; [|done].
    unfold partial_ok. rewrite livs_ledger_info_new_with, livs_signatures_new_with. split; [done|].
    intros u. split; [by apply Hform|apply verify_signatures_signed].
Qed.

End items.

End buffer_item.
