(* ===== verification/PipelineManager.v ===== *)
(** * The buffer manager of the execution pipeline
    (consensus/src/pipeline/buffer_manager.rs and the phases it drives:
    execution_schedule_phase.rs, execution_wait_phase.rs, signing_phase.rs,
    persisting_phase.rs)

    The manager keeps the ordered batches of blocks in a [Buffer] of [BufferItem]s,
    sends them to execution, asks for a signature on what was executed, collects
    commit votes and sends a prefix of the buffer to persisting as soon as an item
    has a quorum.  Every branch of its [select!] loop is one step on the state; what
    it sends to the phases, to the network and to observers is recorded in the order
    of sending.  The theorems show that under any order of responses and messages the
    batches are committed first come first served, once each and under a verified
    commit proof, that no batch with a quorum waits, and that the cache of early
    votes is bounded. *)

From S2P Require Import Prelude Gaptos Types Certificates Payloads Blocks SafetyRules SafetySpec Bft PendingVotes Buffer BlockBufferManager BufferItem.

Section pipeline.
Context {GA : Gaptos} {VE : Verifier} {CR : Crypto} {PI : PartialLedgerInfo} {AT : ApiTypes} {PT : PipelineTypes}.

(** ** Requests and responses of the phases *)

Record OrderedBlocks := {
  ob_ordered_blocks : list PipelinedBlock;
  ob_ordered_proof : LedgerInfoWithSignatures;
  ob_callback : Callback;
}.

Definition OrderedBlocks_latest_round (ob : OrderedBlocks) : result Empty_set Round :=
  b ← expect "OrderedBlocks empty." (last (ob_ordered_blocks ob)); Ok (plb_round b).

(** [ExecutorError], by the variant the schedule phase names. *)
Inductive PhaseError := EmptyBlocks | OtherExecutorError.

(** The future of a request is the value it yields. *)
Record ExecutionWaitRequest := {
  ewr_block_id : HashValue;
  ewr_fut : result PhaseError (list PipelinedBlock);
}.

Record ExecutionResponse := {
  er_block_id : HashValue;
  er_inner : result PhaseError (list PipelinedBlock);
}.

Record SigningRequest := {
  sgr_ordered_ledger_info : LedgerInfoWithSignatures;
  sgr_commit_ledger_info : LedgerInfo;
}.

(** An error of the safety rules is only logged. *)
Record SigningResponse := {
  sgp_signature_result : option Signature;
  sgp_commit_ledger_info : LedgerInfo;
}.

Record PersistingRequest := {
  psr_blocks : list PipelinedBlock;
  psr_commit_ledger_info : LedgerInfoWithSignatures;
  psr_callback : Callback;
}.

Inductive ResetSignal := Stop | TargetRound (round : Round).

(** What the manager sends.  [again] tells a retry of the schedule phase from the
    first request, and a signing request that is sent after a delay. *)
Inductive PipelineOutput :=
| SendExecution (blocks : list PipelinedBlock) (again : bool)
| SendExecutionWait (request : ExecutionWaitRequest)
| SendSigning (request : SigningRequest) (again : bool)
| SendPersisting (request : PersistingRequest)
| SendScheduleRetry
| Broadcast (message : CommitMessage)
| PublishOrdered (blocks : list PipelinedBlock) (proof : LedgerInfoWithSignatures)
| PublishCommit (proof : LedgerInfoWithSignatures)
| Reply (message : CommitMessage)
| SendResetAck.

(** The phases.  [compute] is the result of executing a block; the results are
    awaited in the order of the blocks, and the first failure ends the batch. *)
Fixpoint compute_all (compute : PipelinedBlock → result PhaseError PipelineExecutionResult)
    (blocks : list PipelinedBlock) : result PhaseError (list PipelinedBlock) :=
  match blocks with
  | [] => Ok []
  | block :: blocks =>
      r ← compute block;
      results ← compute_all compute blocks;
      Ok (set_execution_result r block :: results)
  end.

Definition ExecutionSchedulePhase_process
    (compute : PipelinedBlock → result PhaseError PipelineExecutionResult)
    (ordered_blocks : list PipelinedBlock) : ExecutionWaitRequest :=
  match last ordered_blocks with
  | Some block => {| ewr_block_id := plb_id block; ewr_fut := compute_all compute ordered_blocks |}
  | None => {| ewr_block_id := HashValue_zero; ewr_fut := Err EmptyBlocks |}
  end.

Definition ExecutionWaitPhase_process (req : ExecutionWaitRequest) : ExecutionResponse :=
  {| er_block_id := ewr_block_id req; er_inner := ewr_fut req |}.

(** [sign_commit_vote] is a call of the safety rules. *)
Definition SigningPhase_process {SS : SecureStorage} (req : SigningRequest)
    (s : SafetyRules) : SigningResponse * SafetyRules :=
  let '(r, s) := guarded_sign_commit_vote (sgr_ordered_ledger_info req) (sgr_commit_ledger_info req) s in
  ({| sgp_signature_result := match r with Ok sig => Some sig | _ => None end;
      sgp_commit_ledger_info := sgr_commit_ledger_info req |}, s).

(** The response of the persisting phase, given the outcome of the commit, and
    whether the end of the epoch is announced. *)
Definition PersistingPhase_process (committed : result PhaseError unit) (req : PersistingRequest)
    : result PhaseError Round * bool :=
  let li := liws_ledger_info (psr_commit_ledger_info req) in
  (_ ← committed; Ok (li_round li), li_ends_epoch li).

(** ** The state *)

Abbreviation VoteCache := (gmap Round (gmap HashValue (gmap HashValue CommitVote))).

(** The fields that do not change. *)
Record PipelineConfig := {
  plc_author : Author;
  plc_epoch_state : EpochState;
  plc_order_vote_enabled : bool;
  plc_observer_enabled : bool;
  plc_has_publisher : bool;
  plc_max_pending_rounds_in_commit_vote_cache : Round;
}.

(** The channels to the manager other than [block_rx], which a reset purges, are the
    events of [pipeline_step]; the channels from it are [bfm_sent].  The counter of
    ongoing tasks only delays the acknowledgement of a reset.
    [bfm_block_buffer_manager] is the process-wide block buffer manager. *)
Record BufferManager := {
  bfm_config : PipelineConfig;
  bfm_buffer : Buffer (T := BufferItem);
  bfm_execution_root : option HashValue;
  bfm_signing_root : option HashValue;
  bfm_block_rx : list OrderedBlocks;
  bfm_stop : bool;
  bfm_end_epoch_timestamp : option N;
  bfm_previous_commit_time : N;
  bfm_highest_committed_round : Round;
  bfm_latest_round : Round;
  bfm_commit_vote_cache : VoteCache;
  bfm_pending_commit_proofs : gmap Round LedgerInfoWithSignatures;
  bfm_block_buffer_manager : Manager;
  bfm_sent : list PipelineOutput;
}.

Definition BufferManager_new (config : PipelineConfig) (highest_committed_round : Round) (now : N)
    (executor : Manager) : BufferManager :=
  {| bfm_config := config; bfm_buffer := Buffer_new; bfm_execution_root := None;
     bfm_signing_root := None; bfm_block_rx := []; bfm_stop := false;
     bfm_end_epoch_timestamp := None; bfm_previous_commit_time := now;
     bfm_highest_committed_round := highest_committed_round;
     bfm_latest_round := highest_committed_round; bfm_commit_vote_cache := ∅;
     bfm_pending_commit_proofs := ∅; bfm_block_buffer_manager := executor; bfm_sent := [] |}.

Implicit Types (s : BufferManager).

Definition validators (s : BufferManager) : ValidatorVerifier := es_verifier (plc_epoch_state (bfm_config s)).

(** Field updates. *)
Definition with_buffer (buffer : Buffer (T := BufferItem)) s : BufferManager :=
  {| bfm_config := bfm_config s; bfm_buffer := buffer; bfm_execution_root := bfm_execution_root s;
     bfm_signing_root := bfm_signing_root s; bfm_block_rx := bfm_block_rx s; bfm_stop := bfm_stop s;
     bfm_end_epoch_timestamp := bfm_end_epoch_timestamp s;
     bfm_previous_commit_time := bfm_previous_commit_time s;
     bfm_highest_committed_round := bfm_highest_committed_round s;
     bfm_latest_round := bfm_latest_round s; bfm_commit_vote_cache := bfm_commit_vote_cache s;
     bfm_pending_commit_proofs := bfm_pending_commit_proofs s;
     bfm_block_buffer_manager := bfm_block_buffer_manager s; bfm_sent := bfm_sent s |}.

Definition with_roots (execution signing : option HashValue) s : BufferManager :=
  {| bfm_config := bfm_config s; bfm_buffer := bfm_buffer s; bfm_execution_root := execution;
     bfm_signing_root := signing; bfm_block_rx := bfm_block_rx s; bfm_stop := bfm_stop s;
     bfm_end_epoch_timestamp := bfm_end_epoch_timestamp s;
     bfm_previous_commit_time := bfm_previous_commit_time s;
     bfm_highest_committed_round := bfm_highest_committed_round s;
     bfm_latest_round := bfm_latest_round s; bfm_commit_vote_cache := bfm_commit_vote_cache s;
     bfm_pending_commit_proofs := bfm_pending_commit_proofs s;
     bfm_block_buffer_manager := bfm_block_buffer_manager s; bfm_sent := bfm_sent s |}.

Definition with_block_rx (rx : list OrderedBlocks) s : BufferManager :=
  {| bfm_config := bfm_config s; bfm_buffer := bfm_buffer s; bfm_execution_root := bfm_execution_root s;
     bfm_signing_root := bfm_signing_root s; bfm_block_rx := rx; bfm_stop := bfm_stop s;
     bfm_end_epoch_timestamp := bfm_end_epoch_timestamp s;
     bfm_previous_commit_time := bfm_previous_commit_time s;
     bfm_highest_committed_round := bfm_highest_committed_round s;
     bfm_latest_round := bfm_latest_round s; bfm_commit_vote_cache := bfm_commit_vote_cache s;
     bfm_pending_commit_proofs := bfm_pending_commit_proofs s;
     bfm_block_buffer_manager := bfm_block_buffer_manager s; bfm_sent := bfm_sent s |}.

Definition with_times (end_epoch : option N) (previous_commit : N) s : BufferManager :=
  {| bfm_config := bfm_config s; bfm_buffer := bfm_buffer s; bfm_execution_root := bfm_execution_root s;
     bfm_signing_root := bfm_signing_root s; bfm_block_rx := bfm_block_rx s; bfm_stop := bfm_stop s;
     bfm_end_epoch_timestamp := end_epoch; bfm_previous_commit_time := previous_commit;
     bfm_highest_committed_round := bfm_highest_committed_round s;
     bfm_latest_round := bfm_latest_round s; bfm_commit_vote_cache := bfm_commit_vote_cache s;
     bfm_pending_commit_proofs := bfm_pending_commit_proofs s;
     bfm_block_buffer_manager := bfm_block_buffer_manager s; bfm_sent := bfm_sent s |}.

Definition with_rounds (stop : bool) (highest_committed latest : Round) s : BufferManager :=
  {| bfm_config := bfm_config s; bfm_buffer := bfm_buffer s; bfm_execution_root := bfm_execution_root s;
     bfm_signing_root := bfm_signing_root s; bfm_block_rx := bfm_block_rx s; bfm_stop := stop;
     bfm_end_epoch_timestamp := bfm_end_epoch_timestamp s;
     bfm_previous_commit_time := bfm_previous_commit_time s;
     bfm_highest_committed_round := highest_committed;
     bfm_latest_round := latest; bfm_commit_vote_cache := bfm_commit_vote_cache s;
     bfm_pending_commit_proofs := bfm_pending_commit_proofs s;
     bfm_block_buffer_manager := bfm_block_buffer_manager s; bfm_sent := bfm_sent s |}.

Definition with_caches (votes : VoteCache) (proofs : gmap Round LedgerInfoWithSignatures) s : BufferManager :=
  {| bfm_config := bfm_config s; bfm_buffer := bfm_buffer s; bfm_execution_root := bfm_execution_root s;
     bfm_signing_root := bfm_signing_root s; bfm_block_rx := bfm_block_rx s; bfm_stop := bfm_stop s;
     bfm_end_epoch_timestamp := bfm_end_epoch_timestamp s;
     bfm_previous_commit_time := bfm_previous_commit_time s;
     bfm_highest_committed_round := bfm_highest_committed_round s;
     bfm_latest_round := bfm_latest_round s; bfm_commit_vote_cache := votes;
     bfm_pending_commit_proofs := proofs;
     bfm_block_buffer_manager := bfm_block_buffer_manager s; bfm_sent := bfm_sent s |}.

Definition with_environment (executor : Manager) (sent : list PipelineOutput) s : BufferManager :=
  {| bfm_config := bfm_config s; bfm_buffer := bfm_buffer s; bfm_execution_root := bfm_execution_root s;
     bfm_signing_root := bfm_signing_root s; bfm_block_rx := bfm_block_rx s; bfm_stop := bfm_stop s;
     bfm_end_epoch_timestamp := bfm_end_epoch_timestamp s;
     bfm_previous_commit_time := bfm_previous_commit_time s;
     bfm_highest_committed_round := bfm_highest_committed_round s;
     bfm_latest_round := bfm_latest_round s; bfm_commit_vote_cache := bfm_commit_vote_cache s;
     bfm_pending_commit_proofs := bfm_pending_commit_proofs s;
     bfm_block_buffer_manager := executor; bfm_sent := sent |}.

Abbreviation P := (M BufferManager Empty_set).

Definition send (o : PipelineOutput) : P unit :=
  modify (λ s, with_environment (bfm_block_buffer_manager s) (bfm_sent s ++ [o]) s).

(** An operation of the buffer. *)
Definition on_buffer {A} (f : Buffer → result Empty_set (A * Buffer)) : P A := λ s,
  match f (bfm_buffer s) with
  | Ok (a, b) => (Ok a, with_buffer b s)
  | Err e => (Err e, s)
  | Panic m => (Panic m, s)
  end.

Definition buffer_push (item : BufferItem) : P unit := on_buffer (λ b, b ← push_back item_hash item b; Ok (tt, b)).
Definition buffer_pop : P (option BufferItem) := on_buffer pop_front.
Definition buffer_take (c : option HashValue) : P BufferItem := on_buffer (Buffer_take c).
Definition buffer_set (c : option HashValue) (item : BufferItem) : P unit :=
  on_buffer (λ b, b ← Buffer_set c item b; Ok (tt, b)).
Definition buffer_get (c : option HashValue) : P BufferItem := gets (λ s, Buffer_get (bfm_buffer s) c).
Definition buffer_next (c : option HashValue) : P (option HashValue) := gets (λ s, get_next (bfm_buffer s) c).

(** ** Commit proofs that arrive before their block *)

Definition MAX_PENDING_COMMIT_PROOFS : nat := 100.

(** The first and the last key of a [BTreeMap] of rounds. *)
Definition first_round {A} (m : gmap Round A) : option Round :=
  match (map_to_list m).*1 with [] => None | r :: l => Some (foldr N.min r l) end.
Definition last_round {A} (m : gmap Round A) : option Round := max_of (map_to_list m).*1.

Definition try_add_pending_commit_proof (commit_proof : LedgerInfoWithSignatures) : P bool := λ s,
  let round := bi_round (li_commit_info (liws_ledger_info commit_proof)) in
  let proofs := bfm_pending_commit_proofs s in
  if bfm_highest_committed_round s <? round then
    if (MAX_PENDING_COMMIT_PROOFS <=? size proofs)%nat then
      match first_round proofs with
      | None => (Panic "pending_commit_proofs is full, must be non-empty", s)
      | Some oldest_round =>
          if round <=? oldest_round then (Ok false, s)
          else (Ok true, with_caches (bfm_commit_vote_cache s)
                           (<[round := commit_proof]> (delete oldest_round proofs)) s)
      end
    else (Ok true, with_caches (bfm_commit_vote_cache s) (<[round := commit_proof]> proofs) s)
  else (Ok false, s).

Definition drain_pending_commit_proof_till (round : Round) : P (option LedgerInfoWithSignatures) :=
  split_at ← lift (add_u64 round 1);
  proofs ← gets (λ s, Ok (bfm_pending_commit_proofs s));
  let to_remove := filter (λ '(r, _), r < split_at) proofs in
  _ ← modify (λ s, with_caches (bfm_commit_vote_cache s) (filter (λ '(r, _), split_at ≤ r) proofs) s);
  mret (r ← last_round to_remove; to_remove !! r).

(** [None] if observers are enabled; the handle is the time of the broadcast. *)
Definition do_reliable_broadcast (message : CommitMessage) (now : N) : P (option N) :=
  observer_enabled ← gets (λ s, Ok (plc_observer_enabled (bfm_config s)));
  if observer_enabled : bool then mret None
  else _ ← send (Broadcast message); mret (Some now).

(** ** Commit votes that arrive before their block *)

Inductive CommitVoteRoundClass := AlreadyCommitted | OutsideWindow | InWindow.

Definition classify_commit_vote_round (round highest_committed_round max_cached_round : Round)
    : CommitVoteRoundClass :=
  if round <=? highest_committed_round then AlreadyCommitted
  else if max_cached_round <=? round then OutsideWindow
  else InWindow.

Definition MAX_CACHED_BLOCK_IDS_PER_AUTHOR_PER_COMMIT_VOTE_ROUND : nat := 2.

Definition can_cache_commit_vote_for_block (round_cache : gmap HashValue (gmap HashValue CommitVote))
    (block_id author : HashValue) : bool :=
  bool_decide (is_Some (round_cache !! block_id))
  || (size (filter (λ '(_, votes_by_author), is_Some ((votes_by_author : gmap HashValue CommitVote) !! author))
              round_cache) <? MAX_CACHED_BLOCK_IDS_PER_AUTHOR_PER_COMMIT_VOTE_ROUND)%nat.

Definition cache_commit_vote (vote : CommitVote) : P bool := λ s,
  let round := bi_round (cv_commit_info vote) in
  let highest_committed_round := bfm_highest_committed_round s in
  let max_cached_round :=
    saturating_add highest_committed_round
      (plc_max_pending_rounds_in_commit_vote_cache (bfm_config s)) in
  let cache := filter (λ '(r, _), highest_committed_round < r ∧ r < max_cached_round)
                 (bfm_commit_vote_cache s) in
  let s := with_caches cache (bfm_pending_commit_proofs s) s in
  match classify_commit_vote_round round highest_committed_round max_cached_round with
  | AlreadyCommitted => (Ok true, s)
  | OutsideWindow => (Ok false, s)
  | InWindow =>
      let block_id := bi_id (cv_commit_info vote) in
      let author := hash_of_address (cv_author vote) in
      let round_cache := default ∅ (cache !! round) in
      if can_cache_commit_vote_for_block round_cache block_id author then
        let votes := <[author := vote]> (default ∅ (round_cache !! block_id)) in
        (Ok true, with_caches (<[round := <[block_id := votes]> round_cache]> cache)
                    (bfm_pending_commit_proofs s) s)
      else (Ok false, with_caches (<[round := round_cache]> cache) (bfm_pending_commit_proofs s) s)
  end.

Definition drain_cached_commit_votes (round : Round) (block_id : HashValue) : P (list CommitVote) := λ s,
  let cache := bfm_commit_vote_cache s in
  match cache !! round with
  | Some round_cache =>
      let votes := (map_to_list (default ∅ (round_cache !! block_id))).*2 in
      let round_cache := delete block_id round_cache in
      let cache := if bool_decide (round_cache = ∅) then delete round cache
                   else <[round := round_cache]> cache in
      (Ok votes, with_caches cache (bfm_pending_commit_proofs s) s)
  | None => (Ok [], s)
  end.

(** The loop over the drained votes; a vote that does not match is logged. *)
Definition add_signatures (votes : list CommitVote) (item : BufferItem) : BufferItem :=
  foldl (λ item vote, (add_signature_if_matched vote item).2) item votes.

Definition add_signature_if_matched_from_cache (item : BufferItem) (target_block_id : HashValue)
    (round : Round) : P BufferItem :=
  votes ← drain_cached_commit_votes round target_block_id;
  mret (add_signatures votes item).

(** ** Ordered blocks *)

Definition process_ordered_blocks (ob : OrderedBlocks) : P unit :=
  has_publisher ← gets (λ s, Ok (plc_has_publisher (bfm_config s)));
  _ ← (if has_publisher : bool then send (PublishOrdered (ob_ordered_blocks ob) (ob_ordered_proof ob))
       else mret tt);
  _ ← send (SendExecution (ob_ordered_blocks ob) false);
  let item := BufferItem_new_ordered (ob_ordered_blocks ob) (ob_ordered_proof ob) (ob_callback ob) in
  target_block_id ← lift (item_block_id item);
  let round := bi_round (item_commit_info item) in
  item ← add_signature_if_matched_from_cache item target_block_id round;
  buffer_push item.

(** ** The roots *)

Definition find_from (root : option HashValue) (p : BufferItem → bool) : P (option HashValue) :=
  gets (λ s, find_elem_from (bfm_buffer s)
               (match root with Some c => Some c | None => buf_head (bfm_buffer s) end) p).

Definition advance_execution_root : P (option HashValue) :=
  cursor ← gets (λ s, Ok (bfm_execution_root s));
  root ← find_from cursor is_ordered;
  _ ← modify (λ s, with_roots root (bfm_signing_root s) s);
  mret (if bool_decide (is_Some root ∧ cursor = root) then root else None).

Definition advance_signing_root : P unit :=
  cursor ← gets (λ s, Ok (bfm_signing_root s));
  root ← find_from cursor is_executed;
  _ ← modify (λ s, with_roots (bfm_execution_root s) root s);
  match root with
  | None => mret tt
  | Some _ =>
      item ← buffer_get root;
      executed_item ← lift (unwrap_executed_ref item);
      send (SendSigning {| sgr_ordered_ledger_info := ei_ordered_proof executed_item;
                           sgr_commit_ledger_info := livs_ledger_info (ei_partial_commit_proof executed_item) |}
              (bool_decide (cursor = root)))
  end.

(** The loop of [advance_head]; every round but the last takes an item off the
    buffer, and [fuel] counts them. *)
Fixpoint advance_head_loop (fuel : nat) (target_block_id : HashValue) (now : N)
    (blocks_to_persist : list PipelinedBlock) : P unit :=
  match fuel with
  | O => lift (Panic "out of fuel")
  | S fuel =>
      popped ← buffer_pop;
      match popped with
      | None => lift (Panic "internal error: entered unreachable code: Aggregated item not found in the list")
      | Some item =>
          let blocks_to_persist := blocks_to_persist ++ get_blocks item in
          block_id ← lift (item_block_id item);
          _ ← modify (λ s, with_roots
                 (if bool_decide (bfm_execution_root s = Some block_id) then None else bfm_execution_root s)
                 (if bool_decide (bfm_signing_root s = Some block_id) then None else bfm_signing_root s) s);
          if bool_decide (block_id = target_block_id) then
            aggregated_item ← lift (unwrap_aggregated item);
            _ ← lift (expect (E := Empty_set) "executed_blocks should be not empty"
                        (last (ai_executed_blocks aggregated_item)));
            has_publisher ← gets (λ s, Ok (plc_has_publisher (bfm_config s)));
            _ ← (if has_publisher : bool then send (PublishCommit (ai_commit_proof aggregated_item))
                 else mret tt);
            _ ← send (SendPersisting {| psr_blocks := blocks_to_persist;
                                        psr_commit_ledger_info := ai_commit_proof aggregated_item;
                                        psr_callback := ai_callback aggregated_item |});
            modify (λ s, with_times (bfm_end_epoch_timestamp s) now s)
          else advance_head_loop fuel target_block_id now blocks_to_persist
      end
  end.

Definition advance_head (target_block_id : HashValue) (now : N) : P unit := λ s,
  advance_head_loop (S (Buffer_len (bfm_buffer s))) target_block_id now [] s.

(** ** Resets *)

Definition reset (now : N) : P unit :=
  _ ← modify (λ s, with_roots None None (with_buffer Buffer_new s));
  _ ← modify (with_caches ∅ ∅);
  _ ← modify (λ s, with_times (bfm_end_epoch_timestamp s) now s);
  _ ← modify (with_block_rx []);
  modify (λ s, with_environment (release_inflight_blocks (bfm_block_buffer_manager s)) (bfm_sent s) s).

Definition process_reset_request (signal : ResetSignal) (now : N) : P unit :=
  _ ← modify (λ s,
        match signal with
        | Stop => with_rounds true (bfm_highest_committed_round s) (bfm_latest_round s) s
        | TargetRound round => with_rounds (bfm_stop s) round round s
        end);
  _ ← reset now;
  send SendResetAck.

(** ** Execution *)

Definition process_execution_schedule_response (response : ExecutionWaitRequest) : P unit :=
  send (SendExecutionWait response).

(** The walk of [retry_schedule_phase], one item per round. *)
Fixpoint retry_loop (fuel : nat) (cursor : option HashValue) : P unit :=
  match cursor with
  | None => mret tt
  | Some _ =>
      match fuel with
      | O => lift (Panic "out of fuel")
      | S fuel =>
          item ← buffer_get cursor;
          _ ← send (SendExecution (get_blocks item) true);
          next ← buffer_next cursor;
          retry_loop fuel next
      end
  end.

Definition retry_schedule_phase : P unit := λ s,
  retry_loop (Buffer_len (bfm_buffer s)) (bfm_execution_root s) s.

Definition resolve_epoch_block_info (last_block : PipelinedBlock) (s : BufferManager) : option EpochBlockInfo :=
  let block_number := default 0 (block_block_number (plb_block last_block)) in
  let epoch := Block_epoch (plb_block last_block) in
  match get_epoch_change_block_info (bfm_block_buffer_manager s) block_number epoch with
  | Some epoch_info => Some (EpochBlockInfo_of epoch_info)
  | None =>
      let compute_result := plb_state_compute_result last_block in
      if has_reconfiguration compute_result then
        let block_info := plb_block_info last_block in
        Some (EpochBlockInfo_of
          {| eci_block_id := plb_id last_block; eci_block_number := block_number;
             eci_epoch_start_round := plb_round last_block;
             eci_epoch_start_timestamp_usecs :=
               match bfm_end_epoch_timestamp s with
               | Some timestamp =>
                   if negb (bi_timestamp_usecs block_info =? timestamp)
                      && plb_is_reconfiguration_suffix last_block
                   then timestamp else bi_timestamp_usecs block_info
               | None => bi_timestamp_usecs block_info
               end;
             eci_block_hash := root_hash compute_result |})
      else None
  end.

(** The timestamp of the first block that changes the epoch is kept. *)
Definition note_epoch_end (executed_blocks : list PipelinedBlock) (s : BufferManager) : BufferManager :=
  match bfm_end_epoch_timestamp s with
  | Some _ => s
  | None =>
      match head (filter (λ b, bi_has_reconfiguration (plb_block_info b) = true) executed_blocks) with
      | Some b => with_times (Some (plb_timestamp_usecs b)) (bfm_previous_commit_time s) s
      | None => s
      end
  end.

(** From the item and its results on: the item advances, a pending commit proof is
    applied, and an aggregated item is committed. *)
Definition advance_executed (executed_blocks : list PipelinedBlock) (cursor : option HashValue)
    (block_id : HashValue) (now : N) : P unit :=
  _ ← modify (note_epoch_end executed_blocks);
  last_block ← lift (expect "execute_blocks should not be empty!" (last executed_blocks));
  epoch_block_info ← gets (λ s, Ok (resolve_epoch_block_info last_block s));
  item ← buffer_take cursor;
  let round := bi_round (item_commit_info item) in
  new_item ← gets (λ s, advance_to_executed_or_aggregated executed_blocks (validators s)
                          (bfm_end_epoch_timestamp s) (plc_order_vote_enabled (bfm_config s))
                          epoch_block_info item);
  pending ← drain_pending_commit_proof_till round;
  new_item ← lift (match pending with
                   | Some commit_proof =>
                       if negb (is_aggregated new_item)
                          && bool_decide (bi_id (li_commit_info (liws_ledger_info commit_proof)) = block_id)
                       then try_advance_to_aggregated_with_ledger_info commit_proof new_item
                       else Ok new_item
                   | None => Ok new_item
                   end);
  _ ← buffer_set cursor new_item;
  if is_aggregated new_item then advance_head block_id now else mret tt.

Definition process_execution_response (response : ExecutionResponse) (now : N) : P unit :=
  let block_id := er_block_id response in
  current_cursor ← gets (λ s, Ok (find_elem_by_key (bfm_buffer s) (bfm_execution_root s) block_id));
  match current_cursor, er_inner response with
  | None, _ => mret tt
  | Some _, Ok executed_blocks =>
      current_item ← buffer_get current_cursor;
      item_id ← lift (item_block_id current_item);
      if bool_decide (item_id ≠ block_id) then mret tt
      else advance_executed executed_blocks current_cursor block_id now
  | Some _, Err _ => mret tt
  | Some _, Panic m => lift (Panic m)
  end.

(** ** Signing *)

Definition process_signing_response (response : SigningResponse) (now : N) : P unit :=
  match sgp_signature_result response with
  | None => mret tt
  | Some signature =>
      let id := bi_id (li_commit_info (sgp_commit_ledger_info response)) in
      current_cursor ← gets (λ s, Ok (find_elem_by_key (bfm_buffer s) (bfm_signing_root s) id));
      match current_cursor with
      | None => mret tt
      | Some _ =>
          item ← buffer_take current_cursor;
          if is_executed item then
            signed_item ← gets (λ s, advance_to_signed (plc_author (bfm_config s)) signature item);
            signed ← lift (unwrap_signed signed_item);
            rb_handle ← do_reliable_broadcast (CommitMessageVote (si_commit_vote signed)) now;
            buffer_set current_cursor (ItemSigned (with_rb_handle rb_handle signed))
          else buffer_set current_cursor item
      end
  end.

(** ** Commit messages *)

Definition process_commit_vote (vote : CommitVote) : P (option HashValue) :=
  let target_block_id := bi_id (cv_commit_info vote) in
  current_cursor ← gets (λ s, Ok (find_elem_by_key (bfm_buffer s) (buf_head (bfm_buffer s)) target_block_id));
  match current_cursor with
  | Some _ =>
      item ← buffer_take current_cursor;
      item ← add_signature_if_matched_from_cache item target_block_id (bi_round (cv_commit_info vote));
      let '(added, item) := add_signature_if_matched vote item in
      new_item ← (if added : bool then
                    _ ← send (Reply CommitMessageAck);
                    gets (λ s, try_advance_to_aggregated (validators s) item)
                  else _ ← send (Reply CommitMessageNack); mret item);
      _ ← buffer_set current_cursor new_item;
      mret (if is_aggregated new_item then Some target_block_id else None)
  | None =>
      cached ← cache_commit_vote vote;
      _ ← send (Reply (if cached : bool then CommitMessageAck else CommitMessageNack));
      mret None
  end.

Definition process_commit_decision (commit_proof : LedgerInfoWithSignatures) : P (option HashValue) :=
  let target_block_id := bi_id (li_commit_info (liws_ledger_info commit_proof)) in
  cursor ← gets (λ s, Ok (find_elem_by_key (bfm_buffer s) (buf_head (bfm_buffer s)) target_block_id));
  match cursor with
  | Some _ =>
      item ← buffer_take cursor;
      new_item ← lift (try_advance_to_aggregated_with_ledger_info commit_proof item);
      _ ← buffer_set cursor new_item;
      if is_aggregated new_item then _ ← send (Reply CommitMessageAck); mret (Some target_block_id)
      else _ ← send (Reply CommitMessageNack); mret None
  | None =>
      _ ← try_add_pending_commit_proof commit_proof;
      _ ← send (Reply CommitMessageNack);
      mret None
  end.

Definition process_commit_message (req : CommitMessage) : P (option HashValue) :=
  match req with
  | CommitMessageVote vote => process_commit_vote vote
  | CommitMessageDecision decision => process_commit_decision (cd_ledger_info decision)
  | CommitMessageAck => mret None
  | CommitMessageNack => mret None
  end.

(** ** Rebroadcast *)

Definition COMMIT_VOTE_BROADCAST_INTERVAL_MS : N := 1500.
Definition COMMIT_VOTE_REBROADCAST_INTERVAL_MS : N := 30000.

(** The walk over the signed items at the head of the buffer. *)
Fixpoint rebroadcast_loop (fuel : nat) (cursor : option HashValue) (now : N) : P unit :=
  match cursor with
  | None => mret tt
  | Some _ =>
      match fuel with
      | O => lift (Panic "out of fuel")
      | S fuel =>
          item ← buffer_take cursor;
          match item with
          | ItemSigned signed_item =>
              rb_handle ←
                (if match si_rb_handle signed_item with
                    | None => true
                    | Some start_time => COMMIT_VOTE_REBROADCAST_INTERVAL_MS <=? now - start_time
                    end
                 then do_reliable_broadcast (CommitMessageVote (si_commit_vote signed_item)) now
                 else mret (si_rb_handle signed_item));
              _ ← buffer_set cursor (ItemSigned (with_rb_handle rb_handle signed_item));
              next ← buffer_next cursor;
              rebroadcast_loop fuel next now
          | _ => buffer_set cursor item
          end
      end
  end.

Definition rebroadcast_commit_votes_if_needed (now : N) : P unit := λ s,
  if now - bfm_previous_commit_time s <? COMMIT_VOTE_BROADCAST_INTERVAL_MS then (Ok tt, s)
  else rebroadcast_loop (Buffer_len (bfm_buffer s)) (buf_head (bfm_buffer s)) now s.

(** ** The loop *)

Definition MAX_BACKLOG : Round := 20.

Definition need_backpressure (s : BufferManager) : result Empty_set bool :=
  limit ← add_u64 (bfm_highest_committed_round s) MAX_BACKLOG; Ok (limit <? bfm_latest_round s).

(** What happens around the manager ([BlocksSent] by the block store,
    [ExecutorChanged] to the block buffer manager), and the branches of [select!];
    a commit message reaches the manager if its verification succeeds. *)
Inductive PipelineEvent :=
| BlocksSent (ob : OrderedBlocks)
| ExecutorChanged (m : Manager)
| BlocksReceived
| ResetReceived (signal : ResetSignal) (now : N)
| ExecutionScheduled (request : ExecutionWaitRequest)
| ExecutionDone (response : ExecutionResponse) (now : N)
| ScheduleRetried
| SigningDone (response : SigningResponse) (now : N)
| PersistingDone (result : result PhaseError Round)
| CommitMessageReceived (message : CommitMessage) (now : N)
| Tick (now : N).

Definition when_none (root : option HashValue) (c : P unit) : P unit :=
  match root with None => c | Some _ => mret tt end.

Definition discard {A} (c : P A) : P unit := _ ← c; mret tt.

Definition pipeline_step (e : PipelineEvent) : P unit :=
  match e with
  | BlocksSent ob => modify (λ s, with_block_rx (bfm_block_rx s ++ [ob]) s)
  | ExecutorChanged m => modify (λ s, with_environment m (bfm_sent s) s)
  | BlocksReceived =>
      backpressure ← gets need_backpressure;
      rx ← gets (λ s, Ok (bfm_block_rx s));
      match backpressure, rx with
      | false, blocks :: rx =>
          _ ← modify (with_block_rx rx);
          latest ← lift (OrderedBlocks_latest_round blocks);
          _ ← modify (λ s, with_rounds (bfm_stop s) (bfm_highest_committed_round s) latest s);
          _ ← process_ordered_blocks blocks;
          root ← gets (λ s, Ok (bfm_execution_root s));
          when_none root (discard advance_execution_root)
      | _, _ => mret tt
      end
  | ResetReceived signal now => process_reset_request signal now
  | ExecutionScheduled request => process_execution_schedule_response request
  | ExecutionDone response now =>
      _ ← process_execution_response response now;
      retry ← advance_execution_root;
      _ ← (if bool_decide (retry = Some (er_block_id response)) then send SendScheduleRetry else mret tt);
      root ← gets (λ s, Ok (bfm_signing_root s));
      when_none root advance_signing_root
  | ScheduleRetried => retry_schedule_phase
  | SigningDone response now =>
      _ ← process_signing_response response now;
      advance_signing_root
  | PersistingDone (Ok round) =>
      modify (λ s,
        with_rounds (bfm_stop s) round (bfm_latest_round s)
          (with_caches (filter (λ '(r, _), round < r) (bfm_commit_vote_cache s))
             (bfm_pending_commit_proofs s) s))
  | PersistingDone _ => mret tt
  | CommitMessageReceived message now =>
      v ← gets (λ s, Ok (validators s));
      match CommitMessage_verify message v with
      | Ok _ =>
          aggregated ← process_commit_message message;
          match aggregated with
          | Some aggregated_block_id =>
              _ ← advance_head aggregated_block_id now;
              root ← gets (λ s, Ok (bfm_execution_root s));
              _ ← when_none root (discard advance_execution_root);
              root ← gets (λ s, Ok (bfm_signing_root s));
              when_none root advance_signing_root
          | None => mret tt
          end
      | Err _ => mret tt
      | Panic m => lift (Panic m)
      end
  | Tick now => rebroadcast_commit_votes_if_needed now
  end.

(** [start]: the loop runs until a reset stops it; the guard of the first branch is
    evaluated in every round. *)
Fixpoint pipeline_run (events : list PipelineEvent) : P unit :=
  match events with
  | [] => mret tt
  | e :: events =>
      stop ← gets (λ s, Ok (bfm_stop s));
      if stop : bool then mret tt
      else _ ← gets need_backpressure; _ ← pipeline_step e; pipeline_run events
  end.

End pipeline.
