(* ===== verification/PipelineSpec.v ===== *)
(** * What the pipeline guarantees

    The invariant of the buffer manager ([PipelineManager]) and the theorems on its
    runs: commits come in the order of the incoming batches, once each, and no
    assertion of the pipeline fails; commit proofs verify; a batch with a quorum does
    not wait; the cache of early votes stays bounded. *)

From S2P Require Import Prelude Gaptos Types Certificates Payloads Blocks SafetyRules SafetySpec Bft PendingVotes Buffer BlockBufferManager BufferItem PipelineManager.

Section pipeline_spec.
Context {GA : Gaptos} {VE : Verifier} {CR : Crypto} {PI : PartialLedgerInfo} {AT : ApiTypes} {PT : PipelineTypes}.
Implicit Types (s : BufferManager) (q : list BufferItem) (i : BufferItem) (b : Buffer (T := BufferItem)).

(** ** The buffer as a list of items *)

Definition entries q : list (HashValue * option BufferItem) := (λ i, (item_hash i, Some i)) <$> q.

Lemma entries_keys q : (entries q).*1 = item_hash <$> q.
Proof. unfold entries. rewrite <- list_fmap_compose. done. Qed.

Lemma entries_app q1 q2 : entries (q1 ++ q2) = entries q1 ++ entries q2.
Proof. apply fmap_app. Qed.

(** The key of the first item that satisfies [p]. *)
Definition first_of (p : BufferItem → bool) q : option HashValue :=
  item_hash <$> head (filter (λ i, p i = true) q).

Lemma first_of_cons p i q : first_of p (i :: q) = if p i then Some (item_hash i) else first_of p q.
Proof. unfold first_of. rewrite filter_cons. by destruct (p i). Qed.

Lemma first_of_skip p q1 q2 : Forall (λ i, p i = false) q1 → first_of p (q1 ++ q2) = first_of p q2.
Proof. induction 1 as [|i q1 Hi _ IH]; [done|]. simpl. by rewrite first_of_cons, Hi. Qed.

Lemma first_match_entries p q : first_match p (entries q) = Ok (first_of p q).
Proof.
  induction q as [|i q IH]; [done|]. rewrite first_of_cons. unfold entries. simpl. by destruct (p i).
Qed.

Lemma suffix_entries q1 i q2 :
  NoDup (item_hash <$> q1 ++ i :: q2) → suffix_from (item_hash i) (entries (q1 ++ i :: q2)) = entries (i :: q2).
Proof.
  induction q1 as [|j q1 IH]; simpl; intros Hnd; [by rewrite bool_decide_true|].
  apply NoDup_cons in Hnd as [Hj Hnd]. rewrite bool_decide_false; [by apply IH|].
  intros Heq. apply Hj. rewrite <- Heq, fmap_app. apply elem_of_app. right. by left.
Qed.

Lemma elem_of_hashes k q : k ∈ item_hash <$> q → ∃ q1 i q2, q = q1 ++ i :: q2 ∧ item_hash i = k.
Proof.
  intros (i & -> & Hi)%list_elem_of_fmap. apply list_elem_of_split in Hi as (q1 & q2 & ->). by exists q1, i, q2.
Qed.

Section represented.
Context b q (Hb : repr b (entries q)).

Lemma hashes_NoDup : NoDup (item_hash <$> q).
Proof. rewrite <- entries_keys. apply (rp_nodup _ _ Hb). Qed.

Lemma head_entries : buf_head b = item_hash <$> head q.
Proof.
  destruct (rp_chain _ _ Hb) as (j & Hch & _). rewrite (chain_head _ _ _ _ Hch). by destruct q.
Qed.

(** A search from a cursor that is in the buffer, or not. *)
Lemma find_at q1 i q2 p :
  q = q1 ++ i :: q2 → find_elem_from b (Some (item_hash i)) p = Ok (first_of p (i :: q2)).
Proof.
  intros Hq. rewrite (find_elem_from_repr b _ _ p Hb), Hq, suffix_entries by (rewrite <- Hq; apply hashes_NoDup).
  apply first_match_entries.
Qed.

Lemma find_absent k p : k ∉ item_hash <$> q → find_elem_from b (Some k) p = Ok None.
Proof.
  intros Hk. rewrite <- entries_keys in Hk. rewrite (find_elem_from_repr b _ _ p Hb).
  by rewrite (proj2 (suffix_from_nil k (entries q)) Hk).
Qed.

Lemma find_is_ok c p : ∃ r, find_elem_from b c p = Ok r ∧
  (r = None ∨ ∃ i, i ∈ q ∧ p i = true ∧ r = Some (item_hash i)).
Proof.
  destruct c as [k|]; [|by exists None; auto].
  destruct (decide (k ∈ item_hash <$> q)) as [(q1 & i & q2 & Hq & <-)%elem_of_hashes|Hk];
    [|exists None; split; [by apply find_absent|by left]].
  rewrite (find_at q1 i q2 p Hq). eexists. split; [done|]. unfold first_of.
  destruct (head _) as [j|] eqn:Hh; [|by left]. right. exists j. apply head_Some_elem_of in Hh.
  apply list_elem_of_filter in Hh as [Hp Hj]. split_and!; [rewrite Hq; apply elem_of_app; by right|done..].
Qed.

(** A lookup from a cursor on. *)
Lemma find_key_at c k :
  find_elem_by_key b c k = None ∨
  (find_elem_by_key b c k = Some k ∧ ∃ q1 i q2, q = q1 ++ i :: q2 ∧ item_hash i = k).
Proof.
  rewrite (find_elem_by_key_repr b _ c k Hb). destruct c as [c|]; [|by left]. simpl.
  case_bool_decide as Hin; [|by left]. right. split; [done|]. apply elem_of_hashes.
  rewrite <- entries_keys. by eapply suffix_from_incl.
Qed.

Lemma get_at q1 i q2 : q = q1 ++ i :: q2 → Buffer_get b (Some (item_hash i)) = Ok i.
Proof.
  intros Hq. pose proof (buffer_step_simulated item_hash (OpGet (Some (item_hash i))) b _ Hb I) as H. simpl in H.
  unfold at_cursor in H. simpl in H. rewrite Hq, suffix_entries in H by (rewrite <- Hq; apply hashes_NoDup).
  simpl in H. destruct H as (b' & H & _). by apply bind_Ok in H as (e & -> & [= -> _]).
Qed.

Lemma next_at q1 i q2 : q = q1 ++ i :: q2 → get_next b (Some (item_hash i)) = Ok (item_hash <$> head q2).
Proof.
  intros Hq. pose proof (buffer_step_simulated item_hash (OpNext (Some (item_hash i))) b _ Hb I) as H. simpl in H.
  unfold at_cursor in H. simpl in H. rewrite Hq, suffix_entries in H by (rewrite <- Hq; apply hashes_NoDup).
  simpl in H. destruct H as (b' & H & _). apply bind_Ok in H as (e & -> & [= -> _]). by destruct q2.
Qed.

End represented.

Lemma find_head b q p : repr b (entries q) → find_elem_from b (buf_head b) p = Ok (first_of p q).
Proof.
  intros Hb. rewrite (head_entries b q Hb). destruct q as [|i q]; [done|]. by apply (find_at b (i :: q) Hb []).
Qed.

Lemma find_key_head b q k :
  repr b (entries q) →
  find_elem_by_key b (buf_head b) k = if decide (k ∈ item_hash <$> q) then Some k else None.
Proof.
  intros Hb. rewrite (find_elem_by_key_repr b _ _ k Hb), (head_entries b q Hb).
  destruct q as [|i q]; [by case_decide as H; [apply not_elem_of_nil in H|]|].
  cbn [fmap option_fmap option_map head list_fmap mbind option_bind].
  pose proof (suffix_entries [] i q (hashes_NoDup _ _ Hb)) as Hs. cbn [app] in Hs. rewrite Hs, entries_keys.
  simpl. case_bool_decide; by case_decide.
Qed.

Lemma replace_twice k (e e' : option BufferItem) l : replace k e' (replace k e l) = replace k e' l.
Proof.
  unfold replace. rewrite <- list_fmap_compose. apply list_fmap_ext. intros n [k' x] _. simpl. by case_bool_decide.
Qed.

Lemma replace_entries q1 i i' q2 :
  NoDup (item_hash <$> q1 ++ i :: q2) → item_hash i' = item_hash i →
  replace (item_hash i) (Some i') (entries (q1 ++ i :: q2)) = entries (q1 ++ i' :: q2).
Proof.
  intros Hnd Hh. rewrite fmap_app in Hnd. apply NoDup_app in Hnd as (_ & Hne & Hnd). simpl in Hnd, Hne.
  apply NoDup_cons in Hnd as [Hq2 _]. rewrite !entries_app. unfold replace. rewrite fmap_app. f_equal.
  - change (replace (item_hash i) (Some i') (entries q1) = entries q1). apply replace_absent.
    rewrite entries_keys. intros Hin. apply (Hne _ Hin). by left.
  - simpl. rewrite bool_decide_true by done. rewrite Hh. f_equal.
    change (replace (item_hash i) (Some i') (entries q2) = entries q2). apply replace_absent. by rewrite entries_keys.
Qed.

(** Taking an item and putting another one with its key in its place. *)
Lemma take_item b q1 i q2 :
  repr b (entries (q1 ++ i :: q2)) →
  ∃ b', Buffer_take (Some (item_hash i)) b = Ok (i, b') ∧
    ∀ i', item_hash i' = item_hash i →
      ∃ b'', Buffer_set (Some (item_hash i)) i' b' = Ok b'' ∧ repr b'' (entries (q1 ++ i' :: q2)).
Proof.
  intros Hb. pose proof (hashes_NoDup _ _ Hb) as Hnd.
  pose proof (buffer_step_simulated item_hash (OpTake (Some (item_hash i))) b _ Hb I) as H. simpl in H.
  unfold at_cursor in H. simpl in H. rewrite (suffix_entries q1 i q2 Hnd) in H. simpl in H.
  destruct H as (b' & H & Hb'). apply bind_Ok in H as ([e b1] & Ht & [= -> ->]). exists b'. split; [done|].
  intros i' Hh.
  pose proof (buffer_step_simulated item_hash (OpSet (Some (item_hash i)) i') b' _ Hb' I) as H. simpl in H.
  unfold at_cursor in H. simpl in H.
  assert (Hsuf : ∃ x, suffix_from (item_hash i) (replace (item_hash i) None (entries (q1 ++ i :: q2)))
    = (item_hash i, None) :: x).
  { clear -Hnd. induction q1 as [|j q1 IH]; simpl.
    - rewrite bool_decide_true by done. eauto.
    - simpl in Hnd. apply NoDup_cons in Hnd as [Hj Hnd]. rewrite bool_decide_false; [by apply IH|].
      intros Heq. apply Hj. rewrite <- Heq, fmap_app. apply elem_of_app. right. by left. }
  destruct Hsuf as [x Hsuf]. rewrite Hsuf in H. simpl in H. destruct H as (b'' & H & Hb'').
  apply bind_Ok in H as (b2 & Hs & [= ->]). exists b''. split; [done|].
  by rewrite replace_twice, replace_entries in Hb''.
Qed.

Lemma push_item b q i :
  repr b (entries q) → item_hash i ∉ item_hash <$> q → buf_count b < u64_max →
  ∃ b', push_back item_hash i b = Ok b' ∧ repr b' (entries (q ++ [i])).
Proof.
  intros Hb Hn Hc. rewrite <- entries_keys in Hn. rewrite entries_app. by apply push_back_repr.
Qed.

(** ** The cache of early votes *)

Abbreviation VoteCache := (gmap Round (gmap HashValue (gmap HashValue CommitVote))).

Definition cache_get (c : VoteCache) (r : Round) (id : HashValue) : option (gmap HashValue CommitVote) :=
  rc ← c !! r; rc !! id.

(** [c1] is a part of [c2]. *)
Definition shrinks (c1 c2 : VoteCache) : Prop :=
  ∀ r rc1, c1 !! r = Some rc1 → ∃ rc2, c2 !! r = Some rc2 ∧ rc1 ⊆ rc2.

Lemma shrinks_refl c : shrinks c c.
Proof. intros r rc H. by exists rc. Qed.

Lemma shrinks_filter (P : Round * gmap HashValue (gmap HashValue CommitVote) → Prop)
    `{!∀ x, Decision (P x)} c :
  shrinks (filter P c) c.
Proof. intros r rc [Hr _]%map_lookup_filter_Some. by exists rc. Qed.

Lemma shrinks_get c1 c2 r id vs : shrinks c1 c2 → cache_get c1 r id = Some vs → cache_get c2 r id = Some vs.
Proof.
  unfold cache_get. intros Hs (rc & Hr & Hid)%bind_Some. destruct (Hs _ _ Hr) as (rc2 & -> & Hsub). simpl.
  by eapply lookup_weaken.
Qed.

(** Draining hands out what was cached for the block, and leaves a part. *)
Lemma drain_cached_runs r id s (Q : list CommitVote → BufferManager → Prop) :
  (∀ votes c, shrinks c (bfm_commit_vote_cache s) → cache_get c r id = None →
     (∀ vote, vote ∈ votes → ∃ vs a, cache_get (bfm_commit_vote_cache s) r id = Some vs ∧ vs !! a = Some vote) →
     Q votes (with_caches c (bfm_pending_commit_proofs s) s)) →
  runs (drain_cached_commit_votes r id) s Q.
Proof.
  intros HQ. unfold runs, drain_cached_commit_votes. destruct (bfm_commit_vote_cache s !! r) as [rc|] eqn:Hr.
  - apply HQ.
    + intros r' rc' H'. case_bool_decide.
      * apply lookup_delete_Some in H' as [_ H']. by exists rc'.
      * apply lookup_insert_Some in H' as [[<- <-]|[_ H']]; [|by exists rc'].
        exists rc. split; [done|]. apply delete_subseteq.
    + unfold cache_get. case_bool_decide; [by rewrite lookup_delete_eq|].
      rewrite lookup_insert_eq. simpl. apply lookup_delete_eq.
    + intros vote ([a x] & -> & Hin)%list_elem_of_fmap. apply elem_of_map_to_list in Hin. simpl.
      destruct (rc !! id) as [vs|] eqn:Hid; simpl in Hin; [|by rewrite lookup_empty in Hin].
      exists vs, a. unfold cache_get. rewrite Hr. done.
  - assert (Heq : with_caches (bfm_commit_vote_cache s) (bfm_pending_commit_proofs s) s = s) by by destruct s.
    rewrite <- Heq. apply HQ; [apply shrinks_refl| |by intros vote ?%not_elem_of_nil].
    unfold cache_get. by rewrite Hr.
Qed.

(** Who introduced a block id into the cache of a round: each author at most two. *)
Definition introduced (rc : gmap HashValue (gmap HashValue CommitVote)) : Prop :=
  ∃ f : HashValue → HashValue,
    (∀ id vs, rc !! id = Some vs → is_Some (vs !! f id)) ∧
    ∀ a, (size (filter (λ '(id, _), f id = a) rc) ≤ MAX_CACHED_BLOCK_IDS_PER_AUTHOR_PER_COMMIT_VOTE_ROUND)%nat.

Lemma filter_size_le (P Q : HashValue * gmap HashValue CommitVote → Prop)
    `{!∀ x, Decision (P x), !∀ x, Decision (Q x)} (m1 m2 : gmap HashValue (gmap HashValue CommitVote)) :
  m1 ⊆ m2 → (∀ k x, m1 !! k = Some x → P (k, x) → Q (k, x)) → (size (filter P m1) ≤ size (filter Q m2))%nat.
Proof.
  intros Hsub HPQ. apply map_subseteq_size, map_subseteq_spec. intros k x [Hx HP]%map_lookup_filter_Some.
  apply map_lookup_filter_Some. split; [by eapply lookup_weaken|by apply HPQ].
Qed.

Lemma introduced_shrinks rc1 rc2 : rc1 ⊆ rc2 → introduced rc2 → introduced rc1.
Proof.
  intros Hsub (f & Hf & Hle). exists f. split; [intros id vs H; by eapply Hf, lookup_weaken|].
  intros a. etrans; [by apply (filter_size_le _ (λ '(id, _), f id = a) rc1 rc2)|done].
Qed.

Lemma introduced_empty : introduced ∅.
Proof.
  exists (λ x, x). split; [intros id vs; by rewrite lookup_empty|]. intros a. rewrite map_filter_empty, map_size_empty.
  unfold MAX_CACHED_BLOCK_IDS_PER_AUTHOR_PER_COMMIT_VOTE_ROUND. lia.
Qed.

Lemma introduced_insert rc id a vote :
  introduced rc → can_cache_commit_vote_for_block rc id a = true →
  introduced (<[id := <[a := vote]> (default ∅ (rc !! id))]> rc).
Proof.
  intros (f & Hf & Hle) Hcan. unfold can_cache_commit_vote_for_block in Hcan.
  destruct (rc !! id) as [vs|] eqn:Hid; simpl.
  - exists f. split.
    + intros id' vs' [[<- <-]|[_ H]]%lookup_insert_Some; [|by eapply Hf].
      apply lookup_insert_is_Some'. right. by eapply Hf.
    + intros b. etrans; [|apply (Hle b)]. rewrite map_filter_insert.
      case_decide; [|apply map_subseteq_size; rewrite map_filter_delete; apply delete_subseteq].
      rewrite map_size_insert_Some; [done|]. exists vs. by apply map_lookup_filter_Some.
  - rewrite bool_decide_false in Hcan by by intros [? ?]. simpl in Hcan. apply Nat.ltb_lt in Hcan.
    exists (λ x, if decide (x = id) then a else f x). split.
    + intros id' vs' [[<- <-]|[Hne H]]%lookup_insert_Some; [by rewrite decide_True, lookup_insert_eq|].
      rewrite decide_False by done. by eapply Hf.
    + intros b. rewrite map_filter_insert.
      assert (Hsame : (size (filter (λ '(x, _), (if decide (x = id) then a else f x) = b) rc)
        ≤ size (filter (λ '(x, _), f x = b) rc))%nat).
      { apply filter_size_le; [done|]. intros k x Hk. case_decide; [congruence|done]. }
      case_decide as Hb; rewrite decide_True in Hb by done.
      * subst b. rewrite map_size_insert_None by (apply map_lookup_filter_None; by left).
        apply le_n_S in Hcan. enough (size (filter (λ '(x, _), f x = a) rc) ≤
          size (filter (λ '(_, vs), is_Some ((vs : gmap HashValue CommitVote) !! a)) rc))%nat by lia.
        apply filter_size_le; [done|]. intros k x Hk <-. by eapply Hf.
      * etrans; [|apply (Hle b)]. etrans; [|apply Hsame]. apply map_subseteq_size. rewrite map_filter_delete.
        apply delete_subseteq.
Qed.

(** ** The queue the pipeline implements *)

Section invariant.
Context {BL : BlockInfoLaws} {LL : LedgerInfoLaws} {PL : PendingLaws} {QL : PipelineLaws} {GL : CommitProofLaws}.
Context (uniform : Prop) (config : PipelineConfig) (Hove : uniform → plc_order_vote_enabled config = true).

Abbreviation v := (es_verifier (plc_epoch_state config)).
Abbreviation item_ok := (item_ok uniform v).
Abbreviation vote_ok := (vote_ok uniform v).

(** The specification of what the pipeline sends, as a queue of batches of block
    ids: a batch joins at the end when it is first sent to execution; a commit takes
    one or more batches off the front, with all of their blocks in order, under a
    proof for the last of them; a reset empties it. *)
Definition accept (o : PipelineOutput) (p p' : list (list HashValue)) : Prop :=
  match o with
  | SendExecution blocks false => p' = p ++ [plb_id <$> blocks]
  | SendPersisting r =>
      (∃ pre, pre ≠ [] ∧ p = pre ++ p' ∧ plb_id <$> psr_blocks r = concat pre) ∧
      last (plb_id <$> psr_blocks r)
        = Some (bi_id (li_commit_info (liws_ledger_info (psr_commit_ledger_info r)))) ∧
      (uniform → liws_verify_signatures (psr_commit_ledger_info r) v = Ok tt)
  | SendResetAck => p' = []
  | _ => p' = p
  end.

Inductive accepted : list PipelineOutput → list (list HashValue) → Prop :=
| accepted_nil : accepted [] []
| accepted_snoc log o p p' : accepted log p → accept o p p' → accepted (log ++ [o]) p'.

(** Outputs that leave the queue alone. *)
Definition neutral (o : PipelineOutput) : bool :=
  match o with SendExecution _ false | SendPersisting _ | SendResetAck => false | _ => true end.

Lemma accepted_neutral log o p : neutral o = true → accepted log p → accepted (log ++ [o]) p.
Proof. intros Hn Hl. eapply accepted_snoc; [done|]. destruct o as [? []| | | | | | | | |]; done. Qed.

(** ** The invariant *)

(** The votes of the cache are checked, and under the keys of their commit info. *)
Definition votes_ok (c : VoteCache) : Prop :=
  ∀ r id vs a vote, cache_get c r id = Some vs → vs !! a = Some vote →
    bi_round (cv_commit_info vote) = r ∧ bi_id (cv_commit_info vote) = id ∧
    a = hash_of_address (cv_author vote) ∧ vote_ok vote.

(** No vote for an item of the buffer waits in the cache. *)
Definition apart (c : VoteCache) q : Prop :=
  ∀ i, i ∈ q → cache_get c (bi_round (item_commit_info i)) (item_hash i) = None.

Definition cache_ok (c : VoteCache) : Prop :=
  (∃ h, ∀ r, is_Some (c !! r) → h < r ∧ r < h + plc_max_pending_rounds_in_commit_vote_cache config) ∧
  ∀ r rc, c !! r = Some rc → introduced rc.

(** All but the buffer: what holds of the state when it should hold the items [q]. *)
Record manager_core q s : Prop := {
  mi_config : bfm_config s = config;
  mi_items : Forall item_ok q;
  mi_votes : votes_ok (bfm_commit_vote_cache s);
  mi_cache : cache_ok (bfm_commit_vote_cache s);
  mi_apart : apart (bfm_commit_vote_cache s) q;
  mi_proofs : map_Forall (λ _ p, liws_verify_signatures p v = Ok tt) (bfm_pending_commit_proofs s);
  mi_pending : (size (bfm_pending_commit_proofs s) ≤ MAX_PENDING_COMMIT_PROOFS)%nat;
  mi_round : bfm_highest_committed_round s + MAX_BACKLOG ≤ u64_max;
  mi_log : accepted (bfm_sent s) (ids_of <$> q);
}.

Definition manager_inv q s : Prop := manager_core q s ∧ repr (bfm_buffer s) (entries q).

(** The execution root is the first ordered item. *)
Definition root_exact q s : Prop := bfm_execution_root s = first_of is_ordered q.

Definition manager_ok s : Prop := ∃ q, manager_inv q s ∧ root_exact q s.

(** While the buffer changes: nothing ordered lies before the root. *)
Definition root_before (c : option HashValue) q : Prop :=
  match c with
  | None => True
  | Some k => ∃ q1 i q2, q = q1 ++ i :: q2 ∧ item_hash i = k ∧ Forall (λ j, is_ordered j = false) q1
  end.

Lemma first_of_before q : root_before (first_of is_ordered q) q.
Proof.
  induction q as [|i q IH]; [done|]. rewrite first_of_cons. destruct (is_ordered i) eqn:Hi.
  - exists [], i, q. done.
  - unfold root_before in *. destruct (first_of is_ordered q); [|done].
    destruct IH as (q1 & j & q2 & -> & Hj & Hq1). exists (i :: q1), j, q2. split; [done|]. split; [done|].
    by constructor.
Qed.

Lemma apart_shrinks c c' q : shrinks c c' → apart c' q → apart c q.
Proof.
  intros Hs Ha i Hi. specialize (Ha i Hi). destruct (cache_get c _ _) as [vs|] eqn:Hc; [|done].
  by rewrite (shrinks_get _ _ _ _ _ Hs Hc) in Ha.
Qed.

Lemma votes_ok_shrinks c c' : shrinks c c' → votes_ok c' → votes_ok c.
Proof. intros Hs Hv r id vs a vote Hc. by apply Hv, (shrinks_get c c'). Qed.

Lemma cache_ok_shrinks c c' : shrinks c c' → cache_ok c' → cache_ok c.
Proof.
  intros Hs [[h Hh] Hi]. split.
  - exists h. intros r [rc Hr]. destruct (Hs _ _ Hr) as (rc' & Hr' & _). eauto.
  - intros r rc Hr. destruct (Hs _ _ Hr) as (rc' & Hr' & Hsub). by eapply introduced_shrinks, Hi.
Qed.

(** Changes of the state the invariant does not see. *)
Lemma core_caches q s c p :
  manager_core q s → shrinks c (bfm_commit_vote_cache s) →
  map_Forall (λ _ p, liws_verify_signatures p v = Ok tt) p → (size p ≤ MAX_PENDING_COMMIT_PROOFS)%nat →
  manager_core q (with_caches c p s).
Proof.
  intros [] Hs Hp Hn. split; simpl; try done; [by eapply votes_ok_shrinks|by eapply cache_ok_shrinks|
    by eapply apart_shrinks].
Qed.

Lemma core_send q s o m :
  neutral o = true → manager_core q s → manager_core q (with_environment m (bfm_sent s ++ [o]) s).
Proof. intros Hn []. split; simpl; [done..|]. by apply accepted_neutral. Qed.

Lemma core_buffer q s b : manager_core q s → manager_core q (with_buffer b s).
Proof. by intros []. Qed.

Lemma core_roots q s e g : manager_core q s → manager_core q (with_roots e g s).
Proof. by intros []. Qed.

Lemma core_times q s e t : manager_core q s → manager_core q (with_times e t s).
Proof. by intros []. Qed.

Lemma core_block_rx q s rx : manager_core q s → manager_core q (with_block_rx rx s).
Proof. by intros []. Qed.

Lemma core_executor q s m : manager_core q s → manager_core q (with_environment m (bfm_sent s) s).
Proof. by intros []. Qed.

Lemma core_rounds q s x h l : h + MAX_BACKLOG ≤ u64_max → manager_core q s → manager_core q (with_rounds x h l s).
Proof. by intros ? []. Qed.

(** An item is replaced by one with the same blocks and round. *)
Lemma core_item q1 i i' q2 s :
  manager_core (q1 ++ i :: q2) s → item_ok i' → ids_of i' = ids_of i →
  bi_round (item_commit_info i') = bi_round (item_commit_info i) → manager_core (q1 ++ i' :: q2) s.
Proof.
  intros [? Hit ?? Hap ??? Hlog] Hi' Hids Hr. split; try done.
  - apply Forall_app in Hit as [H1 [_ H2]%Forall_cons]. apply Forall_app. split; [done|]. by constructor.
  - intros j [Hj|[->|Hj]%elem_of_cons]%elem_of_app; [apply Hap, elem_of_app; by left| |].
    + rewrite Hr, (item_hash_ids _ _ Hids). apply Hap, elem_of_app. right. by left.
    + apply Hap, elem_of_app. right. by right.
  - rewrite fmap_app in *. simpl in *. by rewrite Hids.
Qed.

Lemma runs_send o s (Q : unit → BufferManager → Prop) :
  Q tt (with_environment (bfm_block_buffer_manager s) (bfm_sent s ++ [o]) s) → runs (send o) s Q.
Proof. done. Qed.

(** ** Operations on the buffer *)

(** The buffer with the item of key [k] taken out between [q1] and [q2]. *)
Definition hole b (k : HashValue) q1 q2 : Prop :=
  ∀ i', item_hash i' = k →
    ∃ b', Buffer_set (Some k) i' b = Ok b' ∧ repr b' (entries (q1 ++ i' :: q2)).

Lemma runs_take q1 i q2 s (Q : BufferItem → BufferManager → Prop) :
  repr (bfm_buffer s) (entries (q1 ++ i :: q2)) →
  (∀ b, hole b (item_hash i) q1 q2 → Q i (with_buffer b s)) →
  runs (buffer_take (Some (item_hash i))) s Q.
Proof.
  intros Hb HQ. destruct (take_item _ _ _ _ Hb) as (b' & Ht & Hset).
  unfold runs, buffer_take, on_buffer. rewrite Ht. by apply HQ.
Qed.

Lemma runs_set k q1 i' q2 s (Q : unit → BufferManager → Prop) :
  hole (bfm_buffer s) k q1 q2 → item_hash i' = k →
  (∀ b, repr b (entries (q1 ++ i' :: q2)) → Q tt (with_buffer b s)) →
  runs (buffer_set (Some k) i') s Q.
Proof.
  intros Hh Hi HQ. destruct (Hh i' Hi) as (b' & Hs & Hb'). unfold runs, buffer_set, on_buffer.
  rewrite Hs. by apply HQ.
Qed.

Lemma runs_pop i q s (Q : option BufferItem → BufferManager → Prop) :
  repr (bfm_buffer s) (entries (i :: q)) →
  (∀ b, repr b (entries q) → Q (Some i) (with_buffer b s)) → runs buffer_pop s Q.
Proof.
  intros Hb HQ. destruct (pop_front_repr item_hash _ _ _ (entries q) Hb) as (b' & Hp & Hb'). unfold runs, buffer_pop, on_buffer.
  rewrite Hp. by apply HQ.
Qed.

(** ** The roots *)

Lemma advance_execution_root_runs q s :
  manager_inv q s → root_before (bfm_execution_root s) q →
  runs advance_execution_root s (λ _ s', manager_inv q s' ∧ root_exact q s').
Proof.
  intros [Hc Hb] Hr. unfold advance_execution_root. eapply runs_bind, runs_gets; [done|].
  eapply runs_bind, (runs_gets _ (first_of is_ordered q)).
  - destruct (bfm_execution_root s) as [k|]; [|by apply find_head].
    destruct Hr as (q1 & i & q2 & Hq & <- & Hq1). rewrite (find_at _ _ Hb q1 i q2 _ Hq).
    by rewrite Hq, first_of_skip.
  - eapply runs_bind, runs_modify, runs_ret. split; [|done]. split; [by apply core_roots|done].
Qed.

Lemma advance_signing_root_runs q s :
  manager_inv q s → root_exact q s →
  runs advance_signing_root s (λ _ s', manager_inv q s' ∧ root_exact q s').
Proof.
  intros [Hc Hb] Hr. unfold advance_signing_root. eapply runs_bind, runs_gets; [done|].
  destruct (find_is_ok _ _ Hb (match bfm_signing_root s with Some c => Some c | None => buf_head (bfm_buffer s) end)
    is_executed) as (r & Hf & Hex).
  eapply runs_bind, runs_gets; [exact Hf|]. eapply runs_bind, runs_modify.
  destruct Hex as [->|(i & Hi & Hx & ->)].
  { apply runs_ret. split; [|done]. split; [by apply core_roots|done]. }
  apply list_elem_of_split in Hi as (q1 & q2 & Hq).
  eapply runs_bind, runs_gets; [exact (get_at _ _ Hb q1 i q2 Hq)|]. destruct i as [|e| |]; [done| |done..].
  eapply runs_bind, runs_lift; [done|]. apply runs_send. split; [|done]. split; [|done].
  apply core_send; [done|]. by apply core_roots.
Qed.

(** ** Committing a prefix *)

Definition popped_root (ks : list HashValue) (c : option HashValue) : option HashValue :=
  match c with Some k => if bool_decide (k ∈ ks) then None else Some k | None => None end.

Lemma popped_root_cons k ks c :
  popped_root ks (if bool_decide (c = Some k) then None else c) = popped_root (k :: ks) c.
Proof.
  destruct c as [x|]; simpl; [|done]. case_bool_decide as H1.
  - injection H1 as ->. by rewrite bool_decide_true by by left.
  - simpl. rewrite (bool_decide_ext (x ∈ k :: ks) (x ∈ ks)); [done|]. rewrite elem_of_cons. naive_solver.
Qed.

Lemma advance_head_loop_runs fuel q1 a q2 s blocks now (Q : unit → BufferManager → Prop) :
  (length q1 < fuel)%nat → repr (bfm_buffer s) (entries (q1 ++ ItemAggregated a :: q2)) →
  Forall about_last q1 → about_last (ItemAggregated a) →
  (∀ b pub g, repr b (entries q2) → Forall (λ o, neutral o = true) pub →
     Q tt (with_times (bfm_end_epoch_timestamp s) now
       (with_environment (bfm_block_buffer_manager s)
         (bfm_sent s ++ pub ++
            [SendPersisting {| psr_blocks := blocks ++ concat (get_blocks <$> q1 ++ [ItemAggregated a]);
                               psr_commit_ledger_info := ai_commit_proof a; psr_callback := ai_callback a |}])
         (with_roots (popped_root (item_hash <$> q1 ++ [ItemAggregated a]) (bfm_execution_root s)) g
           (with_buffer b s))))) →
  runs (advance_head_loop fuel (item_hash (ItemAggregated a)) now blocks) s Q.
Proof.
  revert fuel s blocks. induction q1 as [|i q1 IH]; intros [|fuel] s blocks Hf Hb Hq1 Ha HQ; [simpl in *; lia| |simpl in *; lia|].
  - cbn [advance_head_loop]. eapply runs_bind, (runs_pop (ItemAggregated a) q2); [exact Hb|]. intros b Hb'.
    eapply runs_bind, runs_lift; [by apply item_block_id_Ok|]. eapply runs_bind, runs_modify.
    rewrite bool_decide_true by done. eapply runs_bind, runs_lift; [done|].
    destruct Ha as (bl & Hl & _). eapply runs_bind, runs_lift; [simpl in Hl; by rewrite Hl|].
    eapply runs_bind, runs_gets; [done|].
    assert (HQ' : ∀ pub g, Forall (λ o, neutral o = true) pub → _) by (intros pub g Hp; exact (HQ b pub g Hb' Hp)).
    cbn [app fmap list_fmap concat] in HQ'. rewrite app_nil_r in HQ'.
    assert (Hroot : popped_root [item_hash (ItemAggregated a)] (bfm_execution_root s)
      = (if bool_decide (bfm_execution_root s = Some (item_hash (ItemAggregated a))) then None
         else bfm_execution_root s)).
    { rewrite <- popped_root_cons. by case_bool_decide; [|destruct (bfm_execution_root s)]. }
    rewrite Hroot in HQ'.
    destruct (plc_has_publisher _); simpl.
    + eapply runs_bind, runs_send, runs_bind, runs_send, runs_modify. simpl. rewrite <- app_assoc.
      by apply (HQ' [PublishCommit (ai_commit_proof a)]), Forall_singleton.
    + eapply runs_bind, runs_ret, runs_bind, runs_send, runs_modify. by apply (HQ' []), Forall_nil.
  - apply Forall_cons in Hq1 as [Hi Hq1]. pose proof (hashes_NoDup _ _ Hb) as Hnd. simpl in Hnd.
    apply NoDup_cons in Hnd as [Hnot _].
    cbn [advance_head_loop]. eapply runs_bind, (runs_pop i (q1 ++ ItemAggregated a :: q2)); [exact Hb|]. intros b Hb'.
    eapply runs_bind, runs_lift; [by apply item_block_id_Ok|]. eapply runs_bind, runs_modify.
    rewrite bool_decide_false; [|intros Heq; apply Hnot; rewrite Heq, fmap_app; apply elem_of_app; right; by left].
    apply IH; [simpl in Hf; lia|done..|]. intros b' pub g Hb2 Hpub.
    cbn [bfm_end_epoch_timestamp bfm_block_buffer_manager bfm_sent bfm_execution_root with_roots with_buffer].
    rewrite popped_root_cons, <- app_assoc. exact (HQ b' pub g Hb2 Hpub).
Qed.

Lemma accepted_neutrals log pub p :
  Forall (λ o, neutral o = true) pub → accepted log p → accepted (log ++ pub) p.
Proof.
  induction pub as [|o pub IH] using rev_ind; intros Hp Hl; [by rewrite app_nil_r|].
  apply Forall_app in Hp as [Hp [Ho _]%Forall_cons]. rewrite app_assoc. apply accepted_neutral; [done|]. by apply IH.
Qed.

Lemma concat_ids q : plb_id <$> concat (get_blocks <$> q) = concat (ids_of <$> q).
Proof. induction q as [|i q IH]; [done|]. rewrite !fmap_cons. cbn [concat]. by rewrite fmap_app, IH. Qed.

(** The head advances over the aggregated item [a] that has taken the place of [i]. *)
Lemma advance_head_runs q1 i a q2 s now :
  manager_core (q1 ++ i :: q2) s → repr (bfm_buffer s) (entries (q1 ++ a :: q2)) →
  aggregated_ok uniform v a → ids_of a = ids_of i →
  runs (advance_head (item_hash a) now) s
    (λ _ s', manager_inv q2 s' ∧ bfm_execution_root s' = popped_root (item_hash <$> q1 ++ [a]) (bfm_execution_root s)).
Proof.
  intros [Hcfg Hit Hv Hc Hap Hp Hn Hr Hlog] Hb [Hl Ha] Hids. destruct a as [| | |a]; [done..|].
  assert (Hq1 : Forall about_last q1).
  { apply Forall_app in Hit as [Hit _]. eapply Forall_impl; [exact Hit|]. by intros j [[? _] _]. }
  apply Forall_app in Hit as [_ [_ Hit]%Forall_cons].
  apply (advance_head_loop_runs _ q1 a q2); [|done..|].
  { rewrite (repr_len _ _ Hb). unfold entries. rewrite length_fmap, length_app. lia. }
  intros b pub g Hb' Hpub. split; [|done]. split; [|done]. split; simpl; try done.
  - intros j Hj. apply Hap, elem_of_app. right. by right.
  - rewrite app_assoc. eapply accepted_snoc; [by apply accepted_neutrals|].
    split_and!; [| |exact Ha]; cbn [psr_blocks psr_commit_ledger_info app].
    + exists (ids_of <$> q1 ++ [ItemAggregated a]). split_and!; [by destruct q1| |apply concat_ids].
      rewrite !fmap_app. simpl. by rewrite <- Hids, <- app_assoc.
    + destruct Hl as (bl & Hbl & Hid & _). rewrite fmap_app, concat_app. simpl in *.
      by rewrite app_nil_r, fmap_last, last_app, Hbl, Hid.
Qed.

Lemma popped_before q1 a q2 c :
  root_before c (q1 ++ a :: q2) → root_before (popped_root (item_hash <$> q1 ++ [a]) c) q2.
Proof.
  destruct c as [k|]; [|done]. simpl. intros (p1 & i & p2 & Heq & Hk & Hp1). case_bool_decide as Hin; [done|].
  replace (q1 ++ a :: q2) with ((q1 ++ [a]) ++ q2) in Heq by (by rewrite <- app_assoc).
  apply app_eq_inv in Heq as [(l & H1 & H2)|(l & -> & ->)].
  - destruct l as [|j l]; simpl in H2.
    + exists [], i, p2. by rewrite H2.
    + injection H2 as <- _. destruct Hin. rewrite H1, <- Hk. apply list_elem_of_fmap_2, elem_of_app. right. by left.
  - exists l, i, p2. apply Forall_app in Hp1 as [_ Hl]. done.
Qed.

Lemma first_of_app p q1 q2 :
  first_of p (q1 ++ q2) = match first_of p q1 with Some k => Some k | None => first_of p q2 end.
Proof. induction q1 as [|i q1 IH]; [done|]. simpl. rewrite !first_of_cons. by destruct (p i). Qed.

Lemma first_of_elem p q k : first_of p q = Some k → k ∈ item_hash <$> q.
Proof.
  induction q as [|i q IH]; [done|]. rewrite first_of_cons. destruct (p i).
  - intros [= <-]. by left.
  - intros H. right. by apply IH.
Qed.

(** A root that is not committed stays the first ordered item. *)
Lemma popped_exact q1 i a q2 k :
  item_hash a = item_hash i →
  popped_root (item_hash <$> q1 ++ [a]) (first_of is_ordered (q1 ++ i :: q2)) = Some k →
  first_of is_ordered q2 = Some k.
Proof.
  intros Hh. replace (q1 ++ i :: q2) with ((q1 ++ [i]) ++ q2) by (by rewrite <- app_assoc). rewrite first_of_app.
  destruct (first_of is_ordered (q1 ++ [i])) as [x|] eqn:Hx; simpl.
  - apply first_of_elem in Hx. rewrite fmap_app in Hx |- *. simpl in *. rewrite Hh, bool_decide_true by done. done.
  - destruct (first_of is_ordered q2); simpl; [|done]. by case_bool_decide.
Qed.

(** ** Execution *)

Lemma drain_pending_runs r s (Q : option LedgerInfoWithSignatures → BufferManager → Prop) :
  r < u64_max →
  (∀ pr proofs, (∀ x, pr = Some x → ∃ r', bfm_pending_commit_proofs s !! r' = Some x) →
     proofs ⊆ bfm_pending_commit_proofs s → Q pr (with_caches (bfm_commit_vote_cache s) proofs s)) →
  runs (drain_pending_commit_proof_till r) s Q.
Proof.
  intros Hr HQ. unfold drain_pending_commit_proof_till. eapply runs_bind, runs_lift; [apply add_u64_fits; lia|].
  eapply runs_bind, runs_gets; [done|]. eapply runs_bind, runs_modify, runs_ret. apply HQ.
  - intros x (r' & _ & [Hx _]%map_lookup_filter_Some)%bind_Some. by exists r'.
  - apply map_filter_subseteq.
Qed.

Lemma note_epoch_end_times blocks s :
  ∃ e, note_epoch_end blocks s = with_times e (bfm_previous_commit_time s) s.
Proof.
  unfold note_epoch_end. destruct (bfm_end_epoch_timestamp s) as [t|] eqn:Ht; [exists (Some t)|].
  - destruct s; simpl in *; by subst.
  - destruct (head _) as [bl|]; [by eexists|]. exists None. destruct s; simpl in *; by subst.
Qed.

(** The results of a batch: they are those of the batch, with the numbers of the
    blocks assigned, and the commit info they give is the one of any commit proof
    received for the batch. *)
Definition executes s (id : HashValue) (blocks : list PipelinedBlock) i : Prop :=
  ∃ o block n ci, i = ItemOrdered o ∧ results_of o blocks block n ci ∧
    executed_commit_info block (bfm_end_epoch_timestamp (note_epoch_end blocks s))
      (resolve_epoch_block_info block (note_epoch_end blocks s)) = Ok ci ∧
    (∀ r p, bfm_pending_commit_proofs s !! r = Some p →
       bi_id (li_commit_info (liws_ledger_info p)) = id → li_commit_info (liws_ledger_info p) = ci) ∧
    bi_round (item_commit_info i) < u64_max.

Lemma results_ids o blocks block n ci : results_of o blocks block n ci → plb_id <$> blocks = plb_id <$> oi_ordered_blocks o.
Proof.
  intros [Hf _ _ _ _]. induction Hf as [|b1 b2 l1 l2 [Hid _] _ IH]; [done|]. rewrite !fmap_cons. by rewrite Hid, IH.
Qed.

Lemma results_last o blocks block n ci first :
  results_of o blocks block n ci → last (oi_ordered_blocks o) = Some first → plb_round first = plb_round block.
Proof.
  intros [Hf Hl _ _ _] Hb. assert (Hr : plb_round <$> blocks = plb_round <$> oi_ordered_blocks o).
  { clear -Hf. induction Hf as [|b1 b2 l1 l2 [_ Hr] _ IH]; [done|]. rewrite !fmap_cons. by rewrite Hr, IH. }
  apply (f_equal last) in Hr. rewrite !fmap_last, Hl, Hb in Hr. simpl in Hr. congruence.
Qed.

(** A pending proof for the item, if there is one, is applied to what the execution
    gave. *)
Lemma apply_pending_ok pending i' ci id :
  (∀ x, pending = Some x → liws_verify_signatures x v = Ok tt ∧
     (bi_id (li_commit_info (liws_ledger_info x)) = id → li_commit_info (liws_ledger_info x) = ci)) →
  item_commit_info i' = ci → is_ordered i' = false → (item_ok i' ∨ aggregated_ok uniform v i') →
  ∃ i2, match pending with
        | Some commit_proof =>
            if negb (is_aggregated i')
               && bool_decide (bi_id (li_commit_info (liws_ledger_info commit_proof)) = id)
            then try_advance_to_aggregated_with_ledger_info commit_proof i'
            else Ok i'
        | None => Ok i'
        end = Ok i2 ∧ ids_of i2 = ids_of i' ∧
    (is_aggregated i2 = false ∧ i2 = i' ∧ item_ok i2 ∨ is_aggregated i2 = true ∧ aggregated_ok uniform v i2).
Proof.
  intros Hp Hci Hord Hi. assert (Hsame : ∃ i2, Ok (E := Empty_set) i' = Ok i2 ∧ ids_of i2 = ids_of i' ∧
    (is_aggregated i2 = false ∧ i2 = i' ∧ item_ok i2 ∨ is_aggregated i2 = true ∧ aggregated_ok uniform v i2)).
  { exists i'. split; [done|]. split; [done|]. destruct Hi as [Hi|Hi]; [left|right].
    - destruct i'; [done..|]. by destruct Hi as [[_ []] _].
    - destruct i'; [by destruct Hi..|done]. }
  destruct pending as [x|]; [|done]. destruct (negb (is_aggregated i')) eqn:Hag; [|done].
  case_bool_decide as Hid; [|done]. destruct (Hp x eq_refl) as [Hver Heq].
  destruct Hi as [Hi|[_ Hi]]; [|by destruct i'].
  destruct (advance_with_ledger_info_ok uniform v x i' Hi) as (i2 & Hok & Hids & [(H & _)|(_ & H)]).
  - unfold agrees. destruct i'; [done|..]; rewrite Hci; symmetry; by apply Heq.
  - done.
  - congruence.
  - exists i2. split; [done|]. split; [done|]. right. split; [|done]. by destruct i2, H.
Qed.

Lemma before_replace c q1 i i' q2 :
  item_hash i' = item_hash i → is_ordered i' = false →
  root_before c (q1 ++ i :: q2) → root_before c (q1 ++ i' :: q2).
Proof.
  intros Hh Hord. destruct c as [k|]; [|done]. intros (p1 & j & p2 & Heq & Hk & Hp1).
  apply app_eq_inv in Heq as [(l & -> & H2)|(l & -> & H2)].
  - destruct l as [|x l]; simpl in H2; injection H2 as -> ->.
    + exists p1, i', q2. rewrite app_nil_r. by rewrite Hh.
    + exists p1, x, (l ++ i' :: q2). by rewrite <- app_assoc.
  - destruct l as [|x l]; simpl in H2; injection H2 as -> ->.
    + exists q1, i', p2. rewrite app_nil_r in Hp1. by rewrite Hh.
    + exists (q1 ++ i' :: l), j, p2. rewrite <- app_assoc. split; [done|]. split; [done|].
      apply Forall_app in Hp1 as [H1 [_ H2]%Forall_cons]. apply Forall_app. split; [done|]. by constructor.
Qed.

Lemma advance_executed_runs q1 i q2 s blocks now :
  manager_inv (q1 ++ i :: q2) s → root_exact (q1 ++ i :: q2) s → executes s (item_hash i) blocks i →
  runs (advance_executed blocks (Some (item_hash i)) (item_hash i) now) s
    (λ _ s', ∃ q', manager_inv q' s' ∧ root_before (bfm_execution_root s') q').
Proof.
  intros [Hc Hb] Hr (o & block & n & ci & -> & Hres & Hci & Hpend & Hround). unfold advance_executed.
  eapply runs_bind, runs_modify. destruct (note_epoch_end_times blocks s) as [e He].
  eapply runs_bind, runs_lift; [by rewrite (ro_last _ _ _ _ _ Hres)|]. eapply runs_bind, runs_gets; [done|].
  set (ebi := resolve_epoch_block_info block _) in *. rewrite He in *. clearbody ebi. cbn [with_times bfm_end_epoch_timestamp] in Hci.
  eapply runs_bind, (runs_take q1 (ItemOrdered o) q2); [exact Hb|]. intros b1 Hhole.
  pose proof (mi_config _ _ Hc) as Hcfg. pose proof (mi_items _ _ Hc) as Hit.
  apply Forall_app in Hit as [_ [[Hi _] _]%Forall_cons].
  destruct (advance_to_executed_or_aggregated_ok uniform v o blocks block n ci e
    (plc_order_vote_enabled (bfm_config s)) ebi Hi Hres Hci) as (i' & Hadv & Hbl & Hi'ci & Hord & Hi').
  { rewrite Hcfg. exact Hove. }
  eapply runs_bind, runs_gets; [unfold validators; cbn [bfm_config with_times with_buffer bfm_end_epoch_timestamp];
    rewrite Hcfg; rewrite Hcfg in Hadv; exact Hadv|].
  eapply runs_bind, drain_pending_runs; [exact Hround|]. intros pr proofs Hpr Hsub.
  cbn [bfm_pending_commit_proofs bfm_commit_vote_cache with_buffer with_times] in Hpr, Hsub |- *.
  destruct (apply_pending_ok pr i' ci (item_hash (ItemOrdered o))) as (i2 & Hap & Hids & Hcase); [|done..|].
  { intros x Hx. destruct (Hpr x Hx) as [r' Hr']. split; [by apply (mi_proofs _ _ Hc r')|]. by apply (Hpend r'). }
  eapply runs_bind, runs_lift; [exact Hap|].
  assert (Hids' : ids_of i2 = ids_of (ItemOrdered o)).
  { rewrite Hids. unfold ids_of. rewrite Hbl. simpl. by eapply results_ids. }
  pose proof (item_hash_ids _ _ Hids') as Hh.
  eapply runs_bind, (runs_set _ q1 i2 q2); [exact Hhole|done|]. intros b2 Hb2.
  assert (Hcore : manager_core (q1 ++ ItemOrdered o :: q2)
    (with_buffer b2 (with_caches (bfm_commit_vote_cache s) proofs
      (with_buffer b1 (with_times e (bfm_previous_commit_time s) s))))).
  { apply core_buffer, core_caches; [by apply core_buffer, core_times|apply shrinks_refl| |].
    - intros r x Hx. apply (mi_proofs _ _ Hc r). by eapply lookup_weaken.
    - etrans; [by apply map_subseteq_size|apply (mi_pending _ _ Hc)]. }
  destruct Hcase as [(Hna & -> & Hok)|[Hagg Hok]].
  - rewrite Hna. apply runs_ret. exists (q1 ++ i' :: q2). split; [split; [|exact Hb2]|].
    + apply (core_item q1 (ItemOrdered o)); [done..|]. rewrite Hi'ci.
      destruct Hi as [(first & Hf & _ & ->) _]. rewrite (results_last _ _ _ _ _ _ Hres Hf).
      by apply executed_commit_info_fields in Hci as (_ & ? & _).
    + apply (before_replace _ q1 (ItemOrdered o)); [done..|]. cbn. rewrite Hr. apply first_of_before.
  - rewrite Hagg, <- Hh. eapply runs_mono; [by apply (advance_head_runs q1 (ItemOrdered o) i2 q2)|].
    intros _ s' [Hinv' Hroot]. exists q2. split; [done|]. rewrite Hroot. apply popped_before.
    apply (before_replace _ q1 (ItemOrdered o)); [done| |].
    + by destruct i2.
    + cbn. rewrite Hr. apply first_of_before.
Qed.

Lemma process_execution_response_runs q s r now :
  manager_inv q s → root_exact q s →
  (∀ blocks i, er_inner r = Ok blocks → Buffer_get (bfm_buffer s) (Some (er_block_id r)) = Ok i →
     find_elem_by_key (bfm_buffer s) (bfm_execution_root s) (er_block_id r) = Some (er_block_id r) →
     executes s (er_block_id r) blocks i) →
  (∀ m, er_inner r ≠ Panic m) →
  runs (process_execution_response r now) s
    (λ _ s', ∃ q', manager_inv q' s' ∧ root_before (bfm_execution_root s') q').
Proof.
  intros Hinv Hr Hex Hnp. pose proof Hinv as [Hc Hb]. unfold process_execution_response.
  assert (Hstay : ∃ q', manager_inv q' s ∧ root_before (bfm_execution_root s) q').
  { exists q. split; [done|]. rewrite Hr. apply first_of_before. }
  eapply runs_bind, runs_gets; [done|].
  destruct (find_key_at _ _ Hb (bfm_execution_root s) (er_block_id r)) as [->|[Hf (q1 & i & q2 & -> & Hk)]].
  { by apply runs_ret. }
  rewrite Hf. destruct (er_inner r) as [blocks|e|m] eqn:Hin; [|by apply runs_ret|by destruct (Hnp m)].
  pose proof (get_at _ _ Hb q1 i q2 eq_refl) as Hget. rewrite Hk in Hget.
  specialize (Hex blocks i eq_refl Hget Hf). eapply runs_bind, runs_gets; [exact Hget|].
  assert (Hal : about_last i).
  { pose proof (mi_items _ _ Hc) as Hit. by apply Forall_app in Hit as [_ [[[? _] _] _]%Forall_cons]. }
  eapply runs_bind, runs_lift; [by apply item_block_id_Ok|]. rewrite Hk, bool_decide_false by tauto.
  rewrite <- Hk in *. by apply (advance_executed_runs q1 i q2).
Qed.

(** ** Signing *)

Lemma first_of_replace q1 i i' q2 :
  item_hash i' = item_hash i → is_ordered i' = is_ordered i →
  first_of is_ordered (q1 ++ i' :: q2) = first_of is_ordered (q1 ++ i :: q2).
Proof. intros Hh Ho. rewrite !first_of_app, !first_of_cons. by rewrite Hh, Ho. Qed.

Lemma runs_broadcast message now s (Q : option N → BufferManager → Prop) :
  (∀ h, Q h s) →
  (∀ h, Q h (with_environment (bfm_block_buffer_manager s) (bfm_sent s ++ [Broadcast message]) s)) →
  runs (do_reliable_broadcast message now) s Q.
Proof.
  intros H1 H2. unfold do_reliable_broadcast. eapply runs_bind, runs_gets; [done|].
  destruct (plc_observer_enabled _); [by apply runs_ret|]. by eapply runs_bind, runs_send, runs_ret.
Qed.

Lemma process_signing_response_runs q s r now :
  manager_inv q s → root_exact q s →
  runs (process_signing_response r now) s (λ _ s', ∃ q', manager_inv q' s' ∧ root_exact q' s').
Proof.
  intros [Hc Hb] Hr. unfold process_signing_response.
  destruct (sgp_signature_result r) as [sig|]; [|apply runs_ret; by exists q].
  eapply runs_bind, runs_gets; [done|]. set (id := bi_id _).
  destruct (find_key_at _ _ Hb (bfm_signing_root s) id) as [->|[-> (q1 & i & q2 & -> & Hk)]];
    [apply runs_ret; by exists q|].
  rewrite <- Hk. eapply runs_bind, (runs_take q1 i q2); [exact Hb|]. intros b1 Hhole.
  pose proof (mi_items _ _ Hc) as Hit. apply Forall_app in Hit as [_ [Hi _]%Forall_cons].
  destruct (is_executed i) eqn:Hx; cycle 1.
  { apply (runs_set _ q1 i q2); [exact Hhole|done|]. intros b2 Hb2. exists (q1 ++ i :: q2).
    split; [|exact Hr]. split; [by apply core_buffer, core_buffer|exact Hb2]. }
  destruct i as [|e| |]; [done| |done..].
  destruct (advance_to_signed_ok uniform v (plc_author (bfm_config s)) sig e Hi) as (si & Hs & Hids & Hci & Hok).
  eapply runs_bind, runs_gets; [exact Hs|]. eapply runs_bind, runs_lift; [done|].
  assert (Hset : ∀ h s1, bfm_buffer s1 = b1 → manager_core (q1 ++ ItemExecuted e :: q2) s1 →
    bfm_execution_root s1 = bfm_execution_root s →
    runs (buffer_set (Some (item_hash (ItemExecuted e))) (ItemSigned (with_rb_handle h si))) s1
      (λ _ s', ∃ q', manager_inv q' s' ∧ root_exact q' s')).
  { intros h s1 Hs1 Hc1 Hr1. eapply (runs_set _ q1 _ q2); [rewrite Hs1; exact Hhole| |].
    - by apply (item_hash_ids (ItemSigned si)).
    - intros b2 Hb2. eexists. split; [split; [|exact Hb2]|].
      + apply core_buffer. apply (core_item q1 (ItemExecuted e)); [done|exact Hok|done|]. by rewrite <- Hci.
      + unfold root_exact in *. cbn. rewrite Hr1, Hr. symmetry. apply first_of_replace; [|done].
        by apply (item_hash_ids (ItemSigned si)). }
  eapply runs_bind, runs_broadcast; intros h; apply Hset; try done; [by apply core_buffer|].
  apply core_send; [done|]. by apply core_buffer.
Qed.

(** ** Commit votes *)

(** After a commit message: nothing is aggregated, or the item of the given key. *)
Definition commit_post (k : option HashValue) s : Prop :=
  match k with
  | None => ∃ q, manager_inv q s ∧ root_exact q s
  | Some k => ∃ q1 i a q2, manager_core (q1 ++ i :: q2) s ∧ repr (bfm_buffer s) (entries (q1 ++ a :: q2)) ∧
      aggregated_ok uniform v a ∧ ids_of a = ids_of i ∧ item_hash a = k ∧ root_exact (q1 ++ i :: q2) s
  end.

Lemma cache_commit_vote_runs q s vote (Q : bool → BufferManager → Prop) :
  manager_core q s → vote_ok vote → bi_id (cv_commit_info vote) ∉ item_hash <$> q →
  (∀ x c, manager_core q (with_caches c (bfm_pending_commit_proofs s) s) →
     Q x (with_caches c (bfm_pending_commit_proofs s) s)) →
  runs (cache_commit_vote vote) s Q.
Proof.
  intros Hc Hv Hid HQ. unfold runs, cache_commit_vote. rewrite (mi_config _ _ Hc).
  set (r := bi_round _). set (h := bfm_highest_committed_round s). set (w := saturating_add h _).
  set (c0 := filter _ (bfm_commit_vote_cache s)).
  assert (Hc0 : manager_core q (with_caches c0 (bfm_pending_commit_proofs s) s)).
  { apply core_caches; [done|apply shrinks_filter|apply (mi_proofs _ _ Hc)|apply (mi_pending _ _ Hc)]. }
  unfold classify_commit_vote_round. destruct (N.leb_spec r h) as [|Hlo]; [by apply HQ|].
  destruct (N.leb_spec w r) as [|Hhi]; [by apply HQ|].
  assert (Hwin : ∀ r', is_Some (c0 !! r') ∨ r' = r →
    h < r' ∧ r' < h + plc_max_pending_rounds_in_commit_vote_cache config).
  { assert (w ≤ h + plc_max_pending_rounds_in_commit_vote_cache config) by (unfold w, saturating_add; lia).
    intros r' [[rc (_ & ? & ?)%map_lookup_filter_Some]| ->]; lia. }
  assert (Hrc : introduced (default ∅ (c0 !! r))).
  { destruct (c0 !! r) as [rc|] eqn:Hrc; simpl; [|apply introduced_empty]. by apply (mi_cache _ _ Hc0) in Hrc. }
  set (rc := default ∅ (c0 !! r)) in *.
  assert (Hget : ∀ id, cache_get c0 r id = rc !! id).
  { intros id. unfold cache_get, rc. destruct (c0 !! r); simpl; [done|by rewrite lookup_empty]. }
  assert (Hins : ∀ rc', introduced rc' →
    (∀ id vs, rc' !! id = Some vs → rc !! id = Some vs ∨
       id = bi_id (cv_commit_info vote) ∧ ∀ a x, vs !! a = Some x →
         (a = hash_of_address (cv_author vote) ∧ x = vote) ∨ ∃ vs0, rc !! id = Some vs0 ∧ vs0 !! a = Some x) →
    manager_core q (with_caches (<[r := rc']> c0) (bfm_pending_commit_proofs s) s)).
  { intros rc' Hint Hrc'. destruct Hc0 as [? ? Hv0 [_ Hi0] Ha0 ? ? ? ?]. simpl in *. split; simpl; try done.
    - intros r' id vs a x. unfold cache_get. destruct (decide (r' = r)) as [->|Hne];
        [|rewrite lookup_insert_ne by done; apply Hv0].
      rewrite lookup_insert_eq. simpl. intros Hvs Hx. destruct (Hrc' _ _ Hvs) as [H|[-> H]].
      + apply (Hv0 r id vs); [by rewrite Hget|done].
      + destruct (H _ _ Hx) as [[-> ->]|(vs0 & H0 & H1)]; [done|]. apply (Hv0 r _ vs0); [by rewrite Hget|done].
    - split; [exists h; intros r' Hr'|].
      + apply Hwin. apply lookup_insert_is_Some in Hr' as [->|[_ ?]]; [by right|by left].
      + intros r' x [[<- <-]|[_ Hx]]%lookup_insert_Some; [done|]. by apply (Hi0 r').
    - intros i Hi. specialize (Ha0 i Hi). unfold cache_get. destruct (decide (bi_round (item_commit_info i) = r)) as [Hri|Hne];
        [|by rewrite lookup_insert_ne].
      rewrite Hri, lookup_insert_eq. simpl. destruct (rc' !! item_hash i) as [vs|] eqn:Hvs; [|done].
      rewrite Hri, Hget in Ha0. destruct (Hrc' _ _ Hvs) as [H|[H _]]; [congruence|].
      destruct Hid. rewrite <- H. by apply list_elem_of_fmap_2. }
  destruct (can_cache_commit_vote_for_block rc _ _) eqn:Hcan; apply HQ.
  - apply Hins; [by apply introduced_insert|].
    intros id vs [[<- <-]|[_ Hvs]]%lookup_insert_Some; [right|by left]. split; [done|].
    intros a x [[<- <-]|[_ Hx]]%lookup_insert_Some; [by left|right].
    destruct (rc !! _) as [vs0|] eqn:Hvs0; simpl in Hx; [by exists vs0|by rewrite lookup_empty in Hx].
  - apply Hins; [done|]. intros id vs Hvs. by left.
Qed.

Lemma item_ok_kind i : item_ok i → is_aggregated i = false.
Proof. destruct i; [done..|]. by intros [[_ []] _]. Qed.

Lemma aggregated_ok_kind i : aggregated_ok uniform v i → is_aggregated i = true.
Proof. destruct i; [by intros [_ []]..|done]. Qed.

Lemma add_signatures_pre votes i :
  (∀ vote, vote ∈ votes → vote_ok vote) → item_pre uniform v i → item_pre uniform v (add_signatures votes i).
Proof.
  revert i. induction votes as [|vote votes IH]; intros i Hv Hi; [done|]. simpl. apply IH.
  - intros x Hx. apply Hv. by right.
  - apply add_signature_pre; [|done]. apply Hv. by left.
Qed.

Lemma add_signatures_same votes i :
  let i' := add_signatures votes i in
  get_blocks i' = get_blocks i ∧ item_commit_info i' = item_commit_info i ∧ is_ordered i' = is_ordered i.
Proof.
  simpl. revert i. induction votes as [|vote votes IH]; intros i; [done|]. simpl.
  destruct (IH (add_signature_if_matched vote i).2) as (-> & -> & ->).
  by destruct (add_signature_same vote i) as (-> & -> & -> & _).
Qed.

(** What is cached for an item of the buffer does not match it. *)
Lemma add_signatures_apart c q i r votes :
  votes_ok c → apart c q → i ∈ q → item_pre uniform v i →
  (∀ vote, vote ∈ votes → ∃ vs a, cache_get c r (item_hash i) = Some vs ∧ vs !! a = Some vote) →
  add_signatures votes i = i.
Proof.
  intros Hv Ha Hi Hpre. induction votes as [|vote votes IH]; intros Hvs; [done|].
  destruct (Hvs vote) as (vs & a & Hg & Hx); [by left|]. destruct (Hv _ _ _ _ _ Hg Hx) as (Hr & _).
  unfold add_signatures. simpl. rewrite (add_signature_round uniform v); [|done|].
  - apply IH. intros x Hx'. apply Hvs. by right.
  - intros Heq. rewrite Hr in Heq. subst r. specialize (Ha i Hi). congruence.
Qed.

Lemma add_signature_refused vote i : (add_signature_if_matched vote i).1 = false → (add_signature_if_matched vote i).2 = i.
Proof. unfold add_signature_if_matched. by destruct i; simpl; repeat case_match. Qed.

Lemma process_commit_vote_runs q s vote :
  manager_inv q s → root_exact q s → vote_ok vote → runs (process_commit_vote vote) s commit_post.
Proof.
  intros [Hc Hb] Hr Hv. unfold process_commit_vote. eapply runs_bind, runs_gets; [done|].
  rewrite (find_key_head _ _ _ Hb). case_decide as Hin; cycle 1.
  { eapply runs_bind, (cache_commit_vote_runs q); [done..|]. intros x c Hcc.
    eapply runs_bind, runs_send, runs_ret. exists q. split; [|done]. split; [|done].
    destruct x; by apply core_send. }
  apply elem_of_hashes in Hin as (q1 & i & q2 & -> & Hk). rewrite <- Hk.
  eapply runs_bind, (runs_take q1 i q2); [exact Hb|]. intros b1 Hhole. unfold add_signature_if_matched_from_cache.
  pose proof (mi_items _ _ Hc) as Hit. apply Forall_app in Hit as [_ [Hi _]%Forall_cons].
  eapply runs_bind, runs_bind, drain_cached_runs. intros votes c Hsh _ Hvotes. apply runs_ret.
  rewrite (add_signatures_apart (bfm_commit_vote_cache s) (q1 ++ i :: q2) i (bi_round (cv_commit_info vote)));
    [|apply (mi_votes _ _ Hc)|apply (mi_apart _ _ Hc)|apply elem_of_app; right; by left|apply Hi|done].
  pose proof (add_signature_pre uniform v vote i Hv (proj1 Hi)) as Hpre.
  pose proof (add_signature_same vote i) as (Hbl & Hci & Hord & _).
  pose proof (add_signature_refused vote i) as Href.
  destruct (add_signature_if_matched vote i) as [added i']. simpl in Hpre, Hbl, Hci, Hord, Href.
  assert (Hids : ids_of i' = ids_of i) by (unfold ids_of; by rewrite Hbl).
  pose proof (item_hash_ids _ _ Hids) as Hh.
  set (s1 := with_caches c _ _).
  assert (Hc1 : manager_core (q1 ++ i :: q2) s1).
  { apply core_caches; [by apply core_buffer|done|apply (mi_proofs _ _ Hc)|apply (mi_pending _ _ Hc)]. }
  assert (Hback : ∀ x m b, item_ok x → ids_of x = ids_of i → item_commit_info x = item_commit_info i →
    is_ordered x = is_ordered i → repr b (entries (q1 ++ x :: q2)) →
    commit_post None (with_buffer b (with_environment (bfm_block_buffer_manager s1) (bfm_sent s1 ++ [Reply m]) s1))).
  { intros x m b Hx Hxi Hxc Hxo Hbx. exists (q1 ++ x :: q2). split; [split; [|done]|].
    - apply core_buffer, core_send; [done|]. apply (core_item q1 i); [done..|by rewrite Hxc].
    - unfold root_exact in *. cbn. rewrite Hr. symmetry. apply first_of_replace; [by apply item_hash_ids|done]. }
  destruct added; simpl.
  - destruct (try_advance_to_aggregated_ok uniform v i' Hpre) as (i2 & Hadv & Hids2 & Hcase).
    assert (Hh2 : item_hash i2 = item_hash i) by (rewrite <- Hh; by apply item_hash_ids).
    eapply runs_bind, runs_bind, runs_send, runs_gets;
      [unfold validators; cbn; rewrite (mi_config _ _ Hc); exact Hadv|].
    eapply runs_bind, (runs_set _ q1 i2 q2); [exact Hhole|done|]. intros b2 Hb2. apply runs_ret.
    destruct Hcase as [[Hok ->]|Hagg].
    + rewrite (item_ok_kind i' Hok). exact (Hback i' CommitMessageAck b2 Hok Hids Hci Hord Hb2).
    + rewrite (aggregated_ok_kind i2 Hagg).
      exists q1, i, i2, q2. split_and!; [by apply core_buffer, core_send|done|done|congruence|congruence|done].
  - rewrite (Href eq_refl) in *. eapply runs_bind, runs_bind, runs_send, runs_ret.
    eapply runs_bind, (runs_set _ q1 i q2); [exact Hhole|done|]. intros b2 Hb2. apply runs_ret.
    rewrite (item_ok_kind i Hi). by apply (Hback i CommitMessageNack b2).
Qed.

(** ** Commit decisions *)

Lemma first_round_Some {A} (m : gmap Round A) : m ≠ ∅ → is_Some (first_round m).
Proof.
  intros Hm. unfold first_round. destruct (map_to_list m) as [|[r x] l] eqn:Hl; [|by eexists].
  by apply map_to_list_empty_iff in Hl.
Qed.

Lemma first_round_elem {A} (m : gmap Round A) r : first_round m = Some r → is_Some (m !! r).
Proof.
  unfold first_round. intros H. apply elem_of_dom. rewrite <- (list_to_map_to_list m), dom_list_to_map_L.
  apply elem_of_list_to_set. destruct ((map_to_list m).*1) as [|x l]; [done|]. injection H as <-.
  induction l as [|y l IH]; simpl; [by left|].
  destruct (N.min_spec y (foldr N.min x l)) as [[_ ->]|[_ ->]]; [right; by left|].
  apply elem_of_cons in IH as [->|IH]; [by left|]. right. by right.
Qed.

Lemma map_size_insert_le {A} (m : gmap Round A) r x : (size (<[r := x]> m) ≤ S (size m))%nat.
Proof. rewrite map_size_insert. destruct (m !! r); simpl; lia. Qed.

Lemma try_add_pending_runs proof s (Q : bool → BufferManager → Prop) :
  (size (bfm_pending_commit_proofs s) ≤ MAX_PENDING_COMMIT_PROOFS)%nat →
  (∀ x proofs, (∀ r p, proofs !! r = Some p → bfm_pending_commit_proofs s !! r = Some p ∨ p = proof) →
     (size proofs ≤ MAX_PENDING_COMMIT_PROOFS)%nat → Q x (with_caches (bfm_commit_vote_cache s) proofs s)) →
  runs (try_add_pending_commit_proof proof) s Q.
Proof.
  intros Hsz HQ. unfold runs, try_add_pending_commit_proof. set (ps := bfm_pending_commit_proofs s) in *.
  assert (Hsame : ∀ x, Q x s).
  { intros x. specialize (HQ x ps). destruct s. apply HQ; auto. }
  destruct (_ <? _); [|done]. destruct (Nat.leb_spec MAX_PENDING_COMMIT_PROOFS (size ps)) as [Hfull|Hroom].
  - destruct (first_round_Some ps) as [oldest Hold].
    { intros Hz. rewrite Hz, map_size_empty in Hfull. unfold MAX_PENDING_COMMIT_PROOFS in Hfull. lia. }
    rewrite Hold. destruct (_ <=? oldest); [done|]. apply HQ.
    + intros r p [[<- <-]|[_ [_ H]%lookup_delete_Some]]%lookup_insert_Some; auto.
    + apply first_round_elem in Hold as [x Hx]. etrans; [apply map_size_insert_le|].
      rewrite map_size_delete, Hx. simpl. unfold MAX_PENDING_COMMIT_PROOFS in *. lia.
  - apply HQ; [|etrans; [apply map_size_insert_le|lia]].
    intros r p [[<- <-]|[_ H]]%lookup_insert_Some; auto.
Qed.

Lemma process_commit_decision_runs q s proof :
  manager_inv q s → root_exact q s → liws_verify_signatures proof v = Ok tt →
  (∀ i, Buffer_get (bfm_buffer s) (Some (bi_id (li_commit_info (liws_ledger_info proof)))) = Ok i → agrees proof i) →
  runs (process_commit_decision proof) s commit_post.
Proof.
  intros [Hc Hb] Hr Hv Hag. unfold process_commit_decision. eapply runs_bind, runs_gets; [done|].
  rewrite (find_key_head _ _ _ Hb). case_decide as Hin; cycle 1.
  { eapply runs_bind, try_add_pending_runs; [apply (mi_pending _ _ Hc)|]. intros x proofs Hps Hn. eapply runs_bind, runs_send, runs_ret.
    exists q. split; [|done]. split; [|done]. apply core_send; [done|].
    apply core_caches; [done|apply shrinks_refl| |done]. intros r p [Hp| ->]%Hps; [by apply (mi_proofs _ _ Hc r)|done]. }
  apply elem_of_hashes in Hin as (q1 & i & q2 & -> & Hk). rewrite <- Hk in *.
  specialize (Hag i (get_at _ _ Hb q1 i q2 eq_refl)).
  pose proof (mi_items _ _ Hc) as Hit. apply Forall_app in Hit as [_ [Hi _]%Forall_cons].
  destruct (advance_with_ledger_info_ok uniform v proof i Hi Hag Hv) as (i' & Hadv & Hids & Hcase).
  pose proof (item_hash_ids _ _ Hids) as Hh.
  eapply runs_bind, (runs_take q1 i q2); [exact Hb|]. intros b1 Hhole.
  eapply runs_bind, runs_lift; [exact Hadv|].
  eapply runs_bind, (runs_set _ q1 i' q2); [exact Hhole|done|]. intros b2 Hb2.
  assert (Hc2 : manager_core (q1 ++ i :: q2) (with_buffer b2 (with_buffer b1 s))) by by apply core_buffer, core_buffer.
  destruct Hcase as [(Ho & Ho' & Hci & Hok)|[Ho Hok]].
  - rewrite (item_ok_kind i' Hok). eapply runs_bind, runs_send, runs_ret.
    exists (q1 ++ i' :: q2). split; [split; [|exact Hb2]|].
    + apply core_send; [done|]. apply (core_item q1 i); [done..|by rewrite Hci].
    + unfold root_exact in *. cbn. rewrite Hr. symmetry. apply first_of_replace; congruence.
  - rewrite (aggregated_ok_kind i' Hok).
    eapply runs_bind, runs_send, runs_ret. exists q1, i, i', q2.
    split_and!; [by apply core_send|exact Hb2|done..].
Qed.

(** ** Ordered blocks *)

(** A batch that comes in: it has blocks, the last one is new and certified by the
    proof. *)
Record batch_ok (ob : OrderedBlocks) (last_block : PipelinedBlock) s : Prop := {
  bo_last : last (ob_ordered_blocks ob) = Some last_block;
  bo_new : buf_map (bfm_buffer s) !! plb_id last_block = None;
  bo_count : buf_count (bfm_buffer s) < u64_max;
  bo_id : bi_id (li_commit_info (liws_ledger_info (ob_ordered_proof ob))) = plb_id last_block;
  bo_round : bi_round (li_commit_info (liws_ledger_info (ob_ordered_proof ob))) = plb_round last_block;
}.

Lemma process_ordered_blocks_runs q s ob last_block :
  manager_inv q s → batch_ok ob last_block s →
  runs (process_ordered_blocks ob) s
    (λ _ s', ∃ i, manager_inv (q ++ [i]) s' ∧ bfm_execution_root s' = bfm_execution_root s).
Proof.
  intros [Hc Hb] [Hl Hnew Hcount Hid Hrd]. unfold process_ordered_blocks. eapply runs_bind, runs_gets; [done|].
  set (i0 := BufferItem_new_ordered _ _ _).
  assert (Hpre : item_pre uniform v i0).
  { split; [by exists last_block|]. simpl. split; [|done]. intros a sg. by rewrite lookup_empty. }
  assert (Hh0 : item_hash i0 = plb_id last_block) by by apply item_hash_last.
  assert (Hrest : ∀ s1, manager_core q s1 → bfm_buffer s1 = bfm_buffer s →
    bfm_execution_root s1 = bfm_execution_root s →
    runs (send (SendExecution (ob_ordered_blocks ob) false) ≫= λ _,
      (target_block_id ← lift (item_block_id i0);
       item ← add_signature_if_matched_from_cache i0 target_block_id (bi_round (item_commit_info i0));
       buffer_push item)) s1
      (λ _ s', ∃ i, manager_inv (q ++ [i]) s' ∧ bfm_execution_root s' = bfm_execution_root s)).
  { intros s1 [Hcfg Hit Hv Hca Hap Hp Hn Hr Hlog] Hb1 Hr1. eapply runs_bind, runs_send.
    eapply runs_bind, runs_lift; [by apply item_block_id_Ok, Hpre|]. unfold add_signature_if_matched_from_cache.
    eapply runs_bind, runs_bind, drain_cached_runs.
    cbn [bfm_commit_vote_cache bfm_pending_commit_proofs with_environment].
    intros votes c Hsh Hnone Hvotes. apply runs_ret.
    set (i1 := add_signatures votes i0). destruct (add_signatures_same votes i0) as (Hbl & Hci & Ho). fold i1 in Hbl, Hci, Ho.
    assert (Hpre1 : item_pre uniform v i1).
    { apply add_signatures_pre; [|done]. intros vote (vs & a & Hg & Hx)%Hvotes. by apply (Hv _ _ _ _ _ Hg Hx). }
    assert (Hids1 : ids_of i1 = ids_of i0) by (unfold ids_of; by rewrite Hbl).
    pose proof (item_hash_ids _ _ Hids1) as Hh1.
    destruct (push_item (bfm_buffer s) q i1 Hb) as (b2 & Hpush & Hb2); [|done|].
    { rewrite Hh1, Hh0, <- entries_keys, <- (rp_dom _ _ Hb), Hnew. by intros [? ?]. }
    unfold runs, buffer_push, on_buffer. cbn. rewrite Hb1, Hpush. exists i1. split; [|done]. split; [|done].
    split; simpl; try done.
    - apply Forall_app. split; [done|]. constructor; [|done]. split; [done|]. by destruct i1.
    - by eapply votes_ok_shrinks.
    - by eapply cache_ok_shrinks.
    - intros j [Hj| ->%list_elem_of_singleton]%elem_of_app; [by eapply apart_shrinks|]. by rewrite Hci, Hh1.
    - eapply accepted_snoc; [done|]. simpl. rewrite fmap_app. simpl. by rewrite Hids1. }
  destruct (plc_has_publisher _).
  - eapply runs_bind, runs_send. apply Hrest; [by apply core_send|done..].
  - eapply runs_bind, runs_ret. by apply Hrest.
Qed.

(** ** Resets *)

Lemma process_reset_request_runs q s signal now :
  manager_inv q s → (∀ r, signal = TargetRound r → r + MAX_BACKLOG ≤ u64_max) →
  runs (process_reset_request signal now) s (λ _ s', manager_inv [] s' ∧ root_exact [] s').
Proof.
  intros [[Hcfg Hit Hv Hca Hap Hp Hn Hr Hlog] Hb] Hsig.
  assert (Hempty : votes_ok ∅ ∧ cache_ok ∅).
  { split; [intros r id vs a vote; unfold cache_get; by rewrite lookup_empty|]. split.
    - exists 0. intros r [? H]. by rewrite lookup_empty in H.
    - intros r rc. by rewrite lookup_empty. }
  unfold process_reset_request, reset.
  eapply runs_bind, runs_modify, runs_bind, runs_bind, runs_modify, runs_bind, runs_modify, runs_bind, runs_modify,
    runs_bind, runs_modify, runs_modify, runs_send.
  split; [|by destruct signal]. split; [|destruct signal; apply Buffer_new_repr].
  split; destruct signal as [|r]; simpl; try done; try apply Hempty; try by apply Hsig.
  all: try (eapply accepted_snoc; [exact Hlog|done]).
  all: try by intros i ?%not_elem_of_nil.
  all: rewrite map_size_empty; unfold MAX_PENDING_COMMIT_PROOFS; lia.
Qed.

(** ** Walks *)

Lemma retry_loop_runs fuel q1 q2 s :
  (length q2 ≤ fuel)%nat → manager_inv (q1 ++ q2) s → root_exact (q1 ++ q2) s →
  runs (retry_loop fuel (item_hash <$> head q2)) s
    (λ _ s', manager_inv (q1 ++ q2) s' ∧ root_exact (q1 ++ q2) s').
Proof.
  revert q1 q2 s. induction fuel as [|fuel IH]; intros q1 [|i q2] s Hf [Hc Hb] Hr; simpl in Hf; [done|lia|done|].
  cbn [retry_loop head fmap option_fmap option_map].
  eapply runs_bind, runs_gets; [exact (get_at _ _ Hb q1 i q2 eq_refl)|]. eapply runs_bind, runs_send.
  eapply runs_bind, runs_gets; [exact (next_at _ _ Hb q1 i q2 eq_refl)|].
  replace (q1 ++ i :: q2) with ((q1 ++ [i]) ++ q2) in * by (by rewrite <- app_assoc).
  apply IH; [lia| |done]. split; [by apply core_send|done].
Qed.

Lemma retry_schedule_phase_runs q s :
  manager_inv q s → root_exact q s →
  runs retry_schedule_phase s (λ _ s', manager_inv q s' ∧ root_exact q s').
Proof.
  intros Hinv Hr. pose proof Hinv as [Hc Hb]. unfold retry_schedule_phase, runs. fold (runs (retry_loop (Buffer_len (bfm_buffer s)) (bfm_execution_root s)) s (λ _ s', manager_inv q s' ∧ root_exact q s')).
  pose proof (first_of_before q) as Hbef. rewrite <- Hr in Hbef.
  destruct (bfm_execution_root s) as [k|] eqn:Hk; [|by destruct (Buffer_len (bfm_buffer s))].
  destruct Hbef as (q1 & i & q2 & -> & <- & _). apply (retry_loop_runs _ q1 (i :: q2)); [|done..].
  rewrite (repr_len _ _ Hb). unfold entries. rewrite length_fmap, length_app. lia.
Qed.

Lemma rebroadcast_loop_runs fuel q1 q2 s now :
  (length q2 ≤ fuel)%nat → manager_inv (q1 ++ q2) s → root_exact (q1 ++ q2) s →
  runs (rebroadcast_loop fuel (item_hash <$> head q2) now) s (λ _ s', ∃ q', manager_inv q' s' ∧ root_exact q' s').
Proof.
  revert q1 q2 s. induction fuel as [|fuel IH]; intros q1 [|i q2] s Hf [Hc Hb] Hr; simpl in Hf;
    [by exists (q1 ++ [])|lia|by exists (q1 ++ [])|].
  cbn [rebroadcast_loop head fmap option_fmap option_map].
  eapply runs_bind, (runs_take q1 i q2); [exact Hb|]. intros b1 Hhole.
  assert (Hstop : runs (buffer_set (Some (item_hash i)) i) (with_buffer b1 s)
    (λ _ s', ∃ q', manager_inv q' s' ∧ root_exact q' s')).
  { apply (runs_set _ q1 i q2); [exact Hhole|done|]. intros b2 Hb2. exists (q1 ++ i :: q2). split; [|done].
    split; [by apply core_buffer, core_buffer|done]. }
  destruct i as [| |si|]; [done..| |done].
  pose proof (mi_items _ _ Hc) as Hit. apply Forall_app in Hit as [_ [Hi _]%Forall_cons].
  assert (Hgo : ∀ h s1, bfm_buffer s1 = b1 → manager_core (q1 ++ ItemSigned si :: q2) s1 →
    bfm_execution_root s1 = bfm_execution_root s →
    runs (buffer_set (Some (item_hash (ItemSigned si))) (ItemSigned (with_rb_handle h si)) ≫= λ _,
      (next ← buffer_next (Some (item_hash (ItemSigned si))); rebroadcast_loop fuel next now)) s1
      (λ _ s', ∃ q', manager_inv q' s' ∧ root_exact q' s')).
  { intros h s1 Hs1 Hc1 Hr1. eapply runs_bind, (runs_set _ q1 _ q2); [rewrite Hs1; exact Hhole|done|].
    intros b2 Hb2. set (si' := ItemSigned (with_rb_handle h si)) in *.
    eapply runs_bind, runs_gets; [exact (next_at _ _ Hb2 q1 si' q2 eq_refl)|].
    replace (q1 ++ si' :: q2) with ((q1 ++ [si']) ++ q2) in Hb2 by (by rewrite <- app_assoc).
    apply (IH (q1 ++ [si'])); [lia|split; [|exact Hb2]|].
    - rewrite <- app_assoc. apply core_buffer. by apply (core_item q1 (ItemSigned si)).
    - unfold root_exact in *. cbn. rewrite Hr1, Hr, <- app_assoc. symmetry. by apply first_of_replace. }
  eapply runs_bind. destruct (match si_rb_handle si with Some _ => _ | None => _ end).
  - apply runs_broadcast; intros h; apply Hgo; try done; [by apply core_buffer|]. apply core_send; [done|].
    by apply core_buffer.
  - apply runs_ret, Hgo; [done|by apply core_buffer|done].
Qed.

(** ** Steps and runs *)

(** What the pipeline relies on, event by event: the rounds have room for the
    backlog; batches and results are as in [batch_ok] and [executes]; commit decisions
    agree with what the validator has; under [uniform] a vote is on the ledger info
    its commit info determines. *)
Definition event_ok (e : PipelineEvent) s : Prop :=
  match e with
  | BlocksReceived =>
      match bfm_block_rx s with ob :: _ => ∃ last_block, batch_ok ob last_block s | [] => True end
  | ResetReceived signal _ => ∀ r, signal = TargetRound r → r + MAX_BACKLOG ≤ u64_max
  | ExecutionDone r _ =>
      (∀ m, er_inner r ≠ Panic m) ∧
      ∀ blocks i, er_inner r = Ok blocks → Buffer_get (bfm_buffer s) (Some (er_block_id r)) = Ok i →
        find_elem_by_key (bfm_buffer s) (bfm_execution_root s) (er_block_id r) = Some (er_block_id r) →
        executes s (er_block_id r) blocks i
  | PersistingDone r => ∀ round, r = Ok round → round + MAX_BACKLOG ≤ u64_max
  | CommitMessageReceived message _ =>
      (∀ m, CommitMessage_verify message v ≠ Panic m) ∧
      match message with
      | CommitMessageVote vote => uniform → commit_form (cv_ledger_info vote)
      | CommitMessageDecision d =>
          ∀ i, Buffer_get (bfm_buffer s) (Some (bi_id (li_commit_info (liws_ledger_info (cd_ledger_info d))))) = Ok i →
            agrees (cd_ledger_info d) i
      | _ => True
      end
  | _ => True
  end.

Lemma process_commit_message_runs q s message :
  manager_inv q s → root_exact q s → CommitMessage_verify message v = Ok tt →
  event_ok (CommitMessageReceived message 0) s → runs (process_commit_message message) s commit_post.
Proof.
  intros Hinv Hr Hver [_ Hok]. destruct message as [vote|d| |]; simpl in *; [| |done..].
  - apply (process_commit_vote_runs q); [done..|]. split; [|done]. by apply with_context_Ok in Hver.
  - apply (process_commit_decision_runs q); [done..| |done].
    apply bind_unit_Ok in Hver as [_ Hver]. by apply with_context_Ok in Hver.
Qed.

(** After an aggregation: the head and the roots advance. *)
Lemma commit_advance_runs k s now :
  commit_post (Some k) s →
  runs (_ ← advance_head k now;
        root ← gets (λ s, Ok (bfm_execution_root s));
        _ ← when_none root (discard advance_execution_root);
        root ← gets (λ s, Ok (bfm_signing_root s));
        when_none root advance_signing_root) s (λ _ s', manager_ok s').
Proof.
  intros (q1 & i & a & q2 & Hc & Hb & Ha & Hids & <- & Hr).
  eapply runs_bind, runs_mono; [by apply (advance_head_runs q1 i a q2)|]. intros _ s1 [Hinv Hroot].
  eapply runs_bind, runs_gets; [done|]. eapply runs_bind.
  assert (Hex : runs (when_none (bfm_execution_root s1) (discard advance_execution_root)) s1
    (λ _ s', manager_inv q2 s' ∧ root_exact q2 s')).
  { destruct (bfm_execution_root s1) as [k|] eqn:Hk.
    - apply runs_ret. split; [done|]. unfold root_exact. rewrite Hk. symmetry. rewrite Hr in Hroot.
      symmetry in Hroot. by apply (popped_exact q1 i a q2); [apply item_hash_ids|].
    - eapply runs_bind, runs_mono; [apply (advance_execution_root_runs q2); [done|by rewrite Hk]|].
      intros ? s2 H2. by apply runs_ret. }
  eapply runs_mono; [exact Hex|]. intros _ s2 [Hinv2 Hr2]. eapply runs_bind, runs_gets; [done|].
  destruct (bfm_signing_root s2); [apply runs_ret; by exists q2|].
  eapply runs_mono; [by apply (advance_signing_root_runs q2)|]. intros ? s3 H3. by exists q2.
Qed.

Lemma backpressure_Ok q s : manager_core q s → ∃ x, need_backpressure s = Ok x.
Proof. intros Hc. unfold need_backpressure. rewrite add_u64_fits by apply (mi_round _ _ Hc). by eexists. Qed.

Lemma blocks_received_runs q s :
  manager_inv q s → root_exact q s → event_ok BlocksReceived s →
  runs (pipeline_step BlocksReceived) s (λ _ s', manager_ok s').
Proof.
  intros [Hc Hb] Hr Hok. cbn [pipeline_step]. destruct (backpressure_Ok q s Hc) as [x Hx].
  eapply runs_bind, runs_gets; [exact Hx|]. eapply runs_bind, runs_gets; [done|]. simpl in Hok.
  destruct x; [apply runs_ret; by exists q|]. destruct (bfm_block_rx s) as [|ob rx]; [apply runs_ret; by exists q|].
  destruct Hok as [last_block Hbo]. eapply runs_bind, runs_modify.
  eapply runs_bind, runs_lift; [unfold OrderedBlocks_latest_round; by rewrite (bo_last _ _ _ Hbo)|].
  eapply runs_bind, runs_modify.
  eapply runs_bind, runs_mono; [apply (process_ordered_blocks_runs q _ ob last_block)|].
  - split; [|done]. apply core_rounds; [apply (mi_round _ _ Hc)|]. by apply core_block_rx.
  - by destruct Hbo.
  - cbn. intros _ s1 (i & Hinv & Hroot). eapply runs_bind, runs_gets; [done|]. rewrite Hroot, Hr.
    destruct (first_of is_ordered q) as [k|] eqn:Hk; simpl.
    + apply runs_ret. exists (q ++ [i]). split; [done|]. unfold root_exact. by rewrite Hroot, Hr, first_of_app, Hk.
    + eapply runs_bind, runs_mono; [apply (advance_execution_root_runs (q ++ [i])); [done|by rewrite Hroot, Hr, Hk]|].
      intros ? s2 H2. apply runs_ret. by exists (q ++ [i]).
Qed.

Lemma execution_done_runs q s r now :
  manager_inv q s → root_exact q s → event_ok (ExecutionDone r now) s →
  runs (pipeline_step (ExecutionDone r now)) s (λ _ s', manager_ok s').
Proof.
  intros Hinv Hr [Hnp Hex]. cbn [pipeline_step].
  eapply runs_bind, runs_mono; [by apply (process_execution_response_runs q)|]. intros _ s1 (q1 & Hinv1 & Hbef).
  eapply runs_bind, runs_mono; [by apply (advance_execution_root_runs q1)|]. intros retry s2 [[Hc2 Hb2] Hr2].
  assert (Hend : ∀ s3, manager_inv q1 s3 → root_exact q1 s3 →
    runs (root ← gets (λ s, Ok (bfm_signing_root s)); when_none root advance_signing_root) s3
      (λ _ s', manager_ok s')).
  { intros s3 H3 Hr3. eapply runs_bind, runs_gets; [done|].
    destruct (bfm_signing_root s3); [apply runs_ret; by exists q1|].
    eapply runs_mono; [by apply (advance_signing_root_runs q1)|]. intros ? s4 H4. by exists q1. }
  eapply runs_bind. case_bool_decide; [apply runs_send|apply runs_ret]; apply Hend; try done.
  split; [by apply core_send|done].
Qed.

Lemma pipeline_step_runs e s :
  manager_ok s → event_ok e s → runs (pipeline_step e) s (λ _ s', manager_ok s').
Proof.
  intros (q & Hinv & Hr) Hok. pose proof Hinv as [Hc Hb].
  destruct e as [ob|m| |signal now|req|r now| |r now|r|message now|now].
  - apply runs_modify. exists q. split; [|done]. split; [by apply core_block_rx|done].
  - apply runs_modify. exists q. split; [|done]. split; [by apply core_executor|done].
  - by apply (blocks_received_runs q).
  - eapply runs_mono; [by apply (process_reset_request_runs q)|]. intros ? s' H. by exists [].
  - apply runs_send. exists q. split; [|done]. split; [by apply core_send|done].
  - by apply (execution_done_runs q).
  - eapply runs_mono; [by apply (retry_schedule_phase_runs q)|]. intros ? s' H. by exists q.
  - cbn [pipeline_step]. eapply runs_bind, runs_mono; [by apply (process_signing_response_runs q)|].
    intros _ s1 (q1 & Hinv1 & Hr1). eapply runs_mono; [by apply (advance_signing_root_runs q1)|].
    intros ? s2 H2. by exists q1.
  - destruct r as [round|e|m]; [|apply runs_ret; by exists q..]. apply runs_modify. exists q. split; [|done].
    split; [|done]. apply core_rounds; [by apply Hok|].
    apply core_caches; [done|apply shrinks_filter|apply (mi_proofs _ _ Hc)|apply (mi_pending _ _ Hc)].
  - cbn [pipeline_step]. eapply runs_bind, runs_gets; [done|]. unfold validators. rewrite (mi_config _ _ Hc).
    destruct (CommitMessage_verify message v) as [[]|e|m] eqn:Hver;
      [|apply runs_ret; by exists q|by destruct (proj1 Hok m)].
    eapply runs_bind, runs_mono; [by apply (process_commit_message_runs q s message)|].
    intros [k|] s1 Hpost; [by apply commit_advance_runs|]. apply runs_ret. exact Hpost.
  - cbn [pipeline_step]. unfold rebroadcast_commit_votes_if_needed, runs.
    destruct (_ <? _); [by exists q|]. rewrite (head_entries _ _ Hb).
    apply (rebroadcast_loop_runs _ [] q); [|done..]. rewrite (repr_len _ _ Hb). unfold entries. by rewrite length_fmap.
Qed.

(** The assumptions along a run. *)
Fixpoint events_ok (events : list PipelineEvent) s : Prop :=
  match events with
  | [] => True
  | e :: events =>
      bfm_stop s = false →
      event_ok e s ∧ ∀ s', pipeline_step e s = (Ok tt, s') → events_ok events s'
  end.

Lemma pipeline_run_runs events s :
  manager_ok s → events_ok events s → runs (pipeline_run events) s (λ _ s', manager_ok s').
Proof.
  revert s. induction events as [|e events IH]; intros s Hok Hev; [done|]. cbn [pipeline_run].
  eapply runs_bind, runs_gets; [done|]. simpl in Hev. destruct (bfm_stop s) eqn:Hstop; [by apply runs_ret|].
  destruct (Hev eq_refl) as [He Hrest]. pose proof Hok as (q & [Hc _] & _).
  destruct (backpressure_Ok q s Hc) as [x Hx]. eapply runs_bind, runs_gets; [exact Hx|].
  eapply runs_bind. destruct (runs_inv _ _ _ (pipeline_step_runs e s Hok He)) as ([] & s' & Hs' & Hok').
  eapply runs_eq; [exact Hs'|]. by apply IH, Hrest.
Qed.

(** Discharging the assumptions step by step. *)
Lemma events_ok_step e events s :
  event_ok e s → events_ok events (pipeline_step e s).2 → events_ok (e :: events) s.
Proof. intros He Hrest _. split; [done|]. intros s' Hs. by rewrite Hs in Hrest. Qed.

Lemma new_manager_ok round now executor :
  round + MAX_BACKLOG ≤ u64_max → manager_ok (BufferManager_new config round now executor).
Proof.
  intros Hr. exists []. split; [|done]. split; [|apply Buffer_new_repr]. split; simpl; try done; try apply Forall_nil; try apply accepted_nil.
  - split; [exists 0; intros r [? H]; by rewrite lookup_empty in H|]. intros r rc. by rewrite lookup_empty.
  - rewrite map_size_empty. unfold MAX_PENDING_COMMIT_PROOFS. lia.
Qed.

(** ** Bounds of the caches *)

Lemma keys_size {K A} `{Countable K} (m : gmap K A) (l : list K) :
  (∀ k, is_Some (m !! k) → k ∈ l) → (size m ≤ length l)%nat.
Proof.
  intros Hl. rewrite <- length_map_to_list, <- (length_fmap fst). apply submseteq_length, NoDup_submseteq;
    [apply NoDup_fst_map_to_list|].
  intros k ([k' x] & -> & Hx%elem_of_map_to_list)%list_elem_of_fmap. apply Hl. by exists x.
Qed.

Lemma window_size {A} (c : gmap Round A) h w :
  (∀ r, is_Some (c !! r) → h < r ∧ r < h + w) → N.of_nat (size c) ≤ w - 1.
Proof.
  intros Hw. enough (size c ≤ length (seq 0 (N.to_nat (w - 1))))%nat as H by (rewrite length_seq in H; lia).
  rewrite <- (length_fmap (λ k, h + 1 + N.of_nat k)). apply keys_size. intros r [Hlo Hhi]%Hw.
  apply list_elem_of_fmap. exists (N.to_nat (r - h - 1)). split; [lia|]. apply elem_of_seq. lia.
Qed.

Lemma introduced_size rc (l : list HashValue) :
  introduced rc → (∀ id vs a, rc !! id = Some vs → is_Some (vs !! a) → a ∈ l) →
  (size rc ≤ MAX_CACHED_BLOCK_IDS_PER_AUTHOR_PER_COMMIT_VOTE_ROUND * length l)%nat.
Proof.
  intros (f & Hf & Hle) Hl.
  assert (Hin : ∀ id vs, rc !! id = Some vs → f id ∈ l) by (intros id vs H; by eapply Hl, Hf).
  clear Hf Hl. revert rc Hle Hin. induction l as [|a l IH]; intros rc Hle Hin.
  - assert (Hz : rc = ∅); [|rewrite Hz, map_size_empty; lia]. apply map_empty. intros id. apply eq_None_not_Some.
    intros [vs Hvs]. by apply Hin, not_elem_of_nil in Hvs.
  - rewrite <- (map_filter_union_complement (λ '(id, _), f id = a) rc).
    rewrite map_size_disj_union by apply map_disjoint_filter_complement. cbn [length].
    specialize (IH (filter (λ x, ¬ (let '(id, _) := x in f id = a)) rc)).
    rewrite Nat.mul_succ_r, Nat.add_comm. apply Nat.add_le_mono; [|apply Hle]. apply IH.
    + intros b. etrans; [|apply (Hle b)]. apply map_subseteq_size, map_filter_subseteq_mono, map_filter_subseteq.
    + intros id vs [Hid Hne]%map_lookup_filter_Some. apply Hin, elem_of_cons in Hid as [?|?]; [done|done].
Qed.

Lemma cached_votes_size c :
  votes_ok c → cache_ok c →
  N.of_nat (size c) ≤ plc_max_pending_rounds_in_commit_vote_cache config - 1 ∧
  ∀ r rc, c !! r = Some rc →
    (size rc ≤ MAX_CACHED_BLOCK_IDS_PER_AUTHOR_PER_COMMIT_VOTE_ROUND * length (vv_ordered_addresses v))%nat ∧
    ∀ id vs, rc !! id = Some vs → (size vs ≤ length (vv_ordered_addresses v))%nat.
Proof.
  intros Hv [[h Hw] Hi]. split; [by eapply window_size|]. intros r rc Hr.
  assert (Hkeys : ∀ id vs a, rc !! id = Some vs → is_Some (vs !! a) →
    a ∈ hash_of_address <$> vv_ordered_addresses v).
  { intros id vs a Hid [vote Hvote]. destruct (Hv r id vs a vote) as (_ & _ & -> & Hok); [|done|].
    - unfold cache_get. by rewrite Hr.
    - apply list_elem_of_fmap_2. by eapply vote_ok_known. }
  rewrite <- (length_fmap hash_of_address). split; [by eapply introduced_size; [apply (Hi r)|]|].
  intros id vs Hid. apply keys_size. intros a Ha. by eapply Hkeys.
Qed.

End invariant.

(** ** Theorems *)

Context {BL : BlockInfoLaws} {LL : LedgerInfoLaws} {PL : PendingLaws} {QL : PipelineLaws} {GL : CommitProofLaws}.
Implicit Types (config : PipelineConfig).

Lemma events_ok_weaken (uniform uniform' : Prop) config events s :
  (uniform' → uniform) → events_ok uniform config events s → events_ok uniform' config events s.
Proof.
  intros Hu. revert s. induction events as [|e events IH]; intros s Hok; [done|]. intros Hstop.
  destruct (Hok Hstop) as [He Hrest]. split; [|intros s' Hs; by apply IH, Hrest].
  destruct e as [| | | | | | | | |message now|]; try exact He. destruct message; simpl in *; naive_solver.
Qed.

(** The schedule phase returns the results of the blocks it was given, in order. *)
Lemma schedule_results compute blocks results :
  ewr_fut (ExecutionSchedulePhase_process compute blocks) = Ok results →
  Forall2 (λ (p q : PipelinedBlock), plb_id p = plb_id q ∧ plb_round p = plb_round q) blocks results.
Proof.
  unfold ExecutionSchedulePhase_process. destruct (last blocks); [|done]. simpl.
  revert results. induction blocks as [|b blocks IH]; simpl; intros results H; run_inv; constructor; [done|].
  by apply IH.
Qed.

Lemma pipeline_reaches uniform config round now executor events :
  (uniform → plc_order_vote_enabled config = true) → round + MAX_BACKLOG ≤ u64_max →
  events_ok uniform config events (BufferManager_new config round now executor) →
  ∃ s, pipeline_run events (BufferManager_new config round now executor) = (Ok tt, s) ∧
    manager_ok uniform config s.
Proof.
  intros Hove Hr Hev.
  destruct (runs_inv _ _ _ (pipeline_run_runs uniform config Hove events _ (new_manager_ok uniform config round now executor Hr) Hev))
    as ([] & s & Hs & Hok). by exists s.
Qed.

(** C16: The execution pipeline commits what was ordered, in that order, for any
    interleaving of votes, decisions, execution results, retries, timer ticks,
    persisting results and resets that keeps these conditions: a batch is not in the
    buffer yet and its ordering proof is of its last block; results are for the
    blocks of an item that is still Ordered, with the last block numbered,
    ConsensusAlpha active at its timestamp and a commit info that computes and
    agrees with decisions already received; a decision agrees with the item it
    finds; execution results and the checks of messages do not panic; and rounds
    leave room for the backlog in 64 bits. Then nothing panics, the linked hash map
    represents a queue of items, and the outputs are a run of the abstract pipeline,
    in which a batch enters at the back when it is scheduled, a commit takes a
    prefix of the queue, in order, with a proof about its last block, and only a
    reset drops batches. A result that finds its item executed already, possible
    after two failures of the item in front, is excluded: the code panics on it
    (ConcretePipeline.retried_item_panics). *)
Theorem pipeline_commits_in_order config round now executor events :
  round + MAX_BACKLOG ≤ u64_max →
  events_ok False config events (BufferManager_new config round now executor) →
  ∃ s q, pipeline_run events (BufferManager_new config round now executor) = (Ok tt, s) ∧
    repr (bfm_buffer s) (entries q) ∧ accepted False config (bfm_sent s) (ids_of <$> q).
Proof.
  intros Hr Hev. destruct (pipeline_reaches False config round now executor events) as (s & Hs & q & [Hc Hb] & _); [done..|].
  exists s, q. split; [done|]. split; [done|]. apply (mi_log _ _ _ _ Hc).
Qed.

(** C17: The commit proofs are valid. With order votes, under the conditions of
    [events_ok] (new batches with a proof of their last block, results only for
    items still Ordered and with ConsensusAlpha active, decisions that agree with
    what is executed, no panic in checks, rounds with room for the backlog), and
    when every commit vote is on the ledger info its commit info determines, which
    [CommitVote::verify] does not check, every commit the pipeline sends to
    persisting carries a proof with valid signatures of a quorum, whether the
    signatures arrived before or after the execution or came as a decision. *)
Theorem commit_proofs_verify config round now executor events :
  plc_order_vote_enabled config = true → round + MAX_BACKLOG ≤ u64_max →
  events_ok True config events (BufferManager_new config round now executor) →
  ∃ s, pipeline_run events (BufferManager_new config round now executor) = (Ok tt, s) ∧
    ∀ r, SendPersisting r ∈ bfm_sent s →
      liws_verify_signatures (psr_commit_ledger_info r) (es_verifier (plc_epoch_state config)) = Ok tt.
Proof.
  intros Hove Hr Hev. destruct (pipeline_reaches True config round now executor events) as (s & Hs & q & [Hc _] & _); [done..|].
  exists s. split; [done|]. pose proof (mi_log _ _ _ _ Hc) as Hlog. clear -Hlog.
  induction Hlog as [|log o p p' _ IH Ho]; intros r Hr; [by apply not_elem_of_nil in Hr|].
  apply elem_of_app in Hr as [Hr|<-%list_elem_of_singleton]; [by apply IH|]. by apply Ho.
Qed.

(** C18: A quorum does not wait. In every state the pipeline reaches under the
    conditions of [events_ok] (new batches with a proof of their last block, results
    only for items still Ordered and with ConsensusAlpha active, decisions that
    agree with what is executed, no panic in checks, rounds with room for the
    backlog), no item of the buffer is aggregated, and no executed or signed item
    holds the signatures of a quorum: the vote, the results or the decision that
    completes one sends the item and all before it to persisting at once. *)
Theorem no_quorum_waits config round now executor events :
  round + MAX_BACKLOG ≤ u64_max →
  events_ok False config events (BufferManager_new config round now executor) →
  ∃ s, pipeline_run events (BufferManager_new config round now executor) = (Ok tt, s) ∧
    ∀ k i, Buffer_get (bfm_buffer s) (Some k) = Ok i →
      is_aggregated i = false ∧ waiting (es_verifier (plc_epoch_state config)) i.
Proof.
  intros Hr Hev. destruct (pipeline_reaches False config round now executor events) as (s & Hs & q & [Hc Hb] & _); [done..|].
  exists s. split; [done|]. intros k i Hi. destruct (decide (k ∈ item_hash <$> q)) as [(q1 & j & q2 & -> & <-)%elem_of_hashes|Hk].
  - rewrite (get_at _ _ Hb q1 j q2 eq_refl) in Hi. injection Hi as <-.
    pose proof (mi_items _ _ _ _ Hc) as Hit. apply Forall_app in Hit as [_ [Hj _]%Forall_cons].
    split; [by eapply item_ok_kind|apply Hj].
  - rewrite <- entries_keys, <- (rp_dom _ _ Hb), <- eq_None_not_Some in Hk.
    unfold Buffer_get, get_item in Hi. simpl in Hi. by rewrite Hk in Hi.
Qed.

(** The caches of the pipeline are bounded, whatever the validators send: commit
    votes are cached for fewer rounds than the configured window, in each round for
    at most two blocks per validator, and for each block once per validator; at most
    100 early commit proofs are kept. *)
Theorem pipeline_caches_bounded config round now executor events :
  let n := length (vv_ordered_addresses (es_verifier (plc_epoch_state config))) in
  round + MAX_BACKLOG ≤ u64_max →
  events_ok False config events (BufferManager_new config round now executor) →
  ∃ s, pipeline_run events (BufferManager_new config round now executor) = (Ok tt, s) ∧
    N.of_nat (size (bfm_commit_vote_cache s)) ≤ plc_max_pending_rounds_in_commit_vote_cache config - 1 ∧
    (∀ r rc, bfm_commit_vote_cache s !! r = Some rc →
       (size rc ≤ 2 * n)%nat ∧ ∀ id vs, rc !! id = Some vs → (size vs ≤ n)%nat) ∧
    (size (bfm_pending_commit_proofs s) ≤ 100)%nat.
Proof.
  intros n Hr Hev. destruct (pipeline_reaches False config round now executor events) as (s & Hs & q & [Hc Hb] & _); [done..|].
  exists s. split; [done|].
  destruct (cached_votes_size False config _ (mi_votes _ _ _ _ Hc) (mi_cache _ _ _ _ Hc)) as [H1 H2].
  split; [done|]. split; [exact H2|apply (mi_pending _ _ _ _ Hc)].
Qed.

End pipeline_spec.
