(* ===== verification/ConsensusDb.v ===== *)
(** * The consensus database (consensus/src/consensusdb)

    The column families with their key and value codecs (schema/), the reads and
    writes of [ConsensusDB] (mod.rs, include/) and of the ledger metadata
    (ledger_db/ledger_metadata_db.rs).  The key-value store below, the schema
    database of [gaptos] on RocksDB, is an interface: typed reads, scans and
    atomic batches, with laws that relate them to a map of byte strings.  The
    theorems show that the key codecs round-trip and order keys as the scans
    need it, what unwinding to a block keeps and deletes, and which ledger info
    anchors leader reputation. *)

From S2P Require Import Prelude Gaptos Types Bytes Certificates Payloads Blocks.

Abbreviation bytes := (list N) (only parsing).

(** What the database code takes from [gaptos] beyond [Gaptos]: the bytes of a
    hash, accessors of block infos, the genesis ledger info and [bcs]. *)
Class DbTypes {GA : Gaptos} := {
  hash_to_vec : HashValue → bytes;
  hash_from_slice : bytes → result Anyhow HashValue;
  (** [HashValue::new([u8::MAX; HashValue::LENGTH])]. *)
  hash_max : HashValue;
  bi_next_epoch_state : BlockInfo → option EpochState;
  ebi_block_hash : EpochBlockInfo → HashValue;
  genesis_ledger_info : LedgerInfoWithSignatures;
  bcs_block_fields : BlockData * option Signature * option N → result Anyhow bytes;
  block_fields_of_bcs : bytes → result Anyhow (BlockData * option Signature * option N);
  bcs_quorum_cert : QuorumCert → result Anyhow bytes;
  quorum_cert_of_bcs : bytes → result Anyhow QuorumCert;
  bcs_ledger_info : LedgerInfoWithSignatures → result Anyhow bytes;
  ledger_info_of_bcs : bytes → result Anyhow LedgerInfoWithSignatures;
}.

(** [Schema] with its [KeyCodec] and [ValueCodec]. *)
Record Schema {GA : Gaptos} (K V : Type) := {
  column_family : string;
  encode_key : K → result Anyhow bytes;
  decode_key : bytes → result Anyhow K;
  encode_value : V → result Anyhow bytes;
  decode_value : bytes → result Anyhow V;
}.
Arguments column_family {_ _ _} _.
Arguments encode_key {_ _ _} _ _.
Arguments decode_key {_ _ _} _ _.
Arguments encode_value {_ _ _} _ _.
Arguments decode_value {_ _ _} _ _.

(** [aptos_schemadb]: reads, scans over a range of encoded keys (the lower bound
    is included, the upper one is not) forwards or backwards, and batches of
    writes.  A scan is a list of items, each of which may fail to be read. *)
Class SchemaDb {GA : Gaptos} := {
  DB : Type;
  db_get {K V} : Schema K V → K → DB → result Anyhow (option V);
  db_iter {K V} :
    Schema K V → option bytes → option bytes → DB → result Anyhow (list (result Anyhow (K * V)));
  db_rev_iter {K V} : Schema K V → DB → result Anyhow (list (result Anyhow (K * V)));
  SchemaBatch : Type;
  SchemaBatch_new : SchemaBatch;
  batch_put {K V} : Schema K V → K → V → SchemaBatch → result Anyhow SchemaBatch;
  batch_delete {K V} : Schema K V → K → SchemaBatch → result Anyhow SchemaBatch;
  db_write_schemas : SchemaBatch → DB → result Anyhow unit * DB;
  (** [AptosDbError::Other(msg)] with the name of the ledger info family in it. *)
  names_ledger_info_cf : Anyhow → bool;
}.

(** [iter.collect::<Result<Vec<_>, _>>()]. *)
Fixpoint collect_results {E A} (l : list (result E A)) : result E (list A) :=
  match l with
  | [] => Ok []
  | r :: l => a ← r; rest ← collect_results l; Ok (a :: rest)
  end.

(** The [for] loop with [?] over a value that is passed on. *)
Fixpoint try_fold {E A B} (f : B → A → result E B) (b : B) (l : list A) : result E B :=
  match l with
  | [] => Ok b
  | a :: l => b ← f b a; try_fold f b l
  end.

Section consensus_db.
Context {GA : Gaptos} {VE : Verifier} {CR : Crypto} {DT : DbTypes}.

(** ** Schemas *)

Definition ensure_slice_len_eq (data : bytes) (len : nat) : result Anyhow unit :=
  ensure (bool_decide (length data = len)) (Msg "Unexpected data len").

(** The [u64] keys and values, in big-endian. *)
Definition encode_u64 (x : N) : result Anyhow bytes := Ok (to_be_bytes 8 x).

Definition decode_u64 (data : bytes) : result Anyhow N :=
  _ ← ensure_slice_len_eq data 8;
  Ok (from_be_bytes data).

(** The [(u64, HashValue)] keys. *)
Definition encode_epoch_hash (key : N * HashValue) : result Anyhow bytes :=
  Ok (to_be_bytes 8 key.1 ++ hash_to_vec key.2).

(** [data[0..8]] panics on shorter data. *)
Definition decode_epoch_hash (data : bytes) : result Anyhow (N * HashValue) :=
  _ ← assert_ (8 <=? length data)%nat "range end index out of range";
  hash_value ← hash_from_slice (drop 8 data);
  Ok (from_be_bytes (take 8 data), hash_value).

(** [bcs::to_bytes] and [bcs::from_bytes] with the [serde] instances of [Block]. *)
Definition bcs_block (b : Block) : result Anyhow bytes := bcs_block_fields (Block_serialize b).

Definition block_of_bcs (data : bytes) : result Anyhow Block :=
  fields ← block_fields_of_bcs data;
  Ok (Block_deserialize fields).

Definition BlockSchema : Schema (N * HashValue) Block :=
  {| column_family := "block"; encode_key := encode_epoch_hash; decode_key := decode_epoch_hash;
     encode_value := bcs_block; decode_value := block_of_bcs |}.

Definition BlockNumberSchema : Schema (N * HashValue) N :=
  {| column_family := "block_number"; encode_key := encode_epoch_hash;
     decode_key := decode_epoch_hash; encode_value := encode_u64; decode_value := decode_u64 |}.

Definition QCSchema : Schema (N * HashValue) QuorumCert :=
  {| column_family := "quorum_certificate"; encode_key := encode_epoch_hash;
     decode_key := decode_epoch_hash; encode_value := bcs_quorum_cert;
     decode_value := quorum_cert_of_bcs |}.

Definition LedgerInfoSchema : Schema N LedgerInfoWithSignatures :=
  {| column_family := "ledger_info"; encode_key := encode_u64; decode_key := decode_u64;
     encode_value := bcs_ledger_info; decode_value := ledger_info_of_bcs |}.

Definition EpochByBlockNumberSchema : Schema N N :=
  {| column_family := "epoch_by_block_number"; encode_key := encode_u64; decode_key := decode_u64;
     encode_value := encode_u64; decode_value := decode_u64 |}.

Definition RandomnessSchema : Schema N bytes :=
  {| column_family := "randomness"; encode_key := encode_u64; decode_key := decode_u64;
     encode_value := λ v, Ok v; decode_value := λ v, Ok v |}.

Inductive SingleEntryKey := LastVote | Highest2ChainTimeoutCert.

Definition encode_single_entry (k : SingleEntryKey) : result Anyhow bytes :=
  Ok [match k with LastVote => 0 | Highest2ChainTimeoutCert => 1 end].

Definition decode_single_entry (data : bytes) : result Anyhow SingleEntryKey :=
  _ ← ensure_slice_len_eq data 1;
  match data with
  | [0] => Ok LastVote
  | [1] => Ok Highest2ChainTimeoutCert
  | _ => Err (Msg "FromPrimitive failed.")
  end.

Definition SingleEntrySchema : Schema SingleEntryKey bytes :=
  {| column_family := "single_entry"; encode_key := encode_single_entry;
     decode_key := decode_single_entry; encode_value := λ v, Ok v; decode_value := λ v, Ok v |}.

(** ** The database *)

Context {SD : SchemaDb}.

(** [ConsensusDB] with the cached ledger info of its [LedgerMetadataDb]; the node
    configuration is read once at start-up and not used here. *)
Record ConsensusDB := {
  cdb_db : DB;
  cdb_latest_ledger_info : option LedgerInfoWithSignatures;
}.

Definition set_db (d : DB) (c : ConsensusDB) : ConsensusDB :=
  {| cdb_db := d; cdb_latest_ledger_info := cdb_latest_ledger_info c |}.

Definition set_latest (li : option LedgerInfoWithSignatures) (c : ConsensusDB) : ConsensusDB :=
  {| cdb_db := cdb_db c; cdb_latest_ledger_info := li |}.

Definition commit (batch : SchemaBatch) : M ConsensusDB Anyhow unit := λ c,
  let '(r, d) := db_write_schemas batch (cdb_db c) in (r, set_db d c).

Definition db_put {K V} (s : Schema K V) (key : K) (value : V) : M ConsensusDB Anyhow unit :=
  batch ← lift (batch_put s key value SchemaBatch_new);
  commit batch.

Definition db_delete {K V} (s : Schema K V) (keys : list K) : M ConsensusDB Anyhow unit :=
  batch ← lift (try_fold (λ b key, batch_delete s key b) SchemaBatch_new keys);
  commit batch.

Definition get_all {K V} (s : Schema K V) (c : ConsensusDB) : result Anyhow (list (K * V)) :=
  items ← db_iter s None None (cdb_db c);
  collect_results items.

Definition get {K V} (s : Schema K V) (key : K) (c : ConsensusDB) : result Anyhow (option V) :=
  db_get s key (cdb_db c).

(** [encode_key(..).unwrap()]. *)
Definition unwrap_key (r : result Anyhow bytes) : result Anyhow bytes :=
  match r with Ok b => Ok b | _ => Panic "called `Result::unwrap()` on an `Err` value" end.

Definition get_range {K V} (s : Schema K V) (start_key end_key : K) (c : ConsensusDB)
    : result Anyhow (list (K * V)) :=
  lower_bound ← unwrap_key (encode_key s start_key);
  upper_bound ← unwrap_key (encode_key s end_key);
  items ← db_iter s (Some lower_bound) (Some upper_bound) (cdb_db c);
  collect_results items.

Definition get_range_with_filter {K V} (s : Schema K V) (start_key end_key : K)
    (keep : K * V → bool) (c : ConsensusDB) : result Anyhow (list (K * V)) :=
  l ← get_range s start_key end_key c;
  Ok (filter (λ kv, keep kv = true) l).

(** ** Blocks, certificates, votes *)

Definition save_highest_2chain_timeout_certificate (tc : bytes) : M ConsensusDB Anyhow unit :=
  db_put SingleEntrySchema Highest2ChainTimeoutCert tc.

Definition save_vote (last_vote : bytes) : M ConsensusDB Anyhow unit :=
  db_put SingleEntrySchema LastVote last_vote.

Definition get_highest_2chain_timeout_certificate (c : ConsensusDB) : result Anyhow (option bytes) :=
  get SingleEntrySchema Highest2ChainTimeoutCert c.

Definition get_last_vote (c : ConsensusDB) : result Anyhow (option bytes) :=
  get SingleEntrySchema LastVote c.

Definition delete_highest_2chain_timeout_certificate : M ConsensusDB Anyhow unit :=
  db_delete SingleEntrySchema [Highest2ChainTimeoutCert].

Definition delete_last_vote_msg : M ConsensusDB Anyhow unit :=
  db_delete SingleEntrySchema [LastVote].

Definition save_blocks_and_quorum_certificates (block_data : list Block) (qc_data : list QuorumCert)
    : M ConsensusDB Anyhow unit :=
  if bool_decide (length block_data = 0%nat) && bool_decide (length qc_data = 0%nat) then mret tt
  else
    batch ← lift (try_fold (λ b block,
      batch_put BlockSchema (Block_epoch block, block_id block) block b) SchemaBatch_new block_data);
    batch ← lift (try_fold (λ b qc,
      batch_put QCSchema (bi_epoch (certified_block qc), bi_id (certified_block qc)) qc b)
      batch qc_data);
    commit batch.

Definition save_block_numbers (block_numbers : list (N * N * HashValue)) : M ConsensusDB Anyhow unit :=
  if bool_decide (length block_numbers = 0%nat) then mret tt
  else
    batch ← lift (try_fold (λ b '(epoch, block_number, id),
      batch_put BlockNumberSchema (epoch, id) block_number b) SchemaBatch_new block_numbers);
    commit batch.

Definition delete_blocks_and_quorum_certificates (block_keys : list (N * HashValue))
    : M ConsensusDB Anyhow unit :=
  if bool_decide (length block_keys = 0%nat) then lift (Err (Msg "Consensus block ids is empty!"))
  else
    batch ← lift (try_fold (λ b key,
      b ← batch_delete BlockSchema key b; batch_delete QCSchema key b) SchemaBatch_new block_keys);
    commit batch.

(** A block without a number gets the one of [BlockNumberSchema]. *)
Definition get_db_block (epoch : N) (id : HashValue) (c : ConsensusDB) : result Anyhow (option Block) :=
  block ← get BlockSchema (epoch, id) c;
  match block with
  | Some b =>
      match block_block_number b with
      | None =>
          n ← get BlockNumberSchema (epoch, id) c;
          Ok (Some match n with Some n => (set_block_number b n).1 | None => b end)
      | Some _ => Ok (Some b)
      end
  | None => Ok None
  end.

Definition get_qc (epoch : N) (id : HashValue) (c : ConsensusDB) : result Anyhow (option QuorumCert) :=
  get QCSchema (epoch, id) c.

Definition get_qc_range (start_key end_key : N * HashValue) (c : ConsensusDB)
    : result Anyhow (list QuorumCert) :=
  l ← get_range QCSchema start_key end_key c; Ok l.*2.

(** The epoch of the last block in key order, 1 when there is none. *)
Definition get_max_epoch (c : ConsensusDB) : result Anyhow N :=
  match db_rev_iter BlockSchema (cdb_db c) with
  | Ok (Ok ((epoch, _), _) :: _) => Ok epoch
  | Ok _ => Ok 1
  | _ => Panic "called `Result::unwrap()` on an `Err` value"
  end.

Definition put_randomness (blocks : list (N * bytes)) : M ConsensusDB Anyhow unit :=
  if bool_decide (length blocks = 0%nat) then mret tt
  else
    batch ← lift (try_fold (λ b block, batch_put RandomnessSchema block.1 block.2 b)
      SchemaBatch_new blocks);
    commit batch.

Definition get_randomness (block_number : N) (c : ConsensusDB) : result Anyhow (option bytes) :=
  get RandomnessSchema block_number c.

(** ** Recovery *)

(** The block numbers of the epoch from [latest_block_number] on, as a map from
    numbers to ids. *)
Definition block_numbers_from (latest_block_number epoch : N) (c : ConsensusDB)
    : result Anyhow (gmap N HashValue) :=
  l ← get_range_with_filter BlockNumberSchema (epoch, HashValue_zero) (epoch, hash_max)
        (λ kv, latest_block_number <=? kv.2) c;
  Ok (list_to_map (reverse ((λ kv, (kv.2, kv.1.2)) <$> l))).

(** Where recovery starts: the block of [latest_block_number], if it is there. *)
Definition recovery_start (latest_block_number epoch : N) (numbers : gmap N HashValue)
    (c : ConsensusDB) : result Anyhow (bool * Round * HashValue) :=
  match numbers !! latest_block_number with
  | Some id =>
      block ← get BlockSchema (epoch, id) c;
      block ← expect "called `Option::unwrap()` on a `None` value" block;
      Ok (true, Block_round block, block_id block)
  | None => Ok (false, 0, HashValue_zero)
  end.

(** [block_id_to_block_number], and the number given to a block without one. *)
Definition number_block (numbers : gmap N HashValue) (b : Block) : Block :=
  match block_block_number b with
  | Some _ => b
  | None =>
      match (list_to_map (prod_swap <$> map_to_list numbers) : gmap HashValue N) !! block_id b with
      | Some n => (set_block_number b n).1
      | None => b
      end
  end.

Definition get_data (latest_block_number epoch : N) (c : ConsensusDB)
    : result Anyhow (option bytes * option bytes * list Block * list QuorumCert * bool) :=
  last_vote ← get_last_vote c;
  tc ← get_highest_2chain_timeout_certificate c;
  numbers ← block_numbers_from latest_block_number epoch c;
  start ← recovery_start latest_block_number epoch numbers c;
  let '(has_root, start_round, start_block_id) := start in
  blocks ← get_range_with_filter BlockSchema (epoch, HashValue_zero) (epoch, hash_max)
    (λ kv, (start_round <? Block_round kv.2) || bool_decide (block_id kv.2 = start_block_id)) c;
  qcs ← get_range_with_filter QCSchema (epoch, HashValue_zero) (epoch, hash_max)
    (λ kv, (start_round <? bi_round (certified_block kv.2)) ||
       bool_decide (bi_id (certified_block kv.2) = start_block_id)) c;
  Ok (last_vote, tc, number_block numbers <$> blocks.*2, qcs.*2, has_root).

(** ** Ledger infos *)

(** A missing column family is read as an empty one. *)
Definition or_empty {A} (r : result Anyhow (list A)) : result Anyhow (list A) :=
  match r with
  | Err e => if names_ledger_info_cf e then Ok [] else Err e
  | _ => r
  end.

(** [iter().seek_to_last(); next()]: the entry with the greatest key. *)
Definition get_latest_ledger_info_in_db_impl (d : DB)
    : result Anyhow (option LedgerInfoWithSignatures) :=
  items ← or_empty (db_iter LedgerInfoSchema None None d);
  match last items with
  | Some item => kv ← item; Ok (Some kv.2)
  | None => Ok None
  end.

(** The entries before the first that cannot be read. *)
Fixpoint readable {E A} (l : list (result E A)) : list A :=
  match l with Ok a :: l => a :: readable l | _ => [] end.

Definition get_ledger_infos_by_range (range : N * N) (c : ConsensusDB)
    : result Anyhow (list LedgerInfoWithSignatures) :=
  _ ← assert_ ((range.2 =? 0) || (range.1 <? range.2))
        "assertion failed: range.1 == 0 || range.0 < range.1";
  lower_bound ← unwrap_key (encode_key LedgerInfoSchema range.1);
  upper_bound ← (if range.2 =? 0 then Ok None
                 else b ← unwrap_key (encode_key LedgerInfoSchema range.2); Ok (Some b));
  items ← or_empty (db_iter LedgerInfoSchema (Some lower_bound) upper_bound (cdb_db c));
  Ok (readable items).*2.

Definition MAX_LEDGER_INFOS : nat := 256.

Definition get_latest_ledger_infos (c : ConsensusDB) : result Anyhow (list LedgerInfoWithSignatures) :=
  items ← or_empty (db_rev_iter LedgerInfoSchema (cdb_db c));
  Ok (readable (take MAX_LEDGER_INFOS items)).*2.

Definition get_block_hash (block_number : N) (c : ConsensusDB) : option HashValue :=
  match get LedgerInfoSchema block_number c with
  | Ok (Some li) => Some (li_block_hash (liws_ledger_info li))
  | _ => None
  end.

Definition update_latest_ledger_info : M ConsensusDB Anyhow unit := λ c,
  match get_latest_ledger_info_in_db_impl (cdb_db c) with
  | Ok li => (Ok tt, set_latest li c)
  | Err e => (Err e, c)
  | Panic m => (Panic m, c)
  end.

(** The block number a ledger info is stored under: the one of the epoch change
    where it has one. *)
Definition ledger_info_block_number (li : LedgerInfoWithSignatures) : N :=
  match bi_epoch_block_info (li_commit_info (liws_ledger_info li)) with
  | Some info => ebi_block_number info
  | None => li_block_number (liws_ledger_info li)
  end.

Definition put_ledger_info (li : LedgerInfoWithSignatures) (batch : SchemaBatch)
    : result Anyhow SchemaBatch :=
  let block_number := ledger_info_block_number li in
  batch ← (if li_ends_epoch (liws_ledger_info li)
           then batch_put EpochByBlockNumberSchema block_number (li_epoch (liws_ledger_info li)) batch
           else Ok batch);
  batch_put LedgerInfoSchema block_number li batch.

(** [DbWriter::save_transactions] with [post_commit]. *)
Definition save_transactions (li : option LedgerInfoWithSignatures) : M ConsensusDB Anyhow unit :=
  batch ← lift (match li with
                | Some li => put_ledger_info li SchemaBatch_new
                | None => Ok SchemaBatch_new
                end);
  _ ← commit batch;
  modify (λ c, match li with Some li => set_latest (Some li) c | None => c end).

Definition get_latest_ledger_info (c : ConsensusDB) : LedgerInfoWithSignatures :=
  default genesis_ledger_info (cdb_latest_ledger_info c).

(** The latest ledger info and the epoch changes from [known_version] on; an
    epoch change whose ledger info cannot be read is skipped. *)
Definition get_state_proof (known_version : N) (c : ConsensusDB)
    : result Anyhow (LedgerInfoWithSignatures * list LedgerInfoWithSignatures) :=
  match get_range EpochByBlockNumberSchema known_version u64_max c with
  | Ok changes =>
      Ok (get_latest_ledger_info c,
          (if known_version =? 0 then [genesis_ledger_info] else []) ++
          omap (λ kv, match get LedgerInfoSchema kv.1 c with Ok li => li | _ => None end) changes)
  | _ => Panic "called `Result::unwrap()` on an `Err` value"
  end.

(** *** The anchor of leader reputation *)

Record CommittedBlockAnchor := {
  cba_block_number : N;
  cba_timestamp_usecs : N;
  cba_block_hash : HashValue;
}.

(** What one ledger info of the scan leads to: stop with an answer, or go on. *)
Inductive AnchorStep := Found (anchor : CommittedBlockAnchor) | Next | Stop.

Definition anchor_step (target_epoch : N) (target_round : Round) (li : LedgerInfoWithSignatures)
    : AnchorStep :=
  let ledger_info := liws_ledger_info li in
  let commit_info := li_commit_info ledger_info in
  if match bi_next_epoch_state commit_info with
     | Some es => es_epoch es =? target_epoch
     | None => false
     end
  then match bi_epoch_block_info commit_info with
       | Some info => Found {| cba_block_number := ebi_block_number info;
                               cba_timestamp_usecs := ebi_epoch_start_timestamp_usecs info;
                               cba_block_hash := ebi_block_hash info |}
       | None => Next
       end
  else if bool_decide (bi_next_epoch_state commit_info = None) &&
          (bi_epoch commit_info =? target_epoch) && (bi_round commit_info <=? target_round)
  then Found {| cba_block_number := li_block_number ledger_info;
                cba_timestamp_usecs := li_timestamp_usecs ledger_info;
                cba_block_hash := li_block_hash ledger_info |}
  else if saturating_add (bi_epoch commit_info) 1 <? target_epoch then Stop
  else Next.

Fixpoint anchor_scan (target_epoch : N) (target_round : Round)
    (items : list (result Anyhow (N * LedgerInfoWithSignatures)))
    : result Anyhow (option CommittedBlockAnchor) :=
  match items with
  | [] => Ok None
  | item :: items =>
      kv ← item;
      match anchor_step target_epoch target_round kv.2 with
      | Found anchor => Ok (Some anchor)
      | Next => anchor_scan target_epoch target_round items
      | Stop => Ok None
      end
  end.

Definition get_reputation_anchor (target_epoch : N) (target_round : Round) (c : ConsensusDB)
    : result Anyhow (option CommittedBlockAnchor) :=
  items ← db_rev_iter LedgerInfoSchema (cdb_db c);
  anchor_scan target_epoch target_round items.

(** ** Unwinding *)

(** quorum_store/types.rs *)
Record BatchKey := { bk_epoch : N; bk_digest : HashValue }.

Definition batch_key (b : BatchInfo) : BatchKey :=
  {| bk_epoch := bin_epoch b; bk_digest := bin_digest b |}.

(** The batches a payload refers to. *)
Definition payload_batch_keys (p : Payload) : list BatchKey :=
  match p with
  | InQuorumStore p => batch_key ∘ pos_info <$> pwd_proofs p
  | InQuorumStoreWithLimit p => batch_key ∘ pos_info <$> pwd_proofs (pwl_proof_with_data p)
  | QuorumStoreInlineHybrid inline p _ =>
      (batch_key ∘ fst <$> inline) ++ (batch_key ∘ pos_info <$> pwd_proofs p)
  | OptQuorumStore p =>
      (batch_key <$> oqs_opt_batches p) ++ (batch_key ∘ pos_info <$> oqs_proofs p)
  | DirectMempool _ => []
  end.

(** Whether a block survives; a block whose number is unknown does not. *)
Definition keeps_block (c : ConsensusDB) (target_block_number : N) (key : N * HashValue) (b : Block)
    : result Anyhow bool :=
  bn ← match block_block_number b with
       | Some n => Ok (Some n)
       | None => get BlockNumberSchema key c
       end;
  match bn with
  | Some num => bound ← add_u64 target_block_number 1; Ok (num <=? bound)
  | None => Ok false
  end.

(** The batch so far, and the batches of the blocks deleted. *)
Record Unwinding := {
  uw_batch : SchemaBatch;
  uw_batches_to_delete : list BatchKey;
}.

Definition unwind_block (c : ConsensusDB) (target_block_number : N) (st : Unwinding * bool)
    (entry : (N * HashValue) * Block) : result Anyhow (Unwinding * bool) :=
  let '(u, all_blocks_kept) := st in
  let '(key, block) := entry in
  keep ← keeps_block c target_block_number key block;
  if (keep : bool) then Ok (u, all_blocks_kept)
  else
    let keys := match Block_payload block with Some p => payload_batch_keys p | None => [] end in
    b ← batch_delete BlockSchema key (uw_batch u);
    b ← batch_delete QCSchema key b;
    b ← batch_delete BlockNumberSchema key b;
    Ok ({| uw_batch := b; uw_batches_to_delete := uw_batches_to_delete u ++ keys |}, false).

(** The epochs from [epoch] down to 1; an epoch all of whose blocks are kept ends
    the scan, an empty one does not. *)
Fixpoint unwind_epochs (c : ConsensusDB) (target_block_number : N) (epoch : nat) (u : Unwinding)
    : result Anyhow Unwinding :=
  match epoch with
  | O => Ok u
  | S previous =>
      let ep := N.of_nat epoch in
      blocks ← get_range BlockSchema (ep, HashValue_zero) (ep, hash_max) c;
      match blocks with
      | [] => unwind_epochs c target_block_number previous u
      | _ =>
          st ← try_fold (unwind_block c target_block_number) (u, true) blocks;
          let '(u, all_blocks_kept) := st in
          if (all_blocks_kept : bool) then Ok u
          else unwind_epochs c target_block_number previous u
      end
  end.

(** Delete the entries of a column family keyed by block numbers from
    [range_start] on. *)
Definition unwind_numbers {V} (s : Schema N V) (range_start : N) (c : ConsensusDB) (b : SchemaBatch)
    : result Anyhow SchemaBatch :=
  entries ← get_range s range_start u64_max c;
  try_fold (λ b kv, batch_delete s kv.1 b) b entries.

(** Everything that is to be deleted; nothing is written yet. *)
Definition unwind_batch (target_block_number max_epoch : N) (c : ConsensusDB)
    : result Anyhow Unwinding :=
  u ← unwind_epochs c target_block_number (N.to_nat max_epoch)
        {| uw_batch := SchemaBatch_new; uw_batches_to_delete := [] |};
  let range_start := saturating_add target_block_number 1 in
  b ← unwind_numbers LedgerInfoSchema range_start c (uw_batch u);
  b ← unwind_numbers EpochByBlockNumberSchema range_start c b;
  b ← unwind_numbers RandomnessSchema range_start c b;
  b ← batch_delete SingleEntrySchema LastVote b;
  b ← batch_delete SingleEntrySchema Highest2ChainTimeoutCert b;
  Ok {| uw_batch := b; uw_batches_to_delete := uw_batches_to_delete u |}.

(** The epochs above the last retained one. *)
Definition cancelled_epochs (max_epoch max_retained_epoch : N) : list N :=
  (λ i, max_retained_epoch + 1 + N.of_nat i) <$>
    seq 0 (N.to_nat (max_epoch - max_retained_epoch)).

(** Step 5, with its error message. *)
Definition refresh_latest_ledger_info : M ConsensusDB Anyhow unit := λ c,
  let '(r, c) := update_latest_ledger_info c in
  (map_err (λ _, Msg "Failed to update latest ledger info") r, c).

Definition unwind_to_block (target_block_number : N)
    : M ConsensusDB Anyhow (list BatchKey * list N) :=
  max_epoch ← gets get_max_epoch;
  u ← gets (unwind_batch target_block_number max_epoch);
  _ ← commit (uw_batch u);
  max_retained_epoch ← gets get_max_epoch;
  _ ← refresh_latest_ledger_info;
  mret (uw_batches_to_delete u, cancelled_epochs max_epoch max_retained_epoch).

End consensus_db.

(** ** Laws of the interface *)

(** A hash is 32 bytes, all zero or all 255 for the two extreme ones; [bcs] reads
    back what it has written. *)
Class DbTypesLaws {GA : Gaptos} {DT : DbTypes} : Prop := {
  length_hash_to_vec h : length (hash_to_vec h) = 32%nat;
  hash_to_vec_bytes h : Forall is_byte (hash_to_vec h);
  hash_from_to_vec h : hash_from_slice (hash_to_vec h) = Ok h;
  hash_to_from_slice l h : hash_from_slice l = Ok h → hash_to_vec h = l;
  hash_to_vec_zero : hash_to_vec HashValue_zero = replicate 32 0;
  hash_to_vec_max : hash_to_vec hash_max = replicate 32 255;
  block_fields_of_to_bcs x data : bcs_block_fields x = Ok data → block_fields_of_bcs data = Ok x;
}.

Definition in_range (lo hi : option bytes) (kb : bytes) : Prop :=
  (∀ l, lo = Some l → ¬ bytes_lt kb l) ∧ (∀ h, hi = Some h → bytes_lt kb h).

(** The entries of a column family in a range, in key order. *)
Record scan_of (cf : string) (lo hi : option bytes) (m : gmap (string * bytes) bytes)
    (es : list (bytes * bytes)) : Prop := {
  so_sorted : StronglySorted (λ e e', bytes_lt e.1 e'.1) es;
  so_elem kb vb : (kb, vb) ∈ es ↔ m !! (cf, kb) = Some vb ∧ in_range lo hi kb;
}.

(** An item that was read is the decoded entry. *)
Definition reads {GA : Gaptos} {K V} (s : Schema K V) (item : result Anyhow (K * V))
    (e : bytes * bytes) : Prop :=
  ∀ k v, item = Ok (k, v) → decode_key s e.1 = Ok k ∧ decode_value s e.2 = Ok v.

(** The database is a map from column families and encoded keys to encoded
    values; a write is atomic. *)
Class SchemaDbLaws {GA : Gaptos} {SD : SchemaDb} := {
  db_contents : DB → gmap (string * bytes) bytes;
  db_get_Ok {K V} (s : Schema K V) k d o :
    db_get s k d = Ok o →
    ∃ kb, encode_key s k = Ok kb ∧
      match db_contents d !! (column_family s, kb) with
      | None => o = None
      | Some vb => ∃ v, decode_value s vb = Ok v ∧ o = Some v
      end;
  db_iter_Ok {K V} (s : Schema K V) lo hi d items :
    db_iter s lo hi d = Ok items →
    ∃ es, scan_of (column_family s) lo hi (db_contents d) es ∧ Forall2 (reads s) items es;
  db_rev_iter_Ok {K V} (s : Schema K V) d items :
    db_rev_iter s d = Ok items →
    ∃ es, scan_of (column_family s) None None (db_contents d) es ∧
      Forall2 (reads s) items (reverse es);
  batch_effect : SchemaBatch → gmap (string * bytes) bytes → gmap (string * bytes) bytes;
  batch_effect_new m : batch_effect SchemaBatch_new m = m;
  batch_put_Ok {K V} (s : Schema K V) k v b b' :
    batch_put s k v b = Ok b' →
    ∃ kb vb, encode_key s k = Ok kb ∧ encode_value s v = Ok vb ∧
      ∀ m, batch_effect b' m = <[(column_family s, kb) := vb]> (batch_effect b m);
  batch_delete_Ok {K V} (s : Schema K V) k b b' :
    batch_delete s k b = Ok b' →
    ∃ kb, encode_key s k = Ok kb ∧
      ∀ m, batch_effect b' m = delete (column_family s, kb) (batch_effect b m);
  db_write_Ok b d d' u :
    db_write_schemas b d = (Ok u, d') → db_contents d' = batch_effect b (db_contents d);
  db_write_Err b d d' e :
    db_write_schemas b d = (Err e, d') → db_contents d' = db_contents d;
  db_write_no_panic b d m : (db_write_schemas b d).1 ≠ Panic m;
}.

Section theorems.
Context {GA : Gaptos} {VE : Verifier} {CR : Crypto} {DT : DbTypes} {SD : SchemaDb}.
Context {TL : DbTypesLaws} {DL : SchemaDbLaws}.
Implicit Types (c : ConsensusDB).

(** ** Codecs *)

(** Keys whose encoding can be read back. *)
Definition key_ok {K V} (s : Schema K V) (k : K) : Prop :=
  ∃ kb, encode_key s k = Ok kb ∧ decode_key s kb = Ok k.

Lemma decode_encode_u64 x : x ≤ u64_max → decode_u64 (to_be_bytes 8 x) = Ok x.
Proof.
  intros Hx. unfold decode_u64, ensure_slice_len_eq.
  rewrite bool_decide_eq_true_2 by apply length_to_be_bytes. simpl.
  by rewrite from_to_be_bytes by by apply u64_bytes.
Qed.

Lemma decode_encode_epoch_hash e h :
  e ≤ u64_max → decode_epoch_hash (to_be_bytes 8 e ++ hash_to_vec h) = Ok (e, h).
Proof.
  intros He. unfold decode_epoch_hash.
  rewrite drop_app_length', take_app_length' by (symmetry; apply length_to_be_bytes).
  rewrite hash_from_to_vec, length_app, length_to_be_bytes, length_hash_to_vec. simpl. by rewrite from_to_be_bytes by by apply u64_bytes.
Qed.

(** Encoded [(epoch, hash)] keys are ordered by epoch, then by hash. *)
Lemma epoch_hash_order e e' l l' :
  e ≤ u64_max → e' ≤ u64_max →
  bytes_lt (to_be_bytes 8 e ++ l) (to_be_bytes 8 e' ++ l') ↔ e < e' ∨ e = e' ∧ bytes_lt l l'.
Proof.
  intros He He'. unfold bytes_lt. rewrite bytes_ltb_app by by rewrite !length_to_be_bytes.
  rewrite to_be_bytes_ltb by by apply u64_bytes.
  assert (bool_decide (to_be_bytes 8 e = to_be_bytes 8 e') = bool_decide (e = e')) as ->.
  { apply bool_decide_ext. split; [|by intros ->]. intros Heq%(f_equal from_be_bytes).
    by rewrite !from_to_be_bytes in Heq by by apply u64_bytes. }
  guards. done.
Qed.

(** Between the all-zero and the all-255 hash lie all hashes but the latter. *)
Lemma bytes_lt_zero n l : Forall is_byte l → length l = n → ¬ bytes_lt l (replicate n 0).
Proof.
  unfold bytes_lt. intros Hl <-. induction Hl as [|b l Hb Hl IH]; simpl; [done|].
  guards. intros [?|[_ ?]]; [lia|done].
Qed.

Lemma bytes_lt_max n l :
  Forall is_byte l → length l = n → l ≠ replicate n 255 → bytes_lt l (replicate n 255).
Proof.
  unfold bytes_lt, is_byte. intros Hl <-. induction Hl as [|b l Hb Hl IH]; simpl; [done|].
  intros Hne. guards. destruct (decide (b = 255)) as [->|]; [|left; lia].
  right. split; [done|]. apply IH. by intros Heq%(f_equal (cons 255)).
Qed.

(** ** Rows *)

(** The value a table has under a key. *)
Definition row {K V} (s : Schema K V) c (k : K) (v : V) : Prop :=
  ∃ kb vb, encode_key s k = Ok kb ∧ decode_key s kb = Ok k ∧
    db_contents (cdb_db c) !! (column_family s, kb) = Some vb ∧ decode_value s vb = Ok v.

(** Every entry of the table was written under a readable key with a readable
    value. *)
Definition table_ok {K V} (s : Schema K V) c : Prop :=
  ∀ kb vb, db_contents (cdb_db c) !! (column_family s, kb) = Some vb →
    ∃ k v, encode_key s k = Ok kb ∧ decode_key s kb = Ok k ∧ decode_value s vb = Ok v.

Lemma row_fun {K V} (s : Schema K V) c k v v' : row s c k v → row s c k v' → v = v'.
Proof. intros (kb & vb & Hk & _ & Hl & Hv) (kb' & vb' & Hk' & _ & Hl' & Hv'). congruence. Qed.

Lemma get_row {K V} (s : Schema K V) c k o :
  key_ok s k → get s k c = Ok o → ∀ v, o = Some v ↔ row s c k v.
Proof.
  intros (kb0 & Hk0 & Hd) (kb & Hk & Hl)%db_get_Ok v. assert (kb0 = kb) as -> by congruence.
  destruct (db_contents _ !! _) as [vb|] eqn:Hvb.
  - destruct Hl as (v' & Hv' & ->). split.
    + intros [= ->]. by exists kb, vb.
    + intros (kb' & vb' & Hk' & _ & Hl' & Hv). congruence.
  - subst o. split; [done|]. intros (kb' & vb' & Hk' & _ & Hl' & _). congruence.
Qed.

Lemma collect_results_Ok {E A} (l : list (result E A)) r :
  collect_results l = Ok r → l = Ok <$> r.
Proof.
  revert r. induction l as [|x l IH]; intros r; simpl; intros; run_inv; [done|].
  simpl. f_equal. by apply IH.
Qed.

Lemma unwrap_key_Ok r b : unwrap_key r = Ok b → r = Ok b.
Proof. destruct r; simpl; naive_solver. Qed.

(** What a complete scan has read. *)
Lemma items_read {K V} (s : Schema K V) (l : list (K * V)) es :
  Forall2 (reads s) (Ok <$> l) es → ∀ k v,
  (k, v) ∈ l ↔ ∃ e, e ∈ es ∧ decode_key s e.1 = Ok k ∧ decode_value s e.2 = Ok v.
Proof.
  revert es. induction l as [|[k0 v0] l IH]; intros es Hall k v;
    inversion Hall as [|? e ? es' Hr Hall']; subst.
  - split; [by intros ?%not_elem_of_nil|]. by intros (e & ?%not_elem_of_nil & _).
  - destruct (Hr k0 v0 eq_refl) as [Hk Hv]. rewrite elem_of_cons, (IH es' Hall'). split.
    + intros [[= -> ->]|(e' & He' & Hd)]; [exists e|exists e']; set_solver.
    + intros (e' & [->|He']%elem_of_cons & Hk' & Hv'); [left; congruence|right; eauto].
Qed.

(** A range scan returns the rows whose encoded key lies in the range. *)
Lemma get_range_rows {K V} (s : Schema K V) k1 k2 c l :
  table_ok s c → get_range s k1 k2 c = Ok l →
  ∃ lo hi, encode_key s k1 = Ok lo ∧ encode_key s k2 = Ok hi ∧
    ∀ k v, (k, v) ∈ l ↔ row s c k v ∧
      ∃ kb, encode_key s k = Ok kb ∧ in_range (Some lo) (Some hi) kb.
Proof.
  intros Hok Hr. unfold get_range in Hr.
  apply bind_Ok in Hr as (lo & H1%unwrap_key_Ok & Hr).
  apply bind_Ok in Hr as (hi & H2%unwrap_key_Ok & Hr). run_inv.
  exists lo, hi. split; [done|]. split; [done|].
  apply collect_results_Ok in Hr as ->.
  match goal with H : db_iter _ _ _ _ = Ok _ |- _ => apply db_iter_Ok in H as (es & Hes & Hall) end.
  intros k v. rewrite (items_read s l es) by done. split.
  - intros ([kb vb] & He%(so_elem _ _ _ _ _ Hes) & Hk & Hv). destruct He as [Hl Hrange].
    destruct (Hok kb vb Hl) as (k' & v' & Hk' & Hd & _). simpl in *. assert (k' = k) as -> by congruence.
    split; [by exists kb, vb|by exists kb].
  - intros ((kb & vb & Hk & Hd & Hl & Hv) & kb2 & Hk2 & Hrange).
    exists (kb, vb). split; [apply (so_elem _ _ _ _ _ Hes); split; [done|congruence]|done].
Qed.

(** *** Ranges of epochs and of block numbers *)

Definition epoch_hash_bytes (key : N * HashValue) : bytes := to_be_bytes 8 key.1 ++ hash_to_vec key.2.

Lemma encode_epoch_hash_Ok key kb : encode_epoch_hash key = Ok kb → kb = epoch_hash_bytes key.
Proof. unfold encode_epoch_hash, epoch_hash_bytes. congruence. Qed.

Lemma encode_u64_Ok n kb : encode_u64 n = Ok kb → kb = to_be_bytes 8 n.
Proof. unfold encode_u64. congruence. Qed.

Lemma hash_to_vec_inj h h' : hash_to_vec h = hash_to_vec h' → h = h'.
Proof. intros Heq%(f_equal hash_from_slice). rewrite !hash_from_to_vec in Heq. by injection Heq. Qed.

Lemma decoded_epoch e h : decode_epoch_hash (epoch_hash_bytes (e, h)) = Ok (e, h) → e ≤ u64_max.
Proof.
  unfold decode_epoch_hash, epoch_hash_bytes. cbn [fst snd].
  rewrite take_app_length' by (symmetry; apply length_to_be_bytes).
  intros (_ & Hd)%bind_unit_Ok. apply bind_Ok in Hd as (h' & _ & [= Hd _]).
  rewrite <- Hd. apply from_to_be_bytes_u64.
Qed.

Lemma epoch_in_range ep e h :
  ep ≤ u64_max → e ≤ u64_max →
  in_range (Some (epoch_hash_bytes (ep, HashValue_zero))) (Some (epoch_hash_bytes (ep, hash_max)))
    (epoch_hash_bytes (e, h)) ↔ e = ep ∧ h ≠ hash_max.
Proof.
  intros Hep He. unfold in_range, epoch_hash_bytes. cbn [fst snd].
  rewrite hash_to_vec_zero, hash_to_vec_max.
  pose proof (bytes_lt_zero 32 (hash_to_vec h) (hash_to_vec_bytes h) (length_hash_to_vec h)) as H0.
  split.
  - intros [Hlo Hhi]. specialize (Hlo _ eq_refl). specialize (Hhi _ eq_refl).
    rewrite epoch_hash_order in Hlo, Hhi by done. destruct Hhi as [Hhi|[-> Hhi]].
    + destruct Hlo. by left.
    + split; [done|]. intros ->. rewrite hash_to_vec_max in Hhi. by apply irreflexivity in Hhi.
  - intros [-> Hne]. split; intros ? <-%(inj Some); rewrite epoch_hash_order by done.
    + intros [?|[_ ?]]; [lia|done].
    + right. split; [done|]. apply bytes_lt_max; [apply hash_to_vec_bytes|apply length_hash_to_vec|].
      rewrite <- hash_to_vec_max. by intros ?%hash_to_vec_inj.
Qed.

(** The scan of an epoch: all its rows but one under the greatest hash. *)
Lemma epoch_rows {V} (s : Schema (N * HashValue) V) c ep l :
  encode_key s = encode_epoch_hash → decode_key s = decode_epoch_hash → ep ≤ u64_max →
  table_ok s c → get_range s (ep, HashValue_zero) (ep, hash_max) c = Ok l →
  ∀ key v, (key, v) ∈ l ↔ row s c key v ∧ key.1 = ep ∧ key.2 ≠ hash_max.
Proof.
  intros Henc Hdec Hep Hok (lo & hi & Hlo & Hhi & Hl)%get_range_rows [e h] v; [|done].
  rewrite Henc in Hlo, Hhi. apply encode_epoch_hash_Ok in Hlo as ->. apply encode_epoch_hash_Ok in Hhi as ->. rewrite Hl. simpl.
  assert (Hrow : row s c (e, h) v → e ≤ u64_max).
  { intros (kb & vb & Hk & Hd & _). rewrite Henc in Hk. rewrite Hdec in Hd. apply encode_epoch_hash_Ok in Hk as ->.
    by eapply decoded_epoch. }
  split; intros [Hr H]; (split; [done|]); specialize (Hrow Hr).
  - destruct H as (kb & Hk & Hin). rewrite Henc in Hk. apply encode_epoch_hash_Ok in Hk as ->.
    by apply (epoch_in_range ep e h) in Hin.
  - exists (epoch_hash_bytes (e, h)). rewrite Henc. split; [done|]. by apply epoch_in_range.
Qed.

(** The scan of block numbers up to the greatest one, which it misses. *)
Lemma number_rows {V} (s : Schema N V) c a l :
  encode_key s = encode_u64 → decode_key s = decode_u64 → a ≤ u64_max →
  table_ok s c → get_range s a u64_max c = Ok l →
  ∀ n v, (n, v) ∈ l ↔ row s c n v ∧ a ≤ n ∧ n ≠ u64_max.
Proof.
  intros Henc Hdec Ha Hok (lo & hi & Hlo & Hhi & Hl)%get_range_rows n v; [|done].
  rewrite Henc in Hlo, Hhi. apply encode_u64_Ok in Hlo as ->. apply encode_u64_Ok in Hhi as ->. rewrite Hl.
  assert (Hrow : row s c n v → n ≤ u64_max).
  { intros (kb & vb & Hk & Hd & _). rewrite Henc in Hk. rewrite Hdec in Hd. apply encode_u64_Ok in Hk as ->.
    apply bind_unit_Ok in Hd as (_ & [= <-]). apply from_to_be_bytes_u64. }
  assert (Hin : n ≤ u64_max → in_range (Some (to_be_bytes 8 a)) (Some (to_be_bytes 8 u64_max))
    (to_be_bytes 8 n) ↔ a ≤ n ∧ n ≠ u64_max).
  { intros Hn. unfold in_range, bytes_lt. split.
    - intros [H1 H2]. specialize (H1 _ eq_refl). specialize (H2 _ eq_refl).
      rewrite to_be_bytes_ltb in H1, H2 by by apply u64_bytes. guards. lia.
    - intros [H1 H2]. split; intros ? <-%(inj Some); (rewrite to_be_bytes_ltb by (by apply u64_bytes)); guards; lia. }
  split; intros [Hr H]; (split; [done|]); specialize (Hrow Hr).
  - destruct H as (kb & Hk & Hrange). rewrite Henc in Hk. apply encode_u64_Ok in Hk as ->. by apply Hin.
  - exists (to_be_bytes 8 n). rewrite Henc. split; [done|]. by apply Hin.
Qed.

(** The key codecs: what is encoded is decoded, only encoded keys are decoded, and
    the byte order of the keys, which the scans follow, is the order of the block
    numbers, and of the epochs and then of the hashes. *)
Theorem key_codecs :
  (∀ n, n ≤ u64_max → encode_u64 n ≫= decode_u64 = Ok n) ∧
  (∀ key, key.1 ≤ u64_max → encode_epoch_hash key ≫= decode_epoch_hash = Ok key) ∧
  (∀ k, encode_single_entry k ≫= decode_single_entry = Ok k) ∧
  (∀ data n, Forall is_byte data → decode_u64 data = Ok n → encode_u64 n = Ok data) ∧
  (∀ data key, Forall is_byte data → decode_epoch_hash data = Ok key →
     encode_epoch_hash key = Ok data) ∧
  (∀ n n' kb kb', n ≤ u64_max → n' ≤ u64_max → encode_u64 n = Ok kb → encode_u64 n' = Ok kb' →
     bytes_lt kb kb' ↔ n < n') ∧
  (∀ key key' kb kb', key.1 ≤ u64_max → key'.1 ≤ u64_max →
     encode_epoch_hash key = Ok kb → encode_epoch_hash key' = Ok kb' →
     bytes_lt kb kb' ↔
     key.1 < key'.1 ∨ key.1 = key'.1 ∧ bytes_lt (hash_to_vec key.2) (hash_to_vec key'.2)).
Proof.
  split_and!.
  - intros n Hn. by apply decode_encode_u64.
  - intros [e h] He. by apply decode_encode_epoch_hash.
  - by intros [].
  - intros data n Hd (Hlen & [= <-])%bind_unit_Ok. apply ensure_Ok in Hlen. guards.
    unfold encode_u64. f_equal. by apply to_from_be_bytes.
  - intros data key Hd (Hlen & H)%bind_unit_Ok. apply assert_Ok in Hlen. guards.
    apply bind_Ok in H as (h & Hh%hash_to_from_slice & [= <-]). unfold encode_epoch_hash.
    cbn [fst snd]. rewrite Hh, to_from_be_bytes; [by rewrite take_drop|by apply Forall_take|].
    rewrite length_take. lia.
  - intros n n' kb kb' Hn Hn' ->%encode_u64_Ok ->%encode_u64_Ok. unfold bytes_lt.
    rewrite to_be_bytes_ltb by by apply u64_bytes. by guards.
  - intros key key' kb kb' Hn Hn' ->%encode_epoch_hash_Ok ->%encode_epoch_hash_Ok.
    by apply epoch_hash_order.
Qed.

(** ** What a batch deletes *)

Definition deletes (b b' : SchemaBatch) (dead : list (string * bytes)) : Prop :=
  ∀ m x, batch_effect b' m !! x = if bool_decide (x ∈ dead) then None else batch_effect b m !! x.

Lemma deletes_refl b : deletes b b [].
Proof. intros m x. by rewrite bool_decide_eq_false_2 by apply not_elem_of_nil. Qed.

Lemma deletes_trans b1 b2 b3 l l' : deletes b1 b2 l → deletes b2 b3 l' → deletes b1 b3 (l ++ l').
Proof.
  intros H12 H23 m x. rewrite H23, H12. repeat case_bool_decide; set_solver.
Qed.

Lemma batch_delete_deletes {K V} (s : Schema K V) k b b' :
  batch_delete s k b = Ok b' → ∃ kb, encode_key s k = Ok kb ∧ deletes b b' [(column_family s, kb)].
Proof.
  intros (kb & Hk & Hb)%batch_delete_Ok. exists kb. split; [done|]. intros m x. rewrite Hb.
  case_bool_decide as Hx.
  - apply list_elem_of_singleton in Hx as ->. apply lookup_delete_eq.
  - apply lookup_delete_ne. intros <-. apply Hx. by apply list_elem_of_singleton.
Qed.

(** ** Unwinding *)

(** The number of a block: its own, or the one stored for it. *)
Definition number_of c (key : N * HashValue) (b : Block) (n : N) : Prop :=
  block_block_number b = Some n ∨
  block_block_number b = None ∧ row BlockNumberSchema c key n.

Definition survives c (target : N) (key : N * HashValue) (b : Block) : Prop :=
  ∃ n, number_of c key b n ∧ n ≤ target + 1.

Lemma keeps_block_survives c target key b keep :
  key_ok BlockNumberSchema key → keeps_block c target key b = Ok keep →
  keep = true ↔ survives c target key b.
Proof.
  intros Hkey Hk. unfold keeps_block in Hk. apply bind_Ok in Hk as (bn & Hbn & Hk).
  assert (Hnum : ∀ n, bn = Some n ↔ number_of c key b n).
  { intros n. unfold number_of. destruct (block_block_number b) as [n0|].
    - injection Hbn as <-. naive_solver.
    - rewrite (get_row _ _ _ _ Hkey Hbn). naive_solver. }
  unfold survives. destruct bn as [n|].
  - run_inv. guards. split.
    + intros Hle. exists n. split; [by apply Hnum|done].
    + intros (n' & Hn'%Hnum & Hle). congruence.
  - injection Hk as <-. split; [done|]. intros (n & Hn%Hnum & _). done.
Qed.

(** The keys of a block in the three tables keyed like it. *)
Definition block_entries (e : (N * HashValue) * Block) : list (string * bytes) :=
  let kb := epoch_hash_bytes e.1 in
  [("block", kb); ("quorum_certificate", kb); ("block_number", kb)].

Definition block_batch_keys (e : (N * HashValue) * Block) : list BatchKey :=
  match Block_payload e.2 with Some p => payload_batch_keys p | None => [] end.

(** What a part of the scan has put into the batch: the blocks [dead]. *)
Record unwound (u u' : Unwinding) (dead : list ((N * HashValue) * Block)) : Prop := {
  un_deletes : deletes (uw_batch u) (uw_batch u') (concat (block_entries <$> dead));
  un_keys : uw_batches_to_delete u' = uw_batches_to_delete u ++ concat (block_batch_keys <$> dead);
}.

Lemma unwound_refl u : unwound u u [].
Proof. split; [apply deletes_refl|by rewrite app_nil_r]. Qed.

Lemma unwound_trans u1 u2 u3 l l' : unwound u1 u2 l → unwound u2 u3 l' → unwound u1 u3 (l ++ l').
Proof.
  intros [Hd Hk] [Hd' Hk']. split; rewrite fmap_app, concat_app.
  - by eapply deletes_trans.
  - by rewrite Hk', Hk, app_assoc.
Qed.

Lemma unwind_block_unwound c target u kept e u' kept' :
  key_ok BlockNumberSchema e.1 →
  unwind_block c target (u, kept) e = Ok (u', kept') →
  survives c target e.1 e.2 ∧ u' = u ∧ kept' = kept ∨
  ¬ survives c target e.1 e.2 ∧ unwound u u' [e] ∧ kept' = false.
Proof.
  destruct e as [key b]. intros Hkey H. unfold unwind_block in H.
  apply bind_Ok in H as (keep & Hkeep & H).
  pose proof (keeps_block_survives _ _ _ _ _ Hkey Hkeep) as Hs.
  destruct keep; [left; injection H as <- <-; split; [by apply Hs|done]|right].
  split; [by intros ?%Hs|].
  apply bind_Ok in H as (b1 & H1 & H). apply bind_Ok in H as (b2 & H2 & H).
  apply bind_Ok in H as (b3 & H3 & H). injection H as <- <-. split; [|done]. split; [|simpl; by rewrite app_nil_r].
  apply batch_delete_deletes in H1 as (k1 & ->%encode_epoch_hash_Ok & H1).
  apply batch_delete_deletes in H2 as (k2 & ->%encode_epoch_hash_Ok & H2).
  apply batch_delete_deletes in H3 as (k3 & ->%encode_epoch_hash_Ok & H3).
  exact (deletes_trans _ _ _ _ _ H1 (deletes_trans _ _ _ _ _ H2 H3)).
Qed.

(** One epoch: the blocks that do not survive are deleted. *)
Lemma unwind_blocks_unwound c target blocks u kept u' kept' :
  Forall (λ e, key_ok BlockNumberSchema e.1) blocks →
  try_fold (unwind_block c target) (u, kept) blocks = Ok (u', kept') →
  ∃ dead, unwound u u' dead ∧
    (∀ e, e ∈ dead ↔ e ∈ blocks ∧ ¬ survives c target e.1 e.2) ∧
    (∀ e, e ∈ blocks → e ∈ dead ∨ survives c target e.1 e.2) ∧
    kept' = kept && bool_decide (length dead = 0%nat).
Proof.
  revert u kept. induction blocks as [|e blocks IH]; intros u kept Hkeys H.
  { injection H as <- <-. exists []. split; [apply unwound_refl|].
    split; [set_solver|]. split; [set_solver|]. by rewrite andb_true_r. }
  apply Forall_cons in Hkeys as [Hkey Hkeys].
  cbn [try_fold] in H. apply bind_Ok in H as ([u1 kept1] & He & H).
  destruct (IH u1 kept1 Hkeys H) as (dead & Hun & Hdead & Hall & ->).
  destruct (unwind_block_unwound _ _ _ _ _ _ _ Hkey He) as [(Hs & -> & ->)|(Hs & Hu & ->)].
  - exists dead. split; [done|]. split; [|split; [set_solver|done]].
    intros e'. rewrite Hdead, elem_of_cons. naive_solver.
  - exists (e :: dead). split; [exact (unwound_trans _ _ _ [e] _ Hu Hun)|].
    split; [|split; [set_solver|by rewrite andb_false_r]].
    intros e'. rewrite !elem_of_cons, Hdead. naive_solver.
Qed.

(** A row the scan of its epoch sees; only a row under the greatest hash is
    outside every scan. *)
Definition block_in_epoch c (ep : N) (key : N * HashValue) (b : Block) : Prop :=
  row BlockSchema c key b ∧ key.1 = ep ∧ key.2 ≠ hash_max.

(** The scan ends at an epoch that has blocks and keeps them all. *)
Definition epoch_kept c (target ep : N) : Prop :=
  (∃ key b, block_in_epoch c ep key b) ∧
  ∀ key b, block_in_epoch c ep key b → survives c target key b.

Definition dead_block c (target max_epoch : N) (key : N * HashValue) (b : Block) : Prop :=
  ∃ ep, 1 ≤ ep ≤ max_epoch ∧ block_in_epoch c ep key b ∧ ¬ survives c target key b ∧
    ∀ ep', ep < ep' ≤ max_epoch → ¬ epoch_kept c target ep'.

Lemma block_key_ok key b c : row BlockSchema c key b → key_ok BlockNumberSchema key.
Proof. intros (kb & _ & Hk & Hd & _). by exists kb. Qed.

Lemma dead_block_kept c target ep key b : epoch_kept c target ep → ¬ dead_block c target ep key b.
Proof.
  intros [Hex Hs] (ep2 & ? & He & Hd & Hno). destruct (decide (ep2 = ep)) as [->|].
  - by apply Hd, Hs.
  - by apply (Hno ep ltac:(lia)).
Qed.

Lemma dead_block_down c target ep ep' key b :
  ¬ epoch_kept c target ep → ep = ep' + 1 →
  dead_block c target ep key b ↔
  block_in_epoch c ep key b ∧ ¬ survives c target key b ∨ dead_block c target ep' key b.
Proof.
  intros Hkept Hep. split.
  - intros (ep2 & ? & He & Hs & Hk). destruct (decide (ep2 = ep)) as [->|]; [by left|right].
    exists ep2. split_and!; [lia|lia|done|done|]. intros ep3 ?. apply Hk. lia.
  - intros [[He Hs]|(ep2 & ? & He & Hs & Hk)].
    + exists ep. split_and!; [lia|lia|done|done|lia].
    + exists ep2. split_and!; [lia|lia|done|done|]. intros ep3 ?.
      destruct (decide (ep3 = ep)) as [->|]; [done|apply Hk; lia].
Qed.

Lemma unwind_epoch_unwound c target ep blocks u u' kept :
  (∀ key b, (key, b) ∈ blocks ↔ block_in_epoch c ep key b) → blocks ≠ [] →
  try_fold (unwind_block c target) (u, true) blocks = Ok (u', kept) →
  ∃ dead, unwound u u' dead ∧
    (∀ e, e ∈ dead ↔ block_in_epoch c ep e.1 e.2 ∧ ¬ survives c target e.1 e.2) ∧
    (kept = true ↔ epoch_kept c target ep).
Proof.
  intros Hrows Hne (dead & Hun & Hdead & Hall & ->)%unwind_blocks_unwound.
  2:{ apply Forall_forall. intros [key b] [Hr _]%Hrows. by eapply block_key_ok. }
  exists dead. split; [done|].
  assert (Hd : ∀ e, e ∈ dead ↔ block_in_epoch c ep e.1 e.2 ∧ ¬ survives c target e.1 e.2).
  { intros [key b]. by rewrite Hdead, Hrows. }
  split; [done|]. rewrite andb_true_l, bool_decide_eq_true, length_zero_iff_nil. split.
  - intros ->. split.
    + destruct blocks as [|[key b] blocks]; [done|]. exists key, b. apply Hrows. by left.
    + intros key b He%Hrows. by destruct (Hall (key, b) He) as [?%not_elem_of_nil|].
  - intros [_ Hs]. destruct dead as [|e dead]; [done|].
    destruct (proj1 (Hd e)) as [He Hn]; [by left|]. by apply Hs in He.
Qed.

(** The scan deletes exactly the dead blocks. *)
Lemma unwind_epochs_unwound c target epoch u u' :
  table_ok BlockSchema c → N.of_nat epoch ≤ u64_max →
  unwind_epochs c target epoch u = Ok u' →
  ∃ dead, unwound u u' dead ∧
    ∀ e, e ∈ dead ↔ dead_block c target (N.of_nat epoch) e.1 e.2.
Proof.
  intros Hok. revert u. induction epoch as [|epoch IH]; intros u Hmax H.
  { injection H as <-. exists []. split; [apply unwound_refl|]. intros e.
    split; [set_solver|]. intros (ep & ? & _). lia. }
  cbn [unwind_epochs] in H. apply bind_Ok in H as (blocks & Hblocks & H).
  pose proof (epoch_rows BlockSchema c _ blocks eq_refl eq_refl Hmax Hok Hblocks) as Hrows.
  assert (Hdown : ∀ u1 dead1, unwound u u1 dead1 →
    (∀ e, e ∈ dead1 ↔ block_in_epoch c (N.of_nat (S epoch)) e.1 e.2 ∧
                       ¬ survives c target e.1 e.2) →
    ¬ epoch_kept c target (N.of_nat (S epoch)) → unwind_epochs c target epoch u1 = Ok u' →
    ∃ dead, unwound u u' dead ∧
      ∀ e, e ∈ dead ↔ dead_block c target (N.of_nat (S epoch)) e.1 e.2).
  { intros u1 dead1 Hun1 Hdead1 Hkept (dead2 & Hun2 & Hdead2)%IH; [|lia].
    exists (dead1 ++ dead2). split; [by eapply unwound_trans|]. intros e.
    rewrite elem_of_app, Hdead1, Hdead2. symmetry. apply dead_block_down; [done|lia]. }
  destruct blocks as [|b0 blocks].
  { apply (Hdown u []); [apply unwound_refl| | |done].
    - intros [key b]. split; [set_solver|]. intros [He _]. by apply Hrows, not_elem_of_nil in He.
    - intros [(key & b & He) _]. by apply Hrows, not_elem_of_nil in He. }
  apply bind_Ok in H as ([u1 kept] & Hfold & H).
  apply (unwind_epoch_unwound _ _ (N.of_nat (S epoch))) in Hfold as (dead & Hun & Hdead & Hkept);
    [|exact Hrows|done].
  destruct kept; [|apply (Hdown u1 dead); [done|done|by rewrite <- Hkept|done]].
  destruct (proj1 Hkept eq_refl) as [Hex Hs].
  injection H as <-. exists dead. split; [done|]. intros e. rewrite Hdead. split.
  - intros [He Hd]. by apply Hs in He.
  - by intros ?%dead_block_kept.
Qed.

(** *** The tables keyed by block numbers *)

Definition number_entry {V} (s : Schema N V) (n : N) : string * bytes :=
  (column_family s, to_be_bytes 8 n).

Lemma unwind_numbers_deletes {V} (s : Schema N V) a c b b' :
  encode_key s = encode_u64 → decode_key s = decode_u64 → a ≤ u64_max → table_ok s c →
  unwind_numbers s a c b = Ok b' →
  ∃ dead, deletes b b' (number_entry s <$> dead) ∧
    ∀ n, n ∈ dead ↔ (∃ v, row s c n v) ∧ a ≤ n ∧ n ≠ u64_max.
Proof.
  intros Henc Hdec Ha Hok H. unfold unwind_numbers in H. apply bind_Ok in H as (l & Hl & H).
  pose proof (number_rows s c a l Henc Hdec Ha Hok Hl) as Hrows.
  exists l.*1. split; [|intros n; rewrite list_elem_of_fmap; split].
  - clear Hl Hrows. revert b H. induction l as [|[n v] l IH]; intros b H.
    { injection H as <-. apply deletes_refl. }
    cbn [try_fold] in H. apply bind_Ok in H as (b1 & H1 & H).
    apply batch_delete_deletes in H1 as (kb & Hkb & H1). rewrite Henc in Hkb.
    apply encode_u64_Ok in Hkb as ->. exact (deletes_trans _ _ _ _ _ H1 (IH _ H)).
  - intros ([n' v] & -> & (Hr & Hn)%Hrows). split; [by exists v|done].
  - intros ((v & Hr) & Hn). exists (n, v). split; [done|]. by apply Hrows.
Qed.

(** *** Rows that are left *)

Lemma row_deleted {K V} (s : Schema K V) c c' (dead : list (string * bytes)) k v :
  (∀ x, db_contents (cdb_db c') !! x =
    if bool_decide (x ∈ dead) then None else db_contents (cdb_db c) !! x) →
  row s c' k v ↔ row s c k v ∧ ∀ kb, encode_key s k = Ok kb → (column_family s, kb) ∉ dead.
Proof.
  intros Hc. unfold row. split.
  - intros (kb & vb & Hk & Hd & Hl & Hv). rewrite Hc in Hl. case_bool_decide; [done|].
    split; [by exists kb, vb|]. intros kb' Hk'. congruence.
  - intros ((kb & vb & Hk & Hd & Hl & Hv) & Hn). exists kb, vb. rewrite Hc.
    rewrite bool_decide_eq_false_2 by by apply Hn. done.
Qed.

Definition unwound_entries (dead : list ((N * HashValue) * Block)) (lis eps rnds : list N)
    : list (string * bytes) :=
  concat (block_entries <$> dead) ++ (number_entry LedgerInfoSchema <$> lis) ++
  (number_entry EpochByBlockNumberSchema <$> eps) ++ (number_entry RandomnessSchema <$> rnds) ++
  [("single_entry", [0]); ("single_entry", [1])].

Lemma elem_of_number_entries {V} (s : Schema N V) (l : list N) cf kb :
  (cf, kb) ∈ number_entry s <$> l ↔ cf = column_family s ∧ ∃ n, n ∈ l ∧ kb = to_be_bytes 8 n.
Proof. rewrite list_elem_of_fmap. unfold number_entry. naive_solver. Qed.

Lemma elem_of_block_entries dead cf kb :
  (cf, kb) ∈ concat (block_entries <$> dead) ↔
  (cf = "block" ∨ cf = "quorum_certificate" ∨ cf = "block_number") ∧
    (∃ e, e ∈ dead ∧ kb = epoch_hash_bytes e.1).
Proof.
  rewrite list_elem_of_In, in_concat. setoid_rewrite <- list_elem_of_In.
  setoid_rewrite list_elem_of_fmap. unfold block_entries. split.
  - intros (x & (e & -> & He) & Hx). rewrite !elem_of_cons, elem_of_nil in Hx. naive_solver.
  - intros (Hcf & e & He & ->). eexists. split; [by exists e|].
    rewrite !elem_of_cons. naive_solver.
Qed.

Lemma unwound_entries_spec dead lis eps rnds cf kb :
  (cf, kb) ∈ unwound_entries dead lis eps rnds ↔
  (cf = "block" ∨ cf = "quorum_certificate" ∨ cf = "block_number") ∧
    (∃ e, e ∈ dead ∧ kb = epoch_hash_bytes e.1) ∨
  cf = "ledger_info" ∧ (∃ n, n ∈ lis ∧ kb = to_be_bytes 8 n) ∨
  cf = "epoch_by_block_number" ∧ (∃ n, n ∈ eps ∧ kb = to_be_bytes 8 n) ∨
  cf = "randomness" ∧ (∃ n, n ∈ rnds ∧ kb = to_be_bytes 8 n) ∨
  cf = "single_entry" ∧ (kb = [0] ∨ kb = [1]).
Proof.
  unfold unwound_entries. rewrite !elem_of_app, elem_of_block_entries, !elem_of_number_entries.
  assert ((cf, kb) ∈ [("single_entry", [0]); ("single_entry", [1])] ↔
    cf = "single_entry" ∧ (kb = [0] ∨ kb = [1])) as ->.
  { rewrite elem_of_cons, list_elem_of_singleton. naive_solver. }
  done.
Qed.

(** The tables unwinding reads. *)
Record tables_ok c : Prop := {
  to_blocks : table_ok BlockSchema c;
  to_ledger_infos : table_ok LedgerInfoSchema c;
  to_epochs : table_ok EpochByBlockNumberSchema c;
  to_randomness : table_ok RandomnessSchema c;
}.

(** The block numbers unwinding deletes from a table. *)
Definition dead_number {V} (s : Schema N V) c (target n : N) : Prop :=
  (∃ v, row s c n v) ∧ saturating_add target 1 ≤ n ∧ n ≠ u64_max.

Lemma unwind_batch_deletes target max_epoch c u :
  tables_ok c → target ≤ u64_max → max_epoch ≤ u64_max →
  unwind_batch target max_epoch c = Ok u →
  ∃ dead lis eps rnds,
    (∀ m x, batch_effect (uw_batch u) m !! x =
      if bool_decide (x ∈ unwound_entries dead lis eps rnds) then None else m !! x) ∧
    uw_batches_to_delete u = concat (block_batch_keys <$> dead) ∧
    (∀ e, e ∈ dead ↔ dead_block c target max_epoch e.1 e.2) ∧
    (∀ n, n ∈ lis ↔ dead_number LedgerInfoSchema c target n) ∧
    (∀ n, n ∈ eps ↔ dead_number EpochByBlockNumberSchema c target n) ∧
    (∀ n, n ∈ rnds ↔ dead_number RandomnessSchema c target n).
Proof.
  intros [Hb Hl He Hr] Ht Hm H. unfold unwind_batch in H.
  assert (Hs : saturating_add target 1 ≤ u64_max) by (unfold saturating_add; lia).
  apply bind_Ok in H as (u1 & Hu & H). cbv zeta in H. apply bind_Ok in H as (b1 & H1 & H).
  apply bind_Ok in H as (b2 & H2 & H). apply bind_Ok in H as (b3 & H3 & H).
  apply bind_Ok in H as (b4 & H4 & H). apply bind_Ok in H as (b5 & H5 & H). injection H as <-.
  apply unwind_epochs_unwound in Hu as (dead & [Hd0 Hk] & Hdead); [|done|by rewrite N2Nat.id].
  rewrite N2Nat.id in Hdead. simpl in Hd0, Hk.
  apply unwind_numbers_deletes in H1 as (lis & Hd1 & Hlis); [|done..].
  apply unwind_numbers_deletes in H2 as (eps & Hd2 & Heps); [|done..].
  apply unwind_numbers_deletes in H3 as (rnds & Hd3 & Hrnds); [|done..].
  apply batch_delete_deletes in H4 as (k4 & [= <-] & Hd4).
  apply batch_delete_deletes in H5 as (k5 & [= <-] & Hd5).
  exists dead, lis, eps, rnds. split; [|done]. intros m x.
  rewrite <- (batch_effect_new m) at 2.
  exact (deletes_trans _ _ _ _ _ Hd0 (deletes_trans _ _ _ _ _ Hd1 (deletes_trans _ _ _ _ _ Hd2
    (deletes_trans _ _ _ _ _ Hd3 (deletes_trans _ _ _ _ _ Hd4 Hd5)))) m x).
Qed.

Lemma epoch_hash_bytes_inj key key' kb :
  decode_epoch_hash kb = Ok key → kb = epoch_hash_bytes key' → key'.1 ≤ u64_max → key = key'.
Proof.
  destruct key' as [e h]. intros Hd -> He. unfold epoch_hash_bytes in Hd. cbn [fst snd] in *.
  rewrite decode_encode_epoch_hash in Hd by done. congruence.
Qed.

(** Rows of the three tables keyed by block. *)
Lemma block_row_left {V} (s : Schema (N * HashValue) V) c target max_epoch dead lis eps rnds key v :
  encode_key s = encode_epoch_hash → decode_key s = decode_epoch_hash →
  (column_family s = "block" ∨ column_family s = "quorum_certificate" ∨
   column_family s = "block_number") →
  (∀ e, e ∈ dead ↔ dead_block c target max_epoch e.1 e.2) → row s c key v →
  (∀ kb, encode_key s key = Ok kb →
     (column_family s, kb) ∉ unwound_entries dead lis eps rnds) ↔
  ¬ ∃ b, dead_block c target max_epoch key b.
Proof.
  intros Henc Hdec Hcf Hdead (kb & vb & Hk & Hd & _). split.
  - intros Hn (b & Hb). apply (Hn kb Hk), unwound_entries_spec. left. split; [done|].
    exists (key, b). split; [by apply Hdead|]. rewrite Henc in Hk. by apply encode_epoch_hash_Ok.
  - intros Hn kb' Hk' Hin%unwound_entries_spec. assert (kb' = kb) as -> by congruence.
    destruct Hin as [(_ & [key' b] & He & Hkb)|[[E _]|[[E _]|[[E _]|[E _]]]]];
      [|destruct Hcf as [Hcf|[Hcf|Hcf]]; rewrite Hcf in E; discriminate..].
    apply Hdead in He as He'. destruct He' as (ep & ? & (Hrow & _) & _).
    destruct Hrow as (kb' & _ & Hk2 & Hd2 & _). apply encode_epoch_hash_Ok in Hk2 as ->.
    destruct key' as [e h]. apply decoded_epoch in Hd2. rewrite Hdec in Hd.
    assert (key = (e, h)) as -> by by eapply epoch_hash_bytes_inj.
    apply Hn. exists b. by apply (Hdead (_, b)).
Qed.

Lemma to_be_bytes_u64_inj n n' :
  n ≤ u64_max → n' ≤ u64_max → to_be_bytes 8 n = to_be_bytes 8 n' → n = n'.
Proof.
  intros Hn Hn' Heq%(f_equal from_be_bytes). by rewrite !from_to_be_bytes in Heq by by apply u64_bytes.
Qed.

(** Rows of the tables keyed by block number. *)
Lemma number_row_left {V} (s : Schema N V) c target dead lis eps rnds n v :
  encode_key s = encode_u64 → decode_key s = decode_u64 → target ≤ u64_max →
  (∀ kb, (column_family s, kb) ∈ unwound_entries dead lis eps rnds ↔
     ∃ n, dead_number s c target n ∧ kb = to_be_bytes 8 n) →
  row s c n v →
  (∀ kb, encode_key s n = Ok kb → (column_family s, kb) ∉ unwound_entries dead lis eps rnds) ↔
  n ≤ target ∨ n = u64_max.
Proof.
  intros Henc Hdec Ht Hin Hrow.
  assert (Hmax : ∀ n v, row s c n v → n ≤ u64_max).
  { intros n' v' (kb & vb & Hk & Hd & _). rewrite Henc in Hk. rewrite Hdec in Hd.
    apply encode_u64_Ok in Hk as ->. apply bind_unit_Ok in Hd as (_ & [= <-]).
    apply from_to_be_bytes_u64. }
  pose proof (Hmax _ _ Hrow). unfold dead_number, saturating_add in Hin. split.
  - intros Hn. destruct (decide (n ≤ target ∨ n = u64_max)) as [|Hgt]; [done|exfalso].
    apply (Hn (to_be_bytes 8 n)); [by rewrite Henc|]. apply Hin. exists n.
    split_and!; [by exists v|lia|lia|done].
  - intros Hle kb Hk (n' & ((v' & Hr') & ? & ?) & Hkb)%Hin. rewrite Henc in Hk.
    apply encode_u64_Ok in Hk as ->. apply Hmax in Hr'.
    apply to_be_bytes_u64_inj in Hkb; [|done..]. lia.
Qed.

Definition latest_fresh c : Prop :=
  get_latest_ledger_info_in_db_impl (cdb_db c) = Ok (cdb_latest_ledger_info c).

Lemma refresh_latest_fresh c c' u :
  refresh_latest_ledger_info c = (Ok u, c') → latest_fresh c' ∧ cdb_db c' = cdb_db c.
Proof.
  unfold refresh_latest_ledger_info, update_latest_ledger_info, latest_fresh.
  destruct (get_latest_ledger_info_in_db_impl (cdb_db c)) eqn:Hl; intros [= <- <-]; done.
Qed.

Lemma get_max_epoch_bound c e : get_max_epoch c = Ok e → table_ok BlockSchema c → e ≤ u64_max.
Proof.
  unfold get_max_epoch. destruct (db_rev_iter _ _) as [items| |] eqn:Hi; [|done..].
  apply db_rev_iter_Ok in Hi as (es & Hes & Hall).
  destruct items as [|[[[e' h] b]| |] items]; intros [= <-] Hok; [vm_compute; congruence| |vm_compute; congruence..].
  destruct (reverse es) as [|[kb vb] es'] eqn:E; inversion Hall as [|? ? ? ? Hr]; subst.
  destruct (Hr _ _ eq_refl) as [Hk _].
  assert (Hin : (kb, vb) ∈ es) by (rewrite <- elem_of_reverse, E; by left).
  apply (so_elem _ _ _ _ _ Hes) in Hin as [Hl _].
  destruct (Hok _ _ Hl) as (key & b' & ->%encode_epoch_hash_Ok & Hd & _).
  cbn [fst decode_key BlockSchema] in Hk, Hd. assert (key = (e', h)) as -> by congruence.
  by apply decoded_epoch in Hd.
Qed.

Lemma commit_contents batch c c' u :
  commit batch c = (Ok u, c') →
  db_contents (cdb_db c') = batch_effect batch (db_contents (cdb_db c)).
Proof.
  unfold commit. destruct (db_write_schemas batch (cdb_db c)) as [r d] eqn:Hw.
  intros [= -> <-]. by apply db_write_Ok in Hw.
Qed.

Lemma row_left {K V} (s : Schema K V) c c' (dead : list (string * bytes)) k v (P : Prop) :
  (∀ x, db_contents (cdb_db c') !! x =
    if bool_decide (x ∈ dead) then None else db_contents (cdb_db c) !! x) →
  (row s c k v → (∀ kb, encode_key s k = Ok kb → (column_family s, kb) ∉ dead) ↔ P) →
  row s c' k v ↔ row s c k v ∧ P.
Proof. intros Hc HP. rewrite row_deleted by done. naive_solver. Qed.

Lemma elem_of_cancelled_epochs max_epoch retained e :
  e ∈ cancelled_epochs max_epoch retained ↔ retained < e ≤ max_epoch.
Proof.
  unfold cancelled_epochs. rewrite list_elem_of_fmap. setoid_rewrite elem_of_seq. split.
  - intros (i & -> & ?). lia.
  - intros ?. exists (N.to_nat (e - retained - 1)). lia.
Qed.

(** Blocks, certificates and block numbers of the dead blocks go, and nothing
    else of these tables. *)
Record blocks_left c c' (target max_epoch : N) : Prop := {
  bl_blocks key b : row BlockSchema c' key b ↔
    row BlockSchema c key b ∧ ¬ dead_block c target max_epoch key b;
  bl_qcs key qc : row QCSchema c' key qc ↔
    row QCSchema c key qc ∧ ¬ ∃ b, dead_block c target max_epoch key b;
  bl_numbers key n : row BlockNumberSchema c' key n ↔
    row BlockNumberSchema c key n ∧ ¬ ∃ b, dead_block c target max_epoch key b;
}.

Record numbers_left c c' (target : N) : Prop := {
  nl_ledger_infos n li : row LedgerInfoSchema c' n li ↔
    row LedgerInfoSchema c n li ∧ (n ≤ target ∨ n = u64_max);
  nl_epochs n e : row EpochByBlockNumberSchema c' n e ↔
    row EpochByBlockNumberSchema c n e ∧ (n ≤ target ∨ n = u64_max);
  nl_randomness n r : row RandomnessSchema c' n r ↔
    row RandomnessSchema c n r ∧ (n ≤ target ∨ n = u64_max);
}.

Section left.
Context (target max_epoch : N) (c c' : ConsensusDB).
Context (dead : list ((N * HashValue) * Block)) (lis eps rnds : list N).
Hypothesis Hc : ∀ x, db_contents (cdb_db c') !! x =
  if bool_decide (x ∈ unwound_entries dead lis eps rnds) then None
  else db_contents (cdb_db c) !! x.
Hypothesis Hdead : ∀ e, e ∈ dead ↔ dead_block c target max_epoch e.1 e.2.

Lemma unwound_blocks_left : blocks_left c c' target max_epoch.
Proof.
  split; intros key v; eapply row_left; try apply Hc; intros Hr.
  - rewrite (block_row_left BlockSchema c target max_epoch) by (done || auto).
    split; intros Hn; [naive_solver|]. intros (b & Hb). apply Hn.
    assert (v = b) as <-; [|done]. destruct Hb as (ep & _ & (Hb & _) & _). by eapply row_fun.
  - apply block_row_left with v; auto.
  - apply block_row_left with v; auto.
Qed.

Hypothesis Hlis : ∀ n, n ∈ lis ↔ dead_number LedgerInfoSchema c target n.
Hypothesis Heps : ∀ n, n ∈ eps ↔ dead_number EpochByBlockNumberSchema c target n.
Hypothesis Hrnds : ∀ n, n ∈ rnds ↔ dead_number RandomnessSchema c target n.

Lemma unwound_numbers_left : target ≤ u64_max → numbers_left c c' target.
Proof.
  intros Ht. split; intros n v; eapply row_left; try apply Hc; intros Hr.
  all: eapply number_row_left; [done|done|done| |exact Hr].
  all: intros kb; rewrite unwound_entries_spec; cbn [column_family].
  - setoid_rewrite Hlis. naive_solver.
  - setoid_rewrite Heps. naive_solver.
  - setoid_rewrite Hrnds. naive_solver.
Qed.

Lemma unwound_singles_gone k v : ¬ row SingleEntrySchema c' k v.
Proof.
  intros (kb & vb & Hk & _ & Hl & _). rewrite Hc in Hl. case_bool_decide as Hn; [done|].
  apply Hn, unwound_entries_spec. injection Hk as <-. destruct k; naive_solver.
Qed.

Lemma elem_of_unwound_keys k :
  k ∈ concat (block_batch_keys <$> dead) ↔
  ∃ key b, dead_block c target max_epoch key b ∧ k ∈ block_batch_keys (key, b).
Proof.
  rewrite list_elem_of_In, in_concat. setoid_rewrite <- list_elem_of_In.
  setoid_rewrite list_elem_of_fmap. split.
  - intros (x & ([key b] & -> & He) & Hk). exists key, b. by apply Hdead in He.
  - intros (key & b & Hb & Hk). eexists. split; [|exact Hk]. exists (key, b). by rewrite Hdead.
Qed.

End left.

(** C27: What unwinding to a block leaves, as the code does it. A successful
    [unwind_to_block] on consistent tables deletes the blocks, certificates and
    block numbers of exactly the blocks without a number of at most the target plus
    one, so that the block after the target is kept, contrary to the doc comment and
    to the unit test; the scan goes down from the newest epoch to the first that
    keeps all its blocks. It deletes the ledger infos, epoch markers and randomness
    above the target (but an entry at u64::MAX), the last vote and the timeout
    certificate; it returns the batches of the deleted blocks and the epochs that
    have no block left, and refreshes the latest ledger info. *)
Theorem unwind_to_block_spec target c keys epochs c' :
  tables_ok c → target ≤ u64_max → unwind_to_block target c = (Ok (keys, epochs), c') →
  ∃ max_epoch retained, get_max_epoch c = Ok max_epoch ∧ get_max_epoch c' = Ok retained ∧
    blocks_left c c' target max_epoch ∧ numbers_left c c' target ∧
    (∀ k v, ¬ row SingleEntrySchema c' k v) ∧
    (∀ k, k ∈ keys ↔
       ∃ key b, dead_block c target max_epoch key b ∧ k ∈ block_batch_keys (key, b)) ∧
    (∀ e, e ∈ epochs ↔ retained < e ≤ max_epoch) ∧
    latest_fresh c'.
Proof.
  intros Hok Ht H. unfold unwind_to_block in H. run_inv.
  match goal with H : commit _ _ = _ |- _ => apply commit_contents in H as Hc end.
  match goal with H : refresh_latest_ledger_info _ = _ |- _ =>
    apply refresh_latest_fresh in H as [Hfresh Hdb] end.
  match goal with H : unwind_batch _ ?m _ = _, Hm : get_max_epoch _ = Ok ?m |- _ =>
    apply get_max_epoch_bound in Hm as Hmax; [|by apply to_blocks];
    apply unwind_batch_deletes in H as (dead & lis & eps & rnds & Heff & -> & Hd & Hl & He & Hr);
      [|done..]; exists m end.
  match goal with H : get_max_epoch ?s = Ok ?a, _ : cdb_db c' = cdb_db ?s |- _ => exists a end.
  rewrite <- Hdb in Hc. assert (Hc' := λ x, eq_trans (f_equal (lookup x) Hc) (Heff _ x)).
  split; [done|]. split; [by unfold get_max_epoch in *; rewrite Hdb|].
  split; [by eapply unwound_blocks_left|]. split; [by eapply unwound_numbers_left|].
  split; [by eapply unwound_singles_gone|]. split; [intros k; by apply elem_of_unwound_keys|].
  split; [|done]. intros e. apply elem_of_cancelled_epochs.
Qed.

(** ** What is saved is read back *)

Lemma try_fold_ext {E A B} (f g : B → A → result E B) b l :
  (∀ b a, f b a = g b a) → try_fold f b l = try_fold g b l.
Proof.
  intros Hfg. revert b. induction l as [|a l IH]; intros b; simpl; [done|]. rewrite Hfg.
  by destruct (g b a); simpl.
Qed.

Lemma puts_encode {A K V} (s : Schema K V) (key : A → K) (value : A → V) (l : list A) b b' a :
  try_fold (λ b a, batch_put s (key a) (value a) b) b l = Ok b' → a ∈ l →
  ∃ kb vb, encode_key s (key a) = Ok kb ∧ encode_value s (value a) = Ok vb.
Proof.
  revert b. induction l as [|a' l IH]; intros b Hf Ha; [by apply not_elem_of_nil in Ha|].
  cbn [try_fold] in Hf. apply bind_Ok in Hf as (b1 & Hput & Hf).
  apply elem_of_cons in Ha as [->|Ha]; [|eauto].
  apply batch_put_Ok in Hput as (kb & vb & Hk & Hv & _). eauto.
Qed.

(** The entry a list of puts leaves under a key all of whose puts agree. *)
Lemma puts_lookup {A K V} (s : Schema K V) (key : A → K) (value : A → V) (l : list A) b b' a kb vb :
  try_fold (λ b a, batch_put s (key a) (value a) b) b l = Ok b' → a ∈ l →
  encode_key s (key a) = Ok kb → encode_value s (value a) = Ok vb →
  (∀ a', a' ∈ l → encode_key s (key a') = Ok kb → encode_value s (value a') = Ok vb) →
  ∀ m, batch_effect b' m !! (column_family s, kb) = Some vb.
Proof.
  intros Hfold Ha Hk Hv Hsame m. revert b Hfold.
  assert (Hrest : ∀ l', l' ⊆ l → ∀ b, try_fold (λ b a, batch_put s (key a) (value a) b) b l' = Ok b' →
    batch_effect b m !! (column_family s, kb) = Some vb →
    batch_effect b' m !! (column_family s, kb) = Some vb).
  { induction l' as [|a' l' IH]; intros Hsub b Hf Hb; [by injection Hf as <-|].
    cbn [try_fold] in Hf. apply bind_Ok in Hf as (b1 & Hput & Hf). apply (IH ltac:(set_solver) b1 Hf).
    apply batch_put_Ok in Hput as (kb' & vb' & Hk' & Hv' & ->).
    destruct (decide (kb' = kb)) as [->|]; [|rewrite lookup_insert_ne; [done|congruence]].
    rewrite lookup_insert_eq. apply Hsame in Hk'; [congruence|set_solver]. }
  clear Hsame. induction l as [|a' l IH]; intros b Hf; [by apply not_elem_of_nil in Ha|].
  cbn [try_fold] in Hf. apply bind_Ok in Hf as (b1 & Hput & Hf).
  apply elem_of_cons in Ha as [->|Ha].
  - apply (Hrest l ltac:(set_solver) b1 Hf). apply batch_put_Ok in Hput as (kb' & vb' & Hk' & Hv' & ->).
    assert (kb' = kb) as -> by congruence. rewrite lookup_insert_eq. congruence.
  - apply (IH Ha) with b1; [|done]. intros l' Hl'. apply Hrest. set_solver.
Qed.

(** Puts of another column family leave an entry alone. *)
Lemma puts_other {A K V} (s : Schema K V) (key : A → K) (value : A → V) (l : list A) b b' cf kb :
  try_fold (λ b a, batch_put s (key a) (value a) b) b l = Ok b' → cf ≠ column_family s →
  ∀ m, batch_effect b' m !! (cf, kb) = batch_effect b m !! (cf, kb).
Proof.
  intros Hf Hcf m. revert b Hf. induction l as [|a l IH]; intros b Hf; [by injection Hf as <-|].
  cbn [try_fold] in Hf. apply bind_Ok in Hf as (b1 & Hput & Hf). rewrite (IH b1 Hf).
  apply batch_put_Ok in Hput as (kb' & vb' & _ & _ & ->). by rewrite lookup_insert_ne by congruence.
Qed.

(** Keys with machine-width epochs have distinct bytes. *)
Lemma same_key_bytes key key' kb :
  key.1 ≤ u64_max → key'.1 ≤ u64_max → encode_epoch_hash key = Ok kb →
  encode_epoch_hash key' = Ok kb → key' = key.
Proof.
  intros Hk Hk' ->%encode_epoch_hash_Ok Heq%encode_epoch_hash_Ok.
  destruct key' as [e h]. eapply epoch_hash_bytes_inj in Heq; [done| |done].
  destruct key. by apply decode_encode_epoch_hash.
Qed.

Definition block_key (b : Block) : N * HashValue := (Block_epoch b, block_id b).

Lemma save_blocks_contents blocks qcs c c' b :
  save_blocks_and_quorum_certificates blocks qcs c = (Ok tt, c') → b ∈ blocks →
  (∀ b', b' ∈ blocks → Block_epoch b' ≤ u64_max ∧ (block_key b' = block_key b → b' = b)) →
  ∃ data, bcs_block b = Ok data ∧
    db_contents (cdb_db c') !! ("block", epoch_hash_bytes (block_key b)) = Some data.
Proof.
  intros Hs Hb Huniq. unfold save_blocks_and_quorum_certificates in Hs.
  destruct (bool_decide (length blocks = 0%nat)) eqn:Hlen.
  { apply bool_decide_eq_true, length_zero_iff_nil in Hlen as ->. by apply not_elem_of_nil in Hb. }
  rewrite andb_false_l in Hs. run_inv.
  match goal with H : commit _ _ = _ |- _ => apply commit_contents in H as -> end.
  match goal with
  | Hb : try_fold _ SchemaBatch_new blocks = Ok ?batch, Hq : try_fold _ ?batch qcs = Ok _ |- _ =>
      rename Hb into Hblocks; rename Hq into Hqcs end.
  destruct (puts_encode BlockSchema block_key id _ _ _ _ Hblocks Hb) as (kb & data & Hk & Hv).
  exists data. split; [done|]. rewrite <- (encode_epoch_hash_Ok _ _ Hk).
  rewrite (puts_other QCSchema _ id _ _ _ _ _ Hqcs) by done.
  apply (puts_lookup BlockSchema block_key id _ _ _ b kb data Hblocks); [done..|].
  intros b' [Hmax Hsame]%Huniq Hk'. unfold id. rewrite Hsame; [done|].
  eapply same_key_bytes; [|exact Hmax|done|done]. by apply (Huniq b Hb).
Qed.

Lemma save_numbers_contents numbers c c' e n id :
  save_block_numbers numbers c = (Ok tt, c') → (e, n, id) ∈ numbers →
  (∀ e' n' id', (e', n', id') ∈ numbers → e' ≤ u64_max ∧ (e' = e → id' = id → n' = n)) →
  db_contents (cdb_db c') !! ("block_number", epoch_hash_bytes (e, id)) = Some (to_be_bytes 8 n) ∧
  ∀ cf kb, cf ≠ "block_number" →
    db_contents (cdb_db c') !! (cf, kb) = db_contents (cdb_db c) !! (cf, kb).
Proof.
  intros Hs Hn Huniq. unfold save_block_numbers in Hs.
  destruct (bool_decide (length numbers = 0%nat)) eqn:Hlen.
  { apply bool_decide_eq_true, length_zero_iff_nil in Hlen as ->. by apply not_elem_of_nil in Hn. }
  run_inv. match goal with H : commit _ _ = _ |- _ => apply commit_contents in H as -> end.
  match goal with H : try_fold _ _ _ = Ok ?batch |- _ => rename H into Hf; rename batch into a end.
  assert (Hfold : try_fold (λ b x, batch_put BlockNumberSchema (x.1.1, x.2) x.1.2 b)
    SchemaBatch_new numbers = Ok a).
  { rewrite <- Hf. apply try_fold_ext. by intros b [[e' n'] id']. }
  split.
  - apply (puts_lookup BlockNumberSchema (λ x, (x.1.1, x.2)) (λ x, x.1.2) _ _ _ (e, n, id) _ _ Hfold);
      [done..|].
    intros [[e' n'] id'] [Hmax Hsame]%Huniq Hk'. apply same_key_bytes with (key := (e, id)) in Hk';
      [|by apply (Huniq e n id)|done|done]. injection Hk' as -> ->. by rewrite Hsame.
  - intros cf kb Hcf. by rewrite (puts_other BlockNumberSchema _ _ _ _ _ _ _ Hfold), batch_effect_new.
Qed.

(** The key of a block in the tables is a machine-width epoch with its hash. *)
Lemma block_key_readable {V} (s : Schema (N * HashValue) V) key :
  encode_key s = encode_epoch_hash → decode_key s = decode_epoch_hash → key.1 ≤ u64_max →
  encode_key s key = Ok (epoch_hash_bytes key) ∧ decode_key s (epoch_hash_bytes key) = Ok key.
Proof.
  intros -> -> Hk. split; [done|]. destruct key. by apply decode_encode_epoch_hash.
Qed.

(** A block that was saved with its block number is read back as it was saved, with
    that number, although the serialization of a block drops the number and
    recomputes the id. *)
Theorem saved_block_read_back blocks qcs numbers c c1 c2 b n o :
  save_blocks_and_quorum_certificates blocks qcs c = (Ok tt, c1) →
  save_block_numbers numbers c1 = (Ok tt, c2) →
  b ∈ blocks → block_id b = hash_block_data (block_block_data b) →
  (∀ b', b' ∈ blocks → Block_epoch b' ≤ u64_max ∧ (block_key b' = block_key b → b' = b)) →
  (Block_epoch b, n, block_id b) ∈ numbers →
  (∀ e n' id, (e, n', id) ∈ numbers →
     e ≤ u64_max ∧ (e = Block_epoch b → id = block_id b → n' = n)) → n ≤ u64_max →
  get_db_block (Block_epoch b) (block_id b) c2 = Ok o →
  o = Some {| block_id := block_id b; block_block_data := block_block_data b;
              block_signature := block_signature b; block_block_number := Some n |}.
Proof.
  intros Hsb Hsn Hb Hid Hub Hn Hun Hmax Hget.
  destruct (save_blocks_contents _ _ _ _ _ Hsb Hb Hub) as (data & Hbcs & Hblock).
  destruct (save_numbers_contents _ _ _ _ _ _ Hsn Hn Hun) as [Hnum Hother].
  rewrite <- (Hother "block") in Hblock by done. destruct (Hub b Hb) as [He _].
  assert (Hrow : row BlockSchema c2 (block_key b) (Block_deserialize (Block_serialize b))).
  { exists (epoch_hash_bytes (block_key b)), data. split_and!; [done| |done|].
    - by apply (block_key_readable BlockSchema).
    - simpl. unfold block_of_bcs. by rewrite (block_fields_of_to_bcs _ _ Hbcs). }
  assert (Hrown : row BlockNumberSchema c2 (block_key b) n).
  { exists (epoch_hash_bytes (block_key b)), (to_be_bytes 8 n). split_and!; [done| |done|].
    - by apply (block_key_readable BlockNumberSchema).
    - by apply decode_encode_u64. }
  unfold get_db_block in Hget. apply bind_Ok in Hget as (ob & Hob & Hget).
  assert (Hkb : key_ok BlockSchema (block_key b)) by (eexists; by apply block_key_readable).
  assert (Hkn : key_ok BlockNumberSchema (block_key b)) by (eexists; by apply block_key_readable).
  apply (get_row _ _ (block_key b) _ Hkb Hob) in Hrow as ->.
  simpl in Hget. apply bind_Ok in Hget as (on & Hon & Hget).
  apply (get_row _ _ (block_key b) _ Hkn Hon) in Hrown as ->.
  injection Hget as <-. by rewrite Hid.
Qed.

(** ** The anchor of leader reputation *)

(** The anchor a ledger info gives. *)
Definition anchors (target_epoch : N) (target_round : Round) (li : LedgerInfoWithSignatures)
    (a : CommittedBlockAnchor) : Prop :=
  anchor_step target_epoch target_round li = Found a.

(** Ledger infos in the order of the chain: epochs do not decrease with the
    block number, and an epoch change leads to the next epoch. *)
Record chain_order c : Prop := {
  co_epochs n n' li li' : row LedgerInfoSchema c n li → row LedgerInfoSchema c n' li' → n < n' →
    bi_epoch (li_commit_info (liws_ledger_info li)) ≤
    bi_epoch (li_commit_info (liws_ledger_info li'));
  co_next n li es : row LedgerInfoSchema c n li →
    bi_next_epoch_state (li_commit_info (liws_ledger_info li)) = Some es →
    es_epoch es = bi_epoch (li_commit_info (liws_ledger_info li)) + 1;
  co_width n li : row LedgerInfoSchema c n li →
    bi_epoch (li_commit_info (liws_ledger_info li)) < u64_max;
}.

Lemma anchors_epoch c n li te tr a :
  chain_order c → row LedgerInfoSchema c n li → anchors te tr li a →
  te ≤ bi_epoch (li_commit_info (liws_ledger_info li)) + 1.
Proof.
  intros Hco Hrow Ha. unfold anchors, anchor_step in Ha.
  destruct (bi_next_epoch_state (li_commit_info _)) as [es|] eqn:Hes.
  - pose proof (co_next _ Hco _ _ _ Hrow Hes) as He. destruct (es_epoch es =? te) eqn:Hte.
    + apply N.eqb_eq in Hte. lia.
    + simpl in Ha. by destruct (saturating_add _ _ <? _).
  - simpl in Ha. destruct (bi_epoch _ =? te) eqn:Hte; [apply N.eqb_eq in Hte; lia|].
    simpl in Ha. by destruct (saturating_add _ _ <? _).
Qed.

Lemma anchor_stop c n li te tr :
  chain_order c → row LedgerInfoSchema c n li → anchor_step te tr li = Stop →
  bi_epoch (li_commit_info (liws_ledger_info li)) + 1 < te.
Proof.
  intros Hco Hrow Hs. pose proof (co_width _ Hco _ _ Hrow). unfold anchor_step in Hs.
  destruct (bi_next_epoch_state _) as [es|]; [destruct (es_epoch es =? te)|];
    repeat case_match; simplify_eq; unfold saturating_add in *; guards; lia.
Qed.

(** An entry that holds the row [kv] of a table keyed by block number. *)
Definition holds {V} (s : Schema N V) (kv : N * V) (e : bytes * bytes) : Prop :=
  e.1 = to_be_bytes 8 kv.1 ∧ kv.1 ≤ u64_max ∧
  decode_key s e.1 = Ok kv.1 ∧ decode_value s e.2 = Ok kv.2.

Lemma holds_sorted {V} (s : Schema N V) l es :
  Forall2 (holds s) l es → StronglySorted (λ e e', bytes_lt e'.1 e.1) es →
  StronglySorted (λ kv kv', kv'.1 < kv.1) l.
Proof.
  induction 1 as [|kv e l es (He & Hmax & _) Hall IH]; intros Hes; [constructor|].
  apply StronglySorted_cons in Hes as [Hlt Hes]. constructor; [by apply IH|].
  clear IH Hes. induction Hall as [|kv' e' l es (He' & Hmax' & _) Hall IH]; [constructor|].
  apply Forall_cons in Hlt as [Hlt Hrest]. constructor; [|by apply IH].
  unfold bytes_lt in Hlt. rewrite He, He', to_be_bytes_ltb in Hlt by by apply u64_bytes. by guards.
Qed.

(** The rows of a table in descending order of block numbers. *)
Lemma rev_rows {V} (s : Schema N V) c es :
  encode_key s = encode_u64 → decode_key s = decode_u64 → table_ok s c →
  scan_of (column_family s) None None (db_contents (cdb_db c)) es →
  ∃ l, Forall2 (holds s) l (reverse es) ∧ StronglySorted (λ kv kv', kv'.1 < kv.1) l ∧
    ∀ n v, (n, v) ∈ l ↔ row s c n v.
Proof.
  intros Henc Hdec Hok Hes.
  assert (Hread : Forall (λ e, ∃ kv, holds s kv e) (reverse es)).
  { apply Forall_forall. intros [kb vb] Hin. rewrite elem_of_reverse in Hin.
    apply (so_elem _ _ _ _ _ Hes) in Hin as [Hl _].
    destruct (Hok _ _ Hl) as (k & v & Hk & Hd & Hv). rewrite Henc in Hk.
    apply encode_u64_Ok in Hk as ->. exists (k, v). split_and!; [done| |done|done]. simpl.
    rewrite Hdec in Hd. apply bind_unit_Ok in Hd as (_ & [= <-]). apply from_to_be_bytes_u64. }
  apply Forall_exists_Forall2_r in Hread as (l & Hl). exists l. split; [done|]. split.
  { eapply holds_sorted; [done|]. apply (StronglySorted_reverse (λ e e', bytes_lt e.1 e'.1)), Hes. }
  intros n v. split.
  - intros (i & Hi)%list_elem_of_lookup_1. destruct (Forall2_lookup_l _ _ _ _ _ Hl Hi) as ([kb vb] & He & Hh).
    destruct Hh as (Hkb & _ & Hd & Hv). simpl in *. exists kb, vb.
    apply list_elem_of_lookup_2 in He. rewrite elem_of_reverse in He.
    apply (so_elem _ _ _ _ _ Hes) in He as [He _].
    split; [by rewrite Henc, Hkb|done].
  - intros (kb & vb & Hk & Hd & Hlk & Hv).
    assert (Hin : (kb, vb) ∈ reverse es).
    { rewrite elem_of_reverse. apply (so_elem _ _ _ _ _ Hes). split; [done|]. by split. }
    apply list_elem_of_lookup_1 in Hin as (i & Hi).
    destruct (Forall2_lookup_r _ _ _ _ _ Hl Hi) as ([n' v'] & He & _ & _ & Hd' & Hv'). simpl in *.
    assert (n' = n) as -> by congruence. assert (v' = v) as -> by congruence.
    by eapply list_elem_of_lookup_2.
Qed.

(** Of the rows scanned the newest that gives an anchor decides. *)
Definition newest_anchor (te : N) (tr : Round) (rows : N → LedgerInfoWithSignatures → Prop)
    (a : CommittedBlockAnchor) : Prop :=
  ∃ n li, rows n li ∧ anchors te tr li a ∧
    ∀ n' li' a', rows n' li' → anchors te tr li' a' → n' ≤ n.

Lemma anchor_scan_newest c te tr items l es o :
  chain_order c → Forall2 (reads LedgerInfoSchema) items es → Forall2 (holds LedgerInfoSchema) l es →
  StronglySorted (λ kv kv', kv'.1 < kv.1) l → (∀ n li, (n, li) ∈ l → row LedgerInfoSchema c n li) →
  anchor_scan te tr items = Ok o →
  ∀ a, o = Some a ↔ newest_anchor te tr (λ n li, (n, li) ∈ l) a.
Proof.
  intros Hco Hreads. revert l. induction Hreads as [|item e items es Hr Hreads IH];
    intros l Hh Hsort Hrows Hscan a; inversion Hh as [|[n li] ? l' ? (_ & _ & Hk & Hv) Hh']; subst.
  { injection Hscan as <-. split; [done|]. by intros (n & li & ?%not_elem_of_nil & _). }
  cbn [anchor_scan] in Hscan. apply bind_Ok in Hscan as ([n' li'] & -> & Hscan).
  destruct (Hr _ _ eq_refl) as [Hk' Hv']. simpl in *.
  assert (n' = n) as -> by congruence. assert (li' = li) as -> by congruence.
  apply StronglySorted_cons in Hsort as [Hlt Hsort]. rewrite Forall_forall in Hlt.
  assert (Hrow : row LedgerInfoSchema c n li) by (apply Hrows; by left).
  unfold newest_anchor. setoid_rewrite elem_of_cons.
  destruct (anchor_step te tr li) as [a1| |] eqn:Hstep.
  - injection Hscan as <-. split.
    + intros [= <-]. exists n, li. split; [by left|]. split; [done|].
      intros n' li' a' [[= -> ->]|Hin] _; [done|]. apply Hlt in Hin. simpl in Hin. lia.
    + intros (n1 & li1 & [[= -> ->]|Hin] & Ha & Hmax); [unfold anchors in *; congruence|].
      apply Hlt in Hin. specialize (Hmax n li a1 ltac:(by left) Hstep). simpl in Hin. lia.
  - rewrite (IH l' Hh' Hsort) by set_solver. unfold newest_anchor, anchors. split.
    + intros (n1 & li1 & Hin & Ha & Hmax). exists n1, li1. split; [by right|]. split; [done|].
      intros n' li' a' [[= -> ->]|Hin'] Ha'; [congruence|eauto].
    + intros (n1 & li1 & [[= -> ->]|Hin] & Ha & Hmax); [congruence|]. exists n1, li1. eauto 6.
  - injection Hscan as <-. split; [done|]. pose proof (anchor_stop _ _ _ _ _ Hco Hrow Hstep).
    intros (n1 & li1 & [[= -> ->]|Hin] & Ha & _); [unfold anchors in Ha; congruence|].
    assert (Hrow1 : row LedgerInfoSchema c n1 li1) by (apply Hrows; by right).
    apply (anchors_epoch c n1) in Ha; [|done..]. apply Hlt in Hin. simpl in Hin.
    pose proof (co_epochs _ Hco _ _ _ _ Hrow1 Hrow Hin). lia.
Qed.

(** [get_reputation_anchor] returns the newest ledger info that anchors the target
    round: when the epochs of the stored ledger infos do not decrease with the block
    number, stopping the backward scan at the first older epoch loses nothing, and
    without a suitable ledger info the answer is [None]. *)
Theorem get_reputation_anchor_spec te tr c o :
  table_ok LedgerInfoSchema c → chain_order c → get_reputation_anchor te tr c = Ok o →
  ∀ a, o = Some a ↔ newest_anchor te tr (row LedgerInfoSchema c) a.
Proof.
  intros Hok Hco H a. unfold get_reputation_anchor in H. apply bind_Ok in H as (items & Hi & H).
  apply db_rev_iter_Ok in Hi as (es & Hes & Hreads).
  destruct (rev_rows LedgerInfoSchema c es eq_refl eq_refl Hok Hes) as (l & Hl & Hsort & Hrows).
  rewrite (anchor_scan_newest c te tr items l (reverse es) o) by (done || naive_solver).
  unfold newest_anchor. by setoid_rewrite Hrows.
Qed.

End theorems.
