(* ===== verification/BatchStore.v ===== *)
(** * The batch store of the quorum store

    consensus/src/quorum_store: batches and their messages (types.rs), the tables
    of the quorum store database (schema.rs, quorum_store_db.rs), expiration
    queues (utils.rs), the store itself with its quotas (batch_store.rs) and the
    receipt of batches (batch_coordinator.rs).  The theorems: the quota of every
    peer is accounted for exactly whatever happens, no assertion of the store can
    fail, and a batch the store has signed for can be served with its payload. *)

From S2P Require Import Prelude Gaptos Types Bytes Certificates Payloads Blocks ConsensusDb.

(** ** Batches (types.rs) *)

Section batches.
Context {GA : Gaptos}.

Record PersistedValue := {
  pev_info : BatchInfo;
  pev_maybe_payload : option (list SignedTransaction);
}.

Inductive StorageMode := PersistedOnly | MemoryAndPersisted.

#[global] Instance StorageMode_eqdec : EqDecision StorageMode.
Proof. solve_decision. Defined.

Definition payload_storage_mode (v : PersistedValue) : StorageMode :=
  match pev_maybe_payload v with Some _ => MemoryAndPersisted | None => PersistedOnly end.

(** [BatchPayload] with the author and the transactions; the cell that caches its
    size is not part of the model. *)
Record BatchPayload := { bp_author : Author; bp_txns : list SignedTransaction }.

Record Batch := { bat_batch_info : BatchInfo; bat_payload : BatchPayload }.

Record TxnSummaryWithExpiration := {
  ts_sender : Author;
  ts_sequence_number : N;
  ts_expiration_timestamp_secs : N;
  ts_hash : HashValue;
}.

End batches.

(** What the batches take from [gaptos] and [bcs]. *)
Class QuorumStoreTypes {GA : Gaptos} := {
  (** [BatchPayload::num_bytes]: the length of the BCS bytes. *)
  batch_payload_num_bytes : AccountAddress → list SignedTransaction → N;
  txn_gas_unit_price : SignedTransaction → N;
  txn_sender : SignedTransaction → AccountAddress;
  txn_sequence_number : SignedTransaction → N;
  txn_expiration_timestamp_secs : SignedTransaction → N;
  txn_committed_hash : SignedTransaction → HashValue;
  bcs_persisted_value : PersistedValue → result Anyhow bytes;
  persisted_value_of_bcs : bytes → result Anyhow PersistedValue;
  bcs_u64 : N → result Anyhow bytes;
  u64_of_bcs : bytes → result Anyhow N;
  bcs_batch_id : BatchId → result Anyhow bytes;
  batch_id_of_bcs : bytes → result Anyhow BatchId;
}.

Section batch_messages.
Context {GA : Gaptos} {VE : Verifier} {CR : Crypto} {QT : QuorumStoreTypes}.

Definition txn_summary (txn : SignedTransaction) : TxnSummaryWithExpiration :=
  {| ts_sender := txn_sender txn; ts_sequence_number := txn_sequence_number txn;
     ts_expiration_timestamp_secs := txn_expiration_timestamp_secs txn;
     ts_hash := txn_committed_hash txn |}.

Definition PersistedValue_summary (v : PersistedValue) : list TxnSummaryWithExpiration :=
  match pev_maybe_payload v with Some payload => txn_summary <$> payload | None => [] end.

Definition persisted_of_batch (b : Batch) : PersistedValue :=
  {| pev_info := bat_batch_info b; pev_maybe_payload := Some (bp_txns (bat_payload b)) |}.

Definition batch_of_persisted (v : PersistedValue) : result Anyhow Batch :=
  payload ← ok_or (Msg "Payload not exist") (pev_maybe_payload v);
  Ok {| bat_batch_info := pev_info v;
        bat_payload := {| bp_author := bin_author (pev_info v); bp_txns := payload |} |}.

Definition Batch_new (batch_id : BatchId) (payload : list SignedTransaction) (epoch expiration : N)
    (batch_author : Author) (gas_bucket_start : N) : Batch :=
  {| bat_batch_info :=
       {| bin_author := batch_author; bin_batch_id := batch_id; bin_epoch := epoch;
          bin_expiration := expiration; bin_digest := hash_batch_payload batch_author payload;
          bin_num_txns := N.of_nat (length payload);
          bin_num_bytes := batch_payload_num_bytes batch_author payload;
          bin_gas_bucket_start := gas_bucket_start |};
     bat_payload := {| bp_author := batch_author; bp_txns := payload |} |}.

Definition Batch_verify (b : Batch) : result Anyhow unit :=
  let info := bat_batch_info b in
  let payload := bat_payload b in
  _ ← ensure (bool_decide (bp_author payload = bin_author info))
        (Msg "Payload author doesn't match the info");
  _ ← ensure (bool_decide (hash_batch_payload (bp_author payload) (bp_txns payload) = bin_digest info))
        (Msg "Payload hash doesn't match the digest");
  _ ← ensure (N.of_nat (length (bp_txns payload)) =? bin_num_txns info)
        (Msg "Payload num txns doesn't match batch info");
  _ ← ensure (batch_payload_num_bytes (bp_author payload) (bp_txns payload) =? bin_num_bytes info)
        (Msg "Payload num bytes doesn't match batch info");
  ensure (forallb (λ txn, bin_gas_bucket_start info <=? txn_gas_unit_price txn) (bp_txns payload))
    (Msg "Payload gas unit price doesn't match batch info").

Definition Batch_verify_with_digest (b : Batch) (requested_digest : HashValue) : result Anyhow unit :=
  _ ← ensure (bool_decide (requested_digest = bin_digest (bat_batch_info b)))
        (Msg "Response digest doesn't match the request");
  Batch_verify b.

(** [for x in l { f(x)? }] without state. *)
Fixpoint all_ok {A} (f : A → result Anyhow unit) (l : list A) : result Anyhow unit :=
  match l with
  | [] => Ok tt
  | x :: l => _ ← f x; all_ok f l
  end.

Definition BatchMsg_verify (batches : list Batch) (peer_id : Author) (max_num_batches : nat)
    : result Anyhow unit :=
  _ ← ensure (negb (bool_decide (batches = []))) (Msg "Empty message");
  _ ← ensure (length batches <=? max_num_batches)%nat (Msg "Too many batches");
  all_ok (λ b,
    _ ← ensure (bool_decide (bin_author (bat_batch_info b) = peer_id))
          (Msg "Batch author doesn't match sender");
    Batch_verify b) batches.

Definition BatchMsg_epoch (batches : list Batch) : result Anyhow N :=
  match batches with
  | [] => Err (Msg "Empty message")
  | b :: _ =>
      let epoch := bin_epoch (bat_batch_info b) in
      _ ← all_ok (λ b, ensure (bin_epoch (bat_batch_info b) =? epoch) (Msg "Epoch mismatch")) batches;
      Ok epoch
  end.

Record SignedBatchInfo := {
  sbi_info : BatchInfo;
  sbi_signer : Author;
  sbi_signature : Signature;
}.

Definition SignedBatchInfo_new (batch_info : BatchInfo) (validator_signer : ValidatorSigner)
    : result CryptoMaterialError SignedBatchInfo :=
  signature ← signer_sign validator_signer (SignBatchInfo batch_info);
  Ok {| sbi_info := batch_info; sbi_signer := signer_author validator_signer;
        sbi_signature := signature |}.

(** [now] is the time in microseconds. *)
Definition SignedBatchInfo_verify (s : SignedBatchInfo) (sender : Author)
    (max_batch_expiry_gap_usecs : N) (validator : ValidatorVerifier) (now : N) : result Anyhow unit :=
  if negb (bool_decide (sender = sbi_signer s)) then Err (Msg "Sender mismatch signer")
  else
    limit ← add_u64 now max_batch_expiry_gap_usecs;
    if limit <? bin_expiration (sbi_info s) then Err (Msg "Batch expiration too far in future")
    else map_err VerifyErr
           (vv_verify validator (sbi_signer s) (SignBatchInfo (sbi_info s)) (sbi_signature s)).

(** ** The database (schema.rs, quorum_store_db.rs) *)

Context {DT : DbTypes} {SD : SchemaDb}.

Definition BatchSchema : Schema BatchKey PersistedValue :=
  {| column_family := "batch";
     encode_key := λ k, encode_epoch_hash (bk_epoch k, bk_digest k);
     decode_key := λ data, '(epoch, digest) ← decode_epoch_hash data;
                           Ok {| bk_epoch := epoch; bk_digest := digest |};
     encode_value := bcs_persisted_value; decode_value := persisted_value_of_bcs |}.

Definition BatchIdSchema : Schema N BatchId :=
  {| column_family := "batch_ID"; encode_key := bcs_u64; decode_key := u64_of_bcs;
     encode_value := bcs_batch_id; decode_value := batch_id_of_bcs |}.

(** [db.put] and a batch of deletions. *)
Definition qs_put {K V} (s : Schema K V) (key : K) (value : V) : M DB Anyhow unit :=
  batch ← lift (batch_put s key value SchemaBatch_new);
  (db_write_schemas batch : M DB Anyhow unit).

Definition qs_delete {K V} (s : Schema K V) (keys : list K) : M DB Anyhow unit :=
  batch ← lift (try_fold (λ b key, batch_delete s key b) SchemaBatch_new keys);
  (db_write_schemas batch : M DB Anyhow unit).

Definition delete_batches (keys : list BatchKey) : M DB Anyhow unit := qs_delete BatchSchema keys.

Definition get_all_batches (d : DB) : result Anyhow (list (BatchKey * PersistedValue)) :=
  items ← db_iter BatchSchema None None d;
  collect_results items.

Definition save_batch (batch : PersistedValue) : M DB Anyhow unit :=
  qs_put BatchSchema (batch_key (pev_info batch)) batch.

Definition qs_get_batch (key : BatchKey) (d : DB) : result Anyhow (option PersistedValue) :=
  db_get BatchSchema key d.

Definition delete_batch_id (epoch : N) : M DB Anyhow unit := qs_delete BatchIdSchema [epoch].

Fixpoint clean_batch_ids (current_epoch : N) (l : list (N * BatchId)) (ret : option BatchId)
    : M DB Anyhow (option BatchId) :=
  match l with
  | [] => mret ret
  | (epoch, batch_id) :: l =>
      _ ← lift (assert_ (epoch <=? current_epoch) "current_epoch < epoch");
      if epoch <? current_epoch then
        _ ← delete_batch_id epoch;
        clean_batch_ids current_epoch l ret
      else clean_batch_ids current_epoch l (Some batch_id)
  end.

Definition clean_and_get_batch_id (current_epoch : N) : M DB Anyhow (option BatchId) :=
  items ← gets (db_iter BatchIdSchema None None);
  epoch_batch_id ← lift (collect_results items);
  clean_batch_ids current_epoch epoch_batch_id None.

Definition get_all_batch_id_epochs (d : DB) : result Anyhow (list N) :=
  items ← db_iter BatchIdSchema None None d;
  l ← collect_results items;
  Ok l.*1.

Definition save_batch_id (epoch : N) (batch_id : BatchId) : M DB Anyhow unit :=
  qs_put BatchIdSchema epoch batch_id.

End batch_messages.

(** ** Sums over the values of a map *)

Section map_sum.
Context {K A : Type} `{Countable K}.
Implicit Types (f : A → N) (m : gmap K A).

Definition map_sum f m : N := map_fold (λ _ x n, f x + n) 0 m.

Lemma map_sum_empty f : map_sum f ∅ = 0.
Proof. unfold map_sum. by rewrite map_fold_empty. Qed.

Lemma map_sum_insert f m k x : m !! k = None → map_sum f (<[k := x]> m) = f x + map_sum f m.
Proof. intros Hk. unfold map_sum. rewrite map_fold_insert_L; [done| |done]. intros. lia. Qed.

Lemma map_sum_delete f m k x : m !! k = Some x → map_sum f m = f x + map_sum f (delete k m).
Proof.
  intros Hk. rewrite <- (insert_delete_id m k x) at 1 by done. by rewrite map_sum_insert by apply lookup_delete_eq.
Qed.

Lemma map_sum_zero f m : (∀ k x, m !! k = Some x → f x = 0) → map_sum f m = 0.
Proof.
  induction m as [|k x m Hk IH] using map_ind; intros Hm; [apply map_sum_empty|].
  rewrite map_sum_insert by done. rewrite (Hm k) by apply lookup_insert_eq. rewrite IH; [done|].
  intros k' y Hy. apply (Hm k'). rewrite lookup_insert_ne; [done|]. congruence.
Qed.

Lemma map_sum_lookup f m k x : m !! k = Some x → f x ≤ map_sum f m.
Proof. intros Hk. rewrite (map_sum_delete f m k x Hk). lia. Qed.

Lemma map_sum_replace f m k x y :
  m !! k = Some x → map_sum f (<[k := y]> m) + f x = map_sum f m + f y.
Proof.
  intros Hk. rewrite (map_sum_delete f m k x Hk), <- insert_delete_eq, map_sum_insert by apply lookup_delete_eq. lia.
Qed.

Lemma map_sum_insert_le f m k y : map_sum f (<[k := y]> m) ≤ map_sum f m + f y.
Proof.
  destruct (m !! k) as [x|] eqn:Hk; [pose proof (map_sum_replace f m k x y Hk); lia|].
  rewrite map_sum_insert by done. lia.
Qed.

Lemma map_sum_delete_le f m k : map_sum f (delete k m) ≤ map_sum f m.
Proof.
  destruct (m !! k) as [x|] eqn:Hk; [rewrite (map_sum_delete f m k x Hk); lia|]. by rewrite delete_id.
Qed.

Lemma map_sum_mono f g m : (∀ k x, m !! k = Some x → f x ≤ g x) → map_sum f m ≤ map_sum g m.
Proof.
  induction m as [|k x m Hk IH] using map_ind; intros Hm; [by rewrite !map_sum_empty|].
  rewrite !map_sum_insert by done. pose proof (Hm k x ltac:(apply lookup_insert_eq)).
  assert (map_sum f m ≤ map_sum g m); [|lia]. apply IH.
  intros k' y Hy. apply (Hm k'). rewrite lookup_insert_ne; [done|]. congruence.
Qed.

Lemma map_sum_filter f (P : K * A → Prop) `{!∀ x, Decision (P x)} m : map_sum f (filter P m) ≤ map_sum f m.
Proof.
  induction m as [|k x m Hk IH] using map_ind; [by rewrite map_filter_empty|].
  rewrite map_sum_insert by done. destruct (decide (P (k, x))) as [HP|HP].
  - rewrite map_filter_insert_True by done. rewrite map_sum_insert; [lia|]. rewrite map_lookup_filter, Hk. done.
  - rewrite map_filter_insert_not' by (done || by rewrite Hk). lia.
Qed.

Lemma map_sum_size m : map_sum (λ _, 1) m = N.of_nat (size m).
Proof.
  induction m as [|k x m Hk IH] using map_ind; [by rewrite map_sum_empty, map_size_empty|].
  rewrite map_sum_insert, map_size_insert_None, IH by done. lia.
Qed.

Lemma map_sum_list f m : map_sum f m = total (f <$> (map_to_list m).*2).
Proof.
  unfold map_sum. rewrite map_fold_foldr. induction (map_to_list m) as [|[k x] l IH]; simpl; [done|]. by rewrite IH.
Qed.

End map_sum.

(** Two sums are equal when the values of one are matched in the other and the
    rest of the other adds nothing. *)
Lemma map_sum_related {K A B} `{Countable K} (f : A → N) (g : B → N) (m : gmap K A) (u : gmap K B) :
  (∀ k y, u !! k = Some y → ∃ x, m !! k = Some x ∧ f x = g y) →
  (∀ k x, m !! k = Some x → u !! k = None → f x = 0) → map_sum f m = map_sum g u.
Proof.
  revert u. induction m as [|k x m Hk IH] using map_ind; intros u Hu Hz.
  - rewrite map_sum_empty, map_sum_zero; [done|]. intros k y Hy. by destruct (Hu k y Hy) as (x & ? & _).
  - rewrite map_sum_insert by done. assert (Hd : map_sum f m = map_sum g (delete k u)).
    { apply IH.
      - intros k' y [Hne Hy]%lookup_delete_Some. destruct (Hu k' y Hy) as (x' & Hx & ?).
        rewrite lookup_insert_ne in Hx by done. eauto.
      - intros k' x' Hx' Hnone. assert (k ≠ k') by congruence. apply (Hz k').
        + by rewrite lookup_insert_ne.
        + by rewrite lookup_delete_ne in Hnone. }
    rewrite Hd. destruct (u !! k) as [y|] eqn:Hy.
    + rewrite (map_sum_delete g u k y Hy). destruct (Hu k y Hy) as (x' & Hx & Hf).
      rewrite lookup_insert_eq in Hx. injection Hx as <-. lia.
    + rewrite delete_id by done. rewrite (Hz k x (lookup_insert_eq _ _ _) Hy). lia.
Qed.

(** ** Expirations (utils.rs) *)

Section expirations.
Context {I : Type} `{Countable I}.

(** [BinaryHeap<(Reverse<u64>, I)>] as a priority queue: a list by ascending
    expiration, whose head is the element [peek] and [pop] return.  The order
    among equal expirations is not observable, since the items go into a set. *)
Record TimeExpirations := { te_expiries : list (N * I) }.

Definition TimeExpirations_new : TimeExpirations := {| te_expiries := [] |}.

Fixpoint heap_push (x : N * I) (l : list (N * I)) : list (N * I) :=
  match l with
  | [] => [x]
  | y :: l' => if x.1 <=? y.1 then x :: l else y :: heap_push x l'
  end.

Definition add_item (item : I) (expiry_time : N) (e : TimeExpirations) : TimeExpirations :=
  {| te_expiries := heap_push (expiry_time, item) (te_expiries e) |}.

(** The items expired, and the queue after popping them. *)
Fixpoint pop_expired (certified_time : N) (l : list (N * I)) : gset I * list (N * I) :=
  match l with
  | [] => (∅, [])
  | (t, item) :: l' =>
      if t <=? certified_time then
        let '(ret, rest) := pop_expired certified_time l' in ({[ item ]} ∪ ret, rest)
      else (∅, l)
  end.

Definition expire (certified_time : N) (e : TimeExpirations) : gset I * TimeExpirations :=
  let '(ret, rest) := pop_expired certified_time (te_expiries e) in
  (ret, {| te_expiries := rest |}).

(** The queue is sorted, and every item is there with its expiration. *)
Definition te_ok (e : TimeExpirations) : Prop := StronglySorted (λ x y, x.1 ≤ y.1) (te_expiries e).

Lemma elem_of_heap_push x y l : y ∈ heap_push x l ↔ y = x ∨ y ∈ l.
Proof.
  induction l as [|z l IH]; simpl; [set_solver|]. destruct (x.1 <=? z.1); [set_solver|].
  rewrite !elem_of_cons, IH. naive_solver.
Qed.

Lemma heap_push_sorted x l :
  StronglySorted (λ x y, x.1 ≤ y.1) l → StronglySorted (λ x y, x.1 ≤ y.1) (heap_push x l).
Proof.
  induction 1 as [|y l Hl IH Hy]; simpl; [repeat constructor|].
  destruct (N.leb_spec x.1 y.1) as [Hle|Hlt].
  - constructor; [by constructor|]. constructor; [done|]. eapply Forall_impl; [done|]. simpl. lia.
  - constructor; [done|]. apply Forall_forall. intros z [->|Hz]%elem_of_heap_push; [lia|].
    by eapply Forall_forall in Hy.
Qed.

Lemma add_item_ok item t e : te_ok e → te_ok (add_item item t e).
Proof. apply heap_push_sorted. Qed.

Lemma expire_spec t e :
  te_ok e → te_ok (expire t e).2 ∧
  (∀ i, i ∈ (expire t e).1 ↔ ∃ x, (x, i) ∈ te_expiries e ∧ x ≤ t) ∧
  (∀ x i, (x, i) ∈ te_expiries (expire t e).2 ↔ (x, i) ∈ te_expiries e ∧ t < x).
Proof.
  unfold te_ok, expire. destruct e as [l]. simpl. induction 1 as [|[x i] l Hl IH Hx]; simpl.
  - split; [constructor|]. split; intros; set_solver.
  - destruct (pop_expired t l) as [ret rest]. simpl in *. destruct IH as (Hs & Hret & Hrest).
    destruct (N.leb_spec x t) as [Hle|Hlt]; simpl.
    + split; [done|]. split; intros; [rewrite elem_of_union, elem_of_singleton, Hret|rewrite Hrest];
        setoid_rewrite elem_of_cons; naive_solver lia.
    + assert (Hgt : ∀ y j, (y, j) ∈ l → t < y).
      { intros y j Hj. rewrite Forall_forall in Hx. specialize (Hx _ Hj). simpl in Hx. lia. }
      split; [by constructor|]. split; intros; setoid_rewrite elem_of_cons.
      * split; [set_solver|]. intros (y & [[= -> ->]|Hj] & ?); [lia|]. apply Hgt in Hj. lia.
      * split; [|naive_solver]. intros [[= -> ->]|Hj]; [auto|]. split; [by right|]. by eapply Hgt.
Qed.

End expirations.
Arguments TimeExpirations : clear implicits.

(** ** Quotas (batch_store.rs) *)

Record QuotaManager := {
  qm_memory_balance : N;
  qm_db_balance : N;
  qm_batch_balance : N;
  qm_memory_quota : N;
  qm_db_quota : N;
  qm_batch_quota : N;
}.

Section quotas.
Context {GA : Gaptos}.

Definition QuotaManager_new (db_quota memory_quota batch_quota : N) : result Anyhow QuotaManager :=
  _ ← assert_ (memory_quota <=? db_quota) "assertion failed: db_quota >= memory_quota";
  Ok {| qm_memory_balance := memory_quota; qm_db_balance := db_quota; qm_batch_balance := batch_quota;
        qm_memory_quota := memory_quota; qm_db_quota := db_quota; qm_batch_quota := batch_quota |}.

Definition set_balances (memory_balance db_balance batch_balance : N) (q : QuotaManager) : QuotaManager :=
  {| qm_memory_balance := memory_balance; qm_db_balance := db_balance;
     qm_batch_balance := batch_balance; qm_memory_quota := qm_memory_quota q;
     qm_db_quota := qm_db_quota q; qm_batch_quota := qm_batch_quota q |}.

Definition update_quota (num_bytes : N) : M QuotaManager Anyhow StorageMode := λ q,
  if qm_batch_balance q =? 0 then (Err (Msg "Batch quota exceeded "), q)
  else if num_bytes <=? qm_db_balance q then
    let batch_balance := qm_batch_balance q - 1 in
    let db_balance := qm_db_balance q - num_bytes in
    if num_bytes <=? qm_memory_balance q
    then (Ok MemoryAndPersisted, set_balances (qm_memory_balance q - num_bytes) db_balance batch_balance q)
    else (Ok PersistedOnly, set_balances (qm_memory_balance q) db_balance batch_balance q)
  else (Err (Msg "Storage quota exceeded "), q).

Definition assert_quota (balance to_free quota : N) : result Anyhow unit :=
  total ← add_u64 balance to_free;
  assert_ (total <=? quota) "Balance + to_free more than quota".

Definition free_quota (num_bytes : N) (storage_mode : StorageMode) : M QuotaManager Anyhow unit := λ q,
  match assert_quota (qm_batch_balance q) 1 (qm_batch_quota q) with
  | Ok _ =>
      let q := set_balances (qm_memory_balance q) (qm_db_balance q) (qm_batch_balance q + 1) q in
      match assert_quota (qm_db_balance q) num_bytes (qm_db_quota q) with
      | Ok _ =>
          let q := set_balances (qm_memory_balance q) (qm_db_balance q + num_bytes) (qm_batch_balance q) q in
          match storage_mode with
          | MemoryAndPersisted =>
              match assert_quota (qm_memory_balance q) num_bytes (qm_memory_quota q) with
              | Ok _ =>
                  (Ok tt, set_balances (qm_memory_balance q + num_bytes) (qm_db_balance q)
                            (qm_batch_balance q) q)
              | r => (r, q)
              end
          | PersistedOnly => (Ok tt, q)
          end
      | r => (r, q)
      end
  | r => (r, q)
  end.

End quotas.

(** ** The store *)

(** The errors of [ExecutorError] the store returns. *)
Inductive ExecutorError := CouldNotGetData | InternalError.

Section store.
Context {GA : Gaptos} {VE : Verifier} {CR : Crypto} {DT : DbTypes} {SD : SchemaDb}.
Context {QT : QuorumStoreTypes}.

#[global] Instance BatchKey_eqdec : EqDecision BatchKey.
Proof. solve_decision. Defined.
#[global] Instance BatchKey_countable : Countable BatchKey.
Proof.
  refine (inj_countable' (λ k, (bk_epoch k, bk_digest k))
    (λ x, {| bk_epoch := x.1; bk_digest := x.2 |}) _). by intros [].
Defined.

(** A subscriber is a number; [bst_sent] lists what subscribers were sent. *)
Record BatchStore := {
  bst_epoch : N;
  bst_last_certified_time : N;
  bst_db_cache : gmap HashValue PersistedValue;
  bst_peer_quota : gmap Author QuotaManager;
  bst_expirations : TimeExpirations HashValue;
  bst_db : DB;
  bst_memory_quota : N;
  bst_db_quota : N;
  bst_batch_quota : N;
  bst_validator_signer : ValidatorSigner;
  bst_persist_subscribers : gmap BatchKey (list N);
  bst_sent : list (N * PersistedValue);
}.

Definition BatchStore_new (epoch last_certified_time : N) (db : DB)
    (memory_quota db_quota batch_quota : N) (validator_signer : ValidatorSigner) : BatchStore :=
  {| bst_epoch := epoch; bst_last_certified_time := last_certified_time; bst_db_cache := ∅;
     bst_peer_quota := ∅; bst_expirations := TimeExpirations_new; bst_db := db;
     bst_memory_quota := memory_quota; bst_db_quota := db_quota; bst_batch_quota := batch_quota;
     bst_validator_signer := validator_signer; bst_persist_subscribers := ∅; bst_sent := [] |}.

(** The store with other cached batches, quotas and expirations. *)
Definition set_cached (cache : gmap HashValue PersistedValue) (quota : gmap Author QuotaManager)
    (expirations : TimeExpirations HashValue) (s : BatchStore) : BatchStore :=
  {| bst_epoch := bst_epoch s; bst_last_certified_time := bst_last_certified_time s;
     bst_db_cache := cache; bst_peer_quota := quota; bst_expirations := expirations;
     bst_db := bst_db s; bst_memory_quota := bst_memory_quota s; bst_db_quota := bst_db_quota s;
     bst_batch_quota := bst_batch_quota s; bst_validator_signer := bst_validator_signer s;
     bst_persist_subscribers := bst_persist_subscribers s; bst_sent := bst_sent s |}.

(** The store with another database, time and subscribers. *)
Definition set_around (db : DB) (time : N) (subscribers : gmap BatchKey (list N))
    (sent : list (N * PersistedValue)) (s : BatchStore) : BatchStore :=
  {| bst_epoch := bst_epoch s; bst_last_certified_time := time;
     bst_db_cache := bst_db_cache s; bst_peer_quota := bst_peer_quota s;
     bst_expirations := bst_expirations s; bst_db := db;
     bst_memory_quota := bst_memory_quota s; bst_db_quota := bst_db_quota s;
     bst_batch_quota := bst_batch_quota s; bst_validator_signer := bst_validator_signer s;
     bst_persist_subscribers := subscribers; bst_sent := sent |}.

Definition set_db_cache (cache : gmap HashValue PersistedValue) (s : BatchStore) : BatchStore :=
  set_cached cache (bst_peer_quota s) (bst_expirations s) s.
Definition set_peer_quota (quota : gmap Author QuotaManager) (s : BatchStore) : BatchStore :=
  set_cached (bst_db_cache s) quota (bst_expirations s) s.
Definition set_expirations (e : TimeExpirations HashValue) (s : BatchStore) : BatchStore :=
  set_cached (bst_db_cache s) (bst_peer_quota s) e s.
Definition set_subscribers (subs : gmap BatchKey (list N)) (sent : list (N * PersistedValue))
    (s : BatchStore) : BatchStore :=
  set_around (bst_db s) (bst_last_certified_time s) subs sent s.

(** [peer_quota.entry(author).or_insert(QuotaManager::new(..)).update_quota(..)]. *)
Definition charge_quota (author : Author) (num_bytes : N) : M BatchStore Anyhow StorageMode := λ s,
  match QuotaManager_new (bst_db_quota s) (bst_memory_quota s) (bst_batch_quota s) with
  | Ok fresh =>
      let '(r, q) := update_quota num_bytes (default fresh (bst_peer_quota s !! author)) in
      (r, set_peer_quota (<[author := q]> (bst_peer_quota s)) s)
  | Err e => (Err e, s)
  | Panic m => (Panic m, s)
  end.

Definition store_free_quota (value : PersistedValue) : M BatchStore Anyhow unit := λ s,
  let author := bin_author (pev_info value) in
  match bst_peer_quota s !! author with
  | Some q =>
      let '(r, q) := free_quota (bin_num_bytes (pev_info value)) (payload_storage_mode value) q in
      (r, set_peer_quota (<[author := q]> (bst_peer_quota s)) s)
  | None => (Panic "No QuotaManager for batch author", s)
  end.

(** [replace_entry] and [insert] of the entry of [digest]. *)
Definition put_in_cache (digest : HashValue) (value_to_be_stored : PersistedValue)
    (previous : option PersistedValue) : M BatchStore Anyhow unit :=
  _ ← modify (λ s, set_db_cache (<[digest := value_to_be_stored]> (bst_db_cache s)) s);
  match previous with Some prev_value => store_free_quota prev_value | None => mret tt end.

Definition insert_to_cache (value : PersistedValue) : M BatchStore Anyhow bool :=
  let digest := bin_digest (pev_info value) in
  let expiration_time := bin_expiration (pev_info value) in
  previous ← gets (λ s, Ok (bst_db_cache s !! digest));
  if match previous with
     | Some v => expiration_time <=? bin_expiration (pev_info v)
     | None => false
     end
  then mret false
  else
    mode ← charge_quota (bin_author (pev_info value)) (bin_num_bytes (pev_info value));
    let value_to_be_stored :=
      match mode with
      | PersistedOnly => {| pev_info := pev_info value; pev_maybe_payload := None |}
      | MemoryAndPersisted => value
      end in
    _ ← put_in_cache digest value_to_be_stored previous;
    _ ← modify (λ s, set_expirations (add_item digest expiration_time (bst_expirations s)) s);
    mret true.

Definition save (value : PersistedValue) : M BatchStore Anyhow bool :=
  last_certified_time ← gets (λ s, Ok (bst_last_certified_time s));
  if last_certified_time <? bin_expiration (pev_info value) then insert_to_cache value
  else lift (Err (Msg "Incorrect expiration in epoch")).

(** The body of the loop over the expired digests: the key of the batch removed. *)
Definition clear_expired (certified_time : N) (h : HashValue) : M BatchStore Anyhow (option BatchKey) :=
  entry ← gets (λ s, expect "internal error: entered unreachable code: Expired entry not in cache"
                       (bst_db_cache s !! h));
  if bin_expiration (pev_info entry) <=? certified_time then
    _ ← modify (λ s, set_subscribers (delete (batch_key (pev_info entry)) (bst_persist_subscribers s))
                       (bst_sent s) s);
    _ ← modify (λ s, set_db_cache (delete h (bst_db_cache s)) s);
    _ ← store_free_quota entry;
    mret (Some {| bk_epoch := bin_epoch (pev_info entry); bk_digest := h |})
  else mret None.

Fixpoint clear_all_expired (certified_time : N) (l : list HashValue)
    : M BatchStore Anyhow (list BatchKey) :=
  match l with
  | [] => mret []
  | h :: l =>
      removed ← clear_expired certified_time h;
      ret ← clear_all_expired certified_time l;
      mret (match removed with Some key => key :: ret | None => ret end)
  end.

Definition clear_expired_payload (certified_time : N) : M BatchStore Anyhow (list BatchKey) :=
  expired_digests ← gets (λ s, Ok (expire certified_time (bst_expirations s)).1);
  _ ← modify (λ s, set_expirations (expire certified_time (bst_expirations s)).2 s);
  clear_all_expired certified_time (elements expired_digests).

(** [self.db.save_batch(..)]. *)
Definition store_save_batch (value : PersistedValue) : M BatchStore Anyhow unit := λ s,
  let '(r, d) := save_batch value (bst_db s) in
  (r, set_around d (bst_last_certified_time s) (bst_persist_subscribers s) (bst_sent s) s).

(** [r.ok()]; a panic stays one. *)
Definition ok_option {E A} (r : result E A) : result Anyhow (option A) :=
  match r with Ok a => Ok (Some a) | Err _ => Ok None | Panic m => Panic m end.

Definition persist_inner (persist_request : PersistedValue)
    : M BatchStore Anyhow (option SignedBatchInfo) := λ s,
  match save persist_request s with
  | (Ok needs_db, s) =>
      match (if needs_db : bool then store_save_batch persist_request s else (Ok tt, s)) with
      | (Ok _, s) =>
          (ok_option (SignedBatchInfo_new (pev_info persist_request) (bst_validator_signer s)), s)
      | (Err _, s) => (Panic "Could not write to DB", s)
      | (Panic m, s) => (Panic m, s)
      end
  | (Err _, s) => (Ok None, s)
  | (Panic m, s) => (Panic m, s)
  end.

Definition save_fetched_batch_to_db (persist_request : PersistedValue) : M BatchStore Anyhow unit := λ s,
  let '(r, s) := store_save_batch persist_request s in
  (map_err (λ _, Msg "Could not persist fetched batch to DB") r, s).

Definition update_certified_timestamp (certified_time : N) : M BatchStore Anyhow unit :=
  prev_time ← gets (λ s, Ok (bst_last_certified_time s));
  _ ← modify (λ s, set_around (bst_db s) (N.max prev_time certified_time)
                     (bst_persist_subscribers s) (bst_sent s) s);
  _ ← lift (assert_ (prev_time <=? certified_time)
              "Decreasing executed block timestamp reported to BatchReader");
  _ ← clear_expired_payload certified_time;
  mret tt.

Definition get_batch_from_db (key : BatchKey) (s : BatchStore) : result ExecutorError PersistedValue :=
  match qs_get_batch key (bst_db s) with
  | Ok (Some value) => Ok value
  | Ok None => Err CouldNotGetData
  | Err _ => Err InternalError
  | Panic m => Panic m
  end.

Definition get_batch_from_local (key : BatchKey) (s : BatchStore)
    : result ExecutorError PersistedValue :=
  match bst_db_cache s !! bk_digest key with
  | Some value =>
      if bool_decide (payload_storage_mode value = PersistedOnly) then get_batch_from_db key s
      else Ok value
  | None => get_batch_from_db key s
  end.

Definition notify_subscribers (value : PersistedValue) (s : BatchStore) : BatchStore :=
  let key := batch_key (pev_info value) in
  let subscribers := default [] (bst_persist_subscribers s !! key) in
  set_subscribers (delete key (bst_persist_subscribers s))
    (bst_sent s ++ ((λ x, (x, value)) <$> subscribers)) s.

(** [subscriber] is the sending end of the new channel. *)
Definition subscribe (key : BatchKey) (subscriber : N) : M BatchStore Anyhow unit := λ s,
  let subs := default [] (bst_persist_subscribers s !! key) in
  let s := set_subscribers (<[key := subs ++ [subscriber]]> (bst_persist_subscribers s)) (bst_sent s) s in
  match get_batch_from_local key s with
  | Ok value => (Ok tt, notify_subscribers value s)
  | Err _ => (Ok tt, s)
  | Panic m => (Panic m, s)
  end.

(** The requests with the signatures obtained for them.  The source runs the
    requests in parallel, each under the lock of its entry; the model runs them in
    the order of the list. *)
Fixpoint persist_requests (requests : list PersistedValue)
    : M BatchStore Anyhow (list (PersistedValue * SignedBatchInfo)) :=
  match requests with
  | [] => mret []
  | req :: requests =>
      signed ← persist_inner req;
      rest ← persist_requests requests;
      mret (match signed with Some si => (req, si) :: rest | None => rest end)
  end.

Definition persist (requests : list PersistedValue) : M BatchStore Anyhow (list SignedBatchInfo) :=
  res ← persist_requests requests;
  _ ← modify (λ s, foldl (λ s x, notify_subscribers x.1 s) s res);
  mret res.*2.

(** [BatchReader]. *)
Definition batch_exists (key : BatchKey) (s : BatchStore) : result Anyhow (option Author) :=
  match get_batch_from_local key s with
  | Ok v => Ok (Some (bin_author (pev_info v)))
  | Err _ => Ok None
  | Panic m => Panic m
  end.

(** A request for a batch: its transactions if the store has it; otherwise the
    caller is subscribed and the batch asked of its signers. *)
Definition get_batch_request (key : BatchKey) (subscriber : N)
    : M BatchStore Anyhow (option (list SignedTransaction)) := λ s,
  match get_batch_from_local key s with
  | Ok value =>
      match pev_maybe_payload value with
      | Some payload => (Ok (Some payload), s)
      | None => (Panic "Must have payload", s)
      end
  | Err _ => (_ ← subscribe key subscriber; mret None) s
  | Panic m => (Panic m, s)
  end.

(** The batch a signer has answered with; a failed write is only logged. *)
Definition on_fetched_batch (batch_info : BatchInfo) (payload : list SignedTransaction)
    : M BatchStore Anyhow unit := λ s,
  let value := {| pev_info := batch_info; pev_maybe_payload := Some payload |} in
  match save_fetched_batch_to_db value s with
  | (Panic m, s) => (Panic m, s)
  | (_, s) => (_ ← persist [value]; mret tt) s
  end.

(** ** Receipt of batches (batch_coordinator.rs) *)

Record BatchCoordinator := {
  bco_my_peer_id : Author;
  bco_max_batch_txns : N;
  bco_max_batch_bytes : N;
  bco_max_total_txns : N;
  bco_max_total_bytes : N;
}.

(** The messages the coordinator sends: to the batch generator, to the author of
    the batches, to the proof manager. *)
Inductive CoordinatorOutput :=
| RemoteBatch (b : Batch)
| SignedBatchInfos (l : list SignedBatchInfo) (recipient : Author)
| ReceiveBatches (l : list (BatchInfo * list TxnSummaryWithExpiration)).

(** The loop over the batches: their total numbers of transactions and bytes. *)
Fixpoint batch_totals (c : BatchCoordinator) (batches : list Batch) (total_txns total_bytes : N)
    : result Anyhow (N * N) :=
  match batches with
  | [] => Ok (total_txns, total_bytes)
  | b :: batches =>
      let info := bat_batch_info b in
      _ ← ensure (bin_num_txns info <=? bco_max_batch_txns c) (Msg "Exceeds batch txn limit");
      _ ← ensure (bin_num_bytes info <=? bco_max_batch_bytes c) (Msg "Exceeds batch bytes limit");
      total_txns ← add_u64 total_txns (bin_num_txns info);
      total_bytes ← add_u64 total_bytes (bin_num_bytes info);
      batch_totals c batches total_txns total_bytes
  end.

Definition ensure_max_limits (c : BatchCoordinator) (batches : list Batch) : result Anyhow unit :=
  totals ← batch_totals c batches 0 0;
  _ ← ensure (totals.1 <=? bco_max_total_txns c) (Msg "Exceeds total txn limit");
  ensure (totals.2 <=? bco_max_total_bytes c) (Msg "Exceeds total bytes limit:").

Definition persist_and_send_digests (requests : list PersistedValue)
    : M BatchStore Anyhow (list CoordinatorOutput) :=
  match requests with
  | [] => mret []
  | first :: _ =>
      let batches := (λ v, (pev_info v, PersistedValue_summary v)) <$> requests in
      signed_batch_infos ← persist requests;
      mret ((if bool_decide (signed_batch_infos = []) then []
             else [SignedBatchInfos signed_batch_infos (bin_author (pev_info first))]) ++
            [ReceiveBatches batches])
  end.

Definition handle_batches_msg (c : BatchCoordinator) (batches : list Batch)
    : M BatchStore Anyhow (list CoordinatorOutput) :=
  match ensure_max_limits c batches with
  | Ok _ =>
      let remote :=
        filter (λ b, bin_author (bat_batch_info b) ≠ bco_my_peer_id c) batches in
      sent ← persist_and_send_digests (persisted_of_batch <$> batches);
      mret ((RemoteBatch <$> remote) ++ sent)
  | Err _ => mret []
  | Panic m => lift (Panic m)
  end.

(** ** Accounting *)

Implicit Types (s : BatchStore) (v : PersistedValue) (a : Author).

Definition cost_if (f : PersistedValue → N) a v : N :=
  if decide (bin_author (pev_info v) = a) then f v else 0.

(** What the cached batches of a peer, and values [extra] beside them, cost. *)
Definition usage (f : PersistedValue → N) a (c : gmap HashValue PersistedValue) : N :=
  map_sum (cost_if f a) c.

Definition charged (f : PersistedValue → N) a (c : gmap HashValue PersistedValue)
    (extra : list PersistedValue) : N :=
  usage f a c + foldr (λ v n, cost_if f a v + n) 0 extra.

Definition value_bytes v : N := bin_num_bytes (pev_info v).
Definition memory_bytes v : N :=
  match payload_storage_mode v with MemoryAndPersisted => value_bytes v | PersistedOnly => 0 end.

(** The balances of a quota manager are its quotas less what is charged. *)
Record balanced (q : QuotaManager) a (c : gmap HashValue PersistedValue)
    (extra : list PersistedValue) : Prop := {
  bal_batches : qm_batch_balance q + charged (λ _, 1) a c extra = qm_batch_quota q;
  bal_db : qm_db_balance q + charged value_bytes a c extra = qm_db_quota q;
  bal_memory : qm_memory_balance q + charged memory_bytes a c extra = qm_memory_quota q;
}.

Definition peer_accounts s (extra : list PersistedValue) a : Prop :=
  match bst_peer_quota s !! a with
  | Some q =>
      qm_memory_quota q = bst_memory_quota s ∧ qm_db_quota q = bst_db_quota s ∧
      qm_batch_quota q = bst_batch_quota s ∧ balanced q a (bst_db_cache s) extra
  | None =>
      (∀ h v, bst_db_cache s !! h = Some v → bin_author (pev_info v) ≠ a) ∧
      (∀ v, v ∈ extra → bin_author (pev_info v) ≠ a)
  end.

Definition accounts s (extra : list PersistedValue) : Prop := ∀ a, peer_accounts s extra a.

Record limits_ok s : Prop := {
  lim_memory : bst_memory_quota s ≤ bst_db_quota s;
  lim_db : bst_db_quota s ≤ u64_max;
  lim_batch : bst_batch_quota s ≤ u64_max;
}.

Lemma usage_none f a c :
  (∀ h v, c !! h = Some v → bin_author (pev_info v) ≠ a) → usage f a c = 0.
Proof.
  intros Hc. apply map_sum_zero. intros h v Hv. unfold cost_if. by rewrite decide_False by eauto.
Qed.

Lemma charged_app f a c v extra : charged f a c (v :: extra) = cost_if f a v + charged f a c extra.
Proof. unfold charged. simpl. lia. Qed.

Lemma cost_self f v : cost_if f (bin_author (pev_info v)) v = f v.
Proof. unfold cost_if. by rewrite decide_True. Qed.

Lemma cost_other f a v : bin_author (pev_info v) ≠ a → cost_if f a v = 0.
Proof. intros. unfold cost_if. by rewrite decide_False. Qed.

Lemma memory_bytes_mode v :
  memory_bytes v
  = match payload_storage_mode v with MemoryAndPersisted => value_bytes v | PersistedOnly => 0 end.
Proof. done. Qed.

(** Only the peer charged or freed sees a change. *)
Lemma accounts_other s extra extra' a q :
  accounts s extra → (∀ a', a' ≠ a → (∀ f c, charged f a' c extra' = charged f a' c extra) ∧
    ((∀ v, v ∈ extra → bin_author (pev_info v) ≠ a') → ∀ v, v ∈ extra' → bin_author (pev_info v) ≠ a')) →
  qm_memory_quota q = bst_memory_quota s → qm_db_quota q = bst_db_quota s →
  qm_batch_quota q = bst_batch_quota s → balanced q a (bst_db_cache s) extra' →
  accounts (set_peer_quota (<[a := q]> (bst_peer_quota s)) s) extra'.
Proof.
  intros Hacc Hother Hm Hd Hb Hbal a'. unfold peer_accounts. simpl.
  destruct (decide (a' = a)) as [->|Hne]; [by rewrite lookup_insert_eq|].
  rewrite lookup_insert_ne by done. specialize (Hacc a'). destruct (Hother a' Hne) as [Hc Hin].
  unfold peer_accounts in Hacc. destruct (bst_peer_quota s !! a') as [q'|]; [|naive_solver].
  destruct Hacc as (? & ? & ? & [H1 H2 H3]). split_and!; [done..|]. by split; rewrite Hc.
Qed.

Lemma fresh_balanced s a fresh :
  accounts s [] → bst_peer_quota s !! a = None →
  QuotaManager_new (bst_db_quota s) (bst_memory_quota s) (bst_batch_quota s) = Ok fresh →
  qm_memory_quota fresh = bst_memory_quota s ∧ qm_db_quota fresh = bst_db_quota s ∧
  qm_batch_quota fresh = bst_batch_quota s ∧ balanced fresh a (bst_db_cache s) [].
Proof.
  intros Hacc Ha Hn. unfold QuotaManager_new in Hn. run_inv. split_and!; [done..|].
  specialize (Hacc a). unfold peer_accounts in Hacc. rewrite Ha in Hacc. destruct Hacc as [Hc _].
  split; unfold charged; simpl; rewrite usage_none by done; lia.
Qed.

(** Charging a peer for a value that will be stored in the mode returned. *)
Lemma charge_quota_spec a n s r s' :
  accounts s [] → limits_ok s → charge_quota a n s = (r, s') →
  (∃ m, s' = set_peer_quota m s) ∧
  match r with
  | Ok mode => ∀ v, bin_author (pev_info v) = a → value_bytes v = n → payload_storage_mode v = mode →
      accounts s' [v]
  | Err _ => accounts s' []
  | Panic _ => False
  end.
Proof.
  intros Hacc [Hl _ _] Hch. unfold charge_quota in Hch.
  destruct (QuotaManager_new _ _ _) as [fresh| |] eqn:Hn.
  2,3: exfalso; unfold QuotaManager_new in Hn; destruct (N.leb_spec (bst_memory_quota s) (bst_db_quota s)); [done|lia].
  set (q0 := default fresh (bst_peer_quota s !! a)) in *.
  assert (Hq0 : qm_memory_quota q0 = bst_memory_quota s ∧ qm_db_quota q0 = bst_db_quota s ∧
    qm_batch_quota q0 = bst_batch_quota s ∧ balanced q0 a (bst_db_cache s) []).
  { unfold q0. destruct (bst_peer_quota s !! a) as [q|] eqn:Ha; [|by apply fresh_balanced].
    specialize (Hacc a). unfold peer_accounts in Hacc. by rewrite Ha in Hacc. }
  destruct Hq0 as (Hm & Hd & Hb & [H1 H2 H3]).
  unfold update_quota in Hch. destruct (N.eqb_spec (qm_batch_balance q0) 0) as [Hz|Hz];
    [|destruct (N.leb_spec n (qm_db_balance q0)) as [Hdb|Hdb];
      [destruct (N.leb_spec n (qm_memory_balance q0)) as [Hmem|Hmem]|]]; injection Hch as <- <-.
  1,4: split; [by eexists|]; apply (accounts_other s [] []); auto; by split.
  all: split; [by eexists|]; intros v Hva Hvn Hmode; apply (accounts_other s [] [v]); auto.
  1,3: intros a' Hne; split; [intros f c; rewrite charged_app, cost_other by congruence; lia|set_solver].
  all: subst a n; assert (Hmb := memory_bytes_mode v); rewrite Hmode in Hmb.
  all: split; rewrite charged_app, cost_self; rewrite ?Hmb; simpl; lia.
Qed.

Lemma assert_quota_Ok b t q : b + t ≤ q → q ≤ u64_max → assert_quota b t q = Ok tt.
Proof.
  intros H1 H2. unfold assert_quota, add_u64, checked_add.
  rewrite (proj2 (N.leb_le _ _)) by lia. simpl. by rewrite (proj2 (N.leb_le _ _)) by lia.
Qed.

Lemma free_quota_spec v s r s' :
  accounts s [v] → limits_ok s → store_free_quota v s = (r, s') →
  (∃ m, s' = set_peer_quota m s) ∧ r = Ok tt ∧ accounts s' [].
Proof.
  intros Hacc [Hl Hl2 Hl3] Hf. unfold store_free_quota in Hf.
  pose proof (Hacc (bin_author (pev_info v))) as Hv. unfold peer_accounts in Hv.
  destruct (bst_peer_quota s !! bin_author (pev_info v)) as [q|] eqn:Hq;
    [|destruct Hv as [_ Hv]; exfalso; eapply Hv; [by left|done]].
  destruct Hv as (Hm & Hd & Hb & [H1 H2 H3]). rewrite charged_app, cost_self in H1, H2, H3.
  assert (Hq' : ∃ q', free_quota (bin_num_bytes (pev_info v)) (payload_storage_mode v) q = (Ok tt, q') ∧
    qm_memory_quota q' = qm_memory_quota q ∧ qm_db_quota q' = qm_db_quota q ∧
    qm_batch_quota q' = qm_batch_quota q ∧ balanced q' (bin_author (pev_info v)) (bst_db_cache s) []).
  { assert (Hmb := memory_bytes_mode v). assert (Hvb : value_bytes v = bin_num_bytes (pev_info v)) by done.
    unfold free_quota. rewrite assert_quota_Ok by lia. simpl. rewrite assert_quota_Ok by (simpl; lia).
    destruct (payload_storage_mode v); simpl; [rewrite Hmb in H3|rewrite assert_quota_Ok by (simpl; lia)].
    all: eexists; split; [done|]; split_and!; [done..|]; split; simpl; lia. }
  destruct Hq' as (q' & Hfree & Hm' & Hd' & Hb' & Hbal). rewrite Hfree in Hf. injection Hf as <- <-.
  split; [by eexists|]. split; [done|]. apply (accounts_other s [v] []); try congruence; auto.
  intros a' Hne. split; [intros f c; rewrite charged_app, cost_other by congruence; lia|set_solver].
Qed.

(** ** The invariant of the store *)

Record indexed s : Prop := {
  ix_accounts : accounts s [];
  ix_limits : limits_ok s;
  ix_digest h v : bst_db_cache s !! h = Some v → bin_digest (pev_info v) = h;
  ix_queue : te_ok (bst_expirations s);
  ix_cached h v : bst_db_cache s !! h = Some v →
    (bin_expiration (pev_info v), h) ∈ te_expiries (bst_expirations s);
  ix_queued t h : (t, h) ∈ te_expiries (bst_expirations s) →
    ∃ v, bst_db_cache s !! h = Some v ∧ t ≤ bin_expiration (pev_info v);
}.

Definition fresh s : Prop :=
  ∀ h v, bst_db_cache s !! h = Some v → bst_last_certified_time s < bin_expiration (pev_info v).

Definition store_ok s : Prop := indexed s ∧ fresh s.

(** The parts of the store that caching does not touch. *)
Record frame s s' : Prop := {
  fr_epoch : bst_epoch s' = bst_epoch s;
  fr_time : bst_last_certified_time s' = bst_last_certified_time s;
  fr_db : bst_db s' = bst_db s;
  fr_signer : bst_validator_signer s' = bst_validator_signer s;
}.

Lemma frame_refl s : frame s s.
Proof. done. Qed.

Lemma frame_trans s1 s2 s3 : frame s1 s2 → frame s2 s3 → frame s1 s3.
Proof. intros [? ? ? ?] [? ? ? ?]. split; congruence. Qed.

(** Moving values between the cache and [extra] keeps the accounts. *)
Lemma accounts_move s c' extra extra' :
  (∀ f a, charged f a c' extra' = charged f a (bst_db_cache s) extra) →
  (∀ v, (∃ h, c' !! h = Some v) ∨ v ∈ extra' → (∃ h, bst_db_cache s !! h = Some v) ∨ v ∈ extra) →
  accounts s extra → accounts (set_db_cache c' s) extra'.
Proof.
  intros Hch Hin Hacc a. specialize (Hacc a). unfold peer_accounts in *. simpl.
  destruct (bst_peer_quota s !! a) as [q|].
  - destruct Hacc as (? & ? & ? & [H1 H2 H3]). split_and!; [done..|]. by split; rewrite Hch.
  - destruct Hacc as [Hc Hv].
    assert (Hall : ∀ v, (∃ h, c' !! h = Some v) ∨ v ∈ extra' → bin_author (pev_info v) ≠ a).
    { intros v [(h & Hh)|He]%Hin; [by eapply Hc|by apply Hv]. }
    split; [intros h v Hh; apply Hall; eauto|auto].
Qed.

Lemma accounts_insert_vacant s h v :
  bst_db_cache s !! h = None → accounts s [v] →
  accounts (set_db_cache (<[h := v]> (bst_db_cache s)) s) [].
Proof.
  intros Hh. apply accounts_move.
  - intros f a. unfold charged, usage. rewrite map_sum_insert by done. simpl. lia.
  - intros v' [(h' & Hl)|Hv]; [|set_solver].
    apply lookup_insert_Some in Hl as [[<- <-]|[_ Hl]]; [right; by left|eauto].
Qed.

Lemma accounts_delete s h v :
  bst_db_cache s !! h = Some v → accounts s [] →
  accounts (set_db_cache (delete h (bst_db_cache s)) s) [v].
Proof.
  intros Hh. apply accounts_move.
  - intros f a. unfold charged, usage. rewrite (map_sum_delete _ (bst_db_cache s) h v) by done. simpl. lia.
  - intros v' [(h' & Hl)|Hv]; [apply lookup_delete_Some in Hl as [_ Hl]; eauto|].
    apply list_elem_of_singleton in Hv as ->. eauto.
Qed.

Lemma accounts_replace s h v prev :
  bst_db_cache s !! h = Some prev → accounts s [v] →
  accounts (set_db_cache (<[h := v]> (bst_db_cache s)) s) [prev].
Proof.
  intros Hh. apply accounts_move.
  - intros f a. unfold charged, usage. rewrite (map_sum_delete _ (bst_db_cache s) h prev) by done.
    rewrite <- insert_delete_eq, map_sum_insert by apply lookup_delete_eq. simpl. lia.
  - intros v' [(h' & Hl)|Hv]; [|apply list_elem_of_singleton in Hv as ->; eauto].
    apply lookup_insert_Some in Hl as [[<- <-]|[_ Hl]]; [right; by left|eauto].
Qed.

(** The value cached for a request: the request, or its metadata only. *)
Definition cached_form v v' : Prop :=
  pev_info v' = pev_info v ∧ (pev_maybe_payload v' = None ∨ v' = v).

Lemma store_ok_cached s q h v :
  store_ok s →
  let s' := set_cached (<[h := v]> (bst_db_cache s)) q
    (add_item h (bin_expiration (pev_info v)) (bst_expirations s)) s in
  accounts s' [] →
  bin_digest (pev_info v) = h → bst_last_certified_time s < bin_expiration (pev_info v) →
  (∀ w, bst_db_cache s !! h = Some w → bin_expiration (pev_info w) ≤ bin_expiration (pev_info v)) →
  store_ok s'.
Proof.
  intros [[_ [Hl1 Hl2 Hl3] Hdig Hq Hc Hqd] Hfr] s' Hacc Hd Hnew Hprev.
  split; [split; simpl; [done|by split|..]|].
  - intros h' w [[<- <-]|[_ Hw]]%lookup_insert_Some; [done|by apply Hdig].
  - by apply add_item_ok.
  - intros h' w Hw. apply elem_of_heap_push. apply lookup_insert_Some in Hw as [[<- <-]|[_ Hw]]; [by left|].
    right. by apply Hc.
  - intros t h' [[= -> ->]|Hin]%elem_of_heap_push; [exists v; rewrite lookup_insert_eq; split; [done|lia]|].
    destruct (Hqd t h' Hin) as (w & Hw & Ht). destruct (decide (h' = h)) as [->|Hne].
    + exists v. rewrite lookup_insert_eq. split; [done|]. specialize (Hprev w Hw). lia.
    + exists w. by rewrite lookup_insert_ne.
  - intros h' w. simpl. intros [[<- <-]|[_ Hw]]%lookup_insert_Some; [done|by eapply Hfr].
Qed.

Lemma put_in_cache_spec h v previous s r s' :
  accounts s [v] → limits_ok s → bst_db_cache s !! h = previous → put_in_cache h v previous s = (r, s') →
  r = Ok tt ∧ accounts s' [] ∧
  ∃ q, s' = set_cached (<[h := v]> (bst_db_cache s)) q (bst_expirations s) s.
Proof.
  intros Hacc Hlim Hprev Hp. unfold put_in_cache, mbind, M_bind, modify in Hp.
  destruct previous as [prev|].
  - destruct (free_quota_spec _ _ _ _ (accounts_replace _ _ _ _ Hprev Hacc) ltac:(by destruct Hlim) Hp)
      as ([m ->] & -> & Ha). split; [done|]. split; [done|]. by exists m.
  - injection Hp as <- <-. split; [done|]. split; [by apply accounts_insert_vacant|]. by eexists.
Qed.

Lemma accounts_expirations s extra e : accounts s extra → accounts (set_expirations e s) extra.
Proof. done. Qed.

Lemma insert_to_cache_spec v s r s' :
  store_ok s → is_Some (pev_maybe_payload v) → bst_last_certified_time s < bin_expiration (pev_info v) →
  insert_to_cache v s = (r, s') →
  store_ok s' ∧ frame s s' ∧
  match r with
  | Ok true => ∃ v', cached_form v v' ∧ bst_db_cache s' = <[bin_digest (pev_info v) := v']> (bst_db_cache s)
  | Ok false => s' = s ∧ ∃ w, bst_db_cache s !! bin_digest (pev_info v) = Some w
  | Err _ => bst_db_cache s' = bst_db_cache s
  | Panic _ => False
  end.
Proof.
  intros Hok Hpay Hnew Hi. unfold insert_to_cache, gets in Hi.
  unfold mbind, M_bind in Hi. cbn beta iota in Hi. set (h := bin_digest (pev_info v)) in *.
  destruct (match bst_db_cache s !! h with Some w => _ | None => false end) eqn:Hnewer.
  { injection Hi as <- <-. split; [done|]. split; [done|]. split; [done|].
    destruct (bst_db_cache s !! h); [by eexists|done]. }
  match type of Hi with context [charge_quota ?a ?n s] =>
    destruct (charge_quota a n s) as [rc sc] eqn:Hch end.
  destruct (charge_quota_spec _ _ _ _ _ (ix_accounts _ (proj1 Hok)) (ix_limits _ (proj1 Hok)) Hch) as [[m ->] Hrc].
  destruct rc as [mode|e|]; [| |done].
  - set (v' := match mode with PersistedOnly => _ | _ => _ end) in Hi.
    assert (Hform : cached_form v v' ∧ payload_storage_mode v' = mode).
    { destruct Hpay as [p Hp]. unfold v'. destruct mode; (split; [split; auto|]); [done|].
      unfold payload_storage_mode. by rewrite Hp. }
    destruct Hform as [Hform Hmode]. assert (Hinfo : pev_info v' = pev_info v) by apply Hform.
    match type of Hi with context [put_in_cache ?a ?b ?c ?d] =>
      destruct (put_in_cache a b c d) as [rp sp] eqn:Hput end.
    destruct (put_in_cache_spec h v' (bst_db_cache s !! h) _ _ _
      ltac:(by apply Hrc; unfold value_bytes; rewrite ?Hinfo) ltac:(by destruct (ix_limits _ (proj1 Hok))) eq_refl Hput)
      as (-> & Hacc & q & ->).
    injection Hi as <- <-. simpl in *. split; [|split; [done|by exists v']].
    pose proof (store_ok_cached s q h v' Hok) as Hst. rewrite Hinfo in Hst. apply Hst; [done..|].
    intros w Hw. rewrite Hw in Hnewer. guards. lia.
  - injection Hi as <- <-. split; [|done].
    destruct Hok as [[_ [? ? ?] ? ? ? ?] ?]. split; [by split|done].
Qed.

(** While expired batches are removed: those of [l] are still to be looked at. *)
Record clearing (t : N) (l : list HashValue) s : Prop := {
  cl_accounts : accounts s [];
  cl_limits : limits_ok s;
  cl_digest h v : bst_db_cache s !! h = Some v → bin_digest (pev_info v) = h;
  cl_queue : te_ok (bst_expirations s);
  cl_cached h v : bst_db_cache s !! h = Some v →
    (bin_expiration (pev_info v), h) ∈ te_expiries (bst_expirations s) ∨
    h ∈ l ∧ bin_expiration (pev_info v) ≤ t;
  cl_queued x h : (x, h) ∈ te_expiries (bst_expirations s) →
    t < x ∧ ∃ v, bst_db_cache s !! h = Some v ∧ x ≤ bin_expiration (pev_info v);
  cl_left h : h ∈ l → is_Some (bst_db_cache s !! h);
}.

Lemma clearing_done t s : clearing t [] s → indexed s.
Proof.
  intros [Hacc Hlim Hdig Hq Hc Hqd _]. split; [done..| |].
  - intros h v Hv. by destruct (Hc h v Hv) as [?|[[]%not_elem_of_nil _]].
  - intros x h Hin. by apply Hqd.
Qed.

Lemma clear_expired_spec t h l s r s' :
  clearing t (h :: l) s → h ∉ l → clear_expired t h s = (r, s') →
  ∃ v key, bst_db_cache s !! h = Some v ∧ r = Ok key ∧ clearing t l s' ∧ frame s s' ∧
    bst_db_cache s' =
      if bin_expiration (pev_info v) <=? t then delete h (bst_db_cache s) else bst_db_cache s.
Proof.
  intros [Hacc Hlim Hdig Hq Hc Hqd Hl] Hnl Hr.
  destruct (Hl h (list_elem_of_here _ _)) as [v Hv]. unfold clear_expired, gets, mbind, M_bind in Hr.
  rewrite Hv in Hr. cbn beta iota delta [expect] in Hr. exists v.
  destruct (N.leb_spec (bin_expiration (pev_info v)) t) as [Hle|Hgt].
  - unfold modify in Hr. match type of Hr with context [store_free_quota ?a ?b] =>
      destruct (store_free_quota a b) as [rf sf] eqn:Hf end.
    set (s1 := set_subscribers _ _ s) in Hf.
    destruct (free_quota_spec v _ _ _ (accounts_delete s1 h v Hv Hacc) ltac:(by destruct Hlim) Hf)
      as ([m ->] & -> & Hacc'). injection Hr as <- <-.
    eexists. split; [done|]. split; [done|]. split; [|done].
    split; simpl; [done|by destruct Hlim| |done| | |].
    + intros h' w [_ Hw]%lookup_delete_Some. by apply Hdig.
    + intros h' w [Hne Hw]%lookup_delete_Some.
      destruct (Hc h' w Hw) as [?|[[->|?]%elem_of_cons ?]]; [by left|done|by right].
    + intros x h' Hin. destruct (Hqd x h' Hin) as (Hx & w & Hw & Hle'). split; [done|]. exists w.
      split; [|done]. apply lookup_delete_Some. split; [|done]. intros <-.
      rewrite Hv in Hw. injection Hw as <-. lia.
    + intros h' Hin. rewrite lookup_delete_ne by (by intros <-). apply Hl. by right.
  - injection Hr as <- <-. exists None. split; [done|]. split; [done|]. split; [|done].
    split; try done.
    + intros h' w Hw. destruct (Hc h' w Hw) as [?|[[->|?]%elem_of_cons ?]]; auto.
      rewrite Hv in Hw. injection Hw as <-. lia.
    + intros h' Hin. apply Hl. by right.
Qed.

Lemma clear_all_expired_spec t l s r s' :
  clearing t l s → NoDup l → clear_all_expired t l s = (r, s') →
  (∃ keys, r = Ok keys) ∧ clearing t [] s' ∧ frame s s' ∧
  ∀ h v, bst_db_cache s' !! h = Some v → bst_db_cache s !! h = Some v.
Proof.
  intros Hcl Hnd. revert s r s' Hcl. induction Hnd as [|h l Hh Hnd IH]; intros s r s' Hcl Hr; simpl in Hr.
  { injection Hr as <- <-. split; [by eexists|]. by split. }
  unfold mbind, M_bind in Hr. destruct (clear_expired t h s) as [r1 s1] eqn:H1.
  destruct (clear_expired_spec _ _ _ _ _ _ Hcl Hh H1) as (v & key & Hv & -> & Hcl1 & Hf1 & Hc1).
  destruct (clear_all_expired t l s1) as [r2 s2] eqn:H2.
  destruct (IH _ _ _ Hcl1 H2) as ([keys ->] & Hcl2 & Hf2 & Hc2). injection Hr as <- <-.
  split; [by eexists|]. split; [done|]. split; [by eapply frame_trans|].
  intros h' w Hw%Hc2. rewrite Hc1 in Hw. case_match; [|done]. by apply lookup_delete_Some in Hw as [_ ?].
Qed.

Lemma clear_expired_payload_spec t s r s' :
  indexed s → clear_expired_payload t s = (r, s') →
  (∃ keys, r = Ok keys) ∧ frame s s' ∧
  (∀ h v, bst_db_cache s' !! h = Some v → bst_db_cache s !! h = Some v ∧ t < bin_expiration (pev_info v)) ∧
  indexed s'.
Proof.
  intros [Hacc Hlim Hdig Hq Hc Hqd] Hr. unfold clear_expired_payload, gets, modify, mbind, M_bind in Hr.
  destruct (expire_spec t _ Hq) as (Hq' & Hexp & Hrest). set (s1 := set_expirations _ s) in Hr.
  assert (Hcl : clearing t (elements (expire t (bst_expirations s)).1) s1).
  { split; simpl; [done|by destruct Hlim|done|done| | |].
    - intros h v Hv. apply Hc in Hv as Hin. rewrite elem_of_elements, Hexp, Hrest.
      destruct (N.le_gt_cases (bin_expiration (pev_info v)) t); [right; eauto|left; auto].
    - intros x h [Hin Hx]%Hrest. split; [done|]. by apply Hqd.
    - intros h (x & Hin & _)%elem_of_elements%Hexp. destruct (Hqd x h Hin) as (v & Hv & _). by eexists. }
  destruct (clear_all_expired_spec _ _ _ _ _ Hcl (NoDup_elements _) Hr) as (Hk & Hcl' & Hf & Hsub).
  split; [done|]. split; [by eapply frame_trans; [|exact Hf]|]. split; [|by apply clearing_done in Hcl'].
  intros h v Hv. split; [by apply Hsub|]. destruct (cl_cached _ _ _ Hcl' _ _ Hv) as [Hin|[[]%not_elem_of_nil _]].
  by apply (cl_queued _ _ _ Hcl') in Hin as [? _].
Qed.

Lemma update_certified_timestamp_spec t s r s' :
  store_ok s → update_certified_timestamp t s = (r, s') →
  if bst_last_certified_time s <=? t
  then r = Ok tt ∧ store_ok s' ∧ bst_epoch s' = bst_epoch s ∧ bst_db s' = bst_db s ∧
    bst_validator_signer s' = bst_validator_signer s ∧ bst_last_certified_time s' = t ∧
    (∀ h v, bst_db_cache s' !! h = Some v → bst_db_cache s !! h = Some v ∧ t < bin_expiration (pev_info v))
  else ∃ m, r = Panic m.
Proof.
  intros Hok Hr. unfold update_certified_timestamp, gets, modify, lift, assert_, mbind, M_bind in Hr.
  destruct (N.leb_spec (bst_last_certified_time s) t) as [Hle|Hlt]; cbn beta iota in Hr;
    [|injection Hr as <- _; by eexists].
  match type of Hr with context [clear_expired_payload t ?a] =>
    set (s1 := a) in Hr; destruct (clear_expired_payload t s1) as [rc sc] eqn:Hc end.
  assert (Hix : indexed s1) by (destruct Hok as [[? [? ? ?] ? ? ? ?] _]; by split).
  destruct (clear_expired_payload_spec _ _ _ _ Hix Hc) as ([keys ->] & [He Ht Hd Hs] & Hsub & Hok').
  injection Hr as <- <-. simpl in *. rewrite N.max_r in Ht by done.
  split; [done|]. split; [|done]. split; [done|]. intros h v Hv. rewrite Ht. by apply Hsub in Hv as [_ ?].
Qed.

End store.

(** [bcs] reads back a persisted value. *)
Class QuorumStoreLaws {GA : Gaptos} {QT : QuorumStoreTypes} : Prop :=
  persisted_value_of_to_bcs v data : bcs_persisted_value v = Ok data → persisted_value_of_bcs data = Ok v.

Section served.
Context {GA : Gaptos} {VE : Verifier} {CR : Crypto} {DT : DbTypes} {SD : SchemaDb}.
Context {QT : QuorumStoreTypes} {TL : DbTypesLaws} {DL : SchemaDbLaws} {QL : QuorumStoreLaws}.
Implicit Types (s : BatchStore) (v : PersistedValue) (d : DB) (key : BatchKey).

(** ** What the database holds *)

Definition qs_row d key v : Prop :=
  row BatchSchema {| cdb_db := d; cdb_latest_ledger_info := None |} key v.

(** A payload that hashes to the digest of its batch. *)
Definition payload_matches v (txns : list SignedTransaction) : Prop :=
  pev_maybe_payload v = Some txns ∧
  hash_batch_payload (bin_author (pev_info v)) txns = bin_digest (pev_info v).

Definition value_valid v : Prop := ∃ txns, payload_matches v txns.

Definition db_valid d : Prop :=
  ∀ key v, qs_row d key v → value_valid v ∧ bin_digest (pev_info v) = bk_digest key.

Definition servable d key : Prop := ∃ v, qs_row d key v.

Lemma batch_key_ok key : bk_epoch key ≤ u64_max → key_ok BatchSchema key.
Proof.
  intros He. exists (epoch_hash_bytes (bk_epoch key, bk_digest key)). split; [done|]. simpl.
  unfold epoch_hash_bytes. simpl fst. simpl snd. rewrite decode_encode_epoch_hash by done. by destruct key.
Qed.

Lemma batch_key_bytes key kb :
  encode_key BatchSchema key = Ok kb → kb = epoch_hash_bytes (bk_epoch key, bk_digest key).
Proof. intros H. by apply encode_epoch_hash_Ok in H. Qed.

Lemma batch_row_decoded key kb :
  encode_key BatchSchema key = Ok kb → decode_key BatchSchema kb = Ok key → bk_epoch key ≤ u64_max.
Proof.
  intros ->%batch_key_bytes Hd. simpl in Hd. apply bind_Ok in Hd as ([e h] & Hd & [= <-]).
  simpl. by apply decoded_epoch in Hd.
Qed.

Lemma save_batch_spec v d r d' :
  bin_epoch (pev_info v) ≤ u64_max → save_batch v d = (r, d') →
  match r with
  | Ok _ => qs_row d' (batch_key (pev_info v)) v ∧
      ∀ key w, qs_row d' key w → key = batch_key (pev_info v) ∧ w = v ∨ qs_row d key w
  | _ => True
  end ∧ (∀ key, servable d key → r = Ok tt → servable d' key).
Proof.
  intros He Hs. destruct r as [[]| |]; [|by split..].
  unfold save_batch, qs_put in Hs. apply mbind_M_Ok in Hs as (b & d1 & Hb & Hw). unfold lift in Hb.
  injection Hb as Hb <-. apply batch_put_Ok in Hb as (kb & vb & Hk & Hv & Heff).
  apply db_write_Ok in Hw. rewrite Heff, batch_effect_new in Hw. apply batch_key_bytes in Hk as Hkb.
  destruct (batch_key_ok (batch_key (pev_info v)) He) as (kb' & Hk' & Hd').
  assert (kb' = kb) as -> by congruence.
  assert (Hrow : qs_row d' (batch_key (pev_info v)) v).
  { exists kb, vb. split_and!; [done..| |by apply persisted_value_of_to_bcs]. simpl. rewrite Hw. apply lookup_insert_eq. }
  assert (Hother : ∀ key w, qs_row d' key w → key = batch_key (pev_info v) ∧ w = v ∨ qs_row d key w).
  { intros key w Hr. destruct (decide (key = batch_key (pev_info v))) as [->|Hne].
    { left. split; [done|]. by eapply row_fun. }
    right. destruct Hr as (kb2 & vb2 & Hk2 & Hd2 & Hl2 & Hv2). exists kb2, vb2. split_and!; [done..| |done].
    simpl in *. rewrite Hw in Hl2. rewrite lookup_insert_ne in Hl2; [done|]. intros [= ->].
    apply Hne. rewrite Hd' in Hd2. congruence. }
  split; [done|]. intros key (w & Hr) _. destruct (decide (key = batch_key (pev_info v))) as [->|Hne]; [by eexists|].
  exists w. destruct Hr as (kb2 & vb2 & Hk2 & Hd2 & Hl2 & Hv2). exists kb2, vb2. split_and!; [done..| |done].
  simpl in *. rewrite Hw, lookup_insert_ne; [done|]. intros [= ->]. apply Hne. congruence.
Qed.

(** ** What the store has signed for *)

(** Every cached batch is of the epoch of the store, and its payload is in the
    database. *)
Record content s : Prop := {
  ct_epoch : bst_epoch s ≤ u64_max;
  ct_db : db_valid (bst_db s);
  ct_cached h v : bst_db_cache s !! h = Some v →
    bin_epoch (pev_info v) = bst_epoch s ∧
    (∀ txns, pev_maybe_payload v = Some txns → payload_matches v txns) ∧
    servable (bst_db s) {| bk_epoch := bst_epoch s; bk_digest := h |};
}.

Definition good s : Prop := store_ok s ∧ content s.

(** A request the coordinator passes on: verified, and of the epoch. *)
Definition request_ok s v : Prop := value_valid v ∧ bin_epoch (pev_info v) = bst_epoch s.

(** The store moves on: nothing servable is lost. *)
Record advances s s' : Prop := {
  ad_epoch : bst_epoch s' = bst_epoch s;
  ad_signer : bst_validator_signer s' = bst_validator_signer s;
  ad_time : bst_last_certified_time s ≤ bst_last_certified_time s';
  ad_servable key : servable (bst_db s) key → servable (bst_db s') key;
}.

Lemma advances_refl s : advances s s.
Proof. by split. Qed.

Lemma advances_trans s1 s2 s3 : advances s1 s2 → advances s2 s3 → advances s1 s3.
Proof. intros [? ? ? ?] [? ? ? ?]. split; [congruence..|lia|auto]. Qed.

Lemma frame_advances s s' : frame s s' → advances s s'.
Proof. intros [? Ht Hd ?]. split; [done..|lia|by rewrite Hd]. Qed.

Lemma payload_form v v' txns :
  cached_form v v' → payload_matches v txns →
  ∀ txns', pev_maybe_payload v' = Some txns' → payload_matches v' txns'.
Proof. intros [Hi [Hn| ->]] [Hp Hh] txns' Hp'; [congruence|]. split; [done|]. congruence. Qed.

(** The database write of a batch that was just cached. *)
Lemma save_cached_good s v v' s' r sd :
  content s → store_ok s' → frame s s' → request_ok s v → cached_form v v' →
  bst_db_cache s' = <[bin_digest (pev_info v) := v']> (bst_db_cache s) →
  store_save_batch v s' = (r, sd) →
  (∀ u, r = Ok u → good sd ∧ advances s sd ∧ servable (bst_db sd) (batch_key (pev_info v))).
Proof.
  intros [He Hdb Hc] Hok' [Fe Ft Fd Fs] [[txns Hval] Hep] Hform Hcache Hs [] ->.
  unfold store_save_batch in Hs. destruct (save_batch v (bst_db s')) as [r d'] eqn:Hsave.
  injection Hs as -> <-. rewrite Fd in Hsave.
  assert (Hmax : bin_epoch (pev_info v) ≤ u64_max) by congruence.
  destruct (save_batch_spec _ _ _ _ Hmax Hsave) as [[Hrow Hold] Hmono].
  split; [split|split]; simpl.
  - destruct Hok' as [[? [? ? ?] ? ? ? ?] ?]. split; [by split|done].
  - split; simpl; [by rewrite Fe| |].
    + intros key w [(-> & ->)|Hr]%Hold; [|by apply Hdb]. split; [by exists txns|done].
    + intros h w. rewrite Fe, Hcache. intros [(<- & <-)|[_ Hw]]%lookup_insert_Some.
      * destruct Hform as [Hi Hf] eqn:E. rewrite Hi. split; [done|].
        split; [by eapply payload_form|]. rewrite <- Hep. by exists v.
      * destruct (Hc h w Hw) as (? & ? & ?). split_and!; auto.
  - split; simpl; [done..|lia|auto].
  - by exists v.
Qed.

Lemma persist_inner_spec v s r s' :
  good s → request_ok s v → persist_inner v s = (r, s') →
  match r with
  | Ok o => good s' ∧ advances s s' ∧
      ∀ si, o = Some si → sbi_info si = pev_info v ∧ servable (bst_db s') (batch_key (pev_info v))
  | Err _ => False
  | Panic _ => (∃ d, (save_batch v d).1 ≠ Ok tt) ∨
      ∃ m, SignedBatchInfo_new (pev_info v) (bst_validator_signer s) = Panic m
  end.
Proof.
  intros [Hok Hct] Hreq Hp. unfold persist_inner, save, gets, mbind, M_bind in Hp. cbn beta iota in Hp.
  destruct (N.ltb_spec (bst_last_certified_time s) (bin_expiration (pev_info v))) as [Hnew|Hold].
  2: { injection Hp as <- <-. split; [done|]. split; [apply advances_refl|done]. }
  destruct (insert_to_cache v s) as [ri si] eqn:Hi.
  assert (Hpay : is_Some (pev_maybe_payload v)) by (destruct Hreq as [(t & -> & _) _]; by eexists).
  destruct (insert_to_cache_spec _ _ _ _ Hok Hpay Hnew Hi) as (Hok1 & Hf & Hcase).
  assert (Hsigned : ∀ s1, bst_validator_signer s1 = bst_validator_signer s → good s1 → advances s s1 →
    servable (bst_db s1) (batch_key (pev_info v)) →
    match ok_option (SignedBatchInfo_new (pev_info v) (bst_validator_signer s1)) with
    | Ok o => good s1 ∧ advances s s1 ∧
        ∀ x, o = Some x → sbi_info x = pev_info v ∧ servable (bst_db s1) (batch_key (pev_info v))
    | Err _ => False
    | Panic _ => (∃ d, (save_batch v d).1 ≠ Ok tt) ∨
        ∃ m, SignedBatchInfo_new (pev_info v) (bst_validator_signer s) = Panic m
    end).
  { intros s1 Hsg Hg Ha Hsv. rewrite Hsg. destruct (SignedBatchInfo_new _ _) as [x| |m] eqn:Hx; simpl.
    - split; [done|]. split; [done|]. intros y [= <-]. split; [|done].
      unfold SignedBatchInfo_new in Hx. by run_inv.
    - by split.
    - right. by exists m. }
  destruct ri as [[]|e|]; [| | |done].
  - destruct Hcase as (v' & Hform & Hcache). destruct (store_save_batch v si) as [rd sd] eqn:Hsave.
    pose proof (save_cached_good s v v' si rd sd Hct Hok1 Hf Hreq Hform Hcache Hsave) as Hgood.
    destruct rd as [[]|e|m]; injection Hp as <- <-.
    + destruct (Hgood tt eq_refl) as (Hg & Ha & Hsv). apply Hsigned; [by apply Ha|done..].
    + left. exists (bst_db si). unfold store_save_batch in Hsave. destruct (save_batch v _); simpl. congruence.
    + left. exists (bst_db si). unfold store_save_batch in Hsave. destruct (save_batch v _); simpl. congruence.
  - destruct Hcase as [-> (w & Hw)]. injection Hp as <- <-.
    apply Hsigned; [done..|apply advances_refl|].
    destruct (ct_cached _ Hct _ _ Hw) as (_ & _ & Hsv). destruct Hreq as [_ Hep].
    unfold batch_key. by rewrite Hep.
  - injection Hp as <- <-. apply frame_advances in Hf as Ha. split; [|done]. split; [done|].
    destruct Hct as [He Hdb Hc], Hf as [Fe _ Fd _]. split; rewrite ?Fe, ?Fd, ?Hcase; done.
Qed.

Lemma save_batch_failed v d r d' :
  save_batch v d = (r, d') → r ≠ Ok tt → db_contents d' = db_contents d.
Proof.
  intros Hs Hr. unfold save_batch, qs_put, mbind, M_bind, lift in Hs.
  destruct (batch_put _ _ _ _) as [b| |]; [|by injection Hs as <- <-..].
  destruct r as [[]|e|m]; [done|by apply db_write_Err in Hs|].
  exfalso. apply (db_write_no_panic b d m). by rewrite Hs.
Qed.

Lemma qs_row_same d d' key v : db_contents d' = db_contents d → qs_row d' key v ↔ qs_row d key v.
Proof. intros Hc. unfold qs_row, row. simpl. by rewrite Hc. Qed.

(** The database may gain a valid batch. *)
Lemma fetched_good s v r s' :
  good s → request_ok s v → store_save_batch v s = (r, s') → good s' ∧ advances s s'.
Proof.
  intros [Hok [He Hdb Hc]] [Hval Hep] Hs. unfold store_save_batch in Hs.
  destruct (save_batch v (bst_db s)) as [r0 d'] eqn:Hsave. injection Hs as <- <-.
  assert (Hmax : bin_epoch (pev_info v) ≤ u64_max) by congruence.
  assert (Hrows : (∀ key w, qs_row d' key w → key = batch_key (pev_info v) ∧ w = v ∨ qs_row (bst_db s) key w) ∧
    ∀ key, servable (bst_db s) key → servable d' key).
  { destruct (decide (is_ok r0 = true)) as [Hr|Hr].
    - destruct r0 as [[]| |]; [|done..]. destruct (save_batch_spec _ _ _ _ Hmax Hsave) as [[_ Hold] Hm].
      split; [done|]. intros key Hk. by apply Hm.
    - assert (Hsame : db_contents d' = db_contents (bst_db s))
        by (eapply save_batch_failed; [done|by intros ->]).
      split; [intros key w Hw; right; by apply (qs_row_same _ _ _ _ Hsame)|].
      intros key (w & Hw). exists w. by apply (qs_row_same _ _ _ _ Hsame). }
  destruct Hrows as [Hold Hm]. split; [split|split; simpl; [done..|lia|done]].
  - destruct Hok as [[? [? ? ?] ? ? ? ?] ?]. split; [by split|done].
  - split; simpl; [done| |].
    + intros key w [(-> & ->)|Hr]%Hold; [by split|by apply Hdb].
    + intros h w Hw. destruct (Hc h w Hw) as (? & ? & ?). auto.
Qed.

Lemma subscribers_good subs sent s :
  good s → good (set_subscribers subs sent s) ∧ advances s (set_subscribers subs sent s).
Proof.
  intros [Hok [He Hdb Hc]]. split; [|by split]. split; [|by split].
  destruct Hok as [[? [? ? ?] ? ? ? ?] ?]. split; [by split|done].
Qed.

Lemma request_ok_advances s s' v : advances s s' → request_ok s v → request_ok s' v.
Proof. intros [He _ _ _] [Hv Hep]. split; [done|]. by rewrite He. Qed.

Lemma persist_requests_spec reqs s r s' :
  good s → (∀ v, v ∈ reqs → request_ok s v) → persist_requests reqs s = (r, s') →
  match r with
  | Ok res => good s' ∧ advances s s' ∧
      ∀ v si, (v, si) ∈ res → sbi_info si = pev_info v ∧ servable (bst_db s') (batch_key (pev_info v))
  | Err _ => False
  | Panic _ => ∃ v, v ∈ reqs ∧ ((∃ d, (save_batch v d).1 ≠ Ok tt) ∨
      ∃ m, SignedBatchInfo_new (pev_info v) (bst_validator_signer s) = Panic m)
  end.
Proof.
  revert s r s'. induction reqs as [|v reqs IH]; intros s r s' Hg Hreqs Hp; simpl in Hp.
  { injection Hp as <- <-. split; [done|]. split; [apply advances_refl|].
    by intros v si ?%not_elem_of_nil. }
  unfold mbind, M_bind in Hp. destruct (persist_inner v s) as [r1 s1] eqn:H1.
  pose proof (persist_inner_spec _ _ _ _ Hg (Hreqs v ltac:(by left)) H1) as Hs1.
  destruct r1 as [o| |m]; [|done|injection Hp as <- _; exists v; split; [by left|done]].
  destruct Hs1 as (Hg1 & Ha1 & Hsi). destruct (persist_requests reqs s1) as [r2 s2] eqn:H2.
  assert (Hreqs1 : ∀ w, w ∈ reqs → request_ok s1 w).
  { intros w Hw. eapply request_ok_advances; [done|]. apply Hreqs. by right. }
  pose proof (IH _ _ _ Hg1 Hreqs1 H2) as Hs2. destruct r2 as [res| |m]; [|done|].
  - injection Hp as <- <-. destruct Hs2 as (Hg2 & Ha2 & Hres).
    split; [done|]. split; [by eapply advances_trans|]. intros w si Hin.
    destruct o as [x|]; [|by apply Hres]. apply elem_of_cons in Hin as [[= -> ->]|Hin]; [|by apply Hres].
    destruct (Hsi _ eq_refl) as [? ?]. split; [done|]. by apply Ha2.
  - injection Hp as <- _. destruct Hs2 as (w & Hw & Hfail). exists w. split; [by right|].
    by rewrite (ad_signer _ _ Ha1) in Hfail.
Qed.

Lemma notify_good (l : list (PersistedValue * SignedBatchInfo)) s :
  good s → good (foldl (λ s x, notify_subscribers x.1 s) s l) ∧
    advances s (foldl (λ s x, notify_subscribers x.1 s) s l).
Proof.
  revert s. induction l as [|x l IH]; intros s Hg; simpl; [split; [done|apply advances_refl]|].
  destruct (subscribers_good (delete (batch_key (pev_info x.1)) (bst_persist_subscribers s))
    (bst_sent s ++ ((λ n, (n, x.1)) <$> default [] (bst_persist_subscribers s !! batch_key (pev_info x.1))))
    s Hg) as [Hg1 Ha1].
  destruct (IH _ Hg1) as [Hg2 Ha2]. split; [done|]. by eapply advances_trans.
Qed.

Lemma persist_spec reqs s r s' :
  good s → (∀ v, v ∈ reqs → request_ok s v) → persist reqs s = (r, s') →
  match r with
  | Ok infos => good s' ∧ advances s s' ∧
      ∀ si, si ∈ infos → servable (bst_db s') (batch_key (sbi_info si))
  | Err _ => False
  | Panic _ => ∃ v, v ∈ reqs ∧ ((∃ d, (save_batch v d).1 ≠ Ok tt) ∨
      ∃ m, SignedBatchInfo_new (pev_info v) (bst_validator_signer s) = Panic m)
  end.
Proof.
  intros Hg Hreqs Hp. unfold persist, modify, mbind, M_bind in Hp.
  destruct (persist_requests reqs s) as [r1 s1] eqn:H1.
  pose proof (persist_requests_spec _ _ _ _ Hg Hreqs H1) as Hs. destruct r1 as [res| |m]; [|done|].
  - injection Hp as <- <-. destruct Hs as (Hg1 & Ha1 & Hres). destruct (notify_good res s1 Hg1) as [Hg2 Ha2].
    split; [done|]. split; [by eapply advances_trans|].
    intros si ([v x] & -> & Hin)%list_elem_of_fmap. destruct (Hres v x Hin) as [Hi Hsv]. simpl.
    rewrite Hi. by apply Ha2.
  - by injection Hp as <- _.
Qed.

(** ** Runs of the store *)

Inductive StoreOp :=
| OpPersist (requests : list PersistedValue)
| OpFetched (batch_info : BatchInfo) (payload : list SignedTransaction)
| OpCertified (certified_time : N)
| OpRequest (key : BatchKey) (subscriber : N).

Definition store_op (op : StoreOp) : M BatchStore Anyhow (list SignedBatchInfo) :=
  match op with
  | OpPersist requests => persist requests
  | OpFetched batch_info payload => _ ← on_fetched_batch batch_info payload; mret []
  | OpCertified certified_time => _ ← update_certified_timestamp certified_time; mret []
  | OpRequest key subscriber => _ ← get_batch_request key subscriber; mret []
  end.

(** Verified batches of the epoch, and certified times that do not decrease. *)
Definition op_ok s (op : StoreOp) : Prop :=
  match op with
  | OpPersist requests => ∀ v, v ∈ requests → request_ok s v
  | OpFetched batch_info payload =>
      request_ok s {| pev_info := batch_info; pev_maybe_payload := Some payload |}
  | OpCertified certified_time => bst_last_certified_time s ≤ certified_time
  | OpRequest key _ => bk_epoch key ≤ u64_max
  end.

(** The stores reachable from [s0], with the batches signed for on the way. *)
Inductive store_reach (s0 : BatchStore) : BatchStore → list BatchInfo → Prop :=
| reach_start : store_reach s0 s0 []
| reach_op s signed op infos s' :
    store_reach s0 s signed → op_ok s op → store_op op s = (Ok infos, s') →
    store_reach s0 s' (signed ++ (sbi_info <$> infos)).

(** The database and the signer work. *)
Record storage_works : Prop := {
  sw_write v d : (save_batch v d).1 = Ok tt;
  sw_read key d m : db_get BatchSchema key d ≠ Panic m;
  sw_sign info signer m : SignedBatchInfo_new info signer ≠ Panic m;
}.

Lemma new_store_good epoch t d memory_quota db_quota batch_quota signer :
  epoch ≤ u64_max → memory_quota ≤ db_quota → db_quota ≤ u64_max → batch_quota ≤ u64_max → db_valid d →
  good (BatchStore_new epoch t d memory_quota db_quota batch_quota signer).
Proof.
  intros He Hm Hd Hb Hdb. split; [split; [split|]|]; simpl.
  - intros a. unfold peer_accounts. simpl. rewrite lookup_empty. split; intros ? ?; [by rewrite lookup_empty|set_solver].
  - by split.
  - intros h v. by rewrite lookup_empty.
  - constructor.
  - intros h v. by rewrite lookup_empty.
  - intros x h ?%not_elem_of_nil. done.
  - intros h v. simpl. by rewrite lookup_empty.
  - split; simpl; [done..|]. intros h v. by rewrite lookup_empty.
Qed.

(** A read of a key that is in the database finds a payload of its digest. *)
Lemma local_read s key :
  good s → bk_epoch key ≤ u64_max →
  match get_batch_from_local key s with
  | Ok v => ∃ txns, pev_maybe_payload v = Some txns ∧
      hash_batch_payload (bin_author (pev_info v)) txns = bk_digest key
  | Err e => servable (bst_db s) key → e = InternalError
  | Panic m => db_get BatchSchema key (bst_db s) = Panic m
  end.
Proof.
  intros [Hok [He Hdb Hc]] Hk. pose proof (batch_key_ok key Hk) as Hkey.
  assert (Hread : match get_batch_from_db key s with
    | Ok v => ∃ txns, pev_maybe_payload v = Some txns ∧
        hash_batch_payload (bin_author (pev_info v)) txns = bk_digest key
    | Err e => servable (bst_db s) key → e = InternalError
    | Panic m => db_get BatchSchema key (bst_db s) = Panic m
    end).
  { unfold get_batch_from_db, qs_get_batch. destruct (db_get _ _ _) as [o|e|m] eqn:Hg; [|done..].
    pose proof (get_row BatchSchema {| cdb_db := bst_db s; cdb_latest_ledger_info := None |} key o Hkey Hg)
      as Hrow. destruct o as [v|].
    - destruct (Hdb key v) as [(txns & Hp & Hh) Hd]; [by apply Hrow|]. exists txns. by rewrite <- Hd.
    - intros (v & Hv%Hrow). done. }
  unfold get_batch_from_local. destruct (bst_db_cache s !! bk_digest key) as [v|] eqn:Hv; [|done].
  case_bool_decide as Hmode; [done|]. destruct (Hc _ _ Hv) as (_ & Hm & _).
  destruct Hok as [Hix _]. apply (ix_digest _ Hix) in Hv as Hd.
  unfold payload_storage_mode in Hmode. destruct (pev_maybe_payload v) as [txns|] eqn:Hp; [|done].
  exists txns. split; [done|]. rewrite <- Hd. by apply (Hm txns).
Qed.

Lemma request_spec key n s r s' :
  good s → bk_epoch key ≤ u64_max → get_batch_request key n s = (r, s') →
  match r with
  | Ok _ => good s' ∧ advances s s'
  | Err _ => False
  | Panic _ => ∃ m, db_get BatchSchema key (bst_db s) = Panic m
  end.
Proof.
  intros Hg Hk Hr. unfold get_batch_request in Hr. pose proof (local_read s key Hg Hk) as Hl.
  destruct (get_batch_from_local key s) as [v|e|m] eqn:Hloc.
  - destruct Hl as (txns & Hp & _). rewrite Hp in Hr. injection Hr as <- <-. split; [done|apply advances_refl].
  - unfold subscribe, mbind, M_bind in Hr. set (s1 := set_subscribers _ _ s) in Hr.
    destruct (subscribers_good (<[key := default [] (bst_persist_subscribers s !! key) ++ [n]]>
      (bst_persist_subscribers s)) (bst_sent s) s Hg) as [Hg1 Ha1].
    assert (Hsame : get_batch_from_local key s1 = get_batch_from_local key s) by done.
    rewrite Hsame, Hloc in Hr. injection Hr as <- <-. by split.
  - injection Hr as <- <-. by exists m.
Qed.

Lemma persist_panics reqs s m s' :
  good s → (∀ v, v ∈ reqs → request_ok s v) → persist reqs s = (Panic m, s') → ¬ storage_works.
Proof.
  intros Hg Hreqs Hp [Hw _ Hsg]. destruct (persist_spec _ _ _ _ Hg Hreqs Hp) as (v & _ & [[d Hd]|[m' Hm]]).
  - by rewrite Hw in Hd.
  - by apply Hsg in Hm.
Qed.

Lemma fetched_spec info payload s r s' :
  good s → request_ok s {| pev_info := info; pev_maybe_payload := Some payload |} →
  on_fetched_batch info payload s = (r, s') →
  match r with
  | Ok _ => good s' ∧ advances s s'
  | Err _ => False
  | Panic _ => ¬ storage_works
  end.
Proof.
  intros Hg Hop Hr. unfold on_fetched_batch, save_fetched_batch_to_db in Hr.
  set (v := {| pev_info := info; pev_maybe_payload := Some payload |}) in *.
  destruct (store_save_batch v s) as [r1 s1] eqn:H1.
  destruct (fetched_good _ _ _ _ Hg Hop H1) as [Hg1 Ha1].
  assert (Hreq : ∀ w, w ∈ [v] → request_ok s1 w).
  { intros w ->%list_elem_of_singleton. by eapply request_ok_advances. }
  assert (Hpers : ∀ r s', (_ ← persist [v]; mret tt) s1 = (r, s') →
    match r with Ok _ => good s' ∧ advances s s' | Err _ => False | Panic _ => ¬ storage_works end).
  { intros r2 s2 H2. unfold mbind, M_bind in H2. destruct (persist [v] s1) as [r3 s3] eqn:H3.
    pose proof (persist_spec _ _ _ _ Hg1 Hreq H3) as Hs. destruct r3 as [infos| |m]; [|done|].
    - injection H2 as <- <-. destruct Hs as (Hg2 & Ha2 & _). split; [done|]. by eapply advances_trans.
    - injection H2 as <- <-. by eapply persist_panics. }
  destruct r1 as [[]|e|m]; simpl in Hr; [by apply Hpers|by apply Hpers|].
  injection Hr as <- _. intros [Hw _ _]. specialize (Hw v (bst_db s)). unfold store_save_batch in H1.
  destruct (save_batch v (bst_db s)). simpl in Hw. congruence.
Qed.

Lemma store_op_spec op s r s' :
  good s → op_ok s op → store_op op s = (r, s') →
  match r with
  | Ok infos => good s' ∧ advances s s' ∧
      ∀ si, si ∈ infos → servable (bst_db s') (batch_key (sbi_info si))
  | Err _ => False
  | Panic _ => ¬ storage_works
  end.
Proof.
  intros Hg Hop Hr. destruct op as [reqs|info payload|t|key n]; simpl in Hop, Hr.
  - pose proof (persist_spec _ _ _ _ Hg Hop Hr) as Hs. destruct r as [infos| |m]; [done..|]. by eapply persist_panics.
  - unfold mbind, M_bind in Hr. destruct (on_fetched_batch info payload s) as [r1 s1] eqn:H1.
    pose proof (fetched_spec _ _ _ _ _ Hg Hop H1) as Hs. destruct r1 as [[]| |m]; [|done|by injection Hr as <- <-].
    injection Hr as <- <-. destruct Hs as [? ?]. split; [done|]. split; [done|]. by intros si ?%not_elem_of_nil.
  - unfold mbind, M_bind in Hr. destruct (update_certified_timestamp t s) as [r1 s1] eqn:H1.
    destruct Hg as [Hok Hct]. pose proof (update_certified_timestamp_spec _ _ _ _ Hok H1) as Hs.
    rewrite (proj2 (N.leb_le _ _) Hop) in Hs. destruct Hs as (-> & Hok1 & He & Hd & Hsg & Ht & Hc).
    injection Hr as <- <-. split; [|split; [split; rewrite ?Ht, ?Hd; [done..|lia|done]|by intros si ?%not_elem_of_nil]].
    split; [done|]. destruct Hct as [Hce Hdb Hcc]. split; rewrite ?He, ?Hd; [done..|].
    intros h v [Hv _]%Hc. by apply Hcc.
  - unfold mbind, M_bind in Hr. destruct (get_batch_request key n s) as [r1 s1] eqn:H1.
    pose proof (request_spec _ _ _ _ _ Hg Hop H1) as Hs. destruct r1 as [o| |m]; [|done|].
    + injection Hr as <- <-. destruct Hs as [? ?]. split; [done|]. split; [done|]. by intros si ?%not_elem_of_nil.
    + injection Hr as <- <-. destruct Hs as [m' Hm]. intros [_ Hrd _]. by apply Hrd in Hm.
Qed.

Lemma store_reach_good s0 s signed :
  good s0 → store_reach s0 s signed →
  good s ∧ advances s0 s ∧ ∀ info, info ∈ signed → servable (bst_db s) (batch_key info).
Proof.
  intros Hg0. induction 1 as [|s signed op infos s' Hr (Hg & Ha & Hsv) Hop Hs].
  { split; [done|]. split; [apply advances_refl|]. by intros info ?%not_elem_of_nil. }
  destruct (store_op_spec _ _ _ _ Hg Hop Hs) as (Hg' & Ha' & Hnew). split; [done|].
  split; [by eapply advances_trans|]. intros info [Hin|(si & -> & Hin)%list_elem_of_fmap]%elem_of_app.
  - by apply Ha', Hsv.
  - by apply Hnew.
Qed.

Section run.
Context (epoch t memory_quota db_quota batch_quota : N) (d : DB) (signer : ValidatorSigner).
Context (Hepoch : epoch ≤ u64_max) (Hmemory : memory_quota ≤ db_quota) (Hdbq : db_quota ≤ u64_max).
Context (Hbatch : batch_quota ≤ u64_max) (Hdb : db_valid d).
Abbreviation s0 := (BatchStore_new epoch t d memory_quota db_quota batch_quota signer).

(** C37: The quotas of the batch store are exact. In every state reached from a new
    store the balances of each peer are its quotas less what its cached batches
    take; a cached batch is under its digest and not expired; and, when the database
    and the signer work, no operation panics: quotas are freed only for what was
    charged, and what expires is in the cache. *)
Theorem batch_store_accounts s signed :
  store_reach s0 s signed →
  (∀ a q, bst_peer_quota s !! a = Some q → balanced q a (bst_db_cache s) []) ∧
  (∀ h v, bst_db_cache s !! h = Some v →
     bin_digest (pev_info v) = h ∧ bst_last_certified_time s < bin_expiration (pev_info v)) ∧
  (storage_works → ∀ op, op_ok s op → ∃ infos s', store_op op s = (Ok infos, s')).
Proof.
  intros Hr. pose proof (new_store_good epoch t d memory_quota db_quota batch_quota signer
    Hepoch Hmemory Hdbq Hbatch Hdb) as Hg0.
  destruct (store_reach_good _ _ _ Hg0 Hr) as (Hg & _ & _). split; [|split].
  - intros a q Hq. destruct Hg as [[Hix _] _]. pose proof (ix_accounts _ Hix a) as Ha.
    unfold peer_accounts in Ha. rewrite Hq in Ha. apply Ha.
  - intros h v Hv. destruct Hg as [[Hix Hf] _]. split; [by apply (ix_digest _ Hix)|by eapply Hf].
  - intros Hw op Hop. destruct (store_op op s) as [r s'] eqn:Hs.
    pose proof (store_op_spec _ _ _ _ Hg Hop Hs) as Hspec. destruct r; [by do 2 eexists|done|by apply Hspec in Hw].
Qed.

(** C36: A signed batch can be served. In any state of a batch store reached from a new
    one, a batch the node has signed is found locally, in memory or in the database,
    with a payload whose hash is the digest that was signed; the only other outcome
    is that the database fails. *)
Theorem signed_batch_served s signed info :
  store_reach s0 s signed → info ∈ signed → bin_epoch info ≤ u64_max →
  match get_batch_from_local (batch_key info) s with
  | Ok v => ∃ txns, pev_maybe_payload v = Some txns ∧
      hash_batch_payload (bin_author (pev_info v)) txns = bin_digest info
  | Err e => e = InternalError
  | Panic m => db_get BatchSchema (batch_key info) (bst_db s) = Panic m
  end.
Proof.
  intros Hr Hin Hep. pose proof (new_store_good epoch t d memory_quota db_quota batch_quota signer
    Hepoch Hmemory Hdbq Hbatch Hdb) as Hg0.
  destruct (store_reach_good _ _ _ Hg0 Hr) as (Hg & _ & Hsv). specialize (Hsv info Hin).
  pose proof (local_read s (batch_key info) Hg Hep) as Hl.
  destruct (get_batch_from_local _ _); [done|by apply Hl|done].
Qed.

End run.

End served.
