(* ===== verification/ProofQueue.v ===== *)
(** * The proof queue of the quorum store

    consensus/src/quorum_store: the queue of proofs of store a leader proposes
    from (utils.rs) and the proof manager around it (proof_manager.rs).  The
    theorems: the counters of remaining transactions and proofs are exact after
    every sequence of operations, a pull respects its limits and leaves nothing
    behind when it reports the queue fully used. *)

From S2P Require Import Prelude Gaptos Types Bytes Certificates Payloads Blocks ConsensusDb BatchStore.

(** ** Keys *)

Section keys.
Context {GA : Gaptos}.

(** [BatchKey] of utils.rs. *)
Record QueueKey := { qk_author : Author; qk_batch_id : BatchId }.

Record BatchSortKey := { bsk_batch_key : QueueKey; bsk_gas_bucket_start : N }.

#[global] Instance BatchId_countable : Countable BatchId.
Proof.
  refine (inj_countable' (λ b, (bid_id b, bid_nonce b)) (λ x, {| bid_id := x.1; bid_nonce := x.2 |}) _).
  by intros [].
Defined.
#[global] Instance QueueKey_eqdec : EqDecision QueueKey.
Proof. solve_decision. Defined.
#[global] Instance QueueKey_countable : Countable QueueKey.
Proof.
  refine (inj_countable' (λ k, (qk_author k, qk_batch_id k))
    (λ x, {| qk_author := x.1; qk_batch_id := x.2 |}) _). by intros [].
Defined.
#[global] Instance BatchSortKey_eqdec : EqDecision BatchSortKey.
Proof. solve_decision. Defined.
#[global] Instance BatchSortKey_countable : Countable BatchSortKey.
Proof.
  refine (inj_countable' (λ k, (bsk_batch_key k, bsk_gas_bucket_start k))
    (λ x, {| bsk_batch_key := x.1; bsk_gas_bucket_start := x.2 |}) _). by intros [].
Defined.
#[global] Instance TxnSummary_eqdec : EqDecision TxnSummaryWithExpiration.
Proof. solve_decision. Defined.
#[global] Instance TxnSummary_countable : Countable TxnSummaryWithExpiration.
Proof.
  refine (inj_countable' (λ t, (ts_sender t, ts_sequence_number t, ts_expiration_timestamp_secs t, ts_hash t))
    (λ x, {| ts_sender := x.1.1.1; ts_sequence_number := x.1.1.2;
             ts_expiration_timestamp_secs := x.1.2; ts_hash := x.2 |}) _). by intros [].
Defined.

Definition queue_key (info : BatchInfo) : QueueKey :=
  {| qk_author := bin_author info; qk_batch_id := bin_batch_id info |}.

Definition sort_key (info : BatchInfo) : BatchSortKey :=
  {| bsk_batch_key := queue_key info; bsk_gas_bucket_start := bin_gas_bucket_start info |}.

Definition BatchSortKey_author (k : BatchSortKey) : Author := qk_author (bsk_batch_key k).

Definition BatchId_cmp (a b : BatchId) : comparison :=
  match bid_nonce a ?= bid_nonce b with Eq => bid_id a ?= bid_id b | c => c end.

(** Ascending in the gas bucket, descending in the batch id. *)
Definition BatchSortKey_cmp (a b : BatchSortKey) : comparison :=
  match bsk_gas_bucket_start a ?= bsk_gas_bucket_start b with
  | Eq => BatchId_cmp (qk_batch_id (bsk_batch_key b)) (qk_batch_id (bsk_batch_key a))
  | c => c
  end.

End keys.

(** [BTreeMap<BatchSortKey, BatchInfo>] as the list of its entries in the order
    of [cmp]; keys that compare equal are the same key to the map. *)
Abbreviation BatchTree := (list (BatchSortKey * BatchInfo)).

Section trees_of_keys.
Context {GA : Gaptos}.

Fixpoint tree_insert (k : BatchSortKey) (b : BatchInfo) (l : BatchTree) : BatchTree :=
  match l with
  | [] => [(k, b)]
  | (k', b') :: l' =>
      match BatchSortKey_cmp k k' with
      | Lt => (k, b) :: l
      | Eq => (k', b) :: l'
      | Gt => (k', b') :: tree_insert k b l'
      end
  end.

Fixpoint tree_get (k : BatchSortKey) (l : BatchTree) : option BatchInfo :=
  match l with
  | [] => None
  | (k', b') :: l => match BatchSortKey_cmp k k' with Eq => Some b' | _ => tree_get k l end
  end.

Definition tree_remove (k : BatchSortKey) (l : BatchTree) : BatchTree :=
  filter (λ e, BatchSortKey_cmp k e.1 ≠ Eq) l.

End trees_of_keys.

(** ** The queue *)

Section queue.
Context {GA : Gaptos}.

(** The instant a proof was inserted at only serves metrics. *)
Record ProofQueue := {
  pq_my_peer_id : Author;
  pq_author_to_batches : gmap Author BatchTree;
  pq_batch_to_proof : gmap QueueKey (option ProofOfStore);
  pq_txn_summary_num_occurrences : gmap TxnSummaryWithExpiration N;
  pq_batch_summaries : gmap QueueKey (list TxnSummaryWithExpiration * N * bool);
  pq_expirations : TimeExpirations BatchSortKey;
  pq_latest_block_timestamp : N;
  pq_remaining_txns_with_duplicates : N;
  pq_remaining_proofs : N;
  pq_remaining_local_txns : N;
  pq_remaining_local_proofs : N;
}.

Definition ProofQueue_new (my_peer_id : Author) : ProofQueue :=
  {| pq_my_peer_id := my_peer_id; pq_author_to_batches := ∅; pq_batch_to_proof := ∅;
     pq_txn_summary_num_occurrences := ∅; pq_batch_summaries := ∅;
     pq_expirations := TimeExpirations_new; pq_latest_block_timestamp := 0;
     pq_remaining_txns_with_duplicates := 0; pq_remaining_proofs := 0;
     pq_remaining_local_txns := 0; pq_remaining_local_proofs := 0 |}.

Definition set_queue (batches : gmap Author BatchTree) (proofs : gmap QueueKey (option ProofOfStore))
    (expirations : TimeExpirations BatchSortKey) (timestamp : N) (q : ProofQueue) : ProofQueue :=
  {| pq_my_peer_id := pq_my_peer_id q; pq_author_to_batches := batches; pq_batch_to_proof := proofs;
     pq_txn_summary_num_occurrences := pq_txn_summary_num_occurrences q;
     pq_batch_summaries := pq_batch_summaries q; pq_expirations := expirations;
     pq_latest_block_timestamp := timestamp;
     pq_remaining_txns_with_duplicates := pq_remaining_txns_with_duplicates q;
     pq_remaining_proofs := pq_remaining_proofs q;
     pq_remaining_local_txns := pq_remaining_local_txns q;
     pq_remaining_local_proofs := pq_remaining_local_proofs q |}.

Definition set_summaries (occurrences : gmap TxnSummaryWithExpiration N)
    (summaries : gmap QueueKey (list TxnSummaryWithExpiration * N * bool)) (q : ProofQueue) : ProofQueue :=
  {| pq_my_peer_id := pq_my_peer_id q; pq_author_to_batches := pq_author_to_batches q;
     pq_batch_to_proof := pq_batch_to_proof q; pq_txn_summary_num_occurrences := occurrences;
     pq_batch_summaries := summaries; pq_expirations := pq_expirations q;
     pq_latest_block_timestamp := pq_latest_block_timestamp q;
     pq_remaining_txns_with_duplicates := pq_remaining_txns_with_duplicates q;
     pq_remaining_proofs := pq_remaining_proofs q;
     pq_remaining_local_txns := pq_remaining_local_txns q;
     pq_remaining_local_proofs := pq_remaining_local_proofs q |}.

Definition set_remaining (txns proofs local_txns local_proofs : N) (q : ProofQueue) : ProofQueue :=
  {| pq_my_peer_id := pq_my_peer_id q; pq_author_to_batches := pq_author_to_batches q;
     pq_batch_to_proof := pq_batch_to_proof q;
     pq_txn_summary_num_occurrences := pq_txn_summary_num_occurrences q;
     pq_batch_summaries := pq_batch_summaries q; pq_expirations := pq_expirations q;
     pq_latest_block_timestamp := pq_latest_block_timestamp q;
     pq_remaining_txns_with_duplicates := txns; pq_remaining_proofs := proofs;
     pq_remaining_local_txns := local_txns; pq_remaining_local_proofs := local_proofs |}.

Definition inc_remaining (author : Author) (num_txns : N) (q : ProofQueue) : result Anyhow ProofQueue :=
  txns ← add_u64 (pq_remaining_txns_with_duplicates q) num_txns;
  proofs ← add_u64 (pq_remaining_proofs q) 1;
  if bool_decide (author = pq_my_peer_id q) then
    local_txns ← add_u64 (pq_remaining_local_txns q) num_txns;
    local_proofs ← add_u64 (pq_remaining_local_proofs q) 1;
    Ok (set_remaining txns proofs local_txns local_proofs q)
  else Ok (set_remaining txns proofs (pq_remaining_local_txns q) (pq_remaining_local_proofs q) q).

Definition dec_remaining (author : Author) (num_txns : N) (q : ProofQueue) : result Anyhow ProofQueue :=
  txns ← sub_u64 (pq_remaining_txns_with_duplicates q) num_txns;
  proofs ← sub_u64 (pq_remaining_proofs q) 1;
  if bool_decide (author = pq_my_peer_id q) then
    local_txns ← sub_u64 (pq_remaining_local_txns q) num_txns;
    local_proofs ← sub_u64 (pq_remaining_local_proofs q) 1;
    Ok (set_remaining txns proofs local_txns local_proofs q)
  else Ok (set_remaining txns proofs (pq_remaining_local_txns q) (pq_remaining_local_proofs q) q).

(** The loops that count transaction summaries in and out. *)
Definition count_in (l : list TxnSummaryWithExpiration) (m : gmap TxnSummaryWithExpiration N)
    : result Anyhow (gmap TxnSummaryWithExpiration N) :=
  try_fold (λ m t, n ← add_u64 (default 0 (m !! t)) 1; Ok (<[t := n]> m)) m l.

Definition count_out (l : list TxnSummaryWithExpiration) (m : gmap TxnSummaryWithExpiration N)
    : result Anyhow (gmap TxnSummaryWithExpiration N) :=
  try_fold (λ m t,
    match m !! t with
    | Some count =>
        n ← sub_u64 count 1;
        Ok (if n =? 0 then delete t m else <[t := n]> m)
    | None => Ok m
    end) m l.

(** [now] is the time in microseconds. *)
Definition gc_expired_batch_summaries_without_proofs (now : N) (q : ProofQueue) : ProofQueue :=
  set_summaries (pq_txn_summary_num_occurrences q)
    (filter (λ kv : QueueKey * (list TxnSummaryWithExpiration * N * bool),
       kv.2.2 = true ∨ now < kv.2.1.2) (pq_batch_summaries q)) q.

(** [sample!]: the collection runs when the sampling interval has passed, at the
    time [now] then. *)
Definition sampled_gc (now : option N) (q : ProofQueue) : ProofQueue :=
  match now with Some now => gc_expired_batch_summaries_without_proofs now q | None => q end.

(** The summaries of a batch that has just got its proof are counted in. *)
Definition count_summaries (key : QueueKey) (q : ProofQueue) : result Anyhow ProofQueue :=
  match pq_batch_summaries q !! key with
  | Some (txn_summaries, expiration, false) =>
      occurrences ← count_in txn_summaries (pq_txn_summary_num_occurrences q);
      Ok (set_summaries occurrences
            (<[key := (txn_summaries, expiration, true)]> (pq_batch_summaries q)) q)
  | _ => Ok q
  end.

Definition push (proof : ProofOfStore) (now : option N) (q : ProofQueue) : result Anyhow ProofQueue :=
  let info := pos_info proof in
  if bin_expiration info <=? pq_latest_block_timestamp q then Ok q
  else
    let batch_key := queue_key info in
    match pq_batch_to_proof q !! batch_key with
    | Some _ => Ok q
    | None =>
        let author := bin_author info in
        let queue := default [] (pq_author_to_batches q !! author) in
        let q := set_queue (<[author := tree_insert (sort_key info) info queue]> (pq_author_to_batches q))
                   (<[batch_key := Some proof]> (pq_batch_to_proof q))
                   (add_item (sort_key info) (bin_expiration info) (pq_expirations q))
                   (pq_latest_block_timestamp q) q in
        q ← count_summaries batch_key q;
        q ← inc_remaining author (bin_num_txns info) q;
        Ok (sampled_gc now q)
    end.

Definition add_batch_summary (x : BatchInfo * list TxnSummaryWithExpiration) (q : ProofQueue)
    : result Anyhow ProofQueue :=
  let '(batch_info, txn_summaries) := x in
  let batch_sort_key := sort_key batch_info in
  let batch_key := bsk_batch_key batch_sort_key in
  let proof_exists :=
    match pq_author_to_batches q !! bin_author batch_info with
    | Some batches => bool_decide (is_Some (tree_get batch_sort_key batches))
    | None => false
    end &&
    match pq_batch_to_proof q !! batch_key with Some (Some _) => true | _ => false end in
  let not_already_added :=
    match pq_batch_summaries q !! batch_key with Some (_, _, added) => negb added | None => true end in
  occurrences ← (if proof_exists && not_already_added
                 then count_in txn_summaries (pq_txn_summary_num_occurrences q)
                 else Ok (pq_txn_summary_num_occurrences q));
  Ok (set_summaries occurrences
        (if not_already_added
         then <[batch_key := (txn_summaries, bin_expiration batch_info, proof_exists)]> (pq_batch_summaries q)
         else pq_batch_summaries q) q).

Definition add_batch_summaries (l : list (BatchInfo * list TxnSummaryWithExpiration)) (now : option N)
    (q : ProofQueue) : result Anyhow ProofQueue :=
  q ← try_fold (λ q x, add_batch_summary x q) q l;
  Ok (sampled_gc now q).

(** The summaries of a batch leave the queue. *)
Definition drop_summaries (key : QueueKey) (q : ProofQueue) : result Anyhow ProofQueue :=
  occurrences ← match pq_batch_summaries q !! key with
                | Some (txn_summaries, _, true) => count_out txn_summaries (pq_txn_summary_num_occurrences q)
                | _ => Ok (pq_txn_summary_num_occurrences q)
                end;
  Ok (set_summaries occurrences (delete key (pq_batch_summaries q)) q).

(** A queue taken out of the map goes back unless it is empty. *)
Definition tree_set (author : Author) (rest : BatchTree) (m : gmap Author BatchTree)
    : gmap Author BatchTree :=
  if bool_decide (rest = []) then delete author m else <[author := rest]> m.

(** The body of the loop over the expired keys. *)
Definition expire_key (block_timestamp : N) (key : BatchSortKey) (q : ProofQueue)
    : result Anyhow ProofQueue :=
  let author := BatchSortKey_author key in
  match pq_author_to_batches q !! author with
  | None => Ok q
  | Some queue =>
      let rest := tree_remove key queue in
      let batches := tree_set author rest (pq_author_to_batches q) in
      match tree_get key queue with
      | None => Ok (set_queue batches (pq_batch_to_proof q) (pq_expirations q)
                      (pq_latest_block_timestamp q) q)
      | Some batch =>
          entry ← expect "Entry for unexpired batch must exist"
                    (pq_batch_to_proof q !! bsk_batch_key key);
          q ← match entry with
              | Some _ =>
                  _ ← sub_u64 block_timestamp (bin_expiration batch);
                  q ← drop_summaries (bsk_batch_key key) q;
                  dec_remaining (bin_author batch) (bin_num_txns batch) q
              | None => Ok q
              end;
          Ok (set_queue batches (delete (bsk_batch_key key) (pq_batch_to_proof q)) (pq_expirations q)
                (pq_latest_block_timestamp q) q)
      end
  end.

Definition handle_updated_block_timestamp (block_timestamp : N) (q : ProofQueue)
    : result Anyhow ProofQueue :=
  _ ← assert_ (pq_latest_block_timestamp q <=? block_timestamp) "Decreasing block timestamp";
  let '(expired, expirations) := expire block_timestamp (pq_expirations q) in
  try_fold (λ q key, expire_key block_timestamp key q)
    (set_queue (pq_author_to_batches q) (pq_batch_to_proof q) expirations block_timestamp q)
    (elements expired).

Definition commit_batch (batch : BatchInfo) (q : ProofQueue) : result Anyhow ProofQueue :=
  let batch_key := queue_key batch in
  q ← match pq_batch_to_proof q !! batch_key with
      | Some (Some _) => dec_remaining (bin_author batch) (bin_num_txns batch) q
      | _ => Ok q
      end;
  drop_summaries batch_key
    (set_queue (pq_author_to_batches q) (<[batch_key := None]> (pq_batch_to_proof q)) (pq_expirations q)
       (pq_latest_block_timestamp q) q).

Definition mark_committed (batches : list BatchInfo) (q : ProofQueue) : result Anyhow ProofQueue :=
  try_fold (λ q b, commit_batch b q) q batches.

(** ** Operations *)

Inductive QueueOp :=
| OpPush (proof : ProofOfStore) (now : option N)
| OpSummaries (l : list (BatchInfo * list TxnSummaryWithExpiration)) (now : option N)
| OpTimestamp (block_timestamp : N)
| OpCommit (batches : list BatchInfo).

Definition queue_step (op : QueueOp) (q : ProofQueue) : result Anyhow ProofQueue :=
  match op with
  | OpPush proof now => push proof now q
  | OpSummaries l now => add_batch_summaries l now q
  | OpTimestamp block_timestamp => handle_updated_block_timestamp block_timestamp q
  | OpCommit batches => mark_committed batches q
  end.

Definition queue_run (ops : list QueueOp) (q : ProofQueue) : result Anyhow ProofQueue :=
  try_fold (λ q op, queue_step op q) q ops.

(** ** Remaining transactions *)

(** The entries of all trees. *)
Definition queue_entries (q : ProofQueue) : list (BatchSortKey * BatchInfo) :=
  map_to_list (pq_author_to_batches q) ≫= snd.

Definition uncounted_txns (q : ProofQueue) (e : BatchSortKey * BatchInfo) : N :=
  let key := bsk_batch_key e.1 in
  match pq_batch_summaries q !! key, pq_batch_to_proof q !! key with
  | None, Some (Some proof) => bin_num_txns (pos_info proof)
  | _, _ => 0
  end.

(** The nested sums of the source, in one: a sum of sums overflows when the whole does. *)
Definition remaining_txns_without_duplicates (q : ProofQueue) : result Anyhow N :=
  sum ← sum_u64 (uncounted_txns q <$> queue_entries q);
  add_u64 (N.of_nat (size (pq_txn_summary_num_occurrences q))) sum.

Definition remaining_txns_and_proofs (q : ProofQueue) : result Anyhow (N * N) :=
  txns ← remaining_txns_without_duplicates q;
  Ok (txns, pq_remaining_proofs q).

(** ** Pulling proofs *)

Record PullState := {
  pl_ret : list ProofOfStore;
  pl_cur_bytes : N;
  pl_cur_unique_txns : N;
  pl_cur_all_txns : N;
  pl_excluded_txns : N;
  pl_full : bool;
  pl_filtered_txns : gset TxnSummaryWithExpiration;
}.

Record PullLimits := {
  lm_excluded_batches : list BatchInfo;
  lm_max_txns : N;
  lm_max_txns_after_filtering : N;
  lm_soft_max_txns_after_filtering : N;
  lm_max_bytes : N;
  lm_block_timestamp_secs : N;
}.

Definition set_full (ps : PullState) : PullState :=
  {| pl_ret := pl_ret ps; pl_cur_bytes := pl_cur_bytes ps; pl_cur_unique_txns := pl_cur_unique_txns ps;
     pl_cur_all_txns := pl_cur_all_txns ps; pl_excluded_txns := pl_excluded_txns ps; pl_full := true;
     pl_filtered_txns := pl_filtered_txns ps |}.

Definition set_excluded_txns (n : N) (ps : PullState) : PullState :=
  {| pl_ret := pl_ret ps; pl_cur_bytes := pl_cur_bytes ps; pl_cur_unique_txns := pl_cur_unique_txns ps;
     pl_cur_all_txns := pl_cur_all_txns ps; pl_excluded_txns := n; pl_full := pl_full ps;
     pl_filtered_txns := pl_filtered_txns ps |}.

(** The summaries of the excluded batches. *)
Definition excluded_summaries (q : ProofQueue) (excluded_batches : list BatchInfo)
    : gset TxnSummaryWithExpiration :=
  foldr (λ b acc, match pq_batch_summaries q !! queue_key b with
                  | Some (txn_summaries, _, _) => list_to_set txn_summaries ∪ acc
                  | None => acc
                  end) ∅ excluded_batches.

Definition unexpired (secs : N) (t : TxnSummaryWithExpiration) : bool :=
  secs <? ts_expiration_timestamp_secs t.

(** The first count of the source: summaries that are not filtered. *)
Definition count_unfiltered (secs : N) (filtered : gset TxnSummaryWithExpiration)
    (l : list TxnSummaryWithExpiration) : N :=
  N.of_nat (length (filter (λ t, (t ∉ filtered) ∧ unexpired secs t = true) l)).

(** The second: each summary is inserted into the filtered ones as it is counted. *)
Fixpoint count_inserting (secs : N) (filtered : gset TxnSummaryWithExpiration)
    (l : list TxnSummaryWithExpiration) : N * gset TxnSummaryWithExpiration :=
  match l with
  | [] => (0, filtered)
  | t :: l =>
      let '(n, filtered') := count_inserting secs ({[ t ]} ∪ filtered) l in
      (if bool_decide (t ∉ filtered) && unexpired secs t then n + 1 else n, filtered')
  end.

(** The unique transactions a batch would add. *)
Definition unique_txns_of (q : ProofQueue) (secs : N) (e : BatchSortKey * BatchInfo)
    (filtered : gset TxnSummaryWithExpiration) : N :=
  match pq_batch_summaries q !! bsk_batch_key e.1 with
  | Some (txn_summaries, _, _) => count_unfiltered secs filtered txn_summaries
  | None => bin_num_txns e.2
  end.

(** The unique transactions it adds, and the filter after it. *)
Definition take_unique_txns (q : ProofQueue) (secs : N) (e : BatchSortKey * BatchInfo)
    (filtered : gset TxnSummaryWithExpiration) : N * gset TxnSummaryWithExpiration :=
  match pq_batch_summaries q !! bsk_batch_key e.1 with
  | Some (summaries, _, _) => count_inserting secs filtered summaries
  | None => (bin_num_txns e.2, filtered)
  end.

(** A batch whose proof fits is taken. *)
Definition take_proof (q : ProofQueue) (lm : PullLimits) (e : BatchSortKey * BatchInfo)
    (proof : ProofOfStore) (ps : PullState) : result Anyhow (PullState * bool) :=
  bytes ← add_u64 (pl_cur_bytes ps) (bin_num_bytes e.2);
  all_txns ← add_u64 (pl_cur_all_txns ps) (bin_num_txns e.2);
  let taken := take_unique_txns q (lm_block_timestamp_secs lm) e (pl_filtered_txns ps) in
  unique_txns ← add_u64 (pl_cur_unique_txns ps) taken.1;
  let done :=
    (bytes =? lm_max_bytes lm) || (all_txns =? lm_max_txns lm) ||
    (unique_txns =? lm_max_txns_after_filtering lm) ||
    (lm_soft_max_txns_after_filtering lm <=? unique_txns) in
  Ok ({| pl_ret := pl_ret ps ++ [proof]; pl_cur_bytes := bytes;
         pl_cur_unique_txns := unique_txns; pl_cur_all_txns := all_txns;
         pl_excluded_txns := pl_excluded_txns ps; pl_full := pl_full ps || done;
         pl_filtered_txns := taken.2 |}, negb done).

(** The test of the limits; a disjunct is evaluated when those before it fail. *)
Definition exceeds_limits (q : ProofQueue) (lm : PullLimits) (e : BatchSortKey * BatchInfo)
    (ps : PullState) : result Anyhow bool :=
  unique_txns ← add_u64 (pl_cur_unique_txns ps)
                  (unique_txns_of q (lm_block_timestamp_secs lm) e (pl_filtered_txns ps));
  bytes ← add_u64 (pl_cur_bytes ps) (bin_num_bytes e.2);
  if (lm_max_bytes lm <? bytes) || (lm_max_txns_after_filtering lm <? unique_txns) then Ok true
  else
    all_txns ← add_u64 (pl_cur_all_txns ps) (bin_num_txns e.2);
    Ok (lm_max_txns lm <? all_txns).

(** One entry an iterator yields: the state after it, and whether the iterator
    stays. *)
Definition pull_entry (q : ProofQueue) (lm : PullLimits) (e : BatchSortKey * BatchInfo) (ps : PullState)
    : result Anyhow (PullState * bool) :=
  if bool_decide (e.2 ∈ lm_excluded_batches lm) then
    excluded_txns ← add_u64 (pl_excluded_txns ps) (bin_num_txns e.2);
    Ok (set_excluded_txns excluded_txns ps, true)
  else
    match pq_batch_to_proof q !! bsk_batch_key e.1 with
    | Some (Some proof) =>
        exceeded ← exceeds_limits q lm e ps;
        if exceeded : bool then Ok (set_full ps, false) else take_proof q lm e proof ps
    | _ => Ok (ps, true)
    end.

(** [iters.retain_mut(..)]: every iterator yields its next entry; those that are
    exhausted or told to stop are dropped. *)
Fixpoint pull_round (q : ProofQueue) (lm : PullLimits) (iters : list BatchTree) (ps : PullState)
    : result Anyhow (list BatchTree * PullState) :=
  match iters with
  | [] => Ok ([], ps)
  | [] :: iters => pull_round q lm iters ps
  | (e :: iter) :: iters =>
      r ← pull_entry q lm e ps;
      rest ← pull_round q lm iters r.1;
      Ok (if (r.2 : bool) then (iter :: rest.1, rest.2) else rest)
  end.

(** [shuffle] is the order the random number generator gives the iterators in
    each round. *)
Fixpoint pull_rounds (shuffle : nat → list BatchTree → list BatchTree) (fuel round : nat)
    (q : ProofQueue) (lm : PullLimits) (iters : list BatchTree) (ps : PullState)
    : result Anyhow PullState :=
  match iters with
  | [] => Ok ps
  | _ =>
      match fuel with
      | O => Panic "out of fuel"
      | S fuel =>
          r ← pull_round q lm (shuffle round iters) ps;
          pull_rounds shuffle fuel (S round) q lm r.1 r.2
      end
  end.

(** [sort_by_key(|proof| Reverse(proof.gas_bucket_start()))], stable. *)
Fixpoint insert_by_bucket (p : ProofOfStore) (l : list ProofOfStore) : list ProofOfStore :=
  match l with
  | [] => [p]
  | x :: l' =>
      if bin_gas_bucket_start (pos_info x) <=? bin_gas_bucket_start (pos_info p) then p :: l
      else x :: insert_by_bucket p l'
  end.

Definition sort_by_bucket (l : list ProofOfStore) : list ProofOfStore := foldr insert_by_bucket [] l.

(** The transactions left behind by a pull, a metric. *)
Definition log_remaining_data_after_pull (q : ProofQueue) (excluded_batches : list BatchInfo)
    (pulled_proofs : list ProofOfStore) : result Anyhow (N * N) :=
  let remaining_batches :=
    filter (λ e : BatchSortKey * BatchInfo,
      (bsk_batch_key e.1 ∉ (queue_key <$> excluded_batches)) ∧
      (bsk_batch_key e.1 ∉ ((λ p, queue_key (pos_info p)) <$> pulled_proofs)) ∧
      match pq_batch_to_proof q !! bsk_batch_key e.1 with Some (Some _) => true | _ => false end = true)
      (queue_entries q) in
  num_txns ← sum_u64 ((λ e, bin_num_txns e.2) <$> remaining_batches);
  pulled_txns ← sum_u64 ((λ p, bin_num_txns (pos_info p)) <$> pulled_proofs);
  Ok (num_txns, pulled_txns).

Definition pull_start (q : ProofQueue) (lm : PullLimits) : PullState :=
  {| pl_ret := []; pl_cur_bytes := 0; pl_cur_unique_txns := 0; pl_cur_all_txns := 0;
     pl_excluded_txns := 0; pl_full := false;
     pl_filtered_txns := excluded_summaries q (lm_excluded_batches lm) |}.

(** Every iterator walks a tree from its end. *)
Definition pull_iters (q : ProofQueue) : list BatchTree :=
  reverse <$> (map_to_list (pq_author_to_batches q)).*2.

Definition pull_proofs (shuffle : nat → list BatchTree → list BatchTree) (lm : PullLimits)
    (return_non_full : bool) (q : ProofQueue) : result Anyhow (list ProofOfStore * N * bool) :=
  let iters := pull_iters q in
  ps ← pull_rounds shuffle (S (length (concat iters))) 0 q lm iters (pull_start q lm);
  if pl_full ps || return_non_full then
    _ ← log_remaining_data_after_pull q (lm_excluded_batches lm) (pl_ret ps);
    Ok (sort_by_bucket (pl_ret ps), pl_cur_unique_txns ps, negb (pl_full ps))
  else Ok ([], 0, negb (pl_full ps)).

(** ** The trees *)

Implicit Types (E : gmap QueueKey BatchInfo) (m : gmap Author BatchTree).

(** The trees of the authors hold the batches of [E]. *)
Record trees_ok m E : Prop := {
  tro_entry a l e : m !! a = Some l → e ∈ l →
    e.1 = sort_key e.2 ∧ bin_author e.2 = a ∧ E !! queue_key e.2 = Some e.2;
  tro_all k b : E !! k = Some b →
    queue_key b = k ∧ ∃ l, m !! bin_author b = Some l ∧ (sort_key b, b) ∈ l;
  tro_nodup a l : m !! a = Some l → NoDup l;
}.

Lemma BatchId_cmp_eq a b : BatchId_cmp a b = Eq ↔ a = b.
Proof.
  destruct a as [i n], b as [i' n']. unfold BatchId_cmp. simpl.
  destruct (N.compare_spec n n') as [->|H|H]; rewrite ?N.compare_eq_iff; split; try done; try congruence;
    intros [= ->]; lia.
Qed.

Lemma BatchSortKey_cmp_eq a b :
  BatchSortKey_cmp a b = Eq ↔
  bsk_gas_bucket_start a = bsk_gas_bucket_start b ∧
  qk_batch_id (bsk_batch_key a) = qk_batch_id (bsk_batch_key b).
Proof.
  unfold BatchSortKey_cmp. destruct (N.compare_spec (bsk_gas_bucket_start a) (bsk_gas_bucket_start b)) as [->|H|H];
    [rewrite BatchId_cmp_eq; by split; [intros ->|intros [_ ->]]|..]; (split; [done|intros [??]; lia]).
Qed.

(** Keys of one author compare equal only when they are. *)
Lemma sort_key_cmp_eq k b :
  BatchSortKey_author k = bin_author b → BatchSortKey_cmp k (sort_key b) = Eq ↔ k = sort_key b.
Proof.
  destruct k as [[a i] g]. intros Ha. rewrite BatchSortKey_cmp_eq. unfold sort_key, queue_key.
  cbn in *. split; [intros [-> ->]; by rewrite Ha|by intros [= -> -> ->]].
Qed.

Lemma tree_insert_perm k b (l : BatchTree) :
  (∀ e, e ∈ l → BatchSortKey_cmp k e.1 ≠ Eq) → tree_insert k b l ≡ₚ (k, b) :: l.
Proof.
  induction l as [|[k' b'] l IH]; intros Hl; simpl; [done|].
  pose proof (Hl (k', b') ltac:(set_solver)) as Hk. simpl in Hk.
  destruct (BatchSortKey_cmp k k'); [done|done|]. rewrite IH by set_solver. by constructor.
Qed.

Section trees.
Context m E (Hm : trees_ok m E).

Lemma trees_fresh b l e :
  E !! queue_key b = None → m !! bin_author b = Some l → e ∈ l → BatchSortKey_cmp (sort_key b) e.1 ≠ Eq.
Proof using Hm.
  intros Hb Hl He Hc. destruct (tro_entry m E Hm _ l e Hl He) as (Hk & Ha & HE).
  rewrite Hk in Hc. apply sort_key_cmp_eq in Hc; [|by rewrite Ha].
  assert (queue_key b = queue_key (e.2)) by (injection Hc; unfold queue_key; congruence). congruence.
Qed.

Lemma trees_insert b :
  E !! queue_key b = None →
  trees_ok (<[bin_author b := tree_insert (sort_key b) b (default [] (m !! bin_author b))]> m)
    (<[queue_key b := b]> E).
Proof using Hm.
  intros Hb.
  assert (Hp : tree_insert (sort_key b) b (default [] (m !! bin_author b))
               ≡ₚ (sort_key b, b) :: default [] (m !! bin_author b)).
  { apply tree_insert_perm. destruct (m !! bin_author b) as [l|] eqn:Hl; simpl; [|set_solver].
    intros e. by apply trees_fresh. }
  assert (Hold : ∀ e, e ∈ default [] (m !! bin_author b) →
    e.1 = sort_key e.2 ∧ bin_author e.2 = bin_author b ∧ E !! queue_key e.2 = Some e.2).
  { intros e. destruct (m !! bin_author b) as [l|] eqn:Hl; simpl; [|set_solver].
    by apply (tro_entry _ _ Hm). }
  split.
  - intros a l e [[<- <-]|[Hne Hl]]%lookup_insert_Some He.
    + rewrite Hp in He. apply elem_of_cons in He as [->|He]; [by rewrite lookup_insert_eq|].
      destruct (Hold e He) as (? & ? & HE). rewrite lookup_insert_ne by congruence. done.
    + destruct (tro_entry _ _ Hm a l e Hl He) as (? & ? & HE).
      rewrite lookup_insert_ne by congruence. done.
  - intros k b' [[<- <-]|[Hne Hk]]%lookup_insert_Some.
    + split; [done|]. rewrite lookup_insert_eq. eexists; split; [done|]. rewrite Hp. set_solver.
    + destruct (tro_all _ _ Hm k b' Hk) as (? & l & Hl & Hin). split; [done|].
      destruct (decide (bin_author b' = bin_author b)) as [Heq|Hna];
        [|exists l; by rewrite lookup_insert_ne by congruence].
      rewrite Heq, lookup_insert_eq. eexists; split; [done|]. rewrite Hp.
      rewrite Heq in Hl. rewrite Hl. set_solver.
  - intros a l [[<- <-]|[Hne Hl]]%lookup_insert_Some; [|by eapply (tro_nodup _ _ Hm)].
    rewrite Hp. constructor; [|].
    + intros Hin. destruct (Hold _ Hin) as (_ & _ & HE). simpl in HE. congruence.
    + destruct (m !! bin_author b) as [l|] eqn:Hl; simpl; [|constructor]. by eapply (tro_nodup _ _ Hm).
Qed.

Lemma tree_get_spec k b l :
  m !! BatchSortKey_author k = Some l →
  tree_get k l = Some b ↔ E !! bsk_batch_key k = Some b ∧ k = sort_key b.
Proof using Hm.
  intros Hl. assert (Hall : ∀ e, e ∈ l → e.1 = sort_key e.2 ∧ BatchSortKey_author k = bin_author e.2 ∧
    E !! queue_key e.2 = Some e.2).
  { intros e He. destruct (tro_entry _ _ Hm _ l e Hl He) as (? & ? & ?). auto. }
  assert (Hiff : tree_get k l = Some b → (k, b) ∈ l).
  { clear Hl. induction l as [|[k' b'] l' IH]; simpl; [done|].
    destruct (Hall (k', b') ltac:(set_solver)) as (Hk & Ha & _). simpl in Hk, Ha.
    pose proof (sort_key_cmp_eq k b' Ha) as Hc. rewrite <- Hk in Hc.
    destruct (BatchSortKey_cmp k k') eqn:Hcmp; [|set_solver..].
    intros [= ->]. rewrite (proj1 Hc eq_refl). set_solver. }
  split.
  - intros (Hk & _ & HE)%Hiff%Hall. simpl in *. by subst.
  - intros [HE ->]. destruct (tro_all _ _ Hm _ _ HE) as (_ & l' & Hl' & Hin).
    assert (l' = l) as -> by (cbn in Hl; congruence). clear Hl Hl' Hiff.
    induction l as [|[k' b'] l' IH]; simpl; [set_solver|].
    destruct (Hall (k', b') ltac:(set_solver)) as (Hk & Ha & HE'). simpl in Hk, Ha, HE'.
    pose proof (sort_key_cmp_eq (sort_key b) b' Ha) as Hc. rewrite <- Hk in Hc.
    destruct (BatchSortKey_cmp (sort_key b) k') eqn:Hcmp.
    + rewrite Hk in Hc. apply proj1 in Hc. specialize (Hc eq_refl).
      assert (queue_key b' = queue_key b) as Hq by (injection Hc; unfold queue_key; congruence).
      cbn in HE. rewrite Hq in HE'. congruence.
    + apply IH; [set_solver|]. apply elem_of_cons in Hin as [[= <- <-]|Hin]; [|done]. discriminate (proj2 Hc eq_refl).
    + apply IH; [set_solver|]. apply elem_of_cons in Hin as [[= <- <-]|Hin]; [|done]. discriminate (proj2 Hc eq_refl).
Qed.

Lemma elem_of_tree_remove k l e :
  m !! BatchSortKey_author k = Some l → e ∈ tree_remove k l ↔ e ∈ l ∧ e.1 ≠ k.
Proof using Hm.
  intros Hl. unfold tree_remove. rewrite list_elem_of_filter. split; intros [H1 H2].
  - split; [done|]. intros Hk. apply H1, BatchSortKey_cmp_eq. by rewrite Hk.
  - split; [|done]. destruct (tro_entry _ _ Hm _ l e Hl H1) as (Hk & Ha & _).
    intros Hc. apply H2. rewrite Hk in Hc |- *. symmetry. by apply sort_key_cmp_eq.
Qed.

Lemma tree_set_Some a rest m' a' l :
  tree_set a rest m' !! a' = Some l ↔ (a' = a ∧ l = rest ∧ rest ≠ []) ∨ (a' ≠ a ∧ m' !! a' = Some l).
Proof.
  unfold tree_set. case_bool_decide as Hr.
  - rewrite lookup_delete_Some. naive_solver.
  - rewrite lookup_insert_Some. naive_solver.
Qed.

Lemma trees_remove k l :
  m !! BatchSortKey_author k = Some l →
  trees_ok (tree_set (BatchSortKey_author k) (tree_remove k l) m)
    (match tree_get k l with Some _ => delete (bsk_batch_key k) E | None => E end).
Proof using Hm.
  intros Hl. pose proof (λ e, elem_of_tree_remove k l e Hl) as Hrem.
  pose proof (λ b, tree_get_spec k b l Hl) as Hget.
  assert (HE : ∀ k' b, (match tree_get k l with Some _ => delete (bsk_batch_key k) E | None => E end) !! k' = Some b
    ↔ E !! k' = Some b ∧ sort_key b ≠ k).
  { intros k' b. destruct (tree_get k l) as [b0|].
    - destruct (proj1 (Hget b0) eq_refl) as [HE0 Hk0]. rewrite lookup_delete_Some.
      split; intros [H1 H2].
      + split; [done|]. intros <-. apply H1. cbn. by apply (tro_all _ _ Hm) in H2 as [<- _].
      + split; [|done]. intros <-. apply H2. rewrite HE0 in H1. by injection H1 as ->.
    - split; [|tauto]. intros Hb. split; [done|]. intros <-.
      apply (tro_all _ _ Hm) in Hb as Hb'. destruct Hb' as [Hq _].
      assert (None = Some b) as [=]. apply Hget. cbn. by rewrite Hq. }
  split.
  - intros a l' e [(-> & -> & _)|[Hne Hl']]%tree_set_Some He.
    + apply Hrem in He as [He Hk]. destruct (tro_entry _ _ Hm _ l e Hl He) as (H1 & H2 & H3).
      rewrite HE. rewrite <- H1. auto.
    + destruct (tro_entry _ _ Hm _ l' e Hl' He) as (H1 & H2 & H3). rewrite HE.
      split; [done|]. split; [done|]. split; [done|]. intros <-. apply Hne. by rewrite <- H2.
  - intros k' b [Hb Hk]%HE. destruct (tro_all _ _ Hm _ _ Hb) as (Hq & l' & Hl' & Hin). split; [done|].
    destruct (decide (bin_author b = BatchSortKey_author k)) as [Ha|Ha].
    + assert (l' = l) as -> by congruence. exists (tree_remove k l).
      assert ((sort_key b, b) ∈ tree_remove k l) as Hr by (by apply Hrem).
      split; [|done]. apply tree_set_Some. left. split; [done|]. split; [done|]. intros Hnil. rewrite Hnil in Hr. set_solver.
    + exists l'. split; [|done]. apply tree_set_Some. by right.
  - intros a l' [(-> & -> & _)|[Hne Hl']]%tree_set_Some; [|by eapply (tro_nodup _ _ Hm)].
    apply NoDup_filter. by eapply (tro_nodup _ _ Hm).
Qed.

Lemma trees_entries :
  map_to_list m ≫= snd ≡ₚ (λ kb, (sort_key kb.2, kb.2)) <$> map_to_list E.
Proof using Hm.
  apply NoDup_Permutation.
  - apply NoDup_bind.
    + intros [a1 l1] [a2 l2] e H1%elem_of_map_to_list H2%elem_of_map_to_list He1 He2. simpl in *.
      destruct (tro_entry _ _ Hm _ _ _ H1 He1) as (_ & <- & _).
      destruct (tro_entry _ _ Hm _ _ _ H2 He2) as (_ & <- & _). congruence.
    + intros [a l] Hl%elem_of_map_to_list. by eapply (tro_nodup _ _ Hm).
    + apply NoDup_map_to_list.
  - apply NoDup_fmap_2_strong; [|apply NoDup_map_to_list].
    intros [k1 b1] [k2 b2] H1%elem_of_map_to_list H2%elem_of_map_to_list Heq. simpl in Heq.
    assert (b1 = b2) as -> by congruence. apply (tro_all _ _ Hm) in H1 as [<- _], H2 as [<- _]. done.
  - intros [k b]. rewrite list_elem_of_bind, list_elem_of_fmap. split.
    + intros ([a l] & He & Hl%elem_of_map_to_list). destruct (tro_entry _ _ Hm _ _ _ Hl He) as (Hk & Ha & HE).
      simpl in *. subst k. exists (queue_key b, b). by rewrite elem_of_map_to_list.
    + intros ([k' b'] & Heq & HE%elem_of_map_to_list). simpl in Heq.
      assert (b = b' ∧ k = sort_key b') as [-> ->] by (split; congruence).
      destruct (tro_all _ _ Hm _ _ HE) as (_ & l & Hl & Hin). exists (bin_author b', l).
      by rewrite elem_of_map_to_list.
Qed.

End trees.

(** ** Structure of the queue *)

(** The proofs of batches that are neither committed nor expired. *)
Definition live (q : ProofQueue) : gmap QueueKey ProofOfStore := omap id (pq_batch_to_proof q).

(** The trees hold the batches of [E]; each of them waits in [expirations], or
    has just been popped into [pending]. *)
Record queue_ok E (pending : list BatchSortKey) (q : ProofQueue) : Prop := {
  qo_trees : trees_ok (pq_author_to_batches q) E;
  qo_proof k b : E !! k = Some b → is_Some (pq_batch_to_proof q !! k);
  qo_live k p : pq_batch_to_proof q !! k = Some (Some p) → E !! k = Some (pos_info p);
  qo_te : te_ok (pq_expirations q);
  qo_heap t k : (t, k) ∈ te_expiries (pq_expirations q) →
    pq_latest_block_timestamp q < t ∧ ∃ b, E !! bsk_batch_key k = Some b ∧ k = sort_key b ∧ t = bin_expiration b;
  qo_waits k b : E !! k = Some b →
    (bin_expiration b, sort_key b) ∈ te_expiries (pq_expirations q) ∨ sort_key b ∈ pending;
  qo_pending k : k ∈ pending → ∃ b,
    E !! bsk_batch_key k = Some b ∧ k = sort_key b ∧ bin_expiration b ≤ pq_latest_block_timestamp q;
}.

Lemma queue_ok_new me : queue_ok ∅ [] (ProofQueue_new me).
Proof.
  split; simpl; try (intros; done || set_solver). all: constructor.
Qed.

(** Summaries and counters are not part of the structure. *)
Definition same_structure (q q' : ProofQueue) : Prop :=
  pq_my_peer_id q' = pq_my_peer_id q ∧ pq_author_to_batches q' = pq_author_to_batches q ∧
  pq_batch_to_proof q' = pq_batch_to_proof q ∧ pq_expirations q' = pq_expirations q ∧
  pq_latest_block_timestamp q' = pq_latest_block_timestamp q.

Lemma queue_ok_same E pending q q' : same_structure q q' → queue_ok E pending q → queue_ok E pending q'.
Proof. intros (_ & Ha & Hb & He & Ht) [H1 H2 H3 H4 H5 H6 H7]. split; rewrite ?Ha, ?Hb, ?He, ?Ht; done. Qed.

Lemma live_Some q k p : live q !! k = Some p ↔ pq_batch_to_proof q !! k = Some (Some p).
Proof.
  unfold live. rewrite lookup_omap_Some. split; [intros ([?|] & [= ->] & H)|intros H; by exists (Some p)].
  by simpl in H.
Qed.

(** ** Counters *)

Definition proof_txns (p : ProofOfStore) : N := bin_num_txns (pos_info p).

Definition if_local (me : Author) (f : ProofOfStore → N) (p : ProofOfStore) : N :=
  if bool_decide (bin_author (pos_info p) = me) then f p else 0.

(** The counters count the proofs of [L]. *)
Record counts (L : gmap QueueKey ProofOfStore) (q : ProofQueue) : Prop := {
  co_txns : pq_remaining_txns_with_duplicates q = map_sum proof_txns L;
  co_proofs : pq_remaining_proofs q = map_sum (λ _, 1) L;
  co_local_txns : pq_remaining_local_txns q = map_sum (if_local (pq_my_peer_id q) proof_txns) L;
  co_local_proofs : pq_remaining_local_proofs q = map_sum (if_local (pq_my_peer_id q) (λ _, 1)) L;
}.

Lemma if_local_le me f p : if_local me f p ≤ f p.
Proof. unfold if_local. case_bool_decide; lia. Qed.

(** Everything but the counters is the same. *)
Definition same_but_counters (q q' : ProofQueue) : Prop :=
  ∃ a b c d, q' = set_remaining a b c d q.

Lemma inc_remaining_spec L k p q :
  counts L q → L !! k = None → map_sum proof_txns L + proof_txns p ≤ u64_max →
  map_sum (λ _, 1) L + 1 ≤ u64_max →
  ∃ q', inc_remaining (bin_author (pos_info p)) (proof_txns p) q = Ok q' ∧
    same_but_counters q q' ∧ counts (<[k := p]> L) q'.
Proof.
  intros [H1 H2 H3 H4] Hk Ht Hp. unfold inc_remaining.
  pose proof (map_sum_mono _ _ L (λ k p _, if_local_le (pq_my_peer_id q) proof_txns p)).
  pose proof (map_sum_mono _ _ L (λ k p _, if_local_le (pq_my_peer_id q) (λ _, 1) p)).
  rewrite !add_u64_fits by lia. simpl. case_bool_decide as Ha; eexists; (split; [done|]);
    (split; [by do 4 eexists|]); split; simpl; rewrite map_sum_insert by done;
    try unfold if_local at 1; rewrite ?bool_decide_true, ?bool_decide_false by done; lia.
Qed.

Lemma dec_remaining_spec L k p q :
  counts L q → L !! k = Some p →
  ∃ q', dec_remaining (bin_author (pos_info p)) (proof_txns p) q = Ok q' ∧
    same_but_counters q q' ∧ counts (delete k L) q'.
Proof.
  intros [H1 H2 H3 H4] Hk. unfold dec_remaining.
  rewrite (map_sum_delete _ L k p Hk) in H1. rewrite (map_sum_delete _ L k p Hk) in H2.
  rewrite (map_sum_delete _ L k p Hk) in H3. rewrite (map_sum_delete _ L k p Hk) in H4.
  unfold if_local at 1 in H3. unfold if_local at 1 in H4.
  case_bool_decide; rewrite !sub_u64_fits by lia; simpl;
    eexists; (split; [done|]); (split; [by do 4 eexists|]); split; simpl; lia.
Qed.

(** ** Occurrences *)

Implicit Types (A : gmap QueueKey (list TxnSummaryWithExpiration)) (t : TxnSummaryWithExpiration)
  (occ : gmap TxnSummaryWithExpiration N).

Definition occurs t (l : list TxnSummaryWithExpiration) : N :=
  foldr (λ x n, if bool_decide (x = t) then 1 + n else n) 0 l.

Definition nonzero (n : N) : option N := if n =? 0 then None else Some n.

(** The summaries that are counted. *)
Definition added (S : gmap QueueKey (list TxnSummaryWithExpiration * N * bool))
    : gmap QueueKey (list TxnSummaryWithExpiration) :=
  omap (λ x : list TxnSummaryWithExpiration * N * bool, if x.2 then Some x.1.1 else None) S.

(** The map counts the summaries of [A]. *)
Definition tallies A occ : Prop := ∀ t, occ !! t = nonzero (map_sum (occurs t) A).

Definition list_size (l : list TxnSummaryWithExpiration) : N := N.of_nat (length l).

Lemma occurs_le t l : occurs t l ≤ list_size l.
Proof. induction l as [|x l IH]; unfold list_size in *; simpl; [lia|]. case_bool_decide; lia. Qed.

Lemma nonzero_default n : default 0 (nonzero n) = n.
Proof. unfold nonzero. destruct (N.eqb_spec n 0); simpl; lia. Qed.

Lemma count_in_spec l (f : TxnSummaryWithExpiration → N) occ :
  (∀ t, occ !! t = nonzero (f t)) → (∀ t, f t + list_size l ≤ u64_max) →
  ∃ occ', count_in l occ = Ok occ' ∧ ∀ t, occ' !! t = nonzero (f t + occurs t l).
Proof.
  revert f occ. induction l as [|x l IH]; intros f occ Hocc Hle; unfold list_size in Hle; simpl in *.
  { exists occ. split; [done|]. intros t. by rewrite N.add_0_r. }
  unfold count_in. simpl. rewrite Hocc, nonzero_default. pose proof (Hle x). rewrite add_u64_fits by lia. simpl.
  destruct (IH (λ t, if bool_decide (x = t) then f t + 1 else f t) (<[x := f x + 1]> occ)) as (occ' & Hc & Ho).
  - intros t. case_bool_decide as Ht.
    + subst t. rewrite lookup_insert_eq. unfold nonzero. by destruct (N.eqb_spec (f x + 1) 0); [lia|].
    + by rewrite lookup_insert_ne.
  - intros t. specialize (Hle t). unfold list_size. case_bool_decide; lia.
  - exists occ'. split; [done|]. intros t. rewrite Ho. f_equal. case_bool_decide; lia.
Qed.

Lemma count_out_spec l (f : TxnSummaryWithExpiration → N) occ :
  (∀ t, occ !! t = nonzero (f t + occurs t l)) →
  ∃ occ', count_out l occ = Ok occ' ∧ ∀ t, occ' !! t = nonzero (f t).
Proof.
  revert occ. induction l as [|x l IH]; intros occ Hocc; simpl in *.
  { exists occ. split; [done|]. intros t. by rewrite Hocc, N.add_0_r. }
  unfold count_out. simpl. rewrite Hocc. unfold nonzero at 1. rewrite bool_decide_true by done.
  destruct (N.eqb_spec (f x + (1 + occurs x l)) 0) as [|_]; [lia|]. rewrite sub_u64_fits by lia. simpl.
  replace (f x + (1 + occurs x l) - 1) with (f x + occurs x l) by lia.
  apply IH. intros t. destruct (decide (x = t)) as [<-|Hne].
  - unfold nonzero. destruct (N.eqb_spec (f x + occurs x l) 0); [by rewrite lookup_delete_eq|by rewrite lookup_insert_eq].
  - specialize (Hocc t). rewrite bool_decide_false in Hocc by done.
    destruct (f x + occurs x l =? 0); [by rewrite lookup_delete_ne|by rewrite lookup_insert_ne].
Qed.

Implicit Types (S : gmap QueueKey (list TxnSummaryWithExpiration * N * bool)).

Lemma added_Some S k l : added S !! k = Some l ↔ ∃ e, S !! k = Some (l, e, true).
Proof.
  unfold added. rewrite lookup_omap_Some. split.
  - intros ([[l' e] []] & [= ->] & H). by exists e.
  - intros [e H]. by exists (l, e, true).
Qed.

Lemma added_insert_true S k l e : added (<[k := (l, e, true)]> S) = <[k := l]> (added S).
Proof. by apply omap_insert_Some. Qed.

Lemma added_insert_false S k l e : added (<[k := (l, e, false)]> S) = delete k (added S).
Proof. by apply omap_insert_None. Qed.

Lemma added_delete S k : added (delete k S) = delete k (added S).
Proof. apply omap_delete. Qed.

Definition summary_size (x : list TxnSummaryWithExpiration * N * bool) : N := list_size x.1.1.

Lemma added_size f S :
  (∀ l, f l ≤ list_size l) → map_sum f (added S) ≤ map_sum summary_size S.
Proof.
  intros Hf. induction S as [|k [[l e] b] S Hk IH] using map_ind; [unfold added; rewrite omap_empty; by rewrite map_sum_empty|].
  rewrite (map_sum_insert _ S) by done. unfold summary_size at 1. simpl.
  assert (Hn : added S !! k = None) by (unfold added; by rewrite lookup_omap, Hk).
  specialize (Hf l). destruct b.
  - rewrite added_insert_true, map_sum_insert by done. lia.
  - rewrite added_insert_false, delete_id by done. lia.
Qed.

(** Counting in a list that is not counted. *)
Lemma count_in_added k l e S occ :
  tallies (added S) occ → added S !! k = None → map_sum summary_size (delete k S) + list_size l ≤ u64_max →
  ∃ occ', count_in l occ = Ok occ' ∧ tallies (added (<[k := (l, e, true)]> S)) occ'.
Proof.
  intros Ht Hk Hle. destruct (count_in_spec l _ occ Ht) as (occ' & Hc & Ho).
  - intros t. pose proof (added_size _ (delete k S) (occurs_le t)) as Hs. rewrite added_delete, delete_id in Hs by done. lia.
  - exists occ'. split; [done|]. intros t. rewrite Ho, added_insert_true, map_sum_insert by done. f_equal. lia.
Qed.

(** Counting out the list of a key, if it is counted. *)
Lemma drop_summaries_spec k q :
  tallies (added (pq_batch_summaries q)) (pq_txn_summary_num_occurrences q) →
  ∃ occ, drop_summaries k q = Ok (set_summaries occ (delete k (pq_batch_summaries q)) q) ∧
    tallies (added (delete k (pq_batch_summaries q))) occ.
Proof.
  intros Ht. unfold drop_summaries. rewrite added_delete.
  destruct (added (pq_batch_summaries q) !! k) as [l|] eqn:Hk.
  - pose proof Hk as Hk'. apply added_Some in Hk' as [e ->].
    destruct (count_out_spec l (λ t, map_sum (occurs t) (delete k (added (pq_batch_summaries q))))
      (pq_txn_summary_num_occurrences q)) as (occ & Hc & Ho).
    { intros t. rewrite Ht, (map_sum_delete _ _ k l Hk). f_equal. lia. }
    rewrite Hc. by exists occ.
  - exists (pq_txn_summary_num_occurrences q). rewrite (delete_id (added _)) by done. split; [|done].
    destruct (pq_batch_summaries q !! k) as [[[l e] []]|] eqn:Hs; [|done|done].
    assert (added (pq_batch_summaries q) !! k = Some l) by (apply added_Some; eauto). congruence.
Qed.

(** ** The invariant *)

Section invariant.

(** Authors number their batches apart. *)
Context (info_of : QueueKey → BatchInfo).

Definition agreed (b : BatchInfo) : Prop := info_of (queue_key b) = b.

Record queue_inv E (pending : list BatchSortKey) (q : ProofQueue) : Prop := {
  qi_ok : queue_ok E pending q;
  qi_counts : counts (live q) q;
  qi_tallies : tallies (added (pq_batch_summaries q)) (pq_txn_summary_num_occurrences q);
  qi_added k l : added (pq_batch_summaries q) !! k = Some l → is_Some (live q !! k);
  qi_agreed k b : E !! k = Some b → agreed b;
  qi_counted k x : is_Some (live q !! k) → pq_batch_summaries q !! k = Some x → x.2 = true;
}.

(** The load of the queue: transactions, proofs and summaries. *)
Record load_le (txns proofs summaries : N) (q : ProofQueue) : Prop := {
  lo_txns : map_sum proof_txns (live q) ≤ txns;
  lo_proofs : map_sum (λ _, 1) (live q) ≤ proofs;
  lo_summaries : map_sum summary_size (pq_batch_summaries q) ≤ summaries;
}.

Lemma load_le_mono T C Z T' C' Z' q :
  load_le T C Z q → T ≤ T' → C ≤ C' → Z ≤ Z' → load_le T' C' Z' q.
Proof. intros [] ???. split; lia. Qed.

Lemma queue_inv_new me : queue_inv ∅ [] (ProofQueue_new me) ∧ load_le 0 0 0 (ProofQueue_new me).
Proof.
  assert (Hl : live (ProofQueue_new me) = ∅) by apply omap_empty.
  assert (Ha : added (pq_batch_summaries (ProofQueue_new me)) = ∅) by apply omap_empty.
  split; [|split; rewrite ?Hl; simpl; by rewrite map_sum_empty].
  split; rewrite ?Hl, ?Ha; [apply queue_ok_new| | | | |].
  - split; simpl; by rewrite map_sum_empty.
  - intros t. simpl. by rewrite map_sum_empty.
  - done.
  - done.
  - by intros k x [? ?].
Qed.

Lemma gc_inv E pending now q T C Z :
  queue_inv E pending q → load_le T C Z q →
  queue_inv E pending (sampled_gc now q) ∧ load_le T C Z (sampled_gc now q) ∧ same_structure q (sampled_gc now q).
Proof.
  intros Hq [H1 H2 H3]. destruct now as [now|]; [|done]. simpl.
  unfold gc_expired_batch_summaries_without_proofs. set (P := λ kv : _ * _, _).
  assert (Ha : added (filter P (pq_batch_summaries q)) = added (pq_batch_summaries q)).
  { apply map_eq. intros k. apply option_eq. intros l. rewrite !added_Some. f_equiv. intros e.
    rewrite map_lookup_filter_Some. unfold P. simpl. naive_solver. }
  destruct Hq as [Q1 Q2 Q3 Q4 Q5 Q6]. split; [|split; [split|]]; [split|..]; simpl; try done.
  - by eapply queue_ok_same; [|exact Q1].
  - by destruct Q2; split.
  - by rewrite Ha.
  - by rewrite Ha.
  - intros k x Hl [Hx _]%map_lookup_filter_Some. by eapply Q6.
  - etrans; [apply map_sum_filter|done].
Qed.

Lemma live_insert q k p b e ts :
  pq_batch_to_proof q !! k = None →
  live (set_queue b (<[k := Some p]> (pq_batch_to_proof q)) e ts q) = <[k := p]> (live q).
Proof. intros. unfold live. simpl. by erewrite omap_insert_Some. Qed.

Lemma queue_ok_push E q p :
  queue_ok E [] q → pq_batch_to_proof q !! queue_key (pos_info p) = None →
  pq_latest_block_timestamp q < bin_expiration (pos_info p) →
  queue_ok (<[queue_key (pos_info p) := pos_info p]> E) []
    (set_queue
       (<[bin_author (pos_info p) := tree_insert (sort_key (pos_info p)) (pos_info p)
            (default [] (pq_author_to_batches q !! bin_author (pos_info p)))]> (pq_author_to_batches q))
       (<[queue_key (pos_info p) := Some p]> (pq_batch_to_proof q))
       (add_item (sort_key (pos_info p)) (bin_expiration (pos_info p)) (pq_expirations q))
       (pq_latest_block_timestamp q) q).
Proof.
  set (info := pos_info p). intros Hq Hk Ht.
  assert (HE : E !! queue_key info = None).
  { apply eq_None_not_Some. intros [b Hb]. apply (qo_proof _ _ _ Hq) in Hb as [? ?]. congruence. }
  split; simpl.
  - apply trees_insert; [by eapply qo_trees|done].
  - intros k b [[<- <-]|[Hne Hb]]%lookup_insert_Some; [rewrite lookup_insert_eq; eauto|].
    rewrite lookup_insert_ne by done. by eapply qo_proof.
  - intros k p' [[<- [= <-]]|[Hne Hp]]%lookup_insert_Some; [by rewrite lookup_insert_eq|].
    rewrite lookup_insert_ne by done. by eapply qo_live.
  - apply add_item_ok, (qo_te _ _ _ Hq).
  - intros t k [[= -> ->]|Hin]%elem_of_heap_push.
    + split; [done|]. exists info. cbn. by rewrite lookup_insert_eq.
    + destruct (qo_heap _ _ _ Hq t k Hin) as (? & b & Hb & ? & ?). split; [done|]. exists b.
      rewrite lookup_insert_ne by congruence. done.
  - intros k b [[<- <-]|[Hne Hb]]%lookup_insert_Some; left; apply elem_of_heap_push; [by left|right].
    destruct (qo_waits _ _ _ Hq k b Hb) as [?|?]; [done|set_solver].
  - set_solver.
Qed.

Lemma set_summaries_id q :
  q = set_summaries (pq_txn_summary_num_occurrences q) (pq_batch_summaries q) q.
Proof. by destruct q. Qed.

Lemma count_summaries_spec k q :
  tallies (added (pq_batch_summaries q)) (pq_txn_summary_num_occurrences q) →
  added (pq_batch_summaries q) !! k = None → map_sum summary_size (pq_batch_summaries q) ≤ u64_max →
  ∃ occ S, count_summaries k q = Ok (set_summaries occ S q) ∧ tallies (added S) occ ∧
    map_sum summary_size S = map_sum summary_size (pq_batch_summaries q) ∧
    (∀ k', k' ≠ k → S !! k' = pq_batch_summaries q !! k') ∧ (∀ x, S !! k = Some x → x.2 = true).
Proof.
  intros Ht Ha Hle. unfold count_summaries.
  destruct (pq_batch_summaries q !! k) as [[[l e] []]|] eqn:Hk.
  - assert (added (pq_batch_summaries q) !! k = Some l) by (apply added_Some; eauto). congruence.
  - pose proof (map_sum_delete summary_size _ _ _ Hk) as Hsum. unfold summary_size at 2 in Hsum. simpl in Hsum.
    destruct (count_in_added k l e _ _ Ht Ha) as (occ & -> & Ho); [lia|]. simpl. do 2 eexists.
    split; [done|]. split; [done|]. split; [|split].
    + pose proof (map_sum_replace summary_size _ _ _ (l, e, true) Hk) as Hr. unfold summary_size in *. simpl in *. lia.
    + intros. by rewrite lookup_insert_ne.
    + intros x. rewrite lookup_insert_eq. by intros [= <-].
  - exists (pq_txn_summary_num_occurrences q), (pq_batch_summaries q). rewrite <- set_summaries_id. naive_solver.
Qed.

Lemma push_spec E q T C Z p now :
  queue_inv E [] q → load_le T C Z q → agreed (pos_info p) →
  T + proof_txns p ≤ u64_max → C + 1 ≤ u64_max → Z ≤ u64_max →
  ∃ q' E', push p now q = Ok q' ∧ queue_inv E' [] q' ∧ load_le (T + proof_txns p) (C + 1) Z q' ∧
    pq_latest_block_timestamp q' = pq_latest_block_timestamp q.
Proof.
  intros Hq Hlo Hag HT HC HZ. unfold push.
  destruct (N.leb_spec (bin_expiration (pos_info p)) (pq_latest_block_timestamp q)) as [|Ht].
  { exists q, E. do 3 (split; [done || (eapply load_le_mono; [done|lia..])|]). done. }
  destruct (pq_batch_to_proof q !! queue_key (pos_info p)) as [?|] eqn:Hk.
  { exists q, E. do 3 (split; [done || (eapply load_le_mono; [done|lia..])|]). done. }
  pose proof (queue_ok_push E q p (qi_ok _ _ _ Hq) Hk Ht) as Hok. set (q1 := set_queue _ _ _ _ q) in *.
  assert (Hlive : live q1 = <[queue_key (pos_info p) := p]> (live q)) by (by apply live_insert).
  assert (Hfresh : live q !! queue_key (pos_info p) = None).
  { apply eq_None_not_Some. intros [p' ?%live_Some]. congruence. }
  destruct Hq as [_ Q2 Q3 Q4 Q5 Q6]. destruct Hlo as [L1 L2 L3].
  destruct (count_summaries_spec (queue_key (pos_info p)) q1) as (occ & S & -> & Ho & HS & Hother & Hhere);
    [done| |simpl; lia|].
  { apply eq_None_not_Some. intros [l Hl]. apply Q4 in Hl as [? ?]. congruence. }
  destruct (inc_remaining_spec (live q) (queue_key (pos_info p)) p (set_summaries occ S q1))
    as (q2 & Hinc & (x & y & z & w & ->) & Hc); [by destruct Q2; split|done|lia|lia|].
  simpl. unfold proof_txns in Hinc at 1. rewrite Hinc. simpl.
  assert (Hinv : queue_inv (<[queue_key (pos_info p) := pos_info p]> E) []
                   (set_remaining x y z w (set_summaries occ S q1))).
  { split; simpl; [by eapply queue_ok_same; [|exact Hok]| |done|..].
    - unfold live in *. simpl in *. by rewrite Hlive.
    - intros k l [e Hl]%added_Some. change (live _) with (live q1). rewrite Hlive.
      destruct (decide (k = queue_key (pos_info p))) as [->|Hne]; [rewrite lookup_insert_eq; eauto|].
      rewrite lookup_insert_ne by done. apply (Q4 k l), added_Some. exists e. rewrite <- Hl. symmetry. by apply Hother.
    - intros k b [[<- <-]|[Hne Hb]]%lookup_insert_Some; [done|by eapply Q5].
    - intros k x'. change (live _) with (live q1). rewrite Hlive.
      destruct (decide (k = queue_key (pos_info p))) as [->|Hne]; [auto|].
      rewrite lookup_insert_ne, Hother by done. by apply Q6. }
  eapply (gc_inv _ _ now) in Hinv as (H1 & H2 & H3); [|split].
  { eexists _, _. split; [done|]. split; [exact H1|]. split; [exact H2|]. by destruct H3 as (_ & _ & _ & _ & ->). }
  - change (live _) with (live q1). rewrite Hlive, map_sum_insert by done. lia.
  - change (live _) with (live q1). rewrite Hlive, map_sum_insert by done. lia.
  - simpl in *. lia.
Qed.

(** The two tests for a proof agree with the map of live proofs. *)
Lemma proof_exists_iff E q b :
  queue_inv E [] q → agreed b →
  match pq_author_to_batches q !! bin_author b with
  | Some batches => bool_decide (is_Some (tree_get (sort_key b) batches))
  | None => false
  end && match pq_batch_to_proof q !! queue_key b with Some (Some _) => true | _ => false end
  = bool_decide (is_Some (live q !! queue_key b)).
Proof.
  intros Hq Hb. destruct (live q !! queue_key b) as [p|] eqn:Hl.
  - rewrite (bool_decide_true (is_Some _)) by eauto. apply live_Some in Hl. rewrite Hl.
    pose proof (qo_live _ _ _ (qi_ok _ _ _ Hq) _ _ Hl) as HE.
    assert (pos_info p = b) as Hp.
    { pose proof (qi_agreed _ _ _ Hq _ _ HE) as Hp. unfold agreed in *.
      destruct (tro_all _ _ (qo_trees _ _ _ (qi_ok _ _ _ Hq)) _ _ HE) as [Heq _]. congruence. }
    rewrite Hp in HE. pose proof (qo_trees _ _ _ (qi_ok _ _ _ Hq)) as Htr.
    destruct (tro_all _ _ Htr _ _ HE) as (_ & l & Hlk & _). rewrite Hlk, andb_true_r.
    apply bool_decide_eq_true. exists b. by apply (tree_get_spec _ _ Htr).
  - rewrite (bool_decide_false (is_Some _)) by (by intros [? ?]).
    destruct (pq_batch_to_proof q !! queue_key b) as [[p|]|] eqn:Hp; rewrite ?andb_false_r; try done.
    apply live_Some in Hp. congruence.
Qed.

Lemma add_batch_summary_spec E q T C Z b l :
  queue_inv E [] q → load_le T C Z q → agreed b → Z + list_size l ≤ u64_max →
  ∃ q', add_batch_summary (b, l) q = Ok q' ∧ queue_inv E [] q' ∧ load_le T C (Z + list_size l) q' ∧
    pq_latest_block_timestamp q' = pq_latest_block_timestamp q.
Proof.
  intros Hq Hlo Hb HZ. unfold add_batch_summary. cbn [bsk_batch_key sort_key].
  rewrite (proof_exists_iff E) by done. destruct Hlo as [L1 L2 L3].
  assert (Hins : ∀ v, map_sum summary_size (<[queue_key b := (l, bin_expiration b, v)]> (pq_batch_summaries q))
    ≤ Z + list_size l).
  { intros v. etrans; [apply map_sum_insert_le|]. unfold summary_size at 2. simpl. lia. }
  destruct (added (pq_batch_summaries q) !! queue_key b) as [l0|] eqn:Ha.
  { pose proof Ha as [e He]%added_Some. rewrite He. simpl. rewrite andb_false_r. simpl.
    rewrite <- set_summaries_id. exists q. do 2 (split; [done|]). split; [|done]. split; [done|done|lia]. }
  assert (match pq_batch_summaries q !! queue_key b with Some (_, _, v) => negb v | None => true end = true) as ->.
  { destruct (pq_batch_summaries q !! queue_key b) as [[[l' e'] []]|] eqn:Hs; try done.
    assert (added (pq_batch_summaries q) !! queue_key b = Some l') by (apply added_Some; eauto). congruence. }
  rewrite andb_true_r. destruct Hq as [Q1 Q2 Q3 Q4 Q5 Q6]. case_bool_decide as Hlive.
  - assert (pq_batch_summaries q !! queue_key b = None) as Hs.
    { apply eq_None_not_Some. intros [[[l' e'] v] Hs]. pose proof (Q6 _ _ Hlive Hs) as Hv. simpl in Hv. subst v.
      assert (added (pq_batch_summaries q) !! queue_key b = Some l') by (apply added_Some; eauto). congruence. }
    destruct (count_in_added (queue_key b) l (bin_expiration b) _ _ Q3 Ha) as (occ & -> & Ho);
      [rewrite delete_id by done; lia|].
    simpl. eexists; split; [done|]. split; [|split; [split; [done|done|apply Hins]|done]]. split; simpl; try done.
    + by eapply queue_ok_same; [|exact Q1].
    + by destruct Q2; split.
    + intros k l'. rewrite added_insert_true. intros [[<- _]|[_ ?]]%lookup_insert_Some; [done|by eapply Q4].
    + intros k x Hk [[<- <-]|[_ Hx]]%lookup_insert_Some; [done|by eapply Q6].
  - simpl. eexists; split; [done|]. split; [|split; [split; [done|done|apply Hins]|done]].
    assert (added (<[queue_key b := (l, bin_expiration b, false)]> (pq_batch_summaries q))
            = added (pq_batch_summaries q)) as Hsame by (by rewrite added_insert_false, delete_id).
    split; simpl; rewrite ?Hsame; try done.
    + by eapply queue_ok_same; [|exact Q1].
    + by destruct Q2; split.
    + intros k x Hk [[<- <-]|[_ Hx]]%lookup_insert_Some; [done|by eapply Q6].
Qed.

Lemma live_agreed E pending q k p :
  queue_inv E pending q → live q !! k = Some p → E !! k = Some (pos_info p) ∧ queue_key (pos_info p) = k ∧
  agreed (pos_info p).
Proof.
  intros Hq Hl%live_Some. pose proof (qo_live _ _ _ (qi_ok _ _ _ Hq) _ _ Hl) as HE.
  split; [done|]. split; [by apply (tro_all _ _ (qo_trees _ _ _ (qi_ok _ _ _ Hq)) k)|].
  by eapply qi_agreed.
Qed.

(** A key leaves the live proofs together with its summaries. *)
Lemma retire_inv E pending E' pending' k q q' T C Z :
  queue_inv E pending q → load_le T C Z q → queue_ok E' pending' q' → E' ⊆ E →
  live q' = delete k (live q) → pq_batch_summaries q' = delete k (pq_batch_summaries q) →
  counts (delete k (live q)) q' → tallies (added (delete k (pq_batch_summaries q))) (pq_txn_summary_num_occurrences q') →
  queue_inv E' pending' q' ∧ load_le T C Z q'.
Proof.
  intros [_ _ _ Q4 Q5 Q6] [L1 L2 L3] Hok HE Hl HS Hc Ht. split.
  - split; rewrite ?Hl, ?HS; try done.
    + intros k' l. rewrite added_delete. intros [Hne Hk']%lookup_delete_Some.
      rewrite lookup_delete_ne by done. by eapply Q4.
    + intros k' b Hb. eapply Q5, lookup_weaken; done.
    + intros k' x [p [_ Hp]%lookup_delete_Some] [_ Hx]%lookup_delete_Some. eapply Q6; eauto.
  - split; rewrite ?Hl, ?HS; (etrans; [apply map_sum_delete_le|done]).
Qed.

Lemma live_set_none q q' k :
  pq_batch_to_proof q' = <[k := None]> (pq_batch_to_proof q) → live q' = delete k (live q).
Proof. unfold live. intros ->. by apply omap_insert_None. Qed.

Lemma live_delete q q' k :
  pq_batch_to_proof q' = delete k (pq_batch_to_proof q) → live q' = delete k (live q).
Proof. unfold live. intros ->. apply omap_delete. Qed.

Lemma queue_ok_commit E q k :
  queue_ok E [] q →
  queue_ok E [] (set_queue (pq_author_to_batches q) (<[k := None]> (pq_batch_to_proof q)) (pq_expirations q)
                   (pq_latest_block_timestamp q) q).
Proof.
  intros []; split; simpl; try done.
  - intros k' b Hb. destruct (decide (k = k')) as [<-|]; [rewrite lookup_insert_eq; eauto|].
    rewrite lookup_insert_ne by done. eauto.
  - intros k' p [[_ [=]]|[_ ?]]%lookup_insert_Some. eauto.
Qed.

Lemma commit_batch_spec E q T C Z b :
  queue_inv E [] q → load_le T C Z q → agreed b →
  ∃ q', commit_batch b q = Ok q' ∧ queue_inv E [] q' ∧ load_le T C Z q' ∧
    pq_latest_block_timestamp q' = pq_latest_block_timestamp q ∧ live q' = delete (queue_key b) (live q).
Proof.
  intros Hq Hlo Hb. unfold commit_batch. set (k := queue_key b).
  assert (∃ q1, (match pq_batch_to_proof q !! k with
                 | Some (Some _) => dec_remaining (bin_author b) (bin_num_txns b) q
                 | _ => Ok q
                 end) = Ok q1 ∧ same_but_counters q q1 ∧ counts (delete k (live q)) q1)
    as (q1 & -> & (x & y & z & w & ->) & Hc).
  { destruct (live q !! k) as [p|] eqn:Hl.
    - destruct (live_agreed _ _ _ _ _ Hq Hl) as (_ & Hk & Hp). unfold agreed in *.
      assert (pos_info p = b) as Hpb by (rewrite <- Hp, Hk; done).
      destruct (dec_remaining_spec _ _ _ _ (qi_counts _ _ _ Hq) Hl) as (q1 & Hd & ?).
      unfold proof_txns in Hd. rewrite Hpb in Hd. apply live_Some in Hl. rewrite Hl. by exists q1.
    - exists q. rewrite delete_id by done. split; [|split; [by destruct q; repeat eexists|apply Hq]].
      destruct (pq_batch_to_proof q !! k) as [[p|]|] eqn:Hp; try done. apply live_Some in Hp. congruence. }
  simpl. set (q2 := set_queue _ _ _ _ _).
  destruct (drop_summaries_spec k q2) as (occ & -> & Ho); [apply Hq|]. eexists. split; [done|].
  assert (Hl2 : live q2 = delete k (live q)) by (by apply live_set_none).
  destruct (retire_inv E [] E [] k q (set_summaries occ (delete k (pq_batch_summaries q2)) q2) T C Z) as [H1 H2];
    try done.
  - eapply queue_ok_same; [|exact (queue_ok_commit E q k (qi_ok _ _ _ Hq))]. done.
  - by destruct Hc; split.
Qed.

Lemma queue_ok_expire E pending q b l :
  queue_ok E (sort_key b :: pending) q → sort_key b ∉ pending → E !! queue_key b = Some b →
  bin_expiration b ≤ pq_latest_block_timestamp q → pq_author_to_batches q !! bin_author b = Some l →
  queue_ok (delete (queue_key b) E) pending
    (set_queue (tree_set (bin_author b) (tree_remove (sort_key b) l) (pq_author_to_batches q))
       (delete (queue_key b) (pq_batch_to_proof q)) (pq_expirations q) (pq_latest_block_timestamp q) q).
Proof.
  intros [O1 O2 O3 O4 O5 O6 O7] Hnew HE Hexp Hl.
  pose proof (trees_remove _ _ O1 (sort_key b) l Hl) as Htr.
  rewrite (proj2 (tree_get_spec _ _ O1 (sort_key b) b l Hl)) in Htr by done.
  split; simpl; [exact Htr| | |done|..].
  - intros k b' [Hne Hb]%lookup_delete_Some. rewrite lookup_delete_ne by done. eauto.
  - intros k p [Hne Hp]%lookup_delete_Some. rewrite lookup_delete_ne by done. eauto.
  - intros t k Hin. destruct (O5 t k Hin) as (Ht & b' & Hb' & -> & ->). split; [done|]. exists b'.
    split; [|done]. rewrite lookup_delete_ne; [done|]. intros Heq. cbn in Heq, Hb'. rewrite <- Heq, HE in Hb'.
    injection Hb' as <-. lia.
  - intros k b' [Hne Hb]%lookup_delete_Some. destruct (O6 k b' Hb) as [?|Hin]; [by left|right].
    apply elem_of_cons in Hin as [Heq|?]; [|done]. destruct Hne.
    apply (tro_all _ _ O1) in Hb as [<- _]. by injection Heq; unfold queue_key; intros; congruence.
  - intros k Hk. destruct (O7 k) as (b' & Hb' & -> & ?); [set_solver|]. exists b'. split; [|done].
    rewrite lookup_delete_ne; [done|]. intros Heq. cbn in Heq, Hb'. rewrite <- Heq, HE in Hb'.
    injection Hb' as <-. done.
Qed.

Lemma expire_key_spec E pending q T C Z k :
  queue_inv E (k :: pending) q → k ∉ pending → load_le T C Z q →
  ∃ q' E', expire_key (pq_latest_block_timestamp q) k q = Ok q' ∧ queue_inv E' pending q' ∧ load_le T C Z q' ∧
    pq_latest_block_timestamp q' = pq_latest_block_timestamp q ∧ live q' = delete (bsk_batch_key k) (live q).
Proof.
  intros Hq Hnew Hlo. pose proof (qi_ok _ _ _ Hq) as Hok.
  destruct (qo_pending _ _ _ Hok k) as (b & HE & -> & Hexp); [set_solver|]. cbn in HE.
  destruct (tro_all _ _ (qo_trees _ _ _ Hok) _ _ HE) as (_ & l & Hl & _).
  pose proof (queue_ok_expire E pending q b l Hok Hnew HE Hexp Hl) as Hok'.
  unfold expire_key. change (BatchSortKey_author (sort_key b)) with (bin_author b). rewrite Hl.
  rewrite (proj2 (tree_get_spec _ _ (qo_trees _ _ _ Hok) (sort_key b) b l Hl)) by done.
  destruct (qo_proof _ _ _ Hok _ _ HE) as [entry He]. cbn [bsk_batch_key sort_key]. rewrite He. simpl.
  destruct entry as [p|].
  - pose proof (proj2 (live_Some q _ p) He) as Hlp. destruct (live_agreed _ _ _ _ _ Hq Hlp) as (HE' & _ & _).
    assert (b = pos_info p) as Hbp by congruence. rewrite sub_u64_fits by done. simpl.
    destruct (drop_summaries_spec (queue_key b) q (qi_tallies _ _ _ Hq)) as (occ & -> & Ho). simpl.
    destruct (dec_remaining_spec (live q) (queue_key b) p (set_summaries occ (delete (queue_key b) (pq_batch_summaries q)) q))
      as (q1 & Hd & (x & y & z & w & ->) & Hc); [by destruct (qi_counts _ _ _ Hq); split|done|].
    unfold proof_txns in Hd. rewrite <- Hbp in Hd. rewrite Hd. simpl. eexists _, (delete (queue_key b) E). split; [done|].
    eapply and_assoc. split; [|split; [done|by apply live_delete]].
    eapply (retire_inv _ _ _ _ (queue_key b)); try done.
    + eapply queue_ok_same; [|exact Hok']. done.
    + apply delete_subseteq.
    + by apply live_delete.
    + by destruct Hc; split.
  - simpl. assert (live q !! queue_key b = None) as Hn.
    { apply eq_None_not_Some. intros [p ?%live_Some]. congruence. }
    destruct Hq as [Q1 Q2 Q3 Q4 Q5 Q6], Hlo as [L1 L2 L3]. rewrite (delete_id (live q)) by done.
    set (q' := set_queue _ _ _ _ q) in *.
    assert (Hdel : live q' = live q) by (by erewrite live_delete, delete_id).
    exists q'. eexists. split; [done|]. split; [|split; [split; by rewrite ?Hdel|done]].
    split; rewrite ?Hdel; simpl; try done.
    + by destruct Q2; split.
    + intros k' b' [_ ?]%lookup_delete_Some. eauto.
Qed.

Lemma expire_keys_spec E pending q T C Z :
  queue_inv E pending q → NoDup pending → load_le T C Z q →
  ∃ q' E', try_fold (λ q' k, expire_key (pq_latest_block_timestamp q) k q') q pending = Ok q' ∧
    queue_inv E' [] q' ∧ load_le T C Z q' ∧ pq_latest_block_timestamp q' = pq_latest_block_timestamp q.
Proof.
  intros Hq Hnd. revert E q Hq. induction Hnd as [|k pending Hk Hnd IH]; intros E q Hq Hlo; simpl.
  { by exists q, E. }
  destruct (expire_key_spec _ _ _ _ _ _ _ Hq Hk Hlo) as (q1 & E1 & -> & Hq1 & Hlo1 & Ht1 & _). simpl.
  destruct (IH E1 q1 Hq1 Hlo1) as (q2 & E2 & Hr & Hq2 & Hlo2 & Ht2). rewrite Ht1 in Hr, Ht2. by exists q2, E2.
Qed.

Lemma handle_updated_block_timestamp_spec E q T C Z ts :
  queue_inv E [] q → load_le T C Z q → pq_latest_block_timestamp q ≤ ts →
  ∃ q' E', handle_updated_block_timestamp ts q = Ok q' ∧ queue_inv E' [] q' ∧ load_le T C Z q' ∧
    pq_latest_block_timestamp q' = ts.
Proof.
  intros Hq Hlo Hts. unfold handle_updated_block_timestamp. rewrite (proj2 (N.leb_le _ _) Hts). simpl.
  pose proof (qi_ok _ _ _ Hq) as Hok.
  destruct (expire_spec ts _ (qo_te _ _ _ Hok)) as (He1 & He2 & He3).
  destruct (expire ts (pq_expirations q)) as [expired rest]. simpl in *.
  set (q1 := set_queue _ _ rest ts q).
  assert (Hq1 : queue_inv E (elements expired) q1).
  { destruct Hq as [Q1 Q2 Q3 Q4 Q5 Q6]. split; simpl; [|by destruct Q2; split|done..].
    destruct Q1 as [O1 O2 O3 O4 O5 O6 O7]. split; simpl; [done..| | |].
    - intros t k [Hin Ht]%He3. destruct (O5 t k Hin) as (_ & ?). by split.
    - intros k b Hb. destruct (O6 k b Hb) as [Hin|Hin]; [|set_solver].
      destruct (N.le_gt_cases (bin_expiration b) ts); [right|left; by apply He3].
      apply elem_of_elements, He2. eauto.
    - intros k (t & Hin & Ht)%elem_of_elements%He2. destruct (O5 t k Hin) as (_ & b & ? & ? & ->). eauto. }
  destruct (expire_keys_spec E (elements expired) q1 T C Z Hq1 (NoDup_elements _)) as (q2 & E2 & Hr & ? & ? & ?);
    [by destruct Hlo; split|]. by exists q2, E2.
Qed.

Lemma mark_committed_spec E q T C Z l :
  queue_inv E [] q → load_le T C Z q → Forall agreed l →
  ∃ q', mark_committed l q = Ok q' ∧ queue_inv E [] q' ∧ load_le T C Z q' ∧
    pq_latest_block_timestamp q' = pq_latest_block_timestamp q.
Proof.
  intros Hq Hlo Hl. revert q Hq Hlo. unfold mark_committed.
  induction Hl as [|b l Hb Hl IH]; intros q Hq Hlo; simpl; [by exists q|].
  destruct (commit_batch_spec _ _ _ _ _ _ Hq Hlo Hb) as (q1 & -> & Hq1 & Hlo1 & Ht1 & _). simpl.
  destruct (IH q1 Hq1 Hlo1) as (q2 & ? & ? & ? & ?). exists q2. do 3 (split; [done|]). congruence.
Qed.

Definition summaries_size (l : list (BatchInfo * list TxnSummaryWithExpiration)) : N :=
  total ((λ x, list_size x.2) <$> l).

Lemma add_batch_summaries_spec E q T C Z l now :
  queue_inv E [] q → load_le T C Z q → Forall (λ x, agreed x.1) l → Z + summaries_size l ≤ u64_max →
  ∃ q', add_batch_summaries l now q = Ok q' ∧ queue_inv E [] q' ∧ load_le T C (Z + summaries_size l) q' ∧
    pq_latest_block_timestamp q' = pq_latest_block_timestamp q.
Proof.
  intros Hq Hlo Hl HZ. unfold add_batch_summaries.
  enough (∃ q', try_fold (λ q x, add_batch_summary x q) q l = Ok q' ∧ queue_inv E [] q' ∧
    load_le T C (Z + summaries_size l) q' ∧ pq_latest_block_timestamp q' = pq_latest_block_timestamp q)
    as (q' & -> & Hq' & Hlo' & Ht).
  { simpl. destruct (gc_inv _ _ now _ _ _ _ Hq' Hlo') as (? & ? & (_ & _ & _ & _ & Ht')).
    eexists. split; [done|]. rewrite Ht'. done. }
  revert q Z Hq Hlo HZ. induction Hl as [|[b s] l Hb Hl IH]; intros q Z Hq Hlo HZ; cbn [try_fold].
  { exists q. unfold summaries_size. simpl. by rewrite N.add_0_r. }
  unfold summaries_size in *. rewrite total_cons in *. cbn [snd] in *.
  destruct (add_batch_summary_spec E q T C Z b s Hq Hlo Hb) as (q1 & -> & Hq1 & Hlo1 & Ht1); [lia|].
  cbn [mbind result_bind]. destruct (IH q1 _ Hq1 Hlo1) as (q2 & ? & ? & ? & ?); [lia|]. exists q2. rewrite N.add_assoc.
  do 3 (split; [done|]). congruence.
Qed.

(** ** The remaining transactions *)

(** The distinct transactions known to be in live proofs, and the live proofs
    whose transactions are not known. *)
Definition summarised (q : ProofQueue) : gset TxnSummaryWithExpiration :=
  ⋃ ((λ kp : QueueKey * ProofOfStore,
        match pq_batch_summaries q !! kp.1 with Some x => list_to_set x.1.1 | None => ∅ end)
     <$> map_to_list (live q)).

Definition unsummarised (q : ProofQueue) : gmap QueueKey ProofOfStore :=
  filter (λ kp : QueueKey * ProofOfStore, pq_batch_summaries q !! kp.1 = None) (live q).

Lemma occurs_pos t l : occurs t l ≠ 0 ↔ t ∈ l.
Proof.
  induction l as [|x l IH]; simpl; [set_solver|]. rewrite elem_of_cons, <- IH.
  case_bool_decide as Hx; [|naive_solver]. subst. split; [by left|lia].
Qed.

Lemma elem_of_tallied A occ t : tallies A occ → t ∈ dom occ ↔ ∃ k l, A !! k = Some l ∧ t ∈ l.
Proof.
  intros Ht. rewrite elem_of_dom, Ht. unfold nonzero. destruct (N.eqb_spec (map_sum (occurs t) A) 0) as [Hz|Hz].
  - split; [by intros []|]. intros (k & l & Hk & Hin). pose proof (map_sum_lookup (occurs t) A k l Hk).
    apply occurs_pos in Hin. lia.
  - split; [intros _|by eexists]. apply dec_stable. intros Hno. apply Hz, map_sum_zero.
    intros k l Hk. apply dec_stable. rewrite occurs_pos. intros Hin. apply Hno. eauto.
Qed.

Lemma size_union_list_le (Xs : list (gset TxnSummaryWithExpiration)) :
  N.of_nat (size (⋃ Xs)) ≤ total ((λ X, N.of_nat (size X)) <$> Xs).
Proof.
  induction Xs as [|X Xs IH]; [by rewrite union_list_nil, size_empty|].
  rewrite union_list_cons, total_cons. pose proof (size_union_alt X (⋃ Xs)) as Hs.
  assert (size (⋃ Xs ∖ X) ≤ size (⋃ Xs))%nat by (apply subseteq_size; set_solver). lia.
Qed.

Lemma size_list_to_set_le (l : list TxnSummaryWithExpiration) :
  (size (list_to_set l : gset TxnSummaryWithExpiration) ≤ length l)%nat.
Proof.
  induction l as [|t l IH]; [done|]. simpl. rewrite size_union_alt, size_singleton.
  assert (size (list_to_set l ∖ {[t]} : gset TxnSummaryWithExpiration)
          ≤ size (list_to_set l : gset TxnSummaryWithExpiration))%nat by (apply subseteq_size; set_solver). lia.
Qed.

Lemma tallied_size A occ : tallies A occ → N.of_nat (size occ) ≤ map_sum list_size A.
Proof.
  intros Ht. rewrite <- (size_dom (D:=gset _) occ).
  assert (dom occ = ⋃ ((λ l, list_to_set l : gset TxnSummaryWithExpiration) <$> (map_to_list A).*2)) as ->.
  { apply set_eq. intros t. rewrite (elem_of_tallied _ _ _ Ht), elem_of_union_list. split.
    - intros (k & l & Hk & Hin). exists (list_to_set l). rewrite elem_of_list_to_set. split; [|done].
      apply list_elem_of_fmap. exists l. split; [done|]. apply list_elem_of_fmap. exists (k, l).
      by rewrite elem_of_map_to_list.
    - intros (X & (l & -> & ([k l'] & -> & Hk%elem_of_map_to_list)%list_elem_of_fmap)%list_elem_of_fmap & Hin).
      exists k, l'. by rewrite elem_of_list_to_set in Hin. }
  etrans; [apply size_union_list_le|]. rewrite map_sum_list, <- list_fmap_compose.
  induction (map_to_list A).*2 as [|l ls IH]; [done|]. rewrite !total_cons. simpl.
  pose proof (size_list_to_set_le l). unfold list_size at 1. lia.
Qed.

Lemma summarised_occurrences E q : queue_inv E [] q → dom (pq_txn_summary_num_occurrences q) = summarised q.
Proof.
  intros Hq. apply set_eq. intros t. rewrite (elem_of_tallied _ _ _ (qi_tallies _ _ _ Hq)).
  unfold summarised. rewrite elem_of_union_list. split.
  - intros (k & l & Hk & Hin). destruct (qi_added _ _ _ Hq k l Hk) as [p Hp]. apply added_Some in Hk as [e Hk].
    exists (list_to_set l). rewrite elem_of_list_to_set. split; [|done]. apply list_elem_of_fmap. exists (k, p).
    simpl. by rewrite Hk, elem_of_map_to_list.
  - intros (X & HX & Hin). apply list_elem_of_fmap in HX as ([k p] & -> & Hp%elem_of_map_to_list). simpl in Hin.
    destruct (pq_batch_summaries q !! k) as [[[l e] v]|] eqn:Hk; [|set_solver]. simpl in Hin.
    pose proof (qi_counted _ _ _ Hq k _ (mk_is_Some _ _ Hp) Hk) as Hv. simpl in Hv. subst v.
    exists k, l. rewrite elem_of_list_to_set in Hin. split; [|done]. apply added_Some. eauto.
Qed.

Lemma unsummarised_txns E q :
  queue_inv E [] q → total (uncounted_txns q <$> queue_entries q) = map_sum proof_txns (unsummarised q).
Proof.
  intros Hq. pose proof (qo_trees _ _ _ (qi_ok _ _ _ Hq)) as Htr. unfold queue_entries.
  rewrite (trees_entries _ _ Htr). rewrite <- (map_sum_related (λ b, uncounted_txns q (sort_key b, b)) _ E).
  - rewrite map_sum_list. f_equal. rewrite <- !list_fmap_compose. done.
  - intros k p [Hp Hn]%map_lookup_filter_Some. destruct (live_agreed _ _ _ _ _ Hq Hp) as (HE & Hk & _).
    exists (pos_info p). split; [done|]. unfold uncounted_txns. cbn. apply live_Some in Hp.
    simpl in Hn. by rewrite Hk, Hn, Hp.
  - intros k b Hb Hnone. destruct (tro_all _ _ Htr k b Hb) as [Hk _]. unfold uncounted_txns. cbn. rewrite Hk.
    destruct (pq_batch_summaries q !! k) eqn:Hs; [done|].
    destruct (pq_batch_to_proof q !! k) as [[p|]|] eqn:Hp; [|done..]. apply live_Some in Hp.
    unfold unsummarised in Hnone. rewrite map_lookup_filter_None in Hnone. destruct Hnone as [Hn|Hn]; [congruence|]. by destruct (Hn p Hp).
Qed.

Lemma remaining_spec E q T C Z :
  queue_inv E [] q → load_le T C Z q → T + Z ≤ u64_max →
  remaining_txns_and_proofs q =
    Ok (N.of_nat (size (summarised q)) + map_sum proof_txns (unsummarised q), N.of_nat (size (live q))).
Proof.
  intros Hq [L1 L2 L3] Hle. unfold remaining_txns_and_proofs, remaining_txns_without_duplicates.
  pose proof (map_sum_filter proof_txns (λ kp : QueueKey * ProofOfStore, pq_batch_summaries q !! kp.1 = None) (live q))
    as Hu. change (filter _ (live q)) with (unsummarised q) in Hu.
  rewrite <- (unsummarised_txns E q Hq) in Hu |- *. rewrite sum_u64_fits by lia. cbn [mbind result_bind].
  rewrite <- (summarised_occurrences E q Hq), size_dom.
  assert (Hs : N.of_nat (size (pq_txn_summary_num_occurrences q)) ≤ Z).
  { etrans; [apply (tallied_size _ _ (qi_tallies _ _ _ Hq))|]. etrans; [by apply added_size|done]. }
  rewrite add_u64_fits by lia. cbn [mbind result_bind]. do 2 f_equal.
  rewrite (co_proofs _ _ (qi_counts _ _ _ Hq)). apply map_sum_size.
Qed.

(** ** Runs *)

Definition op_agreed (op : QueueOp) : Prop :=
  match op with
  | OpPush p _ => agreed (pos_info p)
  | OpSummaries l _ => Forall (λ x, agreed x.1) l
  | OpTimestamp _ => True
  | OpCommit l => Forall agreed l
  end.

Definition op_txns (op : QueueOp) : N := match op with OpPush p _ => proof_txns p | _ => 0 end.
Definition op_proofs (op : QueueOp) : N := match op with OpPush _ _ => 1 | _ => 0 end.
Definition op_summaries (op : QueueOp) : N := match op with OpSummaries l _ => summaries_size l | _ => 0 end.

(** Block timestamps do not decrease. *)
Fixpoint timestamps_from (t : N) (ops : list QueueOp) : Prop :=
  match ops with
  | [] => True
  | OpTimestamp ts :: ops => t ≤ ts ∧ timestamps_from ts ops
  | _ :: ops => timestamps_from t ops
  end.

Definition timestamp_after (t : N) (op : QueueOp) : N := match op with OpTimestamp ts => ts | _ => t end.

Lemma queue_step_spec E q T C Z op :
  queue_inv E [] q → load_le T C Z q → op_agreed op → timestamps_from (pq_latest_block_timestamp q) [op] →
  T + op_txns op ≤ u64_max → C + op_proofs op ≤ u64_max → Z + op_summaries op ≤ u64_max →
  ∃ q' E', queue_step op q = Ok q' ∧ queue_inv E' [] q' ∧
    load_le (T + op_txns op) (C + op_proofs op) (Z + op_summaries op) q' ∧
    pq_latest_block_timestamp q' = timestamp_after (pq_latest_block_timestamp q) op.
Proof.
  intros Hq Hlo Hag Hts HT HC HZ.
  destruct op as [p now|l now|ts|l]; cbn [queue_step op_txns op_proofs op_summaries timestamp_after] in *;
    rewrite ?N.add_0_r in *.
  - by apply push_spec with E.
  - destruct (add_batch_summaries_spec E q T C Z l now Hq Hlo Hag HZ) as (q' & ?). by exists q', E.
  - destruct Hts as [Hts _]. by apply handle_updated_block_timestamp_spec with E.
  - destruct (mark_committed_spec E q T C Z l Hq Hlo Hag) as (q' & ?). by exists q', E.
Qed.

Lemma queue_run_spec E q T C Z ops :
  queue_inv E [] q → load_le T C Z q → Forall op_agreed ops →
  timestamps_from (pq_latest_block_timestamp q) ops →
  T + total (op_txns <$> ops) ≤ u64_max → C + total (op_proofs <$> ops) ≤ u64_max →
  Z + total (op_summaries <$> ops) ≤ u64_max →
  ∃ q' E', queue_run ops q = Ok q' ∧ queue_inv E' [] q' ∧
    load_le (T + total (op_txns <$> ops)) (C + total (op_proofs <$> ops)) (Z + total (op_summaries <$> ops)) q' ∧
    pq_latest_block_timestamp q' = foldl timestamp_after (pq_latest_block_timestamp q) ops.
Proof.
  intros Hq Hlo Hag. revert E q T C Z Hq Hlo.
  induction Hag as [|op ops Hop Hag IH]; intros E q T C Z Hq Hlo Hts HT HC HZ; unfold queue_run; cbn [try_fold].
  { exists q, E. by rewrite !N.add_0_r. }
  rewrite total_cons in *. rewrite (total_cons op_proofs) in *. rewrite (total_cons op_summaries) in *.
  destruct (queue_step_spec E q T C Z op) as (q1 & E1 & -> & Hq1 & Hlo1 & Ht1); [done..| |lia|lia|lia|].
  { destruct op; simpl in *; naive_solver. }
  cbn [mbind result_bind foldl]. rewrite !N.add_assoc, <- Ht1. apply (IH E1); [done|done| |lia..].
  rewrite Ht1. destruct op; simpl in *; tauto.
Qed.

(** C35: The counters of the proof queue are exact. Over any run of its operations, with
    batches whose authors number them apart and block timestamps that do not
    decrease, nothing panics; the counters are the numbers of live proofs and of
    their transactions, in total and of this node; every live proof is unexpired;
    and the remaining transactions reported to back pressure are the distinct
    transactions known to be in live proofs plus the sizes of the live proofs whose
    transactions are not known. *)
Theorem queue_counters_exact me ops :
  Forall op_agreed ops → timestamps_from 0 ops →
  total (op_proofs <$> ops) ≤ u64_max →
  total (op_txns <$> ops) + total (op_summaries <$> ops) ≤ u64_max →
  ∃ q, queue_run ops (ProofQueue_new me) = Ok q ∧ counts (live q) q ∧
    (∀ k p, live q !! k = Some p → queue_key (pos_info p) = k ∧
       pq_latest_block_timestamp q < bin_expiration (pos_info p)) ∧
    remaining_txns_and_proofs q =
      Ok (N.of_nat (size (summarised q)) + map_sum proof_txns (unsummarised q), N.of_nat (size (live q))).
Proof.
  intros Hag Hts HC HTZ. destruct (queue_inv_new me) as [Hq Hlo].
  destruct (queue_run_spec ∅ _ 0 0 0 ops Hq Hlo Hag Hts) as (q & E & Hr & Hq' & Hlo' & _); [lia..|].
  exists q. split; [done|]. split; [apply Hq'|]. split; [|by eapply remaining_spec].
  intros k p Hp. destruct (live_agreed _ _ _ _ _ Hq' Hp) as (HE & Hk & _). split; [done|].
  destruct (qo_waits _ _ _ (qi_ok _ _ _ Hq') _ _ HE) as [Hin|Hin]; [|set_solver].
  by apply (qo_heap _ _ _ (qi_ok _ _ _ Hq')) in Hin as [? _].
Qed.

(** ** Batches numbered alike *)



End invariant.

End queue.
