(* ===== verification/ProofManager.v ===== *)
(** * The proof manager of the quorum store

    consensus/src/quorum_store/proof_manager.rs: the queue of batches without a
    proof, and the manager that answers a leader's request for a payload from
    the queue of proofs (ProofQueue.v) and from it.  The theorems: a pull of
    proofs ends, respects its limits, takes every proof once, and takes all of
    them when it says that the queue is fully used; a payload stays within the
    limits of the request, its soft limit up to a proof of each author; back pressure follows the exact load of the queue. *)

From S2P Require Import Prelude Gaptos Types Bytes Certificates Payloads Blocks ConsensusDb BatchStore ProofQueue.

(** ** Batches without a proof *)

Section manager.
Context {GA : Gaptos} {VE : Verifier} {CR : Crypto} {DT : DbTypes} {SD : SchemaDb} {QT : QuorumStoreTypes}.

(** [BatchQueue]; the store it shares is an argument of the operation that reads it. *)
Definition BatchQueue : Type := gmap Author BatchTree.

Definition add_batch (batch : BatchInfo) (q : BatchQueue) : BatchQueue :=
  <[bin_author batch := tree_insert (sort_key batch) batch (default [] (q !! bin_author batch))]> q.

Definition add_batches (batches : list BatchInfo) (q : BatchQueue) : BatchQueue :=
  foldl (λ q batch, add_batch batch q) q batches.

Definition remove_batch (batch : BatchInfo) (q : BatchQueue) : BatchQueue :=
  alter (tree_remove (sort_key batch)) (bin_author batch) q.

(** [is_expired], at the time [now] in microseconds. *)
Definition is_expired (now : N) (batch : BatchInfo) : bool := bin_expiration batch <? now.

(** The clock is read for every batch; [now] gives the time it shows for each. *)
Definition remove_expired_batches (now : BatchInfo → N) (q : BatchQueue) : BatchQueue :=
  filter (λ e : BatchSortKey * BatchInfo, is_expired (now e.2) e.2 = false) <$> q.

Definition BatchQueue_len (q : BatchQueue) : result Anyhow N :=
  sum_u64 ((λ al, N.of_nat (length al.2)) <$> map_to_list q).

Record InlineState := {
  il_result : list (BatchInfo * list SignedTransaction);
  il_num_txns : N;
  il_num_bytes : N;
  il_full : bool;
}.

Definition inline_full (st : InlineState) : InlineState :=
  {| il_result := il_result st; il_num_txns := il_num_txns st; il_num_bytes := il_num_bytes st;
     il_full := true |}.

(** [num_txns + batch.num_txns() <= max_txns && num_bytes + batch.num_bytes() <= max_bytes] *)
Definition inline_fits (max_txns max_bytes : N) (batch : BatchInfo) (st : InlineState)
    : result Anyhow bool :=
  txns ← add_u64 (il_num_txns st) (bin_num_txns batch);
  if txns <=? max_txns then
    bytes ← add_u64 (il_num_bytes st) (bin_num_bytes batch);
    Ok (bytes <=? max_bytes)
  else Ok false.

(** A batch that fits is taken if its transactions are in the store. *)
Definition take_batch (store : BatchStore) (batch : BatchInfo) (st : InlineState) : result Anyhow InlineState :=
  match get_batch_from_local (batch_key batch) store with
  | Ok value =>
      match pev_maybe_payload value with
      | Some txns =>
          num_txns ← add_u64 (il_num_txns st) (bin_num_txns batch);
          num_bytes ← add_u64 (il_num_bytes st) (bin_num_bytes batch);
          Ok {| il_result := il_result st ++ [(batch, txns)]; il_num_txns := num_txns;
                il_num_bytes := num_bytes; il_full := il_full st |}
      | None => Ok st
      end
  | Err _ => Ok st
  | Panic m => Panic m
  end.

Fixpoint inline_round (store : BatchStore) (max_txns max_bytes : N) (excluded : list BatchInfo)
    (iters : list BatchTree) (st : InlineState) : result Anyhow (list BatchTree * InlineState) :=
  match iters with
  | [] => Ok ([], st)
  | iter :: iters =>
      if il_full st then inline_round store max_txns max_bytes excluded iters st
      else
        match iter with
        | [] => inline_round store max_txns max_bytes excluded iters st
        | (_, batch) :: iter =>
            if bool_decide (batch ∈ excluded) then
              rest ← inline_round store max_txns max_bytes excluded iters st;
              Ok (iter :: rest.1, rest.2)
            else
              fits ← inline_fits max_txns max_bytes batch st;
              if fits : bool then
                st ← take_batch store batch st;
                rest ← inline_round store max_txns max_bytes excluded iters st;
                Ok (iter :: rest.1, rest.2)
              else inline_round store max_txns max_bytes excluded iters (inline_full st)
        end
  end.

Fixpoint inline_rounds (shuffle : nat → list BatchTree → list BatchTree) (fuel round : nat)
    (store : BatchStore) (max_txns max_bytes : N) (excluded : list BatchInfo)
    (iters : list BatchTree) (st : InlineState) : result Anyhow InlineState :=
  match iters with
  | [] => Ok st
  | _ =>
      match fuel with
      | O => Panic "out of fuel"
      | S fuel =>
          r ← inline_round store max_txns max_bytes excluded (shuffle round iters) st;
          inline_rounds shuffle fuel (S round) store max_txns max_bytes excluded r.1 r.2
      end
  end.

Definition inline_start : InlineState :=
  {| il_result := []; il_num_txns := 0; il_num_bytes := 0; il_full := false |}.

Definition pull_batches (shuffle : nat → list BatchTree → list BatchTree) (store : BatchStore)
    (max_txns max_bytes : N) (excluded_batches : list BatchInfo) (q : BatchQueue)
    : result Anyhow (list (BatchInfo * list SignedTransaction)) :=
  let iters := reverse <$> (map_to_list q).*2 in
  st ← inline_rounds shuffle (S (length (concat iters))) 0 store max_txns max_bytes
         excluded_batches iters inline_start;
  Ok (il_result st).

(** ** The manager *)

Record ProofManager := {
  pm_proofs_for_consensus : ProofQueue;
  pm_batch_queue : BatchQueue;
  pm_back_pressure_total_txn_limit : N;
  pm_remaining_total_txn_num : N;
  pm_back_pressure_total_proof_limit : N;
  pm_remaining_total_proof_num : N;
  pm_allow_batches_without_pos_in_proposal : bool;
}.

Definition ProofManager_new (my_peer_id : Author) (txn_limit proof_limit : N) (allow : bool) : ProofManager :=
  {| pm_proofs_for_consensus := ProofQueue_new my_peer_id; pm_batch_queue := ∅;
     pm_back_pressure_total_txn_limit := txn_limit; pm_remaining_total_txn_num := 0;
     pm_back_pressure_total_proof_limit := proof_limit; pm_remaining_total_proof_num := 0;
     pm_allow_batches_without_pos_in_proposal := allow |}.

(** New queues, and the remaining numbers read from the queue of proofs. *)
Definition update_remaining (proofs : ProofQueue) (batches : BatchQueue) (pm : ProofManager)
    : result Anyhow ProofManager :=
  remaining ← remaining_txns_and_proofs proofs;
  Ok {| pm_proofs_for_consensus := proofs; pm_batch_queue := batches;
        pm_back_pressure_total_txn_limit := pm_back_pressure_total_txn_limit pm;
        pm_remaining_total_txn_num := remaining.1;
        pm_back_pressure_total_proof_limit := pm_back_pressure_total_proof_limit pm;
        pm_remaining_total_proof_num := remaining.2;
        pm_allow_batches_without_pos_in_proposal := pm_allow_batches_without_pos_in_proposal pm |}.

(** Each proof comes with the time of the sampled collection, if it runs. *)
Definition receive_proofs (proofs : list (ProofOfStore * option N)) (pm : ProofManager)
    : result Anyhow ProofManager :=
  r ← try_fold (λ qs pn, q ← push pn.1 pn.2 qs.1; Ok (q, remove_batch (pos_info pn.1) qs.2))
        (pm_proofs_for_consensus pm, pm_batch_queue pm) proofs;
  update_remaining r.1 r.2 pm.

Definition receive_batches (batch_summaries : list (BatchInfo * list TxnSummaryWithExpiration))
    (now : option N) (pm : ProofManager) : result Anyhow ProofManager :=
  let batches :=
    if pm_allow_batches_without_pos_in_proposal pm
    then add_batches batch_summaries.*1 (pm_batch_queue pm) else pm_batch_queue pm in
  q ← add_batch_summaries batch_summaries now (pm_proofs_for_consensus pm);
  update_remaining q batches pm.

Definition handle_commit_notification (block_timestamp : N) (batches : list BatchInfo)
    (now : BatchInfo → N) (pm : ProofManager) : result Anyhow ProofManager :=
  let queue := foldl (λ q batch, remove_batch batch q) (remove_expired_batches now (pm_batch_queue pm)) batches in
  q ← mark_committed batches (pm_proofs_for_consensus pm);
  q ← handle_updated_block_timestamp block_timestamp q;
  update_remaining q queue pm.

(** [PayloadFilter]; the transactions of the first are not read here. *)
Inductive PayloadFilter :=
| FilterDirectMempool
| FilterInQuorumStore (proofs : list BatchInfo)
| FilterEmpty.

Record GetPayloadRequest := {
  gpr_max_txns : N;
  gpr_max_txns_after_filtering : N;
  gpr_soft_max_txns_after_filtering : N;
  gpr_max_bytes : N;
  gpr_max_inline_txns : N;
  gpr_max_inline_bytes : N;
  gpr_return_non_full : bool;
  gpr_filter : PayloadFilter;
  gpr_block_timestamp_secs : N;
}.

Definition excluded_of (f : PayloadFilter) : result Anyhow (list BatchInfo) :=
  match f with
  | FilterEmpty => Ok []
  | FilterDirectMempool => Panic "internal error: entered unreachable code"
  | FilterInQuorumStore proofs => Ok proofs
  end.

Definition request_limits (excluded : list BatchInfo) (msg : GetPayloadRequest) : PullLimits :=
  {| lm_excluded_batches := excluded; lm_max_txns := gpr_max_txns msg;
     lm_max_txns_after_filtering := gpr_max_txns_after_filtering msg;
     lm_soft_max_txns_after_filtering := gpr_soft_max_txns_after_filtering msg;
     lm_max_bytes := gpr_max_bytes msg; lm_block_timestamp_secs := gpr_block_timestamp_secs msg |}.

Definition proof_bytes (p : ProofOfStore) : N := bin_num_bytes (pos_info p).

(** The payload sent back; [shuffle] and [inline_shuffle] are the orders the two
    pulls visit the authors in. *)
Definition handle_proposal_request (shuffle inline_shuffle : nat → list BatchTree → list BatchTree)
    (store : BatchStore) (msg : GetPayloadRequest) (pm : ProofManager) : result Anyhow Payload :=
  excluded ← excluded_of (gpr_filter msg);
  pulled ← pull_proofs shuffle (request_limits excluded msg) (gpr_return_non_full msg)
             (pm_proofs_for_consensus pm);
  let '(proof_block, cur_unique_txns, proof_queue_fully_utilized) := pulled in
  _ ← BatchQueue_len (pm_batch_queue pm);
  cur_all_txns ← sum_u64 (proof_txns <$> proof_block);
  cur_bytes ← sum_u64 (proof_bytes <$> proof_block);
  inline_block ←
    (if pm_allow_batches_without_pos_in_proposal pm && proof_queue_fully_utilized then
       bytes_left ← sub_u64 (gpr_max_bytes msg) cur_bytes;
       pull_batches inline_shuffle store
         (N.min (N.min (gpr_max_txns msg - cur_all_txns) (gpr_max_txns_after_filtering msg - cur_unique_txns))
            (gpr_max_inline_txns msg))
         (N.min bytes_left (gpr_max_inline_bytes msg))
         (excluded ++ (pos_info <$> proof_block)) (pm_batch_queue pm)
     else Ok []);
  _ ← sum_u64 ((λ b : BatchInfo * list SignedTransaction, N.of_nat (length b.2)) <$> inline_block);
  Ok (match proof_block, inline_block with
      | [], [] => Payload_empty true (pm_allow_batches_without_pos_in_proposal pm)
      | _, [] => InQuorumStore {| pwd_proofs := proof_block |}
      | _, _ => QuorumStoreInlineHybrid inline_block {| pwd_proofs := proof_block |} None
      end).

Record BackPressure := { bpr_txn_count : bool; bpr_proof_count : bool }.

#[global] Instance BackPressure_eqdec : EqDecision BackPressure.
Proof. solve_decision. Defined.

Definition qs_back_pressure (pm : ProofManager) : BackPressure :=
  {| bpr_txn_count := pm_back_pressure_total_txn_limit pm <? pm_remaining_total_txn_num pm;
     bpr_proof_count := pm_back_pressure_total_proof_limit pm <? pm_remaining_total_proof_num pm |}.

(** ** The loop *)

(** A message, with what the handler takes from the clock and the random number
    generator. *)
Inductive ManagerMsg :=
| GetPayload (msg : GetPayloadRequest) (shuffle inline_shuffle : nat → list BatchTree → list BatchTree)
| ReceiveProofs (proofs : list (ProofOfStore * option N))
| ReceiveBatches (batch_summaries : list (BatchInfo * list TxnSummaryWithExpiration)) (now : option N)
| CommitNotification (block_timestamp : N) (batches : list BatchInfo) (now : BatchInfo → N).

(** The state of [start]: the manager, the last back pressure it knows of, what it
    has sent on [back_pressure_tx], and the payloads it has answered with. *)
Record ManagerLoop := {
  ml_manager : ProofManager;
  ml_back_pressure : BackPressure;
  ml_sent : list BackPressure;
  ml_payloads : list Payload;
}.

Definition ManagerLoop_new (pm : ProofManager) : ManagerLoop :=
  {| ml_manager := pm; ml_back_pressure := {| bpr_txn_count := false; bpr_proof_count := false |};
     ml_sent := []; ml_payloads := [] |}.

(** What follows every message: the back pressure is sent when it changed. *)
Definition update_back_pressure (pm : ProofManager) (payloads : list Payload) (ml : ManagerLoop) : ManagerLoop :=
  let updated := qs_back_pressure pm in
  if bool_decide (updated = ml_back_pressure ml)
  then {| ml_manager := pm; ml_back_pressure := ml_back_pressure ml; ml_sent := ml_sent ml; ml_payloads := payloads |}
  else {| ml_manager := pm; ml_back_pressure := updated; ml_sent := ml_sent ml ++ [updated]; ml_payloads := payloads |}.

(** The body of the loop; [store] is the batch store when the message is handled. *)
Definition handle_message (store : BatchStore) (msg : ManagerMsg) (ml : ManagerLoop) : result Anyhow ManagerLoop :=
  let pm := ml_manager ml in
  match msg with
  | GetPayload msg shuffle inline_shuffle =>
      payload ← handle_proposal_request shuffle inline_shuffle store msg pm;
      Ok (update_back_pressure pm (ml_payloads ml ++ [payload]) ml)
  | ReceiveProofs proofs =>
      pm ← receive_proofs proofs pm;
      Ok (update_back_pressure pm (ml_payloads ml) ml)
  | ReceiveBatches batch_summaries now =>
      pm ← receive_batches batch_summaries now pm;
      Ok (update_back_pressure pm (ml_payloads ml) ml)
  | CommitNotification block_timestamp batches now =>
      pm ← handle_commit_notification block_timestamp batches now pm;
      Ok (update_back_pressure pm (ml_payloads ml) ml)
  end.

Definition manager_loop_run (msgs : list (BatchStore * ManagerMsg)) (ml : ManagerLoop) : result Anyhow ManagerLoop :=
  try_fold (λ ml sm, handle_message sm.1 sm.2 ml) ml msgs.

End manager.

(** ** Counting unique transactions *)

Section pull.
Context {GA : Gaptos}.
Implicit Types (F X Y : gset TxnSummaryWithExpiration) (e : BatchSortKey * BatchInfo) (ps : PullState).

(** The transactions of [X] that are not filtered by [F] and not expired. *)
Definition fresh_txns (secs : N) F X : gset TxnSummaryWithExpiration :=
  filter (λ t, unexpired secs t = true) (X ∖ F).

Lemma elem_of_fresh secs F X t : t ∈ fresh_txns secs F X ↔ unexpired secs t = true ∧ t ∈ X ∧ t ∉ F.
Proof. unfold fresh_txns. rewrite elem_of_filter, elem_of_difference. done. Qed.

Lemma fresh_empty secs F : fresh_txns secs F ∅ = ∅.
Proof. apply set_eq. intros t. rewrite elem_of_fresh. set_solver. Qed.

Lemma count_inserting_spec secs F l :
  count_inserting secs F l = (N.of_nat (size (fresh_txns secs F (list_to_set l))), list_to_set l ∪ F).
Proof.
  revert F. induction l as [|t l IH]; intros F; simpl.
  { rewrite fresh_empty, size_empty. f_equal. set_solver. }
  rewrite IH. f_equal; [|set_solver].
  destruct (bool_decide (t ∉ F) && unexpired secs t) eqn:Hb.
  - apply andb_true_iff in Hb as [Ht%bool_decide_eq_true Hu].
    assert (fresh_txns secs F ({[t]} ∪ list_to_set l) = {[t]} ∪ fresh_txns secs ({[t]} ∪ F) (list_to_set l)) as ->.
    { apply set_eq. intros x. rewrite elem_of_union, !elem_of_fresh, elem_of_singleton.
      destruct (decide (x = t)); set_solver. }
    rewrite size_union, size_singleton; [lia|]. intros x ->%elem_of_singleton. rewrite elem_of_fresh. set_solver.
  - f_equal. f_equal. apply set_eq. intros x. rewrite !elem_of_fresh.
    apply andb_false_iff in Hb as [Hb|Hb].
    + apply bool_decide_eq_false, dec_stable in Hb. set_solver.
    + destruct (decide (x = t)); [|set_solver]. subst. rewrite Hb. naive_solver.
Qed.

(** Repeated transactions count once when a batch is taken, and more than once when
    its size is tested. *)
Lemma fresh_le_unfiltered secs F l :
  N.of_nat (size (fresh_txns secs F (list_to_set l))) ≤ count_unfiltered secs F l.
Proof.
  unfold count_unfiltered. set (l' := filter _ l).
  assert (fresh_txns secs F (list_to_set l) = list_to_set l') as ->.
  { apply set_eq. intros t. rewrite elem_of_fresh, !elem_of_list_to_set. unfold l'.
    rewrite list_elem_of_filter. naive_solver. }
  pose proof (size_list_to_set_le l'). lia.
Qed.

Lemma fresh_le_size secs F l : N.of_nat (size (fresh_txns secs F (list_to_set l))) ≤ list_size l.
Proof.
  etrans; [apply fresh_le_unfiltered|]. unfold count_unfiltered, list_size.
  pose proof (length_filter (λ t, (t ∉ F) ∧ unexpired secs t = true) l). lia.
Qed.

Lemma fresh_union secs F X Y :
  N.of_nat (size (fresh_txns secs F X)) + N.of_nat (size (fresh_txns secs (X ∪ F) Y))
  = N.of_nat (size (fresh_txns secs F (X ∪ Y))).
Proof.
  rewrite <- Nat2N.inj_add, <- size_union; [|intros t; rewrite !elem_of_fresh; set_solver].
  do 2 f_equal. apply set_eq. intros t. rewrite elem_of_union, !elem_of_fresh, !elem_of_union.
  destruct (decide (t ∈ X)); naive_solver.
Qed.

(** ** One pull *)

Section one_pull.
Context (q : ProofQueue) (lm : PullLimits).

Definition entry_summaries e : gset TxnSummaryWithExpiration :=
  match pq_batch_summaries q !! bsk_batch_key e.1 with Some x => list_to_set x.1.1 | None => ∅ end.

(** The transactions of an entry without summaries. *)
Definition entry_unknown e : N :=
  match pq_batch_summaries q !! bsk_batch_key e.1 with Some _ => 0 | None => bin_num_txns e.2 end.

(** A bound on the unique transactions of an entry. *)
Definition entry_weight e : N :=
  match pq_batch_summaries q !! bsk_batch_key e.1 with Some x => list_size x.1.1 | None => bin_num_txns e.2 end.

(** The unique unexpired transactions of a list of entries, beside the excluded ones. *)
Definition unique_txns (l : list (BatchSortKey * BatchInfo)) : N :=
  N.of_nat (size (fresh_txns (lm_block_timestamp_secs lm) (excluded_summaries q (lm_excluded_batches lm))
                    (⋃ (entry_summaries <$> l))))
  + total (entry_unknown <$> l).

Definition entry_proof e : option ProofOfStore :=
  match pq_batch_to_proof q !! bsk_batch_key e.1 with Some (Some p) => Some p | _ => None end.

Definition eligible e : Prop := (e.2 ∉ lm_excluded_batches lm) ∧ is_Some (entry_proof e).

(** No sum over the entries overflows. *)
Record pull_room : Prop := {
  prm_txns : total ((λ e, bin_num_txns e.2) <$> queue_entries q) ≤ u64_max;
  prm_bytes : total ((λ e, bin_num_bytes e.2) <$> queue_entries q) ≤ u64_max;
  prm_weight : total (entry_weight <$> queue_entries q) ≤ u64_max;
}.

Definition entry_authors (l : list (BatchSortKey * BatchInfo)) : list Author := (λ e, bin_author e.2) <$> l.

(** The soft limit: the entries taken [above] it are of different authors, whose
    iterators are gone, and the pull is full. *)
Record soft_split (pulled rest : list (BatchSortKey * BatchInfo)) ps below above : Prop := {
  sfs_pulled : pulled = below ++ above;
  sfs_below : below = [] ∨ unique_txns below < lm_soft_max_txns_after_filtering lm;
  sfs_authors : NoDup (entry_authors above);
  sfs_gone a : a ∈ entry_authors above → a ∉ entry_authors rest;
  sfs_reached : above ≠ [] → lm_soft_max_txns_after_filtering lm ≤ pl_cur_unique_txns ps ∧ pl_full ps = true;
}.

(** The entries [pulled] so far, and those still in the iterators. *)
Record pull_inv (pulled rest : list (BatchSortKey * BatchInfo)) ps : Prop := {
  pin_sub : pulled ++ rest ⊆+ queue_entries q;
  pin_ret : entry_proof <$> pulled = Some <$> pl_ret ps;
  pin_eligible : Forall eligible pulled;
  pin_bytes : pl_cur_bytes ps = total ((λ e, bin_num_bytes e.2) <$> pulled);
  pin_max_bytes : pl_cur_bytes ps ≤ lm_max_bytes lm;
  pin_txns : pl_cur_all_txns ps = total ((λ e, bin_num_txns e.2) <$> pulled);
  pin_max_txns : pl_cur_all_txns ps ≤ lm_max_txns lm;
  pin_unique : pl_cur_unique_txns ps = unique_txns pulled;
  pin_max_unique : pl_cur_unique_txns ps ≤ lm_max_txns_after_filtering lm;
  pin_weight : pl_cur_unique_txns ps ≤ total (entry_weight <$> pulled);
  pin_filtered : pl_filtered_txns ps
    = ⋃ (entry_summaries <$> pulled) ∪ excluded_summaries q (lm_excluded_batches lm);
  pin_excluded : pl_excluded_txns ps + total ((λ e, bin_num_txns e.2) <$> rest)
    ≤ total ((λ e, bin_num_txns e.2) <$> queue_entries q);
  pin_complete : pl_full ps = false → ∀ e, e ∈ queue_entries q → eligible e → e ∈ pulled ∨ e ∈ rest;
  pin_soft : ∃ below above, soft_split pulled rest ps below above;
}.

Lemma pull_inv_start rest : rest ≡ₚ queue_entries q → pull_inv [] rest (pull_start q lm).
Proof.
  intros Hp. split; simpl; try done; try lia.
  - by rewrite Hp.
  - unfold unique_txns. simpl. by rewrite fresh_empty.
  - set_solver.
  - by rewrite Hp.
  - intros _ e He _. right. by rewrite Hp.
  - exists [], []. split; [done|by left|constructor|set_solver|done].
Qed.

Lemma soft_split_rest pulled rest rest' ps below above :
  rest' ⊆ rest → soft_split pulled rest ps below above → soft_split pulled rest' ps below above.
Proof.
  intros Hs []. split; try done. intros a Ha Hin. apply (sfs_gone0 a Ha). unfold entry_authors in *. set_solver.
Qed.

(** Entries of the iterators can be dropped when the pull is full. *)
Lemma pull_inv_rest pulled rest rest' ps :
  pull_inv pulled rest ps → rest' ⊆+ rest → pl_full ps = true ∨ rest' ≡ₚ rest → pull_inv pulled rest' ps.
Proof.
  intros [] Hs Hor. split; try done.
  - etrans; [|done]. by apply submseteq_skips_l.
  - pose proof (total_submseteq ((λ e, bin_num_txns e.2) <$> rest') ((λ e, bin_num_txns e.2) <$> rest)) as Ht.
    etrans; [|done]. apply N.add_le_mono_l, Ht. by apply fmap_submseteq.
  - intros Hf. destruct Hor as [?|Hp]; [congruence|]. intros e He Hel.
    destruct (pin_complete0 Hf e He Hel); [by left|right]. by rewrite Hp.
  - destruct pin_soft0 as (below & above & Hb). exists below, above. eapply soft_split_rest; [|done].
    intros e He. by eapply elem_of_submseteq.
Qed.

Lemma pull_inv_perm pulled rest rest' ps :
  rest' ≡ₚ rest → pull_inv pulled rest ps → pull_inv pulled rest' ps.
Proof. intros Hp Hinv. apply (pull_inv_rest _ rest); [done|by rewrite Hp|by right]. Qed.

Lemma take_unique_spec e F :
  take_unique_txns q (lm_block_timestamp_secs lm) e F
  = (N.of_nat (size (fresh_txns (lm_block_timestamp_secs lm) F (entry_summaries e))) + entry_unknown e,
     entry_summaries e ∪ F).
Proof.
  unfold take_unique_txns, entry_summaries, entry_unknown.
  destruct (pq_batch_summaries q !! bsk_batch_key e.1) as [[[l x] b]|]; simpl.
  - rewrite count_inserting_spec. f_equal. lia.
  - rewrite fresh_empty, size_empty. f_equal. set_solver.
Qed.

Lemma take_unique_le e F :
  (take_unique_txns q (lm_block_timestamp_secs lm) e F).1 ≤ unique_txns_of q (lm_block_timestamp_secs lm) e F ∧
  unique_txns_of q (lm_block_timestamp_secs lm) e F ≤ entry_weight e.
Proof.
  unfold take_unique_txns, unique_txns_of, entry_weight.
  destruct (pq_batch_summaries q !! bsk_batch_key e.1) as [[[l x] b]|]; simpl; [|lia].
  rewrite count_inserting_spec. simpl. split; [apply fresh_le_unfiltered|].
  unfold count_unfiltered, list_size.
  pose proof (length_filter (λ t, (t ∉ F) ∧ unexpired (lm_block_timestamp_secs lm) t = true) l). lia.
Qed.

Lemma unique_txns_snoc l e :
  unique_txns (l ++ [e]) =
  unique_txns l + (take_unique_txns q (lm_block_timestamp_secs lm) e
                     (⋃ (entry_summaries <$> l) ∪ excluded_summaries q (lm_excluded_batches lm))).1.
Proof.
  rewrite take_unique_spec. unfold unique_txns. rewrite !fmap_app, total_app, union_list_app_L. simpl.
  rewrite (right_id_L ∅ (∪)), <- fresh_union. lia.
Qed.

Context (Hroom : pull_room).

Lemma pull_inv_fits pulled rest e ps :
  pull_inv pulled (e :: rest) ps →
  pl_cur_bytes ps + bin_num_bytes e.2 ≤ u64_max ∧ pl_cur_all_txns ps + bin_num_txns e.2 ≤ u64_max ∧
  pl_cur_unique_txns ps + entry_weight e ≤ u64_max ∧ pl_excluded_txns ps + bin_num_txns e.2 ≤ u64_max.
Proof using Hroom.
  intros [Hsub ? ? Hb ? Ht ? ? ? Hw ? Hex ? ?]. destruct Hroom as [R1 R2 R3].
  assert (Hf : ∀ f : BatchSortKey * BatchInfo → N, total (f <$> queue_entries q) ≤ u64_max →
    total (f <$> pulled) + f e ≤ u64_max).
  { intros f Hf. etrans; [|exact Hf]. etrans; [|by apply total_submseteq, fmap_submseteq].
    rewrite fmap_app, total_app, total_cons. lia. }
  rewrite Hb, Ht. rewrite total_cons in Hex. split; [by apply Hf|]. split; [by apply Hf|]. split; [|lia].
  pose proof (Hf entry_weight R3). lia.
Qed.

(** A taken entry is below the soft limit or the last one of its author. *)
Lemma soft_split_take pulled rest rest' ps ps' e :
  (∃ below above, soft_split pulled (e :: rest) ps below above) → rest' ⊆ rest →
  pl_cur_unique_txns ps ≤ pl_cur_unique_txns ps' → pl_cur_unique_txns ps' = unique_txns (pulled ++ [e]) →
  (lm_soft_max_txns_after_filtering lm ≤ pl_cur_unique_txns ps' →
     pl_full ps' = true ∧ bin_author e.2 ∉ entry_authors rest') →
  ∃ below above, soft_split (pulled ++ [e]) rest' ps' below above.
Proof.
  intros (below & above & [-> Hb Hnd Hg Hr]) Hs Hle Hu Hsoft.
  assert (Hg' : ∀ a, a ∈ entry_authors above → a ≠ bin_author e.2 ∧ a ∉ entry_authors rest').
  { intros a Ha. specialize (Hg a Ha). unfold entry_authors in *. set_solver. }
  destruct (decide (lm_soft_max_txns_after_filtering lm ≤ pl_cur_unique_txns ps')) as [Hge|Hlt].
  - destruct (Hsoft Hge) as [Hf Ha]. exists below, (above ++ [e]). split; [by rewrite app_assoc|done| | |done].
    + unfold entry_authors. rewrite fmap_app. apply NoDup_app. split; [done|]. split; [|apply NoDup_singleton].
      intros a Ha' ->%list_elem_of_singleton. by destruct (Hg' _ Ha').
    + intros a. unfold entry_authors. rewrite fmap_app, elem_of_app. intros [Ha'|Ha']; [by apply Hg'|].
      simpl in Ha'. by apply list_elem_of_singleton in Ha' as ->.
  - assert (above = []) as -> by (destruct above; [done|]; destruct Hr; [done|lia]).
    exists (below ++ [e]), []. rewrite app_nil_r in *. split; [by rewrite app_nil_r|right; lia|constructor|set_solver|done].
Qed.

Lemma take_proof_spec pulled iter others e p ps :
  pull_inv pulled (e :: iter ++ others) ps → bin_author e.2 ∉ entry_authors others → eligible e → entry_proof e = Some p →
  pl_cur_bytes ps + bin_num_bytes e.2 ≤ lm_max_bytes lm → pl_cur_all_txns ps + bin_num_txns e.2 ≤ lm_max_txns lm →
  pl_cur_unique_txns ps + unique_txns_of q (lm_block_timestamp_secs lm) e (pl_filtered_txns ps)
    ≤ lm_max_txns_after_filtering lm →
  ∃ ps' b, take_proof q lm e p ps = Ok (ps', b) ∧ pull_inv (pulled ++ [e]) ((if b then iter else []) ++ others) ps'.
Proof using Hroom.
  intros Hinv Hot Hel Hp Hb Ht Hu. destruct (pull_inv_fits _ _ _ _ Hinv) as (F1 & F2 & F3 & _).
  destruct (take_unique_le e (pl_filtered_txns ps)) as [U1 U2].
  unfold take_proof. rewrite !add_u64_fits by lia. simpl. set (done := _ || (lm_soft_max_txns_after_filtering lm <=? _)).
  do 2 eexists. split; [done|]. set (rest := (if negb done then iter else []) ++ others).
  assert (Hsub : rest ⊆+ iter ++ others) by (unfold rest; destruct done; [by apply submseteq_inserts_l|done]).
  assert (Htx : total ((λ e, bin_num_txns e.2) <$> rest) ≤ total ((λ e, bin_num_txns e.2) <$> iter ++ others)).
  { by apply total_submseteq, fmap_submseteq. }
  assert (Hcut : pulled ++ e :: rest ⊆+ pulled ++ e :: iter ++ others).
  { by apply submseteq_skips_l, submseteq_skip. }
  destruct Hinv. split; simpl; try lia.
  - rewrite <- app_assoc. by etrans.
  - rewrite !fmap_app, pin_ret0. simpl. by rewrite Hp.
  - by apply Forall_app_2; [|constructor].
  - rewrite fmap_app, total_app. simpl. lia.
  - rewrite fmap_app, total_app. simpl. lia.
  - rewrite unique_txns_snoc, <- pin_filtered0. lia.
  - rewrite fmap_app, total_app. simpl. lia.
  - rewrite take_unique_spec, pin_filtered0, fmap_app, union_list_app_L. simpl. set_solver.
  - rewrite total_cons in pin_excluded0. lia.
  - intros [Hf Hd]%orb_false_iff e' He' Hel'. unfold rest. rewrite Hd. simpl.
    destruct (pin_complete0 Hf e' He' Hel'); set_solver.
  - eapply (soft_split_take pulled (iter ++ others)); [done|intros x Hx; by eapply elem_of_submseteq|simpl; lia| |].
    { simpl. rewrite unique_txns_snoc, <- pin_filtered0. lia. }
    intros Hge%N.leb_le. simpl in Hge. assert (done = true) as Hd by (unfold done; by rewrite Hge, orb_true_r).
    unfold rest. rewrite Hd. simpl. by rewrite orb_true_r.
Qed.

Lemma pull_inv_skip pulled rest e ps : ¬ eligible e → pull_inv pulled (e :: rest) ps → pull_inv pulled rest ps.
Proof.
  intros Hn []. split; try done.
  - etrans; [|done]. apply submseteq_app; [done|]. by apply submseteq_cons.
  - rewrite total_cons in pin_excluded0. lia.
  - intros Hf e' He' Hel'. destruct (pin_complete0 Hf e' He' Hel'); set_solver.
  - destruct pin_soft0 as (below & above & Hb). exists below, above. eapply soft_split_rest; [|done]. set_solver.
Qed.

(** An entry that is left out can end the pull of its author. *)
Lemma pull_inv_full pulled rest ps : pull_inv pulled rest ps → pull_inv pulled rest (set_full ps).
Proof.
  intros []. split; try done. destruct pin_soft0 as (below & above & []). exists below, above.
  split; try done. intros Hne. split; [by apply sfs_reached0|done].
Qed.

Lemma pull_entry_spec pulled iter others e ps :
  pull_inv pulled (e :: iter ++ others) ps → bin_author e.2 ∉ entry_authors others →
  ∃ ps' b pulled', pull_entry q lm e ps = Ok (ps', b) ∧ pull_inv pulled' ((if b then iter else []) ++ others) ps'.
Proof using Hroom.
  intros Hinv Hot. destruct (pull_inv_fits _ _ _ _ Hinv) as (F1 & F2 & F3 & F4).
  destruct (take_unique_le e (pl_filtered_txns ps)) as [_ U2].
  unfold pull_entry. case_bool_decide as Hex.
  { rewrite add_u64_fits by lia. simpl. do 3 eexists. split; [done|]. simpl.
    assert (Hn : ¬ eligible e) by (by intros [? _]). destruct (pull_inv_skip _ _ _ _ Hn Hinv). destruct Hinv.
    split; simpl; try done; [rewrite total_cons in pin_excluded1; lia|].
    destruct pin_soft0 as (below & above & []). exists below, above. by split. }
  destruct (pq_batch_to_proof q !! bsk_batch_key e.1) as [[p|]|] eqn:Hp.
  2,3: do 3 eexists; split; [done|]; apply (pull_inv_skip _ _ e); [|done]; intros [_ [p Hp']];
    unfold entry_proof in Hp'; by rewrite Hp in Hp'.
  assert (He : entry_proof e = Some p) by (unfold entry_proof; by rewrite Hp).
  assert (Hel : eligible e) by (split; eauto).
  assert (Hfull : ∃ ps' b pulled', Ok (E:=Anyhow) (set_full ps, false) = Ok (ps', b) ∧
    pull_inv pulled' ((if b then iter else []) ++ others) ps').
  { do 3 eexists. split; [done|]. eapply (pull_inv_rest _ (e :: iter ++ others)); [by apply pull_inv_full| |by left].
    simpl. by apply submseteq_cons, submseteq_inserts_l. }
  unfold exceeds_limits. rewrite !add_u64_fits by lia. simpl.
  destruct ((lm_max_bytes lm <? _) || _) eqn:Hov; simpl; [done|].
  destruct (N.ltb_spec (lm_max_txns lm) (pl_cur_all_txns ps + bin_num_txns e.2)); [done|].
  apply orb_false_iff in Hov as [H1%N.ltb_ge H2%N.ltb_ge].
  destruct (take_proof_spec pulled iter others e p ps) as (ps' & b & ? & ?); [done..|]. by exists ps', b, (pulled ++ [e]).
Qed.

(** The iterators are of different authors. *)
Fixpoint apart (iters : list BatchTree) : Prop :=
  match iters with
  | [] => True
  | iter :: iters =>
      (∀ e, e ∈ iter → bin_author e.2 ∉ entry_authors (concat iters)) ∧ apart iters
  end.

Lemma apart_perm iters iters' : iters ≡ₚ iters' → apart iters → apart iters'.
Proof.
  induction 1 as [|i l l' Hp IH|i j l|]; simpl; [done| | |tauto].
  - intros [Hi Hl]. split; [|by apply IH]. intros e He. unfold entry_authors. rewrite <- Hp. by apply Hi.
  - intros (Hj & Hi & Hl). unfold entry_authors in *. split; [|split; [|done]].
    + intros e He Hin. rewrite fmap_app, elem_of_app in Hin. destruct Hin as [Hin|Hin]; [|by apply (Hi e)].
      apply list_elem_of_fmap in Hin as (e' & Heq & He'). apply (Hj e' He'). rewrite fmap_app, elem_of_app. left.
      rewrite <- Heq. by apply (list_elem_of_fmap_2 (λ e, bin_author e.2)).
    + intros e He Hin. apply (Hj e He). rewrite fmap_app, elem_of_app. by right.
Qed.

Lemma pull_round_spec iters pulled extra ps :
  pull_inv pulled (concat iters ++ extra) ps → apart iters →
  (∀ e, e ∈ concat iters → bin_author e.2 ∉ entry_authors extra) →
  ∃ iters' ps' pulled', pull_round q lm iters ps = Ok (iters', ps') ∧ pull_inv pulled' (concat iters' ++ extra) ps' ∧
    (length (concat iters') + length iters' ≤ length (concat iters))%nat ∧ apart iters' ∧ concat iters' ⊆ concat iters.
Proof using Hroom.
  revert pulled extra ps. induction iters as [|[|e iter] iters IH]; intros pulled extra ps Hinv Hap Hex.
  - by exists [], ps, pulled.
  - destruct Hap as [_ Hap]. by apply (IH pulled).
  - simpl in *. destruct Hap as [Hiter Hap].
    assert (Hi : ∀ x, x ∈ e :: iter → bin_author x.2 ∉ entry_authors (concat iters ++ extra)).
    { intros x Hx. unfold entry_authors. rewrite fmap_app, not_elem_of_app. split; [by apply Hiter|apply Hex; set_solver]. }
    rewrite <- app_assoc in Hinv.
    destruct (pull_entry_spec pulled iter (concat iters ++ extra) e ps Hinv) as (ps1 & b & pulled1 & -> & Hinv1);
      [apply Hi; set_solver|].
    cbn [mbind result_bind fst snd].
    destruct (IH pulled1 ((if b then iter else []) ++ extra) ps1)
      as (iters' & ps' & pulled' & -> & Hinv' & Hlen & Hap' & Hsub); [|done| |].
    { eapply pull_inv_perm; [|done]. by rewrite Permutation_app_swap_app. }
    { intros x Hx. unfold entry_authors. rewrite fmap_app, not_elem_of_app. split; [|apply Hex; set_solver].
      intros (y & Heq & Hy)%list_elem_of_fmap. apply (Hiter y); [destruct b; set_solver|]. rewrite <- Heq.
      by apply (list_elem_of_fmap_2 (λ e, bin_author e.2)). }
    cbn [mbind result_bind fst snd]. exists (if b then iter :: iters' else iters'), ps', pulled'. split; [by destruct b|]. split.
    + eapply pull_inv_perm; [|done]. destruct b; simpl; [|done]. by rewrite <- app_assoc, (Permutation_app_swap_app iter).
    + split; [destruct b; simpl; rewrite ?length_app; simpl; lia|]. destruct b; simpl; [|set_solver]. split; [|set_solver].
      split; [|done]. intros x Hx Hin. apply (Hiter x); [set_solver|]. unfold entry_authors in *. set_solver.
Qed.

(** Enough rounds end the pull, with every iterator empty or dropped. *)
Lemma pull_rounds_spec shuffle fuel round iters pulled ps :
  (∀ n l, shuffle n l ≡ₚ l) → (length (concat iters) < fuel)%nat → apart iters → pull_inv pulled (concat iters) ps →
  ∃ ps' pulled', pull_rounds shuffle fuel round q lm iters ps = Ok ps' ∧ pull_inv pulled' [] ps'.
Proof using Hroom.
  intros Hsh. revert round iters pulled ps. induction fuel as [|fuel IH]; intros round iters pulled ps Hlen Hap Hinv; [lia|].
  destruct iters as [|i iters]; [by exists ps, pulled|]. set (iters0 := i :: iters) in *. cbn [pull_rounds].
  assert (Hperm : concat (shuffle round iters0) ≡ₚ concat iters0) by (by rewrite Hsh).
  destruct (pull_round_spec (shuffle round iters0) pulled [] ps) as (iters' & ps' & pulled' & Hr & Hinv' & Hlen' & Hap' & _).
  { rewrite app_nil_r. eapply pull_inv_perm; [|done]. done. }
  { eapply apart_perm; [|exact Hap]. by rewrite Hsh. }
  { intros e _. apply not_elem_of_nil. }
  unfold iters0 at 1. rewrite Hr. cbn [mbind result_bind fst snd]. rewrite app_nil_r in Hinv'. rewrite Hperm in Hlen'.
  destruct iters' as [|i' iters']; [exists ps', pulled'; by destruct fuel|].
  apply (IH _ _ pulled'); [|done|done]. assert (1 ≤ length (i' :: iters'))%nat by (simpl; lia). lia.
Qed.

End one_pull.

(** ** The sort *)

Lemma insert_by_bucket_perm p l : insert_by_bucket p l ≡ₚ p :: l.
Proof.
  induction l as [|x l IH]; simpl; [done|]. destruct (_ <=? _); [done|]. rewrite IH. by constructor.
Qed.

Lemma sort_by_bucket_perm l : sort_by_bucket l ≡ₚ l.
Proof. induction l as [|p l IH]; simpl; [done|]. by rewrite insert_by_bucket_perm, IH. Qed.

Definition bucket_order (p p' : ProofOfStore) : Prop :=
  bin_gas_bucket_start (pos_info p') ≤ bin_gas_bucket_start (pos_info p).

Lemma sort_by_bucket_sorted l : StronglySorted bucket_order (sort_by_bucket l).
Proof.
  induction l as [|p l IH]; simpl; [constructor|].
  induction IH as [|x l' Hl IH' Hx]; simpl; [repeat constructor|].
  destruct (N.leb_spec (bin_gas_bucket_start (pos_info x)) (bin_gas_bucket_start (pos_info p))) as [Hle|Hlt].
  - constructor; [by constructor|]. constructor; [done|].
    eapply Forall_impl; [done|]. unfold bucket_order. simpl. lia.
  - constructor; [done|]. rewrite insert_by_bucket_perm. constructor; [unfold bucket_order; lia|done].
Qed.

(** ** What a pull returns *)

Definition proof_entry (p : ProofOfStore) : BatchSortKey * BatchInfo := (sort_key (pos_info p), pos_info p).

(** Distinct live proofs that are not excluded, within the limits, in descending
    order of their gas buckets, with [n] unique transactions. *)
Record pulled_ok (q : ProofQueue) (lm : PullLimits) (l : list ProofOfStore) (n : N) : Prop := {
  pok_distinct : NoDup ((λ p, queue_key (pos_info p)) <$> l);
  pok_live p : p ∈ l → live q !! queue_key (pos_info p) = Some p ∧ pos_info p ∉ lm_excluded_batches lm;
  pok_bytes : total (proof_bytes <$> l) ≤ lm_max_bytes lm;
  pok_txns : total (proof_txns <$> l) ≤ lm_max_txns lm;
  pok_unique : n = unique_txns q lm (proof_entry <$> l);
  pok_max_unique : n ≤ lm_max_txns_after_filtering lm;
  pok_soft : ∃ below above, l ≡ₚ below ++ above ∧
    (below = [] ∨ unique_txns q lm (proof_entry <$> below) < lm_soft_max_txns_after_filtering lm) ∧
    NoDup ((λ p, bin_author (pos_info p)) <$> above);
  pok_sorted : StronglySorted bucket_order l;
}.

Section pulled.
Context (info_of : QueueKey → BatchInfo) (E : gmap QueueKey BatchInfo) (q : ProofQueue) (lm : PullLimits).
Context (Hq : queue_inv info_of E [] q).

Lemma queue_entries_spec e :
  e ∈ queue_entries q ↔ e.1 = sort_key e.2 ∧ E !! queue_key e.2 = Some e.2.
Proof using Hq.
  unfold queue_entries. rewrite (trees_entries _ _ (qo_trees _ _ _ (qi_ok _ _ _ _ Hq))), list_elem_of_fmap.
  split.
  - intros ([k b] & -> & Hb%elem_of_map_to_list). simpl. split; [done|].
    by destruct (tro_all _ _ (qo_trees _ _ _ (qi_ok _ _ _ _ Hq)) _ _ Hb) as [-> _].
  - intros [Hk HE]. exists (queue_key e.2, e.2). rewrite elem_of_map_to_list. destruct e. simpl in *. by subst.
Qed.

Lemma queue_entries_NoDup : NoDup (queue_entries q).
Proof using Hq.
  unfold queue_entries. rewrite (trees_entries _ _ (qo_trees _ _ _ (qi_ok _ _ _ _ Hq))).
  apply NoDup_fmap_2_strong; [|apply NoDup_map_to_list].
  intros [k1 b1] [k2 b2] H1%elem_of_map_to_list H2%elem_of_map_to_list Heq. simpl in Heq.
  assert (b1 = b2) as -> by congruence.
  pose proof (tro_all _ _ (qo_trees _ _ _ (qi_ok _ _ _ _ Hq))) as Hall.
  destruct (Hall _ _ H1) as [<- _], (Hall _ _ H2) as [<- _]. done.
Qed.

Lemma entry_proof_live e p :
  e ∈ queue_entries q → entry_proof q e = Some p → e = proof_entry p ∧ live q !! queue_key (pos_info p) = Some p.
Proof using Hq.
  intros [Hk HE]%queue_entries_spec Hp. unfold entry_proof in Hp. rewrite Hk in Hp. cbn in Hp.
  destruct (pq_batch_to_proof q !! queue_key e.2) as [[p'|]|] eqn:Hb; try done. injection Hp as ->.
  pose proof (qo_live _ _ _ (qi_ok _ _ _ _ Hq) _ _ Hb) as HE'. assert (e.2 = pos_info p) as Hi by congruence.
  rewrite <- Hi. split; [destruct e; unfold proof_entry; simpl in *; congruence|by apply live_Some].
Qed.

Lemma pulled_entries pulled ret :
  pulled ⊆ queue_entries q → entry_proof q <$> pulled = Some <$> ret →
  pulled = proof_entry <$> ret ∧ ∀ p, p ∈ ret → live q !! queue_key (pos_info p) = Some p.
Proof using Hq.
  revert ret. induction pulled as [|e l IH]; intros [|p ret] Hsub Heq; try done; [split; [done|set_solver]|].
  simpl in *. injection Heq as Hp Heq. destruct (entry_proof_live e p) as [-> Hl]; [set_solver|done|].
  destruct (IH ret) as [-> Hall]; [set_solver|done|]. split; [done|].
  intros p' [->|?]%elem_of_cons; auto.
Qed.

Lemma unique_txns_perm l l' : l ≡ₚ l' → unique_txns q lm l = unique_txns q lm l'.
Proof.
  intros Hp. unfold unique_txns. by rewrite Hp.
Qed.

Lemma concat_pull_iters : concat (pull_iters q) ≡ₚ queue_entries q.
Proof.
  unfold pull_iters, queue_entries. induction (map_to_list _) as [|[a l] ls IH]; [done|]. simpl.
  by rewrite reverse_Permutation, IH.
Qed.

Lemma pull_inv_ok pulled ps :
  pull_inv q lm pulled [] ps → pulled_ok q lm (sort_by_bucket (pl_ret ps)) (pl_cur_unique_txns ps).
Proof using Hq.
  intros [Hsub Hret Hel Hb Hmb Ht Hmt Hu Hmu _ _ _ _ Hsoft]. rewrite app_nil_r in Hsub.
  assert (Hin : pulled ⊆ queue_entries q) by (intros e He; by eapply elem_of_submseteq).
  destruct (pulled_entries pulled (pl_ret ps) Hin Hret) as [Hpe Hlive].
  pose proof (sort_by_bucket_perm (pl_ret ps)) as Hp. split.
  - rewrite Hp. apply NoDup_fmap_2_strong.
    + intros p p' H1%Hlive H2%Hlive Heq. congruence.
    + apply (NoDup_fmap_1 proof_entry). rewrite <- Hpe.
      destruct (submseteq_Permutation _ _ Hsub) as [k Hk]. pose proof queue_entries_NoDup as Hnd.
      rewrite Hk in Hnd. by apply NoDup_app in Hnd as (? & _).
  - intros p Hp'. rewrite Hp in Hp'. split; [auto|]. rewrite Forall_forall in Hel.
    destruct (Hel (proof_entry p)) as [? _]; [rewrite Hpe; by apply list_elem_of_fmap_2|done].
  - rewrite Hp. rewrite Hb, Hpe in Hmb. rewrite <- list_fmap_compose in Hmb. done.
  - rewrite Hp. rewrite Ht, Hpe in Hmt. rewrite <- list_fmap_compose in Hmt. done.
  - rewrite Hu. apply unique_txns_perm. by rewrite Hp, Hpe.
  - done.
  - destruct Hsoft as (below & above & [Hsp Hbelow Hnd _ _]). rewrite Hpe in Hsp.
    apply fmap_app_inv in Hsp as (l1 & l2 & -> & -> & Hret'). rewrite Hret' in Hp |- *. exists l1, l2. split; [done|].
    split; [destruct Hbelow as [Hnil|]; [left; by destruct l1|by right]|].
    unfold entry_authors in Hnd. by rewrite <- list_fmap_compose in Hnd.
  - apply sort_by_bucket_sorted.
Qed.

(** A pull that is not full is below the soft limit. *)
Lemma pull_inv_not_full pulled ps :
  pull_inv q lm pulled [] ps → pl_full ps = false →
  pl_ret ps = [] ∨ pl_cur_unique_txns ps < lm_soft_max_txns_after_filtering lm.
Proof.
  intros [_ Hret _ _ _ _ _ Hu _ _ _ _ _ (below & above & [-> Hb _ _ Hr])] Hf.
  assert (above = []) as -> by (destruct above; [done|]; destruct Hr; [done|congruence]).
  rewrite app_nil_r in *. destruct Hb as [->|Hb]; [left; by destruct (pl_ret ps)|right; lia].
Qed.

(** The iterators of a pull are of different authors. *)
Lemma pull_iters_apart : apart (pull_iters q).
Proof using Hq.
  pose proof (tro_entry _ _ (qo_trees _ _ _ (qi_ok _ _ _ _ Hq))) as Hent.
  assert (Hall : ∀ a l, (a, l) ∈ map_to_list (pq_author_to_batches q) → ∀ e, e ∈ l → bin_author e.2 = a).
  { intros a l Hin e He. apply elem_of_map_to_list in Hin. by destruct (Hent _ _ _ Hin He) as (_ & ? & _). }
  unfold pull_iters. pose proof (NoDup_fst_map_to_list (pq_author_to_batches q)) as Hnd. revert Hall Hnd.
  generalize (map_to_list (pq_author_to_batches q)). intros ls. induction ls as [|[a l] ls IH]; simpl; [done|]. intros Hall [Ha Hnd]%NoDup_cons.
  split; [|apply IH; [|done]; intros; eapply Hall; [by right|done]].
  intros e He (e' & Heq & Hin)%list_elem_of_fmap. rewrite elem_of_reverse in He. apply list_elem_of_In, in_concat in Hin as (t & Ht & He').
  apply list_elem_of_In in Ht, He'. apply list_elem_of_fmap in Ht as (l' & -> & Hl'). rewrite elem_of_reverse in He'.
  apply list_elem_of_fmap in Hl' as ([a' l''] & -> & Hl''). apply Ha.
  rewrite <- (Hall a l ltac:(left) e He), Heq, (Hall a' l'' ltac:(by right) e' He').
  by apply (list_elem_of_fmap_2 fst _ (a', l'')).
Qed.

Lemma pulled_total (f : BatchInfo → N) pulled ps :
  pull_inv q lm pulled [] ps → total ((λ p, f (pos_info p)) <$> pl_ret ps) ≤ total ((λ e, f e.2) <$> queue_entries q).
Proof using Hq.
  intros [Hsub Hret _ _ _ _ _ _ _ _ _ _ _ _]. rewrite app_nil_r in Hsub.
  destruct (pulled_entries pulled (pl_ret ps)) as [Hpe _]; [intros e He; by eapply elem_of_submseteq|done|].
  etrans; [|by apply total_submseteq, (fmap_submseteq (λ e, f e.2))]. by rewrite Hpe, <- list_fmap_compose.
Qed.

(** A pull returns; when it returns what it pulled, that is within the limits; and
    all that could be pulled is there if the queue is reported fully used. *)
Lemma pull_proofs_spec shuffle return_non_full :
  (∀ n l, shuffle n l ≡ₚ l) → pull_room q →
  ∃ l n all, pull_proofs shuffle lm return_non_full q = Ok (l, n, all) ∧ pulled_ok q lm l n ∧
    (all = true → return_non_full = false → l = [] ∧ n = 0) ∧
    (all = true → l = [] ∨ n < lm_soft_max_txns_after_filtering lm) ∧
    (all = true → return_non_full = true → ∀ k p, live q !! k = Some p →
       pos_info p ∉ lm_excluded_batches lm → p ∈ l).
Proof using Hq.
  intros Hsh Hroom. unfold pull_proofs.
  destruct (pull_rounds_spec q lm Hroom shuffle (S (length (concat (pull_iters q)))) 0 (pull_iters q) []
    (pull_start q lm) Hsh) as (ps & pulled & -> & Hinv); [lia|apply pull_iters_apart|apply pull_inv_start, concat_pull_iters|].
  cbn [mbind result_bind]. pose proof (pull_inv_ok pulled ps Hinv) as Hok.
  destruct (pl_full ps || return_non_full) eqn:Hf.
  - unfold log_remaining_data_after_pull. rewrite !sum_u64_fits; cycle 1.
    { etrans; [|apply (prm_txns q Hroom)]. by apply total_submseteq, fmap_submseteq, sublist_submseteq, sublist_filter. }
    { etrans; [by eapply (pulled_total bin_num_txns)|apply Hroom]. }
    cbn [mbind result_bind]. do 3 eexists. split; [done|]. split; [done|]. split.
    { intros Hall ->. rewrite orb_false_r in Hf. by rewrite Hf in Hall. }
    split.
    { intros Hall%negb_true_iff. destruct (pull_inv_not_full pulled ps Hinv Hall) as [->|]; [by left|by right]. }
    intros Hall%negb_true_iff _ k p Hp Hex. destruct (live_agreed _ _ _ _ _ _ Hq Hp) as (HE & Hk & _).
    rewrite sort_by_bucket_perm.
    destruct Hinv as [Hsub Hret _ _ _ _ _ _ _ _ _ _ Hc _].
    destruct (pulled_entries pulled (pl_ret ps)) as [Hpe Hl]; [rewrite app_nil_r in Hsub; intros e He; by eapply elem_of_submseteq|done|].
    destruct (Hc Hall (proof_entry p)) as [Hin|Hin]; [| |rewrite Hpe in Hin|set_solver].
    + apply queue_entries_spec. cbn. by rewrite Hk.
    + split; [done|]. unfold entry_proof. cbn. apply live_Some in Hp. rewrite Hk, Hp. eauto.
    + apply list_elem_of_fmap in Hin as (p' & Heq & Hin). assert (pos_info p = pos_info p') as Hpi by (unfold proof_entry in Heq; congruence).
      apply Hl in Hin as Hl'. rewrite <- Hpi, Hk, Hp in Hl'. by injection Hl' as ->.
  - do 3 eexists. split; [done|]. apply orb_false_iff in Hf as [Hf ->]. split; [|split; [done|split; [by left|done]]].
    split; try done; simpl; try lia; [constructor|set_solver| | |constructor].
    + unfold unique_txns. simpl. by rewrite fresh_empty.
    + exists [], []. split; [done|]. split; [by left|constructor].
Qed.

End pulled.

End pull.

(** ** Inline batches *)

Section inline.
Context {GA : Gaptos} {VE : Verifier} {CR : Crypto} {DT : DbTypes} {SD : SchemaDb} {QT : QuorumStoreTypes}.
Context (store : BatchStore) (max_txns max_bytes : N) (excluded : list BatchInfo) (q : BatchQueue).

Definition queued_batches : list BatchInfo := (map_to_list q ≫= snd).*2.

(** The transactions the store holds for a batch. *)
Definition stored_txns (b : BatchInfo) : option (list SignedTransaction) :=
  match get_batch_from_local (batch_key b) store with Ok v => pev_maybe_payload v | _ => None end.

Definition stored_len (b : BatchInfo) : N :=
  match stored_txns b with Some txns => N.of_nat (length txns) | None => 0 end.

(** The store answers, and no sum over the queue overflows. *)
Record inline_room : Prop := {
  irm_reads b m : get_batch_from_local (batch_key b) store ≠ Panic m;
  irm_count : N.of_nat (length queued_batches) ≤ u64_max;
  irm_txns : total (bin_num_txns <$> queued_batches) ≤ u64_max;
  irm_bytes : total (bin_num_bytes <$> queued_batches) ≤ u64_max;
  irm_len : total (stored_len <$> queued_batches) ≤ u64_max;
}.

(** The batches taken so far, with [rest] in the iterators. *)
Record inline_inv (rest : list BatchInfo) (st : InlineState) : Prop := {
  iin_sub : (il_result st).*1 ++ rest ⊆+ queued_batches;
  iin_stored b txns : (b, txns) ∈ il_result st → (b ∉ excluded) ∧ stored_txns b = Some txns;
  iin_txns : il_num_txns st = total (bin_num_txns <$> (il_result st).*1);
  iin_max_txns : il_num_txns st ≤ max_txns;
  iin_bytes : il_num_bytes st = total (bin_num_bytes <$> (il_result st).*1);
  iin_max_bytes : il_num_bytes st ≤ max_bytes;
}.

Lemma inline_inv_rest rest rest' st : inline_inv rest st → rest' ⊆+ rest → inline_inv rest' st.
Proof. intros [] Hs. split; try done. etrans; [|done]. by apply submseteq_skips_l. Qed.

Context (Hroom : inline_room).

Lemma inline_entry_spec rest b st :
  inline_inv (b :: rest) st → b ∉ excluded →
  ∃ fits, inline_fits max_txns max_bytes b st = Ok fits ∧
    (fits = true → ∃ st', take_batch store b st = Ok st' ∧ inline_inv rest st').
Proof using Hroom.
  intros Hinv Hb. assert (Hskip : inline_inv rest st) by (eapply inline_inv_rest; [done|by apply submseteq_cons]).
  destruct Hinv as [Hsub Hst Ht Hmt Hby Hmb], Hroom as [R1 _ R2 R3 _].
  assert (Hfit : ∀ f : BatchInfo → N, total (f <$> queued_batches) ≤ u64_max →
    total (f <$> (il_result st).*1) + f b ≤ u64_max).
  { intros f Hf. etrans; [|exact Hf]. etrans; [|by apply total_submseteq, fmap_submseteq].
    rewrite fmap_app, total_app, total_cons. lia. }
  pose proof (Hfit _ R2) as F1. pose proof (Hfit _ R3) as F2. rewrite <- Ht in F1. rewrite <- Hby in F2.
  unfold inline_fits. rewrite !add_u64_fits by done. cbn [mbind result_bind].
  destruct (N.leb_spec (il_num_txns st + bin_num_txns b) max_txns) as [Hle|]; [|by exists false].
  eexists. split; [done|]. intros Hle2%N.leb_le.
  unfold take_batch. destruct (get_batch_from_local (batch_key b) store) as [v|err|m] eqn:Hg; [|by exists st|by destruct (R1 b m)].
  destruct (pev_maybe_payload v) as [txns|] eqn:Hp; [|by exists st].
  rewrite !add_u64_fits by done. cbn [mbind result_bind]. eexists. split; [done|].
  split; simpl; rewrite ?fmap_app, ?total_app; simpl; try lia.
  - by rewrite <- app_assoc.
  - intros b' txns' [Hin|Hin]%elem_of_app; [by apply Hst|]. apply list_elem_of_singleton in Hin as [= -> ->].
    split; [done|]. unfold stored_txns. by rewrite Hg.
Qed.

Lemma inline_round_spec iters extra st :
  inline_inv ((concat iters).*2 ++ extra) st →
  ∃ iters' st', inline_round store max_txns max_bytes excluded iters st = Ok (iters', st') ∧
    inline_inv ((concat iters').*2 ++ extra) st' ∧
    (length (concat iters') + length iters' ≤ length (concat iters))%nat.
Proof using Hroom.
  revert extra st. induction iters as [|iter iters IH]; intros extra st Hinv; [by exists [], st|].
  cbn [inline_round concat] in *. rewrite fmap_app, <- app_assoc in Hinv.
  assert (Hdrop : ∀ st', inline_inv (iter.*2 ++ (concat iters).*2 ++ extra) st' →
    ∃ iters' st2, inline_round store max_txns max_bytes excluded iters st' = Ok (iters', st2) ∧
    inline_inv ((concat iters').*2 ++ extra) st2 ∧
    (length (concat iters') + length iters' ≤ length (iter ++ concat iters))%nat).
  { intros st' Hst'. destruct (IH extra st') as (iters' & st2 & ? & ? & ?).
    - eapply inline_inv_rest; [done|]. by apply submseteq_inserts_l.
    - exists iters', st2. rewrite length_app. split; [done|]. split; [done|lia]. }
  destruct (il_full st); [by apply Hdrop|]. destruct iter as [|[k b] iter]; [by apply Hdrop|].
  assert (Hkeep : ∀ st', inline_inv (iter.*2 ++ (concat iters).*2 ++ extra) st' →
    ∃ iters' st2, (rest ← inline_round store max_txns max_bytes excluded iters st'; Ok (iter :: rest.1, rest.2))
      = Ok (iters', st2) ∧
    inline_inv ((concat iters').*2 ++ extra) st2 ∧
    (length (concat iters') + length iters' ≤ length (((k, b) :: iter) ++ concat iters))%nat).
  { intros st' Hst'. destruct (IH (iter.*2 ++ extra) st') as (iters' & st2 & -> & Hinv' & Hlen).
    - eapply inline_inv_rest; [done|]. by rewrite (Permutation_app_swap_app (concat iters).*2).
    - cbn [mbind result_bind]. exists (iter :: iters'), st2. split; [done|]. split.
      + eapply inline_inv_rest; [done|]. cbn [concat]. rewrite fmap_app, <- app_assoc.
        by rewrite (Permutation_app_swap_app (concat iters').*2).
      + simpl. rewrite !length_app. lia. }
  simpl in Hinv. case_bool_decide as Hex.
  { apply Hkeep. eapply inline_inv_rest; [done|]. by apply submseteq_cons. }
  destruct (inline_entry_spec _ b st Hinv Hex) as (fits & -> & Hfits). cbn [mbind result_bind].
  destruct fits; [destruct (Hfits eq_refl) as (st' & -> & Hst'); by apply Hkeep|].
  apply Hdrop. destruct Hinv. by split.
Qed.

Lemma inline_rounds_spec shuffle fuel round iters st :
  (∀ n l, shuffle n l ≡ₚ l) → (length (concat iters) < fuel)%nat → inline_inv (concat iters).*2 st →
  ∃ st', inline_rounds shuffle fuel round store max_txns max_bytes excluded iters st = Ok st' ∧ inline_inv [] st'.
Proof using Hroom.
  intros Hsh. revert round iters st. induction fuel as [|fuel IH]; intros round iters st Hlen Hinv; [lia|].
  destruct iters as [|i iters]; [by exists st|]. set (iters0 := i :: iters) in *. cbn [inline_rounds].
  assert (Hperm : concat (shuffle round iters0) ≡ₚ concat iters0) by (by rewrite Hsh).
  destruct (inline_round_spec (shuffle round iters0) [] st) as (iters' & st' & Hr & Hinv' & Hlen').
  { rewrite app_nil_r. eapply inline_inv_rest; [done|]. by rewrite Hperm. }
  unfold iters0 at 1. rewrite Hr. cbn [mbind result_bind fst snd]. rewrite app_nil_r in Hinv'. rewrite Hperm in Hlen'.
  destruct iters' as [|i' iters']; [exists st'; by destruct fuel|].
  apply IH; [|done]. assert (1 ≤ length (i' :: iters'))%nat by (simpl; lia). lia.
Qed.

Lemma pull_batches_spec shuffle :
  (∀ n l, shuffle n l ≡ₚ l) →
  ∃ l, pull_batches shuffle store max_txns max_bytes excluded q = Ok l ∧ l.*1 ⊆+ queued_batches ∧
    (∀ b txns, (b, txns) ∈ l → (b ∉ excluded) ∧ stored_txns b = Some txns) ∧
    total (bin_num_txns <$> l.*1) ≤ max_txns ∧ total (bin_num_bytes <$> l.*1) ≤ max_bytes ∧
    total ((λ b : BatchInfo * list SignedTransaction, N.of_nat (length b.2)) <$> l) ≤ u64_max.
Proof using Hroom.
  intros Hsh. unfold pull_batches. set (iters := reverse <$> (map_to_list q).*2).
  assert (Hp : (concat iters).*2 ≡ₚ queued_batches).
  { unfold iters, queued_batches. induction (map_to_list q) as [|[a l] ls IH]; [done|].
    simpl. rewrite !fmap_app, reverse_Permutation. by rewrite IH. }
  destruct (inline_rounds_spec shuffle (S (length (concat iters))) 0 iters inline_start Hsh) as (st & -> & Hinv); [lia| |].
  { split; simpl; try done; try lia; [by rewrite Hp|set_solver]. }
  destruct Hinv as [Hsub Hst Ht Hmt Hb Hmb]. rewrite app_nil_r in Hsub. cbn [mbind result_bind].
  exists (il_result st). split; [done|]. split; [done|]. split; [done|]. split; [lia|]. split; [lia|].
  etrans; [|apply (irm_len Hroom)].
  etrans; [|by apply total_submseteq, (fmap_submseteq stored_len)]. apply N.eq_le_incl. f_equal.
  rewrite <- list_fmap_compose. apply list_fmap_ext. intros i [b txns] Hin%list_elem_of_lookup_2.
  destruct (Hst b txns Hin) as [_ Hs]. unfold stored_len. simpl. by rewrite Hs.
Qed.

End inline.

(** ** Runs of the manager *)

Section runs.
Context {GA : Gaptos} {VE : Verifier} {CR : Crypto} {DT : DbTypes} {SD : SchemaDb} {QT : QuorumStoreTypes}.
Context (info_of : QueueKey → BatchInfo).

(** What a message does to the queue of proofs. *)
Definition msg_ops (msg : ManagerMsg) : list QueueOp :=
  match msg with
  | GetPayload _ _ _ => []
  | ReceiveProofs proofs => (λ pn, OpPush pn.1 pn.2) <$> proofs
  | ReceiveBatches l now => [OpSummaries l now]
  | CommitNotification ts batches _ => [OpCommit batches; OpTimestamp ts]
  end.

Definition is_command (msg : ManagerMsg) : Prop := match msg with GetPayload _ _ _ => False | _ => True end.

Lemma queue_run_app ops1 ops2 (q : ProofQueue) :
  queue_run (ops1 ++ ops2) q = (q ← queue_run ops1 q; queue_run ops2 q).
Proof.
  unfold queue_run. revert q. induction ops1 as [|op ops1 IH]; intros q; simpl; [done|].
  destruct (queue_step op q); [apply IH|done..].
Qed.

Lemma receive_proofs_fold proofs (q : ProofQueue) (bq : BatchQueue) :
  try_fold (λ (qs : ProofQueue * BatchQueue) pn, q ← push pn.1 pn.2 qs.1; Ok (q, remove_batch (pos_info pn.1) qs.2)) (q, bq) proofs
  = (q ← queue_run ((λ pn, OpPush pn.1 pn.2) <$> proofs) q;
     Ok (q, foldl (λ bq (pn : ProofOfStore * option N), remove_batch (pos_info pn.1) bq) bq proofs)).
Proof.
  unfold queue_run. revert q bq. induction proofs as [|pn proofs IH]; intros q bq; [done|].
  cbn [try_fold fmap list_fmap queue_step foldl fst snd]. destruct (push pn.1 pn.2 q) as [q'|e|m]; [|done..].
  cbn [mbind result_bind fst snd]. apply IH.
Qed.

(** A command runs its operations on the queue of proofs and reads the remaining
    numbers. *)
Lemma handle_command_spec store msg ml :
  is_command msg → ∃ bq, handle_message store msg ml =
    (q ← queue_run (msg_ops msg) (pm_proofs_for_consensus (ml_manager ml));
     pm ← update_remaining q bq (ml_manager ml);
     Ok (update_back_pressure pm (ml_payloads ml) ml)).
Proof.
  intros Hc. destruct msg as [|proofs|l now|ts batches now]; [done|..]; unfold handle_message.
  - eexists. unfold receive_proofs. rewrite receive_proofs_fold. cbn [msg_ops].
    by destruct (queue_run _ _); cbn [mbind result_bind fst snd].
  - eexists. unfold receive_batches, queue_run. cbn [msg_ops try_fold queue_step].
    destruct (add_batch_summaries _ _ _); done.
  - eexists. unfold handle_commit_notification, queue_run. cbn [msg_ops try_fold queue_step].
    destruct (mark_committed _ _) as [q|e|m]; [|done..]. cbn [mbind result_bind].
    destruct (handle_updated_block_timestamp _ _); done.
Qed.

(** The manager keeps the invariant of its queue, knows the remaining numbers, and
    the receiver of the back pressure is up to date. *)
Record manager_inv (T C Z : N) (ml : ManagerLoop) : Prop := {
  mi_queue : ∃ E, queue_inv info_of E [] (pm_proofs_for_consensus (ml_manager ml));
  mi_load : load_le T C Z (pm_proofs_for_consensus (ml_manager ml));
  mi_remaining : remaining_txns_and_proofs (pm_proofs_for_consensus (ml_manager ml))
    = Ok (pm_remaining_total_txn_num (ml_manager ml), pm_remaining_total_proof_num (ml_manager ml));
  mi_current : ml_back_pressure ml = qs_back_pressure (ml_manager ml);
  mi_sent : ml_back_pressure ml
    = default {| bpr_txn_count := false; bpr_proof_count := false |} (last (ml_sent ml));
}.

Lemma manager_inv_new me txn_limit proof_limit allow :
  manager_inv 0 0 0 (ManagerLoop_new (ProofManager_new me txn_limit proof_limit allow)).
Proof.
  destruct (queue_inv_new info_of me) as [Hq Hlo]. split; simpl; [by eexists|done|done| |done].
  unfold qs_back_pressure. simpl. by destruct txn_limit, proof_limit.
Qed.

Lemma update_back_pressure_inv pm payloads ml :
  ml_back_pressure ml = default {| bpr_txn_count := false; bpr_proof_count := false |} (last (ml_sent ml)) →
  ml_manager (update_back_pressure pm payloads ml) = pm ∧
  ml_back_pressure (update_back_pressure pm payloads ml) = qs_back_pressure pm ∧
  ml_back_pressure (update_back_pressure pm payloads ml)
    = default {| bpr_txn_count := false; bpr_proof_count := false |} (last (ml_sent (update_back_pressure pm payloads ml))).
Proof.
  intros Hs. unfold update_back_pressure. case_bool_decide as Hb; simpl; [by rewrite Hb|].
  by rewrite last_snoc.
Qed.

Definition msgs_ops (msgs : list (BatchStore * ManagerMsg)) : list QueueOp := msgs ≫= λ sm, msg_ops sm.2.

Lemma timestamps_from_app t ops1 ops2 :
  timestamps_from t (ops1 ++ ops2) ↔ timestamps_from t ops1 ∧ timestamps_from (foldl timestamp_after t ops1) ops2.
Proof.
  revert t. induction ops1 as [|op ops1 IH]; intros t; simpl; [tauto|].
  destruct op; simpl; rewrite IH; tauto.
Qed.

Lemma handle_command_inv store msg ml T C Z :
  is_command msg → manager_inv T C Z ml → Forall (op_agreed info_of) (msg_ops msg) →
  timestamps_from (pq_latest_block_timestamp (pm_proofs_for_consensus (ml_manager ml))) (msg_ops msg) →
  T + total (op_txns <$> msg_ops msg) + (Z + total (op_summaries <$> msg_ops msg)) ≤ u64_max →
  C + total (op_proofs <$> msg_ops msg) ≤ u64_max →
  ∃ ml', handle_message store msg ml = Ok ml' ∧
    manager_inv (T + total (op_txns <$> msg_ops msg)) (C + total (op_proofs <$> msg_ops msg))
      (Z + total (op_summaries <$> msg_ops msg)) ml' ∧
    pq_latest_block_timestamp (pm_proofs_for_consensus (ml_manager ml'))
      = foldl timestamp_after (pq_latest_block_timestamp (pm_proofs_for_consensus (ml_manager ml))) (msg_ops msg) ∧
    pm_back_pressure_total_txn_limit (ml_manager ml') = pm_back_pressure_total_txn_limit (ml_manager ml) ∧
    pm_back_pressure_total_proof_limit (ml_manager ml') = pm_back_pressure_total_proof_limit (ml_manager ml).
Proof.
  intros Hc [(E & Hq) Hlo _ _ Hsent] Hag Hts HTZ HC. destruct (handle_command_spec store msg ml Hc) as [bq ->].
  destruct (queue_run_spec info_of E _ T C Z (msg_ops msg) Hq Hlo Hag Hts) as (q & E' & -> & Hq' & Hlo' & Ht);
    [lia..|]. cbn [mbind result_bind]. unfold update_remaining.
  rewrite (remaining_spec info_of E' q _ _ _ Hq' Hlo') by lia. cbn [mbind result_bind fst snd].
  set (pm := Build_ProofManager _ _ _ _ _ _ _).
  destruct (update_back_pressure_inv pm (ml_payloads ml) ml Hsent) as (Hm & Hb & Hs).
  eexists. split; [done|]. rewrite Hm. split; [|done].
  split; rewrite ?Hm; [by eexists|done| |done|done].
  apply (remaining_spec info_of E' q _ _ _ Hq' Hlo'). lia.
Qed.

Lemma manager_run_spec msgs ml T C Z :
  Forall (λ sm, is_command sm.2) msgs → manager_inv T C Z ml → Forall (op_agreed info_of) (msgs_ops msgs) →
  timestamps_from (pq_latest_block_timestamp (pm_proofs_for_consensus (ml_manager ml))) (msgs_ops msgs) →
  T + total (op_txns <$> msgs_ops msgs) + (Z + total (op_summaries <$> msgs_ops msgs)) ≤ u64_max →
  C + total (op_proofs <$> msgs_ops msgs) ≤ u64_max →
  ∃ ml', manager_loop_run msgs ml = Ok ml' ∧
    manager_inv (T + total (op_txns <$> msgs_ops msgs)) (C + total (op_proofs <$> msgs_ops msgs))
      (Z + total (op_summaries <$> msgs_ops msgs)) ml' ∧
    pm_back_pressure_total_txn_limit (ml_manager ml') = pm_back_pressure_total_txn_limit (ml_manager ml) ∧
    pm_back_pressure_total_proof_limit (ml_manager ml') = pm_back_pressure_total_proof_limit (ml_manager ml).
Proof.
  intros Hc. revert ml T C Z. induction Hc as [|[store msg] msgs Hm Hc IH]; intros ml T C Z Hinv Hag Hts HTZ HC.
  { exists ml. unfold manager_loop_run. simpl. by rewrite !N.add_0_r. }
  unfold msgs_ops in *. rewrite bind_cons in *. cbn [snd] in *.
  rewrite !fmap_app, !total_app in HTZ. rewrite fmap_app, total_app in HC. rewrite !fmap_app, !total_app.
  apply Forall_app in Hag as [Hag1 Hag2]. apply timestamps_from_app in Hts as [Hts1 Hts2].
  destruct (handle_command_inv store msg ml T C Z Hm Hinv Hag1 Hts1) as (ml1 & Hr & Hinv1 & Ht & Hl1 & Hl2); [lia..|].
  unfold manager_loop_run. cbn [try_fold fst snd]. rewrite Hr. cbn [mbind result_bind].
  destruct (IH ml1 _ _ _ Hinv1 Hag2) as (ml2 & ? & ? & ? & ?); [by rewrite Ht|lia|lia|].
  exists ml2. rewrite !N.add_assoc. split; [done|]. split; [done|]. split; congruence.
Qed.

(** Back pressure follows the exact load. After any commands about batches whose
    authors number them apart, with block timestamps that do not decrease, the last
    back pressure sent (or the initial one) says whether the distinct remaining
    transactions and the live proofs exceed the limits. *)
Theorem back_pressure_exact me txn_limit proof_limit allow msgs :
  Forall (λ sm, is_command sm.2) msgs → Forall (op_agreed info_of) (msgs_ops msgs) →
  timestamps_from 0 (msgs_ops msgs) → total (op_proofs <$> msgs_ops msgs) ≤ u64_max →
  total (op_txns <$> msgs_ops msgs) + total (op_summaries <$> msgs_ops msgs) ≤ u64_max →
  ∃ ml, manager_loop_run msgs (ManagerLoop_new (ProofManager_new me txn_limit proof_limit allow)) = Ok ml ∧
    let q := pm_proofs_for_consensus (ml_manager ml) in
    default {| bpr_txn_count := false; bpr_proof_count := false |} (last (ml_sent ml)) =
      {| bpr_txn_count :=
           txn_limit <? N.of_nat (size (summarised q)) + map_sum proof_txns (unsummarised q);
         bpr_proof_count := proof_limit <? N.of_nat (size (live q)) |}.
Proof.
  intros Hc Hag Hts HC HTZ.
  destruct (manager_run_spec msgs _ 0 0 0 Hc (manager_inv_new me txn_limit proof_limit allow) Hag Hts)
    as (ml & Hr & [(E & Hq) Hlo Hrem Hcur Hsent] & Hl1 & Hl2); [lia..|].
  exists ml. split; [done|]. cbv zeta. rewrite <- Hsent, Hcur. unfold qs_back_pressure. rewrite Hl1, Hl2. simpl.
  rewrite (remaining_spec info_of E _ _ _ _ Hq Hlo) in Hrem by lia. injection Hrem as <- <-. done.
Qed.

(** ** Proposals *)

Definition proposed_proofs (p : Payload) : list ProofOfStore :=
  match p with
  | InQuorumStore d => pwd_proofs d
  | QuorumStoreInlineHybrid _ d _ => pwd_proofs d
  | _ => []
  end.

Definition payload_inline (p : Payload) : list (BatchInfo * list SignedTransaction) :=
  match p with QuorumStoreInlineHybrid inline _ _ => inline | _ => [] end.

Definition inline_txns (p : Payload) : N := total (bin_num_txns <$> (payload_inline p).*1).
Definition inline_bytes (p : Payload) : N := total (bin_num_bytes <$> (payload_inline p).*1).

(** A payload that answers a request from a manager and a store. *)
Record proposal_ok (store : BatchStore) (msg : GetPayloadRequest) (excluded : list BatchInfo)
    (pm : ProofManager) (p : Payload) : Prop := {
  prok_proofs : ∃ n, pulled_ok (pm_proofs_for_consensus pm) (request_limits excluded msg) (proposed_proofs p) n ∧
    n + inline_txns p ≤ gpr_max_txns_after_filtering msg ∧
    (payload_inline p ≠ [] → proposed_proofs p = [] ∨ n < gpr_soft_max_txns_after_filtering msg);
  prok_queued : (payload_inline p).*1 ⊆+ queued_batches (pm_batch_queue pm);
  prok_inline b txns : (b, txns) ∈ payload_inline p →
    (b ∉ excluded) ∧ (b ∉ (pos_info <$> proposed_proofs p)) ∧ stored_txns store b = Some txns;
  prok_txns : total (proof_txns <$> proposed_proofs p) + inline_txns p ≤ gpr_max_txns msg;
  prok_bytes : total (proof_bytes <$> proposed_proofs p) + inline_bytes p ≤ gpr_max_bytes msg;
  prok_inline_txns : inline_txns p ≤ gpr_max_inline_txns msg;
  prok_inline_bytes : inline_bytes p ≤ gpr_max_inline_bytes msg;
  prok_complete : payload_inline p ≠ [] → gpr_return_non_full msg = true →
    ∀ k pr, live (pm_proofs_for_consensus pm) !! k = Some pr → pos_info pr ∉ excluded → pr ∈ proposed_proofs p;
}.

Lemma batch_queue_len store (bq : BatchQueue) : inline_room store bq → ∃ n, BatchQueue_len bq = Ok n.
Proof.
  intros [_ Hc _ _ _]. unfold BatchQueue_len. eexists. apply sum_u64_fits. etrans; [|exact Hc].
  unfold queued_batches. rewrite length_fmap. apply N.eq_le_incl.
  induction (map_to_list bq) as [|[a l] ls IH]; [done|]. rewrite total_cons, IH, bind_cons, length_app. simpl. lia.
Qed.

(** The payload that is made of proofs and inline batches. *)
Lemma payload_parts proof_block inline_block allow :
  let p := match proof_block, inline_block with
           | [], [] => Payload_empty true allow
           | _, [] => InQuorumStore {| pwd_proofs := proof_block |}
           | _, _ => QuorumStoreInlineHybrid inline_block {| pwd_proofs := proof_block |} None
           end in
  proposed_proofs p = proof_block ∧ payload_inline p = inline_block.
Proof. destruct proof_block, inline_block; by destruct allow. Qed.

Lemma handle_proposal_request_spec shuffle inline_shuffle store msg excluded pm E :
  queue_inv info_of E [] (pm_proofs_for_consensus pm) → pull_room (pm_proofs_for_consensus pm) →
  inline_room store (pm_batch_queue pm) → (∀ n l, shuffle n l ≡ₚ l) → (∀ n l, inline_shuffle n l ≡ₚ l) →
  excluded_of (gpr_filter msg) = Ok excluded →
  gpr_max_bytes msg ≤ u64_max → gpr_max_txns msg ≤ u64_max →
  ∃ p, handle_proposal_request shuffle inline_shuffle store msg pm = Ok p ∧ proposal_ok store msg excluded pm p.
Proof.
  intros Hq Hroom Hiroom Hs1 Hs2 Hex Hmb Hmt. unfold handle_proposal_request. rewrite Hex. cbn [mbind result_bind].
  destruct (pull_proofs_spec info_of E _ (request_limits excluded msg) Hq shuffle (gpr_return_non_full msg) Hs1 Hroom)
    as (l & n & all & -> & Hok & Hnone & Hsoft & Hall). cbn [mbind result_bind].
  destruct (batch_queue_len store (pm_batch_queue pm) Hiroom) as [len ->]. cbn [mbind result_bind].
  pose proof (pok_bytes _ _ _ _ Hok) as Hb. pose proof (pok_txns _ _ _ _ Hok) as Ht.
  pose proof (pok_max_unique _ _ _ _ Hok) as Hu. simpl in Hb, Ht, Hu. rewrite !sum_u64_fits by lia. cbn [mbind result_bind].
  assert (Hinline : ∃ inl,
    (if pm_allow_batches_without_pos_in_proposal pm && all then
       bytes_left ← sub_u64 (gpr_max_bytes msg) (total (proof_bytes <$> l));
       pull_batches inline_shuffle store
         (N.min (N.min (gpr_max_txns msg - total (proof_txns <$> l)) (gpr_max_txns_after_filtering msg - n))
            (gpr_max_inline_txns msg))
         (N.min bytes_left (gpr_max_inline_bytes msg)) (excluded ++ (pos_info <$> l)) (pm_batch_queue pm)
     else Ok []) = Ok inl ∧ inl.*1 ⊆+ queued_batches (pm_batch_queue pm) ∧
    (∀ b txns, (b, txns) ∈ inl → (b ∉ excluded ++ (pos_info <$> l)) ∧ stored_txns store b = Some txns) ∧
    total (bin_num_txns <$> inl.*1) ≤
      N.min (N.min (gpr_max_txns msg - total (proof_txns <$> l)) (gpr_max_txns_after_filtering msg - n)) (gpr_max_inline_txns msg) ∧
    total (bin_num_bytes <$> inl.*1) ≤ N.min (gpr_max_bytes msg - total (proof_bytes <$> l)) (gpr_max_inline_bytes msg) ∧
    total ((λ b : BatchInfo * list SignedTransaction, N.of_nat (length b.2)) <$> inl) ≤ u64_max ∧
    (inl ≠ [] → all = true)).
  { destruct (pm_allow_batches_without_pos_in_proposal pm && all) eqn:Hc.
    - apply andb_true_iff in Hc as [_ ->]. rewrite sub_u64_fits by done. cbn [mbind result_bind].
      edestruct (pull_batches_spec store) as (inl & ? & ? & ? & ? & ? & ?); [done|exact Hs2|].
      exists inl. split; [done|]. done.
    - exists []. split; [done|]. split; [apply submseteq_nil_l|]. split; [set_solver|]. simpl. split; [lia|].
      split; [lia|]. split; [lia|done]. }
  destruct Hinline as (inl & -> & H1 & H2 & H3 & H4 & H5 & H6). cbn [mbind result_bind].
  rewrite sum_u64_fits by done. cbn [mbind result_bind]. eexists. split; [done|].
  destruct (payload_parts l inl (pm_allow_batches_without_pos_in_proposal pm)) as [Hpp Hpi]. set (p := match l with [] => _ | _ => _ end) in *.
  split; unfold inline_txns, inline_bytes; rewrite ?Hpp, ?Hpi; try lia; try done.
  - exists n. split; [done|]. split; [lia|]. intros Hne. by apply Hsoft, H6.
  - intros b txns [Hb' Hst]%H2. apply not_elem_of_app in Hb' as [? ?]. done.
  - intros Hne Hr k pr. apply Hall; auto.
Qed.

(** C33: A payload stays within its request. After any commands about batches whose
    authors number them apart, with block timestamps that do not decrease and sums
    that fit in 64 bits, a request whose filter is not that of a direct mempool is
    answered, whatever order the authors are visited in. The proofs are distinct
    live proofs that are not excluded, in descending order of their gas buckets; the
    inline batches are queued, not excluded, not among the proofs, and come with the
    transactions the store holds for them; transactions, unique transactions and
    bytes of both together, and of the inline batches alone, respect the hard limits
    of the request. As to the soft limit on unique transactions, the proofs stay
    below it apart from at most one proof of each author, and inline batches are
    added only if there are no proofs or these are below it; when partly filled
    payloads are allowed, inline batches are added only after every live proof that
    is not excluded. *)
Theorem proposal_within_limits me txn_limit proof_limit allow msgs :
  Forall (λ sm, is_command sm.2) msgs → Forall (op_agreed info_of) (msgs_ops msgs) →
  timestamps_from 0 (msgs_ops msgs) → total (op_proofs <$> msgs_ops msgs) ≤ u64_max →
  total (op_txns <$> msgs_ops msgs) + total (op_summaries <$> msgs_ops msgs) ≤ u64_max →
  ∃ ml, manager_loop_run msgs (ManagerLoop_new (ProofManager_new me txn_limit proof_limit allow)) = Ok ml ∧
    ∀ shuffle inline_shuffle store msg excluded,
      pull_room (pm_proofs_for_consensus (ml_manager ml)) → inline_room store (pm_batch_queue (ml_manager ml)) →
      (∀ n l, shuffle n l ≡ₚ l) → (∀ n l, inline_shuffle n l ≡ₚ l) →
      excluded_of (gpr_filter msg) = Ok excluded → gpr_max_bytes msg ≤ u64_max → gpr_max_txns msg ≤ u64_max →
      ∃ p, handle_proposal_request shuffle inline_shuffle store msg (ml_manager ml) = Ok p ∧
        proposal_ok store msg excluded (ml_manager ml) p.
Proof.
  intros Hc Hag Hts HC HTZ.
  destruct (manager_run_spec msgs _ 0 0 0 Hc (manager_inv_new me txn_limit proof_limit allow) Hag Hts)
    as (ml & Hr & [(E & Hq) _ _ _ _] & _); [lia..|].
  exists ml. split; [done|]. intros. by eapply handle_proposal_request_spec.
Qed.

End runs.
