(* ===== verification/ProofCoordinator.v ===== *)
(** * The proof coordinator of the quorum store

    quorum_store/proof_coordinator.rs, [Timeouts] of quorum_store/utils.rs and the
    messages of proof_of_store.rs it exchanges.  The author of a batch collects
    the signatures of those who stored it, and makes a proof of store of them once
    they hold a quorum.  The theorems: what is handed out are proofs that verify,
    a quorum is enough for exactly one whatever else arrives in between, and a proof
    that verifies is of a batch some honest node can serve. *)

From S2P Require Import Prelude Gaptos Types Certificates Payloads Blocks SafetyRules SafetySpec Bft ConsensusDb BatchStore ProofQueue.

(** ** Timeouts (utils.rs) *)

Section timeouts.
Context {T : Type}.

(** The front of the [VecDeque] is the head of the list. *)
Definition Timeouts : Type := list (Z * T).

Definition Timeouts_add {E} (value : T) (timeout : N) (now_millis : Z) (t : Timeouts)
    : result E Timeouts :=
  expiry ← add_i64 now_millis (as_i64 timeout);
  Ok (t ++ [(expiry, value)]).

Fixpoint num_expired (cur_time : Z) (t : Timeouts) : nat :=
  match t with
  | [] => 0
  | (expiration_time, _) :: t =>
      if bool_decide (expiration_time ≤ cur_time)%Z then S (num_expired cur_time t) else 0
  end.

Definition Timeouts_expire (cur_time : Z) (t : Timeouts) : list T * Timeouts :=
  let n := num_expired cur_time t in ((take n t).*2, drop n t).
End timeouts.
Arguments Timeouts : clear implicits.

Section coordinator.
Context {GA : Gaptos} {VE : Verifier} {CR : Crypto} {DT : DbTypes} {SD : SchemaDb}.
Context {QT : QuorumStoreTypes}.

#[global] Instance BatchInfo_countable : Countable BatchInfo.
Proof.
  apply (inj_countable'
    (λ b, (bin_author b, bin_batch_id b, bin_epoch b, bin_expiration b, bin_digest b, bin_num_txns b,
           bin_num_bytes b, bin_gas_bucket_start b))
    (λ '(a, i, e, x, d, n, y, g),
       {| bin_author := a; bin_batch_id := i; bin_epoch := e; bin_expiration := x; bin_digest := d;
          bin_num_txns := n; bin_num_bytes := y; bin_gas_bucket_start := g |})).
  by intros [].
Defined.

(** ** Messages (proof_of_store.rs) *)

Inductive SignedBatchInfoError :=
| WrongAuthor
| WrongInfo (got expected : N)
| DuplicatedSignature
| InvalidAuthor
| NotFound
| AlreadyCommitted
| NoTimeStamps
| UnableToAggregate.

Definition SignedBatchInfoMsg_verify (signed_infos : list SignedBatchInfo) (sender : Author)
    (max_num_batches : nat) (max_batch_expiry_gap_usecs : N) (validator : ValidatorVerifier) (now : N)
    : result Anyhow unit :=
  _ ← ensure (negb (bool_decide (length signed_infos = 0%nat))) (Msg "Empty message");
  _ ← ensure (length signed_infos <=? max_num_batches)%nat (Msg "Too many batches");
  all_ok (λ s, SignedBatchInfo_verify s sender max_batch_expiry_gap_usecs validator now) signed_infos.

Definition SignedBatchInfoMsg_epoch (signed_infos : list SignedBatchInfo) : result Anyhow N :=
  match signed_infos with
  | [] => Err (Msg "Empty message")
  | s :: _ =>
      let epoch := bin_epoch (sbi_info s) in
      _ ← all_ok (λ s, ensure (bin_epoch (sbi_info s) =? epoch) (Msg "Epoch mismatch")) signed_infos;
      Ok epoch
  end.

Definition ProofOfStoreMsg_verify (proofs : list ProofOfStore) (max_num_proofs : nat)
    (validator : ValidatorVerifier) : M ProofCache Anyhow unit :=
  _ ← lift (ensure (negb (bool_decide (length proofs = 0%nat))) (Msg "Empty message"));
  _ ← lift (ensure (length proofs <=? max_num_proofs)%nat (Msg "Too many proofs"));
  try_for_each (λ p, ProofOfStore_verify p validator) proofs.

Definition ProofOfStoreMsg_epoch (proofs : list ProofOfStore) : result Anyhow N :=
  match proofs with
  | [] => Err (Msg "Empty message")
  | p :: _ =>
      let epoch := bin_epoch (pos_info p) in
      _ ← all_ok (λ p, ensure (bin_epoch (pos_info p) =? epoch) (Msg "Epoch mismatch")) proofs;
      Ok epoch
  end.

(** ** The signatures of one batch *)

Record IncrementalProofState := {
  ips_info : BatchInfo;
  ips_aggregated_signature : gmap Author Signature;
  ips_aggregated_voting_power : N;
  ips_self_voted : bool;
  ips_completed : bool;
}.

Definition IncrementalProofState_new (info : BatchInfo) : IncrementalProofState :=
  {| ips_info := info; ips_aggregated_signature := ∅; ips_aggregated_voting_power := 0;
     ips_self_voted := false; ips_completed := false |}.

Definition ips_signers (st : IncrementalProofState) : list Author :=
  (map_to_list (ips_aggregated_signature st)).*1.

Definition ips_add_signature (signed_batch_info : SignedBatchInfo)
    (validator_verifier : ValidatorVerifier) : M IncrementalProofState SignedBatchInfoError unit := λ st,
  let signer := sbi_signer signed_batch_info in
  if negb (bool_decide (sbi_info signed_batch_info = ips_info st)) then
    (Err (WrongInfo (bid_id (bin_batch_id (sbi_info signed_batch_info)))
                    (bid_id (bin_batch_id (ips_info st)))), st)
  else match ips_aggregated_signature st !! signer with
  | Some _ => (Err DuplicatedSignature, st)
  | None =>
      match vv_get_voting_power validator_verifier signer with
      | Some voting_power =>
          let signatures := <[signer := sbi_signature signed_batch_info]> (ips_aggregated_signature st) in
          let entry power self_voted :=
            {| ips_info := ips_info st; ips_aggregated_signature := signatures;
               ips_aggregated_voting_power := power; ips_self_voted := self_voted;
               ips_completed := ips_completed st |} in
          match add_u128 (ips_aggregated_voting_power st) voting_power with
          | Ok power =>
              (Ok tt, entry power (bool_decide (signer = bin_author (ips_info st)) || ips_self_voted st))
          | Err e => (Err e, entry (ips_aggregated_voting_power st) (ips_self_voted st))
          | Panic m => (Panic m, entry (ips_aggregated_voting_power st) (ips_self_voted st))
          end
      | None => (Err InvalidAuthor, st)
      end
  end.

Definition ips_ready (validator_verifier : ValidatorVerifier) (st : IncrementalProofState)
    : result SignedBatchInfoError bool :=
  if vv_quorum_voting_power validator_verifier <=? ips_aggregated_voting_power st then
    match vv_check_voting_power validator_verifier (ips_signers st) true with
    | Ok _ => Ok true
    | Err _ => Ok false
    | Panic m => Panic m
    end
  else Ok false.

Definition ips_take (validator_verifier : ValidatorVerifier)
    : M IncrementalProofState SignedBatchInfoError ProofOfStore := λ st,
  if ips_completed st then (Panic "Cannot call take twice, unexpected issue occurred", st)
  else match vv_aggregate_signatures validator_verifier (ips_aggregated_signature st) with
  | Ok sig =>
      (Ok {| pos_info := ips_info st; pos_multi_signature := sig |},
       {| ips_info := ips_info st; ips_aggregated_signature := ips_aggregated_signature st;
          ips_aggregated_voting_power := ips_aggregated_voting_power st;
          ips_self_voted := ips_self_voted st; ips_completed := true |})
  | Err _ => (Err UnableToAggregate, st)
  | Panic m => (Panic m, st)
  end.

(** ** The coordinator *)

Record ProofCoordinator := {
  pc_peer_id : Author;
  pc_proof_timeout_ms : N;
  pc_batch_info_to_proof : gmap BatchInfo IncrementalProofState;
  pc_batch_info_to_time : gmap BatchInfo N;
  pc_timeouts : Timeouts BatchInfo;
  pc_proof_cache : ProofCache;
  pc_broadcast_proofs : bool;
}.

Definition ProofCoordinator_new (proof_timeout_ms : N) (peer_id : Author) (proof_cache : ProofCache)
    (broadcast_proofs : bool) : ProofCoordinator :=
  {| pc_peer_id := peer_id; pc_proof_timeout_ms := proof_timeout_ms; pc_batch_info_to_proof := ∅;
     pc_batch_info_to_time := ∅; pc_timeouts := []; pc_proof_cache := proof_cache;
     pc_broadcast_proofs := broadcast_proofs |}.

Definition set_tracking (proofs : gmap BatchInfo IncrementalProofState) (times : gmap BatchInfo N)
    (timeouts : Timeouts BatchInfo) (c : ProofCoordinator) : ProofCoordinator :=
  {| pc_peer_id := pc_peer_id c; pc_proof_timeout_ms := pc_proof_timeout_ms c;
     pc_batch_info_to_proof := proofs; pc_batch_info_to_time := times; pc_timeouts := timeouts;
     pc_proof_cache := pc_proof_cache c; pc_broadcast_proofs := pc_broadcast_proofs c |}.

Definition set_proof (info : BatchInfo) (st : IncrementalProofState) (c : ProofCoordinator)
    : ProofCoordinator :=
  set_tracking (<[info := st]> (pc_batch_info_to_proof c)) (pc_batch_info_to_time c) (pc_timeouts c) c.

Definition set_proof_cache (cache : ProofCache) (c : ProofCoordinator) : ProofCoordinator :=
  {| pc_peer_id := pc_peer_id c; pc_proof_timeout_ms := pc_proof_timeout_ms c;
     pc_batch_info_to_proof := pc_batch_info_to_proof c; pc_batch_info_to_time := pc_batch_info_to_time c;
     pc_timeouts := pc_timeouts c; pc_proof_cache := cache;
     pc_broadcast_proofs := pc_broadcast_proofs c |}.

(** What a call reads of its surroundings: the batch store behind the
    [BatchReader], and the clock at each of the three places that ask for it. *)
Record Reading := {
  rd_store : BatchStore;
  rd_timeout_millis : Z;
  rd_init_micros : N;
  rd_done_micros : N;
}.

Definition init_proof (signed_batch_info : SignedBatchInfo) (rd : Reading)
    : M ProofCoordinator SignedBatchInfoError unit := λ c,
  let info := sbi_info signed_batch_info in
  if negb (bool_decide (bin_author info = pc_peer_id c)) then (Err WrongAuthor, c)
  else match batch_exists {| bk_epoch := bin_epoch info; bk_digest := bin_digest info |} (rd_store rd) with
  | Ok None => (Err NotFound, c)
  | Ok (Some batch_author) =>
      if negb (bool_decide (batch_author = bin_author info)) then (Err WrongAuthor, c)
      else match Timeouts_add info (pc_proof_timeout_ms c) (rd_timeout_millis rd) (pc_timeouts c) with
      | Ok timeouts =>
          (Ok tt, set_tracking (<[info := IncrementalProofState_new info]> (pc_batch_info_to_proof c))
                    (<[info := default (rd_init_micros rd) (pc_batch_info_to_time c !! info)]>
                       (pc_batch_info_to_time c)) timeouts c)
      | Err e => (Err e, c)
      | Panic m => (Panic m, c)
      end
  | Err _ => (Err NotFound, c)
  | Panic m => (Panic m, c)
  end.

(** What [add_signature] does to the entry of the batch. *)
Definition collect (signed_batch_info : SignedBatchInfo) (validator_verifier : ValidatorVerifier)
    : M IncrementalProofState SignedBatchInfoError (option ProofOfStore) :=
  _ ← ips_add_signature signed_batch_info validator_verifier;
  ready ← gets (λ st, if ips_completed st then Ok false else ips_ready validator_verifier st);
  if ready : bool then proof ← ips_take validator_verifier; mret (Some proof) else mret None.

(** A computation on the entry [get_mut] finds; its changes stay whatever it returns. *)
Definition on_entry {A} (info : BatchInfo) (f : M IncrementalProofState SignedBatchInfoError A)
    : M ProofCoordinator SignedBatchInfoError A := λ c,
  match pc_batch_info_to_proof c !! info with
  | Some value => let '(r, value) := f value in (r, set_proof info value c)
  | None => (Err NotFound, c)
  end.

(** The bookkeeping for a proof just made; the duration is only observed. *)
Definition finish (info : BatchInfo) (proof : ProofOfStore) (rd : Reading)
    : M ProofCoordinator SignedBatchInfoError unit :=
  _ ← modify (λ c, set_proof_cache
        (cache_insert (pos_info proof) (pos_multi_signature proof) (pc_proof_cache c)) c);
  created ← gets (λ c, Ok (pc_batch_info_to_time c !! info));
  _ ← modify (λ c, set_tracking (pc_batch_info_to_proof c) (delete info (pc_batch_info_to_time c))
                     (pc_timeouts c) c);
  created ← lift (ok_or NoTimeStamps created);
  _ ← lift (sub_u64 (rd_done_micros rd) created);
  mret tt.

Definition coordinator_add_signature (signed_batch_info : SignedBatchInfo) (validator_verifier : ValidatorVerifier)
    (rd : Reading) : M ProofCoordinator SignedBatchInfoError (option ProofOfStore) :=
  let info := sbi_info signed_batch_info in
  known ← gets (λ c, Ok (bool_decide (is_Some (pc_batch_info_to_proof c !! info))));
  _ ← (if known : bool then mret tt else init_proof signed_batch_info rd);
  made ← on_entry info (collect signed_batch_info validator_verifier);
  match made with
  | Some proof => _ ← finish info proof rd; mret (Some proof)
  | None => mret None
  end.

(** The batches whose collection ran out of time without a proof. *)
Fixpoint expire_batches (expired : list BatchInfo) (c : ProofCoordinator)
    : list BatchId * ProofCoordinator :=
  match expired with
  | [] => ([], c)
  | info :: expired =>
      match pc_batch_info_to_proof c !! info with
      | Some state =>
          let c := set_tracking (delete info (pc_batch_info_to_proof c))
                     (delete info (pc_batch_info_to_time c)) (pc_timeouts c) c in
          let '(batch_ids, c) := expire_batches expired c in
          (if ips_completed state then batch_ids else bin_batch_id info :: batch_ids, c)
      | None => expire_batches expired c
      end
  end.

Definition coordinator_expire (now_millis : Z) (c : ProofCoordinator) : list BatchId * ProofCoordinator :=
  let '(expired, timeouts) := Timeouts_expire now_millis (pc_timeouts c) in
  expire_batches expired (set_tracking (pc_batch_info_to_proof c) (pc_batch_info_to_time c) timeouts c).

(** ** The loop *)

(** What the coordinator sends: proofs to everyone or to its own node, and
    expired batches to the batch generator. *)
Inductive ProofCoordinatorOutput :=
| BroadcastProofs (proofs : list ProofOfStore)
| ProofsToSelf (proofs : list ProofOfStore)
| ProofExpiration (batch_ids : list BatchId).

(** The events of [start] before shutdown.  A commit notification only feeds
    metrics. *)
Inductive ProofCoordinatorEvent :=
| AppendSignature (signed : list (SignedBatchInfo * Reading))
| CommitNotification (batches : list BatchInfo)
| Tick (now_millis : Z).

(** The loop over a message; an error is logged and skipped. *)
Fixpoint append_signatures (validator_verifier : ValidatorVerifier)
    (signed : list (SignedBatchInfo * Reading))
    : M ProofCoordinator SignedBatchInfoError (list ProofOfStore) :=
  match signed with
  | [] => mret []
  | (s, rd) :: signed => λ c,
      match coordinator_add_signature s validator_verifier rd c with
      | (Ok made, c) =>
          (proofs ← append_signatures validator_verifier signed;
           mret (match made with Some p => p :: proofs | None => proofs end)) c
      | (Err _, c) => append_signatures validator_verifier signed c
      | (Panic m, c) => (Panic m, c)
      end
  end.

Definition handle_event (validator_verifier : ValidatorVerifier) (e : ProofCoordinatorEvent)
    : M ProofCoordinator SignedBatchInfoError (list ProofCoordinatorOutput) :=
  match e with
  | AppendSignature signed =>
      proofs ← append_signatures validator_verifier signed;
      broadcast ← gets (λ c, Ok (pc_broadcast_proofs c));
      mret (if bool_decide (length proofs = 0%nat) then []
            else if broadcast : bool then [BroadcastProofs proofs] else [ProofsToSelf proofs])
  | CommitNotification _ => mret []
  | Tick now_millis => λ c,
      let '(batch_ids, c) := coordinator_expire now_millis c in
      (Ok (if bool_decide (length batch_ids = 0%nat) then [] else [ProofExpiration batch_ids]), c)
  end.

Fixpoint coordinator_run (validator_verifier : ValidatorVerifier) (l : list ProofCoordinatorEvent)
    : M ProofCoordinator SignedBatchInfoError (list ProofCoordinatorOutput) :=
  match l with
  | [] => mret []
  | e :: l =>
      out ← handle_event validator_verifier e;
      rest ← coordinator_run validator_verifier l;
      mret (out ++ rest)
  end.

Definition made_proofs (out : ProofCoordinatorOutput) : list ProofOfStore :=
  match out with
  | BroadcastProofs proofs | ProofsToSelf proofs => proofs
  | ProofExpiration _ => []
  end.

End coordinator.

(** What the coordinator relies on: a quorum is not empty; the quorum check succeeds for distinct
    validators with a quorum between them; valid signatures on one batch aggregate,
    and what a quorum of them aggregates to verifies for the batch. *)
Class ProofLaws {GA : Gaptos} {VE : Verifier} {CR : Crypto} : Prop := {
  check_voting_power_sum v l :
    NoDup l → (∀ a, a ∈ l → is_Some (vv_get_voting_power v a)) →
    vv_quorum_voting_power v ≤ total ((λ a, default 0 (vv_get_voting_power v a)) <$> l) →
    is_ok (vv_check_voting_power v l true) = true;
  quorum_voting_power_pos v : 0 < vv_quorum_voting_power v;
  aggregate_batch v info m :
    m ≠ ∅ → map_Forall (λ a s, vv_verify v a (SignBatchInfo info) s = Ok tt) m →
    is_ok (vv_aggregate_signatures v m) = true;
  aggregate_batch_verify v info m s :
    vv_aggregate_signatures v m = Ok s →
    is_ok (vv_check_voting_power v (map_to_list m).*1 true) = true →
    map_Forall (λ a s, vv_verify v a (SignBatchInfo info) s = Ok tt) m →
    vv_verify_multi_signatures v info s = Ok tt;
}.

Section proofs.
Context {GA : Gaptos} {VE : Verifier} {CR : Crypto} {DT : DbTypes} {SD : SchemaDb}.
Context {QT : QuorumStoreTypes}.
Context (v : ValidatorVerifier).
Implicit Types (c : ProofCoordinator) (st : IncrementalProofState) (s : SignedBatchInfo) (info : BatchInfo).

(** ** The invariant *)

Definition voting_power (a : Author) : N := default 0 (vv_get_voting_power v a).

(** The voting power behind a set of signatures. *)
Definition signed_power (m : gmap Author Signature) : N := total (voting_power <$> (map_to_list m).*1).

(** A signature that passed [SignedBatchInfo_verify]. *)
Definition signed_ok s : Prop :=
  vv_verify v (sbi_signer s) (SignBatchInfo (sbi_info s)) (sbi_signature s) = Ok tt.

(** An entry holds signatures that were sent, of validators, and their power. *)
Record entry_ok (sent : list SignedBatchInfo) info st : Prop := {
  eo_info : ips_info st = info;
  eo_sent a sg : ips_aggregated_signature st !! a = Some sg →
    {| sbi_info := info; sbi_signer := a; sbi_signature := sg |} ∈ sent ∧ is_Some (vv_get_voting_power v a);
  eo_power : ips_aggregated_voting_power st = signed_power (ips_aggregated_signature st);
}.

(** Every batch under collection is the node's own and will time out; it has a
    creation time until its proof is made. *)
Record coordinator_ok (sent : list SignedBatchInfo) c : Prop := {
  co_entry info st : pc_batch_info_to_proof c !! info = Some st →
    entry_ok sent info st ∧ bin_author info = pc_peer_id c ∧ info ∈ (pc_timeouts c).*2;
  co_time info : is_Some (pc_batch_info_to_time c !! info) ↔
    ∃ st, pc_batch_info_to_proof c !! info = Some st ∧ ips_completed st = false;
}.

Lemma signed_power_insert m a sg :
  m !! a = None → signed_power (<[a := sg]> m) = voting_power a + signed_power m.
Proof. intros Hn. unfold signed_power. by rewrite map_to_list_insert. Qed.

Lemma signed_verified sent info st :
  (∀ s, s ∈ sent → signed_ok s) → entry_ok sent info st →
  map_Forall (λ a sg, vv_verify v a (SignBatchInfo info) sg = Ok tt) (ips_aggregated_signature st).
Proof. intros Hs He a sg Ha. by apply He in Ha as [Ha%Hs _]. Qed.

Lemma ips_signers_NoDup st : NoDup (ips_signers st).
Proof. apply NoDup_fst_map_to_list. Qed.

Lemma entry_sent_mono sent sent' info st : sent ⊆ sent' → entry_ok sent info st → entry_ok sent' info st.
Proof. intros Hs [H1 H2 H3]. split; [done| |done]. intros a sg Ha. apply H2 in Ha as [??]. auto. Qed.

Lemma coordinator_sent_mono sent sent' c : sent ⊆ sent' → coordinator_ok sent c → coordinator_ok sent' c.
Proof.
  intros Hs [H1 H2]. split; [|done]. intros info st Hl. apply H1 in Hl as (?&?&?).
  split_and!; [by eapply entry_sent_mono|done..].
Qed.

(** ** Collecting *)

(** A proof made of signatures of a quorum, each of which was sent. *)
Definition proof_made (sent : list SignedBatchInfo) (p : ProofOfStore) : Prop :=
  ∃ sigs : gmap Author Signature,
    vv_aggregate_signatures v sigs = Ok (pos_multi_signature p) ∧
    is_ok (vv_check_voting_power v (map_to_list sigs).*1 true) = true ∧
    vv_quorum_voting_power v ≤ signed_power sigs ∧
    ∀ a sg, sigs !! a = Some sg →
      {| sbi_info := pos_info p; sbi_signer := a; sbi_signature := sg |} ∈ sent.

Lemma ips_add_signature_spec sent info st s r st' :
  entry_ok sent info st → sbi_info s = info → ips_add_signature s v st = (r, st') →
  match r with
  | Ok _ => entry_ok (sent ++ [s]) info st' ∧ ips_completed st' = ips_completed st
  | Err _ => st' = st
  | Panic _ => True
  end.
Proof.
  intros [<- Hsent Hpow] Hi. unfold ips_add_signature, add_u128. rewrite bool_decide_true by done. simpl.
  destruct (_ !! _) eqn:Hn; [intros [= <- <-]; done|].
  destruct (vv_get_voting_power v (sbi_signer s)) as [p|] eqn:Hv; [|intros [= <- <-]; done].
  destruct (_ <=? _); intros [= <- <-]; [|done]. split; [|done]. split; simpl; [done| |].
  - intros a sg [[<- <-]|[Hne Ha]]%lookup_insert_Some.
    + split; [|by rewrite Hv]. apply elem_of_app. right. apply list_elem_of_singleton.
      rewrite <- Hi. by destruct s.
    + apply Hsent in Ha as [??]. split; [apply elem_of_app; by left|done].
  - rewrite signed_power_insert, Hpow by done. unfold voting_power. rewrite Hv. simpl. lia.
Qed.

Lemma collect_spec sent info st s r st' :
  entry_ok sent info st → sbi_info s = info → collect s v st = (r, st') →
  match r with
  | Ok (Some p) => entry_ok (sent ++ [s]) info st' ∧ ips_completed st = false ∧ ips_completed st' = true ∧
      pos_info p = info ∧ proof_made (sent ++ [s]) p
  | Ok None | Err _ => entry_ok (sent ++ [s]) info st' ∧ ips_completed st' = ips_completed st
  | Panic _ => True
  end.
Proof.
  intros He Hi. unfold collect, mbind, M_bind.
  destruct (ips_add_signature s v st) as [r1 st1] eqn:H1.
  pose proof (ips_add_signature_spec _ _ _ _ _ _ He Hi H1) as Hs.
  destruct r1 as [[]|e|m]; cbn beta iota; [|intros [= <- <-]; subst; split;
    [eapply entry_sent_mono; [|done]; set_solver|done]|by intros [= <- <-]].
  destruct Hs as [He1 Hc1]. unfold gets.
  destruct (ips_completed st1) eqn:Hc; simpl; [intros [= <- <-]; by rewrite Hc|].
  unfold ips_ready. destruct (_ <=? _) eqn:Hq; simpl; [|intros [= <- <-]; by rewrite Hc]. guards.
  destruct (vv_check_voting_power _ _ _) eqn:Hcheck; simpl;
    [|intros [= <- <-]; by rewrite Hc|by intros [= <- <-]].
  unfold ips_take. rewrite Hc. destruct (vv_aggregate_signatures _ _) as [sg|e|m] eqn:Hagg; simpl;
    intros [= <- <-]; [|by rewrite Hc|done].
  destruct He1 as [Hi1 Hs1 Hp1]. do 4 (split; [by try split|]). exists (ips_aggregated_signature st1).
  simpl. do 2 (split; [done || by unfold ips_signers in Hcheck; rewrite Hcheck|]).
  split; [by rewrite <- Hp1|]. intros a' x Ha. rewrite Hi1. by apply Hs1.
Qed.

(** ** The coordinator *)

Lemma init_proof_spec sent c s rd r c' :
  coordinator_ok sent c → pc_batch_info_to_proof c !! sbi_info s = None →
  init_proof s rd c = (r, c') →
  match r with
  | Ok _ => coordinator_ok sent c' ∧ is_Some (pc_batch_info_to_proof c' !! sbi_info s) ∧
      pc_peer_id c' = pc_peer_id c ∧ pc_proof_cache c' = pc_proof_cache c
  | Err _ => c' = c
  | Panic _ => True
  end.
Proof.
  intros [He Ht] Hn. unfold init_proof. case_bool_decide as Ha; simpl; [|by intros [= <- <-]].
  destruct (batch_exists _ _) as [[author|]|e|m]; [|by intros [= <- <-]..].
  case_bool_decide as Hb; simpl; [|by intros [= <- <-]].
  unfold Timeouts_add. destruct (add_i64 _ _) as [expiry|e|m] eqn:Hx; simpl.
  2: { by unfold add_i64 in Hx; case_bool_decide. }
  2: by intros [= <- <-].
  intros [= <- <-]. split; [|simpl; by rewrite lookup_insert_eq]. split; simpl.
  - intros info st [[<- <-]|[Hne Hl]]%lookup_insert_Some; rewrite fmap_app.
    + split_and!; [split; simpl; [done| |done]; intros a sg; by rewrite lookup_empty|done|set_solver].
    + apply He in Hl as (?&?&?). split_and!; [done..|set_solver].
  - intros info. destruct (decide (info = sbi_info s)) as [->|Hne].
    + rewrite !lookup_insert_eq. split; [intros _; by eexists|by eauto].
    + rewrite !lookup_insert_ne by done. apply Ht.
Qed.

(** Replacing the entry of a batch by what collecting leaves of it. *)
Lemma set_proof_ok sent sent' c info st st' :
  coordinator_ok sent c → sent ⊆ sent' → pc_batch_info_to_proof c !! info = Some st →
  entry_ok sent' info st' → ips_completed st' = ips_completed st →
  coordinator_ok sent' (set_proof info st' c).
Proof.
  intros Hok Hs Hl He Hc. apply (coordinator_sent_mono _ _ _ Hs) in Hok as [H1 H2]. split; simpl.
  - intros i x [[<- <-]|[Hne Hx]]%lookup_insert_Some; [|by apply H1].
    split; [done|]. by apply H1 in Hl as (_&?&?).
  - intros i. rewrite H2. destruct (decide (i = info)) as [->|Hne].
    + rewrite lookup_insert_eq, Hl. split; intros (x & [= <-] & Hx); eexists; (split; [done|congruence]).
    + by rewrite lookup_insert_ne.
Qed.

Lemma finish_spec sent sent' c info st st' p rd r c' :
  coordinator_ok sent c → sent ⊆ sent' → pc_batch_info_to_proof c !! info = Some st →
  ips_completed st = false → entry_ok sent' info st' → ips_completed st' = true →
  finish info p rd (set_proof info st' c) = (r, c') →
  match r with
  | Ok _ => coordinator_ok sent' c' ∧ pc_peer_id c' = pc_peer_id c ∧
      pc_proof_cache c' = cache_insert (pos_info p) (pos_multi_signature p) (pc_proof_cache c) ∧
      (∃ created, pc_batch_info_to_time c !! info = Some created ∧ created ≤ rd_done_micros rd)
  | Err _ => False
  | Panic _ => ∃ created, pc_batch_info_to_time c !! info = Some created ∧ rd_done_micros rd < created
  end.
Proof.
  intros Hok Hs Hl Hc He Hc'. apply (coordinator_sent_mono _ _ _ Hs) in Hok as [H1 H2].
  assert (is_Some (pc_batch_info_to_time c !! info)) as [created Hcr] by (apply H2; eauto).
  unfold finish, modify, gets, lift, mbind, M_bind. simpl. rewrite Hcr. simpl.
  unfold sub_u64, checked_sub. destruct (created <=? _) eqn:Hle; guards; intros [= <- <-]; simpl.
  2: { exists created. split; [done|lia]. }
  split; [|by eauto]. split; simpl.
  - intros i x [[<- <-]|[Hne Hx]]%lookup_insert_Some; [|by apply H1].
    split; [done|]. by apply H1 in Hl as (_&?&?).
  - intros i. destruct (decide (i = info)) as [->|Hne].
    + rewrite lookup_delete_eq, lookup_insert_eq. split; [by intros []|]. intros (x & [= <-] & Hx). congruence.
    + rewrite lookup_delete_ne, lookup_insert_ne by done. apply H2.
Qed.

(** [c'] keeps the invariant of [c], for the same peer, with the proofs [l] cached. *)
Definition collected (sent : list SignedBatchInfo) c (l : list ProofOfStore) c' : Prop :=
  coordinator_ok sent c' ∧ pc_peer_id c' = pc_peer_id c ∧
  pc_proof_cache c' = foldl (λ x p, cache_insert (pos_info p) (pos_multi_signature p) x) (pc_proof_cache c) l ∧
  ∀ p, p ∈ l → proof_made sent p ∧ bin_author (pos_info p) = pc_peer_id c.

Lemma proof_made_mono sent sent' p : sent ⊆ sent' → proof_made sent p → proof_made sent' p.
Proof. intros Hs (m & ? & ? & ? & H). exists m. do 3 (split; [done|]). eauto. Qed.

Lemma collected_trans sent sent' c1 c2 c3 l l' :
  sent ⊆ sent' → collected sent c1 l c2 → collected sent' c2 l' c3 → collected sent' c1 (l ++ l') c3.
Proof.
  intros Hs (Hok & Hp & Hc & Hl) (Hok' & Hp' & Hc' & Hl'). split; [done|].
  split; [congruence|]. split; [by rewrite foldl_app, <- Hc|].
  intros p [[??]%Hl|[? ->]%Hl']%elem_of_app; (split; [|congruence]); [by eapply proof_made_mono|done].
Qed.

Lemma collected_nil sent sent' c : sent ⊆ sent' → coordinator_ok sent c → collected sent' c [] c.
Proof.
  intros. split; [by eapply coordinator_sent_mono|]. split_and!; [done..|]. by intros p ?%not_elem_of_nil.
Qed.

(** The entry is there: only an earlier clock stops the coordinator from going on. *)
Lemma tracked_add_spec sent c s rd st r c' :
  coordinator_ok sent c → pc_batch_info_to_proof c !! sbi_info s = Some st →
  (made ← on_entry (sbi_info s) (collect s v);
   match made with
   | Some proof => _ ← finish (sbi_info s) proof rd; mret (Some proof)
   | None => mret None
   end) c = (r, c') →
  match r with
  | Ok made => collected (sent ++ [s]) c (option_list made) c'
  | Err e => collected (sent ++ [s]) c [] c' ∧ e ≠ NoTimeStamps
  | Panic _ => True
  end.
Proof.
  intros Hok Hl. pose proof Hok as [He _]. destruct (He _ _ Hl) as (He0 & Ha & _).
  unfold on_entry, mbind, M_bind. rewrite Hl.
  destruct (collect s v st) as [r1 st1] eqn:H1.
  pose proof (collect_spec _ _ _ _ _ _ He0 eq_refl H1) as Hs.
  assert (Hsub : sent ⊆ sent ++ [s]) by set_solver.
  destruct r1 as [[p|]|e|m].
  - destruct Hs as (He1 & Hc0 & Hc1 & Hpi & Hpm). destruct (finish _ _ _ _) as [r2 c2] eqn:H2.
    pose proof (finish_spec _ _ _ _ _ _ _ _ _ _ Hok Hsub Hl Hc0 He1 Hc1 H2) as Hf.
    destruct r2 as [[]|e|m]; [|done|by intros [= <- <-]]. intros [= <- <-].
    destruct Hf as (?&?&?&_). split_and!; [done..|]. intros p' ->%list_elem_of_singleton.
    split; [done|by rewrite Hpi].
  - destruct Hs as [He1 Hc1]. intros [= <- <-]. split; [by eapply set_proof_ok|].
    split_and!; [done..|]. by intros p ?%not_elem_of_nil.
  - destruct Hs as [He1 Hc1]. intros [= <- <-]. split; [split; [by eapply set_proof_ok|]|].
    + split_and!; [done..|]. by intros p ?%not_elem_of_nil.
    + intros ->. revert H1. unfold collect, mbind, M_bind, mret, M_ret, ips_add_signature, add_u128, gets, ips_ready, ips_take.
      repeat case_match; simplify_eq/=; congruence.
  - by intros [= <- <-].
Qed.

Lemma add_signature_spec sent c s rd r c' :
  coordinator_ok sent c → coordinator_add_signature s v rd c = (r, c') →
  match r with
  | Ok made => collected (sent ++ [s]) c (option_list made) c'
  | Err e => collected (sent ++ [s]) c [] c' ∧ e ≠ NoTimeStamps
  | Panic _ => True
  end.
Proof.
  intros Hok. unfold coordinator_add_signature, mbind at 1 2, M_bind at 1 2, gets.
  case_bool_decide as Hk; [destruct Hk as [st Hl]; by apply (tracked_add_spec _ _ _ _ st)|].
  apply eq_None_not_Some in Hk. destruct (init_proof s rd c) as [r1 c1] eqn:H1.
  pose proof (init_proof_spec _ _ _ _ _ _ Hok Hk H1) as Hi.
  destruct r1 as [[]|e|m]; [|intros [= <- <-]; subst|by intros [= <- <-]].
  - destruct Hi as (Hok1 & [st Hl] & Hp & Hc). intros H2.
    pose proof (tracked_add_spec _ _ _ _ st _ _ Hok1 Hl H2) as H3. unfold collected in *. by rewrite Hp, Hc in H3.
  - split; [apply (collected_nil sent); [set_solver|done]|]. intros ->. revert H1.
    unfold init_proof, Timeouts_add, add_i64, mbind, result_bind. repeat case_match; congruence.
Qed.

Lemma append_signatures_spec signed sent c proofs c' :
  coordinator_ok sent c → append_signatures v signed c = (Ok proofs, c') →
  collected (sent ++ signed.*1) c proofs c'.
Proof.
  revert sent c proofs. induction signed as [|[s rd] signed IH]; intros sent c proofs Hok H; simpl in H.
  { injection H as <- <-. rewrite app_nil_r. by apply (collected_nil sent). }
  destruct (coordinator_add_signature s v rd c) as [r c1] eqn:H1.
  pose proof (add_signature_spec _ _ _ _ _ _ Hok H1) as Hs.
  rewrite fmap_cons, cons_middle, app_assoc. destruct r as [made|e|m]; [| |done].
  - apply mbind_M_Ok in H as (rest & c2 & H2 & [= <- <-]).
    assert (Hr : match made with Some p => p :: rest | None => rest end = option_list made ++ rest)
      by (by destruct made). rewrite Hr.
    apply (collected_trans (sent ++ [s]) _ _ c1); [set_solver|done|]. apply IH; [apply Hs|done].
  - apply (collected_trans (sent ++ [s]) _ _ c1 _ []); [set_solver|by destruct Hs|].
    apply IH; [apply Hs|done].
Qed.

Lemma expired_ids_cons info expired ids c st id :
  pc_batch_info_to_proof c !! info = Some st →
  (id ∈ ids ↔ ∃ i x, i ∈ expired ∧ delete info (pc_batch_info_to_proof c) !! i = Some x ∧
     ips_completed x = false ∧ bin_batch_id i = id) →
  (∃ i x, i ∈ info :: expired ∧ pc_batch_info_to_proof c !! i = Some x ∧
     ips_completed x = false ∧ bin_batch_id i = id) ↔
  id ∈ (if ips_completed st then ids else bin_batch_id info :: ids).
Proof.
  intros Hl Hi. assert (Hids : id ∈ (if ips_completed st then ids else bin_batch_id info :: ids) ↔
    (ips_completed st = false ∧ bin_batch_id info = id) ∨ id ∈ ids).
  { destruct (ips_completed st); [naive_solver|]. rewrite elem_of_cons. naive_solver. }
  rewrite Hids, Hi. clear Hids Hi. split.
  - intros (i & x & [->|Hin]%elem_of_cons & Hx & ? & ?); [left; by simplify_eq|].
    destruct (decide (i = info)) as [->|]; [left; by simplify_eq|].
    right. exists i, x. by rewrite lookup_delete_ne.
  - intros [[? <-]|(i & x & ? & [? ?]%lookup_delete_Some & ? & ?)]; [exists info, st|exists i, x]; set_solver.
Qed.

(** What is left after the timeouts of [expired], and who is told. *)
Lemma expire_batches_spec expired c ids c' :
  expire_batches expired c = (ids, c') →
  (∀ i, pc_batch_info_to_proof c' !! i
        = if decide (i ∈ expired) then None else pc_batch_info_to_proof c !! i) ∧
  (∀ i, pc_batch_info_to_time c' !! i
        = if decide (i ∈ expired ∧ is_Some (pc_batch_info_to_proof c !! i)) then None
          else pc_batch_info_to_time c !! i) ∧
  (∀ id, id ∈ ids ↔ ∃ i st, i ∈ expired ∧ pc_batch_info_to_proof c !! i = Some st ∧
     ips_completed st = false ∧ bin_batch_id i = id) ∧
  pc_timeouts c' = pc_timeouts c ∧ pc_peer_id c' = pc_peer_id c ∧ pc_proof_cache c' = pc_proof_cache c.
Proof.
  revert c ids c'. induction expired as [|info expired IH]; intros c ids c' H; simpl in H.
  { injection H as <- <-. split_and!; [..|done|done|done].
    - intros i. by rewrite decide_False by apply not_elem_of_nil.
    - intros i. by rewrite decide_False by (intros [?%not_elem_of_nil _]; done).
    - intros id. split; [by intros ?%not_elem_of_nil|by intros (? & ? & ?%not_elem_of_nil & _)]. }
  destruct (pc_batch_info_to_proof c !! info) as [st|] eqn:Hl.
  - destruct (expire_batches expired _) as [ids' c1] eqn:H1. apply IH in H1 as (Hp & Ht & Hi & H4 & H5 & H6).
    simpl in *. injection H as <- <-. split_and!; [..|done|done|done].
    + intros i. rewrite Hp. destruct (decide (i = info)) as [->|Hne].
      * rewrite lookup_delete_eq, (decide_True (P := info ∈ info :: expired)) by set_solver. by case_decide.
      * rewrite lookup_delete_ne by done. apply decide_ext. rewrite elem_of_cons. naive_solver.
    + intros i. rewrite Ht. destruct (decide (i = info)) as [->|Hne].
      * rewrite !lookup_delete_eq, (decide_True (P := info ∈ info :: expired ∧ _)) by (rewrite Hl; set_solver).
        by case_decide.
      * rewrite !lookup_delete_ne by done. apply decide_ext. rewrite elem_of_cons. naive_solver.
    + intros id. rewrite <- (expired_ids_cons info expired ids' c st id Hl); [done|]. done.
  - apply IH in H as (Hp & Ht & Hi & H4 & H5 & H6). split_and!; [..|done|done|done].
    + intros i. rewrite Hp. destruct (decide (i = info)) as [->|Hne]; [rewrite Hl; by repeat case_decide|].
      apply decide_ext. rewrite elem_of_cons. naive_solver.
    + intros i. rewrite Ht. apply decide_ext. rewrite elem_of_cons. split; [tauto|].
      intros [[->|?] [x Hx]]; [congruence|by eauto].
    + intros id. rewrite Hi. split; intros (i & x & ? & ? & ?); exists i, x;
        rewrite ?elem_of_cons in *; naive_solver.
Qed.

Lemma coordinator_expire_spec sent t c ids c' :
  coordinator_ok sent c → coordinator_expire t c = (ids, c') → collected sent c [] c'.
Proof.
  intros [He Ht] H. unfold coordinator_expire, Timeouts_expire in H.
  apply expire_batches_spec in H as (Hp & Hti & _ & Hto & Hpeer & Hca). simpl in *.
  split; [|split_and!; [done..|by intros p ?%not_elem_of_nil]].
  set (n := num_expired t (pc_timeouts c)) in *. split.
  - intros info st. rewrite Hp, Hpeer, Hto. case_decide as Hin; [done|]. intros Hl.
    apply He in Hl as (? & ? & Hti'). split_and!; [done..|].
    rewrite <- (take_drop n (pc_timeouts c)), fmap_app, elem_of_app in Hti'. tauto.
  - intros info. rewrite Hti, Hp. destruct (decide (info ∈ (take n (pc_timeouts c)).*2)) as [Hin|Hin].
    + split; [|by intros (? & ? & _)]. case_decide as Hd; [by intros []|]. rewrite Ht.
      intros (st & Hl & _). destruct Hd. by rewrite Hl.
    + rewrite decide_False by tauto. apply Ht.
Qed.

(** ** Runs *)

Definition event_sent (e : ProofCoordinatorEvent) : list SignedBatchInfo :=
  match e with AppendSignature signed => signed.*1 | _ => [] end.

Lemma handle_event_spec sent e c outs c' :
  coordinator_ok sent c → handle_event v e c = (Ok outs, c') →
  collected (sent ++ event_sent e) c (outs ≫= made_proofs) c'.
Proof.
  intros Hok H. destruct e as [signed|batches|t]; simpl in *.
  - apply mbind_M_Ok in H as (proofs & c1 & H1 & [= <- <-]).
    pose proof (append_signatures_spec _ _ _ _ _ Hok H1) as Hc.
    case_bool_decide as Hz; [by apply nil_length_inv in Hz as ->|].
    destruct (pc_broadcast_proofs c1); simpl; by rewrite app_nil_r.
  - injection H as <- <-. rewrite app_nil_r. by apply (collected_nil sent).
  - destruct (coordinator_expire t c) as [ids c1] eqn:H1. injection H as <- <-. rewrite app_nil_r.
    apply coordinator_expire_spec with (sent := sent) in H1; [|done]. by case_bool_decide.
Qed.

Lemma coordinator_run_spec events sent c outs c' :
  coordinator_ok sent c → coordinator_run v events c = (Ok outs, c') →
  collected (sent ++ (events ≫= event_sent)) c (outs ≫= made_proofs) c'.
Proof.
  revert sent c outs. induction events as [|e events IH]; intros sent c outs Hok H; simpl in *.
  { injection H as <- <-. rewrite app_nil_r. by apply (collected_nil sent). }
  apply mbind_M_Ok in H as (out & c1 & H1 & H).
  apply mbind_M_Ok in H as (rest & c2 & H2 & [= <- <-]).
  pose proof (handle_event_spec _ _ _ _ _ Hok H1) as Hc. rewrite bind_app, app_assoc.
  eapply collected_trans; [|exact Hc|apply IH; [apply Hc|done]]. set_solver.
Qed.

Lemma ProofCoordinator_new_ok timeout peer cache broadcast :
  coordinator_ok [] (ProofCoordinator_new timeout peer cache broadcast).
Proof.
  split; simpl; intros info; [intros st|]; rewrite lookup_empty; [done|].
  split; [by intros []|]. intros (st & H & _). by rewrite lookup_empty in H.
Qed.

Context {PL : ProofLaws}.

Lemma proof_made_valid sent p :
  (∀ s, s ∈ sent → signed_ok s) → proof_made sent p → proof_valid v p.
Proof.
  intros Hs (m & Hagg & Hcheck & _ & Hm). unfold proof_valid. eapply aggregate_batch_verify; [done..|].
  intros a sg Ha. by apply Hm in Ha as Ha%Hs.
Qed.

(** C22: The proofs of the coordinator. Whatever signatures that passed their check
    arrive in whatever order, between whatever timeouts: every proof it hands out is
    for a batch of its own, is made of signatures of a quorum of different
    validators that were sent to it for exactly that batch, and verifies; and it
    puts nothing into the shared cache of verified proofs that does not verify. *)
Theorem proofs_of_store_valid timeout peer cache broadcast events outs c' :
  cache_sound v cache →
  (∀ s, s ∈ events ≫= event_sent → signed_ok s) →
  coordinator_run v events (ProofCoordinator_new timeout peer cache broadcast) = (Ok outs, c') →
  (∀ p, p ∈ outs ≫= made_proofs →
     proof_made (events ≫= event_sent) p ∧ proof_valid v p ∧ bin_author (pos_info p) = peer) ∧
  cache_sound v (pc_proof_cache c').
Proof.
  intros Hcache Hs H.
  apply (coordinator_run_spec _ [] _ _ _ (ProofCoordinator_new_ok _ _ _ _)) in H as (_ & _ & Hc & Hl).
  simpl in *. assert (Hv : ∀ p, p ∈ outs ≫= made_proofs → proof_valid v p)
    by (intros p Hp; apply Hl in Hp as [Hp _]; by eapply proof_made_valid).
  split; [intros p Hp; by apply Hl in Hp as Hp'; split_and!; [apply Hp'|auto|apply Hp']|].
  rewrite Hc. clear Hc Hl. revert cache Hcache Hv.
  induction (outs ≫= made_proofs) as [|p l IH]; intros cache Hcache Hv; simpl; [done|].
  apply IH; [|intros q Hq; apply Hv; by right].
  intros b sg [[= -> ->]|Hin]%elem_of_cons; [apply Hv; by left|by apply Hcache].
Qed.

(** ** A quorum is enough *)

Definition keeps st st' s : Prop :=
  ips_aggregated_signature st' = <[sbi_signer s := sbi_signature s]> (ips_aggregated_signature st).

Lemma collect_exact sent info st s p :
  (∀ s, s ∈ sent → signed_ok s) → entry_ok sent info st → sbi_info s = info → signed_ok s →
  ips_aggregated_signature st !! sbi_signer s = None →
  vv_get_voting_power v (sbi_signer s) = Some p →
  signed_power (ips_aggregated_signature st) + p ≤ u128_max →
  ∃ made st', collect s v st = (Ok made, st') ∧ keeps st st' s ∧
    (is_Some made ↔ ips_completed st = false ∧
       vv_quorum_voting_power v ≤ signed_power (ips_aggregated_signature st) + p) ∧
    ips_completed st' = (ips_completed st || bool_decide (is_Some made)).
Proof.
  intros Hsent He Hi Hs Hn Hv Hle. pose proof He as [Hinfo _ Hpow].
  destruct (ips_add_signature s v st) as [r1 st1] eqn:H1.
  pose proof (ips_add_signature_spec _ _ _ _ _ _ He Hi H1) as Hspec.
  revert H1. unfold ips_add_signature, add_u128 at 1. rewrite bool_decide_true, Hn, Hv by congruence. simpl.
  rewrite (proj2 (N.leb_le _ _)) by (rewrite Hpow; lia). intros [= <- <-].
  unfold collect, mbind, M_bind, ips_add_signature, add_u128. rewrite bool_decide_true, Hn, Hv by congruence.
  simpl. rewrite (proj2 (N.leb_le _ _)) by (rewrite Hpow; lia). unfold gets. simpl.
  destruct Hspec as [He1 _]. set (st1 := Build_IncrementalProofState _ _ _ _ _) in *.
  destruct (ips_completed st) eqn:Hc; simpl.
  { do 2 eexists. split; [done|]. split; [done|]. split; [|done]. split; [by intros []|by intros []]. }
  unfold ips_ready. destruct (N.leb_spec (vv_quorum_voting_power v) (ips_aggregated_voting_power st1)) as [Hq|Hq].
  2: { do 2 eexists. split; [done|]. split; [done|]. split; [|done].
       split; [by intros []|]. intros [_ ?]. simpl in Hq. lia. }
  assert (Hck : is_ok (vv_check_voting_power v (ips_signers st1) true) = true).
  { apply check_voting_power_sum; [apply ips_signers_NoDup| |by rewrite (eo_power _ _ _ He1) in Hq].
    intros a Ha. unfold ips_signers in Ha. apply list_elem_of_fmap in Ha as ([b sg] & -> & Hb%elem_of_map_to_list).
    by apply (eo_sent _ _ _ He1) in Hb as [_ ?]. }
  destruct (vv_check_voting_power _ _ _) eqn:Hcheck; [|done..].
  unfold ips_take. simpl.
  assert (Hag : is_ok (vv_aggregate_signatures v (ips_aggregated_signature st1)) = true).
  { apply (aggregate_batch v info); [apply insert_non_empty|].
    apply (signed_verified (sent ++ [s])); [|done]. intros x [?| ->%list_elem_of_singleton]%elem_of_app; auto. }
  change (ips_aggregated_signature st1) with (<[sbi_signer s := sbi_signature s]> (ips_aggregated_signature st)) in Hag.
  destruct (vv_aggregate_signatures _ _); [|done..]. do 2 eexists. split; [done|]. split; [done|].
  split; [|done]. split; [|by eauto]. intros _. split; [done|]. simpl in Hq. lia.
Qed.

(** The voting powers of the validators fit their sum. *)
Definition powers_fit : Prop :=
  ∀ l, NoDup l → (∀ a, a ∈ l → is_Some (vv_get_voting_power v a)) → total (voting_power <$> l) ≤ u128_max.

(** A signature of an unknown validator, or a second one, changes nothing. *)
Lemma collect_refused info st s :
  ips_info st = info → sbi_info s = info →
  is_Some (ips_aggregated_signature st !! sbi_signer s) ∨ vv_get_voting_power v (sbi_signer s) = None →
  ∃ e, collect s v st = (Err e, st).
Proof.
  intros Hi Hs Hor. unfold collect, mbind, M_bind, ips_add_signature. rewrite bool_decide_true by congruence. simpl.
  destruct (ips_aggregated_signature st !! sbi_signer s); [by eexists|]. destruct Hor as [[]| ->]; [done|by eexists].
Qed.

(** What a signature can change: the entry of its batch, with a creation time and a
    timeout read from the clock. *)
Record touched s rd c c' : Prop := {
  tc_peer : pc_peer_id c' = pc_peer_id c;
  tc_timeout_ms : pc_proof_timeout_ms c' = pc_proof_timeout_ms c;
  tc_entries i : i ≠ sbi_info s → pc_batch_info_to_proof c' !! i = pc_batch_info_to_proof c !! i;
  tc_times i t : pc_batch_info_to_time c' !! i = Some t →
    pc_batch_info_to_time c !! i = Some t ∨ t = rd_init_micros rd;
  tc_timeouts x : x ∈ pc_timeouts c' → x ∈ pc_timeouts c ∨
    x = ((rd_timeout_millis rd + as_i64 (pc_proof_timeout_ms c))%Z, sbi_info s);
}.

#[local] Instance touched_refl s rd : Reflexive (touched s rd).
Proof. intros c. split; auto. Qed.

Lemma touched_trans s rd c1 c2 c3 : touched s rd c1 c2 → touched s rd c2 c3 → touched s rd c1 c3.
Proof.
  intros [P1 T1 E1 I1 O1] [P2 T2 E2 I2 O2]. split; [congruence..| | |].
  - intros i Hi. by rewrite E2, E1.
  - intros i t [H|H]%I2; auto.
  - intros x [H|H]%O2; [auto|]. right. by rewrite H, T1.
Qed.

(** How the entry of a batch answers to a signature: refused, or added, with a proof
    when this completes a quorum. *)
Definition answered st s (r : result SignedBatchInfoError (option ProofOfStore)) st' : Prop :=
  (is_Some (ips_aggregated_signature st !! sbi_signer s) ∨ vv_get_voting_power v (sbi_signer s) = None) ∧
    st' = st ∧ (∃ e, r = Err e) ∨
  ips_aggregated_signature st !! sbi_signer s = None ∧ is_Some (vv_get_voting_power v (sbi_signer s)) ∧
    keeps st st' s ∧ ∃ made, r = Ok made ∧
      (is_Some made ↔ ips_completed st = false ∧
         vv_quorum_voting_power v ≤ signed_power (ips_aggregated_signature st) + voting_power (sbi_signer s)) ∧
      ips_completed st' = (ips_completed st || bool_decide (is_Some made)) ∧
      ∀ p, made = Some p → pos_info p = sbi_info s.

Lemma entry_power_fits sent info st s :
  powers_fit → entry_ok sent info st → ips_aggregated_signature st !! sbi_signer s = None →
  is_Some (vv_get_voting_power v (sbi_signer s)) →
  signed_power (ips_aggregated_signature st) + voting_power (sbi_signer s) ≤ u128_max.
Proof.
  intros Hfit He Hn Hv. rewrite N.add_comm, <- (signed_power_insert _ _ (sbi_signature s)) by done.
  apply Hfit; [apply NoDup_fst_map_to_list|]. intros a Ha.
  apply list_elem_of_fmap in Ha as ([a' sg] & -> & Ha%elem_of_map_to_list). simpl.
  apply lookup_insert_Some in Ha as [[<- _]|[_ Ha]]; [done|]. by apply (eo_sent _ _ _ He) in Ha as [_ ?].
Qed.

Lemma add_tracked sent c st s rd :
  powers_fit → (∀ s, s ∈ sent → signed_ok s) → signed_ok s → coordinator_ok sent c →
  pc_batch_info_to_proof c !! sbi_info s = Some st →
  (∀ t, pc_batch_info_to_time c !! sbi_info s = Some t → t ≤ rd_done_micros rd) →
  ∃ r c' st', coordinator_add_signature s v rd c = (r, c') ∧ touched s rd c c' ∧
    pc_batch_info_to_proof c' !! sbi_info s = Some st' ∧ answered st s r st'.
Proof.
  intros Hfit Hsent Hs Hok Hl Hck. destruct (co_entry _ _ Hok _ _ Hl) as (He0 & _ & _).
  unfold coordinator_add_signature, mbind, M_bind, gets. rewrite bool_decide_true by by rewrite Hl.
  unfold mret at 1, M_ret at 1, on_entry. rewrite Hl.
  assert (Hframe : ∀ st', touched s rd c (set_proof (sbi_info s) st' c)).
  { intros st'. split; simpl; auto. intros i Hi. by rewrite lookup_insert_ne. }
  destruct (decide (is_Some (ips_aggregated_signature st !! sbi_signer s) ∨ vv_get_voting_power v (sbi_signer s) = None))
    as [Hor|Hno].
  { destruct (collect_refused _ st s (eo_info _ _ _ He0) eq_refl Hor) as [e ->]. do 3 eexists. split; [done|].
    split; [apply Hframe|]. simpl. rewrite lookup_insert_eq. split; [done|]. left. by eauto. }
  apply Decidable.not_or in Hno as [Hn Hv]. rewrite <- eq_None_not_Some in Hn. apply not_eq_None_Some in Hv as Hk.
  pose proof (entry_power_fits _ _ _ _ Hfit He0 Hn Hk) as Hle. destruct Hk as [p Hp].
  assert (voting_power (sbi_signer s) = p) as Hvp by (unfold voting_power; by rewrite Hp). rewrite Hvp in Hle.
  destruct (collect_exact _ _ _ _ _ Hsent He0 eq_refl Hs Hn Hp Hle) as (made & st' & Hcol & Hkeep & Hm & Hc).
  pose proof (collect_spec _ _ _ _ _ _ He0 eq_refl Hcol) as Hspec. rewrite Hcol.
  assert (Hans : (∀ q, made = Some q → pos_info q = sbi_info s) → answered st s (Ok made) st').
  { intros Hpi. right. rewrite Hvp. split; [done|]. split; [by eauto|]. split; [done|]. by exists made. }
  destruct made as [pf|].
  - destruct Hspec as (He1 & Hc0 & Hc1 & Hpi & _). destruct (finish _ _ _ _) as [r2 c2] eqn:H2.
    pose proof (finish_spec _ (sent ++ [s]) _ _ _ _ _ _ _ _ Hok ltac:(set_solver) Hl Hc0 He1 Hc1 H2) as Hf.
    destruct r2 as [[]|e|m]; [|done|destruct Hf as (t & Hx & ?); apply Hck in Hx; lia].
    unfold finish, modify, gets, lift, mbind, M_bind in H2. simpl in H2.
    destruct Hf as (_ & _ & _ & t & Hx & _). rewrite Hx in H2. simpl in H2.
    destruct (sub_u64 _ _); [|done..]. injection H2 as <-. exists (Ok (Some pf)). do 2 eexists. split; [done|].
    split; [|simpl; rewrite lookup_insert_eq; split; [done|apply Hans; by intros q [= <-]]].
    split; simpl; auto; [intros i Hi; by rewrite lookup_insert_ne|].
    intros i t' [_ Ht']%lookup_delete_Some. by left.
  - exists (Ok None). do 2 eexists. split; [done|]. split; [apply Hframe|]. simpl. rewrite lookup_insert_eq.
    split; [done|]. by apply Hans.
Qed.

(** The first signature of a batch starts its collection, or is refused. *)
Lemma init_proof_total c s rd :
  (∀ m, batch_exists (batch_key (sbi_info s)) (rd_store rd) ≠ Panic m) →
  (i64_min ≤ rd_timeout_millis rd + as_i64 (pc_proof_timeout_ms c) ≤ i64_max)%Z →
  ∃ r c', init_proof s rd c = (r, c') ∧ touched s rd c c' ∧
    match r with
    | Ok _ => pc_batch_info_to_proof c' !! sbi_info s = Some (IncrementalProofState_new (sbi_info s)) ∧
        pc_batch_info_to_time c' !! sbi_info s = Some (default (rd_init_micros rd) (pc_batch_info_to_time c !! sbi_info s))
    | Err _ => c' = c ∧ ¬ (bin_author (sbi_info s) = pc_peer_id c ∧
        batch_exists (batch_key (sbi_info s)) (rd_store rd) = Ok (Some (pc_peer_id c)))
    | Panic _ => False
    end.
Proof.
  intros Hread Hr. unfold init_proof. fold (batch_key (sbi_info s)). case_bool_decide as Ha; simpl.
  2: { do 2 eexists. split; [done|]. split; [done|]. split; [done|]. by intros [? _]. }
  destruct (batch_exists _ _) as [[author|]|e|m] eqn:Hb; [| | |by destruct (Hread m)].
  2, 3: do 2 eexists; split; [done|]; split; [done|]; split; [done|]; by intros [_ ?].
  case_bool_decide as Hau; simpl.
  2: { do 2 eexists. split; [done|]. split; [done|]. split; [done|]. intros [_ [= ?]]. congruence. }
  unfold Timeouts_add, add_i64. rewrite bool_decide_true by done. simpl. do 2 eexists. split; [done|]. split.
  - split; simpl; auto.
    + intros i Hi. by rewrite lookup_insert_ne.
    + intros i t [[<- <-]|[_ Hi]]%lookup_insert_Some; [|by left].
      destruct (pc_batch_info_to_time c !! sbi_info s); [by left|by right].
    + intros x [Hx| ->%list_elem_of_singleton]%elem_of_app; auto.
  - simpl. by rewrite !lookup_insert_eq.
Qed.

(** The voting power of a set of validators, and whether it is a quorum. *)
Definition power_of (D : gset Author) : N := total (voting_power <$> elements D).
Definition quorate (D : gset Author) : bool := bool_decide (vv_quorum_voting_power v ≤ power_of D).

Lemma power_of_dom (m : gmap Author Signature) : power_of (dom m) = signed_power m.
Proof.
  unfold power_of, signed_power. assert (elements (dom m) ≡ₚ (map_to_list m).*1) as ->; [|done].
  apply NoDup_Permutation; [apply NoDup_elements|apply NoDup_fst_map_to_list|]. intros a.
  rewrite elem_of_elements, elem_of_dom, list_elem_of_fmap. split.
  - intros [sg Ha]. exists (a, sg). by rewrite elem_of_map_to_list.
  - intros ([a' sg] & -> & Ha%elem_of_map_to_list). by exists sg.
Qed.

Lemma power_of_insert a D : a ∉ D → power_of ({[a]} ∪ D) = voting_power a + power_of D.
Proof. intros Ha. unfold power_of. by rewrite elements_union_singleton. Qed.

Lemma quorate_empty : quorate ∅ = false.
Proof.
  unfold quorate, power_of. rewrite elements_empty. pose proof (quorum_voting_power_pos v).
  apply bool_decide_eq_false. simpl. lia.
Qed.

(** The collection of a batch holds the signatures of [D], and made its proof when
    they became a quorum. *)
Definition holds_signers info (D : gset Author) c : Prop :=
  match pc_batch_info_to_proof c !! info with
  | Some st => dom (ips_aggregated_signature st) = D ∧ ips_completed st = quorate D
  | None => D = ∅
  end.

Definition add_signer info s (D : gset Author) : gset Author :=
  if bool_decide (sbi_info s = info) then {[sbi_signer s]} ∪ D else D.

(** The proofs of a batch. *)
Definition proofs_for info (l : list ProofOfStore) : nat := length (filter (λ p, pos_info p = info) l).

Definition one_if (b : bool) : nat := if b then 1%nat else 0%nat.

(** A signature leaves one proof exactly when it completes a quorum. *)
Lemma answered_signers st s r st' D :
  answered st s r st' → is_Some (vv_get_voting_power v (sbi_signer s)) →
  dom (ips_aggregated_signature st) = D → ips_completed st = quorate D →
  dom (ips_aggregated_signature st') = {[sbi_signer s]} ∪ D ∧ ips_completed st' = quorate ({[sbi_signer s]} ∪ D) ∧
  ∀ made, made = match r with Ok made => option_list made | _ => [] end →
    (proofs_for (sbi_info s) made + one_if (quorate D) = one_if (quorate ({[sbi_signer s]} ∪ D)))%nat.
Proof.
  intros [([Hin|Hun] & -> & e & ->)|(Hn & _ & Hk & made & -> & Hmade & Hc & Hpi)] Hv HD Hcp.
  - assert (Hs : sbi_signer s ∈ D) by (rewrite <- HD; by apply elem_of_dom).
    assert ({[sbi_signer s]} ∪ D = D) as -> by set_solver. split; [done|]. split; [done|]. by intros made ->.
  - rewrite Hun in Hv. by destruct Hv.
  - assert (Hs : sbi_signer s ∉ D) by (rewrite <- HD; by apply not_elem_of_dom). unfold keeps in Hk.
    assert (Hq : is_Some made ↔ quorate D = false ∧ quorate ({[sbi_signer s]} ∪ D) = true).
    { rewrite Hmade, Hcp. unfold quorate at 3. rewrite bool_decide_eq_true, (power_of_insert _ _ Hs), <- HD, power_of_dom.
      by rewrite N.add_comm. }
    assert (Hmono : quorate D = true → quorate ({[sbi_signer s]} ∪ D) = true).
    { unfold quorate. rewrite !bool_decide_eq_true, (power_of_insert _ _ Hs). lia. }
    split; [by rewrite Hk, dom_insert_L, HD|].
    destruct made as [p|]; simpl in *.
    + destruct (proj1 Hq ltac:(by eexists)) as [Hq0 Hq1]. rewrite Hcp, Hq0 in Hc. rewrite Hc, Hq0, Hq1. split; [done|].
      intros made ->. unfold proofs_for. rewrite filter_cons_True by auto. done.
    + assert (Hsame : quorate ({[sbi_signer s]} ∪ D) = quorate D).
      { destruct (quorate D), (quorate ({[sbi_signer s]} ∪ D)); try done; [by discriminate Hmono|].
        by destruct (proj2 Hq). }
      rewrite Hsame, Hc, Hcp, orb_false_r. split; [done|]. by intros made ->.
Qed.

(** What keeps the coordinator going over the signatures [rs] and the ticks to come,
    and the collection of [info] open: the clock does not step back, the store can be
    read, and no tick reaches the timeout of the batch. *)
Record calm c info (rs : list (SignedBatchInfo * Reading)) (ticks : list Z) : Prop := {
  cm_own : bin_author info = pc_peer_id c;
  cm_signed s rd : (s, rd) ∈ rs → signed_ok s;
  cm_clock : StronglySorted (λ x y, rd_init_micros x.2 ≤ rd_done_micros y.2) rs;
  cm_span s rd : (s, rd) ∈ rs → rd_init_micros rd ≤ rd_done_micros rd;
  cm_begun i t s rd : pc_batch_info_to_time c !! i = Some t → (s, rd) ∈ rs → t ≤ rd_done_micros rd;
  cm_range s rd : (s, rd) ∈ rs → (i64_min ≤ rd_timeout_millis rd + as_i64 (pc_proof_timeout_ms c) ≤ i64_max)%Z;
  cm_reads s rd m : (s, rd) ∈ rs → batch_exists (batch_key (sbi_info s)) (rd_store rd) ≠ Panic m;
  cm_info s rd : (s, rd) ∈ rs → sbi_info s = info →
    batch_exists (batch_key info) (rd_store rd) = Ok (Some (pc_peer_id c)) ∧
    is_Some (vv_get_voting_power v (sbi_signer s));
  cm_due now t : now ∈ ticks → (t, info) ∈ pc_timeouts c → (now < t)%Z;
  cm_due_later now s rd : now ∈ ticks → (s, rd) ∈ rs → sbi_info s = info →
    (now < rd_timeout_millis rd + as_i64 (pc_proof_timeout_ms c))%Z;
}.

Lemma calm_next c c' info s rd rs ticks :
  calm c info ((s, rd) :: rs) ticks → touched s rd c c' → calm c' info rs ticks.
Proof.
  intros [C1 C2 [C3 C3']%StronglySorted_inv C0 C4 C5 C6 C7 C8 C9] [T1 T2 _ T4 T5]. rewrite Forall_forall in C3'.
  assert (Hin : ∀ x, x ∈ rs → x ∈ (s, rd) :: rs) by (intros; by right).
  split; rewrite ?T1, ?T2; eauto using list_elem_of_here.
  - intros i t s' rd' Ht Hs. apply T4 in Ht as [Ht| ->]; [by eauto|]. exact (C3' _ Hs).
  - intros now t Hnow Ht. apply T5 in Ht as [Ht|[= -> ->]]; [by eapply C8|]. eapply C9; [done|by left|done].
Qed.

(** The outcome of a signature: no panic, and a proof of [info] when it completes a
    quorum for it. *)
Definition counts info rs ticks D D' (made : list ProofOfStore) c' : Prop :=
  calm c' info rs ticks ∧ holds_signers info D' c' ∧
  (proofs_for info made + one_if (quorate D) = one_if (quorate D'))%nat.

Definition made_by (r : result SignedBatchInfoError (option ProofOfStore)) : list ProofOfStore :=
  match r with Ok made => option_list made | _ => [] end.

(** A signature for a batch under collection, [info] or another one. *)
Lemma add_tracked_signers sent c c1 st info D s rd rs ticks :
  powers_fit → (∀ s, s ∈ sent → signed_ok s) → calm c info ((s, rd) :: rs) ticks →
  touched s rd c c1 → coordinator_ok sent c1 → holds_signers info D c1 →
  pc_batch_info_to_proof c1 !! sbi_info s = Some st →
  ∃ r c', coordinator_add_signature s v rd c1 = (r, c') ∧ (∀ m, r ≠ Panic m) ∧
    counts info rs ticks D (add_signer info s D) (made_by r) c'.
Proof.
  intros Hfit Hsent Hcalm Ht1 Hok1 HD1 Hl. pose proof (list_elem_of_here (s, rd) rs) as Hhd.
  pose proof (cm_signed _ _ _ _ Hcalm _ _ Hhd) as Hs.
  destruct (add_tracked sent c1 st s rd Hfit Hsent Hs Hok1 Hl) as (r & c' & st' & Hrun & Ht2 & Hl' & Hans).
  { intros t Ht. apply (tc_times _ _ _ _ Ht1) in Ht as [Ht| ->]; [by eapply (cm_begun _ _ _ _ Hcalm)|].
    by eapply (cm_span _ _ _ _ Hcalm). }
  exists r, c'. split; [done|].
  split; [destruct Hans as [(_ & _ & e & ->)|(_ & _ & _ & made & -> & _)]; done|].
  split; [eapply calm_next; [done|by eapply touched_trans]|]. unfold add_signer. case_bool_decide as Hi.
  - subst info. unfold holds_signers in *. rewrite Hl in HD1. rewrite Hl'. destruct HD1 as [HD1 HD2].
    destruct (answered_signers _ _ _ _ D Hans) as (? & ? & Hn); [by apply (cm_info _ _ _ _ Hcalm _ _ Hhd)|done..|].
    split; [done|]. by apply Hn.
  - split; [unfold holds_signers in *; by rewrite (tc_entries _ _ _ _ Ht2) by done|].
    destruct Hans as [(_ & _ & e & ->)|(_ & _ & _ & [p|] & -> & _ & _ & Hpi)]; [done| |done].
    unfold proofs_for. simpl. rewrite filter_cons_False; [done|]. by rewrite (Hpi p eq_refl).
Qed.

Lemma add_signature_signers sent c info D s rd rs ticks :
  powers_fit → (∀ s, s ∈ sent → signed_ok s) → coordinator_ok sent c →
  calm c info ((s, rd) :: rs) ticks → holds_signers info D c →
  ∃ r c', coordinator_add_signature s v rd c = (r, c') ∧ (∀ m, r ≠ Panic m) ∧
    counts info rs ticks D (add_signer info s D) (made_by r) c'.
Proof.
  intros Hfit Hsent Hok Hcalm HD. pose proof (list_elem_of_here (s, rd) rs) as Hhd.
  destruct (pc_batch_info_to_proof c !! sbi_info s) as [st|] eqn:Hl; [by eapply add_tracked_signers|].
  destruct (init_proof_total c s rd) as (r & c1 & Hi & Ht & Hr);
    [intros m; by apply (cm_reads _ _ _ _ Hcalm s rd)|by apply (cm_range _ _ _ _ Hcalm s)|].
  pose proof (init_proof_spec _ _ _ _ _ _ Hok Hl Hi) as Hsp.
  destruct r as [[]|e|m]; [| |done].
  - destruct Hr as [Hl1 _], Hsp as (Hok1 & _).
    assert (HD1 : holds_signers info D c1).
    { unfold holds_signers in *. destruct (decide (info = sbi_info s)) as [->|Hne].
      - rewrite Hl in HD. rewrite Hl1, HD, quorate_empty. simpl. by rewrite dom_empty_L.
      - by rewrite (tc_entries _ _ _ _ Ht). }
    destruct (add_tracked_signers _ _ _ _ _ _ _ _ _ _ Hfit Hsent Hcalm Ht Hok1 HD1 Hl1) as (r & c' & Hrun & Hrest).
    exists r, c'. split; [|done]. rewrite <- Hrun. unfold coordinator_add_signature, mbind, M_bind, gets.
    by rewrite Hl, Hl1, bool_decide_false, bool_decide_true, Hi by (by eauto || by intros []).
  - destruct Hr as [-> Hno]. exists (Err e), c. split.
    { unfold coordinator_add_signature, mbind, M_bind, gets. by rewrite Hl, bool_decide_false, Hi by by intros []. }
    split; [done|]. split; [by eapply calm_next|]. unfold add_signer. rewrite bool_decide_false; [done|].
    intros <-. apply Hno. split; [apply Hcalm|]. by destruct (cm_info _ _ _ _ Hcalm _ _ Hhd eq_refl).
Qed.

(** Who signed for [info] in a list of signatures. *)
Definition add_signers info (rs : list (SignedBatchInfo * Reading)) (D : gset Author) : gset Author :=
  foldl (λ D s, add_signer info s D) D rs.*1.

Lemma counts_trans info rs1 rs2 ticks1 ticks2 D1 D2 D3 l1 l2 c2 c3 :
  counts info rs1 ticks1 D1 D2 l1 c2 → counts info rs2 ticks2 D2 D3 l2 c3 →
  counts info rs2 ticks2 D1 D3 (l1 ++ l2) c3.
Proof.
  intros (_ & _ & H1) (Hc & Hh & H2). split; [done|]. split; [done|]. unfold proofs_for in *.
  rewrite filter_app, length_app. lia.
Qed.

Lemma append_signatures_signers signed sent c info D rs ticks :
  powers_fit → (∀ s, s ∈ sent → signed_ok s) → coordinator_ok sent c →
  calm c info (signed ++ rs) ticks → holds_signers info D c →
  ∃ proofs c', append_signatures v signed c = (Ok proofs, c') ∧
    counts info rs ticks D (add_signers info signed D) proofs c'.
Proof.
  intros Hfit. revert sent c D. induction signed as [|[s rd] signed IH]; intros sent c D Hsent Hok Hcalm HD.
  { exists [], c. by split. }
  destruct (add_signature_signers sent c info D s rd (signed ++ rs) ticks Hfit Hsent Hok Hcalm HD)
    as (r & c1 & H1 & Hnp & Hc1). pose proof (add_signature_spec _ _ _ _ _ _ Hok H1) as Hsp.
  assert (Hok1 : coordinator_ok (sent ++ [s]) c1) by (destruct r as [made|e|m]; [apply Hsp|apply Hsp|by destruct (Hnp m)]).
  destruct (IH (sent ++ [s]) c1 (add_signer info s D)) as (proofs & c2 & H2 & Hc2); [|done|apply Hc1..|].
  { intros x [?| ->%list_elem_of_singleton]%elem_of_app; [auto|].
    apply (cm_signed _ _ _ _ Hcalm s rd). by left. }
  exists (made_by r ++ proofs), c2. split; [|by eapply counts_trans].
  cbn [append_signatures]. rewrite H1. destruct r as [made|e|m]; [|by rewrite H2|by destruct (Hnp m)].
  unfold mbind, M_bind. rewrite H2. by destruct made.
Qed.

(** A tick before the timeout of a batch leaves its collection alone. *)
Lemma num_expired_due {T} now (t : Timeouts T) x : x ∈ take (num_expired now t) t → (x.1 ≤ now)%Z.
Proof.
  induction t as [|[e y] t IH]; simpl; [by intros ?%not_elem_of_nil|].
  case_bool_decide; simpl; [|by intros ?%not_elem_of_nil]. intros [->|?]%elem_of_cons; auto.
Qed.

Lemma expire_batches_timeout_ms expired c :
  pc_proof_timeout_ms (expire_batches expired c).2 = pc_proof_timeout_ms c.
Proof.
  revert c. induction expired as [|i expired IH]; intros c; simpl; [done|].
  destruct (_ !! i); [|apply IH]. specialize (IH (set_tracking (delete i (pc_batch_info_to_proof c))
    (delete i (pc_batch_info_to_time c)) (pc_timeouts c) c)). by destruct (expire_batches _ _).
Qed.

Lemma expire_signers info D rs now ticks c ids c' :
  calm c info rs (now :: ticks) → holds_signers info D c → coordinator_expire now c = (ids, c') →
  counts info rs ticks D D [] c'.
Proof.
  intros [C1 C2 C3 C0 C4 C5 C6 C7 C8 C9] HD H. unfold coordinator_expire, Timeouts_expire in H.
  set (n := num_expired now (pc_timeouts c)) in *.
  pose proof (expire_batches_timeout_ms (take n (pc_timeouts c)).*2
    (set_tracking (pc_batch_info_to_proof c) (pc_batch_info_to_time c) (drop n (pc_timeouts c)) c)) as Hms.
  rewrite H in Hms. simpl in Hms. apply expire_batches_spec in H as (Hp & Hti & _ & Hto & Hpeer & _). simpl in *.
  assert (Hin : info ∉ (take n (pc_timeouts c)).*2).
  { intros ([t i] & -> & Hx)%list_elem_of_fmap. pose proof (num_expired_due _ _ _ Hx) as Hle. simpl in *.
    assert ((t, i) ∈ pc_timeouts c) as Ht%(C8 now t (list_elem_of_here _ _)); [|lia].
    rewrite <- (take_drop n (pc_timeouts c)). apply elem_of_app. by left. }
  assert (Hsub : ∀ x, x ∈ ticks → x ∈ now :: ticks) by (intros; by right).
  split; [|split; [|done]].
  - split; rewrite ?Hpeer, ?Hms, ?Hto; eauto.
    + intros i t s rd. rewrite Hti. case_decide; [done|]. eauto.
    + intros x t Hx Ht. eapply C8; [by right|]. rewrite <- (take_drop n (pc_timeouts c)). apply elem_of_app. by right.
  - unfold holds_signers in *. rewrite Hp. by rewrite decide_False.
Qed.

Definition event_signatures (e : ProofCoordinatorEvent) : list (SignedBatchInfo * Reading) :=
  match e with AppendSignature signed => signed | _ => [] end.

Definition event_ticks (e : ProofCoordinatorEvent) : list Z :=
  match e with Tick now => [now] | _ => [] end.

Lemma handle_event_signers e sent c info D rs ticks :
  powers_fit → (∀ s, s ∈ sent → signed_ok s) → coordinator_ok sent c →
  calm c info (event_signatures e ++ rs) (event_ticks e ++ ticks) → holds_signers info D c →
  ∃ outs c', handle_event v e c = (Ok outs, c') ∧
    counts info rs ticks D (add_signers info (event_signatures e) D) (outs ≫= made_proofs) c'.
Proof.
  intros Hfit Hsent Hok Hcalm HD. destruct e as [signed|batches|now]; simpl in *.
  - destruct (append_signatures_signers signed sent c info D rs ticks Hfit Hsent Hok Hcalm HD) as (proofs & c' & Hrun & Hc).
    unfold mbind, M_bind. rewrite Hrun. do 2 eexists. split; [done|].
    case_bool_decide as Hz; [by apply nil_length_inv in Hz as ->|].
    destruct (pc_broadcast_proofs c'); simpl; by rewrite app_nil_r.
  - exists [], c. by split.
  - destruct (coordinator_expire now c) as [ids c'] eqn:H. do 2 eexists. split; [done|].
    eapply expire_signers in H; [|done..]. by case_bool_decide.
Qed.

Lemma coordinator_run_signers events sent c info D :
  powers_fit → (∀ s, s ∈ sent → signed_ok s) → coordinator_ok sent c →
  calm c info (events ≫= event_signatures) (events ≫= event_ticks) → holds_signers info D c →
  ∃ outs c', coordinator_run v events c = (Ok outs, c') ∧
    counts info [] [] D (add_signers info (events ≫= event_signatures) D) (outs ≫= made_proofs) c'.
Proof.
  intros Hfit. revert sent c D. induction events as [|e events IH]; intros sent c D Hsent Hok Hcalm HD.
  { exists [], c. by split. }
  destruct (handle_event_signers e sent c info D _ _ Hfit Hsent Hok Hcalm HD) as (out & c1 & H1 & Hc1).
  pose proof (handle_event_spec _ _ _ _ _ Hok H1) as [Hok1 _].
  destruct (IH (sent ++ event_sent e) c1 (add_signers info (event_signatures e) D)) as (outs & c2 & H2 & Hc2);
    [|done|apply Hc1..|].
  { intros x [?|Hx]%elem_of_app; [auto|]. destruct e as [signed| |]; [|by apply not_elem_of_nil in Hx..].
    apply list_elem_of_fmap in Hx as ([y rd] & -> & Hy). apply (cm_signed _ _ _ _ Hcalm y rd).
    simpl. apply elem_of_app. by left. }
  exists (out ++ outs), c2. split; [simpl; unfold mbind, M_bind; by rewrite H1, H2|].
  rewrite bind_app. unfold add_signers in *. rewrite bind_cons, fmap_app, foldl_app. by eapply counts_trans.
Qed.

(** The validators that signed for a batch. *)
Definition signers_of info (rs : list (SignedBatchInfo * Reading)) : gset Author :=
  list_to_set (sbi_signer <$> filter (λ s, sbi_info s = info) rs.*1).

Lemma add_signers_spec info rs D : add_signers info rs D = signers_of info rs ∪ D.
Proof.
  unfold add_signers, signers_of. revert D. induction rs.*1 as [|s l IH]; intros D; simpl; [set_solver|].
  rewrite IH. unfold add_signer. case_bool_decide.
  - rewrite filter_cons_True by done. simpl. set_solver.
  - by rewrite filter_cons_False.
Qed.

(** C23: A quorum is enough, and makes one proof. After any run of a coordinator that
    got only verified signatures, take any further events (messages with any number
    of signatures, for this and other batches, from any validators and repeated,
    commit notifications, ticks) and a batch of the node that is not being
    collected. Assume its signers are known and its batch is stored, that signatures
    are verified, that no tick reaches its timeout, that the clock does not step
    back between the signatures, that the store can be read, and that sums of voting
    powers and timeouts fit their types. Then the events are handled without panic,
    exactly one proof of the batch is made if the distinct signers of it hold a
    quorum together and none if they do not, and every proof made verifies. *)
Theorem quorum_makes_one_proof timeout peer cache broadcast events outs c info later :
  powers_fit → (∀ s, s ∈ events ≫= event_sent → signed_ok s) →
  coordinator_run v events (ProofCoordinator_new timeout peer cache broadcast) = (Ok outs, c) →
  pc_batch_info_to_proof c !! info = None →
  calm c info (later ≫= event_signatures) (later ≫= event_ticks) →
  ∃ outs' c', coordinator_run v later c = (Ok outs', c') ∧
    proofs_for info (outs' ≫= made_proofs) =
      (if bool_decide (vv_quorum_voting_power v ≤ power_of (signers_of info (later ≫= event_signatures)))
       then 1%nat else 0%nat) ∧
    ∀ p, p ∈ outs' ≫= made_proofs → proof_valid v p.
Proof.
  intros Hfit Hsent Hrun Hnone Hcalm.
  apply (coordinator_run_spec _ [] _ _ _ (ProofCoordinator_new_ok _ _ _ _)) in Hrun as (Hok & _). simpl in Hok.
  destruct (coordinator_run_signers later _ c info ∅ Hfit Hsent Hok Hcalm) as (outs' & c' & Hrun & _ & _ & Hn).
  { unfold holds_signers. by rewrite Hnone. }
  exists outs', c'. split; [done|]. rewrite add_signers_spec, (right_id_L ∅ (∪)), quorate_empty in Hn. split.
  - rewrite Nat.add_0_r in Hn. exact Hn.
  - intros p Hp. pose proof (coordinator_run_spec _ _ _ _ _ Hok Hrun) as (_ & _ & _ & Hmade).
    apply Hmade in Hp as [Hp _]. eapply proof_made_valid; [|exact Hp].
    intros x [?|Hx]%elem_of_app; [auto|]. apply list_elem_of_bind in Hx as (e & Hx & He).
    destruct e as [signed| |]; [|by apply not_elem_of_nil in Hx..].
    apply list_elem_of_fmap in Hx as ([y rd] & -> & Hy). apply (cm_signed _ _ _ _ Hcalm y rd).
    apply list_elem_of_bind. by exists (AppendSignature signed).
Qed.

(** The signature that completes a quorum stops the coordinator if the clock has
    stepped back since the collection began: the duration of a plain subtraction of
    unsigned microseconds.  The proof is in the cache and never sent. *)
Lemma clock_step_back_panics sent c info st s rd created :
  (∀ s, s ∈ sent → signed_ok s) → coordinator_ok sent c →
  pc_batch_info_to_proof c !! info = Some st → ips_completed st = false →
  sbi_info s = info → signed_ok s → is_Some (vv_get_voting_power v (sbi_signer s)) →
  ips_aggregated_signature st !! sbi_signer s = None →
  vv_quorum_voting_power v ≤ signed_power (ips_aggregated_signature st) + voting_power (sbi_signer s) ≤ u128_max →
  pc_batch_info_to_time c !! info = Some created → rd_done_micros rd < created →
  ∃ m c', coordinator_add_signature s v rd c = (Panic m, c').
Proof.
  intros Hsent Hok Hl Hc0 <- Hs [p Hv] Hn [Hq Hle] Ht Hlt. unfold voting_power in *. rewrite Hv in *.
  destruct (co_entry _ _ Hok _ _ Hl) as (He0 & _ & _).
  destruct (collect_exact _ _ _ _ _ Hsent He0 eq_refl Hs Hn Hv Hle) as (made & st' & Hcol & _ & Hm & _).
  unfold coordinator_add_signature, mbind, M_bind, gets. rewrite bool_decide_true by by rewrite Hl.
  unfold mret at 1, M_ret at 1, on_entry. rewrite Hl, Hcol.
  destruct made as [pf|]; [|by destruct (proj2 Hm (conj Hc0 Hq))].
  unfold finish, modify, gets, lift, mbind, M_bind. simpl. rewrite Ht. simpl.
  unfold sub_u64, checked_sub. rewrite (proj2 (N.leb_gt _ _)) by done. simpl. by do 2 eexists.
Qed.

(** What the check of a message establishes for the coordinator. *)
Lemma SignedBatchInfoMsg_verify_ok signed sender max gap now :
  SignedBatchInfoMsg_verify signed sender max gap v now = Ok tt →
  ∀ s, s ∈ signed → signed_ok s ∧ sbi_signer s = sender.
Proof.
  unfold SignedBatchInfoMsg_verify. intros H. run_inv. clear Hrun Hrun0.
  induction signed as [|x signed IH]; simpl in H; [by intros s ?%not_elem_of_nil|].
  run_inv. intros s [->|Hin]%elem_of_cons; [|by apply IH].
  unfold SignedBatchInfo_verify in Hrun. case_bool_decide as Hsd; simpl in Hrun; [|done]. run_inv.
  destruct (_ <? _) in Hrun; run_inv. done.
Qed.

End proofs.

(** ** Availability *)

Section availability.
Context {GA : Gaptos} {VE : Verifier} {CR : Crypto} {DT : DbTypes} {SD : SchemaDb}.
Context {QT : QuorumStoreTypes} {TL : DbTypesLaws} {DL : SchemaDbLaws} {QL : QuorumStoreLaws}.
Context {PL : PowerLaws}.
Context (validators : ValidatorVerifier) (honest : gset Author).

(** A batch store in use since its node started, and what it has signed. *)
Definition node_store (s : BatchStore) (signed : list BatchInfo) : Prop :=
  ∃ epoch t memory_quota db_quota batch_quota d signer,
    epoch ≤ u64_max ∧ memory_quota ≤ db_quota ∧ db_quota ≤ u64_max ∧ batch_quota ≤ u64_max ∧ db_valid d ∧
    store_reach (BatchStore_new epoch t d memory_quota db_quota batch_quota signer) s signed.

(** Unforgeability: the honest members of some quorum signed for the batch of a
    proof that verifies. *)
Definition authentic_proof (signed : Author → list BatchInfo) (p : ProofOfStore) : Prop :=
  proof_valid validators p →
  ∃ Q, power_quorum validators Q ∧ ∀ a, a ∈ Q → a ∈ honest → pos_info p ∈ signed a.

(** C19: A proof of store means what it says. When less than a third of the voting power
    is Byzantine, the batch of any proof a node accepts, through its cache or not,
    is held by an honest validator, who answers for it with a payload whose hash is
    the digest of the proof; the only other outcome is that the database of that
    validator fails. *)
Theorem proof_of_store_available stores signed p cache :
  3 * power validators (members validators ∖ honest) < vv_total_voting_power validators →
  (∀ a, a ∈ honest → node_store (stores a) (signed a)) →
  authentic_proof signed p → cache_sound validators cache → bin_epoch (pos_info p) ≤ u64_max →
  (ProofOfStore_verify p validators cache).1 = Ok tt →
  ∃ a, a ∈ honest ∧
    match get_batch_from_local (batch_key (pos_info p)) (stores a) with
    | Ok v => ∃ txns, pev_maybe_payload v = Some txns ∧
        hash_batch_payload (bin_author (pev_info v)) txns = bin_digest (pos_info p)
    | Err e => e = InternalError
    | Panic m => db_get BatchSchema (batch_key (pos_info p)) (bst_db (stores a)) = Panic m
    end.
Proof.
  intros Hf Hst Hau Hca Hep Hv. apply (ProofOfStore_verify_spec p validators cache Hca) in Hv.
  destruct (Hau Hv) as (Q & Hq & Hsg).
  destruct (power_quorum_meet validators honest Q Q Hf Hq Hq) as (a & HaQ & _ & Ha).
  exists a. split; [done|]. destruct (Hst a Ha) as (e & t & mq & dq & bq & d & sg & ? & ? & ? & ? & ? & Hr).
  destruct (store_reach_good _ _ _ (new_store_good e t d mq dq bq sg ltac:(done) ltac:(done)
    ltac:(done) ltac:(done) ltac:(done)) Hr) as (Hg & _ & Hsv).
  pose proof (local_read (stores a) (batch_key (pos_info p)) Hg Hep) as Hl.
  destruct (get_batch_from_local _ _); [done| |done]. by apply Hl, Hsv, Hsg.
Qed.

End availability.
