(* ===== verification/Shuffler.v ===== *)
(** * Preparing the transactions of a block

    transaction_filter/mod.rs, transaction_deduper.rs,
    txn_hash_and_authenticator_deduper.rs, transaction_shuffler/mod.rs and
    sender_aware.rs, and block_preparer.rs, which runs them one after the other
    before a block is executed.  All validators must arrive at the same list, and
    the order of the transactions of an account must not change. *)

From S2P Require Import Prelude Gaptos Types ConsensusDb BatchStore.

(** [aptos_types::transaction::use_case::UseCaseKey]. *)
Inductive UseCaseKey `{!Gaptos} :=
| Platform
| ContractAddress (a : AccountAddress)
| Others.

(** What the preparation takes from [gaptos]. *)
Class TxnTypes {GA : Gaptos} := {
  SignedTransaction_eqdec :: EqDecision SignedTransaction;
  TransactionAuthenticator : Type;
  TransactionAuthenticator_eqdec :: EqDecision TransactionAuthenticator;
  TransactionAuthenticator_countable :: Countable TransactionAuthenticator;
  txn_authenticator : SignedTransaction → TransactionAuthenticator;
  txn_parse_use_case : SignedTransaction → UseCaseKey;
  (** [aptos_config::config::transaction_filter_type::Filter] *)
  Filter : Type;
  filter_is_empty : Filter → bool;
  filter_allows : Filter → HashValue → N → SignedTransaction → bool;
}.

Section preparation.
Context {GA : Gaptos} {QT : QuorumStoreTypes} {TT : TxnTypes}.
Implicit Types (txn : SignedTransaction) (txns : list SignedTransaction).

(** ** The filter *)

Definition TransactionFilter_filter (f : Filter) (block_id : HashValue) (timestamp : N)
    (txns : list SignedTransaction) : list SignedTransaction :=
  if filter_is_empty f then txns else filter (λ txn, filter_allows f block_id timestamp txn = true) txns.

(** ** The deduper *)

Definition sequence_pair txn : AccountAddress * N := (txn_sender txn, txn_sequence_number txn).
Definition hash_and_authenticator txn : HashValue * TransactionAuthenticator :=
  (txn_committed_hash txn, txn_authenticator txn).

(** The loop that marks the transactions that share sender and sequence number
    with another one; [i] is the index of the first of [txns]. *)
Fixpoint mark_possible (i : nat) (txns : list SignedTransaction) (seen : gmap (AccountAddress * N) nat)
    (possible_duplicates : list bool) (is_possible_duplicate : bool) : list bool * bool :=
  match txns with
  | [] => (possible_duplicates, is_possible_duplicate)
  | txn :: txns =>
      match seen !! sequence_pair txn with
      | None => mark_possible (S i) txns (<[sequence_pair txn := i]> seen) possible_duplicates
                  is_possible_duplicate
      | Some first_index =>
          mark_possible (S i) txns seen (<[i := true]> (<[first_index := true]> possible_duplicates)) true
      end
  end.

Fixpoint filter_hashes (l : list (option (HashValue * TransactionAuthenticator) * SignedTransaction))
    (seen_hashes : gset (HashValue * TransactionAuthenticator)) : list SignedTransaction :=
  match l with
  | [] => []
  | (None, txn) :: l => txn :: filter_hashes l seen_hashes
  | (Some h, txn) :: l =>
      if decide (h ∈ seen_hashes) then filter_hashes l seen_hashes
      else txn :: filter_hashes l ({[h]} ∪ seen_hashes)
  end.

Definition TxnHashAndAuthenticatorDeduper_dedup (transactions : list SignedTransaction)
    : list SignedTransaction :=
  let '(possible_duplicates, is_possible_duplicate) :=
    mark_possible 0 transactions ∅ (replicate (length transactions) false) false in
  if negb is_possible_duplicate then transactions
  else
    let hash_and_authenticators :=
      zip_with (λ (need_hash : bool) txn, if need_hash then Some (hash_and_authenticator txn) else None)
        possible_duplicates transactions in
    filter_hashes (zip hash_and_authenticators transactions) ∅.

Inductive TransactionDeduperType := NoDedup | TxnHashAndAuthenticatorV1.

Definition dedup (t : TransactionDeduperType) (txns : list SignedTransaction) : list SignedTransaction :=
  match t with
  | NoDedup => txns
  | TxnHashAndAuthenticatorV1 => TxnHashAndAuthenticatorDeduper_dedup txns
  end.

(** ** The sender aware shuffler *)

Record PendingTransactions := {
  pt_txns_by_senders : gmap AccountAddress (list SignedTransaction);
  pt_ordered_txns : list SignedTransaction;
}.

Definition PendingTransactions_new : PendingTransactions :=
  {| pt_txns_by_senders := ∅; pt_ordered_txns := [] |}.

Definition pending_add txn (p : PendingTransactions) : PendingTransactions :=
  {| pt_txns_by_senders :=
       <[txn_sender txn := default [] (pt_txns_by_senders p !! txn_sender txn) ++ [txn]]> (pt_txns_by_senders p);
     pt_ordered_txns := pt_ordered_txns p ++ [txn] |}.

Definition remove_pending_from_sender (sender : AccountAddress) (p : PendingTransactions)
    : option SignedTransaction * PendingTransactions :=
  match pt_txns_by_senders p !! sender with
  | Some (txn :: txns) =>
      (Some txn, {| pt_txns_by_senders := <[sender := txns]> (pt_txns_by_senders p);
                    pt_ordered_txns := pt_ordered_txns p |})
  | _ => (None, p)
  end.

(** The loop of [remove_first_pending], on the queue in the original order. *)
Fixpoint first_pending (ordered_txns : list SignedTransaction)
    (txns_by_senders : gmap AccountAddress (list SignedTransaction))
    : option SignedTransaction * PendingTransactions :=
  match ordered_txns with
  | [] => (None, {| pt_txns_by_senders := txns_by_senders; pt_ordered_txns := [] |})
  | txn :: ordered_txns =>
      match txns_by_senders !! txn_sender txn with
      | Some sender_queue =>
          if bool_decide (Some txn = head sender_queue) then
            remove_pending_from_sender (txn_sender txn)
              {| pt_txns_by_senders := txns_by_senders; pt_ordered_txns := ordered_txns |}
          else first_pending ordered_txns txns_by_senders
      | None => first_pending ordered_txns txns_by_senders
      end
  end.

Definition remove_first_pending (p : PendingTransactions) : option SignedTransaction * PendingTransactions :=
  first_pending (pt_ordered_txns p) (pt_txns_by_senders p).

Record SlidingWindowState := {
  sws_start_index : Z;
  sws_senders_in_window : gmap AccountAddress N;
  sws_txns : list SignedTransaction;
}.

(** [window_size] comes from a [u32], so its negation is an [i64]. *)
Definition SlidingWindowState_new (window_size : N) : SlidingWindowState :=
  {| sws_start_index := - as_i64 window_size; sws_senders_in_window := ∅; sws_txns := [] |}.

(** [entry(sender).and_modify(|count| *count -= 1)]. *)
Definition drop_sender (sender : AccountAddress) (m : gmap AccountAddress N)
    : result Anyhow (gmap AccountAddress N) :=
  match m !! sender with
  | Some count => count ← sub_u64 count 1; Ok (<[sender := count]> m)
  | None => Ok m
  end.

Definition window_add txn (w : SlidingWindowState) : result Anyhow SlidingWindowState :=
  senders ← (if bool_decide (0 ≤ sws_start_index w)%Z then
               dropped ← expect "Transaction expected" (sws_txns w !! Z.to_nat (sws_start_index w));
               drop_sender (txn_sender dropped) (sws_senders_in_window w)
             else Ok (sws_senders_in_window w));
  count ← add_u64 (default 0 (senders !! txn_sender txn)) 1;
  start_index ← add_i64 (sws_start_index w) 1;
  Ok {| sws_start_index := start_index; sws_senders_in_window := <[txn_sender txn := count]> senders;
        sws_txns := sws_txns w ++ [txn] |}.

Definition has_conflict (addr : AccountAddress) (w : SlidingWindowState) : bool :=
  match sws_senders_in_window w !! addr with Some count => negb (count =? 0) | None => false end.

Definition last_dropped_sender (w : SlidingWindowState) : option AccountAddress :=
  if bool_decide (0 < sws_start_index w)%Z then
    last_txn ← sws_txns w !! Z.to_nat (sws_start_index w - 1);
    count ← sws_senders_in_window w !! txn_sender last_txn;
    if count =? 0 then Some (txn_sender last_txn) else None
  else None.

(** The search of [next_to_add] in the original order: the first transaction
    without a conflict; those before it become pending. *)
Fixpoint next_unconflicted (w : SlidingWindowState) (orig_txns : list SignedTransaction)
    (p : PendingTransactions) : option SignedTransaction * list SignedTransaction * PendingTransactions :=
  match orig_txns with
  | [] => (None, [], p)
  | txn :: orig_txns =>
      if negb (has_conflict (txn_sender txn) w) then (Some txn, orig_txns, p)
      else next_unconflicted w orig_txns (pending_add txn p)
  end.

(** When no sender has just left the window, or it has nothing pending. *)
Definition search_next (w : SlidingWindowState) (orig_txns : list SignedTransaction) (p : PendingTransactions)
    : result Anyhow (SignedTransaction * list SignedTransaction * PendingTransactions) :=
  let '(found, orig_txns, p) := next_unconflicted w orig_txns p in
  match found with
  | Some txn => Ok (txn, orig_txns, p)
  | None =>
      let '(found, p) := remove_first_pending p in
      txn ← expect "Pending should return a transaction" found;
      Ok (txn, orig_txns, p)
  end.

Definition next_to_add (w : SlidingWindowState) (orig_txns : list SignedTransaction) (p : PendingTransactions)
    : result Anyhow (SignedTransaction * list SignedTransaction * PendingTransactions) :=
  match last_dropped_sender w with
  | Some sender =>
      let '(found, p') := remove_pending_from_sender sender p in
      match found with
      | Some txn => Ok (txn, orig_txns, p')
      | None => search_next w orig_txns p
      end
  | None => search_next w orig_txns p
  end.

(** The loop [while num_txns() < num_transactions]; every round adds one
    transaction, and [fuel] counts them. *)
Fixpoint shuffle_loop (fuel : nat) (num_transactions : nat) (w : SlidingWindowState)
    (orig_txns : list SignedTransaction) (p : PendingTransactions) : result Anyhow SlidingWindowState :=
  if (length (sws_txns w) <? num_transactions)%nat then
    match fuel with
    | O => Panic "out of fuel"
    | S fuel =>
        '(txn, orig_txns, p) ← next_to_add w orig_txns p;
        w ← window_add txn w;
        shuffle_loop fuel num_transactions w orig_txns p
    end
  else Ok w.

Definition SenderAwareShuffler_shuffle (conflict_window_size : N) (txns : list SignedTransaction)
    : result Anyhow (list SignedTransaction) :=
  if bool_decide (length txns = 0%nat) then Ok txns
  else if conflict_window_size =? 0 then Ok txns
  else
    w ← shuffle_loop (length txns) (length txns) (SlidingWindowState_new conflict_window_size) txns
          PendingTransactions_new;
    Ok (sws_txns w).

(** ** The deduper keeps the first of each *)

Implicit Types (fl : list bool).

(** The reference: one pass that hashes every transaction. *)
Fixpoint dedup_first (seen : gset (HashValue * TransactionAuthenticator)) txns : list SignedTransaction :=
  match txns with
  | [] => []
  | txn :: txns =>
      if decide (hash_and_authenticator txn ∈ seen) then dedup_first seen txns
      else txn :: dedup_first ({[hash_and_authenticator txn]} ∪ seen) txns
  end.

(** Another transaction than the [i]th has its sender and sequence number. *)
Definition shared txns (i : nat) : Prop :=
  ∃ j x y, i ≠ j ∧ txns !! i = Some x ∧ txns !! j = Some y ∧ sequence_pair x = sequence_pair y.

Lemma shared_snoc txns txn i :
  shared (txns ++ [txn]) i ↔
  shared txns i ∨ ∃ j x, txns !! j = Some x ∧ sequence_pair x = sequence_pair txn ∧ (i = j ∨ i = length txns).
Proof.
  split.
  - intros (j & x & y & Hne & Hx & Hy & Heq).
    apply lookup_snoc_Some in Hx as [[Hi Hx]|[-> ->]]; apply lookup_snoc_Some in Hy as [[Hj Hy]|[-> ->]].
    + left. by exists j, x, y.
    + right. exists i, x. auto.
    + right. exists j, y. auto.
    + done.
  - intros [(j & x & y & Hne & Hx & Hy & Heq)|(j & x & Hx & Heq & Hi)].
    + exists j, x, y. split_and!; [done|by apply lookup_app_l_Some..|done].
    + pose proof (lookup_lt_Some _ _ _ Hx). destruct Hi as [->| ->].
      * exists (length txns), x, txn. split_and!; [lia|by apply lookup_app_l_Some| |done].
        by rewrite lookup_app_r, Nat.sub_diag by lia.
      * exists j, txn, x. split_and!; [lia| |by apply lookup_app_l_Some|done].
        by rewrite lookup_app_r, Nat.sub_diag by lia.
Qed.

(** What the marks say after the transactions [pre]. *)
Record marked (pre : list SignedTransaction) (seen : gmap (AccountAddress * N) nat) fl found : Prop := {
  mk_seen k i : seen !! k = Some i → ∃ x, pre !! i = Some x ∧ sequence_pair x = k;
  mk_unseen k x : seen !! k = None → x ∈ pre → sequence_pair x ≠ k;
  mk_flags i : fl !! i = Some true ↔ shared pre i ∧ (i < length fl)%nat;
  mk_found : found = true ↔ ∃ i, fl !! i = Some true;
}.

Lemma mark_possible_spec txns pre seen fl found :
  marked pre seen fl found → (length pre + length txns = length fl)%nat →
  let r := mark_possible (length pre) txns seen fl found in
  (∃ seen', marked (pre ++ txns) seen' r.1 r.2) ∧ length r.1 = length fl.
Proof.
  revert pre seen fl found. induction txns as [|txn txns IH]; intros pre seen fl found Hm Hlen; simpl in *.
  { rewrite app_nil_r. by eauto. }
  rewrite cons_middle, app_assoc.
  assert (Hpre : S (length pre) = length (pre ++ [txn])) by (rewrite length_app; simpl; lia).
  rewrite Hpre. destruct Hm as [Hs Hu Hf Hfound]. destruct (seen !! sequence_pair txn) as [f|] eqn:Hseen.
  - destruct (Hs _ _ Hseen) as (y & Hy & Hyp). pose proof (lookup_lt_Some _ _ _ Hy) as Hlt.
    replace (length fl) with (length (<[length pre:=true]> (<[f:=true]> fl))) by by rewrite !length_insert.
    apply IH; [|rewrite !length_insert, length_app; simpl; lia]. split.
    + intros k i Hk. apply Hs in Hk as (x & Hx & ?). exists x. split; [by apply lookup_app_l_Some|done].
    + intros k x Hk [Hx|[= ->]%list_elem_of_singleton]%elem_of_app; [by eapply Hu|congruence].
    + intros i. rewrite !length_insert, shared_snoc.
      rewrite !list_lookup_insert_Some, !length_insert, Hf. split.
      * intros [(<- & _ & _)|(_ & [(<- & _ & _)|(_ & ? & ?)])]; [| |tauto].
        -- split; [|lia]. right. exists f, y. auto.
        -- split; [|lia]. right. exists f, y. auto.
      * intros [Hsh Hi]. destruct (decide (length pre = i)) as [<-|Hne]; [left; split_and!; [done|done|lia]|].
        right. split; [done|]. destruct (decide (f = i)) as [->|Hfi]; [left; split_and!; [done|done|lia]|].
        right. split; [done|]. split; [|lia].
        destruct Hsh as [?|(j & x & Hx & Heq & [->| ->])]; [done| |done].
        exists f, x, y. split_and!; [done|done|done|congruence].
    + split; [|done]. intros _. exists (length pre).
      rewrite list_lookup_insert_eq; [done|]. rewrite length_insert. lia.
  - apply IH; [|rewrite length_app; simpl; lia]. split.
    + intros k i [[<- <-]|[Hne Hk]]%lookup_insert_Some.
      * exists txn. by rewrite lookup_app_r, Nat.sub_diag by lia.
      * apply Hs in Hk as (x & Hx & ?). exists x. split; [by apply lookup_app_l_Some|done].
    + intros k x Hk. apply lookup_insert_None in Hk as [Hk Hne].
      intros [Hx| ->%list_elem_of_singleton]%elem_of_app; [by eapply Hu|done].
    + intros i. rewrite shared_snoc, Hf. split; [tauto|]. intros [[?|(j & x & Hx & Heq & _)] ?]; [tauto|].
      destruct (Hu _ x Hseen); [by eapply list_elem_of_lookup_2|done].
    + done.
Qed.

Definition hash_marked txns fl : list (option (HashValue * TransactionAuthenticator) * SignedTransaction) :=
  zip (zip_with (λ (need_hash : bool) txn, if need_hash then Some (hash_and_authenticator txn) else None) fl txns)
    txns.

Lemma filter_hashes_first txns fl seen seen' :
  length fl = length txns → seen ⊆ seen' →
  (∀ i x, fl !! i = Some true → txns !! i = Some x → hash_and_authenticator x ∈ seen' →
     hash_and_authenticator x ∈ seen) →
  (∀ i x, fl !! i = Some false → txns !! i = Some x → (hash_and_authenticator x ∉ seen') ∧
     ∀ j y, i ≠ j → txns !! j = Some y → hash_and_authenticator x ≠ hash_and_authenticator y) →
  filter_hashes (hash_marked txns fl) seen = dedup_first seen' txns.
Proof.
  revert fl seen seen'. induction txns as [|txn txns IH]; intros [|b fl] seen seen' Hlen Hsub Ht Hf; [done..|].
  simpl in Hlen. unfold hash_marked. destruct b; simpl.
  - specialize (Ht 0%nat txn eq_refl eq_refl) as Ht0. case_decide as Hin.
    + rewrite decide_True by auto. apply IH; [lia|done|..].
      * intros i x. apply (Ht (S i)).
      * intros i x Hi Hx. destruct (Hf (S i) x Hi Hx) as [? Hj]. split; [done|].
        intros j y Hne. apply (Hj (S j)). lia.
    + rewrite decide_False by tauto. f_equal. apply IH; [lia|by apply union_mono_l|..].
      * intros i x Hi Hx. specialize (Ht (S i) x Hi Hx). rewrite !elem_of_union. tauto.
      * intros i x Hi Hx. destruct (Hf (S i) x Hi Hx) as [Hx' Hj].
        pose proof (Hj 0%nat txn ltac:(lia) eq_refl). split; [by rewrite not_elem_of_union, not_elem_of_singleton|].
        intros j y Hne. apply (Hj (S j)). lia.
  - destruct (Hf 0%nat txn eq_refl eq_refl) as [Hn Hu]. rewrite decide_False by done. f_equal.
    apply IH; [lia|by apply union_subseteq_r'|..].
    + intros i x Hi Hx. specialize (Ht (S i) x Hi Hx). pose proof (Hu (S i) x ltac:(lia) Hx).
      rewrite elem_of_union, elem_of_singleton. intros [?|?]; [congruence|auto].
    + intros i x Hi Hx. destruct (Hf (S i) x Hi Hx) as [Hx' Hj].
      pose proof (Hj 0%nat txn ltac:(lia) eq_refl). split; [by rewrite not_elem_of_union, not_elem_of_singleton|].
      intros j y Hne. apply (Hj (S j)). lia.
Qed.

Lemma filter_hashes_unmarked txns fl seen :
  length fl = length txns → (∀ i, fl !! i ≠ Some true) → filter_hashes (hash_marked txns fl) seen = txns.
Proof.
  revert fl. induction txns as [|txn txns IH]; intros [|b fl] Hlen Hf; [done..|].
  unfold hash_marked. destruct b; [by destruct (Hf 0%nat)|]. simpl. f_equal. apply IH; [simpl in Hlen; lia|].
  intros i. apply (Hf (S i)).
Qed.

(** Transactions with one hash have one sender and one sequence number. *)
Definition hashes_identify : Prop := ∀ x y,
  txn_committed_hash x = txn_committed_hash y → sequence_pair x = sequence_pair y.

Lemma dedup_is_first txns :
  hashes_identify → TxnHashAndAuthenticatorDeduper_dedup txns = dedup_first ∅ txns.
Proof.
  intros Hid. unfold TxnHashAndAuthenticatorDeduper_dedup.
  destruct (mark_possible_spec txns [] ∅ (replicate (length txns) false) false) as [[seen' Hm] Hlen].
  { split.
    - intros k i. by rewrite lookup_empty.
    - by intros k x _ ?%not_elem_of_nil.
    - intros i. split; [by intros [? ?]%lookup_replicate|]. intros [(j & x & y & _ & Hx & _) _].
      by rewrite lookup_nil in Hx.
    - split; [done|]. by intros (i & [? ?]%lookup_replicate). }
  { by rewrite length_replicate. }
  simpl in Hm, Hlen. destruct (mark_possible _ _ _ _ _) as [fl found]. simpl in *. rewrite length_replicate in Hlen.
  destruct Hm as [_ _ Hfl Hfound].
  enough (Hall : filter_hashes (hash_marked txns fl) ∅ = dedup_first ∅ txns).
  { destruct found; simpl; [done|]. rewrite <- Hall. symmetry. apply filter_hashes_unmarked; [done|].
    intros i Hi. assert (false = true) by (apply Hfound; eauto). done. }
  apply filter_hashes_first; [done|done|set_solver|].
  intros i x Hi Hx. split; [set_solver|]. intros j y Hne Hy Heq.
  assert (fl !! i = Some true); [|congruence]. apply Hfl. split; [|by eapply lookup_lt_Some].
  exists j, x, y. split_and!; [done..|]. apply Hid. unfold hash_and_authenticator in Heq. congruence.
Qed.

Lemma dedup_first_spec txns seen :
  sublist (dedup_first seen txns) txns ∧
  NoDup (hash_and_authenticator <$> dedup_first seen txns) ∧
  (∀ x, x ∈ txns → hash_and_authenticator x ∈ seen ∨
     hash_and_authenticator x ∈ hash_and_authenticator <$> dedup_first seen txns) ∧
  (∀ x, x ∈ dedup_first seen txns → hash_and_authenticator x ∉ seen).
Proof.
  revert seen. induction txns as [|txn txns IH]; intros seen; simpl.
  { split_and!; [constructor|constructor|by intros x ?%not_elem_of_nil..]. }
  case_decide as Hin.
  - destruct (IH seen) as (Hs & Hn & Hc & Hnot). split_and!; [by constructor|done| |done].
    intros x [->|Hx]%elem_of_cons; auto.
  - destruct (IH ({[hash_and_authenticator txn]} ∪ seen)) as (Hs & Hn & Hc & Hnot). rewrite fmap_cons.
    split_and!.
    + by constructor.
    + constructor; [|done]. intros (x & Heq & Hx)%list_elem_of_fmap. apply Hnot in Hx.
      rewrite Heq in Hx. apply Hx, elem_of_union. left. by apply elem_of_singleton.
    + intros x [->|Hx]%elem_of_cons; [right; by left|]. destruct (Hc x Hx) as [Hu|?]; [|right; by right].
      apply elem_of_union in Hu as [->%elem_of_singleton|?]; [right; by left|by left].
    + intros x [->|Hx]%elem_of_cons; [done|]. apply Hnot in Hx. by apply not_elem_of_union in Hx as [_ ?].
Qed.

(** ** The sliding window *)

Implicit Types (p : PendingTransactions) (w : SlidingWindowState) (a : AccountAddress).

(** The transactions of an account, in their order. *)
Abbreviation by_sender := (group txn_sender).

(** The last [n] transactions. *)
Definition window (n : nat) txns : list SignedTransaction := drop (length txns - n) txns.

Definition occurrences a txns : N := N.of_nat (length (by_sender a txns)).

Lemma occurrences_app a l1 l2 : occurrences a (l1 ++ l2) = occurrences a l1 + occurrences a l2.
Proof. unfold occurrences. rewrite group_app, length_app. lia. Qed.

Lemma occurrences_single a txn : occurrences a [txn] = if decide (txn_sender txn = a) then 1 else 0.
Proof. unfold occurrences. rewrite group_single. by case_decide. Qed.

Lemma occurrences_cons a txn l :
  occurrences a (txn :: l) = (if decide (txn_sender txn = a) then 1 else 0) + occurrences a l.
Proof. rewrite <- occurrences_single. apply (occurrences_app a [txn] l). Qed.

Lemma occurrences_pos a txns : 0 < occurrences a txns ↔ a ∈ txn_sender <$> txns.
Proof.
  unfold occurrences, group. rewrite list_elem_of_fmap. split.
  - intros H. destruct (filter _ txns) as [|x l] eqn:Hf; [simpl in H; lia|]. exists x.
    assert (Hx : x ∈ filter (λ txn, txn_sender txn = a) txns) by (rewrite Hf; by left).
    apply list_elem_of_filter in Hx as [<- ?]. done.
  - intros (x & -> & Hx). assert (Hx' : x ∈ filter (λ txn, txn_sender txn = txn_sender x) txns)
      by by apply list_elem_of_filter.
    destruct (filter _ txns); [by apply not_elem_of_nil in Hx'|]. simpl. lia.
Qed.

Lemma window_snoc n l txn :
  (0 < n)%nat →
  (n ≤ length l ∧ ∃ x, l !! (length l - n)%nat = Some x ∧ window n l = x :: drop 1 (window n l) ∧
     window n (l ++ [txn]) = drop 1 (window n l) ++ [txn])%nat ∨
  (length l < n ∧ window n (l ++ [txn]) = window n l ++ [txn])%nat.
Proof.
  intros Hn. unfold window. rewrite length_app. simpl. rewrite !drop_app_le by lia.
  destruct (decide (n ≤ length l)%nat) as [Hle|Hgt].
  - left. split; [done|]. destruct (lookup_lt_is_Some_2 l (length l - n)) as [x Hx]; [lia|].
    exists x. rewrite (drop_S _ x (length l - n)) by done. simpl.
    replace (length l + 1 - n)%nat with (S (length l - n)) by lia. by rewrite drop_0.
  - right. split; [lia|]. by replace (length l + 1 - n)%nat with (length l - n)%nat by lia.
Qed.

(** The window counts the senders of the last [n] transactions. *)
Record window_ok (n : nat) w : Prop := {
  wo_start : sws_start_index w = (Z.of_nat (length (sws_txns w)) - Z.of_nat n)%Z;
  wo_count a : default 0 (sws_senders_in_window w !! a) = occurrences a (window n (sws_txns w));
  wo_known a : a ∈ txn_sender <$> sws_txns w → is_Some (sws_senders_in_window w !! a);
}.

Lemma has_conflict_spec n w a :
  window_ok n w → has_conflict a w = true ↔ 0 < occurrences a (window n (sws_txns w)).
Proof.
  intros [_ Hc _]. rewrite <- Hc. unfold has_conflict. destruct (_ !! a); simpl; [|split; [done|lia]].
  rewrite negb_true_iff, N.eqb_neq. lia.
Qed.

Lemma last_dropped_free n w a :
  window_ok n w → last_dropped_sender w = Some a → occurrences a (window n (sws_txns w)) = 0.
Proof.
  intros [_ Hc _]. unfold last_dropped_sender. case_bool_decide; [|done].
  destruct (_ !! _) as [x|]; [|done]. simpl. destruct (_ !! txn_sender x) as [count|] eqn:Hx; [|done]. simpl.
  destruct (N.eqb_spec count 0) as [->|]; [|done]. intros [= <-]. by rewrite <- Hc, Hx.
Qed.

(** The senders left once the window has slid off its first transaction. *)
Lemma window_slide n txn w :
  window_ok n w → (0 < n)%nat →
  ∃ m, (if bool_decide (0 ≤ sws_start_index w)%Z then
          dropped ← expect "Transaction expected" (sws_txns w !! Z.to_nat (sws_start_index w));
          drop_sender (txn_sender dropped) (sws_senders_in_window w)
        else Ok (sws_senders_in_window w)) = Ok m ∧
    (∀ a, occurrences a (window n (sws_txns w ++ [txn])) = default 0 (m !! a) + occurrences a [txn]) ∧
    (∀ a, is_Some (sws_senders_in_window w !! a) → is_Some (m !! a)) ∧
    (∀ a, default 0 (m !! a) ≤ occurrences a (window n (sws_txns w))).
Proof.
  intros [Hst Hc Hk] Hn. set (l := sws_txns w) in *.
  destruct (window_snoc n l txn Hn) as [(Hle & x & Hx & Hw & ->)|(Hlt & ->)].
  - rewrite bool_decide_true by lia. rewrite Hst.
    replace (Z.to_nat (Z.of_nat (length l) - Z.of_nat n)) with (length l - n)%nat by lia. rewrite Hx. simpl.
    unfold drop_sender. assert (Hkx : txn_sender x ∈ txn_sender <$> l)
      by (apply list_elem_of_fmap; exists x; split; [done|by eapply list_elem_of_lookup_2]).
    destruct (Hk _ Hkx) as [count Hcx]. rewrite Hcx.
    assert (Hocc : ∀ a, default 0 (sws_senders_in_window w !! a)
      = (if decide (txn_sender x = a) then 1 else 0) + occurrences a (drop 1 (window n l))).
    { intros a. by rewrite Hc, Hw, occurrences_cons. }
    specialize (Hocc (txn_sender x)) as Hox. rewrite Hcx, decide_True in Hox by done. simpl in Hox.
    rewrite sub_u64_fits by lia. eexists. split; [done|].
    assert (Hm : ∀ a, default 0 (<[txn_sender x := count - 1]> (sws_senders_in_window w) !! a)
      = occurrences a (drop 1 (window n l))).
    { intros a. destruct (decide (txn_sender x = a)) as [<-|Hne].
      - rewrite lookup_insert_eq. simpl. lia.
      - rewrite lookup_insert_ne by done. by rewrite Hocc, decide_False. }
    split; [intros a; by rewrite occurrences_app, Hm|]. split.
    + intros a Ha. destruct (decide (txn_sender x = a)) as [<-|Hne]; [by rewrite lookup_insert_eq|].
      by rewrite lookup_insert_ne.
    + intros a. rewrite Hm, <- Hc, Hocc. lia.
  - rewrite bool_decide_false by lia. eexists. split; [done|]. split; [|split; [done|]].
    + intros a. by rewrite occurrences_app, Hc.
    + intros a. by rewrite Hc.
Qed.

Lemma dropped_reported n txn w m a start :
  (0 < n)%nat → start = (Z.of_nat (length (sws_txns w)) - Z.of_nat n)%Z →
  0 < occurrences a (window n (sws_txns w)) → occurrences a (window n (sws_txns w ++ [txn])) = 0 →
  (∀ a, default 0 (m !! a) = occurrences a (window n (sws_txns w ++ [txn]))) →
  (∀ x, x ∈ sws_txns w → is_Some (m !! txn_sender x)) →
  last_dropped_sender
    {| sws_start_index := start + 1; sws_senders_in_window := m; sws_txns := sws_txns w ++ [txn] |} = Some a.
Proof.
  intros Hn Hst Ha Hz Hcount Hsome.
  destruct (window_snoc n (sws_txns w) txn Hn) as [(Hnl & x & Hx & Hw & Hw')|(Hlt & Hw')].
  2: { rewrite Hw', occurrences_app in Hz. lia. }
  rewrite Hw, occurrences_cons in Ha. case_decide as Hxa; [|rewrite Hw', occurrences_app in Hz; lia].
  unfold last_dropped_sender. cbn [sws_start_index sws_senders_in_window sws_txns].
  rewrite Hst, bool_decide_true by lia.
  replace (Z.to_nat (Z.of_nat (length (sws_txns w)) - Z.of_nat n + 1 - 1)) with (length (sws_txns w) - n)%nat by lia.
  rewrite lookup_app_l by (apply lookup_lt_Some in Hx; lia). rewrite Hx. cbn [mbind option_bind].
  destruct (Hsome x) as [c Hc]; [by eapply list_elem_of_lookup_2|].
  specialize (Hcount a). rewrite Hz in Hcount. rewrite Hxa in *. rewrite Hc in *. simpl in Hcount. by rewrite Hcount.
Qed.

(** Sliding drops at most one sender, and reports it. *)
Lemma window_add_spec n txn w :
  window_ok n w → (0 < n)%nat → (Z.of_nat (length (sws_txns w)) < i64_max)%Z → (Z.of_nat n ≤ i64_max)%Z →
  ∃ w', window_add txn w = Ok w' ∧ window_ok n w' ∧ sws_txns w' = sws_txns w ++ [txn] ∧
    (0 < occurrences (txn_sender txn) (window n (sws_txns w'))) ∧
    ∀ a, 0 < occurrences a (window n (sws_txns w)) →
      0 < occurrences a (window n (sws_txns w')) ∨ last_dropped_sender w' = Some a.
Proof.
  intros Hw Hn Hlen Hmax. destruct (window_slide n txn w Hw Hn) as (m & Hm & Hocc & Hsome & Hle).
  unfold window_add. rewrite Hm. cbn [mbind result_bind].
  assert (Hfit : default 0 (m !! txn_sender txn) + 1 ≤ u64_max).
  { specialize (Hle (txn_sender txn)). unfold occurrences in Hle.
    pose proof (length_filter (λ t, txn_sender t = txn_sender txn) (window n (sws_txns w))) as Hf.
    unfold group, window in *. rewrite length_drop in Hf. unfold i64_max, u64_max in *. lia. }
  rewrite add_u64_fits by done. cbn [mbind result_bind]. destruct Hw as [Hst Hc Hk].
  unfold add_i64. rewrite bool_decide_true by (rewrite Hst; unfold i64_min, i64_max in *; lia).
  cbn [mbind result_bind]. eexists. split; [done|]. cbn [sws_txns].
  assert (Hcount : ∀ a, default 0 (<[txn_sender txn := default 0 (m !! txn_sender txn) + 1]> m !! a)
    = occurrences a (window n (sws_txns w ++ [txn]))).
  { intros a. rewrite Hocc, occurrences_single. destruct (decide (txn_sender txn = a)) as [<-|Hne].
    - by rewrite lookup_insert_eq.
    - rewrite lookup_insert_ne by done. lia. }
  split_and!.
  - split; cbn [sws_start_index sws_senders_in_window sws_txns].
    + rewrite Hst, length_app. simpl. lia.
    + done.
    + intros a. rewrite fmap_app, elem_of_app. destruct (decide (txn_sender txn = a)) as [<-|Hne].
      { intros _. by rewrite lookup_insert_eq. }
      rewrite lookup_insert_ne by done. intros [Ha|Ha%list_elem_of_singleton]; [by apply Hsome, Hk|congruence].
  - done.
  - rewrite <- Hcount, lookup_insert_eq. simpl. lia.
  - intros a Ha. destruct (decide (0 < occurrences a (window n (sws_txns w ++ [txn])))) as [?|Hz]; [by left|right].
    eapply (dropped_reported n txn w); [done|done|done|lia|done|].
    intros x Hx. destruct (decide (txn_sender txn = txn_sender x)) as [Heq|Hne]; [by rewrite Heq, lookup_insert_eq|].
    rewrite lookup_insert_ne by done. apply Hsome, Hk, list_elem_of_fmap. by exists x.
Qed.

(** ** The pending transactions *)

Definition queue p a : list SignedTransaction := default [] (pt_txns_by_senders p !! a).

(** The transactions of an account that were once pending end with those that
    still are. *)
Definition pending_ok p : Prop :=
  ∀ a, ∃ gone, by_sender a (pt_ordered_txns p) = gone ++ queue p a.

Lemma pending_add_spec txn p :
  pending_ok p → pending_ok (pending_add txn p) ∧
  ∀ a, queue (pending_add txn p) a = queue p a ++ by_sender a [txn].
Proof.
  intros Hp. assert (Hq : ∀ a, queue (pending_add txn p) a = queue p a ++ by_sender a [txn]).
  { intros a. unfold queue. simpl. rewrite group_single. case_decide as Ha; [subst a|].
    - by rewrite lookup_insert_eq.
    - by rewrite lookup_insert_ne, app_nil_r. }
  split; [|done]. intros a. destruct (Hp a) as [gone Hg]. exists gone. simpl.
  by rewrite group_app, Hg, Hq, app_assoc.
Qed.

Lemma remove_pending_spec a txn q p :
  queue p a = txn :: q →
  ∃ p', remove_pending_from_sender a p = (Some txn, p') ∧ queue p' a = q ∧
    (∀ b, a ≠ b → queue p' b = queue p b) ∧ pt_ordered_txns p' = pt_ordered_txns p.
Proof.
  unfold queue, remove_pending_from_sender. destruct (_ !! a) as [[|x l]|]; [done| |done].
  intros [= -> ->]. eexists. split; [done|]. simpl. rewrite lookup_insert_eq.
  split_and!; [done| |done]. intros b Hb. by rewrite lookup_insert_ne.
Qed.

Lemma pending_ok_pop a p p' :
  pending_ok p → (∃ txn, queue p a = txn :: queue p' a) → (∀ b, a ≠ b → queue p' b = queue p b) →
  pt_ordered_txns p' = pt_ordered_txns p → pending_ok p'.
Proof.
  intros Hp [txn Ha] Hb Ho b. destruct (Hp b) as [gone Hg]. rewrite Ho.
  destruct (decide (a = b)) as [<-|Hne]; [|exists gone; by rewrite Hb].
  exists (gone ++ [txn]). by rewrite <- app_assoc, Hg, Ha.
Qed.

(** As long as something is pending, the first of it is found. *)
Lemma first_pending_spec ordered m :
  let p := {| pt_txns_by_senders := m; pt_ordered_txns := ordered |} in
  pending_ok p → (∀ a x, x ∈ queue p a → txn_sender x = a) → (∃ a, queue p a ≠ []) →
  ∃ txn p', first_pending ordered m = (Some txn, p') ∧
    queue p (txn_sender txn) = txn :: queue p' (txn_sender txn) ∧
    (∀ b, txn_sender txn ≠ b → queue p' b = queue p b) ∧ pending_ok p'.
Proof.
  induction ordered as [|x ordered IH]; simpl; intros Hp Hown [a Ha].
  { destruct (Hp a) as [gone Hg]. symmetry in Hg. by apply app_nil in Hg as [_ ?]. }
  set (p' := {| pt_txns_by_senders := m; pt_ordered_txns := ordered |}).
  assert (Hrest : Some x ≠ head (queue p' (txn_sender x)) → pending_ok p').
  { intros Hne b. destruct (Hp b) as [gone Hg]. simpl in Hg. unfold group in Hg.
    rewrite filter_cons in Hg. case_decide as Hb; [|by exists gone]. subst b.
    destruct gone as [|y gone]; [|injection Hg as -> Hg; by exists gone].
    simpl in Hg. destruct Hne. change (Some x = head (queue {| pt_txns_by_senders := m;
      pt_ordered_txns := x :: ordered |} (txn_sender x))). by rewrite <- Hg. }
  assert (Hskip : Some x ≠ head (queue p' (txn_sender x)) → ∃ txn p'', first_pending ordered m = (Some txn, p'') ∧
    queue p' (txn_sender txn) = txn :: queue p'' (txn_sender txn) ∧
    (∀ b, txn_sender txn ≠ b → queue p'' b = queue p' b) ∧ pending_ok p'')
    by (intros Hne; apply IH; [by apply Hrest|exact Hown|by exists a]).
  destruct (m !! txn_sender x) as [q|] eqn:Hm; [|apply Hskip; unfold queue; simpl; by rewrite Hm].
  case_bool_decide as Hx; [|apply Hskip; unfold queue; simpl; by rewrite Hm].
  destruct q as [|y q]; [done|]. injection Hx as <-.
  assert (Hqx : queue p' (txn_sender x) = x :: q) by (unfold queue; simpl; by rewrite Hm).
  destruct (remove_pending_spec _ _ _ _ Hqx) as (p'' & -> & Hq & Hb & Ho).
  exists x, p''. split; [done|]. rewrite Hq. split; [exact Hqx|]. split; [exact Hb|].
  intros b. destruct (Hp b) as [gone Hg]. rewrite Ho. simpl in *. unfold group in Hg. rewrite filter_cons in Hg.
  destruct (decide (txn_sender x = b)) as [<-|Hne]; [|exists gone; by rewrite (Hb _ Hne)].
  change (queue {| pt_txns_by_senders := m; pt_ordered_txns := x :: ordered |} (txn_sender x))
    with (queue p' (txn_sender x)) in Hg. rewrite Hqx in Hg. rewrite Hq.
  destruct gone as [|y gone]; simpl in Hg; [injection Hg as Hg; by exists []|].
  injection Hg as _ Hg. exists (gone ++ [x]). rewrite <- app_assoc. exact Hg.
Qed.

Lemma queue_own p a x : pending_ok p → x ∈ queue p a → txn_sender x = a.
Proof.
  intros Hp Hx. destruct (Hp a) as [gone Hg].
  assert (Hin : x ∈ by_sender a (pt_ordered_txns p)) by (rewrite Hg; apply elem_of_app; by right).
  by apply elem_of_group in Hin as [? _].
Qed.

(** ** One more transaction *)

Lemma next_unconflicted_spec w orig p :
  pending_ok p → (∀ a, queue p a ≠ [] → has_conflict a w = true) →
  ∃ found orig' p', next_unconflicted w orig p = (found, orig', p') ∧
    pending_ok p' ∧ (∀ a, queue p' a ≠ [] → has_conflict a w = true) ∧
    match found with
    | Some txn => has_conflict (txn_sender txn) w = false ∧
        ∀ a, by_sender a [txn] ++ queue p' a ++ by_sender a orig' = queue p a ++ by_sender a orig
    | None => orig' = [] ∧ ∀ a, queue p' a = queue p a ++ by_sender a orig
    end.
Proof.
  revert p. induction orig as [|x orig IH]; intros p Hp Hc; simpl.
  { exists None, [], p. split_and!; [done..|]. intros a. by rewrite app_nil_r. }
  destruct (has_conflict (txn_sender x) w) eqn:Hx; simpl.
  - destruct (pending_add_spec x p Hp) as [Hp' Hq]. destruct (IH _ Hp') as (found & orig' & p' & -> & Hok & Hc' & Hf).
    { intros a. rewrite Hq, group_single. case_decide as Ha; [by subst|]. rewrite app_nil_r. apply Hc. }
    exists found, orig', p'. split_and!; [done..|].
    destruct found as [txn|]; (split; [apply Hf|]); destruct Hf as [_ Hf]; intros a;
      by rewrite Hf, Hq, (group_cons txn_sender a x orig), app_assoc.
  - exists (Some x), orig, p. split_and!; [done..|]. intros a. rewrite (group_cons txn_sender a x orig), group_single.
    case_decide as Ha; [subst a|done]. destruct (queue p (txn_sender x)) eqn:Hq; [done|].
    rewrite Hc in Hx; [done|]. by rewrite Hq.
Qed.

(** What is chosen next: in the order of its sender, and with a conflict only if
    everything left has one. *)
Record chosen (n : nat) w orig p txn orig' p' : Prop := {
  ch_pending : pending_ok p';
  ch_order a : by_sender a [txn] ++ queue p' a ++ by_sender a orig' = queue p a ++ by_sender a orig;
  ch_waiting a : queue p' a ≠ [] → has_conflict a w = true ∨ a = txn_sender txn;
  ch_spread : has_conflict (txn_sender txn) w = true → ∀ a, queue p a ++ by_sender a orig ≠ [] → has_conflict a w = true;
}.

Lemma search_next_spec n w orig p :
  pending_ok p → (∀ a, queue p a ≠ [] → has_conflict a w = true) → (∃ a, queue p a ++ by_sender a orig ≠ []) →
  ∃ txn orig' p', search_next w orig p = Ok (txn, orig', p') ∧ chosen n w orig p txn orig' p'.
Proof.
  intros Hp Hc [b Hb]. unfold search_next.
  destruct (next_unconflicted_spec w orig p Hp Hc) as (found & orig' & p' & -> & Hok & Hc' & Hf).
  destruct found as [txn|]; destruct Hf as [Hf Hq].
  - exists txn, orig', p'. split; [done|]. split; [done|done|by left; auto|congruence].
  - subst orig'. destruct (first_pending_spec (pt_ordered_txns p') (pt_txns_by_senders p'))
      as (txn & p'' & Hfp & Ht & Hrest & Hok').
    { by destruct p'. }
    { intros a x Hx. apply (queue_own p'); [done|by destruct p']. }
    { exists b. destruct p'. simpl in *. by rewrite Hq. }
    unfold remove_first_pending. rewrite Hfp. simpl.
    assert (Hpq : ∀ a, queue {| pt_txns_by_senders := pt_txns_by_senders p';
      pt_ordered_txns := pt_ordered_txns p' |} a = queue p' a) by by destruct p'.
    rewrite Hpq in Ht. exists txn, [], p''. split; [done|]. split; [done| | |].
    + intros a. rewrite group_single, <- Hq, app_nil_r.
      case_decide as Ha; [subst a; by rewrite Ht|]. by rewrite Hrest, Hpq.
    + intros a Ha. destruct (decide (txn_sender txn = a)) as [<-|Hne]; [by right|]. left. apply Hc'.
      by rewrite Hrest, Hpq in Ha.
    + intros _ a Ha. apply Hc'. by rewrite Hq.
Qed.

Lemma next_to_add_spec n w orig p :
  window_ok n w → pending_ok p →
  (∀ a, queue p a ≠ [] → has_conflict a w = true ∨ last_dropped_sender w = Some a) →
  (∃ a, queue p a ++ by_sender a orig ≠ []) →
  ∃ txn orig' p', next_to_add w orig p = Ok (txn, orig', p') ∧ chosen n w orig p txn orig' p'.
Proof.
  intros Hw Hp Hwait Hsome. unfold next_to_add.
  destruct (last_dropped_sender w) as [d|] eqn:Hd; 
    [|apply search_next_spec; [done| |done]; intros a Ha; by destruct (Hwait a Ha)].
  destruct (queue p d) as [|txn q] eqn:Hqd.
  - assert (remove_pending_from_sender d p = (None, p)) as ->.
    { unfold queue in Hqd. unfold remove_pending_from_sender. by destruct (_ !! d) as [[]|]. }
    apply search_next_spec; [done| |done]. intros a Ha. destruct (Hwait a Ha) as [?|[= <-]]; [done|congruence].
  - destruct (remove_pending_spec _ _ _ _ Hqd) as (p' & -> & Hq & Hrest & Ho).
    assert (Htd : txn_sender txn = d) by (apply (queue_own p); [done|rewrite Hqd; by left]).
    exists txn, orig, p'. split; [done|]. split.
    + eapply (pending_ok_pop d p); [done|exists txn; by rewrite Hq|done|done].
    + intros a. rewrite group_single. case_decide as Ha; simpl.
      * rewrite Htd in Ha. subst a. by rewrite Hq, Hqd.
      * rewrite Hrest by congruence. done.
    + intros a Ha. destruct (decide (d = a)) as [<-|Hne]; [by right|]. rewrite Hrest in Ha by done.
      destruct (Hwait a Ha) as [?|[= ?]]; [by left|done].
    + intros Hc. rewrite Htd, (has_conflict_spec n) in Hc by done.
      pose proof (last_dropped_free n w d Hw Hd). lia.
Qed.

(** ** The shuffled block *)

(** A transaction has a sender of the [n] before it only if every later one has. *)
Definition spread (n : nat) txns : Prop :=
  ∀ i j x y, (i ≤ j)%nat → txns !! i = Some x → txns !! j = Some y →
    txn_sender x ∈ txn_sender <$> window n (take i txns) → txn_sender y ∈ txn_sender <$> window n (take i txns).

Record shuffle_inv (n : nat) inp w orig p : Prop := {
  si_window : window_ok n w;
  si_pending : pending_ok p;
  si_waiting a : queue p a ≠ [] → has_conflict a w = true ∨ last_dropped_sender w = Some a;
  si_order a : by_sender a (sws_txns w) ++ queue p a ++ by_sender a orig = by_sender a inp;
  si_spread i x : sws_txns w !! i = Some x → txn_sender x ∈ txn_sender <$> window n (take i (sws_txns w)) →
    (∀ j y, (i ≤ j)%nat → sws_txns w !! j = Some y → txn_sender y ∈ txn_sender <$> window n (take i (sws_txns w))) ∧
    ∀ a, queue p a ++ by_sender a orig ≠ [] → a ∈ txn_sender <$> window n (take i (sws_txns w));
}.

Lemma shuffle_inv_submseteq n inp w orig p : shuffle_inv n inp w orig p → sws_txns w ⊆+ inp.
Proof.
  intros Hi. apply (group_submseteq txn_sender). intros a. exists (queue p a ++ by_sender a orig).
  symmetry. apply (si_order _ _ _ _ _ Hi).
Qed.

(** Until all transactions are placed, some are left. *)
Lemma shuffle_rest n inp w orig p :
  shuffle_inv n inp w orig p → (length (sws_txns w) < length inp)%nat →
  ∃ a, queue p a ++ by_sender a orig ≠ [].
Proof.
  intros Hi Hlen. pose proof (si_order _ _ _ _ _ Hi) as Hord.
  destruct (decide (Exists (λ x, queue p (txn_sender x) ++ by_sender (txn_sender x) orig ≠ []) inp))
    as [(x & _ & Hx)%Exists_exists|Hnone]; [by eauto|].
  exfalso. assert (Hsub : inp ⊆+ sws_txns w); [|apply submseteq_length in Hsub; lia].
  apply (group_submseteq txn_sender). intros a. rewrite <- Hord.
  destruct (queue p a ++ by_sender a orig) as [|x r] eqn:Hr; [by rewrite app_nil_r|].
  assert (Hx : x ∈ by_sender a inp) by (rewrite <- Hord, Hr; apply elem_of_app; right; by left).
  apply elem_of_group in Hx as [<- Hx]. destruct Hnone. apply Exists_exists. exists x. by rewrite Hr.
Qed.

Lemma shuffle_step n inp w orig p :
  shuffle_inv n inp w orig p → (length (sws_txns w) < length inp)%nat → (0 < n)%nat →
  (Z.of_nat n ≤ i64_max)%Z → (Z.of_nat (length inp) ≤ i64_max)%Z →
  ∃ txn orig' p' w', next_to_add w orig p = Ok (txn, orig', p') ∧ window_add txn w = Ok w' ∧
    shuffle_inv n inp w' orig' p' ∧ length (sws_txns w') = S (length (sws_txns w)).
Proof.
  intros Hi Hlen Hn Hn' Hinp. pose proof Hi as [Hw Hp Hwait Hord Hsp].
  pose proof (shuffle_rest _ _ _ _ _ Hi Hlen) as Hsome.
  destruct (next_to_add_spec n w orig p Hw Hp Hwait Hsome) as (txn & orig' & p' & Hnext & [Hp' Ho Hwt Hspread]).
  destruct (window_add_spec n txn w Hw Hn ltac:(lia) Hn') as (w' & Hadd & Hw' & Htx & Hself & Hdrop).
  exists txn, orig', p', w'. split_and!; [done|done| |by rewrite Htx, length_app, Nat.add_1_r]. split.
  - done.
  - done.
  - intros a Ha. rewrite (has_conflict_spec n w' a Hw'). apply Hwt in Ha as [Ha| ->]; [|by left].
    rewrite (has_conflict_spec n w a Hw) in Ha. by apply Hdrop.
  - intros a. rewrite Htx, group_app, <- app_assoc, Ho. apply Hord.
  - intros i x. rewrite Htx. intros [[Hlt Hx]|[-> ->]]%lookup_snoc_Some.
    + rewrite take_app_le by lia. intros Hc. destruct (Hsp i x Hx Hc) as [Hl Hr]. split.
      * intros j y Hij [[_ Hy]|[-> ->]]%lookup_snoc_Some; [by eapply Hl|]. apply Hr.
        rewrite <- Ho, group_single, decide_True; done.
      * intros a Ha. apply Hr. rewrite <- Ho. intros Hnil. by apply app_nil in Hnil as [_ ?].
    + rewrite take_app_length. intros Hc%occurrences_pos. rewrite <- (has_conflict_spec n w _ Hw) in Hc. split.
      * intros j y Hij [[? _]|[-> ->]]%lookup_snoc_Some; [lia|].
        by apply occurrences_pos, (has_conflict_spec n w _ Hw).
      * intros a Ha. apply occurrences_pos, (has_conflict_spec n w _ Hw), (Hspread Hc).
        rewrite <- Ho. intros Hnil. by apply app_nil in Hnil as [_ ?].
Qed.

Lemma shuffle_loop_spec n inp fuel w orig p :
  shuffle_inv n inp w orig p → (length inp ≤ length (sws_txns w) + fuel)%nat → (0 < n)%nat →
  (Z.of_nat n ≤ i64_max)%Z → (Z.of_nat (length inp) ≤ i64_max)%Z →
  ∃ w' orig' p', shuffle_loop fuel (length inp) w orig p = Ok w' ∧ shuffle_inv n inp w' orig' p' ∧
    length (sws_txns w') = length inp.
Proof.
  revert w orig p. induction fuel as [|fuel IH]; intros w orig p Hi Hfuel Hn Hn' Hinp; simpl.
  all: destruct (Nat.ltb_spec (length (sws_txns w)) (length inp)) as [Hlt|Hge].
  - lia.
  - pose proof (submseteq_length _ _ (shuffle_inv_submseteq _ _ _ _ _ Hi)). exists w, orig, p. split_and!; [done..|lia].
  - destruct (shuffle_step n inp w orig p Hi Hlt Hn Hn' Hinp) as (txn & orig' & p' & w' & -> & Ha & Hi' & Hl).
    cbn [mbind result_bind]. rewrite Ha. apply IH; [done|lia|done..].
  - pose proof (submseteq_length _ _ (shuffle_inv_submseteq _ _ _ _ _ Hi)). exists w, orig, p. split_and!; [done..|lia].
Qed.

Lemma window_new_ok (n : N) : n ≤ u32_max → window_ok (N.to_nat n) (SlidingWindowState_new n).
Proof.
  intros Hn. split; simpl.
  - unfold as_i64. rewrite bool_decide_true by (unfold i64_max, u32_max in *; lia). lia.
  - intros a. by rewrite lookup_empty.
  - by intros a ?%not_elem_of_nil.
Qed.

(** Blocks with one transaction per sender are left alone. *)
Lemma shuffle_loop_distinct n w orig :
  window_ok n w → NoDup (txn_sender <$> sws_txns w ++ orig) → (0 < n)%nat → (Z.of_nat n ≤ i64_max)%Z →
  (Z.of_nat (length (sws_txns w ++ orig)) ≤ i64_max)%Z →
  ∃ w', shuffle_loop (length orig) (length (sws_txns w ++ orig)) w orig PendingTransactions_new = Ok w' ∧
    sws_txns w' = sws_txns w ++ orig.
Proof.
  revert w. induction orig as [|x orig IH]; intros w Hw Hnd Hn Hn' Hlen; simpl.
  { rewrite app_nil_r, Nat.ltb_irrefl. by eauto. }
  rewrite length_app in *. simpl in *. rewrite (proj2 (Nat.ltb_lt _ _)) by lia.
  assert (Hx : has_conflict (txn_sender x) w = false).
  { apply not_true_iff_false. rewrite (has_conflict_spec n) by done. rewrite occurrences_pos.
    rewrite fmap_app, NoDup_app in Hnd. destruct Hnd as (_ & Hnd & _). intros Hin. apply (Hnd (txn_sender x)).
    - apply list_elem_of_fmap in Hin as (y & -> & Hy). apply list_elem_of_fmap. exists y. split; [done|].
      unfold window in Hy. eapply elem_of_submseteq; [exact Hy|]. apply sublist_submseteq, sublist_drop.
    - by left. }
  assert (Hnext : next_to_add w (x :: orig) PendingTransactions_new = Ok (x, orig, PendingTransactions_new)).
  { unfold next_to_add, search_next, remove_pending_from_sender. simpl. rewrite Hx. simpl.
    by destruct (last_dropped_sender w); simpl; rewrite ?lookup_empty. }
  rewrite Hnext. cbn [mbind result_bind].
  destruct (window_add_spec n x w Hw Hn ltac:(lia) Hn') as (w' & -> & Hw' & Htx & _). cbn [mbind result_bind].
  destruct (IH w') as (w'' & Hrun & Hout).
  { done. }
  { by rewrite Htx, <- app_assoc. }
  { done. }
  { done. }
  { rewrite Htx, <- app_assoc, length_app. simpl. lia. }
  exists w''. rewrite Htx, <- app_assoc in *. rewrite length_app in Hrun. simpl in Hrun. done.
Qed.

(** The loop on a block that is shuffled at all. *)
Lemma sender_aware_run n txns :
  n ≤ u32_max → (Z.of_nat (length txns) ≤ i64_max)%Z →
  (∃ w orig p, SenderAwareShuffler_shuffle n txns = Ok (sws_txns w) ∧
     shuffle_inv (N.to_nat n) txns w orig p ∧ length (sws_txns w) = length txns) ∨
  (SenderAwareShuffler_shuffle n txns = Ok txns ∧ (txns = [] ∨ n = 0)).
Proof.
  intros Hn Hlen. unfold SenderAwareShuffler_shuffle.
  case_bool_decide as Hz; [apply nil_length_inv in Hz as ->; by auto|].
  destruct (N.eqb_spec n 0) as [->|Hne]; [by auto|]. left.
  destruct (shuffle_loop_spec (N.to_nat n) txns (length txns) (SlidingWindowState_new n) txns PendingTransactions_new)
    as (w & orig & p & Hrun & Hi & Hl); [|lia|lia|unfold u32_max, i64_max in *; lia|done|].
  - split; [by apply window_new_ok|intros a; exists []| | |]; unfold queue; simpl;
      [by rewrite lookup_empty|intros a; by rewrite lookup_empty..|]. intros i x. by rewrite lookup_nil.
  - rewrite Hrun. by exists w, orig, p.
Qed.

Lemma shuffle_inv_done n inp w orig p a :
  shuffle_inv n inp w orig p → length (sws_txns w) = length inp → by_sender a (sws_txns w) = by_sender a inp.
Proof.
  intros Hi Hl. assert (Hperm : sws_txns w ≡ₚ inp)
    by (apply submseteq_length_Permutation; [by eapply shuffle_inv_submseteq|lia]).
  pose proof (si_order _ _ _ _ _ Hi a) as Ho.
  assert (Hla : length (by_sender a (sws_txns w)) = length (by_sender a inp)) by (unfold group; by rewrite Hperm).
  rewrite <- Ho in *. rewrite length_app in Hla.
  destruct (queue p a ++ by_sender a orig); [by rewrite app_nil_r|simpl in Hla; lia].
Qed.

Lemma sender_aware_order n txns :
  n ≤ u32_max → (Z.of_nat (length txns) ≤ i64_max)%Z →
  ∃ out, SenderAwareShuffler_shuffle n txns = Ok out ∧ ∀ a, by_sender a out = by_sender a txns.
Proof.
  intros Hn Hlen. destruct (sender_aware_run n txns Hn Hlen) as [(w & orig & p & -> & Hi & Hl)|[-> _]]; [|by eauto].
  eexists. split; [done|]. intros a. by eapply shuffle_inv_done.
Qed.

(** The deduper is the one-pass filter it optimises: of the transactions with one
    hash and authenticator exactly the first stays, and the others keep their order,
    although only those that share sender and sequence number are hashed. *)
Theorem dedup_keeps_first txns :
  hashes_identify →
  let out := TxnHashAndAuthenticatorDeduper_dedup txns in
  out = dedup_first ∅ txns ∧ sublist out txns ∧ NoDup (hash_and_authenticator <$> out) ∧
  ∀ x, x ∈ txns → hash_and_authenticator x ∈ hash_and_authenticator <$> out.
Proof.
  intros Hid out. assert (Hout : out = dedup_first ∅ txns) by by apply dedup_is_first.
  rewrite Hout. destruct (dedup_first_spec txns ∅) as (Hs & Hn & Hc & _). split_and!; [done..|].
  intros x [?%not_elem_of_empty|?]%Hc; done.
Qed.

(** The sender aware shuffler terminates without a panic; the block keeps its
    transactions, and every sender the order of its own; a transaction comes within
    the window of another one of its sender only when all that are left would; and a
    block with one transaction per sender stays as it is. *)
Theorem sender_aware_shuffle_correct n txns :
  n ≤ u32_max → (Z.of_nat (length txns) ≤ i64_max)%Z →
  ∃ out, SenderAwareShuffler_shuffle n txns = Ok out ∧ out ≡ₚ txns ∧
    (∀ a, by_sender a out = by_sender a txns) ∧ spread (N.to_nat n) out ∧
    (NoDup (txn_sender <$> txns) → out = txns).
Proof.
  intros Hn Hlen. destruct (sender_aware_run n txns Hn Hlen) as [(w & orig & p & Hrun & Hi & Hl)|[-> Hz]].
  - exists (sws_txns w). pose proof (λ a, shuffle_inv_done _ _ _ _ _ a Hi Hl) as Hord.
    split_and!; [done|by apply (group_perm txn_sender)|done| |].
    + intros i j x y Hij Hx Hy Hc. by destruct (si_spread _ _ _ _ _ Hi i x Hx Hc) as [? _]; eauto.
    + intros Hnd. unfold SenderAwareShuffler_shuffle in Hrun. case_bool_decide; [by injection Hrun as <-|].
      destruct (N.eqb_spec n 0); [by injection Hrun as <-|].
      destruct (shuffle_loop_distinct (N.to_nat n) (SlidingWindowState_new n) txns) as (w' & Hrun' & Hout);
        [by apply window_new_ok|done|lia|unfold u32_max, i64_max in *; lia|done|].
      simpl in *. rewrite Hrun' in Hrun. simpl in Hrun. congruence.
  - exists txns. split_and!; [done..| |done]. destruct Hz as [->| ->].
    + intros i j x y _ Hx. by rewrite lookup_nil in Hx.
    + intros i j x y _ _ _. unfold window. rewrite Nat.sub_0_r, drop_all. by intros ?%not_elem_of_nil.
Qed.

End preparation.
