(* ===== verification/UseCaseShuffler.v ===== *)
(** * The use case aware shuffler

    transaction_shuffler/use_case_aware: utils.rs, delayed_queue.rs, iterator.rs
    and mod.rs.  Transactions of one sender or one use case are kept apart by
    delaying them in a queue of queues, whose code asserts its bookkeeping at every
    step.  The theorem: no assertion fails, the shuffling returns, and its result
    is a permutation that keeps the order of every sender. *)

From S2P Require Import Prelude Gaptos Types ConsensusDb BatchStore Shuffler.

(** ** Maps that check their use (utils.rs) *)

Section strict.
Context {GA : Gaptos} {K V : Type} `{Countable K}.

Definition strict_insert (key : K) (value : V) (m : gmap K V) : result Anyhow (gmap K V) :=
  _ ← assert_ (bool_decide (m !! key = None)) "assertion failed: self.insert(key, value).is_none()";
  Ok (<[key := value]> m).

Definition strict_remove (key : K) (m : gmap K V) : result Anyhow (gmap K V) :=
  _ ← assert_ (bool_decide (is_Some (m !! key))) "assertion failed: self.remove(key).is_some()";
  Ok (delete key m).

Definition expect_mut (key : K) (m : gmap K V) : result Anyhow V :=
  expect "Known to exist." (m !! key).
End strict.

(** ** Keys of the priority queues *)

Record DelayKey := { dk_try_delay_till : N; dk_input_idx : N }.

#[global] Instance DelayKey_eqdec : EqDecision DelayKey.
Proof. solve_decision. Defined.
#[global] Instance DelayKey_countable : Countable DelayKey.
Proof.
  apply (inj_countable' (λ k, (dk_try_delay_till k, dk_input_idx k))
    (λ '(t, i), {| dk_try_delay_till := t; dk_input_idx := i |})).
  by intros [].
Defined.

(** The derived order: first the delay, then the index. *)
Definition dk_leb (k1 k2 : DelayKey) : bool :=
  (dk_try_delay_till k1 <? dk_try_delay_till k2) ||
  ((dk_try_delay_till k1 =? dk_try_delay_till k2) && (dk_input_idx k1 <=? dk_input_idx k2)).

(** The least entry of a [BTreeMap]. *)
Definition min_entry {V} (x : DelayKey * V) (acc : option (DelayKey * V)) : option (DelayKey * V) :=
  match acc with
  | Some y => if dk_leb x.1 y.1 then Some x else Some y
  | None => Some x
  end.
Definition first_key_value {V} (m : gmap DelayKey V) : option (DelayKey * V) :=
  foldr min_entry None (map_to_list m).

Lemma dk_leb_spec k1 k2 :
  dk_leb k1 k2 = true ↔ dk_try_delay_till k1 < dk_try_delay_till k2 ∨
    (dk_try_delay_till k1 = dk_try_delay_till k2 ∧ dk_input_idx k1 ≤ dk_input_idx k2).
Proof. unfold dk_leb. rewrite orb_true_iff, andb_true_iff, N.ltb_lt, N.eqb_eq, N.leb_le. done. Qed.

Lemma dk_leb_false k1 k2 : dk_leb k1 k2 = false → dk_leb k2 k1 = true.
Proof. rewrite <- not_true_iff_false, !dk_leb_spec. lia. Qed.

Lemma dk_leb_trans k1 k2 k3 : dk_leb k1 k2 = true → dk_leb k2 k3 = true → dk_leb k1 k3 = true.
Proof. rewrite !dk_leb_spec. lia. Qed.

Lemma dk_leb_refl k : dk_leb k k = true.
Proof. rewrite dk_leb_spec. lia. Qed.

Lemma min_entry_spec {V} (l : list (DelayKey * V)) :
  match foldr min_entry None l with
  | Some x => x ∈ l ∧ ∀ y, y ∈ l → dk_leb x.1 y.1 = true
  | None => l = []
  end.
Proof.
  induction l as [|x l IH]; simpl; [done|]. destruct (foldr min_entry None l) as [z|]; simpl.
  - destruct IH as [Hz Hl]. destruct (dk_leb x.1 z.1) eqn:Hx.
    + split; [by left|]. intros y [->|Hy]%elem_of_cons; [apply dk_leb_refl|]. eauto using dk_leb_trans.
    + split; [by right|]. intros y [->|Hy]%elem_of_cons; [by apply dk_leb_false|auto].
  - subst l. split; [by left|]. intros y ->%list_elem_of_singleton. apply dk_leb_refl.
Qed.

Lemma first_key_value_Some {V} (m : gmap DelayKey V) k x :
  first_key_value m = Some (k, x) → m !! k = Some x ∧ ∀ k' x', m !! k' = Some x' → dk_leb k k' = true.
Proof.
  unfold first_key_value. intros H. pose proof (min_entry_spec (map_to_list m)) as Hs. rewrite H in Hs.
  destruct Hs as [Hin Hmin]. split; [by apply elem_of_map_to_list|].
  intros k' x' Hk'. apply (Hmin (k', x')). by apply elem_of_map_to_list.
Qed.

Lemma first_key_value_None {V} (m : gmap DelayKey V) : first_key_value m = None ↔ m = ∅.
Proof.
  unfold first_key_value. pose proof (min_entry_spec (map_to_list m)) as Hs. split.
  - intros H. rewrite H in Hs. by apply map_to_list_empty_iff.
  - intros ->. by rewrite map_to_list_empty.
Qed.

Section use_case_aware.
Context {GA : Gaptos}.

#[global] Instance UseCaseKey_eqdec : EqDecision UseCaseKey.
Proof. solve_decision. Defined.
#[global] Instance UseCaseKey_countable : Countable UseCaseKey.
Proof.
  apply (inj_countable' (λ u, match u with Platform => inl true | ContractAddress a => inr a | Others => inl false end)
    (λ s, match s with inl true => Platform | inr a => ContractAddress a | inl false => Others end)).
  by intros [].
Defined.

(** [UseCaseAwareTransaction]; the queue is generic in the transactions. *)
Class UseCaseAwareTransaction (Txn : Type) := {
  parse_sender : Txn → AccountAddress;
  parse_use_case : Txn → UseCaseKey;
}.

Context {Txn : Type} {UT : UseCaseAwareTransaction Txn}.

(** ** Configuration (mod.rs) *)

Record Config := {
  cfg_sender_spread_factor : N;
  cfg_platform_use_case_spread_factor : N;
  cfg_user_use_case_spread_factor : N;
}.

Definition use_case_spread_factor (c : Config) (use_case_key : UseCaseKey) : N :=
  match use_case_key with
  | Platform => cfg_platform_use_case_spread_factor c
  | ContractAddress _ | Others => cfg_user_use_case_spread_factor c
  end.

(** ** Accounts *)

Record Account := {
  ac_try_delay_till : N;
  ac_input_idx : N;
  ac_txns : list (N * Txn);
}.

Definition Account_new_with_txn (try_delay_till input_idx : N) (txn : Txn) : Account :=
  {| ac_try_delay_till := try_delay_till; ac_input_idx := input_idx; ac_txns := [(input_idx, txn)] |}.
Definition Account_new_empty (try_delay_till input_idx : N) : Account :=
  {| ac_try_delay_till := try_delay_till; ac_input_idx := input_idx; ac_txns := [] |}.

Definition account_is_empty (a : Account) : bool := bool_decide (length (ac_txns a) = 0%nat).

Definition account_delay_key (a : Account) : DelayKey :=
  {| dk_try_delay_till := ac_try_delay_till a; dk_input_idx := ac_input_idx a |}.

Definition expect_use_case_key (a : Account) : result Anyhow UseCaseKey :=
  first_txn ← expect "Must exist." (head (ac_txns a));
  Ok (parse_use_case first_txn.2).

Definition account_queue_txn (input_idx : N) (txn : Txn) (a : Account) : result Anyhow Account :=
  input ← match last (ac_txns a) with
          | Some last_txn =>
              _ ← assert_ (last_txn.1 <? input_idx) "assertion failed: last_txn.input_idx < input_idx";
              Ok (ac_input_idx a)
          | None => Ok input_idx
          end;
  Ok {| ac_try_delay_till := ac_try_delay_till a; ac_input_idx := input;
        ac_txns := ac_txns a ++ [(input_idx, txn)] |}.

Definition expect_dequeue_txn (a : Account) : result Anyhow (N * Txn * Account) :=
  match ac_txns a with
  | [] => Panic "Must exist."
  | txn :: txns =>
      Ok (txn, {| ac_try_delay_till := ac_try_delay_till a;
                  ac_input_idx := match txns with next_txn :: _ => next_txn.1 | [] => ac_input_idx a end;
                  ac_txns := txns |})
  end.

Definition account_update_try_delay_till (try_delay_till : N) (a : Account) : Account :=
  {| ac_try_delay_till := try_delay_till; ac_input_idx := ac_input_idx a; ac_txns := ac_txns a |}.

(** ** Use cases *)

Record UseCase := {
  uc_try_delay_till : N;
  uc_input_idx : N;
  uc_account_by_delay : gmap DelayKey AccountAddress;
}.

Definition UseCase_new_empty (try_delay_till input_idx : N) : UseCase :=
  {| uc_try_delay_till := try_delay_till; uc_input_idx := input_idx; uc_account_by_delay := ∅ |}.

Definition UseCase_new_with_account (try_delay_till : N) (address : AccountAddress) (account : Account)
    : result Anyhow UseCase :=
  account_by_delay ← strict_insert (account_delay_key account) address ∅;
  Ok {| uc_try_delay_till := try_delay_till; uc_input_idx := ac_input_idx account;
        uc_account_by_delay := account_by_delay |}.

Definition use_case_is_empty (u : UseCase) : bool := bool_decide (size (uc_account_by_delay u) = 0%nat).

Definition use_case_delay_key (u : UseCase) : DelayKey :=
  {| dk_try_delay_till :=
       N.max (uc_try_delay_till u)
         (match first_key_value (uc_account_by_delay u) with Some (k, _) => dk_try_delay_till k | None => 0 end);
     dk_input_idx := uc_input_idx u |}.

Definition expect_pop_head_account (u : UseCase) : result Anyhow (DelayKey * AccountAddress * UseCase) :=
  '(account_delay_key, address) ← expect "Must exist." (first_key_value (uc_account_by_delay u));
  let rest := delete account_delay_key (uc_account_by_delay u) in
  Ok (account_delay_key, address,
      {| uc_try_delay_till := uc_try_delay_till u;
         uc_input_idx := match first_key_value rest with Some (k, _) => dk_input_idx k | None => uc_input_idx u end;
         uc_account_by_delay := rest |}).

Definition use_case_update_try_delay_till (try_delay_till : N) (u : UseCase) : UseCase :=
  {| uc_try_delay_till := try_delay_till; uc_input_idx := uc_input_idx u;
     uc_account_by_delay := uc_account_by_delay u |}.

Definition add_account (address : AccountAddress) (account : Account) (u : UseCase) : result Anyhow UseCase :=
  account_by_delay ← strict_insert (account_delay_key account) address (uc_account_by_delay u);
  '(_, head_address) ← expect "Must exist." (first_key_value account_by_delay);
  Ok {| uc_try_delay_till := uc_try_delay_till u;
        uc_input_idx := if bool_decide (head_address = address) then ac_input_idx account else uc_input_idx u;
        uc_account_by_delay := account_by_delay |}.

(** ** The delayed queue *)

Record DelayedQueue := {
  dq_accounts : gmap AccountAddress Account;
  dq_use_cases : gmap UseCaseKey UseCase;
  dq_use_cases_by_delay : gmap DelayKey UseCaseKey;
  dq_account_placeholders_by_delay : gmap DelayKey AccountAddress;
  dq_use_case_placeholders_by_delay : gmap DelayKey UseCaseKey;
  dq_output_idx : N;
  dq_config : Config;
}.

Definition DelayedQueue_new (config : Config) : DelayedQueue :=
  {| dq_accounts := ∅; dq_use_cases := ∅; dq_use_cases_by_delay := ∅; dq_account_placeholders_by_delay := ∅;
     dq_use_case_placeholders_by_delay := ∅; dq_output_idx := 0; dq_config := config |}.

Definition set_queues (use_cases_by_delay : gmap DelayKey UseCaseKey)
    (account_placeholders : gmap DelayKey AccountAddress) (use_case_placeholders : gmap DelayKey UseCaseKey)
    (q : DelayedQueue) : DelayedQueue :=
  {| dq_accounts := dq_accounts q; dq_use_cases := dq_use_cases q;
     dq_use_cases_by_delay := use_cases_by_delay; dq_account_placeholders_by_delay := account_placeholders;
     dq_use_case_placeholders_by_delay := use_case_placeholders; dq_output_idx := dq_output_idx q;
     dq_config := dq_config q |}.

Definition set_registries (accounts : gmap AccountAddress Account) (use_cases : gmap UseCaseKey UseCase)
    (output_idx : N) (q : DelayedQueue) : DelayedQueue :=
  {| dq_accounts := accounts; dq_use_cases := use_cases;
     dq_use_cases_by_delay := dq_use_cases_by_delay q;
     dq_account_placeholders_by_delay := dq_account_placeholders_by_delay q;
     dq_use_case_placeholders_by_delay := dq_use_case_placeholders_by_delay q; dq_output_idx := output_idx;
     dq_config := dq_config q |}.

(** Writing through a [&mut] into a registry. *)
Definition put_account (address : AccountAddress) (a : Account) (q : DelayedQueue) : DelayedQueue :=
  set_registries (<[address := a]> (dq_accounts q)) (dq_use_cases q) (dq_output_idx q) q.
Definition put_use_case (key : UseCaseKey) (u : UseCase) (q : DelayedQueue) : DelayedQueue :=
  set_registries (dq_accounts q) (<[key := u]> (dq_use_cases q)) (dq_output_idx q) q.

Definition set_use_cases_by_delay (m : gmap DelayKey UseCaseKey) (q : DelayedQueue) : DelayedQueue :=
  set_queues m (dq_account_placeholders_by_delay q) (dq_use_case_placeholders_by_delay q) q.
Definition set_account_placeholders (m : gmap DelayKey AccountAddress) (q : DelayedQueue) : DelayedQueue :=
  set_queues (dq_use_cases_by_delay q) m (dq_use_case_placeholders_by_delay q) q.
Definition set_use_case_placeholders (m : gmap DelayKey UseCaseKey) (q : DelayedQueue) : DelayedQueue :=
  set_queues (dq_use_cases_by_delay q) (dq_account_placeholders_by_delay q) m q.

(** The two ways a use case gets back into the queues, and out of them. *)
Definition track_use_case (key : UseCaseKey) (u : UseCase) (q : DelayedQueue) : result Anyhow DelayedQueue :=
  if use_case_is_empty u then
    m ← strict_insert (use_case_delay_key u) key (dq_use_case_placeholders_by_delay q);
    Ok (set_use_case_placeholders m q)
  else
    m ← strict_insert (use_case_delay_key u) key (dq_use_cases_by_delay q);
    Ok (set_use_cases_by_delay m q).

Definition untrack_use_case (u : UseCase) (q : DelayedQueue) : result Anyhow DelayedQueue :=
  if use_case_is_empty u then
    m ← strict_remove (use_case_delay_key u) (dq_use_case_placeholders_by_delay q);
    Ok (set_use_case_placeholders m q)
  else
    m ← strict_remove (use_case_delay_key u) (dq_use_cases_by_delay q);
    Ok (set_use_cases_by_delay m q).

(** The entries [split_off] leaves behind, and those it returns. *)
Definition stale {V} (least_to_keep : DelayKey) (m : gmap DelayKey V) : gmap DelayKey V :=
  filter (λ x, dk_leb least_to_keep x.1 = false) m.
Definition remaining {V} (least_to_keep : DelayKey) (m : gmap DelayKey V) : gmap DelayKey V :=
  filter (λ x, dk_leb least_to_keep x.1 = true) m.

Fixpoint remove_all {K V} `{Countable K} (keys : list K) (m : gmap K V) : result Anyhow (gmap K V) :=
  match keys with
  | [] => Ok m
  | key :: keys => m ← strict_remove key m; remove_all keys m
  end.

Definition drain_placeholders (q : DelayedQueue) : result Anyhow DelayedQueue :=
  next ← add_u64 (dq_output_idx q) 1;
  let least_to_keep := {| dk_try_delay_till := next; dk_input_idx := 0 |} in
  use_cases ← remove_all (map_to_list (stale least_to_keep (dq_use_case_placeholders_by_delay q))).*2 (dq_use_cases q);
  accounts ← remove_all (map_to_list (stale least_to_keep (dq_account_placeholders_by_delay q))).*2 (dq_accounts q);
  Ok (set_queues (dq_use_cases_by_delay q)
        (remaining least_to_keep (dq_account_placeholders_by_delay q))
        (remaining least_to_keep (dq_use_case_placeholders_by_delay q))
        (set_registries accounts use_cases (dq_output_idx q) q)).

Definition bump_output_idx (output_idx : N) (q : DelayedQueue) : result Anyhow DelayedQueue :=
  _ ← assert_ (dq_output_idx q <=? output_idx) "assertion failed: output_idx >= self.output_idx";
  if dq_output_idx q <? output_idx then
    drain_placeholders (set_registries (dq_accounts q) (dq_use_cases q) output_idx q)
  else Ok q.

(** [self.output_idx + 1 + spread_factor]. *)
Definition delay_by (spread_factor : N) (q : DelayedQueue) : result Anyhow N :=
  next ← add_u64 (dq_output_idx q) 1;
  add_u64 next spread_factor.

(** The account of a delayed transaction joins its use case. *)
Definition join_use_case (key : UseCaseKey) (address : AccountAddress) (account : Account) (vacant_delay : N)
    (q : DelayedQueue) : result Anyhow DelayedQueue :=
  match dq_use_cases q !! key with
  | Some use_case =>
      q ← untrack_use_case use_case q;
      use_case ← add_account address account use_case;
      m ← strict_insert (use_case_delay_key use_case) key (dq_use_cases_by_delay q);
      Ok (put_use_case key use_case (set_use_cases_by_delay m q))
  | None =>
      use_case ← UseCase_new_with_account vacant_delay address account;
      m ← strict_insert (use_case_delay_key use_case) key (dq_use_cases_by_delay q);
      Ok (put_use_case key use_case (set_use_cases_by_delay m q))
  end.

(** The end of [pop_head]: account and use case go back to the queues. *)
Definition requeue (use_case_key : UseCaseKey) (use_case : UseCase) (address : AccountAddress) (account : Account)
    (q : DelayedQueue) : result Anyhow DelayedQueue :=
  if account_is_empty account then
    m ← strict_insert (account_delay_key account) address (dq_account_placeholders_by_delay q);
    track_use_case use_case_key use_case (put_use_case use_case_key use_case (set_account_placeholders m q))
  else
    new_use_case_key ← expect_use_case_key account;
    if bool_decide (new_use_case_key = use_case_key) then
      use_case ← add_account address account use_case;
      m ← strict_insert (use_case_delay_key use_case) use_case_key (dq_use_cases_by_delay q);
      Ok (put_use_case use_case_key use_case (set_use_cases_by_delay m q))
    else
      q ← track_use_case use_case_key use_case (put_use_case use_case_key use_case q);
      next ← add_u64 (dq_output_idx q) 1;
      join_use_case new_use_case_key address account next q.

Definition pop_head (only_if_ready : bool) (q : DelayedQueue) : result Anyhow (option Txn * DelayedQueue) :=
  match first_key_value (dq_use_cases_by_delay q) with
  | None => Ok (None, q)
  | Some (use_case_delay_key, use_case_key) =>
      if only_if_ready && (dq_output_idx q <? dk_try_delay_till use_case_delay_key) then Ok (None, q)
      else
        let q := set_use_cases_by_delay (delete use_case_delay_key (dq_use_cases_by_delay q)) q in
        use_case ← expect_mut use_case_key (dq_use_cases q);
        '(account_delay_key, address, use_case) ← expect_pop_head_account use_case;
        _ ← assert_ (dk_try_delay_till account_delay_key <=? dk_try_delay_till use_case_delay_key)
              "assertion failed: account_delay_key.try_delay_till <= use_case_delay_key.try_delay_till";
        _ ← assert_ (dk_input_idx account_delay_key =? dk_input_idx use_case_delay_key)
              "assertion `left == right` failed";
        account ← expect_mut address (dq_accounts q);
        '(txn, account) ← expect_dequeue_txn account;
        account_delay ← delay_by (cfg_sender_spread_factor (dq_config q)) q;
        let account := account_update_try_delay_till account_delay account in
        use_case_delay ← delay_by (use_case_spread_factor (dq_config q) use_case_key) q;
        let use_case := use_case_update_try_delay_till use_case_delay use_case in
        q ← requeue use_case_key use_case address account (put_account address account q);
        Ok (Some txn.2, q)
  end.

Definition queue_txn (input_idx : N) (address : AccountAddress) (use_case_key : UseCaseKey) (txn : Txn)
    (q : DelayedQueue) : result Anyhow DelayedQueue :=
  match dq_accounts q !! address with
  | Some account =>
      if account_is_empty account then
        let q := set_account_placeholders
                   (delete (account_delay_key account) (dq_account_placeholders_by_delay q)) q in
        account ← account_queue_txn input_idx txn account;
        join_use_case use_case_key address account (dq_output_idx q) (put_account address account q)
      else
        account ← account_queue_txn input_idx txn account;
        Ok (put_account address account q)
  | None =>
      next ← add_u64 (dq_output_idx q) 1;
      let account := Account_new_with_txn next input_idx txn in
      use_case ← expect_mut use_case_key (dq_use_cases q);
      q ← untrack_use_case use_case q;
      use_case ← add_account address account use_case;
      accounts ← strict_insert address account (dq_accounts q);
      m ← strict_insert (use_case_delay_key use_case) use_case_key (dq_use_cases_by_delay q);
      Ok (put_use_case use_case_key use_case
            (set_use_cases_by_delay m (set_registries accounts (dq_use_cases q) (dq_output_idx q) q)))
  end.

(** The use case of a selected transaction: it waits, with or without accounts. *)
Definition delay_use_case (input_idx : N) (use_case_key : UseCaseKey) (use_case_try_delay_till : N)
    (q : DelayedQueue) : result Anyhow DelayedQueue :=
  match dq_use_cases q !! use_case_key with
  | Some use_case =>
      _ ← assert_ (negb (use_case_is_empty use_case)) "assertion failed: !use_case.is_empty()";
      m ← strict_remove (use_case_delay_key use_case) (dq_use_cases_by_delay q);
      let use_case := use_case_update_try_delay_till use_case_try_delay_till use_case in
      m ← strict_insert (use_case_delay_key use_case) use_case_key m;
      Ok (put_use_case use_case_key use_case (set_use_cases_by_delay m q))
  | None =>
      let use_case := UseCase_new_empty use_case_try_delay_till input_idx in
      m ← strict_insert (use_case_delay_key use_case) use_case_key (dq_use_case_placeholders_by_delay q);
      Ok (put_use_case use_case_key use_case (set_use_case_placeholders m q))
  end.

Definition update_delays_for_selected_txn (input_idx : N) (address : AccountAddress) (use_case_key : UseCaseKey)
    (q : DelayedQueue) : result Anyhow DelayedQueue :=
  account_try_delay_till ← delay_by (cfg_sender_spread_factor (dq_config q)) q;
  use_case_try_delay_till ← delay_by (use_case_spread_factor (dq_config q) use_case_key) q;
  q ← delay_use_case input_idx use_case_key use_case_try_delay_till q;
  let new_account := Account_new_empty account_try_delay_till input_idx in
  accounts ← strict_insert address new_account (dq_accounts q);
  m ← strict_insert (account_delay_key new_account) address (dq_account_placeholders_by_delay q);
  Ok (set_account_placeholders m (set_registries accounts (dq_use_cases q) (dq_output_idx q) q)).

Definition queue_or_return (input_idx : N) (txn : Txn) (q : DelayedQueue)
    : result Anyhow (option Txn * DelayedQueue) :=
  let address := parse_sender txn in
  let use_case_key := parse_use_case txn in
  let account_should_delay :=
    match dq_accounts q !! address with
    | Some account => negb (account_is_empty account) || (dq_output_idx q <? ac_try_delay_till account)
    | None => false
    end in
  let use_case_should_delay :=
    match dq_use_cases q !! use_case_key with
    | Some use_case => dq_output_idx q <? uc_try_delay_till use_case
    | None => false
    end in
  if account_should_delay || use_case_should_delay then
    q ← queue_txn input_idx address use_case_key txn q;
    Ok (None, q)
  else
    q ← update_delays_for_selected_txn input_idx address use_case_key q;
    Ok (Some txn, q).

(** ** The iterator *)

Record ShuffledTransactionIterator := {
  sti_input_queue : list Txn;
  sti_delayed_queue : DelayedQueue;
  sti_input_idx : N;
  sti_output_idx : N;
}.

Definition ShuffledTransactionIterator_new (config : Config) (txns : list Txn) : ShuffledTransactionIterator :=
  {| sti_input_queue := txns; sti_delayed_queue := DelayedQueue_new config; sti_input_idx := 0;
     sti_output_idx := 0 |}.

(** The loop over the input: the first transaction that need not be delayed. *)
Fixpoint seek (input_queue : list Txn) (input_idx : N) (q : DelayedQueue)
    : result Anyhow (option Txn * list Txn * N * DelayedQueue) :=
  match input_queue with
  | [] => Ok (None, [], input_idx, q)
  | txn :: input_queue =>
      next_idx ← add_u64 input_idx 1;
      '(selected, q) ← queue_or_return input_idx txn q;
      match selected with
      | Some txn => Ok (Some txn, input_queue, next_idx, q)
      | None => seek input_queue next_idx q
      end
  end.

Definition select_next_txn_inner (it : ShuffledTransactionIterator)
    : result Anyhow (option Txn * ShuffledTransactionIterator) :=
  q ← bump_output_idx (sti_output_idx it) (sti_delayed_queue it);
  '(ready, q) ← pop_head true q;
  match ready with
  | Some txn =>
      Ok (Some txn, {| sti_input_queue := sti_input_queue it; sti_delayed_queue := q;
                       sti_input_idx := sti_input_idx it; sti_output_idx := sti_output_idx it |})
  | None =>
      '(selected, input_queue, input_idx, q) ← seek (sti_input_queue it) (sti_input_idx it) q;
      match selected with
      | Some txn =>
          Ok (Some txn, {| sti_input_queue := input_queue; sti_delayed_queue := q;
                           sti_input_idx := input_idx; sti_output_idx := sti_output_idx it |})
      | None =>
          '(txn, q) ← pop_head false q;
          Ok (txn, {| sti_input_queue := input_queue; sti_delayed_queue := q;
                      sti_input_idx := input_idx; sti_output_idx := sti_output_idx it |})
      end
  end.

Definition select_next_txn (it : ShuffledTransactionIterator)
    : result Anyhow (option Txn * ShuffledTransactionIterator) :=
  '(ret, it) ← select_next_txn_inner it;
  match ret with
  | Some txn =>
      next ← add_u64 (sti_output_idx it) 1;
      Ok (Some txn, {| sti_input_queue := sti_input_queue it; sti_delayed_queue := sti_delayed_queue it;
                       sti_input_idx := sti_input_idx it; sti_output_idx := next |})
  | None => Ok (None, it)
  end.

(** [collect]: every call but the last returns another transaction, and [fuel]
    counts the calls. *)
Fixpoint collect_shuffled (fuel : nat) (it : ShuffledTransactionIterator) : result Anyhow (list Txn) :=
  match fuel with
  | O => Panic "out of fuel"
  | S fuel =>
      '(next, it) ← select_next_txn it;
      match next with
      | Some txn => rest ← collect_shuffled fuel it; Ok (txn :: rest)
      | None => Ok []
      end
  end.

Definition UseCaseAwareShuffler_shuffle (config : Config) (txns : list Txn) : result Anyhow (list Txn) :=
  collect_shuffled (S (length txns)) (ShuffledTransactionIterator_new config txns).

(** ** The invariant *)

Section invariant.
Context (inp : list Txn).
Implicit Types (a : AccountAddress) (u : UseCaseKey) (acc : Account) (uc : UseCase) (q : DelayedQueue) (k : DelayKey).

(** The transaction of an index, its sender and its use case. *)
Definition input_at (i : N) : option Txn := inp !! N.to_nat i.
Definition sent_by (i : N) a : Prop := parse_sender <$> input_at i = Some a.
Definition used_for (i : N) u : Prop := parse_use_case <$> input_at i = Some u.

Lemma sent_by_inj i a b : sent_by i a → sent_by i b → a = b.
Proof. unfold sent_by. congruence. Qed.
Lemma used_for_inj i u v : used_for i u → used_for i v → u = v.
Proof. unfold used_for. congruence. Qed.

(** An account queues its own transactions, in the order of the input. *)
Record account_ok a acc : Prop := {
  ao_txns i txn : (i, txn) ∈ ac_txns acc → input_at i = Some txn ∧ parse_sender txn = a;
  ao_sorted : StronglySorted N.lt (ac_txns acc).*1;
  ao_head i txn : head (ac_txns acc) = Some (i, txn) → ac_input_idx acc = i;
  ao_idx : sent_by (ac_input_idx acc) a;
}.

(** The use case an account waits in: that of its first transaction. *)
Definition home acc : option UseCaseKey := (λ x, parse_use_case x.2) <$> head (ac_txns acc).

(** The index of a use case with accounts is that of the first account. *)
Definition head_ok uc : Prop :=
  ∀ k a, first_key_value (uc_account_by_delay uc) = Some (k, a) → uc_input_idx uc = dk_input_idx k.

(** A map is the index of a relation. *)
Definition indexes {V} (m : gmap DelayKey V) (R : V → DelayKey → Prop) : Prop :=
  ∀ k x, m !! k = Some x ↔ R x k.

(** [R] without [out]. *)
Definition except {V} (out : option V) (R : V → DelayKey → Prop) (x : V) (k : DelayKey) : Prop :=
  out ≠ Some x ∧ R x k.

(** The accounts that wait in [place], and the use cases with or without
    accounts, with their keys. *)
Definition waits q (place : option UseCaseKey) a k : Prop :=
  ∃ acc, dq_accounts q !! a = Some acc ∧ home acc = place ∧ k = account_delay_key acc.
Definition listed q (empty : bool) u k : Prop :=
  ∃ uc, dq_use_cases q !! u = Some uc ∧ use_case_is_empty uc = empty ∧ k = use_case_delay_key uc.

(** Every queue holds exactly the entries its registry says, with their keys;
    [da] and [du] are an account and a use case that are out of the queues while
    they change. *)
Record reg_inv (da : option AccountAddress) q : Prop := {
  ri_account a acc : dq_accounts q !! a = Some acc → account_ok a acc;
  ri_placeholder : indexes (dq_account_placeholders_by_delay q) (except da (waits q None));
  ri_use_case u uc : dq_use_cases q !! u = Some uc →
    used_for (uc_input_idx uc) u ∧ head_ok uc ∧ indexes (uc_account_by_delay uc) (except da (waits q (Some u)));
  ri_home a acc u : da ≠ Some a → dq_accounts q !! a = Some acc → home acc = Some u → is_Some (dq_use_cases q !! u);
  ri_late k a : dq_account_placeholders_by_delay q !! k = Some a → dq_output_idx q < dk_try_delay_till k;
}.

Record queue_inv (du : option UseCaseKey) q : Prop := {
  qi_by_delay : indexes (dq_use_cases_by_delay q) (except du (listed q false));
  qi_placeholder : indexes (dq_use_case_placeholders_by_delay q) (except du (listed q true));
  qi_late k u : dq_use_case_placeholders_by_delay q !! k = Some u → dq_output_idx q < dk_try_delay_till k;
}.

Definition dq_inv da du q : Prop := reg_inv da q ∧ queue_inv du q.

(** [q'] differs from [q] in the queues only. *)
Definition same_registries q q' : Prop :=
  dq_accounts q' = dq_accounts q ∧ dq_use_cases q' = dq_use_cases q ∧
  dq_output_idx q' = dq_output_idx q ∧ dq_config q' = dq_config q.

Lemma use_case_empty uc : use_case_is_empty uc = true ↔ uc_account_by_delay uc = ∅.
Proof. unfold use_case_is_empty. rewrite bool_decide_eq_true. apply map_size_empty_iff. Qed.

Lemma empty_delay uc : use_case_is_empty uc = true → dk_try_delay_till (use_case_delay_key uc) = uc_try_delay_till uc.
Proof.
  intros He%use_case_empty%first_key_value_None. unfold use_case_delay_key. rewrite He. simpl. lia.
Qed.

Lemma account_empty acc : account_is_empty acc = true ↔ home acc = None.
Proof. unfold account_is_empty, home. rewrite bool_decide_eq_true. by destruct (ac_txns acc). Qed.

Lemma strict_insert_ok {K V} `{Countable K} (k : K) (x : V) (m : gmap K V) :
  m !! k = None → strict_insert k x m = Ok (<[k := x]> m).
Proof. intros H'. unfold strict_insert. by rewrite H', bool_decide_true. Qed.

Lemma strict_remove_ok {K V} `{Countable K} (k : K) (x : V) (m : gmap K V) :
  m !! k = Some x → strict_remove k m = Ok (delete k m).
Proof. intros H'. unfold strict_remove. rewrite H', bool_decide_true; [done|by eauto]. Qed.

Section indexes.
Context {V : Type}.
Implicit Types (m : gmap DelayKey V) (R : V → DelayKey → Prop) (x : V).

Lemma indexes_delete m R k0 x0 :
  indexes m (except None R) → (∀ k, R x0 k → k = k0) → (∀ x, R x k0 → x = x0) →
  indexes (delete k0 m) (except (Some x0) R).
Proof.
  intros Hm Hk Hx k x. rewrite lookup_delete_Some, (Hm k x). split; intros [? HR].
  - destruct HR as [_ HR]. split; [|done]. intros [= ->]. by apply Hk in HR.
  - split; [|by split]. intros ->. by apply Hx in HR as ->.
Qed.

Lemma indexes_insert m R k0 x0 :
  indexes m (except (Some x0) R) → R x0 k0 → (∀ k, R x0 k → k = k0) → (∀ x, R x k0 → x = x0) →
  m !! k0 = None ∧ indexes (<[k0 := x0]> m) (except None R).
Proof.
  intros Hm H0 Hk Hx. assert (Hn : m !! k0 = None).
  { apply eq_None_not_Some. intros [x [Hne ->%Hx]%Hm]. done. }
  split; [done|]. intros k x. rewrite lookup_insert_Some, (Hm k x). split.
  - intros [[-> ->]|(_ & _ & ?)]; by split.
  - intros [_ HR]. destruct (decide (k0 = k)) as [<-|Hne]; [left; split; [done|by symmetry; apply Hx]|right].
    split; [done|]. split; [|done]. intros [= ->]. by apply Hk in HR.
Qed.

(** What is not in the relation can be taken out of the index, or put back. *)
Lemma indexes_absent m R x0 :
  (∀ k, ¬ R x0 k) → indexes m (except None R) ↔ indexes m (except (Some x0) R).
Proof.
  intros Hn. split; intros Hm k x; rewrite (Hm k x); unfold except; split; intros [_ HR]; (split; [|done]);
    try done; intros [= ->]; by apply Hn in HR.
Qed.

Lemma indexes_ext m R R' : (∀ x k, R x k ↔ R' x k) → indexes m R ↔ indexes m R'.
Proof. intros HR. unfold indexes. by setoid_rewrite HR. Qed.
End indexes.

(** ** Use cases leave and enter the queues *)

Lemma listed_inj da b q u u' k : reg_inv da q → listed q b u k → listed q b u' k → u' = u.
Proof.
  intros Hr (uc & Hu & _ & ->) (uc' & Hu' & _ & Hk).
  apply (ri_use_case _ _ Hr) in Hu as [Hu _], Hu' as [Hu' _].
  unfold use_case_delay_key in Hk. injection Hk as _ Hk. rewrite <- Hk in Hu'. by eapply used_for_inj.
Qed.

Lemma listed_key b q u uc k : dq_use_cases q !! u = Some uc → listed q b u k → k = use_case_delay_key uc.
Proof. intros Hu (uc' & Hu' & _ & ->). by simplify_eq. Qed.

Lemma not_listed b q u uc k : dq_use_cases q !! u = Some uc → use_case_is_empty uc = negb b → ¬ listed q b u k.
Proof. intros Hu Hb (uc' & Hu' & Hb' & _). rewrite Hu in Hu'. injection Hu' as <-. by destruct b; rewrite Hb in Hb'. Qed.

Lemma reg_inv_frame da q q' :
  dq_accounts q' = dq_accounts q → dq_use_cases q' = dq_use_cases q → dq_output_idx q' = dq_output_idx q →
  dq_account_placeholders_by_delay q' = dq_account_placeholders_by_delay q → reg_inv da q → reg_inv da q'.
Proof.
  intros HA HU HO HP [H1 H2 H3 H4 H5]. unfold waits in *.
  split; unfold waits; rewrite ?HA, ?HU, ?HO, ?HP; done.
Qed.

Lemma untrack_ok da u uc q :
  dq_inv da None q → dq_use_cases q !! u = Some uc →
  ∃ q', untrack_use_case uc q = Ok q' ∧ dq_inv da (Some u) q' ∧ same_registries q q'.
Proof.
  intros [Hr [Hq Hp Hl]] Hu. unfold untrack_use_case.
  pose proof (λ b k, listed_key b q u uc k Hu) as Hkey.
  destruct (use_case_is_empty uc) eqn:He.
  - assert (Hin : listed q true u (use_case_delay_key uc)) by by exists uc.
    rewrite (strict_remove_ok _ u) by by apply Hp. simpl. eexists. split; [done|]. split; [|done]. split.
    + by apply (reg_inv_frame da q).
    + split; simpl.
      * apply indexes_absent; [|done]. intros k. by apply (not_listed false q u uc).
      * apply (indexes_delete _ _ _ u); [done|by intros k ?%Hkey|]. intros v Hv. by eapply (listed_inj da true q u).
      * intros k v [_ Hk]%lookup_delete_Some. by eapply Hl.
  - assert (Hin : listed q false u (use_case_delay_key uc)) by by exists uc.
    rewrite (strict_remove_ok _ u) by by apply Hq. simpl. eexists. split; [done|]. split; [|done]. split.
    + by apply (reg_inv_frame da q).
    + split; simpl.
      * apply (indexes_delete _ _ _ u); [done|by intros k ?%Hkey|]. intros v Hv. by eapply (listed_inj da false q u).
      * apply indexes_absent; [|done]. intros k. by apply (not_listed true q u uc).
      * done.
Qed.

Lemma track_ok da u uc q :
  dq_inv da (Some u) q → dq_use_cases q !! u = Some uc →
  (use_case_is_empty uc = true → dq_output_idx q < dk_try_delay_till (use_case_delay_key uc)) →
  ∃ q', track_use_case u uc q = Ok q' ∧ dq_inv da None q' ∧ same_registries q q'.
Proof.
  intros [Hr [Hq Hp Hl]] Hu Hlate. unfold track_use_case.
  pose proof (λ b k, listed_key b q u uc k Hu) as Hkey.
  destruct (use_case_is_empty uc) eqn:He.
  - assert (Hin : listed q true u (use_case_delay_key uc)) by by exists uc.
    destruct (indexes_insert _ _ _ _ Hp Hin) as [Hn Hi]; [by intros k ?%Hkey|by intros v Hv; eapply (listed_inj da true q u)|].
    rewrite strict_insert_ok by done. simpl. eexists. split; [done|]. split; [|done]. split.
    + by apply (reg_inv_frame da q).
    + split; simpl; [|done|].
      * eapply indexes_absent; [|exact Hq]. intros k. by apply (not_listed false q u uc).
      * intros k v [[<- <-]|[_ Hk]]%lookup_insert_Some; [by apply Hlate|by eapply Hl].
  - assert (Hin : listed q false u (use_case_delay_key uc)) by by exists uc.
    destruct (indexes_insert _ _ _ _ Hq Hin) as [Hn Hi]; [by intros k ?%Hkey|by intros v Hv; eapply (listed_inj da false q u)|].
    rewrite strict_insert_ok by done. simpl. eexists. split; [done|]. split; [|done]. split.
    + by apply (reg_inv_frame da q).
    + split; simpl; [done| |done]. eapply indexes_absent; [|exact Hp]. intros k. by apply (not_listed true q u uc).
Qed.

Lemma listed_put b q u v uc k : u ≠ v → listed (put_use_case u uc q) b v k ↔ listed q b v k.
Proof. intros Hne. unfold listed. simpl. by rewrite lookup_insert_ne. Qed.

Lemma queue_inv_put u uc q : queue_inv (Some u) q → queue_inv (Some u) (put_use_case u uc q).
Proof.
  intros [Hq Hp Hl]. split; simpl; [| |done].
  all: eapply indexes_ext; [|done]; intros v k; unfold except; split; intros [Hne ?]; (split; [done|]);
    apply (listed_put _ _ u v uc k); congruence.
Qed.

Lemma queue_inv_frame du q q' :
  dq_use_cases q' = dq_use_cases q → dq_output_idx q' = dq_output_idx q →
  dq_use_cases_by_delay q' = dq_use_cases_by_delay q →
  dq_use_case_placeholders_by_delay q' = dq_use_case_placeholders_by_delay q → queue_inv du q → queue_inv du q'.
Proof. intros HU HO HQ HP [H1 H2 H3]. unfold listed in *. split; unfold listed; rewrite ?HU, ?HO, ?HQ, ?HP; done. Qed.

Lemma queue_inv_fresh u q : dq_use_cases q !! u = None → queue_inv None q → queue_inv (Some u) q.
Proof.
  intros Hu [Hq Hp Hl]. assert (Hn : ∀ b k, ¬ listed q b u k) by (intros b k (uc & ? & _); congruence).
  split; [by apply indexes_absent..|done].
Qed.

(** ** Accounts leave and enter the use cases *)

Lemma waits_inj da q p p' a b k : reg_inv da q → waits q p a k → waits q p' b k → b = a.
Proof.
  intros Hr (acc & Ha & _ & ->) (acc' & Hb & _ & Hk).
  apply (ri_account _ _ Hr) in Ha as [_ _ _ Ha], Hb as [_ _ _ Hb].
  unfold account_delay_key in Hk. injection Hk as _ Hk. rewrite <- Hk in Hb. by eapply sent_by_inj.
Qed.

Lemma waits_key q p a acc k : dq_accounts q !! a = Some acc → waits q p a k → k = account_delay_key acc.
Proof. intros Ha (acc' & Ha' & _ & ->). by simplify_eq. Qed.

Lemma not_waits q p a acc k : dq_accounts q !! a = Some acc → home acc ≠ p → ¬ waits q p a k.
Proof. intros Ha Hp (acc' & Ha' & Hp' & _). congruence. Qed.

Lemma home_used a acc u : account_ok a acc → home acc = Some u → used_for (ac_input_idx acc) u.
Proof.
  intros [Ht _ Hh _] Hu. unfold home in Hu. destruct (ac_txns acc) as [|[i txn] l]; [done|].
  injection Hu as <-. rewrite (Hh i txn eq_refl). destruct (Ht i txn) as [Hi _]; [by left|].
  unfold used_for. by rewrite Hi.
Qed.

Lemma waits_used da q u a k : reg_inv da q → waits q (Some u) a k → used_for (dk_input_idx k) u.
Proof. intros Hr (acc & Ha & Hu & ->). eapply home_used; [by eapply ri_account|done]. Qed.

Lemma waits_put q a b acc p k : a ≠ b → waits (put_account a acc q) p b k ↔ waits q p b k.
Proof. intros Hne. unfold waits. simpl. by rewrite lookup_insert_ne. Qed.

(** An account that is out of the queues may change. *)
Lemma put_account_ok a acc q :
  reg_inv (Some a) q → account_ok a acc → reg_inv (Some a) (put_account a acc q).
Proof.
  intros [H1 H2 H3 H4 H5] Ha.
  assert (Hw : ∀ m p, indexes m (except (Some a) (waits q p)) → indexes m (except (Some a) (waits (put_account a acc q) p))).
  { intros m p. apply indexes_ext. intros b k. unfold except. split; intros [Hne ?]; (split; [done|]);
      apply (waits_put q a b acc p k); congruence. }
  split; simpl.
  - intros b acc' [[<- <-]|[_ Hb]]%lookup_insert_Some; [done|by apply H1].
  - by apply Hw.
  - intros u uc Hu. destruct (H3 _ _ Hu) as (?&?&?). split_and!; [done..|by apply Hw].
  - intros b acc' u Hne. rewrite lookup_insert_ne by congruence. by apply H4.
  - done.
Qed.

Lemma account_out a p q m k :
  reg_inv None q → indexes m (except None (waits q p)) → waits q p a k →
  m !! k = Some a ∧ indexes (delete k m) (except (Some a) (waits q p)).
Proof.
  intros Hr Hm Hw. split; [by apply Hm|]. pose proof Hw as (acc & Ha & _ & _).
  apply (indexes_delete _ _ _ a); [done| |intros b; by apply (waits_inj None q p p a b k)].
  intros k' Hk'. rewrite (waits_key _ _ _ _ _ Ha Hk'). by rewrite (waits_key _ _ _ _ _ Ha Hw).
Qed.

Lemma account_in da a acc p q m :
  reg_inv da q → indexes m (except (Some a) (waits q p)) → dq_accounts q !! a = Some acc → home acc = p →
  m !! account_delay_key acc = None ∧ indexes (<[account_delay_key acc := a]> m) (except None (waits q p)).
Proof.
  intros Hr Hm Ha Hp. assert (Hw : waits q p a (account_delay_key acc)) by by exists acc.
  apply indexes_insert; [done..| |intros b; by apply (waits_inj da q p p a b)].
  intros k Hk. by apply (waits_key q p a acc k).
Qed.

(** The account out of the place where it waits; the others do not notice. *)
Lemma elsewhere a acc q p m :
  dq_accounts q !! a = Some acc → home acc ≠ p →
  indexes m (except None (waits q p)) ↔ indexes m (except (Some a) (waits q p)).
Proof. intros Ha Hp. apply indexes_absent. intros k. by eapply not_waits. Qed.

Lemma placeholder_out a acc q :
  reg_inv None q → dq_accounts q !! a = Some acc → home acc = None →
  reg_inv (Some a)
    (set_account_placeholders (delete (account_delay_key acc) (dq_account_placeholders_by_delay q)) q).
Proof.
  intros Hr Ha Hn. pose proof Hr as [H1 H2 H3 H4 H5].
  destruct (account_out a None q _ (account_delay_key acc) Hr H2) as [_ Hi]; [by exists acc|]. split; simpl.
  - done.
  - done.
  - intros u uc Hu. destruct (H3 _ _ Hu) as (?&?&Hm). split_and!; [done..|].
    eapply elsewhere in Hm; [done|done|congruence].
  - intros b acc' u _. by apply H4.
  - intros k b [_ Hk]%lookup_delete_Some. by eapply H5.
Qed.

Lemma placeholder_in a acc q :
  reg_inv (Some a) q → dq_accounts q !! a = Some acc → home acc = None →
  dq_output_idx q < ac_try_delay_till acc →
  ∃ m, strict_insert (account_delay_key acc) a (dq_account_placeholders_by_delay q) = Ok m ∧
    reg_inv None (set_account_placeholders m q).
Proof.
  intros Hr Ha Hn Hl. pose proof Hr as [H1 H2 H3 H4 H5].
  destruct (account_in _ a acc None q _ Hr H2 Ha Hn) as [Hno Hi].
  rewrite strict_insert_ok by done. eexists. split; [done|]. split; simpl.
  - done.
  - done.
  - intros u uc Hu. destruct (H3 _ _ Hu) as (?&?&Hm). split_and!; [done..|].
    eapply elsewhere in Hm; [done|done|congruence].
  - intros b acc' u _ Hb Hu. destruct (decide (a = b)) as [<-|]; [simplify_eq; congruence|].
    apply (H4 b acc'); [congruence|done..].
  - intros k b [[<- <-]|[_ Hk]]%lookup_insert_Some; [done|by eapply H5].
Qed.

(** A use case changes, while at most one of its accounts comes or goes. *)
Lemma put_use_case_ok da da' u uc q :
  reg_inv da q →
  (∀ m p, p ≠ Some u → indexes m (except da (waits q p)) → indexes m (except da' (waits q p))) →
  (∀ a acc v, da' ≠ Some a → dq_accounts q !! a = Some acc → home acc = Some v → v = u ∨ da ≠ Some a) →
  used_for (uc_input_idx uc) u → head_ok uc → indexes (uc_account_by_delay uc) (except da' (waits q (Some u))) →
  reg_inv da' (put_use_case u uc q).
Proof.
  intros [H1 H2 H3 H4 H5] Hp Hh Hu Hd Hi. split; simpl.
  - done.
  - by apply Hp.
  - intros v uc' [[<- <-]|[Hne Hv]]%lookup_insert_Some; [done|].
    destruct (H3 _ _ Hv) as (?&?&?). split_and!; [done..|]. apply Hp; [congruence|done].
  - intros a acc v Hne Ha Hv. destruct (decide (u = v)) as [<-|Huv]; [by rewrite lookup_insert_eq|].
    rewrite lookup_insert_ne by done. destruct (Hh a acc v Hne Ha Hv) as [->|Hda]; [done|by eapply H4].
  - done.
Qed.

Lemma pop_head_account_ok u uc q k a :
  reg_inv None q → dq_use_cases q !! u = Some uc → first_key_value (uc_account_by_delay uc) = Some (k, a) →
  ∃ uc', expect_pop_head_account uc = Ok (k, a, uc') ∧ reg_inv (Some a) (put_use_case u uc' q) ∧
    waits q (Some u) a k ∧ uc_try_delay_till uc' = uc_try_delay_till uc.
Proof.
  intros Hr Hu Hf. destruct (ri_use_case _ _ Hr _ _ Hu) as (Hidx & Hhead & Hm).
  apply first_key_value_Some in Hf as Hk. destruct Hk as [Hk _]. apply Hm in Hk as [_ Hw].
  pose proof Hw as (acc & Ha & Hh & Hka).
  unfold expect_pop_head_account. rewrite Hf. simpl. eexists. split; [done|]. split; [|done].
  destruct (account_out a (Some u) q _ k Hr Hm Hw) as [_ Hi].
  apply (put_use_case_ok None (Some a)); simpl; [done| |by intros; right| | |done].
  - intros m p Hp Hm'. eapply elsewhere in Hm'; [done|done|congruence].
  - destruct (first_key_value (delete k _)) as [[k' b]|] eqn:Hf'; [|done].
    apply first_key_value_Some in Hf' as [Hk' _]. apply Hi in Hk' as [_ Hw']. by eapply waits_used.
  - intros k' b Hf'. simpl in *. by rewrite Hf'.
Qed.

Lemma add_account_ok u uc q a acc :
  reg_inv (Some a) q → dq_use_cases q !! u = Some uc → dq_accounts q !! a = Some acc → home acc = Some u →
  ∃ uc', add_account a acc uc = Ok uc' ∧ reg_inv None (put_use_case u uc' q) ∧ use_case_is_empty uc' = false ∧
    uc_try_delay_till uc' = uc_try_delay_till uc.
Proof.
  intros Hr Hu Ha Hh. destruct (ri_use_case _ _ Hr _ _ Hu) as (Hidx & Hhead & Hm).
  destruct (account_in _ a acc (Some u) q _ Hr Hm Ha Hh) as [Hn Hi].
  unfold add_account. rewrite strict_insert_ok by done. simpl.
  set (m := <[account_delay_key acc := a]> (uc_account_by_delay uc)) in *.
  assert (Hne : m ≠ ∅) by apply insert_non_empty.
  destruct (first_key_value m) as [[k b]|] eqn:Hf; [|by apply first_key_value_None in Hf]. simpl.
  eexists. split; [done|]. split; [|split; [|done]].
  2: { apply not_true_iff_false. by rewrite use_case_empty. }
  pose proof (first_key_value_Some _ _ _ Hf) as [Hk Hmin].
  apply (put_use_case_ok (Some a) None); simpl; [done| | | | |done].
  - intros m' p Hp Hm'. eapply elsewhere; [done| |done]. congruence.
  - intros b' acc' v _ Hb' Hv. destruct (decide (a = b')) as [<-|]; [left; congruence|right; congruence].
  - case_bool_decide; [|done]. eapply home_used; [by eapply ri_account|done].
  - intros k' b' Hf'. simpl in *. rewrite Hf in Hf'. injection Hf' as <- <-. case_bool_decide as Hb.
    + subst b. apply Hi in Hk as [_ Hk]. by rewrite (waits_key _ _ _ _ _ Ha Hk).
    + apply Hi in Hk as Hw. destruct Hw as [_ Hw].
      apply lookup_insert_Some in Hk as [[_ ?]|[Hkne Hk]]; [congruence|].
      destruct (first_key_value (uc_account_by_delay uc)) as [[k0 b0]|] eqn:Hf0.
      2: { apply first_key_value_None in Hf0. rewrite Hf0 in Hk. by rewrite lookup_empty in Hk. }
      rewrite (Hhead _ _ Hf0). apply first_key_value_Some in Hf0 as [Hk0 Hmin0].
      enough (k0 = k) by by subst. pose proof (Hmin0 _ _ Hk) as Hle.
      assert (Hle' : dk_leb k k0 = true).
      { apply (Hmin k0 b0). unfold m. rewrite lookup_insert_ne; [done|]. intros <-. congruence. }
      rewrite dk_leb_spec in Hle, Hle'. destruct k, k0. simpl in *. f_equal; lia.
Qed.

Lemma new_use_case_ok t u q a acc :
  reg_inv (Some a) q → dq_use_cases q !! u = None → dq_accounts q !! a = Some acc → home acc = Some u →
  ∃ uc, UseCase_new_with_account t a acc = Ok uc ∧ reg_inv None (put_use_case u uc q) ∧
    use_case_is_empty uc = false.
Proof.
  intros Hr Hu Ha Hh. unfold UseCase_new_with_account. rewrite strict_insert_ok by done. simpl.
  eexists. split; [done|]. split; [|apply not_true_iff_false; rewrite use_case_empty; apply insert_non_empty].
  assert (Hm : indexes ∅ (except (Some a) (waits q (Some u)))).
  { intros k b. rewrite lookup_empty. split; [done|]. intros [Hne (acc' & Hb & Hv & _)].
    destruct (ri_home _ _ Hr b acc' u Hne Hb Hv). congruence. }
  destruct (account_in _ a acc (Some u) q _ Hr Hm Ha Hh) as [_ Hi].
  apply (put_use_case_ok (Some a) None); simpl; [done| | | | |done].
  - intros m' p Hp Hm'. eapply elsewhere; [done| |done]. congruence.
  - intros b' acc' v _ Hb' Hv. destruct (decide (a = b')) as [<-|]; [left; congruence|right; congruence].
  - eapply home_used; [by eapply ri_account|done].
  - intros k b Hf. simpl in *. apply first_key_value_Some in Hf as [[[<- _]|[_ Hk]]%lookup_insert_Some _]; [done|].
    by rewrite lookup_empty in Hk.
Qed.

(** Inserting a use case with accounts into the main queue is tracking it. *)
Lemma insert_is_track u uc q :
  use_case_is_empty uc = false →
  (m ← strict_insert (use_case_delay_key uc) u (dq_use_cases_by_delay q);
   Ok (put_use_case u uc (set_use_cases_by_delay m q))) = track_use_case u uc (put_use_case u uc q).
Proof.
  intros He. unfold track_use_case. rewrite He. simpl. by destruct (strict_insert _ _ _).
Qed.

Lemma put_put u uc uc' q : put_use_case u uc (put_use_case u uc' q) = put_use_case u uc q.
Proof. unfold put_use_case, set_registries. simpl. by rewrite insert_insert_eq. Qed.

(** What the delayed transactions of the accounts are is not touched. *)
Definition same_accounts q q' : Prop :=
  dq_accounts q' = dq_accounts q ∧ dq_output_idx q' = dq_output_idx q ∧ dq_config q' = dq_config q.

Lemma join_ok u a acc t q :
  dq_inv (Some a) None q → dq_accounts q !! a = Some acc → home acc = Some u →
  ∃ q', join_use_case u a acc t q = Ok q' ∧ dq_inv None None q' ∧ same_accounts q q'.
Proof.
  intros Hi Ha Hh. unfold join_use_case. destruct (dq_use_cases q !! u) as [uc|] eqn:Hu.
  - destruct (untrack_ok _ u uc q Hi Hu) as (q1 & -> & [Hr1 Hq1] & HA & HU & HO & HC). cbn [mbind result_bind].
    rewrite <- HU in Hu. rewrite <- HA in Ha.
    destruct (add_account_ok u uc q1 a acc Hr1 Hu Ha Hh) as (uc' & -> & Hr2 & He & _). cbn [mbind result_bind].
    rewrite insert_is_track by done.
    destruct (track_ok None u uc' (put_use_case u uc' q1)) as (q2 & -> & Hi2 & HA2 & HU2 & HO2 & HC2).
    + split; [done|]. by apply queue_inv_put.
    + simpl. by rewrite lookup_insert_eq.
    + congruence.
    + exists q2. split; [done|]. split; [done|]. unfold same_accounts. simpl in *. by rewrite HA2, HO2, HC2.
  - destruct Hi as [Hr Hq]. destruct (new_use_case_ok t u q a acc Hr Hu Ha Hh) as (uc & -> & Hr2 & He).
    cbn [mbind result_bind]. rewrite insert_is_track by done.
    destruct (track_ok None u uc (put_use_case u uc q)) as (q2 & -> & Hi2 & HA2 & HU2 & HO2 & HC2).
    + split; [done|]. apply queue_inv_put. by apply queue_inv_fresh.
    + simpl. by rewrite lookup_insert_eq.
    + congruence.
    + exists q2. split; [done|]. split; [done|]. unfold same_accounts. simpl in *. by rewrite HA2, HO2, HC2.
Qed.

Lemma requeue_ok u uc a acc q :
  dq_inv (Some a) (Some u) (put_use_case u uc q) → dq_accounts q !! a = Some acc →
  dq_output_idx q < ac_try_delay_till acc → dq_output_idx q < uc_try_delay_till uc → dq_output_idx q < u64_max →
  ∃ q', requeue u uc a acc q = Ok q' ∧ dq_inv None None q' ∧ same_accounts q q'.
Proof.
  intros [Hr Hq] Ha Hla Hlu Hmax. unfold requeue.
  assert (Hu : dq_use_cases (put_use_case u uc q) !! u = Some uc) by (simpl; by rewrite lookup_insert_eq).
  assert (Hlate : use_case_is_empty uc = true →
    dq_output_idx (put_use_case u uc q) < dk_try_delay_till (use_case_delay_key uc)) by (simpl; lia).
  destruct (account_is_empty acc) eqn:He.
  - apply account_empty in He.
    destruct (placeholder_in a acc (put_use_case u uc q) Hr Ha He Hla) as (m & Hm & Hr'). simpl in Hm. rewrite Hm.
    cbn [mbind result_bind].
    destruct (track_ok None u uc (put_use_case u uc (set_account_placeholders m q))) as (q2 & -> & Hi2 & HA2 & _ & HO2 & HC2).
    + split; [done|]. by apply (queue_inv_frame _ (put_use_case u uc q)).
    + done.
    + done.
    + by exists q2.
  - assert (Hhome : ∃ v, home acc = Some v).
    { destruct (home acc) eqn:Hh; [by eauto|]. apply account_empty in Hh. congruence. }
    destruct Hhome as [v Hv]. assert (expect_use_case_key acc = Ok v) as ->.
    { unfold expect_use_case_key, home in *. destruct (head (ac_txns acc)) as [x|]; [|done]. by injection Hv as <-. }
    cbn [mbind result_bind]. case_bool_decide as Hvu.
    + subst v. destruct (add_account_ok u uc _ a acc Hr Hu Ha Hv) as (uc' & -> & Hr2 & He2 & _). cbn [mbind result_bind].
      rewrite insert_is_track by done. rewrite put_put in Hr2.
      destruct (track_ok None u uc' (put_use_case u uc' q)) as (q2 & -> & Hi2 & HA2 & _ & HO2 & HC2).
      * split; [done|]. apply queue_inv_put with (uc := uc') in Hq. by rewrite put_put in Hq.
      * simpl. by rewrite lookup_insert_eq.
      * congruence.
      * by exists q2.
    + destruct (track_ok (Some a) u uc _ (conj Hr Hq) Hu Hlate) as (q2 & -> & Hi2 & HA2 & _ & HO2 & HC2).
      cbn [mbind result_bind]. rewrite add_u64_fits by (simpl in *; rewrite HO2; lia). cbn [mbind result_bind].
      simpl in HA2. rewrite <- HA2 in Ha.
      destruct (join_ok v a acc (dq_output_idx q2 + 1) q2 Hi2 Ha Hv) as (q3 & -> & Hi3 & HA3 & HO3 & HC3).
      exists q3. split; [done|]. split; [done|]. unfold same_accounts. simpl in *. by rewrite HA3, HO3, HC3, HA2, HO2, HC2.
Qed.

(** ** Taking the first delayed transaction *)

(** The delayed transactions of an account. *)
Definition delayed q a : list (N * Txn) :=
  match dq_accounts q !! a with Some acc => ac_txns acc | None => [] end.

(** The delays fit their integers. *)
Definition room (c : Config) (n : N) : Prop :=
  n + 1 + N.max (cfg_sender_spread_factor c)
            (N.max (cfg_platform_use_case_spread_factor c) (cfg_user_use_case_spread_factor c)) ≤ u64_max.

Lemma delay_by_ok q f :
  room (dq_config q) (dq_output_idx q) →
  f = cfg_sender_spread_factor (dq_config q) ∨ (∃ u, f = use_case_spread_factor (dq_config q) u) →
  delay_by f q = Ok (dq_output_idx q + 1 + f).
Proof.
  unfold room, delay_by. intros Hr Hf.
  assert (Hle : f ≤ N.max (cfg_sender_spread_factor (dq_config q))
    (N.max (cfg_platform_use_case_spread_factor (dq_config q)) (cfg_user_use_case_spread_factor (dq_config q)))).
  { destruct Hf as [->|[u ->]]; [lia|]. destruct u; simpl; lia. }
  rewrite add_u64_fits by lia. cbn [mbind result_bind]. by rewrite add_u64_fits by lia.
Qed.

Lemma dequeue_ok a acc i txn l :
  account_ok a acc → ac_txns acc = (i, txn) :: l →
  ∃ acc', expect_dequeue_txn acc = Ok ((i, txn), acc') ∧ ac_txns acc' = l ∧
    ∀ t, account_ok a (account_update_try_delay_till t acc').
Proof.
  intros [Ht Hs Hh Hi] Hl. unfold expect_dequeue_txn. rewrite Hl in *. eexists. split; [done|]. split; [done|].
  intros t. rewrite fmap_cons in Hs. apply StronglySorted_inv in Hs as [Hs _]. split; simpl.
  - intros j x Hj. apply Ht. by right.
  - done.
  - intros j x Hj. destruct l as [|y l]; [done|]. by injection Hj as ->.
  - destruct l as [|[j x] l]; [done|]. destruct (Ht j x) as [Hj Hx]; [by right; left|].
    unfold sent_by. simpl. by rewrite Hj, <- Hx.
Qed.

Lemma retime_ok da u uc t q :
  reg_inv da (put_use_case u uc q) → reg_inv da (put_use_case u (use_case_update_try_delay_till t uc) q).
Proof.
  intros Hr. rewrite <- (put_put u _ uc). destruct (ri_use_case _ _ Hr u uc) as (?&?&?).
  { simpl. by rewrite lookup_insert_eq. }
  apply (put_use_case_ok da da); [done|done|by intros; right|done..].
Qed.

(** The head of the main queue, with the entry taken out. *)
Lemma head_use_case q k u :
  dq_inv None None q → first_key_value (dq_use_cases_by_delay q) = Some (k, u) →
  ∃ uc ka a, dq_use_cases q !! u = Some uc ∧ k = use_case_delay_key uc ∧
    first_key_value (uc_account_by_delay uc) = Some (ka, a) ∧
    dq_inv None (Some u) (set_use_cases_by_delay (delete k (dq_use_cases_by_delay q)) q).
Proof.
  intros [Hr [Hq Hp Hl]] Hf. apply first_key_value_Some in Hf as [Hk _]. apply Hq in Hk as [_ Hlist].
  pose proof Hlist as (uc & Hu & He & Hkey).
  destruct (first_key_value (uc_account_by_delay uc)) as [[ka a]|] eqn:Hf.
  2: { apply first_key_value_None, use_case_empty in Hf. congruence. }
  exists uc, ka, a. split_and!; [done..|]. split; [by apply (reg_inv_frame None q)|]. split; simpl.
  - apply (indexes_delete _ _ _ u); [done| |by intros v; apply (listed_inj None false q u v k)].
    intros k' Hk'. rewrite Hkey. by apply (listed_key false q u uc).
  - apply indexes_absent; [|done]. intros k'. by apply (not_listed true q u uc).
  - done.
Qed.

Lemma nothing_delayed q a :
  dq_inv None None q → first_key_value (dq_use_cases_by_delay q) = None → delayed q a = [].
Proof.
  intros [Hr [Hq _ _]] Hf. apply first_key_value_None in Hf. unfold delayed.
  destruct (dq_accounts q !! a) as [acc|] eqn:Ha; [|done].
  destruct (ac_txns acc) as [|x l] eqn:Hl; [done|]. exfalso.
  assert (Hh : home acc = Some (parse_use_case x.2)) by (unfold home; by rewrite Hl).
  destruct (ri_home _ _ Hr a acc _ ltac:(done) Ha Hh) as [uc Hu].
  destruct (ri_use_case _ _ Hr _ _ Hu) as (_ & _ & Hm).
  assert (Hin : uc_account_by_delay uc !! account_delay_key acc = Some a) by (apply Hm; split; [done|by exists acc]).
  assert (He : use_case_is_empty uc = false).
  { apply not_true_iff_false. rewrite use_case_empty. intros H0. by rewrite H0, lookup_empty in Hin. }
  assert (Hbad : dq_use_cases_by_delay q !! use_case_delay_key uc = Some (parse_use_case x.2))
    by (apply Hq; split; [done|by exists uc]). by rewrite Hf, lookup_empty in Hbad.
Qed.

(** Either nothing is taken, or the first of the delayed transactions of an account. *)
Definition taken q (r : option Txn) q' : Prop :=
  match r with
  | Some txn => ∃ a i l, delayed q a = (i, txn) :: l ∧ delayed q' a = l ∧ ∀ b, a ≠ b → delayed q' b = delayed q b
  | None => q' = q
  end.

Lemma pop_head_ok only q :
  dq_inv None None q → room (dq_config q) (dq_output_idx q) →
  ∃ r q', pop_head only q = Ok (r, q') ∧ dq_inv None None q' ∧ dq_output_idx q' = dq_output_idx q ∧
    dq_config q' = dq_config q ∧ taken q r q' ∧
    (only = false → r = None → ∀ a, delayed q a = []).
Proof.
  intros Hi Hroom. unfold pop_head.
  destruct (first_key_value (dq_use_cases_by_delay q)) as [[k u]|] eqn:Hf.
  2: { exists None, q. split_and!; [done..|]. intros _ _ a. by apply nothing_delayed. }
  destruct (only && _) eqn:Honly.
  { exists None, q. split_and!; [done..|]. intros ->. done. }
  destruct (head_use_case q k u Hi Hf) as (uc & ka & a & Hu & Hk & Hfa & Hr1 & Hq1).
  cbv zeta. set (q1 := set_use_cases_by_delay (delete k (dq_use_cases_by_delay q)) q) in *.
  assert (Hu1 : dq_use_cases q1 !! u = Some uc) by exact Hu.
  unfold expect_mut. rewrite Hu1. cbn [expect mbind result_bind].
  destruct (pop_head_account_ok u uc q1 ka a Hr1 Hu Hfa) as (uc' & -> & Hr2 & Hw & _). cbn [mbind result_bind].
  destruct (ri_use_case _ _ Hr1 u uc Hu) as (_ & Hhead & _).
  assert (Hle : (dk_try_delay_till ka <=? dk_try_delay_till k) = true).
  { apply N.leb_le. rewrite Hk. simpl. rewrite Hfa. lia. }
  assert (Hidx : (dk_input_idx ka =? dk_input_idx k) = true).
  { apply N.eqb_eq. rewrite Hk. simpl. symmetry. by apply (Hhead ka a). }
  rewrite Hle, Hidx. cbn [assert_ mbind result_bind]. destruct Hw as (acc & Ha & Hh & _).
  rewrite Ha. cbn [expect mbind result_bind].
  destruct (ac_txns acc) as [|[i txn] l] eqn:Hl; [unfold home in Hh; by rewrite Hl in Hh|].
  destruct (dequeue_ok a acc i txn l (ri_account _ _ Hr1 _ _ Ha) Hl) as (acc' & -> & Hl' & Hok). cbn [mbind result_bind].
  rewrite (delay_by_ok q1 _ Hroom (or_introl eq_refl)). cbn [mbind result_bind].
  rewrite (delay_by_ok q1 _ Hroom (or_intror (ex_intro _ u eq_refl))). cbn [mbind result_bind].
  set (acc2 := account_update_try_delay_till _ acc'). set (uc2 := use_case_update_try_delay_till _ uc').
  destruct (requeue_ok u uc2 a acc2 (put_account a acc2 q1)) as (q2 & -> & Hi2 & HA & HO & HC).
  - split; [apply (put_account_ok a acc2 (put_use_case u uc2 q1)); [by apply retime_ok|apply Hok]|].
    by apply queue_inv_put, (queue_inv_frame _ q1).
  - simpl. by rewrite lookup_insert_eq.
  - simpl. lia.
  - simpl. lia.
  - unfold room in Hroom. simpl. lia.
  - cbn [mbind result_bind]. exists (Some txn), q2. split_and!; [done..| |done].
    simpl. exists a, i, l. unfold delayed. rewrite HA. simpl in Ha |- *. rewrite Ha, lookup_insert_eq.
    split_and!; [done..|]. intros b Hb. by rewrite lookup_insert_ne.
Qed.

(** ** Delaying a transaction *)

(** The transaction joins the end of the queue of its sender. *)
Definition appended q a (i : N) (txn : Txn) q' : Prop :=
  delayed q' a = delayed q a ++ [(i, txn)] ∧ ∀ b, a ≠ b → delayed q' b = delayed q b.

Lemma account_queue_ok a acc i txn :
  account_ok a acc → input_at i = Some txn → parse_sender txn = a → (∀ j x, (j, x) ∈ ac_txns acc → j < i) →
  ∃ acc', account_queue_txn i txn acc = Ok acc' ∧ account_ok a acc' ∧ ac_txns acc' = ac_txns acc ++ [(i, txn)] ∧
    (ac_txns acc ≠ [] → account_delay_key acc' = account_delay_key acc ∧ home acc' = home acc).
Proof.
  intros [Ht Hs Hh Hi] Hin Hsd Hlt. unfold account_queue_txn.
  assert (Hsorted : StronglySorted N.lt (ac_txns acc ++ [(i, txn)]).*1).
  { rewrite fmap_app. apply StronglySorted_app_2; [|done|repeat constructor].
    intros x y Hx ->%list_elem_of_singleton. apply list_elem_of_fmap in Hx as ([j z] & -> & Hj). by eapply Hlt. }
  assert (Htx : ∀ j x, (j, x) ∈ ac_txns acc ++ [(i, txn)] → input_at j = Some x ∧ parse_sender x = a).
  { intros j x [?|[= -> ->]%list_elem_of_singleton]%elem_of_app; [by apply Ht|done]. }
  destruct (last (ac_txns acc)) as [[j x]|] eqn:Hlast.
  - simpl. rewrite (proj2 (N.ltb_lt _ _)).
    2: { apply last_Some_elem_of in Hlast. by eapply Hlt. }
    simpl. eexists. split; [done|]. destruct (ac_txns acc) as [|y l] eqn:Hl; [done|].
    split; [|split; [done|]]; [split; simpl; [done|done| |done]; intros j' x' [= ->]; by eapply Hh|].
    intros _. split; [done|]. unfold home. by rewrite Hl.
  - apply last_None in Hlast. rewrite Hlast in *. simpl. eexists. split; [done|].
    split; [split; simpl; [done|done| |]|split; [done|done]].
    + by intros j x [= <- <-].
    + unfold sent_by. by rewrite Hin, <- Hsd.
Qed.

(** An account that keeps its place may grow. *)
Lemma put_account_same a acc acc' q :
  reg_inv None q → dq_accounts q !! a = Some acc → account_ok a acc' →
  account_delay_key acc' = account_delay_key acc → home acc' = home acc → reg_inv None (put_account a acc' q).
Proof.
  intros [H1 H2 H3 H4 H5] Ha Hok Hk Hh.
  assert (Hw : ∀ p b k, waits (put_account a acc' q) p b k ↔ waits q p b k).
  { intros p b k. destruct (decide (a = b)) as [<-|Hne]; [|by apply waits_put].
    unfold waits. simpl. rewrite lookup_insert_eq, Ha.
    split; intros (x & [= <-] & ? & ?); eexists; (split; [done|]); split; congruence. }
  assert (Hix : ∀ m p, indexes m (except None (waits q p)) → indexes m (except None (waits (put_account a acc' q) p))).
  { intros m p. apply indexes_ext. intros b k. unfold except. by rewrite Hw. }
  split; simpl.
  - intros b x [[<- <-]|[_ Hb]]%lookup_insert_Some; [done|by apply H1].
  - by apply Hix.
  - intros u uc Hu. destruct (H3 _ _ Hu) as (?&?&?). split_and!; [done..|by apply Hix].
  - intros b x u _ [[<- <-]|[_ Hb]]%lookup_insert_Some Hu; [|by eapply H4]. rewrite Hh in Hu. by eapply H4.
  - done.
Qed.

Lemma account_fresh a q : dq_accounts q !! a = None → reg_inv None q → reg_inv (Some a) q.
Proof.
  intros Ha [H1 H2 H3 H4 H5]. assert (Hn : ∀ p k, ¬ waits q p a k) by (intros p k (acc & ? & _); congruence).
  split; [done|by apply indexes_absent| |by intros; eapply H4|done].
  intros u uc Hu. destruct (H3 _ _ Hu) as (?&?&?). split_and!; [done..|by apply indexes_absent].
Qed.

(** A sender seen for the first time, of a use case that is delayed. *)
Lemma queue_new_account q i txn uc :
  let a := parse_sender txn in let u := parse_use_case txn in
  dq_inv None None q → room (dq_config q) (dq_output_idx q) → input_at i = Some txn →
  dq_accounts q !! a = None → dq_use_cases q !! u = Some uc →
  ∃ q', (next ← add_u64 (dq_output_idx q) 1;
         let account := Account_new_with_txn next i txn in
         use_case ← expect_mut u (dq_use_cases q);
         q ← untrack_use_case use_case q;
         use_case ← add_account a account use_case;
         accounts ← strict_insert a account (dq_accounts q);
         m ← strict_insert (use_case_delay_key use_case) u (dq_use_cases_by_delay q);
         Ok (put_use_case u use_case
               (set_use_cases_by_delay m (set_registries accounts (dq_use_cases q) (dq_output_idx q) q)))) = Ok q' ∧
    dq_inv None None q' ∧ dq_output_idx q' = dq_output_idx q ∧ dq_config q' = dq_config q ∧
    delayed q' a = [(i, txn)] ∧ ∀ b, a ≠ b → delayed q' b = delayed q b.
Proof.
  intros a u [Hr Hq] Hroom Hin Ha Huc. unfold delayed.
  unfold room in Hroom. rewrite add_u64_fits by lia. cbn [mbind result_bind].
  unfold expect_mut. rewrite Huc. cbn [expect mbind result_bind].
  destruct (untrack_ok None u uc q (conj Hr Hq) Huc) as (q1 & -> & [Hr1 Hq1] & HA & HU & HO & HC). cbn [mbind result_bind].
  set (acc := Account_new_with_txn (dq_output_idx q + 1) i txn). rewrite <- HA in Ha. rewrite <- HU in Huc.
  assert (Hr2 : reg_inv (Some a) (put_account a acc q1)).
  { apply put_account_ok; [by apply account_fresh|]. split; simpl.
    - by intros j x [= -> ->]%list_elem_of_singleton.
    - repeat constructor.
    - by intros j x [= <- <-].
    - unfold sent_by. by rewrite Hin. }
  destruct (add_account_ok u uc (put_account a acc q1) a acc Hr2 Huc) as (uc' & -> & Hr3 & He & _);
    [simpl; by rewrite lookup_insert_eq|done|]. cbn [mbind result_bind].
  rewrite (strict_insert_ok a acc (dq_accounts q1) Ha). cbn [mbind result_bind].
  pose proof (insert_is_track u uc' (put_account a acc q1) He) as Heq. simpl in Heq.
  change (set_registries (<[a:=acc]> (dq_accounts q1)) (dq_use_cases q1) (dq_output_idx q1) q1)
    with (put_account a acc q1). rewrite Heq.
  destruct (track_ok None u uc' (put_use_case u uc' (put_account a acc q1))) as (q2 & -> & Hi2 & HA2 & _ & HO2 & HC2).
  - split; [done|]. by apply queue_inv_put, (queue_inv_frame _ q1).
  - simpl. by rewrite lookup_insert_eq.
  - congruence.
  - exists q2. simpl in *. split_and!; [done|done|congruence|congruence| |]; rewrite HA2; [by rewrite lookup_insert_eq|].
    intros b Hb. by rewrite lookup_insert_ne, HA.
Qed.

Lemma queue_txn_ok q i txn :
  let a := parse_sender txn in let u := parse_use_case txn in
  dq_inv None None q → room (dq_config q) (dq_output_idx q) → input_at i = Some txn →
  (∀ j x, (j, x) ∈ delayed q a → j < i) → (dq_accounts q !! a = None → is_Some (dq_use_cases q !! u)) →
  ∃ q', queue_txn i a u txn q = Ok q' ∧ dq_inv None None q' ∧ dq_output_idx q' = dq_output_idx q ∧
    dq_config q' = dq_config q ∧ appended q a i txn q'.
Proof.
  intros a u [Hr Hq] Hroom Hin Hlt Hu. unfold queue_txn, appended, delayed in *.
  destruct (dq_accounts q !! a) as [acc|] eqn:Ha.
  - pose proof (ri_account _ _ Hr _ _ Ha) as Hok.
    destruct (account_queue_ok a acc i txn Hok Hin eq_refl Hlt) as (acc' & -> & Hok' & Hl & Hkeep).
    destruct (account_is_empty acc) eqn:He; cbn [mbind result_bind].
    + apply account_empty in He. assert (Hnil : ac_txns acc = []) by (unfold home in He; by destruct (ac_txns acc)).
      pose proof (placeholder_out a acc q Hr Ha He) as Hr1.
      set (q1 := set_account_placeholders _ q) in *.
      destruct (join_ok u a acc' (dq_output_idx q1) (put_account a acc' q1)) as (q2 & -> & Hi2 & HA & HO & HC).
      * split; [by apply put_account_ok|]. by apply (queue_inv_frame _ q).
      * simpl. by rewrite lookup_insert_eq.
      * unfold home. by rewrite Hl, Hnil.
      * exists q2. split_and!; [done..| |]; rewrite HA; simpl; [by rewrite lookup_insert_eq|].
        intros b Hb. by rewrite lookup_insert_ne.
    + assert (Hne : ac_txns acc ≠ []).
      { intros Hnil. assert (account_is_empty acc = true); [|congruence]. apply account_empty. unfold home. by rewrite Hnil. }
      destruct (Hkeep Hne) as [Hk Hh]. eexists. split; [done|]. split; [split|].
      * by apply (put_account_same a acc).
      * by apply (queue_inv_frame _ q).
      * split_and!; [done..| |]; simpl; [by rewrite lookup_insert_eq|]. intros b Hb. by rewrite lookup_insert_ne.
  - destruct (Hu eq_refl) as [uc Huc]. exact (queue_new_account q i txn uc (conj Hr Hq) Hroom Hin Ha Huc).
Qed.

(** ** Selecting a transaction at once *)

Lemma delay_use_case_ok u i t q :
  dq_inv None None q → used_for i u → dq_output_idx q < t →
  (∀ uc, dq_use_cases q !! u = Some uc → use_case_is_empty uc = false) →
  ∃ q', delay_use_case i u t q = Ok q' ∧ dq_inv None None q' ∧ same_accounts q q'.
Proof.
  intros Hi Hidx Ht Hne. unfold delay_use_case. destruct (dq_use_cases q !! u) as [uc|] eqn:Hu.
  - specialize (Hne uc eq_refl). rewrite Hne. cbn [negb assert_ mbind result_bind].
    destruct (untrack_ok None u uc q Hi Hu) as (q1 & Hun & [Hr1 Hq1] & HA & HU & HO & HC).
    unfold untrack_use_case in Hun. rewrite Hne in Hun.
    destruct (strict_remove (use_case_delay_key uc) (dq_use_cases_by_delay q)) as [m|e|x]; [|done..].
    cbn [mbind result_bind] in *. injection Hun as <-. cbv zeta.
    set (uc' := use_case_update_try_delay_till t uc).
    pose proof (insert_is_track u uc' (set_use_cases_by_delay m q) Hne) as Heq. simpl in Heq.
    change (set_use_cases_by_delay ?x (set_use_cases_by_delay m q)) with (set_use_cases_by_delay x q) in Heq.
    assert (Hr2 : reg_inv None (put_use_case u uc' (set_use_cases_by_delay m q))).
    { destruct (ri_use_case _ _ Hr1 u uc Hu) as (?&?&?).
      apply (put_use_case_ok None None); [done|done|by intros; right|done..]. }
    destruct (track_ok None u uc' (put_use_case u uc' (set_use_cases_by_delay m q))) as (q2 & Htr & Hi2 & HA2 & _ & HO2 & HC2).
    + split; [done|by apply queue_inv_put].
    + simpl. by rewrite lookup_insert_eq.
    + intros He. change (use_case_is_empty uc = true) in He. congruence.
    + rewrite Htr in Heq. exists q2. split; [|by split].
      rewrite <- Heq. by destruct (strict_insert (use_case_delay_key uc') u m).
  - destruct Hi as [Hr Hq]. set (uc := UseCase_new_empty t i). cbv zeta.
    assert (Hr2 : reg_inv None (put_use_case u uc q)).
    { apply (put_use_case_ok None None); simpl; [done|done|by intros; right|done| |].
      - intros k a Hf. simpl in Hf. apply first_key_value_Some in Hf as [Hf _]. by rewrite lookup_empty in Hf.
      - intros k b. rewrite lookup_empty. split; [done|]. intros [Hb (acc & Hb' & Hv & _)].
        destruct (ri_home _ _ Hr b acc u Hb Hb' Hv). congruence. }
    destruct (track_ok None u uc (put_use_case u uc q)) as (q2 & Htr & Hi2 & HA2 & _ & HO2 & HC2).
    + split; [done|]. by apply queue_inv_put, queue_inv_fresh.
    + simpl. by rewrite lookup_insert_eq.
    + intros _. simpl. rewrite N.max_0_r. done.
    + exists q2. split; [|by split]. rewrite <- Htr. unfold track_use_case. simpl.
      by destruct (strict_insert _ _ _).
Qed.

Lemma update_delays_ok q i txn :
  let a := parse_sender txn in let u := parse_use_case txn in
  dq_inv None None q → room (dq_config q) (dq_output_idx q) → input_at i = Some txn →
  dq_accounts q !! a = None → (∀ uc, dq_use_cases q !! u = Some uc → use_case_is_empty uc = false) →
  ∃ q', update_delays_for_selected_txn i a u q = Ok q' ∧ dq_inv None None q' ∧
    dq_output_idx q' = dq_output_idx q ∧ dq_config q' = dq_config q ∧ ∀ b, delayed q' b = delayed q b.
Proof.
  intros a u Hi Hroom Hin Ha Hne. unfold update_delays_for_selected_txn.
  rewrite (delay_by_ok q _ Hroom (or_introl eq_refl)). cbn [mbind result_bind].
  rewrite (delay_by_ok q _ Hroom (or_intror (ex_intro _ u eq_refl))). cbn [mbind result_bind].
  destruct (delay_use_case_ok u i (dq_output_idx q + 1 + use_case_spread_factor (dq_config q) u) q Hi)
    as (q1 & -> & [Hr1 Hq1] & HA & HO & HC); [unfold used_for; by rewrite Hin|lia|done|]. cbn [mbind result_bind].
  set (acc := Account_new_empty _ i). rewrite <- HA in Ha.
  rewrite (strict_insert_ok a acc (dq_accounts q1) Ha). cbn [mbind result_bind].
  assert (Hr2 : reg_inv (Some a) (put_account a acc q1)).
  { apply put_account_ok; [by apply account_fresh|]. split; simpl; [by intros j x ?%not_elem_of_nil|constructor|done|].
    unfold sent_by. by rewrite Hin. }
  destruct (placeholder_in a acc (put_account a acc q1) Hr2) as (m & Hm & Hr3);
    [simpl; by rewrite lookup_insert_eq|done|simpl; lia|].
  simpl in Hm. rewrite Hm. cbn [mbind result_bind]. eexists. split; [done|].
  split; [split; [exact Hr3|by apply (queue_inv_frame _ q1)]|]. simpl. split_and!; [done..|].
  intros b. unfold delayed. simpl. destruct (decide (a = b)) as [<-|Hb].
  - by rewrite lookup_insert_eq, <- HA, Ha.
  - by rewrite lookup_insert_ne, HA.
Qed.

Lemma queue_or_return_ok q i txn :
  dq_inv None None q → room (dq_config q) (dq_output_idx q) → input_at i = Some txn →
  (∀ a j x, (j, x) ∈ delayed q a → j < i) →
  ∃ r q', queue_or_return i txn q = Ok (r, q') ∧ dq_inv None None q' ∧
    dq_output_idx q' = dq_output_idx q ∧ dq_config q' = dq_config q ∧
    match r with
    | Some txn' => txn' = txn ∧ delayed q (parse_sender txn) = [] ∧ ∀ b, delayed q' b = delayed q b
    | None => appended q (parse_sender txn) i txn q'
    end.
Proof.
  intros Hi Hroom Hin Hlt. unfold queue_or_return.
  destruct (_ || _) eqn:Hdelay.
  - destruct (queue_txn_ok q i txn Hi Hroom Hin (Hlt _)) as (q' & -> & ? & ? & ? & ?).
    { intros Ha. rewrite Ha in Hdelay. simpl in Hdelay. by destruct (dq_use_cases q !! _); [eauto|]. }
    by exists None, q'.
  - apply orb_false_iff in Hdelay as [Hda Hdu]. destruct Hi as [Hr Hq].
    assert (Ha : dq_accounts q !! parse_sender txn = None).
    { destruct (dq_accounts q !! _) as [acc|] eqn:Ha; [exfalso|done]. apply orb_false_iff in Hda as [He Hl].
      apply negb_false_iff, account_empty in He. apply N.ltb_ge in Hl.
      assert (Hp : dq_account_placeholders_by_delay q !! account_delay_key acc = Some (parse_sender txn))
        by (apply (ri_placeholder _ _ Hr); split; [done|by exists acc]).
      apply (ri_late _ _ Hr) in Hp. simpl in Hp. lia. }
    destruct (update_delays_ok q i txn (conj Hr Hq) Hroom Hin Ha) as (q' & -> & Hi' & HO & HC & Hd).
    { intros uc Hu. rewrite Hu in Hdu. apply N.ltb_ge in Hdu.
      destruct (use_case_is_empty uc) eqn:He; [exfalso|done].
      assert (Hp : dq_use_case_placeholders_by_delay q !! use_case_delay_key uc = Some (parse_use_case txn))
        by (apply (qi_placeholder _ _ Hq); split; [done|by exists uc]).
      apply (qi_late _ _ Hq) in Hp. rewrite (empty_delay _ He) in Hp. lia. }
    exists (Some txn), q'. split_and!; [done..| |done]. unfold delayed. by rewrite Ha.
Qed.

(** ** Dropping stale placeholders *)

Lemma remove_all_ok {K V} `{Countable K} (keys : list K) (m : gmap K V) :
  NoDup keys → (∀ x, x ∈ keys → is_Some (m !! x)) →
  ∃ m', remove_all keys m = Ok m' ∧ ∀ x v, m' !! x = Some v ↔ m !! x = Some v ∧ x ∉ keys.
Proof.
  revert m. induction keys as [|key keys IH]; intros m Hnd Hin; simpl.
  { exists m. split; [done|]. intros x v. split; [intros; split; [done|apply not_elem_of_nil]|by intros []]. }
  apply NoDup_cons in Hnd as [Hk Hnd]. destruct (Hin key) as [v Hv]; [by left|].
  rewrite (strict_remove_ok key v) by done. cbn [mbind result_bind].
  destruct (IH (delete key m) Hnd) as (m' & Hm & Hl).
  { intros x Hx. rewrite lookup_delete_ne by (intros ->; done). apply Hin. by right. }
  exists m'. split; [done|]. intros x v'. rewrite Hl, lookup_delete_Some, not_elem_of_cons. intuition congruence.
Qed.

Lemma stale_values {V} (m : gmap DelayKey V) least x :
  x ∈ (map_to_list (stale least m)).*2 ↔ ∃ k, m !! k = Some x ∧ dk_leb least k = false.
Proof.
  rewrite list_elem_of_fmap. split.
  - intros ([k y] & -> & Hk). apply elem_of_map_to_list, map_lookup_filter_Some in Hk as [??]. by exists k.
  - intros (k & Hk & Hl). exists (k, x). split; [done|]. apply elem_of_map_to_list, map_lookup_filter_Some. done.
Qed.

Lemma stale_NoDup {V} (m : gmap DelayKey V) least :
  (∀ k k' x, m !! k = Some x → m !! k' = Some x → k = k') → NoDup (map_to_list (stale least m)).*2.
Proof.
  intros Hinj. apply NoDup_fmap_2_strong; [|apply NoDup_map_to_list].
  intros [k x] [k' x'] Hk Hk' Heq. simpl in Heq. subst x'.
  apply elem_of_map_to_list, map_lookup_filter_Some in Hk as [Hk _], Hk' as [Hk' _]. by rewrite (Hinj k k' x).
Qed.

Lemma waits_unique q p a k k' : waits q p a k → waits q p a k' → k = k'.
Proof. intros (acc & Ha & _ & ->) (acc' & Ha' & _ & ->). by simplify_eq. Qed.

Lemma listed_unique q b u k k' : listed q b u k → listed q b u k' → k = k'.
Proof. intros (uc & Hu & _ & ->) (uc' & Hu' & _ & ->). by simplify_eq. Qed.

Lemma remaining_late {V} (m : gmap DelayKey V) o k x :
  remaining {| dk_try_delay_till := o + 1; dk_input_idx := 0 |} m !! k = Some x → o < dk_try_delay_till k.
Proof. intros [_ Hk]%map_lookup_filter_Some. simpl in Hk. apply dk_leb_spec in Hk. simpl in Hk. lia. Qed.

(** A registry without the stale entries, and its placeholders without them. *)
Lemma remaining_index {V} (m : gmap DelayKey V) (R R' : V → DelayKey → Prop) least :
  indexes m (except None R) → (∀ x k k', R x k → R x k' → k = k') →
  (∀ x k, R' x k ↔ R x k ∧ x ∉ (map_to_list (stale least m)).*2) →
  indexes (remaining least m) (except None R').
Proof.
  intros Hm Huniq HR k x. unfold remaining. rewrite map_lookup_filter_Some, (Hm k x). unfold except. rewrite HR.
  rewrite stale_values. simpl. split.
  - intros [[_ Hx] Hl]. split_and!; [done..|]. intros (k' & Hk' & Hl'). apply Hm in Hk' as [_ Hk'].
    rewrite (Huniq x k k' Hx Hk') in Hl. congruence.
  - intros (_ & Hx & Hn). split; [done|]. apply not_false_iff_true. intros Hl. apply Hn. exists k.
    split; [by apply Hm|done].
Qed.

(** Empty accounts delay nothing. *)
Lemma delayed_removed q (acs : list AccountAddress) (A : gmap AccountAddress Account) a :
  (∀ b x, A !! b = Some x ↔ dq_accounts q !! b = Some x ∧ b ∉ acs) → (∀ b, b ∈ acs → ∃ k, waits q None b k) →
  match A !! a with Some acc => ac_txns acc | None => [] end = delayed q a.
Proof.
  intros HA Hacs. unfold delayed. destruct (dq_accounts q !! a) as [acc|] eqn:Ha.
  - destruct (decide (a ∈ acs)) as [Hin|Hn].
    + destruct (Hacs _ Hin) as (k & acc' & Ha' & Hh & _). simplify_eq.
      assert (A !! a = None) as -> by (apply eq_None_not_Some; intros [x [_ Hx]%HA]; done).
      unfold home in Hh. by destruct (ac_txns acc).
    + assert (A !! a = Some acc) as -> by by apply HA. done.
  - assert (A !! a = None) as -> by (apply eq_None_not_Some; intros [x [Hx _]%HA]; congruence). done.
Qed.

Lemma drain_ok q o :
  dq_inv None None q → o < u64_max →
  ∃ q', drain_placeholders (set_registries (dq_accounts q) (dq_use_cases q) o q) = Ok q' ∧ dq_inv None None q' ∧
    dq_output_idx q' = o ∧ dq_config q' = dq_config q ∧ ∀ a, delayed q' a = delayed q a.
Proof.
  intros [[H1 H2 H3 H4 H5] [Hq Hp Hl]] Ho. unfold drain_placeholders. simpl.
  rewrite add_u64_fits by lia. cbn [mbind result_bind]. set (least := {| dk_try_delay_till := o + 1; dk_input_idx := 0 |}).
  set (us := (map_to_list (stale least (dq_use_case_placeholders_by_delay q))).*2).
  set (acs := (map_to_list (stale least (dq_account_placeholders_by_delay q))).*2).
  assert (Hus : ∀ u, u ∈ us → ∃ k, listed q true u k) by (intros u (k & [_ Hk]%Hp & _)%stale_values; by eauto).
  assert (Hacs : ∀ a, a ∈ acs → ∃ k, waits q None a k) by (intros a (k & [_ Hk]%H2 & _)%stale_values; by eauto).
  destruct (remove_all_ok us (dq_use_cases q)) as (U & -> & HU).
  { apply stale_NoDup. intros k k' u [_ Hk]%Hp [_ Hk']%Hp. by eapply listed_unique. }
  { intros u (k & uc & Hu & _)%Hus. eauto. }
  cbn [mbind result_bind]. destruct (remove_all_ok acs (dq_accounts q)) as (A & -> & HA).
  { apply stale_NoDup. intros k k' a [_ Hk]%H2 [_ Hk']%H2. by eapply waits_unique. }
  { intros a (k & acc & Ha & _)%Hacs. eauto. }
  cbn [mbind result_bind]. eexists. split; [done|]. set (q' := set_queues _ _ _ _).
  assert (HwA : ∀ p a k, waits q' p a k ↔ waits q p a k ∧ a ∉ acs).
  { intros p a k. unfold waits. simpl. setoid_rewrite HA. naive_solver. }
  assert (HlU : ∀ b u k, listed q' b u k ↔ listed q b u k ∧ u ∉ us).
  { intros b u k. unfold listed. simpl. setoid_rewrite HU. naive_solver. }
  assert (Hhome : ∀ u a k, waits q (Some u) a k → a ∉ acs).
  { intros u a k (acc & Ha & Hh & _) (k' & acc' & Ha' & Hh' & _)%Hacs. congruence. }
  assert (Hfull : ∀ u k, listed q false u k → u ∉ us).
  { intros u k (uc & Hu & He & _) (k' & uc' & Hu' & He' & _)%Hus. congruence. }
  split; [split; split; simpl|split_and!; [done..|]].
  - intros a acc [Ha _]%HA. by apply H1.
  - apply (remaining_index _ (waits q None)); [done|apply waits_unique|apply HwA].
  - intros u uc [Hu _]%HU. destruct (H3 _ _ Hu) as (?&?&Hm). split_and!; [done..|]. eapply indexes_ext; [|exact Hm].
    intros a k. unfold except. rewrite HwA. naive_solver.
  - intros a acc u _ [Ha Hn]%HA Hh. destruct (H4 a acc u) as [uc Hu]; [done..|].
    exists uc. apply HU. split; [done|]. apply (Hfull _ (use_case_delay_key uc)). exists uc. split_and!; [done| |done].
    apply not_true_iff_false. rewrite use_case_empty. intros He. destruct (H3 _ _ Hu) as (_ & _ & Hm).
    assert (Hin : uc_account_by_delay uc !! account_delay_key acc = Some a) by (apply Hm; split; [done|by exists acc]).
    by rewrite He, lookup_empty in Hin.
  - intros k a. apply remaining_late.
  - eapply indexes_ext; [|exact Hq]. intros u k. unfold except. rewrite HlU. naive_solver.
  - apply (remaining_index _ (listed q true)); [done|apply listed_unique|apply HlU].
  - intros k u. apply remaining_late.
  - intros a. by apply (delayed_removed q acs).
Qed.

Lemma bump_ok q o :
  dq_inv None None q → dq_output_idx q ≤ o → o < u64_max →
  ∃ q', bump_output_idx o q = Ok q' ∧ dq_inv None None q' ∧
    dq_output_idx q' = o ∧ dq_config q' = dq_config q ∧ ∀ a, delayed q' a = delayed q a.
Proof.
  intros Hi Hle Ho. unfold bump_output_idx. rewrite (proj2 (N.leb_le _ _)) by done. cbn [assert_ mbind result_bind].
  destruct (N.ltb_spec (dq_output_idx q) o); [by apply drain_ok|].
  exists q. split_and!; [done|done|lia|done|done].
Qed.

(** ** The iterator *)

Abbreviation sent_to := (group parse_sender).

(** The output so far, what is delayed and what is still to be read make up the
    input, account by account. *)
Record iter_inv (out : list Txn) (it : ShuffledTransactionIterator) : Prop := {
  ii_inv : dq_inv None None (sti_delayed_queue it);
  ii_config : room (dq_config (sti_delayed_queue it)) (N.of_nat (length inp));
  ii_rest : sti_input_queue it = drop (N.to_nat (sti_input_idx it)) inp;
  ii_input : sti_input_idx it ≤ N.of_nat (length inp);
  ii_before a i txn : (i, txn) ∈ delayed (sti_delayed_queue it) a → i < sti_input_idx it;
  ii_order a : sent_to a out ++ (delayed (sti_delayed_queue it) a).*2 ++ sent_to a (sti_input_queue it) = sent_to a inp;
  ii_output : sti_output_idx it = N.of_nat (length out);
  ii_outputs : dq_output_idx (sti_delayed_queue it) ≤ sti_output_idx it;
}.

(** The state of the search in the input. *)
Record seek_inv (o : N) (c : Config) (rest : list Txn) (idx : N) q : Prop := {
  se_inv : dq_inv None None q;
  se_output : dq_output_idx q = o;
  se_config : dq_config q = c;
  se_rest : rest = drop (N.to_nat idx) inp;
  se_idx : idx ≤ N.of_nat (length inp);
  se_before a i txn : (i, txn) ∈ delayed q a → i < idx;
}.

Lemma seek_ok o c rest idx q :
  seek_inv o c rest idx q → room c o → N.of_nat (length inp) ≤ u64_max →
  ∃ r rest' idx' q', seek rest idx q = Ok (r, rest', idx', q') ∧ seek_inv o c rest' idx' q' ∧
    match r with
    | Some txn => ∀ a, sent_to a [txn] ++ (delayed q' a).*2 ++ sent_to a rest' = (delayed q a).*2 ++ sent_to a rest
    | None => rest' = [] ∧ ∀ a, (delayed q' a).*2 = (delayed q a).*2 ++ sent_to a rest
    end.
Proof.
  revert idx q. induction rest as [|txn rest IH]; intros idx q Hs Hroom Hlen; simpl.
  { exists None, [], idx, q. split_and!; [done..|]. intros a. by rewrite app_nil_r. }
  pose proof Hs as [Hi Ho Hc Hr Hidx Hb].
  assert (Hat : input_at idx = Some txn).
  { unfold input_at. rewrite <- (Nat.add_0_r (N.to_nat idx)), <- lookup_drop, <- Hr. done. }
  pose proof (lookup_lt_Some _ _ _ Hat) as Hlt. rewrite add_u64_fits by lia. cbn [mbind result_bind].
  assert (Hrest : rest = drop (N.to_nat (idx + 1)) inp).
  { rewrite N2Nat.inj_add, <- drop_drop, <- Hr. done. }
  destruct (queue_or_return_ok q idx txn Hi) as (r & q' & -> & Hi' & Ho' & Hc' & Hres);
    [by rewrite Hc, Ho|done|done|]. cbn [mbind result_bind].
  destruct r as [txn'|].
  - destruct Hres as (-> & Hnil & Hd). exists (Some txn), rest, (idx + 1), q'. split; [done|]. split.
    + split; [done|congruence|congruence|done|lia|]. intros a i x. rewrite Hd. intros Hin%Hb. lia.
    + intros a. rewrite Hd. change (txn :: rest) with ([txn] ++ rest). rewrite group_app, group_single.
      case_decide as Ha; [subst a; by rewrite Hnil|done].
  - destruct Hres as [Happ Hother].
    assert (Hq' : ∀ a, (delayed q' a).*2 = (delayed q a).*2 ++ sent_to a [txn]).
    { intros a. rewrite group_single. case_decide as Ha; [subst a; by rewrite Happ, fmap_app|].
      by rewrite Hother, app_nil_r. }
    destruct (IH (idx + 1) q') as (r & rest' & idx' & q2 & Hsk & Hs2 & Hres); [|done|done|].
    { split; [done|congruence|congruence|done|lia|]. intros a i x Hin.
      destruct (decide (parse_sender txn = a)) as [<-|Hne].
      - rewrite Happ in Hin. apply elem_of_app in Hin as [Hin%Hb|[= -> ->]%list_elem_of_singleton]; lia.
      - rewrite Hother in Hin by done. apply Hb in Hin. lia. }
    exists r, rest', idx', q2. split; [done|]. split; [done|]. change (txn :: rest) with ([txn] ++ rest).
    destruct r as [t|]; [|split; [apply Hres|]; destruct Hres as [_ Hres]]; intros a;
      by rewrite Hres, Hq', <- app_assoc, <- group_app.
Qed.

Lemma taken_order q r q' txn :
  taken q r q' → r = Some txn → dq_inv None None q →
  ∀ a, sent_to a [txn] ++ (delayed q' a).*2 = (delayed q a).*2.
Proof.
  intros Ht -> [Hr _] a. destruct Ht as (b & i & l & Hb & Hb' & Hother).
  assert (Hs : parse_sender txn = b).
  { unfold delayed in Hb. destruct (dq_accounts q !! b) as [acc|] eqn:Ha; [|done].
    apply (ao_txns _ _ (ri_account _ _ Hr b acc Ha) i txn). rewrite Hb. by left. }
  rewrite group_single, Hs. case_decide as Hba; [subst a; by rewrite Hb, Hb'|]. by rewrite Hother.
Qed.

Lemma taken_before q r q' a i x : taken q r q' → (i, x) ∈ delayed q' a → (i, x) ∈ delayed q a.
Proof.
  destruct r as [txn|]; [|by intros ->]. intros (b & j & l & Hb & Hb' & Hother).
  destruct (decide (b = a)) as [<-|Hne]; [|by rewrite Hother]. rewrite Hb, Hb'. by right.
Qed.

(** The last of the three sources, when the input is exhausted. *)
Lemma select_last o c idx q :
  seek_inv o c [] idx q → room c o →
  ∃ r q', pop_head false q = Ok (r, q') ∧ seek_inv o c [] idx q' ∧
    match r with
    | Some txn => ∀ a, sent_to a [txn] ++ (delayed q' a).*2 = (delayed q a).*2
    | None => ∀ a, delayed q a = []
    end.
Proof.
  intros [Hi Ho Hc Hr Hidx Hb] Hroom.
  destruct (pop_head_ok false q Hi) as (r & q' & -> & Hi' & Ho' & Hc' & Ht & Hnone); [by rewrite Hc, Ho|].
  exists r, q'. split; [done|]. split; [split; [done|congruence|congruence|done|done|]|].
  - intros a i x Hin. eapply Hb. by eapply taken_before.
  - destruct r as [txn|]; [|by apply Hnone]. by apply (taken_order q (Some txn)).
Qed.

Lemma iter_of_seek out txn c rest idx q :
  seek_inv (N.of_nat (length out)) c rest idx q → room c (N.of_nat (length inp)) →
  (∀ a, sent_to a [txn] ++ (delayed q a).*2 ++ sent_to a rest = drop (length (sent_to a out)) (sent_to a inp)) →
  (∀ a, sent_to a out `prefix_of` sent_to a inp) →
  iter_inv (out ++ [txn])
    {| sti_input_queue := rest; sti_delayed_queue := q; sti_input_idx := idx;
       sti_output_idx := N.of_nat (length out) + 1 |}.
Proof.
  intros [Hi Ho Hc Hr Hidx Hb] Hroom Hord Hpre. split; simpl; [done|by rewrite Hc|done..| | |lia].
  - intros a. rewrite group_app, <- app_assoc, Hord. destruct (Hpre a) as [l ->]. by rewrite drop_app_length.
  - rewrite length_app. simpl. lia.
Qed.

Lemma select_next_ok out it :
  iter_inv out it → N.of_nat (length inp) ≤ u64_max →
  ∃ r it', select_next_txn it = Ok (r, it') ∧
    match r with
    | Some txn => iter_inv (out ++ [txn]) it'
    | None => ∀ a, sent_to a out = sent_to a inp
    end.
Proof.
  intros [Hi Hroom Hrest Hin Hb Hord Ho Hos] Hlen.
  assert (Hpre : ∀ a, sent_to a out `prefix_of` sent_to a inp) by (intros a; rewrite <- Hord; by eexists).
  pose proof (submseteq_length _ _ (group_submseteq parse_sender _ _ Hpre)) as Hol.
  assert (Hdrop : ∀ a, (delayed (sti_delayed_queue it) a).*2 ++ sent_to a (sti_input_queue it)
    = drop (length (sent_to a out)) (sent_to a inp)) by (intros a; by rewrite <- Hord, drop_app_length).
  unfold select_next_txn, select_next_txn_inner. rewrite Ho in *.
  set (c := dq_config (sti_delayed_queue it)) in *. assert (Hr : room c (N.of_nat (length out))) by (unfold room in *; lia).
  destruct (bump_ok (sti_delayed_queue it) (N.of_nat (length out)) Hi Hos) as (q1 & -> & Hi1 & Ho1 & Hc1 & Hd1);
    [unfold room in Hr; lia|]. cbn [mbind result_bind].
  assert (Hfit : N.of_nat (length out) + 1 ≤ u64_max) by (unfold room in Hr; lia).
  destruct (pop_head_ok true q1 Hi1) as (r & q2 & -> & Hi2 & Ho2 & Hc2 & Ht & _); [by rewrite Hc1, Ho1|].
  cbn [mbind result_bind].
  assert (Hs : seek_inv (N.of_nat (length out)) c (sti_input_queue it) (sti_input_idx it) q2).
  { split; [done|congruence|by rewrite Hc2, Hc1|done|done|].
    intros a i x Hx. eapply Hb. rewrite <- Hd1. by eapply taken_before. }
  destruct r as [txn|]; cbn [mbind result_bind sti_output_idx sti_input_queue sti_delayed_queue sti_input_idx].
  { rewrite add_u64_fits by done. cbn [mbind result_bind]. eexists _, _. split; [done|].
    apply (iter_of_seek _ _ c); [done..| |done]. intros a. rewrite app_assoc, (taken_order q1 _ q2 txn Ht eq_refl Hi1 a), Hd1.
    apply Hdrop. }
  simpl in Ht. subst q2.
  destruct (seek_ok _ c _ _ q1 Hs Hr Hlen) as (r & rest' & idx' & q3 & -> & Hs3 & Hres). cbn [mbind result_bind].
  destruct r as [txn|]; cbn [mbind result_bind sti_output_idx sti_input_queue sti_delayed_queue sti_input_idx].
  { rewrite add_u64_fits by done. cbn [mbind result_bind]. eexists _, _. split; [done|].
    apply (iter_of_seek _ _ c); [done..| |done]. intros a. rewrite Hres, Hd1. apply Hdrop. }
  destruct Hres as [-> Hres]. destruct (select_last _ c idx' q3 Hs3 Hr) as (r & q4 & -> & Hs4 & Hres4).
  cbn [mbind result_bind]. destruct r as [txn|]; cbn [mbind result_bind sti_output_idx sti_input_queue sti_delayed_queue sti_input_idx].
  { rewrite add_u64_fits by done. cbn [mbind result_bind]. eexists _, _. split; [done|].
    apply (iter_of_seek _ _ c); [done..| |done]. intros a. rewrite app_assoc, Hres4, Hres, Hd1, app_nil_r. apply Hdrop. }
  eexists None, _. split; [done|]. intros a. specialize (Hres a). rewrite Hres4, Hd1, Hdrop in Hres.
  destruct (Hpre a) as [l Hl]. rewrite Hl, drop_app_length in Hres. simpl in Hres. subst l. by rewrite app_nil_r in Hl.
Qed.

Lemma collect_ok fuel out it :
  iter_inv out it → N.of_nat (length inp) ≤ u64_max → (length inp < length out + fuel)%nat →
  ∃ rest, collect_shuffled fuel it = Ok rest ∧ ∀ a, sent_to a (out ++ rest) = sent_to a inp.
Proof.
  revert out it. induction fuel as [|fuel IH]; intros out it Hi Hlen Hfuel; simpl.
  { assert (Hpre : ∀ a, sent_to a out `prefix_of` sent_to a inp)
      by (intros a; rewrite <- (ii_order _ _ Hi); by eexists).
    pose proof (submseteq_length _ _ (group_submseteq parse_sender _ _ Hpre)). lia. }
  destruct (select_next_ok out it Hi Hlen) as (r & it' & -> & Hr). cbn [mbind result_bind].
  destruct r as [txn|]; [|exists []; by rewrite app_nil_r].
  destruct (IH (out ++ [txn]) it' Hr Hlen) as (rest & -> & Hall); [rewrite length_app; simpl; lia|].
  cbn [mbind result_bind]. exists (txn :: rest). split; [done|]. intros a. by rewrite cons_middle, app_assoc.
Qed.

End invariant.

Lemma use_case_aware_run config txns :
  room config (N.of_nat (length txns)) →
  ∃ out, UseCaseAwareShuffler_shuffle config txns = Ok out ∧
    ∀ a, group parse_sender a out = group parse_sender a txns.
Proof.
  intros Hroom. unfold UseCaseAwareShuffler_shuffle.
  destruct (collect_ok txns (S (length txns)) [] (ShuffledTransactionIterator_new config txns))
    as (out & Hrun & Hall); [|unfold room in Hroom; lia|simpl; lia|by exists out].
  split; simpl; [|done|done|lia| |done|done|done].
  - split; split; simpl; [by intros a acc; rewrite lookup_empty| |by intros u uc; rewrite lookup_empty
      |by intros a acc u _; rewrite lookup_empty|by intros k a; rewrite lookup_empty| | |by intros k u; rewrite lookup_empty].
    all: intros k x; rewrite lookup_empty; split; [done|]; intros [_ (y & Hy & _)]; simpl in Hy; by rewrite lookup_empty in Hy.
  - intros a i txn. unfold delayed. simpl. rewrite lookup_empty. by intros ?%not_elem_of_nil.
Qed.

(** C28: The use case aware shuffler. Whatever the transactions and the spread factors,
    as long as the delays fit their integers: none of the assertions of the delayed
    queue fails, the iterator ends after every transaction has come out, and the
    block keeps its transactions and the order of those of each sender. *)
Theorem use_case_aware_shuffle_correct config txns :
  room config (N.of_nat (length txns)) →
  ∃ out, UseCaseAwareShuffler_shuffle config txns = Ok out ∧ out ≡ₚ txns ∧
    ∀ a, group parse_sender a out = group parse_sender a txns.
Proof.
  intros (out & Hrun & Hall)%use_case_aware_run. exists out.
  split; [done|]. split; [|done]. by apply (group_perm parse_sender).
Qed.

End use_case_aware.
