(* ===== verification/BlockPreparer.v ===== *)
(** * The transactions a block executes

    block_preparer.rs and the choices of transaction_shuffler/mod.rs: the
    transactions of the payload are filtered, deduplicated, shuffled and cut to the
    limit of the block. *)

From S2P Require Import Prelude Gaptos Types ConsensusDb BatchStore Shuffler UseCaseShuffler.

Section preparer.
Context {GA : Gaptos} {QT : QuorumStoreTypes} {TT : TxnTypes}.

(** [UseCaseAwareTransaction] for signed transactions. *)
#[global] Instance signed_use_case_aware : UseCaseAwareTransaction SignedTransaction :=
  {| parse_sender := txn_sender; parse_use_case := txn_parse_use_case |}.

(** [aptos_types::on_chain_config::TransactionShufflerType]. *)
Inductive TransactionShufflerType :=
| NoShuffling
| DeprecatedSenderAwareV1 (conflict_window_size : N)
| SenderAwareV2 (conflict_window_size : N)
| DeprecatedFairness
| UseCaseAware (sender_spread_factor platform_use_case_spread_factor user_use_case_spread_factor : N).

Inductive TransactionShuffler :=
| NoOpShuffler
| SenderAwareShuffler (conflict_window_size : N)
| UseCaseAwareShuffler (config : Config).

Definition create_transaction_shuffler (t : TransactionShufflerType) : result Anyhow TransactionShuffler :=
  match t with
  | NoShuffling => Ok NoOpShuffler
  | DeprecatedSenderAwareV1 _ => Ok NoOpShuffler
  | SenderAwareV2 conflict_window_size => Ok (SenderAwareShuffler conflict_window_size)
  | DeprecatedFairness => Panic "DeprecatedFairness shuffler is no longer supported."
  | UseCaseAware sender platform user =>
      Ok (UseCaseAwareShuffler {| cfg_sender_spread_factor := sender;
                                  cfg_platform_use_case_spread_factor := platform;
                                  cfg_user_use_case_spread_factor := user |})
  end.

Definition shuffle (s : TransactionShuffler) (txns : list SignedTransaction)
    : result Anyhow (list SignedTransaction) :=
  match s with
  | NoOpShuffler => Ok txns
  | SenderAwareShuffler conflict_window_size => SenderAwareShuffler_shuffle conflict_window_size txns
  | UseCaseAwareShuffler config => UseCaseAwareShuffler_shuffle config txns
  end.

Record BlockPreparer := {
  bp_txn_filter : Filter;
  bp_txn_deduper : TransactionDeduperType;
  bp_txn_shuffler : TransactionShuffler;
}.

(** [got] is the answer of the payload manager: the transactions of the payload,
    and the number of them to execute at most.  A panic of the blocking task is a
    panic of the caller. *)
Definition prepare_block (bp : BlockPreparer) (block_id : HashValue) (block_timestamp_usecs : N)
    (got : result ExecutorError (list SignedTransaction * option N))
    : result ExecutorError (list SignedTransaction) :=
  '(txns, max_txns_from_block_to_execute) ← got;
  let filtered_txns := TransactionFilter_filter (bp_txn_filter bp) block_id block_timestamp_usecs txns in
  let deduped_txns := dedup (bp_txn_deduper bp) filtered_txns in
  match shuffle (bp_txn_shuffler bp) deduped_txns with
  | Ok shuffled_txns =>
      Ok (match max_txns_from_block_to_execute with
          | Some max => take (N.to_nat max) shuffled_txns
          | None => shuffled_txns
          end)
  | Err _ => Panic "Failed to spawn blocking task for transaction generation"
  | Panic _ => Panic "Failed to spawn blocking task for transaction generation"
  end.

(** ** What is executed *)

(** The shuffler can take a block of [n] transactions. *)
Definition shuffler_fits (s : TransactionShuffler) (n : nat) : Prop :=
  match s with
  | NoOpShuffler => True
  | SenderAwareShuffler conflict_window_size => conflict_window_size ≤ u32_max ∧ (Z.of_nat n ≤ i64_max)%Z
  | UseCaseAwareShuffler config => room config (N.of_nat n)
  end.

Lemma shuffle_order s txns :
  shuffler_fits s (length txns) →
  ∃ out, shuffle s txns = Ok out ∧ ∀ a, group txn_sender a out = group txn_sender a txns.
Proof.
  destruct s as [|n|c]; simpl.
  - intros _. by exists txns.
  - intros [Hn Hl]. by apply sender_aware_order.
  - intros Hr. exact (use_case_aware_run c txns Hr).
Qed.

(** The transactions the filter lets through. *)
Definition allowed (bp : BlockPreparer) (block_id : HashValue) (timestamp : N) (txn : SignedTransaction) : Prop :=
  filter_is_empty (bp_txn_filter bp) = true ∨ filter_allows (bp_txn_filter bp) block_id timestamp txn = true.

Lemma filter_sublist f block_id timestamp txns :
  sublist (TransactionFilter_filter f block_id timestamp txns) txns ∧
  ∀ x, x ∈ TransactionFilter_filter f block_id timestamp txns ↔
    x ∈ txns ∧ (filter_is_empty f = true ∨ filter_allows f block_id timestamp x = true).
Proof.
  unfold TransactionFilter_filter. destruct (filter_is_empty f).
  - split; [done|]. intros x. tauto.
  - split; [apply sublist_filter|]. intros x. rewrite list_elem_of_filter. naive_solver.
Qed.

Lemma group_sublist {A K} `{!EqDecision K} (f : A → K) k l1 l2 :
  sublist l1 l2 → sublist (group f k l1) (group f k l2).
Proof.
  induction 1 as [|x l1 l2 _ IH|x l1 l2 _ IH]; [constructor| |]; rewrite (group_cons f k x l2), group_single.
  - rewrite (group_cons f k x l1), group_single. case_decide; [by constructor|done].
  - case_decide; [by apply sublist_cons|done].
Qed.

Lemma dedup_spec t txns :
  hashes_identify → sublist (dedup t txns) txns ∧
  (t = TxnHashAndAuthenticatorV1 → NoDup (hash_and_authenticator <$> dedup t txns)) ∧
  ∀ x, x ∈ txns → hash_and_authenticator x ∈ hash_and_authenticator <$> dedup t txns.
Proof.
  intros Hid. destruct t; simpl.
  - split_and!; [done..|]. intros x Hx. apply list_elem_of_fmap. by exists x.
  - rewrite (dedup_is_first _ Hid). destruct (dedup_first_spec txns ∅) as (Hs & Hn & Hc & _). split_and!; [done..|].
    intros x [?%not_elem_of_empty|?]%Hc; done.
Qed.

(** C29: What a block executes. The preparation of a block that fits its shuffler
    returns; what it returns was in the payload, passed the filter, is no longer
    than the limit and, with the deduper on, has no transaction twice; the
    transactions of each sender are in the order of the payload; and without a limit
    every transaction that passed the filter is there, itself or as its duplicate. *)
Theorem prepared_block bp block_id timestamp txns max :
  hashes_identify → shuffler_fits (bp_txn_shuffler bp)
    (length (dedup (bp_txn_deduper bp) (TransactionFilter_filter (bp_txn_filter bp) block_id timestamp txns))) →
  ∃ out, prepare_block bp block_id timestamp (Ok (txns, max)) = Ok out ∧
    (∀ x, x ∈ out → x ∈ txns ∧ allowed bp block_id timestamp x) ∧
    (∀ n, max = Some n → N.of_nat (length out) ≤ n) ∧
    (bp_txn_deduper bp = TxnHashAndAuthenticatorV1 → NoDup (hash_and_authenticator <$> out)) ∧
    (∀ a, sublist (group txn_sender a out) (group txn_sender a txns)) ∧
    (max = None → ∀ x, x ∈ txns → allowed bp block_id timestamp x →
       hash_and_authenticator x ∈ hash_and_authenticator <$> out).
Proof.
  intros Hid Hfit. unfold prepare_block. cbn [mbind result_bind].
  set (filtered := TransactionFilter_filter _ _ _ _) in *. set (deduped := dedup _ _) in *.
  destruct (filter_sublist (bp_txn_filter bp) block_id timestamp txns) as [Hfs Hfe].
  destruct (dedup_spec (bp_txn_deduper bp) filtered Hid) as (Hds & Hnd & Hcov). fold deduped in Hds, Hnd, Hcov.
  destruct (shuffle_order _ _ Hfit) as (out & -> & Hord). pose proof (group_perm txn_sender _ _ Hord) as Hperm.
  set (res := match max with Some m => take (N.to_nat m) out | None => out end).
  assert (Hres : ∃ rest, out = res ++ rest).
  { subst res. destruct max; [exists (drop (N.to_nat n) out); by rewrite take_drop|exists []; by rewrite app_nil_r]. }
  destruct Hres as [rest Hrest]. exists res. split; [done|]. split_and!.
  - intros x Hx. apply Hfe. assert (Hxd : x ∈ deduped) by (rewrite <- Hperm, Hrest; apply elem_of_app; by left).
    eapply elem_of_submseteq; [exact Hxd|by apply sublist_submseteq].
  - intros n ->. subst res. rewrite length_take. lia.
  - intros Ht%Hnd. rewrite <- Hperm, Hrest, fmap_app in Ht. by apply NoDup_app in Ht as (? & _).
  - intros a. etrans; [|apply group_sublist; etrans; [exact Hds|exact Hfs]].
    rewrite <- Hord, Hrest, group_app. by apply sublist_inserts_r.
  - intros -> x Hx Ha. subst res. rewrite Hperm. apply Hcov. by apply Hfe.
Qed.

End preparer.
