(* ===== verification/Recovery.v ===== *)
(** * Recovery after a restart (consensus/src/persistent_liveness_storage.rs)

    What consensus starts from: the root block with its certificates, found from
    the ledger info in storage or from the block number the execution layer has
    reached, the blocks and certificates above it, the last vote and the highest
    timeout certificate.  [start] composes the reads of [ConsensusDb] with the
    search for the root.  The theorems show which block becomes the root, that
    no block or certificate is lost or invented on the way, what is cleaned up in
    the database, and that a clean-up that cannot be written panics. *)

From S2P Require Import Prelude Gaptos Types Bytes Certificates Payloads Blocks ConsensusDb.

(** What recovery takes from [gaptos] beyond the database. *)
Class RecoveryTypes {GA : Gaptos} := {
  EpochState_eqdec :: EqDecision EpochState;
  EpochBlockInfo_eqdec :: EqDecision EpochBlockInfo;
  bi_executed_state_id : BlockInfo → HashValue;
  li_consensus_block_id : LedgerInfo → HashValue;
  bcs_vote : Vote → result Anyhow bytes;
  vote_of_bcs : bytes → result Anyhow Vote;
  bcs_timeout_cert : TwoChainTimeoutCertificate → result Anyhow bytes;
  timeout_cert_of_bcs : bytes → result Anyhow TwoChainTimeoutCertificate;
}.

Section recovery.
Context {GA : Gaptos} {VE : Verifier} {CR : Crypto} {DT : DbTypes} {SD : SchemaDb}.
Context {RY : RecoveryTypes}.

Record RootInfo := {
  ri_block : Block;
  ri_quorum_cert : QuorumCert;
  ri_ordered_cert : WrappedLedgerInfo;
  ri_commit_cert : WrappedLedgerInfo;
}.

(** [blocks.sort_by_key(|b| (b.epoch(), b.round()))], a stable sort. *)
Definition block_key_leb (b1 b2 : Block) : bool :=
  (Block_epoch b1 <? Block_epoch b2) ||
  (Block_epoch b1 =? Block_epoch b2) && (Block_round b1 <=? Block_round b2).

Fixpoint insert_sorted (b : Block) (l : list Block) : list Block :=
  match l with
  | [] => [b]
  | x :: l' => if block_key_leb b x then b :: l else x :: insert_sorted b l'
  end.

Definition sort_blocks (l : list Block) : list Block := foldr insert_sorted [] l.

(** [iter().position(p)] followed by [remove]. *)
Fixpoint remove_first (p : Block → bool) (l : list Block) : option (Block * list Block) :=
  match l with
  | [] => None
  | b :: l =>
      if p b then Some (b, l)
      else '(r, l) ← remove_first p l; Some (r, b :: l)
  end.

(** [iter().find(p)]. *)
Definition find_qc (p : QuorumCert → bool) (qcs : list QuorumCert) : option QuorumCert :=
  snd <$> list_find (λ qc, p qc = true) qcs.

(** ** LedgerRecoveryData *)

Record LedgerRecoveryData := { lrd_storage_ledger : LedgerInfoWithSignatures }.

Definition committed_round (d : LedgerRecoveryData) : Round :=
  bi_round (li_commit_info (liws_ledger_info (lrd_storage_ledger d))).

Definition is_epoch_start_timestamp_only_mismatch (ordered executed : BlockInfo) : bool :=
  (bi_epoch ordered =? bi_epoch executed) && (bi_round ordered =? 0) && (bi_round executed =? 0) &&
  bool_decide (bi_id ordered = bi_id executed) &&
  bool_decide (bi_executed_state_id ordered = bi_executed_state_id executed) &&
  (bi_version ordered =? bi_version executed) &&
  bool_decide (bi_next_epoch_state ordered = bi_next_epoch_state executed) &&
  bool_decide (bi_epoch_block_info ordered = bi_epoch_block_info executed) &&
  negb (bi_timestamp_usecs ordered =? bi_timestamp_usecs executed).

(** The root of the storage ledger: the virtual genesis block of the next epoch
    is added when the ledger info ends one. *)
Definition ledger_root (d : LedgerRecoveryData) (blocks : list Block) (quorum_certs : list QuorumCert)
    : result Anyhow (HashValue * LedgerInfoWithSignatures * list Block * list QuorumCert) :=
  let li := liws_ledger_info (lrd_storage_ledger d) in
  if li_ends_epoch li then
    genesis ← make_genesis_block_from_ledger_info li;
    genesis_qc ← certificate_for_genesis_from_ledger_info li (block_id genesis);
    Ok (block_id genesis, qc_signed_ledger_info genesis_qc, blocks ++ [genesis],
        quorum_certs ++ [genesis_qc])
  else Ok (li_consensus_block_id li, lrd_storage_ledger d, blocks, quorum_certs).

(** The certificates of a root that was found in the ledger. *)
Definition ledger_root_certs (root_block : Block) (latest : LedgerInfoWithSignatures)
    (quorum_certs : list QuorumCert) (order_vote_enabled : bool)
    : result Anyhow (WrappedLedgerInfo * WrappedLedgerInfo) :=
  if order_vote_enabled then
    let root_ordered_cert := WrappedLedgerInfo_new VoteData_dummy latest in
    Ok (root_ordered_cert, root_ordered_cert)
  else
    root_commit_qc ← ok_or (Msg "No LI found for root")
      (find_qc (λ qc, bool_decide (bi_id (QuorumCert_commit_info qc) = block_id root_block)) quorum_certs);
    let root_ordered_cert := into_wrapped_ledger_info root_commit_qc in
    root_commit_cert ←
      match WrappedLedgerInfo_create_merged_with_executed_state root_ordered_cert latest with
      | Ok c => Ok c
      | Err _ =>
          if is_epoch_start_timestamp_only_mismatch (WrappedLedgerInfo_commit_info root_ordered_cert)
               (li_commit_info (liws_ledger_info latest))
          then Ok (WrappedLedgerInfo_new (qc_vote_data root_commit_qc) latest)
          else Panic "Inconsistent commit proof and evaluation decision, cannot commit block"
      | Panic m => Panic m
      end;
    Ok (root_ordered_cert, root_commit_cert).

(** The root, with the blocks and certificates after the call. *)
Definition find_root (d : LedgerRecoveryData) (blocks : list Block) (quorum_certs : list QuorumCert)
    (order_vote_enabled : bool) : result Anyhow (RootInfo * list Block * list QuorumCert) :=
  r ← ledger_root d blocks quorum_certs;
  let '(root_id, latest, blocks, quorum_certs) := r in
  rb ← ok_or (Msg "unable to find root")
         (remove_first (λ b, bool_decide (block_id b = root_id)) (sort_blocks blocks));
  let '(root_block, blocks) := rb in
  root_quorum_cert ← ok_or (Msg "No QC found for root")
    (find_qc (λ qc, bool_decide (bi_id (certified_block qc) = block_id root_block)) quorum_certs);
  certs ← ledger_root_certs root_block latest quorum_certs order_vote_enabled;
  Ok ({| ri_block := root_block; ri_quorum_cert := root_quorum_cert;
         ri_ordered_cert := certs.1; ri_commit_cert := certs.2 |}, blocks, quorum_certs).

(** ** RecoveryData *)

Record RecoveryData := {
  rd_last_vote : option Vote;
  rd_root : RootInfo;
  rd_blocks : list Block;
  rd_quorum_certs : list QuorumCert;
  rd_blocks_to_prune : option (list HashValue);
  rd_highest_2chain_timeout_certificate : option TwoChainTimeoutCertificate;
}.

Definition make_placeholder_commit_cert (root_block : Block) : WrappedLedgerInfo :=
  let commit_info := gen_block_info root_block ACCUMULATOR_PLACEHOLDER_HASH 0 None in
  let vote_data := VoteData_new commit_info commit_info in
  let li := LedgerInfo_new commit_info (hash_vote_data vote_data) in
  WrappedLedgerInfo_new vote_data (LedgerInfoWithSignatures_new li AggregateSignature_empty).

Definition numbered_root_certs (root_block : Block) (root_quorum_cert : QuorumCert)
    (quorum_certs : list QuorumCert) (order_vote_enabled : bool)
    : result Anyhow (WrappedLedgerInfo * WrappedLedgerInfo) :=
  if order_vote_enabled then
    let root_ordered_cert := WrappedLedgerInfo_new VoteData_dummy (qc_signed_ledger_info root_quorum_cert) in
    Ok (root_ordered_cert, root_ordered_cert)
  else
    match find_qc (λ qc, bool_decide (bi_id (QuorumCert_commit_info qc) = block_id root_block))
            quorum_certs with
    | Some qc =>
        let root_ordered_cert := into_wrapped_ledger_info qc in
        match WrappedLedgerInfo_create_merged_with_executed_state root_ordered_cert
                (wli_signed_ledger_info root_ordered_cert) with
        | Ok c => Ok (root_ordered_cert, c)
        | _ => Panic "Inconsistent commit proof and evaluation decision, cannot commit block"
        end
    | None =>
        let placeholder := make_placeholder_commit_cert root_block in
        Ok (placeholder, placeholder)
    end.

Definition has_number (n : N) (b : Block) : bool :=
  match block_block_number b with Some block_number => block_number =? n | None => false end.

Definition find_root_by_block_number (execution_latest_block_num : N) (blocks : list Block)
    (quorum_certs : list QuorumCert) (order_vote_enabled : bool)
    : result Anyhow (RootInfo * list Block * list QuorumCert) :=
  rb ← ok_or (Msg "unable to find block_number")
         (remove_first (has_number execution_latest_block_num) (sort_blocks blocks));
  let '(root_block, blocks) := rb in
  root_quorum_cert ← ok_or (Msg "No QC found for root")
    (find_qc (λ qc, bool_decide (bi_id (certified_block qc) = block_id root_block)) quorum_certs);
  certs ← numbered_root_certs root_block root_quorum_cert quorum_certs order_vote_enabled;
  Ok ({| ri_block := root_block; ri_quorum_cert := root_quorum_cert;
         ri_ordered_cert := certs.1; ri_commit_cert := certs.2 |}, blocks, quorum_certs).

(** [match o { Some(a) if p(a) => Some(a), _ => None }]. *)
Definition keep_if {A} (p : A → bool) (o : option A) : option A :=
  match o with Some a => if p a then Some a else None | None => None end.

Definition RecoveryData_new (last_vote : option Vote) (ledger_recovery_data : LedgerRecoveryData)
    (execution_latest_block_num : N) (blocks : list Block) (quorum_certs : list QuorumCert)
    (highest_2chain_timeout_cert : option TwoChainTimeoutCertificate)
    (order_vote_enabled has_root : bool) : result Anyhow RecoveryData :=
  r ← (if has_root
       then find_root_by_block_number execution_latest_block_num blocks quorum_certs order_vote_enabled
       else find_root ledger_recovery_data blocks quorum_certs order_vote_enabled);
  let '(root, blocks, quorum_certs) := r in
  let epoch := Block_epoch (ri_block root) in
  Ok {| rd_last_vote := keep_if (λ v, Vote_epoch v =? epoch) last_vote;
        rd_root := root; rd_blocks := blocks; rd_quorum_certs := quorum_certs;
        rd_blocks_to_prune := Some [];
        rd_highest_2chain_timeout_certificate :=
          keep_if (λ tc, tc_epoch tc =? epoch) highest_2chain_timeout_cert |}.

Definition take_blocks_to_prune : M RecoveryData Anyhow (list HashValue) := λ d,
  match rd_blocks_to_prune d with
  | Some l =>
      (Ok l, {| rd_last_vote := rd_last_vote d; rd_root := rd_root d; rd_blocks := rd_blocks d;
                rd_quorum_certs := rd_quorum_certs d; rd_blocks_to_prune := None;
                rd_highest_2chain_timeout_certificate := rd_highest_2chain_timeout_certificate d |})
  | None => (Panic "blocks_to_prune already taken", d)
  end.

(** The blocks kept, the ids in the tree, and the ids removed. *)
Fixpoint retain_blocks (blocks : list Block) (tree to_remove : gset HashValue)
    : list Block * gset HashValue * gset HashValue :=
  match blocks with
  | [] => ([], tree, to_remove)
  | b :: blocks =>
      if bool_decide (Block_parent_id b ∈ tree) then
        let '(l, tree, to_remove) := retain_blocks blocks ({[ block_id b ]} ∪ tree) to_remove in
        (b :: l, tree, to_remove)
      else retain_blocks blocks tree ({[ block_id b ]} ∪ to_remove)
  end.

(** The ids to prune, with the blocks and certificates that stay. *)
Definition find_recovery_blocks_to_prune (root_id : HashValue) (blocks : list Block)
    (quorum_certs : list QuorumCert) : gset HashValue * list Block * list QuorumCert :=
  let '(kept, tree, to_remove) := retain_blocks blocks {[ root_id ]} ∅ in
  let removed := list_to_set (filter (λ id, id ∉ tree) ((bi_id ∘ certified_block) <$> quorum_certs)) in
  (removed ∪ to_remove, kept,
   filter (λ qc, bi_id (certified_block qc) ∈ tree) quorum_certs).

(** ** StorageWriteProxy *)

(** [swp_aptos_latest] is what the reader of the Aptos database answers to
    [get_latest_ledger_info]. *)
Record StorageWriteProxy := {
  swp_db : ConsensusDB;
  swp_aptos_latest : result Anyhow LedgerInfoWithSignatures;
}.

Definition set_swp_db (db : ConsensusDB) (s : StorageWriteProxy) : StorageWriteProxy :=
  {| swp_db := db; swp_aptos_latest := swp_aptos_latest s |}.

Definition on_db {A} (c : M ConsensusDB Anyhow A) : M StorageWriteProxy Anyhow A := λ s,
  let '(r, db) := c (swp_db s) in (r, set_swp_db db s).

Definition save_tree (blocks : list Block) (quorum_certs : list QuorumCert)
    (block_numbers : list (N * N * HashValue)) : M StorageWriteProxy Anyhow unit :=
  _ ← on_db (save_blocks_and_quorum_certificates blocks quorum_certs);
  on_db (save_block_numbers block_numbers).

Definition prune_tree (block_keys : list (N * HashValue)) : M StorageWriteProxy Anyhow unit :=
  lift (Panic "Can't delete blocks").

Definition storage_save_vote (vote : Vote) : M StorageWriteProxy Anyhow unit :=
  b ← lift (bcs_vote vote); on_db (save_vote b).

Definition save_highest_2chain_timeout_cert (tc : TwoChainTimeoutCertificate)
    : M StorageWriteProxy Anyhow unit :=
  b ← lift (bcs_timeout_cert tc); on_db (save_highest_2chain_timeout_certificate b).

Definition recover_from_ledger (s : StorageWriteProxy) : result Anyhow LedgerRecoveryData :=
  li ← expect_ok "Failed to get latest ledger info." (swp_aptos_latest s);
  Ok {| lrd_storage_ledger := li |}.

(** An error of the read counts as [None]. *)
Definition read_or_none {A} (r : result Anyhow (option A)) : result Anyhow (option A) :=
  match r with Err _ => Ok None | r => r end.

(** The ledger info to recover from. *)
Definition recovery_ledger_info (latest_block_number : N) (s : StorageWriteProxy)
    : result Anyhow LedgerInfoWithSignatures :=
  let fallback := expect_ok "called `Result::unwrap()` on an `Err` value" (swp_aptos_latest s) in
  last_of_epoch ← read_or_none (get EpochByBlockNumberSchema latest_block_number (swp_db s));
  if latest_block_number =? 0 then Ok genesis_ledger_info
  else match last_of_epoch with
       | Some _ =>
           li ← read_or_none (get LedgerInfoSchema latest_block_number (swp_db s));
           match li with Some li => Ok li | None => fallback end
       | None => fallback
       end.

(** [Option::map] with a fallible function. *)
Definition decode_entry {A} (f : bytes → result Anyhow A) (msg : string) (o : option bytes)
    : result Anyhow (option A) :=
  match o with
  | None => Ok None
  | Some b => a ← expect_ok msg (f b); Ok (Some a)
  end.

(** What is recovered from the database, before the clean-up. *)
Definition recover (order_vote_enabled : bool) (epoch latest_block_number : N) (s : StorageWriteProxy)
    : result Anyhow RecoveryData :=
  raw_data ← expect_ok "unable to recover consensus data"
               (get_data latest_block_number epoch (swp_db s));
  let '(vote_bytes, tc_bytes, blocks, quorum_certs, has_root) := raw_data in
  last_vote ← decode_entry vote_of_bcs "unable to deserialize last vote" vote_bytes;
  tc ← decode_entry timeout_cert_of_bcs "unable to deserialize highest 2-chain timeout cert" tc_bytes;
  latest_ledger_info ← recovery_ledger_info latest_block_number s;
  expect_ok "Failed to construct recovery data"
    (RecoveryData_new last_vote {| lrd_storage_ledger := latest_ledger_info |} latest_block_number
       blocks quorum_certs tc order_vote_enabled has_root).

(** A step whose error panics. *)
Definition or_panic {A} (msg : string) (c : M StorageWriteProxy Anyhow A) : M StorageWriteProxy Anyhow A :=
  λ s, let '(r, s) := c s in (expect_ok msg r, s).

(** [latest_block_number] is the one of the block buffer manager. *)
Definition start (order_vote_enabled : bool) (epoch latest_block_number : N)
    : M StorageWriteProxy Anyhow RecoveryData :=
  initial_data ← gets (recover order_vote_enabled epoch latest_block_number);
  _ ← (if bool_decide (rd_last_vote initial_data = None)
       then or_panic "unable to cleanup last vote" (on_db delete_last_vote_msg) else mret tt);
  _ ← (if bool_decide (rd_highest_2chain_timeout_certificate initial_data = None)
       then or_panic "unable to cleanup highest 2-chain timeout cert"
              (on_db delete_highest_2chain_timeout_certificate)
       else mret tt);
  mret initial_data.

End recovery.

(** A block info matches itself as the ordered part of an executed one. *)
Class RecoveryLaws {GA : Gaptos} : Prop :=
  bi_match_ordered_only_refl b : bi_match_ordered_only b b = true.

Section recovery_lemmas.
Context {GA : Gaptos} {VE : Verifier} {CR : Crypto} {DT : DbTypes} {SD : SchemaDb}.
Context {RY : RecoveryTypes} {RL : RecoveryLaws} {TL : DbTypesLaws} {DL : SchemaDbLaws}.
Implicit Types (b : Block) (qc : QuorumCert) (c : ConsensusDB).

(** ** Sorting and removing *)

(** Blocks in the order of epochs and rounds. *)
Definition block_le b1 b2 : Prop :=
  Block_epoch b1 < Block_epoch b2 ∨
  Block_epoch b1 = Block_epoch b2 ∧ Block_round b1 ≤ Block_round b2.

Lemma block_key_leb_spec b1 b2 : block_key_leb b1 b2 = true ↔ block_le b1 b2.
Proof. unfold block_key_leb, block_le. guards. done. Qed.

Lemma insert_sorted_perm b l : insert_sorted b l ≡ₚ b :: l.
Proof.
  induction l as [|x l IH]; simpl; [done|]. case_match; [done|]. rewrite IH. constructor.
Qed.

Lemma sort_blocks_perm l : sort_blocks l ≡ₚ l.
Proof.
  induction l as [|b l IH]; simpl; [done|]. change (foldr insert_sorted [] l) with (sort_blocks l).
  by rewrite insert_sorted_perm, IH.
Qed.

Lemma insert_sorted_sorted b l :
  StronglySorted block_le l → StronglySorted block_le (insert_sorted b l).
Proof.
  induction 1 as [|x l Hl IH Hx]; simpl; [repeat constructor|].
  destruct (block_key_leb b x) eqn:E.
  - apply block_key_leb_spec in E. constructor; [by constructor|]. constructor; [done|].
    eapply Forall_impl; [done|]. unfold block_le in *. intros y ?. lia.
  - constructor; [done|]. rewrite insert_sorted_perm. constructor; [|done].
    assert (¬ block_le b x) as H by (rewrite <- block_key_leb_spec; congruence).
    unfold block_le in *. lia.
Qed.

Lemma sort_blocks_sorted l : StronglySorted block_le (sort_blocks l).
Proof. induction l; simpl; [constructor|]. by apply insert_sorted_sorted. Qed.

Lemma remove_first_Some p l b l' :
  remove_first p l = Some (b, l') → p b = true ∧ l ≡ₚ b :: l' ∧ l' `sublist_of` l.
Proof.
  revert l'. induction l as [|x l IH]; intros l'; simpl; [done|].
  destruct (p x) eqn:E; [intros [= -> ->]; split_and!; [done..|by apply sublist_cons]|].
  intros ([r l2] & Hr & [= -> <-])%bind_Some. destruct (IH _ Hr) as (Hp & Hl & Hs).
  split_and!; [done| |by apply sublist_skip]. rewrite Hl. constructor.
Qed.

Lemma remove_first_is_Some p l b : b ∈ l → p b = true → is_Some (remove_first p l).
Proof.
  intros Hb Hp. induction l as [|x l IH]; [by apply not_elem_of_nil in Hb|]. simpl.
  destruct (p x) eqn:E; [done|]. apply elem_of_cons in Hb as [->|Hb]; [congruence|].
  destruct (IH Hb) as [[r l2] ->]. done.
Qed.

Lemma sublist_sorted l l' :
  l' `sublist_of` l → StronglySorted block_le l → StronglySorted block_le l'.
Proof.
  induction 1 as [|x l' l Hs IH|x l' l Hs IH]; intros H; [done| |];
    apply StronglySorted_cons in H as [Hx Hl]; [|by apply IH].
  constructor; [by apply IH|]. rewrite Forall_forall in Hx. apply Forall_forall.
  intros y Hy. apply Hx. by eapply elem_of_sublist.
Qed.

Lemma find_qc_Some p qcs qc : find_qc p qcs = Some qc → qc ∈ qcs ∧ p qc = true.
Proof.
  unfold find_qc. intros ([i x] & Hf & [= ->])%fmap_Some.
  apply list_find_Some in Hf as (Hi & Hp & _). split; [by eapply list_elem_of_lookup_2|done].
Qed.

Lemma find_qc_is_Some p qcs qc : qc ∈ qcs → p qc = true → is_Some (find_qc p qcs).
Proof.
  intros Hq Hp. unfold find_qc. apply fmap_is_Some. by eapply list_find_elem_of.
Qed.

(** ** The recovery data *)

(** What recovery makes of the blocks, the certificates, the last vote and the
    timeout certificate it is given: the root is taken out, nothing else is lost
    or added, the rest is sorted, the root is certified by one of the
    certificates, and the vote and the timeout certificate are kept only in the
    epoch of the root. *)
Record recovered (blocks : list Block) (quorum_certs : list QuorumCert) (vote : option Vote)
    (tc : option TwoChainTimeoutCertificate) (d : RecoveryData) : Prop := {
  rec_blocks : blocks ≡ₚ ri_block (rd_root d) :: rd_blocks d;
  rec_sorted : StronglySorted block_le (rd_blocks d);
  rec_quorum_certs : rd_quorum_certs d = quorum_certs;
  rec_root_qc_in : ri_quorum_cert (rd_root d) ∈ quorum_certs;
  rec_root_qc : bi_id (certified_block (ri_quorum_cert (rd_root d))) = block_id (ri_block (rd_root d));
  rec_vote v : rd_last_vote d = Some v ↔ vote = Some v ∧ Vote_epoch v = Block_epoch (ri_block (rd_root d));
  rec_tc t : rd_highest_2chain_timeout_certificate d = Some t ↔
    tc = Some t ∧ tc_epoch t = Block_epoch (ri_block (rd_root d));
  rec_prune : rd_blocks_to_prune d = Some [];
}.

Lemma keep_if_Some {A} (p : A → bool) o a : keep_if p o = Some a ↔ o = Some a ∧ p a = true.
Proof.
  unfold keep_if. destruct o as [x|]; [|by split; [|intros [? _]]].
  destruct (p x) eqn:E; split; [by intros [= <-]|by intros [[= <-] _]|done|].
  intros [[= <-] ?]. congruence.
Qed.

(** A root taken out of the sorted blocks and certified by one of the certificates. *)
Lemma root_recovered p blocks qcs vote tc b l qc ordered commit :
  remove_first p (sort_blocks blocks) = Some (b, l) →
  find_qc (λ qc, bool_decide (bi_id (certified_block qc) = block_id b)) qcs = Some qc →
  p b = true ∧
  recovered blocks qcs vote tc
    {| rd_last_vote := keep_if (λ v, Vote_epoch v =? Block_epoch b) vote;
       rd_root := {| ri_block := b; ri_quorum_cert := qc; ri_ordered_cert := ordered;
                     ri_commit_cert := commit |};
       rd_blocks := l; rd_quorum_certs := qcs; rd_blocks_to_prune := Some [];
       rd_highest_2chain_timeout_certificate := keep_if (λ t, tc_epoch t =? Block_epoch b) tc |}.
Proof.
  intros (Hp & Hperm & Hsub)%remove_first_Some (Hqc & Hid)%find_qc_Some. split; [done|].
  apply bool_decide_eq_true in Hid. split; simpl; [| |done..| | |done].
  - by rewrite <- Hperm, sort_blocks_perm.
  - eapply sublist_sorted; [done|]. apply sort_blocks_sorted.
  - intros v. rewrite keep_if_Some. guards. done.
  - intros t. rewrite keep_if_Some. guards. done.
Qed.

(** Inverts a run through the pairs it binds. *)
Ltac pair_inv :=
  run_inv;
  repeat (match goal with H : match ?x with pair _ _ => _ end = _ |- _ => destruct x end; run_inv);
  repeat match goal with H : ok_or _ _ = Ok _ |- _ => apply ok_or_Ok in H end.

(** With a root found by block number, and without one. *)
Lemma RecoveryData_new_numbered vote lrd n blocks qcs tc ove d :
  RecoveryData_new vote lrd n blocks qcs tc ove true = Ok d →
  recovered blocks qcs vote tc d ∧ block_block_number (ri_block (rd_root d)) = Some n.
Proof.
  unfold RecoveryData_new, find_root_by_block_number. intros H. pair_inv.
  edestruct (root_recovered (has_number n)) as [Hp Hrec]; [done..|]. split; [exact Hrec|].
  simpl. unfold has_number in Hp. destruct (block_block_number _); [|done]. guards. by subst.
Qed.

Lemma RecoveryData_new_ledger vote lrd n blocks qcs tc ove d :
  RecoveryData_new vote lrd n blocks qcs tc ove false = Ok d →
  ∃ root_id latest blocks' qcs', ledger_root lrd blocks qcs = Ok (root_id, latest, blocks', qcs') ∧
    recovered blocks' qcs' vote tc d ∧ block_id (ri_block (rd_root d)) = root_id.
Proof.
  unfold RecoveryData_new, find_root. intros H. pair_inv.
  do 4 eexists. split; [done|].
  match goal with H : remove_first ?p _ = _ |- _ =>
    edestruct (root_recovered p) as [Hp Hrec]; [done..|] end.
  apply bool_decide_eq_true in Hp. split; [exact Hrec|done].
Qed.

(** The certificates of a numbered root are always found: an ordered certificate
    merges with its own ledger info, so the [expect] on it never fires. *)
Lemma numbered_root_certs_total b qc qcs ove : ∃ certs, numbered_root_certs b qc qcs ove = Ok certs.
Proof.
  unfold numbered_root_certs. destruct ove; [eauto|]. destruct (find_qc _ _) as [x|]; [|eauto].
  unfold WrappedLedgerInfo_create_merged_with_executed_state, WrappedLedgerInfo_commit_info.
  rewrite bi_match_ordered_only_refl. simpl. eauto.
Qed.

Lemma RecoveryData_new_total vote lrd n blocks qcs tc ove :
  (∃ b, b ∈ blocks ∧ block_block_number b = Some n) →
  (∀ b, b ∈ blocks → block_block_number b = Some n →
     ∃ qc, qc ∈ qcs ∧ bi_id (certified_block qc) = block_id b) →
  ∃ d, RecoveryData_new vote lrd n blocks qcs tc ove true = Ok d.
Proof.
  intros (b & Hb & Hn) Hqcs.
  destruct (remove_first_is_Some (has_number n) (sort_blocks blocks) b) as [[r l] Hr].
  { by rewrite sort_blocks_perm. }
  { unfold has_number. rewrite Hn. by guards. }
  destruct (remove_first_Some _ _ _ _ Hr) as (Hp & Hperm & _).
  destruct (Hqcs r) as (qc & Hqc & Hid).
  { rewrite <- sort_blocks_perm, Hperm. by left. }
  { unfold has_number in Hp. destruct (block_block_number r); [|done]. guards. by subst. }
  edestruct (find_qc_is_Some (λ qc, bool_decide (bi_id (certified_block qc) = block_id r)) qcs qc)
    as [rqc Hf]; [done|by apply bool_decide_eq_true|].
  destruct (numbered_root_certs_total r rqc qcs ove) as [certs Hc].
  unfold RecoveryData_new, find_root_by_block_number. rewrite Hr. cbn. rewrite Hf. cbn. rewrite Hc.
  cbn. eauto.
Qed.

(** ** The blocks read for recovery *)

(** The tables of an epoch as consensus writes them: blocks and certificates
    under their own keys, one block per number, and none with the greatest hash
    as its id, which the scans leave out. *)
Record stored_epoch c (epoch : N) : Prop := {
  se_blocks : table_ok BlockSchema c;
  se_quorum_certs : table_ok QCSchema c;
  se_numbers : table_ok BlockNumberSchema c;
  se_block_key key b : row BlockSchema c key b → block_key b = key;
  se_qc_key key qc : row QCSchema c key qc → bi_id (certified_block qc) = key.2;
  se_one_block id id' n :
    row BlockNumberSchema c (epoch, id) n → row BlockNumberSchema c (epoch, id') n → id = id';
  se_block_max b : ¬ row BlockSchema c (epoch, hash_max) b;
  se_qc_max qc : ¬ row QCSchema c (epoch, hash_max) qc;
  se_number_max n : ¬ row BlockNumberSchema c (epoch, hash_max) n;
}.

(** A scan reads every row once. *)
Lemma get_range_NoDup {K V} (s : Schema K V) k1 k2 c l :
  table_ok s c → get_range s k1 k2 c = Ok l → NoDup l.*1.
Proof.
  intros Hok Hr. unfold get_range in Hr. run_inv. apply collect_results_Ok in Hr as ->.
  match goal with H : db_iter _ _ _ _ = Ok _ |- _ => apply db_iter_Ok in H as (es & Hes & Hall) end.
  assert (Hin : ∀ e, e ∈ es → db_contents (cdb_db c) !! (column_family s, e.1) = Some e.2).
  { intros [kb vb] He. by apply (so_elem _ _ _ _ _ Hes) in He as [? _]. }
  apply so_sorted in Hes. remember (Ok <$> l) as items eqn:Hl. revert l Hl.
  induction Hall as [|item e items es Hr Hall IH]; intros [|[k v] l] Hl; try done; [constructor|].
  injection Hl as -> Hl. apply StronglySorted_cons in Hes as [Hlt Hes]. constructor.
  - intros ([k' v'] & Hkk & Hkv)%list_elem_of_fmap. simpl in Hkk. subst items k'.
    apply (items_read s l es Hall) in Hkv as (e' & He' & Hk' & _).
    destruct (Hr _ _ eq_refl) as [Hk _].
    destruct (Hok _ _ (Hin e (list_elem_of_here _ _))) as (x & ? & Hx & Hdx & _).
    destruct (Hok _ _ (Hin e' (list_elem_of_further _ _ _ He'))) as (y & ? & Hy & Hdy & _).
    simpl in *. assert (e.1 = e'.1) as Heq by congruence.
    rewrite Forall_forall in Hlt. specialize (Hlt e' He'). rewrite Heq in Hlt.
    by apply (irreflexivity bytes_lt) in Hlt.
  - apply IH; [done| |done]. intros e' He'. apply Hin. by right.
Qed.

Lemma epoch_filter_rows {V} (s : Schema (N * HashValue) V) c ep keep l :
  encode_key s = encode_epoch_hash → decode_key s = decode_epoch_hash → ep ≤ u64_max →
  table_ok s c → (∀ v, ¬ row s c (ep, hash_max) v) →
  get_range_with_filter s (ep, HashValue_zero) (ep, hash_max) keep c = Ok l →
  NoDup l.*1 ∧ ∀ key v, (key, v) ∈ l ↔ row s c key v ∧ key.1 = ep ∧ keep (key, v) = true.
Proof.
  intros Henc Hdec Hep Hok Hmax Hr. unfold get_range_with_filter in Hr. run_inv.
  match goal with H : get_range _ _ _ _ = Ok ?l |- _ =>
    pose proof (get_range_NoDup _ _ _ _ _ Hok H) as Hnd; rename l into l0, H into Hr end.
  split.
  { eapply sublist_NoDup; [done|]. apply fmap_sublist, sublist_filter. }
  intros [e h] v. rewrite list_elem_of_filter, (epoch_rows s c ep) by done. simpl.
  split; [naive_solver|]. intros (Hrow & -> & Hk). split_and!; [done..|].
  intros ->. by eapply Hmax.
Qed.

(** The block [b'] recovered from the stored block [b]: its number is the one
    stored for it, from [n] on. *)
Record restored c (epoch n : N) b b' : Prop := {
  res_id : block_id b' = block_id b;
  res_block_data : block_block_data b' = block_block_data b;
  res_signature : block_signature b' = block_signature b;
  res_number m : block_block_number b' = Some m ↔ row BlockNumberSchema c (epoch, block_id b) m ∧ n ≤ m;
}.

Lemma restored_fun c epoch n b b1 b2 : restored c epoch n b b1 → restored c epoch n b b2 → b1 = b2.
Proof.
  intros [Hi1 Hd1 Hs1 Hn1] [Hi2 Hd2 Hs2 Hn2]. destruct b1 as [? ? ? o1], b2 as [? ? ? o2]. simpl in *.
  assert (o1 = o2) as -> by (apply option_eq; intros m; by rewrite Hn1, Hn2). congruence.
Qed.

Lemma block_numbers_from_spec c epoch n numbers :
  epoch ≤ u64_max → stored_epoch c epoch → block_numbers_from n epoch c = Ok numbers →
  ∀ m id, numbers !! m = Some id ↔ row BlockNumberSchema c (epoch, id) m ∧ n ≤ m.
Proof.
  intros He Hse H m id. unfold block_numbers_from in H. run_inv.
  match goal with H : get_range_with_filter _ _ _ _ _ = Ok _ |- _ =>
    apply epoch_filter_rows in H as [_ Hl]; [|done..|apply Hse|apply Hse] end.
  set (assoc := reverse _).
  assert (Ha : ∀ x, (m, x) ∈ assoc ↔ row BlockNumberSchema c (epoch, x) m ∧ n ≤ m).
  { intros x. unfold assoc. rewrite elem_of_reverse, list_elem_of_fmap. split.
    - intros ([[e h] k] & [= -> ->] & Hin%Hl). simpl in Hin. destruct Hin as (Hr & -> & Hk). by guards.
    - intros [Hr Hm]. exists (epoch, x, m). split; [done|]. apply Hl. simpl. guards. done. }
  rewrite <- Ha. split; [apply elem_of_list_to_map_2|].
  intros Hin. apply elem_of_list_to_map_1'; [|done]. intros y [Hy _]%Ha. apply Ha in Hin as [Hin _].
  by eapply se_one_block.
Qed.

Lemma stored_block_unnumbered c key b : row BlockSchema c key b → block_block_number b = None.
Proof.
  intros (kb & vb & _ & _ & _ & Hv). simpl in Hv. unfold block_of_bcs in Hv. run_inv. done.
Qed.

Lemma number_block_restored c epoch n numbers b :
  row BlockSchema c (epoch, block_id b) b →
  (∀ m id, numbers !! m = Some id ↔ row BlockNumberSchema c (epoch, id) m ∧ n ≤ m) →
  restored c epoch n b (number_block numbers b).
Proof.
  intros Hr Hn. unfold number_block. pose proof (stored_block_unnumbered _ _ _ Hr) as Hb. rewrite Hb.
  set (assoc := prod_swap <$> _).
  assert (Ha : ∀ m, (block_id b, m) ∈ assoc ↔ row BlockNumberSchema c (epoch, block_id b) m ∧ n ≤ m).
  { intros m. rewrite <- Hn, <- elem_of_map_to_list. unfold assoc. rewrite list_elem_of_fmap. split.
    - intros ([k h] & [= -> ->] & Hin). done.
    - intros Hin. by exists (m, block_id b). }
  destruct (list_to_map assoc !! block_id b) as [k|] eqn:Hk.
  - apply elem_of_list_to_map_2, Ha in Hk. unfold set_block_number, once_cell_set. rewrite Hb. simpl.
    split; simpl; [done..|]. intros m. split; [by intros [= <-]|]. intros [Hm _].
    f_equal. destruct Hk as [Hk _]. by eapply row_fun.
  - split; [done..|]. intros m. rewrite Hb, <- Ha. split; [done|].
    intros Hin. apply not_elem_of_list_to_map_2 in Hk. destruct Hk. apply list_elem_of_fmap. by exists (block_id b, m).
Qed.

(** What is read for a restart from round [r] and the block [id]. *)
Record read_from c (epoch n : N) (r : Round) (id : HashValue) (blocks : list Block)
    (qcs : list QuorumCert) : Prop := {
  rf_blocks_NoDup : NoDup blocks;
  rf_blocks b' : b' ∈ blocks ↔ ∃ b0, row BlockSchema c (epoch, block_id b0) b0 ∧
    (r < Block_round b0 ∨ block_id b0 = id) ∧ restored c epoch n b0 b';
  rf_qcs qc : qc ∈ qcs ↔ ∃ h, row QCSchema c (epoch, h) qc ∧
    (r < bi_round (certified_block qc) ∨ h = id);
}.

Lemma recovered_blocks c epoch n numbers r id (l : list (N * HashValue * Block)) :
  stored_epoch c epoch → NoDup l.*1 →
  (∀ m id, numbers !! m = Some id ↔ row BlockNumberSchema c (epoch, id) m ∧ n ≤ m) →
  (∀ key b0, (key, b0) ∈ l ↔ row BlockSchema c key b0 ∧ key.1 = epoch ∧
     (r <? Block_round b0) || bool_decide (block_id b0 = id) = true) →
  NoDup (number_block numbers <$> l.*2) ∧
  ∀ b', b' ∈ number_block numbers <$> l.*2 ↔ ∃ b0, row BlockSchema c (epoch, block_id b0) b0 ∧
    (r < Block_round b0 ∨ block_id b0 = id) ∧ restored c epoch n b0 b'.
Proof.
  intros Hse Hnd Hn Hl.
  assert (Hkey : ∀ key b0, (key, b0) ∈ l → key = (epoch, block_id b0) ∧ row BlockSchema c key b0).
  { intros [e h] b0 (Hr & He & _)%Hl. simpl in He. subst e. split; [|done].
    by pose proof (se_block_key _ _ Hse _ _ Hr) as [= _ <-]. }
  assert (Hids : (λ b', (epoch, block_id b')) <$> (number_block numbers <$> l.*2) = l.*1).
  { rewrite <- !list_fmap_compose. apply list_fmap_ext. intros i [key b0] Hi%list_elem_of_lookup_2.
    destruct (Hkey _ _ Hi) as [-> Hr]. simpl. f_equal. by eapply res_id, number_block_restored. }
  split; [eapply NoDup_fmap_1; by rewrite Hids|].
  intros b'. rewrite list_elem_of_fmap. setoid_rewrite list_elem_of_fmap. split.
  - intros (b0 & -> & [key b1] & -> & Hin). destruct (Hkey _ _ Hin) as [-> Hr].
    exists b1. split; [done|]. split; [|by apply number_block_restored].
    apply Hl in Hin as (_ & _ & Hk). by guards.
  - intros (b0 & Hr & Hk & Hres). exists b0. split.
    { eapply restored_fun; [done|]. by apply number_block_restored. }
    exists ((epoch, block_id b0), b0). split; [done|]. apply Hl. split_and!; [done..|]. by guards.
Qed.

(** Recovery starts at the stored block [b] of number [n], or has no root. *)
Definition starts_at c (epoch n : N) (has_root : bool) (r : Round) (id : HashValue) : Prop :=
  if has_root then
    ∃ b, row BlockNumberSchema c (epoch, id) n ∧ row BlockSchema c (epoch, id) b ∧
      block_id b = id ∧ Block_round b = r
  else (∀ id', ¬ row BlockNumberSchema c (epoch, id') n) ∧ r = 0 ∧ id = HashValue_zero.

Lemma recovery_start_spec c epoch n numbers has_root r id :
  stored_epoch c epoch → epoch ≤ u64_max →
  (∀ m id, numbers !! m = Some id ↔ row BlockNumberSchema c (epoch, id) m ∧ n ≤ m) →
  recovery_start n epoch numbers c = Ok (has_root, r, id) → starts_at c epoch n has_root r id.
Proof.
  intros Hse He Hn H. unfold recovery_start in H. destruct (numbers !! n) as [id0|] eqn:Hroot.
  - apply Hn in Hroot as [Hroot _]. apply bind_Ok in H as (o & Ho & H).
    apply bind_Ok in H as (b & ->%expect_Ok & [= <- <- <-]).
    assert (Hk : key_ok BlockSchema (epoch, id0)) by (eexists; by apply block_key_readable).
    pose proof (proj1 (get_row _ _ _ _ Hk Ho b) eq_refl) as Hb.
    pose proof (se_block_key _ _ Hse _ _ Hb) as [= _ Hid]. rewrite Hid. by exists b.
  - injection H as <- <- <-. split; [|done]. intros id' Hr.
    assert (numbers !! n = Some id') by (apply Hn; split; [done|lia]). congruence.
Qed.

Lemma get_data_spec c epoch n vote_bytes tc_bytes blocks qcs has_root :
  epoch ≤ u64_max → stored_epoch c epoch →
  get_data n epoch c = Ok (vote_bytes, tc_bytes, blocks, qcs, has_root) →
  get_last_vote c = Ok vote_bytes ∧ get_highest_2chain_timeout_certificate c = Ok tc_bytes ∧
  ∃ r id, starts_at c epoch n has_root r id ∧ read_from c epoch n r id blocks qcs.
Proof.
  intros He Hse H. unfold get_data in H.
  apply bind_Ok in H as (v & Hv & H). apply bind_Ok in H as (t & Ht & H).
  apply bind_Ok in H as (numbers & Hnumbers & H). apply bind_Ok in H as (st & Hst & H).
  pose proof (block_numbers_from_spec _ _ _ _ He Hse Hnumbers) as Hnum.
  destruct st as [[hr r] id]. apply recovery_start_spec in Hst; [|done..].
  apply bind_Ok in H as (bl & Hbl & H). apply bind_Ok in H as (ql & Hql & [= <- <- <- <- <-]).
  apply epoch_filter_rows in Hbl as [Hnd Hbl]; [|done..|apply Hse|apply Hse].
  apply epoch_filter_rows in Hql as [_ Hql]; [|done..|apply Hse|apply Hse].
  destruct (recovered_blocks c epoch n numbers r id bl Hse Hnd Hnum Hbl) as [Hnd' Hblocks].
  split_and!; [done..|]. exists r, id. split; [done|]. split; [done..|].
  intros qc. rewrite list_elem_of_fmap. split.
  - intros ([[e h] qc'] & -> & (Hr & ? & Hk)%Hql). simpl in *. subst e. exists h. split; [done|].
    pose proof (se_qc_key _ _ Hse _ _ Hr) as Hid. simpl in Hid. guards. naive_solver congruence.
  - intros (h & Hr & Hk). exists ((epoch, h), qc). split; [done|]. apply Hql. split_and!; [done..|].
    pose proof (se_qc_key _ _ Hse _ _ Hr) as Hid. simpl in *. guards. naive_solver congruence.
Qed.

(** ** Restarting *)

(** The entry of a vote or a timeout certificate. *)
Definition stored_entry {A} (f : bytes → result Anyhow A) c (k : SingleEntryKey) (a : A) : Prop :=
  ∃ data, row SingleEntrySchema c k data ∧ f data = Ok a.

(** Restarting from the stored block [b] of number [n]. *)
Record restarts c (epoch n : N) b (d : RecoveryData) : Prop := {
  rs_root : restored c epoch n b (ri_block (rd_root d));
  rs_root_number : block_block_number (ri_block (rd_root d)) = Some n;
  rs_root_qc_in : ri_quorum_cert (rd_root d) ∈ rd_quorum_certs d;
  rs_root_qc : bi_id (certified_block (ri_quorum_cert (rd_root d))) = block_id b;
  rs_blocks b' : b' ∈ rd_blocks d ↔ ∃ b0, row BlockSchema c (epoch, block_id b0) b0 ∧
    Block_round b < Block_round b0 ∧ restored c epoch n b0 b';
  rs_sorted : StronglySorted block_le (rd_blocks d);
  rs_qcs qc : qc ∈ rd_quorum_certs d ↔ ∃ h, row QCSchema c (epoch, h) qc ∧
    (Block_round b < bi_round (certified_block qc) ∨ h = block_id b);
  rs_vote v : rd_last_vote d = Some v ↔ stored_entry vote_of_bcs c LastVote v ∧ Vote_epoch v = epoch;
  rs_tc t : rd_highest_2chain_timeout_certificate d = Some t ↔
    stored_entry timeout_cert_of_bcs c Highest2ChainTimeoutCert t ∧ tc_epoch t = epoch;
}.

Lemma decode_entry_stored {A} (f : bytes → result Anyhow A) c k msg o r :
  get SingleEntrySchema k c = Ok o → decode_entry f msg o = Ok r →
  ∀ a, r = Some a ↔ stored_entry f c k a.
Proof.
  intros Ho Hd a. assert (Hk : key_ok SingleEntrySchema k) by (destruct k; by eexists).
  pose proof (get_row _ _ _ _ Hk Ho) as Hrow. unfold decode_entry in Hd. destruct o as [data|].
  - apply bind_Ok in Hd as (x & Hx%expect_ok_Ok & [= <-]). split.
    + intros [= ->]. exists data. by rewrite <- Hrow.
    + intros (data' & [= ->]%Hrow & Ha). congruence.
  - injection Hd as <-. split; [done|]. by intros (data & ?%Hrow & _).
Qed.

Lemma decode_entry_total {A} (f : bytes → result Anyhow A) c k msg o :
  get SingleEntrySchema k c = Ok o →
  (∀ data, row SingleEntrySchema c k data → ∃ a, f data = Ok a) → ∃ r, decode_entry f msg o = Ok r.
Proof.
  intros Ho Hf. assert (Hk : key_ok SingleEntrySchema k) by (destruct k; by eexists).
  destruct o as [data|]; [|by eexists]. destruct (Hf data) as [a Ha].
  { by apply (get_row _ _ _ _ Hk Ho). }
  exists (Some a). simpl. by rewrite Ha.
Qed.

Lemma read_from_root c epoch n b blocks qcs :
  stored_epoch c epoch → row BlockNumberSchema c (epoch, block_id b) n →
  row BlockSchema c (epoch, block_id b) b → read_from c epoch n (Block_round b) (block_id b) blocks qcs →
  ∃ b', b' ∈ blocks ∧ block_block_number b' = Some n.
Proof.
  intros Hse Hn Hb Hread.
  set (b' := {| block_id := block_id b; block_block_data := block_block_data b;
                block_signature := block_signature b; block_block_number := Some n |}).
  assert (Hres : restored c epoch n b b').
  { split; [done..|]. intros m. simpl. split; [intros [= <-]; split; [done|lia]|].
    intros [Hm _]. f_equal. by eapply row_fun. }
  exists b'. split; [|by apply (res_number _ _ _ _ _ Hres); split; [|lia]].
  apply (rf_blocks _ _ _ _ _ _ _ Hread). exists b. auto.
Qed.

Lemma read_from_root_qc c epoch n b blocks qcs qc b' :
  stored_epoch c epoch → row BlockNumberSchema c (epoch, block_id b) n →
  row QCSchema c (epoch, block_id b) qc → read_from c epoch n (Block_round b) (block_id b) blocks qcs →
  b' ∈ blocks → block_block_number b' = Some n →
  qc ∈ qcs ∧ bi_id (certified_block qc) = block_id b'.
Proof.
  intros Hse Hn Hqc Hread (b0 & Hb0 & _ & Hres)%(rf_blocks _ _ _ _ _ _ _ Hread) Hnum. split.
  { apply (rf_qcs _ _ _ _ _ _ _ Hread). eauto. }
  apply (res_number _ _ _ _ _ Hres) in Hnum as [Hr _].
  rewrite (res_id _ _ _ _ _ Hres), (se_one_block _ _ Hse _ _ _ Hr Hn).
  apply (se_qc_key _ _ Hse _ _ Hqc).
Qed.

Lemma recovered_restarts c epoch n b blocks qcs vote tc d :
  stored_epoch c epoch → row BlockNumberSchema c (epoch, block_id b) n →
  row BlockSchema c (epoch, block_id b) b → read_from c epoch n (Block_round b) (block_id b) blocks qcs →
  recovered blocks qcs vote tc d → block_block_number (ri_block (rd_root d)) = Some n →
  (∀ v, vote = Some v ↔ stored_entry vote_of_bcs c LastVote v) →
  (∀ t, tc = Some t ↔ stored_entry timeout_cert_of_bcs c Highest2ChainTimeoutCert t) →
  restarts c epoch n b d.
Proof.
  intros Hse Hn Hb [Hnd Hbl Hql] [Hperm Hsort Hqcs Hin Hid Hv Ht _] Hnum Hvote Htc.
  assert (Huniq : ∀ b0, row BlockSchema c (epoch, block_id b0) b0 → block_id b0 = block_id b → b0 = b).
  { intros b0 Hb0 Heq. rewrite Heq in Hb0. by eapply row_fun. }
  assert (Hroot : restored c epoch n b (ri_block (rd_root d))).
  { assert (ri_block (rd_root d) ∈ blocks) as (b0 & Hb0 & _ & Hres)%Hbl by (rewrite Hperm; by left).
    apply (res_number _ _ _ _ _ Hres) in Hnum as Hr. destruct Hr as [Hr _].
    pose proof (se_one_block _ _ Hse _ _ _ Hr Hn) as Heq. by rewrite (Huniq b0 Hb0 Heq) in Hres. }
  rewrite Hperm in Hnd. apply NoDup_cons in Hnd as [Hnot _].
  assert (Hep : Block_epoch (ri_block (rd_root d)) = epoch).
  { unfold Block_epoch. rewrite (res_block_data _ _ _ _ _ Hroot).
    by pose proof (se_block_key _ _ Hse _ _ Hb) as [= ?]. }
  split; [done|done|by rewrite Hqcs|by rewrite Hid, (res_id _ _ _ _ _ Hroot)| |done
    |by rewrite Hqcs|intros v; by rewrite Hv, Hvote, Hep|intros t; by rewrite Ht, Htc, Hep].
  intros b'. split.
  - intros Hb'. assert (b' ∈ blocks) as (b0 & Hb0 & Hk & Hres)%Hbl by (rewrite Hperm; by right).
    exists b0. split; [done|]. split; [|done]. destruct Hk as [Hk|Hk]; [done|].
    rewrite (Huniq b0 Hb0 Hk) in Hres. destruct Hnot. by rewrite (restored_fun _ _ _ _ _ _ Hroot Hres).
  - intros (b0 & Hb0 & Hk & Hres). assert (b' ∈ blocks) as Hb' by (apply Hbl; eauto).
    rewrite Hperm, elem_of_cons in Hb'. destruct Hb' as [->|]; [|done].
    assert (b0 = b) as ->; [|lia]. apply Huniq; [done|].
    by rewrite <- (res_id _ _ _ _ _ Hres), (res_id _ _ _ _ _ Hroot).
Qed.

(** What the database holds after the clean-up. *)
Definition cleaned c c' (d : RecoveryData) : Prop :=
  ∀ x, db_contents (cdb_db c') !! x =
    if bool_decide (x = ("single_entry", [0]) ∧ rd_last_vote d = None ∨
                    x = ("single_entry", [1]) ∧ rd_highest_2chain_timeout_certificate d = None)
    then None else db_contents (cdb_db c) !! x.

(** The deletions of the clean-up, one after the other. *)
Definition entry_deletion (k : SingleEntryKey) (stale : bool) : M ConsensusDB Anyhow unit :=
  if stale then db_delete SingleEntrySchema [k] else mret tt.

(** Both deletions are written. *)
Definition cleanup_written c (d : RecoveryData) : bool :=
  let first := entry_deletion LastVote (bool_decide (rd_last_vote d = None)) c in
  is_ok first.1 &&
  is_ok (entry_deletion Highest2ChainTimeoutCert
           (bool_decide (rd_highest_2chain_timeout_certificate d = None)) first.2).1.

Lemma entry_deletion_spec (q : Prop) `{!Decision q} k c c' :
  entry_deletion k (bool_decide q) c = (Ok tt, c') →
  ∀ x, db_contents (cdb_db c') !! x =
    if bool_decide (x = ("single_entry", [match k with LastVote => 0 | _ => 1 end]) ∧ q)
    then None else db_contents (cdb_db c) !! x.
Proof.
  unfold entry_deletion. destruct (bool_decide_reflect q) as [Hq|Hq].
  - intros Hd x. unfold db_delete in Hd. apply mbind_M_Ok in Hd as (batch & s1 & Hl & Hc%commit_contents).
    unfold lift in Hl. injection Hl as Hb <-. simpl in Hb.
    destruct (batch_delete SingleEntrySchema k SchemaBatch_new) as [b1| |] eqn:Hb1; try done.
    injection Hb as ->. apply batch_delete_deletes in Hb1 as (kb & [= <-] & Hdel). rewrite Hc, Hdel, batch_effect_new.
    rewrite (bool_decide_ext _ (x = ("single_entry", [match k with LastVote => 0 | _ => 1 end]) ∧ q));
      [done|]. rewrite list_elem_of_singleton. destruct k; naive_solver.
  - intros [= <-] x. rewrite bool_decide_eq_false_2; [done|]. by intros [_ ?].
Qed.

(** A step of the clean-up panics when its deletion is not written. *)
Lemma cleanup_entry (stale : bool) k (s : StorageWriteProxy) msg :
  let x := entry_deletion k stale (swp_db s) in
  ∃ r s', (if stale then or_panic msg (on_db (db_delete SingleEntrySchema [k])) else mret tt) s = (r, s') ∧
    swp_db s' = x.2 ∧ if is_ok x.1 then r = Ok tt ∧ x.1 = Ok tt else ∃ m, r = Panic m.
Proof.
  destruct stale; [|by do 2 eexists]. unfold entry_deletion, or_panic, on_db.
  destruct (db_delete _ _ _) as [[[]|e|m] c']; do 2 eexists; (split; [done|]); (split; [done|]); simpl; eauto.
Qed.

Lemma start_cleans ove epoch n s s' r d :
  recover ove epoch n s = Ok d → start ove epoch n s = (r, s') →
  if cleanup_written (swp_db s) d then r = Ok d ∧ cleaned (swp_db s) (swp_db s') d else ∃ m, r = Panic m.
Proof.
  intros Hrec H. unfold start, gets, mbind, M_bind in H. rewrite Hrec in H. unfold cleanup_written.
  destruct (cleanup_entry (bool_decide (rd_last_vote d = None)) LastVote s "unable to cleanup last vote")
    as (r1 & s1 & H1 & Hs1 & Hr1). unfold delete_last_vote_msg in H. rewrite H1 in H.
  destruct (entry_deletion LastVote _ _) as [x1 c1] eqn:E1. simpl in *.
  destruct (is_ok x1); simpl; [|by destruct Hr1 as [m ->]; simplify_eq; eexists].
  destruct Hr1 as [-> ->]. pose proof (entry_deletion_spec _ _ _ _ E1) as F1. subst c1.
  destruct (cleanup_entry (bool_decide (rd_highest_2chain_timeout_certificate d = None)) Highest2ChainTimeoutCert s1
    "unable to cleanup highest 2-chain timeout cert") as (r2 & s2 & H2 & Hs2 & Hr2).
  unfold delete_highest_2chain_timeout_certificate in H. rewrite H2 in H.
  destruct (entry_deletion Highest2ChainTimeoutCert _ _) as [x2 c2] eqn:E2. simpl in *.
  destruct (is_ok x2); simpl; [|by destruct Hr2 as [m ->]; simplify_eq; eexists].
  destruct Hr2 as [-> ->]. pose proof (entry_deletion_spec _ _ _ _ E2) as F2. subst c2. injection H as <- <-.
  split; [done|]. intros x. rewrite F2, F1. repeat case_bool_decide; try done; exfalso; tauto.
Qed.

(** The stored vote and timeout certificate can be read. *)
Definition entries_readable c : Prop :=
  (∀ data, row SingleEntrySchema c LastVote data → ∃ v, vote_of_bcs data = Ok v) ∧
  (∀ data, row SingleEntrySchema c Highest2ChainTimeoutCert data →
     ∃ t, timeout_cert_of_bcs data = Ok t).

(** Recovery builds the recovery data from what it has read. *)
Lemma recover_reads ove epoch n s vb tb blocks qcs has_root li :
  get_data n epoch (swp_db s) = Ok (vb, tb, blocks, qcs, has_root) →
  get_last_vote (swp_db s) = Ok vb → get_highest_2chain_timeout_certificate (swp_db s) = Ok tb →
  entries_readable (swp_db s) → recovery_ledger_info n s = Ok li →
  ∃ vote tc, (∀ v, vote = Some v ↔ stored_entry vote_of_bcs (swp_db s) LastVote v) ∧
    (∀ t, tc = Some t ↔ stored_entry timeout_cert_of_bcs (swp_db s) Highest2ChainTimeoutCert t) ∧
    ∀ d, RecoveryData_new vote {| lrd_storage_ledger := li |} n blocks qcs tc ove has_root = Ok d →
      recover ove epoch n s = Ok d.
Proof.
  intros Hdata Hv Ht [Hvote Htc] Hli.
  destruct (decode_entry_total vote_of_bcs _ LastVote "unable to deserialize last vote" _ Hv Hvote)
    as [vote Hvd].
  destruct (decode_entry_total timeout_cert_of_bcs _ Highest2ChainTimeoutCert
    "unable to deserialize highest 2-chain timeout cert" _ Ht Htc) as [tc Htd].
  exists vote, tc. split; [by eapply decode_entry_stored|]. split; [by eapply decode_entry_stored|].
  intros d Hd. unfold recover. rewrite Hdata. cbn [expect_ok mbind result_bind]. rewrite Hvd.
  cbn [mbind result_bind]. rewrite Htd. cbn [mbind result_bind]. rewrite Hli.
  cbn [mbind result_bind]. by rewrite Hd.
Qed.

(** C25: A restart takes up the chain at the block the execution layer has reached. When
    the block numbered with the latest executed number is stored with its
    certificate, the tables of the epoch are consistent and the reads of the
    database and of the ledger info succeed, recovery returns that block as the
    root, certified by a stored certificate, and exactly the stored blocks of the
    epoch with higher rounds as the rest, in the order of rounds and with their
    stored numbers, whether or not they descend from the root; the vote and the
    timeout certificate come back if they are of the epoch. [start] then returns
    this data, with only the stale vote and timeout certificate deleted from the
    database, exactly when those deletions are written, and panics otherwise. *)
Theorem restart_from_executed_block ove epoch n s b qc raw_data li :
  epoch ≤ u64_max → stored_epoch (swp_db s) epoch →
  row BlockNumberSchema (swp_db s) (epoch, block_id b) n →
  row BlockSchema (swp_db s) (epoch, block_id b) b → row QCSchema (swp_db s) (epoch, block_id b) qc →
  entries_readable (swp_db s) →
  get_data n epoch (swp_db s) = Ok raw_data → recovery_ledger_info n s = Ok li →
  ∃ d, recover ove epoch n s = Ok d ∧ restarts (swp_db s) epoch n b d ∧
    ∀ r s', start ove epoch n s = (r, s') →
      if cleanup_written (swp_db s) d then r = Ok d ∧ cleaned (swp_db s) (swp_db s') d else ∃ m, r = Panic m.
Proof.
  intros He Hse Hn Hb Hqc Hent Hdata Hli.
  destruct raw_data as [[[[vb tb] blocks] qcs] hr].
  destruct (get_data_spec _ _ _ _ _ _ _ _ He Hse Hdata) as (Hv & Ht & r0 & id0 & Hst & Hread).
  destruct hr; [|by destruct Hst as [Hst _]; apply Hst in Hn].
  destruct Hst as (b1 & Hn1 & Hb1 & <- & <-).
  rewrite (se_one_block _ _ Hse _ _ _ Hn1 Hn) in Hb1, Hread. rewrite (row_fun _ _ _ _ _ Hb1 Hb) in Hread.
  clear dependent b1.
  destruct (recover_reads ove _ _ _ _ _ _ _ _ _ Hdata Hv Ht Hent Hli) as (vote & tc & Hvote & Htc & Hrec).
  destruct (RecoveryData_new_total vote {| lrd_storage_ledger := li |} n blocks qcs tc ove) as [d Hd].
  { by eapply read_from_root. }
  { intros b' Hb' Hnum. exists qc. by eapply read_from_root_qc. }
  exists d. split; [by apply Hrec|]. split.
  { apply RecoveryData_new_numbered in Hd as [Hrd Hnum]. by eapply recovered_restarts. }
  intros r s' Hs. eapply start_cleans; [|done]. by apply Hrec.
Qed.

Section epoch_start.
Context {BL : BlockInfoLaws}.

(** The genesis block and certificate of the next epoch can always be built. *)
Lemma make_genesis_total li :
  li_ends_epoch li = true → li_epoch li < u64_max → ∃ g, make_genesis_block_from_ledger_info li = Ok g.
Proof.
  intros Hend Hep.
  assert (Hadd : @add_u64 Anyhow (li_epoch li) 1 = Ok (li_epoch li + 1)) by (apply add_u64_Ok; lia).
  unfold make_genesis_block_from_ledger_info, new_genesis_from_ledger_info.
  rewrite Hend. cbn [assert_ mbind result_bind].
  destruct (bi_epoch_block_info (li_commit_info li)); unfold BlockData_new_genesis.
  all: cbn [certified_block qc_vote_data QuorumCert_new VoteData_new vd_proposed].
  all: rewrite bi_epoch_new, Hadd.
  all: cbn [mbind result_bind]; eauto.
Qed.

Lemma genesis_certificate_total li id :
  li_epoch li < u64_max → is_Some (li_next_epoch_state li) →
  ∃ qc, certificate_for_genesis_from_ledger_info li id = Ok qc ∧ bi_id (certified_block qc) = id.
Proof.
  intros Hep [es Hes]. unfold certificate_for_genesis_from_ledger_info. rewrite Hes.
  assert (checked_add (li_epoch li) 1 = Some (li_epoch li + 1)) as -> by (apply checked_add_Some; lia).
  cbn [expect mbind result_bind].
  eexists. split; [done|]. apply bi_id_new.
Qed.

Lemma ledger_root_genesis li blocks qcs :
  li_ends_epoch (liws_ledger_info li) = true → li_epoch (liws_ledger_info li) < u64_max →
  is_Some (li_next_epoch_state (liws_ledger_info li)) →
  ∃ g qc, make_genesis_block_from_ledger_info (liws_ledger_info li) = Ok g ∧
    bi_id (certified_block qc) = block_id g ∧
    ledger_root {| lrd_storage_ledger := li |} blocks qcs
      = Ok (block_id g, qc_signed_ledger_info qc, blocks ++ [g], qcs ++ [qc]).
Proof.
  intros Hend Hep Hnext. destruct (make_genesis_total _ Hend Hep) as [g Hg].
  destruct (genesis_certificate_total _ (block_id g) Hep Hnext) as (qc & Hqc & Hid).
  exists g, qc. split; [done|]. split; [done|].
  unfold ledger_root. cbn [lrd_storage_ledger]. rewrite Hend, Hg. cbn [mbind result_bind]. by rewrite Hqc.
Qed.

(** With order votes a ledger root that is there and certified is always recovered. *)
Lemma RecoveryData_new_ledger_total vote lrd n blocks qcs tc root_id latest blocks' qcs' b qc :
  ledger_root lrd blocks qcs = Ok (root_id, latest, blocks', qcs') →
  b ∈ blocks' → block_id b = root_id → qc ∈ qcs' → bi_id (certified_block qc) = root_id →
  ∃ d, RecoveryData_new vote lrd n blocks qcs tc true false = Ok d.
Proof.
  intros Hl Hb Hid Hqc Hqid.
  destruct (remove_first_is_Some (λ b, bool_decide (block_id b = root_id)) (sort_blocks blocks') b)
    as [[r l] Hr]; [by rewrite sort_blocks_perm|by apply bool_decide_eq_true|].
  destruct (remove_first_Some _ _ _ _ Hr) as (Hp & _). apply bool_decide_eq_true in Hp.
  edestruct (find_qc_is_Some (λ qc, bool_decide (bi_id (certified_block qc) = block_id r)) qcs' qc)
    as [rqc Hf]; [done|apply bool_decide_eq_true; congruence|].
  unfold RecoveryData_new, find_root. rewrite Hl. cbn [mbind result_bind]. rewrite Hr.
  cbn [ok_or mbind result_bind]. rewrite Hf. cbn. eauto.
Qed.

(** A restart at an epoch boundary. When no block of the epoch has the latest
    executed number and the ledger info read for that number ends an epoch, recovery
    with order votes enabled returns the virtual genesis block of that ledger info
    as the root, certified by its genesis certificate; the other recovered blocks
    are the stored blocks of the epoch above round 0, sorted. *)
Theorem restart_at_epoch_start epoch n s raw_data li :
  epoch ≤ u64_max → stored_epoch (swp_db s) epoch →
  (∀ id, ¬ row BlockNumberSchema (swp_db s) (epoch, id) n) →
  entries_readable (swp_db s) →
  get_data n epoch (swp_db s) = Ok raw_data → recovery_ledger_info n s = Ok li →
  li_ends_epoch (liws_ledger_info li) = true → li_epoch (liws_ledger_info li) < u64_max →
  is_Some (li_next_epoch_state (liws_ledger_info li)) →
  ∃ g d, make_genesis_block_from_ledger_info (liws_ledger_info li) = Ok g ∧
    recover true epoch n s = Ok d ∧
    block_id (ri_block (rd_root d)) = block_id g ∧
    bi_id (certified_block (ri_quorum_cert (rd_root d))) = block_id g ∧
    StronglySorted block_le (rd_blocks d) ∧
    ∀ b', b' ∈ ri_block (rd_root d) :: rd_blocks d ↔
      b' = g ∨ ∃ b0, row BlockSchema (swp_db s) (epoch, block_id b0) b0 ∧
        (0 < Block_round b0 ∨ block_id b0 = HashValue_zero) ∧ restored (swp_db s) epoch n b0 b'.
Proof.
  intros He Hse Hnone Hent Hdata Hli Hend Hep Hnext.
  destruct raw_data as [[[[vb tb] blocks] qcs] hr].
  destruct (get_data_spec _ _ _ _ _ _ _ _ He Hse Hdata) as (Hv & Ht & r0 & id0 & Hst & Hread).
  destruct hr; [by destruct Hst as (? & ?%Hnone & _)|]. destruct Hst as (_ & -> & ->).
  destruct (recover_reads true _ _ _ _ _ _ _ _ _ Hdata Hv Ht Hent Hli) as (vote & tc & _ & _ & Hrec).
  destruct (ledger_root_genesis li blocks qcs Hend Hep Hnext) as (g & qc & Hg & Hqc & Hroot).
  edestruct (λ b qc, RecoveryData_new_ledger_total vote _ n blocks qcs tc _ _ _ _ b qc Hroot) as [d Hd];
    [apply elem_of_app; right; by left|done|apply elem_of_app; right; by left|done|].
  exists g, d. split; [done|]. split; [by apply Hrec|].
  apply RecoveryData_new_ledger in Hd as (? & ? & ? & ? & Hroot' & Hrd & Hid).
  rewrite Hroot in Hroot'. injection Hroot' as <- <- <- <-.
  split; [done|]. split; [by rewrite (rec_root_qc _ _ _ _ _ Hrd)|]. split; [apply Hrd|].
  intros b'. rewrite <- (rec_blocks _ _ _ _ _ Hrd), elem_of_app, list_elem_of_singleton.
  rewrite (rf_blocks _ _ _ _ _ _ _ Hread). tauto.
Qed.

End epoch_start.

End recovery_lemmas.
