(* ===== verification/BlockStore.v ===== *)
(** * The block store
    (consensus/src/block_storage/block_store.rs and pending_blocks.rs, and what it
    calls of pipeline/execution_client.rs and state_computer.rs)

    The store keeps the block tree, writes blocks and certificates to the database
    before it takes them into the tree, numbers ordered blocks and sends them to
    execution with the certificate that orders them.  On a restart it rebuilds the
    tree from the recovered data and replays what was ordered through the block
    buffer manager.  A method is one definition on the state [BlockStore]; what is
    sent to execution and to the payload manager is recorded in order. *)

From S2P Require Import Prelude Gaptos Types Bytes Certificates Payloads Blocks SafetyRules SafetySpec Bft PendingVotes.
From S2P Require Import BlockTree BlockBufferManager BufferItem ConsensusDb Recovery.

(** The keys of a provider, by the part that is read. *)
Inductive JWK := JWK_RSA | JWK_Unsupported (payload : bytes).

(** What the store takes from [gaptos] and [api_types] beyond its components, and
    what goes on around a call: the transactions the payload manager returns for a
    block in the end (errors are retried), and what the execution layer does to the
    block buffer manager while a result is awaited. *)
Class StoreTypes {GA : Gaptos} {VE : Verifier} {PI : PartialLedgerInfo} {AT : ApiTypes} {PT : PipelineTypes} := {
  Randomness_eqdec :: EqDecision Randomness;
  (** [Randomness::new(RandMetadata { epoch, round }, randomness)] *)
  Randomness_new : N → Round → bytes → Randomness;
  randomness_bytes : Randomness → bytes;
  (** [BlockId( *id)] *)
  BlockId_of : HashValue → BlockId;
  Bytes32_eqdec :: EqDecision Bytes32;
  Random : Type;
  Random_from_bytes : bytes → Random;
  ExtraDataType : Type;
  ExtraDataType_DKG : bytes → ExtraDataType;
  ExtraDataType_JWK : bytes → ExtraDataType;
  DKGTranscript : Type;
  ProviderJWKs : Type;
  (** [DKGResult(transcript)] or [ObservedJWKUpdate { update, .. }] *)
  validator_transaction : ValidatorTransaction → DKGTranscript + ProviderJWKs;
  (** the bytes of the API form of a transcript, where they can be encoded *)
  bcs_dkg_transcript : DKGTranscript → option bytes;
  pj_issuer : ProviderJWKs → bytes;
  pj_version : ProviderJWKs → N;
  JWKMoveStruct : Type;
  pj_jwks : ProviderJWKs → list JWKMoveStruct;
  (** [JWK::try_from] *)
  jwk_try_from : JWKMoveStruct → option JWK;
  (** the bytes of [ProviderJWKs { issuer, version, jwks }] of the API *)
  bcs_provider_jwks : bytes → N → list (string * bytes) → option bytes;
  (** [VerifiedTxn::from] and its conversion to the API type *)
  verified_txn : SignedTransaction → VerifiedTxnWithAccountSeqNum;
  (** the struct literal [ExternalBlock { .. }]; the result of the block, where it is
      known, by its hash and number of transactions *)
  ExternalBlock_new :
    list VerifiedTxnWithAccountSeqNum → BlockId → N → N → N → option Random → option (Bytes32 * N) →
    option N → list N → list ExtraDataType → bool → ExternalBlock;
  transactions_of : Block → list SignedTransaction;
  meanwhile : Manager → Manager;
}.

(** ** Pending blocks (pending_blocks.rs) *)

Section pending_blocks.
Context {GA : Gaptos}.

(** The sender of a pending request is named by the block it asks for. *)
Record PendingBlocks := {
  pb_blocks_by_hash : gmap HashValue Block;
  pb_blocks_by_round : gmap Round Block;
  pb_pending_request : option HashValue;
}.

Definition PendingBlocks_new : PendingBlocks :=
  {| pb_blocks_by_hash := ∅; pb_blocks_by_round := ∅; pb_pending_request := None |}.

(** Returns the block sent to the waiting request, if any. *)
Definition pending_insert_block {VE : Verifier} {CR : Crypto} (block : Block) (p : PendingBlocks)
    : option Block * PendingBlocks :=
  let by_hash := <[block_id block := block]> (pb_blocks_by_hash p) in
  let by_round := <[Block_round block := block]> (pb_blocks_by_round p) in
  let fulfilled := bool_decide (pb_pending_request p = Some (block_id block)) in
  (if fulfilled then Some block else None,
   {| pb_blocks_by_hash := by_hash; pb_blocks_by_round := by_round;
      pb_pending_request := if fulfilled then None else pb_pending_request p |}).

Definition insert_request (id : HashValue) (p : PendingBlocks) : option Block * PendingBlocks :=
  match pb_blocks_by_hash p !! id with
  | Some block => (Some block, p)
  | None =>
      (None, {| pb_blocks_by_hash := pb_blocks_by_hash p; pb_blocks_by_round := pb_blocks_by_round p;
                pb_pending_request := Some id |})
  end.

(** The rounds up to [round] leave both maps, by the block stored for the round. *)
Definition pending_gc (round : Round) (p : PendingBlocks) : PendingBlocks :=
  let old := filter (λ '(r, _), r ≤ round) (pb_blocks_by_round p) in
  {| pb_blocks_by_hash :=
       foldr (λ b m, delete (block_id b) m) (pb_blocks_by_hash p) (map_to_list old).*2;
     pb_blocks_by_round := filter (λ '(r, _), ¬ r ≤ round) (pb_blocks_by_round p);
     pb_pending_request := pb_pending_request p |}.

End pending_blocks.

(** ** The store *)

Section block_store.
Context {GA : Gaptos} {VE : Verifier} {CR : Crypto} {PI : PartialLedgerInfo} {AT : ApiTypes} {PT : PipelineTypes}.
Context {DT : DbTypes} {SD : SchemaDb} {RY : RecoveryTypes} {ST : StoreTypes}.

(** What a [PipelinedBlock] of the tree has beside its block: the result it was
    created with, and the cells for its randomness and the time it was sent to the
    pipeline.  Execution works on clones, so the result never changes. *)
Record Cells := {
  pc_result : StateComputeResult;
  pc_randomness : option Randomness;
  pc_insertion_time : bool;
}.

Definition Cells_new : Cells :=
  {| pc_result := new_dummy; pc_randomness := None; pc_insertion_time := false |}.

(** What the store sends out: prefetching of a payload, ordered blocks for the
    pipeline with the certificate their commit callback holds, a reset of the
    pipeline, epoch change proofs to the network and to the node itself, commit
    proofs to the node itself. *)
Inductive StoreOutput :=
| PrefetchPayload (payload : Payload) (timestamp : N)
| FinalizeOrder (blocks : list PipelinedBlock) (ordered_proof : LedgerInfoWithSignatures)
    (finality_proof : WrappedLedgerInfo)
| ResetExecution (target : LedgerInfoWithSignatures)
| BroadcastEpochChange (li : LedgerInfoWithSignatures)
| SendEpochChange (li : LedgerInfoWithSignatures)
| SendCommitProof (li : LedgerInfoWithSignatures).

(** [sc_batch_commit_size] is the environment variable BATCH_COMMIT_SIZE, 0 when it
    is not set; [sc_execute_tx] tells whether the execution client holds a channel
    to the buffer manager. *)
Record StoreConfig := {
  sc_vote_back_pressure_limit : Round;
  sc_order_vote_enabled : bool;
  sc_is_validator : bool;
  sc_enable_randomness : bool;
  sc_require_block_randomness : bool;
  sc_validator_indices : gmap AccountAddress nat;
  sc_batch_commit_size : N;
  sc_execute_tx : bool;
}.

Record BlockStore := {
  bs_inner : BlockTree;
  bs_cells : gmap HashValue Cells;
  bs_storage : StorageWriteProxy;
  bs_pending_blocks : PendingBlocks;
  bs_executor : Manager;
  bs_sent : list StoreOutput;
  bs_config : StoreConfig;
}.

Definition with_inner (t : BlockTree) (s : BlockStore) : BlockStore :=
  {| bs_inner := t; bs_cells := bs_cells s; bs_storage := bs_storage s;
     bs_pending_blocks := bs_pending_blocks s; bs_executor := bs_executor s; bs_sent := bs_sent s;
     bs_config := bs_config s |}.

Definition with_cells (c : gmap HashValue Cells) (s : BlockStore) : BlockStore :=
  {| bs_inner := bs_inner s; bs_cells := c; bs_storage := bs_storage s;
     bs_pending_blocks := bs_pending_blocks s; bs_executor := bs_executor s; bs_sent := bs_sent s;
     bs_config := bs_config s |}.

Definition with_proxy (w : StorageWriteProxy) (s : BlockStore) : BlockStore :=
  {| bs_inner := bs_inner s; bs_cells := bs_cells s; bs_storage := w;
     bs_pending_blocks := bs_pending_blocks s; bs_executor := bs_executor s; bs_sent := bs_sent s;
     bs_config := bs_config s |}.

Definition with_pending (p : PendingBlocks) (s : BlockStore) : BlockStore :=
  {| bs_inner := bs_inner s; bs_cells := bs_cells s; bs_storage := bs_storage s;
     bs_pending_blocks := p; bs_executor := bs_executor s; bs_sent := bs_sent s;
     bs_config := bs_config s |}.

Definition with_executor (m : Manager) (s : BlockStore) : BlockStore :=
  {| bs_inner := bs_inner s; bs_cells := bs_cells s; bs_storage := bs_storage s;
     bs_pending_blocks := bs_pending_blocks s; bs_executor := m; bs_sent := bs_sent s;
     bs_config := bs_config s |}.

Definition with_sent (l : list StoreOutput) (s : BlockStore) : BlockStore :=
  {| bs_inner := bs_inner s; bs_cells := bs_cells s; bs_storage := bs_storage s;
     bs_pending_blocks := bs_pending_blocks s; bs_executor := bs_executor s; bs_sent := l;
     bs_config := bs_config s |}.

Abbreviation B := (M BlockStore Anyhow).

Definition on_tree {A} (c : M BlockTree Anyhow A) : B A := λ s,
  let '(r, t) := c (bs_inner s) in (r, with_inner t s).

Definition on_storage {A} (c : M StorageWriteProxy Anyhow A) : B A := λ s,
  let '(r, w) := c (bs_storage s) in (r, with_proxy w s).

Definition emit (o : StoreOutput) : B unit := modify (λ s, with_sent (bs_sent s ++ [o]) s).

Definition consensus_db (s : BlockStore) : ConsensusDB := swp_db (bs_storage s).

(** [context(text)] on the error of a step. *)
Definition in_context {A} (text : string) (c : B A) : B A := λ s,
  let '(r, s) := c s in (with_context text r, s).

(** ** Reads (the trait [BlockReader]) *)

Definition cells_of (s : BlockStore) (id : HashValue) : Cells := default Cells_new (bs_cells s !! id).

(** The [PipelinedBlock] of a block of the tree. *)
Definition pipelined (s : BlockStore) (b : Block) : PipelinedBlock :=
  {| plb_block := b; plb_input_transactions := []; plb_state_compute_result := pc_result (cells_of s (block_id b));
     plb_randomness := pc_randomness (cells_of s (block_id b)) |}.

Definition get_quorum_cert_for_block (s : BlockStore) (id : HashValue) : option QuorumCert :=
  bt_id_to_quorum_cert (bs_inner s) !! id.

Definition store_highest_ordered_cert (s : BlockStore) : WrappedLedgerInfo := bt_highest_ordered_cert (bs_inner s).
Definition store_highest_commit_cert (s : BlockStore) : WrappedLedgerInfo := bt_highest_commit_cert (bs_inner s).

Definition store_sync_info (s : BlockStore) : SyncInfo :=
  SyncInfo_new_decoupled (bt_highest_quorum_cert (bs_inner s)) (store_highest_ordered_cert s)
    (store_highest_commit_cert s) (bt_highest_2chain_timeout_cert (bs_inner s)).

(** The gauge is set to the difference of the rounds, an unsigned subtraction. *)
Definition vote_back_pressure (s : BlockStore) : result Anyhow bool :=
  commit ← commit_root (bs_inner s);
  ordered ← ordered_root (bs_inner s);
  _ ← sub_u64 (Block_round ordered) (Block_round commit);
  limit ← add_u64 (sc_vote_back_pressure_limit (bs_config s)) (Block_round commit);
  Ok (limit <? Block_round ordered).

Definition get_all_quorum_certs_with_commit_info (t : BlockTree) : list QuorumCert :=
  filter (λ qc, QuorumCert_commit_info qc ≠ BlockInfo_empty) (map_to_list (bt_id_to_quorum_cert t)).*2.

(** ** Insertion *)

(** [OnceCell::set] on the randomness of a block of the tree. *)
Definition set_cell_randomness (id : HashValue) (r : Randomness) (s : BlockStore) : BlockStore :=
  let c := cells_of s id in
  with_cells (<[id := {| pc_result := pc_result c;
                         pc_randomness := match pc_randomness c with Some old => Some old | None => Some r end;
                         pc_insertion_time := pc_insertion_time c |}]> (bs_cells s)) s.

(** What [try_set_randomness_from_db] finds for a block whose cell holds [cell]. *)
Definition randomness_from_db (s : BlockStore) (block : Block) (cell : option Randomness)
    : option Randomness :=
  if negb (sc_enable_randomness (bs_config s)) then cell
  else match block_block_number block, cell with
  | Some block_number, None =>
      match get_randomness block_number (consensus_db s) with
      | Ok (Some randomness) =>
          Some (Randomness_new (Block_epoch block) (Block_round block) randomness)
      | _ => None
      end
  | _, _ => cell
  end.

Definition try_set_randomness_from_db (id : HashValue) (block : Block) (s : BlockStore) : BlockStore :=
  match randomness_from_db s block (pc_randomness (cells_of s id)) with
  | Some r => set_cell_randomness id r s
  | None => s
  end.

Definition prefetch (block : Block) : B unit :=
  match Block_payload block with
  | Some payload => emit (PrefetchPayload payload (Block_timestamp_usecs block))
  | None => mret tt
  end.

(** A block of the tree is a fresh [PipelinedBlock]; waiting for the time of the
    block has no effect on the store. *)
Definition store_insert_block (block : Block) (rebuild : bool) : B Block :=
  existing ← gets (λ s, Ok (get_block (bs_inner s) (block_id block)));
  match existing with
  | Some existing_block =>
      _ ← modify (try_set_randomness_from_db (block_id block) block);
      mret existing_block
  | None =>
      _ ← (if rebuild then mret tt
           else root ← gets (λ s, ordered_root (bs_inner s));
                lift (ensure (Block_round root <? Block_round block) (Msg "Block with old round")));
      randomness ← gets (λ s, Ok (randomness_from_db s block None));
      _ ← prefetch block;
      _ ← (if rebuild then mret tt
           else in_context "Insert block failed when saving block" (on_storage (save_tree [block] [] [])));
      b ← on_tree (insert_block true block);
      _ ← modify (λ s, with_cells (<[block_id block :=
             {| pc_result := new_dummy; pc_randomness := randomness; pc_insertion_time := false |}]> (bs_cells s)) s);
      mret b
  end.

Definition insert_single_quorum_cert (qc : QuorumCert) (rebuild : bool) : B unit :=
  block ← gets (λ s, Ok (get_block (bs_inner s) (bi_id (certified_block qc))));
  match block with
  | Some b =>
      info ← gets (λ s, Ok (plb_block_info (pipelined s b)));
      _ ← lift (ensure (bi_match_ordered_only info (certified_block qc))
                  (Msg "QC for block has different BlockInfo than local"));
      _ ← (if rebuild then mret tt
           else in_context "Insert block failed when saving quorum" (on_storage (save_tree [] [qc] [])));
      on_tree (insert_quorum_cert qc)
  | None => lift (Err (Msg "Insert QC without having the block in store first"))
  end.

Definition insert_2chain_timeout_certificate (tc : TwoChainTimeoutCertificate) : B unit :=
  cur_tc_round ← gets (λ s, Ok (from_option tc_round 0 (bt_highest_2chain_timeout_cert (bs_inner s))));
  if tc_round tc <=? cur_tc_round then mret tt
  else
    _ ← in_context "Timeout certificate insert failed when persisting to DB"
          (on_storage (save_highest_2chain_timeout_cert tc));
    on_tree (modify (replace_2chain_timeout_cert tc)).

(** ** Numbering *)

(** [set_block_number] on the block of the tree. *)
Definition set_tree_block_number (id : HashValue) (number : N) (t : BlockTree) : BlockTree :=
  set_id_to_block
    (alter (λ lb, {| lb_executed_block := (set_block_number (lb_executed_block lb) number).1;
                     lb_children := lb_children lb |}) id (bt_id_to_block t)) t.

(** The number after that of the parent, which is in the tree or in the database. *)
Definition next_block_number (s : BlockStore) (b : Block) : result Anyhow N :=
  let parent :=
    match get_block (bs_inner s) (Block_parent_id b) with
    | Some parent => Some parent
    | None => match get_db_block (Block_epoch b) (Block_parent_id b) (consensus_db s) with
              | Ok (Some parent) => Some parent
              | _ => None
              end
    end in
  parent ← expect "Cannot find the parent_block id" parent;
  n ← expect "called `Option::unwrap()` on a `None` value" (block_block_number parent);
  add_u64 n 1.

(** The loop of [init_block_number]: the numbers given, in order. *)
Fixpoint number_blocks (ordered_blocks : list Block) : B (list (N * N * HashValue)) :=
  match ordered_blocks with
  | [] => mret []
  | b :: ordered_blocks =>
      block_number ← gets (λ s, next_block_number s b);
      match block_block_number b with
      | Some cur_block_number =>
          _ ← lift (assert_ (cur_block_number =? block_number) "assertion failed: left == right");
          number_blocks ordered_blocks
      | None =>
          _ ← on_tree (modify (set_tree_block_number (block_id b) block_number));
          rest ← number_blocks ordered_blocks;
          mret ((Block_epoch b, block_number, block_id b) :: rest)
      end
  end.

(** A step whose error panics. *)
Definition or_unwind {A} (msg : string) (c : B A) : B A := λ s,
  let '(r, s) := c s in (expect_ok msg r, s).

Definition init_block_number (ordered_blocks : list Block) : B unit :=
  block_numbers ← number_blocks ordered_blocks;
  if bool_decide (length block_numbers = 0%nat) then mret tt
  else or_unwind "called `Result::unwrap()` on an `Err` value" (on_storage (save_tree [] [] block_numbers)).

(** The blocks of a list as they are in the tree now: a list of the source holds the
    blocks themselves. *)
Definition current (s : BlockStore) (blocks : list Block) : list Block :=
  (λ b, default b (get_block (bs_inner s) (block_id b))) <$> blocks.

(** ** Sending ordered blocks to execution *)

(** [ExecutionProxyClient::finalize_order]; [set_insertion_time] asserts that the
    block has not been sent before. *)
Fixpoint set_insertion_times (blocks : list Block) : B unit :=
  match blocks with
  | [] => mret tt
  | b :: blocks =>
      c ← gets (λ s, Ok (cells_of s (block_id b)));
      _ ← lift (assert_ (negb (pc_insertion_time c))
                  "assertion failed: self.pipeline_insertion_time.set(Instant::now()).is_ok()");
      _ ← modify (λ s, with_cells (<[block_id b :=
             {| pc_result := pc_result c; pc_randomness := pc_randomness c; pc_insertion_time := true |}]> (bs_cells s)) s);
      set_insertion_times blocks
  end.

Definition finalize_order (blocks : list Block) (proof : WrappedLedgerInfo) : B unit :=
  _ ← lift (assert_ (bool_decide (blocks ≠ [])) "assertion failed: !blocks.is_empty()");
  open ← gets (λ s, Ok (sc_execute_tx (bs_config s)));
  if open : bool then
    _ ← set_insertion_times blocks;
    sent ← gets (λ s, Ok (pipelined s <$> blocks));
    emit (FinalizeOrder sent (wli_signed_ledger_info proof) proof)
  else mret tt.

(** The certificate a block of the path is sent with: the finality proof for the
    last one, the certificate of the next block where it commits the block. *)
Definition proof_for (s : BlockStore) (finality_proof : WrappedLedgerInfo) (b : Block)
    (next : option Block) : option WrappedLedgerInfo :=
  if bool_decide (block_id b = bi_id (WrappedLedgerInfo_commit_info finality_proof))
  then Some finality_proof
  else
    next ← next;
    qc ← get_quorum_cert_for_block s (block_id next);
    if bool_decide (bi_id (QuorumCert_commit_info qc) = block_id b)
    then Some (into_wrapped_ledger_info qc) else None.

(** [unwrap_or_default] on the path. *)
Definition ordered_path (s : BlockStore) (id : HashValue) : result Anyhow (list Block) :=
  path ← path_from_ordered_root (bs_inner s) id; Ok (default [] path).

(** One block of the loop that sends the blocks one by one. *)
Definition send_block (finality_proof : WrappedLedgerInfo) (b : Block) (next : option Block) : B unit :=
  proof ← gets (λ s, Ok (proof_for s finality_proof b next));
  match proof with
  | None => mret tt
  | Some proof =>
      path ← gets (λ s, ordered_path s (block_id b));
      if bool_decide (path = []) then mret tt
      else
        _ ← or_unwind "Failed to persist commit" (finalize_order path proof);
        _ ← on_tree (update_ordered_root (block_id b));
        on_tree (modify (insert_ordered_cert proof))
  end.

Fixpoint send_blocks (finality_proof : WrappedLedgerInfo) (blocks : list Block) : B unit :=
  match blocks with
  | [] => mret tt
  | b :: blocks =>
      _ ← send_block finality_proof b (head blocks);
      send_blocks finality_proof blocks
  end.

Definition send_live (finality_proof : WrappedLedgerInfo) (blocks_to_commit : list Block) : B unit :=
  batch_commit_size ← gets (λ s, Ok (sc_batch_commit_size (bs_config s)));
  if (0 <? batch_commit_size) && (N.of_nat (length blocks_to_commit) <=? batch_commit_size)
  then mret tt
  else send_blocks finality_proof blocks_to_commit.

(** ** Replaying blocks after a restart *)

(** A method of the block buffer manager that waits; what other tasks do in the
    meantime is [meanwhile]. *)
Definition await_executor {A} (c : Manager → poll A * Manager) : B A := λ s,
  match c (meanwhile (bs_executor s)) with
  | (Ready _ r, m) => (r, with_executor m s)
  | (Pending _, m) => (Err (Msg "timeout"), with_executor m s)
  end.

Definition JWK_TYPE_UNSUPPORTED : string := "0x1::jwks::Unsupported_JWK".

(** RSA keys and keys that do not parse are dropped. *)
Definition jwk_struct (jwk : JWKMoveStruct) : option (string * bytes) :=
  match jwk_try_from jwk with
  | Some (JWK_Unsupported payload) => Some (JWK_TYPE_UNSUPPORTED, payload)
  | _ => None
  end.

(** The log line panics on a block without number. *)
Definition process_jwk_update_util (update : ProviderJWKs) (b : Block) : result Anyhow (option bytes) :=
  _ ← expect "No block number" (block_block_number b);
  Ok (bcs_provider_jwks (pj_issuer update) (pj_version update) (omap jwk_struct (pj_jwks update))).

Definition process_single_validator_transaction_util (txn : ValidatorTransaction) (b : Block)
    : result Anyhow (option ExtraDataType) :=
  match validator_transaction txn with
  | inl transcript => Ok (option_map ExtraDataType_DKG (bcs_dkg_transcript transcript))
  | inr update => data ← process_jwk_update_util update b; Ok (option_map ExtraDataType_JWK data)
  end.

Definition process_validator_transactions_util (txns : option (list ValidatorTransaction)) (b : Block)
    : result Anyhow (list ExtraDataType) :=
  let results := (λ txn, process_single_validator_transaction_util txn b) <$> default [] txns in
  collect_results results ≫= λ l : list (option ExtraDataType), Ok (omap id l).

Definition index_of (s : BlockStore) (author : AccountAddress) : option N :=
  N.of_nat <$> (sc_validator_indices (bs_config s) !! author).

Definition external_block (s : BlockStore) (b : Block) (block_number : N) (randomness : option Randomness)
    (block_hash : option (Bytes32 * N)) (txns : list SignedTransaction) : result Anyhow ExternalBlock :=
  extra_data ← process_validator_transactions_util (BlockData_validator_txns (block_block_data b)) b;
  Ok (ExternalBlock_new (verified_txn <$> txns) (BlockId_of (block_id b)) block_number
        (Block_timestamp_usecs b) (Block_epoch b) (Random_from_bytes ∘ randomness_bytes <$> randomness)
        block_hash (Block_author b ≫= index_of s)
        (omap (index_of s ∘ snd) (default [] (BlockData_failed_authors (block_block_data b))))
        extra_data (sc_enable_randomness (bs_config s))).

(** The randomness of a block to be replayed, where one is required. *)
Definition replay_randomness (b : Block) : B (option Randomness) :=
  required ← gets (λ s, Ok (sc_require_block_randomness (bs_config s) && negb (Block_epoch b =? 1)));
  if required : bool then
    _ ← modify (try_set_randomness_from_db (block_id b) b);
    r ← gets (λ s, Ok (pc_randomness (cells_of s (block_id b))));
    match r with
    | Some r => mret (Some r)
    | None => lift (Err (Msg "Randomness is required but not found in block"))
    end
  else mret None.

(** One block of the replay; [commit_blocks] are the blocks not committed to the
    manager yet. *)
Definition replay_block (b : Block) (commit_blocks : list BlockHashRef) : B (list BlockHashRef) :=
  let txns := transactions_of b in
  block_number ← lift (ok_or (Msg "Block number not found for block") (block_block_number b));
  _ ← lift (ensure (Z.of_N block_number <=? i64_max)%Z (Msg "Block number is too large to convert to i64"));
  hash ← gets (λ s, Ok (get_block_hash block_number (consensus_db s)));
  let maybe_block_hash := (λ h, (HashValue_to_bytes h, N.of_nat (length txns))) <$> hash in
  randomness ← replay_randomness b;
  block ← gets (λ s, external_block s b block_number randomness maybe_block_hash txns);
  _ ← in_context "Failed to set ordered blocks during recovery"
        (await_executor (when_ready (set_ordered_blocks (BlockId_of (Block_parent_id b)) block (Block_round b))));
  compute_res ← in_context "Failed to get executed result for block during recovery"
        (await_executor (polling false "get_executed_res timeout"
           (get_executed_res (BlockId_of (block_id b)) block_number (Block_epoch b))));
  let data := cr_data (scr_execution_output compute_res) in
  let commit_blocks := commit_blocks ++
    [{| bhr_block_id := BlockId_of (block_id b); bhr_num := block_number; bhr_hash := Some data;
        bhr_persist_notifier := None |}] in
  match maybe_block_hash with
  | None => mret commit_blocks
  | Some block_hash =>
      _ ← lift (assert_ (bool_decide (block_hash.1 = data)) "assertion failed: left == right");
      _ ← in_context "Failed to set commit blocks during recovery"
            (await_executor (when_ready (set_commit_blocks commit_blocks (Block_epoch b))));
      mret []
  end.

Fixpoint replay_blocks (blocks : list Block) (commit_blocks : list BlockHashRef) : B unit :=
  match blocks with
  | [] => mret tt
  | b :: blocks =>
      commit_blocks ← replay_block b commit_blocks;
      replay_blocks blocks commit_blocks
  end.

(** The blocks up to the block of an epoch change. *)
Definition up_to_limit (limit : option N) (blocks : list Block) : list Block :=
  match limit with
  | Some limit =>
      filter (λ b, from_option (λ n, n <=? limit) true (block_block_number b) = true) blocks
  | None => blocks
  end.

Definition send_recovery (finality_proof : WrappedLedgerInfo) (block_to_commit : Block)
    (blocks_to_commit : list Block) (limit : option N) : B unit :=
  let blocks_to_commit := up_to_limit limit blocks_to_commit in
  if bool_decide (is_Some limit) && bool_decide (blocks_to_commit = []) then mret tt
  else
    last_block_number ← lift (ok_or (Msg "Block number not found for last recovery block")
                                (last blocks_to_commit ≫= block_block_number));
    hash ← gets (λ s, Ok (get_block_hash last_block_number (consensus_db s)));
    match hash with
    | None => mret tt
    | Some _ =>
        _ ← replay_blocks blocks_to_commit [];
        _ ← on_tree (commit_callback blocks_to_commit finality_proof
                       (wli_signed_ledger_info finality_proof));
        _ ← on_tree (update_ordered_root (block_id block_to_commit));
        on_tree (modify (insert_ordered_cert finality_proof))
    end.

Definition send_for_execution (finality_proof : WrappedLedgerInfo) (recovery : bool)
    (recover_epoch_change_block_number : option N) : B unit :=
  is_validator ← gets (λ s, Ok (sc_is_validator (bs_config s)));
  if negb is_validator && negb recovery then mret tt
  else
    let block_id_to_commit := bi_id (WrappedLedgerInfo_commit_info finality_proof) in
    block_to_commit ← gets (λ s, ok_or (Msg "Committed block id not found")
                                   (get_block (bs_inner s) block_id_to_commit));
    root ← gets (λ s, ordered_root (bs_inner s));
    _ ← gets (λ s, commit_root (bs_inner s));
    if Block_round block_to_commit <=? Block_round root
    then lift (Err (Msg "Committed block round lower than root"))
    else
      blocks_to_commit ← gets (λ s, ordered_path s block_id_to_commit);
      if bool_decide (blocks_to_commit = []) then mret tt
      else
        _ ← modify (λ s, with_pending (pending_gc (bi_round (WrappedLedgerInfo_commit_info finality_proof))
                                         (bs_pending_blocks s)) s);
        _ ← init_block_number blocks_to_commit;
        blocks_to_commit ← gets (λ s, Ok (current s blocks_to_commit));
        if recovery
        then send_recovery finality_proof block_to_commit blocks_to_commit recover_epoch_change_block_number
        else send_live finality_proof blocks_to_commit.

(** ** Recovery *)

(** An error is logged, a panic is not caught. *)
Definition or_warn {A} (c : B A) : B unit := λ s,
  match c s with
  | (Panic m, s) => (Panic m, s)
  | (_, s) => (Ok tt, s)
  end.

Definition cert_le (qc1 qc2 : QuorumCert) : Prop :=
  bi_round (QuorumCert_commit_info qc1) ≤ bi_round (QuorumCert_commit_info qc2).
#[global] Instance cert_le_dec : RelDecision cert_le :=
  λ qc1 qc2, decide (bi_round (QuorumCert_commit_info qc1) ≤ bi_round (QuorumCert_commit_info qc2)).

(** The loop of [recover_blocks]; the first error ends it. *)
Fixpoint recover_certs (certs : list QuorumCert) (last_ledger_info : option LedgerInfoWithSignatures)
    (limit : option N) : B unit :=
  match certs with
  | [] => mret tt
  | qc :: certs =>
      let commit_info := QuorumCert_commit_info qc in
      root ← gets (λ s, commit_root (bs_inner s));
      if bi_round commit_info <=? Block_round root then recover_certs certs last_ledger_info limit
      else match last_ledger_info with
      | None => recover_certs certs last_ledger_info limit
      | Some li =>
          if negb (li_epoch (liws_ledger_info li) =? bi_epoch commit_info)
             || (bi_round (li_commit_info (liws_ledger_info li)) <? bi_round commit_info)
          then recover_certs certs last_ledger_info limit
          else λ s,
            match send_for_execution (into_wrapped_ledger_info qc) true limit s with
            | (Ok _, s) => recover_certs certs last_ledger_info limit s
            | (Err _, s) => (Ok tt, s)
            | (Panic m, s) => (Panic m, s)
            end
      end
  end.

Definition recover_blocks : B unit := λ s,
  let certs := get_all_quorum_certs_with_commit_info (bs_inner s) in
  let last_ledger_info := cdb_latest_ledger_info (consensus_db s) in
  let epoch_change_block_number :=
    li ← last_ledger_info;
    ebi_block_number <$> bi_epoch_block_info (li_commit_info (liws_ledger_info li)) in
  recover_certs (merge_sort cert_le certs) last_ledger_info epoch_change_block_number s.

Definition replay_ordered_path_if_needed : B unit :=
  root ← gets (λ s, ordered_root (bs_inner s));
  cert ← gets (λ s, Ok (store_highest_ordered_cert s));
  if Block_round root <? bi_round (WrappedLedgerInfo_commit_info cert)
  then send_for_execution cert false None
  else mret tt.

(** The walk of [find_missing_randomness_block_on_path]: the last block without
    randomness on the way down to [commit_round]. *)
Fixpoint missing_randomness (fuel : nat) (s : BlockStore) (commit_round : Round) (cursor : Block)
    (closest : option Block) : result Anyhow (option Block) :=
  match fuel with
  | O => Panic "out of fuel"
  | S fuel =>
      if Block_round cursor <=? commit_round then Ok closest
      else
        let closest :=
          match pc_randomness (cells_of s (block_id cursor)) with
          | None => Some cursor
          | Some _ => closest
          end in
        match get_block (bs_inner s) (Block_parent_id cursor) with
        | Some parent => missing_randomness fuel s commit_round parent closest
        | None => Ok closest
        end
  end.

Definition find_missing_randomness_block_on_path (s : BlockStore) (li : LedgerInfoWithSignatures)
    : result Anyhow (bool * option WrappedLedgerInfo) :=
  root ← (if negb (sc_require_block_randomness (bs_config s)) then Ok None
          else r ← ordered_root (bs_inner s); Ok (Some r));
  if match root with None => true | Some r => Block_epoch r =? 1 end
     || (bi_round (li_commit_info (liws_ledger_info li)) =? 0)
  then Ok (false, None)
  else
    let commit_cert := store_highest_commit_cert s in
    let commit_round := bi_round (WrappedLedgerInfo_commit_info commit_cert) in
    match get_block (bs_inner s) (bi_id (WrappedLedgerInfo_commit_info (store_highest_ordered_cert s))) with
    | None => Ok (false, Some commit_cert)
    | Some cursor =>
        closest ← missing_randomness (S (size (bt_id_to_block (bs_inner s)))) s commit_round cursor None;
        match closest with
        | None => Ok (false, Some commit_cert)
        | Some block =>
            let cert := from_option into_wrapped_ledger_info commit_cert
                          (get_quorum_cert_for_block s (block_id block)) in
            Ok (true, Some (if bi_round (WrappedLedgerInfo_commit_info cert) <? commit_round
                            then commit_cert else cert))
        end
    end.

(** ** Building the tree *)

(** The part of [build] after the tree was made from its root: ancestors of the root
    are skipped, and what cannot be inserted is logged. *)
Fixpoint build_blocks (root : Block) (blocks : list Block) : B unit :=
  match blocks with
  | [] => mret tt
  | b :: blocks =>
      _ ← (if (Block_round b <=? Block_round root) && bool_decide (block_id b ≠ block_id root)
           then mret tt else or_warn (store_insert_block b true));
      build_blocks root blocks
  end.

Fixpoint build_certs (root : Block) (quorum_certs : list QuorumCert) : B unit :=
  match quorum_certs with
  | [] => mret tt
  | qc :: quorum_certs =>
      _ ← (if bi_round (certified_block qc) <? Block_round root
           then mret tt else or_warn (insert_single_quorum_cert qc true));
      build_certs root quorum_certs
  end.

Definition build_cells (root : Block) : gmap HashValue Cells :=
  {[block_id root := {| pc_result := with_root_hash (block_id root); pc_randomness := None;
                        pc_insertion_time := false |}]}.

Definition build_tree (root : RootInfo) (max_pruned_blocks_in_mem : nat)
    (highest_2chain_timeout_cert : option TwoChainTimeoutCertificate) : result Anyhow BlockTree :=
  BlockTree_new (ri_block root) (ri_quorum_cert root) (ri_ordered_cert root) (ri_commit_cert root)
    max_pruned_blocks_in_mem highest_2chain_timeout_cert.

Definition build (root : RootInfo) (blocks : list Block) (quorum_certs : list QuorumCert) : B unit :=
  _ ← build_blocks (ri_block root) blocks;
  build_certs (ri_block root) quorum_certs.

(** [BlockStore::new]; [is_async] for [async_new], which also replays the ordered
    path and logs its error. *)
Definition BlockStore_new (is_async : bool) (storage : StorageWriteProxy) (initial_data : RecoveryData)
    (max_pruned_blocks_in_mem : nat) (pending : PendingBlocks) (executor : Manager) (config : StoreConfig)
    : result Anyhow BlockStore :=
  let root := rd_root initial_data in
  tree ← build_tree root max_pruned_blocks_in_mem (rd_highest_2chain_timeout_certificate initial_data);
  let '(r, s) :=
    (_ ← build root (rd_blocks initial_data) (rd_quorum_certs initial_data);
     _ ← recover_blocks;
     if is_async then or_warn replay_ordered_path_if_needed else mret tt)
    {| bs_inner := tree; bs_cells := build_cells (ri_block root); bs_storage := storage;
       bs_pending_blocks := pending; bs_executor := executor; bs_sent := []; bs_config := config |} in
  _ ← r; Ok s.

(** The new tree is built aside and replaces the old one. *)
Definition rebuild (root : RootInfo) (blocks : list Block) (quorum_certs : list QuorumCert) : B unit :=
  tree ← gets (λ s, build_tree root (bt_max_pruned_blocks_in_mem (bs_inner s))
                      (bt_highest_2chain_timeout_cert (bs_inner s)));
  _ ← modify (λ s, with_cells (build_cells (ri_block root)) (with_inner tree s));
  _ ← build root blocks quorum_certs;
  recover_blocks.

(** Blocks received in a sync come with their number and randomness. *)
Fixpoint append_blocks (blocks : list (Block * option N * option bytes)) : B unit :=
  match blocks with
  | [] => mret tt
  | (b, number, _) :: blocks =>
      let b := match number, block_block_number b with
               | Some n, None => (set_block_number b n).1
               | _, _ => b
               end in
      _ ← or_warn (store_insert_block b true);
      append_blocks blocks
  end.

Fixpoint append_certs (quorum_certs : list QuorumCert) : B unit :=
  match quorum_certs with
  | [] => mret tt
  | qc :: quorum_certs =>
      _ ← or_warn (insert_single_quorum_cert qc true);
      append_certs quorum_certs
  end.

Definition append_blocks_for_sync (blocks : list (Block * option N * option bytes))
    (quorum_certs : list QuorumCert) : B unit :=
  _ ← append_blocks blocks;
  _ ← append_certs quorum_certs;
  recover_blocks.

(** The callback of a batch: the pipeline has committed [blocks] with [decision]. *)
Definition on_commit (blocks : list Block) (finality_proof : WrappedLedgerInfo)
    (decision : LedgerInfoWithSignatures) : B unit :=
  on_tree (commit_callback blocks finality_proof decision).

End block_store.
