(* ===== verification/StoreSpec.v ===== *)
(** * What the block store promises

    Blocks are named by their ids: [parent_of] and [round_of] give the parent and the
    round of the block with an id, and a block is valid when it says the same of
    itself.  The invariant of the store is kept by every operation of a running
    validator: the ordered root descends from the commit root, only blocks up to it
    have been sent to execution, and block numbers follow the chain.  From it: what is
    sent to execution is one chain, every block once, numbered consecutively. *)

From S2P Require Import Prelude Gaptos Types Bytes Certificates Payloads Blocks SafetyRules SafetySpec Bft PendingVotes.
From S2P Require Import BlockTree BlockBufferManager BufferItem ConsensusDb Recovery BlockStore.

(** The database takes what it is given: certificates are encoded, and writes succeed. *)
Class StorageAccepts {GA : Gaptos} {DT : DbTypes} {SD : SchemaDb} {RY : RecoveryTypes} : Prop := {
  put_accepted {K V} (sc : Schema K V) k v batch kb vb :
    encode_key sc k = Ok kb → encode_value sc v = Ok vb → ∃ batch', batch_put sc k v batch = Ok batch';
  write_accepted batch d : ∃ d', db_write_schemas batch d = (Ok tt, d');
  bcs_quorum_cert_total qc : ∃ data, bcs_quorum_cert qc = Ok data;
  bcs_timeout_cert_total tc : ∃ data, bcs_timeout_cert tc = Ok data;
  quorum_cert_of_to_bcs qc data : bcs_quorum_cert qc = Ok data → quorum_cert_of_bcs data = Ok qc;
}.

Section store_spec.
Context {GA : Gaptos} {VE : Verifier} {CR : Crypto} {PI : PartialLedgerInfo} {AT : ApiTypes} {PT : PipelineTypes}.
Context {DT : DbTypes} {SD : SchemaDb} {RY : RecoveryTypes} {ST : StoreTypes} {SA : StorageAccepts}.
Context {TL : DbTypesLaws} {DL : SchemaDbLaws}.

Implicit Types (t : BlockTree) (s : BlockStore) (id : HashValue) (b : Block).

(** ** Writes to the database *)

Lemma puts_accepted {K V A} (sc : Schema K V) (f : A → K) (g : A → V) l batch :
  (∀ x, x ∈ l → ∃ kb vb, encode_key sc (f x) = Ok kb ∧ encode_value sc (g x) = Ok vb) →
  ∃ batch', try_fold (λ batch x, batch_put sc (f x) (g x) batch) batch l = Ok batch'.
Proof.
  intros Henc. revert batch. induction l as [|x l IH]; intros batch; [by exists batch|]. simpl.
  destruct (Henc x ltac:(left)) as (kb & vb & Hk & Hv). destruct (put_accepted sc _ _ batch _ _ Hk Hv) as [b1 ->].
  apply IH. intros y Hy. apply Henc. by right.
Qed.

Lemma commit_accepted batch c : ∃ c', commit batch c = (Ok tt, c').
Proof. unfold commit. destruct (write_accepted batch (cdb_db c)) as [d ->]. eauto. Qed.

Lemma save_blocks_accepted blocks qcs c :
  (∀ b, b ∈ blocks → ∃ data, bcs_block b = Ok data) →
  ∃ c', save_blocks_and_quorum_certificates blocks qcs c = (Ok tt, c').
Proof.
  intros Henc. unfold save_blocks_and_quorum_certificates. destruct (_ && _); [by eexists|].
  unfold mbind, M_bind, lift.
  destruct (puts_accepted BlockSchema block_key id blocks SchemaBatch_new) as [b1 Hb1].
  { intros x Hx. destruct (Henc x Hx) as [data Hd]. by eexists _, data. }
  unfold id, block_key in Hb1. rewrite Hb1.
  destruct (puts_accepted QCSchema (λ qc, (bi_epoch (certified_block qc), bi_id (certified_block qc))) id qcs b1) as [b2 Hb2].
  { intros x. destruct (bcs_quorum_cert_total x) as [data Hd]. by eexists _, data. }
  unfold id in Hb2. rewrite Hb2. apply commit_accepted.
Qed.

Lemma save_numbers_accepted numbers c : ∃ c', save_block_numbers numbers c = (Ok tt, c').
Proof.
  unfold save_block_numbers. case_bool_decide; [by eexists|]. unfold mbind, M_bind, lift.
  destruct (puts_accepted BlockNumberSchema (λ x : N * N * HashValue, (x.1.1, x.2)) (λ x, x.1.2) numbers SchemaBatch_new) as [b1 Hb1].
  { intros x. by eexists _, _. }
  assert (Heq : ∀ (l : list (N * N * HashValue)) batch,
    try_fold (λ x '(epoch, block_number, id), batch_put BlockNumberSchema (epoch, id) block_number x) batch l
    = try_fold (λ batch x, batch_put BlockNumberSchema (x.1.1, x.2) x.1.2 batch) batch l).
  { induction l as [|[[e n] h] l IH]; intros batch; [done|]. simpl. destruct (batch_put _ _ _ _); [apply IH|done..]. }
  rewrite Heq, Hb1. apply commit_accepted.
Qed.

(** What a list of puts leaves under a key: what was there, or one of the values put. *)
Lemma puts_cases {A K V} (sc : Schema K V) (key : A → K) (value : A → V) l batch batch' cf kb m :
  try_fold (λ x a, batch_put sc (key a) (value a) x) batch l = Ok batch' →
  batch_effect batch' m !! (cf, kb) = batch_effect batch m !! (cf, kb) ∨
  ∃ a vb, a ∈ l ∧ cf = column_family sc ∧ encode_key sc (key a) = Ok kb ∧ encode_value sc (value a) = Ok vb ∧
    batch_effect batch' m !! (cf, kb) = Some vb.
Proof.
  revert batch. induction l as [|a l IH]; intros batch Hf; [injection Hf as <-; by left|].
  cbn [try_fold] in Hf. apply bind_Ok in Hf as (b1 & Hput & Hf).
  apply IH in Hf as [Hf|(a' & vb & Ha' & ?)]; [|right; exists a', vb; set_solver].
  apply batch_put_Ok in Hput as (kb' & vb & Hk & Hv & Hb1). rewrite Hf, Hb1.
  destruct (decide ((column_family sc, kb') = (cf, kb))) as [[= <- <-]|Hne].
  - right. exists a, vb. rewrite lookup_insert_eq. set_solver.
  - left. by rewrite lookup_insert_ne.
Qed.

Lemma puts_present {A K V} (sc : Schema K V) (key : A → K) (value : A → V) l batch batch' m a kb :
  try_fold (λ x a, batch_put sc (key a) (value a) x) batch l = Ok batch' → a ∈ l →
  encode_key sc (key a) = Ok kb →
  ∃ a' vb, a' ∈ l ∧ encode_key sc (key a') = Ok kb ∧ encode_value sc (value a') = Ok vb ∧
    batch_effect batch' m !! (column_family sc, kb) = Some vb.
Proof.
  intros Hf Ha Hk. apply list_elem_of_split in Ha as (l1 & l2 & ->). revert batch Hf.
  induction l1 as [|a' l1 IH]; intros batch Hf; cbn [app try_fold] in Hf;
    apply bind_Ok in Hf as (b1 & Hput & Hf).
  - apply batch_put_Ok in Hput as (kb' & vb & Hk' & Hv & Hb1). assert (kb' = kb) as -> by congruence.
    apply (puts_cases _ _ _ _ _ _ (column_family sc) kb m) in Hf as [->|(a' & vb' & Ha' & _ & ? & ? & ->)].
    + exists a, vb. rewrite Hb1, lookup_insert_eq. set_solver.
    + exists a', vb'. set_solver.
  - apply IH in Hf as (a0 & vb & Ha0 & ?). exists a0, vb. split; [set_solver|done].
Qed.

Definition cert_key (qc : QuorumCert) : N * HashValue := (bi_epoch (certified_block qc), bi_id (certified_block qc)).

(** What [save_tree] does to the tables. *)
Record saved (blocks : list Block) (qcs : list QuorumCert) (numbers : list (N * N * HashValue))
    (m m' : gmap (string * bytes) bytes) : Prop := {
  sv_cases cf kb : m' !! (cf, kb) = m !! (cf, kb) ∨
    (∃ b data, b ∈ blocks ∧ cf = "block" ∧ kb = epoch_hash_bytes (block_key b) ∧
       bcs_block b = Ok data ∧ m' !! (cf, kb) = Some data) ∨
    (∃ qc data, qc ∈ qcs ∧ cf = "quorum_certificate" ∧ kb = epoch_hash_bytes (cert_key qc) ∧
       bcs_quorum_cert qc = Ok data ∧ m' !! (cf, kb) = Some data) ∨
    (∃ e n id, (e, n, id) ∈ numbers ∧ cf = "block_number" ∧ kb = epoch_hash_bytes (e, id) ∧
       m' !! (cf, kb) = Some (to_be_bytes 8 n));
  sv_blocks b : b ∈ blocks → is_Some (m' !! ("block", epoch_hash_bytes (block_key b)));
  sv_certs qc : qc ∈ qcs → is_Some (m' !! ("quorum_certificate", epoch_hash_bytes (cert_key qc)));
  sv_numbers e n id : (e, n, id) ∈ numbers →
    ∃ e' n' id', (e', n', id') ∈ numbers ∧ epoch_hash_bytes (e, id) = epoch_hash_bytes (e', id') ∧
      m' !! ("block_number", epoch_hash_bytes (e, id)) = Some (to_be_bytes 8 n');
}.

Lemma saved_nothing m : saved [] [] [] m m.
Proof. split; [by left|by intros ? ?%not_elem_of_nil..|by intros ??? ?%not_elem_of_nil]. Qed.

Lemma saved_kept blocks qcs numbers m m' x : saved blocks qcs numbers m m' → is_Some (m !! x) → is_Some (m' !! x).
Proof.
  intros Hs Hx. destruct x as [cf kb].
  destruct (sv_cases _ _ _ _ _ Hs cf kb) as [->|[(? & ? & _ & _ & _ & _ & ->)|[(? & ? & _ & _ & _ & _ & ->)|(? & ? & ? & _ & _ & _ & ->)]]];
    by eauto.
Qed.

Lemma save_blocks_saved blocks qcs c c' :
  save_blocks_and_quorum_certificates blocks qcs c = (Ok tt, c') →
  saved blocks qcs [] (db_contents (cdb_db c)) (db_contents (cdb_db c')).
Proof.
  unfold save_blocks_and_quorum_certificates. destruct (_ && _) eqn:He; intros H.
  { apply andb_true_iff in He as [Hb%bool_decide_eq_true Hq%bool_decide_eq_true].
    apply length_zero_iff_nil in Hb as ->. apply length_zero_iff_nil in Hq as ->. run_inv. apply saved_nothing. }
  run_inv. match goal with H : commit _ _ = _ |- _ => apply commit_contents in H as -> end.
  match goal with |- saved _ _ _ ?x _ => set (m := x) end.
  match goal with
  | Hb : try_fold _ SchemaBatch_new blocks = Ok ?batch, Hq : try_fold _ ?batch qcs = Ok _ |- _ =>
      rename Hb into Hblocks; rename Hq into Hqcs end.
  pose proof (λ cf kb m, puts_cases BlockSchema block_key id _ _ _ cf kb m Hblocks) as Hbc.
  pose proof (λ m b kb, puts_present BlockSchema block_key id _ _ _ m b kb Hblocks) as Hbp.
  pose proof (λ cf kb m, puts_cases QCSchema cert_key id _ _ _ cf kb m Hqcs) as Hqc.
  pose proof (λ m qc kb, puts_present QCSchema cert_key id _ _ _ m qc kb Hqcs) as Hqp.
  split; [| |intros qc Hqc'; destruct (Hqp m qc _ Hqc' eq_refl) as (? & ? & _ & _ & _ & ?); by eexists|by intros ??? ?%not_elem_of_nil].
  - intros cf kb. destruct (Hqc cf kb m) as [Hq'|(qc & vb & Hin & -> & Hk & Hv & Hl)].
    + rewrite Hq'. destruct (Hbc cf kb m) as [Hb'|(b & vb & Hin & -> & Hk & Hv & Hl)].
      * left. by rewrite Hb', batch_effect_new.
      * right; left. exists b, vb. split_and!; try done. by apply encode_epoch_hash_Ok in Hk.
    + right; right; left. exists qc, vb. split_and!; try done. by apply encode_epoch_hash_Ok in Hk.
  - intros b Hb. destruct (Hqc "block" (epoch_hash_bytes (block_key b)) m) as [->|(? & ? & _ & ? & _)]; [|done].
    destruct (Hbp m b _ Hb eq_refl) as (? & ? & _ & _ & _ & ?). by eexists.
Qed.

Lemma save_numbers_saved numbers c c' :
  save_block_numbers numbers c = (Ok tt, c') → saved [] [] numbers (db_contents (cdb_db c)) (db_contents (cdb_db c')).
Proof.
  unfold save_block_numbers. case_bool_decide as Hn; intros H.
  { apply length_zero_iff_nil in Hn as ->. run_inv. apply saved_nothing. }
  run_inv. match goal with H : commit _ _ = _ |- _ => apply commit_contents in H as -> end.
  match goal with |- saved _ _ _ ?x _ => set (m := x) end.
  match goal with H : try_fold _ _ _ = Ok ?batch |- _ => rename H into Hf; rename batch into a end.
  assert (Hfold : try_fold (λ x y, batch_put BlockNumberSchema (y.1.1, y.2) y.1.2 x) SchemaBatch_new numbers = Ok a).
  { rewrite <- Hf. apply try_fold_ext. by intros ? [[e' n'] id']. }
  split; [|by intros ? ?%not_elem_of_nil..|].
  - intros cf kb. destruct (puts_cases BlockNumberSchema (λ y : N * N * HashValue, (y.1.1, y.2)) (λ y, y.1.2) _ _ _ cf kb m Hfold)
      as [->|([[e n] i] & vb & Hin & -> & Hk & Hv & Hl)]; [left; by rewrite batch_effect_new|].
    right; right; right. exists e, n, i. split_and!; try done; [by apply encode_epoch_hash_Ok in Hk|].
    rewrite Hl. f_equal. simpl in Hv. unfold encode_u64 in Hv. congruence.
  - intros e n i Hin.
    destruct (puts_present BlockNumberSchema (λ y : N * N * HashValue, (y.1.1, y.2)) (λ y, y.1.2) _ _ _ m (e, n, i) _ Hfold Hin eq_refl)
      as ([[e' n'] i'] & vb & Hin' & Hk & Hv & Hl). exists e', n', i'. split_and!; try done.
    + by apply encode_epoch_hash_Ok in Hk.
    + simpl in Hv. unfold encode_u64 in Hv. injection Hv as <-. exact Hl.
Qed.

Abbreviation contents w := (db_contents (cdb_db (swp_db w))).

Lemma save_tree_accepted blocks qcs numbers w :
  (∀ b, b ∈ blocks → ∃ data, bcs_block b = Ok data) →
  ∃ w', save_tree blocks qcs numbers w = (Ok tt, w') ∧ saved blocks qcs numbers (contents w) (contents w').
Proof.
  intros Henc. unfold save_tree, mbind, M_bind, on_db.
  destruct (save_blocks_accepted blocks qcs (swp_db w) Henc) as [c1 H1]. rewrite H1.
  destruct (save_numbers_accepted numbers c1) as [c2 H2]. simpl. rewrite H2. eexists. split; [done|]. simpl.
  apply save_blocks_saved in H1 as Hs1. apply save_numbers_saved in H2 as Hs2. split.
  - intros cf kb. destruct (sv_cases _ _ _ _ _ Hs2 cf kb) as [Heq|[(? & ? & []%not_elem_of_nil & _)|[(? & ? & []%not_elem_of_nil & _)|?]]];
      [|by do 3 right]. rewrite Heq.
    destruct (sv_cases _ _ _ _ _ Hs1 cf kb) as [?|[?|[?|(? & ? & ? & []%not_elem_of_nil & _)]]]; auto.
  - intros b Hb. by apply (saved_kept _ _ _ _ _ _ Hs2), (sv_blocks _ _ _ _ _ Hs1).
  - intros qc Hqc. by apply (saved_kept _ _ _ _ _ _ Hs2), (sv_certs _ _ _ _ _ Hs1).
  - apply (sv_numbers _ _ _ _ _ Hs2).
Qed.

Lemma save_timeout_accepted tc w :
  ∃ w', save_highest_2chain_timeout_cert tc w = (Ok tt, w') ∧
    ∀ cf kb, cf ≠ "single_entry" → contents w' !! (cf, kb) = contents w !! (cf, kb).
Proof.
  unfold save_highest_2chain_timeout_cert, save_highest_2chain_timeout_certificate, mbind, M_bind, lift, on_db, db_put.
  destruct (bcs_timeout_cert_total tc) as [data ->]. unfold mbind, M_bind, lift.
  destruct (put_accepted SingleEntrySchema Highest2ChainTimeoutCert data SchemaBatch_new _ _ eq_refl eq_refl) as [b1 Hb].
  rewrite Hb. destruct (commit_accepted b1 (swp_db w)) as [c Hc]. rewrite Hc. eexists. split; [done|].
  intros cf kb Hcf. simpl. apply commit_contents in Hc as ->. apply batch_put_Ok in Hb as (kb' & vb & _ & _ & ->).
  rewrite batch_effect_new. apply lookup_insert_ne. by intros [= ? _].
Qed.

(** ** Names of blocks *)

Context (parent_of : HashValue → HashValue) (round_of : HashValue → Round).

(** Rounds grow along parent links, except at the genesis blocks of round 0. *)
Record names : Prop := {
  nm_lt id : round_of id ≠ 0 → round_of (parent_of id) < round_of id;
  nm_zero id : round_of id = 0 → round_of (parent_of id) = 0;
  nm_genesis : round_of GENESIS_BLOCK_ID = 0;
}.

Context (Hnames : names).

Definition named b : Prop :=
  Block_round b = round_of (block_id b) ∧ Block_parent_id b = parent_of (block_id b).

(** [a] is an ancestor of [id], or [id] itself. *)
Inductive anc (a : HashValue) : HashValue → Prop :=
| anc_refl : anc a a
| anc_step id : round_of id ≠ 0 → anc a (parent_of id) → anc a id.

Lemma anc_round a id : anc a id → round_of a ≤ round_of id.
Proof. induction 1 as [|id Hr _ IH]; [lia|]. pose proof (nm_lt Hnames id Hr). lia. Qed.

Lemma anc_same_round a id : anc a id → round_of id ≤ round_of a → id = a.
Proof.
  intros [|? Hr Ha] Hle; [done|]. apply anc_round in Ha. pose proof (nm_lt Hnames _ Hr). lia.
Qed.

Lemma anc_trans a a2 id : anc a a2 → anc a2 id → anc a id.
Proof. intros Ha. induction 1 as [|id Hr _ IH]; [done|]. by apply anc_step. Qed.

(** Two ancestors of a block are on one line. *)
Lemma anc_linear a1 a2 id : anc a1 id → anc a2 id → round_of a1 ≤ round_of a2 → anc a1 a2.
Proof.
  induction 1 as [|id Hr H1 IH]; intros H2 Hle.
  - rewrite (anc_same_round _ _ H2) by done. constructor.
  - inversion H2 as [|? _ H2']; subst; [|by apply IH]. by apply anc_step.
Qed.

(** ** The invariant of the tree *)

Record tree_inv t : Prop := {
  tv_ok : tree_ok t;
  tv_named id lb : bt_id_to_block t !! id = Some lb → named (lb_executed_block lb);
  tv_live id : is_Some (bt_id_to_block t !! id) → anc (bt_commit_root_id t) id →
    desc (bt_id_to_block t) (bt_commit_root_id t) id;
  tv_ordered : is_Some (bt_id_to_block t !! bt_ordered_root_id t) ∧
    anc (bt_commit_root_id t) (bt_ordered_root_id t);
  tv_certified : is_Some (bt_id_to_block t !! bt_highest_certified_block_id t);
}.

Lemma tree_block t id lb :
  tree_inv t → bt_id_to_block t !! id = Some lb →
  block_id (lb_executed_block lb) = id ∧ lb_round lb = round_of id ∧ lb_parent lb = parent_of id.
Proof.
  intros Ht Hid. pose proof (lo_id _ (to_links _ (tv_ok _ Ht)) _ _ Hid) as Heq.
  destruct (tv_named _ Ht _ _ Hid) as [Hr Hp]. unfold lb_round, lb_parent. by rewrite Hr, Hp, Heq.
Qed.

(** A named block fits the rounds of the tree. *)
Lemma named_fits t b : tree_inv t → named b → Block_round b ≠ 0 → fits (bt_id_to_block t) b.
Proof.
  intros Ht [Hr Hp] Hne. rewrite Hr in Hne. split.
  - intros lp Hlp. destruct (tree_block _ _ _ Ht Hlp) as (_ & -> & _). rewrite Hp, Hr.
    by apply (nm_lt Hnames).
  - intros c lc Hc Hpar. destruct (tree_block _ _ _ Ht Hc) as (_ & -> & Hpc). rewrite Hr.
    rewrite Hpar in Hpc. rewrite Hpc. apply (nm_lt Hnames). intros Hz. apply (nm_zero Hnames) in Hz.
    by rewrite <- Hpc in Hz.
Qed.

Lemma named_not_parent b : named b → Block_round b ≠ 0 → Block_parent_id b ≠ block_id b.
Proof.
  intros [Hr Hp] Hne Heq. rewrite Hr in Hne. pose proof (nm_lt Hnames _ Hne) as Hlt.
  rewrite <- Hp, Heq in Hlt. lia.
Qed.

(** Paths of the tree are ancestries. *)
Lemma ancestry_anc t root id path lr :
  tree_inv t → bt_id_to_block t !! root = Some lr → ancestry (bt_id_to_block t) root id path → anc root id.
Proof.
  intros Ht Hroot. induction 1 as [|id lb path Hid Hanc IH]; [constructor|].
  destruct (tree_block _ _ _ Ht Hid) as (_ & Hr & Hp). rewrite Hp in IH, Hanc. apply anc_step; [|done].
  destruct (ancestry_bounds t root lr (to_links _ (tv_ok _ Ht)) Hroot _ _ Hanc) as (lp & Hlp & _).
  rewrite <- Hp in Hlp. pose proof (lo_below _ (to_links _ (tv_ok _ Ht)) _ _ _ Hid Hlp). lia.
Qed.

(** ... and a block that descends from another one in the tree has it as ancestor. *)
Lemma desc_anc t a id : tree_inv t → desc (bt_id_to_block t) a id → anc a id.
Proof.
  intros Ht. induction 1 as [|p lp c Hd IH Hp Hc]; [constructor|].
  destruct (lo_child _ (to_links _ (tv_ok _ Ht)) _ _ _ Hp Hc) as (lc & Hlc & Hpar & Hlt).
  destruct (tree_block _ _ _ Ht Hlc) as (_ & Hr & Hpc). apply anc_step; [lia|].
  by rewrite <- Hpc, Hpar.
Qed.

(** Descending through a block in between. *)
Lemma desc_from t r r' id :
  tree_inv t → desc (bt_id_to_block t) r id → anc r r' → anc r' id → desc (bt_id_to_block t) r' id.
Proof.
  intros Ht. induction 1 as [|p lp c Hd IH Hp Hc]; intros Hr Hr'.
  - rewrite (anc_same_round _ _ Hr') by (by apply anc_round). constructor.
  - destruct (lo_child _ (to_links _ (tv_ok _ Ht)) _ _ _ Hp Hc) as (lc & Hlc & Hpar & Hlt).
    destruct (tree_block _ _ _ Ht Hlc) as (_ & _ & Hpc).
    inversion Hr' as [|? _ Hr'']; subst; [constructor|]. rewrite <- Hpc in Hr''.
    eapply desc_child; [by apply IH|done|done].
Qed.

(** Descent only looks at the blocks it passes. *)
Lemma desc_kept (m m' : gmap HashValue LinkableBlock) a id :
  desc m a id → (∀ x lx, desc m a x → m !! x = Some lx → m' !! x = Some lx) → desc m' a id.
Proof.
  intros Hd Hkeep. induction Hd as [|p lp c Hd IH Hp Hc]; [constructor|].
  eapply desc_child; [exact IH|by apply Hkeep|done].
Qed.

Lemma tree_inv_ext t t' :
  bt_id_to_block t' = bt_id_to_block t → bt_commit_root_id t' = bt_commit_root_id t →
  bt_highest_commit_cert t' = bt_highest_commit_cert t →
  bt_pruned_block_ids t' = bt_pruned_block_ids t →
  bt_max_pruned_blocks_in_mem t' = bt_max_pruned_blocks_in_mem t →
  is_Some (bt_id_to_block t !! bt_ordered_root_id t') → anc (bt_commit_root_id t) (bt_ordered_root_id t') →
  is_Some (bt_id_to_block t !! bt_highest_certified_block_id t') →
  tree_inv t → tree_inv t'.
Proof.
  intros Hm Hr Hc Hp Hx Ho Ha Hh Ht. split.
  - by apply (tree_ok_ext t), tv_ok.
  - rewrite Hm. apply (tv_named _ Ht).
  - rewrite Hm, Hr. apply (tv_live _ Ht).
  - by rewrite Hm, Hr.
  - by rewrite Hm.
Qed.

(** ** Operations on the tree *)

Lemma get_block_lookup t id b :
  get_block t id = Some b ↔ ∃ lb, bt_id_to_block t !! id = Some lb ∧ lb_executed_block lb = b.
Proof.
  unfold get_block, get_linkable_block. rewrite fmap_Some. split; intros (lb & ? & ?); by exists lb.
Qed.

Lemma get_block_None t id : get_block t id = None ↔ bt_id_to_block t !! id = None.
Proof. unfold get_block, get_linkable_block. by rewrite fmap_None. Qed.

Lemma get_block_id t id b :
  tree_inv t → get_block t id = Some b → block_id b = id ∧ Block_round b = round_of id ∧ Block_parent_id b = parent_of id.
Proof. intros Ht (lb & Hlb & <-)%get_block_lookup. by apply (tree_block t). Qed.

(** What a new block does to the invariant. *)
Section inserted.
Context t t' b (Ht : tree_inv t) (Hn : named b) (Hz : Block_round b ≠ 0).
Context (Hnone : bt_id_to_block t !! block_id b = None).
Context (Hpar : is_Some (bt_id_to_block t !! Block_parent_id b) ∨ Block_parent_id b = GENESIS_BLOCK_ID).
Context (Hins : inserted (bt_id_to_block t) (bt_id_to_block t') b) (Hlinks : links_ok (bt_id_to_block t')).
Context (Hroot : bt_commit_root_id t' = bt_commit_root_id t).

Lemma inserted_kept id lb :
  bt_id_to_block t !! id = Some lb →
  ∃ lb', bt_id_to_block t' !! id = Some lb' ∧ lb_executed_block lb' = lb_executed_block lb ∧
    lb_children lb ⊆ lb_children lb'.
Proof.
  intros Hid. assert (Hne : id ≠ block_id b) by congruence.
  destruct (inserted_old _ _ _ _ _ Hins Hne Hid) as (lb' & Hlb' & He). exists lb'. split_and!; [done..|].
  apply Hins in Hlb' as [[? _]|(_ & lb0 & ? & _ & ->)]; simplify_eq. case_bool_decide; set_solver.
Qed.

Lemma inserted_desc a id : desc (bt_id_to_block t) a id → desc (bt_id_to_block t') a id.
Proof.
  induction 1 as [|p lp c _ IH Hp Hc]; [constructor|].
  destruct (inserted_kept _ _ Hp) as (lp' & Hlp' & _ & Hsub). eapply desc_child; [exact IH|done|by apply Hsub].
Qed.

Lemma inserted_live id :
  is_Some (bt_id_to_block t' !! id) → anc (bt_commit_root_id t) id →
  desc (bt_id_to_block t') (bt_commit_root_id t) id.
Proof.
  intros [lb Hlb] Ha.
  apply Hins in Hlb as [[-> ->]|(_ & lb0 & Hlb0 & _)]; [|apply inserted_desc, (tv_live _ Ht); [by exists lb0|done]].
  destruct (to_root _ (tv_ok _ Ht)) as (lr & Hlr & _).
  inversion Ha as [Heq|? _ Ha']; subst; [congruence|]. destruct Hn as [_ Hp]. rewrite <- Hp in Ha'.
  destruct Hpar as [[lp Hlp]|Hg].
  - destruct (inserted_kept _ _ Hlp) as (lp' & Hlp' & _ & _). eapply desc_child; [|exact Hlp'|].
    + apply inserted_desc, (tv_live _ Ht); [by exists lp|done].
    + apply Hins in Hlp' as [[Heq _]|(_ & lp0 & _ & _ & ->)]; [congruence|].
      rewrite bool_decide_eq_true_2 by done. set_solver.
  - rewrite Hg in Ha', Hp. inversion Ha' as [Heq|? Hg0 _]; subst; [|by rewrite (nm_genesis Hnames) in Hg0].
    rewrite Heq in Hlr. destruct (inserted_kept _ _ Hlr) as (lr' & Hlr' & _ & _).
    eapply desc_child; [constructor|by rewrite Heq|].
    apply Hins in Hlr' as [[Hx _]|(_ & lp0 & _ & _ & ->)]; [congruence|].
    rewrite bool_decide_eq_true_2 by done. set_solver.
Qed.

Lemma inserted_tree_inv :
  bt_ordered_root_id t' = bt_ordered_root_id t → bt_highest_certified_block_id t' = bt_highest_certified_block_id t →
  bt_highest_commit_cert t' = bt_highest_commit_cert t → bt_pruned_block_ids t' = bt_pruned_block_ids t →
  bt_max_pruned_blocks_in_mem t' = bt_max_pruned_blocks_in_mem t → tree_inv t'.
Proof.
  intros Ho Hh Hc Hpr Hmax.
  assert (Hkept : ∀ id, is_Some (bt_id_to_block t !! id) → is_Some (bt_id_to_block t' !! id)).
  { intros id [lb Hlb]. destruct (inserted_kept _ _ Hlb) as (lb' & ? & _). by exists lb'. }
  split.
  - apply (inserted_tree_ok t _ b); try done. apply (tv_ok _ Ht).
  - intros id lb [[_ ->]|(_ & lb0 & Hlb0 & -> & _)]%Hins; [done|by apply (tv_named _ Ht id)].
  - rewrite Hroot. apply inserted_live.
  - rewrite Ho, Hroot. destruct (tv_ordered _ Ht). auto.
  - rewrite Hh. apply Hkept, (tv_certified _ Ht).
Qed.

Lemma inserted_get_block id :
  get_block t' id = if bool_decide (id = block_id b) then Some b else get_block t id.
Proof.
  unfold get_block, get_linkable_block. case_bool_decide as Hid.
  - subst id. assert (bt_id_to_block t' !! block_id b = Some (LinkableBlock_new b)) as -> by (apply Hins; by left). done.
  - destruct (bt_id_to_block t !! id) as [lb|] eqn:Hlb.
    + destruct (inserted_kept _ _ Hlb) as (lb' & -> & He & _). simpl. by rewrite He.
    + destruct (bt_id_to_block t' !! id) as [lb|] eqn:Hlb'; [|done].
      apply Hins in Hlb' as [[? _]|(_ & ? & ? & _)]; congruence.
Qed.

End inserted.

(** A new block above the ordered root is taken, or refused for want of its parent. *)
Lemma tree_insert_block t b :
  tree_inv t → named b → round_of (bt_ordered_root_id t) < Block_round b → get_block t (block_id b) = None →
  ∃ r t', insert_block true b t = (r, t') ∧ tree_inv t' ∧
    bt_ordered_root_id t' = bt_ordered_root_id t ∧ bt_commit_root_id t' = bt_commit_root_id t ∧
    bt_id_to_quorum_cert t' = bt_id_to_quorum_cert t ∧
    match r with
    | Ok b' => b' = b ∧ ∀ id, get_block t' id = if bool_decide (id = block_id b) then Some b else get_block t id
    | Err _ => bt_id_to_block t' = bt_id_to_block t
    | Panic _ => False
    end.
Proof.
  intros Ht Hn Hr Hnew. assert (Hz : Block_round b ≠ 0) by lia. apply get_block_None in Hnew as Hnone.
  destruct (decide (is_Some (bt_id_to_block t !! Block_parent_id b) ∨ Block_parent_id b = GENESIS_BLOCK_ID)) as [Hp|Hp].
  - destruct (insert_block_run true t b (to_links _ (tv_ok _ Ht)) (named_fits _ _ Ht Hn Hz) Hnone)
      as (m' & Hrun & Hins & Hlinks); [destruct Hp; [by left|right; split; [done|by apply named_not_parent]]|].
    exists (Ok b). eexists. split; [exact Hrun|]. split; [|split_and!; try by destruct (negb _)].
    + apply (inserted_tree_inv t _ b); try done; by destruct (negb _).
    + intros id. eapply inserted_get_block; try done; by destruct (negb _).
  - apply Decidable.not_or in Hp as [Hp Hg]. rewrite <- eq_None_not_Some in Hp.
    exists (Err (Msg "Parent block not found")), (if negb (Block_is_nil_block b) then set_head (block_id b) t else t).
    unfold insert_block, get_block, get_linkable_block.
    destruct (negb _); simpl; rewrite Hnone, Hp; simpl; rewrite bool_decide_eq_true_2 by done;
      (split; [done|]); (split; [|done]); try done.
    destruct (tv_ordered _ Ht). by apply (tree_inv_ext t); try done; apply (tv_certified _ Ht).
Qed.

(** A certificate for a block of the tree, or a refusal. *)
Lemma tree_insert_quorum_cert t qc :
  tree_inv t →
  ∃ r t', insert_quorum_cert qc t = (r, t') ∧ tree_inv t' ∧ (∀ m, r ≠ Panic m) ∧
    bt_id_to_block t' = bt_id_to_block t ∧
    bt_ordered_root_id t' = bt_ordered_root_id t ∧ bt_commit_root_id t' = bt_commit_root_id t ∧
    (r = Ok tt → bt_id_to_quorum_cert t' = or_insert_cert (bi_id (certified_block qc)) qc (bt_id_to_quorum_cert t)) ∧
    (r ≠ Ok tt → t' = t).
Proof.
  intros Ht. unfold insert_quorum_cert.
  destruct (get_block t _) as [b|] eqn:Hb; [|eexists _, t; split_and!; done].
  destruct (tv_certified _ Ht) as [lh Hh].
  assert (highest_certified_block t = Ok (lb_executed_block lh)) as ->.
  { unfold highest_certified_block, get_block, get_linkable_block. by rewrite Hh. }
  eexists _, _. split; [done|]. split; [|split_and!; try done; by destruct (_ <? _)].
  destruct (tv_ordered _ Ht) as [Ho Ha]. apply get_block_lookup in Hb as Hlb. destruct Hlb as (lb & Hlb & <-).
  destruct (tree_block _ _ _ Ht Hlb) as (Hid & _).
  apply (tree_inv_ext t); try done; destruct (_ <? _); simpl; rewrite ?Hid; eauto.
Qed.

Lemma tree_update_ordered_root t id :
  tree_inv t → is_Some (bt_id_to_block t !! id) → anc (bt_commit_root_id t) id →
  ∃ t', update_ordered_root id t = (Ok tt, t') ∧ tree_inv t' ∧ bt_ordered_root_id t' = id ∧
    bt_id_to_block t' = bt_id_to_block t ∧ bt_commit_root_id t' = bt_commit_root_id t ∧
    bt_id_to_quorum_cert t' = bt_id_to_quorum_cert t.
Proof.
  intros Ht Hid Ha. unfold update_ordered_root, block_exists. rewrite bool_decide_eq_true_2 by done.
  eexists. split; [done|]. split_and!; try done. apply (tree_inv_ext t); try done. apply (tv_certified _ Ht).
Qed.

Lemma tree_insert_ordered_cert t cert :
  tree_inv t → tree_inv (insert_ordered_cert cert t) ∧
    bt_ordered_root_id (insert_ordered_cert cert t) = bt_ordered_root_id t ∧
    bt_commit_root_id (insert_ordered_cert cert t) = bt_commit_root_id t ∧
    bt_id_to_block (insert_ordered_cert cert t) = bt_id_to_block t ∧
    bt_id_to_quorum_cert (insert_ordered_cert cert t) = bt_id_to_quorum_cert t.
Proof.
  intros Ht. unfold insert_ordered_cert. destruct (_ <? _); [|done]. split; [|done].
  destruct (tv_ordered _ Ht). by apply (tree_inv_ext t); try done; apply (tv_certified _ Ht).
Qed.

(** Pruning and the new root leave the ordered root, the certified block and what
    stays of the map as they were. *)
Lemma commit_callback_fields t blocks proof decision r t' :
  commit_callback blocks proof decision t = (r, t') →
  bt_ordered_root_id t' = bt_ordered_root_id t ∧
  bt_highest_certified_block_id t' = bt_highest_certified_block_id t ∧
  (∀ id lb, bt_id_to_block t' !! id = Some lb → bt_id_to_block t !! id = Some lb) ∧
  (∀ id qc, bt_id_to_quorum_cert t' !! id = Some qc → bt_id_to_quorum_cert t !! id = Some qc).
Proof.
  assert (Hremove : ∀ l t0, let t1 := foldl (λ t id, remove_block id t) t0 l in
    bt_ordered_root_id t1 = bt_ordered_root_id t0 ∧
    bt_highest_certified_block_id t1 = bt_highest_certified_block_id t0 ∧
    ∀ id qc, bt_id_to_quorum_cert t1 !! id = Some qc → bt_id_to_quorum_cert t0 !! id = Some qc).
  { induction l as [|x l IH]; intros t0; [done|]. simpl. destruct (IH (remove_block x t0)) as (-> & -> & Hq).
    split_and!; [done..|]. intros id qc Hid. apply Hq in Hid. simpl in Hid. by apply lookup_delete_Some in Hid as [_ ?]. }
  unfold commit_callback, update_highest_commit_cert, update_commit_and_finalized_root, mbind, M_bind, lift, gets, modify, mret, M_ret.
  intros H. repeat case_match; simplify_eq/=; try done; unfold process_pruned_blocks in *;
    match goal with
    | _ : context [foldl _ ?t0 ?l] |- _ => destruct (Hremove l t0) as (? & ? & ?)
    | |- context [foldl _ ?t0 ?l] => destruct (Hremove l t0) as (? & ? & ?)
    end; split_and!; try done; simpl; intros id lb; rewrite ?remove_blocks_lookup; case_bool_decide; done.
Qed.

(** A commit of a block between the commit root and the ordered root. *)
Record commit_ok t (blocks : list Block) (proof : WrappedLedgerInfo) (decision : LedgerInfoWithSignatures) b : Prop := {
  co_last : last blocks = Some b;
  co_known : get_block t (block_id b) = Some b;
  co_ordered : anc (bt_commit_root_id t) (block_id b) ∧ anc (block_id b) (bt_ordered_root_id t);
  co_certified : anc (block_id b) (bt_highest_certified_block_id t);
  co_proof : ∃ p, WrappedLedgerInfo_create_merged_with_executed_state proof decision = Ok p ∧
    bi_id (WrappedLedgerInfo_commit_info p) = block_id b ∧
    bi_round (WrappedLedgerInfo_commit_info p) = Block_round b;
}.

Lemma tree_commit t blocks proof decision b :
  tree_inv t → commit_ok t blocks proof decision b →
  ∃ t', commit_callback blocks proof decision t = (Ok tt, t') ∧ tree_inv t' ∧
    bt_ordered_root_id t' = bt_ordered_root_id t ∧
    (∀ id, anc (bt_ordered_root_id t) id → bt_id_to_block t' !! id = bt_id_to_block t !! id) ∧
    (∀ id lb, bt_id_to_block t' !! id = Some lb → bt_id_to_block t !! id = Some lb) ∧
    (∀ id qc, bt_id_to_quorum_cert t' !! id = Some qc → bt_id_to_quorum_cert t !! id = Some qc).
Proof.
  intros Ht [Hlast Hb [Hrb Hbo] Hbh (p & Hp & Hpid & Hpr)].
  destruct (to_root _ (tv_ok _ Ht)) as (lr & Hlr & _).
  destruct (tree_block _ _ _ Ht Hlr) as (_ & Hrr & _). destruct (get_block_id _ _ _ Ht Hb) as (_ & Hbr & _).
  apply get_block_lookup in Hb as Hlb. destruct Hlb as (lb & Hlb & Hle).
  assert (Hd : desc (bt_id_to_block t) (bt_commit_root_id t) (block_id b)) by (apply (tv_live _ Ht); eauto).
  destruct (decide (Block_round b ≤ lb_round lr)) as [Hold|Hnew].
  { exists t. split; [by eapply commit_callback_old|]. split_and!; done. }
  destruct (commit_callback_run t blocks proof decision b lr p) as (t' & Hrun & Hok & Hroot & Hkeep);
    try done; [apply Ht|lia|].
  destruct (commit_callback_fields _ _ _ _ _ _ Hrun) as (Ho & Hh & Hsub & Hqs).
  assert (Hfrom : ∀ id, is_Some (bt_id_to_block t !! id) → anc (block_id b) id → desc (bt_id_to_block t) (block_id b) id).
  { intros id Hid Ha. apply (desc_from t (bt_commit_root_id t)); try done.
    apply (tv_live _ Ht); [done|]. by eapply anc_trans. }
  assert (Hkept : ∀ id, anc (block_id b) id → bt_id_to_block t' !! id = bt_id_to_block t !! id).
  { intros id Ha. destruct (bt_id_to_block t !! id) as [l|] eqn:Hl; [by apply Hkeep; [apply Hfrom; eauto|]|].
    destruct (bt_id_to_block t' !! id) as [l|] eqn:Hl'; [|done]. apply Hsub in Hl'. congruence. }
  exists t'. split; [done|]. split; [|split_and!; try done].
  - split; [done| | | |].
    + intros id l Hl. by apply (tv_named _ Ht id), Hsub.
    + rewrite Hroot. intros id [l Hl] Ha. eapply desc_kept; [apply Hfrom; [eauto|done]|]. done.
    + rewrite Ho, Hroot, Hkept by done. split; [apply (tv_ordered _ Ht)|done].
    + rewrite Hh, Hkept by done. apply (tv_certified _ Ht).
  - intros id Ha. apply Hkept. by apply (anc_trans _ (bt_ordered_root_id t)).
Qed.

(** ** Chains of ids *)

(** [l] leads from [a] to [z] by parent links, without [a]. *)
Fixpoint linked (a : HashValue) (l : list HashValue) (z : HashValue) : Prop :=
  match l with
  | [] => a = z
  | x :: l => parent_of x = a ∧ round_of x ≠ 0 ∧ linked x l z
  end.

Lemma linked_app a l1 m l2 z : linked a l1 m → linked m l2 z → linked a (l1 ++ l2) z.
Proof.
  revert a. induction l1 as [|x l1 IH]; intros a; simpl; [by intros ->|].
  intros (? & ? & ?) ?. split_and!; [done..|]. by apply IH.
Qed.

Lemma linked_anc a l z : linked a l z → anc a z ∧ ∀ x, x ∈ l → anc a x ∧ anc x z ∧ round_of a < round_of x.
Proof.
  revert a. induction l as [|y l IH]; intros a; simpl.
  { intros ->. split; [constructor|]. intros x Hx. by apply not_elem_of_nil in Hx. }
  intros (<- & Hr & Hl). destruct (IH _ Hl) as [Hz Hall].
  assert (Hay : anc (parent_of y) y) by (apply anc_step; [done|constructor]).
  pose proof (nm_lt Hnames _ Hr) as Hlt. split; [by eapply anc_trans|].
  intros x [->|Hx]%elem_of_cons; [done|]. destruct (Hall x Hx) as (? & ? & ?).
  split_and!; [by eapply anc_trans|done|lia].
Qed.

Lemma linked_NoDup a l z : linked a l z → NoDup l.
Proof.
  revert a. induction l as [|y l IH]; intros a; [constructor|]. simpl. intros (_ & _ & Hl).
  constructor; [|by eapply IH]. intros Hy. apply linked_anc in Hl as [_ Hall]. destruct (Hall y Hy) as (_ & _ & ?). lia.
Qed.

Lemma linked_last a l z : linked a l z → default a (last l) = z.
Proof.
  revert a. induction l as [|y l IH]; intros a; [done|]. intros (_ & _ & Hl). apply IH in Hl.
  rewrite last_cons. by destruct (last l).
Qed.

Lemma ancestry_linked t root id path lr :
  tree_inv t → bt_id_to_block t !! root = Some lr → ancestry (bt_id_to_block t) root id path →
  linked root (block_id <$> path) id ∧ ∀ b, b ∈ path → get_block t (block_id b) = Some b.
Proof.
  intros Ht Hroot Hanc. split.
  2:{ intros b Hb. destruct (ancestry_bounds t root lr (to_links _ (tv_ok _ Ht)) Hroot _ _ Hanc) as (lb & _ & _ & _ & _ & Hall).
      by apply Hall. }
  induction Hanc as [|id lb path Hid Hanc IH]; [done|]. destruct (tree_block _ _ _ Ht Hid) as (Hi & Hr & Hp).
  rewrite fmap_app. eapply linked_app; [exact IH|]. simpl. rewrite Hi. split_and!; [done| |done].
  destruct (ancestry_bounds t root lr (to_links _ (tv_ok _ Ht)) Hroot _ _ Hanc) as (lp & Hlp & _).
  pose proof (lo_below _ (to_links _ (tv_ok _ Ht)) _ _ _ Hid Hlp). lia.
Qed.

(** The path from the ordered root to a block of the tree that has it as ancestor. *)
Lemma ordered_path_found s id :
  tree_inv (bs_inner s) → is_Some (bt_id_to_block (bs_inner s) !! id) →
  anc (bt_ordered_root_id (bs_inner s)) id →
  ∃ path, ordered_path s id = Ok path ∧ linked (bt_ordered_root_id (bs_inner s)) (block_id <$> path) id ∧
    ∀ b, b ∈ path → get_block (bs_inner s) (block_id b) = Some b.
Proof.
  intros Ht Hid Ha. destruct (tv_ordered _ Ht) as [[lr Hr] Hro].
  assert (Hd : desc (bt_id_to_block (bs_inner s)) (bt_ordered_root_id (bs_inner s)) id).
  { apply (desc_from _ (bt_commit_root_id (bs_inner s))); try done. apply (tv_live _ Ht); [done|]. by eapply anc_trans. }
  assert (Hanc : ∃ path, ancestry (bt_id_to_block (bs_inner s)) (bt_ordered_root_id (bs_inner s)) id path).
  { clear Hid Ha. induction Hd as [|p lp c _ [path IH] Hp Hc]; [eexists; constructor|].
    destruct (lo_child _ (to_links _ (tv_ok _ Ht)) _ _ _ Hp Hc) as (lc & Hlc & Hpar & _).
    eexists. eapply ancestry_step; [exact Hlc|]. by rewrite Hpar. }
  destruct Hanc as [path Hanc]. exists path. split; [|by eapply ancestry_linked].
  unfold ordered_path, path_from_ordered_root, ordered_root, get_block, get_linkable_block. rewrite Hr. simpl.
  change (Block_round (lb_executed_block lr)) with (lb_round lr).
  apply (path_from_root_spec _ _ _ (to_links _ (tv_ok _ Ht)) Hr) in Hanc. by rewrite Hanc.
Qed.

(** ... and whatever is found is a chain of the tree. *)
Lemma ordered_path_linked s id path :
  tree_inv (bs_inner s) → ordered_path s id = Ok path → path ≠ [] →
  linked (bt_ordered_root_id (bs_inner s)) (block_id <$> path) id ∧
  ∀ b, b ∈ path → get_block (bs_inner s) (block_id b) = Some b.
Proof.
  intros Ht. destruct (tv_ordered _ Ht) as [[lr Hr] _].
  unfold ordered_path, path_from_ordered_root, ordered_root, get_block, get_linkable_block. rewrite Hr. simpl.
  change (Block_round (lb_executed_block lr)) with (lb_round lr).
  destruct (path_from_root_to_block _ _ _ _) as [p|] eqn:Hp; simpl; [|by intros [= <-]].
  intros [= <-] _. apply (path_from_root_spec _ _ _ (to_links _ (tv_ok _ Ht)) Hr) in Hp. by eapply ancestry_linked.
Qed.

(** ** Numbering *)

(** The number of a block is that of its parent plus one. *)
Context (number_of : HashValue → N).
Context (Hnumber : ∀ id, round_of id ≠ 0 → number_of id = number_of (parent_of id) + 1).

Definition same_block (lb lb' : LinkableBlock) : Prop :=
  lb_children lb' = lb_children lb ∧ block_id (lb_executed_block lb') = block_id (lb_executed_block lb) ∧
  block_block_data (lb_executed_block lb') = block_block_data (lb_executed_block lb).

(** The same tree up to block numbers. *)
Definition renumbered t t' : Prop :=
  ∃ m', t' = set_id_to_block m' t ∧ ∀ id, option_Forall2 same_block (bt_id_to_block t !! id) (m' !! id).

#[local] Instance same_block_equiv : Equivalence same_block.
Proof.
  split; [done|by intros ?? (? & ? & ?)|].
  intros ??? (? & ? & ?) (? & ? & ?). split_and!; congruence.
Qed.

Lemma renumbered_refl t : renumbered t t.
Proof. exists (bt_id_to_block t). split; [by destruct t|]. intros id. by destruct (_ !! _); constructor. Qed.

Lemma renumbered_trans t1 t2 t3 : renumbered t1 t2 → renumbered t2 t3 → renumbered t1 t3.
Proof.
  intros (m2 & -> & H2) (m3 & -> & H3). exists m3. split; [by destruct t1|]. intros id.
  specialize (H2 id). specialize (H3 id). simpl in H3.
  destruct H2 as [lb1 lb2 H2|]; inversion H3; subst; constructor. by etrans.
Qed.

Section renumbered.
Context t t' (Ht : tree_inv t) (Hre : renumbered t t').

Lemma renumbered_lookup id lb' :
  bt_id_to_block t' !! id = Some lb' → ∃ lb, bt_id_to_block t !! id = Some lb ∧ same_block lb lb'.
Proof.
  destruct Hre as (m' & -> & Hm). simpl. intros Hid. specialize (Hm id). rewrite Hid in Hm.
  inversion Hm; subst. eauto.
Qed.

Lemma renumbered_lookup_old id lb :
  bt_id_to_block t !! id = Some lb → ∃ lb', bt_id_to_block t' !! id = Some lb' ∧ same_block lb lb'.
Proof.
  destruct Hre as (m' & -> & Hm). simpl. intros Hid. specialize (Hm id). rewrite Hid in Hm.
  inversion Hm; subst. eauto.
Qed.

Lemma renumbered_desc a id : desc (bt_id_to_block t') a id ↔ desc (bt_id_to_block t) a id.
Proof.
  split; induction 1 as [|p lp c _ IH Hp Hc]; [constructor| |constructor|].
  - apply renumbered_lookup in Hp as (lp0 & Hp & Hch & _). eapply desc_child; [done..|]. by rewrite <- Hch.
  - apply renumbered_lookup_old in Hp as (lp0 & Hp & Hch & _). eapply desc_child; [done..|]. by rewrite Hch.
Qed.

Lemma same_block_round lb lb' : same_block lb lb' → lb_round lb' = lb_round lb ∧ lb_parent lb' = lb_parent lb.
Proof. intros (_ & _ & Hd). unfold lb_round, lb_parent, Block_round, Block_parent_id, Block_quorum_cert. by rewrite Hd. Qed.

Lemma renumbered_links : links_ok (bt_id_to_block t').
Proof.
  pose proof (to_links _ (tv_ok _ Ht)) as [H1 H2 H3]. split.
  - intros id lb (lb0 & Hid & _ & -> & _)%renumbered_lookup. by apply H1.
  - intros p lp c (lp0 & Hp & Hs)%renumbered_lookup Hc. destruct (same_block_round _ _ Hs) as [-> _].
    destruct Hs as (Hch & _). rewrite Hch in Hc. destruct (H2 _ _ _ Hp Hc) as (lc & Hlc & <- & Hlt).
    destruct (renumbered_lookup_old _ _ Hlc) as (lc' & Hlc' & Hs'). exists lc'.
    by destruct (same_block_round _ _ Hs') as [-> ->].
  - intros c lc lp (lc0 & Hc & Hs)%renumbered_lookup. destruct (same_block_round _ _ Hs) as [-> ->].
    intros (lp0 & Hp & Hs')%renumbered_lookup. destruct (same_block_round _ _ Hs') as [-> _]. by eapply H3.
Qed.

Lemma renumbered_tree_ok : tree_ok t'.
Proof.
  destruct (tv_ok _ Ht) as [_ (lr & Hr & Hc) H3 H4 H5 [H6 H7] H8].
  assert (Hf : bt_commit_root_id t' = bt_commit_root_id t ∧ bt_highest_commit_cert t' = bt_highest_commit_cert t ∧
    bt_pruned_block_ids t' = bt_pruned_block_ids t ∧ bt_max_pruned_blocks_in_mem t' = bt_max_pruned_blocks_in_mem t)
    by (by destruct Hre as (m' & -> & _)).
  destruct Hf as (Hf1 & Hf2 & Hf3 & Hf4).
  split; rewrite ?Hf1, ?Hf2, ?Hf3, ?Hf4; [apply renumbered_links| | | | | |done].
  - destruct (renumbered_lookup_old _ _ Hr) as (lr' & Hr' & Hs). exists lr'.
    by destruct (same_block_round _ _ Hs) as [-> _].
  - intros l1 c l2 p lp Heq (lp0 & Hp & Hch & _)%renumbered_lookup Hc'. rewrite Hch in Hc'. by eapply H3.
  - intros id Hid Hd. apply renumbered_desc in Hd. by eapply H4.
  - intros p lp (lp0 & Hp & Hch & _)%renumbered_lookup Hc'. rewrite Hch in Hc'. by eapply H5.
  - split; [done|]. intros id Hid. destruct (H7 _ Hid) as [lb Hlb].
    destruct (renumbered_lookup_old _ _ Hlb) as (lb' & ? & _). by exists lb'.
Qed.

Lemma renumbered_tree_inv : tree_inv t'.
Proof.
  assert (Hf : bt_commit_root_id t' = bt_commit_root_id t ∧ bt_ordered_root_id t' = bt_ordered_root_id t ∧
    bt_highest_certified_block_id t' = bt_highest_certified_block_id t) by (by destruct Hre as (m' & -> & _)).
  destruct Hf as (Hf1 & Hf2 & Hf3).
  assert (Hold : ∀ id, is_Some (bt_id_to_block t !! id) → is_Some (bt_id_to_block t' !! id)).
  { intros id [lb Hlb]. destruct (renumbered_lookup_old _ _ Hlb) as (lb' & ? & _). by exists lb'. }
  split; rewrite ?Hf1, ?Hf2, ?Hf3.
  - apply renumbered_tree_ok.
  - intros id lb (lb0 & Hid & _ & Hi & Hd)%renumbered_lookup. destruct (tv_named _ Ht _ _ Hid) as [Hr Hp].
    split; rewrite Hi; [rewrite <- Hr|rewrite <- Hp];
      unfold Block_round, Block_parent_id, Block_quorum_cert; by rewrite Hd.
  - intros id [lb (lb0 & Hid & _)%renumbered_lookup] Ha. apply renumbered_desc, (tv_live _ Ht); [by exists lb0|done].
  - destruct (tv_ordered _ Ht). auto.
  - apply Hold, (tv_certified _ Ht).
Qed.

End renumbered.

(** The blocks of the tree have their number or none. *)
Definition numbers_ok t : Prop :=
  ∀ id b, get_block t id = Some b →
    number_of id ≤ u64_max ∧ ∀ n, block_block_number b = Some n → n = number_of id.

Definition tree_numbered t id : Prop := block_block_number <$> get_block t id = Some (Some (number_of id)).

Lemma get_block_numbered t id number x :
  get_block (set_tree_block_number id number t) x
  = if bool_decide (x = id) then (λ b, (set_block_number b number).1) <$> get_block t x else get_block t x.
Proof.
  unfold get_block, get_linkable_block, set_tree_block_number. simpl. case_bool_decide as Hx.
  - subst x. rewrite lookup_alter_eq. by destruct (_ !! _).
  - by rewrite lookup_alter_ne.
Qed.

Lemma set_tree_block_number_renumbered t id number : renumbered t (set_tree_block_number id number t).
Proof.
  eexists. split; [done|]. intros x. destruct (decide (x = id)) as [->|Hne].
  - rewrite lookup_alter_eq. destruct (_ !! _) as [lb|]; constructor. split_and!; [done|..];
      by unfold set_block_number; destruct (once_cell_set _ _).
  - rewrite lookup_alter_ne by done. destruct (_ !! _); by constructor.
Qed.

(** Giving a block of the tree the number it should have. *)
Lemma numbered_step t b :
  tree_inv t → numbers_ok t → get_block t (block_id b) = Some b →
  let t' := set_tree_block_number (block_id b) (number_of (block_id b)) t in
  numbers_ok t' ∧ tree_numbered t' (block_id b) ∧ (∀ x, tree_numbered t x → tree_numbered t' x) ∧
  ∀ x, x ≠ block_id b → get_block t' x = get_block t x.
Proof.
  intros Ht Hn Hb t'.
  assert (Hget : ∀ x, x ≠ block_id b → get_block t' x = get_block t x).
  { intros x Hx. unfold t'. rewrite get_block_numbered. by rewrite bool_decide_eq_false_2. }
  assert (Hnum : tree_numbered t' (block_id b)).
  { unfold tree_numbered, t'. rewrite get_block_numbered, bool_decide_eq_true_2 by done. rewrite Hb. simpl.
    unfold set_block_number, once_cell_set. destruct (block_block_number b) as [n|] eqn:Hbn; simpl; [|done].
    by rewrite (proj2 (Hn _ _ Hb) n). }
  assert (Hkeep : ∀ x, tree_numbered t x → tree_numbered t' x).
  { intros x Hx. destruct (decide (x = block_id b)) as [->|Hne]; [done|]. unfold tree_numbered. by rewrite Hget. }
  split_and!; try done. intros x bx Hbx. destruct (decide (x = block_id b)) as [->|Hne].
  - unfold tree_numbered in Hnum. rewrite Hbx in Hnum. simplify_eq/=. split; [by apply (Hn _ b)|].
    intros n Hn'. congruence.
  - rewrite Hget in Hbx by done. by apply Hn.
Qed.

Lemma next_block_number_Ok s b :
  tree_inv (bs_inner s) → numbers_ok (bs_inner s) → get_block (bs_inner s) (block_id b) = Some b →
  round_of (block_id b) ≠ 0 → tree_numbered (bs_inner s) (parent_of (block_id b)) →
  next_block_number s b = Ok (number_of (block_id b)).
Proof.
  intros Ht Hn Hb Hr Hp. destruct (get_block_id _ _ _ Ht Hb) as (_ & _ & Hpar).
  unfold next_block_number. unfold tree_numbered in Hp. rewrite Hpar.
  destruct (get_block (bs_inner s) (parent_of (block_id b))) as [pb|]; [|done]. simpl in *. simplify_eq.
  rewrite Hp. simpl. rewrite (Hnumber (block_id b)) by done. apply add_u64_fits.
  rewrite <- Hnumber by done. by apply (Hn _ b).
Qed.

(** The numbers given are the right ones, and they are those of the blocks that got one. *)
Definition numbers_given t t' (nums : list (N * N * HashValue)) : Prop :=
  (∀ e n i, (e, n, i) ∈ nums → n = number_of i) ∧
  ∀ id b, get_block t' id = Some b → ∃ b0, get_block t id = Some b0 ∧
    block_block_data b = block_block_data b0 ∧ block_id b = block_id b0 ∧
    (block_block_number b = block_block_number b0 ∨ (Block_epoch b, number_of id, id) ∈ nums).

Lemma numbers_given_nothing t : numbers_given t t [].
Proof. split; [by intros ??? ?%not_elem_of_nil|]. intros id b Hb. exists b. auto. Qed.

Lemma numbers_given_step t b t' nums :
  tree_inv t → get_block t (block_id b) = Some b → block_block_number b = None →
  numbers_given (set_tree_block_number (block_id b) (number_of (block_id b)) t) t' nums →
  numbers_given t t' ((Block_epoch b, number_of (block_id b), block_id b) :: nums).
Proof.
  intros Ht Hb Hbn [H1 H2]. split; [by intros e n i [[= -> -> ->]|?%H1]%elem_of_cons|].
  intros id x (x0 & Hx0 & Hd & Hi & Hx)%H2. rewrite get_block_numbered in Hx0. case_bool_decide as Hid; simplify_eq.
  - rewrite Hb in Hx0. simpl in Hx0. simplify_eq. exists b.
    unfold set_block_number, once_cell_set in *. rewrite Hbn in *. simpl in *. split_and!; try done. right.
    apply elem_of_cons. left. unfold Block_epoch. by rewrite Hd.
  - exists x0. split_and!; try done. destruct Hx; [by left|right; apply elem_of_cons; by right].
Qed.

(** The loop of [init_block_number] on a chain above a block that has its number. *)
Lemma number_blocks_run l s p z :
  tree_inv (bs_inner s) → numbers_ok (bs_inner s) → tree_numbered (bs_inner s) p →
  linked p (block_id <$> l) z → (∀ b, b ∈ l → get_block (bs_inner s) (block_id b) = Some b) →
  runs (number_blocks l) s (λ nums s', ∃ t', s' = with_inner t' s ∧ renumbered (bs_inner s) t' ∧ numbers_ok t' ∧
    (∀ x, tree_numbered (bs_inner s) x → tree_numbered t' x) ∧ (∀ b, b ∈ l → tree_numbered t' (block_id b)) ∧
    numbers_given (bs_inner s) t' nums).
Proof.
  revert s p. induction l as [|b l IH]; intros s p Ht Hn Hp Hl Hall.
  { apply runs_ret. exists (bs_inner s). split; [by destruct s|]. split_and!; try done;
      [apply renumbered_refl|by intros b Hb%not_elem_of_nil|apply numbers_given_nothing]. }
  apply linked_NoDup in Hl as Hnd. destruct Hl as (<- & Hr & Hl). inversion Hnd as [|? ? Hnotin _]; subst.
  assert (Hb : get_block (bs_inner s) (block_id b) = Some b) by (apply Hall; set_solver).
  simpl. apply runs_bind. eapply runs_gets; [by apply next_block_number_Ok|].
  destruct (block_block_number b) as [n|] eqn:Hbn.
  - apply runs_bind. eapply runs_lift; [by rewrite (proj2 (Hn _ _ Hb) n Hbn), N.eqb_refl|].
    assert (Hnum : tree_numbered (bs_inner s) (block_id b)).
    { unfold tree_numbered. rewrite Hb. simpl. by rewrite Hbn, (proj2 (Hn _ _ Hb) n Hbn). }
    eapply runs_mono; [apply (IH s (block_id b)); try done; set_solver|].
    intros nums s' (t' & -> & Hre & Hn' & Hkeep & Hl' & Hg). exists t'. split_and!; try done.
    intros b' [->|Hb']%elem_of_cons; auto.
  - destruct (numbered_step _ _ Ht Hn Hb) as (Hn1 & Hb1 & Hkeep1 & Hget1).
    set (t1 := set_tree_block_number (block_id b) (number_of (block_id b)) (bs_inner s)) in *.
    pose proof (set_tree_block_number_renumbered (bs_inner s) (block_id b) (number_of (block_id b))) as Hre1.
    fold t1 in Hre1. apply runs_bind. eapply runs_eq; [done|]. apply runs_bind.
    eapply runs_mono; [apply (IH (with_inner t1 s) (block_id b)); try done|].
    + by apply (renumbered_tree_inv (bs_inner s)).
    + intros b' Hb'. simpl. rewrite Hget1; [apply Hall; set_solver|]. intros Heq. apply Hnotin. rewrite <- Heq.
      by apply list_elem_of_fmap_2.
    + intros nums s' (t' & -> & Hre & Hn' & Hkeep & Hl' & Hg). apply runs_ret. exists t'. split_and!; try done.
      * by apply (renumbered_trans _ t1).
      * auto.
      * intros b' [->|Hb']%elem_of_cons; auto.
      * by apply numbers_given_step.
Qed.

(** The numbers of a chain are given and stored. *)
Lemma init_block_number_run l s z :
  tree_inv (bs_inner s) → numbers_ok (bs_inner s) → tree_numbered (bs_inner s) (bt_ordered_root_id (bs_inner s)) →
  linked (bt_ordered_root_id (bs_inner s)) (block_id <$> l) z →
  (∀ b, b ∈ l → get_block (bs_inner s) (block_id b) = Some b) →
  runs (init_block_number l) s (λ _ s', ∃ t' w' nums, s' = with_proxy w' (with_inner t' s) ∧
    saved [] [] nums (contents (bs_storage s)) (contents w') ∧ numbers_given (bs_inner s) t' nums ∧
    renumbered (bs_inner s) t' ∧ numbers_ok t' ∧
    (∀ x, tree_numbered (bs_inner s) x → tree_numbered t' x) ∧ ∀ b, b ∈ l → tree_numbered t' (block_id b)).
Proof.
  intros Ht Hn Hp Hl Hall. unfold init_block_number. apply runs_bind.
  eapply runs_mono; [by eapply number_blocks_run|]. intros nums s' (t' & -> & Hre & Hn' & Hkeep & Hl' & Hg).
  case_bool_decide as Hlen.
  - apply length_zero_iff_nil in Hlen as ->. apply runs_ret. exists t', (bs_storage s), [].
    split_and!; try done. apply saved_nothing.
  - destruct (save_tree_accepted [] [] nums (bs_storage s)) as (w' & Hw & Hs); [by intros ? ?%not_elem_of_nil|]. unfold or_unwind, on_storage, runs. simpl.
    rewrite Hw. simpl. exists t', w', nums. split_and!; done.
Qed.

(** ** The invariant of the store *)

Abbreviation root_id s := (bt_ordered_root_id (bs_inner s)).

Record store_inv s : Prop := {
  si_tree : tree_inv (bs_inner s);
  si_open : sc_execute_tx (bs_config s) = true;
  si_sent id : pc_insertion_time (cells_of s id) = true → round_of id ≤ round_of (root_id s);
  si_root : tree_numbered (bs_inner s) (root_id s);
  si_numbers : numbers_ok (bs_inner s);
}.

(** *** What is in the database

    [data_of] gives the contents of the block with an id. *)

Context (data_of : HashValue → BlockData).

(** The tables hold for an id the block with that id and a certificate of it. *)
Record tables_named (m : gmap (string * bytes) bytes) : Prop := {
  tn_blocks e id vb : m !! ("block", epoch_hash_bytes (e, id)) = Some vb →
    ∃ sig n, bcs_block_fields (data_of id, sig, n) = Ok vb;
  tn_certs e id vb : m !! ("quorum_certificate", epoch_hash_bytes (e, id)) = Some vb →
    ∃ qc, bcs_quorum_cert qc = Ok vb ∧ bi_id (certified_block qc) = id;
}.

(** What the tree has is in the database. *)
Record durable s : Prop := {
  du_tables : tables_named (contents (bs_storage s));
  du_data id b : get_block (bs_inner s) id = Some b → block_block_data b = data_of id;
  du_block id b : get_block (bs_inner s) id = Some b →
    is_Some (contents (bs_storage s) !! ("block", epoch_hash_bytes (block_key b)));
  du_number id b n : get_block (bs_inner s) id = Some b → block_block_number b = Some n →
    contents (bs_storage s) !! ("block_number", epoch_hash_bytes (block_key b)) = Some (to_be_bytes 8 n);
  du_cert id qc : get_quorum_cert_for_block s id = Some qc → bi_id (certified_block qc) = id ∧
    is_Some (contents (bs_storage s) !! ("quorum_certificate", epoch_hash_bytes (cert_key qc)));
}.

Lemma epoch_hash_bytes_id e id key : epoch_hash_bytes (e, id) = epoch_hash_bytes key → id = key.2.
Proof.
  unfold epoch_hash_bytes. intros Heq. apply app_inj_1 in Heq as [_ Heq]; [|by rewrite !length_to_be_bytes].
  simpl in Heq. pose proof (hash_from_to_vec id) as H1. rewrite Heq, hash_from_to_vec in H1. congruence.
Qed.

Lemma tables_saved blocks qcs nums m m' :
  saved blocks qcs nums m m' → tables_named m → (∀ b, b ∈ blocks → block_block_data b = data_of (block_id b)) →
  tables_named m'.
Proof.
  intros Hs [H1 H2] Hd. split; intros e id vb Hvb.
  - destruct (sv_cases _ _ _ _ _ Hs "block" (epoch_hash_bytes (e, id)))
      as [Heq|[(b & data & Hb & _ & Hk & Hbcs & Heq)|[(? & ? & _ & ? & _)|(? & ? & ? & _ & ? & _)]]]; try done.
    + rewrite Heq in Hvb. by eapply H1.
    + apply epoch_hash_bytes_id in Hk. simpl in Hk. subst id. rewrite Heq in Hvb. simplify_eq.
      rewrite <- (Hd b Hb). by eexists _, _.
  - destruct (sv_cases _ _ _ _ _ Hs "quorum_certificate" (epoch_hash_bytes (e, id)))
      as [Heq|[(? & ? & _ & ? & _)|[(qc & data & Hq & _ & Hk & Hbcs & Heq)|(? & ? & ? & _ & ? & _)]]]; try done.
    + rewrite Heq in Hvb. by eapply H2.
    + apply epoch_hash_bytes_id in Hk. simpl in Hk. subst id. rewrite Heq in Hvb. simplify_eq. by exists qc.
Qed.

(** A step that saves what it adds to the tree. *)
Lemma durable_step s s' blocks qcs nums :
  store_inv s → store_inv s' → durable s → saved blocks qcs nums (contents (bs_storage s)) (contents (bs_storage s')) →
  (∀ b, b ∈ blocks → block_block_data b = data_of (block_id b)) →
  (∀ e n i, (e, n, i) ∈ nums → n = number_of i) →
  (∀ id b, get_block (bs_inner s') id = Some b →
     (∃ b0, get_block (bs_inner s) id = Some b0 ∧ block_block_data b = block_block_data b0 ∧ block_id b = block_id b0 ∧
        (block_block_number b = block_block_number b0 ∨ (Block_epoch b, number_of id, id) ∈ nums)) ∨
     b ∈ blocks ∧ block_block_number b = None) →
  (∀ id qc, get_quorum_cert_for_block s' id = Some qc →
     get_quorum_cert_for_block s id = Some qc ∨ qc ∈ qcs ∧ bi_id (certified_block qc) = id) →
  durable s'.
Proof.
  intros Hi Hi' [D1 D2 D3 D4 D5] Hs Hd Hn Hb Hq. split.
  - by eapply tables_saved.
  - intros id b Hget. destruct (get_block_id _ _ _ (si_tree _ Hi') Hget) as (Hid & _).
    destruct (Hb _ _ Hget) as [(b0 & Hb0 & -> & _)|[Hin _]]; [by apply D2|]. rewrite <- Hid. by apply Hd.
  - intros id b [(b0 & Hb0 & Hdata & Hid & _)|[Hin _]]%Hb; [|by apply (sv_blocks _ _ _ _ _ Hs)].
    apply (saved_kept _ _ _ _ _ _ Hs). unfold block_key, Block_epoch. rewrite Hdata, Hid. by apply (D3 id).
  - intros id b n Hget Hbn. destruct (get_block_id _ _ _ (si_tree _ Hi') Hget) as (Hid & _).
    pose proof (proj2 (si_numbers _ Hi' _ _ Hget) n Hbn) as ->.
    destruct (Hb _ _ Hget) as [(b0 & Hb0 & Hdata & Hid0 & [Heq|Hin])|[_ ?]]; [| |congruence].
    + assert (Hk : block_key b = block_key b0) by (unfold block_key, Block_epoch; by rewrite Hdata, Hid0).
      rewrite Heq in Hbn. pose proof (D4 _ _ _ Hb0 Hbn) as Hold. rewrite <- Hk in Hold.
      destruct (sv_cases _ _ _ _ _ Hs "block_number" (epoch_hash_bytes (block_key b)))
        as [->|[(? & ? & _ & ? & _)|[(? & ? & _ & ? & _)|(e & n & i & Hin & _ & Hki & ->)]]]; try done.
      apply epoch_hash_bytes_id in Hki. simpl in Hki. subst i. by rewrite (Hn _ _ _ Hin), Hid.
    + destruct (sv_numbers _ _ _ _ _ Hs _ _ _ Hin) as (e & n & i & Hin' & Hki & Hl).
      apply epoch_hash_bytes_id in Hki. simpl in Hki. subst i. unfold block_key. rewrite Hid, Hl.
      by rewrite (Hn _ _ _ Hin').
  - intros id qc [Hold|[Hin Hid]]%Hq; [|split; [done|by apply (sv_certs _ _ _ _ _ Hs)]].
    destruct (D5 _ _ Hold) as [? ?]. split; [done|]. by apply (saved_kept _ _ _ _ _ _ Hs).
Qed.

(** ... and one that leaves the database and what it keeps of the tree. *)
Lemma durable_kept s s' :
  store_inv s → store_inv s' → (∀ cf kb, cf ≠ "single_entry" → contents (bs_storage s') !! (cf, kb) = contents (bs_storage s) !! (cf, kb)) →
  (∀ id b, get_block (bs_inner s') id = Some b → get_block (bs_inner s) id = Some b) →
  (∀ id qc, get_quorum_cert_for_block s' id = Some qc → get_quorum_cert_for_block s id = Some qc) →
  durable s → durable s'.
Proof.
  intros Hi Hi' Hs Hb Hq [[D1 D1'] D2 D3 D4 D5]. split; [split| | | |].
  - intros e id vb. rewrite Hs by done. apply D1.
  - intros e id vb. rewrite Hs by done. apply D1'.
  - intros id b Hget%Hb. by apply D2.
  - intros id b Hget%Hb. rewrite Hs by done. by apply (D3 id).
  - intros id b n Hget%Hb. rewrite Hs by done. by apply (D4 id).
  - intros id qc Hget%Hq. rewrite Hs by done. by apply D5.
Qed.

(** The blocks sent to the pipeline, in order. *)
Definition sent_blocks (l : list StoreOutput) : list Block :=
  o ← l; match o with FinalizeOrder blocks _ _ => plb_block <$> blocks | _ => [] end.

(** A batch for the pipeline is numbered and comes with a certificate that commits
    its last block. *)
Definition batch_ok (o : StoreOutput) : Prop :=
  match o with
  | FinalizeOrder blocks ordered_proof proof =>
      ordered_proof = wli_signed_ledger_info proof ∧
      (plb_id <$> last blocks) = Some (bi_id (WrappedLedgerInfo_commit_info proof)) ∧
      Forall (λ x, block_block_number (plb_block x) = Some (number_of (plb_id x))) blocks
  | _ => True
  end.

(** What a step of the store sends: a chain from the ordered root before to the one
    after it. *)
Definition sends (a : HashValue) (outs : list StoreOutput) (z : HashValue) : Prop :=
  linked a (block_id <$> sent_blocks outs) z ∧ Forall batch_ok outs.

Definition advance s s' : Prop :=
  store_inv s' ∧ (durable s → durable s') ∧
  ∃ outs, bs_sent s' = bs_sent s ++ outs ∧ sends (root_id s) outs (root_id s').

Lemma advance_trans s1 s2 s3 : advance s1 s2 → advance s2 s3 → advance s1 s3.
Proof.
  intros (_ & Hd1 & o1 & He1 & Hl1 & Hb1) (Hi & Hd2 & o2 & He2 & Hl2 & Hb2). split; [done|]. split; [auto|]. exists (o1 ++ o2).
  split; [by rewrite He2, He1, app_assoc|]. split; [|by apply Forall_app].
  unfold sent_blocks. rewrite bind_app, fmap_app. by eapply linked_app.
Qed.

(** A step that sends nothing to the pipeline and leaves the ordered root. *)
Definition quiet (o : StoreOutput) : Prop := match o with FinalizeOrder _ _ _ => False | _ => True end.

Lemma advance_quiet s s' outs :
  store_inv s' → (durable s → durable s') → bs_sent s' = bs_sent s ++ outs → root_id s' = root_id s →
  Forall quiet outs → advance s s'.
Proof.
  intros Hi Hd He Hr Hq. split; [done|]. split; [done|]. exists outs. split; [done|]. split.
  - assert (sent_blocks outs = []) as ->; [|by rewrite Hr]. clear He.
    induction Hq as [|o outs Ho _ IH]; [done|]. unfold sent_blocks in *.
    rewrite (bind_app _ [o] outs), IH. by destruct o.
  - eapply Forall_impl; [exact Hq|]. by intros [].
Qed.

Lemma advance_refl s : store_inv s → advance s s.
Proof. intros Hi. by apply (advance_quiet s s []); [| |rewrite app_nil_r| |]. Qed.

(** ** Sending *)

Lemma set_insertion_times_run l s :
  NoDup (block_id <$> l) → (∀ b, b ∈ l → pc_insertion_time (cells_of s (block_id b)) = false) →
  runs (set_insertion_times l) s (λ _ s', ∃ c, s' = with_cells c s ∧
    ∀ id, pc_insertion_time (cells_of s' id) = true →
      id ∈ (block_id <$> l) ∨ pc_insertion_time (cells_of s id) = true).
Proof.
  revert s. induction l as [|b l IH]; intros s Hnd Hall.
  { apply runs_ret. exists (bs_cells s). split; [by destruct s|auto]. }
  inversion Hnd as [|? ? Hnotin Hnd']; subst. simpl. apply runs_bind. eapply runs_gets; [done|].
  apply runs_bind. eapply runs_lift; [by rewrite Hall by set_solver|]. apply runs_bind, runs_modify.
  match goal with |- runs _ (with_cells (<[_ := ?c]> _) _) _ => set (cb := c) end.
  assert (Hcell : ∀ x, x ≠ block_id b → cells_of (with_cells (<[block_id b := cb]> (bs_cells s)) s) x = cells_of s x).
  { intros x Hx. unfold cells_of. simpl. by rewrite lookup_insert_ne. }
  eapply runs_mono; [apply IH; [done|]|].
  - intros b' Hb'. rewrite Hcell; [apply Hall; set_solver|]. intros Heq. apply Hnotin. rewrite <- Heq.
    by apply list_elem_of_fmap_2.
  - intros _ s' (c & -> & Hc). exists c. split; [done|]. intros x Hx.
    destruct (decide (x = block_id b)) as [->|Hne]; [left; set_solver|].
    destruct (Hc x) as [?|Hx']; [done|left; set_solver|right]. by rewrite Hcell in Hx'.
Qed.

(** What lies on a chain between its ends. *)
Lemma linked_between a l z x : linked a l z → anc x z → round_of a ≤ round_of x → x = a ∨ x ∈ l.
Proof.
  revert a. induction l as [|y l IH]; intros a Hl Hx Hle.
  { simpl in Hl. subst a. left. symmetry. by apply anc_same_round. }
  destruct Hl as (<- & Hr & Hl). destruct (linked_anc _ _ _ Hl) as [Hyz _].
  destruct (decide (round_of y ≤ round_of x)) as [Hge|Hlt].
  { right. destruct (IH _ Hl Hx Hge) as [->|?]; set_solver. }
  assert (Hxy : anc x y) by (apply (anc_linear _ _ z); [done|done|lia]).
  inversion Hxy as [Heq|? _ Hxp]; subst; [lia|]. left. symmetry. by apply anc_same_round.
Qed.

(** The invariant looks at the tree, the cells and the configuration. *)
Lemma store_inv_ext s s' :
  store_inv s → bs_inner s' = bs_inner s → bs_cells s' = bs_cells s → bs_config s' = bs_config s → store_inv s'.
Proof.
  intros [H1 H2 H3 H4 H5] Ht Hc Hg. split; rewrite ?Ht, ?Hg; try done. intros id. unfold cells_of. rewrite Hc. apply H3.
Qed.

(** The blocks up to [z] have their numbers. *)
Definition numbered_to s z : Prop := ∀ x, anc (root_id s) x → anc x z → tree_numbered (bs_inner s) x.

(** A batch: the path to [z] is sent, then [z] is the ordered root. *)
Lemma finalize_order_run path proof s z :
  store_inv s → linked (root_id s) (block_id <$> path) z → path ≠ [] →
  (∀ b, b ∈ path → get_block (bs_inner s) (block_id b) = Some b) →
  numbered_to s z → bi_id (WrappedLedgerInfo_commit_info proof) = z →
  runs (finalize_order path proof) s (λ _ s', ∃ c o, s' = with_sent (bs_sent s ++ [o]) (with_cells c s) ∧
    sends (root_id s) [o] z ∧
    ∀ id, pc_insertion_time (cells_of s' id) = true → round_of id ≤ round_of z).
Proof.
  intros Hi Hl Hne Hall Hnum Hz. destruct (linked_anc _ _ _ Hl) as [Hrz Hlr].
  unfold finalize_order. apply runs_bind. eapply runs_lift; [by rewrite bool_decide_eq_true_2|].
  apply runs_bind. eapply runs_gets; [done|]. rewrite (si_open _ Hi). apply runs_bind.
  eapply runs_mono; [apply set_insertion_times_run|].
  - by eapply linked_NoDup.
  - intros b Hb. destruct (pc_insertion_time _) eqn:Hpc; [|done]. apply (si_sent _ Hi) in Hpc.
    destruct (Hlr (block_id b)) as (_ & _ & ?); [by apply list_elem_of_fmap_2|]. lia.
  - intros _ s' (c & -> & Hc). apply runs_bind. eapply runs_gets; [done|]. apply runs_modify.
    eexists c, _. split; [done|]. split; [split|].
    + unfold sent_blocks. simpl. by rewrite app_nil_r, <- !list_fmap_compose.
    + constructor; [|constructor]. simpl. split; [done|]. split.
      * apply linked_last in Hl. rewrite fmap_last in Hl. rewrite fmap_last, Hz.
        destruct (last path) eqn:Hlast; [by simpl in *; f_equal|]. by apply last_None in Hlast.
      * apply Forall_fmap, Forall_forall. intros b Hb. unfold compose, plb_id. simpl.
        destruct (Hlr (block_id b)) as (Hab & Hbz & _); [by apply list_elem_of_fmap_2|].
        specialize (Hnum _ Hab Hbz). unfold tree_numbered in Hnum. rewrite (Hall b Hb) in Hnum. by simplify_eq/=.
    + intros id Hid. apply Hc in Hid as [Hid|Hid].
      * destruct (Hlr id Hid) as (_ & ? & _). by apply anc_round.
      * apply (si_sent _ Hi) in Hid. apply anc_round in Hrz. lia.
Qed.

Lemma proof_for_commits s finality_proof b next proof :
  proof_for s finality_proof b next = Some proof → bi_id (WrappedLedgerInfo_commit_info proof) = block_id b.
Proof.
  unfold proof_for. case_bool_decide as Hb; [by intros [= <-]|].
  destruct next as [next|]; [|done]. simpl. destruct (get_quorum_cert_for_block _ _) as [qc|]; [|done]. simpl.
  case_bool_decide as Hc; [|done]. by intros [= <-].
Qed.

(** Moving the ordered root to a block of a batch that was sent. *)
Lemma batch_done s c o z proof :
  store_inv s → sends (root_id s) [o] z → is_Some (bt_id_to_block (bs_inner s) !! z) → numbered_to s z →
  (∀ id, pc_insertion_time (default Cells_new (c !! id)) = true → round_of id ≤ round_of z) →
  runs (_ ← on_tree (update_ordered_root z); on_tree (modify (insert_ordered_cert proof)))
    (with_sent (bs_sent s ++ [o]) (with_cells c s))
    (λ _ s', advance s s' ∧ root_id s' = z ∧ bt_id_to_block (bs_inner s') = bt_id_to_block (bs_inner s)).
Proof.
  intros Hi Ho Hz Hnum Hc. pose proof (si_tree _ Hi) as Ht. destruct (linked_anc _ _ _ (proj1 Ho)) as [Ha _].
  destruct (tree_update_ordered_root (bs_inner s) z) as (t1 & Hrun & Ht1 & Hr1 & Hm1 & _ & Hq1); try done.
  { eapply anc_trans; [apply (tv_ordered _ Ht)|done]. }
  destruct (tree_insert_ordered_cert t1 proof Ht1) as (Ht2 & Hr2 & _ & Hm2 & Hq2).
  apply runs_bind. eapply runs_eq; [unfold on_tree; simpl; by rewrite Hrun|]. eapply runs_eq; [done|].
  assert (Hget : ∀ x, get_block (insert_ordered_cert proof t1) x = get_block (bs_inner s) x).
  { intros x. unfold get_block, get_linkable_block. by rewrite Hm2, Hm1. }
  split; [|simpl; split; [by rewrite Hr2|by rewrite Hm2]].
  match goal with |- advance _ ?x => assert (Hi' : store_inv x); [split; simpl|] end.
  - done.
  - apply (si_open _ Hi).
  - intros id Hid. rewrite Hr2, Hr1. by apply Hc.
  - rewrite Hr2, Hr1. unfold tree_numbered. rewrite Hget. apply Hnum; [done|constructor].
  - intros id b Hb. rewrite Hget in Hb. by apply (si_numbers _ Hi).
  - split; [done|]. split; [|exists [o]; split; [done|]; simpl; by rewrite Hr2, Hr1].
    apply durable_kept; try done; simpl; [intros id b; by rewrite Hget|].
    unfold get_quorum_cert_for_block. simpl. by rewrite Hq2, Hq1.
Qed.

Lemma send_block_run finality_proof b next s :
  store_inv s → is_Some (bt_id_to_block (bs_inner s) !! block_id b) → anc (root_id s) (block_id b) →
  numbered_to s (block_id b) →
  runs (send_block finality_proof b next) s (λ _ s', advance s s' ∧
    bt_id_to_block (bs_inner s') = bt_id_to_block (bs_inner s) ∧ (root_id s' = root_id s ∨ root_id s' = block_id b)).
Proof.
  intros Hi Hb Ha Hnum. unfold send_block. apply runs_bind. eapply runs_gets; [done|].
  assert (Hskip : advance s s ∧ bt_id_to_block (bs_inner s) = bt_id_to_block (bs_inner s) ∧
    (root_id s = root_id s ∨ root_id s = block_id b)) by (split_and!; [by apply advance_refl|done|by left]).
  destruct (proof_for _ _ _ _) as [proof|] eqn:Hp; [|by apply runs_ret]. apply proof_for_commits in Hp.
  destruct (ordered_path_found s (block_id b)) as (path & Hpath & Hl & Hall); [apply Hi|done..|].
  apply runs_bind. eapply runs_gets; [done|]. case_bool_decide as Hne; [by apply runs_ret|].
  destruct (runs_inv _ _ _ (finalize_order_run path proof s (block_id b) Hi Hl Hne Hall Hnum Hp))
    as ([] & s1 & Hrun & c & o & -> & Ho & Hc).
  apply runs_bind. eapply runs_eq; [unfold or_unwind; by rewrite Hrun|].
  eapply runs_mono; [by apply (batch_done s c o (block_id b))|].
  intros _ s' (Hadv & Hr & Hm). split_and!; [done|done|by right].
Qed.

Lemma send_blocks_run finality_proof l a z s :
  store_inv s → linked a (block_id <$> l) z → anc (root_id s) a → numbered_to s z →
  (∀ b, b ∈ l → is_Some (bt_id_to_block (bs_inner s) !! block_id b)) →
  runs (send_blocks finality_proof l) s (λ _ s', advance s s').
Proof.
  revert a s. induction l as [|b l IH]; intros a s Hi Hl Ha Hnum Hall; [by apply runs_ret, advance_refl|].
  destruct Hl as (<- & Hr & Hl). destruct (linked_anc _ _ _ Hl) as [Hbz _].
  assert (Hab : anc (root_id s) (block_id b)) by by apply anc_step.
  simpl. apply runs_bind. eapply runs_mono; [apply send_block_run; [done|apply Hall; set_solver|done|]|].
  { intros x Hx Hxb. apply Hnum; [done|]. by eapply anc_trans. }
  intros _ s1 (Hadv & Hm & Hroot).
  assert (Hrb : anc (root_id s) (root_id s1) ∧ anc (root_id s1) (block_id b)).
  { destruct Hroot as [-> | ->]; split; try done; constructor. }
  eapply runs_mono; [apply (IH (block_id b)); [apply Hadv|done|apply Hrb| |]|].
  - intros x Hx Hxz. unfold tree_numbered, get_block, get_linkable_block. rewrite Hm. apply Hnum; [|done].
    by eapply anc_trans; [apply Hrb|].
  - intros b' Hb'. rewrite Hm. apply Hall. set_solver.
  - intros ? s2 Hadv'. by eapply advance_trans.
Qed.

(** A step: no panic, whatever the result, and the store advances. *)
Definition steps {A} (c : M BlockStore Anyhow A) s : Prop :=
  wp c (λ r s', (∀ m, r ≠ Panic m) ∧ advance s s') s.

Lemma runs_steps {A} (c : M BlockStore Anyhow A) s : runs c s (λ _ s', advance s s') → steps c s.
Proof. unfold runs, steps, wp. by destruct (c s) as [[] ?]. Qed.

Lemma current_ids s l : tree_inv (bs_inner s) → block_id <$> current s l = block_id <$> l.
Proof.
  intros Ht. unfold current. rewrite <- list_fmap_compose. apply list_fmap_ext. intros _ b _. unfold compose.
  destruct (get_block _ _) as [b'|] eqn:Hb; [|done]. simpl. by apply get_block_id in Hb as (? & _).
Qed.

(** The part of [send_for_execution] on a path that is not empty. *)
Lemma send_path_run finality_proof path s z :
  store_inv s → linked (root_id s) (block_id <$> path) z →
  (∀ b, b ∈ path → get_block (bs_inner s) (block_id b) = Some b) →
  runs (_ ← init_block_number path; blocks ← gets (λ s, Ok (current s path)); send_live finality_proof blocks) s
    (λ _ s', advance s s').
Proof.
  intros Hi Hl Hall. pose proof (si_tree _ Hi) as Ht.
  apply runs_bind. eapply runs_mono.
  { apply (init_block_number_run path s z); [done|apply (si_numbers _ Hi)|apply (si_root _ Hi)|done..]. }
  intros ? s1 (t1 & w1 & nums & -> & Hsv & Hg & Hre & Hn1 & Hkeep & Hnum).
  pose proof (renumbered_tree_inv _ _ Ht Hre) as Ht1.
  assert (Hroot : bt_ordered_root_id t1 = root_id s) by (by destruct Hre as (m' & -> & _)).
  set (s1 := with_proxy w1 (with_inner t1 s)).
  assert (Hi1 : store_inv s1).
  { split; simpl; try done; [apply (si_open _ Hi)|rewrite Hroot; apply (si_sent _ Hi)|].
    rewrite Hroot. apply Hkeep, (si_root _ Hi). }
  assert (Hadv : advance s s1).
  { apply (advance_quiet s s1 []); try done; [|by simpl; rewrite app_nil_r]. intros Hd.
    apply (durable_step s s1 [] [] nums); try done; [by intros ? ?%not_elem_of_nil|apply Hg|left; by apply Hg|].
    left. revert H. unfold get_quorum_cert_for_block. by destruct Hre as (m' & -> & _). }
  apply runs_bind. eapply runs_gets; [done|]. unfold send_live. apply runs_bind. eapply runs_gets; [done|].
  destruct (_ && _); [by apply runs_ret|].
  eapply runs_mono; [apply (send_blocks_run _ _ (root_id s) z); [done| | | |]|].
  - by rewrite current_ids.
  - simpl. rewrite Hroot. constructor.
  - intros x Hx Hxz. simpl in *. rewrite Hroot in Hx.
    destruct (linked_between _ _ _ x Hl Hxz) as [->|Hin]; [by apply anc_round|apply Hkeep, (si_root _ Hi)|].
    apply list_elem_of_fmap in Hin as (b & -> & Hb). by apply Hnum.
  - intros b Hb. simpl. apply (list_elem_of_fmap_2 block_id) in Hb. rewrite current_ids in Hb by done.
    apply list_elem_of_fmap in Hb as (b' & -> & Hb'). apply Hall in Hb'.
    apply get_block_lookup in Hb' as (lb & Hlb & _). apply (renumbered_lookup_old _ _ Hre) in Hlb as (lb' & ? & _).
    by exists lb'.
  - intros ? s2 Hadv'. by eapply advance_trans.
Qed.

Lemma send_for_execution_steps finality_proof s : store_inv s → steps (send_for_execution finality_proof false None) s.
Proof.
  intros Hi. pose proof (si_tree _ Hi) as Ht. pose proof (advance_refl s Hi) as Hrefl.
  destruct (tv_ordered _ Ht) as [[lo Ho] _]. destruct (to_root _ (tv_ok _ Ht)) as (lr & Hr & _).
  unfold steps, send_for_execution. apply wp_bind, wp_gets. cbn [continue].
  destruct (negb _ && _); [by apply wp_ret|].
  apply wp_bind, wp_gets. destruct (get_block _ _) as [b|]; [|done]. cbn [ok_or continue].
  apply wp_bind, wp_gets. unfold ordered_root, get_block at 1, get_linkable_block at 1. rewrite Ho. cbn [fmap option_fmap option_map expect continue].
  apply wp_bind, wp_gets. unfold commit_root, get_block at 1, get_linkable_block at 1. rewrite Hr. cbn [fmap option_fmap option_map expect continue].
  destruct (_ <=? _); [done|]. apply wp_bind, wp_gets.
  destruct (ordered_path s _) as [path|e|m] eqn:Hpath; cbn [continue].
  - case_bool_decide as Hne; [done|].
    destruct (ordered_path_linked _ _ _ Ht Hpath Hne) as [Hl Hall].
    apply wp_bind, wp_modify. cbn [continue].
    set (s1 := with_pending _ s).
    assert (Hi1 : store_inv s1) by by apply (store_inv_ext s).
    assert (Hs1 : advance s s1).
    { apply (advance_quiet s s1 []); try done; [by apply durable_kept|by simpl; rewrite app_nil_r]. }
    pose proof (runs_steps _ _ (send_path_run finality_proof path s1 _ Hi1 Hl Hall)) as Hrun.
    unfold steps in Hrun. apply (wp_mono _ _ _ _ Hrun). intros r s' [Hnp Hadv]. split; [done|]. by apply (advance_trans s s1).
  - done.
  - exfalso. unfold ordered_path, path_from_ordered_root, ordered_root, get_block, get_linkable_block in Hpath.
    rewrite Ho in Hpath. done.
Qed.

(** ** Blocks, certificates and commits *)

(** The invariant after the map of the tree kept its blocks, up to one new one. *)
Lemma store_inv_tree s s' :
  store_inv s → tree_inv (bs_inner s') → root_id s' = root_id s → bs_config s' = bs_config s →
  (∀ id, pc_insertion_time (cells_of s' id) = true → pc_insertion_time (cells_of s id) = true) →
  (∀ id b, get_block (bs_inner s') id = Some b → get_block (bs_inner s) id = Some b ∨
     number_of id ≤ u64_max ∧ block_block_number b = None) →
  get_block (bs_inner s') (root_id s) = get_block (bs_inner s) (root_id s) → store_inv s'.
Proof.
  intros Hi Ht Hr Hc Hcells Hblocks Hroot. split; rewrite ?Hr, ?Hc; [done|apply (si_open _ Hi)| | |].
  - intros id Hid. by apply (si_sent _ Hi), Hcells.
  - unfold tree_numbered. rewrite Hroot. apply (si_root _ Hi).
  - intros id b [Hb|[Hle Hn]]%Hblocks; [by apply (si_numbers _ Hi)|]. split; [done|congruence].
Qed.

Lemma try_set_randomness_inv s id b :
  store_inv s → store_inv (try_set_randomness_from_db id b s) ∧ advance s (try_set_randomness_from_db id b s).
Proof.
  intros Hi. unfold try_set_randomness_from_db. destruct (randomness_from_db _ _ _) as [r|]; [|by split; [|apply advance_refl]].
  assert (Hi' : store_inv (set_cell_randomness id r s)).
  { apply (store_inv_tree s); try done; [apply (si_tree _ Hi)| |by left]. intros x. unfold cells_of, set_cell_randomness at 1. simpl.
    destruct (decide (x = id)) as [->|Hne]; [by rewrite lookup_insert_eq|by rewrite lookup_insert_ne]. }
  split; [done|]. by apply (advance_quiet _ _ []); [|apply durable_kept|simpl; rewrite app_nil_r| |].
Qed.

(** A proposal: named, without a number yet. *)
Definition proposal_ok b : Prop :=
  named b ∧ block_block_number b = None ∧ number_of (block_id b) ≤ u64_max ∧
  block_block_data b = data_of (block_id b) ∧ ∃ data, bcs_block b = Ok data.

(** A new block that is above the ordered root. *)
Lemma insert_new_steps s b outs w randomness :
  store_inv s → proposal_ok b → get_block (bs_inner s) (block_id b) = None →
  round_of (root_id s) < Block_round b → Forall quiet outs →
  saved [b] [] [] (contents (bs_storage s)) (contents w) →
  wp (x ← on_tree (insert_block true b);
      _ ← modify (λ s, with_cells (<[block_id b := {| pc_result := new_dummy; pc_randomness := randomness; pc_insertion_time := false |}]> (bs_cells s)) s);
      mret x)
    (λ r s', (∀ m, r ≠ Panic m) ∧ advance s s') (with_proxy w (with_sent (bs_sent s ++ outs) s)).
Proof.
  intros Hi (Hn & Hnone & Hle & Hdata & _) Hnew Hr Hq Hsv. pose proof (si_tree _ Hi) as Ht.
  destruct (tree_insert_block (bs_inner s) b Ht Hn Hr Hnew) as (r & t' & Hrun & Ht' & Hroot & _ & Hqc & Hres).
  assert (Hne : root_id s ≠ block_id b).
  { intros Heq. destruct (tv_ordered _ Ht) as [[lb Hlb] _]. apply get_block_None in Hnew. congruence. }
  apply wp_bind. unfold wp at 1, on_tree. simpl. rewrite Hrun. simpl. destruct r as [b'|e|m]; simpl; [| |done].
  - destruct Hres as [-> Hget]. apply wp_bind, wp_modify. simpl. apply wp_ret. split; [done|].
    match goal with |- advance _ ?x => assert (Hi' : store_inv x) end.
    { apply (store_inv_tree s); simpl; try done.
    + intros id. unfold cells_of. simpl. destruct (decide (id = block_id b)) as [->|Hid];
        [by rewrite lookup_insert_eq|by rewrite lookup_insert_ne].
    + intros id x. rewrite Hget. case_bool_decide as Hid; [|by left]. intros [= <-]. subst id. by right.
    + by rewrite Hget, bool_decide_eq_false_2. }
    apply (advance_quiet _ _ outs); [done| |done..]. intros Hd. apply (durable_step s _ [b] [] []); try done; simpl.
    + by intros ? ->%list_elem_of_singleton.
    + by intros ??? ?%not_elem_of_nil.
    + intros id x. rewrite Hget. case_bool_decide; [intros [= <-]; right; set_solver|]. intros Hx. left. exists x. auto.
    + intros id qc. unfold get_quorum_cert_for_block. simpl. rewrite Hqc. by left.
  - split; [done|].
    match goal with |- advance _ ?x => assert (Hi' : store_inv x) end.
    { apply (store_inv_tree s); simpl; try done; unfold get_block, get_linkable_block; rewrite Hres; [by left|done]. }
    apply (advance_quiet _ _ outs); [done| |done..]. intros Hd. apply (durable_step s _ [b] [] []); try done; simpl.
    + by intros ? ->%list_elem_of_singleton.
    + by intros ??? ?%not_elem_of_nil.
    + intros id x. unfold get_block, get_linkable_block. rewrite Hres. intros Hx. left. exists x. auto.
    + intros id qc. unfold get_quorum_cert_for_block. simpl. rewrite Hqc. by left.
Qed.

Lemma store_insert_block_steps b s : store_inv s → proposal_ok b → steps (store_insert_block b false) s.
Proof.
  intros Hi Hb. pose proof (si_tree _ Hi) as Ht. pose proof (advance_refl s Hi) as Hrefl.
  unfold steps, store_insert_block. apply wp_bind, wp_gets. cbn [continue].
  destruct (get_block (bs_inner s) (block_id b)) as [e|] eqn:Hnew.
  { apply wp_bind, wp_modify. cbn [continue]. apply wp_ret. split; [done|]. by apply try_set_randomness_inv. }
  destruct (tv_ordered _ Ht) as [[lo Ho] _]. destruct (tree_block _ _ _ Ht Ho) as (_ & Hor & _).
  apply wp_bind, wp_bind, wp_gets. unfold ordered_root, get_block at 1, get_linkable_block at 1. rewrite Ho.
  cbn [fmap option_fmap option_map expect continue]. apply wp_lift.
  destruct (_ <? _) eqn:Hlt; [|done]. apply N.ltb_lt in Hlt. change (lb_round lo < Block_round b) in Hlt. rewrite Hor in Hlt.
  cbn [ensure continue]. apply wp_bind, wp_gets. cbn [continue]. apply wp_bind.
  assert (Hpre : ∃ outs, prefetch b s = (Ok tt, with_sent (bs_sent s ++ outs) s) ∧ Forall quiet outs).
  { unfold prefetch. destruct (Block_payload b); [eexists; split; [done|by constructor]|].
    exists []. split; [|done]. rewrite app_nil_r. by destruct s. }
  destruct Hpre as (outs & Hpre & Hq). unfold wp at 1. rewrite Hpre. cbn [fst snd continue].
  apply wp_bind. destruct (save_tree_accepted [b] [] [] (bs_storage s)) as (w & Hw & Hsv).
  { intros ? ->%list_elem_of_singleton. apply Hb. }
  unfold wp at 1, in_context, on_storage. simpl. rewrite Hw. simpl. by apply insert_new_steps.
Qed.

Lemma insert_single_quorum_cert_steps qc s : store_inv s → steps (insert_single_quorum_cert qc false) s.
Proof.
  intros Hi. pose proof (advance_refl s Hi) as Hrefl. unfold steps, insert_single_quorum_cert.
  apply wp_bind, wp_gets. cbn [continue]. destruct (get_block _ _) as [b|]; [|done].
  apply wp_bind, wp_gets. cbn [continue]. apply wp_bind, wp_lift.
  destruct (bi_match_ordered_only _ _); [|done]. cbn [ensure continue]. apply wp_bind.
  destruct (save_tree_accepted [] [qc] [] (bs_storage s)) as (w & Hw & Hsv); [by intros ? ?%not_elem_of_nil|].
  unfold wp at 1, in_context, on_storage. simpl. rewrite Hw. simpl.
  destruct (tree_insert_quorum_cert (bs_inner s) qc (si_tree _ Hi)) as (r & t' & Hrun & Ht' & Hnp & Hm & Hroot & _ & Hok & Herr).
  unfold wp, on_tree. simpl. rewrite Hrun. simpl. split; [done|].
  match goal with |- advance _ ?x => assert (Hi' : store_inv x) end.
  { apply (store_inv_tree s); simpl; try done; unfold get_block, get_linkable_block; rewrite Hm; [by left|done]. }
  apply (advance_quiet _ _ []); [done| |by simpl; rewrite app_nil_r|done..]. intros Hd.
  apply (durable_step s _ [] [qc] []); try done; simpl.
  - by intros ? ?%not_elem_of_nil.
  - by intros ??? ?%not_elem_of_nil.
  - intros id x. unfold get_block, get_linkable_block. rewrite Hm. intros Hx. left. exists x. auto.
  - intros id x. unfold get_quorum_cert_for_block. simpl. destruct r as [[]|e|m]; [|rewrite Herr by done; by left..].
    rewrite Hok by done. unfold or_insert_cert. destruct (_ !! bi_id _); [by left|].
    intros [[<- <-]|[_ ?]]%lookup_insert_Some; [right; set_solver|by left].
Qed.

Lemma insert_2chain_timeout_certificate_steps tc s :
  store_inv s → steps (insert_2chain_timeout_certificate tc) s.
Proof.
  intros Hi. pose proof (advance_refl s Hi) as Hrefl. unfold steps, insert_2chain_timeout_certificate.
  apply wp_bind, wp_gets. cbn [continue]. destruct (_ <=? _); [done|]. apply wp_bind.
  destruct (save_timeout_accepted tc (bs_storage s)) as (w & Hw & Hsv).
  unfold wp at 1, in_context, on_storage. simpl. rewrite Hw. simpl. split; [done|].
  match goal with |- advance _ ?x => assert (Hi' : store_inv x) end.
  { apply (store_inv_tree s); simpl; try done; [|by left]. destruct (tv_ordered _ (si_tree _ Hi)).
    by apply (tree_inv_ext (bs_inner s)); try done; [apply (tv_certified _ (si_tree _ Hi))|apply (si_tree _ Hi)]. }
  by apply (advance_quiet _ _ []); [|apply durable_kept|simpl; rewrite app_nil_r| |].
Qed.

Lemma on_commit_steps blocks proof decision b s :
  store_inv s → commit_ok (bs_inner s) blocks proof decision b → steps (on_commit blocks proof decision) s.
Proof.
  intros Hi Hb. destruct (tree_commit _ _ _ _ _ (si_tree _ Hi) Hb) as (t' & Hrun & Ht' & Hroot & Hkeep & Hsub & Hqs).
  assert (Hget : ∀ id x, get_block t' id = Some x → get_block (bs_inner s) id = Some x).
  { intros id x (lb & Hlb & Hx)%get_block_lookup. apply get_block_lookup. eauto. }
  unfold steps, wp, on_commit, on_tree. rewrite Hrun. split; [done|]. simpl.
  assert (Hi' : store_inv (with_inner t' s)).
  { apply (store_inv_tree s); simpl; try done; [auto|]. unfold get_block, get_linkable_block.
    rewrite Hkeep; [done|constructor]. }
  by apply (advance_quiet _ _ []); [|apply durable_kept|simpl; rewrite app_nil_r| |].
Qed.

(** ** Runs of the store *)

(** What the round manager and the pipeline ask of a running store. *)
Inductive StoreOp :=
| InsertBlock (b : Block)
| InsertQuorumCert (qc : QuorumCert)
| InsertTimeout (tc : TwoChainTimeoutCertificate)
| SendForExecution (finality_proof : WrappedLedgerInfo)
| Committed (blocks : list Block) (finality_proof : WrappedLedgerInfo) (decision : LedgerInfoWithSignatures).

Definition run_op (op : StoreOp) : M BlockStore Anyhow unit :=
  match op with
  | InsertBlock b => _ ← store_insert_block b false; mret tt
  | InsertQuorumCert qc => insert_single_quorum_cert qc false
  | InsertTimeout tc => insert_2chain_timeout_certificate tc
  | SendForExecution proof => send_for_execution proof false None
  | Committed blocks proof decision => on_commit blocks proof decision
  end.

Definition op_ok s (op : StoreOp) : Prop :=
  match op with
  | InsertBlock b => proposal_ok b
  | Committed blocks proof decision => ∃ b, commit_ok (bs_inner s) blocks proof decision b
  | _ => True
  end.

(** Callers log an error and go on. *)
Fixpoint run_ops (ops : list StoreOp) : M BlockStore Anyhow unit :=
  match ops with
  | [] => mret tt
  | op :: ops => _ ← or_warn (run_op op); run_ops ops
  end.

Fixpoint ops_ok s (ops : list StoreOp) : Prop :=
  match ops with
  | [] => True
  | op :: ops => op_ok s op ∧ ops_ok (run_op op s).2 ops
  end.

Lemma run_op_steps op s : store_inv s → op_ok s op → steps (run_op op) s.
Proof.
  intros Hi Hop. destruct op as [b|qc|tc|proof|blocks proof decision]; simpl in *.
  - pose proof (store_insert_block_steps b s Hi Hop) as [Hnp Hadv]. unfold steps, wp, mbind, M_bind.
    destruct (store_insert_block b false s) as [[x|e|m] s']; simpl in *; [done..|]. by destruct (Hnp m).
  - by apply insert_single_quorum_cert_steps.
  - by apply insert_2chain_timeout_certificate_steps.
  - by apply send_for_execution_steps.
  - destruct Hop as [b Hb]. by eapply on_commit_steps.
Qed.

Lemma run_ops_advance ops s : store_inv s → ops_ok s ops → runs (run_ops ops) s (λ _ s', advance s s').
Proof.
  revert s. induction ops as [|op ops IH]; intros s Hi; [intros _; by apply runs_ret, advance_refl|].
  intros [Hop Hops]. destruct (run_op_steps op s Hi Hop) as [Hnp Hadv]. simpl. apply runs_bind.
  destruct (run_op op s) as [r s1] eqn:Hrun. simpl in *.
  eapply runs_eq; [unfold or_warn; rewrite Hrun; by destruct r as [a|e|m]; [..|destruct (Hnp m)]|].
  eapply runs_mono; [by apply IH; [apply Hadv|]|]. intros ? s2 Hadv'. by apply (advance_trans s s1).
Qed.

Lemma BlockTree_new_maps root qc ordered commit n tc t :
  BlockTree_new root qc ordered commit n tc = Ok t →
  bt_id_to_block t = {[block_id root := LinkableBlock_new root]} ∧
  bt_id_to_quorum_cert t = {[bi_id (certified_block qc) := qc]}.
Proof. unfold BlockTree_new. intros (? & _ & [= <-])%bind_Ok. done. Qed.

(** A new store satisfies the invariant when its root is named and numbered. *)
Lemma store_start root qc ordered commit n tc t storage pending executor config :
  BlockTree_new root qc ordered commit n tc = Ok t →
  bi_round (WrappedLedgerInfo_commit_info commit) ≤ Block_round root →
  named root → Block_parent_id root ≠ block_id root →
  block_block_number root = Some (number_of (block_id root)) → number_of (block_id root) ≤ u64_max →
  sc_execute_tx config = true →
  store_inv {| bs_inner := t; bs_cells := build_cells root; bs_storage := storage;
     bs_pending_blocks := pending; bs_executor := executor; bs_sent := []; bs_config := config |}.
Proof.
  intros Hnew Hle Hn Hp Hnum Hmax Hopen. pose proof (BlockTree_new_ok _ _ _ _ _ _ _ Hnew Hle Hp) as Hok.
  unfold BlockTree_new in Hnew. run_inv.
  split; simpl; [split; simpl; try done| | | |].
  - intros id lb [<- <-]%lookup_singleton_Some. done.
  - intros id [lb [<- <-]%lookup_singleton_Some] _. constructor.
  - rewrite lookup_singleton_eq. split; [by eexists|constructor].
  - rewrite lookup_singleton_eq. by eexists.
  - done.
  - intros id. unfold cells_of, build_cells. simpl. destruct (decide (id = block_id root)) as [->|Hne];
      [by rewrite lookup_singleton_eq|by rewrite lookup_singleton_ne].
  - unfold tree_numbered, get_block, get_linkable_block. simpl. by rewrite lookup_singleton_eq; simpl; rewrite Hnum.
  - intros id b (lb & Hlb & <-)%get_block_lookup. simpl in Hlb. apply lookup_singleton_Some in Hlb as [<- <-]. split; [done|]. simpl. congruence.
Qed.

(** ** Theorems *)

(** C11: What the block store sends to execution, over any sequence of the five
    operations of a running store: insertion of a proposal, a certificate or a
    timeout certificate, order to execute, commit. Assume that writes to the
    database succeed ([StorageAccepts]), that execution is switched on, that a
    proposal is new, encodable and named by its id, and that a commit is of a block
    of the tree between the commit root and both the ordered root and the highest
    certified block, with a decision that merges into a proof of that block. Then
    the operations do not panic, and the blocks sent are one chain from the ordered
    root at the start to the ordered root at the end, every block once, numbered one
    after the other, each batch with a certificate that commits its last block. *)
Theorem ordered_blocks_sent_once s ops :
  store_inv s → ops_ok s ops →
  runs (run_ops ops) s (λ _ s', store_inv s' ∧ ∃ outs, bs_sent s' = bs_sent s ++ outs ∧
    linked (root_id s) (block_id <$> sent_blocks outs) (root_id s') ∧
    NoDup (block_id <$> sent_blocks outs) ∧ Forall batch_ok outs).
Proof.
  intros Hi Hops. eapply runs_mono; [by apply run_ops_advance|].
  intros ? s' (Hi' & _ & outs & Hs & Hl & Hb). split; [done|]. exists outs. split_and!; try done. by eapply linked_NoDup.
Qed.

(** What [get_db_block] reads for a block of the tree. *)
Lemma durable_block_read s id b o :
  durable s → tree_inv (bs_inner s) → numbers_ok (bs_inner s) → get_block (bs_inner s) id = Some b →
  Block_epoch b ≤ u64_max → get_db_block (Block_epoch b) id (consensus_db s) = Ok o →
  ∃ b', o = Some b' ∧ block_block_data b' = block_block_data b ∧
    ∀ n, block_block_number b = Some n → block_block_number b' = Some n.
Proof.
  intros Hd Ht Hn Hb He Hget. destruct (get_block_id _ _ _ Ht Hb) as (<- & _).
  destruct (du_block _ Hd _ _ Hb) as [vb Hvb].
  destruct (tn_blocks _ (du_tables _ Hd) _ _ _ Hvb) as (sig & n0 & Hbcs).
  rewrite <- (du_data _ Hd _ _ Hb) in Hbcs. unfold get_db_block in Hget.
  apply bind_Ok in Hget as (ob & Hob & Hget). apply db_get_Ok in Hob as (kb & Hk & Hob).
  apply encode_epoch_hash_Ok in Hk as ->. cbn [column_family BlockSchema] in Hob.
  change (db_contents (cdb_db (consensus_db s))) with (contents (bs_storage s)) in Hob.
  change (Block_epoch b, block_id b) with (block_key b) in *. rewrite Hvb in Hob.
  destruct Hob as (v & Hv & ->). simpl in Hv. unfold block_of_bcs in Hv. rewrite (block_fields_of_to_bcs _ _ Hbcs) in Hv.
  simpl in Hv. injection Hv as <-. cbn [Block_deserialize block_block_number] in Hget.
  apply bind_Ok in Hget as (on & Hon & Hget). injection Hget as <-. eexists. split; [done|].
  apply db_get_Ok in Hon as (kb & Hk & Hon). apply encode_epoch_hash_Ok in Hk as ->.
  split; [by destruct on|]. intros n Hbn. pose proof (du_number _ Hd _ _ _ Hb Hbn) as Hrow.
  cbn [column_family BlockNumberSchema] in Hon.
  change (db_contents (cdb_db (consensus_db s))) with (contents (bs_storage s)) in Hon. rewrite Hrow in Hon.
  destruct Hon as (v & Hv & ->). cbn [decode_value BlockNumberSchema] in Hv. destruct (Hn _ _ Hb) as [Hmax Hnum].
  rewrite decode_encode_u64 in Hv by (by rewrite (Hnum n Hbn)). injection Hv as <-. done.
Qed.

(** C12: What is in the block tree survives a crash, over any sequence of the five
    operations of a running store (insertion of a proposal, a certificate or a
    timeout certificate, order to execute, commit) from a tree that is in the
    database, assuming that writes succeed ([StorageAccepts]), that execution is
    switched on, that proposals are new, encodable and named by their ids, and that
    a commit is of a block of the tree between the commit root and both the ordered
    root and the highest certified block, with a decision that merges into a proof
    of that block: if the read returns, a block of the tree is read back from the
    database with its contents and its number, and for every certificate of the tree
    the database has one of the same block. [rebuild] and [append_blocks_for_sync],
    which build a tree from data that is in the database already, are not among the
    operations. *)
Theorem tree_survives_restart s ops :
  store_inv s → durable s → ops_ok s ops →
  runs (run_ops ops) s (λ _ s',
    (∀ id b o, get_block (bs_inner s') id = Some b → Block_epoch b ≤ u64_max →
       get_db_block (Block_epoch b) id (consensus_db s') = Ok o →
       ∃ b', o = Some b' ∧ block_block_data b' = block_block_data b ∧
         ∀ n, block_block_number b = Some n → block_block_number b' = Some n) ∧
    ∀ id qc o, get_quorum_cert_for_block s' id = Some qc → get QCSchema (cert_key qc) (consensus_db s') = Ok o →
      ∃ qc', o = Some qc' ∧ bi_id (certified_block qc') = id).
Proof.
  intros Hi Hd Hops. eapply runs_mono; [by apply run_ops_advance|].
  intros ? s' (Hi' & Hd' & _). specialize (Hd' Hd). split.
  - intros id b o Hb He Hget. eapply durable_block_read; try done; [apply (si_tree _ Hi')|apply (si_numbers _ Hi')].
  - intros id qc o Hqc Hget. destruct (du_cert _ Hd' _ _ Hqc) as [<- [vb Hvb]].
    destruct (tn_certs _ (du_tables _ Hd') _ _ _ Hvb) as (qc' & Hbcs & Hid).
    apply db_get_Ok in Hget as (kb & Hk & Hget). apply encode_epoch_hash_Ok in Hk as ->.
    cbn [column_family QCSchema] in Hget.
    change (db_contents (cdb_db (consensus_db s'))) with (contents (bs_storage s')) in Hget.
    rewrite Hvb in Hget. destruct Hget as (v & Hv & ->). cbn [decode_value QCSchema] in Hv.
    rewrite (quorum_cert_of_to_bcs _ _ Hbcs) in Hv. injection Hv as <-. by exists qc'.
Qed.

End store_spec.
