(* ===== verification/SyncManager.v ===== *)
(** * Block retrieval and synchronization
    (consensus-types/src/block_retrieval.rs, consensus/src/block_storage/sync_manager.rs
    and [request_block] of consensus/src/network.rs)

    A validator that is behind fetches the missing blocks with their certificates and
    ledger infos from its peers, chunk by chunk, and takes them into its block store;
    it answers such requests from its tree and its database.  The answers a request
    gets are inputs of the model, in the order of their arrival, from whatever peer:
    what the code checks of them is what the theorems may use. *)

From S2P Require Import Prelude Gaptos Types Bytes Certificates Payloads Blocks SafetyRules SafetySpec Bft PendingVotes.
From S2P Require Import BlockTree BlockBufferManager BufferItem ConsensusDb Recovery BlockStore.

(** ** Requests and responses (block_retrieval.rs) *)

Section block_retrieval.
Context {GA : Gaptos} {VE : Verifier} {CR : Crypto} {RY : RecoveryTypes}.

Record BlockRetrievalRequest := {
  brq_block_id : HashValue;
  brq_num_blocks : N;
  brq_target_block_id : option HashValue;
  brq_epoch : option N;
}.

Definition new_with_target_block_id (block_id : HashValue) (num_blocks : N) (target_block_id : HashValue)
    : BlockRetrievalRequest :=
  {| brq_block_id := block_id; brq_num_blocks := num_blocks;
     brq_target_block_id := Some target_block_id; brq_epoch := None |}.

Definition new_with_epoch (block_id : HashValue) (num_blocks : N) (target_block_id : HashValue) (epoch : N)
    : BlockRetrievalRequest :=
  {| brq_block_id := block_id; brq_num_blocks := num_blocks;
     brq_target_block_id := Some target_block_id; brq_epoch := Some epoch |}.

Definition match_target_id (r : BlockRetrievalRequest) (hash_value : HashValue) : bool :=
  bool_decide (brq_target_block_id r = Some hash_value).

Inductive BlockRetrievalStatus :=
| Succeeded | IdNotFound | NotEnoughBlocks | SucceededWithTarget | QuorumCertNotFound.

#[global] Instance BlockRetrievalStatus_eqdec : EqDecision BlockRetrievalStatus.
Proof. solve_decision. Defined.

(** A block with its number and randomness. *)
Definition RetrievedBlock : Type := Block * option N * option bytes.

Record BlockRetrievalResponse := {
  brs_status : BlockRetrievalStatus;
  brs_blocks : list RetrievedBlock;
  brs_ledger_infos : list LedgerInfoWithSignatures;
  brs_quorum_certs : list QuorumCert;
}.

(** The fold of [verify] over the blocks, from the id expected first. *)
Fixpoint verify_chain (expected_id : HashValue) (blocks : list RetrievedBlock)
    (sig_verifier : ValidatorVerifier) (now : N) : result Anyhow unit :=
  match blocks with
  | [] => Ok tt
  | (block, _, _) :: blocks =>
      _ ← ensure (bool_decide (block_id block = expected_id)) (Msg "blocks doesn't form a chain");
      _ ← validate_signature block sig_verifier;
      _ ← Block_verify_well_formed block now;
      verify_chain (Block_parent_id block) blocks sig_verifier now
  end.

Definition BlockRetrievalResponse_verify (r : BlockRetrievalResponse) (request : BlockRetrievalRequest)
    (sig_verifier : ValidatorVerifier) (now : N) : result Anyhow unit :=
  _ ← ensure (bool_decide (brs_status r ≠ Succeeded)
              || (N.of_nat (length (brs_blocks r)) =? brq_num_blocks request))
        (Msg "not enough blocks returned");
  verify_chain (brq_block_id request) (brs_blocks r) sig_verifier now.

(** Not called at present, see [request_block]. *)
Definition verify_ledger_info (r : BlockRetrievalResponse) (request : BlockRetrievalRequest)
    (sig_verifier : ValidatorVerifier) (li : LedgerInfoWithSignatures) : result Anyhow unit :=
  let block_numbers_by_id : gmap HashValue N :=
    list_to_map (reverse (omap (λ '(b, n, _), (λ n, (block_id b, n)) <$> n) (brs_blocks r))) in
  _ ← map_err VerifyErr (liws_verify_signatures li sig_verifier);
  let ledger_info := liws_ledger_info li in
  _ ← ensure (from_option (λ e, li_epoch ledger_info =? e) true (brq_epoch request))
        (Msg "ledger info epoch mismatch");
  block_number ← ok_or (Msg "ledger info commits block that is missing from retrieval response")
                   (block_numbers_by_id !! li_consensus_block_id ledger_info);
  ensure (block_number =? li_block_number ledger_info) (Msg "ledger info block number mismatch").

Definition verify_ledger_infos (r : BlockRetrievalResponse) (request : BlockRetrievalRequest)
    (sig_verifier : ValidatorVerifier) : result Anyhow unit :=
  try_fold (λ _ li, verify_ledger_info r request sig_verifier li) tt (brs_ledger_infos r).

End block_retrieval.

(** What synchronization takes from [gaptos] beyond the store. *)
Class SyncTypes {GA : Gaptos} := {
  ebi_block_id : EpochBlockInfo → HashValue;
  (** [LedgerInfoWithSignatures::get_voters] *)
  liws_get_voters : LedgerInfoWithSignatures → list AccountAddress → list AccountAddress;
}.

(** ** Serving requests *)

Section sync_manager.
Context {GA : Gaptos} {VE : Verifier} {CR : Crypto} {PI : PartialLedgerInfo} {AT : ApiTypes} {PT : PipelineTypes}.
Context {DT : DbTypes} {SD : SchemaDb} {RY : RecoveryTypes} {ST : StoreTypes} {SY : SyncTypes}.

Record Retrieved := {
  rt_blocks : list RetrievedBlock;
  rt_quorum_certs : list QuorumCert;
}.

(** The randomness stored for a block; an error of the read counts as none. *)
Definition stored_randomness (s : BlockStore) (b : Block) : result Anyhow (option bytes) :=
  match block_block_number b with
  | Some n => read_or_none (get_randomness n (consensus_db s))
  | None => Ok None
  end.

(** A block with its certificate, from the tree or else from the database. *)
Definition find_block (s : BlockStore) (epoch : N) (id : HashValue)
    : result Anyhow (option (Block * option QuorumCert)) :=
  match get_block (bs_inner s) id with
  | Some b => Ok (Some (b, get_quorum_cert_for_block s id))
  | None =>
      b ← read_or_none (get_db_block epoch id (consensus_db s));
      match b with
      | Some b => qc ← read_or_none (get_qc epoch id (consensus_db s)); Ok (Some (b, qc))
      | None => Ok None
      end
  end.

(** The loop over the parents; one block is added in every round, [room] is how many
    the request still asks for. *)
Fixpoint collect_blocks (room : nat) (s : BlockStore) (request : BlockRetrievalRequest) (epoch : N)
    (id : HashValue) (acc : Retrieved) : result Anyhow (BlockRetrievalStatus * Retrieved) :=
  match room with
  | O => Ok (Succeeded, acc)
  | S room =>
      found ← find_block s epoch id;
      match found with
      | None => Ok (NotEnoughBlocks, acc)
      | Some (_, None) => Ok (QuorumCertNotFound, acc)
      | Some (b, Some qc) =>
          let parent := vd_parent (qc_vote_data qc) in
          let parent_is_genesis_block :=
            bool_decide (bi_id parent ≠ HashValue_zero) && (bi_round parent =? 0) in
          randomness ← stored_randomness s b;
          let acc := {| rt_blocks := rt_blocks acc ++ [(b, block_block_number b, randomness)];
                        rt_quorum_certs := rt_quorum_certs acc ++ [qc] |} in
          if match_target_id request id || parent_is_genesis_block
          then Ok (SucceededWithTarget, acc)
          else collect_blocks room s request epoch (Block_parent_id b) acc
      end
  end.

(** Where a request for a whole epoch starts: the block certified by the certificate
    that commits the last block of the epoch, and that block. *)
Definition epoch_start_point (s : BlockStore) (epoch : N) : result Anyhow (HashValue * Retrieved) :=
  all_epoch_blocks ← with_context "Failed to get epoch by block number"
                       (get_all EpochByBlockNumberSchema (consensus_db s));
  target ← ok_or (Msg "Cannot find block number for epoch")
             (list_find (λ kv, kv.2 = epoch) all_epoch_blocks);
  let target_block_number := target.2.1 in
  li ← with_context "Failed to get ledger info for block number"
         (get LedgerInfoSchema target_block_number (consensus_db s));
  li ← ok_or (Msg "Ledger info not found for block number") li;
  let end_block_id := li_consensus_block_id (liws_ledger_info li) in
  qcs ← with_context "Failed to get QC range for epoch"
          (get_qc_range (epoch, HashValue_zero) (epoch, hash_max) (consensus_db s));
  qc ← ok_or (Msg "Cannot find QC for end block id")
         (find_qc (λ qc, bool_decide (bi_id (QuorumCert_commit_info qc) = end_block_id)) qcs);
  b ← with_context "Failed to get block for QC certified block"
        (get_db_block epoch (bi_id (certified_block qc)) (consensus_db s));
  b ← ok_or (Msg "Block not found for QC certified block") b;
  randomness ← (match block_block_number b with
                | Some n => with_context "Failed to get randomness for block number"
                              (get_randomness n (consensus_db s))
                | None => Ok None
                end);
  Ok (end_block_id, {| rt_blocks := [(b, block_block_number b, randomness)]; rt_quorum_certs := [qc] |}).

Definition min_of (l : list N) : option N :=
  match l with [] => None | x :: l => Some (foldr N.min x l) end.

(** The ledger infos of the blocks the certificates of the answer commit. *)
Definition retrieved_ledger_infos (s : BlockStore) (epoch : N) (acc : Retrieved)
    : result Anyhow (list LedgerInfoWithSignatures) :=
  let block_numbers_by_id : gmap HashValue N :=
    list_to_map (reverse (omap (λ '(b, _, _), (λ n, (block_id b, n)) <$> block_block_number b) (rt_blocks acc))) in
  let committed := omap (λ qc, block_numbers_by_id !! bi_id (QuorumCert_commit_info qc)) (rt_quorum_certs acc) in
  let lower := default 0 (min_of committed) in
  upper ← (match max_of committed with Some n => add_u64 n 1 | None => Ok 0 end);
  if upper =? 0 then Ok []
  else
    lis ← (match get_ledger_infos_by_range (lower, upper) (consensus_db s) with Err _ => Ok [] | r => r end);
    Ok (reverse (filter (λ li, li_epoch (liws_ledger_info li) = epoch) lis)).

Definition process_block_retrieval (request : BlockRetrievalRequest) (s : BlockStore)
    : result Anyhow BlockRetrievalResponse :=
  start ← (match brq_epoch request with
           | Some epoch =>
               if bool_decide (brq_block_id request ≠ HashValue_zero)
               then Ok (epoch, brq_block_id request, {| rt_blocks := []; rt_quorum_certs := [] |})
               else '(id, acc) ← epoch_start_point s epoch; Ok (epoch, id, acc)
           | None =>
               root ← ordered_root (bs_inner s);
               Ok (Block_epoch root, brq_block_id request, {| rt_blocks := []; rt_quorum_certs := [] |})
           end);
  let '(retrieval_epoch, id, acc) := start in
  let room := (N.to_nat (brq_num_blocks request) - length (rt_blocks acc))%nat in
  '(status, acc) ← collect_blocks room s request retrieval_epoch id acc;
  ledger_infos ← retrieved_ledger_infos s retrieval_epoch acc;
  Ok {| brs_status := status; brs_blocks := rt_blocks acc; brs_ledger_infos := ledger_infos;
        brs_quorum_certs := rt_quorum_certs acc |}.

(** ** What a certificate needs *)

Definition is_epoch_change_li_boundary_locally_committed (li : LedgerInfoWithSignatures) (s : BlockStore)
    : result Anyhow bool :=
  root ← commit_root (bs_inner s);
  Ok match bi_epoch_block_info (li_commit_info (liws_ledger_info li)) with
     | Some epoch_info =>
         match block_block_number root with
         | Some root_number =>
             (ebi_block_number epoch_info <? root_number)
             || (root_number =? ebi_block_number epoch_info)
                && bool_decide (block_id root = ebi_block_id epoch_info)
         | None => false
         end
     | None => bool_decide (block_id root = bi_id (li_commit_info (liws_ledger_info li)))
     end.

(** Checked [*] on [u64]. *)
Definition mul_u64 (a b : N) : result Anyhow N :=
  if a * b <=? u64_max then Ok (a * b) else Panic "attempt to multiply with overflow".

Definition need_sync_for_ledger_info (li : LedgerInfoWithSignatures) (s : BlockStore) : result Anyhow bool :=
  let info := li_commit_info (liws_ledger_info li) in
  root ← ordered_root (bs_inner s);
  if (Block_round root <? bi_round info) && negb (block_exists (bs_inner s) (bi_id info)) then Ok true
  else
    commit ← commit_root (bs_inner s);
    gap ← mul_u64 2 (sc_vote_back_pressure_limit (bs_config s));
    limit ← add_u64 (Block_round commit) (N.max 30 gap);
    Ok (limit <? bi_round info).

Definition need_sync_to_highest_quorum_cert (hqc : QuorumCert) (s : BlockStore) : result Anyhow bool :=
  root ← ordered_root (bs_inner s);
  Ok ((Block_round root <? bi_round (certified_block hqc))
      && negb (block_exists (bs_inner s) (bi_id (certified_block hqc)))).

Inductive NeedFetchResult := QCRoundBeforeRoot | QCAlreadyExist | QCBlockExist | NeedFetch.

Definition need_fetch_for_quorum_cert (qc : QuorumCert) (s : BlockStore) : result Anyhow NeedFetchResult :=
  let info := certified_block qc in
  root ← ordered_root (bs_inner s);
  Ok (if bi_round info <? Block_round root then QCRoundBeforeRoot
      else if bool_decide (is_Some (get_quorum_cert_for_block s (bi_id info))) then QCAlreadyExist
      else if block_exists (bs_inner s) (bi_id info) then QCBlockExist
      else NeedFetch).

(** ** Fetching blocks *)

(** [ret_author] and [ret_validators] belong to the network sender.  [ret_answers]
    are the answers that will arrive, for one chunk after the other, each with the
    peer it comes from. *)
Record BlockRetriever := {
  ret_author : AccountAddress;
  ret_validators : ValidatorVerifier;
  ret_preferred_peer : AccountAddress;
  ret_available_peers : list AccountAddress;
  ret_max_blocks_to_request : N;
  ret_now : N;
  ret_answers : list (list (AccountAddress * result Anyhow BlockRetrievalResponse));
}.

Definition with_answers (l : list (list (AccountAddress * result Anyhow BlockRetrievalResponse)))
    (r : BlockRetriever) : BlockRetriever :=
  {| ret_author := ret_author r; ret_validators := ret_validators r;
     ret_preferred_peer := ret_preferred_peer r; ret_available_peers := ret_available_peers r;
     ret_max_blocks_to_request := ret_max_blocks_to_request r; ret_now := ret_now r; ret_answers := l |}.

Abbreviation B := (M BlockStore Anyhow).
Abbreviation R := (M (BlockStore * BlockRetriever) Anyhow).

Definition in_store {A} (c : B A) : R A := λ '(s, r), let '(a, s) := c s in (a, (s, r)).

Definition reads_store {A} (f : BlockStore → result Anyhow A) : R A := gets (λ '(s, _), f s).

Definition reads_retriever {A} (f : BlockRetriever → A) : R A := gets (λ '(_, r), Ok (f r)).

(** [NetworkSender::request_block]: the check of the ledger infos is disabled, and a
    request by epoch is not checked at all. *)
Definition request_block (r : BlockRetriever) (request : BlockRetrievalRequest)
    (answer : AccountAddress * result Anyhow BlockRetrievalResponse) : result Anyhow BlockRetrievalResponse :=
  _ ← ensure (bool_decide (answer.1 ≠ ret_author r)) (Msg "Retrieve block from self");
  response ← answer.2;
  _ ← (if bool_decide (brq_block_id request ≠ HashValue_zero)
       then BlockRetrievalResponse_verify response request (ret_validators r) (ret_now r) else Ok tt);
  Ok response.

(** The random index of [pick_peer] is an argument. *)
Definition pick_peer (r : BlockRetriever) (first_attempt : bool) (choice : nat)
    (peers : list AccountAddress) : result Anyhow (AccountAddress * list AccountAddress) :=
  _ ← assert_ (bool_decide (peers ≠ [])) "pick_peer on empty peer list";
  if first_attempt
  then Ok (ret_preferred_peer r,
           match list_find (λ p, p = ret_preferred_peer r) peers with
           | Some (i, _) => delete i peers
           | None => peers
           end)
  else
    peer ← expect "index out of bounds" (peers !! choice);
    Ok (peer, delete choice peers).

Fixpoint pick_peers (r : BlockRetriever) (first_attempt : bool) (choices : list nat)
    (peers : list AccountAddress) : result Anyhow (list AccountAddress * list AccountAddress) :=
  match choices, peers with
  | [], _ | _, [] => Ok ([], peers)
  | choice :: choices, _ =>
      '(peer, peers) ← pick_peer r first_attempt choice peers;
      '(rest, peers) ← pick_peers r false choices peers;
      Ok (peer :: rest, peers)
  end.

(** The first answer of an asked peer that is accepted. *)
Fixpoint first_accepted (r : BlockRetriever) (request : BlockRetrievalRequest) (peers : list AccountAddress)
    (answers : list (AccountAddress * result Anyhow BlockRetrievalResponse))
    : result Anyhow BlockRetrievalResponse :=
  match answers with
  | [] => Err (Msg "Couldn't fetch block")
  | answer :: answers =>
      if bool_decide (answer.1 ∈ ret_preferred_peer r :: peers) then
        match request_block r request answer with
        | Err _ => first_accepted r request peers answers
        | res => res
        end
      else first_accepted r request peers answers
  end.

Definition retrieve_block_for_id_chunk (block_id target_block_id : HashValue) (retrieve_batch_size : N)
    (peers : list AccountAddress) (epoch : option N) : R BlockRetrievalResponse := λ '(s, r),
  let request :=
    match epoch with
    | Some epoch => new_with_epoch block_id retrieve_batch_size target_block_id epoch
    | None => new_with_target_block_id block_id retrieve_batch_size target_block_id
    end in
  match ret_answers r with
  | [] => (Err (Msg "Couldn't fetch block"), (s, r))
  | answers :: rest => (first_accepted r request peers answers, (s, with_answers rest r))
  end.

Record Fetched := {
  fe_blocks : list RetrievedBlock;
  fe_quorum_certs : list QuorumCert;
  fe_ledger_infos : list LedgerInfoWithSignatures;
}.

Definition Fetched_empty : Fetched := {| fe_blocks := []; fe_quorum_certs := []; fe_ledger_infos := [] |}.

Definition extend (f : Fetched) (response : BlockRetrievalResponse) : Fetched :=
  {| fe_blocks := fe_blocks f ++ brs_blocks response;
     fe_quorum_certs := fe_quorum_certs f ++ brs_quorum_certs response;
     fe_ledger_infos := fe_ledger_infos f ++ brs_ledger_infos response |}.

Definition prefetch_all (blocks : list RetrievedBlock) : R unit :=
  try_for_each (λ '(b, _, _), in_store (prefetch b)) blocks.

(** [batch.last().expect("Batch should not be empty").0.parent_id()]. *)
Definition last_parent (blocks : list RetrievedBlock) : result Anyhow HashValue :=
  b ← expect "Batch should not be empty" (last blocks); Ok (Block_parent_id b.1.1).

(** The loop of [retrieve_block_for_id]: every round uses up the answers of a chunk,
    which [fuel] counts. *)
Fixpoint retrieve_loop (fuel : nat) (target_block_id : HashValue) (peers : list AccountAddress)
    (num_blocks : N) (epoch : option N) (progress retrieve_batch_size : N) (last_block_id : HashValue)
    (acc : Fetched) : R Fetched :=
  if num_blocks <=? progress then mret acc
  else match fuel with
  | O => lift (Panic "out of fuel")
  | S fuel =>
      let retrieve_batch_size := N.min retrieve_batch_size (num_blocks - progress) in
      λ st,
      match retrieve_block_for_id_chunk last_block_id target_block_id retrieve_batch_size peers epoch st with
      | (Panic m, st) => (Panic m, st)
      | (Err _, st) => (Err (Msg "Failed to fetch block"), st)
      | (Ok result, st) =>
          match brs_status result with
          | Succeeded =>
              (_ ← prefetch_all (brs_blocks result);
               progress ← lift (add_u64 progress (N.of_nat (length (brs_blocks result))));
               last_block_id ← lift (last_parent (brs_blocks result));
               retrieve_loop fuel target_block_id peers num_blocks epoch progress retrieve_batch_size
                 last_block_id (extend acc result)) st
          | SucceededWithTarget =>
              (_ ← prefetch_all (brs_blocks result); mret (extend acc result)) st
          | _ => (Err (Msg "Failed to fetch block"), st)
          end
      end
  end.

Definition retrieve_block_for_id (block_id target_block_id : HashValue) (peers : list AccountAddress)
    (num_blocks : N) (epoch : option N) : R Fetched := λ st,
  if bool_decide (peers = []) then (Err (Msg "Failed to fetch block: no peers available"), st)
  else
    retrieve_loop (S (length (ret_answers st.2))) target_block_id peers num_blocks epoch 0
      (ret_max_blocks_to_request st.2) block_id Fetched_empty st.

Definition retrieve_block_by_epoch (epoch : N) (target_block_id : HashValue) (peers : list AccountAddress)
    : R Fetched := λ st,
  match retrieve_block_for_id_chunk HashValue_zero target_block_id (ret_max_blocks_to_request st.2) peers
          (Some epoch) st with
  | (Panic m, st) => (Panic m, st)
  | (Err _, st) => (Err (Msg "Failed to fetch epoch"), st)
  | (Ok result, st) =>
      match brs_status result with
      | Succeeded =>
          (_ ← prefetch_all (brs_blocks result);
           last_block_id ← lift (last_parent (brs_blocks result));
           other ← retrieve_block_for_id last_block_id target_block_id peers u64_max (Some epoch);
           let acc := extend Fetched_empty result in
           mret {| fe_blocks := fe_blocks acc ++ fe_blocks other;
                   fe_quorum_certs := fe_quorum_certs acc ++ fe_quorum_certs other;
                   fe_ledger_infos := fe_ledger_infos acc ++ fe_ledger_infos other |}) st
      | SucceededWithTarget =>
          (_ ← prefetch_all (brs_blocks result); mret (extend Fetched_empty result)) st
      | _ => (Err (Msg "Failed to fetch epoch"), st)
      end
  end.

Definition retrieve_blocks_in_range (initial_block_id : HashValue) (num_blocks : N)
    (target_block_id : HashValue) (peers : list AccountAddress) : R Fetched :=
  retrieve_block_for_id initial_block_id target_block_id peers num_blocks None.

(** ** Synchronization *)

(** The peers a certificate is fetched from. *)
Definition voters (qc : QuorumCert) : R (list AccountAddress) :=
  is_validator ← reads_store (λ s, Ok (sc_is_validator (bs_config s)));
  peers ← reads_retriever ret_available_peers;
  mret (if is_validator : bool then liws_get_voters (qc_signed_ledger_info qc) peers else peers).

(** The first loop of [fetch_quorum_cert]; the block fetched last comes first. *)
Fixpoint fetch_ancestors (fuel : nat) (qc retrieve_qc : QuorumCert) (pending : list RetrievedBlock)
    : R (list RetrievedBlock) :=
  let id := bi_id (certified_block retrieve_qc) in
  exists_ ← reads_store (λ s, Ok (block_exists (bs_inner s) id));
  if exists_ : bool then mret pending
  else match fuel with
  | O => lift (Panic "out of fuel")
  | S fuel =>
      peers ← voters qc;
      fetched ← retrieve_blocks_in_range id 1 id peers;
      match fe_blocks fetched with
      | [] => mret pending
      | block :: _ => fetch_ancestors fuel qc (Block_quorum_cert block.1.1) (block :: pending)
      end
  end.

(** The second loop: oldest block first. *)
Fixpoint insert_fetched (pending : list RetrievedBlock) : B unit :=
  match pending with
  | [] => mret tt
  | (block, block_number, randomness) :: pending =>
      _ ← insert_single_quorum_cert (Block_quorum_cert block) false;
      _ ← store_insert_block block false;
      _ ← (match randomness with
           | None => mret tt
           | Some randomness =>
               block_number ← lift (ok_or (Msg "randomness payload missing block number for block") block_number);
               _ ← gets (λ s, expect "called `Option::unwrap()` on a `None` value"
                                (get_block (bs_inner s) (block_id block)));
               _ ← modify (set_cell_randomness (block_id block)
                             (Randomness_new (Block_epoch block) (Block_round block) randomness));
               on_storage (on_db (put_randomness [(block_number, randomness)]))
           end);
      insert_fetched pending
  end.

Definition fetch_quorum_cert (qc : QuorumCert) : R unit := λ st,
  (pending ← fetch_ancestors (S (length (ret_answers st.2))) qc qc [];
   _ ← in_store (insert_fetched pending);
   in_store (insert_single_quorum_cert qc false)) st.

Definition sync_insert_quorum_cert (qc : QuorumCert) : R unit :=
  need ← reads_store (need_fetch_for_quorum_cert qc);
  let execute : R unit :=
    root ← reads_store (λ s, ordered_root (bs_inner s));
    if Block_round root <? bi_round (QuorumCert_commit_info qc) then
      _ ← in_store (send_for_execution (into_wrapped_ledger_info qc) false None);
      if QuorumCert_ends_epoch qc then in_store (emit (BroadcastEpochChange (qc_signed_ledger_info qc)))
      else mret tt
    else mret tt in
  match need with
  | NeedFetch => _ ← fetch_quorum_cert qc; execute
  | QCBlockExist => _ ← in_store (insert_single_quorum_cert qc false); execute
  | QCAlreadyExist => mret tt
  | QCRoundBeforeRoot => execute
  end.

Definition store_insert_ordered_cert (ordered_cert : WrappedLedgerInfo) : B unit :=
  root ← gets (λ s, ordered_root (bs_inner s));
  if Block_round root <? li_round (liws_ledger_info (wli_signed_ledger_info ordered_cert)) then
    block ← gets (λ s, Ok (get_block (bs_inner s) (bi_id (WrappedLedgerInfo_commit_info ordered_cert))));
    match block with
    | Some _ => send_for_execution ordered_cert false None
    | None => lift (Err (Msg "Ordered block not found in block store when inserting ordered cert"))
    end
  else mret tt.

(** Saving fetched blocks: the tree, then the randomness; [unwrap] on the number of a
    block that comes with randomness. *)
Definition block_numbers_of (blocks : list RetrievedBlock) : list (N * N * HashValue) :=
  omap (λ '(b, n, _), (λ n, (Block_epoch b, n, block_id b)) <$> n) blocks.

Fixpoint randomness_of (blocks : list RetrievedBlock) : result Anyhow (list (N * bytes)) :=
  match blocks with
  | [] => Ok []
  | (_, n, Some r) :: blocks =>
      n ← expect "called `Option::unwrap()` on a `None` value" n;
      rest ← randomness_of blocks; Ok ((n, r) :: rest)
  | (_, _, None) :: blocks => randomness_of blocks
  end.

Definition save_fetched (blocks : list RetrievedBlock) (quorum_certs : list QuorumCert) : B unit :=
  _ ← on_storage (save_tree (blocks.*1.*1) quorum_certs (block_numbers_of blocks));
  l ← lift (randomness_of blocks);
  on_storage (on_db (put_randomness l)).

Definition save_ledger_infos (ledger_infos : list LedgerInfoWithSignatures) : B unit :=
  batch ← lift (try_fold (λ batch li, put_ledger_info li batch) SchemaBatch_new ledger_infos);
  on_storage (on_db (commit batch)).

(** [assert_eq!(block.id(), quorum_certs[i].certified_block().id())] for every block. *)
Fixpoint check_certified (blocks : list RetrievedBlock) (quorum_certs : list QuorumCert) : result Anyhow unit :=
  match blocks, quorum_certs with
  | [], _ => Ok tt
  | _ :: _, [] => Panic "index out of bounds"
  | b :: blocks, qc :: quorum_certs =>
      _ ← assert_ (bool_decide (block_id b.1.1 = bi_id (certified_block qc))) "assertion failed: left == right";
      check_certified blocks quorum_certs
  end.

(** Recovery from the database and a new tree. *)
Definition recover_and_rebuild (epoch : N) : B unit :=
  latest ← gets (λ s, Ok (bm_latest_commit_block_number (bs_executor s)));
  data ← on_storage (start false epoch latest);
  _ ← on_storage (on_db update_latest_ledger_info);
  rebuild (rd_root data) (rd_blocks data) (rd_quorum_certs data).

(** The epoch change proof at the end of a sync. *)
Definition announce_epoch_change (latest_li : LedgerInfoWithSignatures) : B unit :=
  committed ← (if li_ends_epoch (liws_ledger_info latest_li)
               then gets (is_epoch_change_li_boundary_locally_committed latest_li) else mret false);
  if committed : bool then emit (SendEpochChange latest_li) else mret tt.

(** [expect] on the last of the ledger infos, which are not empty. *)
Definition last_ledger_info (l : list LedgerInfoWithSignatures) : result Anyhow LedgerInfoWithSignatures :=
  expect "called `Option::unwrap()` on a `None` value" (last l).

Definition fast_forward_sync_by_epoch (epoch : N) : R unit :=
  hcc ← reads_store (λ s, Ok (store_highest_commit_cert s));
  peers ← reads_retriever ret_available_peers;
  fetched ← retrieve_block_by_epoch epoch (bi_id (WrappedLedgerInfo_commit_info hcc)) peers;
  let pairs := filter (λ '((b, _, _), _), bi_round (WrappedLedgerInfo_commit_info hcc) < Block_round b)
                 (zip (fe_blocks fetched) (fe_quorum_certs fetched)) in
  let blocks := pairs.*1 in
  let quorum_certs := pairs.*2 in
  if bool_decide (length blocks = 0%nat) then mret tt
  else
    _ ← lift (check_certified blocks quorum_certs);
    _ ← prefetch_all blocks;
    _ ← in_store (save_fetched blocks quorum_certs);
    if bool_decide (length (fe_ledger_infos fetched) = 0%nat) then mret tt
    else
      let ledger_infos := reverse (fe_ledger_infos fetched) in
      _ ← in_store (save_ledger_infos ledger_infos);
      latest_li ← lift (last_ledger_info ledger_infos);
      _ ← in_store (recover_and_rebuild (li_epoch (liws_ledger_info latest_li)));
      in_store (announce_epoch_change latest_li).

Definition fast_forward_sync (highest_quorum_cert : QuorumCert) (commit_cert : WrappedLedgerInfo) : R unit :=
  let id := bi_id (certified_block highest_quorum_cert) in
  num_blocks ← lift (n ← sub_u64 (bi_round (certified_block highest_quorum_cert))
                           (li_round (liws_ledger_info (wli_signed_ledger_info commit_cert)));
                     add_u64 n 1);
  _ ← lift (assert_ (num_blocks <? u64_max) "assertion failed: num_blocks < std::usize::MAX as u64");
  peers ← voters highest_quorum_cert;
  fetched ← retrieve_blocks_in_range id num_blocks (bi_id (WrappedLedgerInfo_commit_info commit_cert)) peers;
  let blocks := fe_blocks fetched in
  first ← lift (expect "blocks are empty" (head blocks));
  _ ← lift (assert_ (bool_decide (block_id first.1.1 = id))
              "Expecting in the retrieval response, first block should be the certified block");
  let quorum_certs := highest_quorum_cert :: ((λ b : RetrievedBlock, Block_quorum_cert b.1.1) <$> take (length blocks - 1) blocks) in
  _ ← lift (assert_ (bool_decide (length blocks = length quorum_certs)) "assertion failed: left == right");
  _ ← lift (check_certified blocks quorum_certs);
  _ ← in_store (save_fetched blocks quorum_certs);
  if bool_decide (length (fe_ledger_infos fetched) = 0%nat) then mret tt
  else
    let ledger_infos := reverse (fe_ledger_infos fetched) in
    _ ← in_store (save_ledger_infos ledger_infos);
    _ ← in_store (on_storage (on_db update_latest_ledger_info));
    latest_li ← lift (last_ledger_info ledger_infos);
    is_validator ← reads_store (λ s, Ok (sc_is_validator (bs_config s)));
    _ ← (if is_validator : bool then
           _ ← in_store (emit (ResetExecution (wli_signed_ledger_info commit_cert)));
           in_store (recover_and_rebuild (li_epoch (liws_ledger_info latest_li)))
         else in_store (append_blocks_for_sync (reverse blocks) (reverse quorum_certs)));
    in_store (announce_epoch_change latest_li).

Definition sync_to_highest_commit_cert (commit_cert : WrappedLedgerInfo) : R unit :=
  let li := wli_signed_ledger_info commit_cert in
  let info := li_commit_info (liws_ledger_info li) in
  '(has_missing_randomness, sync_from_cert) ← reads_store (λ s, find_missing_randomness_block_on_path s li);
  commit ← reads_store (λ s, commit_root (bs_inner s));
  known ← reads_store (λ s, Ok (block_exists (bs_inner s) (bi_id info)));
  ordered ← reads_store (λ s, ordered_root (bs_inner s));
  _ ← (if (Block_round commit <? bi_round info) && known && (bi_round info <=? Block_round ordered)
       then in_store (emit (SendCommitProof li)) else mret tt);
  if (Block_round ordered <? bi_round info) && negb known || has_missing_randomness then
    local ← reads_store (λ s, Ok (store_highest_commit_cert s));
    let sync_from_cert := default local sync_from_cert in
    if bi_round (WrappedLedgerInfo_commit_info sync_from_cert) <? bi_round info then
      order_vote_enabled ← reads_store (λ s, Ok (sc_order_vote_enabled (bs_config s)));
      qc ← lift (expect_ok "called `Result::unwrap()` on an `Err` value"
                   (into_quorum_cert commit_cert order_vote_enabled));
      fast_forward_sync qc sync_from_cert
    else mret tt
  else mret tt.

Definition sync_to_highest_quorum_cert (highest_quorum_cert : QuorumCert) (remote_commit_cert : WrappedLedgerInfo)
    : R unit :=
  need ← reads_store (need_sync_to_highest_quorum_cert highest_quorum_cert);
  if need : bool then
    local_hcc ← reads_store (λ s, Ok (store_highest_commit_cert s));
    fast_forward_sync highest_quorum_cert
      (if bi_round (WrappedLedgerInfo_commit_info remote_commit_cert)
          <? bi_round (WrappedLedgerInfo_commit_info local_hcc)
       then local_hcc else remote_commit_cert)
  else mret tt.

Definition add_certs (sync_info : SyncInfo) : R unit :=
  _ ← sync_to_highest_commit_cert (si_highest_commit_cert sync_info);
  _ ← sync_to_highest_quorum_cert (si_highest_quorum_cert sync_info) (si_highest_commit_cert sync_info);
  _ ← sync_insert_quorum_cert (si_highest_quorum_cert sync_info);
  order_vote_enabled ← reads_store (λ s, Ok (sc_order_vote_enabled (bs_config s)));
  _ ← (if order_vote_enabled : bool then in_store (store_insert_ordered_cert (highest_ordered_cert sync_info))
       else
         cert ← reads_store (λ s, Ok (store_highest_ordered_cert s));
         qc ← lift (into_quorum_cert cert order_vote_enabled);
         sync_insert_quorum_cert qc);
  _ ← (match si_highest_2chain_timeout_cert sync_info with
       | Some tc => in_store (insert_2chain_timeout_certificate tc)
       | None => mret tt
       end);
  in_store replay_ordered_path_if_needed.

End sync_manager.
