(* ===== verification/SyncSpec.v ===== *)
(** * What synchronization promises

    Of the two sides of block retrieval.  The server: an answer is a chain of blocks
    with a certificate for each, and the client accepts it.  The client: when a
    retrieval by block id succeeds, what it fetched is a checked chain from that block
    on, down to a block with parent id zero if there is one, whatever the peers
    answered; and the answer it does not expect, a success without blocks. *)

From S2P Require Import Prelude Gaptos Types Bytes Certificates Payloads Blocks SafetyRules SafetySpec Bft PendingVotes.
From S2P Require Import BlockTree BlockBufferManager BufferItem ConsensusDb Recovery BlockStore SyncManager.

Section sync_spec.
Context {GA : Gaptos} {VE : Verifier} {CR : Crypto} {PI : PartialLedgerInfo} {AT : ApiTypes} {PT : PipelineTypes}.
Context {DT : DbTypes} {SD : SchemaDb} {RY : RecoveryTypes} {ST : StoreTypes} {SY : SyncTypes}.

Implicit Types (s : BlockStore) (r : BlockRetriever) (id : HashValue) (l : list RetrievedBlock).

(** ** Chains *)

(** A block that passed the checks of the client. *)
Definition checked (v : ValidatorVerifier) (now : N) id (b : Block) : Prop :=
  block_id b = id ∧ validate_signature b v = Ok tt ∧ Block_verify_well_formed b now = Ok tt.

(** A chain without gaps, all of it checked. *)
Fixpoint checked_chain (v : ValidatorVerifier) (now : N) id l : Prop :=
  match l with
  | [] => True
  | b :: l => checked v now id b.1.1 ∧ checked_chain v now (Block_parent_id b.1.1) l
  end.

(** The id the chain asks for next. *)
Definition next_id id l : HashValue := from_option (λ b : RetrievedBlock, Block_parent_id b.1.1) id (last l).

Lemma next_id_cons id b l : next_id id (b :: l) = next_id (Block_parent_id b.1.1) l.
Proof. unfold next_id. rewrite last_cons. by destruct (last l). Qed.

Lemma next_id_app id l1 l2 : next_id id (l1 ++ l2) = next_id (next_id id l1) l2.
Proof. unfold next_id. rewrite last_app. by destruct (last l2), (last l1). Qed.

Lemma checked_chain_app v now id l1 l2 :
  checked_chain v now id l1 → checked_chain v now (next_id id l1) l2 → checked_chain v now id (l1 ++ l2).
Proof.
  revert id. induction l1 as [|b l1 IH]; intros id; [done|]. simpl. intros [Hb Hl] H2. split; [done|].
  apply IH; [done|]. by rewrite next_id_cons in H2.
Qed.

(** The blocks are a checked chain; only for the id zero the client skips the checks,
    so that more can follow after a block that names it as its parent. *)
Definition fetched_chain (v : ValidatorVerifier) (now : N) id l : Prop :=
  ∃ l1 l2, l = l1 ++ l2 ∧ checked_chain v now id l1 ∧ (l2 ≠ [] → next_id id l1 = HashValue_zero).

Lemma fetched_chain_app v now id l1 l2 :
  fetched_chain v now id l1 → fetched_chain v now (next_id id l1) l2 → fetched_chain v now id (l1 ++ l2).
Proof.
  intros (a & b & -> & Ha & Hb) (c & d & -> & Hc & Hd).
  destruct b as [|x b]; [|exists a, ((x :: b) ++ c ++ d); rewrite <- app_assoc; auto].
  rewrite app_nil_r in *. exists (a ++ c), d. rewrite app_assoc, next_id_app. split; [done|].
  split; [by apply checked_chain_app|done].
Qed.

Lemma verify_chain_Ok v now id l : verify_chain id l v now = Ok tt → checked_chain v now id l.
Proof.
  revert id. induction l as [|[[b n] rd] l IH]; intros id H; [done|]. simpl in H.
  apply bind_Ok in H as (? & Hb & H). apply bind_Ok in H as ([] & Hs & H). apply bind_Ok in H as ([] & Hw & H).
  apply ensure_Ok in Hb. apply bool_decide_eq_true in Hb. split; [done|by apply IH].
Qed.

(** What is accepted of the answers to a request. *)
Lemma request_block_Ok r request answer response :
  request_block r request answer = Ok response →
  fetched_chain (ret_validators r) (ret_now r) (brq_block_id request) (brs_blocks response).
Proof.
  unfold request_block. intros H. run_inv. destruct (decide (brq_block_id request = HashValue_zero)) as [Hz|Hz].
  - by exists [], (brs_blocks response).
  - rewrite bool_decide_eq_true_2 in * by done.
    match goal with H : BlockRetrievalResponse_verify _ _ _ _ = Ok ?x |- _ => destruct x; rename H into Hv end.
    unfold BlockRetrievalResponse_verify in Hv. apply bind_Ok in Hv as (? & _ & Hv).
    exists (brs_blocks response), []. rewrite app_nil_r. split; [done|]. split; [by apply verify_chain_Ok|done].
Qed.

Lemma first_accepted_Ok r request peers answers response :
  first_accepted r request peers answers = Ok response →
  fetched_chain (ret_validators r) (ret_now r) (brq_block_id request) (brs_blocks response).
Proof.
  induction answers as [|a answers IH]; simpl; [done|]. destruct (bool_decide _); [|done].
  destruct (request_block r request a) as [x|e|m] eqn:Hr; [|done..]. intros [= ->]. by eapply request_block_Ok.
Qed.

(** Prefetching only asks the payload manager. *)
Lemma prefetch_all_run l s r :
  ∃ outs, prefetch_all l (s, r) = (Ok tt, (with_sent (bs_sent s ++ outs) s, r)).
Proof.
  revert s. induction l as [|[[b n] rd] l IH]; intros s.
  { exists []. rewrite app_nil_r. by destruct s. }
  unfold prefetch_all in *. cbn [try_for_each]. unfold mbind, M_bind, in_store at 1, prefetch.
  destruct (Block_payload b) as [p|]; simpl.
  - destruct (IH (with_sent (bs_sent s ++ [PrefetchPayload p (Block_timestamp_usecs b)]) s)) as [outs Ho].
    eexists. etransitivity; [exact Ho|]. simpl. by rewrite <- app_assoc.
  - apply IH.
Qed.

(** Everything but what was sent. *)
Definition same_store s s' : Prop := ∃ outs, s' = with_sent (bs_sent s ++ outs) s.

Lemma same_store_refl s : same_store s s.
Proof. exists []. rewrite app_nil_r. by destruct s. Qed.

Lemma same_store_trans s1 s2 s3 : same_store s1 s2 → same_store s2 s3 → same_store s1 s3.
Proof. intros [o1 ->] [o2 ->]. eexists. simpl. by rewrite <- app_assoc. Qed.

Lemma retrieve_chunk_Ok id target size peers epoch s r response st' :
  retrieve_block_for_id_chunk id target size peers epoch (s, r) = (Ok response, st') →
  ∃ answers rest, ret_answers r = answers :: rest ∧ st' = (s, with_answers rest r) ∧
    fetched_chain (ret_validators r) (ret_now r) id (brs_blocks response).
Proof.
  unfold retrieve_block_for_id_chunk. destruct (ret_answers r) as [|answers rest]; [done|]. intros [= Ha <-].
  exists answers, rest. split_and!; try done. apply first_accepted_Ok in Ha. by destruct epoch.
Qed.

(** The loop: the chain so far is extended with checked blocks. *)
Lemma retrieve_loop_Ok fuel id target peers num epoch progress size last acc s r f s' r' :
  fetched_chain (ret_validators r) (ret_now r) id (fe_blocks acc) → last = next_id id (fe_blocks acc) →
  retrieve_loop fuel target peers num epoch progress size last acc (s, r) = (Ok f, (s', r')) →
  fetched_chain (ret_validators r) (ret_now r) id (fe_blocks f) ∧ same_store s s'.
Proof.
  revert progress size last acc s r. induction fuel as [|fuel IH]; intros progress size last acc s r Hc -> H;
    cbn [retrieve_loop] in H;
    (destruct (num <=? progress); [injection H as <- <- <-; split; [done|apply same_store_refl]|]); [done|].
  destruct (retrieve_block_for_id_chunk _ _ _ _ _ _) as [[response|e|m] [s1 r1]] eqn:Hchunk; [|done..].
  apply retrieve_chunk_Ok in Hchunk as (answers & rest & Hr & [= -> ->] & Hl).
  pose proof (fetched_chain_app _ _ _ _ _ Hc Hl) as Hc'.
  destruct (prefetch_all_run (brs_blocks response) s (with_answers rest r)) as [outs Hpre].
  assert (Hsame : same_store s (with_sent (bs_sent s ++ outs) s)) by by eexists.
  destruct (brs_status response); try done; unfold mbind, M_bind in H; rewrite Hpre in H.
  - unfold lift, last_parent in H. destruct (add_u64 _ _) as [progress'| |]; [|done..].
    destruct (last (brs_blocks response)) as [b|] eqn:Hlast; [|done]. simpl in H.
    apply IH in H as [Hf Hs]; [split; [done|by eapply same_store_trans]|done|].
    unfold next_id. simpl. by rewrite last_app, Hlast.
  - injection H as <- <- <-. done.
Qed.

(** Every round of the loop takes one element of the answers, so that more fuel than
    there are answers makes no difference. *)
Lemma retrieve_loop_fuel fuel fuel' target peers num epoch progress size last acc s r :
  (length (ret_answers r) < fuel)%nat → (fuel ≤ fuel')%nat →
  retrieve_loop fuel' target peers num epoch progress size last acc (s, r) =
  retrieve_loop fuel target peers num epoch progress size last acc (s, r).
Proof.
  revert fuel' progress size last acc s r. induction fuel as [|fuel IH]; intros fuel' progress size last acc s r Hlen Hle; [lia|].
  destruct fuel' as [|fuel']; [lia|]. cbn [retrieve_loop]. destruct (num <=? progress); [done|].
  destruct (retrieve_block_for_id_chunk _ _ _ _ _ _) as [[response|e|m] [s1 r1]] eqn:Hchunk; [|done..].
  apply retrieve_chunk_Ok in Hchunk as (answers & rest & Hr & [= -> ->] & _). rewrite Hr in Hlen. simpl in Hlen.
  destruct (prefetch_all_run (brs_blocks response) s (with_answers rest r)) as [outs Hpre].
  destruct (brs_status response); try done. unfold mbind, M_bind. rewrite Hpre. unfold lift.
  destruct (add_u64 _ _); [|done..]. destruct (last_parent _); [|done..]. apply IH; simpl; lia.
Qed.

(** The certificates [fast_forward_sync] pairs the blocks with: the one it started from,
    then the one each block carries for its parent. *)
Definition certs_from (qc : QuorumCert) l : list QuorumCert :=
  qc :: ((λ b : RetrievedBlock, Block_quorum_cert b.1.1) <$> take (length l - 1) l).

(** A checked block is no block of the DAG, and its parent is the block its certificate
    certifies. *)
Lemma checked_parent v now id b : checked v now id b → bi_id (certified_block (Block_quorum_cert b)) = Block_parent_id b.
Proof.
  intros (_ & Hs & _). unfold validate_signature in Hs. unfold Block_parent_id, BlockData_parent_id, Block_quorum_cert.
  by destruct (bd_block_type (block_block_data b)).
Qed.

Lemma chain_certified v now id l qc :
  checked_chain v now id l → l ≠ [] → bi_id (certified_block qc) = id → check_certified l (certs_from qc l) = Ok tt.
Proof.
  revert id qc. induction l as [|b l IH]; intros id qc Hc Hne Hq; [done|].
  destruct Hc as [Hchk Hl]. pose proof Hchk as (Hb & _). simpl. rewrite bool_decide_eq_true_2 by congruence. simpl.
  destruct l as [|b' l]; [done|].
  specialize (IH (Block_parent_id b.1.1) (Block_quorum_cert b.1.1) Hl ltac:(done) (checked_parent _ _ _ _ Hchk)).
  unfold certs_from in IH. simpl in IH. rewrite Nat.sub_0_r in IH. apply IH.
Qed.

(** C20: What a retrieval of blocks by id returns, when it succeeds, whatever the peers
    answered: nothing of the store but the requests to the payload manager has
    changed; the blocks are a chain of checked blocks from the block that was asked
    for, each the parent of the one before, down to a block with parent id zero if
    there is one, behind which further blocks would be unchecked; and the
    certificates [fast_forward_sync] pairs the chain with pass its assertion.
    Retrieval by epoch, which asks with the id zero, is not covered: its first
    answer is used unchecked. *)
Theorem fetched_blocks_chain id target peers num epoch s r f s' r' :
  retrieve_block_for_id id target peers num epoch (s, r) = (Ok f, (s', r')) → id ≠ HashValue_zero →
  same_store s s' ∧
  ∃ l more, fe_blocks f = l ++ more ∧ checked_chain (ret_validators r) (ret_now r) id l ∧
    (more ≠ [] → ∃ b, last l = Some b ∧ Block_parent_id b.1.1 = HashValue_zero) ∧
    ∀ qc, bi_id (certified_block qc) = id → l ≠ [] → check_certified l (certs_from qc l) = Ok tt.
Proof.
  unfold retrieve_block_for_id. destruct (bool_decide _); [done|]. intros H Hid.
  apply (retrieve_loop_Ok _ id) in H as [(l & more & Hl & Hc & Hz) Hs]; [|by exists [], []|done].
  split; [done|]. exists l, more. split; [done|]. split; [done|]. split.
  - intros Hne%Hz. unfold next_id in Hne. destruct (last l) as [b|]; [by eauto|done].
  - intros qc Hq Hne. by eapply chain_certified.
Qed.

(** ** The server *)

(** The store holds for an id the block with that id, checked unless it is the genesis
    block, and a certificate of the block that names its parent. *)
Record serves (v : ValidatorVerifier) (now : N) (epoch : N) s : Prop := {
  sv_block id b qc : find_block s epoch id = Ok (Some (b, Some qc)) →
    block_id b = id ∧ bi_id (certified_block qc) = id;
  sv_checked id b qc : find_block s epoch id = Ok (Some (b, Some qc)) → Block_is_genesis_block b = false →
    checked v now id b;
  sv_genesis id b qc b' qc' : find_block s epoch id = Ok (Some (b, Some qc)) →
    find_block s epoch (Block_parent_id b) = Ok (Some (b', Some qc')) → Block_is_genesis_block b' = true →
    bi_id (vd_parent (qc_vote_data qc)) ≠ HashValue_zero ∧ bi_round (vd_parent (qc_vote_data qc)) = 0;
}.

(** A block that is found is in the tree or in the database. *)
Lemma find_block_cases s epoch id b qc :
  find_block s epoch id = Ok (Some (b, Some qc)) →
  get_block (bs_inner s) id = Some b ∧ get_quorum_cert_for_block s id = Some qc ∨
  get_db_block epoch id (consensus_db s) = Ok (Some b).
Proof.
  unfold find_block. destruct (get_block _ _); [intros [= <- ?]; by left|].
  intros (o & Ho & H)%bind_Ok. right. destruct o as [b'|]; [|done]. apply bind_Ok in H as (? & _ & [= -> _]).
  unfold read_or_none in Ho. by destruct (get_db_block _ _ _); simplify_eq.
Qed.

Lemma checked_chain_verified v now id l : checked_chain v now id l → verify_chain id l v now = Ok tt.
Proof.
  revert id. induction l as [|[[b n] rd] l IH]; intros id; [done|]. simpl. intros [(Hb & Hs & Hw) Hl].
  rewrite bool_decide_eq_true_2, Hs, Hw by done. by apply IH.
Qed.

(** Where an answer ends. *)
Definition ends_well (request : BlockRetrievalRequest) (status : BlockRetrievalStatus) (room : nat) l : Prop :=
  match status with
  | Succeeded => length l = room
  | SucceededWithTarget => l ≠ []
  | _ => True
  end.

Lemma collect_blocks_Ok v now epoch s request room id acc status acc' :
  serves v now epoch s →
  (∀ b qc, find_block s epoch id = Ok (Some (b, Some qc)) → Block_is_genesis_block b = false) →
  collect_blocks room s request epoch id acc = Ok (status, acc') →
  ∃ l qcs, acc' = {| rt_blocks := rt_blocks acc ++ l; rt_quorum_certs := rt_quorum_certs acc ++ qcs |} ∧
    checked_chain v now id l ∧ check_certified l qcs = Ok tt ∧ (length l ≤ room)%nat ∧
    ends_well request status room l.
Proof.
  intros Hs. revert id acc. induction room as [|room IH]; intros id acc Hg H; simpl in H.
  { injection H as <- <-. exists [], []. rewrite !app_nil_r. split_and!; try done. by destruct acc. }
  assert (Hend : ∀ status', status' ≠ Succeeded → status' ≠ SucceededWithTarget → Ok (status', acc) = @Ok Anyhow _ (status, acc') →
    ∃ l qcs, acc' = {| rt_blocks := rt_blocks acc ++ l; rt_quorum_certs := rt_quorum_certs acc ++ qcs |} ∧
    checked_chain v now id l ∧ check_certified l qcs = Ok tt ∧ (length l ≤ S room)%nat ∧ ends_well request status (S room) l).
  { intros status' H1 H2 [= <- <-]. exists [], []. rewrite !app_nil_r. split_and!; try done; [by destruct acc|simpl; lia|by destruct status']. }
  apply bind_Ok in H as (found & Hf & H). destruct found as [[b [qc|]]|]; [|by apply (Hend QuorumCertNotFound)|by apply (Hend NotEnoughBlocks)].
  destruct (sv_block _ _ _ _ Hs _ _ _ Hf) as [Hb Hq]. pose proof (sv_checked _ _ _ _ Hs _ _ _ Hf (Hg _ _ Hf)) as Hc.
  apply bind_Ok in H as (rd & Hrd & H).
  destruct (match_target_id request id || (bool_decide _ && _)) eqn:Hstop.
  - injection H as <- <-. exists [(b, block_block_number b, rd)], [qc]. simpl.
    rewrite bool_decide_eq_true_2 by congruence. split_and!; try done. lia.
  - apply orb_false_iff in Hstop as [_ Hstop]. apply IH in H as (l & qcs & -> & Hl & Hcert & Hlen & He).
    + exists ((b, block_block_number b, rd) :: l), (qc :: qcs). simpl. rewrite <- !app_assoc.
      rewrite bool_decide_eq_true_2 by congruence. split_and!; try done; [lia|]. destruct status; simpl in *; [lia|done..].
    + intros b' qc' Hb'. destruct (Block_is_genesis_block b') eqn:Hgen; [|done].
      destruct (sv_genesis _ _ _ _ Hs _ _ _ _ _ Hf Hb' Hgen) as [Hz Hr]. apply andb_false_iff in Hstop as [Hstop|Hstop].
      * by apply bool_decide_eq_false in Hstop.
      * by apply N.eqb_neq in Hstop.
Qed.

(** Where a request starts. *)
Definition retrieval_epoch (request : BlockRetrievalRequest) s : result Anyhow N :=
  match brq_epoch request with
  | Some epoch => Ok epoch
  | None => root ← ordered_root (bs_inner s); Ok (Block_epoch root)
  end.

(** C21: An answer of an honest server to a request for a block is accepted by the
    client, every block of it comes with its certificate, there are no more blocks
    than were asked for, and exactly as many when it is complete. *)
Theorem served_answer_accepted request s r peer epoch response :
  retrieval_epoch request s = Ok epoch → brq_block_id request ≠ HashValue_zero →
  serves (ret_validators r) (ret_now r) epoch s →
  (∀ b qc, find_block s epoch (brq_block_id request) = Ok (Some (b, Some qc)) → Block_is_genesis_block b = false) →
  process_block_retrieval request s = Ok response → peer ≠ ret_author r →
  request_block r request (peer, Ok response) = Ok response ∧
  check_certified (brs_blocks response) (brs_quorum_certs response) = Ok tt ∧
  N.of_nat (length (brs_blocks response)) ≤ brq_num_blocks request ∧
  match brs_status response with
  | Succeeded => N.of_nat (length (brs_blocks response)) = brq_num_blocks request
  | SucceededWithTarget => brs_blocks response ≠ []
  | _ => True
  end.
Proof.
  intros He Hz Hs Hg H Hp. unfold process_block_retrieval in H.
  assert (Hstart : ∀ start, (match brq_epoch request with
           | Some epoch =>
               if bool_decide (brq_block_id request ≠ HashValue_zero)
               then Ok (epoch, brq_block_id request, {| rt_blocks := []; rt_quorum_certs := [] |})
               else '(id, acc) ← epoch_start_point s epoch; Ok (epoch, id, acc)
           | None =>
               root ← ordered_root (bs_inner s);
               Ok (Block_epoch root, brq_block_id request, {| rt_blocks := []; rt_quorum_certs := [] |})
           end) = Ok start → start = (epoch, brq_block_id request, {| rt_blocks := []; rt_quorum_certs := [] |})).
  { intros start. unfold retrieval_epoch in He. destruct (brq_epoch request) as [e|].
    - rewrite bool_decide_eq_true_2 by done. congruence.
    - destruct (ordered_root _); simpl in *; congruence. }
  apply bind_Ok in H as (start & ->%Hstart & H). rewrite Nat.sub_0_r in H.
  apply bind_Ok in H as ([status acc] & Hcol & H). apply bind_Ok in H as (lis & _ & H). injection H as <-. simpl.
  apply (collect_blocks_Ok (ret_validators r) (ret_now r)) in Hcol as (l & qcs & -> & Hl & Hcert & Hlen & Hend); [|done..].
  simpl. split_and!; [|done|lia|destruct status; simpl in *; [lia|done..]].
  unfold request_block. simpl. rewrite !bool_decide_eq_true_2 by done. simpl. unfold BlockRetrievalResponse_verify. simpl.
  rewrite checked_chain_verified by done.
  assert (bool_decide (status ≠ Succeeded) || (N.of_nat (length l) =? brq_num_blocks request) = true) as ->; [|done].
  apply orb_true_iff. destruct status; [right|left; by apply bool_decide_eq_true..]. simpl in Hend. apply N.eqb_eq. lia.
Qed.

(** C34: A peer that answers with success at the target but without blocks makes the
    node panic: the check of an answer accepts it, and [fast_forward_sync] expects a
    first block. *)
Theorem empty_answer_panics highest_quorum_cert commit_cert s r peer rest lis qcs :
  ret_answers r = [(peer, Ok {| brs_status := SucceededWithTarget; brs_blocks := []; brs_ledger_infos := lis;
                                brs_quorum_certs := qcs |})] :: rest →
  peer = ret_preferred_peer r → peer ≠ ret_author r → sc_is_validator (bs_config s) = true →
  liws_get_voters (qc_signed_ledger_info highest_quorum_cert) (ret_available_peers r) ≠ [] →
  li_round (liws_ledger_info (wli_signed_ledger_info commit_cert)) ≤ bi_round (certified_block highest_quorum_cert) →
  bi_round (certified_block highest_quorum_cert) + 1 < u64_max →
  fast_forward_sync highest_quorum_cert commit_cert (s, r) = (Panic "blocks are empty", (s, with_answers rest r)).
Proof.
  intros Ha -> Hne Hval Hv Hle Hmax. unfold fast_forward_sync, mbind, M_bind, lift.
  rewrite sub_u64_fits by done. simpl. rewrite add_u64_fits by lia.
  rewrite (proj2 (N.ltb_lt _ _)) by lia. simpl. rewrite Hval.
  unfold retrieve_blocks_in_range, retrieve_block_for_id. rewrite bool_decide_eq_false_2 by done. cbn [retrieve_loop].
  rewrite (proj2 (N.leb_gt _ _)) by lia. unfold retrieve_block_for_id_chunk. rewrite Ha. cbn [first_accepted].
  rewrite bool_decide_eq_true_2 by set_solver. unfold request_block. cbn [fst snd].
  rewrite (bool_decide_eq_true_2 (ret_preferred_peer r ≠ ret_author r)) by done. simpl. by destruct (bool_decide _).
Qed.

End sync_spec.
