(* ===== verification/Election.v ===== *)
(** * Leader election (consensus/src/liveness)

    The [ProposerElection] trait with its default methods, the weighted choice
    of an index (proposer_election.rs), rotating and per-round proposers, the
    cache in front of an election (cached_proposer_election.rs) and the check
    that a leader proposes one block per round
    (unequivocal_proposer_election.rs).  An election is a record of stateful
    operations, so that the wrappers are functions from elections to elections
    and their theorems hold for every election they may wrap. *)

From S2P Require Import Prelude Gaptos Types Bytes Floats Certificates Payloads Blocks ConsensusDb.

(** What elections take from [gaptos]: SHA-3 and the order of addresses. *)
Class ElectionTypes {GA : Gaptos} := {
  sha3_256_of : bytes → HashValue;
  address_leb : AccountAddress → AccountAddress → bool;
}.

Definition rem_u128 {E} (a b : N) : result E N :=
  if b =? 0 then Panic "attempt to calculate the remainder with a divisor of zero"
  else Ok (a mod b).

(** [slice::binary_search_by]: the loop halves the range, [fuel] bounds its
    length. *)
Fixpoint binary_search_loop {A} (fuel : nat) (f : A → comparison) (l : list A) (base size : nat)
    : option nat :=
  match fuel with
  | O => None
  | S fuel =>
      if (1 <? size)%nat then
        let half := (size / 2)%nat in
        let mid := (base + half)%nat in
        match l !! mid with
        | None => None
        | Some x =>
            binary_search_loop fuel f l
              (match f x with Gt => base | _ => mid end) (size - half)%nat
        end
      else Some base
  end.

(** [inl] is [Ok], [inr] is [Err]; [None] is not reached. *)
Definition binary_search_by {A} (f : A → comparison) (l : list A) : option (nat + nat) :=
  if bool_decide (length l = 0%nat) then Some (inr 0%nat)
  else
    base ← binary_search_loop (length l) f l 0 (length l);
    x ← l !! base;
    Some match f x with
         | Eq => inl base
         | Lt => inr (S base)
         | Gt => inr base
         end.

Section election.
Context {GA : Gaptos} {VE : Verifier} {CR : Crypto} {DT : DbTypes} {ET : ElectionTypes}.

(** ** The weighted choice (proposer_election.rs) *)

Definition next_in_range (state : bytes) (max : N) : result Anyhow N :=
  let hash := hash_to_vec (sha3_256_of state) in
  _ ← assert_ (16 <=? length hash)%nat "range end index out of range";
  rem_u128 (from_le_bytes (take 16 hash)) max.

(** The running totals, with the total. *)
Fixpoint cumulate (total_weight : N) (weights : list N) : result Anyhow (N * list N) :=
  match weights with
  | [] => Ok (total_weight, [])
  | w :: weights =>
      total_weight ← (if total_weight + w <=? u128_max then Ok (total_weight + w)
                      else Panic "Total stake shouldn't exceed u128::MAX");
      rest ← cumulate total_weight weights;
      Ok (rest.1, total_weight :: rest.2)
  end.

Definition choose_index (weights : list N) (state : bytes) : result Anyhow nat :=
  r ← cumulate 0 weights;
  let '(total_weight, weights) := r in
  chosen_weight ← next_in_range state total_weight;
  match binary_search_by (λ w, if w <=? chosen_weight then Lt else Gt) weights with
  | Some (inr i) => Ok i
  | _ => Panic "Comparison never returns equals, so it's always guaranteed to be error"
  end.

(** ** The trait *)

Record ProposerElectionCacheKey := {
  pk_round : Round;
  pk_version : option bytes;
}.

Definition ProposerElectionCacheKey_new (round : Round) : ProposerElectionCacheKey :=
  {| pk_round := round; pk_version := None |}.

Definition ProposerElectionCacheKey_with_version (round : Round) (version : bytes)
    : ProposerElectionCacheKey :=
  {| pk_round := round; pk_version := Some version |}.

(** The derived order: by round, then by version; [None] is below every version. *)
Definition key_ltb (k1 k2 : ProposerElectionCacheKey) : bool :=
  (pk_round k1 <? pk_round k2) ||
  (pk_round k1 =? pk_round k2) &&
  match pk_version k1, pk_version k2 with
  | None, Some _ => true
  | Some v1, Some v2 => bytes_ltb v1 v2
  | _, None => false
  end.

#[global] Instance ProposerElectionCacheKey_eqdec : EqDecision ProposerElectionCacheKey.
Proof. solve_decision. Defined.

#[global] Instance ProposerElectionCacheKey_countable : Countable ProposerElectionCacheKey.
Proof.
  refine (inj_countable' (λ k, (pk_round k, pk_version k))
    (λ x, {| pk_round := x.1; pk_version := x.2 |}) _). by intros [].
Defined.

Record ProposerElection (St : Type) := {
  get_valid_proposer : Round → M St Anyhow Author;
  get_voting_power_participation_ratio : Round → M St Anyhow f64;
  get_valid_proposer_and_ratio : Round → M St Anyhow (Author * f64);
  cache_key : Round → M St Anyhow (option ProposerElectionCacheKey);
}.
Arguments get_valid_proposer {_} _ _.
Arguments get_voting_power_participation_ratio {_} _ _.
Arguments get_valid_proposer_and_ratio {_} _ _.
Arguments cache_key {_} _ _.

(** The default methods. *)
Definition is_valid_proposer {St} (pe : ProposerElection St) (author : Author) (round : Round)
    : M St Anyhow bool :=
  p ← get_valid_proposer pe round; mret (bool_decide (p = author)).

Definition default_ratio {St} (round : Round) : M St Anyhow f64 := mret f64_one.

Definition default_proposer_and_ratio {St} (proposer : Round → M St Anyhow Author)
    (ratio : Round → M St Anyhow f64) (round : Round) : M St Anyhow (Author * f64) :=
  p ← proposer round; r ← ratio round; mret (p, r).

Definition default_cache_key {St} (round : Round)
    : M St Anyhow (option ProposerElectionCacheKey) :=
  mret (Some (ProposerElectionCacheKey_new round)).

(** An election that only chooses the proposer. *)
Definition simple_election {St} (proposer : Round → M St Anyhow Author) : ProposerElection St :=
  {| get_valid_proposer := proposer;
     get_voting_power_participation_ratio := default_ratio;
     get_valid_proposer_and_ratio := default_proposer_and_ratio proposer default_ratio;
     cache_key := default_cache_key |}.

(** ** Rotating proposers (rotating_proposer_election.rs) *)

Record RotatingProposer := {
  rp_proposers : list Author;
  rp_contiguous_rounds : N;
}.

(** [Iterator::min]: the first of the least elements. *)
Definition choose_leader (peers : list Author) : result Anyhow Author :=
  match peers with
  | [] => Panic "No trusted peers found!"
  | p :: peers => Ok (foldl (λ m x, if address_leb m x then m else x) p peers)
  end.

Definition RotatingProposer_new (proposers : list Author) (contiguous_rounds : N)
    : result Anyhow RotatingProposer :=
  _ ← assert_ (bool_decide (length proposers ≠ 0%nat)) "RotatingProposer requires at least one proposer";
  _ ← assert_ (0 <? contiguous_rounds) "contiguous_rounds must be greater than 0";
  Ok {| rp_proposers := proposers; rp_contiguous_rounds := contiguous_rounds |}.

Definition rotating_get_valid_proposer (rp : RotatingProposer) (round : Round)
    : result Anyhow Author :=
  _ ← assert_ (negb (rp_contiguous_rounds rp =? 0)) "attempt to divide by zero";
  i ← (if bool_decide (length (rp_proposers rp) = 0%nat)
       then Panic "attempt to calculate the remainder with a divisor of zero"
       else Ok ((round / rp_contiguous_rounds rp) mod N.of_nat (length (rp_proposers rp))));
  expect "index out of bounds" (rp_proposers rp !! N.to_nat i).

Definition rotating_election : ProposerElection RotatingProposer :=
  simple_election (λ round, gets (λ rp, rotating_get_valid_proposer rp round)).

(** ** Proposers per round (round_proposer_election.rs) *)

Record RoundProposer := {
  rop_proposers : gmap Round Author;
  rop_default_proposer : Author;
}.

Definition round_get_valid_proposer (rp : RoundProposer) (round : Round) : Author :=
  default (rop_default_proposer rp) (rop_proposers rp !! round).

Definition round_election : ProposerElection RoundProposer :=
  simple_election (λ round, gets (λ rp, Ok (round_get_valid_proposer rp round))).

(** A computation on a part of the state. *)
Definition zoom {S1 S2 A} (get_part : S1 → S2) (set_part : S2 → S1 → S1) (c : M S2 Anyhow A)
    : M S1 Anyhow A := λ s,
  let '(r, p) := c (get_part s) in (r, set_part p s).

(** ** One proposal per round (unequivocal_proposer_election.rs) *)

Record UnequivocalProposerElection (St : Type) := {
  ue_proposer_election : St;
  ue_already_proposed : Round * HashValue;
}.
Arguments ue_proposer_election {_} _.
Arguments ue_already_proposed {_} _.

Definition set_ue_proposer_election {St} (s : St) (u : UnequivocalProposerElection St)
    : UnequivocalProposerElection St :=
  {| ue_proposer_election := s; ue_already_proposed := ue_already_proposed u |}.

Definition set_already_proposed {St} (p : Round * HashValue) (u : UnequivocalProposerElection St)
    : UnequivocalProposerElection St :=
  {| ue_proposer_election := ue_proposer_election u; ue_already_proposed := p |}.

Definition UnequivocalProposerElection_new {St} (proposer_election : St)
    : UnequivocalProposerElection St :=
  {| ue_proposer_election := proposer_election; ue_already_proposed := (0, HashValue_zero) |}.

(** Its other two methods are the default ones. *)
Definition unequivocal_election {St} (pe : ProposerElection St)
    : ProposerElection (UnequivocalProposerElection St) :=
  let proposer := λ round, zoom ue_proposer_election set_ue_proposer_election
                             (get_valid_proposer pe round) in
  let ratio := λ round, zoom ue_proposer_election set_ue_proposer_election
                          (get_voting_power_participation_ratio pe round) in
  {| get_valid_proposer := proposer;
     get_voting_power_participation_ratio := ratio;
     get_valid_proposer_and_ratio := default_proposer_and_ratio proposer ratio;
     cache_key := default_cache_key |}.

(** Under the lock: compare with the proposal remembered. *)
Definition remember_proposal {St} (round : Round) (id : HashValue)
    : M (UnequivocalProposerElection St) Anyhow bool := λ u,
  let already_proposed := ue_already_proposed u in
  match round ?= already_proposed.1 with
  | Gt => (Ok true, set_already_proposed (round, id) u)
  | Eq => (Ok (bool_decide (already_proposed.2 = id)), u)
  | Lt => (Ok false, u)
  end.

Definition is_valid_proposal {St} (pe : ProposerElection St) (block : Block)
    : M (UnequivocalProposerElection St) Anyhow bool :=
  match Block_author block with
  | None => mret false
  | Some author =>
      valid_author ← is_valid_proposer (unequivocal_election pe) author (Block_round block);
      if (valid_author : bool) then remember_proposal (Block_round block) (block_id block)
      else mret false
  end.

(** ** The cache (cached_proposer_election.rs) *)

Record CachedProposerElection (St : Type) := {
  ce_epoch : N;
  ce_proposer_election : St;
  ce_recent_elections : gmap ProposerElectionCacheKey (Author * f64);
  ce_window : N;
}.
Arguments ce_epoch {_} _.
Arguments ce_proposer_election {_} _.
Arguments ce_recent_elections {_} _.
Arguments ce_window {_} _.

Definition CachedProposerElection_new {St} (epoch : N) (proposer_election : St) (window : N)
    : CachedProposerElection St :=
  {| ce_epoch := epoch; ce_proposer_election := proposer_election; ce_recent_elections := ∅;
     ce_window := window |}.

Definition set_ce_proposer_election {St} (s : St) (c : CachedProposerElection St)
    : CachedProposerElection St :=
  {| ce_epoch := ce_epoch c; ce_proposer_election := s;
     ce_recent_elections := ce_recent_elections c; ce_window := ce_window c |}.

Definition set_recent_elections {St} (m : gmap ProposerElectionCacheKey (Author * f64))
    (c : CachedProposerElection St) : CachedProposerElection St :=
  {| ce_epoch := ce_epoch c; ce_proposer_election := ce_proposer_election c;
     ce_recent_elections := m; ce_window := ce_window c |}.

(** [BTreeMap::split_off]: the entries from [key] on stay. *)
Definition split_off (key : ProposerElectionCacheKey)
    (m : gmap ProposerElectionCacheKey (Author * f64))
    : gmap ProposerElectionCacheKey (Author * f64) :=
  filter (λ kv, key_ltb kv.1 key = false) m.

Definition drop_old_elections {St} (round : Round) (c : CachedProposerElection St)
    : CachedProposerElection St :=
  if ce_window c <? round then
    set_recent_elections
      (split_off (ProposerElectionCacheKey_new (round - ce_window c)) (ce_recent_elections c)) c
  else c.

(** [entry(cache_key).or_insert_with(compute)]. *)
Definition or_insert_with {St} (key : ProposerElectionCacheKey)
    (compute : M (CachedProposerElection St) Anyhow (Author * f64))
    : M (CachedProposerElection St) Anyhow (Author * f64) := λ c,
  match ce_recent_elections c !! key with
  | Some v => (Ok v, c)
  | None =>
      (v ← compute;
       _ ← modify (λ c, set_recent_elections (<[key := v]> (ce_recent_elections c)) c);
       mret v) c
  end.

Definition get_or_compute_entry {St} (pe : ProposerElection St) (round : Round)
    : M (CachedProposerElection St) Anyhow (Author * f64) :=
  let compute := zoom ce_proposer_election set_ce_proposer_election
                   (get_valid_proposer_and_ratio pe round) in
  key ← zoom ce_proposer_election set_ce_proposer_election (cache_key pe round);
  match key with
  | None => compute
  | Some key =>
      _ ← modify (drop_old_elections round);
      or_insert_with key compute
  end.

Definition cached_election {St} (pe : ProposerElection St)
    : ProposerElection (CachedProposerElection St) :=
  let proposer := λ round, v ← get_or_compute_entry pe round; mret v.1 in
  let ratio := λ round, v ← get_or_compute_entry pe round; mret v.2 in
  {| get_valid_proposer := proposer;
     get_voting_power_participation_ratio := ratio;
     get_valid_proposer_and_ratio := default_proposer_and_ratio proposer ratio;
     cache_key := default_cache_key |}.

End election.

Arguments get_valid_proposer {_ _} _ _.
Arguments get_voting_power_participation_ratio {_ _} _ _.
Arguments get_valid_proposer_and_ratio {_ _} _ _.
Arguments cache_key {_ _} _ _.
Arguments ue_proposer_election {_ _} _.
Arguments ue_already_proposed {_ _} _.
Arguments ce_epoch {_ _} _.
Arguments ce_proposer_election {_ _} _.
Arguments ce_recent_elections {_ _} _.
Arguments ce_window {_ _} _.

(** ** The binary search finds the cut *)

Section binary_search.
Context {A : Type} (f : A → comparison) (l : list A) (cut : nat).
Hypothesis Hcut : (cut <= length l)%nat.
Hypothesis Hf : ∀ i x, l !! i = Some x → f x = if (i <? cut)%nat then Lt else Gt.

Lemma binary_search_loop_cut fuel base size :
  (size <= fuel)%nat → (0 < size)%nat → (base + size <= length l)%nat →
  (base = 0 ∨ base < cut)%nat → (cut <= base + size)%nat →
  ∃ base', binary_search_loop fuel f l base size = Some base' ∧ (base' < length l)%nat ∧
    (base' = 0 ∨ base' < cut)%nat ∧ (cut <= S base')%nat.
Proof.
  revert base size. induction fuel as [|fuel IH]; intros base size Hfuel Hpos Hlen Hbase Htop; [lia|].
  cbn [binary_search_loop]. destruct (1 <? size)%nat eqn:Hsize; guards; [|exists base; split; [done|lia]].
  assert (Hhalf : (0 < size / 2)%nat ∧ (size / 2 + size / 2 <= size)%nat).
  { pose proof (Nat.div_mod size 2 ltac:(lia)). pose proof (Nat.mod_upper_bound size 2 ltac:(lia)). lia. }
  set (half := (size / 2)%nat) in *. clearbody half.
  destruct (lookup_lt_is_Some_2 l (base + half)) as [x Hx]; [lia|]. rewrite Hx, (Hf _ _ Hx).
  destruct (base + half <? cut)%nat eqn:Hc; guards; apply IH; lia.
Qed.

Lemma binary_search_cut : binary_search_by f l = Some (inr cut).
Proof.
  unfold binary_search_by. case_bool_decide as Hnil; [do 2 f_equal; lia|].
  destruct (binary_search_loop_cut (length l) 0 (length l)) as (base & -> & Hlt & Hbase & Htop);
    [lia..|]. simpl.
  destruct (lookup_lt_is_Some_2 l base) as [x Hx]; [done|]. rewrite Hx. simpl. rewrite (Hf _ _ Hx).
  destruct (base <? cut)%nat eqn:Hc; guards; do 2 f_equal; lia.
Qed.

End binary_search.

(** ** The weighted choice *)

Definition sum_weights (l : list N) : N := foldr N.add 0 l.

Lemma sum_weights_app l1 l2 : sum_weights (l1 ++ l2) = sum_weights l1 + sum_weights l2.
Proof. induction l1 as [|x l1 IH]; simpl; [done|]. rewrite IH. lia. Qed.

Lemma sum_weights_take_S l i w :
  l !! i = Some w → sum_weights (take (S i) l) = sum_weights (take i l) + w.
Proof. intros H. rewrite (take_S_r _ _ _ H), sum_weights_app. simpl. lia. Qed.

Lemma sum_weights_take_le l i j :
  (i <= j)%nat → sum_weights (take i l) ≤ sum_weights (take j l).
Proof.
  intros Hij. replace (take i l) with (take i (take j l)) by (rewrite take_take; f_equal; lia).
  rewrite <- (take_drop i (take j l)) at 2. rewrite sum_weights_app. lia.
Qed.

Section election_theorems.
Context {GA : Gaptos} {VE : Verifier} {CR : Crypto} {DT : DbTypes} {ET : ElectionTypes}.
Context {TL : DbTypesLaws}.

Lemma cumulate_Ok t ws :
  t + sum_weights ws ≤ u128_max →
  ∃ cs, cumulate t ws = Ok (t + sum_weights ws, cs) ∧ length cs = length ws ∧
    ∀ i c, cs !! i = Some c → c = t + sum_weights (take (S i) ws).
Proof.
  revert t. induction ws as [|w ws IH]; intros t Hle; simpl in *.
  { exists []. split; [by rewrite N.add_0_r|]. split; [done|]. by intros []. }
  rewrite (proj2 (N.leb_le (t + w) u128_max)) by lia. simpl.
  destruct (IH (t + w)) as (cs & -> & Hlen & Hcs); [lia|]. simpl. exists (t + w :: cs).
  split; [do 2 f_equal; lia|]. split; [simpl; by rewrite Hlen|].
  intros [|i] c Hc; simpl in Hc; [injection Hc as <-; rewrite take_0; simpl; lia|].
  rewrite (Hcs _ _ Hc). cbn [take sum_weights foldr]. unfold sum_weights. lia.
Qed.

Lemma cumulate_overflow t ws :
  t ≤ u128_max → u128_max < t + sum_weights ws → ∃ m, cumulate t ws = Panic m.
Proof.
  revert t. induction ws as [|w ws IH]; intros t Ht Hgt; simpl in *; [lia|].
  destruct (t + w <=? u128_max) eqn:Hle; guards; simpl; [|eauto].
  destruct (IH (t + w)) as (m & ->); [lia..|]. simpl. eauto.
Qed.

(** The number drawn for a state. *)
Definition draw (state : bytes) : N := from_le_bytes (take 16 (hash_to_vec (sha3_256_of state))).

Lemma next_in_range_Ok state max :
  max ≠ 0 → next_in_range state max = Ok (draw state mod max).
Proof.
  intros Hmax. unfold next_in_range. rewrite length_hash_to_vec. simpl. unfold rem_u128.
  by rewrite (proj2 (N.eqb_neq max 0)) by done.
Qed.

(** The index of the interval a number falls into. *)
Definition in_interval (ws : list N) (x : N) (i : nat) : Prop :=
  (i < length ws)%nat ∧ sum_weights (take i ws) ≤ x < sum_weights (take (S i) ws).

Lemma in_interval_unique ws x i j : in_interval ws x i → in_interval ws x j → i = j.
Proof.
  intros [_ Hi] [_ Hj]. destruct (Nat.lt_trichotomy i j) as [H|[H|H]]; [|done|].
  - pose proof (sum_weights_take_le ws (S i) j H). lia.
  - pose proof (sum_weights_take_le ws (S j) i H). lia.
Qed.

Lemma in_interval_exists ws x : x < sum_weights ws → ∃ i, in_interval ws x i.
Proof.
  induction ws as [|w ws IH] using rev_ind; simpl; [lia|].
  rewrite sum_weights_app. simpl. intros Hx.
  destruct (decide (x < sum_weights ws)) as [Hlt|Hge].
  - destruct (IH Hlt) as (i & Hi & Hx'). exists i. split; [rewrite length_app; lia|].
    by rewrite !take_app_le by lia.
  - exists (length ws). split; [rewrite length_app; simpl; lia|].
    rewrite take_app_length, take_ge by (rewrite length_app; simpl; lia).
    rewrite sum_weights_app. simpl. lia.
Qed.

Lemma choose_index_interval ws state i :
  0 < sum_weights ws ≤ u128_max →
  in_interval ws (draw state mod sum_weights ws) i → choose_index ws state = Ok i.
Proof.
  intros [Hpos Hmax] [Hi Hx]. unfold choose_index.
  destruct (cumulate_Ok 0 ws) as (cs & -> & Hlen & Hcs); [lia|]. simpl.
  rewrite N.add_0_l, next_in_range_Ok by lia. simpl. set (x := draw state mod sum_weights ws) in *.
  clearbody x.
  rewrite (binary_search_cut _ _ i); [done|lia|]. intros j c Hc. rewrite (Hcs _ _ Hc), N.add_0_l.
  destruct (j <? i)%nat eqn:Hji; guards.
  - pose proof (sum_weights_take_le ws (S j) i Hji). by rewrite (proj2 (N.leb_le _ _)) by lia.
  - pose proof (sum_weights_take_le ws (S i) (S j) ltac:(lia)). by rewrite (proj2 (N.leb_gt _ _)) by lia.
Qed.

Lemma choose_index_total ws state :
  0 < sum_weights ws ≤ u128_max →
  ∃ i, choose_index ws state = Ok i ∧ in_interval ws (draw state mod sum_weights ws) i.
Proof.
  intros Hs. destruct (in_interval_exists ws (draw state mod sum_weights ws)) as (i & Hi).
  { apply N.mod_lt. lia. }
  exists i. split; [by apply choose_index_interval|done].
Qed.

Lemma choose_index_panic ws state :
  ¬ 0 < sum_weights ws ≤ u128_max → ∃ m, choose_index ws state = Panic m.
Proof.
  intros Hs. unfold choose_index. destruct (decide (u128_max < sum_weights ws)).
  - destruct (cumulate_overflow 0 ws) as (m & ->); [done|lia|]. simpl. eauto.
  - destruct (cumulate_Ok 0 ws) as (cs & -> & _); [lia|]. simpl.
    assert (sum_weights ws = 0) as -> by lia. unfold next_in_range. rewrite length_hash_to_vec.
    simpl. eauto.
Qed.

(** C32: The weighted choice is total on weights with a positive sum of at most 128
    bits: it returns the index whose interval of the cumulative weights holds the
    number drawn, which is in range; on all other weights it panics. *)
Theorem choose_index_spec ws state :
  (∀ i, choose_index ws state = Ok i ↔
     0 < sum_weights ws ≤ u128_max ∧ in_interval ws (draw state mod sum_weights ws) i) ∧
  (0 < sum_weights ws ≤ u128_max ↔ is_ok (choose_index ws state) = true).
Proof.
  destruct (decide (0 < sum_weights ws ≤ u128_max)) as [Hs|Hs].
  - destruct (choose_index_total ws state Hs) as (i & Hi & Hint). rewrite Hi. split; [|done].
    intros j. split; [by intros [= <-]|]. intros [_ Hj]. f_equal. by eapply in_interval_unique.
  - destruct (choose_index_panic ws state Hs) as (m & ->). naive_solver.
Qed.

(** Only an index of positive weight is chosen. *)
Lemma choose_index_positive ws state i :
  choose_index ws state = Ok i → ∃ w, ws !! i = Some w ∧ 0 < w.
Proof.
  intros H. destruct (decide (0 < sum_weights ws ≤ u128_max)) as [Hs|Hs].
  - destruct (choose_index_total ws state Hs) as (j & Hj & Hlt & Hx). assert (j = i) as -> by congruence.
    destruct (lookup_lt_is_Some_2 ws i Hlt) as [w Hw]. exists w. split; [done|].
    rewrite (sum_weights_take_S _ _ _ Hw) in Hx. lia.
  - destruct (choose_index_panic ws state Hs) as (m & Hm). congruence.
Qed.

(** ** Rotation *)

Lemma rotation_interval n c i round :
  0 < n → 0 < c → i < n →
  (round / c) mod n = i ↔ ∃ q, (q * n + i) * c ≤ round < (q * n + i + 1) * c.
Proof.
  intros Hn Hc Hi. split.
  - intros Hmod. exists (round / c / n).
    pose proof (N.div_mod (round / c) n ltac:(lia)) as H1. rewrite Hmod in H1.
    pose proof (N.div_mod round c ltac:(lia)) as H2. pose proof (N.mod_lt round c ltac:(lia)) as H3.
    set (d := round / c) in *. set (q := d / n) in *. set (m := round mod c) in *.
    clearbody m q. clearbody d. subst d. nia.
  - intros (q & Hlo & Hhi). assert (round / c = q * n + i) as ->.
    { symmetry. apply (N.div_unique round c (q * n + i) (round - (q * n + i) * c)); nia. }
    rewrite N.add_comm, N.Div0.mod_add. by apply N.mod_small.
Qed.

(** The proposers take turns in the order of the list, [contiguous_rounds] rounds
    each, and every round has a proposer. *)
Theorem rotating_takes_turns proposers contiguous_rounds rp :
  RotatingProposer_new proposers contiguous_rounds = Ok rp →
  ∀ round, ∃ i a, rotating_get_valid_proposer rp round = Ok a ∧ proposers !! i = Some a ∧
    ∃ q, (q * N.of_nat (length proposers) + N.of_nat i) * contiguous_rounds ≤ round <
         (q * N.of_nat (length proposers) + N.of_nat i + 1) * contiguous_rounds.
Proof.
  unfold RotatingProposer_new. intros H round. run_inv. guards.
  unfold rotating_get_valid_proposer. simpl.
  rewrite (proj2 (N.eqb_neq contiguous_rounds 0)), bool_decide_eq_false_2 by lia. simpl.
  set (n := N.of_nat (length proposers)). set (i := (round / contiguous_rounds) mod n).
  assert (Hi : i < n) by (apply N.mod_lt; lia).
  destruct (lookup_lt_is_Some_2 proposers (N.to_nat i)) as [a Ha]; [lia|].
  exists (N.to_nat i), a. rewrite Ha. split; [done|]. split; [done|]. rewrite N2Nat.id.
  apply rotation_interval; [lia|lia|done|done].
Qed.

(** ** One proposal per round *)

(** The calls of the wrapper. *)
Inductive UeCall := CallProposal (block : Block) | CallProposer (round : Round) | CallRatio (round : Round).

Definition ue_call {St} (pe : ProposerElection St) (c : UeCall)
    : M (UnequivocalProposerElection St) Anyhow (option Block) :=
  match c with
  | CallProposal b => ok ← is_valid_proposal pe b; mret (if (ok : bool) then Some b else None)
  | CallProposer r => _ ← get_valid_proposer (unequivocal_election pe) r; mret None
  | CallRatio r => _ ← get_voting_power_participation_ratio (unequivocal_election pe) r; mret None
  end.

(** The blocks accepted by a sequence of calls, in order; a call that panics is
    reported and the next one starts from the state it left. *)
Fixpoint ue_run {St} (pe : ProposerElection St) (calls : list UeCall)
    (u : UnequivocalProposerElection St) : list Block * UnequivocalProposerElection St :=
  match calls with
  | [] => ([], u)
  | c :: calls =>
      let '(r, u) := ue_call pe c u in
      let '(accepted, u) := ue_run pe calls u in
      (match r with Ok (Some b) => b :: accepted | _ => accepted end, u)
  end.

Lemma zoom_already_proposed {St A} (c : M St Anyhow A) u :
  ue_already_proposed (zoom ue_proposer_election set_ue_proposer_election c u).2 = ue_already_proposed u.
Proof. unfold zoom. by destruct (c _). Qed.

Definition keeps_or_advances (p p' : Round * HashValue) : Prop := p' = p ∨ p.1 < p'.1.

Lemma remember_proposal_step {St} round id (u u' : UnequivocalProposerElection St) r :
  remember_proposal round id u = (r, u') →
  keeps_or_advances (ue_already_proposed u) (ue_already_proposed u') ∧
  (r = Ok true → ue_already_proposed u' = (round, id)).
Proof.
  unfold remember_proposal, keeps_or_advances.
  destruct (round ?= (ue_already_proposed u).1) eqn:Hcmp; intros [= <- <-]; simpl.
  - split; [by left|]. intros [= Heq]. apply N.compare_eq in Hcmp. guards.
    destruct (ue_already_proposed u). simpl in *. congruence.
  - split; [by left|done].
  - apply N.compare_gt_iff in Hcmp. auto.
Qed.

(** The proposal remembered advances, and is the one accepted. *)
Lemma ue_call_step {St} (pe : ProposerElection St) c (u u' : UnequivocalProposerElection St) r :
  ue_call pe c u = (r, u') →
  keeps_or_advances (ue_already_proposed u) (ue_already_proposed u') ∧
  ∀ b, r = Ok (Some b) → ue_already_proposed u' = (Block_round b, block_id b).
Proof.
  destruct c as [b|round|round]; simpl; unfold mbind, M_bind.
  - unfold is_valid_proposal. destruct (Block_author b) as [a|].
    + unfold is_valid_proposer, mbind, M_bind. simpl.
      pose proof (zoom_already_proposed (get_valid_proposer pe (Block_round b)) u) as Hz.
      destruct (zoom _ _ _ u) as [[p|e|m] u1]; simpl in Hz;
        [|intros [= <- <-]; split; [by left|done]..].
      simpl. rewrite <- Hz. case_bool_decide.
      * destruct (remember_proposal _ _ u1) as [[[]| |] u2] eqn:Hr; intros [= <- <-];
          apply remember_proposal_step in Hr as [Hk Ht]; (split; [done|]); naive_solver.
      * intros [= <- <-]. split; [by left|done].
    + intros [= <- <-]. split; [by left|done].
  - pose proof (zoom_already_proposed (get_valid_proposer pe round) u) as Hz.
    destruct (zoom _ _ _ u) as [[p|e|m] u1]; simpl in Hz; intros [= <- <-]; (split; [by left|done]).
  - pose proof (zoom_already_proposed (get_voting_power_participation_ratio pe round) u) as Hz.
    destruct (zoom _ _ _ u) as [[p|e|m] u1]; simpl in Hz; intros [= <- <-]; (split; [by left|done]).
Qed.

(** Every accepted block is at the remembered round with the remembered id, or
    above it. *)
Lemma ue_run_above {St} (pe : ProposerElection St) calls (u : UnequivocalProposerElection St) b :
  b ∈ (ue_run pe calls u).1 → keeps_or_advances (ue_already_proposed u) (Block_round b, block_id b).
Proof.
  revert u. induction calls as [|c calls IH]; intros u; simpl; [by intros ?%not_elem_of_nil|].
  destruct (ue_call pe c u) as [r u1] eqn:Hc. apply ue_call_step in Hc as [Hk Hacc].
  specialize (IH u1). destruct (ue_run pe calls u1) as [accepted u2]. simpl in *.
  assert (Hlater : b ∈ accepted → keeps_or_advances (ue_already_proposed u) (Block_round b, block_id b)).
  { intros [Heq|Hlt]%IH; [rewrite Heq; done|]. right. destruct Hk as [Hk|Hk]; [by rewrite <- Hk|]. simpl in *. lia. }
  destruct r as [[b'|]| |]; [|done..].
  intros [->|Hin]%elem_of_cons; [by rewrite <- (Hacc b')|by apply Hlater].
Qed.

(** C31: The proposals a validator accepts are unequivocal, whatever election is
    wrapped: in every sequence of calls, restarts aside, the rounds of the accepted
    proposals do not decrease, and two accepted proposals of one round are the same
    block. *)
Theorem accepted_proposals_unequivocal {St} (pe : ProposerElection St) calls
    (u : UnequivocalProposerElection St) i j b b' :
  (ue_run pe calls u).1 !! i = Some b → (ue_run pe calls u).1 !! j = Some b' → (i <= j)%nat →
  Block_round b ≤ Block_round b' ∧ (Block_round b = Block_round b' → block_id b = block_id b').
Proof.
  revert u i j. induction calls as [|c calls IH]; intros u i j Hi Hj Hij; simpl in *; [done|].
  destruct (ue_call pe c u) as [r u1] eqn:Hc. apply ue_call_step in Hc as [Hk Hacc].
  specialize (IH u1). pose proof (ue_run_above pe calls u1) as Habove.
  destruct (ue_run pe calls u1) as [accepted u2]. simpl in *.
  destruct r as [[b0|]| |]; [|by eapply IH..].
  destruct i as [|i], j as [|j]; simpl in Hi, Hj; [|..|apply (IH i j); [done..|lia]].
  - assert (b' = b) as -> by congruence. done.
  - injection Hi as ->. apply list_elem_of_lookup_2 in Hj. apply Habove in Hj.
    rewrite (Hacc b eq_refl) in Hj. destruct Hj as [[= Hr Hid]|Hlt]; simpl in *; [split; [lia|done]|].
    split; [lia|lia].
  - lia.
Qed.

(** ** The cache *)

(** An election whose cache key determines its answer: [F] gives the answer for a
    key, [I] is an invariant of its state. *)
Record keyed_election {St} (pe : ProposerElection St) (I : St → Prop)
    (F : ProposerElectionCacheKey → result Anyhow (Author * f64)) : Prop := {
  ke_key round s r s1 : I s → cache_key pe round s = (r, s1) →
    I s1 ∧ ∀ k, r = Ok (Some k) → pk_round k = round;
  ke_compute round s r s1 : I s → get_valid_proposer_and_ratio pe round s = (r, s1) → I s1;
  ke_value round s k s1 v s2 : I s → cache_key pe round s = (Ok (Some k), s1) →
    get_valid_proposer_and_ratio pe round s1 = (Ok v, s2) → F k = Ok v;
}.

Definition cache_ok {St} (I : St → Prop)
    (F : ProposerElectionCacheKey → result Anyhow (Author * f64))
    (c : CachedProposerElection St) : Prop :=
  I (ce_proposer_election c) ∧ ∀ k v, ce_recent_elections c !! k = Some v → F k = Ok v.

Definition rounds_from {St} (lo : N) (c : CachedProposerElection St) : Prop :=
  ∀ k v, ce_recent_elections c !! k = Some v → lo ≤ pk_round k.

Lemma split_off_lookup round m k v :
  split_off (ProposerElectionCacheKey_new round) m !! k = Some v ↔
  m !! k = Some v ∧ round ≤ pk_round k.
Proof.
  unfold split_off. rewrite map_lookup_filter_Some. unfold key_ltb. simpl.
  destruct (pk_version k); rewrite andb_false_r, orb_false_r; guards; done.
Qed.

Lemma drop_old_elections_spec {St} round (c : CachedProposerElection St) :
  ce_proposer_election (drop_old_elections round c) = ce_proposer_election c ∧
  ce_window (drop_old_elections round c) = ce_window c ∧
  rounds_from (round - ce_window c) (drop_old_elections round c) ∧
  ∀ k v, ce_recent_elections (drop_old_elections round c) !! k = Some v →
    ce_recent_elections c !! k = Some v.
Proof.
  unfold drop_old_elections, rounds_from. destruct (ce_window c <? round) eqn:Hw; guards; simpl.
  - split; [done|]. split; [done|]. split; intros k v [H Hr]%split_off_lookup; done.
  - split; [done|]. split; [done|]. split; [|done]. lia.
Qed.

Lemma zoom_inv {St A} (c : M St Anyhow A) ce r ce' :
  zoom ce_proposer_election set_ce_proposer_election c ce = (r, ce') →
  ∃ s, c (ce_proposer_election ce) = (r, s) ∧ ce' = set_ce_proposer_election s ce.
Proof.
  unfold zoom. destruct (c _) as [r1 s1]. intros [= <- <-]. eauto.
Qed.

Lemma or_insert_with_spec {St} (pe : ProposerElection St) I F round key s c v c' :
  keyed_election pe I F → cache_ok I F c → I s →
  cache_key pe round s = (Ok (Some key), ce_proposer_election c) →
  or_insert_with key (zoom ce_proposer_election set_ce_proposer_election
                        (get_valid_proposer_and_ratio pe round)) c = (Ok v, c') →
  F key = Ok v ∧ cache_ok I F c' ∧ ce_window c' = ce_window c ∧
  ∀ lo, rounds_from lo c → lo ≤ pk_round key → rounds_from lo c'.
Proof.
  intros Hke [HI HF] Hs Hkey. unfold or_insert_with. destruct (ce_recent_elections c !! key) as [v'|] eqn:Hl.
  { intros [= <- <-]. split; [by apply HF|]. split; [done|auto]. }
  intros H. run_inv.
  match goal with H : zoom _ _ _ _ = _ |- _ => apply zoom_inv in H as (s' & Hc & ->) end.
  assert (F key = Ok v) as Hv by (by eapply (ke_value _ _ _ Hke)).
  split; [done|]. split; [split|split; [done|]]; unfold rounds_from; simpl.
  - by eapply (ke_compute _ _ _ Hke) in Hc.
  - intros k w [[<- <-]|[_ Hk]]%lookup_insert_Some; [done|by apply HF].
  - intros lo Hlo Hkr k w [[<- _]|[_ Hk]]%lookup_insert_Some; [done|by eapply Hlo].
Qed.

(** The entries stay right, whatever a call returns. *)
Lemma get_or_compute_entry_keeps {St} (pe : ProposerElection St) I F round c :
  keyed_election pe I F → cache_ok I F c → cache_ok I F (get_or_compute_entry pe round c).2.
Proof.
  intros Hke [HI HF]. unfold get_or_compute_entry, mbind, M_bind.
  destruct (zoom _ _ (cache_key pe round) c) as [rk c1] eqn:Hz. apply zoom_inv in Hz as (s1 & Hkey & ->).
  destruct (ke_key _ _ _ Hke _ _ _ _ HI Hkey) as [HI1 _]. destruct rk as [[k|]| |]; [| |by split..].
  - simpl. set (c1 := set_ce_proposer_election s1 c).
    destruct (drop_old_elections_spec round c1) as (Hpe & _ & _ & Hsub).
    unfold or_insert_with. destruct (_ !! k) as [v|] eqn:Hl; [split; simpl; [by rewrite Hpe|auto]|].
    unfold mbind, M_bind. destruct (zoom _ _ _ (drop_old_elections round c1)) as [rc c2] eqn:Hz.
    apply zoom_inv in Hz as (s2 & Hc & ->). rewrite Hpe in Hc.
    pose proof (ke_compute _ _ _ Hke _ _ _ _ HI1 Hc) as HI2.
    destruct rc as [v| |]; [|split; [done|auto]..].
    split; [done|]. simpl. intros k' v' [[<- <-]|[_ Hk']]%lookup_insert_Some; [|auto].
    exact (ke_value _ _ _ Hke _ _ _ _ _ _ HI Hkey Hc).
  - destruct (zoom _ _ _ (set_ce_proposer_election s1 c)) as [rc c2] eqn:Hz.
    apply zoom_inv in Hz as (s2 & Hc & ->). split; [|done].
    exact (ke_compute _ _ _ Hke _ _ _ _ HI1 Hc).
Qed.

(** The answer under a key is the one of the key. *)
Lemma get_or_compute_entry_value {St} (pe : ProposerElection St) I F round c k s1 v c' :
  keyed_election pe I F → cache_ok I F c →
  cache_key pe round (ce_proposer_election c) = (Ok (Some k), s1) →
  get_or_compute_entry pe round c = (Ok v, c') →
  F k = Ok v ∧ cache_ok I F c' ∧ ce_window c' = ce_window c ∧
  rounds_from (round - ce_window c) c'.
Proof.
  intros Hke [HI HF] Hkey H. unfold get_or_compute_entry in H. run_inv.
  match goal with H : zoom _ _ (cache_key _ _) _ = (Ok _, _) |- _ =>
    apply zoom_inv in H as (s0 & Hkey' & ->) end.
  rewrite Hkey in Hkey'. injection Hkey' as <- <-.
  destruct (ke_key _ _ _ Hke _ _ _ _ HI Hkey) as [HI1 Hround]. run_inv.
  set (c1 := set_ce_proposer_election s1 c) in *.
  destruct (drop_old_elections_spec round c1) as (Hpe & Hw & Hfrom & Hsub).
  destruct (or_insert_with_spec pe I F round k (ce_proposer_election c)
    (drop_old_elections round c1) v c') as (Hv & Hok' & Hw' & Hrounds);
    [done|split; [by rewrite Hpe|auto]|done|by rewrite Hpe|done|].
  split; [done|]. split; [done|]. split; [by rewrite Hw', Hw|].
  apply Hrounds; [done|]. rewrite (Hround k eq_refl). lia.
Qed.

(** The cache of an election is transparent: for an election whose answer depends
    on its cache key only, an answer is the one the wrapped election gives, or would
    give, for that key, the entries stay right, and entries older than the window
    are dropped. *)
Theorem cached_election_transparent {St} (pe : ProposerElection St) I F round c v c' :
  keyed_election pe I F → cache_ok I F c → get_or_compute_entry pe round c = (Ok v, c') →
  cache_ok I F c' ∧ ce_window c' = ce_window c ∧
  ∃ key s1, cache_key pe round (ce_proposer_election c) = (Ok key, s1) ∧
    (∀ v' s2, get_valid_proposer_and_ratio pe round s1 = (Ok v', s2) → v = v') ∧
    (key ≠ None → rounds_from (round - ce_window c) c').
Proof.
  intros Hke Hok H. pose proof Hok as [HI HF].
  destruct (cache_key pe round (ce_proposer_election c)) as [rk s1] eqn:Hkey.
  destruct rk as [[k|]| |].
  - destruct (get_or_compute_entry_value pe I F round c k s1 v c') as (Hv & Hok' & Hw & Hr); [done..|].
    split; [done|]. split; [done|]. exists (Some k), s1. split; [done|]. split; [|done].
    intros v' s2 Hv'. pose proof (ke_value _ _ _ Hke _ _ _ _ _ _ HI Hkey Hv'). congruence.
  - pose proof (get_or_compute_entry_keeps pe I F round c Hke Hok) as Hok'. rewrite H in Hok'.
    split; [done|]. unfold get_or_compute_entry, mbind, M_bind, zoom in H. rewrite Hkey in H. simpl in H.
    destruct (get_valid_proposer_and_ratio pe round s1) as [rv s2] eqn:Hc. injection H as -> <-.
    split; [done|]. exists None, s1. split; [done|]. split; [|done]. intros v' s' Hv. congruence.
  - unfold get_or_compute_entry, mbind, M_bind, zoom in H. by rewrite Hkey in H.
  - unfold get_or_compute_entry, mbind, M_bind, zoom in H. by rewrite Hkey in H.
Qed.

End election_theorems.
