(* ===== verification/LeaderReputation.v ===== *)
(** * Leader reputation (consensus/src/liveness/leader_reputation.rs)

    The history of committed blocks read from the database, the heuristics that
    turn history or on-chain validator performance into weights, with their
    caches, and the election that draws a proposer by weighted stake from the
    anchor of [ConsensusDb.get_reputation_anchor].  The theorems show that
    replicas that resolve the same anchor elect the same leader, whatever their
    caches hold, that the election can be cached by its key, and what the proofs
    of epoch changes yield. *)

From S2P Require Import Prelude Gaptos Types Bytes Floats Certificates Payloads Blocks ConsensusDb Election.

(** [BlockNumber] of the configuration storage. *)
Inductive BlockNumber := Latest | Number (n : N).

(** What the code takes from [gaptos]: block events and bit vectors, the reader of
    the Aptos database, the storage of on-chain configuration, the activation of
    the ConsensusAlpha fork, and the window sizes of the health metrics. *)
Class ReputationTypes {GA : Gaptos} := {
  NewBlockEvent : Type;
  nbe_epoch : NewBlockEvent → N;
  nbe_round : NewBlockEvent → Round;
  nbe_proposer : NewBlockEvent → Author;
  nbe_failed_proposer_indices : NewBlockEvent → list N;
  nbe_previous_block_votes : NewBlockEvent → BitVec;
  new_block_event_of_bcs : bytes → result Anyhow NewBlockEvent;
  BitVec_required_buckets : N → N;
  bv_num_buckets : BitVec → N;
  bv_is_set : BitVec → N → bool;
  AptosDb : Type;
  adb_get_latest_block_events : AptosDb → N → result Anyhow (list (bytes * N));
  adb_get_latest_ledger_info_version : AptosDb → result Anyhow N;
  adb_get_accumulator_root_hash : AptosDb → N → result Anyhow HashValue;
  ConfigStorage : Type;
  ConfigRes : Type;
  fetch_validator_performances : ConfigStorage → BlockNumber → option ConfigRes;
  config_res_bytes : ConfigRes → option bytes;
  (** The successful and failed proposals of each validator, unsigned integers up
      to [performance_max]. *)
  performances_of_bcs : bytes → result Anyhow (list (N * N));
  performance_max : N;
  consensus_alpha_active_at_epoch : N → bool;
  consensus_alpha_active : N → bool;
  CHAIN_HEALTH_WINDOW_SIZES : list N;
  address_from_bytes : bytes → option AccountAddress;
}.

(** The on-chain configuration of the election, by the variants and accessors the
    code names. *)
Record ProposerAndVoterConfig := {
  pvc_active_weight : N;
  pvc_inactive_weight : N;
  pvc_failed_weight : N;
  pvc_failure_threshold_percent : N;
  pvc_proposer_window_num_validators_multiplier : N;
  pvc_voter_window_num_validators_multiplier : N;
  pvc_weight_by_voting_power : bool;
  pvc_use_history_from_previous_epoch_max_count : N;
}.

Inductive ProposerElectionType :=
| PetRotatingProposer (contiguous_rounds : N)
| PetFixedProposer (contiguous_rounds : N)
| PetLeaderReputation (config : ProposerAndVoterConfig)
    (use_reputation_window_from_stale_end use_root_hash_for_seed : bool)
| PetRoundProposer (round_proposers : list (N * list N)).

Record OnChainConsensusConfig := {
  occ_proposer_election_type : ProposerElectionType;
  occ_leader_reputation_exclude_round : N;
  occ_max_failed_authors_to_store : N;
}.

Definition mul_checked {E} (max a b : N) : result E N :=
  if a * b <=? max then Ok (a * b) else Panic "attempt to multiply with overflow".
Definition add_checked {E} (max a b : N) : result E N :=
  if a + b <=? max then Ok (a + b) else Panic "attempt to add with overflow".

(** [as u16], [as u64]. *)
Definition as_u16 (n : N) : N := n mod 65536.
Definition as_u64 (n : N) : N := n mod 18446744073709551616.

(** [(epoch, round) <= (target_epoch, target_round)]. *)
Definition pair_leb (p q : N * N) : bool := (p.1 <? q.1) || (p.1 =? q.1) && (p.2 <=? q.2).

(** [iter.map(f).collect::<Result<Vec<_>, _>>()]. *)
Definition try_map {E A B} (f : A → result E B) (l : list A) : result E (list B) :=
  collect_results (f <$> l).

Section reputation.
Context {GA : Gaptos} {VE : Verifier} {CR : Crypto} {DT : DbTypes} {SD : SchemaDb}.
Context {ET : ElectionTypes} {RT : ReputationTypes}.

(** ** The history of committed blocks *)

Record VersionedNewBlockEvent := {
  ve_event : NewBlockEvent;
  ve_version : N;
}.

Record AptosDBBackend := {
  ab_window_size : N;
  ab_seek_len : N;
  ab_aptos_db : AptosDb;
  ab_db_result : option (list VersionedNewBlockEvent * N * bool);
}.

Definition AptosDBBackend_new (window_size seek_len : N) (aptos_db : AptosDb) : AptosDBBackend :=
  {| ab_window_size := window_size; ab_seek_len := seek_len; ab_aptos_db := aptos_db;
     ab_db_result := None |}.

Definition set_db_result (r : option (list VersionedNewBlockEvent * N * bool)) (b : AptosDBBackend)
    : AptosDBBackend :=
  {| ab_window_size := ab_window_size b; ab_seek_len := ab_seek_len b;
     ab_aptos_db := ab_aptos_db b; ab_db_result := r |}.

Definition read_db_result (latest_db_version : N) (b : AptosDBBackend)
    : result Anyhow (list VersionedNewBlockEvent * N * bool) :=
  limit ← add_u64 (ab_window_size b) (ab_seek_len b);
  events ← adb_get_latest_block_events (ab_aptos_db b) limit;
  let max_returned_version := match events with (_, v) :: _ => v | [] => 0 end in
  new_block_events ← try_map (λ e : bytes * N,
    event ← new_block_event_of_bcs e.1; Ok {| ve_event := event; ve_version := e.2 |}) events;
  let hit_end := N.of_nat (length new_block_events) <? limit in
  Ok (new_block_events, N.max latest_db_version max_returned_version, hit_end).

Definition refresh_db_result (latest_db_version : N)
    : M AptosDBBackend Anyhow (list VersionedNewBlockEvent * N * bool) :=
  r ← gets (read_db_result latest_db_version);
  _ ← modify (set_db_result (Some r));
  mret r.

Definition event_position (e : NewBlockEvent) : N * N := (nbe_epoch e, nbe_round e).

(** The loop over the events, newest first. *)
Fixpoint select_events (window_size : N) (target : N * N) (events : list VersionedNewBlockEvent)
    (acc : list NewBlockEvent) (max_version : N) : list NewBlockEvent * N :=
  match events with
  | [] => (acc, max_version)
  | e :: events =>
      if pair_leb (event_position (ve_event e)) target && (N.of_nat (length acc) <? window_size)
      then select_events window_size target events (acc ++ [ve_event e])
             (N.max max_version (ve_version e))
      else select_events window_size target events acc max_version
  end.

(** [hit_end] is only logged. *)
Definition get_from_db_result (target_epoch : N) (target_round : Round)
    (events : list VersionedNewBlockEvent) (b : AptosDBBackend)
    : result Anyhow (list NewBlockEvent * HashValue) :=
  let '(result, max_version) :=
    select_events (ab_window_size b) (target_epoch, target_round) events [] 0 in
  match result with
  | [] => Ok ([], HashValue_zero)
  | _ => match adb_get_accumulator_root_hash (ab_aptos_db b) max_version with
         | Ok root_hash => Ok (result, root_hash)
         | Err _ => Ok (result, HashValue_zero)
         | Panic m => Panic m
         end
  end.

Definition has_larger (events : list VersionedNewBlockEvent) (target : N * N) : bool :=
  match events with
  | [] => false
  | e :: _ => pair_leb target (event_position (ve_event e))
  end.

(** A refresh whose failure is answered with an empty history. *)
Definition refresh_or_empty (latest_db_version : N)
    (k : list VersionedNewBlockEvent * N * bool → M AptosDBBackend Anyhow (list NewBlockEvent * HashValue))
    : M AptosDBBackend Anyhow (list NewBlockEvent * HashValue) := λ b,
  match refresh_db_result latest_db_version b with
  | (Ok r, b) => k r b
  | (Err _, b) => (Ok ([], HashValue_zero), b)
  | (Panic m, b) => (Panic m, b)
  end.

Definition metadata_from (target_epoch : N) (target_round : Round) (latest_db_version : N)
    (db_result : list VersionedNewBlockEvent * N * bool)
    : M AptosDBBackend Anyhow (list NewBlockEvent * HashValue) :=
  let '(events, version, _) := db_result in
  if negb (has_larger events (target_epoch, target_round)) && (version <? latest_db_version) then
    refresh_or_empty latest_db_version (λ r,
      gets (get_from_db_result target_epoch target_round r.1.1))
  else gets (get_from_db_result target_epoch target_round events).

Definition get_block_metadata (target_epoch : N) (target_round : Round)
    : M AptosDBBackend Anyhow (list NewBlockEvent * HashValue) := λ b,
  match adb_get_latest_ledger_info_version (ab_aptos_db b) with
  | Panic m => (Panic m, b)
  | v =>
      let latest_db_version := match v with Ok v => v | _ => 0 end in
      match ab_db_result b with
      | Some r => metadata_from target_epoch target_round latest_db_version r b
      | None => refresh_or_empty latest_db_version
                  (metadata_from target_epoch target_round latest_db_version) b
      end
  end.

(** ** Aggregation of the history *)

Record NewBlockEventAggregation := {
  voter_window_size : N;
  proposer_window_size : N;
  reputation_window_from_stale_end : bool;
}.

Definition bitvec_to_voters (validators : list Author) (bitvec : BitVec)
    : result Anyhow (list Author) :=
  if negb (BitVec_required_buckets (as_u16 (N.of_nat (length validators))) =? bv_num_buckets bitvec)
  then Err (Msg "bitvec bucket does not match validators len")
  else Ok (omap (λ p, if bv_is_set bitvec (as_u16 (N.of_nat p.1)) then Some p.2 else None)
             (imap pair validators)).

Definition indices_to_validators (validators : list Author) (indices : list N)
    : result Anyhow (list Author) :=
  try_map (λ index, ok_or (Msg "index is larger than number of validators")
                      (validators !! N.to_nat index)) indices.

(** The newest or the oldest [window_size] events, those of known epochs. *)
Definition history_iter (history : list NewBlockEvent) (epoch_to_candidates : gmap N (list Author))
    (window_size : N) (from_stale_end : bool) : result Anyhow (list NewBlockEvent) :=
  sub_history ←
    (if from_stale_end then
       let start := if window_size <? N.of_nat (length history)
                    then N.of_nat (length history) - window_size else 0 in
       Ok (drop (N.to_nat start) history)
     else
       _ ← match head history, last history with
           | Some first, Some last =>
               assert_ (pair_leb (event_position last) (event_position first)) "assertion failed"
           | _, _ => Ok tt
           end;
       let end_ := if window_size <? N.of_nat (length history) then window_size
                   else N.of_nat (length history) in
       Ok (take (N.to_nat end_) history));
  Ok (filter (λ meta, is_Some (epoch_to_candidates !! nbe_epoch meta)) sub_history).

Definition bump (author : Author) (map : gmap Author N) : gmap Author N :=
  <[author := N.min (default 0 (map !! author) + 1) u32_max]> map.

Definition bump_all (authors : list Author) (map : gmap Author N) : gmap Author N :=
  foldl (λ m a, bump a m) map authors.

Definition count_votes_custom (epoch_to_candidates : gmap N (list Author))
    (history : list NewBlockEvent) (window_size : N) (from_stale_end : bool)
    : result Anyhow (gmap Author N) :=
  metas ← history_iter history epoch_to_candidates window_size from_stale_end;
  try_fold (λ map meta,
    candidates ← expect "no entry found for key" (epoch_to_candidates !! nbe_epoch meta);
    match bitvec_to_voters candidates (nbe_previous_block_votes meta) with
    | Ok voters => Ok (bump_all voters map)
    | _ => Ok map
    end) ∅ metas.

Definition count_proposals_custom (epoch_to_candidates : gmap N (list Author))
    (history : list NewBlockEvent) (window_size : N) (from_stale_end : bool)
    : result Anyhow (gmap Author N) :=
  metas ← history_iter history epoch_to_candidates window_size from_stale_end;
  Ok (foldl (λ map meta, bump (nbe_proposer meta) map) ∅ metas).

Definition count_failed_proposals (a : NewBlockEventAggregation)
    (epoch_to_candidates : gmap N (list Author)) (history : list NewBlockEvent)
    : result Anyhow (gmap Author N) :=
  metas ← history_iter history epoch_to_candidates (proposer_window_size a)
            (reputation_window_from_stale_end a);
  try_fold (λ map meta,
    candidates ← expect "no entry found for key" (epoch_to_candidates !! nbe_epoch meta);
    match indices_to_validators candidates (nbe_failed_proposer_indices meta) with
    | Ok failed_proposers => Ok (bump_all failed_proposers map)
    | _ => Ok map
    end) ∅ metas.

Definition count_votes (a : NewBlockEventAggregation) (epoch_to_candidates : gmap N (list Author))
    (history : list NewBlockEvent) : result Anyhow (gmap Author N) :=
  count_votes_custom epoch_to_candidates history (voter_window_size a)
    (reputation_window_from_stale_end a).

Definition count_proposals (a : NewBlockEventAggregation)
    (epoch_to_candidates : gmap N (list Author)) (history : list NewBlockEvent)
    : result Anyhow (gmap Author N) :=
  count_proposals_custom epoch_to_candidates history (proposer_window_size a)
    (reputation_window_from_stale_end a).

(** [values().sum::<u32>()]: overflow panics. *)
Definition sum_u32 (map : gmap Author N) : result Anyhow N :=
  try_fold (add_checked u32_max) 0 (map_to_list map).*2.

(** The counts; the metrics set from them are left out, their sums can panic. *)
Definition get_aggregated_metrics (a : NewBlockEventAggregation)
    (epoch_to_candidates : gmap N (list Author)) (history : list NewBlockEvent)
    : result Anyhow (gmap Author N * gmap Author N * gmap Author N) :=
  votes ← count_votes a epoch_to_candidates history;
  proposals ← count_proposals a epoch_to_candidates history;
  failed_proposals ← count_failed_proposals a epoch_to_candidates history;
  _ ← sum_u32 proposals;
  _ ← sum_u32 failed_proposals;
  Ok (votes, proposals, failed_proposals).

(** ** The heuristic *)

Definition LEGACY_PERFORMANCE_CACHE_REFRESH_CALLS : N := 100.

Record ProposerAndVoterHeuristic := {
  ph_author : Author;
  ph_active_weight : N;
  ph_inactive_weight : N;
  ph_failed_weight : N;
  ph_failure_threshold_percent : N;
  ph_aggregation : NewBlockEventAggregation;
  ph_legacy_cached_weights : N * option (list N);
  ph_anchored_cached_weights : option (N * list N);
}.

Definition ProposerAndVoterHeuristic_new (author : Author)
    (active_weight inactive_weight failed_weight failure_threshold_percent : N)
    (voter_window_size proposer_window_size : N) (reputation_window_from_stale_end : bool)
    : ProposerAndVoterHeuristic :=
  {| ph_author := author; ph_active_weight := active_weight;
     ph_inactive_weight := inactive_weight; ph_failed_weight := failed_weight;
     ph_failure_threshold_percent := failure_threshold_percent;
     ph_aggregation := {| voter_window_size := voter_window_size;
                          proposer_window_size := proposer_window_size;
                          reputation_window_from_stale_end := reputation_window_from_stale_end |};
     ph_legacy_cached_weights := (0, None);
     ph_anchored_cached_weights := None |}.

Definition set_legacy_cache (c : N * option (list N)) (h : ProposerAndVoterHeuristic)
    : ProposerAndVoterHeuristic :=
  {| ph_author := ph_author h; ph_active_weight := ph_active_weight h;
     ph_inactive_weight := ph_inactive_weight h; ph_failed_weight := ph_failed_weight h;
     ph_failure_threshold_percent := ph_failure_threshold_percent h;
     ph_aggregation := ph_aggregation h; ph_legacy_cached_weights := c;
     ph_anchored_cached_weights := ph_anchored_cached_weights h |}.

Definition set_anchored_cache (c : option (N * list N)) (h : ProposerAndVoterHeuristic)
    : ProposerAndVoterHeuristic :=
  {| ph_author := ph_author h; ph_active_weight := ph_active_weight h;
     ph_inactive_weight := ph_inactive_weight h; ph_failed_weight := ph_failed_weight h;
     ph_failure_threshold_percent := ph_failure_threshold_percent h;
     ph_aggregation := ph_aggregation h;
     ph_legacy_cached_weights := ph_legacy_cached_weights h;
     ph_anchored_cached_weights := c |}.

(** The weight of a validator from its successful and failed proposals. *)
Definition performance_weight (h : ProposerAndVoterHeuristic) (p : N * N) : result Anyhow N :=
  total ← add_checked performance_max p.1 p.2;
  failing ← (if 0 <? total then
               lhs ← mul_checked u64_max (as_u64 p.2) 100;
               rhs ← mul_checked u64_max (as_u64 total) (ph_failure_threshold_percent h);
               Ok (rhs <? lhs)
             else Ok false);
  Ok (if (failing : bool) then ph_failed_weight h
      else if 0 <? total then ph_active_weight h
      else ph_inactive_weight h).

(** [GLOBAL_CONFIG_STORAGE] is [storage]. *)
Definition fetch_and_compute_weights (storage : option ConfigStorage) (h : ProposerAndVoterHeuristic)
    (candidates : list Author) (block_number : BlockNumber) : result Anyhow (list N) :=
  storage ← ok_or (Msg "global config storage is not initialized") storage;
  bytes_res ← ok_or (Msg "ValidatorPerformances unavailable")
                (fetch_validator_performances storage block_number);
  let raw_bytes := default [] (config_res_bytes bytes_res) in
  perf ← with_context "ValidatorPerformances BCS decode failed" (performances_of_bcs raw_bytes);
  _ ← ensure (bool_decide (length perf = length candidates))
        (Msg "ValidatorPerformances length mismatch");
  try_map (performance_weight h) perf.

Definition get_weights (epoch : N) (epoch_to_candidates : gmap N (list Author))
    (history : list NewBlockEvent) (h : ProposerAndVoterHeuristic) : result Anyhow (list N) :=
  candidates ← expect "assertion failed: epoch_to_candidates.contains_key(&epoch)"
                 (epoch_to_candidates !! epoch);
  metrics ← get_aggregated_metrics (ph_aggregation h) epoch_to_candidates history;
  let '(votes, proposals, failed_proposals) := metrics in
  try_map (λ author : Author,
    let cur_votes := default 0 (votes !! author) in
    let cur_proposals := default 0 (proposals !! author) in
    let cur_failed_proposals := default 0 (failed_proposals !! author) in
    lhs ← mul_checked u32_max cur_failed_proposals 100;
    sum ← add_checked u32_max cur_proposals cur_failed_proposals;
    rhs ← mul_checked u32_max sum (ph_failure_threshold_percent h);
    Ok (if rhs <? lhs then ph_failed_weight h
        else if (0 <? cur_proposals) || (0 <? cur_votes) then ph_active_weight h
        else ph_inactive_weight h)) candidates.

Definition legacy_need_refresh (cache : N * option (list N)) (candidates : list Author) : bool :=
  match cache.2 with
  | Some w => bool_decide (length w ≠ length candidates) ||
              (cache.1 mod LEGACY_PERFORMANCE_CACHE_REFRESH_CALLS =? 0)
  | None => true
  end.

Definition get_legacy_weights (storage : option ConfigStorage) (epoch : N)
    (epoch_to_candidates : gmap N (list Author)) : M ProposerAndVoterHeuristic Anyhow (list N) :=
  candidates ← lift (expect "assertion failed: epoch_to_candidates.contains_key(&epoch)"
                       (epoch_to_candidates !! epoch));
  h ← gets Ok;
  let cache := ph_legacy_cached_weights h in
  if legacy_need_refresh cache candidates then
    weights ← lift (match fetch_and_compute_weights storage h candidates Latest with
                    | Err _ => Ok (const (ph_active_weight h) <$> candidates)
                    | r => r
                    end);
    counter ← lift (add_u64 cache.1 1);
    _ ← modify (set_legacy_cache (counter, Some weights));
    mret weights
  else
    counter ← lift (add_u64 cache.1 1);
    _ ← modify (set_legacy_cache (counter, cache.2));
    lift (expect "called `Option::unwrap()` on a `None` value" cache.2).

Definition anchored_cache_hit (block_number : N) (candidates : list Author)
    (cache : option (N * list N)) : option (list N) :=
  match cache with
  | Some (cached_block_number, cached_weights) =>
      if (cached_block_number =? block_number) &&
         bool_decide (length cached_weights = length candidates)
      then Some cached_weights else None
  | None => None
  end.

Definition get_weights_at_block (storage : option ConfigStorage) (epoch : N)
    (epoch_to_candidates : gmap N (list Author)) (block_number : N)
    : M ProposerAndVoterHeuristic Anyhow (list N) :=
  candidates ← lift (ok_or (Msg "missing proposer candidates") (epoch_to_candidates !! epoch));
  h ← gets Ok;
  match anchored_cache_hit block_number candidates (ph_anchored_cached_weights h) with
  | Some cached_weights => mret cached_weights
  | None =>
      weights ← lift (fetch_and_compute_weights storage h candidates (Number block_number));
      _ ← modify (set_anchored_cache (Some (block_number, weights)));
      mret weights
  end.

Definition get_fallback_weights (epoch : N) (epoch_to_candidates : gmap N (list Author))
    (h : ProposerAndVoterHeuristic) : list N :=
  match epoch_to_candidates !! epoch with
  | Some candidates => const (ph_active_weight h) <$> candidates
  | None => []
  end.

(** ** The election *)

(** [lr_reputation_anchor_db] is the database behind the anchor backend,
    [lr_config_storage] the global configuration storage. *)
Record LeaderReputation := {
  lr_epoch : N;
  lr_epoch_to_proposers : gmap N (list Author);
  lr_voting_powers : list N;
  lr_backend : AptosDBBackend;
  lr_reputation_anchor_db : option ConsensusDB;
  lr_heuristic : ProposerAndVoterHeuristic;
  lr_exclude_round : N;
  lr_use_root_hash : bool;
  lr_window_for_chain_health : N;
  lr_config_storage : option ConfigStorage;
}.

Definition LeaderReputation_new (storage : option ConfigStorage) (epoch : N)
    (epoch_to_proposers : gmap N (list Author)) (voting_powers : list N) (backend : AptosDBBackend)
    (heuristic : ProposerAndVoterHeuristic) (exclude_round : N) (use_root_hash : bool)
    (window_for_chain_health : N) : result Anyhow LeaderReputation :=
  proposers ← expect "assertion failed: epoch_to_proposers.contains_key(&epoch)"
                (epoch_to_proposers !! epoch);
  _ ← assert_ (bool_decide (length proposers = length voting_powers)) "assertion `left == right` failed";
  Ok {| lr_epoch := epoch; lr_epoch_to_proposers := epoch_to_proposers;
        lr_voting_powers := voting_powers; lr_backend := backend; lr_reputation_anchor_db := None;
        lr_heuristic := heuristic; lr_exclude_round := exclude_round;
        lr_use_root_hash := use_root_hash; lr_window_for_chain_health := window_for_chain_health;
        lr_config_storage := storage |}.

Definition with_reputation_anchor_backend (db : ConsensusDB) (lr : LeaderReputation)
    : LeaderReputation :=
  {| lr_epoch := lr_epoch lr; lr_epoch_to_proposers := lr_epoch_to_proposers lr;
     lr_voting_powers := lr_voting_powers lr; lr_backend := lr_backend lr;
     lr_reputation_anchor_db := Some db; lr_heuristic := lr_heuristic lr;
     lr_exclude_round := lr_exclude_round lr; lr_use_root_hash := lr_use_root_hash lr;
     lr_window_for_chain_health := lr_window_for_chain_health lr;
     lr_config_storage := lr_config_storage lr |}.

Definition set_lr_heuristic (h : ProposerAndVoterHeuristic) (lr : LeaderReputation) : LeaderReputation :=
  {| lr_epoch := lr_epoch lr; lr_epoch_to_proposers := lr_epoch_to_proposers lr;
     lr_voting_powers := lr_voting_powers lr; lr_backend := lr_backend lr;
     lr_reputation_anchor_db := lr_reputation_anchor_db lr; lr_heuristic := h;
     lr_exclude_round := lr_exclude_round lr; lr_use_root_hash := lr_use_root_hash lr;
     lr_window_for_chain_health := lr_window_for_chain_health lr;
     lr_config_storage := lr_config_storage lr |}.

Definition set_lr_backend (b : AptosDBBackend) (lr : LeaderReputation) : LeaderReputation :=
  {| lr_epoch := lr_epoch lr; lr_epoch_to_proposers := lr_epoch_to_proposers lr;
     lr_voting_powers := lr_voting_powers lr; lr_backend := b;
     lr_reputation_anchor_db := lr_reputation_anchor_db lr; lr_heuristic := lr_heuristic lr;
     lr_exclude_round := lr_exclude_round lr; lr_use_root_hash := lr_use_root_hash lr;
     lr_window_for_chain_health := lr_window_for_chain_health lr;
     lr_config_storage := lr_config_storage lr |}.

Definition is_consensus_alpha_active (anchor : option CommittedBlockAnchor) (lr : LeaderReputation)
    : bool :=
  consensus_alpha_active_at_epoch (lr_epoch lr) ||
  match anchor with
  | Some anchor => consensus_alpha_active (cba_timestamp_usecs anchor)
  | None => false
  end.

(** [iter().sum::<f64>()]. *)
Definition sum_f64 (l : list f64) : f64 := foldl f64_add f64_zero l.

(** One window of the health metrics; the metrics themselves are left out. *)
Definition chain_health_window (history : list NewBlockEvent) (round : Round)
    (candidates : list Author) (lr : LeaderReputation) (acc : option f64)
    (participants_window_size : N) : result Anyhow (option f64) :=
  let total_voting_power := sum_f64 (f64_of_u64 <$> lr_voting_powers lr) in
  let chosen := lr_window_for_chain_health lr =? participants_window_size in
  let sample_fraction := participants_window_size / 10 in
  if chosen || (sample_fraction <=? 1) || (round mod sample_fraction =? 1) then
    votes ← count_votes_custom (lr_epoch_to_proposers lr) history participants_window_size false;
    proposals ← count_proposals_custom (lr_epoch_to_proposers lr) history
                  participants_window_size false;
    let participants := dom votes ∪ dom proposals in
    let participating_voting_power :=
      sum_f64 (omap (λ p : Author * N,
                 if bool_decide (p.1 ∈ participants) then Some (f64_of_u64 p.2) else None)
                 (zip candidates (lr_voting_powers lr))) in
    _ ← sub_u64 (N.of_nat (length CHAIN_HEALTH_WINDOW_SIZES)) 2;
    Ok (if chosen then
          Some (if bool_decide (length history = 0%nat) ||
                   (N.of_nat (length history) <? participants_window_size) && (lr_epoch lr <=? 2)
                then f64_one
                else if f64_geb total_voting_power f64_one
                then f64_div participating_voting_power total_voting_power
                else f64_one)
        else acc)
  else Ok acc.

Definition compute_chain_health_and_add_metrics (history : list NewBlockEvent) (round : Round)
    (lr : LeaderReputation) : result Anyhow f64 :=
  candidates ← expect "Epoch should always map to proposers"
                 (lr_epoch_to_proposers lr !! lr_epoch lr);
  r ← try_fold (chain_health_window history round candidates lr) None CHAIN_HEALTH_WINDOW_SIZES;
  expect "asked window size not found in predefined window sizes" r.

(** [u64::saturating_sub]. *)
Definition target_round (round : Round) (lr : LeaderReputation) : Round :=
  round - lr_exclude_round lr.

(** The bytes of an anchor in a cache key. *)
Definition anchor_version (anchor : CommittedBlockAnchor) : bytes :=
  to_le_bytes 8 (cba_block_number anchor) ++ to_le_bytes 8 (cba_timestamp_usecs anchor) ++
  hash_to_vec (cba_block_hash anchor).

Definition lr_cache_key (round : Round) (lr : LeaderReputation)
    : result Anyhow (option ProposerElectionCacheKey) :=
  match lr_reputation_anchor_db lr with
  | None => Ok (Some (ProposerElectionCacheKey_new round))
  | Some db =>
      match get_reputation_anchor (lr_epoch lr) (target_round round lr) db with
      | Ok (Some anchor) =>
          Ok (Some (ProposerElectionCacheKey_with_version round (anchor_version anchor)))
      | Ok None | Err _ => Ok None
      | Panic m => Panic m
      end
  end.

(** The anchor an election uses; an error counts as no anchor. *)
Definition resolve_anchor (round : Round) (lr : LeaderReputation)
    : result Anyhow (option CommittedBlockAnchor) :=
  match lr_reputation_anchor_db lr with
  | None => Ok None
  | Some db =>
      match get_reputation_anchor (lr_epoch lr) (target_round round lr) db with
      | Err _ => Ok None
      | r => r
      end
  end.

(** The weights at the anchor, or the fallback ones. *)
Definition anchored_weights (anchor : CommittedBlockAnchor) : M LeaderReputation Anyhow (list N) :=
  λ lr,
  let '(r, h) := get_weights_at_block (lr_config_storage lr) (lr_epoch lr)
                   (lr_epoch_to_proposers lr) (cba_block_number anchor) (lr_heuristic lr) in
  let lr := set_lr_heuristic h lr in
  match r with
  | Err _ => (Ok (get_fallback_weights (lr_epoch lr) (lr_epoch_to_proposers lr) h), lr)
  | r => (r, lr)
  end.

(** History, root hash and weights. *)
Definition reputation_inputs (round : Round) (anchor : option CommittedBlockAnchor)
    : M LeaderReputation Anyhow (list NewBlockEvent * HashValue * list N) :=
  lr ← gets Ok;
  if is_consensus_alpha_active anchor lr then
    match anchor with
    | Some anchor =>
        weights ← anchored_weights anchor;
        mret ([], cba_block_hash anchor, weights)
    | None =>
        if bool_decide (is_Some (lr_reputation_anchor_db lr)) then
          mret ([], HashValue_zero,
                get_fallback_weights (lr_epoch lr) (lr_epoch_to_proposers lr) (lr_heuristic lr))
        else
          metadata ← zoom lr_backend set_lr_backend
                       (get_block_metadata (lr_epoch lr) (target_round round lr));
          weights ← lift (get_weights (lr_epoch lr) (lr_epoch_to_proposers lr) metadata.1
                            (lr_heuristic lr));
          mret (metadata.1, metadata.2, weights)
    end
  else
    weights ← zoom lr_heuristic set_lr_heuristic
                (get_legacy_weights (lr_config_storage lr) (lr_epoch lr) (lr_epoch_to_proposers lr));
    mret ([], HashValue_zero, weights).

(** Weights times voting power; [voting_powers[i]] may be out of bounds. *)
Definition stake_weights (weights voting_powers : list N) : result Anyhow (list N) :=
  try_map (λ p : nat * N,
    vp ← expect "index out of bounds" (voting_powers !! p.1);
    mul_checked u128_max p.2 vp) (imap pair weights).

(** The seed of the draw. *)
Definition election_state (root_hash : HashValue) (epoch : N) (round : Round) (use_root_hash : bool)
    : bytes :=
  (if use_root_hash then hash_to_vec root_hash else []) ++ to_le_bytes 8 epoch ++ to_le_bytes 8 round.

Definition lr_get_valid_proposer_and_ratio (round : Round) : M LeaderReputation Anyhow (Author * f64) :=
  anchor ← gets (resolve_anchor round);
  proposers ← gets (λ lr, expect "no entry found for key" (lr_epoch_to_proposers lr !! lr_epoch lr));
  inputs ← reputation_inputs round anchor;
  let '(sliding_window, root_hash, weights) := inputs in
  ratio ← gets (compute_chain_health_and_add_metrics sliding_window round);
  _ ← lift (assert_ (bool_decide (length weights = length proposers)) "assertion `left == right` failed");
  lr ← gets Ok;
  stake ← lift (stake_weights weights (lr_voting_powers lr));
  chosen_index ← lift (choose_index stake
    (election_state root_hash (lr_epoch lr) round (lr_use_root_hash lr)));
  leader ← lift (expect "index out of bounds" (proposers !! chosen_index));
  mret (leader, ratio).

Definition reputation_election : ProposerElection LeaderReputation :=
  {| get_valid_proposer round := v ← lr_get_valid_proposer_and_ratio round; mret v.1;
     get_voting_power_participation_ratio round := v ← lr_get_valid_proposer_and_ratio round; mret v.2;
     get_valid_proposer_and_ratio := lr_get_valid_proposer_and_ratio;
     cache_key round := gets (lr_cache_key round) |}.

(** ** The proposers of past epochs *)

(** The loop from the last epoch change back; [last] marks the first step. *)
Fixpoint extract_loop (epoch : N) (proposers : list Author) (needed_rounds : N) (last : bool)
    (states : list (EpochState * N)) (num_rounds : N) (result_map : gmap N (list Author))
    : result Anyhow (gmap N (list Author)) :=
  match states with
  | [] => Ok result_map
  | (next_epoch_state, cur_epoch_rounds) :: states =>
      let next_epoch_proposers := vv_ordered_addresses (es_verifier next_epoch_state) in
      _ ← (if last then
             _ ← ensure (epoch =? es_epoch next_epoch_state)
                   (Msg "fetched epoch_ending ledger_infos are for a wrong epoch");
             ensure (bool_decide (proposers = next_epoch_proposers))
               (Msg "proposers from state and fetched epoch_ending ledger_infos are missaligned")
           else Ok tt);
      let result_map := <[es_epoch next_epoch_state := next_epoch_proposers]> result_map in
      if needed_rounds <? num_rounds then Ok result_map
      else
        num_rounds ← add_u64 num_rounds cur_epoch_rounds;
        extract_loop epoch proposers needed_rounds false states num_rounds result_map
  end.

(** [len() - 1] comes first. *)
Definition extract_epoch_to_proposers_impl (states : list (EpochState * N)) (epoch : N)
    (proposers : list Author) (needed_rounds : N) : result Anyhow (gmap N (list Author)) :=
  _ ← sub_u64 (N.of_nat (length states)) 1;
  result_map ← extract_loop epoch proposers needed_rounds true (reverse states) 0 ∅;
  _ ← ensure (bool_decide (is_Some (result_map !! epoch))) (Msg "Current epoch not in fetched map");
  Ok result_map.

(** [ledger_infos] are the ones of the [EpochChangeProof]. *)
Definition extract_epoch_to_proposers (ledger_infos : list LedgerInfoWithSignatures) (epoch : N)
    (proposers : list Author) (needed_rounds : N) : result Anyhow (gmap N (list Author)) :=
  states ← try_map (λ li,
    next_epoch_state ← ok_or (Msg "no cur_epoch_state") (li_next_epoch_state (liws_ledger_info li));
    Ok (next_epoch_state, li_round (liws_ledger_info li))) ledger_infos;
  extract_epoch_to_proposers_impl states epoch proposers needed_rounds.

(** ** The election of an epoch (epoch_manager.rs) *)

Definition PROPOSER_ELECTION_CACHING_WINDOW_ADDITION : N := 3.
Definition PROPOSER_ROUND_BEHIND_STORAGE_BUFFER : N := 10.

(** What the epoch manager brings to an election. *)
Record ElectionEnv := {
  ee_author : Author;
  ee_aptos_db : AptosDb;
  ee_consensus_db : ConsensusDB;
  ee_window_for_chain_health : N;
  ee_config_storage : option ConfigStorage;
}.

(** [Arc<dyn ProposerElection>]: the elections that are created. *)
Inductive ElectionObject :=
| EoRotating (rp : RotatingProposer)
| EoReputation (c : CachedProposerElection LeaderReputation)
| EoRound (rp : RoundProposer).

Definition extract_epoch_proposers (epoch_state : EpochState) (proposers : list Author)
    : gmap N (list Author) :=
  {[ es_epoch epoch_state := proposers ]}.

Definition create_leader_reputation (env : ElectionEnv) (epoch_state : EpochState)
    (proposers : list Author) (onchain_config : OnChainConsensusConfig)
    (c : ProposerAndVoterConfig) (from_stale_end use_root_hash : bool)
    : result Anyhow (CachedProposerElection LeaderReputation) :=
  let len := N.of_nat (length proposers) in
  proposer_window_size ← mul_checked u64_max len (pvc_proposer_window_num_validators_multiplier c);
  voter_window_size ← mul_checked u64_max len (pvc_voter_window_num_validators_multiplier c);
  let heuristic := ProposerAndVoterHeuristic_new (ee_author env) (pvc_active_weight c)
    (pvc_inactive_weight c) (pvc_failed_weight c) (pvc_failure_threshold_percent c)
    voter_window_size proposer_window_size from_stale_end in
  let window_size := N.max proposer_window_size voter_window_size in
  s ← add_u64 (occ_leader_reputation_exclude_round onchain_config)
        (occ_max_failed_authors_to_store onchain_config);
  seek_len ← add_u64 s PROPOSER_ROUND_BEHIND_STORAGE_BUFFER;
  let backend := AptosDBBackend_new window_size seek_len (ee_aptos_db env) in
  voting_powers ←
    (if pvc_weight_by_voting_power c then
       try_map (λ p, expect "INVARIANT VIOLATION: proposer not in verifier set"
                       (vv_get_voting_power (es_verifier epoch_state) p)) proposers
     else Ok (replicate (length proposers) 1));
  _ ← add_u64 window_size seek_len;
  lr ← LeaderReputation_new (ee_config_storage env) (es_epoch epoch_state)
         (extract_epoch_proposers epoch_state proposers) voting_powers backend heuristic
         (occ_leader_reputation_exclude_round onchain_config) use_root_hash
         (ee_window_for_chain_health env);
  window ← add_u64 (occ_max_failed_authors_to_store onchain_config)
             PROPOSER_ELECTION_CACHING_WINDOW_ADDITION;
  Ok (CachedProposerElection_new (es_epoch epoch_state)
        (with_reputation_anchor_backend (ee_consensus_db env) lr) window).

Definition create_proposer_election (env : ElectionEnv) (epoch_state : EpochState)
    (onchain_config : OnChainConsensusConfig) : result Anyhow ElectionObject :=
  let proposers := vv_ordered_addresses (es_verifier epoch_state) in
  match occ_proposer_election_type onchain_config with
  | PetRotatingProposer contiguous_rounds =>
      rp ← RotatingProposer_new proposers contiguous_rounds; Ok (EoRotating rp)
  | PetFixedProposer contiguous_rounds =>
      proposer ← choose_leader proposers;
      rp ← RotatingProposer_new [proposer] contiguous_rounds; Ok (EoRotating rp)
  | PetLeaderReputation c from_stale_end use_root_hash =>
      e ← create_leader_reputation env epoch_state proposers onchain_config c
            from_stale_end use_root_hash;
      Ok (EoReputation e)
  | PetRoundProposer round_proposers =>
      default_proposer ← expect "INVARIANT VIOLATION: proposers is empty" (head proposers);
      proposers ← try_map (λ p : N * list N,
        author ← expect "called `Result::unwrap()` on an `Err` value" (address_from_bytes p.2);
        Ok (p.1, author)) round_proposers;
      Ok (EoRound {| rop_proposers := list_to_map (reverse proposers);
                     rop_default_proposer := default_proposer |})
  end.

End reputation.

(** ** Laws *)

(** The accessors of machine width. *)
Class AnchorWidth {GA : Gaptos} : Prop := {
  li_block_number_width l : li_block_number l ≤ u64_max;
  li_timestamp_width l : li_timestamp_usecs l ≤ u64_max;
  ebi_block_number_width i : ebi_block_number i ≤ u64_max;
  ebi_timestamp_width i : ebi_epoch_start_timestamp_usecs i ≤ u64_max;
}.

Section reputation_theorems.
Context {GA : Gaptos} {VE : Verifier} {CR : Crypto} {DT : DbTypes} {SD : SchemaDb}.
Context {ET : ElectionTypes} {RT : ReputationTypes} {TL : DbTypesLaws} {AW : AnchorWidth}.
Implicit Types lr : LeaderReputation.

(** ** The version in the cache key determines the anchor *)

Definition anchor_of_version (v : bytes) : CommittedBlockAnchor :=
  {| cba_block_number := from_le_bytes (take 8 v);
     cba_timestamp_usecs := from_le_bytes (take 8 (drop 8 v));
     cba_block_hash := match hash_from_slice (drop 16 v) with Ok h => h | _ => HashValue_zero end |}.

Definition anchor_width (a : CommittedBlockAnchor) : Prop :=
  cba_block_number a ≤ u64_max ∧ cba_timestamp_usecs a ≤ u64_max.

Lemma anchor_of_to_version a : anchor_width a → anchor_of_version (anchor_version a) = a.
Proof.
  intros [Hn Ht]. unfold anchor_of_version, anchor_version.
  rewrite take_app_length' by (symmetry; apply length_to_le_bytes).
  rewrite drop_app_length' by (symmetry; apply length_to_le_bytes).
  rewrite take_app_length' by (symmetry; apply length_to_le_bytes).
  rewrite app_assoc, (drop_app_length' _ _ 16) by (rewrite length_app, !length_to_le_bytes; done).
  rewrite hash_from_to_vec, !from_to_le_bytes by (by apply u64_bytes). by destruct a.
Qed.

Lemma anchor_scan_width te tr items a : anchor_scan te tr items = Ok (Some a) → anchor_width a.
Proof.
  induction items as [|item items IH]; cbn [anchor_scan]; [done|]. intros H.
  apply bind_Ok in H as ([n li] & _ & H). simpl in H.
  destruct (anchor_step te tr li) as [a'| |] eqn:Hs; [|by apply IH|done].
  injection H as ->. unfold anchor_step in Hs.
  repeat case_match; simplify_eq; split; simpl;
    auto using li_block_number_width, li_timestamp_width, ebi_block_number_width, ebi_timestamp_width.
Qed.

Lemma get_reputation_anchor_width te tr db a :
  get_reputation_anchor te tr db = Ok (Some a) → anchor_width a.
Proof. intros H. unfold get_reputation_anchor in H. run_inv. by eapply anchor_scan_width. Qed.

(** ** The anchored answer *)

(** The weights the configuration storage gives at a block, or the fallback. *)
Definition weights_at lr (block_number : N) (proposers : list Author) : result Anyhow (list N) :=
  match fetch_and_compute_weights (lr_config_storage lr) (lr_heuristic lr) proposers
          (Number block_number) with
  | Err _ => Ok (const (ph_active_weight (lr_heuristic lr)) <$> proposers)
  | r => r
  end.

(** What the election answers at an anchor, as a function of the epoch's
    configuration alone. *)
Definition anchored_answer lr (round : Round) (anchor : CommittedBlockAnchor)
    : result Anyhow (Author * f64) :=
  proposers ← expect "no entry found for key" (lr_epoch_to_proposers lr !! lr_epoch lr);
  weights ← weights_at lr (cba_block_number anchor) proposers;
  _ ← assert_ (bool_decide (length weights = length proposers)) "assertion `left == right` failed";
  stake ← stake_weights weights (lr_voting_powers lr);
  chosen_index ← choose_index stake
    (election_state (cba_block_hash anchor) (lr_epoch lr) round (lr_use_root_hash lr));
  leader ← expect "index out of bounds" (proposers !! chosen_index);
  Ok (leader, f64_one).

(** The configuration replicas share; what else there is (author, caches, the
    metadata backend, the databases) is local. *)
Record same_config lr lr' : Prop := {
  sc_epoch : lr_epoch lr' = lr_epoch lr;
  sc_proposers : lr_epoch_to_proposers lr' !! lr_epoch lr = lr_epoch_to_proposers lr !! lr_epoch lr;
  sc_powers : lr_voting_powers lr' = lr_voting_powers lr;
  sc_active : ph_active_weight (lr_heuristic lr') = ph_active_weight (lr_heuristic lr);
  sc_inactive : ph_inactive_weight (lr_heuristic lr') = ph_inactive_weight (lr_heuristic lr);
  sc_failed : ph_failed_weight (lr_heuristic lr') = ph_failed_weight (lr_heuristic lr);
  sc_threshold :
    ph_failure_threshold_percent (lr_heuristic lr') = ph_failure_threshold_percent (lr_heuristic lr);
  sc_use_root_hash : lr_use_root_hash lr' = lr_use_root_hash lr;
  sc_storage : lr_config_storage lr' = lr_config_storage lr;
}.

Lemma same_config_refl lr : same_config lr lr.
Proof. by split. Qed.

Lemma same_config_weights lr lr' proposers bn :
  same_config lr lr' →
  fetch_and_compute_weights (lr_config_storage lr') (lr_heuristic lr') proposers bn =
  fetch_and_compute_weights (lr_config_storage lr) (lr_heuristic lr) proposers bn.
Proof.
  intros Hc. unfold fetch_and_compute_weights. rewrite (sc_storage _ _ Hc).
  assert (Hw : ∀ perf, try_map (performance_weight (lr_heuristic lr')) perf =
                       try_map (performance_weight (lr_heuristic lr)) perf).
  { intros perf. unfold try_map. f_equal. apply list_fmap_ext. intros _ p _.
    unfold performance_weight.
    by rewrite (sc_active _ _ Hc), (sc_inactive _ _ Hc), (sc_failed _ _ Hc), (sc_threshold _ _ Hc). }
  destruct (lr_config_storage lr) as [st|]; [|done]. simpl.
  destruct (fetch_validator_performances st bn) as [res|]; [|done]. simpl.
  destruct (performances_of_bcs _) as [perf| |]; [|done..]. simpl.
  destruct (ensure _ _); [|done..]. simpl. apply Hw.
Qed.

Lemma same_config_answer lr lr' round anchor :
  same_config lr lr' → anchored_answer lr' round anchor = anchored_answer lr round anchor.
Proof.
  intros Hc. unfold anchored_answer, weights_at.
  rewrite (sc_epoch _ _ Hc), (sc_proposers _ _ Hc), (sc_powers _ _ Hc), (sc_use_root_hash _ _ Hc).
  destruct (_ !! _) as [proposers|]; [|done]. simpl.
  by rewrite (same_config_weights lr lr' proposers _ Hc), (sc_active _ _ Hc).
Qed.

(** ** The caches of the weights *)

(** The anchored cache holds what the storage gives for its block. *)
Definition weights_cached lr : Prop :=
  ∀ bn ws, ph_anchored_cached_weights (lr_heuristic lr) = Some (bn, ws) →
  ∃ proposers, lr_epoch_to_proposers lr !! lr_epoch lr = Some proposers ∧
    fetch_and_compute_weights (lr_config_storage lr) (lr_heuristic lr) proposers (Number bn) = Ok ws.

(** A call of the election changes caches only. *)
Record caches_change lr lr' : Prop := {
  cc_config : same_config lr lr';
  cc_proposers : lr_epoch_to_proposers lr' = lr_epoch_to_proposers lr;
  cc_db : lr_reputation_anchor_db lr' = lr_reputation_anchor_db lr;
  cc_exclude : lr_exclude_round lr' = lr_exclude_round lr;
  cc_window : lr_window_for_chain_health lr' = lr_window_for_chain_health lr;
  cc_cached : weights_cached lr → weights_cached lr';
}.

Lemma caches_change_refl lr : caches_change lr lr.
Proof. by split; [apply same_config_refl|..]. Qed.

Lemma set_heuristic_refl lr : set_lr_heuristic (lr_heuristic lr) lr = lr.
Proof. by destruct lr. Qed.

Lemma caches_change_anchored lr bn ws proposers :
  lr_epoch_to_proposers lr !! lr_epoch lr = Some proposers →
  fetch_and_compute_weights (lr_config_storage lr) (lr_heuristic lr) proposers (Number bn) = Ok ws →
  caches_change lr (set_lr_heuristic (set_anchored_cache (Some (bn, ws)) (lr_heuristic lr)) lr).
Proof.
  intros Hp Hf. split; try done. intros _ bn' ws' [= <- <-]. exists proposers. done.
Qed.

Lemma anchored_weights_spec lr anchor proposers :
  weights_cached lr → lr_epoch_to_proposers lr !! lr_epoch lr = Some proposers →
  (anchored_weights anchor lr).1 = weights_at lr (cba_block_number anchor) proposers ∧
  caches_change lr (anchored_weights anchor lr).2.
Proof.
  intros Hcache Hp. unfold anchored_weights, get_weights_at_block, mbind, M_bind, lift, gets.
  rewrite Hp. simpl. unfold weights_at, get_fallback_weights. rewrite Hp.
  destruct (anchored_cache_hit _ _ _) as [ws|] eqn:Hhit.
  - simpl. rewrite set_heuristic_refl. split; [|apply caches_change_refl].
    unfold anchored_cache_hit in Hhit. destruct (ph_anchored_cached_weights _) as [[bn ws']|] eqn:Hc; [|done].
    destruct (_ && _) eqn:Hb; [|done]. injection Hhit as ->. guards. destruct Hb as [-> _].
    destruct (Hcache _ _ Hc) as (proposers' & Hp' & Hf). rewrite Hp in Hp'. injection Hp' as <-.
    by rewrite Hf.
  - destruct (fetch_and_compute_weights _ _ _ _) as [ws| |] eqn:Hf; simpl.
    + split; [done|]. by eapply caches_change_anchored.
    + rewrite set_heuristic_refl. split; [done|apply caches_change_refl].
    + rewrite set_heuristic_refl. split; [done|apply caches_change_refl].
Qed.

(** ** Chain health without history *)

Definition health_known lr : Prop :=
  lr_window_for_chain_health lr ∈ CHAIN_HEALTH_WINDOW_SIZES ∧
  (2 <= length CHAIN_HEALTH_WINDOW_SIZES)%nat.

Lemma count_votes_nil m w : count_votes_custom m [] w false = Ok ∅.
Proof. unfold count_votes_custom, history_iter. simpl. by rewrite take_nil. Qed.

Lemma count_proposals_nil m w : count_proposals_custom m [] w false = Ok ∅.
Proof. unfold count_proposals_custom, history_iter. simpl. by rewrite take_nil. Qed.

Lemma chain_health_window_empty lr round candidates acc w :
  (2 <= length CHAIN_HEALTH_WINDOW_SIZES)%nat →
  chain_health_window [] round candidates lr acc w =
  Ok (if lr_window_for_chain_health lr =? w then Some f64_one else acc).
Proof.
  intros Hlen. unfold chain_health_window. rewrite count_votes_nil, count_proposals_nil.
  assert (Hsub : @sub_u64 Anyhow (N.of_nat (length CHAIN_HEALTH_WINDOW_SIZES)) 2 =
                 Ok (N.of_nat (length CHAIN_HEALTH_WINDOW_SIZES) - 2)) by (apply sub_u64_Ok; lia).
  cbn [mbind result_bind]. rewrite Hsub.
  destruct (lr_window_for_chain_health lr =? w); [done|].
  by destruct (false || _ || _).
Qed.

Lemma chain_health_fold lr round candidates l acc :
  (2 <= length CHAIN_HEALTH_WINDOW_SIZES)%nat →
  try_fold (chain_health_window [] round candidates lr) acc l =
  Ok (if bool_decide (lr_window_for_chain_health lr ∈ l) then Some f64_one else acc).
Proof.
  intros Hlen. revert acc. induction l as [|w l IH]; intros acc; cbn [try_fold].
  { by rewrite bool_decide_eq_false_2 by apply not_elem_of_nil. }
  rewrite chain_health_window_empty by done. cbn [mbind result_bind]. rewrite IH.
  do 2 f_equal. destruct (lr_window_for_chain_health lr =? w) eqn:Hw; guards.
  - subst w. rewrite (bool_decide_eq_true_2 (_ ∈ _ :: _)) by (by left). by case_bool_decide.
  - repeat case_bool_decide; set_solver.
Qed.

Lemma chain_health_empty lr round proposers :
  health_known lr → lr_epoch_to_proposers lr !! lr_epoch lr = Some proposers →
  compute_chain_health_and_add_metrics [] round lr = Ok f64_one.
Proof.
  intros [Hin Hlen] Hp. unfold compute_chain_health_and_add_metrics. rewrite Hp. simpl.
  rewrite chain_health_fold by done. by rewrite bool_decide_eq_true_2.
Qed.

(** ** The election at an anchor *)

Definition alpha_at_epoch lr : Prop := consensus_alpha_active_at_epoch (lr_epoch lr) = true.

(** The election answers as the configuration determines, and only its caches
    change. *)
Lemma election_at_anchor lr round anchor :
  weights_cached lr → health_known lr → resolve_anchor round lr = Ok (Some anchor) →
  is_consensus_alpha_active (Some anchor) lr = true →
  (lr_get_valid_proposer_and_ratio round lr).1 = anchored_answer lr round anchor ∧
  caches_change lr (lr_get_valid_proposer_and_ratio round lr).2.
Proof.
  intros Hcache Hhealth Hr Ha.
  unfold lr_get_valid_proposer_and_ratio, reputation_inputs, anchored_answer, mbind, M_bind, gets, lift.
  rewrite Hr. destruct (lr_epoch_to_proposers lr !! lr_epoch lr) as [proposers|] eqn:Hp;
    simpl; [|split; [done|apply caches_change_refl]].
  rewrite Ha. destruct (anchored_weights_spec lr anchor proposers Hcache Hp) as [Hw Hcc].
  destruct (anchored_weights anchor lr) as [rw lr1]. simpl in Hw, Hcc. subst rw.
  destruct (weights_at _ _ _) as [ws| |]; simpl; [|done..].
  pose proof (cc_config _ _ Hcc) as Hsc.
  rewrite (chain_health_empty lr1 round proposers), (sc_powers _ _ Hsc), (sc_epoch _ _ Hsc),
    (sc_use_root_hash _ _ Hsc).
  2:{ unfold health_known. by rewrite (cc_window _ _ Hcc). }
  2:{ by rewrite (cc_proposers _ _ Hcc), (sc_epoch _ _ Hsc). }
  destruct (assert_ _ _) as [[]| |]; simpl; [|done..].
  destruct (stake_weights _ _) as [stake| |]; simpl; [|done..].
  destruct (choose_index _ _) as [i| |]; simpl; [|done..].
  by destruct (proposers !! i).
Qed.

Lemma caches_change_trans lr1 lr2 lr3 :
  caches_change lr1 lr2 → caches_change lr2 lr3 → caches_change lr1 lr3.
Proof.
  intros [[] ] [[] ]. split; [split|..]; try congruence; try tauto.
Qed.

(** Computations that change caches only. *)
Definition keeps {A} (c : M LeaderReputation Anyhow A) : Prop := ∀ lr, caches_change lr (c lr).2.

Lemma keeps_bind {A B} (c : M LeaderReputation Anyhow A) (k : A → M LeaderReputation Anyhow B) :
  keeps c → (∀ a, keeps (k a)) → keeps (c ≫= k).
Proof.
  intros Hc Hk lr. unfold mbind, M_bind. specialize (Hc lr). destruct (c lr) as [[a| |] lr1]; [|done..].
  exact (caches_change_trans _ _ _ Hc (Hk a lr1)).
Qed.

Lemma keeps_pure {A} (f : LeaderReputation → result Anyhow A) : keeps (gets f).
Proof. intros lr. apply caches_change_refl. Qed.

Lemma keeps_lift {A} (r : result Anyhow A) : keeps (lift r).
Proof. intros lr. apply caches_change_refl. Qed.

Lemma keeps_ret {A} (a : A) : keeps (mret a).
Proof. intros lr. apply caches_change_refl. Qed.

Lemma keeps_backend {A} (c : M AptosDBBackend Anyhow A) : keeps (zoom lr_backend set_lr_backend c).
Proof. intros lr. unfold zoom. destruct (c _) as [r b]. by split. Qed.

Lemma keeps_anchored anchor : keeps (anchored_weights anchor).
Proof.
  intros lr. unfold anchored_weights, get_weights_at_block, mbind, M_bind, lift, gets.
  destruct (lr_epoch_to_proposers lr !! lr_epoch lr) as [proposers|] eqn:Hp; simpl;
    [|rewrite set_heuristic_refl; apply caches_change_refl].
  destruct (anchored_cache_hit _ _ _); simpl; [rewrite set_heuristic_refl; apply caches_change_refl|].
  destruct (fetch_and_compute_weights _ _ _ _) eqn:Hf; simpl;
    [|rewrite set_heuristic_refl; apply caches_change_refl..].
  by eapply caches_change_anchored.
Qed.

Lemma keeps_legacy storage epoch candidates :
  keeps (zoom lr_heuristic set_lr_heuristic (get_legacy_weights storage epoch candidates)).
Proof.
  intros lr. unfold zoom.
  assert (H : ∀ h, ∃ c, (get_legacy_weights storage epoch candidates h).2 = set_legacy_cache c h).
  { intros h. assert (Hr : ∃ c, h = set_legacy_cache c h).
    { exists (ph_legacy_cached_weights h). by destruct h. }
    unfold get_legacy_weights, mbind, M_bind, lift, gets, modify.
    destruct (expect _ _); simpl; [|done..]. destruct (legacy_need_refresh _ _).
    - destruct (match fetch_and_compute_weights _ _ _ _ with Err _ => _ | r => r end); [|done..].
      destruct (add_u64 _ _); [|done..]. simpl. eauto.
    - destruct (add_u64 _ _); [|done..]. simpl. eauto. }
  destruct (H (lr_heuristic lr)) as [c Hc].
  destruct (get_legacy_weights _ _ _ _) as [r h]. simpl in *. subst h. by split.
Qed.

(** Every call of the election, on every path, changes caches only. *)
Lemma election_keeps round : keeps (lr_get_valid_proposer_and_ratio round).
Proof.
  unfold lr_get_valid_proposer_and_ratio. apply keeps_bind; [apply keeps_pure|]. intros anchor.
  apply keeps_bind; [apply keeps_pure|]. intros proposers. apply keeps_bind.
  - unfold reputation_inputs. apply keeps_bind; [apply keeps_pure|]. intros lr.
    destruct (is_consensus_alpha_active anchor lr); [destruct anchor as [anchor|]|].
    + apply keeps_bind; [apply keeps_anchored|]. intros. apply keeps_ret.
    + destruct (bool_decide _); [apply keeps_ret|].
      apply keeps_bind; [apply keeps_backend|]. intros. apply keeps_bind; [apply keeps_lift|].
      intros. apply keeps_ret.
    + apply keeps_bind; [apply keeps_legacy|]. intros. apply keeps_ret.
  - intros [[window root] weights]. apply keeps_bind; [apply keeps_pure|]. intros ratio.
    apply keeps_bind; [apply keeps_lift|]. intros _. apply keeps_bind; [apply keeps_pure|]. intros lr.
    apply keeps_bind; [apply keeps_lift|]. intros stake. apply keeps_bind; [apply keeps_lift|].
    intros i. apply keeps_bind; [apply keeps_lift|]. intros leader. apply keeps_ret.
Qed.

Lemma try_map_Ok {E A B} (f : A → result E B) (g : A → B) l :
  (∀ a, a ∈ l → f a = Ok (g a)) → try_map f l = Ok (g <$> l).
Proof.
  unfold try_map. induction l as [|a l IH]; intros Hf; [done|].
  rewrite !fmap_cons. cbn [collect_results]. rewrite Hf by (by left). cbn [mbind result_bind].
  rewrite IH by (intros; apply Hf; by right). done.
Qed.

Lemma sum_weights_elem l w : w ∈ l → w ≤ sum_weights l.
Proof.
  induction l as [|x l IH]; [by intros ?%not_elem_of_nil|]. simpl.
  intros [->|H%IH]%elem_of_cons; lia.
Qed.

Lemma stake_weights_Ok ws powers :
  length ws = length powers → sum_weights (zip_with N.mul ws powers) ≤ u128_max →
  stake_weights ws powers = Ok (zip_with N.mul ws powers).
Proof.
  intros Hlen Hsum. unfold stake_weights.
  rewrite (try_map_Ok _ (λ p : nat * N, p.2 * default 0 (powers !! p.1))).
  - f_equal. apply list_eq. intros i. rewrite list_lookup_fmap, list_lookup_imap, lookup_zip_with.
    destruct (ws !! i) as [w|] eqn:Hw; [|done]. simpl.
    destruct (lookup_lt_is_Some_2 powers i) as [p Hp]; [apply lookup_lt_Some in Hw; lia|].
    by rewrite Hp.
  - intros [i w] (j & Hj)%list_elem_of_lookup_1. rewrite list_lookup_imap in Hj.
    destruct (ws !! j) as [w'|] eqn:Hw; [|done]. injection Hj as <- <-. simpl.
    destruct (lookup_lt_is_Some_2 powers j) as [p Hp]; [apply lookup_lt_Some in Hw; lia|].
    rewrite Hp. simpl. unfold mul_checked. rewrite (proj2 (N.leb_le _ _)); [done|].
    etrans; [|exact Hsum]. apply sum_weights_elem, (list_elem_of_lookup_2 _ j).
    by rewrite lookup_zip_with, Hw; simpl; rewrite Hp.
Qed.

(** C30: The election at an anchor is total and exact. When ConsensusAlpha is active at
    the anchor, the anchored cache holds weights the storage gives, the chain-health
    window is one of those measured, and the weighted stake is positive and fits in
    128 bits, the election returns the proposer whose interval of the cumulative
    stake holds the number drawn from the epoch, the round and, if [use_root_hash]
    is set, the anchor's block hash, with a participation ratio of one; apart from
    its caches the election is unchanged. *)
Theorem leader_at_anchor lr round anchor proposers ws :
  weights_cached lr → health_known lr → resolve_anchor round lr = Ok (Some anchor) →
  is_consensus_alpha_active (Some anchor) lr = true →
  lr_epoch_to_proposers lr !! lr_epoch lr = Some proposers →
  length proposers = length (lr_voting_powers lr) →
  weights_at lr (cba_block_number anchor) proposers = Ok ws → length ws = length proposers →
  0 < sum_weights (zip_with N.mul ws (lr_voting_powers lr)) ≤ u128_max →
  ∃ i leader lr', lr_get_valid_proposer_and_ratio round lr = (Ok (leader, f64_one), lr') ∧
    proposers !! i = Some leader ∧ caches_change lr lr' ∧
    in_interval (zip_with N.mul ws (lr_voting_powers lr))
      (draw (election_state (cba_block_hash anchor) (lr_epoch lr) round (lr_use_root_hash lr))
       mod sum_weights (zip_with N.mul ws (lr_voting_powers lr))) i.
Proof.
  intros Hcache Hhealth Hr Ha Hp Hlen Hw Hlw Hs.
  destruct (election_at_anchor lr round anchor Hcache Hhealth Hr Ha) as [Hans Hcc].
  destruct (choose_index_total _ (election_state (cba_block_hash anchor) (lr_epoch lr) round
    (lr_use_root_hash lr)) Hs) as (i & Hi & Hint).
  assert (Hlt : (i < length proposers)%nat).
  { destruct Hint as [Hlt _]. rewrite length_zip_with in Hlt. lia. }
  destruct (lookup_lt_is_Some_2 proposers i Hlt) as [leader Hl].
  destruct (lr_get_valid_proposer_and_ratio round lr) as [r lr'] eqn:Hrun. simpl in Hans, Hcc.
  exists i, leader, lr'. split; [|done]. f_equal. rewrite Hans. unfold anchored_answer.
  rewrite Hp. simpl. rewrite Hw. simpl. rewrite bool_decide_eq_true_2 by done. simpl.
  rewrite stake_weights_Ok by (lia || congruence). simpl. rewrite Hi. simpl. by rewrite Hl.
Qed.

(** ** The election is keyed *)

(** The state of a replica's election started as [lr0], when ConsensusAlpha is
    active from the epoch on. *)
Record replica_ok lr0 lr : Prop := {
  rk_config : same_config lr0 lr;
  rk_alpha : alpha_at_epoch lr0;
  rk_db : is_Some (lr_reputation_anchor_db lr);
  rk_health : health_known lr;
  rk_cached : weights_cached lr;
}.

Definition answer_of_key lr0 (k : ProposerElectionCacheKey) : result Anyhow (Author * f64) :=
  match pk_version k with
  | Some v => anchored_answer lr0 (pk_round k) (anchor_of_version v)
  | None => Err (Msg "no anchor")
  end.

Lemma replica_ok_change lr0 lr lr' : replica_ok lr0 lr → caches_change lr lr' → replica_ok lr0 lr'.
Proof.
  intros [Hc Ha Hdb Hh Hw] Hcc. pose proof Hcc as [[] Hp Hdb' Hex Hwin Hcached]. split; try done.
  - destruct Hc. split; congruence.
  - by rewrite Hdb'.
  - unfold health_known in *. by rewrite Hwin.
  - by apply Hcached.
Qed.

Lemma replica_alpha lr0 lr anchor : replica_ok lr0 lr → is_consensus_alpha_active anchor lr = true.
Proof.
  intros Hk. unfold is_consensus_alpha_active. rewrite (sc_epoch _ _ (rk_config _ _ Hk)).
  by rewrite (rk_alpha _ _ Hk).
Qed.

(** The key that was computed names the anchor the election resolves. *)
Lemma key_of_anchor lr0 lr round k :
  replica_ok lr0 lr → lr_cache_key round lr = Ok (Some k) →
  ∃ anchor, resolve_anchor round lr = Ok (Some anchor) ∧ anchor_width anchor ∧
    k = ProposerElectionCacheKey_with_version round (anchor_version anchor).
Proof.
  intros Hk. destruct (rk_db _ _ Hk) as [db Hdb]. unfold lr_cache_key, resolve_anchor. rewrite Hdb.
  destruct (get_reputation_anchor _ _ _) as [[anchor|]| |] eqn:Hg; try done.
  intros [= <-]. exists anchor. split; [done|]. split; [by eapply get_reputation_anchor_width|done].
Qed.

Lemma reputation_keyed lr0 : keyed_election reputation_election (replica_ok lr0) (answer_of_key lr0).
Proof.
  split.
  - intros round lr r lr1 Hk [= <- <-]. split; [done|]. intros k Hkey.
    by destruct (key_of_anchor _ _ _ _ Hk Hkey) as (anchor & _ & _ & ->).
  - intros round lr r lr1 Hk Hrun. pose proof (election_keeps round lr) as Hcc.
    change (lr_get_valid_proposer_and_ratio round lr = (r, lr1)) in Hrun. rewrite Hrun in Hcc.
    by eapply replica_ok_change.
  - intros round lr k lr1 v lr2 Hk [= Hkey <-] Hrun.
    destruct (key_of_anchor _ _ _ _ Hk Hkey) as (anchor & Hr & Hwidth & ->).
    change (lr_get_valid_proposer_and_ratio round lr = (Ok v, lr2)) in Hrun.
    destruct (election_at_anchor lr round anchor) as [Hans _];
      [apply Hk|apply Hk|done|by eapply replica_alpha|].
    rewrite Hrun in Hans. simpl in Hans. unfold answer_of_key. simpl.
    rewrite anchor_of_to_version by done.
    by rewrite <- (same_config_answer lr0 lr) by apply Hk.
Qed.

(** ** Replicas *)

Definition set_anchor_db (db : ConsensusDB) (c : CachedProposerElection LeaderReputation)
    : CachedProposerElection LeaderReputation :=
  set_ce_proposer_election (with_reputation_anchor_backend db (ce_proposer_election c)) c.

(** The states of the election of a replica: created for the epoch, then called
    for any rounds in any order while the consensus database advances. *)
Inductive replica (env : ElectionEnv) (epoch_state : EpochState) (cfg : OnChainConsensusConfig)
    : CachedProposerElection LeaderReputation → Prop :=
| replica_created c :
    create_proposer_election env epoch_state cfg = Ok (EoReputation c) → replica env epoch_state cfg c
| replica_called c round :
    replica env epoch_state cfg c →
    replica env epoch_state cfg (get_or_compute_entry reputation_election round c).2
| replica_db c db :
    replica env epoch_state cfg c → replica env epoch_state cfg (set_anchor_db db c).

(** The election as it was created. *)
Definition created_reputation (env : ElectionEnv) (epoch_state : EpochState)
    (cfg : OnChainConsensusConfig) : result Anyhow LeaderReputation :=
  o ← create_proposer_election env epoch_state cfg;
  match o with EoReputation c => Ok (ce_proposer_election c) | _ => Err (Msg "other election") end.

Definition health_configured (env : ElectionEnv) : Prop :=
  ee_window_for_chain_health env ∈ CHAIN_HEALTH_WINDOW_SIZES ∧
  (2 <= length CHAIN_HEALTH_WINDOW_SIZES)%nat.

Lemma created_ok env epoch_state cfg c :
  create_proposer_election env epoch_state cfg = Ok (EoReputation c) →
  health_configured env → consensus_alpha_active_at_epoch (es_epoch epoch_state) = true →
  ce_recent_elections c = ∅ ∧ replica_ok (ce_proposer_election c) (ce_proposer_election c).
Proof.
  intros H Hhealth Halpha. unfold create_proposer_election in H.
  destruct (occ_proposer_election_type cfg) as [| |pc stale root|]; run_inv.
  match goal with H : create_leader_reputation _ _ _ _ _ _ _ = _ |- _ => unfold create_leader_reputation in H end.
  unfold LeaderReputation_new in *. run_inv. split; [done|]. split; try done.
Qed.

(** Replicas of one epoch with one configuration storage share the configuration
    of the election. *)
Lemma created_same_config env env' epoch_state cfg c c' :
  create_proposer_election env epoch_state cfg = Ok (EoReputation c) →
  create_proposer_election env' epoch_state cfg = Ok (EoReputation c') →
  ee_config_storage env = ee_config_storage env' →
  same_config (ce_proposer_election c) (ce_proposer_election c').
Proof.
  intros H H' Hst. unfold create_proposer_election in *.
  destruct (occ_proposer_election_type cfg) as [| |pc stale root|]; run_inv.
  unfold create_leader_reputation, LeaderReputation_new in *. run_inv. split; simpl; congruence.
Qed.

(** The leader is one of the proposers the election was created with. *)
Lemma answer_proposer env epoch_state cfg c round anchor v :
  create_proposer_election env epoch_state cfg = Ok (EoReputation c) →
  anchored_answer (ce_proposer_election c) round anchor = Ok v →
  v.1 ∈ vv_ordered_addresses (es_verifier epoch_state) ∧ v.2 = f64_one.
Proof.
  intros H Hv. unfold create_proposer_election in H.
  destruct (occ_proposer_election_type cfg) as [| |pc stale root|]; run_inv.
  unfold create_leader_reputation, LeaderReputation_new in *. run_inv.
  unfold anchored_answer in Hv. run_inv. unfold extract_epoch_proposers in *. simplify_map_eq.
  split; [|done]. by eapply list_elem_of_lookup_2.
Qed.

Lemma replica_cache_ok env epoch_state cfg c :
  replica env epoch_state cfg c → health_configured env →
  consensus_alpha_active_at_epoch (es_epoch epoch_state) = true →
  ∃ c0, create_proposer_election env epoch_state cfg = Ok (EoReputation c0) ∧
    cache_ok (replica_ok (ce_proposer_election c0)) (answer_of_key (ce_proposer_election c0)) c.
Proof.
  intros Hr Hh Ha. induction Hr as [c0 Hc|c round Hr (c0 & Hc & Hok)|c db Hr (c0 & Hc & HI & HF)].
  - exists c0. split; [done|]. destruct (created_ok _ _ _ _ Hc Hh Ha) as [He Hok].
    split; [done|]. intros k v. by rewrite He, lookup_empty.
  - exists c0. split; [done|]. apply get_or_compute_entry_keeps; [apply reputation_keyed|done].
  - exists c0. split; [done|]. split; [|done]. destruct HI as [[] ]. split; [split|..]; done.
Qed.

Lemma resolved_key lr round anchor :
  resolve_anchor round lr = Ok (Some anchor) →
  cache_key reputation_election round lr =
    (Ok (Some (ProposerElectionCacheKey_with_version round (anchor_version anchor))), lr) ∧
  anchor_width anchor.
Proof.
  unfold resolve_anchor. simpl. unfold gets, lr_cache_key.
  destruct (lr_reputation_anchor_db lr) as [db|]; [|done].
  destruct (get_reputation_anchor _ _ _) as [[a|]| |] eqn:Hg; [|done..].
  intros [= ->]. split; [done|]. by eapply get_reputation_anchor_width.
Qed.

(** The answer of a replica is the one its configuration determines. *)
Lemma replica_answer env epoch_state cfg c round anchor v c1 :
  replica env epoch_state cfg c → health_configured env →
  consensus_alpha_active_at_epoch (es_epoch epoch_state) = true →
  resolve_anchor round (ce_proposer_election c) = Ok (Some anchor) →
  get_or_compute_entry reputation_election round c = (Ok v, c1) →
  ∃ c0, create_proposer_election env epoch_state cfg = Ok (EoReputation c0) ∧
    anchored_answer (ce_proposer_election c0) round anchor = Ok v.
Proof.
  intros Hr Hh Ha Hres Hrun. destruct (replica_cache_ok _ _ _ _ Hr Hh Ha) as (c0 & Hc & Hok).
  exists c0. split; [done|]. destruct (resolved_key _ _ _ Hres) as [Hkey Hwidth].
  destruct (get_or_compute_entry_value _ _ _ _ _ _ _ _ _ (reputation_keyed _) Hok Hkey Hrun)
    as (Hv & _). unfold answer_of_key in Hv. simpl in Hv. by rewrite anchor_of_to_version in Hv.
Qed.

(** C24: Replicas elect the same leader. Two replicas with the anchored leader
    reputation of an epoch (ConsensusAlpha active in the epoch; the legacy path over
    the local history is not covered), created with the same consensus configuration
    and the same configuration storage, whose answers for a block do not change in
    time, and with a chain-health window among the measured ones, that resolve the
    same anchor for a round and return a leader return the same leader, whatever
    rounds they were asked about before, whatever their caches hold and however
    their databases got there; the leader is a validator of the epoch and the
    participation ratio is one. *)
Theorem replicas_agree env env' epoch_state cfg c c' round anchor v v' c1 c1' :
  replica env epoch_state cfg c → replica env' epoch_state cfg c' →
  ee_config_storage env = ee_config_storage env' →
  health_configured env → health_configured env' →
  consensus_alpha_active_at_epoch (es_epoch epoch_state) = true →
  resolve_anchor round (ce_proposer_election c) = Ok (Some anchor) →
  resolve_anchor round (ce_proposer_election c') = Ok (Some anchor) →
  get_or_compute_entry reputation_election round c = (Ok v, c1) →
  get_or_compute_entry reputation_election round c' = (Ok v', c1') →
  v = v' ∧ v.1 ∈ vv_ordered_addresses (es_verifier epoch_state) ∧ v.2 = f64_one.
Proof.
  intros Hr Hr' Hst Hh Hh' Ha Hres Hres' Hrun Hrun'.
  destruct (replica_answer _ _ _ _ _ _ _ _ Hr Hh Ha Hres Hrun) as (c0 & Hc & Hv).
  destruct (replica_answer _ _ _ _ _ _ _ _ Hr' Hh' Ha Hres' Hrun') as (c0' & Hc' & Hv').
  pose proof (created_same_config _ _ _ _ _ _ Hc Hc' Hst) as Hsc.
  rewrite (same_config_answer _ _ round anchor Hsc) in Hv'. split; [congruence|].
  apply (answer_proposer _ _ _ _ _ _ _ Hc Hv).
Qed.

End reputation_theorems.
