(* ===== verification/ProposalGenerator.v ===== *)
(** * Making proposals
    (consensus/src/liveness/proposal_generator.rs, payload_client/mixed.rs,
    payload_client/user/quorum_store_client.rs, and what block_store.rs and
    common.rs provide for it)

    A leader extends the block certified by the highest quorum certificate with what
    the quorum store and the pool of validator transactions give, within limits that
    shrink when the pipeline, the execution or the participation of validators lags
    behind, and names the leaders of the rounds that failed.  The generator proposes
    once per round. *)

From S2P Require Import Prelude Gaptos Types Bytes Floats Certificates Payloads Blocks SafetyRules SafetySpec Bft PendingVotes.
From S2P Require Import BlockTree RoundState BlockBufferManager BufferItem ConsensusDb BatchStore ProofQueue ProofManager Recovery BlockStore Election.

(** What the code takes from [gaptos]. *)
Class ProposalTypes {GA : Gaptos} := {
  vtxn_size_in_bytes : ValidatorTransaction → N;
  vtxn_hash : ValidatorTransaction → HashValue;
  raw_txn_bytes_len : SignedTransaction → N;
}.

(** Configuration of [gaptos], by the fields and accessors the code reads. *)
Record ValidatorTxnConfig := {
  vtc_enabled : bool;
  vtc_per_block_limit_txn_count : N;
  vtc_per_block_limit_total_bytes : N;
}.

Record ChainHealthBackoffValues := {
  chb_backoff_if_below_participating_voting_power_percentage : N;
  chb_max_sending_block_txns_after_filtering_override : N;
  chb_max_sending_block_bytes_override : N;
  chb_backoff_proposal_delay_ms : N;
}.

Record PipelineBackpressureValues := {
  pbv_back_pressure_pipeline_latency_limit_ms : N;
  pbv_max_sending_block_txns_after_filtering_override : N;
  pbv_max_sending_block_bytes_override : N;
  pbv_backpressure_proposal_delay_ms : N;
}.

Inductive ExecutionBackpressureMetric := Mean | Percentile (p : f64).

Record ExecutionLookbackConfig := {
  elc_num_blocks_to_look_at : nat;
  elc_min_block_time_ms_to_activate : N;
  elc_min_blocks_to_activate : nat;
  elc_metric : ExecutionBackpressureMetric;
  elc_target_block_time_ms : N;
}.

Record ExecutionTxnLimit := {
  etl_lookback_config : ExecutionLookbackConfig;
  etl_min_calibrated_txns_per_block : N;
}.

Record ExecutionBackpressureConfig := { ebc_txn_limit : option ExecutionTxnLimit }.

(** [ExecutionSummary] of pipelined_block.rs. *)
Record ExecutionSummary := {
  exs_payload_len : N;
  exs_to_commit : N;
  exs_to_retry : N;
  exs_execution_time : N;
}.

(** ** Back pressure on the size of proposals *)

(** [BTreeMap::range(k..).next()] and [BTreeMap::range(..k).last()], the values. *)
Definition first_from {V} (k : N) (m : gmap N V) : option V :=
  snd <$> foldr (λ kv best,
    if k <=? kv.1 then
      match best with
      | Some b => if b.1 <? kv.1 then Some b else Some kv
      | None => Some kv
      end
    else best) None (map_to_list m).

Definition last_below {V} (k : N) (m : gmap N V) : option V :=
  snd <$> foldr (λ kv best,
    if kv.1 <? k then
      match best with
      | Some b => if kv.1 <? b.1 then Some b else Some kv
      | None => Some kv
      end
    else best) None (map_to_list m).

Section backoff.
Context {GA : Gaptos}.

(** [collect::<BTreeMap>], with the assertion that no key is lost. *)
Definition keyed {V} (key : V → N) (l : list V) : result Anyhow (gmap N V) :=
  let m := foldl (λ m v, <[key v := v]> m) ∅ l in
  _ ← assert_ (length l =? size m)%nat "assertion failed: `(left == right)`";
  Ok m.

Definition ChainHealthBackoffConfig : Type := gmap N ChainHealthBackoffValues.

Definition ChainHealthBackoffConfig_new (backoffs : list ChainHealthBackoffValues)
    : result Anyhow ChainHealthBackoffConfig :=
  keyed chb_backoff_if_below_participating_voting_power_percentage backoffs.

(** [(ratio * 100.0).floor() as usize]; an empty map has no entry in any range. *)
Definition chain_health_get_backoff (c : ChainHealthBackoffConfig) (voting_power_ratio : f64)
    : option ChainHealthBackoffValues :=
  first_from (f64_to_u64 (f64_mul voting_power_ratio (f64_of_u64 100))) c.

Record PipelineBackpressureConfig := {
  pbc_backoffs : gmap N PipelineBackpressureValues;
  pbc_execution : option ExecutionBackpressureConfig;
}.

Definition PipelineBackpressureConfig_new (backoffs : list PipelineBackpressureValues)
    (execution : option ExecutionBackpressureConfig) : result Anyhow PipelineBackpressureConfig :=
  backoffs ← keyed pbv_back_pressure_pipeline_latency_limit_ms backoffs;
  Ok {| pbc_backoffs := backoffs; pbc_execution := execution |}.

(** [as_millis() as u64] of a [Duration] in nanoseconds. *)
Definition as_millis (d : N) : N := (d / 1000000) mod 2 ^ 64.

Definition pipeline_get_backoff (c : PipelineBackpressureConfig) (pipeline_pending_latency : N)
    : option PipelineBackpressureValues :=
  last_below (as_millis pipeline_pending_latency) (pbc_backoffs c).

(** The block size one execution suggests, if it took long enough to count. *)
Definition calibrated_size (l : ExecutionLookbackConfig) (summary : ExecutionSummary)
    : result Anyhow (option N) :=
  let execution_time_ms := exs_execution_time summary / 1000000 in
  if (elc_min_block_time_ms_to_activate l <? execution_time_ms) && (0 <? exs_payload_len summary) then
    executed ← add_u64 (exs_to_commit summary) (exs_to_retry summary);
    Ok (Some (N.max 1 (f64_to_u64
      (f64_mul
         (f64_mul (f64_div (f64_of_u64 (elc_target_block_time_ms l)) (f64_of_u64 execution_time_ms))
            (f64_div (f64_of_u64 (exs_to_commit summary)) (f64_of_u64 executed)))
         (f64_of_u64 (exs_payload_len summary))))))
  else Ok None.

Fixpoint calibrated_sizes (l : ExecutionLookbackConfig) (times : list ExecutionSummary)
    : result Anyhow (list N) :=
  match times with
  | [] => Ok []
  | t :: times =>
      s ← calibrated_size l t;
      rest ← calibrated_sizes l times;
      Ok (option_list s ++ rest)
  end.

(** 0.5 *)
Definition f64_half : f64 := f64_div f64_one (f64_of_u64 2).

Definition get_execution_block_size_backoff (c : PipelineBackpressureConfig)
    (block_execution_times : list ExecutionSummary) (max_block_txns : N) : result Anyhow (option N) :=
  match pbc_execution c with
  | None => Ok None
  | Some config =>
      txn_limit ← expect "called `Option::unwrap()` on a `None` value" (ebc_txn_limit config);
      let lookback := etl_lookback_config txn_limit in
      sizes ← calibrated_sizes lookback block_execution_times;
      let sizes := merge_sort N.le sizes in
      if (elc_min_blocks_to_activate lookback <=? length sizes)%nat then
        let percentile := match elc_metric lookback with Mean => f64_half | Percentile p => p end in
        last ← sub_u64 (N.of_nat (length sizes)) 1;
        let index := N.min (f64_to_u64 (f64_mul percentile (f64_of_u64 (N.of_nat (length sizes))))) last in
        size ← expect "guaranteed to be within vector size" (sizes !! N.to_nat index);
        let calibrated_block_size := N.max size (etl_min_calibrated_txns_per_block txn_limit) in
        Ok (if calibrated_block_size <? max_block_txns then Some calibrated_block_size else None)
      else Ok None
  end.

End backoff.

(** ** Payloads *)

Section proposal_generator.
Context {GA : Gaptos} {VE : Verifier} {CR : Crypto} {PI : PartialLedgerInfo} {AT : ApiTypes} {PT : PipelineTypes}.
Context {DT : DbTypes} {SD : SchemaDb} {RY : RecoveryTypes} {ST : StoreTypes} {PO : ProposalTypes}.

Definition OptQuorumStorePayload_num_bytes (p : OptQuorumStorePayload) : result Anyhow N :=
  add_usize (add_usize (sum_u64 (bin_num_bytes <$> oqs_opt_batches p)) (sum_u64 (proof_bytes <$> oqs_proofs p)))
    (sum_u64 ((λ b, bin_num_bytes (inb_batch_info b)) <$> oqs_inline_batches p)).

Definition ProofWithData_num_bytes (p : ProofWithData) : result Anyhow N :=
  sum_u64 (proof_bytes <$> pwd_proofs p).

(** [Payload::size] (common.rs). *)
Definition Payload_size (p : Payload) : result Anyhow N :=
  match p with
  | DirectMempool txns => sum_u64 (raw_txn_bytes_len <$> txns)
  | InQuorumStore p => ProofWithData_num_bytes p
  | InQuorumStoreWithLimit p => ProofWithData_num_bytes (pwl_proof_with_data p)
  | QuorumStoreInlineHybrid inline p _ =>
      add_usize (ProofWithData_num_bytes p)
        (sum_u64 ((λ i : BatchInfo * list SignedTransaction, bin_num_bytes i.1) <$> inline))
  | OptQuorumStore p => OptQuorumStorePayload_num_bytes p
  end.

Definition Payload_is_direct (p : Payload) : bool :=
  match p with DirectMempool _ => true | _ => false end.

(** The batches a payload refers to, as the filter collects them. *)
Definition filtered_batches (p : Payload) : list BatchInfo :=
  match p with
  | DirectMempool _ => []
  | InQuorumStore p => pos_info <$> pwd_proofs p
  | InQuorumStoreWithLimit p => pos_info <$> pwd_proofs (pwl_proof_with_data p)
  | QuorumStoreInlineHybrid inline p _ => (pos_info <$> pwd_proofs p) ++ inline.*1
  | OptQuorumStore p => oqs_opt_batches p ++ (pos_info <$> oqs_proofs p)
  end.

Definition PayloadFilter_from (exclude_payloads : list Payload) : PayloadFilter :=
  match exclude_payloads with
  | [] => FilterEmpty
  | _ =>
      if existsb Payload_is_direct exclude_payloads then FilterDirectMempool
      else FilterInQuorumStore (remove_dups (exclude_payloads ≫= filtered_batches))
  end.

(** ** Pulling a payload *)

(** What a proposal depends on beside the state: the time, the answer of the pool of
    validator transactions to a number, a number of bytes and the hashes to leave out,
    the answer of the quorum store to a request (an error when it does not come in
    time), how long a block has been in the pipeline, and the summaries of
    executions. *)
Record ProposalInputs := {
  pin_now : N;
  pin_validator_txns : N → N → list HashValue → list ValidatorTransaction;
  pin_answer : GetPayloadRequest → result Anyhow Payload;
  pin_elapsed : HashValue → N;
  pin_summary : HashValue → option ExecutionSummary;
}.

(** [QuorumStoreClient], by what decides its requests. *)
Record QuorumStoreClient := {
  qsc_wait_for_full_blocks_above_recent_fill_threshold : f32;
  qsc_wait_for_full_blocks_above_pending_blocks : nat;
}.

(** The limits of a request; [max_inline_items] and [max_inline_bytes] are passed on. *)
Record PayloadLimits := {
  pl_max_items : N;
  pl_max_items_after_filtering : N;
  pl_soft_max_items_after_filtering : N;
  pl_max_bytes : N;
  pl_max_inline_items : N;
  pl_max_inline_bytes : N;
}.

(** [QuorumStoreClient::pull]: [done] is constantly true, so the request says
    [return_non_full], the guard of the retry, [payload.is_empty() && !return_empty &&
    !done], never holds, and the loop asks once; the wait callback of the caller is
    awaited only behind that guard. *)
Definition user_pull (c : QuorumStoreClient) (answer : GetPayloadRequest → result Anyhow Payload)
    (l : PayloadLimits) (exclude : PayloadFilter) (pending_ordering : bool)
    (pending_uncommitted_blocks : nat) (recent_max_fill_fraction : f32) (block_timestamp : N)
    : result Anyhow Payload :=
  let return_non_full :=
    f32_ltb recent_max_fill_fraction (qsc_wait_for_full_blocks_above_recent_fill_threshold c)
    && (pending_uncommitted_blocks <? qsc_wait_for_full_blocks_above_pending_blocks c)%nat in
  let return_empty := pending_ordering && return_non_full in
  let done := true in
  answer {| gpr_max_txns := pl_max_items l;
            gpr_max_txns_after_filtering := pl_max_items_after_filtering l;
            gpr_soft_max_txns_after_filtering := pl_soft_max_items_after_filtering l;
            gpr_max_bytes := pl_max_bytes l; gpr_max_inline_txns := pl_max_inline_items l;
            gpr_max_inline_bytes := pl_max_inline_bytes l;
            gpr_return_non_full := return_non_full || return_empty || done;
            gpr_filter := exclude; gpr_block_timestamp_secs := block_timestamp / 1000000000 |}.

(** [MixedPayloadClient::pull_payload]: validator transactions first, what they take
    is subtracted from the limits. *)
Definition pull_payload (config : ValidatorTxnConfig) (c : QuorumStoreClient) (i : ProposalInputs)
    (l : PayloadLimits) (validator_txn_filter : list HashValue) (user_txn_filter : PayloadFilter)
    (pending_ordering : bool) (pending_uncommitted_blocks : nat) (recent_max_fill_fraction : f32)
    (block_timestamp : N) : result Anyhow (list ValidatorTransaction * Payload) :=
  let validator_txns :=
    pin_validator_txns i (N.min (pl_max_items l) (vtc_per_block_limit_txn_count config))
      (N.min (pl_max_bytes l) (vtc_per_block_limit_total_bytes config)) validator_txn_filter in
  let n := N.of_nat (length validator_txns) in
  max_items ← sub_u64 (pl_max_items l) n;
  max_items_after_filtering ← sub_u64 (pl_max_items_after_filtering l) n;
  soft_max_items_after_filtering ← sub_u64 (pl_soft_max_items_after_filtering l) n;
  bytes ← sum_u64 (vtxn_size_in_bytes <$> validator_txns);
  max_bytes ← sub_u64 (pl_max_bytes l) bytes;
  user_payload ← user_pull c (pin_answer i)
    {| pl_max_items := max_items; pl_max_items_after_filtering := max_items_after_filtering;
       pl_soft_max_items_after_filtering := soft_max_items_after_filtering;
       pl_max_bytes := max_bytes; pl_max_inline_items := pl_max_inline_items l;
       pl_max_inline_bytes := pl_max_inline_bytes l |}
    user_txn_filter pending_ordering pending_uncommitted_blocks recent_max_fill_fraction block_timestamp;
  Ok (validator_txns, user_payload).

(** ** Latencies of the pipeline (the trait [BlockReader]) *)

(** [min_by_key(round)]: the first of the blocks of the least round. *)
Definition oldest_block (l : list Block) : option Block :=
  match l with
  | [] => None
  | b :: l => Some (foldl (λ m x, if Block_round x <? Block_round m then x else m) b l)
  end.

(** How long the oldest block that is ordered and not committed has been in the
    pipeline, when there is more than one. *)
Definition pipeline_pending_latency (elapsed : HashValue → N) (s : BlockStore) : result Anyhow N :=
  ordered ← ordered_root (bs_inner s);
  path ← path_from_commit_root (bs_inner s) (block_id ordered);
  let pending_path := default [] path in
  let spent :=
    match oldest_block pending_path with
    | Some b => if pc_insertion_time (cells_of s (block_id b)) then elapsed (block_id b) else 0
    | None => 0
    end in
  Ok (if (1 <? length pending_path)%nat then spent else 0).

(** The summaries of up to [num_blocks] blocks, from the ordered root to its
    ancestors. *)
Fixpoint recent_summaries (fuel : nat) (summary : HashValue → option ExecutionSummary) (num_blocks : nat)
    (s : BlockStore) (cur_block : option Block) (res : list ExecutionSummary)
    : result Anyhow (list ExecutionSummary) :=
  match fuel with
  | O => Panic "out of fuel"
  | S fuel =>
      match cur_block with
      | None => Ok res
      | Some block =>
          let parent := get_block (bs_inner s) (Block_parent_id block) in
          match summary (block_id block) with
          | Some x =>
              let res := res ++ [x] in
              if (num_blocks <=? length res)%nat then Ok res
              else recent_summaries fuel summary num_blocks s parent res
          | None => recent_summaries fuel summary num_blocks s parent res
          end
      end
  end.

Definition get_recent_block_execution_times (summary : HashValue → option ExecutionSummary)
    (num_blocks : nat) (s : BlockStore) : result Anyhow (list ExecutionSummary) :=
  root ← ordered_root (bs_inner s);
  recent_summaries (2 + size (bt_id_to_block (bs_inner s))) summary num_blocks s (Some root) [].

(** ** The generator *)

Record ProposalGenerator := {
  pg_author : Author;
  pg_payload_client : QuorumStoreClient;
  pg_max_block_txns : N;
  pg_max_block_txns_after_filtering : N;
  pg_max_block_bytes : N;
  pg_max_inline_txns : N;
  pg_max_inline_bytes : N;
  pg_max_failed_authors_to_store : N;
  pg_min_max_txns_in_block_after_filtering_from_backpressure : N;
  pg_pipeline_backpressure_config : PipelineBackpressureConfig;
  pg_chain_health_backoff_config : ChainHealthBackoffConfig;
  pg_last_round_generated : Round;
  pg_quorum_store_enabled : bool;
  pg_vtxn_config : ValidatorTxnConfig;
  pg_allow_batches_without_pos_in_proposal : bool;
}.

Definition with_last_round_generated (round : Round) (g : ProposalGenerator) : ProposalGenerator :=
  {| pg_author := pg_author g; pg_payload_client := pg_payload_client g;
     pg_max_block_txns := pg_max_block_txns g;
     pg_max_block_txns_after_filtering := pg_max_block_txns_after_filtering g;
     pg_max_block_bytes := pg_max_block_bytes g; pg_max_inline_txns := pg_max_inline_txns g;
     pg_max_inline_bytes := pg_max_inline_bytes g;
     pg_max_failed_authors_to_store := pg_max_failed_authors_to_store g;
     pg_min_max_txns_in_block_after_filtering_from_backpressure :=
       pg_min_max_txns_in_block_after_filtering_from_backpressure g;
     pg_pipeline_backpressure_config := pg_pipeline_backpressure_config g;
     pg_chain_health_backoff_config := pg_chain_health_backoff_config g;
     pg_last_round_generated := round; pg_quorum_store_enabled := pg_quorum_store_enabled g;
     pg_vtxn_config := pg_vtxn_config g;
     pg_allow_batches_without_pos_in_proposal := pg_allow_batches_without_pos_in_proposal g |}.

Definition ensure_highest_quorum_cert (s : BlockStore) (round : Round) : result Anyhow QuorumCert :=
  let hqc := bt_highest_quorum_cert (bs_inner s) in
  _ ← ensure (bi_round (certified_block hqc) <? round) (Msg "Given round is lower than hqc round");
  _ ← ensure (negb (QuorumCert_ends_epoch hqc))
        (Msg "The epoch has already ended,a proposal is not allowed to generated");
  Ok hqc.

Definition min_or (x : N) (l : list N) : N := foldr N.min x l.
Definition max_or (x : N) (l : list N) : N := foldr N.max x l.

(** The transactions after filtering, the bytes, the transactions to execute where
    they are fewer, and the delay in milliseconds. *)
Definition calculate_max_block_sizes (g : ProposalGenerator) (voting_power_ratio : f64) (i : ProposalInputs)
    (s : BlockStore) : result Anyhow (N * N * option N * N) :=
  let chain_health_backoff := chain_health_get_backoff (pg_chain_health_backoff_config g) voting_power_ratio in
  latency ← pipeline_pending_latency (pin_elapsed i) s;
  let pipeline_backpressure := pipeline_get_backoff (pg_pipeline_backpressure_config g) latency in
  execution_backpressure ←
    match pbc_execution (pg_pipeline_backpressure_config g) with
    | None => Ok None
    | Some config =>
        txn_limit ← expect "called `Option::unwrap()` on a `None` value" (ebc_txn_limit config);
        times ← get_recent_block_execution_times (pin_summary i)
                  (elc_num_blocks_to_look_at (etl_lookback_config txn_limit)) s;
        get_execution_block_size_backoff (pg_pipeline_backpressure_config g) times
          (pg_max_block_txns_after_filtering g)
    end;
  let max_txns := min_or (pg_max_block_txns_after_filtering g)
    (option_list (chb_max_sending_block_txns_after_filtering_override <$> chain_health_backoff) ++
     option_list (pbv_max_sending_block_txns_after_filtering_override <$> pipeline_backpressure) ++
     option_list execution_backpressure) in
  let max_bytes := min_or (pg_max_block_bytes g)
    (option_list (chb_max_sending_block_bytes_override <$> chain_health_backoff) ++
     option_list (pbv_max_sending_block_bytes_override <$> pipeline_backpressure)) in
  let delay := max_or 0
    (option_list (chb_backoff_proposal_delay_ms <$> chain_health_backoff) ++
     option_list (pbv_backpressure_proposal_delay_ms <$> pipeline_backpressure)) in
  let least := pg_min_max_txns_in_block_after_filtering_from_backpressure g in
  Ok (if max_txns <? least then (least, max_bytes, Some max_txns, delay)
      else (max_txns, max_bytes, None, delay)).

Section election.
Context {E : Type} (pe : ProposerElection E).

Fixpoint proposers_of (rounds : list Round) : M E Anyhow (list (Round * Author)) :=
  match rounds with
  | [] => mret []
  | r :: rounds =>
      author ← get_valid_proposer pe r;
      rest ← proposers_of rounds;
      mret ((r, author) :: rest)
  end.

(** [start..end_round]. *)
Definition round_range (start end_round : Round) : list Round :=
  (λ k, start + N.of_nat k) <$> seq 0 (N.to_nat (end_round - start)).

Definition compute_failed_authors (max_failed_authors_to_store : N) (round previous_round : Round)
    (include_cur_round : bool) : M E Anyhow (list (Round * Author)) :=
  end_round ← lift (add_u64 round (if include_cur_round then 1 else 0));
  next ← lift (add_u64 previous_round 1);
  let start := N.max next (end_round - max_failed_authors_to_store) in
  proposers_of (round_range start end_round).

Definition generate_nil_block (g : ProposalGenerator) (s : BlockStore) (round : Round) : M E Anyhow Block :=
  quorum_cert ← lift (ensure_highest_quorum_cert s round);
  failed_authors ← compute_failed_authors (pg_max_failed_authors_to_store g) round
                     (bi_round (certified_block quorum_cert)) true;
  mret (Block_new_nil round quorum_cert failed_authors).

(** [payload().map_or(0, f)], the greatest over the pending blocks. *)
Definition max_over (f : Payload → result Anyhow N) (pending_blocks : list Block) : result Anyhow N :=
  sizes ← collect_results ((λ b, match Block_payload b with Some p => f p | None => Ok 0 end) <$> pending_blocks);
  Ok (default 0 (max_of sizes)).

(** The part of [generate_proposal] for a branch without a reconfiguration: validator
    transactions, payload and timestamp. *)
Definition pull_for_proposal (g : ProposalGenerator) (i : ProposalInputs) (s : BlockStore) (round : Round)
    (hqc : QuorumCert) : M E Anyhow (list ValidatorTransaction * Payload * N) :=
  let parent_id := bi_id (certified_block hqc) in
  path ← lift (path_from_commit_root (bs_inner s) parent_id);
  path ← lift (ok_or (Msg "HQC already pruned") path);
  root ← lift (commit_root (bs_inner s));
  let pending_blocks := path ++ [root] in
  let payload_filter := PayloadFilter_from (omap Block_payload pending_blocks) in
  ordering ← lift (path_from_ordered_root (bs_inner s) parent_id);
  ordering ← lift (ok_or (Msg "HQC already pruned") ordering);
  let pending_ordering :=
    existsb (λ b, negb (match Block_payload b with Some p => Payload_is_empty p | None => true end)) ordering in
  let timestamp := pin_now i in
  ratio ← get_voting_power_participation_ratio pe round;
  sizes ← lift (calculate_max_block_sizes g ratio i s);
  let '(max_block_txns_after_filtering, max_block_bytes, max_txns_from_block_to_execute, _) := sizes in
  max_len ← lift (max_over Payload_len pending_blocks);
  max_size ← lift (max_over Payload_size pending_blocks);
  let max_fill_fraction :=
    f32_max (f32_div (f32_of_u64 max_len) (f32_of_u64 (pg_max_block_txns g)))
            (f32_div (f32_of_u64 max_size) (f32_of_u64 (pg_max_block_bytes g))) in
  let hashes := vtxn_hash <$> (omap (λ b, BlockData_validator_txns (block_block_data b)) pending_blocks ≫= id) in
  pulled ← lift (with_context "Fail to retrieve payload"
    (pull_payload (pg_vtxn_config g) (pg_payload_client g) i
       {| pl_max_items := pg_max_block_txns g;
          pl_max_items_after_filtering := max_block_txns_after_filtering;
          pl_soft_max_items_after_filtering :=
            default max_block_txns_after_filtering max_txns_from_block_to_execute;
          pl_max_bytes := max_block_bytes; pl_max_inline_items := pg_max_inline_txns g;
          pl_max_inline_bytes := pg_max_inline_bytes g |}
       hashes payload_filter pending_ordering (length pending_blocks) max_fill_fraction timestamp));
  payload ← lift match max_txns_from_block_to_execute with
            | Some max =>
                if Payload_is_direct pulled.2 then Ok pulled.2
                else len ← Payload_len pulled.2;
                     if max <? len then transform_to_quorum_store_v2 pulled.2 (Some max) else Ok pulled.2
            | None => Ok pulled.2
            end;
  mret (pulled.1, payload, (timestamp / 1000) mod 2 ^ 64).

(** The part of [generate_proposal] behind the check of the round. *)
Definition build_proposal (g : ProposalGenerator) (i : ProposalInputs) (s : BlockStore) (round : Round)
    : M E Anyhow BlockData :=
  hqc ← lift (ensure_highest_quorum_cert s round);
  content ←
    (if bi_has_reconfiguration (certified_block hqc)
     then mret ([], Payload_empty (pg_quorum_store_enabled g) (pg_allow_batches_without_pos_in_proposal g),
                bi_timestamp_usecs (certified_block hqc))
     else pull_for_proposal g i s round hqc);
  let '(validator_txns, payload, timestamp) := content in
  failed_authors ← compute_failed_authors (pg_max_failed_authors_to_store g) round
                     (bi_round (certified_block hqc)) false;
  mret (if vtc_enabled (pg_vtxn_config g)
        then BlockData_new_proposal_ext validator_txns payload (pg_author g) failed_authors round timestamp hqc
        else BlockData_new_proposal payload (pg_author g) failed_authors round timestamp hqc).

(** The last round is marked before the proposal is made, also when that fails. *)
Definition generate_proposal (i : ProposalInputs) (s : BlockStore) (round : Round)
    : M (ProposalGenerator * E) Anyhow BlockData := λ '(g, e),
  if pg_last_round_generated g <? round then
    let g := with_last_round_generated round g in
    let '(r, e) := build_proposal g i s round e in (r, (g, e))
  else (Err (Msg "Already proposed in the round"), (g, e)).

End election.
End proposal_generator.
