(* ===== verification/RoundManager.v ===== *)
(** * The round manager
    (consensus/src/round_manager.rs, metrics_safety_rules.rs, util/mod.rs)

    The round manager is the event loop of a validator: it verifies messages, brings
    the block store up to the certificates they carry, moves the round state, votes
    for proposals and timeouts through the safety rules, collects votes into
    certificates and proposes when it leads a round.  A handler is one definition on
    the state [RoundManager]; what is sent is recorded in order, and the clock is read
    once per event.  [debug_assert!] is not compiled into releases.  The task that
    makes a proposal and the wait for a payload are kept as what is still to be done,
    and are events of their own. *)

From S2P Require Import Prelude Gaptos Types Bytes Floats Certificates Payloads Blocks SafetyRules SafetySpec Bft PendingVotes.
From S2P Require Import BlockTree RoundState BlockBufferManager BufferItem ConsensusDb BatchStore ProofQueue ProofManager ProofCoordinator.
From S2P Require Import Recovery BlockStore SyncManager Election ProposalGenerator.

(** ** Safety rules with initialization on demand (metrics_safety_rules.rs) *)

(** [loop { .. }] whose body breaks with [inr]: at most [n] rounds. *)
Fixpoint loop_until {S E W A} (n : positive) (body : W → M S E (W + A)) (w : W) : M S E (W + A) :=
  match n with
  | xH => body w
  | xO n =>
      r ← loop_until n body w;
      match r with inl w => loop_until n body w | inr a => mret (inr a) end
  | xI n =>
      r ← body w;
      match r with
      | inl w =>
          r ← loop_until n body w;
          match r with inl w => loop_until n body w | inr a => mret (inr a) end
      | inr a => mret (inr a)
      end
  end.

Section metrics_safety_rules.
Context {GA : Gaptos} {VE : Verifier} {CR : Crypto} {SS : SecureStorage}.

(** [retrieve_epoch_change_proof] of the storage, which reads the Aptos database. *)
Context (retrieve_epoch_change_proof : N → result Anyhow EpochChangeProof).

(** One round of the loop of [perform_initialize], from a version of the waypoint. *)
Definition initialize_from (waypoint_version : N) : M SafetyRules Error (N + unit) := λ s,
  match map_err (λ e, SafetyRules.InternalError (OfAnyhow e)) (retrieve_epoch_change_proof waypoint_version) with
  | Ok proofs =>
      match guarded_initialize proofs s with
      | (Ok u, s) => (Ok (inr u), s)
      | (Err (WaypointOutOfDate prev_version curr_version current provided), s) =>
          if prev_version <? curr_version then (Ok (inl curr_version), s)
          else (Err (WaypointOutOfDate prev_version curr_version current provided), s)
      | (Err e, s) => (Err e, s)
      | (Panic m, s) => (Panic m, s)
      end
  | Err e => (Err e, s)
  | Panic m => (Panic m, s)
  end.

(** The version of the waypoint grows in every round and is a [u64]. *)
Definition perform_initialize : M SafetyRules Error unit :=
  consensus_state ← guarded_consensus_state;
  r ← loop_until 18446744073709551616 initialize_from (wp_version (cst_waypoint consensus_state));
  match r with
  | inl _ => lift (Panic "out of fuel")
  | inr u => mret u
  end.

Definition retry {A} (f : M SafetyRules Error A) : M SafetyRules Error A := λ s,
  match f s with
  | (Err (NotInitialized _), s) | (Err (IncorrectEpoch _ _), s) | (Err (WaypointOutOfDate _ _ _ _), s) =>
      (_ ← perform_initialize; f) s
  | r => r
  end.

Definition metrics_sign_proposal (block_data : BlockData) : M SafetyRules Error Signature :=
  retry (guarded_sign_proposal block_data).

Definition metrics_sign_timeout_with_qc (timeout : TwoChainTimeout)
    (timeout_cert : option TwoChainTimeoutCertificate) : M SafetyRules Error Signature :=
  retry (guarded_sign_timeout_with_qc timeout timeout_cert).

Definition metrics_construct_and_sign_vote_two_chain (vp : VoteProposal)
    (timeout_cert : option TwoChainTimeoutCertificate) (now : N) : M SafetyRules Error Vote :=
  retry (guarded_construct_and_sign_vote_two_chain vp timeout_cert now).

Definition metrics_construct_and_sign_order_vote (ovp : OrderVoteProposal) : M SafetyRules Error OrderVote :=
  retry (guarded_construct_and_sign_order_vote ovp).

Definition metrics_sign_commit_vote (ledger_info : LedgerInfoWithSignatures) (new_ledger_info : LedgerInfo)
    : M SafetyRules Error Signature :=
  retry (guarded_sign_commit_vote ledger_info new_ledger_info).

End metrics_safety_rules.

(** ** Messages *)

Section round_manager.
Context {GA : Gaptos} {VE : Verifier} {CR : Crypto} {SS : SecureStorage} {PI : PartialLedgerInfo}.
Context {AT : ApiTypes} {PT : PipelineTypes} {DT : DbTypes} {SD : SchemaDb} {RY : RecoveryTypes}.
Context {ST : StoreTypes} {SY : SyncTypes} {PO : ProposalTypes} {QT : QuorumStoreTypes}.

Inductive UnverifiedEvent :=
| UnverifiedProposalMsg (m : ProposalMsg)
| UnverifiedVoteMsg (m : VoteMsg)
| UnverifiedOrderVoteMsg (m : OrderVoteMsg)
| UnverifiedSyncInfoMsg (m : SyncInfo)
| UnverifiedBatchMsg (m : list Batch)
| UnverifiedSignedBatchInfo (m : list SignedBatchInfo)
| UnverifiedProofOfStoreMsg (m : list ProofOfStore).

(** [Shutdown] carries no data. *)
Inductive VerifiedEvent :=
| EventProposalMsg (m : ProposalMsg)
| EventVerifiedProposalMsg (b : Block)
| EventVoteMsg (m : VoteMsg)
| EventOrderVoteMsg (m : OrderVoteMsg)
| EventUnverifiedSyncInfo (m : SyncInfo)
| EventBatchMsg (m : list Batch)
| EventSignedBatchInfo (m : list SignedBatchInfo)
| EventProofOfStoreMsg (m : list ProofOfStore)
| EventLocalTimeout (round : Round)
| EventShutdown
| EventEpochChange (epoch : N).

(** [UnverifiedEvent::verify]; a message of the node itself is not checked. *)
Definition UnverifiedEvent_verify (e : UnverifiedEvent) (peer_id : Author) (validator : ValidatorVerifier)
    (quorum_store_enabled self_message : bool) (max_num_batches : nat) (max_batch_expiry_gap_usecs now : N)
    : M ProofCache Anyhow VerifiedEvent :=
  let unless_self (c : M ProofCache Anyhow unit) := if self_message then mret tt else c in
  match e with
  | UnverifiedProposalMsg p =>
      _ ← unless_self (ProposalMsg_verify p validator quorum_store_enabled now); mret (EventProposalMsg p)
  | UnverifiedVoteMsg v => _ ← unless_self (lift (VoteMsg_verify v validator)); mret (EventVoteMsg v)
  | UnverifiedOrderVoteMsg v =>
      _ ← unless_self (lift (verify_order_vote v validator)); mret (EventOrderVoteMsg v)
  | UnverifiedSyncInfoMsg s => mret (EventUnverifiedSyncInfo s)
  | UnverifiedBatchMsg b =>
      _ ← unless_self (lift (BatchMsg_verify b peer_id max_num_batches)); mret (EventBatchMsg b)
  | UnverifiedSignedBatchInfo sd =>
      _ ← unless_self (lift (SignedBatchInfoMsg_verify sd peer_id max_num_batches max_batch_expiry_gap_usecs
                               validator now));
      mret (EventSignedBatchInfo sd)
  | UnverifiedProofOfStoreMsg p =>
      _ ← unless_self (ProofOfStoreMsg_verify p max_num_batches validator); mret (EventProofOfStoreMsg p)
  end.

Definition UnverifiedEvent_epoch (e : UnverifiedEvent) : result Anyhow N :=
  match e with
  | UnverifiedProposalMsg p => Ok (Block_epoch (pm_proposal p))
  | UnverifiedVoteMsg v => Ok (Vote_epoch (vm_vote v))
  | UnverifiedOrderVoteMsg v => Ok (li_epoch (ov_ledger_info (ovm_order_vote v)))
  | UnverifiedSyncInfoMsg s => Ok (SyncInfo_epoch s)
  | UnverifiedBatchMsg b => BatchMsg_epoch b
  | UnverifiedSignedBatchInfo sd => SignedBatchInfoMsg_epoch sd
  | UnverifiedProofOfStoreMsg p => ProofOfStoreMsg_epoch p
  end.

(** ** The state *)

(** Configuration, by what the code reads of the local and the on-chain one;
    [rc_available_peers] are the peers of the network a node that does not validate
    syncs from, [rc_fast_randomness] tells whether there is a configuration of the fast
    path of randomness. *)
Record RoundConfig := {
  rc_order_vote_enabled : bool;
  rc_vtxn_config : ValidatorTxnConfig;
  rc_randomness_enabled : bool;
  rc_jwk_consensus_enabled : bool;
  rc_sync_only : bool;
  rc_broadcast_vote : bool;
  rc_max_receiving_block_txns : N;
  rc_max_receiving_block_bytes : N;
  rc_max_blocks_per_sending_request : N;
  rc_fast_randomness : bool;
  rc_author : Author;
  rc_available_peers : list AccountAddress;
}.

(** What is sent; [ResendProposal] is the task that puts a proposal back into the
    queue of the node once the back pressure is over. *)
Inductive RoundOutput :=
| BroadcastProposal (m : ProposalMsg)
| BroadcastVote (m : VoteMsg)
| SendVote (m : VoteMsg) (recipients : list Author)
| BroadcastTimeoutVote (m : VoteMsg)
| BroadcastOrderVote (m : OrderVoteMsg)
| BroadcastSyncInfo (si : SyncInfo)
| BroadcastFastShare (epoch : N) (round : Round)
| ResendProposal (author : Author) (b : Block).

Context {E : Type} (pe : ProposerElection E).
Context (retrieve_epoch_change_proof : N → result Anyhow EpochChangeProof).

Record ValidatorComponents := {
  vc_proposer_election : UnequivocalProposerElection E;
  vc_proposal_generator : ProposalGenerator;
  vc_safety_rules : SafetyRules;
}.

(** [rm_futures] are the proposals whose payload is awaited, [rm_proposals] the
    spawned tasks that make a proposal, [rm_answers] what peers will answer to block
    requests. *)
Record RoundManager := {
  rm_epoch_state : EpochState;
  rm_block_store : BlockStore;
  rm_round_state : RoundState;
  rm_config : RoundConfig;
  rm_pending_order_votes : gmap HashValue OrderVoteStatus;
  rm_blocks_with_broadcasted_fast_shares : list HashValue;
  rm_futures : list Block;
  rm_wait_change_epoch_flag : bool;
  rm_validator_components : option ValidatorComponents;
  rm_answers : list (list (AccountAddress * result Anyhow BlockRetrievalResponse));
  rm_proposals : list (NewRoundEvent * SyncInfo);
  rm_sent : list RoundOutput;
}.

Definition RoundManager_new (epoch_state : EpochState) (block_store : BlockStore) (round_state : RoundState)
    (config : RoundConfig) (validator_components : option ValidatorComponents)
    (answers : list (list (AccountAddress * result Anyhow BlockRetrievalResponse))) : RoundManager :=
  {| rm_epoch_state := epoch_state; rm_block_store := block_store; rm_round_state := round_state;
     rm_config := config; rm_pending_order_votes := PendingOrderVotes_new;
     rm_blocks_with_broadcasted_fast_shares := []; rm_futures := []; rm_wait_change_epoch_flag := false;
     rm_validator_components := validator_components; rm_answers := answers; rm_proposals := [];
     rm_sent := [] |}.

(** ** Parts of the state *)

Definition set_block_store (s : BlockStore) (m : RoundManager) : RoundManager :=
  {| rm_epoch_state := rm_epoch_state m; rm_block_store := s; rm_round_state := rm_round_state m;
     rm_config := rm_config m; rm_pending_order_votes := rm_pending_order_votes m;
     rm_blocks_with_broadcasted_fast_shares := rm_blocks_with_broadcasted_fast_shares m; rm_futures
     := rm_futures m; rm_wait_change_epoch_flag := rm_wait_change_epoch_flag m;
     rm_validator_components := rm_validator_components m; rm_answers := rm_answers m; rm_proposals
     := rm_proposals m; rm_sent := rm_sent m |}.

Definition set_sync (s : BlockStore)
    (answers : list (list (AccountAddress * result Anyhow BlockRetrievalResponse))) (m : RoundManager) : RoundManager :=
  {| rm_epoch_state := rm_epoch_state m; rm_block_store := s; rm_round_state := rm_round_state m;
     rm_config := rm_config m; rm_pending_order_votes := rm_pending_order_votes m;
     rm_blocks_with_broadcasted_fast_shares := rm_blocks_with_broadcasted_fast_shares m; rm_futures
     := rm_futures m; rm_wait_change_epoch_flag := rm_wait_change_epoch_flag m;
     rm_validator_components := rm_validator_components m; rm_answers := answers; rm_proposals :=
     rm_proposals m; rm_sent := rm_sent m |}.

Definition set_round_state (rs : RoundState) (m : RoundManager) : RoundManager :=
  {| rm_epoch_state := rm_epoch_state m; rm_block_store := rm_block_store m; rm_round_state := rs;
     rm_config := rm_config m; rm_pending_order_votes := rm_pending_order_votes m;
     rm_blocks_with_broadcasted_fast_shares := rm_blocks_with_broadcasted_fast_shares m; rm_futures
     := rm_futures m; rm_wait_change_epoch_flag := rm_wait_change_epoch_flag m;
     rm_validator_components := rm_validator_components m; rm_answers := rm_answers m; rm_proposals
     := rm_proposals m; rm_sent := rm_sent m |}.

Definition set_order_votes (v : gmap HashValue OrderVoteStatus) (m : RoundManager) : RoundManager :=
  {| rm_epoch_state := rm_epoch_state m; rm_block_store := rm_block_store m; rm_round_state :=
     rm_round_state m; rm_config := rm_config m; rm_pending_order_votes := v;
     rm_blocks_with_broadcasted_fast_shares := rm_blocks_with_broadcasted_fast_shares m; rm_futures
     := rm_futures m; rm_wait_change_epoch_flag := rm_wait_change_epoch_flag m;
     rm_validator_components := rm_validator_components m; rm_answers := rm_answers m; rm_proposals
     := rm_proposals m; rm_sent := rm_sent m |}.

Definition set_fast_shares (l : list HashValue) (m : RoundManager) : RoundManager :=
  {| rm_epoch_state := rm_epoch_state m; rm_block_store := rm_block_store m; rm_round_state :=
     rm_round_state m; rm_config := rm_config m; rm_pending_order_votes := rm_pending_order_votes m;
     rm_blocks_with_broadcasted_fast_shares := l; rm_futures := rm_futures m;
     rm_wait_change_epoch_flag := rm_wait_change_epoch_flag m; rm_validator_components :=
     rm_validator_components m; rm_answers := rm_answers m; rm_proposals := rm_proposals m; rm_sent
     := rm_sent m |}.

Definition set_waiting (futures : list Block) (proposals : list (NewRoundEvent * SyncInfo)) (m : RoundManager) : RoundManager :=
  {| rm_epoch_state := rm_epoch_state m; rm_block_store := rm_block_store m; rm_round_state :=
     rm_round_state m; rm_config := rm_config m; rm_pending_order_votes := rm_pending_order_votes m;
     rm_blocks_with_broadcasted_fast_shares := rm_blocks_with_broadcasted_fast_shares m; rm_futures
     := futures; rm_wait_change_epoch_flag := rm_wait_change_epoch_flag m; rm_validator_components
     := rm_validator_components m; rm_answers := rm_answers m; rm_proposals := proposals; rm_sent :=
     rm_sent m |}.

Definition set_epoch_flag (b : bool) (m : RoundManager) : RoundManager :=
  {| rm_epoch_state := rm_epoch_state m; rm_block_store := rm_block_store m; rm_round_state :=
     rm_round_state m; rm_config := rm_config m; rm_pending_order_votes := rm_pending_order_votes m;
     rm_blocks_with_broadcasted_fast_shares := rm_blocks_with_broadcasted_fast_shares m; rm_futures
     := rm_futures m; rm_wait_change_epoch_flag := b; rm_validator_components :=
     rm_validator_components m; rm_answers := rm_answers m; rm_proposals := rm_proposals m; rm_sent
     := rm_sent m |}.

Definition set_components (v : ValidatorComponents) (m : RoundManager) : RoundManager :=
  {| rm_epoch_state := rm_epoch_state m; rm_block_store := rm_block_store m; rm_round_state :=
     rm_round_state m; rm_config := rm_config m; rm_pending_order_votes := rm_pending_order_votes m;
     rm_blocks_with_broadcasted_fast_shares := rm_blocks_with_broadcasted_fast_shares m; rm_futures
     := rm_futures m; rm_wait_change_epoch_flag := rm_wait_change_epoch_flag m;
     rm_validator_components := Some v; rm_answers := rm_answers m; rm_proposals := rm_proposals m;
     rm_sent := rm_sent m |}.

Definition set_sent (l : list RoundOutput) (m : RoundManager) : RoundManager :=
  {| rm_epoch_state := rm_epoch_state m; rm_block_store := rm_block_store m; rm_round_state :=
     rm_round_state m; rm_config := rm_config m; rm_pending_order_votes := rm_pending_order_votes m;
     rm_blocks_with_broadcasted_fast_shares := rm_blocks_with_broadcasted_fast_shares m; rm_futures
     := rm_futures m; rm_wait_change_epoch_flag := rm_wait_change_epoch_flag m;
     rm_validator_components := rm_validator_components m; rm_answers := rm_answers m; rm_proposals
     := rm_proposals m; rm_sent := l |}.

Abbreviation R := (M RoundManager Anyhow).

Definition send (o : RoundOutput) : R unit := modify (λ m, set_sent (rm_sent m ++ [o]) m).

(** A step of the block store, of the round state, of the pending order votes. *)
Definition on_store {A} (c : M BlockStore Anyhow A) : R A := λ m,
  let '(r, s) := c (rm_block_store m) in (r, set_block_store s m).

Definition on_rounds {A} (c : M RoundState Anyhow A) : R A := λ m,
  let '(r, s) := c (rm_round_state m) in (r, set_round_state s m).

Definition on_order_votes {A} (c : M (gmap HashValue OrderVoteStatus) Anyhow A) : R A := λ m,
  let '(r, s) := c (rm_pending_order_votes m) in (r, set_order_votes s m).

(** [self.validator_components.as_ref().unwrap()]. *)
Definition components (m : RoundManager) : result Anyhow ValidatorComponents :=
  expect "called `Option::unwrap()` on a `None` value" (rm_validator_components m).

(** A step of the components of a validator. *)
Definition on_election {A} (c : M (UnequivocalProposerElection E) Anyhow A) : R A :=
  vc ← gets components;
  let '(r, e) := c (vc_proposer_election vc) in
  _ ← modify (set_components {| vc_proposer_election := e; vc_proposal_generator := vc_proposal_generator vc;
                                vc_safety_rules := vc_safety_rules vc |});
  lift r.

Definition on_generator {A} (c : M (ProposalGenerator * UnequivocalProposerElection E) Anyhow A) : R A :=
  vc ← gets components;
  let '(r, (g, e)) := c (vc_proposal_generator vc, vc_proposer_election vc) in
  _ ← modify (set_components {| vc_proposer_election := e; vc_proposal_generator := g;
                                vc_safety_rules := vc_safety_rules vc |});
  lift r.

(** The error of the safety rules is displayed behind [text]. *)
Definition on_safety {A} (text : string) (c : M SafetyRules Error A) : R A :=
  vc ← gets components;
  let '(r, s) := c (vc_safety_rules vc) in
  _ ← modify (set_components {| vc_proposer_election := vc_proposer_election vc;
                                vc_proposal_generator := vc_proposal_generator vc; vc_safety_rules := s |});
  lift (with_context text r).

(** [context(text)], and a result that is kept for later. *)
Definition in_context_of {A} (text : string) (c : R A) : R A := λ m,
  let '(r, m) := c m in (with_context text r, m).

Definition attempt {A} (c : R A) : R (result Anyhow A) := λ m,
  match c m with
  | (Panic msg, m) => (Panic msg, m)
  | (r, m) => (Ok r, m)
  end.

Definition is_validator (m : RoundManager) : bool := bool_decide (is_Some (rm_validator_components m)).

(** [create_block_retriever]; the time is that of the checks of answers. *)
Definition create_block_retriever (author : Author) (now : N) (m : RoundManager) : BlockRetriever :=
  {| ret_author := rc_author (rm_config m);
     ret_validators := es_verifier (rm_epoch_state m);
     ret_preferred_peer := author;
     ret_available_peers :=
       if is_validator m
       then filter (λ a, a ≠ author) (vv_ordered_addresses (es_verifier (rm_epoch_state m)))
       else rc_available_peers (rm_config m);
     ret_max_blocks_to_request := rc_max_blocks_per_sending_request (rm_config m);
     ret_now := now / 1000;
     ret_answers := rm_answers m |}.

(** A step of the sync manager with a new retriever. *)
Definition on_sync {A} (author : Author) (now : N) (c : M (BlockStore * BlockRetriever) Anyhow A) : R A := λ m,
  let '(r, (s, ret)) := c (rm_block_store m, create_block_retriever author now m) in
  (r, set_sync s (ret_answers ret) m).

Definition sync_info_of (m : RoundManager) : SyncInfo := store_sync_info (rm_block_store m).

(** ** Rounds *)

Definition process_new_round_event (new_round_event : NewRoundEvent) : R unit :=
  _ ← modify (λ m, set_order_votes
        (garbage_collect (highest_ordered_round (sync_info_of m)) (rm_pending_order_votes m)) m);
  vc ← gets components;
  leads ← on_election (is_valid_proposer (unequivocal_election pe) (pg_author (vc_proposal_generator vc))
                         (nre_round new_round_event));
  if leads : bool
  then modify (λ m, set_waiting (rm_futures m) (rm_proposals m ++ [(new_round_event, sync_info_of m)]) m)
  else mret tt.

Definition rm_process_certificates (now : N) : R unit :=
  sync_info ← gets (λ m, Ok (sync_info_of m));
  event ← on_rounds (process_certificates now sync_info);
  validator ← gets (λ m, Ok (is_validator m));
  match event with
  | Some new_round_event => if validator : bool then process_new_round_event new_round_event else mret tt
  | None => mret tt
  end.

(** The spawned task [generate_and_send_proposal]; collected votes are only logged.  The
    callback the code passes to [generate_proposal], a [broadcast_sync_info], is awaited
    by [QuorumStoreClient::pull] only before it asks a second time, which it never does
    ([user_pull]). *)
Definition generate_proposal_msg (inputs : ProposalInputs) (new_round_event : NewRoundEvent)
    (sync_info : SyncInfo) : R ProposalMsg :=
  store ← gets (λ m, Ok (rm_block_store m));
  proposal ← on_generator (generate_proposal (unequivocal_election pe) inputs store (nre_round new_round_event));
  signature ← on_safety "sign_proposal" (metrics_sign_proposal retrieve_epoch_change_proof proposal);
  mret {| pm_proposal := new_proposal_from_block_data_and_signature proposal signature;
          pm_sync_info := sync_info |}.

Definition generate_and_send_proposal (inputs : ProposalInputs) (new_round_event : NewRoundEvent)
    (sync_info : SyncInfo) : R unit :=
  proposal_msg ← generate_proposal_msg inputs new_round_event sync_info;
  send (BroadcastProposal proposal_msg).

(** ** Synchronization *)

Definition sync_up (now : N) (sync_info : SyncInfo) (author : Author) : R unit :=
  local_sync_info ← gets (λ m, Ok (sync_info_of m));
  if has_newer_certificates sync_info local_sync_info then
    _ ← gets (λ m, SyncInfo_verify sync_info (es_verifier (rm_epoch_state m)));
    result ← attempt (on_sync author now (add_certs sync_info));
    _ ← rm_process_certificates now;
    lift result
  else mret tt.

Definition ensure_round_and_sync_up (now : N) (message_round : Round) (sync_info : SyncInfo)
    (author : Author) : R bool :=
  current ← gets (λ m, Ok (rs_current_round (rm_round_state m)));
  if message_round <? current then mret false
  else
    _ ← sync_up now sync_info author;
    current ← gets (λ m, Ok (rs_current_round (rm_round_state m)));
    _ ← lift (ensure (message_round =? current) (Msg "After sync, round doesn't match local"));
    mret true.

Definition process_sync_info_msg (now : N) (sync_info : SyncInfo) (peer : Author) : R unit :=
  round ← lift (ok_or (Msg "Checked operation failed") (checked_add (highest_round sync_info) 1));
  _ ← in_context_of "[RoundManager] Failed to process sync info msg"
        (ensure_round_and_sync_up now round sync_info peer);
  mret tt.

Definition sync_only (m : RoundManager) : result Anyhow bool :=
  back_pressure ← vote_back_pressure (rm_block_store m);
  Ok (rc_sync_only (rm_config m) || back_pressure).

(** ** Voting *)

(** [PipelinedBlock::vote_proposal] and [order_vote_proposal]. *)
Definition plb_vote_proposal (p : PipelinedBlock) : VoteProposal :=
  {| vp_block := plb_block p; vp_next_epoch_state := scr_epoch_state (plb_state_compute_result p);
     vp_decoupled_execution := true |}.

Definition plb_order_vote_proposal (p : PipelinedBlock) (quorum_cert : QuorumCert) : OrderVoteProposal :=
  {| ovp_block := plb_block p; ovp_block_info := plb_block_info p; ovp_quorum_cert := quorum_cert |}.

(** The pipelined block of a block of the store. *)
Definition stored (b : Block) (m : RoundManager) : PipelinedBlock := pipelined (rm_block_store m) b.

Definition highest_timeout (m : RoundManager) : option TwoChainTimeoutCertificate :=
  bt_highest_2chain_timeout_cert (bs_inner (rm_block_store m)).

Definition vote_block (now : N) (proposed_block : Block) : R Vote :=
  block ← in_context_of "[RoundManager] Failed to execute_and_insert the block"
            (on_store (store_insert_block proposed_block false));
  vote_sent ← gets (λ m, Ok (rs_vote_sent (rm_round_state m)));
  _ ← lift (ensure (bool_decide (vote_sent = None)) (Msg "[RoundManager] Already vote on this round"));
  only ← gets sync_only;
  _ ← lift (ensure (negb only) (Msg "[RoundManager] sync_only flag is set, stop voting"));
  vote_proposal ← gets (λ m, Ok (plb_vote_proposal (stored block m)));
  timeout_cert ← gets (λ m, Ok (highest_timeout m));
  vote ← on_safety "[RoundManager] SafetyRules Rejected"
           (metrics_construct_and_sign_vote_two_chain retrieve_epoch_change_proof vote_proposal timeout_cert
              (now / 1000));
  _ ← in_context_of "[RoundManager] Fail to persist last vote"
        (on_store (on_storage (storage_save_vote vote)));
  mret vote.

(** [LruCache::put] in a cache of five entries, the most recent first. *)
Definition lru_put (id : HashValue) (l : list HashValue) : list HashValue :=
  take 5 (id :: filter (λ x, x ≠ id) l).

Definition broadcast_fast_shares (info : BlockInfo) : R unit :=
  fast ← gets (λ m, Ok (rc_fast_randomness (rm_config m)));
  done ← gets (λ m, Ok (bool_decide (bi_id info ∈ rm_blocks_with_broadcasted_fast_shares m)));
  if fast && bool_decide (info ≠ BlockInfo_empty) && negb done then
    _ ← send (BroadcastFastShare (bi_epoch info) (bi_round info));
    modify (λ m, set_fast_shares (lru_put (bi_id info) (rm_blocks_with_broadcasted_fast_shares m)) m)
  else mret tt.

Definition process_verified_proposal (now : N) (proposal : Block) : R unit :=
  vote ← in_context_of "[RoundManager] Process proposal" (vote_block now proposal);
  _ ← modify (λ m, set_round_state (record_vote vote (rm_round_state m)) m);
  vote_msg ← gets (λ m, Ok {| vm_vote := vote; vm_sync_info := sync_info_of m |});
  _ ← broadcast_fast_shares (li_commit_info (vote_ledger_info vote));
  broadcast ← gets (λ m, Ok (rc_broadcast_vote (rm_config m)));
  if broadcast : bool then send (BroadcastVote vote_msg)
  else
    next ← lift (add_u64 (Block_round proposal) 1);
    recipient ← on_election (get_valid_proposer (unequivocal_election pe) next);
    send (SendVote vote_msg [recipient]).

Definition process_delayed_proposal_msg (now : N) (proposal : Block) : R unit :=
  current ← gets (λ m, Ok (rs_current_round (rm_round_state m)));
  if bool_decide (Block_round proposal ≠ current)
  then lift (Err (Msg "Discarding stale delayed proposal"))
  else process_verified_proposal now proposal.

Definition check_backpressure_and_process_proposal (now : N) (proposal : Block) : R unit :=
  author ← lift (expect "Proposal should be verified having an author" (Block_author proposal));
  back_pressure ← gets (λ m, vote_back_pressure (rm_block_store m));
  if back_pressure : bool then
    _ ← in_context_of "[RoundManager] Failed to execute_and_insert the block"
          (on_store (store_insert_block proposal false));
    send (ResendProposal author proposal)
  else process_verified_proposal now proposal.

(** ** Proposals *)

(** [is_vtxn_expected] of util/mod.rs. *)
Definition is_vtxn_expected (c : RoundConfig) (vtxn : ValidatorTransaction) : bool :=
  match validator_transaction vtxn with
  | inl _ => rc_randomness_enabled c
  | inr _ => rc_jwk_consensus_enabled c
  end.

Definition is_proposal_ext (b : Block) : bool :=
  match bd_block_type (block_block_data b) with ProposalExtBlock _ => true | _ => false end.

(** The limits a proposal has to keep, in the order they are checked. *)
Definition check_proposal_limits (c : RoundConfig) (proposal : Block) : result Anyhow unit :=
  let vtxns := BlockData_validator_txns (block_block_data proposal) in
  _ ← ensure (vtc_enabled (rc_vtxn_config c) || negb (is_proposal_ext proposal))
        (Msg "ProposalExt unexpected while the feature is disabled.");
  _ ← ensure (forallb (is_vtxn_expected c) (default [] vtxns)) (Msg "unexpected validator txn");
  let num_validator_txns := N.of_nat (length (default [] vtxns)) in
  validator_txns_total_bytes ← sum_u64 (vtxn_size_in_bytes <$> default [] vtxns);
  _ ← ensure (num_validator_txns <=? vtc_per_block_limit_txn_count (rc_vtxn_config c))
        (Msg "process_proposal failed with per-block vtxn count limit exceeded");
  _ ← ensure (validator_txns_total_bytes <=? vtc_per_block_limit_total_bytes (rc_vtxn_config c))
        (Msg "process_proposal failed with per-block vtxn bytes limit exceeded");
  payload_len ← from_option Payload_len (Ok 0) (Block_payload proposal);
  payload_size ← from_option Payload_size (Ok 0) (Block_payload proposal);
  len ← add_u64 num_validator_txns payload_len;
  _ ← ensure (len <=? rc_max_receiving_block_txns c) (Msg "Payload len exceeds the limit");
  bytes ← add_u64 validator_txns_total_bytes payload_size;
  ensure (bytes <=? rc_max_receiving_block_bytes c) (Msg "Payload size exceeds the limit").

(** [available] is the answer of the payload manager. *)
Definition process_proposal (now : N) (available : Block → bool) (proposal : Block) : R unit :=
  _ ← lift (expect "Proposal should be verified having an author" (Block_author proposal));
  _ ← gets (λ m, check_proposal_limits (rm_config m) proposal);
  vc ← gets components;
  valid ← on_election (is_valid_proposal pe proposal);
  _ ← lift (ensure valid (Msg "[RoundManager] Proposer is not a valid proposer for this round or created duplicate proposal"));
  expected_failed_authors ← on_election
    (compute_failed_authors (unequivocal_election pe) (pg_max_failed_authors_to_store (vc_proposal_generator vc))
       (Block_round proposal) (bi_round (certified_block (Block_quorum_cert proposal))) false);
  _ ← lift (ensure (bool_decide (BlockData_failed_authors (block_block_data proposal) = Some expected_failed_authors))
              (Msg "[RoundManager] Proposal for block has invalid failed_authors list"));
  deadline ← gets (λ m, Ok (rs_current_round_deadline (rm_round_state m)));
  _ ← lift (ensure (Block_timestamp_usecs proposal * 1000 <? deadline)
              (Msg "[RoundManager] Waiting until proposal block timestamp usecs would exceed the round duration"));
  if negb (available proposal)
  then modify (λ m, set_waiting (rm_futures m ++ [proposal]) (rm_proposals m) m)
  else check_backpressure_and_process_proposal now proposal.

Definition process_proposal_msg (now : N) (available : Block → bool) (proposal_msg : ProposalMsg) : R unit :=
  let proposal := pm_proposal proposal_msg in
  proposer ← lift (expect "Proposal should be verified having an author" (Block_author proposal));
  in_round ← in_context_of "[RoundManager] Process proposal"
               (ensure_round_and_sync_up now (Block_round proposal) (pm_sync_info proposal_msg) proposer);
  _ ← lift (ensure in_round (Msg "Stale proposal"));
  process_proposal now available proposal.

(** ** Timeouts *)

(** The vote that is sent with a timeout: the one of this round, or one for a nil
    block. *)
Definition vote_for_timeout (now : N) (round : Round) : R Vote :=
  vote_sent ← gets (λ m, Ok (rs_vote_sent (rm_round_state m)));
  let nil_vote : R Vote :=
    vc ← gets components;
    store ← gets (λ m, Ok (rm_block_store m));
    nil_block ← on_election (generate_nil_block (unequivocal_election pe) (vc_proposal_generator vc) store round);
    vote_block now nil_block in
  match vote_sent with
  | Some vote => if Vote_round vote =? round then mret vote else nil_vote
  | None => nil_vote
  end.

Definition add_timeout (vote : Vote) : R Vote :=
  if is_timeout vote then mret vote
  else
    timeout ← gets (λ m, Ok (generate_2chain_timeout vote (bt_highest_quorum_cert (bs_inner (rm_block_store m)))));
    timeout_cert ← gets (λ m, Ok (highest_timeout m));
    signature ← on_safety "[RoundManager] SafetyRules signs 2-chain timeout"
                  (metrics_sign_timeout_with_qc retrieve_epoch_change_proof timeout timeout_cert);
    mret (add_2chain_timeout vote timeout signature).

Definition rm_process_local_timeout (now : N) (round : Round) : R unit :=
  current ← on_rounds (process_local_timeout now round);
  if negb current then mret tt
  else
    only ← gets sync_only;
    if only : bool then
      sync_info ← gets (λ m, Ok (sync_info_of m));
      _ ← send (BroadcastSyncInfo sync_info);
      lift (Err (Msg "[RoundManager] sync_only flag is set, broadcasting SyncInfo"))
    else
      vote ← vote_for_timeout now round;
      _ ← gets components;
      timeout_vote ← add_timeout vote;
      _ ← modify (λ m, set_round_state (record_vote timeout_vote (rm_round_state m)) m);
      timeout_vote_msg ← gets (λ m, Ok {| vm_vote := timeout_vote; vm_sync_info := sync_info_of m |});
      _ ← send (BroadcastTimeoutVote timeout_vote_msg);
      _ ← on_election (get_valid_proposer (unequivocal_election pe) round);
      lift (Err (Msg "Round timeout, broadcast to all peers")).

(** ** Certificates *)

Definition new_qc_aggregated (now : N) (qc : QuorumCert) (preferred_peer : Author) : R unit :=
  result ← attempt (in_context_of "[RoundManager] Failed to process a newly aggregated QC"
                      (on_sync preferred_peer now (sync_insert_quorum_cert qc)));
  _ ← rm_process_certificates now;
  lift result.

Definition new_qc_from_order_vote_msg (now : N) (m : OrderVoteMsg) : R unit :=
  need ← gets (λ s, need_fetch_for_quorum_cert (ovm_quorum_cert m) (rm_block_store s));
  match need with
  | QCAlreadyExist => mret tt
  | _ =>
      _ ← gets (λ s, with_context "[OrderVoteMsg QuorumCert verification failed"
                       (QuorumCert_verify (ovm_quorum_cert m) (es_verifier (rm_epoch_state s))));
      result ← attempt (in_context_of "[RoundManager] Failed to process the QC from order vote msg"
                          (on_sync (ov_author (ovm_order_vote m)) now
                             (sync_insert_quorum_cert (ovm_quorum_cert m))));
      _ ← rm_process_certificates now;
      lift result
  end.

Definition new_ordered_cert (now : N) (ordered_cert : WrappedLedgerInfo) : R unit :=
  result ← attempt (in_context_of "[RoundManager] Failed to process a new OrderCert formed by order votes"
                      (on_store (store_insert_ordered_cert ordered_cert)));
  _ ← rm_process_certificates now;
  lift result.

Definition new_2chain_tc_aggregated (now : N) (tc : TwoChainTimeoutCertificate) : R unit :=
  result ← attempt (in_context_of "[RoundManager] Failed to process a newly aggregated 2-chain TC"
                      (on_store (insert_2chain_timeout_certificate tc)));
  _ ← rm_process_certificates now;
  lift result.

(** ** Order votes *)

Definition broadcast_order_vote (vote : Vote) (qc : QuorumCert) : R unit :=
  block ← gets (λ m, Ok (get_block (bs_inner (rm_block_store m)) (bi_id (vd_proposed (vote_vote_data vote)))));
  match block with
  | Some proposed_block =>
      order_vote_proposal ← gets (λ m, Ok (plb_order_vote_proposal (stored proposed_block m) qc));
      order_vote ← on_safety "[RoundManager] SafetyRules Rejected for order vote"
                     (metrics_construct_and_sign_order_vote retrieve_epoch_change_proof order_vote_proposal);
      send (BroadcastOrderVote {| ovm_order_vote := order_vote; ovm_quorum_cert := qc |})
  | None => mret tt
  end.

Definition process_order_vote_reception_result (now : N) (result : OrderVoteReceptionResult) : R unit :=
  match result with
  | NewLedgerInfoWithSignatures li => new_ordered_cert now (WrappedLedgerInfo_new VoteData_dummy li)
  | OrderVoteAdded _ => mret tt
  | _ => lift (Err (Msg "OrderVoteReceptionResult"))
  end.

Definition process_order_vote_msg (now : N) (m : OrderVoteMsg) : R unit :=
  enabled ← gets (λ s, Ok (rc_order_vote_enabled (rm_config s)));
  if enabled : bool then
    let li := ov_ledger_info (ovm_order_vote m) in
    _ ← new_qc_from_order_vote_msg now m;
    enough ← gets (λ s, Ok (has_enough_order_votes li (rm_pending_order_votes s)));
    if enough : bool then mret tt
    else
      ordered_round ← gets (λ s, Ok (highest_ordered_round (sync_info_of s)));
      if ordered_round <? li_round li then
        verifier ← gets (λ s, Ok (es_verifier (rm_epoch_state s)));
        result ← on_order_votes (insert_order_vote (ovm_order_vote m) verifier);
        process_order_vote_reception_result now result
      else mret tt
  else mret tt.

(** ** Votes *)

Definition process_vote_reception_result (now : N) (vote : Vote) (result : VoteReceptionResult) : R unit :=
  match result with
  | NewQuorumCertificate qc =>
      _ ← in_context_of "[RoundManager] Unable to process the created QC"
            (new_qc_aggregated now qc (vote_author vote));
      enabled ← gets (λ m, Ok (rc_order_vote_enabled (rm_config m)));
      if enabled : bool then
        sent ← attempt (broadcast_order_vote vote qc);
        if is_ok sent then broadcast_fast_shares (certified_block qc) else mret tt
      else mret tt
  | New2ChainTimeoutCertificate tc => new_2chain_tc_aggregated now tc
  | EchoTimeout _ =>
      timed_out ← gets (λ m, Ok (is_vote_timeout (rm_round_state m)));
      if timed_out : bool then mret tt else rm_process_local_timeout now (Vote_round vote)
  | VoteAdded _ | VoteAddedQCDelayed _ | DuplicateVote => mret tt
  | _ => lift (Err (Msg "VoteReceptionResult"))
  end.

Definition process_vote (now : N) (vote : Vote) : R unit :=
  broadcast ← gets (λ m, Ok (rc_broadcast_vote (rm_config m)));
  _ ← (if negb broadcast && negb (is_timeout vote) then
         next_round ← lift (add_u64 (Vote_round vote) 1);
         vc ← gets components;
         leads ← on_election (is_valid_proposer (unequivocal_election pe)
                                (pg_author (vc_proposal_generator vc)) next_round);
         lift (ensure leads (Msg "[RoundManager] Received vote, but I am not a valid proposer, ignore."))
       else mret tt);
  certified ← gets (λ m, Ok (get_quorum_cert_for_block (rm_block_store m)
                               (bi_id (vd_proposed (vote_vote_data vote)))));
  if bool_decide (is_Some certified) then mret tt
  else
    verifier ← gets (λ m, Ok (es_verifier (rm_epoch_state m)));
    result ← on_rounds (RoundState_insert_vote vote verifier);
    process_vote_reception_result now vote result.

Definition process_vote_msg (now : N) (vote_msg : VoteMsg) : R unit :=
  let vote := vm_vote vote_msg in
  in_round ← in_context_of "[RoundManager] Stop processing vote"
               (ensure_round_and_sync_up now (Vote_round vote) (vm_sync_info vote_msg) (vote_author vote));
  if in_round : bool then in_context_of "[RoundManager] Add a new vote" (process_vote now vote) else mret tt.

Definition rm_process_delayed_qc_msg (now : N) (vote : Vote) : R unit :=
  current ← gets (λ m, Ok (rs_current_round (rm_round_state m)));
  _ ← lift (ensure (Vote_round vote =? current) (Msg "Discarding stale delayed QC"));
  result ← gets (λ m, process_delayed_qc_msg (es_verifier (rm_epoch_state m)) vote (rm_round_state m));
  process_vote_reception_result now vote result.

(** ** The event loop *)

(** [init]: the error of [process_new_round_event] is logged. *)
Definition rm_init (now : N) (last_vote_sent : option Vote) : R unit :=
  sync_info ← gets (λ m, Ok (sync_info_of m));
  event ← on_rounds (process_certificates now sync_info);
  validator ← gets (λ m, Ok (is_validator m));
  if negb validator then mret tt
  else
    new_round_event ← lift (expect "Can not jump start a round_state from existing certificates." event);
    vc ← gets components;
    _ ← match last_vote_sent with
        | Some vote =>
            if bool_decide (vote_author vote ≠ pg_author (vc_proposal_generator vc)) then mret tt
            else modify (λ m, set_round_state (record_vote vote (rm_round_state m)) m)
        | None => mret tt
        end;
    _ ← attempt (process_new_round_event new_round_event);
    mret tt.

(** What the loop of [start] selects, in the order of the branches, and the two tasks
    beside it: the [i]th spawned one that makes a proposal, and the commit callback of
    the pipeline.  [PayloadReady i] is the end of the [i]th wait for a payload. *)
Inductive RoundEvent :=
| DelayedQc (vote : Vote)
| BufferedProposals (events : list VerifiedEvent)
| PayloadReady (i : nat) (result : result Anyhow unit)
| PeerEvent (peer_id : Author) (event : VerifiedEvent)
| ProposalTask (i : nat) (inputs : ProposalInputs)
| CommitCallback (blocks : list Block) (finality_proof : WrappedLedgerInfo)
    (commit_decision : LedgerInfoWithSignatures).

(** [get_round] of the buffered proposals. *)
Definition event_round (e : VerifiedEvent) : result Anyhow Round :=
  match e with
  | EventProposalMsg p => Ok (Block_round (pm_proposal p))
  | EventVerifiedProposalMsg b => Ok (Block_round b)
  | _ => Panic "internal error: entered unreachable code: Unexpected event"
  end.

(** [sort_by_key] of the round, which is stable. *)
Fixpoint insert_by_round (x : Round * VerifiedEvent) (l : list (Round * VerifiedEvent))
    : list (Round * VerifiedEvent) :=
  match l with
  | [] => [x]
  | y :: l' => if x.1 <=? y.1 then x :: l else y :: insert_by_round x l'
  end.

Definition sort_by_round (l : list (Round * VerifiedEvent)) : list (Round * VerifiedEvent) :=
  foldr insert_by_round [] l.

(** Which of the buffered proposals are processed, in which order. *)
Definition select_proposals (current_round : Round) (events : list VerifiedEvent)
    : result Anyhow (list VerifiedEvent) :=
  rounds ← collect_results (event_round <$> events);
  let sorted := sort_by_round (zip rounds events) in
  next ← add_u64 current_round 1;
  match sorted with
  | [] => Panic "index out of bounds"
  | (first, _) :: _ =>
      if next <? first then Ok (option_list (snd <$> last sorted)) else Ok sorted.*2
  end.

(** The error of a handler is logged. *)
Definition logged (c : R unit) : R unit := _ ← attempt c; mret tt.

Definition process_buffered (now : N) (available : Block → bool) (e : VerifiedEvent) : R unit :=
  match e with
  | EventProposalMsg p => logged (process_proposal_msg now available p)
  | EventVerifiedProposalMsg b => logged (process_delayed_proposal_msg now b)
  | _ => lift (Panic "internal error: entered unreachable code: Unexpected event")
  end.

Definition process_epoch_change (now : N) (peer_id : Author) (epoch : N) : R unit :=
  waiting ← gets (λ m, Ok (rm_wait_change_epoch_flag m));
  if waiting : bool then mret tt
  else
    _ ← on_sync peer_id now (fast_forward_sync_by_epoch epoch);
    modify (set_epoch_flag true).

Definition process_peer_event (now : N) (peer_id : Author) (e : VerifiedEvent) : R unit :=
  match e with
  | EventVoteMsg vote_msg => logged (process_vote_msg now vote_msg)
  | EventOrderVoteMsg order_vote_msg => logged (process_order_vote_msg now order_vote_msg)
  | EventUnverifiedSyncInfo sync_info => logged (process_sync_info_msg now sync_info peer_id)
  | EventLocalTimeout round => logged (rm_process_local_timeout now round)
  | EventEpochChange epoch => logged (process_epoch_change now peer_id epoch)
  | _ => lift (Panic "internal error: entered unreachable code: Unexpected event")
  end.

Definition round_manager_step (now : N) (available : Block → bool) (e : RoundEvent) : R unit :=
  match e with
  | DelayedQc vote => logged (rm_process_delayed_qc_msg now vote)
  | BufferedProposals events =>
      selected ← gets (λ m, select_proposals (rs_current_round (rm_round_state m)) events);
      try_for_each (process_buffered now available) selected
  | PayloadReady i result =>
      block ← gets (λ m, Ok (rm_futures m !! i));
      _ ← modify (λ m, set_waiting (delete i (rm_futures m)) (rm_proposals m) m);
      match block, result with
      | Some block, Ok _ => logged (check_backpressure_and_process_proposal now block)
      | Some _, Panic msg => lift (Panic msg)
      | _, _ => mret tt
      end
  | PeerEvent peer_id event => process_peer_event now peer_id event
  | ProposalTask i inputs =>
      task ← gets (λ m, Ok (rm_proposals m !! i));
      _ ← modify (λ m, set_waiting (rm_futures m) (delete i (rm_proposals m)) m);
      match task with
      | Some (new_round_event, sync_info) => logged (generate_and_send_proposal inputs new_round_event sync_info)
      | None => mret tt
      end
  | CommitCallback blocks finality_proof commit_decision =>
      on_store (on_commit blocks finality_proof commit_decision)
  end.

(** [start] after [init]: the events with the clock and the payload manager at them; a
    panic ends the loop. *)
Definition rm_start (now : N) (last_vote_sent : option Vote) (events : list (N * (Block → bool) * RoundEvent)) : R unit :=
  _ ← rm_init now last_vote_sent;
  try_for_each (λ '(now, available, e), round_manager_step now available e) events.

End round_manager.
