(* ===== verification/RoundSpec.v ===== *)
(** * What the round manager may send

    Every handler of [RoundManager] is a sequence of actions: calls of the safety
    rules, moves of the round, recording a vote, sending.  An action that sends states
    what has to be signed before, so that the theorems about a validator follow from
    the actions by induction and from the abstract rules of [SafetySpec]. *)

From S2P Require Import Prelude Gaptos Types Bytes Floats Certificates Payloads Blocks SafetyRules SafetySpec Bft PendingVotes.
From S2P Require Import BlockTree RoundState BlockBufferManager BufferItem ConsensusDb BatchStore ProofQueue ProofManager ProofCoordinator.
From S2P Require Import Recovery BlockStore StoreSpec SyncManager Election ProposalGenerator RoundManager.

(** ** Calls of the safety rules *)

Section calls.
Context {GA : Gaptos} {VE : Verifier} {CR : Crypto} {SS : SecureStorage}.
Implicit Types (s : SafetyRules) (calls : list Call).

Lemma exec_all_app calls1 calls2 s :
  exec_all (calls1 ++ calls2) s =
    ((exec_all calls1 s).1 ++ (exec_all calls2 (exec_all calls1 s).2).1,
     (exec_all calls2 (exec_all calls1 s).2).2).
Proof.
  revert s. induction calls1 as [|c calls1 IH]; intros s; simpl; [by destruct (exec_all _ _)|].
  destruct (exec c s) as [r s1]. rewrite IH. by destruct (exec_all calls1 s1).
Qed.

(** A computation that changes the state by calls only. *)
Definition by_calls {A} (c : M SafetyRules Error A) : Prop :=
  ∀ s, ∃ calls, (exec_all calls s).2 = (c s).2.

Lemma by_calls_bind {A B} (c : M SafetyRules Error A) (k : A → M SafetyRules Error B) :
  by_calls c → (∀ a, by_calls (k a)) → by_calls (c ≫= k).
Proof.
  intros Hc Hk s. destruct (Hc s) as [l1 H1]. unfold mbind, M_bind. destruct (c s) as [[a|e|msg] s1]; simpl in *.
  - destruct (Hk a s1) as [l2 H2]. exists (l1 ++ l2). rewrite exec_all_app. simpl. by rewrite H1.
  - by exists l1.
  - by exists l1.
Qed.

Lemma by_calls_pure {A} (r : result Error A) : by_calls (lift r).
Proof. intros s. by exists []. Qed.

(** A call of the interface, by the handler behind it. *)
Definition call_of {A} (call : Call) (wrap : A → Signed) (f : M SafetyRules Error A) : Prop :=
  ∀ s, exec call s = (a ← f; mret (wrap a)) s.

Lemma call_of_exec {A} call (wrap : A → Signed) f s :
  call_of call wrap f → (exec_all [call] s).2 = (f s).2 ∧
    ∀ a, (f s).1 = Ok a → wrap a ∈ (exec_all [call] s).1.*2.
Proof.
  intros Hc. pose proof (Hc s) as He. simpl. unfold mbind, M_bind in He.
  destruct (f s) as [[a|e|msg] s1]; rewrite He; simpl; [|done..].
  split; [done|]. intros a' [= <-]. by apply list_elem_of_singleton.
Qed.

Lemma by_calls_call {A} call (wrap : A → Signed) f : call_of call wrap f → by_calls f.
Proof. intros Hc s. exists [call]. by destruct (call_of_exec _ _ _ s Hc). Qed.

Lemma by_calls_loop {W A} n (body : W → M SafetyRules Error (W + A)) w :
  (∀ w, by_calls (body w)) → by_calls (loop_until n body w).
Proof.
  intros Hb. revert w. induction n as [n IH|n IH|]; intros w; simpl; [| |done].
  - apply by_calls_bind; [done|]. intros [w'|a]; [|apply (by_calls_pure (Ok (inr a)))].
    apply by_calls_bind; [done|]. intros [w2|a]; [done|]. apply (by_calls_pure (Ok (inr a))).
  - apply by_calls_bind; [done|]. intros [w'|a]; [done|]. apply (by_calls_pure (Ok (inr a))).
Qed.

Section initialize.
Context (proofs : N → result Anyhow EpochChangeProof).

Lemma by_calls_initialize : by_calls (perform_initialize proofs).
Proof.
  unfold perform_initialize. apply by_calls_bind.
  { by apply (by_calls_call ConsensusState_call (λ _, SignedNothing)). }
  intros st. apply by_calls_bind; [|intros [v|u]; apply (by_calls_pure _)].
  apply by_calls_loop. intros v s. unfold initialize_from.
  destruct (map_err _ (proofs v)) as [p|e|msg]; [|by exists []..].
  exists [Initialize p]. simpl. unfold mbind at 1, M_bind at 1.
  destruct (guarded_initialize p s) as [[u|[]|msg] s1]; simpl; try done. by destruct (_ <? _).
Qed.

(** A call that is repeated after an initialization. *)
Lemma retry_calls {A} call (wrap : A → Signed) f s : call_of call wrap f →
  ∃ calls, (exec_all calls s).2 = (retry proofs f s).2 ∧
    ∀ a, (retry proofs f s).1 = Ok a → wrap a ∈ (exec_all calls s).1.*2.
Proof.
  intros Hc. destruct (call_of_exec _ _ _ s Hc) as [H1 Hok].
  assert (Hagain : ∀ s1, (exec_all [call] s).2 = s1 → ∃ calls,
    (exec_all calls s).2 = ((_ ← perform_initialize proofs; f) s1).2 ∧
    ∀ a, ((_ ← perform_initialize proofs; f) s1).1 = Ok a → wrap a ∈ (exec_all calls s).1.*2).
  { intros s1 Hs1. destruct (by_calls_initialize s1) as [l2 H2]. unfold mbind, M_bind.
    destruct (perform_initialize proofs s1) as [[u|e|msg] s2]; cbn [fst snd] in *.
    - destruct (call_of_exec _ _ _ s2 Hc) as [H3 Hok3]. exists (([call] ++ l2) ++ [call]).
      rewrite exec_all_app, (exec_all_app [call] l2), Hs1. cbn [fst snd]. rewrite H2. split; [done|].
      intros a Ha. rewrite fmap_app. apply elem_of_app. right. by apply Hok3.
    - exists ([call] ++ l2). by rewrite exec_all_app, Hs1.
    - exists ([call] ++ l2). by rewrite exec_all_app, Hs1. }
  unfold retry. destruct (f s) as [[a|e|msg] s1]; simpl in H1, Hok; [by exists [call]| |by exists [call]].
  destruct e; first [by apply Hagain|by exists [call]].
Qed.

End initialize.
End calls.

(** ** Termination of the initialization *)

Section initialization.
Context {GA : Gaptos} {VE : Verifier} {CR : Crypto} {SS : SecureStorage} {SL : StorageLaws}.
Context (proofs : N → result Anyhow EpochChangeProof).
Implicit Types s : SafetyRules.

(** What makes the loop of [perform_initialize] go on. *)
Definition outdated (e : Error) : bool := match e with WaypointOutOfDate _ _ _ _ => true | _ => false end.

Definition never_outdated {A} (c : M SafetyRules Error A) : Prop :=
  ∀ s e, (c s).1 = Err e → outdated e = false.

Lemma never_outdated_bind {A B} (c : M SafetyRules Error A) (k : A → M SafetyRules Error B) :
  never_outdated c → (∀ a, never_outdated (k a)) → never_outdated (c ≫= k).
Proof.
  intros Hc Hk s e. specialize (Hc s). unfold mbind, M_bind. destruct (c s) as [[a|e'|msg] s1]; [apply Hk| |done].
  intros [= <-]. by apply Hc.
Qed.

Lemma from_storage_error_kind {A} (x : StorageError) e : (from_storage_error x : result Error A) = Err e → outdated e = false.
Proof. by destruct x; intros [= <-]. Qed.

Lemma never_outdated_get {A} (dec : Json → option A) k : never_outdated (in_storage (try_storage (store_get dec k))).
Proof.
  intros s e. unfold in_storage, try_storage, store_get. destruct (storage_get _ _) as [[j|x|msg] st]; simpl.
  - destruct (dec j); simpl; [done|by intros [= <-]].
  - apply from_storage_error_kind.
  - done.
Qed.

Lemma never_outdated_set_safety_data sd : never_outdated (in_storage (set_safety_data sd)).
Proof.
  intros s e. unfold in_storage, set_safety_data, store_set. destruct (storage_set _ _ _) as [[j|x|msg] st]; simpl; try done.
  by intros [= <-].
Qed.

Lemma never_outdated_set_waypoint w : never_outdated (in_storage (set_waypoint w)).
Proof.
  intros s e. unfold in_storage, set_waypoint, try_storage, store_set.
  destruct (storage_set _ _ _) as [[j|x|msg] st]; simpl; try done. apply from_storage_error_kind.
Qed.

Lemma never_outdated_reconcile account pk : never_outdated (clear_signer_on_error (reconcile_key account pk)).
Proof.
  intros s e. unfold clear_signer_on_error, reconcile_key. destruct pk as [pk|]; simpl; [|by intros [= <-]].
  case_bool_decide; [done|]. unfold in_storage, consensus_sk_by_pk, default_consensus_sk, store_get.
  destruct (storage_get (explicit_storage_key pk) _) as [r1 st1]. simpl.
  destruct (storage_get CONSENSUS_KEY _) as [r2 st2]. simpl.
  repeat (case_match; simplify_eq/=; try done); intros; by simplify_eq.
Qed.

(** The version of the waypoint in the store. *)
Definition waypoint_version s : N :=
  from_option wp_version 0 (storage_contents (store_of s) !! WAYPOINT ≫= waypoint_of_json).

Lemma waypoint_read s w s' :
  in_storage waypoint s = (Ok w, s') →
  storage_contents (store_of s') = storage_contents (store_of s) ∧ waypoint_version s = wp_version w.
Proof.
  unfold in_storage, waypoint, try_storage, store_get, waypoint_version.
  pose proof (storage_get_contents WAYPOINT (store_of s)) as Hc. pose proof (storage_get_Ok WAYPOINT (store_of s)) as Hget.
  unfold store_of in *. destruct (storage_get _ _) as [[j|x|msg] st]; simpl in *; [|by destruct x|done].
  destruct (waypoint_of_json j) as [w'|] eqn:Hw; [|done]. simpl. intros [= <- <-]. split; [done|].
  rewrite (Hget j eq_refl). simpl. by rewrite Hw.
Qed.

Context (waypoint_roundtrip : ∀ w, waypoint_of_json (json_of_waypoint w) = Some w).

Lemma waypoint_written s w u s' :
  in_storage (set_waypoint w) s = (Ok u, s') → waypoint_version s' = wp_version w.
Proof.
  unfold in_storage, set_waypoint, try_storage, store_set, waypoint_version.
  pose proof (storage_set_Ok WAYPOINT (json_of_waypoint w) (store_of s)) as Hset.
  unfold store_of in *. destruct (storage_set _ _ _) as [[j|x|msg] st]; simpl in *; [|by destruct x|done].
  intros [= _ <-]. simpl. rewrite (Hset j eq_refl), lookup_insert_eq. simpl. by rewrite waypoint_roundtrip.
Qed.

Lemma safety_data_read sd s r s' :
  SafetySpec.holds sd s → in_storage safety_data s = (r, s') →
  storage_contents (store_of s') = storage_contents (store_of s) ∧ ∀ e, r = Err e → outdated e = false.
Proof.
  intros [Hp Hc]. unfold in_storage, safety_data, try_storage, store_get, persisted in *.
  pose proof (storage_get_contents SAFETY_DATA (store_of s)) as Hget.
  pose proof (storage_get_Ok SAFETY_DATA (store_of s)) as Hok. unfold store_of in *.
  destruct (storage_get _ _) as [[j|x|msg] st]; simpl in *;
    destruct (pss_enable_cached_safety_data _); simpl in *; try destruct (pss_cached_safety_data _); simpl in *.
  all: try (rewrite (Hok j eq_refl) in Hp; simpl in Hp; pose proof (result_safety_data_disjoint _ _ Hp) as Hd).
  all: rewrite ?Hp, ?Hd; simpl; try (destruct x; simpl); intros [= <- <-]; simpl; (split; [done|]); by intros e [= <-].
Qed.

(** The error comes from behind a computation that does not give it. *)
Lemma bind_outdated {A B} (c : M SafetyRules Error A) (k : A → M SafetyRules Error B) s e s' :
  never_outdated c → outdated e = true → (c ≫= k) s = (Err e, s') →
  ∃ a s1, c s = (Ok a, s1) ∧ k a s1 = (Err e, s').
Proof.
  intros Hc He. specialize (Hc s). unfold mbind, M_bind. destruct (c s) as [[a|e'|msg] s1]; simpl in *; [eauto| |done].
  intros [= -> <-]. rewrite Hc in He by done. done.
Qed.

Lemma bind_lift_outdated {A B} (r : result Error A) (k : A → M SafetyRules Error B) s e s' :
  (∀ e', r = Err e' → outdated e' = false) → outdated e = true → (a ← lift r; k a) s = (Err e, s') →
  ∃ a, r = Ok a ∧ k a s = (Err e, s').
Proof.
  intros Hr He Hrun. destruct r as [a|e'|msg]; [by eexists| |done].
  unfold mbind, M_bind in Hrun. simpl in Hrun. simplify_eq. rewrite Hr in He by done. done.
Qed.

Lemma never_outdated_lift {A} (r : result Error A) : (∀ e, r = Err e → outdated e = false) → never_outdated (lift r).
Proof. intros Hr s e. apply Hr. Qed.

Lemma holds_quiet {A} (c : M PersistentSafetyStorage Error A) sd s :
  SafetySpec.quiet c → SafetySpec.holds sd s → SafetySpec.holds sd (in_storage c s).2.
Proof.
  intros Hc Hh. pose proof (wp_quiet c (λ _ s', SafetySpec.holds sd s') sd s Hc Hh) as Hq. unfold wp in Hq.
  destruct (in_storage c s). by apply Hq.
Qed.

(** What follows the check of the epoch in [guarded_initialize]. *)
Lemma never_outdated_tail es :
  let tail := _ ← modify (with_epoch_state (Some es)); account ← in_storage author;
              clear_signer_on_error (reconcile_key account (vv_get_public_key (es_verifier es) account)) in
  never_outdated tail ∧ ∀ sd, never_outdated (_ ← in_storage (set_safety_data sd); tail).
Proof.
  intros tail. assert (never_outdated tail) as Htail.
  { apply never_outdated_bind; [done|]. intros _.
    apply never_outdated_bind; [apply never_outdated_get|]. intros account. apply never_outdated_reconcile. }
  split; [done|]. intros sd. apply never_outdated_bind; [apply never_outdated_set_safety_data|done].
Qed.

(** A failure for a waypoint that is out of date moves the waypoint of the store. *)
Lemma initialize_outdated sd proof s prev curr current provided s' :
  SafetySpec.holds sd s → guarded_initialize proof s = (Err (WaypointOutOfDate prev curr current provided), s') →
  prev < curr → waypoint_version s = prev ∧ waypoint_version s' = curr.
Proof.
  intros Hh Hrun Hlt. unfold guarded_initialize in Hrun.
  apply bind_outdated in Hrun as (w & s1 & Hw & Hrun); [|apply never_outdated_get|done].
  pose proof (holds_quiet waypoint sd s (SafetySpec.quiet_get _ _) Hh) as Hh1. rewrite Hw in Hh1.
  apply waypoint_read in Hw as [_ Hv]. simpl in Hh1.
  apply bind_lift_outdated in Hrun as (last_li & _ & Hrun);
    [|intros e'; by destruct (ecp_verify proof w); intros [= <-]|done].
  apply bind_lift_outdated in Hrun as (es & _ & Hrun); [|intros e'; by destruct (li_next_epoch_state _); intros [= <-]|done].
  apply bind_lift_outdated in Hrun as (new & _ & Hrun);
    [|intros e'; by destruct (Waypoint_new_epoch_boundary _); intros [= <-]|done].
  apply bind_outdated in Hrun as (u & s2 & Hset & Hrun); [| |done].
  2: { destruct (_ <? _); [apply never_outdated_set_waypoint|done]. }
  assert (SafetySpec.holds sd s2) as Hh2.
  { destruct (_ <? _); [|by injection Hset as _ <-].
    pose proof (holds_quiet (set_waypoint new) sd s1 (SafetySpec.quiet_set_waypoint _) Hh1) as H. by rewrite Hset in H. }
  unfold mbind at 1, M_bind at 1 in Hrun.
  destruct (in_storage safety_data s2) as [[d|e|msg] s3] eqn:Hd; [| |done];
    apply (safety_data_read sd) in Hd as [Hc Hno]; try done.
  2: { injection Hrun as -> _. by specialize (Hno _ eq_refl). }
  destruct (never_outdated_tail es) as [Htail Hnew]. destruct (sd_epoch d ?= es_epoch es).
  - specialize (Htail s3 _ (f_equal fst Hrun)). done.
  - specialize (Hnew (SafetyData_new (es_epoch es) 0 0 0 None 0) s3 _ (f_equal fst Hrun)). done.
  - unfold mbind, M_bind in Hrun. simpl in Hrun. injection Hrun as <- <- _ _ <-. split; [done|].
    rewrite (proj2 (N.ltb_lt _ _) Hlt) in Hset. apply waypoint_written in Hset.
    unfold waypoint_version in *. by rewrite Hc.
Qed.

(** Rounds of the loop that go on move the waypoint every time. *)
Lemma initialize_from_version v s v' s' :
  (∃ sd, SafetySpec.holds sd s) → initialize_from proofs v s = (Ok (inl v'), s') →
  waypoint_version s + 1 ≤ waypoint_version s' ∧ ∃ sd, SafetySpec.holds sd s'.
Proof.
  intros [sd Hh]. unfold initialize_from. destruct (map_err _ (proofs v)) as [p|e|msg]; [|done..].
  destruct (exec_refines (Initialize p) sd s Hh) as (sd' & Hh' & _). simpl in Hh'. unfold mbind, M_bind in Hh'.
  pose proof (initialize_outdated sd p s) as Hout.
  destruct (guarded_initialize p s) as [[u|e|msg] s1] eqn:Hg; [done| |done].
  destruct e; try done. destruct (N.ltb_spec previous updated) as [Hlt|]; [|done].
  intros [= <- <-]. destruct (Hout _ _ _ _ _ Hh eq_refl Hlt) as [-> ->]. split; [lia|eauto].
Qed.

Lemma loop_versions n v s v' s' :
  (∃ sd, SafetySpec.holds sd s) → loop_until n (initialize_from proofs) v s = (Ok (inl v'), s') →
  waypoint_version s + N.pos n ≤ waypoint_version s' ∧ ∃ sd, SafetySpec.holds sd s'.
Proof.
  revert v s v' s'. induction n as [n IH|n IH|]; intros v s v' s' Hh Hrun; simpl in Hrun.
  - apply mbind_M_Ok in Hrun as ([v1|] & s1 & H1 & Hrun); [|done]. apply mbind_M_Ok in Hrun as ([v2|] & s2 & H2 & Hrun); [|done].
    apply initialize_from_version in H1 as [Hv1 Hh1]; [|done]. apply IH in H2 as [Hv2 Hh2]; [|done].
    apply IH in Hrun as [Hv3 Hh3]; [|done]. split; [lia|done].
  - apply mbind_M_Ok in Hrun as ([v1|] & s1 & H1 & Hrun); [|done].
    apply IH in H1 as [Hv1 Hh1]; [|done]. apply IH in Hrun as [Hv3 Hh3]; [|done]. split; [lia|done].
  - by apply initialize_from_version in Hrun.
Qed.

(** C26: The initialization of the safety rules ends: since versions of waypoints are
    [u64], and a round of the loop that goes on leaves a waypoint of a greater
    version in the store, the loop is over after at most as many rounds as there are
    versions. *)
Theorem initialization_terminates sd s v :
  SafetySpec.holds sd s → (∀ w, wp_version w ≤ u64_max) →
  ∀ v' s', loop_until 18446744073709551616 (initialize_from proofs) v s ≠ (Ok (inl v'), s').
Proof.
  intros Hh Hmax v' s' Hrun. apply loop_versions in Hrun as [Hv _]; [|by exists sd].
  assert (waypoint_version s' ≤ u64_max) as Hle.
  { unfold waypoint_version. destruct (_ ≫= _) as [w|]; simpl; [apply Hmax|done]. }
  unfold u64_max in *. lia.
Qed.

End initialization.

(** ** Actions *)

Section round_spec.
Context {GA : Gaptos} {VE : Verifier} {CR : Crypto} {SS : SecureStorage} {PI : PartialLedgerInfo}.
Context {AT : ApiTypes} {PT : PipelineTypes} {DT : DbTypes} {SD : SchemaDb} {RY : RecoveryTypes}.
Context {ST : StoreTypes} {SY : SyncTypes} {PO : ProposalTypes} {QT : QuorumStoreTypes}.
Context {E : Type} (pe : ProposerElection E) (proofs : N → result Anyhow EpochChangeProof).

Abbreviation RM := (@RoundManager GA VE CR SS PI AT PT SD E).
Abbreviation Trace := (list (Call * Signed)).
Implicit Types (m : RM) (T : Trace) (vc : @ValidatorComponents GA VE CR SS E).

Definition signed T (x : Signed) : Prop := x ∈ T.*2.

(** A vote the safety rules handed out, with a timeout they signed where it has one
    that was added. *)
Definition vote_authorized T (v : Vote) : Prop :=
  ∃ w, signed T (SignedVote w) ∧
    (v = w ∨ ∃ t s, signed T (SignedTimeout (signing_format t) s) ∧ v = add_2chain_timeout w t s).

Definition vote_in (o : RoundOutput) : option Vote :=
  match o with
  | BroadcastVote m | SendVote m _ | BroadcastTimeoutVote m => Some (vm_vote m)
  | _ => None
  end.

Definition proposal_in (o : RoundOutput) : option Block :=
  match o with BroadcastProposal m => Some (pm_proposal m) | _ => None end.

(** What has to be signed before a message is sent. *)
Definition authorized T (o : RoundOutput) : Prop :=
  match o with
  | BroadcastProposal m => ∃ bd s, signed T (SignedProposal bd s) ∧
      pm_proposal m = new_proposal_from_block_data_and_signature bd s
  | BroadcastVote m | SendVote m _ | BroadcastTimeoutVote m => vote_authorized T (vm_vote m)
  | BroadcastOrderVote m => signed T (SignedOrderVote (ovm_order_vote m))
  | _ => True
  end.

Definition with_safety (s : SafetyRules) vc : ValidatorComponents :=
  {| vc_proposer_election := vc_proposer_election vc; vc_proposal_generator := vc_proposal_generator vc;
     vc_safety_rules := s |}.

Definition with_election (e : UnequivocalProposerElection E) vc : ValidatorComponents :=
  {| vc_proposer_election := e; vc_proposal_generator := vc_proposal_generator vc;
     vc_safety_rules := vc_safety_rules vc |}.

Definition with_generator (g : ProposalGenerator) (e : UnequivocalProposerElection E) vc : ValidatorComponents :=
  {| vc_proposer_election := e; vc_proposal_generator := g; vc_safety_rules := vc_safety_rules vc |}.

(** A move of the round forgets the vote sent, or nothing changes it. *)
Definition rounds_step (rs rs' : RoundState) : Prop :=
  rs_current_round rs ≤ rs_current_round rs' ∧
  (rs_vote_sent rs' = rs_vote_sent rs ∨ rs_vote_sent rs' = None).

(** The generator has moved to the round of a proposal. *)
Definition generated (g g' : ProposalGenerator) (round : Round) : Prop :=
  pg_last_round_generated g < round ∧ g' = with_last_round_generated round g.

Inductive action : RM * Trace → RM * Trace → Prop :=
| act_aside m m' T :
    rm_validator_components m' = rm_validator_components m → rm_round_state m' = rm_round_state m →
    rm_sent m' = rm_sent m → action (m, T) (m', T)
| act_sign m T vc call :
    rm_validator_components m = Some vc →
    action (m, T) (set_components (with_safety (exec call (vc_safety_rules vc)).2 vc) m,
                   T ++ [(call, output (exec call (vc_safety_rules vc)).1)])
| act_elect m T vc e :
    rm_validator_components m = Some vc → action (m, T) (set_components (with_election e vc) m, T)
| act_generate m T vc g e round :
    rm_validator_components m = Some vc → generated (vc_proposal_generator vc) g round →
    action (m, T) (set_components (with_generator g e vc) m, T)
| act_rounds m T rs : rounds_step (rm_round_state m) rs → action (m, T) (set_round_state rs m, T)
| act_record m T v :
    vote_authorized T v → action (m, T) (set_round_state (record_vote v (rm_round_state m)) m, T)
| act_send m T o : proposal_in o = None → authorized T o → action (m, T) (set_sent (rm_sent m ++ [o]) m, T)
| act_propose m T vc g e s T' bd signature sync_info calls :
    rm_validator_components m = Some vc →
    generated (vc_proposal_generator vc) g (bd_round bd) →
    (exec_all calls (vc_safety_rules vc)) = (T', s) → signed T' (SignedProposal bd signature) →
    action (m, T)
      (set_sent (rm_sent m ++ [BroadcastProposal
           {| pm_proposal := new_proposal_from_block_data_and_signature bd signature;
              pm_sync_info := sync_info |}])
         (set_components (with_safety s (with_generator g e vc)) m), T ++ T').

Lemma action_prefix x y : rtc action x y → x.2 `prefix_of` y.2.
Proof.
  induction 1 as [x|x y z Hs _ IH]; [done|]. etrans; [|exact IH]. by destruct Hs; simpl; try done; apply prefix_app_r.
Qed.

(** ** Computations made of actions *)

Definition mono (P : Trace → Prop) : Prop := ∀ T T', T `prefix_of` T' → P T → P T'.

Lemma signed_mono x : mono (λ T, signed T x).
Proof. intros T T' [k ->] Hx. unfold signed. rewrite fmap_app. apply elem_of_app. by left. Qed.

Lemma vote_authorized_mono v : mono (λ T, vote_authorized T v).
Proof.
  intros T T' HT (w & Hw & Hv). exists w. split; [by eapply signed_mono|].
  destruct Hv as [->|(t & s & Ht & ->)]; [by left|right]. exists t, s. split; [by eapply signed_mono|done].
Qed.

(** The vote that counts as sent in this round was handed out by the safety rules. *)
Definition recorded (x : RM * Trace) : Prop :=
  ∀ v, rs_vote_sent (rm_round_state x.1) = Some v → vote_authorized x.2 v.

Lemma action_recorded x y : rtc action x y → recorded x → recorded y.
Proof.
  induction 1 as [x|x y z Hs _ IH]; [done|]. intros Hx. apply IH. clear IH. intros v.
  destruct Hs as [| | | |m T rs Hr| | |]; simpl; intros Hv.
  - apply Hx. simpl. congruence.
  - eapply vote_authorized_mono; [by apply prefix_app_r|by apply Hx].
  - by apply Hx.
  - by apply Hx.
  - destruct Hr as [_ [Hr|Hr]]; [apply Hx; simpl; congruence|congruence].
  - unfold record_vote in Hv. case_match; simpl in Hv; [by simplify_eq|by apply Hx].
  - by apply Hx.
  - eapply vote_authorized_mono; [by apply prefix_app_r|by apply Hx].
Qed.

(** From a trace with [P], the computation is a sequence of actions, and what it
    returns has [Q]. *)
Definition does {A} (P : Trace → Prop) (c : M RM Anyhow A) (Q : A → Trace → Prop) : Prop :=
  ∀ m T, recorded (m, T) → P T →
    ∃ T', rtc action (m, T) ((c m).2, T') ∧ ∀ a, (c m).1 = Ok a → Q a T'.

Abbreviation any := (λ _ : Trace, True).

Lemma does_bind {A B} P (c : M RM Anyhow A) Q (k : A → M RM Anyhow B) R :
  does P c Q → (∀ a, does (Q a) (k a) R) → does P (c ≫= k) R.
Proof.
  intros Hc Hk m T Hr HP. destruct (Hc m T Hr HP) as (T1 & H1 & HQ). unfold mbind, M_bind.
  destruct (c m) as [[a|e|msg] m1]; simpl in *; [|by exists T1..].
  destruct (Hk a m1 T1 (action_recorded _ _ H1 Hr) (HQ a eq_refl)) as (T2 & H2 & HR). exists T2. split; [by etrans|done].
Qed.

Lemma does_frame {A} P F (c : M RM Anyhow A) Q :
  mono F → does P c Q → does (λ T, P T ∧ F T) c (λ a T, Q a T ∧ F T).
Proof.
  intros HF Hc m T Hr [HP HFT]. destruct (Hc m T Hr HP) as (T1 & H1 & HQ). exists T1. split; [done|].
  intros a Ha. split; [by apply HQ|]. eapply HF; [by apply action_prefix in H1|done].
Qed.

Lemma does_weaken {A} (P P' : Trace → Prop) (c : M RM Anyhow A) (Q Q' : A → Trace → Prop) :
  does P c Q → (∀ T, P' T → P T) → (∀ a T, Q a T → Q' a T) → does P' c Q'.
Proof.
  intros Hc HP HQ m T Hr HT. destruct (Hc m T Hr (HP _ HT)) as (T1 & H1 & HQ1). exists T1. split; [done|]. auto.
Qed.

(** A fact that stays true is kept by a computation without requirements. *)
Lemma does_keep {A} (F : Trace → Prop) (c : M RM Anyhow A) :
  mono F → does any c (λ _, any) → does F c (λ _, F).
Proof.
  intros HF Hc. eapply does_weaken; [by apply does_frame|done|]. by intros a T [_ ?].
Qed.

Lemma does_gets {A} P (f : RM → result Anyhow A) : does P (gets f) (λ _, P).
Proof. intros m T Hr HP. by exists T. Qed.

Lemma does_lift {A} P (r : result Anyhow A) : does P (lift r) (λ _, P).
Proof. intros m T Hr HP. by exists T. Qed.

Lemma does_ret {A} (P : Trace → Prop) (a : A) (Q : A → Trace → Prop) :
  (∀ T, P T → Q a T) → does P (mret a) Q.
Proof. intros HQ m T Hr HP. exists T. split; [done|]. intros a' [= <-]. auto. Qed.

Lemma does_aside P f :
  (∀ m, rm_validator_components (f m) = rm_validator_components m ∧
        rm_round_state (f m) = rm_round_state m ∧ rm_sent (f m) = rm_sent m) →
  does P (modify f) (λ _, P).
Proof.
  intros Hf m T Hr HP. exists T. destruct (Hf m) as (? & ? & ?). split; [|done]. by apply rtc_once, act_aside.
Qed.

Lemma does_store {A} P (c : M BlockStore Anyhow A) : does P (on_store c) (λ _, P).
Proof.
  intros m T Hr HP. exists T. unfold on_store. destruct (c _) as [r s]. split; [|done]. by apply rtc_once, act_aside.
Qed.

Lemma does_sync {A} P author now (c : M (BlockStore * BlockRetriever) Anyhow A) :
  does P (on_sync author now c) (λ _, P).
Proof.
  intros m T Hr HP. exists T. unfold on_sync. destruct (c _) as [r [s ret]]. split; [|done]. by apply rtc_once, act_aside.
Qed.

Lemma does_order_votes {A} P (c : M (gmap HashValue OrderVoteStatus) Anyhow A) :
  does P (on_order_votes c) (λ _, P).
Proof.
  intros m T Hr HP. exists T. unfold on_order_votes. destruct (c _) as [r s]. split; [|done]. by apply rtc_once, act_aside.
Qed.

Lemma does_rounds {A} P (c : M RoundState Anyhow A) :
  (∀ rs, rounds_step rs (c rs).2) → does P (on_rounds c) (λ _, P).
Proof.
  intros Hc m T Hr HP. exists T. unfold on_rounds. pose proof (Hc (rm_round_state m)).
  destruct (c _) as [r s]. split; [|done]. by apply rtc_once, act_rounds.
Qed.

Lemma does_election {A} P (c : M (UnequivocalProposerElection E) Anyhow A) : does P (on_election c) (λ _, P).
Proof.
  intros m T Hr HP. exists T. unfold on_election, mbind, M_bind, gets, components.
  destruct (rm_validator_components m) as [vc|] eqn:Hvc; simpl; [|done].
  destruct (c _) as [r e]. split; [|done]. apply rtc_once. by apply (act_elect _ _ vc e).
Qed.

Lemma does_context {A} P text (c : M RM Anyhow A) Q : does P c Q → does P (in_context_of text c) Q.
Proof.
  intros Hc m T Hr HP. destruct (Hc m T Hr HP) as (T1 & H1 & HQ). exists T1. unfold in_context_of.
  destruct (c m) as [r m1]. split; [done|]. intros a Ha. apply with_context_Ok in Ha. by apply HQ.
Qed.

Lemma does_attempt {A} P (c : M RM Anyhow A) Q : does P c Q → does P (attempt c) (λ _, any).
Proof.
  intros Hc m T Hr HP. destruct (Hc m T Hr HP) as (T1 & H1 & HQ). exists T1. unfold attempt.
  destruct (c m) as [[]]; done.
Qed.

Lemma does_send (P : Trace → Prop) o :
  proposal_in o = None → (∀ T, P T → authorized T o) → does P (send o) (λ _, P).
Proof. intros Hn Ho m T Hr HP. exists T. split; [|done]. apply rtc_once, act_send; auto. Qed.

Lemma does_record (P : Trace → Prop) v :
  (∀ T, P T → vote_authorized T v) →
  does P (modify (λ m, set_round_state (record_vote v (rm_round_state m)) m)) (λ _, P).
Proof. intros Ho m T Hr HP. exists T. split; [|done]. by apply rtc_once, act_record, Ho. Qed.

(** The vote that counts as sent. *)
Lemma does_vote_sent P :
  does P (gets (λ m, Ok (rs_vote_sent (rm_round_state m))))
    (λ v T, P T ∧ ∀ w, v = Some w → vote_authorized T w).
Proof. intros m T Hr HP. exists T. split; [done|]. intros a [= <-]. split; [done|]. by apply Hr. Qed.

(** *** Calls of the safety rules *)

Lemma sign_all calls m T vc :
  rm_validator_components m = Some vc →
  rtc action (m, T) (set_components (with_safety (exec_all calls (vc_safety_rules vc)).2 vc) m,
                     T ++ (exec_all calls (vc_safety_rules vc)).1).
Proof.
  revert m T vc. induction calls as [|c calls IH]; intros m T vc Hvc; simpl.
  { rewrite app_nil_r. apply rtc_once, act_aside; [|done..]. simpl. by destruct vc. }
  eapply rtc_l; [by apply (act_sign _ _ vc c)|]. destruct (exec c (vc_safety_rules vc)) as [r s1]. simpl.
  specialize (IH (set_components (with_safety s1 vc) m) (T ++ [(c, output r)]) (with_safety s1 vc) eq_refl).
  simpl in IH. destruct (exec_all calls s1) as [t s2]. simpl in *. by rewrite <- app_assoc in IH.
Qed.

Lemma does_safety {A} text call (wrap : A → Signed) f :
  call_of call wrap f → does any (on_safety text (retry proofs f)) (λ a T, signed T (wrap a)).
Proof.
  intros Hc m T Hr _. unfold on_safety, mbind, M_bind, gets, components.
  destruct (rm_validator_components m) as [vc|] eqn:Hvc; simpl; [|by exists T].
  destruct (retry_calls proofs call wrap f (vc_safety_rules vc) Hc) as (calls & Hs & Ha).
  pose proof (sign_all calls m T vc Hvc) as Hrtc. rewrite Hs in Hrtc.
  destruct (retry proofs f (vc_safety_rules vc)) as [r s]. simpl in *. eexists. split; [exact Hrtc|].
  intros a Hok. apply with_context_Ok in Hok. unfold signed. rewrite fmap_app. apply elem_of_app. right. by apply Ha.
Qed.

(** *** Rounds *)

Definition moves {A} (c : M RoundState Anyhow A) : Prop := ∀ rs, rounds_step rs (c rs).2.

#[local] Instance rounds_step_preorder : PreOrder rounds_step.
Proof.
  split; [intros rs; split; [done|by left]|].
  intros rs1 rs2 rs3 [H1 V1] [H2 V2]. split; [lia|]. destruct V2 as [->| ->]; [done|by right].
Qed.

Lemma moves_bind {A B} (c : M RoundState Anyhow A) (k : A → M RoundState Anyhow B) :
  moves c → (∀ a, moves (k a)) → moves (c ≫= k).
Proof.
  intros Hc Hk rs. specialize (Hc rs). unfold mbind, M_bind.
  destruct (c rs) as [[a|e|msg] rs1]; [|done..]. etrans; [exact Hc|apply Hk].
Qed.

Lemma moves_still {A} (c : M RoundState Anyhow A) : (∀ rs, (c rs).2 = rs) → moves c.
Proof. intros Hc rs. by rewrite Hc. Qed.

Lemma moves_timer (f : RoundState → N) g :
  moves (modify (λ rs, set_timer (f rs) (g rs) rs)).
Proof. intros rs. split; [done|by left]. Qed.

Lemma moves_setup_timeout now k : moves (setup_timeout now k).
Proof.
  unfold setup_timeout, setup_deadline.
  repeat (apply moves_bind; [|intros ?]); first [apply moves_timer|by apply moves_still].
Qed.

Lemma moves_process_local_timeout now round : moves (process_local_timeout now round).
Proof.
  intros rs. unfold process_local_timeout. destruct (_ || _); [done|].
  revert rs. apply (moves_bind (setup_timeout now 1) (λ _, mret true)); [apply moves_setup_timeout|].
  intros _. by apply moves_still.
Qed.

Lemma moves_process_certificates now sync_info : moves (process_certificates now sync_info).
Proof.
  intros rs. unfold process_certificates. destruct (add_u64 _ 1) as [r|e|msg]; [|split; [done|by left]..].
  simpl. destruct (_ <? r) eqn:Hlt; [|split; [done|by left]]. apply N.ltb_lt in Hlt.
  destruct (rs_is_validator rs); simpl; [|split; [simpl; lia|by left]].
  etrans; [|apply (moves_bind (setup_timeout now 1))]; [split; [simpl; lia|by right]|apply moves_setup_timeout|].
  intros t. apply moves_bind; [by apply moves_still|intros ?; by apply moves_still].
Qed.

Lemma moves_insert_vote vote verifier : moves (RoundState_insert_vote vote verifier).
Proof.
  intros rs. unfold RoundState_insert_vote. destruct (_ =? _); [|done].
  destruct (insert_vote _ _ _). split; [done|by left].
Qed.

(** *** Making a proposal *)

(** The round and the author of a proposal. *)
Lemma build_proposal_of g i store round e bd e' :
  build_proposal (unequivocal_election pe) g i store round e = (Ok bd, e') →
  bd_round bd = round ∧ BlockData_author bd = Some (pg_author g).
Proof.
  unfold build_proposal. intros Hrun. run_inv.
  match goal with x : _ * Payload * _ |- _ => destruct x as [[??] ?] end. run_inv. by destruct (vtc_enabled _).
Qed.

Lemma sign_proposal_calls bd s :
  ∃ calls, (exec_all calls s).2 = (metrics_sign_proposal proofs bd s).2 ∧
    ∀ a, (metrics_sign_proposal proofs bd s).1 = Ok a → signed (exec_all calls s).1 (SignedProposal bd a).
Proof. by apply (retry_calls proofs (SignProposal bd) (SignedProposal bd)). Qed.

Lemma does_propose i event sync_info :
  does any (generate_and_send_proposal pe proofs i event sync_info) (λ _, any).
Proof.
  intros m T Hr _. unfold generate_and_send_proposal, generate_proposal_msg, on_generator, on_safety,
    mbind, M_bind, gets, components.
  destruct (rm_validator_components m) as [vc|] eqn:Hvc; simpl; [|by exists T].
  unfold generate_proposal. destruct (N.ltb_spec (pg_last_round_generated (vc_proposal_generator vc)) (nre_round event)) as [Hlt|Hge].
  2: { simpl. exists T. split; [|done]. by apply rtc_once, (act_elect _ _ vc). }
  set (g := with_last_round_generated _ _).
  destruct (build_proposal _ g _ _ _ _) as [[bd|e|msg] el] eqn:Hb; simpl.
  2, 3: by exists T; split; [apply rtc_once, (act_generate _ _ vc g el (nre_round event))|].
  destruct (sign_proposal_calls bd (vc_safety_rules vc)) as (calls & Hs & Ha).
  apply build_proposal_of in Hb as [Hround _].
  destruct (metrics_sign_proposal proofs bd (vc_safety_rules vc)) as [r s]. simpl in *.
  assert (Hgen : action (m, T) (set_components (with_generator g el vc) m, T)).
  { by apply (act_generate _ _ vc g el (nre_round event)). }
  pose proof (sign_all calls _ T (with_generator g el vc) (eq_refl : rm_validator_components (set_components _ m) = _)) as Hsign.
  simpl in Hsign. rewrite Hs in Hsign. exists (T ++ (exec_all calls (vc_safety_rules vc)).1). split; [|done].
  destruct r as [a|e|msg]; simpl; [|by eapply rtc_l..].
  eapply rtc_once, (act_propose m T vc g el s _ bd a sync_info calls); [done|by rewrite Hround| |by apply Ha].
  rewrite <- Hs. by destruct (exec_all _ _).
Qed.

(** *** The handlers *)

Definition acts {A} (c : M RM Anyhow A) : Prop := does any c (λ _, any).

Lemma does_acts {A} P (c : M RM Anyhow A) Q : (∀ T, P T) → does P c Q → acts c.
Proof. intros HP Hc. eapply does_weaken; [exact Hc|done|done]. Qed.

Lemma acts_bind {A B} (c : M RM Anyhow A) (k : A → M RM Anyhow B) :
  acts c → (∀ a, acts (k a)) → acts (c ≫= k).
Proof. apply does_bind. Qed.

Lemma acts_gets {A} (f : RM → result Anyhow A) : acts (gets f).
Proof. apply does_gets. Qed.

Lemma acts_lift {A} (r : result Anyhow A) : acts (lift r).
Proof. apply does_lift. Qed.

Lemma acts_ret {A} (a : A) : acts (mret a).
Proof. by apply does_ret. Qed.

Lemma acts_store {A} (c : M BlockStore Anyhow A) : acts (on_store c).
Proof. apply does_store. Qed.

Lemma acts_sync {A} author now (c : M (BlockStore * BlockRetriever) Anyhow A) : acts (on_sync author now c).
Proof. apply does_sync. Qed.

Lemma acts_order_votes {A} (c : M (gmap HashValue OrderVoteStatus) Anyhow A) : acts (on_order_votes c).
Proof. apply does_order_votes. Qed.

Lemma acts_election {A} (c : M (UnequivocalProposerElection E) Anyhow A) : acts (on_election c).
Proof. apply does_election. Qed.

Lemma acts_aside f :
  (∀ m, rm_validator_components (f m) = rm_validator_components m ∧
        rm_round_state (f m) = rm_round_state m ∧ rm_sent (f m) = rm_sent m) → acts (modify f).
Proof. apply does_aside. Qed.

Lemma acts_rounds {A} (c : M RoundState Anyhow A) : moves c → acts (on_rounds c).
Proof. apply does_rounds. Qed.

Lemma acts_context {A} text (c : M RM Anyhow A) : acts c → acts (in_context_of text c).
Proof. apply does_context. Qed.

Lemma acts_attempt {A} (c : M RM Anyhow A) : acts c → acts (attempt c).
Proof. apply does_attempt. Qed.

Lemma acts_send_free o : proposal_in o = None → (∀ T, authorized T o) → acts (send o).
Proof. intros Hn Ho. apply does_send; auto. Qed.

Lemma acts_each {A} (f : A → M RM Anyhow unit) l : (∀ x, acts (f x)) → acts (try_for_each f l).
Proof.
  intros Hf. induction l as [|x l IH]; simpl; [apply acts_ret|]. by apply acts_bind.
Qed.

Create HintDb acts.
#[local] Hint Resolve moves_process_certificates moves_process_local_timeout moves_insert_vote : acts.

Ltac acts :=
  repeat first
    [ match goal with |- ∀ _, _ => intro end
    | solve [eauto with acts]
    | apply acts_gets | apply acts_lift | apply acts_ret | apply acts_store | apply acts_sync
    | apply acts_order_votes | apply acts_election | apply acts_context | apply acts_attempt
    | apply acts_rounds; solve [eauto with acts]
    | apply acts_send_free; done
    | apply acts_aside; done
    | apply acts_bind
    | case_match ].

Lemma acts_new_round_event event : acts (process_new_round_event pe event).
Proof. unfold process_new_round_event. acts. Qed.
#[local] Hint Resolve acts_new_round_event : acts.

Lemma acts_process_certificates now : acts (rm_process_certificates pe now).
Proof. unfold rm_process_certificates. acts. Qed.
#[local] Hint Resolve acts_process_certificates : acts.

Lemma acts_ensure_round now round sync_info author : acts (ensure_round_and_sync_up pe now round sync_info author).
Proof. unfold ensure_round_and_sync_up, sync_up. acts. Qed.
#[local] Hint Resolve acts_ensure_round : acts.

Lemma acts_fast_shares info : acts (broadcast_fast_shares info).
Proof. unfold broadcast_fast_shares. acts. Qed.
#[local] Hint Resolve acts_fast_shares : acts.

(** *** Votes *)

Lemma does_then {A B} (c : M RM Anyhow A) (P : Trace → Prop) (k : A → M RM Anyhow B) R :
  mono P → acts c → (∀ a, does P (k a) R) → does P (c ≫= k) R.
Proof. intros HP Hc Hk. eapply does_bind; [by apply does_keep|exact Hk]. Qed.

Lemma does_after {A B} (c : M RM Anyhow A) (k : A → M RM Anyhow B) R :
  acts c → (∀ a, does any (k a) R) → does any (c ≫= k) R.
Proof. apply does_bind. Qed.

Lemma does_sign_vote text vp tc now :
  does any (on_safety text (metrics_construct_and_sign_vote_two_chain proofs vp tc now))
    (λ v T, signed T (SignedVote v)).
Proof. by apply (does_safety _ (ConstructAndSignVoteTwoChain vp tc now)). Qed.

Lemma does_sign_order_vote text ovp :
  does any (on_safety text (metrics_construct_and_sign_order_vote proofs ovp))
    (λ v T, signed T (SignedOrderVote v)).
Proof. by apply (does_safety _ (ConstructAndSignOrderVote ovp)). Qed.

Lemma does_sign_timeout text t tc :
  does any (on_safety text (metrics_sign_timeout_with_qc proofs t tc))
    (λ s T, signed T (SignedTimeout (signing_format t) s)).
Proof. by apply (does_safety _ (SignTimeoutWithQC t tc)). Qed.

(** A vote is handed out by the safety rules and saved. *)
Lemma does_vote_block now b : does any (vote_block proofs now b) (λ v T, vote_authorized T v).
Proof.
  unfold vote_block. do 7 (apply does_after; [acts|intros ?]).
  eapply does_bind; [apply does_sign_vote|].
  intros v. apply does_then; [apply signed_mono|acts|]. intros _.
  apply does_ret. intros T Hv. exists v. auto.
Qed.

Lemma acts_send (P : Trace → Prop) o :
  proposal_in o = None → (∀ T, P T → authorized T o) → does P (send o) (λ _, any).
Proof. intros. eapply does_weaken; [by apply (does_send P)|done|done]. Qed.

Lemma acts_verified_proposal now b : acts (process_verified_proposal pe proofs now b).
Proof.
  unfold process_verified_proposal. eapply does_bind; [by apply does_context, does_vote_block|]. intros v.
  eapply does_bind; [by apply does_record|]. intros [].
  apply (does_bind _ _ (λ msg T, vm_vote msg = v ∧ vote_authorized T v)).
  { intros m T Hr Hv. exists T. split; [done|]. by intros a [= <-]. }
  intros msg. apply does_then; [by intros T T' HT [? ?]; split; [|eapply vote_authorized_mono]|acts|]. intros _.
  assert (Hok : ∀ T, vm_vote msg = v ∧ vote_authorized T v → vote_authorized T (vm_vote msg)).
  { by intros T [-> ?]. }
  eapply does_bind; [apply does_gets|]. intros [|].
  { by apply acts_send. }
  eapply does_bind; [apply does_lift|]. intros next. eapply does_bind; [apply does_election|].
  intros recipient. by apply acts_send.
Qed.
#[local] Hint Resolve acts_verified_proposal : acts.

Lemma acts_backpressure now b : acts (check_backpressure_and_process_proposal pe proofs now b).
Proof. unfold check_backpressure_and_process_proposal. acts. Qed.
#[local] Hint Resolve acts_backpressure : acts.

Lemma acts_process_proposal now available b : acts (process_proposal pe proofs now available b).
Proof. unfold process_proposal. acts. Qed.
#[local] Hint Resolve acts_process_proposal : acts.

(** *** Timeouts *)

Lemma does_vote_for_timeout now round :
  does any (vote_for_timeout pe proofs now round) (λ v T, vote_authorized T v).
Proof.
  unfold vote_for_timeout. eapply does_bind; [apply does_vote_sent|]. intros sent.
  match goal with |- context [if _ then _ else ?c] => assert (Hnil : does any c (λ v T, vote_authorized T v)) end.
  { do 3 (apply does_after; [acts|intros ?]). apply does_vote_block. }
  destruct sent as [w|]; [|by eapply does_weaken].
  destruct (_ =? _); [|by eapply does_weaken]. apply does_ret. intros T [_ Hw]. by apply Hw.
Qed.

Lemma does_add_timeout v :
  does (λ T, vote_authorized T v) (add_timeout proofs v) (λ w T, vote_authorized T w).
Proof.
  unfold add_timeout. destruct (is_timeout v) eqn:Hto; [by apply does_ret|].
  do 2 (eapply does_bind; [apply does_gets|intros ?]).
  eapply does_bind.
  { eapply does_weaken; [eapply (does_frame any); [apply (vote_authorized_mono v)|apply does_sign_timeout]|done|].
    intros s T HsT. exact HsT. }
  intros s. apply does_ret. intros T [Hs (w & Hw & Hv)]. exists w. split; [done|]. right.
  destruct Hv as [->|(t' & s' & _ & ->)]; [|done]. eauto.
Qed.

Lemma acts_local_timeout now round : acts (rm_process_local_timeout pe proofs now round).
Proof.
  unfold rm_process_local_timeout. apply acts_bind; [acts|]. intros [|]; simpl; [|acts].
  apply acts_bind; [acts|]. intros [|]; [acts|].
  eapply does_bind; [apply does_vote_for_timeout|]. intros v. eapply does_bind; [apply does_gets|]. intros vc.
  eapply does_bind; [apply does_add_timeout|]. intros w. eapply does_bind; [by apply does_record|]. intros [].
  apply (does_bind _ _ (λ msg T, vm_vote msg = w ∧ vote_authorized T w)).
  { intros m T Hr Hv. exists T. split; [done|]. by intros a [= <-]. }
  intros msg. eapply does_bind; [apply acts_send; [done|by intros T [<- ?]]|]. intros []. acts.
Qed.
#[local] Hint Resolve acts_local_timeout : acts.

(** *** Certificates, order votes and votes *)

Lemma acts_order_vote vote qc : acts (broadcast_order_vote proofs vote qc).
Proof.
  unfold broadcast_order_vote. apply acts_bind; [acts|]. intros [b|]; [|acts]. apply acts_bind; [acts|].
  intros ovp. eapply does_bind; [apply does_sign_order_vote|]. intros ov. by apply acts_send.
Qed.
#[local] Hint Resolve acts_order_vote : acts.

Lemma acts_order_vote_msg now msg : acts (process_order_vote_msg pe now msg).
Proof.
  unfold process_order_vote_msg, new_qc_from_order_vote_msg, process_order_vote_reception_result, new_ordered_cert.
  acts.
Qed.
#[local] Hint Resolve acts_order_vote_msg : acts.

Lemma acts_reception now vote r : acts (process_vote_reception_result pe proofs now vote r).
Proof.
  unfold process_vote_reception_result, new_qc_aggregated, new_2chain_tc_aggregated. acts.
Qed.
#[local] Hint Resolve acts_reception : acts.

Lemma acts_process_vote now vote : acts (process_vote pe proofs now vote).
Proof. unfold process_vote. acts. Qed.
#[local] Hint Resolve acts_process_vote : acts.

Lemma acts_logged c : acts c → acts (logged c).
Proof. intros Hc. unfold logged. acts. Qed.

(** An event of the loop, whatever its outcome, is a sequence of actions. *)
Lemma acts_step now available e : acts (round_manager_step pe proofs now available e).
Proof.
  destruct e as [vote|events|i r|peer e|i inputs|blocks proof decision]; simpl.
  - apply acts_logged. unfold rm_process_delayed_qc_msg. acts.
  - apply acts_bind; [acts|]. intros selected. apply acts_each. intros []; simpl; try apply acts_logged; acts.
  - apply acts_bind; [acts|]. intros b. apply acts_bind; [acts|]. intros _.
    destruct b, r; try apply acts_logged; acts.
  - destruct e; simpl; try apply acts_logged; acts.
  - apply acts_bind; [acts|]. intros [[ev si]|]; (apply acts_bind; [acts|]; intros _); [|acts].
    apply acts_logged, does_propose.
  - acts.
Qed.

(** So is the start, when the last vote is one that was handed out. *)
Lemma does_init now last_vote :
  does (λ T, ∀ v, last_vote = Some v → vote_authorized T v) (rm_init pe now last_vote) (λ _, any).
Proof.
  assert (mono (λ T, ∀ v, last_vote = Some v → vote_authorized T v)) as Hm.
  { intros T T' HT H v Hv. eapply vote_authorized_mono; [done|auto]. }
  unfold rm_init. do 3 (apply does_then; [done|acts|intros ?]).
  destruct (negb _); [by apply does_ret|]. do 2 (apply does_then; [done|acts|intros ?]).
  apply (does_bind _ _ (λ _, any)); [|intros []; acts]. destruct last_vote as [v|]; [|by apply does_ret].
  case_bool_decide; [by apply does_ret|].
  eapply does_weaken; [apply (does_record (λ T, vote_authorized T v)); auto|by intros T Hv; apply Hv|done].
Qed.

Lemma does_start now last_vote events :
  does (λ T, ∀ v, last_vote = Some v → vote_authorized T v) (rm_start pe proofs now last_vote events) (λ _, any).
Proof.
  eapply does_bind; [apply does_init|]. intros []. apply acts_each. intros [[t available] e]. apply acts_step.
Qed.

(** ** What follows for a validator *)

(** The trace is a run of the abstract rules that ends in what the node holds. *)
Context {SL : StorageLaws}.

Definition linked (sd0 : SafetyData) (x : RM * Trace) : Prop :=
  ∃ vc sd, rm_validator_components x.1 = Some vc ∧ SafetySpec.holds sd (vc_safety_rules vc) ∧ rules_run sd0 x.2 sd.

Lemma rules_run_app sd0 t1 sd1 t2 sd2 :
  rules_run sd0 t1 sd1 → rules_run sd1 t2 sd2 → rules_run sd0 (t1 ++ t2) sd2.
Proof. induction 1; simpl; [done|]. intros. econstructor; eauto. Qed.

Lemma action_linked sd0 x y : rtc action x y → linked sd0 x → linked sd0 y.
Proof.
  induction 1 as [x|x y z Hs _ IH]; [done|]. intros Hx. apply IH. clear IH.
  destruct Hs as [m m' T Hvc _ _|m T vc c Hvc|m T vc e Hvc|m T vc g e r Hvc _|m T rs _|m T v _|m T o _ _
    |m T vc g e s T' bd sg si calls Hvc _ He _]; destruct Hx as (vc0 & sd & Hvc0 & Hh & Hrun); simpl in *; simplify_eq.
  - exists vc0, sd. simpl. split; [congruence|done].
  - destruct (exec_all_refines [c] sd _ Hh) as (sd' & Hh' & Hrun'). simpl in *.
    destruct (exec c (vc_safety_rules vc)) as [r s]. exists (with_safety s vc), sd'. split; [done|]. split; [exact Hh'|].
    by eapply rules_run_app.
  - by exists (with_election e vc), sd.
  - by exists (with_generator g e vc), sd.
  - by exists vc0, sd.
  - by exists vc0, sd.
  - by exists vc0, sd.
  - destruct (exec_all_refines calls sd _ Hh) as (sd' & Hh' & Hrun'). rewrite He in Hh', Hrun'.
    eexists _, sd'. split; [done|]. split; [exact Hh'|]. by eapply rules_run_app.
Qed.

(** Every message was authorized when it was sent. *)
Lemma authorized_mono o : mono (λ T, authorized T o).
Proof.
  intros T T' HT. destruct o; simpl; try done; try by apply vote_authorized_mono.
  - intros (bd & s & Hs & ->). exists bd, s. split; [by eapply signed_mono|done].
  - by apply signed_mono.
Qed.

Definition all_authorized (x : RM * Trace) : Prop := ∀ o, o ∈ rm_sent x.1 → authorized x.2 o.

Lemma action_authorized x y : rtc action x y → all_authorized x → all_authorized y.
Proof.
  induction 1 as [x|x y z Hs Hrest IH]; [done|]. intros Hx. apply IH. clear IH. intros o Ho.
  assert (o ∈ rm_sent x.1 → authorized y.2 o) as Hold.
  { intros H. eapply authorized_mono; [by eapply action_prefix, rtc_once|auto]. }
  destruct Hs as [m m' T _ _ Hsent| | | | | |m T o' _ Hok|m T vc g e s T' bd sg si calls _ _ _ Hsig]; simpl in *.
  1: by rewrite Hsent in Ho; auto.
  1-5: by auto.
  - apply elem_of_app in Ho as [Ho|Ho]; [by auto|]. by apply list_elem_of_singleton in Ho as ->.
  - apply elem_of_app in Ho as [Ho|Ho]; [by auto|]. apply list_elem_of_singleton in Ho as ->.
    exists bd, sg. split; [|done]. unfold signed. rewrite fmap_app. apply elem_of_app. by right.
Qed.

(** The rounds of the proposals sent grow with that of the generator. *)
Definition proposed_rounds (m : RM) : list Round := Block_round <$> omap proposal_in (rm_sent m).

Definition proposals_fresh (m : RM) : Prop :=
  NoDup (proposed_rounds m) ∧
  ∀ vc, rm_validator_components m = Some vc →
    Forall (λ r, r ≤ pg_last_round_generated (vc_proposal_generator vc)) (proposed_rounds m).

Lemma action_fresh x y : rtc action x y → proposals_fresh x.1 → proposals_fresh y.1.
Proof.
  induction 1 as [x|x y z Hs _ IH]; [done|]. intros [Hnd Hle]. apply IH. clear IH.
  destruct Hs as [m m' T Hvc _ Hsent|m T vc c Hvc|m T vc e Hvc|m T vc g e r Hvc [Hlt ->]|m T rs _|m T v _|m T o Ho _
    |m T vc g e s T' bd sg si calls Hvc [Hlt ->] He _]; unfold proposals_fresh, proposed_rounds in *; simpl in *.
  - rewrite Hsent, Hvc. by split.
  - split; [done|]. intros vc' [= <-]. by apply (Hle vc).
  - split; [done|]. intros vc' [= <-]. by apply (Hle vc).
  - split; [done|]. intros vc' [= <-]. eapply Forall_impl; [by apply (Hle vc)|]. simpl. lia.
  - by split.
  - by split.
  - rewrite omap_app. simpl. rewrite Ho, app_nil_r. by split.
  - rewrite omap_app, fmap_app. simpl. specialize (Hle vc Hvc). rewrite Forall_forall in Hle. split.
    + apply NoDup_app. split; [done|]. split; [|apply NoDup_singleton]. intros r Hr ->%list_elem_of_singleton.
      apply Hle in Hr. unfold Block_round in Hr. simpl in Hr. lia.
    + intros vc' [= <-]. simpl. apply Forall_app. split; [|by constructor].
      apply Forall_forall. intros r Hr. apply Hle in Hr. lia.
Qed.

(** A validator with a history: [T] is what the safety rules were asked and handed out
    since they held [sd0], in this and in earlier runs of the node. *)
Record sound_since (sd0 : SafetyData) (m : RM) (T : Trace) : Prop := {
  ss_linked : linked sd0 (m, T);
  ss_recorded : recorded (m, T);
  ss_authorized : all_authorized (m, T);
}.

(** The trace grows by what the safety rules answer to the calls that take them from
    their state before to the one after. *)
Lemma action_calls x y vc :
  rtc action x y → rm_validator_components x.1 = Some vc →
  ∃ calls vc', rm_validator_components y.1 = Some vc' ∧
    exec_all calls (vc_safety_rules vc) = (drop (length x.2) y.2, vc_safety_rules vc') ∧
    y.2 = x.2 ++ (exec_all calls (vc_safety_rules vc)).1.
Proof.
  intros Hrtc. revert vc. induction Hrtc as [x|x y z Hs _ IH]; intros vc0 Hvc0.
  { exists [], vc0. simpl. by rewrite drop_all, app_nil_r. }
  assert (∃ calls vc1, rm_validator_components y.1 = Some vc1 ∧
    vc_safety_rules vc1 = (exec_all calls (vc_safety_rules vc0)).2 ∧
    y.2 = x.2 ++ (exec_all calls (vc_safety_rules vc0)).1) as (c1 & vc1 & Hvc1 & Hs1 & HT1).
  { clear IH. destruct Hs as [m m' T Hvc _ _|m T vc c Hvc|m T vc e Hvc|m T vc g e r Hvc _|m T rs _|m T v _|m T o _ _
      |m T vc g e s T' bd sg si calls Hvc _ He _]; simpl in *; simplify_eq.
    2: { exists [c]. simpl. destruct (exec c (vc_safety_rules vc)) as [r s]. by eexists. }
    7: { exists calls. rewrite He. by eexists. }
    all: exists []; simpl; rewrite app_nil_r; eexists; by try rewrite Hvc. }
  destruct (IH vc1 Hvc1) as (c2 & vc2 & Hvc2 & Hs2 & HT2). exists (c1 ++ c2), vc2. rewrite exec_all_app. rewrite Hs1 in Hs2, HT2.
  rewrite Hs2 in *. simpl in *. assert (z.2 = x.2 ++ ((exec_all c1 (vc_safety_rules vc0)).1 ++ drop (length y.2) z.2)) as Hz.
  { by rewrite app_assoc, <- HT1. }
  split; [done|]. split; [|exact Hz]. by rewrite Hz at 2; rewrite drop_app_length.
Qed.

(** C4: Refinement of the round manager. A validator starts with a vote it recovers that
    was signed in its history, and handles any events, whatever their outcome. Then
    there are calls of the safety rules whose execution, from the state of the
    safety rules at the start, ends in the state they have at the end; the history
    extended by what these calls returned is a run of the abstract voting rules that
    ends in what the safety rules hold, and in it every vote, timeout vote, order
    vote and proposal the manager has sent was signed, and so was the vote it would
    send again. *)
Theorem round_manager_refines sd0 T m vc now last_vote events :
  sound_since sd0 m T → (∀ v, last_vote = Some v → vote_authorized T v) →
  rm_validator_components m = Some vc →
  let m' := (rm_start pe proofs now last_vote events m).2 in
  ∃ calls vc' T', rm_validator_components m' = Some vc' ∧
    exec_all calls (vc_safety_rules vc) = (T', vc_safety_rules vc') ∧ sound_since sd0 m' (T ++ T').
Proof.
  intros [Hl Hr Ha] Hlast Hvc m'. destruct (does_start now last_vote events m T Hr Hlast) as (T1 & Hrtc & _).
  destruct (action_calls _ _ vc Hrtc Hvc) as (calls & vc' & Hvc' & Hexec & HT). rewrite Hexec in HT. simpl in HT.
  exists calls, vc', (drop (length T) T1). split; [exact Hvc'|]. split; [exact Hexec|]. rewrite <- HT. split.
  - by eapply action_linked.
  - by eapply action_recorded.
  - by eapply action_authorized.
Qed.

(** The same vote, with a timeout or without. *)
Definition same_ballot (v w : Vote) : Prop :=
  vote_vote_data v = vote_vote_data w ∧ vote_author v = vote_author w ∧
  vote_ledger_info v = vote_ledger_info w ∧ vote_signature v = vote_signature w.

Lemma vote_authorized_ballot T v : vote_authorized T v → ∃ w, w ∈ votes_of T ∧ same_ballot v w.
Proof.
  intros (w & Hw & Hv). exists w. split.
  - apply list_elem_of_fmap in Hw as ([c out] & Hout & Hin). simpl in Hout. subst out.
    apply list_elem_of_omap. eexists. split; [exact Hin|done].
  - by destruct Hv as [->|(t & s & _ & ->)].
Qed.

Lemma authorized_vote T o v : authorized T o → vote_in o = Some v → vote_authorized T v.
Proof. by destruct o; simpl; intros Ho [= <-]. Qed.

(** C5: A validator does not equivocate on the wire: of the votes it has sent, to a
    leader, to everybody or with a timeout, since the safety rules held [sd0], two
    for the same epoch and round are the same vote up to the timeout. *)
Theorem sent_votes_unequivocal {BL : BlockInfoLaws} sd0 T m now last_vote events o1 o2 v1 v2 :
  sound_since sd0 m T → (∀ v, last_vote = Some v → vote_authorized T v) → last_vote_ok sd0 →
  let m' := (rm_start pe proofs now last_vote events m).2 in
  o1 ∈ rm_sent m' → o2 ∈ rm_sent m' → vote_in o1 = Some v1 → vote_in o2 = Some v2 →
  Vote_epoch v1 = Vote_epoch v2 → Vote_round v1 = Vote_round v2 → same_ballot v1 v2.
Proof.
  intros [Hl Hr Ha] Hlast Hok m' H1 H2 Hv1 Hv2 He Hrd.
  destruct (does_start now last_vote events m T Hr Hlast) as (T1 & Hrtc & _).
  destruct (action_linked sd0 _ _ Hrtc Hl) as (_ & sd & _ & _ & Hrun). simpl in Hrun.
  apply (votes_inv_run []) in Hrun; [|split; set_solver].
  pose proof (action_authorized _ _ Hrtc Ha) as Hall.
  destruct (vote_authorized_ballot T1 v1) as (w1 & Hw1 & S1); [apply (authorized_vote T1 o1); [by apply Hall|done]|].
  destruct (vote_authorized_ballot T1 v2) as (w2 & Hw2 & S2); [apply (authorized_vote T1 o2); [by apply Hall|done]|].
  destruct S1 as (Hd1 & ? & ? & ?), S2 as (Hd2 & ? & ? & ?).
  assert (w1 = w2) as ->.
  { apply (vi_unique _ _ Hrun); [done..| |]; unfold Vote_epoch, Vote_round in *; congruence. }
  unfold same_ballot. intuition congruence.
Qed.

(** C13: At most one proposal per round leaves a validator: the proposals it has sent
    are for different rounds, none above the last round of the generator, over any
    events, also when making or signing one failed. *)
Theorem sent_proposals_unique m now last_vote events :
  proposals_fresh m → proposals_fresh (rm_start pe proofs now last_vote events m).2.
Proof.
  intros Hf.
  set (T := (λ v, (ConsensusState_call, SignedVote v)) <$>
              (option_list (rs_vote_sent (rm_round_state m)) ++ option_list last_vote)).
  assert (HT : ∀ v, rs_vote_sent (rm_round_state m) = Some v ∨ last_vote = Some v → vote_authorized T v).
  { intros v Hv. exists v. split; [|by left]. apply list_elem_of_fmap. exists (ConsensusState_call, SignedVote v).
    split; [done|]. apply list_elem_of_fmap. exists v. split; [done|]. apply elem_of_app.
    destruct Hv as [-> | ->]; [left|right]; by apply list_elem_of_singleton. }
  destruct (does_start now last_vote events m T) as (T1 & Hrtc & _); [intros v Hv; apply HT; auto..|].
  by apply (action_fresh _ _ Hrtc).
Qed.

End round_spec.

(** ** A leader and a replica *)

Section leader.
Context {GA : Gaptos} {VE : Verifier} {CR : Crypto} {PI : PartialLedgerInfo}.
Context {AT : ApiTypes} {PT : PipelineTypes} {DT : DbTypes} {SD : SchemaDb} {RY : RecoveryTypes}.
Context {ST : StoreTypes} {PO : ProposalTypes} {QT : QuorumStoreTypes}.
Context {E : Type} (pe : ProposerElection E).

(** An election that gives every round its leader in the states of [I]. *)
Record elects (I : E → Prop) (leader : Round → Author) : Prop := {
  el_leader s r : I s → ∃ s', get_valid_proposer pe r s = (Ok (leader r), s') ∧ I s';
  el_ratio s r : I s → I (get_voting_power_participation_ratio pe r s).2;
}.

Context (I : E → Prop) (leader : Round → Author) (Hel : elects I leader).
Implicit Types u : UnequivocalProposerElection E.

(** The election of a node, wrapped against equivocation, stays in [I] and keeps the
    proposal it remembers. *)
Definition electing_from u u' : Prop :=
  I (ue_proposer_election u') ∧ ue_already_proposed u' = ue_already_proposed u.

Lemma unequivocal_leader u r : I (ue_proposer_election u) →
  ∃ u', get_valid_proposer (unequivocal_election pe) r u = (Ok (leader r), u') ∧ electing_from u u'.
Proof.
  intros Hu. destruct (el_leader _ _ Hel _ r Hu) as (s' & Hs & HI). simpl. unfold zoom. rewrite Hs. by eexists.
Qed.

Lemma proposers_of_leaders rounds u : I (ue_proposer_election u) →
  ∃ u', proposers_of (unequivocal_election pe) rounds u = (Ok ((λ r, (r, leader r)) <$> rounds), u') ∧
    electing_from u u'.
Proof.
  revert u. induction rounds as [|r rounds IH]; intros u Hu; [by eexists|].
  destruct (unequivocal_leader u r Hu) as (u1 & H1 & Hu1 & Hp1).
  destruct (IH u1 Hu1) as (u2 & H2 & Hu2 & Hp2). exists u2.
  change (proposers_of _ (r :: rounds)) with
    (author ← get_valid_proposer (unequivocal_election pe) r; rest ← proposers_of (unequivocal_election pe) rounds;
     mret ((r, author) :: rest)).
  unfold mbind, M_bind. rewrite H1, H2. split; [done|]. split; [done|]. congruence.
Qed.

(** The rounds skipped below a block, at most [max] of them. *)
Definition skipped (max : N) (round previous_round : Round) : list Round :=
  round_range (N.max (previous_round + 1) (round - max)) round.

Lemma failed_authors_leaders max round previous u :
  previous < round → round ≤ u64_max → I (ue_proposer_election u) →
  ∃ u', compute_failed_authors (unequivocal_election pe) max round previous false u =
      (Ok ((λ r, (r, leader r)) <$> skipped max round previous), u') ∧ electing_from u u'.
Proof.
  intros Hlt Hmax Hu. unfold compute_failed_authors, mbind, M_bind, lift, add_u64, checked_add.
  rewrite N.add_0_r, (proj2 (N.leb_le round u64_max)), (proj2 (N.leb_le (previous + 1) u64_max)) by lia.
  simpl. by apply proposers_of_leaders.
Qed.

Lemma round_range_cons lo hi : lo < hi → round_range lo hi = lo :: round_range (lo + 1) hi.
Proof.
  intros Hlt. unfold round_range.
  replace (N.to_nat (hi - lo)) with (S (N.to_nat (hi - (lo + 1)))) by lia. simpl. f_equal; [lia|].
  rewrite <- fmap_S_seq, <- list_fmap_compose. apply list_fmap_ext. intros i x _. simpl. lia.
Qed.

Lemma round_range_increasing lo start hi : lo < start → increasing_within lo hi (round_range start hi).
Proof.
  intros Hlt. remember (N.to_nat (hi - start)) as n eqn:Hn. revert lo start Hlt Hn.
  induction n as [|n IH]; intros lo start Hlt Hn.
  { unfold round_range. by rewrite <- Hn. }
  rewrite round_range_cons by lia. simpl. split; [done|]. split; [lia|]. apply IH; lia.
Qed.

Lemma pull_for_proposal_inv g i store round hqc u txns payload timestamp u' :
  pull_for_proposal (unequivocal_election pe) g i store round hqc u = (Ok (txns, payload, timestamp), u') →
  I (ue_proposer_election u) → I (ue_proposer_election u') ∧ timestamp = (pin_now i / 1000) mod 2 ^ 64.
Proof.
  unfold pull_for_proposal. intros Hrun Hu. run_inv.
  match goal with H : zoom _ _ _ ?st = (Ok ?a, _) |- _ =>
    pose proof (el_ratio _ _ Hel _ round Hu) as HI; unfold zoom in H;
    destruct (get_voting_power_participation_ratio pe round _); simplify_eq/= end.
  match goal with x : _ * _ * option N * _ |- _ => destruct x as [[[??] ?] ?] end. run_inv. done.
Qed.

(** What a leader puts into a proposal on the certificates of its store. *)
Record proposal_of (g : ProposalGenerator) (i : ProposalInputs) (store : BlockStore) (round : Round)
    (bd : BlockData) : Prop := {
  po_quorum_cert : bd_quorum_cert bd = bt_highest_quorum_cert (bs_inner store);
  po_above : bi_round (certified_block (bd_quorum_cert bd)) < round;
  po_open : QuorumCert_ends_epoch (bd_quorum_cert bd) = false;
  po_round : bd_round bd = round;
  po_epoch : bd_epoch bd = bi_epoch (certified_block (bd_quorum_cert bd));
  po_proposal : BlockData_is_nil_block bd = false ∧ BlockData_is_genesis_block bd = false;
  po_parent : BlockData_parent_id bd = bi_id (certified_block (bd_quorum_cert bd));
  po_author : BlockData_author bd = Some (pg_author g);
  po_failed_authors : BlockData_failed_authors bd =
    Some ((λ r, (r, leader r)) <$>
            skipped (pg_max_failed_authors_to_store g) round (bi_round (certified_block (bd_quorum_cert bd))));
  po_suffix : bi_has_reconfiguration (certified_block (bd_quorum_cert bd)) = true →
    bd_timestamp_usecs bd = bi_timestamp_usecs (certified_block (bd_quorum_cert bd)) ∧
    ∀ p, BlockData_payload bd = Some p → Payload_is_empty p = true;
  po_timestamp : bi_has_reconfiguration (certified_block (bd_quorum_cert bd)) = false →
    bd_timestamp_usecs bd = (pin_now i / 1000) mod 2 ^ 64;
}.

Lemma build_proposal_spec g i store round u bd u' :
  build_proposal (unequivocal_election pe) g i store round u = (Ok bd, u') →
  round ≤ u64_max → I (ue_proposer_election u) → proposal_of g i store round bd.
Proof.
  unfold build_proposal, ensure_highest_quorum_cert. intros Hrun Hmax Hu. run_inv. guards.
  set (hqc := bt_highest_quorum_cert (bs_inner store)) in *.
  match goal with x : _ * Payload * _ |- _ => destruct x as [[txns payload] timestamp] end.
  match goal with H : (if _ then _ else _) _ = (Ok (txns, payload, timestamp), ?u1) |- _ =>
    rename H into Hcontent; assert (I (ue_proposer_election u1) ∧
      if bi_has_reconfiguration (certified_block hqc)
      then timestamp = bi_timestamp_usecs (certified_block hqc) ∧ Payload_is_empty payload = true
      else timestamp = (pin_now i / 1000) mod 2 ^ 64) as [Hu1 Htime] end.
  { destruct (bi_has_reconfiguration _); [|by apply pull_for_proposal_inv in Hcontent].
    run_inv. split; [done|]. split; [done|]. unfold Payload_empty. by destruct (pg_quorum_store_enabled g), (pg_allow_batches_without_pos_in_proposal g). }
  destruct (failed_authors_leaders (pg_max_failed_authors_to_store g) round (bi_round (certified_block hqc)) _
    ltac:(done) Hmax Hu1) as (u2 & Hf & _).
  unfold mbind, M_bind in Hrun. rewrite Hf in Hrun. injection Hrun as <- _. clear Hcontent Hf.
  destruct (bi_has_reconfiguration (certified_block hqc)) eqn:Hre;
    destruct (vtc_enabled _); (split; simpl; try done; rewrite ?Hre; try done);
    intros _; split; try apply Htime; intros p [= <-]; apply Htime.
Qed.

(** The message a leader sends about a proposal on its own certificates. *)
Definition leader_msg (store : BlockStore) (bd : BlockData) (signature : Signature) : ProposalMsg :=
  {| pm_proposal := new_proposal_from_block_data_and_signature bd signature;
     pm_sync_info := store_sync_info store |}.

(** The clock of the leader is above its parent and not far above the replica's. *)
Definition clock_between (i : ProposalInputs) (hqc : QuorumCert) (now : N) : Prop :=
  bi_has_reconfiguration (certified_block hqc) = false →
  bi_timestamp_usecs (certified_block hqc) < pin_now i / 1000 < 2 ^ 64 ∧
  pin_now i / 1000 ≤ saturating_add now TIMEBOUND.

Lemma proposal_of_well_formed g i store round bd signature now :
  proposal_of g i store round bd → round = highest_round (store_sync_info store) + 1 → round ≤ u64_max →
  clock_between i (bt_highest_quorum_cert (bs_inner store)) now →
  ProposalMsg_verify_well_formed (leader_msg store bd signature) now = Ok tt.
Proof.
  intros [Hqc Habove Hopen Hround Hepoch [Hnil Hgen] Hparent Hauthor Hfailed Hsuffix Htime] Hnext Hmax Hclock.
  set (b := new_proposal_from_block_data_and_signature bd signature).
  assert (Hlt : bi_round (certified_block (Block_quorum_cert b)) < Block_round b).
  { unfold Block_round. simpl. by rewrite Hround. }
  assert (Hup : failed_upper b = round).
  { unfold failed_upper, Block_round, Block_is_nil_block. simpl. rewrite Hnil. lia. }
  assert (Hcheck : check_failed_authors b = Ok tt).
  { eapply check_failed_authors_Ok; [exact Hfailed|done|by rewrite Hup|]. rewrite Hup, <- list_fmap_compose.
    simpl. rewrite list_fmap_id. apply round_range_increasing. unfold Block_quorum_cert. simpl. lia. }
  assert (Hwf : Block_verify_well_formed b now = Ok tt).
  { unfold Block_verify_well_formed. rewrite Hcheck, !bind_unit_Ok, !ensure_Ok. guards.
    repeat split; try done.
    - unfold Block_payload. simpl. destruct (bi_has_reconfiguration _); [|done]. rewrite ensure_Ok.
      destruct (BlockData_payload bd); [|done]. by apply Hsuffix.
    - unfold Block_is_nil_block, Block_timestamp_usecs. simpl. rewrite Hnil. simpl. rewrite <- Hqc in Hclock. unfold clock_between in Hclock.
      unfold Block_quorum_cert. simpl. destruct (bi_has_reconfiguration _).
      { rewrite ensure_Ok. guards. by apply Hsuffix. }
      destruct (Hclock eq_refl) as [[Ht H64] Hnow]. rewrite (Htime eq_refl), N.mod_small by done.
      rewrite bind_unit_Ok, !ensure_Ok. guards. done. }
  unfold ProposalMsg_verify_well_formed. fold b. simpl. fold b. rewrite Hwf. simpl.
  unfold Block_is_nil_block, Block_round, Block_epoch, Block_parent_id, Block_quorum_cert, Block_author. simpl.
  rewrite Hnil, Hround, Hepoch, Hparent, Hqc, Hauthor. simpl.
  rewrite !bind_unit_Ok, !ensure_Ok. guards. split; [lia|]. do 2 (split; [done|]).
  unfold checked_sub. rewrite (proj2 (N.leb_le 1 round)) by lia. simpl.
  rewrite bind_unit_Ok, ensure_Ok. guards. split; [|done]. rewrite Hnext. unfold highest_round, highest_certified_round. simpl. lia.
Qed.

(** The leader of a round is its valid proposer, with the first proposal seen. *)
Lemma is_valid_proposal_leader b u :
  Block_author b = Some (leader (Block_round b)) → I (ue_proposer_election u) →
  (ue_already_proposed u).1 < Block_round b →
  ∃ u', is_valid_proposal pe b u = (Ok true, u') ∧ I (ue_proposer_election u').
Proof.
  intros Ha Hu Hnew. destruct (unequivocal_leader u (Block_round b) Hu) as (u3 & Hl & HI3 & Hp3).
  exists (set_already_proposed (Block_round b, block_id b) u3). split; [|done].
  unfold is_valid_proposal, is_valid_proposer. rewrite Ha. unfold mbind, M_bind. rewrite Hl. simpl.
  rewrite bool_decide_eq_true_2 by done. unfold remember_proposal. rewrite Hp3.
  by rewrite (proj2 (N.compare_gt_iff _ _) Hnew).
Qed.

(** C9: What a leader proposes is accepted. Assume that the generator made a proposal,
    by the elected leader of the round and for the round after the highest one of
    the sync info of its store; that, unless the parent is a reconfiguration, the
    leader's clock in microseconds is above the timestamp of the parent, below 2^64
    and at most TIMEBOUND above the clock of the replica; and that the replica
    elects the same leaders, stores the same number of failed authors, and has seen
    no proposal of this or a later round. Then the message sent with the sync info
    of the store is well formed, the replica takes the block for the valid proposal
    of the round, and the failed authors are the ones it computes. That its payload
    is available and its timestamp before the round's deadline is not part of the
    claim. *)
Theorem leader_proposal_accepted g i store round u bd st signature now u2 :
  generate_proposal (unequivocal_election pe) i store round (g, u) = (Ok bd, st) →
  round = highest_round (store_sync_info store) + 1 → round ≤ u64_max →
  clock_between i (bt_highest_quorum_cert (bs_inner store)) now →
  I (ue_proposer_election u) → I (ue_proposer_election u2) →
  leader round = pg_author g → (ue_already_proposed u2).1 < round →
  let b := pm_proposal (leader_msg store bd signature) in
  ProposalMsg_verify_well_formed (leader_msg store bd signature) now = Ok tt ∧
  ∃ u3 u4 failed, is_valid_proposal pe b u2 = (Ok true, u3) ∧
    compute_failed_authors (unequivocal_election pe) (pg_max_failed_authors_to_store g) (Block_round b)
      (bi_round (certified_block (Block_quorum_cert b))) false u3 = (Ok failed, u4) ∧
    BlockData_failed_authors (block_block_data b) = Some failed.
Proof.
  intros Hgen Hnext Hmax Hclock Hu Hu2 Hleads Hnew b. unfold generate_proposal in Hgen.
  destruct (_ <? round); [|done]. set (g' := with_last_round_generated round g) in *.
  destruct (build_proposal _ g' i store round u) as [r u'] eqn:Hb. simplify_eq.
  pose proof (build_proposal_spec _ _ _ _ _ _ _ Hb Hmax Hu) as Hpo.
  split; [by eapply proposal_of_well_formed|]. destruct Hpo as [Hqc Habove _ Hround _ _ _ Hauthor Hfailed _ _].
  destruct (is_valid_proposal_leader b u2) as (u3 & Hvalid & HI3); [|done|unfold Block_round; simpl; lia|].
  { unfold Block_author, Block_round. simpl. by rewrite Hauthor, Hround, Hleads. }
  destruct (failed_authors_leaders (pg_max_failed_authors_to_store g) (bd_round bd)
    (bi_round (certified_block (bd_quorum_cert bd))) u3) as (u4 & Hf & _); [lia|lia|done|].
  exists u3, u4. eexists. split; [exact Hvalid|]. split; [exact Hf|]. simpl. rewrite Hfailed. by rewrite Hround.
Qed.

End leader.

(** ** A replica votes *)

Section replica.
Context {GA : Gaptos} {VE : Verifier} {CR : Crypto} {SS : SecureStorage} {PI : PartialLedgerInfo}.
Context {AT : ApiTypes} {PT : PipelineTypes} {DT : DbTypes} {SD : SchemaDb} {RY : RecoveryTypes}.
Context {ST : StoreTypes} {SY : SyncTypes} {PO : ProposalTypes} {QT : QuorumStoreTypes}.
Context {E : Type} (pe : ProposerElection E) (proofs : N → result Anyhow EpochChangeProof).
Context (I : E → Prop) (leader : Round → Author) (Hel : elects pe I leader).

Abbreviation RM := (@RoundManager GA VE CR SS PI AT PT SD E).
Abbreviation VC := (@ValidatorComponents GA VE CR SS E).
Implicit Types (m : RM) (vc : VC).

Lemma runs_election {A} (c : M (UnequivocalProposerElection E) Anyhow A) m vc a e (Q : A → RM → Prop) :
  rm_validator_components m = Some vc → c (vc_proposer_election vc) = (Ok a, e) →
  Q a (set_components (with_election e vc) m) → runs (on_election c) m Q.
Proof.
  intros Hvc Hc HQ. unfold runs, on_election, mbind, M_bind, gets, components. rewrite Hvc. simpl. by rewrite Hc.
Qed.

Lemma runs_safety {A} text (c : M SafetyRules Error A) m vc a s (Q : A → RM → Prop) :
  rm_validator_components m = Some vc → c (vc_safety_rules vc) = (Ok a, s) →
  Q a (set_components (with_safety s vc) m) → runs (on_safety text c) m Q.
Proof.
  intros Hvc Hc HQ. unfold runs, on_safety, mbind, M_bind, gets, components. rewrite Hvc. simpl. by rewrite Hc.
Qed.

Lemma runs_store {A} (c : M BlockStore Anyhow A) m a s (Q : A → RM → Prop) :
  c (rm_block_store m) = (Ok a, s) → Q a (set_block_store s m) → runs (on_store c) m Q.
Proof. intros Hc HQ. unfold runs, on_store. by rewrite Hc. Qed.

Lemma runs_context {A} text (c : M RM Anyhow A) m (Q : A → RM → Prop) :
  runs c m Q → runs (in_context_of text c) m Q.
Proof. unfold runs, in_context_of. by destruct (c m) as [[]]. Qed.

(** What the block store and the safety rules answer to a proposal they accept: [s1] is
    the store with the block, held as [held], [s2] the one with the vote saved. *)
Record voted (now : N) (b held : Block) (s : BlockStore) (sr : SafetyRules) (v : Vote) (s1 s2 : BlockStore)
    (sr' : SafetyRules) : Prop := {
  vd_inserted : store_insert_block b false s = (Ok held, s1);
  vd_flow : vote_back_pressure s1 = Ok false;
  vd_vote : metrics_construct_and_sign_vote_two_chain proofs (plb_vote_proposal (pipelined s1 held))
    (bt_highest_2chain_timeout_cert (bs_inner s1)) (now / 1000) sr = (Ok v, sr');
  vd_saved : on_storage (storage_save_vote v) s1 = (Ok tt, s2);
}.

Lemma vote_block_runs now b held m vc v s1 s2 sr (Q : Vote → RM → Prop) :
  rm_validator_components m = Some vc → rs_vote_sent (rm_round_state m) = None →
  rc_sync_only (rm_config m) = false →
  voted now b held (rm_block_store m) (vc_safety_rules vc) v s1 s2 sr →
  Q v (set_block_store s2 (set_components (with_safety sr vc) (set_block_store s1 m))) →
  runs (vote_block proofs now b) m Q.
Proof.
  intros Hvc Hvs Hso [Hins Hflow Hvote Hsave] HQ. unfold vote_block.
  apply runs_bind, runs_context, (runs_store _ _ _ _ _ Hins).
  apply runs_bind. eapply runs_gets; [done|]. simpl. rewrite Hvs.
  apply runs_bind. eapply runs_lift; [done|].
  apply runs_bind. eapply runs_gets; [unfold sync_only; simpl; by rewrite Hflow|]. simpl. rewrite Hso.
  apply runs_bind. eapply runs_lift; [done|].
  apply runs_bind. eapply runs_gets; [done|]. apply runs_bind. eapply runs_gets; [done|].
  apply runs_bind. eapply (runs_safety _ _ _ vc); [done|exact Hvote|].
  apply runs_bind, runs_context. eapply runs_store; [exact Hsave|]. by apply runs_ret.
Qed.

(** At most a share of randomness is sent. *)
Lemma fast_shares_run info m (Q : unit → RM → Prop) :
  (∀ m' shares, rm_validator_components m' = rm_validator_components m → rm_config m' = rm_config m →
     rm_round_state m' = rm_round_state m → rm_block_store m' = rm_block_store m → rm_sent m' = rm_sent m ++ shares →
     (shares = [] ∨ shares = [BroadcastFastShare (bi_epoch info) (bi_round info)]) → Q tt m') →
  runs (broadcast_fast_shares info) m Q.
Proof.
  intros HQ. unfold broadcast_fast_shares. do 2 (apply runs_bind; eapply runs_gets; [done|]).
  destruct (_ && _).
  - apply runs_bind, runs_modify, runs_modify. eapply HQ; [done..|by right].
  - apply runs_ret. eapply HQ; [done..|by rewrite app_nil_r|by left].
Qed.

(** The conditions under which a replica votes for a proposal of its round. *)
Record votable (now : N) (available : Block → bool) (m : RM) (vc : VC) (b : Block) : Prop := {
  vt_components : rm_validator_components m = Some vc;
  vt_author : Block_author b = Some (leader (Block_round b));
  vt_round : Block_round b = rs_current_round (rm_round_state m);
  vt_above : bi_round (certified_block (Block_quorum_cert b)) < Block_round b;
  vt_max : Block_round b < u64_max;
  vt_limits : check_proposal_limits (rm_config m) b = Ok tt;
  vt_election : I (ue_proposer_election (vc_proposer_election vc));
  vt_new : (ue_already_proposed (vc_proposer_election vc)).1 < Block_round b;
  vt_failed_authors : BlockData_failed_authors (block_block_data b) =
    Some ((λ r, (r, leader r)) <$> skipped (pg_max_failed_authors_to_store (vc_proposal_generator vc))
            (Block_round b) (bi_round (certified_block (Block_quorum_cert b))));
  vt_deadline : Block_timestamp_usecs b * 1000 < rs_current_round_deadline (rm_round_state m);
  vt_available : available b = true;
  vt_flow : vote_back_pressure (rm_block_store m) = Ok false;
  vt_not_voted : rs_vote_sent (rm_round_state m) = None;
  vt_votes : rc_sync_only (rm_config m) = false;
}.

(** The vote is recorded and sent to everybody or to the next leader, behind at most one
    share of randomness, with the sync info of the store in which it is saved. *)
Definition sends_vote (m : RM) (b : Block) (v : Vote) (saved : BlockStore) (m' : RM) : Prop :=
  rs_vote_sent (rm_round_state m') = Some v ∧ rm_block_store m' = saved ∧
  ∃ shares, rm_sent m' = rm_sent m ++ shares ++
    [let msg := {| vm_vote := v; vm_sync_info := store_sync_info saved |} in
     if rc_broadcast_vote (rm_config m) then BroadcastVote msg else SendVote msg [leader (Block_round b + 1)]] ∧
    let info := li_commit_info (vote_ledger_info v) in
    (shares = [] ∨ shares = [BroadcastFastShare (bi_epoch info) (bi_round info)]).

Lemma process_verified_proposal_runs now b held m vc v s1 s2 sr :
  rm_validator_components m = Some vc → I (ue_proposer_election (vc_proposer_election vc)) →
  Block_round b < u64_max → rs_vote_sent (rm_round_state m) = None → rc_sync_only (rm_config m) = false →
  Vote_round v = rs_current_round (rm_round_state m) →
  voted now b held (rm_block_store m) (vc_safety_rules vc) v s1 s2 sr →
  runs (process_verified_proposal pe proofs now b) m (λ _, sends_vote m b v s2).
Proof.
  intros Hvc HI Hmax Hvs Hso Hr Hv. unfold process_verified_proposal.
  apply runs_bind, runs_context. eapply vote_block_runs; [done..|].
  apply runs_bind, runs_modify. apply runs_bind. eapply runs_gets; [done|].
  apply runs_bind, fast_shares_run. intros m' shares Hvc' Hcfg Hrs Hstore Hsent Hshares.
  simpl in Hvc', Hcfg, Hrs, Hstore, Hsent. unfold record_vote in Hrs. simpl in Hrs.
  rewrite (proj2 (N.eqb_eq _ _) Hr) in Hrs.
  apply runs_bind. eapply runs_gets; [done|]. rewrite Hcfg. unfold sends_vote.
  destruct (rc_broadcast_vote (rm_config m)).
  - apply runs_modify. simpl. split; [by rewrite Hrs|]. split; [done|]. exists shares. split; [|done].
    by rewrite Hsent, <- app_assoc.
  - apply runs_bind. eapply runs_lift; [by apply add_u64_Ok; split; [reflexivity|lia]|].
    destruct (unequivocal_leader pe I leader Hel (vc_proposer_election vc) (Block_round b + 1) HI) as (u & Hl & _).
    apply runs_bind. eapply (runs_election _ _ (with_safety sr vc)); [done|exact Hl|].
    apply runs_modify. simpl. split; [by rewrite Hrs|]. split; [done|]. exists shares. split; [|done].
    by rewrite Hsent, <- app_assoc.
Qed.

(** C10: A replica votes for a valid proposal of its round. Assume the proposal is by
    the leader, the first seen of the round, above its certificate, within the
    limits, with the failed authors the replica computes, its payload available and
    its timestamp before the deadline; that the replica is a validator, has not
    voted in the round and is not in sync-only mode; that there is no back pressure
    before or after; and that inserting the block, signing the vote and saving it
    succeed. Then [process_proposal] succeeds, records this vote, leaves the store
    in the state in which the vote was saved, and sends, after at most one fast
    share for the commit info of the vote, exactly one message: the vote with the
    sync info of that store, to everybody or to the leader of the next round as
    configured. *)
Theorem valid_proposal_gets_vote now available m vc b held v s1 s2 sr :
  votable now available m vc b → Vote_round v = Block_round b →
  voted now b held (rm_block_store m) (vc_safety_rules vc) v s1 s2 sr →
  runs (process_proposal pe proofs now available b) m (λ _ m', sends_vote m b v s2 m').
Proof.
  intros [Hvc Ha Hround Habove Hmax Hlim HI Hnew Hfailed Hdead Hav Hflow Hnv Hso] Hr Hv. unfold process_proposal.
  apply runs_bind. eapply runs_lift; [by rewrite Ha|].
  apply runs_bind. eapply runs_gets; [done|].
  apply runs_bind. eapply runs_gets; [unfold components; by rewrite Hvc|].
  destruct (is_valid_proposal_leader pe I leader Hel b _ Ha HI Hnew) as (u1 & Hvalid & HI1).
  apply runs_bind. eapply runs_election; [done|exact Hvalid|]. apply runs_bind. eapply runs_lift; [done|].
  destruct (failed_authors_leaders pe I leader Hel (pg_max_failed_authors_to_store (vc_proposal_generator vc))
    (Block_round b) (bi_round (certified_block (Block_quorum_cert b))) u1) as (u2 & Hf & HI2 & _); [done|lia|done|].
  apply runs_bind. eapply (runs_election _ _ (with_election u1 vc)); [done|exact Hf|].
  apply runs_bind. eapply runs_lift; [by rewrite bool_decide_eq_true_2|].
  apply runs_bind. eapply runs_gets; [done|]. simpl. apply runs_bind. eapply runs_lift; [by rewrite (proj2 (N.ltb_lt _ _) Hdead)|].
  rewrite Hav. simpl. unfold check_backpressure_and_process_proposal.
  apply runs_bind. eapply runs_lift; [by rewrite Ha|]. apply runs_bind. eapply runs_gets; [exact Hflow|]. simpl.
  apply runs_mono with (Q := λ _, sends_vote (set_components (with_election u2 (with_election u1 vc)) m) b v s2); [|done].
  eapply process_verified_proposal_runs; [done|exact HI2|done..|by rewrite Hr|exact Hv].
Qed.

End replica.
