(* ===== verification/Concrete.v ===== *)
(** * A concrete instance of the external interface

    A small executable instance of the classes of [Gaptos] and [Types]: hashes
    are injective encodings, a signature names its signer and the digest of the
    message, an aggregate lists the signatures it was made of.  It satisfies
    every law class of the development; the witnesses evaluate the theorems'
    hypotheses on it. *)

From S2P Require Import Prelude Gaptos Types.

Definition cAddress : Type := N.
Definition cHash : Type := positive.
Definition cSignature : Type := cAddress * positive.
(** Address and voting power of each validator. *)
Definition cVerifier : Type := list (cAddress * N).
Definition cEpochState : Type := N * cVerifier.
Definition cBlockInfo : Type := N * N * cHash * cHash * N * N * option cEpochState.
Definition cLedgerInfo : Type := cBlockInfo * cHash.
Definition cAggregate : Type := list (cAddress * cSignature).
Definition cEpochBlockInfo : Type := N * N.

Definition cBlockInfo_epoch (b : cBlockInfo) : N :=
  let '(e, _, _, _, _, _, _) := b in e.
Definition cBlockInfo_round (b : cBlockInfo) : N :=
  let '(_, r, _, _, _, _, _) := b in r.
Definition cBlockInfo_id (b : cBlockInfo) : cHash :=
  let '(_, _, id, _, _, _, _) := b in id.
Definition cBlockInfo_hash (b : cBlockInfo) : cHash :=
  let '(_, _, _, x, _, _, _) := b in x.
Definition cBlockInfo_version (b : cBlockInfo) : N :=
  let '(_, _, _, _, v, _, _) := b in v.
Definition cBlockInfo_timestamp (b : cBlockInfo) : N :=
  let '(_, _, _, _, _, t, _) := b in t.
Definition cBlockInfo_next (b : cBlockInfo) : option cEpochState :=
  let '(_, _, _, _, _, _, n) := b in n.

#[local] Instance concrete_gaptos : Gaptos := {|
  HashValue := cHash;
  HashValue_zero := 1%positive;
  ACCUMULATOR_PLACEHOLDER_HASH := 2%positive;
  GENESIS_BLOCK_ID := 3%positive;
  Signature := cSignature;
  CryptoMaterialError := string;
  PublicKey := cAddress;
  PrivateKey := cAddress;
  public_key sk := sk;
  AccountAddress := cAddress;
  SignedTransaction := N;
  ValidatorTransaction := N;
  txn_payload _ := GTxnBytes;
  ValidatorVerifier := cVerifier;
  EpochState := cEpochState;
  es_epoch := fst;
  es_verifier := snd;
  BlockInfo := cBlockInfo;
  BlockInfo_new e r id x v t n := (e, r, id, x, v, t, n);
  BlockInfo_empty := (0, 0, 1%positive, 1%positive, 0, 0, None);
  bi_epoch := cBlockInfo_epoch;
  bi_round := cBlockInfo_round;
  bi_id := cBlockInfo_id;
  bi_version := cBlockInfo_version;
  bi_timestamp_usecs := cBlockInfo_timestamp;
  bi_has_reconfiguration b := bool_decide (is_Some (cBlockInfo_next b));
  bi_is_ordered_only b := bool_decide (cBlockInfo_hash b = 2%positive);
  bi_match_ordered_only b1 b2 :=
    bool_decide (cBlockInfo_epoch b1 = cBlockInfo_epoch b2
                 ∧ cBlockInfo_round b1 = cBlockInfo_round b2
                 ∧ cBlockInfo_id b1 = cBlockInfo_id b2);
  EpochBlockInfo := cEpochBlockInfo;
  bi_epoch_block_info _ := None;
  ebi_block_number := fst;
  ebi_epoch_start_timestamp_usecs := snd;
  LedgerInfo := cLedgerInfo;
  LedgerInfo_new b h := (b, h);
  LedgerInfo_new_with_block_info b h _ _ := (b, h);
  li_commit_info := fst;
  li_consensus_data_hash := snd;
  li_hash l := encode l;
  li_epoch l := cBlockInfo_epoch l.1;
  li_round l := cBlockInfo_round l.1;
  li_ends_epoch l := bool_decide (is_Some (cBlockInfo_next l.1));
  li_next_epoch_state l := cBlockInfo_next l.1;
  li_block_hash l := cBlockInfo_hash l.1;
  li_block_number _ := 0;
  li_version l := cBlockInfo_version l.1;
  li_waypoint_version l := cBlockInfo_version l.1;
  li_timestamp_usecs l := cBlockInfo_timestamp l.1;
  BitVec := N;
  BitVec_with_num_bits n := n;
  BitVec_default := 0;
  AggregateSignature := cAggregate;
  AggregateSignature_empty := [];
  AggregateSignature_new _ _ := [];
  agg_num_voters s := length s;
  agg_signers_addresses s addrs := filter (λ a, a ∈ s.*1) addrs;
  LedgerInfoWithSignatures := cLedgerInfo * cAggregate;
  LedgerInfoWithSignatures_new l s := (l, s);
  liws_ledger_info := fst;
  liws_num_voters l := length l.2;
|}.

Definition cOrdered (v : cVerifier) : list cAddress := remove_dups v.*1.
Definition cPower (v : cVerifier) (a : cAddress) : N :=
  match filter (λ p, p.1 = a) v with (_, p) :: _ => p | [] => 0 end.
Definition cPowers (v : cVerifier) (l : list cAddress) : N :=
  foldr (λ a n, cPower v a + n) 0 l.
Definition cTotal (v : cVerifier) : N := cPowers v (cOrdered v).
Definition cQuorum (v : cVerifier) : N := cTotal v * 2 / 3 + 1.
Definition cCheckPower (v : cVerifier) (l : list cAddress) (check_super : bool)
    : result VerifyError N :=
  let p := cPowers v l in
  if cQuorum v <=? p then Ok p else Err (TooLittleVotingPower p).
Definition cIndex (v : cVerifier) : gmap cAddress nat :=
  list_to_map (imap (λ i a, (a, i)) (cOrdered v)).

(** The digest of a message, apart for messages of different types. *)
Definition cDigest (m : Signable) : positive :=
  match m with
  | SignLedgerInfo li => (encode (li : cLedgerInfo))~1~1
  | SignTimeout t => (encode (tsr_epoch t, tsr_round t, tsr_hqc_round t))~0~1
  | SignBlockData b => (encode (bd_epoch b, bd_round b, bd_timestamp_usecs b))~0~0
  | SignBatchInfo b =>
      (encode ((bin_author b : cAddress), bid_id (bin_batch_id b), bid_nonce (bin_batch_id b),
               bin_epoch b, bin_expiration b, (bin_digest b : cHash)))~1~0
  end.

Definition cVerify (v : cVerifier) (a : cAddress) (m : Signable) (s : cSignature)
    : result VerifyError unit :=
  if bool_decide (a ∈ v.*1 ∧ s = (a, cDigest m)) then Ok tt else Err (OtherVerifyError 0).

Definition cVerifyAggregate (v : cVerifier) (msgs : list Signable) (s : cAggregate)
    : result VerifyError unit :=
  if is_ok (cCheckPower v s.*1 true)
     && bool_decide (s.*2 = zip_with (λ a m, (a, cDigest m)) s.*1 msgs)
  then Ok tt else Err (OtherVerifyError 1).

Definition cAggregateSignatures (v : cVerifier) (m : gmap cAddress cSignature)
    : result VerifyError cAggregate :=
  if bool_decide (Forall (λ a, a ∈ cOrdered v) (map_to_list m).*1)
  then Ok (omap (λ a, pair a <$> m !! a) (cOrdered v))
  else Err (OtherVerifyError 2).

#[local] Instance concrete_verifier : Verifier := {|
  liws_verify_signatures l v :=
    cVerifyAggregate v (replicate (length l.2) (SignLedgerInfo l.1)) l.2;
  vv_len v := N.of_nat (length v);
  vv_ordered_addresses := cOrdered;
  vv_address_to_validator_index := cIndex;
  vv_get_public_key v a := if bool_decide (a ∈ v.*1) then Some a else None;
  vv_get_voting_power v a := if bool_decide (a ∈ v.*1) then Some (cPower v a) else None;
  vv_quorum_voting_power := cQuorum;
  vv_total_voting_power := cTotal;
  vv_check_voting_power := cCheckPower;
|}.

#[local] Instance concrete_crypto : Crypto := {|
  hash_vote_data vd := Pos.succ (encode (vd_proposed vd : cBlockInfo, vd_parent vd : cBlockInfo));
  hash_block_data b := encode (bd_epoch b, bd_round b, bd_timestamp_usecs b);
  hash_batch_payload a txns := encode (a, txns : list N);
  ValidatorSigner := cAddress * cAddress;
  ValidatorSigner_new a sk := (a, sk);
  signer_author := fst;
  signer_public_key s := s.2;
  signer_sign s m := Ok (s.1, cDigest m);
  vv_verify := cVerify;
  vv_verify_multi_signatures v b s :=
    if is_ok (cCheckPower v s.*1 true)
       && bool_decide (Forall (λ p : cAddress * cSignature, p.2 = (p.1, bin_digest b)) s)
    then Ok tt else Err (OtherVerifyError 3);
  vv_verify_aggregate_signatures := cVerifyAggregate;
  vv_aggregate_signatures := cAggregateSignatures;
|}.

(** ** The instance satisfies the laws *)

#[local] Instance concrete_block_info_laws : BlockInfoLaws.
Proof.
  split; try done. intros b1 b2 H. by apply bool_decide_eq_true in H.
Qed.

#[local] Instance concrete_ledger_info_laws : LedgerInfoLaws.
Proof. by split. Qed.

#[local] Instance concrete_hash_laws : HashLaws.
Proof.
  split; simpl.
  - intros [p1 q1] [p2 q2] H. simpl in H. apply Pos.succ_inj, encode_inj in H.
    by simplify_eq/=.
  - intros vd. lia.
  - intros b1 b2 H. apply encode_inj in H. by simplify_eq/=.
Qed.

Lemma cPowers_Permutation v : Proper ((≡ₚ) ==> (=)) (cPowers v).
Proof. intros l1 l2 H. induction H; simpl; lia. Qed.

Lemma cIndex_spec v a i : cIndex v !! a = Some i ↔ cOrdered v !! i = Some a.
Proof.
  unfold cIndex. rewrite <- elem_of_list_to_map.
  - rewrite list_elem_of_lookup. setoid_rewrite list_lookup_imap.
    split; [intros (j & H); destruct (cOrdered v !! j) eqn:?; naive_solver|].
    intros H. exists i. by rewrite H.
  - rewrite fmap_imap. assert (imap (λ i a, (a, i).1) (cOrdered v) = cOrdered v) as Heq.
    { apply list_eq. intros j. rewrite list_lookup_imap. by destruct (cOrdered v !! j). }
    unfold compose. simpl in *. rewrite Heq. apply NoDup_remove_dups.
Qed.

Lemma omap_pair_fst {B} (f : cAddress → option B) (l : list cAddress) :
  (omap (λ a, pair a <$> f a) l).*1 = filter (λ a, is_Some (f a)) l.
Proof.
  induction l as [|a l IH]; [done|]. simpl. destruct (f a) eqn:E; simpl.
  - rewrite filter_cons_True by eauto. by f_equal.
  - rewrite filter_cons_False; [done|]. rewrite E. intros [? ?]. done.
Qed.

Lemma cAggregate_keys v m s :
  cAggregateSignatures v m = Ok s → s.*1 = filter (λ a, is_Some (m !! a)) (cOrdered v)
  ∧ s.*1 ≡ₚ (map_to_list m).*1.
Proof.
  unfold cAggregateSignatures. case_bool_decide as Hall; [|done]. intros [= <-].
  rewrite omap_pair_fst. split; [done|].
  apply NoDup_Permutation;
    [apply NoDup_filter, NoDup_remove_dups|apply NoDup_fst_map_to_list|].
  intros a. rewrite list_elem_of_filter, list_elem_of_fmap. rewrite Forall_forall in Hall. split.
  - intros [[x Hx] _]. exists (a, x). by rewrite elem_of_map_to_list.
  - intros ([b x] & -> & Hin). split; [exists x; by apply elem_of_map_to_list|].
    apply Hall. by apply list_elem_of_fmap_2.
Qed.

Lemma cSigners_filter v m s :
  cAggregateSignatures v m = Ok s →
  filter (λ a, a ∈ s.*1) (cOrdered v) = filter (λ a, is_Some (m !! a)) (cOrdered v).
Proof.
  intros [-> _]%cAggregate_keys.
  assert (Hsub : ∀ l : list cAddress, (∀ a, a ∈ l → a ∈ cOrdered v) →
    filter (λ a, a ∈ filter (λ a, is_Some (m !! a)) (cOrdered v)) l
    = filter (λ a, is_Some (m !! a)) l); [|by apply Hsub].
  induction l as [|a l IH]; intros Hl; [done|].
  assert (a ∈ cOrdered v) as Ha by (apply Hl; set_solver).
  assert (∀ b, b ∈ l → b ∈ cOrdered v) as Hl' by set_solver.
  destruct (decide (is_Some (m !! a))) as [Hs|Hs].
  - rewrite !filter_cons_True by (rewrite ?list_elem_of_filter; done). by rewrite IH.
  - rewrite !filter_cons_False by (rewrite ?list_elem_of_filter; naive_solver). auto.
Qed.

(** The signatures of an aggregate, read off the messages of its signers. *)
Lemma cAggregate_values v m s msgs :
  cAggregateSignatures v m = Ok s →
  Forall2 (λ a msg, ∃ sig, m !! a = Some sig ∧ cVerify v a msg sig = Ok tt) s.*1 msgs →
  s.*2 = zip_with (λ a m, (a, cDigest m)) s.*1 msgs.
Proof.
  unfold cAggregateSignatures. case_bool_decide; [|done]. intros [= <-].
  generalize (cOrdered v) as l. clear. intros l. revert msgs.
  induction l as [|a l IH]; intros msgs; simpl; [done|].
  destruct (m !! a) as [sig|] eqn:E; simpl; [|apply IH].
  intros (msg & msgs' & (sig' & Hs & Hv) & Hf & ->)%Forall2_cons_inv_l.
  simpl. f_equal; [|by apply IH]. simplify_eq.
  unfold cVerify in Hv. case_bool_decide as H; [|done]. by destruct H.
Qed.

#[local] Instance concrete_aggregate_laws : AggregateLaws.
Proof.
  split.
  - apply cIndex_spec.
  - apply cSigners_filter.
  - intros v m s H. simpl. rewrite (cSigners_filter v m s H).
    apply cAggregate_keys in H as [<- _]. by rewrite length_fmap.
  - intros v m s msgs authors H Hp Hq Hf. simpl in *. rewrite (cSigners_filter v m s H) in Hf.
    destruct (cAggregate_keys v m s H) as [Hk Hp']. rewrite <- Hk in Hf.
    unfold cVerifyAggregate. rewrite (bool_decide_eq_true_2 _ (cAggregate_values v m s msgs H Hf)).
    unfold cCheckPower in *. rewrite (cPowers_Permutation v s.*1 authors) by (by rewrite Hp).
    by rewrite Hq.
Qed.
