(* ===== verification/ConcreteSafety.v ===== *)
(** * A concrete secure storage, and runs of the safety rules on it

    An in-memory instance of [SecureStorage] over the concrete interface of
    [Concrete], with its laws, and the safety-rules theorems applied to concrete
    runs: a validator votes, is asked again, times out and restarts. *)

From S2P Require Import Prelude Gaptos Types Concrete Certificates Blocks SafetyRules SafetySpec.
From S2P Require Import Bft.

#[local] Existing Instances concrete_gaptos concrete_verifier concrete_crypto
  concrete_block_info_laws concrete_ledger_info_laws concrete_hash_laws.

Inductive cJson :=
| JSafetyData (sd : SafetyData)
| JAuthor (a : cAddress)
| JKey (k : cAddress)
| JWaypoint (w : N).

#[local] Instance concrete_storage : SecureStorage := {|
  Storage := gmap string cJson;
  Json := cJson;
  storage_get k st := (ok_or KeyNotSet (st !! k), st);
  storage_set k j st := (Ok tt, <[k := j]> st);
  json_of_safety_data := JSafetyData;
  safety_data_of_json j := match j with JSafetyData sd => Some sd | _ => None end;
  result_safety_data_of_json _ := None;
  json_of_author := JAuthor;
  author_of_json j := match j with JAuthor a => Some a | _ => None end;
  json_of_private_key := JKey;
  private_key_of_json j := match j with JKey k => Some k | _ => None end;
  Waypoint := N;
  wp_version w := w;
  json_of_waypoint := JWaypoint;
  waypoint_of_json j := match j with JWaypoint w => Some w | _ => None end;
  Waypoint_new_epoch_boundary li := Ok (li_version li);
  EpochChangeProof := cLedgerInfo * cAggregate;
  ecp_verify proof _ := Ok proof;
  CONSENSUS_KEY := "consensus";
  OWNER_ACCOUNT := "owner_account";
  SAFETY_DATA := "safety_data";
  WAYPOINT := "waypoint";
  explicit_storage_key _ := "consensus_0";
|}.

#[local] Instance concrete_storage_laws : StorageLaws.
Proof.
  refine {| storage_contents := (λ st, st : gmap string cJson) |}; simpl; try done.
  intros k st j H. by apply ok_or_Ok in H.
Defined.

(** ** A small epoch: four validators, and validator 7 under test *)

Definition validators : ValidatorVerifier := ([(7, 1); (8, 1); (9, 1); (10, 1)] : cVerifier).
Definition epoch1 : cEpochState := (1, validators).

Definition genesis_info : cBlockInfo := (1, 0, 3%positive, 2%positive, 0, 0, None).
Definition genesis_vd : VoteData := {| vd_proposed := genesis_info; vd_parent := genesis_info |}.
Definition genesis_qc : QuorumCert :=
  {| qc_vote_data := genesis_vd;
     qc_signed_ledger_info := ((genesis_info, hash_vote_data genesis_vd), []) |}.

(** A proposal of validator [a] for a round above a certificate. *)
Definition proposal (a : cAddress) (round ts : N) (qc : QuorumCert) (txns : list N) : Block :=
  let bd := BlockData_new_proposal (DirectMempool txns) a [] round ts qc in
  new_proposal_from_block_data_and_signature bd (a, cDigest (SignBlockData bd)).

Definition block1 : Block := proposal 8 1 10 genesis_qc [1].
Definition block1' : Block := proposal 9 1 11 genesis_qc [2].
Definition vote_on (b : Block) : VoteProposal :=
  {| vp_block := b; vp_next_epoch_state := None; vp_decoupled_execution := true |}.

Definition node7 : SafetyRules :=
  {| sr_persistent_storage :=
       {| pss_enable_cached_safety_data := true; pss_cached_safety_data := None;
          pss_internal_store := <["safety_data" := JSafetyData (SafetyData_new 1 0 0 0 None 0)]>
                                (<["owner_account" := JAuthor 7]>
                                (<["consensus" := JKey 7]>
                                (<["waypoint" := JWaypoint 0]> ∅))) |};
     sr_validator_signer := Some (7, 7);
     sr_epoch_state := Some epoch1 |}.

Definition timeout_of (round : N) (qc : QuorumCert) : TwoChainTimeout :=
  {| tmo_epoch := 1; tmo_round := round; tmo_quorum_cert := qc |}.

(** Vote for a block, be asked to vote for a conflicting one, time out, crash. *)
Definition calls7 : list Call :=
  [ConstructAndSignVoteTwoChain (vote_on block1) None 0;
   ConstructAndSignVoteTwoChain (vote_on block1') None 0;
   SignTimeoutWithQC (timeout_of 1 genesis_qc) None;
   Restart true;
   Initialize ((1, 0, 3%positive, 2%positive, 0, 0, Some epoch1, 1%positive), []);
   ConstructAndSignVoteTwoChain (vote_on block1') None 0].

(** The vote the run hands out. *)
Definition vote7 : Vote :=
  default {| vote_vote_data := genesis_vd; vote_author := 0; vote_ledger_info := (genesis_info, 1%positive);
             vote_signature := (0, 1%positive); vote_two_chain_timeout := None |}
    (head (votes_of (exec_all calls7 node7).1)).

(** The vote handed out after the restart. *)
Definition vote7_again : Vote :=
  default vote7 (votes_of (exec_all calls7 node7).1 !! 2%nat).

Definition fresh1 : SafetyData := SafetyData_new 1 0 0 0 None 0.

Lemma node7_holds : holds fresh1 node7.
Proof. split; [reflexivity|]. intros _ d H. discriminate H. Qed.

Lemma safety_rules_refine_witness :
  holds fresh1 node7 ∧ length (votes_of (exec_all calls7 node7).1) = 3%nat ∧
  ∃ sd', holds sd' (exec_all calls7 node7).2 ∧ rules_run fresh1 (exec_all calls7 node7).1 sd' ∧
    sd_le fresh1 sd'.
Proof.
  split; [exact node7_holds|]. split; [vm_compute; reflexivity|].
  apply (safety_rules_refine calls7 fresh1 node7). exact node7_holds.
Defined.

Lemma one_vote_per_round_witness :
  Vote_round vote7 = 1 ∧ vote7 = vote7_again.
Proof.
  split; [vm_compute; reflexivity|].
  apply (one_vote_per_round calls7 fresh1 node7).
  - exact node7_holds.
  - intros lv H. discriminate H.
  - apply list_elem_of_lookup. exists 0%nat. vm_compute. reflexivity.
  - apply list_elem_of_lookup. exists 2%nat. vm_compute. reflexivity.
  - vm_compute. reflexivity.
  - vm_compute. reflexivity.
Defined.

(** An empty store behind a storage that does not cache. *)
Definition uncached : PersistentSafetyStorage :=
  {| pss_enable_cached_safety_data := false; pss_cached_safety_data := None;
     pss_internal_store := (∅ : gmap string cJson) |}.

Lemma safety_data_after_set_witness :
  (set_safety_data fresh1 uncached).1 = Ok tt ∧
  is_ok (safety_data (set_safety_data fresh1 uncached).2).1 = false.
Proof.
  split; [reflexivity|].
  apply (safety_data_after_set fresh1 uncached (set_safety_data fresh1 uncached).2).
  reflexivity.
Defined.

(** ** Three honest validators order two blocks *)

#[local] Instance concrete_power_laws : PowerLaws.
Proof.
  split; [intros v; apply NoDup_remove_dups|done|].
  intros v. simpl. unfold cTotal, cPowers.
  assert (Hin : ∀ a, a ∈ cOrdered v → a ∈ v.*1) by (intros a; apply elem_of_remove_dups).
  induction (cOrdered v) as [|a l IH]; simpl; [done|].
  rewrite bool_decide_eq_true_2 by (apply Hin, elem_of_cons; by left). simpl. f_equal.
  apply IH. intros b Hb. apply Hin, elem_of_cons. by right.
Qed.

Definition honest3 : gset AccountAddress := {[(7 : cAddress); (8 : cAddress); (9 : cAddress)]}.
Definition quorum3 : gset AccountAddress → Prop := power_quorum validators.

(** The node of a validator, entering epoch 1. *)
Definition node_of (a : cAddress) : SafetyRules :=
  {| sr_persistent_storage :=
       {| pss_enable_cached_safety_data := true; pss_cached_safety_data := None;
          pss_internal_store := <["safety_data" := JSafetyData fresh1]>
                                (<["owner_account" := JAuthor a]>
                                (<["consensus" := JKey a]>
                                (<["waypoint" := JWaypoint 0]> ∅))) |};
     sr_validator_signer := Some (a, a);
     sr_epoch_state := Some epoch1 |}.

Definition world0 : world := {| w_node := node_of; w_log := [] |}.

Definition serve (w : world) (ac : cAddress * Call) : world :=
  {| w_node := set_node ac.1 (exec ac.2 (w_node w ac.1)).2 (w_node w);
     w_log := w_log w ++ [(ac.1, output (exec ac.2 (w_node w ac.1)).1)] |}.

(** The certificate of the three validators on a ledger info. *)
Definition certify (li : LedgerInfo) : LedgerInfoWithSignatures :=
  (li, (λ a, (a, (a, cDigest (SignLedgerInfo li)))) <$> [7; 8; 9]).

Definition vote_of (b : Block) : Vote :=
  match exec (ConstructAndSignVoteTwoChain (vote_on b) None 0) (node_of 7) with
  | (Ok (SignedVote v), _) => v
  | _ => vote7
  end.

Definition qc_of (v : Vote) : QuorumCert :=
  {| qc_vote_data := vote_vote_data v; qc_signed_ledger_info := certify (vote_ledger_info v) |}.

Definition qc1 : QuorumCert := qc_of (vote_of block1).
Definition block2 : Block := proposal 9 2 20 qc1 [3].
Definition qc2 : QuorumCert := qc_of (vote_of block2).
Definition order2 : OrderVoteProposal :=
  {| ovp_block := block2; ovp_block_info := certified_block qc2; ovp_quorum_cert := qc2 |}.

Definition vote_calls (b : Block) : list (cAddress * Call) :=
  (λ a, (a, ConstructAndSignVoteTwoChain (vote_on b) None 0)) <$> [7; 8; 9].
Definition order_calls : list (cAddress * Call) :=
  (λ a, (a, ConstructAndSignOrderVote order2)) <$> [7; 8; 9].
Definition schedule : list (cAddress * Call) := vote_calls block1 ++ vote_calls block2 ++ order_calls.
Definition world_at (n : nat) : world := foldl serve world0 (take n schedule).

(** Decidable forms of the side conditions. *)
Definition in_epoch_b (s : SafetyRules) : bool :=
  match sr_epoch_state s with Some es => bool_decide ((es_verifier es : cVerifier) = validators) | None => true end
  && match persisted s with Some sd => sd_epoch sd =? 1 | None => true end.

Lemma in_epoch_check s : in_epoch_b s = true → in_epoch 1 validators s.
Proof.
  unfold in_epoch_b. intros [H1 H2]%andb_true_iff. split.
  - intros es Hes. rewrite Hes in H1. by apply bool_decide_eq_true in H1.
  - intros sd Hsd. rewrite Hsd in H2. by apply N.eqb_eq in H2.
Qed.

Definition signs_b (out : Signed) (li : cLedgerInfo) : bool :=
  match out with
  | SignedVote v => bool_decide ((vote_ledger_info v : cLedgerInfo) = li)
  | SignedOrderVote ov => bool_decide ((ov_ledger_info ov : cLedgerInfo) = li)
  | _ => false
  end.

Definition quorum_b (log : list (cAddress * Signed)) (li : cLedgerInfo) : bool :=
  forallb (λ a, existsb (λ p, (p.1 =? a) && signs_b p.2 li) log) [7; 8; 9].

Lemma honest3_quorum : quorum3 honest3.
Proof.
  split.
  - apply (bool_decide_eq_true_1 (honest3 ⊆ members validators)). vm_compute. reflexivity.
  - apply N.leb_le. vm_compute. reflexivity.
Qed.

Lemma quorum_check log li : quorum_b log li = true → quorum_signed honest3 quorum3 log li.
Proof.
  intros Hb. exists honest3. split; [exact honest3_quorum|]. intros a _ Ha.
  assert (Hin : a ∈ [7; 8; 9]) by (unfold honest3 in Ha; set_solver).
  unfold quorum_b in Hb. rewrite forallb_forall in Hb.
  apply list_elem_of_In in Hin. specialize (Hb a Hin). apply existsb_exists in Hb as ([b out] & Hp & H).
  apply andb_true_iff in H as [Heq%N.eqb_eq Hs]. simpl in Heq, Hs. subst b. exists out.
  split; [by apply list_elem_of_In|].
  destruct out; simpl in *; try done; by apply bool_decide_eq_true in Hs.
Qed.

(** A certificate that does not verify, or whose signers are in the log. *)
Lemma authentic_check log l :
  negb (is_ok (liws_verify_signatures l validators)) || quorum_b log (liws_ledger_info l) = true →
  authentic honest3 quorum3 validators log l.
Proof.
  intros Hb Hv. rewrite Hv in Hb. simpl in Hb. by apply quorum_check.
Qed.

(** One more call of the schedule. *)
Lemma serve_reachable n (a : cAddress) c :
  reachable honest3 quorum3 1 validators (world_at n) → schedule !! n = Some (a, c) →
  bool_decide ((a : AccountAddress) ∈ honest3) = true →
  call_ok honest3 quorum3 1 validators (w_log (world_at n)) c →
  in_epoch_b (exec c (w_node (world_at n) a)).2 = true →
  reachable honest3 quorum3 1 validators (world_at (S n)).
Proof.
  intros Hr Hn Ha%bool_decide_eq_true Hc He%in_epoch_check. eapply reach_step; [exact Hr|].
  assert (Hs : world_at (S n) = serve (world_at n) (a, c)).
  { unfold world_at. by rewrite (take_S_r _ _ _ Hn), foldl_snoc. }
  rewrite Hs. exact (ws_call honest3 quorum3 1 validators (world_at n) a c Ha Hc He).
Qed.

(** The two kinds of calls of the schedule are served under their conditions. *)
Lemma vote_call_ok log b :
  negb (is_ok (liws_verify_signatures (qc_signed_ledger_info (Block_quorum_cert b)) validators))
    || quorum_b log (liws_ledger_info (qc_signed_ledger_info (Block_quorum_cert b))) = true →
  block_id b = hash_block_data (block_block_data b) →
  call_ok honest3 quorum3 1 validators log (ConstructAndSignVoteTwoChain (vote_on b) None 0).
Proof. intros Hq Hid. split; [by apply authentic_check|]. split; [done|exact Hid]. Qed.

Lemma order_call_ok log :
  negb (is_ok (liws_verify_signatures (qc_signed_ledger_info qc2) validators))
    || quorum_b log (liws_ledger_info (qc_signed_ledger_info qc2)) = true →
  block_id block2 = hash_block_data (block_block_data block2) →
  call_ok honest3 quorum3 1 validators log (ConstructAndSignOrderVote order2).
Proof. intros Hq Hid. split; [by apply authentic_check|exact Hid]. Qed.

Lemma schedule_reachable : reachable honest3 quorum3 1 validators (world_at 9).
Proof.
  assert (H : reachable honest3 quorum3 1 validators (world_at 0)).
  { apply reach_initial. split; [reflexivity|]. intros a _. split.
    - split; [reflexivity|]. intros _ d H. discriminate H.
    - apply in_epoch_check. reflexivity. }
  do 3 (eapply serve_reachable in H;
    [|reflexivity|vm_compute; reflexivity|apply (vote_call_ok _ block1); vm_compute; reflexivity
     |vm_compute; reflexivity]).
  do 3 (eapply serve_reachable in H;
    [|reflexivity|vm_compute; reflexivity|apply (vote_call_ok _ block2); vm_compute; reflexivity
     |vm_compute; reflexivity]).
  do 3 (eapply serve_reachable in H;
    [|reflexivity|vm_compute; reflexivity|apply order_call_ok; vm_compute; reflexivity
     |vm_compute; reflexivity]).
  exact H.
Qed.

(** The 2-chain certificate on the first block and the order certificate on the
    second. *)
Definition commit1 : LedgerInfoWithSignatures := certify (vote_ledger_info (vote_of block2)).
Definition ordered2 : LedgerInfoWithSignatures :=
  certify (LedgerInfo_new (certified_block qc2) HashValue_zero).

Lemma agreement_witness :
  bi_id (li_commit_info (liws_ledger_info commit1)) = block_id block1 ∧
  bi_id (li_commit_info (liws_ledger_info ordered2)) = block_id block2 ∧
  ∃ c1 c2, same_block c1 (li_commit_info (liws_ledger_info commit1)) ∧
    same_block c2 (li_commit_info (liws_ledger_info ordered2)) ∧
    (extends honest3 quorum3 (w_log (world_at 9)) c1 c2 ∨
     extends honest3 quorum3 (w_log (world_at 9)) c2 c1).
Proof.
  split; [vm_compute; reflexivity|]. split; [vm_compute; reflexivity|].
  apply (agreement honest3 1 validators (world_at 9) commit1 ordered2).
  - vm_compute. reflexivity.
  - exact schedule_reachable.
  - vm_compute. reflexivity.
  - apply authentic_check. vm_compute. reflexivity.
  - vm_compute. reflexivity.
  - apply authentic_check. vm_compute. reflexivity.
  - vm_compute. reflexivity.
  - vm_compute. reflexivity.
Defined.
