(* ===== verification/ConcreteConsensus.v ===== *)
(** * Concrete runs of the consensus components

    Certificates, payloads, proposals, the block tree, the vote collection and
    the round state on the validator set of [ConcreteSafety]: the theorems of
    these components applied to concrete inputs. *)

From S2P Require Import Prelude Gaptos Types Concrete Certificates Payloads Blocks SafetyRules.
From S2P Require Import SafetySpec Bft ConcreteSafety BlockTree PendingVotes RoundState.

#[local] Existing Instances concrete_gaptos concrete_verifier concrete_crypto concrete_storage
  concrete_block_info_laws concrete_ledger_info_laws concrete_hash_laws concrete_aggregate_laws.

(** ** Collected signatures *)

#[local] Instance concrete_partial : PartialLedgerInfo := {|
  LedgerInfoWithVerifiedSignatures := cLedgerInfo * gmap cAddress cSignature;
  livs_new li := (li, ∅);
  livs_ledger_info := fst;
  livs_signatures := snd;
  livs_add_signature a s l := (l.1, <[a := s]> l.2);
  livs_aggregate_signatures l v := sig ← cAggregateSignatures v l.2; Ok (l.1, sig);
|}.

Lemma cVerify_Ok v a m s : cVerify v a m s = Ok tt → a ∈ v.*1 ∧ s = (a, cDigest m).
Proof. unfold cVerify. case_bool_decide; [done|]. intros H'. discriminate H'. Qed.

(** An aggregate of valid signatures on one message verifies. *)
Lemma cAggregate_verify v (m : gmap cAddress cSignature) s msg :
  cAggregateSignatures v m = Ok s → is_ok (cCheckPower v (map_to_list m).*1 true) = true →
  map_Forall (λ a x, cVerify v a msg x = Ok tt) m →
  cVerifyAggregate v (replicate (length s) msg) s = Ok tt.
Proof.
  intros Hs Hp Hall. unfold cVerifyAggregate.
  destruct (cAggregate_keys v m s Hs) as [Hk Hperm].
  rewrite bool_decide_eq_true_2.
  - unfold cCheckPower in *. rewrite (cPowers_Permutation v _ _ Hperm), Hp. done.
  - apply (cAggregate_values v m s _ Hs). rewrite <- (length_fmap fst s).
    apply Forall2_replicate_r; [done|]. apply Forall_forall. intros a Ha. rewrite Hk in Ha.
    apply list_elem_of_filter in Ha as [[x Hx] _]. exists x. split; [done|by apply (Hall a x)].
Qed.

#[local] Instance concrete_pending_laws : PendingLaws.
Proof.
  split; simpl; try done.
  - intros l v x H. run_inv. done.
  - intros l v x H Hp Hall. run_inv. by eapply cAggregate_verify.
  - intros v a m s [H _]%cVerify_Ok. by apply elem_of_remove_dups.
  - intros l1 l2 H. by apply encode_inj in H.
  - intros v l p. unfold cCheckPower. destruct (N.leb_spec (cQuorum v) (cPowers v l)); [|done].
    by intros [= <-].
  - intros v l1 l2 H. unfold cCheckPower. by rewrite (cPowers_Permutation v _ _ H).
  - intros l v _ Hall. unfold cAggregateSignatures. rewrite bool_decide_eq_true_2; [done|].
    apply Forall_forall. intros a ([b x] & -> & Hx%elem_of_map_to_list)%list_elem_of_fmap.
    apply elem_of_remove_dups. by destruct (cVerify_Ok _ _ _ _ (Hall _ _ Hx)).
Qed.

(** The votes of a validator for a block, with and without a timeout. *)
Definition vote_by (a : cAddress) (b : Block) : Vote :=
  match exec (ConstructAndSignVoteTwoChain (vote_on b) None 0) (node_of a) with
  | (Ok (SignedVote v), _) => v
  | _ => vote7
  end.

Definition timeout_by (a : cAddress) : AccountAddress * TwoChainTimeout * Signature :=
  ((a : AccountAddress), timeout_of 1 genesis_qc, ((a, cDigest (SignTimeout (signing_format (timeout_of 1 genesis_qc)))) : Signature)).

Definition timeout_vote_by (a : cAddress) (b : Block) : Vote :=
  add_2chain_timeout (vote_by a b) (timeout_by a).1.2 (timeout_by a).2.

(** Validator 10 votes for another block of round 1. *)
Definition votes1 : list Vote :=
  [vote_by 10 block1'; timeout_vote_by 7 block1; vote_by 8 block1].

Definition checked_b (v : Vote) : bool :=
  match Vote_verify v validators with Ok _ => true | _ => false end
  && (Vote_epoch v =? 1) && (Vote_round v =? 1).

Lemma checked_votes l : forallb checked_b l = true → Forall (vote_checked validators 1 1) l.
Proof.
  rewrite forallb_forall. intros Hl. apply Forall_forall. intros v Hv%list_elem_of_In.
  apply Hl in Hv. unfold checked_b in Hv. apply andb_true_iff in Hv as [[Hv He]%andb_true_iff Hr].
  split; [|by rewrite <- N.eqb_eq, <- N.eqb_eq].
  by destruct (Vote_verify v validators) as [[]| |].
Qed.

Lemma insert_votes_certificates_witness :
  length (insert_votes (votes1 ++ [vote_by 9 block1]) validators PendingVotes_new).1 = 4%nat ∧
  Forall (result_sound validators 1 1)
    (insert_votes (votes1 ++ [vote_by 9 block1]) validators PendingVotes_new).1.
Proof.
  split; [vm_compute; reflexivity|].
  apply (insert_votes_certificates validators 1 1 (votes1 ++ [vote_by 9 block1]) _
    (insert_votes (votes1 ++ [vote_by 9 block1]) validators PendingVotes_new).2).
  - apply checked_votes. vm_compute. reflexivity.
  - apply surjective_pairing.
Defined.

Lemma insert_votes_quorum_witness :
  ∃ rs st qc, insert_votes (votes1 ++ [vote_by 9 block1]) validators PendingVotes_new
    = (rs ++ [Ok (NewQuorumCertificate qc)], st) ∧
    qc_vote_data qc = vote_vote_data (vote_by 9 block1).
Proof.
  apply (insert_votes_quorum validators 1 1 votes1 (vote_by 9 block1)).
  - apply checked_votes. vm_compute. reflexivity.
  - apply (bool_decide_eq_true_1 (NoDup (vote_author <$> votes1 ++ [vote_by 9 block1]))).
    vm_compute. reflexivity.
  - vm_compute. reflexivity.
Defined.

Definition pending1 : PendingVotes :=
  (insert_votes (votes1 ++ [vote_by 9 block1]) validators PendingVotes_new).2.
Definition digest1 : HashValue := li_hash (vote_ledger_info (vote_by 7 block1)).
Definition entry1 : nat * LedgerInfoWithVerifiedSignatures :=
  default (0%nat, livs_new (vote_ledger_info vote7)) (pv_li_digest_to_votes pending1 !! digest1).

Lemma insert_votes_count_once_witness :
  livs_signers entry1.2 ≠ [] ∧ digest1 = li_hash (livs_ledger_info entry1.2).
Proof.
  split; [vm_compute; discriminate|].
  apply (insert_votes_count_once validators 1 1 (votes1 ++ [vote_by 9 block1])
    (insert_votes (votes1 ++ [vote_by 9 block1]) validators PendingVotes_new).1
    pending1 (7 : cAddress) _ _ entry1.1 entry1.1 entry1.2 entry1.2).
  - apply checked_votes. vm_compute. reflexivity.
  - apply surjective_pairing.
  - vm_compute. reflexivity.
  - apply (bool_decide_eq_true_1 (_ ∈ _)). vm_compute. reflexivity.
  - vm_compute. reflexivity.
  - apply (bool_decide_eq_true_1 (_ ∈ _)). vm_compute. reflexivity.
Defined.

Definition echo_votes : list Vote :=
  [timeout_vote_by 7 block1; timeout_vote_by 8 block1'; timeout_vote_by 8 block1'].

Lemma insert_votes_echo_once_witness :
  echoes (insert_votes echo_votes validators PendingVotes_new).1 ≠ [] ∧
  (echoes (insert_votes echo_votes validators PendingVotes_new).1 = [] ∨
   ∃ p f, echoes (insert_votes echo_votes validators PendingVotes_new).1 = [p] ∧
     f_plus_one validators = Ok f ∧ f ≤ p).
Proof.
  split; [vm_compute; discriminate|].
  apply (insert_votes_echo_once validators echo_votes _
    (insert_votes echo_votes validators PendingVotes_new).2).
  apply surjective_pairing.
Defined.

Definition order_vote_by (a : cAddress) : OrderVote :=
  let li := LedgerInfo_new (certified_block qc2) HashValue_zero in
  {| ov_author := a; ov_ledger_info := li; ov_signature := (a, cDigest (SignLedgerInfo li)) |}.

Lemma insert_order_votes_certificates_witness :
  liws_verify_signatures ordered2 validators = Ok tt ∧
  li_consensus_data_hash (liws_ledger_info ordered2) = HashValue_zero ∧
  has_enough_order_votes (liws_ledger_info ordered2)
    (insert_order_votes (order_vote_by <$> [7; 8; 9]) validators PendingOrderVotes_new).2 = true.
Proof.
  apply (insert_order_votes_certificates validators (order_vote_by <$> [7; 8; 9])
    (insert_order_votes (order_vote_by <$> [7; 8; 9]) validators PendingOrderVotes_new).1).
  - apply Forall_forall. intros ov (a & -> & Ha)%list_elem_of_fmap.
    repeat (apply elem_of_cons in Ha as [->|Ha]; [vm_compute; reflexivity|]).
    by apply not_elem_of_nil in Ha.
  - apply surjective_pairing.
  - apply list_elem_of_lookup. exists 2%nat. vm_compute. reflexivity.
Defined.

(** ** Timeouts *)

Lemma timeouts_checked : Forall (timeout_checked validators 1 1) (timeout_by <$> [7; 8; 9]).
Proof.
  apply Forall_forall. intros x (a & -> & Ha)%list_elem_of_fmap.
  repeat (apply elem_of_cons in Ha as [->|Ha];
    [split; [apply (bool_decide_eq_true_1 (_ ∈ _)); vm_compute; reflexivity|];
     repeat split; vm_compute; reflexivity|]).
  by apply not_elem_of_nil in Ha.
Qed.

Definition timeouts3 : TwoChainTimeoutWithPartialSignatures :=
  collect_timeouts (timeout_by 7) (timeout_by <$> [8; 9]).
Lemma concrete_aggregates (v : ValidatorVerifier) (m : gmap Author Signature) :
  m ≠ ∅ → map_Forall (λ a s, ∃ msg, vv_verify v a msg s = Ok tt) m → is_ok (vv_aggregate_signatures v m) = true.
Proof.
  intros _ Hm. simpl. unfold cAggregateSignatures. rewrite bool_decide_eq_true_2; [done|]. apply Forall_forall.
  intros a ([a' s] & -> & Ha%elem_of_map_to_list)%list_elem_of_fmap. destruct (Hm _ _ Ha) as [msg Hv].
  simpl in Hv. unfold cVerify in Hv. case_bool_decide as Hd; [|done]. destruct Hd as [Hd _].
  unfold cOrdered. by apply elem_of_remove_dups.
Qed.

Lemma collected_timeouts_aggregate_verify_witness :
  ∃ tc, TwoChainTimeoutWithPartialSignatures_aggregate_signatures timeouts3 validators = Ok tc ∧
    TwoChainTimeoutCertificate_verify tc validators = Ok tt ∧ tc_epoch tc = 1 ∧ tc_round tc = 1 ∧
    ∀ x, x ∈ timeout_by 7 :: (timeout_by <$> [8; 9]) → hqc_round x.1.2 ≤ highest_hqc_round tc.
Proof.
  apply (collected_timeouts_aggregate_verify concrete_aggregates (timeout_by 7) (timeout_by <$> [8; 9]) validators 1 1).
  - apply (bool_decide_eq_true_1 (NoDup (A := cAddress) _)). vm_compute. reflexivity.
  - exact timeouts_checked.
  - vm_compute. reflexivity.
Defined.

(** ** Payloads and proposals *)

Definition batch1 : BatchInfo :=
  {| bin_author := (7 : cAddress); bin_batch_id := {| bid_id := 1; bid_nonce := 0 |}; bin_epoch := 1;
     bin_expiration := 100; bin_digest := (9%positive : cHash); bin_num_txns := 2;
     bin_num_bytes := 10; bin_gas_bucket_start := 0 |}.
Definition proof1 : ProofOfStore :=
  {| pos_info := batch1;
     pos_multi_signature := ((λ a, (a, (a, 9%positive))) <$> [7; 8; 9] : cAggregate) |}.
Definition payload1 : Payload := InQuorumStore {| pwd_proofs := [proof1] |}.
Definition cache1 : ProofCache := [(pos_info proof1, pos_multi_signature proof1)].

Lemma Payload_verify_cache_transparent_witness :
  (Payload_verify payload1 validators true cache1).1 = Ok tt ∧
  cache_sound validators (Payload_verify payload1 validators true cache1).2 ∧
  ((Payload_verify payload1 validators true cache1).1 = Ok tt ↔
   (Payload_verify payload1 validators true []).1 = Ok tt) ∧
  ((Payload_verify payload1 validators true cache1).1 = Ok tt →
   Forall (proof_valid validators) (payload_proofs payload1)).
Proof.
  split; [vm_compute; reflexivity|].
  apply (Payload_verify_cache_transparent payload1 validators true cache1).
  intros b s [= -> ->]%list_elem_of_singleton. vm_compute. reflexivity.
Defined.

Definition proposal_msg2 : ProposalMsg :=
  {| pm_proposal := block2;
     pm_sync_info := {| si_highest_quorum_cert := qc1; si_highest_ordered_cert := None;
                        si_highest_commit_cert := into_wrapped_ledger_info genesis_qc;
                        si_highest_2chain_timeout_cert := None |} |}.

Lemma ProposalMsg_verify_sound_witness :
  QuorumCert_verify (Block_quorum_cert block2) validators = Ok tt.
Proof.
  refine (proj1 (ProposalMsg_verify_sound proposal_msg2 validators false 1000 [] [] _)).
  vm_compute. reflexivity.
Defined.

Lemma Block_new_nil_well_formed_witness :
  Block_verify_well_formed (Block_new_nil 3 qc1 [(2, (8 : cAddress)); (3, (9 : cAddress))]) 0 = Ok tt ↔
  increasing_within 1 4 [2; 3].
Proof.
  apply (Block_new_nil_well_formed 3 qc1 [(2, (8 : cAddress)); (3, (9 : cAddress))] 0).
  - vm_compute. reflexivity.
  - vm_compute. reflexivity.
  - vm_compute. reflexivity.
Defined.

(** ** A block tree: a root, two blocks on it, and one more on the first *)

Definition root_qc : QuorumCert :=
  {| qc_vote_data := VoteData_dummy; qc_signed_ledger_info := qc_signed_ledger_info genesis_qc |}.
Definition root : Block :=
  {| block_id := (3%positive : cHash);
     block_block_data := BlockData_new_nil 0 root_qc [];
     block_signature := None; block_block_number := None |}.

Definition new_tree : result Anyhow BlockTree :=
  BlockTree_new root genesis_qc (into_wrapped_ledger_info genesis_qc)
    (into_wrapped_ledger_info genesis_qc) 1 None.
Definition tree0 : BlockTree :=
  match new_tree with
  | Ok t => t
  | _ => {| bt_id_to_block := ∅; bt_ordered_root_id := block_id root;
            bt_commit_root_id := block_id root; bt_highest_certified_block_id := block_id root;
            bt_head_block_id := block_id root; bt_safe_block_id := block_id root;
            bt_finalized_block_id := block_id root; bt_highest_quorum_cert := genesis_qc;
            bt_highest_2chain_timeout_cert := None;
            bt_highest_ordered_cert := into_wrapped_ledger_info genesis_qc;
            bt_highest_commit_cert := into_wrapped_ledger_info genesis_qc;
            bt_id_to_quorum_cert := ∅; bt_pruned_block_ids := [];
            bt_max_pruned_blocks_in_mem := 1 |}
  end.
Definition tree1 : BlockTree := (insert_block true block1 tree0).2.
Definition tree2 : BlockTree := (insert_block true block1' tree1).2.
Definition tree3 : BlockTree := (insert_block true block2 tree2).2.

(** Decidable forms of the conditions of an insertion. *)
Definition fits_b (m : gmap HashValue LinkableBlock) (b : Block) : bool :=
  match m !! Block_parent_id b with Some lp => lb_round lp <? Block_round b | None => true end
  && forallb (λ p : HashValue * LinkableBlock,
        negb (bool_decide (lb_parent p.2 = block_id b)))
       (map_to_list m)
  && negb (bool_decide (Block_parent_id b = block_id b)).

Lemma fits_check m b :
  fits_b m b = true → fits m b ∧ before_children m b ∧ Block_parent_id b ≠ block_id b.
Proof.
  unfold fits_b. intros [[H1 H2]%andb_true_iff H3]%andb_true_iff.
  assert (Hno : ∀ c lc, m !! c = Some lc → lb_parent lc ≠ block_id b).
  { intros c lc Hc Hp. rewrite forallb_forall in H2.
    assert (Hin : In (c, lc) (map_to_list m)) by (by apply list_elem_of_In, elem_of_map_to_list).
    specialize (H2 _ Hin). simpl in H2. by rewrite bool_decide_eq_true_2 in H2. }
  split; [split|split].
  - intros lp Hlp. rewrite Hlp in H1. by apply N.ltb_lt.
  - intros c lc Hc Hp. by destruct (Hno c lc Hc).
  - intros _. exact Hno.
  - apply negb_true_iff, bool_decide_eq_false in H3. done.
Qed.

Lemma insert_run t b : tree_run t → fits_b (bt_id_to_block t) b = true → tree_run (insert_block true b t).2.
Proof.
  intros Ht (Hf & Hb & Hs)%fits_check.
  eapply (run_insert true t b (insert_block true b t).1); [done..|apply surjective_pairing].
Qed.

Lemma insert_ok t b : tree_ok t → fits_b (bt_id_to_block t) b = true → tree_ok (insert_block true b t).2.
Proof.
  intros Ht (Hf & _ & Hs)%fits_check.
  eapply (insert_block_ok true t b (insert_block true b t).1); [done..|apply surjective_pairing].
Qed.

Lemma new_tree_ok : new_tree = Ok tree0.
Proof.
  assert (H : is_ok new_tree = true) by (vm_compute; reflexivity).
  unfold tree0. by destruct new_tree.
Qed.

(** A child of a block descends from it. *)
Lemma desc_check (m : gmap HashValue LinkableBlock) a c :
  match m !! a with Some lp => bool_decide (c ∈ lb_children lp) | None => false end = true →
  desc m a c.
Proof.
  destruct (m !! a) as [lp|] eqn:Ha; [|done]. intros Hc%bool_decide_eq_true.
  by eapply desc_child; [constructor| |].
Qed.

Lemma root_conditions :
  bi_round (WrappedLedgerInfo_commit_info (into_wrapped_ledger_info genesis_qc)) ≤ Block_round root ∧
  Block_parent_id root ≠ block_id root.
Proof.
  split; [apply N.leb_le; vm_compute; reflexivity|].
  apply (bool_decide_eq_true_1 (_ ≠ _)). vm_compute. reflexivity.
Qed.

Lemma tree0_run : tree_run tree0.
Proof. destruct root_conditions. by eapply run_new; [exact new_tree_ok| |]. Qed.

Lemma tree3_ok : tree_ok tree3.
Proof.
  do 3 (apply insert_ok; [|vm_compute; reflexivity]).
  destruct root_conditions. by eapply BlockTree_new_ok; [exact new_tree_ok| |].
Qed.

(** The commit of the first block. *)
Definition finality1 : WrappedLedgerInfo := WrappedLedgerInfo_new VoteData_dummy commit1.

Lemma commit1_info p :
  WrappedLedgerInfo_create_merged_with_executed_state finality1 commit1 = Ok p →
  bi_id (WrappedLedgerInfo_commit_info p) = block_id block1 ∧
  bi_round (WrappedLedgerInfo_commit_info p) = Block_round block1.
Proof. intros ->%create_merged_commit_info. split; vm_compute; reflexivity. Qed.

Lemma tree_run_ok_witness :
  tree_ok (commit_callback [block1] finality1 commit1 tree3).2 ∧
  parents_linked (bt_id_to_block (commit_callback [block1] finality1 commit1 tree3).2).
Proof.
  apply tree_run_ok.
  eapply (run_commit tree3 [block1] finality1 commit1 block1
    (commit_callback [block1] finality1 commit1 tree3).1).
  - do 3 (apply insert_run; [|vm_compute; reflexivity]). exact tree0_run.
  - reflexivity.
  - vm_compute. reflexivity.
  - apply desc_check. vm_compute. reflexivity.
  - exact commit1_info.
  - apply surjective_pairing.
Defined.

(** The entries of the tree, by id. *)
Definition entry_of (b : Block) : LinkableBlock :=
  default (LinkableBlock_new b) (bt_id_to_block tree3 !! block_id b).

Lemma entry_check b :
  bool_decide (is_Some (bt_id_to_block tree3 !! block_id b)) = true →
  bt_id_to_block tree3 !! block_id b = Some (entry_of b).
Proof. unfold entry_of. by destruct (_ !! _). Qed.

Lemma root_entry : bt_id_to_block tree3 !! bt_commit_root_id tree3 = Some (entry_of root).
Proof.
  assert (bt_commit_root_id tree3 = block_id root) as -> by (vm_compute; reflexivity).
  apply entry_check. vm_compute. reflexivity.
Qed.

Lemma find_blocks_to_prune_exact_witness :
  ∃ L, find_blocks_to_prune tree3 (block_id block1) = Ok L ∧ NoDup L.*2 ∧
    (∀ id, id ∈ L.*2 ↔
       reach (bt_id_to_block tree3) (bt_commit_root_id tree3) (block_id block1) id) ∧
    (∀ id, desc (bt_id_to_block tree3) (block_id block1) id → id ∉ L.*2).
Proof.
  apply (find_blocks_to_prune_exact tree3 (block_id block1) (entry_of root) (entry_of block1)).
  - exact tree3_ok.
  - exact root_entry.
  - apply entry_check. vm_compute. reflexivity.
  - vm_compute. reflexivity.
Defined.

Lemma commit1_merged :
  WrappedLedgerInfo_create_merged_with_executed_state finality1 commit1 = Ok finality1.
Proof.
  unfold WrappedLedgerInfo_create_merged_with_executed_state.
  assert (bi_match_ordered_only (WrappedLedgerInfo_commit_info finality1)
    (li_commit_info (liws_ledger_info commit1)) = true) as -> by (vm_compute; reflexivity).
  reflexivity.
Qed.

Lemma commit_callback_advances_witness :
  ∃ t', commit_callback [block1] finality1 commit1 tree3 = (Ok tt, t') ∧
    commit_root t' = Ok block1 ∧ path_from_commit_root t' (block_id block1) = Ok (Some []) ∧
    (length (bt_pruned_block_ids t') ≤ bt_max_pruned_blocks_in_mem t')%nat ∧
    (∀ id lb, desc (bt_id_to_block tree3) (block_id block1) id →
       bt_id_to_block tree3 !! id = Some lb → bt_id_to_block t' !! id = Some lb).
Proof.
  apply (commit_callback_advances tree3 [block1] finality1 commit1 block1 (entry_of root) finality1).
  - exact tree3_ok.
  - unfold linkable_root, get_linkable_block. rewrite root_entry. reflexivity.
  - reflexivity.
  - vm_compute. reflexivity.
  - apply desc_check. vm_compute. reflexivity.
  - vm_compute. reflexivity.
  - exact commit1_merged.
  - apply commit1_info. exact commit1_merged.
  - apply commit1_info. exact commit1_merged.
Defined.

Lemma path_from_commit_root_exact_witness :
  ∃ r, path_from_commit_root tree3 (block_id block2) = Ok r ∧
    ∀ path, r = Some path ↔
      ancestry (bt_id_to_block tree3) (bt_commit_root_id tree3) (block_id block2) path.
Proof. apply (path_from_commit_root_exact tree3 (block_id block2)). exact tree3_ok. Defined.

(** A third block, on the second. *)
Definition block3 : Block := proposal 7 3 30 qc2 [4].

Lemma insert_block_keeps_tree_witness :
  ∃ t', insert_block true block3 tree3 = (Ok block3, t') ∧ tree_ok t' ∧
    get_block t' (block_id block3) = Some block3 ∧
    ∀ id, id ≠ block_id block3 → get_block t' id = get_block tree3 id.
Proof.
  apply (insert_block_keeps_tree true tree3 block3).
  - exact tree3_ok.
  - apply fits_check. vm_compute. reflexivity.
  - vm_compute. reflexivity.
  - left. vm_compute. reflexivity.
Defined.

Lemma insert_block_error_moves_head_witness :
  ∃ t', insert_block true block3 tree1 = (Err (Msg "Parent block not found"), t') ∧
    bt_head_block_id t' = block_id block3 ∧ get_block t' (bt_head_block_id t') = None.
Proof.
  apply (insert_block_error_moves_head true tree1 block3).
  - vm_compute. reflexivity.
  - vm_compute. reflexivity.
  - vm_compute. reflexivity.
  - apply (bool_decide_eq_true_1 (_ ≠ _)). vm_compute. reflexivity.
Defined.

Lemma insert_quorum_cert_highest_witness :
  ∃ t' hb', insert_quorum_cert qc1 tree3 = (Ok tt, t') ∧
    highest_certified_block t' = Ok hb' ∧ Block_round hb' = N.max (Block_round root) (Block_round block1) ∧
    bi_round (WrappedLedgerInfo_commit_info (bt_highest_ordered_cert t'))
    = N.max (bi_round (WrappedLedgerInfo_commit_info (bt_highest_ordered_cert tree3)))
        (bi_round (QuorumCert_commit_info qc1)) ∧
    bt_id_to_quorum_cert t' !! bi_id (certified_block qc1)
    = Some (default qc1 (bt_id_to_quorum_cert tree3 !! bi_id (certified_block qc1))).
Proof.
  apply (insert_quorum_cert_highest tree3 qc1 block1 root).
  - exact tree3_ok.
  - vm_compute. reflexivity.
  - vm_compute. reflexivity.
Defined.

(** ** The round state of a validator *)

Definition sync (qc : QuorumCert) (tc : option TwoChainTimeoutCertificate) : SyncInfo :=
  {| si_highest_quorum_cert := qc; si_highest_ordered_cert := None;
     si_highest_commit_cert := into_wrapped_ledger_info genesis_qc;
     si_highest_2chain_timeout_cert := tc |}.

Definition interval (i : N) : N := 1000 * (i + 1).
Definition bounded_interval (i : N) : N := 1000 * N.min (i + 1) 6.

(** Genesis, a vote of round 1, a stale vote, the certificate of round 1. *)
Definition inputs1 : list RoundInput :=
  [InCertificates 5 (sync genesis_qc None); InVote (vote_by 8 block1) validators;
   InRecordVote (vote_by 7 block1); InLocalTimeout 2010 1;
   InCertificates 3000 (sync qc1 None); InVote (vote_by 9 block1) validators;
   InCertificates 3001 (sync genesis_qc None)].

Definition rounds1 : list NewRoundEvent * result Anyhow RoundState :=
  round_run inputs1 (RoundState_new interval true).

Lemma new_round_events_increasing_witness :
  (nre_round <$> rounds1.1) = [1; 2] ∧
  StronglySorted N.lt (0 :: (nre_round <$> rounds1.1)) ∧
  Forall (λ e, ∃ now si, InCertificates now si ∈ inputs1 ∧ nre_round e = highest_round si + 1)
    rounds1.1.
Proof.
  split; [vm_compute; reflexivity|].
  apply (new_round_events_increasing inputs1 (RoundState_new interval true) rounds1.1 rounds1.2).
  apply surjective_pairing.
Defined.

Definition state1 : RoundState :=
  match rounds1.2 with Ok rs => rs | _ => RoundState_new interval true end.

Lemma round_run_votes_current_witness :
  votes_current state1 ∧ rs_current_round state1 = default 0 (nre_round <$> last rounds1.1).
Proof.
  apply (round_run_votes_current inputs1 interval rounds1.1 state1).
  assert (H : is_ok rounds1.2 = true) by (vm_compute; reflexivity).
  unfold state1. fold rounds1. destruct rounds1 as [es [rs| |]]; [reflexivity|discriminate H..].
Defined.

(** The round and the timeout of the event, if there is one. *)
Definition event_of (r : result Anyhow (option NewRoundEvent) * RoundState) : option (N * N) :=
  match r.1 with Ok (Some e) => Some (nre_round e, nre_timeout e) | _ => None end.

Lemma process_certificates_spec_witness :
  event_of (process_certificates 50 (sync qc1 None) (RoundState_new bounded_interval true))
  = Some (2, 4000).
Proof.
  refine (eq_trans (f_equal event_of (process_certificates_spec 50 (sync qc1 None)
    (RoundState_new bounded_interval true) _ _ _ _)) _).
  - vm_compute. reflexivity.
  - apply N.leb_le. vm_compute. reflexivity.
  - apply N.leb_le. vm_compute. reflexivity.
  - intros i. simpl. unfold bounded_interval, duration_max, from_secs_max, u64_max. lia.
  - vm_compute. reflexivity.
Defined.
