(* ===== verification/ConcreteBuffer.v ===== *)
(** * Concrete runs of the two buffers

    A small instance of [ApiTypes], and the theorems on the pipeline buffer and
    on the block buffer manager applied to concrete runs. *)

From S2P Require Import Prelude Gaptos Types Concrete Buffer BlockBufferManager.

#[local] Existing Instance concrete_gaptos.

(** ** The pipeline buffer *)

Definition key_of (n : N) : HashValue := (N.succ_pos n : cHash).

Definition ops1 : list (BufferOp (T := N)) :=
  [OpPush 1; OpPush 2; OpPush 3; OpFind (Some (key_of 1)) (λ n, 1 <? n); OpLen;
   OpFindKey (Some (key_of 2)) (key_of 1); OpFindKey (Some (key_of 2)) (key_of 3);
   OpTake (Some (key_of 3)); OpPop; OpNext (Some (key_of 2)); OpSet (Some (key_of 3)) 4;
   OpPop; OpGet (Some (key_of 3)); OpPop; OpPop; OpGet (Some (key_of 1))].

Lemma buffer_refines_queue_witness :
  (run_ops (queue_exec key_of) ops1 []).2 = true ∧
  run_ops (buffer_exec key_of) ops1 Buffer_new = run_ops (queue_exec key_of) ops1 [].
Proof.
  split; [vm_compute; reflexivity|].
  apply (buffer_refines_queue key_of ops1).
  repeat split; try (apply (bool_decide_eq_true_1 (_ ∉ _)); vm_compute; reflexivity).
Defined.

(** ** The block buffer manager *)

(** Id, number, epoch, time and number of transactions. *)
Definition cBlock : Type := N * N * N * N * N.

#[local] Instance concrete_api : ApiTypes := {|
  BlockId := N;
  Bytes32 := positive;
  HashValue_of_bytes b := b;
  HashValue_to_bytes h := h;
  block_id_bytes n := N.succ_pos n;
  ExternalBlock := cBlock;
  eb_block_id b := b.1.1.1.1;
  eb_block_number b := b.1.1.1.2;
  eb_epoch b := b.1.1.2;
  eb_usecs b := b.1.2;
  eb_num_txns b := b.2;
  VerifiedTxnWithAccountSeqNum := N;
  Transaction := N;
  TxnStatus := bool;
  is_discarded b := b;
  BlockEndInfo := unit;
  EventBytes := cVerifier;
  OtherEvent := unit;
  ApiValidatorSet := cVerifier;
  validator_set_from_bytes b := Ok b;
  ValidatorSet := cVerifier;
  convert_validator_set v := Ok v;
  EpochState_new e v := (e, v);
|}.

Definition bid (n : N) : BlockId := n.
Definition b32 (p : positive) : Bytes32 := p.

(** Block [n] of epoch 1. *)
Definition blk (n : N) : ExternalBlock := ((100 + n, n, 1, 1000 + n, 0) : cBlock).

Definition started : Manager :=
  manager_step (MInitEpoch 1) (init 0 ∅ 1 (Manager_new 256)).2.
Definition ordered3 : Manager :=
  foldl (λ m op, manager_step op m) started
    [MSetOrdered (bid 0) (blk 1) 1; MSetOrdered (bid 0) (blk 2) 2; MSetOrdered (bid 0) (blk 3) 3].

Definition txns3 : Manager := push_txns [7] 100 (push_txns [4; 5; 6] 60 (push_txns [1; 2; 3] 50 started)).

Lemma pop_txns_spec_witness :
  ∃ n, pop_txns 10 120 txns3
    = (Ok (concat (ti_txns <$> take n (bm_txns txns3))), set_txns (drop n (bm_txns txns3)) txns3) ∧
    (n ≤ length (bm_txns txns3))%nat ∧
    (bm_txns txns3 ≠ [] → 0 < 10 → (0 < n)%nat) ∧
    ((1 < n)%nat → total (ti_gas_limit <$> take n (bm_txns txns3)) ≤ 120) ∧
    (N.of_nat n ≤ 10) ∧
    ((n < length (bm_txns txns3))%nat →
       120 < total (ti_gas_limit <$> take (S n) (bm_txns txns3)) ∨ 10 ≤ N.of_nat n).
Proof.
  apply (pop_txns_spec 10 120 txns3); apply N.leb_le; vm_compute; reflexivity.
Defined.

Definition txn_ops1 : list TxnOp := [TPush [8; 9] 30; TPop 1 1000; TPop 10 200; TPush [10] 1].

Lemma txns_conserved_witness :
  (txn_run txn_ops1 txns3).1 = [1; 2; 3; 4; 5; 6; 7; 8; 9] ∧
  buffered txns3 ++ pushed txn_ops1
  = (txn_run txn_ops1 txns3).1 ++ buffered (txn_run txn_ops1 txns3).2.
Proof.
  split; [vm_compute; reflexivity|].
  apply (txns_conserved txn_ops1 txns3). apply surjective_pairing.
Defined.

Lemma get_ordered_blocks_spec_witness :
  ∃ l, get_ordered_blocks 2 (Some 5) 1 ordered3
    = (Ok (if bool_decide (length l = 0%nat) then None else Some l), ordered3) ∧
    ordered_run ordered3 1 2 0 5 l.
Proof.
  apply (get_ordered_blocks_spec 2 (Some 5) 1 ordered3).
  - vm_compute. reflexivity.
  - apply N.leb_le. vm_compute. reflexivity.
  - vm_compute. reflexivity.
  - vm_compute. reflexivity.
Defined.

(** Block 2 announces epoch 2; blocks 1 and 2 are committed. *)
Definition new_validators : EventBytes := ([(11, 1)] : cVerifier).
Definition committed2 : Manager :=
  foldl (λ m op, manager_step op m) ordered3
    [MSetCompute (bid 101) (b32 5) 1 1 None [];
     MSetCompute (bid 102) (b32 6) 2 1 None [NewEpoch 2 new_validators];
     MSetCommit [{| bhr_block_id := (bid 101); bhr_num := 1; bhr_hash := None;
                    bhr_persist_notifier := None |};
                 {| bhr_block_id := (bid 102); bhr_num := 2; bhr_hash := None;
                    bhr_persist_notifier := None |}] 1].

Lemma get_committed_blocks_spec_witness :
  ∃ l m', get_committed_blocks 1 None 1 committed2
    = (Ok (if bool_decide (length l = 0%nat) then None else Some l), m') ∧
    committed_run committed2 m' 1 1 0 u64_max l.
Proof.
  apply (get_committed_blocks_spec 1 None 1 committed2).
  - vm_compute. reflexivity.
  - apply N.leb_le. vm_compute. reflexivity.
Defined.

Lemma epoch_change_flow_witness :
  ∃ m1, set_compute_res (bid 102) (b32 6) 2 1 None
      [NewEpoch 2 new_validators] ordered3 = (Ok tt, m1) ∧
    bm_current_epoch (release_inflight_blocks m1) = 2.
Proof.
  destruct (epoch_change_flow (bid 102) (b32 6) 2 1 None
    [NewEpoch 2 new_validators] ordered3 (blk 2) (bid 101) 2 2
    new_validators new_validators new_validators)
    as (m1 & Hrun & _ & _ & Hcur & _).
  - vm_compute. reflexivity.
  - reflexivity.
  - reflexivity.
  - reflexivity.
  - reflexivity.
  - discriminate.
  - exists m1. split; [exact Hrun|exact Hcur].
Defined.

Definition released : Manager := manager_step MRelease committed2.

Lemma released_run : manager_run 256 released.
Proof.
  unfold released, committed2, ordered3, started. cbn [foldl].
  repeat apply mr_step. apply mr_init; [apply mr_new|vm_compute; reflexivity].
Qed.

Lemma manager_flags_agree_witness :
  is_epoch_change released = true ∧ is_epoch_change released = bm_epoch_change_ready released.
Proof.
  split; [vm_compute; reflexivity|].
  apply (manager_flags_agree 256). exact released_run.
Defined.

Lemma init_all_or_nothing_witness :
  (is_err (init 7 {[3 := (1, bid 33)]} 1 (Manager_new 256)).1 = true ∧
   (init 7 {[3 := (1, bid 33)]} 1 (Manager_new 256)).2 = Manager_new 256 ∧
   ({[3 := (1, bid 33)]} : gmap N (N * BlockId)) !! 7 = None ∧
   (({[3 := (1, bid 33)]} : gmap N (N * BlockId)) ≠ ∅ ∨ 0 < 7)) ∨
  ((init 7 {[3 := (1, bid 33)]} 1 (Manager_new 256)).1 = Ok tt ∧
   is_ready (init 7 {[3 := (1, bid 33)]} 1 (Manager_new 256)).2 = true ∧
   bm_current_epoch (init 7 {[3 := (1, bid 33)]} 1 (Manager_new 256)).2 = 1 ∧
   bm_latest_commit_block_number (init 7 {[3 := (1, bid 33)]} 1 (Manager_new 256)).2 = 7 ∧
   ∀ e id, ({[3 := (1, bid 33)]} : gmap N (N * BlockId)) !! 7 = Some (e, id) →
     bm_blocks (init 7 {[3 := (1, bid 33)]} 1 (Manager_new 256)).2 !! (e, 7)
     = Some (Historical id)).
Proof.
  apply (init_all_or_nothing 7 {[3 := (1, bid 33)]} 1 (Manager_new 256)).
  apply surjective_pairing.
Defined.
