(* ===== verification/ConcretePipeline.v ===== *)
(** * Concrete runs of the pipeline

    The buffer manager on the validator set of [ConcreteSafety]: two batches of
    blocks, votes before and after execution, signing and persisting.  The theorems
    of [PipelineSpec] applied to the run, and two runs outside of their
    assumptions. *)

From S2P Require Import Prelude Gaptos Types Concrete Certificates Payloads Blocks SafetyRules SafetySpec Bft.
From S2P Require Import ConcreteSafety PendingVotes ConcreteConsensus Buffer BlockBufferManager ConcreteBuffer.
From S2P Require Import BufferItem PipelineManager PipelineSpec.

#[local] Existing Instances concrete_gaptos concrete_verifier concrete_crypto concrete_storage concrete_api
  concrete_block_info_laws concrete_ledger_info_laws concrete_partial concrete_pending_laws.

#[local] Instance pipe_types : PipelineTypes := {|
  Randomness := unit;
  Callback := unit;
  bi_executed_state_id := cBlockInfo_hash;
  bi_next_epoch_state := cBlockInfo_next;
  BlockInfo_new_with_epoch_block_info e r id x v t n _ := (e, r, id, x, v, t, n);
  bi_change_timestamp t b :=
    if bool_decide (is_Some (cBlockInfo_next b)) && (t <=? cBlockInfo_timestamp b) then
      Ok (cBlockInfo_epoch b, cBlockInfo_round b, cBlockInfo_id b, cBlockInfo_hash b,
          cBlockInfo_version b, t, cBlockInfo_next b)
    else Panic "assertion failed: allow_timestamp_change";
  EpochBlockInfo_of i := (eci_block_number i, eci_epoch_start_timestamp_usecs i);
  consensus_alpha_active _ := true;
  livs_new_with li m := (li, m);
  hash_of_address a := N.succ_pos a;
|}.

#[local] Instance pipe_laws : PipelineLaws.
Proof.
  split; try done.
  - by intros [[[[[[e r] id] x] v] t] n].
  - intros [[[[[[e r] id] x] v] t] n] t' b'. simpl. destruct (_ && _); [|done]. by intros [= <-].
  - intros [[[[[[e r] id] x] v] t] n] t'. simpl. intros -> Hle. by rewrite (proj2 (N.leb_le _ _) Hle).
Qed.

#[local] Instance pipe_proof_laws : CommitProofLaws.
Proof.
  split.
  - intros v m _ Hk. simpl. unfold cAggregateSignatures. rewrite bool_decide_eq_true_2; [done|].
    apply Forall_forall. intros a ([b x] & -> & Hx%elem_of_map_to_list)%list_elem_of_fmap. by eapply Hk.
  - intros v m sig li Hs Hp Hall. by eapply (cAggregate_verify v m sig).
  - intros v. simpl. unfold cCheckPower, cQuorum. generalize (cTotal v * 2 / 3). intros q. simpl.
    destruct (N.leb_spec (q + 1) 0); [lia|done].
Qed.

(** ** Inputs *)

(** Block [n], of round [n] and number [n]; its result has the hash [100 + n]. *)
Definition pipe_block (n : N) : Block :=
  {| block_id := N.succ_pos (10 + n);
     block_block_data := {| bd_epoch := 1; bd_round := n; bd_timestamp_usecs := 1000 + n;
                            bd_quorum_cert := genesis_qc; bd_block_type := NilBlock [] |};
     block_signature := None; block_block_number := Some n |}.

Definition ordered_block (n : N) : PipelinedBlock := PipelinedBlock_new_ordered (pipe_block n).

Definition executed_block (n : N) : PipelinedBlock :=
  set_execution_result {| per_input_txns := []; per_result := with_root_hash (N.succ_pos (100 + n)) |}
    (ordered_block n).

Definition batch (ns : list N) (n : N) : OrderedBlocks :=
  {| ob_ordered_blocks := ordered_block <$> ns;
     ob_ordered_proof :=
       LedgerInfoWithSignatures_new
         (LedgerInfo_new (BlockInfo_new 1 n (block_id (pipe_block n)) ACCUMULATOR_PLACEHOLDER_HASH 0 (1000 + n) None)
            HashValue_zero) AggregateSignature_empty;
     ob_callback := tt |}.

Definition commit_vote (a : cAddress) (n : N) (h : cHash) : CommitVote :=
  let ci := plb_block_info (executed_block n) in
  let li := LedgerInfo_new_with_block_info ci h (bi_executed_state_id ci) (bi_version ci) in
  {| cv_author := a; cv_ledger_info := li; cv_signature := ((a, cDigest (SignLedgerInfo li)) : Signature) |}.

Definition vote_event (a : cAddress) (n : N) : PipelineEvent :=
  CommitMessageReceived (CommitMessageVote (commit_vote a n HashValue_zero)) 0.

Definition done_event (ns : list N) (n : N) : PipelineEvent :=
  ExecutionDone {| er_block_id := block_id (pipe_block n); er_inner := Ok (executed_block <$> ns) |} 0.

(** A vote for block 3 comes first; block 2 is signed and then gets its votes, block
    3 has them when its result arrives. *)
Definition pipe_events : list PipelineEvent :=
  [BlocksSent (batch [1; 2] 2); vote_event 8 3; BlocksReceived; done_event [1; 2] 2;
   SigningDone {| sgp_signature_result := Some ((7, 1%positive) : Signature);
                  sgp_commit_ledger_info := cv_ledger_info (commit_vote 7 2 HashValue_zero) |} 0;
   vote_event 7 2; vote_event 8 2; vote_event 9 2;
   BlocksSent (batch [3] 3); BlocksReceived; vote_event 7 3; vote_event 10 3; Tick 2000;
   done_event [3] 3; PersistingDone (Ok 3); BlocksSent (batch [4] 4); BlocksReceived].

Definition pipe_config : PipelineConfig :=
  {| plc_author := (7 : AccountAddress); plc_epoch_state := epoch1; plc_order_vote_enabled := true;
     plc_observer_enabled := false; plc_has_publisher := true;
     plc_max_pending_rounds_in_commit_vote_cache := 100 |}.

Definition pipe_start : BufferManager := BufferManager_new pipe_config 0 0 (Manager_new 256).

(** ** Checking the assumptions *)

Definition is_panic {E A} (r : result E A) : bool := match r with Panic _ => true | _ => false end.

Fixpoint same_blocksb (l1 l2 : list PipelinedBlock) : bool :=
  match l1, l2 with
  | [], [] => true
  | p :: l1, q :: l2 => bool_decide (plb_id p = plb_id q) && (plb_round p =? plb_round q) && same_blocksb l1 l2
  | _, _ => false
  end.

Lemma same_blocksb_ok l1 l2 :
  same_blocksb l1 l2 = true → Forall2 (λ p q, plb_id p = plb_id q ∧ plb_round p = plb_round q) l1 l2.
Proof.
  revert l2. induction l1 as [|p l1 IH]; intros [|q l2]; simpl; [constructor|done..|].
  rewrite !andb_true_iff, bool_decide_eq_true, N.eqb_eq. intros [[? ?] ?]. constructor; [done|by apply IH].
Qed.

Definition executesb (s : BufferManager) (id : HashValue) (blocks : list PipelinedBlock) (i : BufferItem) : bool :=
  match i, last blocks with
  | ItemOrdered o, Some block =>
      match block_block_number (plb_block block),
            executed_commit_info block (bfm_end_epoch_timestamp (note_epoch_end blocks s))
              (resolve_epoch_block_info block (note_epoch_end blocks s)) with
      | Some n, Ok ci =>
          same_blocksb (oi_ordered_blocks o) blocks
          && match oi_commit_proof o with
             | Some p => bool_decide (li_commit_info (liws_ledger_info p) = ci)
             | None => true
             end
          && bool_decide (map_Forall (λ _ p, bi_id (li_commit_info (liws_ledger_info p)) = id →
                            li_commit_info (liws_ledger_info p) = ci) (bfm_pending_commit_proofs s))
          && (bi_round (item_commit_info i) <? u64_max)
      | _, _ => false
      end
  | _, _ => false
  end.

Lemma executesb_ok s id blocks i : executesb s id blocks i = true → executes s id blocks i.
Proof.
  unfold executesb. destruct i as [o| | |]; [|done..]. destruct (last blocks) as [block|] eqn:Hl; [|done].
  destruct (block_block_number _) as [n|] eqn:Hn; [|done]. destruct (executed_commit_info _ _ _) as [ci| |] eqn:Hci; [|done..].
  rewrite !andb_true_iff. intros [[[Hsame Hp] Hpend] Hr].
  exists o, block, n, ci. split; [done|]. split; [split; try done|].
  - by apply same_blocksb_ok.
  - intros p Hp'. rewrite Hp' in Hp. by apply bool_decide_eq_true in Hp.
  - split; [done|]. apply bool_decide_eq_true in Hpend. split; [intros r p; apply (Hpend r p)|by apply N.ltb_lt].
Qed.

#[local] Instance commit_form_dec (li : LedgerInfo) : Decision (commit_form li).
Proof. unfold commit_form. apply (decide_rel (=) (A := cLedgerInfo)). Defined.

Definition event_okb (e : PipelineEvent) (s : BufferManager) : bool :=
  match e with
  | BlocksReceived =>
      match bfm_block_rx s with
      | ob :: _ =>
          match last (ob_ordered_blocks ob) with
          | Some b =>
              bool_decide (buf_map (bfm_buffer s) !! plb_id b = None) && (buf_count (bfm_buffer s) <? u64_max)
              && bool_decide (bi_id (li_commit_info (liws_ledger_info (ob_ordered_proof ob))) = plb_id b)
              && (bi_round (li_commit_info (liws_ledger_info (ob_ordered_proof ob))) =? plb_round b)
          | None => false
          end
      | [] => true
      end
  | ExecutionDone r _ =>
      match er_inner r, Buffer_get (bfm_buffer s) (Some (er_block_id r)) with
      | Ok blocks, Ok i => executesb s (er_block_id r) blocks i
      | Panic _, _ => false
      | _, _ => true
      end
  | PersistingDone (Ok round) => round + MAX_BACKLOG <=? u64_max
  | CommitMessageReceived (CommitMessageVote vote) _ =>
      bool_decide (commit_form (cv_ledger_info vote)) && negb (is_panic (CommitVote_verify vote (es_verifier epoch1)))
  | BlocksSent _ | Tick _ | SigningDone _ _ => true
  | _ => false
  end.

Lemma event_okb_ok e s : event_okb e s = true → event_ok True pipe_config e s.
Proof.
  destruct e as [ob|m| |signal now|req|r now| |r now|[round|e|m]|[vote| | |] now|now]; simpl; try done.
  - destruct (bfm_block_rx s) as [|ob rx]; [done|]. destruct (last (ob_ordered_blocks ob)) as [b|] eqn:Hb; [|done].
    rewrite !andb_true_iff, !bool_decide_eq_true, N.ltb_lt, N.eqb_eq. intros [[[? ?] ?] ?]. by exists b.
  - destruct (er_inner r) as [blocks|e|m]; [|by destruct (Buffer_get _ _)|done].
    intros Hok. split; [done|]. intros blocks' i [= <-] Hi _. rewrite Hi in Hok. by apply executesb_ok.
  - rewrite N.leb_le. by intros ? ? [= <-].
  - rewrite andb_true_iff, bool_decide_eq_true. intros [Hf Hp]. split; [|done]. intros m Hm. simpl in Hm.
    by rewrite Hm in Hp.
Qed.

Fixpoint events_okb (events : list PipelineEvent) (s : BufferManager) : bool :=
  match events with
  | [] => true
  | e :: events => event_okb e s && events_okb events (pipeline_step e s).2
  end.

Lemma events_okb_ok events s : events_okb events s = true → events_ok True pipe_config events s.
Proof.
  revert s. induction events as [|e events IH]; intros s; [done|]. cbn [events_okb]. rewrite andb_true_iff.
  intros [He Hrest]. by apply events_ok_step; [apply event_okb_ok|apply IH].
Qed.

Lemma pipe_events_ok : events_ok True pipe_config pipe_events pipe_start.
Proof. apply events_okb_ok. vm_compute. reflexivity. Qed.

Lemma pipe_events_ok_any : events_ok False pipe_config pipe_events pipe_start.
Proof. apply (events_ok_weaken True); [done|]. exact pipe_events_ok. Qed.

(** The rounds of the blocks sent to persisting. *)
Definition persisted (s : BufferManager) : list (list N) :=
  omap (λ o, match o with SendPersisting r => Some (plb_round <$> psr_blocks r) | _ => None end) (bfm_sent s).

(** ** The theorems at the run *)

Lemma pipeline_commits_in_order_witness :
  persisted (pipeline_run pipe_events pipe_start).2 = [[1; 2]; [3]] ∧
  ∃ s q, pipeline_run pipe_events pipe_start = (Ok tt, s) ∧
    repr (bfm_buffer s) (entries q) ∧ accepted False pipe_config (bfm_sent s) (ids_of <$> q).
Proof.
  split; [vm_compute; reflexivity|].
  apply (pipeline_commits_in_order pipe_config 0 0 (Manager_new 256) pipe_events); [done|exact pipe_events_ok_any].
Defined.

Lemma commit_proofs_verify_witness :
  ∃ s, pipeline_run pipe_events pipe_start = (Ok tt, s) ∧
    ∀ r, SendPersisting r ∈ bfm_sent s → liws_verify_signatures (psr_commit_ledger_info r) (es_verifier epoch1) = Ok tt.
Proof.
  apply (commit_proofs_verify pipe_config 0 0 (Manager_new 256) pipe_events); [done|done|exact pipe_events_ok].
Defined.

Lemma no_quorum_waits_witness :
  ∃ s, pipeline_run pipe_events pipe_start = (Ok tt, s) ∧
    ∀ k i, Buffer_get (bfm_buffer s) (Some k) = Ok i → is_aggregated i = false ∧ waiting (es_verifier epoch1) i.
Proof. apply (no_quorum_waits pipe_config 0 0 (Manager_new 256) pipe_events); [done|exact pipe_events_ok_any]. Defined.

Lemma pipeline_caches_bounded_witness :
  ∃ s, pipeline_run pipe_events pipe_start = (Ok tt, s) ∧
    N.of_nat (size (bfm_commit_vote_cache s)) ≤ 99 ∧
    (∀ r rc, bfm_commit_vote_cache s !! r = Some rc →
       (size rc ≤ 2 * length (vv_ordered_addresses (es_verifier epoch1)))%nat ∧
       ∀ id vs, rc !! id = Some vs → (size vs ≤ length (vv_ordered_addresses (es_verifier epoch1)))%nat) ∧
    (size (bfm_pending_commit_proofs s) ≤ 100)%nat.
Proof.
  apply (pipeline_caches_bounded pipe_config 0 0 (Manager_new 256) pipe_events); [done|exact pipe_events_ok_any].
Defined.

(** ** Outside of the assumptions *)

(** Validator 9 signs a ledger info with the commit info of block 2 and another
    consensus data hash. [CommitVote::verify] and [add_signature_if_matched] accept
    the vote, and with validators 7 and 8 a quorum is reached. *)
Definition mixed_events : list PipelineEvent :=
  take 7 pipe_events ++ [CommitMessageReceived (CommitMessageVote (commit_vote 9 2 5%positive)) 0].

Definition proof_verifies (o : PipelineOutput) : bool :=
  match o with
  | SendPersisting r => is_ok (liws_verify_signatures (psr_commit_ledger_info r) (es_verifier epoch1))
  | _ => true
  end.

Example mixed_votes_sent :
  let '(r, s) := pipeline_run mixed_events pipe_start in
  is_ok r && bool_decide (persisted s = [[1; 2]]) && negb (forallb proof_verifies (bfm_sent s)) = true.
Proof. vm_compute. reflexivity. Qed.

(** Two batches are scheduled; the first fails and the second is executed. The retry
    sends both again, and when the first fails once more the second result of the
    second batch finds its item executed. *)
Definition failed_event (n : N) : PipelineEvent :=
  ExecutionDone {| er_block_id := block_id (pipe_block n); er_inner := Err OtherExecutorError |} 0.

Definition retried_events : list PipelineEvent :=
  [BlocksSent (batch [1; 2] 2); BlocksSent (batch [3] 3); BlocksReceived; BlocksReceived;
   failed_event 2; done_event [3] 3; ScheduleRetried; failed_event 2].

Example retried_item_panics :
  is_ok (pipeline_run retried_events pipe_start).1 = true ∧
  is_panic (pipeline_run (retried_events ++ [done_event [3] 3]) pipe_start).1 = true.
Proof. split; vm_compute; reflexivity. Qed.
