(* ===== verification/ConcreteDb.v ===== *)
(** * A concrete database

    An instance of the interface of [ConsensusDb]: 256-bit hashes, a codec that
    writes a value as a list of numbers, and a database that is a map of
    byte strings, with scans sorted by key and batches of writes.  It satisfies
    the laws of the interface; the witnesses run the database code on it. *)

From S2P Require Import Prelude Gaptos Types Bytes Certificates Payloads Blocks ConsensusDb.

(** ** Types *)

Definition dHash : Type := { x : N | (x <? 2 ^ 256) = true }.
#[local] Instance dHash_eqdec : EqDecision dHash := _.
#[local] Instance dHash_countable : Countable dHash := _.

Definition dHash_of (x : N) : dHash :=
  match decide ((x <? 2 ^ 256) = true) with
  | left H => exist _ x H
  | right _ => exist _ 0 eq_refl
  end.

Definition dEpochState : Type := N.
(** Block number, start timestamp and hash of the block that ended the epoch. *)
Definition dEpochBlockInfo : Type := N * N * dHash.
Definition dBlockInfo : Type := N * N * dHash * N * N * option dEpochState * option dEpochBlockInfo.
(** With the block hash and the block number. *)
Definition dLedgerInfo : Type := dBlockInfo * dHash * N.

Definition dbi_next (b : dBlockInfo) : option dEpochState := let '(_, _, _, _, _, n, _) := b in n.
Definition dbi_info (b : dBlockInfo) : option dEpochBlockInfo := let '(_, _, _, _, _, _, i) := b in i.

#[local] Instance db_gaptos : Gaptos := {|
  HashValue := dHash;
  HashValue_zero := dHash_of 0;
  ACCUMULATOR_PLACEHOLDER_HASH := dHash_of 1;
  GENESIS_BLOCK_ID := dHash_of 2;
  Signature := N;
  CryptoMaterialError := string;
  PublicKey := N;
  PrivateKey := N;
  public_key sk := sk;
  AccountAddress := N;
  SignedTransaction := N;
  ValidatorTransaction := N;
  txn_payload _ := GTxnBytes;
  ValidatorVerifier := unit;
  EpochState := dEpochState;
  es_epoch e := e;
  es_verifier _ := tt;
  BlockInfo := dBlockInfo;
  BlockInfo_new e r id _ v t n := (e, r, id, v, t, n, None);
  BlockInfo_empty := (0, 0, dHash_of 0, 0, 0, None, None);
  bi_epoch b := let '(e, _, _, _, _, _, _) := b in e;
  bi_round b := let '(_, r, _, _, _, _, _) := b in r;
  bi_id b := let '(_, _, id, _, _, _, _) := b in id;
  bi_version b := let '(_, _, _, v, _, _, _) := b in v;
  bi_timestamp_usecs b := let '(_, _, _, _, t, _, _) := b in t;
  bi_has_reconfiguration b := bool_decide (is_Some (dbi_next b));
  bi_is_ordered_only _ := false;
  bi_match_ordered_only b1 b2 := bool_decide (b1 = b2);
  EpochBlockInfo := dEpochBlockInfo;
  bi_epoch_block_info := dbi_info;
  ebi_block_number i := N.min i.1.1 u64_max;
  ebi_epoch_start_timestamp_usecs i := N.min i.1.2 u64_max;
  LedgerInfo := dLedgerInfo;
  LedgerInfo_new b _ := (b, dHash_of 0, 0);
  LedgerInfo_new_with_block_info b _ h n := (b, h, n);
  li_commit_info l := l.1.1;
  li_consensus_data_hash _ := dHash_of 0;
  li_hash _ := dHash_of 0;
  li_epoch l := let '(e, _, _, _, _, _, _) := l.1.1 in e;
  li_round l := let '(_, r, _, _, _, _, _) := l.1.1 in r;
  li_ends_epoch l := bool_decide (is_Some (dbi_next l.1.1));
  li_next_epoch_state l := dbi_next l.1.1;
  li_block_hash l := l.1.2;
  li_block_number l := N.min l.2 u64_max;
  li_version l := let '(_, _, _, v, _, _, _) := l.1.1 in v;
  li_waypoint_version l := let '(_, _, _, v, _, _, _) := l.1.1 in v;
  li_timestamp_usecs l := let '(_, _, _, _, t, _, _) := l.1.1 in N.min t u64_max;
  BitVec := N;
  BitVec_with_num_bits n := n;
  BitVec_default := 0;
  AggregateSignature := list N;
  AggregateSignature_empty := [];
  AggregateSignature_new _ _ := [];
  agg_num_voters s := length s;
  agg_signers_addresses s addrs := filter (λ a, a ∈ s) addrs;
  LedgerInfoWithSignatures := dLedgerInfo * list N;
  LedgerInfoWithSignatures_new l s := (l, s);
  liws_ledger_info := fst;
  liws_num_voters l := length l.2;
|}.

#[local] Instance db_verifier : Verifier := {|
  liws_verify_signatures _ _ := Ok tt;
  vv_len _ := 3;
  vv_ordered_addresses _ := [1; 2; 3];
  vv_address_to_validator_index _ := ∅;
  vv_get_public_key _ _ := None;
  vv_get_voting_power _ a := if bool_decide (a ∈ [1; 2; 3]) then Some (10 * a) else None;
  vv_quorum_voting_power _ := 41;
  vv_total_voting_power _ := 60;
  vv_check_voting_power _ _ _ := Err EmptySignature;
|}.

#[local] Instance db_crypto : Crypto := {|
  hash_vote_data _ := dHash_of 3;
  hash_block_data b := dHash_of (bd_epoch b * 2 ^ 64 + bd_round b);
  hash_batch_payload _ _ := dHash_of 4;
  ValidatorSigner := N;
  ValidatorSigner_new a _ := a;
  signer_author s := s;
  signer_public_key s := s;
  signer_sign s _ := Ok s;
  vv_verify _ _ _ _ := Ok tt;
  vv_verify_multi_signatures _ _ _ := Ok tt;
  vv_verify_aggregate_signatures _ _ _ := Ok tt;
  vv_aggregate_signatures _ _ := Ok [];
|}.

(** ** Codecs *)

(** A value as a list of numbers that a reader can parse off the front. *)
Class Codec (A : Type) := {
  ser : A → list N;
  de : list N → option (A * list N);
  de_ser a l : de (ser a ++ l) = Some (a, l);
}.

#[local] Instance codec_N : Codec N.
Proof.
  refine {| ser n := [n]; de l := match l with n :: l => Some (n, l) | [] => None end |}. done.
Defined.

#[local] Instance codec_prod `{Codec A, Codec B} : Codec (A * B).
Proof.
  refine {| ser x := ser x.1 ++ ser x.2;
            de l := '(a, l) ← de l; '(b, l) ← de l; Some (a, b, l) |}.
  intros [a b] l. simpl. rewrite <- (assoc_L (++)), de_ser. simpl. by rewrite de_ser.
Defined.

#[local] Instance codec_option `{Codec A} : Codec (option A).
Proof.
  refine {| ser o := match o with Some a => 1 :: ser a | None => [0] end;
            de l := match l with
                    | 0 :: l => Some (None, l)
                    | _ :: l => '(a, l) ← de l; Some (Some a, l)
                    | [] => None
                    end |}.
  intros [a|] l; simpl; [by rewrite de_ser|done].
Defined.

Fixpoint de_list `{Codec A} (n : nat) (l : list N) : option (list A * list N) :=
  match n with
  | O => Some ([], l)
  | S n => '(a, l) ← de l; '(r, l) ← de_list n l; Some (a :: r, l)
  end.

#[local] Instance codec_list `{Codec A} : Codec (list A).
Proof.
  refine {| ser r := N.of_nat (length r) :: concat (ser <$> r);
            de l := match l with n :: l => de_list (N.to_nat n) l | [] => None end |}.
  intros r l. cbn [app]. rewrite Nat2N.id. induction r as [|a r IH]; [done|].
  rewrite fmap_cons. cbn [length de_list concat]. rewrite <- (assoc_L (++)), de_ser.
  cbn [mbind option_bind]. by rewrite IH.
Defined.

Definition of_words `{Codec A} {B} (f : A → B) (l : list N) : result Anyhow B :=
  match de l with Some (a, []) => Ok (f a) | _ => Err (Msg "bcs") end.

Lemma of_words_ser `{Codec A} {B} (f : A → B) (a : A) : of_words f (ser a) = Ok (f a).
Proof. unfold of_words. by rewrite <- (right_id_L [] (++) (ser a)), de_ser. Qed.

#[local] Instance codec_hash : Codec dHash.
Proof.
  refine {| ser h := [`h];
            de l := match l with x :: l => Some (dHash_of x, l) | [] => None end |}.
  intros [x H] l. simpl. unfold dHash_of. destruct (decide _) as [H'|n]; [|done].
  f_equal. f_equal. by apply (sig_eq_pi _).
Defined.

Definition dQc : Type := dBlockInfo * dBlockInfo * (dLedgerInfo * list N).

Definition qc_parts (qc : QuorumCert) : dQc :=
  (vd_proposed (qc_vote_data qc), vd_parent (qc_vote_data qc), qc_signed_ledger_info qc).
Definition qc_of_parts (x : dQc) : QuorumCert :=
  {| qc_vote_data := {| vd_proposed := x.1.1; vd_parent := x.1.2 |};
     qc_signed_ledger_info := x.2 |}.

(** Nil blocks only; other blocks are refused. *)
Definition dBlockFields : Type := N * N * N * dQc * list (N * N) * option N * option N.

Definition dbcs_block_fields (x : BlockData * option Signature * option N) : result Anyhow (list N) :=
  let '(bd, sig, number) := x in
  match bd_block_type bd with
  | NilBlock failed =>
      Ok (ser ((bd_epoch bd, bd_round bd, bd_timestamp_usecs bd, qc_parts (bd_quorum_cert bd),
                     failed, sig, number) : dBlockFields))
  | _ => Err (Msg "bcs")
  end.

Definition dblock_fields_of_bcs
  : list N → result Anyhow (BlockData * option Signature * option N) :=
  of_words (λ x : dBlockFields,
    let '(e, r, t, qc, failed, sig, number) := x in
    ({| bd_epoch := e; bd_round := r; bd_timestamp_usecs := t; bd_quorum_cert := qc_of_parts qc;
        bd_block_type := NilBlock failed |} : BlockData, sig : option Signature, number)).

Definition dhash_from_slice (l : list N) : result Anyhow HashValue :=
  if decide (length l = 32%nat ∧ Forall is_byte l) then Ok (dHash_of (from_be_bytes l))
  else Err (Msg "HashValueParseError").

#[local] Instance db_types : DbTypes := {|
  hash_to_vec h := to_be_bytes 32 (`h);
  hash_from_slice := dhash_from_slice;
  hash_max := dHash_of (2 ^ 256 - 1);
  bi_next_epoch_state := dbi_next;
  ebi_block_hash i := i.2;
  genesis_ledger_info := ((0, 0, dHash_of 2, 0, 0, None, None, dHash_of 2, 0), []);
  bcs_block_fields := dbcs_block_fields;
  block_fields_of_bcs := dblock_fields_of_bcs;
  bcs_quorum_cert qc := Ok (ser (qc_parts qc));
  quorum_cert_of_bcs := of_words qc_of_parts;
  bcs_ledger_info li := Ok (ser (li : dLedgerInfo * list N));
  ledger_info_of_bcs := of_words (λ li : dLedgerInfo * list N, li);
|}.

(** ** The database *)

Definition dContents : Type := gmap (string * list N) (list N).

Definition in_rangeb (lo hi : option (list N)) (kb : list N) : bool :=
  match lo with Some l => negb (bytes_ltb kb l) | None => true end &&
  match hi with Some h => bytes_ltb kb h | None => true end.

Definition key_le (e e' : list N * list N) : Prop := ¬ bytes_lt e'.1 e.1.
#[local] Instance key_le_dec : RelDecision key_le := λ e e', decide (¬ bytes_lt e'.1 e.1).

(** The entries of a column family in a range. *)
Definition select (cf : string) (lo hi : option (list N)) (x : (string * list N) * list N)
    : option (list N * list N) :=
  if decide (x.1.1 = cf) then if in_rangeb lo hi x.1.2 then Some (x.1.2, x.2) else None else None.

Definition entries (cf : string) (lo hi : option (list N)) (m : dContents) : list (list N * list N) :=
  merge_sort key_le (omap (select cf lo hi) (map_to_list m)).

Definition read_entry {K V} (s : Schema K V) (e : list N * list N) : result Anyhow (K * V) :=
  k ← decode_key s e.1; v ← decode_value s e.2; Ok (k, v).

(** A write: the entry, and its value or nothing. *)
Definition dWrite : Type := string * list N * option (list N).

Definition apply_write (w : dWrite) (m : dContents) : dContents :=
  match w.2 with Some vb => <[w.1 := vb]> m | None => delete w.1 m end.

#[local] Instance db_schema_db : SchemaDb := {|
  DB := dContents;
  db_get K V s k m :=
    kb ← encode_key s k;
    match m !! (column_family s, kb) with
    | Some vb => v ← decode_value s vb; Ok (Some v)
    | None => Ok None
    end;
  db_iter K V s lo hi m := Ok (read_entry s <$> entries (column_family s) lo hi m);
  db_rev_iter K V s m := Ok (read_entry s <$> reverse (entries (column_family s) None None m));
  SchemaBatch := list dWrite;
  SchemaBatch_new := [];
  batch_put K V s k v b :=
    kb ← encode_key s k; vb ← encode_value s v; Ok (b ++ [(column_family s, kb, Some vb)]);
  batch_delete K V s k b := kb ← encode_key s k; Ok (b ++ [(column_family s, kb, None)]);
  db_write_schemas b m := (Ok tt, foldl (flip apply_write) m b);
  names_ledger_info_cf _ := false;
|}.

(** ** Laws *)

Lemma dHash_of_proj (h : dHash) : dHash_of (`h) = h.
Proof.
  destruct h as [x H]. unfold dHash_of. simpl. destruct (decide _) as [H'|n]; [|done].
  by apply (sig_eq_pi _).
Qed.

Lemma proj_dHash_of (x : N) : x < 2 ^ 256 → proj1_sig (dHash_of x) = x.
Proof.
  intros Hx%N.ltb_lt. unfold dHash_of. by destruct (decide _).
Qed.

Lemma dHash_bound (h : dHash) : `h < 256 ^ N.of_nat 32.
Proof. destruct h as [x H]. exact (proj1 (N.ltb_lt _ _) H). Qed.

Lemma from_be_bytes_bound l : Forall is_byte l → from_be_bytes l < 256 ^ N.of_nat (length l).
Proof.
  intros Hl. unfold from_be_bytes. rewrite <- length_reverse.
  by apply from_le_bytes_bound, Forall_reverse.
Qed.

Lemma Ok_inj {E A} (a b : A) : @Ok E A a = Ok b → a = b.
Proof. congruence. Qed.

#[local] Instance db_types_laws : DbTypesLaws.
Proof.
  split.
  - intros h. apply length_to_be_bytes.
  - intros h. apply Forall_reverse, to_le_bytes_bytes.
  - intros h. cbn. unfold dhash_from_slice. rewrite decide_True.
    + by rewrite from_to_be_bytes, dHash_of_proj by apply dHash_bound.
    + split; [apply length_to_be_bytes|apply Forall_reverse, to_le_bytes_bytes].
  - intros l h. cbn. unfold dhash_from_slice. destruct (decide _) as [[Hlen Hl]|]; [|done].
    intros [= <-]. rewrite proj_dHash_of; [by apply to_from_be_bytes|].
    apply from_be_bytes_bound in Hl. by rewrite Hlen in Hl.
  - by vm_compute.
  - by vm_compute.
  - intros [[[e r t qc bt] sig] number] data H. change (dbcs_block_fields
      ({| bd_epoch := e; bd_round := r; bd_timestamp_usecs := t; bd_quorum_cert := qc;
          bd_block_type := bt |}, sig, number) = Ok data) in H.
    unfold dbcs_block_fields in H. cbn [bd_block_type bd_epoch bd_round bd_timestamp_usecs
      bd_quorum_cert] in H. destruct bt as [|failed| | |]; try discriminate H.
    apply Ok_inj in H as <-. etrans; [apply (of_words_ser (A := dBlockFields))|].
    by destruct qc as [[] ?].
Qed.

Lemma in_rangeb_spec lo hi kb : in_rangeb lo hi kb = true ↔ in_range lo hi kb.
Proof.
  unfold in_rangeb, in_range, bytes_lt.
  destruct lo, hi; rewrite ?andb_true_iff, ?negb_true_iff, <- ?not_true_iff_false; naive_solver.
Qed.

#[local] Instance key_le_trans : Transitive key_le.
Proof.
  intros [k1 v1] [k2 v2] [k3 v3] H12 H23 H31. simpl in *. unfold key_le in *. simpl in *.
  destruct (bytes_lt_trichotomy k1 k2) as [H|[->|H]]; [|done..].
  apply H23. by trans k1.
Qed.

#[local] Instance key_le_total : Total key_le.
Proof.
  intros [k1 v1] [k2 v2]. unfold key_le. simpl.
  destruct (decide (bytes_lt k2 k1)) as [H|H]; [right|by left].
  intros H'. apply (irreflexivity bytes_lt k1). by trans k2.
Qed.

Lemma entries_elem cf lo hi m kb vb :
  (kb, vb) ∈ entries cf lo hi m ↔ m !! (cf, kb) = Some vb ∧ in_range lo hi kb.
Proof.
  unfold entries. rewrite merge_sort_Permutation, list_elem_of_omap, <- in_rangeb_spec. split.
  - intros ([[cf' kb'] vb'] & Hin%elem_of_map_to_list & Hs). unfold select in Hs. simpl in Hs.
    destruct (decide _) as [->|]; [|done]. destruct (in_rangeb lo hi kb') eqn:Hr; [|done].
    injection Hs as -> ->. done.
  - intros [Hl Hr]. exists (cf, kb, vb). split; [by apply elem_of_map_to_list|].
    unfold select. simpl. by rewrite decide_True, Hr by done.
Qed.

Lemma NoDup_omap {A B} (f : A → option B) (l : list A) :
  (∀ x y b, f x = Some b → f y = Some b → x = y) → NoDup l → NoDup (omap f l).
Proof.
  intros Hf. induction 1 as [|x l Hx Hl IH]; simpl; [constructor|].
  destruct (f x) as [b|] eqn:Hb; [|done]. constructor; [|done].
  intros (y & Hy & Hyb)%list_elem_of_omap. by rewrite (Hf x y b Hb Hyb) in Hx.
Qed.

Lemma entries_NoDup cf lo hi m : NoDup (entries cf lo hi m).
Proof.
  unfold entries. rewrite merge_sort_Permutation. apply NoDup_omap; [|apply NoDup_map_to_list].
  intros [[cf1 k1] v1] [[cf2 k2] v2] [kb vb]. unfold select. simpl.
  destruct (decide (cf1 = cf)) as [->|], (decide (cf2 = cf)) as [->|]; try done.
  destruct (in_rangeb lo hi k1), (in_rangeb lo hi k2); naive_solver.
Qed.

Lemma entries_sorted cf lo hi m : StronglySorted (λ e e', bytes_lt e.1 e'.1) (entries cf lo hi m).
Proof.
  assert (Hle : StronglySorted key_le (entries cf lo hi m)).
  { apply StronglySorted_merge_sort; apply _. }
  assert (Hel : ∀ e, e ∈ entries cf lo hi m → m !! (cf, e.1) = Some e.2).
  { intros [kb vb] [He _]%entries_elem. done. }
  pose proof (entries_NoDup cf lo hi m) as Hnd. revert Hle Hel Hnd.
  generalize (entries cf lo hi m). induction l as [|e l IH]; intros Hle Hel Hnd; [constructor|].
  apply StronglySorted_cons in Hle as [Hhd Hle]. apply NoDup_cons in Hnd as [Hni Hnd].
  constructor; [apply IH; set_solver|]. apply Forall_forall. intros e' He'.
  rewrite Forall_forall in Hhd. specialize (Hhd e' He'). unfold key_le in Hhd.
  destruct (bytes_lt_trichotomy e.1 e'.1) as [|[Heq|]]; [done| |done].
  destruct Hni. assert (e = e') as ->; [|done].
  pose proof (Hel e ltac:(by left)) as H1. pose proof (Hel e' ltac:(by right)) as H2.
  destruct e as [k1 v1], e' as [k2 v2]. simpl in *. congruence.
Qed.

Lemma entries_scan cf lo hi m : scan_of cf lo hi m (entries cf lo hi m).
Proof. split; [apply entries_sorted|apply entries_elem]. Qed.

Lemma read_entry_reads {K V} (s : Schema K V) es : Forall2 (reads s) (read_entry s <$> es) es.
Proof.
  apply Forall2_fmap_l, Forall_Forall2_diag, Forall_true. intros e k v Hr.
  unfold read_entry in Hr. by run_inv.
Qed.

#[local] Instance db_schema_db_laws : SchemaDbLaws.
Proof.
  refine {|
    db_contents (d : DB) := d : dContents;
    batch_effect (b : SchemaBatch) m := foldl (flip apply_write) m (b : list dWrite);
  |}.
  - intros K V s k d o H. simpl in H. apply bind_Ok in H as (kb & Hk & H). exists kb.
    split; [done|]. destruct (_ !! _) as [vb|]; run_inv; eauto.
  - intros K V s lo hi d items [= <-]. eexists. split; [apply entries_scan|apply read_entry_reads].
  - intros K V s d items [= <-]. eexists. split; [apply entries_scan|apply read_entry_reads].
  - done.
  - intros K V s k v b b' H. simpl in H. apply bind_Ok in H as (kb & Hk & H).
    apply bind_Ok in H as (vb & Hv & [= <-]). exists kb, vb. split; [done|]. split; [done|].
    intros m. by rewrite foldl_app.
  - intros K V s k b b' H. simpl in H. apply bind_Ok in H as (kb & Hk & [= <-]). exists kb.
    split; [done|]. intros m. by rewrite foldl_app.
  - by intros b d d' u [= <-].
  - done.
  - done.
Defined.

(** ** Tables *)

Definition table_okb {K V} (s : Schema K V) (m : dContents) : bool :=
  forallb (λ x : (string * list N) * list N,
    if decide (x.1.1 = column_family s) then
      match decode_key s x.1.2, decode_value s x.2 with
      | Ok k, Ok _ => match encode_key s k with Ok kb => bool_decide (kb = x.1.2) | _ => false end
      | _, _ => false
      end
    else true) (map_to_list m).

Lemma table_okb_sound {K V} (s : Schema K V) (c : ConsensusDB) :
  table_okb s (cdb_db c) = true → table_ok s c.
Proof.
  unfold table_okb. rewrite forallb_forall. intros Hall kb vb Hl.
  specialize (Hall (column_family s, kb, vb)). simpl in Hall. rewrite decide_True in Hall by done.
  assert (Hin : In (column_family s, kb, vb) (map_to_list (cdb_db c : dContents))).
  { by apply list_elem_of_In, elem_of_map_to_list. }
  specialize (Hall Hin). destruct (decode_key s kb) as [k| |] eqn:Hk; [|done..].
  destruct (decode_value s vb) as [v| |] eqn:Hv; [|done..].
  destruct (encode_key s k) as [kb'| |] eqn:He; [|done..]. apply bool_decide_eq_true in Hall as ->.
  by exists k, v.
Qed.

(** ** A chain *)

Definition d_info (e r : N) : dBlockInfo := (e, r, dHash_of (e * 2 ^ 64 + r), 0, 0, None, None).

Definition d_nil (e r : N) : Block :=
  let bd := {| bd_epoch := e; bd_round := r; bd_timestamp_usecs := r;
               bd_quorum_cert := qc_of_parts (d_info e (r - 1), d_info e (r - 1),
                                              (d_info e (r - 1), dHash_of 0, 0, []));
               bd_block_type := NilBlock [(r, 7)] |} in
  {| block_id := hash_block_data bd; block_block_data := bd; block_signature := None;
     block_block_number := None |}.

(** The ledger info of block [n], which is round [r] of epoch [e]. *)
Definition d_li (e r n : N) : LedgerInfoWithSignatures :=
  ((e, r, dHash_of n, 0, 10 * n, None, None, dHash_of n, n) : dLedgerInfo, [] : list N).
(** The one that ends epoch [e]. *)
Definition d_end (e r n : N) : LedgerInfoWithSignatures :=
  ((e, r, dHash_of n, 0, 10 * n, Some (e + 1), Some (n, 10 * n, dHash_of n), dHash_of n, n)
     : dLedgerInfo, [] : list N).

Definition d_blocks : list Block := [d_nil 1 1; d_nil 1 2; d_nil 2 1; d_nil 2 2; d_nil 2 3].
Definition d_qcs : list QuorumCert := bd_quorum_cert ∘ block_block_data <$> d_blocks.
(** The last block was not committed. *)
Definition d_numbers : list (N * N * HashValue) :=
  imap (λ i b, (Block_epoch b, N.of_nat (S i), block_id b)) (take 4 d_blocks).

Definition d_empty : ConsensusDB := {| cdb_db := (∅ : dContents) : DB; cdb_latest_ledger_info := None |}.

Definition d_saved : ConsensusDB :=
  (save_blocks_and_quorum_certificates d_blocks d_qcs d_empty).2.
Definition d_numbered : ConsensusDB := (save_block_numbers d_numbers d_saved).2.
Definition d_chain : ConsensusDB :=
  ((_ ← save_transactions (Some (d_li 1 1 1)); _ ← save_transactions (Some (d_end 1 2 2));
    _ ← save_transactions (Some (d_li 2 1 3)); _ ← save_transactions (Some (d_li 2 2 4));
    _ ← put_randomness [(1, [1]); (3, [3]); (4, [4])]; save_vote [9]) d_numbered).2.

Lemma d_chain_tables : tables_ok d_chain.
Proof. split; apply table_okb_sound; vm_compute; reflexivity. Qed.

(** Tests of results that evaluate to a boolean. *)
Definition ok_with {S E A} (p : result E A * S) (f : A → bool) : bool :=
  match p.1 with Ok a => f a | _ => false end.

Lemma ok_with_run {S E A} (p : result E A * S) f :
  ok_with p f = true → ∃ a, p = (Ok a, p.2) ∧ f a = true.
Proof. destruct p as [[a| |] s]; simpl; naive_solver. Qed.

Lemma unwind_to_block_spec_witness : ∃ keys epochs c',
  unwind_to_block 2 d_chain = (Ok (keys, epochs), c') ∧ length keys = 0%nat ∧ epochs = [] ∧
  ok_with (get_last_vote c', c') (λ o, bool_decide (is_Some o)) = false ∧
  li_block_number (liws_ledger_info (get_latest_ledger_info c')) = 2 ∧
  ∃ max_epoch retained, get_max_epoch d_chain = Ok max_epoch ∧ get_max_epoch c' = Ok retained ∧
    blocks_left d_chain c' 2 max_epoch ∧ numbers_left d_chain c' 2 ∧
    (∀ k v, ¬ row SingleEntrySchema c' k v) ∧
    (∀ k, k ∈ keys ↔
       ∃ key b, dead_block d_chain 2 max_epoch key b ∧ k ∈ block_batch_keys (key, b)) ∧
    (∀ e, e ∈ epochs ↔ retained < e ≤ max_epoch) ∧ latest_fresh c'.
Proof.
  destruct (ok_with_run (unwind_to_block 2 d_chain)
    (λ x, (length x.1 =? 0)%nat && bool_decide (x.2 = []))) as ([keys epochs] & Hrun & Hf).
  { vm_compute. reflexivity. }
  apply andb_true_iff in Hf as [Hk He]. apply Nat.eqb_eq in Hk. apply bool_decide_eq_true in He.
  exists keys, epochs, (unwind_to_block 2 d_chain).2. split; [exact Hrun|].
  split; [exact Hk|]. split; [exact He|]. split; [vm_compute; reflexivity|].
  split; [vm_compute; reflexivity|].
  apply (unwind_to_block_spec 2 d_chain keys epochs);
    [exact d_chain_tables|vm_compute; discriminate|exact Hrun].
Defined.

Definition d_key : N * HashValue := (5, dHash_of 7).

Lemma key_codecs_witness : ∃ kb,
  encode_epoch_hash d_key = Ok kb ∧ decode_epoch_hash kb = Ok d_key.
Proof.
  exists (epoch_hash_bytes d_key). split; [reflexivity|].
  destruct key_codecs as (_ & H & _). apply (H d_key). vm_compute. discriminate.
Defined.

(** Distinct blocks of the chain have distinct keys. *)
Ltac list_cases H :=
  repeat (apply elem_of_cons in H as [H|H]); [..|by apply not_elem_of_nil in H].

Lemma d_block_key_inj e r e' r' :
  e < 2 ^ 64 → r < 2 ^ 64 → e' < 2 ^ 64 → r' < 2 ^ 64 →
  block_key (d_nil e r) = block_key (d_nil e' r') → d_nil e r = d_nil e' r'.
Proof.
  intros He Hr He' Hr' [= Hid Heq]. change (e = e') in Hid. subst e'.
  apply (f_equal (λ h : dHash, proj1_sig h)) in Heq. simpl in Heq.
  rewrite !proj_dHash_of in Heq by lia. f_equal. lia.
Qed.

Lemma d_blocks_unique b :
  b ∈ d_blocks → Block_epoch b ≤ u64_max ∧ (block_key b = block_key (d_nil 2 2) → b = d_nil 2 2).
Proof.
  intros H. unfold d_blocks in H. list_cases H; subst b.
  all: split; [vm_compute; discriminate|apply d_block_key_inj; lia].
Qed.

Lemma d_numbers_unique e n id :
  (e, n, id) ∈ d_numbers → e ≤ u64_max ∧ (e = 2 → id = block_id (d_nil 2 2) → n = 4).
Proof.
  intros H. change d_numbers with [(1, 1, block_id (d_nil 1 1)); (1, 2, block_id (d_nil 1 2));
    (2, 3, block_id (d_nil 2 1)); (2, 4, block_id (d_nil 2 2))] in H.
  list_cases H; injection H as -> -> ->.
  all: split; [vm_compute; discriminate|intros He Hid].
  - discriminate He.
  - discriminate He.
  - exfalso. apply (f_equal (λ h : dHash, proj1_sig h)) in Hid. vm_compute in Hid. discriminate Hid.
  - reflexivity.
Qed.

Lemma saved_block_read_back_witness : ∃ o,
  get_db_block (Block_epoch (d_nil 2 2)) (block_id (d_nil 2 2)) d_numbered = Ok o ∧
  o = Some {| block_id := block_id (d_nil 2 2); block_block_data := block_block_data (d_nil 2 2);
              block_signature := None; block_block_number := Some 4 |}.
Proof.
  destruct (ok_with_run (save_blocks_and_quorum_certificates d_blocks d_qcs d_empty) (λ _, true))
    as ([] & Hsave & _); [vm_compute; reflexivity|].
  destruct (ok_with_run (save_block_numbers d_numbers d_saved) (λ _, true))
    as ([] & Hnumber & _); [vm_compute; reflexivity|].
  destruct (ok_with_run (get_db_block (Block_epoch (d_nil 2 2)) (block_id (d_nil 2 2)) d_numbered, tt)
    (λ _, true)) as (o & Hget & _); [vm_compute; reflexivity|].
  apply (f_equal fst) in Hget. exists o. split; [exact Hget|].
  refine (saved_block_read_back d_blocks d_qcs d_numbers d_empty d_saved d_numbered
    (d_nil 2 2) 4 o Hsave Hnumber _ eq_refl d_blocks_unique _ d_numbers_unique _ Hget).
  - apply (list_elem_of_lookup_2 _ 3). reflexivity.
  - apply (list_elem_of_lookup_2 _ 3). reflexivity.
  - vm_compute. discriminate.
Defined.

(** The ledger infos of the chain: block number, epoch and next epoch. *)
Definition d_ledger_infos (c : ConsensusDB) : list (N * (N * option N)) :=
  omap (λ x : (string * list N) * list N,
    if decide (x.1.1 = "ledger_info") then
      match read_entry LedgerInfoSchema (x.1.2, x.2) with
      | Ok (n, li) =>
          let info := li_commit_info (liws_ledger_info li) in
          Some (n, (bi_epoch info, bi_next_epoch_state info : option N))
      | _ => None
      end
    else None) (map_to_list (cdb_db c : dContents)).

Lemma d_ledger_infos_rows c n li :
  row LedgerInfoSchema c n li →
  (n, (bi_epoch (li_commit_info (liws_ledger_info li)),
       bi_next_epoch_state (li_commit_info (liws_ledger_info li)) : option N)) ∈ d_ledger_infos c.
Proof.
  intros (kb & vb & _ & Hd & Hl & Hv). apply list_elem_of_omap.
  exists ("ledger_info", kb, vb). split; [by apply elem_of_map_to_list|].
  rewrite decide_True by done. unfold read_entry. cbn [fst snd]. rewrite Hd. simpl in *. by rewrite Hv.
Qed.

Lemma d_chain_infos x :
  x ∈ d_ledger_infos d_chain →
  x ∈ [(1, (1, None)); (2, (1, Some 2)); (3, (2, None)); (4, (2, None))].
Proof.
  assert (H : forallb (λ x, bool_decide (x ∈
    [(1, (1, None)); (2, (1, Some 2)); (3, (2, None)); (4, (2, None))])) (d_ledger_infos d_chain) = true)
    by (vm_compute; reflexivity).
  rewrite forallb_forall in H. intros Hx%list_elem_of_In%H. by apply bool_decide_eq_true in Hx.
Qed.

Lemma d_chain_row n li :
  row LedgerInfoSchema d_chain n li → ∃ e next,
  bi_epoch (li_commit_info (liws_ledger_info li)) = e ∧
  bi_next_epoch_state (li_commit_info (liws_ledger_info li)) = next ∧
  (n, (e, next : option N)) ∈ [(1, (1, None)); (2, (1, Some 2)); (3, (2, None)); (4, (2, None))].
Proof.
  intros H%d_ledger_infos_rows%d_chain_infos. eexists _, _. split; [reflexivity|].
  split; [reflexivity|exact H].
Qed.

Lemma d_chain_order : chain_order d_chain.
Proof.
  split.
  - intros n n' li li' (e & next & -> & _ & H)%d_chain_row (e' & next' & -> & _ & H')%d_chain_row.
    list_cases H; list_cases H'; injection H as -> -> ->; injection H' as -> -> ->; lia.
  - intros n li es (e & next & -> & -> & H)%d_chain_row Hes.
    list_cases H; injection H as -> -> ->; naive_solver.
  - intros n li (e & next & -> & _ & H)%d_chain_row.
    list_cases H; injection H as -> -> ->; reflexivity.
Qed.

(** Round 0 of epoch 2 is anchored at the block that ended epoch 1. *)
Lemma get_reputation_anchor_spec_witness : ∃ a,
  get_reputation_anchor 2 0 d_chain = Ok (Some a) ∧ cba_block_number a = 2 ∧
  newest_anchor 2 0 (row LedgerInfoSchema d_chain) a.
Proof.
  destruct (ok_with_run (get_reputation_anchor 2 0 d_chain, tt)
    (λ o, match o with Some a => cba_block_number a =? 2 | None => false end)) as (o & Ha & Hn).
  { vm_compute. reflexivity. }
  apply (f_equal fst) in Ha. destruct o as [a|]; [|discriminate Hn]. exists a.
  split; [exact Ha|]. split; [by apply N.eqb_eq|].
  apply (get_reputation_anchor_spec 2 0 d_chain (Some a)); [|exact d_chain_order|exact Ha|reflexivity].
  apply to_ledger_infos, d_chain_tables.
Defined.
