(* ===== verification/ConcreteRecovery.v ===== *)
(** * Recovery on a concrete database

    The witnesses of [Recovery] run on the database of [ConcreteDb]: a restart
    from the last executed block of epoch 2, and one from the block that ended
    epoch 1. *)

From S2P Require Import Prelude Gaptos Types Bytes Certificates Payloads Blocks ConsensusDb Recovery.
From S2P Require Import ConcreteDb.

#[local] Existing Instances db_gaptos db_verifier db_crypto db_types db_schema_db
  db_types_laws db_schema_db_laws dHash_eqdec.

#[local] Instance db_block_info_laws : BlockInfoLaws.
Proof.
  split; try done. intros b1 b2 Heq%bool_decide_eq_true. by subst.
Qed.

#[local] Instance db_recovery_laws : RecoveryLaws.
Proof. intros b. by apply bool_decide_eq_true. Qed.

(** A vote is stored as its epoch and round, a timeout certificate as its epoch. *)
Definition r_vote (e r : N) : Vote :=
  {| vote_vote_data := VoteData_new (d_info e r : BlockInfo) (d_info e (r - 1) : BlockInfo);
     vote_author := 1 : Author; vote_ledger_info := (d_info e r, dHash_of 0, 0) : LedgerInfo;
     vote_signature := 1 : Signature; vote_two_chain_timeout := None |}.

Definition r_timeout (e : N) : TwoChainTimeoutCertificate :=
  {| tc_timeout := {| tmo_epoch := e; tmo_round := 1;
                      tmo_quorum_cert := Block_quorum_cert (d_nil e 1) |};
     tc_signatures_with_rounds := {| asr_sig := ([] : list N) : AggregateSignature; asr_rounds := [] |} |}.

#[local] Instance rec_types : RecoveryTypes := {|
  EpochState_eqdec := decide_rel eq : EqDecision N;
  EpochBlockInfo_eqdec := decide_rel eq : EqDecision (N * N * dHash);
  bi_executed_state_id _ := dHash_of 0;
  li_consensus_block_id l := bi_id (li_commit_info l);
  bcs_vote v := Ok [Vote_epoch v; Vote_round v];
  vote_of_bcs data := match data with [e; r] => Ok (r_vote e r) | _ => Err (Msg "bcs") end;
  bcs_timeout_cert t := Ok [tc_epoch t];
  timeout_cert_of_bcs data := match data with [e] => Ok (r_timeout e) | _ => Err (Msg "bcs") end;
|}.

(** ** Rows of a table *)

Definition all_rows {K V} (s : Schema K V) (c : ConsensusDB) (f : K → V → bool) : bool :=
  forallb (λ x : (string * list N) * list N,
    if decide (x.1.1 = column_family s) then
      match read_entry s (x.1.2, x.2) with Ok (k, v) => f k v | _ => true end
    else true) (map_to_list (cdb_db c : dContents)).

Lemma all_rows_sound {K V} (s : Schema K V) c f k v : all_rows s c f = true → row s c k v → f k v = true.
Proof.
  unfold all_rows. rewrite forallb_forall. intros Hall (kb & vb & _ & Hd & Hl & Hv).
  specialize (Hall (column_family s, kb, vb)). simpl in Hall. rewrite decide_True in Hall by done.
  unfold read_entry in Hall. cbn [fst snd] in Hall. rewrite Hd in Hall. cbn in Hall.
  rewrite Hv in Hall. cbn in Hall. apply Hall. by apply list_elem_of_In, elem_of_map_to_list.
Qed.

Definition hash_eqb (h h' : dHash) : bool := proj1_sig h =? proj1_sig h'.

Lemma hash_eqb_eq h h' : hash_eqb h h' = true → h = h'.
Proof.
  unfold hash_eqb. intros Heq%N.eqb_eq. by rewrite <- (dHash_of_proj h), Heq, dHash_of_proj.
Qed.

(** The tables of epoch 2. *)
Definition stored_epochb (c : ConsensusDB) (epoch : N) : bool :=
  table_okb BlockSchema (cdb_db c) && table_okb QCSchema (cdb_db c) &&
  table_okb BlockNumberSchema (cdb_db c) &&
  all_rows BlockSchema c (λ key b, (Block_epoch b =? key.1) && hash_eqb (block_id b) key.2) &&
  all_rows QCSchema c (λ key qc, hash_eqb (bi_id (certified_block qc)) key.2) &&
  all_rows BlockNumberSchema c (λ key n, all_rows BlockNumberSchema c (λ key' n',
    negb (key.1 =? epoch) || negb (key'.1 =? epoch) || negb (n =? n') || hash_eqb key.2 key'.2)) &&
  all_rows BlockSchema c (λ key _, negb (hash_eqb key.2 hash_max)) &&
  all_rows QCSchema c (λ key _, negb (hash_eqb key.2 hash_max)) &&
  all_rows BlockNumberSchema c (λ key _, negb (hash_eqb key.2 hash_max)).

Lemma not_max_row {V} (s : Schema (N * HashValue) V) c epoch v :
  all_rows s c (λ key _, negb (hash_eqb key.2 hash_max)) = true → ¬ row s c (epoch, hash_max) v.
Proof.
  intros Hall Hr. pose proof (all_rows_sound _ _ _ _ _ Hall Hr) as Hf. cbv beta in Hf.
  unfold hash_eqb in Hf. cbn [snd] in Hf. by rewrite N.eqb_refl in Hf.
Qed.

Lemma stored_epochb_sound c epoch : stored_epochb c epoch = true → stored_epoch c epoch.
Proof.
  unfold stored_epochb. rewrite !andb_true_iff.
  intros [[[[[[[[Hb Hq] Hn] Hbk] Hqk] Hone] Hbm] Hqm] Hnm]. split; try (by apply table_okb_sound);
    try (intros ?; by apply not_max_row).
  - intros [e h] b Hr. pose proof (all_rows_sound _ _ _ _ _ Hbk Hr) as Hf. cbv beta in Hf.
    apply andb_true_iff in Hf as [He Hh]. apply N.eqb_eq in He. apply hash_eqb_eq in Hh.
    unfold block_key. cbn [fst snd] in *. by rewrite He, Hh.
  - intros key qc Hr. apply hash_eqb_eq. exact (all_rows_sound _ _ _ _ _ Hqk Hr).
  - intros id id' n Hr Hr'. pose proof (all_rows_sound _ _ _ _ _ Hone Hr) as Hf. cbv beta in Hf.
    pose proof (all_rows_sound _ _ _ _ _ Hf Hr') as Hg. cbv beta in Hg. cbn [fst snd] in Hg.
    rewrite !N.eqb_refl in Hg. by apply hash_eqb_eq.
Qed.

(** ** The restarts *)

(** The chain with a vote of epoch 1 and a timeout certificate of epoch 2. *)
Definition r_db : ConsensusDB :=
  ((_ ← save_vote [1; 2]; save_highest_2chain_timeout_certificate [2]) d_chain).2.

Definition r_proxy : StorageWriteProxy :=
  {| swp_db := r_db; swp_aptos_latest := Ok (get_latest_ledger_info r_db) |}.

Lemma r_stored : stored_epoch r_db 2.
Proof. apply stored_epochb_sound. vm_compute. reflexivity. Qed.

Lemma r_entries : entries_readable r_db.
Proof.
  split; intros data Hr.
  - destruct data as [|e [|r [|]]]; try by eexists.
    all: by pose proof (all_rows_sound SingleEntrySchema r_db
      (λ k data, match k with LastVote => (length data =? 2)%nat | _ => true end) _ _
      ltac:(vm_compute; reflexivity) Hr).
  - destruct data as [|e [|]]; try by eexists.
    all: by pose proof (all_rows_sound SingleEntrySchema r_db
      (λ k data, match k with LastVote => true | _ => (length data =? 1)%nat end) _ _
      ltac:(vm_compute; reflexivity) Hr).
Qed.

(** A row that a read has found. *)
Lemma found_row {K V} (s : Schema K V) c k kb (f : V → bool) :
  encode_key s k = Ok kb → decode_key s kb = Ok k →
  ok_with (get s k c, tt) (λ o, match o with Some v => f v | None => false end) = true →
  ∃ v, row s c k v ∧ f v = true.
Proof.
  intros Hk Hd (o & Hg & Hf)%ok_with_run. apply (f_equal fst) in Hg. cbn [fst] in Hg.
  destruct o as [v|]; [|done]. exists v. split; [|done].
  assert (Hok : key_ok s k) by (by exists kb). by apply (get_row s c k (Some v) Hok Hg).
Qed.

(** The block of round 2 of epoch 2 has number 4; the vote of epoch 1 is cleaned up. *)
Lemma restart_from_executed_block_witness : ∃ b d s',
  Block_round b = 2 ∧ start true 2 4 r_proxy = (Ok d, s') ∧
  restarts r_db 2 4 b d ∧ cleaned r_db (swp_db s') d ∧ length (rd_blocks d) = 1%nat.
Proof.
  set (id := block_id (d_nil 2 2)).
  assert (Hid : ∀ b, row BlockSchema r_db (2, id) b → block_id b = id).
  { intros b Hr. by pose proof (se_block_key _ _ r_stored _ _ Hr) as [= _ ?]. }
  destruct (found_row BlockSchema r_db (2, id) (epoch_hash_bytes (2, id)) (λ b, Block_round b =? 2))
    as (b & Hb & Hround); [reflexivity|by apply decode_encode_epoch_hash|vm_compute; reflexivity|].
  destruct (found_row BlockNumberSchema r_db (2, id) (epoch_hash_bytes (2, id)) (λ n, n =? 4))
    as (n & Hn & ->%N.eqb_eq); [reflexivity|by apply decode_encode_epoch_hash|vm_compute; reflexivity|].
  destruct (found_row QCSchema r_db (2, id) (epoch_hash_bytes (2, id)) (λ _, true))
    as (qc & Hqc & _); [reflexivity|by apply decode_encode_epoch_hash|vm_compute; reflexivity|].
  destruct (ok_with_run (get_data 4 2 r_db, tt) (λ _, true)) as (raw & Hraw & _); [vm_compute; reflexivity|].
  destruct (ok_with_run (recovery_ledger_info 4 r_proxy, tt) (λ _, true)) as (li & Hli & _);
    [vm_compute; reflexivity|].
  destruct (ok_with_run (start true 2 4 r_proxy) (λ d, (length (rd_blocks d) =? 1)%nat))
    as (d & Hd & Hlen); [vm_compute; reflexivity|].
  specialize (Hid b Hb). rewrite <- Hid in Hb, Hn, Hqc.
  destruct (restart_from_executed_block true 2 4 r_proxy b qc raw li) as (d' & _ & Hrs & Hst);
    [by vm_compute|exact r_stored|exact Hn|exact Hb|exact Hqc|exact r_entries
    |exact (f_equal fst Hraw)|exact (f_equal fst Hli)|].
  specialize (Hst _ _ Hd). destruct (cleanup_written _ d'); [|by destruct Hst as [m [=]]].
  destruct Hst as [[= <-] Hcl].
  exists b, d, (start true 2 4 r_proxy).2. apply N.eqb_eq in Hround. apply Nat.eqb_eq in Hlen.
  split; [exact Hround|]. split; [exact Hd|]. split; [exact Hrs|]. split; [exact Hcl|exact Hlen].
Defined.

Lemma r_no_number_2 id : ¬ row BlockNumberSchema r_db (2, id) 2.
Proof.
  intros Hr. assert (Hall : all_rows BlockNumberSchema r_db
    (λ key n, negb (key.1 =? 2) || negb (n =? 2)) = true) by (vm_compute; reflexivity).
  pose proof (all_rows_sound _ _ _ _ _ Hall Hr) as Hf. discriminate Hf.
Qed.

(** Epoch 2 restarts from the genesis block that block 2, the last of epoch 1, gives it. *)
Lemma restart_at_epoch_start_witness : ∃ li g d,
  li_block_number (liws_ledger_info li) = 2 ∧
  make_genesis_block_from_ledger_info (liws_ledger_info li) = Ok g ∧
  recover true 2 2 r_proxy = Ok d ∧ block_id (ri_block (rd_root d)) = block_id g ∧
  StronglySorted block_le (rd_blocks d).
Proof.
  destruct (ok_with_run (get_data 2 2 r_db, tt) (λ _, true)) as (raw & Hraw & _); [vm_compute; reflexivity|].
  destruct (ok_with_run (recovery_ledger_info 2 r_proxy, tt) (λ li : LedgerInfoWithSignatures,
    (li_block_number (liws_ledger_info li) =? 2) && li_ends_epoch (liws_ledger_info li) &&
    (li_epoch (liws_ledger_info li) =? 1) &&
    bool_decide (is_Some (li_next_epoch_state (liws_ledger_info li))))) as (li & Hli & Hf);
    [vm_compute; reflexivity|].
  rewrite !andb_true_iff in Hf. destruct Hf as [[[Hnum Hend] Hep] Hnext].
  apply N.eqb_eq in Hnum, Hep. apply bool_decide_eq_true in Hnext.
  destruct (restart_at_epoch_start 2 2 r_proxy raw li) as (g & d & Hg & Hd & Hid & _ & Hs & _);
    [by vm_compute|exact r_stored| |exact r_entries|exact (f_equal fst Hraw)|exact (f_equal fst Hli)
    |exact Hend|by rewrite Hep|exact Hnext|].
  - exact r_no_number_2.
  - exists li, g, d. split; [exact Hnum|]. split; [exact Hg|]. split; [exact Hd|].
    split; [exact Hid|exact Hs].
Defined.
