(* ===== verification/ConcreteStore.v ===== *)
(** * Concrete runs of the block store and of synchronization

    The block store on the database of [ConcreteDb]: four blocks of epoch 2 above a
    root, their certificates, two orders to execute and a commit; then a server, a
    client that fetches its chain, and a peer that answers without blocks. *)

From S2P Require Import Prelude Gaptos Types Bytes Certificates Payloads Blocks SafetyRules SafetySpec Bft PendingVotes.
From S2P Require Import BlockTree BlockBufferManager BufferItem ConsensusDb Recovery BlockStore SyncManager.
From S2P Require Import StoreSpec SyncSpec ConcreteDb ConcreteRecovery.

#[local] Existing Instances db_gaptos db_verifier db_crypto db_types db_schema_db
  db_types_laws db_schema_db_laws dHash_eqdec db_block_info_laws rec_types
  codec_N codec_prod codec_option codec_list codec_hash.

(** ** Instances *)

#[local] Instance store_partial : PartialLedgerInfo := {|
  LedgerInfoWithVerifiedSignatures := dLedgerInfo * gmap N N;
  livs_new li := (li, ∅);
  livs_ledger_info := fst;
  livs_signatures := snd;
  livs_add_signature a s l := (l.1, <[a := s]> l.2);
  livs_aggregate_signatures l _ := Ok (l.1, (map_to_list l.2).*1);
|}.

(** A block by its id, number, epoch, time and number of transactions. *)
#[local] Instance store_api : ApiTypes := {|
  BlockId := dHash;
  Bytes32 := dHash;
  HashValue_of_bytes b := b;
  HashValue_to_bytes h := h;
  block_id_bytes b := b;
  ExternalBlock := dHash * N * N * N * N;
  eb_block_id b := b.1.1.1.1;
  eb_block_number b := b.1.1.1.2;
  eb_epoch b := b.1.1.2;
  eb_usecs b := b.1.2;
  eb_num_txns b := b.2;
  VerifiedTxnWithAccountSeqNum := N;
  Transaction := N;
  TxnStatus := bool;
  is_discarded b := b;
  BlockEndInfo := unit;
  EventBytes := unit;
  OtherEvent := unit;
  ApiValidatorSet := unit;
  validator_set_from_bytes _ := Ok tt;
  ValidatorSet := unit;
  convert_validator_set _ := Ok tt;
  EpochState_new e _ := e;
|}.

#[local] Instance store_pipe : PipelineTypes := {|
  Randomness := N * N * list N;
  Callback := unit;
  BufferItem.bi_executed_state_id _ := dHash_of 0;
  BufferItem.bi_next_epoch_state := dbi_next;
  BlockInfo_new_with_epoch_block_info e r id _ v t n i := (e, r, id, v, t, n, i);
  bi_change_timestamp t b := let '(e, r, id, v, _, n, i) := b in Ok (e, r, id, v, t, n, i);
  EpochBlockInfo_of i := (eci_block_number i, eci_epoch_start_timestamp_usecs i, dHash_of 0);
  consensus_alpha_active _ := true;
  livs_new_with li m := (li, m);
  hash_of_address a := dHash_of a;
|}.

#[local] Instance store_types : StoreTypes := {|
  Randomness_eqdec := decide_rel eq : EqDecision (N * N * list N);
  Randomness_new e r data := (e, r, data);
  randomness_bytes x := x.2;
  BlockId_of id := id;
  Bytes32_eqdec := dHash_eqdec;
  Random := list N;
  Random_from_bytes data := data;
  ExtraDataType := unit;
  ExtraDataType_DKG _ := tt;
  ExtraDataType_JWK _ := tt;
  DKGTranscript := unit;
  ProviderJWKs := unit;
  validator_transaction _ := inl tt;
  bcs_dkg_transcript _ := None;
  pj_issuer _ := [];
  pj_version _ := 0;
  JWKMoveStruct := unit;
  pj_jwks _ := [];
  jwk_try_from _ := None;
  bcs_provider_jwks _ _ _ := None;
  verified_txn t := t;
  ExternalBlock_new txns id n t e _ _ _ _ _ _ := (id, n, e, t, N.of_nat (length txns));
  transactions_of _ := [];
  meanwhile m := m;
|}.

#[local] Instance store_accepts : StorageAccepts.
Proof.
  split.
  - intros K V sc k v batch kb vb Hk Hv. simpl. rewrite Hk, Hv. by eexists.
  - intros batch d. by eexists.
  - intros qc. by eexists.
  - intros tc. by eexists.
  - intros qc data H. change (@Ok Anyhow _ (ser (qc_parts qc)) = Ok data) in H. apply Ok_inj in H as <-.
    etrans; [apply (of_words_ser (A := dQc))|]. by destruct qc as [[] ?].
Qed.

(** ** The chain of epoch 2 *)

(** Round [r] of epoch [e] has the id [e * 2 ^ 64 + r]. *)
Definition s_round (id : HashValue) : Round :=
  if 2 ^ 64 <=? proj1_sig id then proj1_sig id mod 2 ^ 64 else 0.
Definition s_parent (id : HashValue) : HashValue :=
  if s_round id =? 0 then GENESIS_BLOCK_ID else dHash_of (proj1_sig id - 1).
Definition s_number (id : HashValue) : N := s_round id + 10.

Lemma s_round_parent id : s_round id ≠ 0 → s_round (s_parent id) = s_round id - 1.
Proof.
  intros Hr. unfold s_parent. rewrite (proj2 (N.eqb_neq _ _) Hr). pose proof (dHash_bound id) as Hb.
  change (256 ^ N.of_nat 32) with (2 ^ 256) in Hb. unfold s_round in *. rewrite proj_dHash_of by lia.
  generalize dependent (proj1_sig id). intros x Hr Hb. destruct (N.leb_spec (2 ^ 64) x); [|done].
  pose proof (N.div_mod x (2 ^ 64) ltac:(done)) as Hx. pose proof (N.mod_lt x (2 ^ 64) ltac:(done)) as Hlt.
  assert (Hq : 1 ≤ x / 2 ^ 64) by (apply N.div_le_lower_bound; lia).
  remember (x / 2 ^ 64) as q eqn:Eq. remember (x mod 2 ^ 64) as r eqn:Er. clear Eq Er.
  rewrite (proj2 (N.leb_le _ _)) by lia. symmetry. apply (N.mod_unique _ _ q); lia.
Qed.

Lemma s_names : names s_parent s_round.
Proof.
  split.
  - intros id Hr. rewrite s_round_parent by done. lia.
  - intros id Hr. unfold s_parent. by rewrite Hr.
  - by vm_compute.
Qed.

Lemma s_numbers id : s_round id ≠ 0 → s_number id = s_number (s_parent id) + 1.
Proof. intros Hr. unfold s_number. rewrite s_round_parent by done. lia. Qed.

Definition s_qc (r c : N) : QuorumCert :=
  qc_of_parts (d_info 2 r, d_info 2 (r - 1), (d_info 2 c, dHash_of 0, 0, [])).

(** A nil block of round [r], and the one with its number. *)
Definition s_nil (r : N) : Block :=
  let bd := {| bd_epoch := 2; bd_round := r; bd_timestamp_usecs := 0; bd_quorum_cert := s_qc (r - 1) 0;
               bd_block_type := NilBlock [(r, 7)] |} in
  {| block_id := hash_block_data bd; block_block_data := bd; block_signature := None; block_block_number := None |}.
Definition s_ordered (r : N) : Block := (set_block_number (s_nil r) (r + 10)).1.

Definition s_data (id : HashValue) : BlockData := block_block_data (s_nil (s_round id)).

(** The certificate that commits round [c]. *)
Definition s_proof (c : N) : WrappedLedgerInfo := into_wrapped_ledger_info (s_qc (c + 1) c).
Definition s_decision (c : N) : LedgerInfoWithSignatures := (d_info 2 c, dHash_of 0, 0, []).

(** The database with the root and its certificate. *)
Definition s_storage : StorageWriteProxy :=
  (save_tree [s_ordered 1] [s_qc 1 1] [(2, 11, block_id (s_nil 1))]
     {| swp_db := d_empty; swp_aptos_latest := Err (Msg "none") |}).2.

Definition s_config : StoreConfig :=
  {| sc_vote_back_pressure_limit := 10; sc_order_vote_enabled := true; sc_is_validator := true;
     sc_enable_randomness := false; sc_require_block_randomness := false; sc_validator_indices := ∅;
     sc_batch_commit_size := 0; sc_execute_tx := true |}.

Definition s_tree : BlockTree :=
  match BlockTree_new (s_ordered 1) (s_qc 1 1) (s_proof 1) (s_proof 1) 10 None with
  | Ok t => t
  | _ => {| bt_id_to_block := ∅; bt_ordered_root_id := dHash_of 0; bt_commit_root_id := dHash_of 0;
            bt_highest_certified_block_id := dHash_of 0; bt_head_block_id := dHash_of 0;
            bt_safe_block_id := dHash_of 0; bt_finalized_block_id := dHash_of 0;
            bt_highest_quorum_cert := s_qc 1 1; bt_highest_2chain_timeout_cert := None;
            bt_highest_ordered_cert := s_proof 1; bt_highest_commit_cert := s_proof 1;
            bt_id_to_quorum_cert := ∅; bt_pruned_block_ids := []; bt_max_pruned_blocks_in_mem := 0 |}
  end.

Definition s_start : BlockStore :=
  {| bs_inner := s_tree; bs_cells := build_cells (s_ordered 1); bs_storage := s_storage;
     bs_pending_blocks := PendingBlocks_new; bs_executor := Manager_new 256; bs_sent := []; bs_config := s_config |}.

(** The certificate of round 3 commits round 2: the first order to execute sends round
    2 with it and round 3 with the order itself.  A block without its parent is
    refused. *)
Definition s_ops : list StoreOp :=
  [InsertBlock (s_nil 2); InsertBlock (s_nil 3); InsertBlock (s_nil 4); InsertBlock (s_nil 6);
   InsertQuorumCert (s_qc 2 0); InsertQuorumCert (s_qc 3 2); SendForExecution (s_proof 3)].

Definition s_mid : BlockStore := foldl (λ s op, (run_op op s).2) s_start s_ops.

(** Then round 3 is committed, and the rest follows. *)
Definition s_committed : Block := default (s_nil 3) (get_block (bs_inner s_mid) (block_id (s_nil 3))).

Definition s_ops_rest : list StoreOp :=
  [Committed [s_committed] (s_proof 3) (s_decision 3); InsertTimeout (r_timeout 2);
   InsertBlock (s_nil 5); SendForExecution (s_proof 3); SendForExecution (s_proof 5)].

Lemma s_root : BlockTree_new (s_ordered 1) (s_qc 1 1) (s_proof 1) (s_proof 1) 10 None = Ok s_tree.
Proof.
  assert (Hok : is_ok (BlockTree_new (s_ordered 1) (s_qc 1 1) (s_proof 1) (s_proof 1) 10 None) = true)
    by (vm_compute; reflexivity).
  unfold s_tree. by destruct (BlockTree_new _ _ _ _ _ _).
Qed.

(** A named block of the chain, as a test. *)
Definition namedb (b : Block) : bool :=
  (Block_round b =? s_round (block_id b)) && hash_eqb (Block_parent_id b) (s_parent (block_id b)).

Lemma namedb_ok b : namedb b = true → named s_parent s_round b.
Proof. unfold namedb. rewrite andb_true_iff. intros [Hr%N.eqb_eq Hp%hash_eqb_eq]. done. Qed.

Lemma s_start_inv : store_inv s_parent s_round s_number s_start.
Proof.
  apply (store_start _ _ _ (s_ordered 1) (s_qc 1 1) (s_proof 1) (s_proof 1) 10 None s_tree).
  - exact s_root.
  - vm_compute. discriminate.
  - apply namedb_ok. vm_compute. reflexivity.
  - intros Heq. apply (f_equal (λ h : dHash, proj1_sig h)) in Heq. vm_compute in Heq. discriminate Heq.
  - vm_compute. reflexivity.
  - vm_compute. discriminate.
  - reflexivity.
Qed.

Lemma s_proposal r : r ∈ [2; 3; 4; 5; 6] → proposal_ok s_parent s_round s_number s_data (s_nil r).
Proof.
  intros Hr. assert (Hround : s_round (block_id (s_nil r)) = r) by (list_cases Hr; subst r; vm_compute; reflexivity).
  split; [apply namedb_ok; list_cases Hr; subst r; vm_compute; reflexivity|]. split; [done|].
  unfold s_number, s_data. rewrite Hround. split; [list_cases Hr; subst r; vm_compute; discriminate|].
  split; [done|by eexists].
Qed.

Lemma s_anc_3 : anc s_parent s_round (block_id (s_nil 1)) (block_id (s_nil 3)).
Proof.
  apply anc_step; [vm_compute; discriminate|].
  replace (s_parent (block_id (s_nil 3))) with (block_id (s_nil 2)) by (apply hash_eqb_eq; vm_compute; reflexivity).
  apply anc_step; [vm_compute; discriminate|].
  replace (s_parent (block_id (s_nil 2))) with (block_id (s_nil 1)) by (apply hash_eqb_eq; vm_compute; reflexivity).
  constructor.
Qed.

Lemma s_commit : commit_ok s_parent s_round (bs_inner s_mid) [s_committed] (s_proof 3) (s_decision 3) s_committed.
Proof.
  assert (Hr : bt_commit_root_id (bs_inner s_mid) = block_id (s_nil 1)) by (apply hash_eqb_eq; vm_compute; reflexivity).
  assert (Ho : bt_ordered_root_id (bs_inner s_mid) = block_id (s_nil 3)) by (apply hash_eqb_eq; vm_compute; reflexivity).
  assert (Hh : bt_highest_certified_block_id (bs_inner s_mid) = block_id (s_nil 3)) by (apply hash_eqb_eq; vm_compute; reflexivity).
  assert (Hid : block_id s_committed = block_id (s_nil 3)) by (apply hash_eqb_eq; vm_compute; reflexivity).
  assert (Hround : Block_round s_committed = 3) by (vm_compute; reflexivity).
  assert (Hsome : bool_decide (is_Some (get_block (bs_inner s_mid) (block_id (s_nil 3)))) = true) by (vm_compute; reflexivity).
  apply bool_decide_eq_true in Hsome as [b Hb].
  assert (Hm : bi_match_ordered_only (WrappedLedgerInfo_commit_info (s_proof 3))
    (li_commit_info (liws_ledger_info (s_decision 3))) = true) by (vm_compute; reflexivity).
  split; rewrite ?Hr, ?Ho, ?Hh, ?Hid, ?Hround.
  - reflexivity.
  - unfold s_committed. by rewrite Hb.
  - split; [exact s_anc_3|constructor].
  - constructor.
  - unfold WrappedLedgerInfo_create_merged_with_executed_state. rewrite Hm. eexists. split; [reflexivity|].
    split; [apply hash_eqb_eq; vm_compute; reflexivity|vm_compute; reflexivity].
Qed.

Lemma s_ops_ok : ops_ok s_parent s_round s_number s_data s_start (s_ops ++ s_ops_rest).
Proof.
  assert (Hp : ∀ r, r ∈ [2; 3; 4; 5; 6] → proposal_ok s_parent s_round s_number s_data (s_nil r)) by exact s_proposal.
  cbn [ops_ok op_ok app s_ops s_ops_rest].
  repeat (split; [first [apply Hp; set_solver|exact I|exists s_committed; exact s_commit]|]). exact I.
Qed.

(** The theorem on this run: rounds 2 to 5 are sent, in three batches. *)
Lemma ordered_blocks_sent_once_witness : ∃ s',
  run_ops (s_ops ++ s_ops_rest) s_start = (Ok tt, s') ∧
  Block_round <$> sent_blocks (bs_sent s') = [2; 3; 4; 5] ∧
  linked s_parent s_round (block_id (s_nil 1)) (block_id <$> sent_blocks (bs_sent s')) (block_id (s_nil 5)) ∧
  NoDup (block_id <$> sent_blocks (bs_sent s')) ∧ Forall (batch_ok s_number) (bs_sent s').
Proof.
  destruct (runs_inv _ _ _ (ordered_blocks_sent_once s_parent s_round s_names s_number s_numbers s_data s_start
    (s_ops ++ s_ops_rest) s_start_inv s_ops_ok)) as ([] & s' & Hrun & _ & outs & Hs & Hl & Hnd & Hb).
  change (bs_sent s_start) with ([] : list StoreOutput) in Hs. rewrite app_nil_l in Hs. rewrite <- Hs in *.
  assert (Hr1 : bt_ordered_root_id (bs_inner s_start) = block_id (s_nil 1)) by (apply hash_eqb_eq; vm_compute; reflexivity).
  assert (Hr2 : bt_ordered_root_id (bs_inner (run_ops (s_ops ++ s_ops_rest) s_start).2) = block_id (s_nil 5))
    by (apply hash_eqb_eq; vm_compute; reflexivity).
  assert (Hsent : Block_round <$> sent_blocks (bs_sent (run_ops (s_ops ++ s_ops_rest) s_start).2) = [2; 3; 4; 5])
    by (vm_compute; reflexivity).
  rewrite Hrun in Hr2, Hsent. simpl in Hr2, Hsent. rewrite Hr1, Hr2 in Hl.
  exists s'. split; [exact Hrun|]. split; [exact Hsent|]. split; [exact Hl|]. split; [exact Hnd|exact Hb].
Defined.

Lemma s_start_durable : durable s_data s_start.
Proof.
  destruct (save_tree_accepted [s_ordered 1] [s_qc 1 1] [(2, 11, block_id (s_nil 1))]
    {| swp_db := d_empty; swp_aptos_latest := Err (Msg "none") |}) as (w & Hw & Hs).
  { intros b ->%list_elem_of_singleton. by eexists. }
  assert (Hst : w = s_storage) by (unfold s_storage; by rewrite Hw). subst w.
  assert (Hget : ∀ id b, get_block (bs_inner s_start) id = Some b → id = block_id (s_nil 1) ∧ b = s_ordered 1).
  { intros id b (lb & Hlb & <-)%get_block_lookup. change (bs_inner s_start) with s_tree in Hlb.
    rewrite (proj1 (BlockTree_new_maps _ _ _ _ _ _ _ s_root)) in Hlb. destruct (proj1 (lookup_singleton_Some _ _ _ _) Hlb) as [<- <-].
    split; reflexivity. }
  split.
  - apply (tables_saved s_data _ _ _ _ _ Hs); [split; intros e id vb Hvb; discriminate Hvb|].
    intros b ->%list_elem_of_singleton. reflexivity.
  - intros id b [-> ->]%Hget. reflexivity.
  - intros id b [-> ->]%Hget. apply (sv_blocks _ _ _ _ _ Hs). apply list_elem_of_singleton. reflexivity.
  - intros id b n [-> ->]%Hget [= <-]. vm_compute. reflexivity.
  - intros id qc Hqc. change (bt_id_to_quorum_cert s_tree !! id = Some qc) in Hqc.
    rewrite (proj2 (BlockTree_new_maps _ _ _ _ _ _ _ s_root)) in Hqc. destruct (proj1 (lookup_singleton_Some _ _ _ _) Hqc) as [<- <-].
    split; [reflexivity|]. apply (sv_certs _ _ _ _ _ Hs). apply list_elem_of_singleton. reflexivity.
Qed.

(** Round 4 is read back from the database with its number. *)
Lemma tree_survives_restart_witness : ∃ s' b b',
  run_ops (s_ops ++ s_ops_rest) s_start = (Ok tt, s') ∧
  get_block (bs_inner s') (block_id (s_nil 4)) = Some b ∧ block_block_number b = Some 14 ∧
  get_db_block (Block_epoch b) (block_id (s_nil 4)) (consensus_db s') = Ok (Some b') ∧
  block_block_data b' = block_block_data b ∧ block_block_number b' = Some 14.
Proof.
  destruct (runs_inv _ _ _ (tree_survives_restart s_parent s_round s_names s_number s_numbers s_data s_start
    (s_ops ++ s_ops_rest) s_start_inv s_start_durable s_ops_ok)) as ([] & s' & Hrun & Hread & _).
  assert (Htest : match get_block (bs_inner (run_ops (s_ops ++ s_ops_rest) s_start).2) (block_id (s_nil 4)) with
    | Some b => bool_decide (block_block_number b = Some 14) && (Block_epoch b =? 2)
    | None => false end = true) by (vm_compute; reflexivity).
  assert (Hdb : ok_with (get_db_block 2 (block_id (s_nil 4)) (consensus_db (run_ops (s_ops ++ s_ops_rest) s_start).2), tt)
    (λ _, true) = true) by (vm_compute; reflexivity).
  rewrite Hrun in Htest, Hdb. cbn [snd] in Htest, Hdb.
  destruct (get_block (bs_inner s') (block_id (s_nil 4))) as [b|] eqn:Hb; [|discriminate Htest].
  apply andb_true_iff in Htest as [Hn He]. apply bool_decide_eq_true in Hn. apply N.eqb_eq in He.
  destruct (ok_with_run _ _ Hdb) as (o & Ho & _). apply (f_equal fst) in Ho. cbn [fst] in Ho. rewrite <- He in Ho.
  destruct (Hread _ _ _ Hb ltac:(rewrite He; vm_compute; discriminate) Ho) as (b' & -> & Hd & Hnum).
  exists s', b, b'. split; [exact Hrun|]. split; [exact Hb|]. split; [exact Hn|]. split; [exact Ho|].
  split; [exact Hd|exact (Hnum _ Hn)].
Defined.

(** ** Retrieval *)

#[local] Instance sync_types : SyncTypes := {|
  ebi_block_id i := i.2;
  liws_get_voters _ peers := peers;
|}.

(** Here vote data hash to what ledger infos carry, so that certificates verify. *)
#[local] Instance sync_crypto : Crypto := {|
  hash_vote_data _ := dHash_of 0;
  hash_block_data b := dHash_of (bd_epoch b * 2 ^ 64 + bd_round b);
  hash_batch_payload _ _ := dHash_of 4;
  ValidatorSigner := N;
  ValidatorSigner_new a _ := a;
  signer_author s := s;
  signer_public_key s := s;
  signer_sign s _ := Ok s;
  vv_verify _ _ _ _ := Ok tt;
  vv_verify_multi_signatures _ _ _ := Ok tt;
  vv_verify_aggregate_signatures _ _ _ := Ok tt;
  vv_aggregate_signatures _ _ := Ok [];
|}.

Definition p_info (r : N) : dBlockInfo := (2, r, dHash_of (2 * 2 ^ 64 + r), 0, r, None, None).
Definition p_qc (r : N) : QuorumCert :=
  qc_of_parts (p_info r, p_info (r - 1), (d_info 2 0, dHash_of 0, 0, [])).

(** A proposal of validator 1. *)
Definition p_block (r : N) : Block :=
  let bd := {| bd_epoch := 2; bd_round := r; bd_timestamp_usecs := r; bd_quorum_cert := p_qc (r - 1);
               bd_block_type := Proposal (DirectMempool []) (1 : Author) [] |} in
  {| block_id := hash_block_data bd; block_block_data := bd; block_signature := Some (1 : Signature);
     block_block_number := None |}.

Definition p_root : Block := (set_block_number (p_block 1) 11).1.

Definition p_tree : BlockTree :=
  match BlockTree_new p_root (p_qc 1) (into_wrapped_ledger_info (s_qc 2 1)) (s_proof 1) 10 None with
  | Ok t => t
  | _ => s_tree
  end.

(** A server with rounds 1 to 4 and their certificates in its tree. *)
Definition p_server : BlockStore :=
  ((_ ← append_blocks [(p_block 2, None, None); (p_block 3, None, None); (p_block 4, None, None)];
    append_certs [p_qc 2; p_qc 3; p_qc 4])
   {| bs_inner := p_tree; bs_cells := build_cells p_root;
      bs_storage := {| swp_db := d_empty; swp_aptos_latest := Err (Msg "none") |};
      bs_pending_blocks := PendingBlocks_new; bs_executor := Manager_new 256; bs_sent := [];
      bs_config := s_config |}).2.

Definition p_request : BlockRetrievalRequest :=
  new_with_target_block_id (block_id (p_block 4)) 3 (block_id (p_block 2)).

Definition p_client (answers : list (list (AccountAddress * result Anyhow BlockRetrievalResponse))) : BlockRetriever :=
  {| ret_author := (1 : AccountAddress); ret_validators := tt; ret_preferred_peer := (2 : AccountAddress);
     ret_available_peers := [(2 : AccountAddress); 3]; ret_max_blocks_to_request := 3; ret_now := 100;
     ret_answers := answers |}.

(** The tests of the client, and the ids of a block and its certificate. *)
Definition servedb (id : HashValue) (b : Block) : bool :=
  hash_eqb (block_id b) id && negb (Block_is_genesis_block b)
  && is_ok (validate_signature b tt) && is_ok (Block_verify_well_formed b 100).

Definition p_serves : bool :=
  bool_decide (map_Forall (λ id lb, servedb id (lb_executed_block lb) = true) (bt_id_to_block (bs_inner p_server)))
  && bool_decide (map_Forall (λ id qc, hash_eqb (bi_id (certified_block qc)) id = true)
                    (bt_id_to_quorum_cert (bs_inner p_server))).

Lemma p_found id b qc :
  find_block p_server 2 id = Ok (Some (b, Some qc)) →
  servedb id b = true ∧ hash_eqb (bi_id (certified_block qc)) id = true.
Proof.
  assert (Hall : p_serves = true) by (vm_compute; reflexivity).
  apply andb_true_iff in Hall as [Hb Hq]. apply bool_decide_eq_true in Hb, Hq.
  intros [[Hget Hqc]|Hget]%find_block_cases.
  - apply get_block_lookup in Hget as (lb & Hlb & <-). split; [exact (Hb _ _ Hlb)|exact (Hq _ _ Hqc)].
  - exfalso. assert (Hnone : get_db_block 2 id (consensus_db p_server) = Ok None) by reflexivity.
    rewrite Hnone in Hget. discriminate Hget.
Qed.

Lemma p_store_serves : serves tt 100 2 p_server.
Proof.
  split.
  - intros id b qc [Hb Hq]%p_found. unfold servedb in Hb. rewrite !andb_true_iff in Hb. destruct Hb as [[[Hid _] _] _].
    split; [exact (hash_eqb_eq _ _ Hid)|exact (hash_eqb_eq _ _ Hq)].
  - intros id b qc [Hb _]%p_found _. unfold servedb in Hb. rewrite !andb_true_iff in Hb. destruct Hb as [[[Hid _] Hs] Hw].
    split; [exact (hash_eqb_eq _ _ Hid)|]. unfold is_ok in Hs, Hw.
    destruct (validate_signature b tt) as [[]| |]; [|discriminate Hs..].
    destruct (Block_verify_well_formed b 100) as [[]| |]; [|discriminate Hw..]. split; reflexivity.
  - intros id b qc b' qc' _ [Hb _]%p_found Hg. unfold servedb in Hb. rewrite !andb_true_iff, Hg in Hb.
    destruct Hb as [[[_ Hb] _] _]. discriminate Hb.
Qed.

(** The answer of the server: rounds 4, 3 and 2, the target. *)
Lemma served_answer_accepted_witness : ∃ response,
  process_block_retrieval p_request p_server = Ok response ∧ brs_status response = SucceededWithTarget ∧
  (λ b : RetrievedBlock, Block_round b.1.1) <$> brs_blocks response = [4; 3; 2] ∧
  request_block (p_client []) p_request (2, Ok response) = Ok response ∧
  check_certified (brs_blocks response) (brs_quorum_certs response) = Ok tt.
Proof.
  destruct (ok_with_run (process_block_retrieval p_request p_server, tt) (λ x,
    bool_decide (brs_status x = SucceededWithTarget) &&
    bool_decide ((λ b : RetrievedBlock, Block_round b.1.1) <$> brs_blocks x = [4; 3; 2]))) as (response & Hr & Hf);
    [vm_compute; reflexivity|].
  apply (f_equal fst) in Hr. cbn [fst] in Hr. apply andb_true_iff in Hf as [Hst Hbl].
  apply bool_decide_eq_true in Hst, Hbl. exists response.
  destruct (ok_with_run (retrieval_epoch p_request p_server, tt) (λ e, e =? 2)) as (e & He & ->%N.eqb_eq);
    [vm_compute; reflexivity|].
  destruct (served_answer_accepted p_request p_server (p_client []) 2 2 response) as (Hacc & Hcert & _).
  - exact (f_equal fst He).
  - intros Heq. apply (f_equal (λ h : dHash, proj1_sig h)) in Heq. vm_compute in Heq. discriminate Heq.
  - exact p_store_serves.
  - intros b qc [Hb _]%p_found. unfold servedb in Hb. rewrite !andb_true_iff in Hb. destruct Hb as [[[_ Hb] _] _].
    by apply negb_true_iff in Hb.
  - exact Hr.
  - intros Heq. discriminate Heq.
  - split; [exact Hr|]. split; [exact Hst|]. split; [exact Hbl|]. split; [exact Hacc|exact Hcert].
Defined.

(** A client that asks it. *)
Definition p_peer : AccountAddress := (2 : N).

Definition p_fetch : result Anyhow Fetched * (BlockStore * BlockRetriever) :=
  retrieve_block_for_id (block_id (p_block 4)) (block_id (p_block 2)) [p_peer] 3 None
    (s_start, p_client [[(p_peer, process_block_retrieval p_request p_server)]]).

Lemma fetched_blocks_chain_witness : ∃ f s' r',
  p_fetch = (Ok f, (s', r')) ∧
  (λ b : RetrievedBlock, Block_round b.1.1) <$> fe_blocks f = [4; 3; 2] ∧
  same_store s_start s' ∧
  ∃ l more, fe_blocks f = l ++ more ∧ checked_chain tt 100 (block_id (p_block 4)) l ∧
    (more ≠ [] → ∃ b, last l = Some b ∧ Block_parent_id b.1.1 = HashValue_zero) ∧
    ∀ qc, bi_id (certified_block qc) = block_id (p_block 4) → l ≠ [] → check_certified l (certs_from qc l) = Ok tt.
Proof.
  destruct (ok_with_run p_fetch
    (λ f, bool_decide ((λ b : RetrievedBlock, Block_round b.1.1) <$> fe_blocks f = [4; 3; 2]))) as (f & Hf & Hb);
    [vm_compute; reflexivity|].
  apply bool_decide_eq_true in Hb. exists f, p_fetch.2.1, p_fetch.2.2.
  assert (Hrun : p_fetch = (Ok f, (p_fetch.2.1, p_fetch.2.2))).
  { rewrite Hf at 1. f_equal. }
  split; [exact Hrun|]. split; [exact Hb|].
  apply (fetched_blocks_chain _ _ _ _ _ _ _ _ _ _ Hrun).
  apply (bool_decide_eq_true_1 (_ ≠ _)). vm_compute. reflexivity.
Defined.

(** The preferred peer answers with success and no blocks. *)
Definition p_empty : BlockRetrievalResponse :=
  {| brs_status := SucceededWithTarget; brs_blocks := []; brs_ledger_infos := []; brs_quorum_certs := [] |}.

Lemma empty_answer_panics_witness :
  fast_forward_sync (p_qc 4) (s_proof 1) (s_start, p_client [[(p_peer, Ok p_empty)]])
  = (Panic "blocks are empty", (s_start, with_answers [] (p_client [[(p_peer, Ok p_empty)]]))).
Proof.
  apply (empty_answer_panics (p_qc 4) (s_proof 1) s_start (p_client [[(p_peer, Ok p_empty)]]) p_peer [] [] []).
  - reflexivity.
  - reflexivity.
  - intros Heq. discriminate Heq.
  - reflexivity.
  - intros Heq. discriminate Heq.
  - vm_compute. discriminate.
  - vm_compute. reflexivity.
Defined.
