(* ===== verification/ConcreteElection.v ===== *)
(** * A concrete election

    An instance of the interfaces of [Election] and [LeaderReputation] over the
    concrete database, with three validators, and runs of the elections on it. *)

From S2P Require Import Prelude Gaptos Types Bytes Floats Certificates Payloads Blocks ConsensusDb.
From S2P Require Import Election LeaderReputation ConcreteDb.

#[local] Existing Instances db_gaptos db_verifier db_crypto db_types db_schema_db db_types_laws
  db_schema_db_laws.

#[local] Instance el_types : ElectionTypes := {|
  sha3_256_of state := dHash_of ((from_le_bytes state * (2 ^ 130 + 7) + 2 ^ 200) mod 2 ^ 256);
  address_leb a b := (a : N) <=? b;
|}.

(** The performance of the three validators at every block from 2 on. *)
#[local] Instance rep_types : ReputationTypes := {|
  NewBlockEvent := N * N;
  nbe_epoch := fst;
  nbe_round := snd;
  nbe_proposer _ := 1;
  nbe_failed_proposer_indices _ := [];
  nbe_previous_block_votes _ := 0;
  new_block_event_of_bcs _ := Ok (0, 0);
  BitVec_required_buckets n := n / 8 + 1;
  bv_num_buckets _ := 1;
  bv_is_set v i := N.testbit v i;
  AptosDb := unit;
  adb_get_latest_block_events _ _ := Err (Msg "unimplemented");
  adb_get_latest_ledger_info_version _ := Err (Msg "unimplemented");
  adb_get_accumulator_root_hash _ _ := Err (Msg "unimplemented");
  ConfigStorage := unit;
  ConfigRes := N;
  fetch_validator_performances _ bn :=
    match bn with Number n => if 2 <=? n then Some n else None | Latest => None end;
  config_res_bytes n := Some [n];
  performances_of_bcs l := Ok [(5, 0); (1, 9); (0, default 0 (head l))];
  performance_max := u64_max;
  consensus_alpha_active_at_epoch e := 2 <=? e;
  consensus_alpha_active _ := false;
  CHAIN_HEALTH_WINDOW_SIZES := [10; 100];
  address_from_bytes l := head l;
|}.

#[local] Instance anchor_width_law : AnchorWidth.
Proof.
  split; simpl; intros x; try lia. destruct x as [[b h] n]. simpl. repeat destruct b as [b ?]. lia.
Qed.

(** ** The weighted choice *)

Lemma choose_index_spec_witness : ∃ i,
  choose_index [3; 0; 5] [1; 2] = Ok i ∧
  in_interval [3; 0; 5] (draw [1; 2] mod sum_weights [3; 0; 5]) i.
Proof.
  destruct (choose_index_spec [3; 0; 5] [1; 2]) as [H Hok].
  destruct (ok_with_run (choose_index [3; 0; 5] [1; 2], tt) (λ i, negb (i =? 1)%nat)) as (i & Hi & _).
  { vm_compute. reflexivity. }
  apply (f_equal fst) in Hi. exists i. split; [exact Hi|]. apply H. exact Hi.
Defined.

(** ** Rotation *)

Definition d_authors : list AccountAddress := ([7; 8; 9] : list N).

Lemma rotating_takes_turns_witness : ∃ i a,
  rotating_get_valid_proposer {| rp_proposers := d_authors; rp_contiguous_rounds := 2 |} 9 = Ok a ∧
  d_authors !! i = Some a ∧
  ∃ q, (q * N.of_nat (length d_authors) + N.of_nat i) * 2 ≤ 9 <
       (q * N.of_nat (length d_authors) + N.of_nat i + 1) * 2.
Proof. apply (rotating_takes_turns d_authors 2 _ eq_refl 9). Defined.

(** ** Proposals of one round *)

(** A proposal of round 2 and another one of the same round. *)
Definition d_proposal (r t : N) : Block :=
  let bd := {| bd_epoch := 2; bd_round := r; bd_timestamp_usecs := t;
               bd_quorum_cert := bd_quorum_cert (block_block_data (d_nil 2 1));
               bd_block_type := Proposal (DirectMempool []) (8 : N) [] |} in
  {| block_id := dHash_of (t + 100 * r); block_block_data := bd; block_signature := None;
     block_block_number := None |}.

Definition d_rotating : UnequivocalProposerElection RotatingProposer :=
  UnequivocalProposerElection_new {| rp_proposers := d_authors; rp_contiguous_rounds := 1 |}.

Definition d_calls : list UeCall :=
  [CallProposal (d_proposal 1 5); CallProposer 3; CallProposal (d_proposal 1 6);
   CallProposal (d_proposal 1 5); CallRatio 1; CallProposal (d_proposal 4 9)].

(** The second proposal of round 1 is refused, the first one may be repeated. *)
Lemma accepted_proposals_unequivocal_witness :
  length (ue_run rotating_election d_calls d_rotating).1 = 3%nat ∧
  ∃ b b', (ue_run rotating_election d_calls d_rotating).1 !! 0%nat = Some b ∧
    (ue_run rotating_election d_calls d_rotating).1 !! 2%nat = Some b' ∧
    Block_round b ≤ Block_round b' ∧ (Block_round b = Block_round b' → block_id b = block_id b').
Proof.
  assert (Hlen : length (ue_run rotating_election d_calls d_rotating).1 = 3%nat)
    by (vm_compute; reflexivity).
  split; [exact Hlen|].
  destruct (lookup_lt_is_Some_2 (ue_run rotating_election d_calls d_rotating).1 0) as [b Hb];
    [rewrite Hlen; lia|].
  destruct (lookup_lt_is_Some_2 (ue_run rotating_election d_calls d_rotating).1 2) as [b' Hb'];
    [rewrite Hlen; lia|].
  exists b, b'. split; [exact Hb|]. split; [exact Hb'|].
  apply (accepted_proposals_unequivocal rotating_election d_calls d_rotating 0 2 b b' Hb Hb'). lia.
Defined.

(** ** Leader reputation *)

Definition d_env (author : N) (db : ConsensusDB) : ElectionEnv :=
  {| ee_author := author : AccountAddress; ee_aptos_db := tt : AptosDb; ee_consensus_db := db;
     ee_window_for_chain_health := 100; ee_config_storage := Some (tt : ConfigStorage) |}.

Definition d_config : OnChainConsensusConfig :=
  {| occ_proposer_election_type :=
       PetLeaderReputation
         {| pvc_active_weight := 1000; pvc_inactive_weight := 10; pvc_failed_weight := 1;
            pvc_failure_threshold_percent := 10;
            pvc_proposer_window_num_validators_multiplier := 10;
            pvc_voter_window_num_validators_multiplier := 1;
            pvc_weight_by_voting_power := true;
            pvc_use_history_from_previous_epoch_max_count := 0 |} true true;
     occ_leader_reputation_exclude_round := 1;
     occ_max_failed_authors_to_store := 10 |}.

(** Epoch 2. *)
Definition d_epoch : EpochState := (2 : N).

Definition d_powers : list N := [10; 20; 30].

Definition d_created (author : N) (db : ConsensusDB) : CachedProposerElection LeaderReputation :=
  CachedProposerElection_new 2
    {| lr_epoch := 2;
       lr_epoch_to_proposers := {[ 2 := vv_ordered_addresses (es_verifier d_epoch) ]};
       lr_voting_powers := d_powers;
       lr_backend := AptosDBBackend_new 30 21 (tt : AptosDb);
       lr_reputation_anchor_db := Some db;
       lr_heuristic := ProposerAndVoterHeuristic_new (author : AccountAddress) 1000 10 1 10 3 30 true;
       lr_exclude_round := 1; lr_use_root_hash := true; lr_window_for_chain_health := 100;
       lr_config_storage := Some (tt : ConfigStorage) |} 13.

Lemma d_created_ok author db :
  create_proposer_election (d_env author db) d_epoch d_config = Ok (EoReputation (d_created author db)).
Proof. reflexivity. Qed.

Lemma d_health author db : health_configured (d_env author db).
Proof. split; [apply (list_elem_of_lookup_2 _ 1); reflexivity|simpl; lia]. Qed.

(** One replica starts on the chain; the other one starts before the chain has
    ledger infos, is asked for a round and then gets the chain. *)
Definition d_replica1 : CachedProposerElection LeaderReputation := d_created 1 d_chain.
Definition d_asked : CachedProposerElection LeaderReputation :=
  (get_or_compute_entry reputation_election 1 (d_created 2 d_numbered)).2.
Definition d_replica2 : CachedProposerElection LeaderReputation := set_anchor_db d_chain d_asked.

Lemma d_replica1_ok : replica (d_env 1 d_chain) d_epoch d_config d_replica1.
Proof. apply replica_created, d_created_ok. Qed.

Lemma d_replica2_ok : replica (d_env 2 d_numbered) d_epoch d_config d_replica2.
Proof. apply replica_db, replica_called, replica_created, d_created_ok. Qed.

Lemma d_replica2_anchor round :
  resolve_anchor round (ce_proposer_election d_replica2) =
  resolve_anchor round (ce_proposer_election d_replica1).
Proof.
  assert (He : lr_epoch (ce_proposer_election d_asked) = 2) by (vm_compute; reflexivity).
  assert (Hx : lr_exclude_round (ce_proposer_election d_asked) = 1) by (vm_compute; reflexivity).
  unfold resolve_anchor, d_replica2, set_anchor_db, target_round.
  cbn [ce_proposer_election set_ce_proposer_election with_reputation_anchor_backend
       lr_reputation_anchor_db lr_epoch lr_exclude_round].
  rewrite He, Hx. reflexivity.
Qed.

Lemma replicas_agree_witness : ∃ v c1 c1',
  get_or_compute_entry reputation_election 3 d_replica1 = (Ok v, c1) ∧
  get_or_compute_entry reputation_election 3 d_replica2 = (Ok v, c1') ∧
  v.1 ∈ vv_ordered_addresses (es_verifier d_epoch) ∧ v.2 = f64_one.
Proof.
  destruct (ok_with_run (resolve_anchor 3 (ce_proposer_election d_replica1), tt)
    (λ o, match o with Some a => cba_block_number a =? 4 | None => false end)) as (o & Hres & Ho);
    [vm_compute; reflexivity|].
  apply (f_equal fst) in Hres. destruct o as [anchor|]; [|discriminate Ho].
  destruct (ok_with_run (get_or_compute_entry reputation_election 3 d_replica1) (λ _, true))
    as (v & Hv & _); [vm_compute; reflexivity|].
  destruct (ok_with_run (get_or_compute_entry reputation_election 3 d_replica2) (λ _, true))
    as (v' & Hv' & _); [vm_compute; reflexivity|].
  destruct (replicas_agree (d_env 1 d_chain) (d_env 2 d_numbered) d_epoch d_config d_replica1
    d_replica2 3 anchor v v' _ _ d_replica1_ok d_replica2_ok eq_refl (d_health 1 d_chain)
    (d_health 2 d_numbered) eq_refl Hres (eq_trans (d_replica2_anchor 3) Hres) Hv Hv')
    as (Heq & Hin & Hone).
  exists v, (get_or_compute_entry reputation_election 3 d_replica1).2,
    (get_or_compute_entry reputation_election 3 d_replica2).2.
  split; [exact Hv|]. split; [rewrite Heq; exact Hv'|]. split; [exact Hin|exact Hone].
Defined.

(** The weights at block 4 are 1000, 1 and 1. *)
Definition d_lr : LeaderReputation := ce_proposer_election d_replica1.

Lemma leader_at_anchor_witness : ∃ i leader lr' anchor,
  lr_get_valid_proposer_and_ratio 3 d_lr = (Ok (leader, f64_one), lr') ∧
  vv_ordered_addresses (es_verifier d_epoch) !! i = Some leader ∧ caches_change d_lr lr' ∧
  in_interval [10000; 20; 30]
    (draw (election_state (cba_block_hash anchor) 2 3 true) mod 10050) i.
Proof.
  destruct (ok_with_run (resolve_anchor 3 d_lr, tt)
    (λ o, match o with Some a => cba_block_number a =? 4 | None => false end)) as (o & Hres & Ho);
    [vm_compute; reflexivity|].
  apply (f_equal fst) in Hres. destruct o as [anchor|]; [|discriminate Ho]. apply N.eqb_eq in Ho.
  destruct (leader_at_anchor d_lr 3 anchor (vv_ordered_addresses (es_verifier d_epoch))
    [1000; 1; 1]) as (i & leader & lr' & Hrun & Hl & Hcc & Hint).
  - intros bn ws H. discriminate H.
  - exact (d_health 1 d_chain).
  - exact Hres.
  - reflexivity.
  - reflexivity.
  - reflexivity.
  - rewrite Ho. reflexivity.
  - reflexivity.
  - vm_compute. split; [reflexivity|discriminate].
  - exists i, leader, lr', anchor. split; [exact Hrun|]. split; [exact Hl|]. split; [exact Hcc|exact Hint].
Defined.

(** The cache in front of the reputation election, asked twice for a round. *)
Lemma cached_election_transparent_witness : ∃ v c',
  get_or_compute_entry reputation_election 3 d_replica2 = (Ok v, c') ∧ ce_window c' = 13 ∧
  ∃ key s1, cache_key reputation_election 3 (ce_proposer_election d_replica2) = (Ok key, s1) ∧
    (∀ v' s2, get_valid_proposer_and_ratio reputation_election 3 s1 = (Ok v', s2) → v = v') ∧
    (key ≠ None → rounds_from (3 - ce_window d_replica2) c').
Proof.
  destruct (ok_with_run (get_or_compute_entry reputation_election 3 d_replica2) (λ _, true))
    as (v & Hv & _); [vm_compute; reflexivity|].
  destruct (replica_cache_ok _ _ _ _ d_replica2_ok (d_health 2 d_numbered) eq_refl) as (c0 & _ & Hok).
  destruct (cached_election_transparent reputation_election _ _ 3 d_replica2 v _
    (reputation_keyed (ce_proposer_election c0)) Hok Hv) as (_ & Hw & Hrest).
  exists v, (get_or_compute_entry reputation_election 3 d_replica2).2. split; [exact Hv|].
  split; [rewrite Hw; vm_compute; reflexivity|exact Hrest].
Defined.
