(* ===== verification/ConcreteRound.v ===== *)
(** * Concrete runs of the round manager

    Validator 2 on the chain of [ConcreteStore], with four certified rounds: it starts
    in round 5, receives the proposal of validator 3, votes, and times out.  Validator
    3 is the leader that makes the proposal. *)

From S2P Require Import Prelude Gaptos Types Bytes Floats Certificates Payloads Blocks SafetyRules SafetySpec Bft PendingVotes.
From S2P Require Import BlockTree RoundState BlockBufferManager BufferItem ConsensusDb BatchStore ProofQueue ProofManager ProofCoordinator.
From S2P Require Import Recovery BlockStore StoreSpec SyncManager Election ProposalGenerator RoundManager RoundSpec.
From S2P Require Import ConcreteDb ConcreteRecovery ConcreteStore.

#[local] Existing Instances db_gaptos db_verifier sync_crypto db_schema_db dHash_eqdec db_block_info_laws rec_types
  store_partial store_api store_pipe store_types sync_types
  codec_N codec_prod codec_option codec_list codec_hash.

(** ** Proposals in the database *)

(** Proposals without a payload, with their author. *)
Definition rbcs_block_fields (x : BlockData * option Signature * option N) : result Anyhow (list N) :=
  let '(bd, sig, number) := x in
  match bd_block_type bd with
  | Proposal (QuorumStoreInlineHybrid [] {| pwd_proofs := [] |} None) author failed =>
      Ok (ser ((bd_epoch bd, bd_round bd, bd_timestamp_usecs bd, qc_parts (bd_quorum_cert bd), failed, sig, number,
                author) : dBlockFields * N))
  | _ => Err (Msg "bcs")
  end.

Definition rblock_fields_of_bcs : list N → result Anyhow (BlockData * option Signature * option N) :=
  of_words (λ x : dBlockFields * N,
    let '(e, r, t, qc, failed, sig, number, author) := x in
    ({| bd_epoch := e; bd_round := r; bd_timestamp_usecs := t; bd_quorum_cert := qc_of_parts qc;
        bd_block_type := Proposal (QuorumStoreInlineHybrid [] {| pwd_proofs := [] |} None) (author : Author) failed |}
       : BlockData, sig : option Signature, number)).

#[local] Instance round_db_types : DbTypes := {|
  hash_to_vec h := to_be_bytes 32 (`h);
  hash_from_slice := dhash_from_slice;
  hash_max := dHash_of (2 ^ 256 - 1);
  bi_next_epoch_state := dbi_next;
  ebi_block_hash i := i.2;
  genesis_ledger_info := ((0, 0, dHash_of 2, 0, 0, None, None, dHash_of 2, 0), []);
  bcs_block_fields := rbcs_block_fields;
  block_fields_of_bcs := rblock_fields_of_bcs;
  bcs_quorum_cert qc := Ok (ser (qc_parts qc));
  quorum_cert_of_bcs := of_words qc_of_parts;
  bcs_ledger_info li := Ok (ser (li : dLedgerInfo * list N));
  ledger_info_of_bcs := of_words (λ li : dLedgerInfo * list N, li);
|}.

(** ** The secure storage *)

Inductive rJson :=
| RSafetyData (sd : SafetyData)
| RAuthor (a : N)
| RKey (k : N)
| RWaypoint (w : N).

(** Waypoints are versions, epoch change proofs are ledger infos. *)
#[local] Instance round_storage : SecureStorage := {|
  Storage := gmap string rJson;
  Json := rJson;
  storage_get k st := (ok_or KeyNotSet (st !! k), st);
  storage_set k j st := (Ok tt, <[k := j]> st);
  json_of_safety_data := RSafetyData;
  safety_data_of_json j := match j with RSafetyData sd => Some sd | _ => None end;
  result_safety_data_of_json _ := None;
  json_of_author := RAuthor;
  author_of_json j := match j with RAuthor a => Some a | _ => None end;
  json_of_private_key := RKey;
  private_key_of_json j := match j with RKey k => Some k | _ => None end;
  Waypoint := N;
  wp_version w := N.min w u64_max;
  json_of_waypoint := RWaypoint;
  waypoint_of_json j := match j with RWaypoint w => Some w | _ => None end;
  Waypoint_new_epoch_boundary li := Ok (li_version li);
  EpochChangeProof := dLedgerInfo * list N;
  ecp_verify proof _ := Ok proof;
  CONSENSUS_KEY := "consensus";
  OWNER_ACCOUNT := "owner_account";
  SAFETY_DATA := "safety_data";
  WAYPOINT := "waypoint";
  explicit_storage_key _ := "consensus_0";
|}.

#[local] Instance round_storage_laws : StorageLaws.
Proof.
  refine {| storage_contents := (λ st, st : gmap string rJson) |}; simpl; try done.
  intros k st j H. by apply ok_or_Ok in H.
Defined.

#[local] Instance round_proposals : ProposalTypes := {|
  vtxn_size_in_bytes _ := 8;
  vtxn_hash t := dHash_of t;
  raw_txn_bytes_len _ := 8;
|}.

(** ** Validator 2 *)

Definition r_safety_data : SafetyData := SafetyData_new 2 0 0 0 None 0.

Definition r_safety : SafetyRules :=
  {| sr_persistent_storage :=
       {| pss_enable_cached_safety_data := true; pss_cached_safety_data := None;
          pss_internal_store := <["safety_data" := RSafetyData r_safety_data]>
                                (<["owner_account" := RAuthor 2]>
                                (<["consensus" := RKey 2]>
                                (<["waypoint" := RWaypoint 0]> ∅))) |};
     sr_validator_signer := Some (2 : ValidatorSigner);
     sr_epoch_state := Some (2 : EpochState) |}.

(** Validator 3 leads round 5, validator 1 round 6, validator 2 the others. *)
Definition r_leaders : RoundProposer :=
  {| rop_proposers := <[5 := (3 : Author)]> (<[6 := (1 : Author)]> ∅); rop_default_proposer := (2 : Author) |}.

Definition r_generator (author : Author) : ProposalGenerator :=
  {| pg_author := author;
     pg_payload_client := {| qsc_wait_for_full_blocks_above_recent_fill_threshold := f32_of_u64 1;
                             qsc_wait_for_full_blocks_above_pending_blocks := 10 |};
     pg_max_block_txns := 100; pg_max_block_txns_after_filtering := 100; pg_max_block_bytes := 1000;
     pg_max_inline_txns := 10; pg_max_inline_bytes := 100; pg_max_failed_authors_to_store := 10;
     pg_min_max_txns_in_block_after_filtering_from_backpressure := 1;
     pg_pipeline_backpressure_config := {| pbc_backoffs := ∅; pbc_execution := None |};
     pg_chain_health_backoff_config := ∅; pg_last_round_generated := 0; pg_quorum_store_enabled := true;
     pg_vtxn_config := {| vtc_enabled := false; vtc_per_block_limit_txn_count := 2;
                          vtc_per_block_limit_total_bytes := 100 |};
     pg_allow_batches_without_pos_in_proposal := true |}.

Definition r_components : ValidatorComponents :=
  {| vc_proposer_election := UnequivocalProposerElection_new r_leaders; vc_proposal_generator := r_generator 2;
     vc_safety_rules := r_safety |}.

Definition r_config : RoundConfig :=
  {| rc_order_vote_enabled := true;
     rc_vtxn_config := {| vtc_enabled := false; vtc_per_block_limit_txn_count := 2;
                          vtc_per_block_limit_total_bytes := 100 |};
     rc_randomness_enabled := false; rc_jwk_consensus_enabled := false; rc_sync_only := false;
     rc_broadcast_vote := false; rc_max_receiving_block_txns := 100; rc_max_receiving_block_bytes := 1000;
     rc_max_blocks_per_sending_request := 10; rc_fast_randomness := true; rc_author := (2 : Author);
     rc_available_peers := [] |}.

(** A second per round; the clock is in nanoseconds. *)
Definition r_new : RoundManager :=
  RoundManager_new (2 : EpochState) p_server (RoundState_new (λ _, 1000000000) true) r_config (Some r_components) [].

Definition r_now : N := 6000.

(** After [init]. *)
Definition r_manager : RoundManager := (rm_init round_election r_now None r_new).2.

(** ** The proposal of validator 3 *)

Definition r_inputs : ProposalInputs :=
  {| pin_now := r_now; pin_validator_txns _ _ _ := [];
     pin_answer _ := Ok (QuorumStoreInlineHybrid [] {| pwd_proofs := [] |} None);
     pin_elapsed _ := 0; pin_summary _ := None |}.

Definition r_generate : result Anyhow BlockData * (ProposalGenerator * UnequivocalProposerElection RoundProposer) :=
  generate_proposal (unequivocal_election round_election) r_inputs p_server 5
    (r_generator 3, UnequivocalProposerElection_new r_leaders).

Definition r_data : BlockData :=
  match r_generate.1 with Ok bd => bd | _ => block_block_data (p_block 5) end.

Definition r_signature : Signature := (3 : N).
Definition r_msg : ProposalMsg := leader_msg p_server r_data r_signature.
Definition r_block : Block := pm_proposal r_msg.

(** ** The election *)

Definition r_elects (s : RoundProposer) : Prop :=
  rop_proposers s = rop_proposers r_leaders ∧ rop_default_proposer s = rop_default_proposer r_leaders.

Lemma r_election : elects round_election r_elects (round_get_valid_proposer r_leaders).
Proof.
  split; [|done]. intros s r [Hp Hd]. exists s. split; [|done].
  unfold round_election, simple_election, round_get_valid_proposer. simpl. unfold gets. by rewrite Hp, Hd.
Qed.

(** ** Validator 2 votes *)

Definition r_vc : ValidatorComponents := default r_components (rm_validator_components r_manager).

Lemma r_vc_components : rm_validator_components r_manager = Some r_vc.
Proof.
  assert (Hs : is_validator r_manager = true) by (vm_compute; reflexivity).
  unfold is_validator in Hs. apply bool_decide_eq_true in Hs as [vc Hvc]. unfold r_vc. by rewrite Hvc.
Qed.

Definition no_proofs (v : N) : result Anyhow EpochChangeProof := Err (Msg "no proofs").

(** Results by tests. *)
Lemma ok_unit {E} (r : result E unit) : is_ok r = true → r = Ok tt.
Proof. by destruct r as [[]| |]. Qed.

Lemma run_unit {S E} (p : result E unit * S) : is_ok p.1 = true → p = (Ok tt, p.2).
Proof. by destruct p as [[[]| |] s]. Qed.

Lemma ok_false {E} (r : result E bool) : ok_with (r, tt) negb = true → r = Ok false.
Proof. by destruct r as [[]| |]. Qed.

Lemma none_by {A} (o : option A) : bool_decide (is_Some o) = false → o = None.
Proof. intros H%bool_decide_eq_false. destruct o; [|done]. by destruct H. Qed.

Lemma r_limits : check_proposal_limits (rm_config r_manager) r_block = Ok tt.
Proof. apply ok_unit. vm_compute. reflexivity. Qed.

(** What the store and the safety rules answer. *)
Definition r_inserted : result Anyhow Block * BlockStore := store_insert_block r_block false (rm_block_store r_manager).
Definition r_held : Block := match r_inserted.1 with Ok b => b | _ => r_block end.
Definition r_signed : result Error Vote * SafetyRules :=
  metrics_construct_and_sign_vote_two_chain no_proofs (plb_vote_proposal (pipelined r_inserted.2 r_held))
    (bt_highest_2chain_timeout_cert (bs_inner r_inserted.2)) (r_now / 1000) (vc_safety_rules r_vc).

Definition r_vote : Vote :=
  match r_signed.1 with
  | Ok v => v
  | _ => {| vote_vote_data := qc_vote_data (p_qc 4); vote_author := (0 : Author);
            vote_ledger_info := (liws_ledger_info (qc_signed_ledger_info (p_qc 4))); vote_signature := (0 : Signature);
            vote_two_chain_timeout := None |}
  end.

Lemma r_signed_Ok : r_signed = (Ok r_vote, r_signed.2).
Proof.
  assert (Hok : is_ok r_signed.1 = true) by (vm_compute; reflexivity).
  unfold r_vote. by destruct r_signed as [[v| |] s].
Qed.

Lemma r_inserted_Ok : r_inserted = (Ok r_held, r_inserted.2).
Proof.
  assert (Hok : is_ok r_inserted.1 = true) by (vm_compute; reflexivity).
  unfold r_held. by destruct r_inserted as [[v| |] s].
Qed.

Lemma r_votable :
  votable r_elects (round_get_valid_proposer r_leaders) r_now (λ _, true) r_manager r_vc r_block.
Proof.
  split.
  - exact r_vc_components.
  - vm_compute. reflexivity.
  - vm_compute. reflexivity.
  - vm_compute. reflexivity.
  - vm_compute. reflexivity.
  - exact r_limits.
  - split; vm_compute; reflexivity.
  - vm_compute. reflexivity.
  - vm_compute. reflexivity.
  - vm_compute. reflexivity.
  - reflexivity.
  - apply ok_false. vm_compute. reflexivity.
  - apply none_by. vm_compute. reflexivity.
  - vm_compute. reflexivity.
Qed.

Lemma r_answers :
  voted no_proofs r_now r_block r_held (rm_block_store r_manager) (vc_safety_rules r_vc) r_vote r_inserted.2
    (on_storage (storage_save_vote r_vote) r_inserted.2).2 r_signed.2.
Proof.
  split.
  - exact r_inserted_Ok.
  - apply ok_false. vm_compute. reflexivity.
  - exact r_signed_Ok.
  - apply run_unit. vm_compute. reflexivity.
Qed.

Lemma valid_proposal_gets_vote_witness :
  Vote_round r_vote = 5 ∧
  runs (process_proposal round_election no_proofs r_now (λ _, true) r_block) r_manager
    (λ _ m', sends_vote (round_get_valid_proposer r_leaders) r_manager r_block r_vote
               (on_storage (storage_save_vote r_vote) r_inserted.2).2 m').
Proof.
  split; [vm_compute; reflexivity|].
  apply (valid_proposal_gets_vote round_election no_proofs r_elects (round_get_valid_proposer r_leaders) r_election
    r_now (λ _, true) r_manager r_vc r_block r_held r_vote r_inserted.2
    (on_storage (storage_save_vote r_vote) r_inserted.2).2 r_signed.2).
  - exact r_votable.
  - vm_compute. reflexivity.
  - exact r_answers.
Defined.

(** ** Validator 3 proposes *)

Lemma r_generate_Ok : r_generate = (Ok r_data, r_generate.2).
Proof.
  assert (Hok : is_ok r_generate.1 = true) by (vm_compute; reflexivity).
  unfold r_data. by destruct r_generate as [[v| |] s].
Qed.

Lemma leader_proposal_accepted_witness :
  ProposalMsg_verify_well_formed r_msg 6 = Ok tt ∧
  ∃ u3 u4 failed, is_valid_proposal round_election r_block (vc_proposer_election r_vc) = (Ok true, u3) ∧
    compute_failed_authors (unequivocal_election round_election) 10 (Block_round r_block)
      (bi_round (certified_block (Block_quorum_cert r_block))) false u3 = (Ok failed, u4) ∧
    BlockData_failed_authors (block_block_data r_block) = Some failed.
Proof.
  apply (leader_proposal_accepted round_election r_elects (round_get_valid_proposer r_leaders) r_election
    (r_generator 3) r_inputs p_server 5 (UnequivocalProposerElection_new r_leaders) r_data r_generate.2 r_signature 6
    (vc_proposer_election r_vc)).
  - exact r_generate_Ok.
  - vm_compute. reflexivity.
  - vm_compute. discriminate.
  - intros _. vm_compute. split; [split; reflexivity|discriminate].
  - split; reflexivity.
  - split; vm_compute; reflexivity.
  - vm_compute. reflexivity.
  - vm_compute. reflexivity.
Defined.

(** Validator 3 starts in round 5, which it leads, and makes the proposal. *)
Definition r_leader : RoundManager :=
  RoundManager_new (2 : EpochState) p_server (RoundState_new (λ _, 1000000000) true) r_config
    (Some {| vc_proposer_election := UnequivocalProposerElection_new r_leaders;
             vc_proposal_generator := r_generator 3;
             vc_safety_rules :=
               {| sr_persistent_storage := sr_persistent_storage r_safety;
                  sr_validator_signer := Some (3 : ValidatorSigner); sr_epoch_state := sr_epoch_state r_safety |} |}) [].

Definition r_proposing : list (N * (Block → bool) * RoundEvent) :=
  [(r_now, λ _, true, ProposalTask 0 r_inputs)].

Lemma sent_proposals_unique_witness :
  proposed_rounds (rm_start round_election no_proofs r_now None r_proposing r_leader).2 = [5] ∧
  proposals_fresh (rm_start round_election no_proofs r_now None r_proposing r_leader).2.
Proof.
  split; [vm_compute; reflexivity|].
  apply (sent_proposals_unique round_election no_proofs r_leader r_now None r_proposing).
  split; [constructor|]. intros vc _. constructor.
Defined.

(** ** The votes of validator 2 *)

(** The proposal arrives, and then the round times out. *)
Definition r_events : list (N * (Block → bool) * RoundEvent) :=
  [(r_now, λ _, true, BufferedProposals [EventProposalMsg r_msg]);
   (r_now + 1000000000, λ _, true, PeerEvent (2 : Author) (EventLocalTimeout 5))].

Definition r_end : RoundManager := (rm_start round_election no_proofs r_now None r_events r_new).2.

Lemma r_sound : sound_since r_safety_data r_new [].
Proof.
  split.
  - exists r_components, r_safety_data. split; [done|]. split; [|constructor].
    split; [reflexivity|]. intros _ d H. discriminate H.
  - intros v H. discriminate H.
  - intros o H. by apply not_elem_of_nil in H.
Qed.

Lemma round_manager_refines_witness :
  length (rm_sent r_end) = 3%nat ∧
  ∃ calls vc' T', rm_validator_components r_end = Some vc' ∧
    exec_all calls r_safety = (T', vc_safety_rules vc') ∧ sound_since r_safety_data r_end ([] ++ T').
Proof.
  split; [vm_compute; reflexivity|].
  apply (round_manager_refines round_election no_proofs r_safety_data [] r_new r_components r_now None r_events).
  - exact r_sound.
  - intros v H. discriminate H.
  - reflexivity.
Defined.

Definition r_sent (i : nat) : RoundOutput := default (BroadcastSyncInfo (pm_sync_info r_msg)) (rm_sent r_end !! i).
Definition r_sent_vote (i : nat) : Vote := default r_vote (vote_in (r_sent i)).

Lemma r_sent_elem i : (i < 3)%nat → r_sent i ∈ rm_sent r_end.
Proof.
  intros Hi. apply list_elem_of_lookup. exists i. unfold r_sent.
  assert (Hlen : length (rm_sent r_end) = 3%nat) by (vm_compute; reflexivity).
  destruct (lookup_lt_is_Some_2 (rm_sent r_end) i) as [o Ho]; [by rewrite Hlen|]. by rewrite Ho.
Qed.

Lemma r_sent_vote_in i : bool_decide (is_Some (vote_in (r_sent i))) = true → vote_in (r_sent i) = Some (r_sent_vote i).
Proof. intros [v Hv]%bool_decide_eq_true. unfold r_sent_vote. by rewrite Hv. Qed.

(** The vote for the proposal and the one with the timeout. *)
Lemma sent_votes_unequivocal_witness :
  is_timeout (r_sent_vote 1) = false ∧ is_timeout (r_sent_vote 2) = true ∧
  same_ballot (r_sent_vote 1) (r_sent_vote 2).
Proof.
  split; [vm_compute; reflexivity|]. split; [vm_compute; reflexivity|].
  apply (sent_votes_unequivocal round_election no_proofs r_safety_data [] r_new r_now None r_events (r_sent 1) (r_sent 2)).
  - exact r_sound.
  - intros v H. discriminate H.
  - intros v H. discriminate H.
  - apply r_sent_elem. lia.
  - apply r_sent_elem. lia.
  - apply r_sent_vote_in. vm_compute. reflexivity.
  - apply r_sent_vote_in. vm_compute. reflexivity.
  - vm_compute. reflexivity.
  - vm_compute. reflexivity.
Defined.

(** ** The initialization *)

(** A store with a waypoint of version 0 and safety data of epoch 5: the proofs first
    lead to epoch 3 at version 7, from where the next one leads to epoch 5. *)
Definition r_proof (epoch version : N) : EpochChangeProof :=
  ((epoch - 1, 9, dHash_of 9, version, 0, Some epoch, None, dHash_of 9, 0), []).
Definition r_proofs (v : N) : result Anyhow EpochChangeProof :=
  if v =? 0 then Ok (r_proof 3 7) else Ok (r_proof 5 20).

Definition r_outdated : SafetyRules :=
  {| sr_persistent_storage :=
       {| pss_enable_cached_safety_data := true; pss_cached_safety_data := None;
          pss_internal_store := <["safety_data" := RSafetyData (SafetyData_new 5 0 0 0 None 0)]>
                                (<["owner_account" := RAuthor 2]>
                                (<["consensus" := RKey 2]>
                                (<["waypoint" := RWaypoint 0]> ∅))) |};
     sr_validator_signer := None; sr_epoch_state := None |}.

Lemma initialization_terminates_witness :
  waypoint_version (perform_initialize r_proofs r_outdated).2 = 20 ∧
  ∀ v' s', loop_until 18446744073709551616 (initialize_from r_proofs) 0 r_outdated ≠ (Ok (inl v'), s').
Proof.
  split; [vm_compute; reflexivity|].
  apply (initialization_terminates r_proofs (λ w, eq_refl) (SafetyData_new 5 0 0 0 None 0) r_outdated 0).
  - split; [reflexivity|]. intros _ d H. discriminate H.
  - intros w. apply N.le_min_r.
Defined.
