(* ===== verification/ConcreteQuorumStore.v ===== *)
(** * The quorum store on a concrete database

    Batches of numbers over the database of ConcreteDb.v: the store takes a batch,
    the queue takes its proof, and a leader asks for a payload. *)

From S2P Require Import Prelude Gaptos Types Bytes Certificates Payloads Blocks ConsensusDb BatchStore ProofQueue ProofManager.
From S2P Require Import ConcreteDb.

#[local] Existing Instances db_gaptos db_verifier db_types db_schema_db db_types_laws db_schema_db_laws dHash_eqdec.

(** The hash of a payload depends on its author and its transactions. *)
#[local] Instance qs_crypto : Crypto := {|
  hash_vote_data _ := dHash_of 3;
  hash_block_data b := dHash_of (bd_epoch b * 2 ^ 64 + bd_round b);
  hash_batch_payload a txns := dHash_of (foldr (λ (t : N) h, t + 7 * h) (a : N) (txns : list N) `mod` 2 ^ 256);
  ValidatorSigner := N;
  ValidatorSigner_new a _ := a;
  signer_author s := s;
  signer_public_key s := s;
  signer_sign s _ := Ok s;
  vv_verify _ _ _ _ := Ok tt;
  vv_verify_multi_signatures _ _ _ := Ok tt;
  vv_verify_aggregate_signatures _ _ _ := Ok tt;
  vv_aggregate_signatures _ _ := Ok [];
|}.

#[local] Existing Instances codec_N codec_prod codec_option codec_list codec_hash.

Definition dValue : Type := N * (N * N) * N * N * dHash * N * N * N * option (list N).

Definition value_parts (v : PersistedValue) : dValue :=
  let i := pev_info v in
  (bin_author i, (bid_id (bin_batch_id i), bid_nonce (bin_batch_id i)), bin_epoch i, bin_expiration i,
   bin_digest i, bin_num_txns i, bin_num_bytes i, bin_gas_bucket_start i, pev_maybe_payload v).

Definition value_of_parts (x : dValue) : PersistedValue :=
  let '(a, (id, nonce), e, exp, d, n, b, g, p) := x in
  {| pev_info :=
       {| bin_author := (a : Author); bin_batch_id := {| bid_id := id; bid_nonce := nonce |}; bin_epoch := e;
          bin_expiration := exp; bin_digest := (d : HashValue); bin_num_txns := n; bin_num_bytes := b;
          bin_gas_bucket_start := g |};
     pev_maybe_payload := (p : option (list SignedTransaction)) |}.

(** A transaction is its gas price; it never expires before 1000. *)
#[local] Instance qs_types : QuorumStoreTypes := {|
  batch_payload_num_bytes _ txns := 8 * N.of_nat (length txns);
  txn_gas_unit_price t := (t : N);
  txn_sender _ := (1 : N);
  txn_sequence_number t := (t : N);
  txn_expiration_timestamp_secs _ := 1000;
  txn_committed_hash t := dHash_of (t : N);
  bcs_persisted_value v := Ok (ser (value_parts v));
  persisted_value_of_bcs := of_words value_of_parts;
  bcs_u64 n := Ok [n];
  u64_of_bcs := of_words (λ n : N, n);
  bcs_batch_id b := Ok [bid_id b; bid_nonce b];
  batch_id_of_bcs := of_words (λ x : N * N, {| bid_id := x.1; bid_nonce := x.2 |});
|}.

#[local] Instance qs_laws : QuorumStoreLaws.
Proof.
  intros v data H. change (Ok (ser (value_parts v)) = Ok (E:=Anyhow) data) in H. apply Ok_inj in H as <-.
  etrans; [apply (of_words_ser (A := dValue))|]. by destruct v as [[? [] ? ? ? ? ? ?] ?].
Qed.

(** ** The store *)

Definition w_txns : list SignedTransaction := [5; 6; 7].

Definition w_batch (author id bucket : N) : Batch :=
  Batch_new {| bid_id := id; bid_nonce := 0 |} w_txns 1 100 author bucket.

Definition w_value : PersistedValue := persisted_of_batch (w_batch 2 1 0).

Definition w_author : Author := (2 : N).
Definition w_db : DB := (∅ : dContents).
Definition w_signer : ValidatorSigner := (3 : N).
Definition w_store : BatchStore := BatchStore_new 1 0 w_db 10 1000 10 w_signer.
Definition w_persisted : BatchStore := (store_op (OpPersist [w_value]) w_store).2.
Definition w_certified : BatchStore := (store_op (OpCertified 50) w_persisted).2.

Lemma empty_db_valid : db_valid w_db.
Proof. intros key v (kb & vb & _ & _ & H & _). discriminate H. Qed.

Lemma w_value_ok s : bst_epoch s = 1 → request_ok s w_value.
Proof. intros He. split; [by exists w_txns|by rewrite He]. Qed.

Lemma w_reach : store_reach w_store w_certified [pev_info w_value].
Proof.
  destruct (ok_with_run (store_op (OpPersist [w_value]) w_store)
    (λ l, bool_decide (sbi_info <$> l = [pev_info w_value]))) as (infos & Hp & Hi); [by vm_compute|].
  apply bool_decide_eq_true in Hi.
  destruct (ok_with_run (store_op (OpCertified 50) w_persisted) (λ l, bool_decide (sbi_info <$> l = [])))
    as (infos' & Hc & Hi'); [by vm_compute|]. apply bool_decide_eq_true in Hi'.
  assert (H1 : store_reach w_store w_persisted ([] ++ (sbi_info <$> infos))).
  { eapply reach_op; [apply reach_start| |exact Hp]. by intros v ->%list_elem_of_singleton; apply w_value_ok. }
  assert (H2 : store_reach w_store w_certified (([] ++ (sbi_info <$> infos)) ++ (sbi_info <$> infos'))).
  { eapply reach_op; [exact H1| |exact Hc]. apply N.leb_le. by vm_compute. }
  by rewrite Hi, Hi' in H2.
Qed.

Lemma w_storage_works : storage_works.
Proof.
  split.
  - done.
  - intros key d m. simpl. destruct (_ !! _) as [vb|]; [|done]. simpl. unfold of_words.
    by destruct (de vb) as [[a [|]]|].
  - done.
Qed.

Lemma batch_store_accounts_witness :
  ∃ q infos s', bst_peer_quota w_certified !! w_author = Some q ∧
    balanced q w_author (bst_db_cache w_certified) [] ∧
    store_op (OpPersist [w_value]) w_certified = (Ok infos, s').
Proof.
  destruct (batch_store_accounts 1 0 10 1000 10 w_db w_signer ltac:(by vm_compute) ltac:(by vm_compute)
    ltac:(by vm_compute) ltac:(by vm_compute) empty_db_valid w_certified [pev_info w_value] w_reach)
    as (Hq & _ & Hop).
  destruct (bst_peer_quota w_certified !! w_author) as [q|] eqn:Hl; [|by apply eq_None_not_Some in Hl; destruct Hl; vm_compute; eauto].
  destruct (Hop w_storage_works (OpPersist [w_value])) as (infos & s' & Hs).
  { intros v ->%list_elem_of_singleton. by apply w_value_ok. }
  exists q, infos, s'. split; [done|]. split; [by apply Hq|done].
Defined.

Lemma signed_batch_served_witness :
  match get_batch_from_local (batch_key (pev_info w_value)) w_certified with
  | Ok v => ∃ txns, pev_maybe_payload v = Some txns ∧
      hash_batch_payload (bin_author (pev_info v)) txns = bin_digest (pev_info w_value)
  | Err e => e = InternalError
  | Panic m => db_get BatchSchema (batch_key (pev_info w_value)) (bst_db w_certified) = Panic m
  end.
Proof.
  apply (signed_batch_served 1 0 10 1000 10 w_db w_signer ltac:(by vm_compute) ltac:(by vm_compute)
    ltac:(by vm_compute) ltac:(by vm_compute) empty_db_valid w_certified [pev_info w_value] (pev_info w_value) w_reach).
  - by left.
  - by vm_compute.
Defined.

(** ** The queue of proofs *)

Definition w_info (author id : N) : BatchInfo := bat_batch_info (w_batch author id 0).

Definition w_info_of (k : QueueKey) : BatchInfo :=
  bat_batch_info (Batch_new (qk_batch_id k) w_txns 1 100 (qk_author k) 0).

Definition w_proof (author id : N) : ProofOfStore :=
  {| pos_info := w_info author id; pos_multi_signature := ([] : list N) |}.

(** Three proofs, the first with its summaries; one of them commits. *)
Definition w_ops : list QueueOp :=
  [OpSummaries [(w_info 1 1, txn_summary <$> w_txns)] None; OpPush (w_proof 1 1) (Some 20);
   OpPush (w_proof 2 1) None; OpPush (w_proof 2 2) None; OpCommit [w_info 2 1]; OpTimestamp 50].

Lemma w_agreed author id : agreed w_info_of (w_info author id).
Proof. reflexivity. Qed.

Lemma w_ops_agreed : Forall (op_agreed w_info_of) w_ops.
Proof. repeat (apply List.Forall_cons || apply List.Forall_nil || apply w_agreed || exact I). Qed.

Lemma queue_counters_exact_witness :
  ∃ q, queue_run w_ops (ProofQueue_new w_author) = Ok q ∧ counts (live q) q ∧
    remaining_txns_and_proofs q =
      Ok (N.of_nat (size (summarised q)) + map_sum proof_txns (unsummarised q), N.of_nat (size (live q))).
Proof.
  destruct (queue_counters_exact w_info_of w_author w_ops w_ops_agreed) as (q & Hr & Hc & _ & Hrem);
    [repeat split; apply N.leb_le; by vm_compute|apply N.leb_le; by vm_compute|apply N.leb_le; by vm_compute|].
  exists q. split; [exact Hr|]. split; [exact Hc|exact Hrem].
Defined.

(** The run leaves two live proofs and six transactions. *)
Example w_ops_remaining :
  match queue_run w_ops (ProofQueue_new w_author) with
  | Ok q => match remaining_txns_and_proofs q with Ok r => bool_decide (r = (6, 2)) | _ => false end
  | _ => false
  end = true.
Proof. by vm_compute. Qed.



(** ** The manager *)

Definition w_msgs : list (BatchStore * ManagerMsg) :=
  [(w_certified, ReceiveBatches [(w_info 2 1, txn_summary <$> w_txns)] None);
   (w_certified, ReceiveProofs [(w_proof 1 1, None); (w_proof 2 2, Some 20)]);
   (w_certified, CommitNotification 50 [w_info 2 2] (λ _, 60))].

Definition w_loop : ManagerLoop := ManagerLoop_new (ProofManager_new w_author 2 5 true).

Lemma w_msgs_agreed : Forall (op_agreed w_info_of) (msgs_ops w_msgs).
Proof. repeat (apply List.Forall_cons || apply List.Forall_nil || apply w_agreed || exact I). Qed.

Lemma back_pressure_exact_witness :
  ∃ ml, manager_loop_run w_msgs w_loop = Ok ml ∧
    let q := pm_proofs_for_consensus (ml_manager ml) in
    default {| bpr_txn_count := false; bpr_proof_count := false |} (last (ml_sent ml)) =
      {| bpr_txn_count := 2 <? N.of_nat (size (summarised q)) + map_sum proof_txns (unsummarised q);
         bpr_proof_count := 5 <? N.of_nat (size (live q)) |}.
Proof.
  apply (back_pressure_exact w_info_of w_author 2 5 true w_msgs);
    [repeat constructor|apply w_msgs_agreed|repeat split; apply N.leb_le; by vm_compute
    |apply N.leb_le; by vm_compute|apply N.leb_le; by vm_compute].
Defined.

Definition w_request : GetPayloadRequest :=
  {| gpr_max_txns := 100; gpr_max_txns_after_filtering := 100; gpr_soft_max_txns_after_filtering := 100;
     gpr_max_bytes := 1000; gpr_max_inline_txns := 10; gpr_max_inline_bytes := 100; gpr_return_non_full := true;
     gpr_filter := FilterEmpty; gpr_block_timestamp_secs := 0 |}.

Definition w_done : ManagerLoop := match manager_loop_run w_msgs w_loop with Ok ml => ml | _ => w_loop end.

Lemma w_inline_room : inline_room w_certified (pm_batch_queue (ml_manager w_done)).
Proof.
  split; [|apply N.leb_le; by vm_compute..].
  intros b m. unfold get_batch_from_local, get_batch_from_db, qs_get_batch.
  pose proof (sw_read w_storage_works (batch_key b) (bst_db w_certified) m) as Hr.
  destruct (db_get BatchSchema (batch_key b) (bst_db w_certified)) as [[v|]|e|m'].
  all: destruct (bst_db_cache w_certified !! bk_digest (batch_key b)); [case_bool_decide|]; congruence.
Qed.

Lemma proposal_within_limits_witness :
  ∃ p, handle_proposal_request (λ _ l, l) (λ _ l, l) w_certified w_request (ml_manager w_done) = Ok p ∧
    proposal_ok w_certified w_request [] (ml_manager w_done) p.
Proof.
  destruct (proposal_within_limits w_info_of w_author 2 5 true w_msgs) as (ml & Hr & Hp);
    [repeat constructor|apply w_msgs_agreed|repeat split; apply N.leb_le; by vm_compute
    |apply N.leb_le; by vm_compute|apply N.leb_le; by vm_compute|].
  assert (ml = w_done) as ->.
  { unfold w_done. change (manager_loop_run w_msgs w_loop = Ok ml) in Hr. by rewrite Hr. }
  apply Hp; [split; apply N.leb_le; by vm_compute|apply w_inline_room|done|done|done|
    apply N.leb_le; by vm_compute|apply N.leb_le; by vm_compute].
Defined.

(** The payload has one proof and one inline batch. *)
Example w_payload :
  match handle_proposal_request (λ _ l, l) (λ _ l, l) w_certified w_request (ml_manager w_done) with
  | Ok p => bool_decide (pos_info <$> proposed_proofs p = [w_info 1 1]) &&
            bool_decide (payload_inline p = [(pev_info w_value, w_txns)])
  | _ => false
  end = true.
Proof. by vm_compute. Qed.
