(* ===== verification/ConcreteProofs.v ===== *)
(** * Proofs of store on a concrete validator set

    Three validators of powers 10, 20 and 30; a signature is the address of its
    signer, an aggregate the list of them.  The second validator has stored a batch
    of its own and collects signatures for it. *)

From S2P Require Import Prelude Gaptos Types Bytes Certificates Payloads Blocks SafetyRules SafetySpec Bft ConsensusDb BatchStore ProofQueue ProofCoordinator.
From S2P Require Import ConcreteDb ConcreteQuorumStore.

#[local] Existing Instances db_gaptos db_types db_schema_db db_types_laws db_schema_db_laws dHash_eqdec.
#[local] Existing Instances qs_types qs_laws.

Definition p_members : list N := [1; 2; 3].

Definition p_check (l : list N) : result VerifyError N :=
  let p := total ((λ a, if bool_decide (a ∈ p_members) then 10 * a else 0) <$> l) in
  if 41 <=? p then Ok p else Err (TooLittleVotingPower p).

#[local] Instance p_verifier : Verifier := {|
  liws_verify_signatures _ _ := Ok tt;
  vv_len _ := 3;
  vv_ordered_addresses _ := p_members;
  vv_address_to_validator_index _ := ∅;
  vv_get_public_key _ _ := None;
  vv_get_voting_power _ a := if bool_decide (a ∈ p_members) then Some (10 * a) else None;
  vv_quorum_voting_power _ := 41;
  vv_total_voting_power _ := 60;
  vv_check_voting_power _ l _ := p_check l;
|}.

#[local] Instance p_crypto : Crypto := {|
  hash_vote_data _ := dHash_of 3;
  hash_block_data b := dHash_of (bd_epoch b * 2 ^ 64 + bd_round b);
  hash_batch_payload a txns := dHash_of (foldr (λ (t : N) h, t + 7 * h) (a : N) (txns : list N) `mod` 2 ^ 256);
  ValidatorSigner := N;
  ValidatorSigner_new a _ := a;
  signer_author s := s;
  signer_public_key s := s;
  signer_sign s _ := Ok s;
  vv_verify _ a _ s := if bool_decide (s = a ∧ a ∈ p_members) then Ok tt else Err (OtherVerifyError 0);
  vv_verify_multi_signatures _ _ s := if is_ok (p_check s) then Ok tt else Err (OtherVerifyError 1);
  vv_verify_aggregate_signatures _ _ s := if is_ok (p_check s) then Ok tt else Err (OtherVerifyError 1);
  vv_aggregate_signatures _ m := Ok (map_to_list m).*1;
|}.

#[local] Instance p_proof_laws : ProofLaws.
Proof.
  split.
  - intros v l _ Hk Hq. change (is_ok (p_check l) = true). unfold p_check.
    enough (Hs : total ((λ a : N, if bool_decide (a ∈ p_members) then 10 * a else 0) <$> l)
      = total ((λ a, default 0 (vv_get_voting_power v a)) <$> l)).
    { rewrite Hs. rewrite (proj2 (N.leb_le _ _)); [done|exact Hq]. }
    f_equal. apply list_fmap_ext. intros i a _. simpl. by case_bool_decide.
  - intros v. by vm_compute.
  - done.
  - intros v info m s Hs Hc Hm. injection Hs as <-. change (is_ok (p_check (map_to_list m).*1) = true) in Hc.
    transitivity (if is_ok (p_check (map_to_list m).*1) then Ok tt else Err (OtherVerifyError 1) : result VerifyError unit);
      [reflexivity|by rewrite Hc].
Qed.

#[local] Instance p_power_laws : PowerLaws.
Proof. split; intros v; [apply (bool_decide_unpack _); by vm_compute|by vm_compute..]. Qed.

Definition p_batch : Batch := Batch_new {| bid_id := 1; bid_nonce := 0 |} w_txns 1 100 (2 : N) 0.
Definition p_value : PersistedValue := persisted_of_batch p_batch.
Definition p_info : BatchInfo := pev_info p_value.
Definition p_signer : ValidatorSigner := (3 : N).
Definition p_store : BatchStore := BatchStore_new 1 0 w_db 10 1000 10 p_signer.
Definition p_persisted : BatchStore := (store_op (OpPersist [p_value]) p_store).2.

Lemma p_node : node_store p_persisted [p_info].
Proof.
  exists 1, 0, 10, 1000, 10, w_db, p_signer. do 4 (split; [apply N.leb_le; by vm_compute|]).
  split; [intros key v (kb & vb & _ & _ & H & _); discriminate H|].
  destruct (ok_with_run (store_op (OpPersist [p_value]) p_store)
    (λ l, bool_decide (sbi_info <$> l = [p_info]))) as (infos & Hp & Hi); [by vm_compute|].
  apply bool_decide_eq_true in Hi.
  assert (H1 : store_reach p_store p_persisted ([] ++ (sbi_info <$> infos))).
  { eapply reach_op; [apply reach_start| |exact Hp].
    intros v ->%list_elem_of_singleton. split; [by exists w_txns|done]. }
  by rewrite Hi in H1.
Qed.

Definition p_validators : ValidatorVerifier := tt.
Definition p_author : Author := (2 : N).

Definition p_signed (a : N) : SignedBatchInfo :=
  {| sbi_info := p_info; sbi_signer := (a : Author); sbi_signature := (a : Signature) |}.

Definition p_reading (now : N) : Reading :=
  {| rd_store := p_persisted; rd_timeout_millis := Z.of_N now; rd_init_micros := 1000 * now;
     rd_done_micros := 1000 * now + 1 |}.

(** Two signatures of a quorum; the first again; a timeout. *)
Definition p_events : list ProofCoordinatorEvent :=
  [AppendSignature [(p_signed 2, p_reading 5)]; AppendSignature [(p_signed 2, p_reading 6); (p_signed 3, p_reading 6)];
   CommitNotification [p_info]; AppendSignature [(p_signed 1, p_reading 7)]; Tick 100%Z].

Definition p_coordinator : ProofCoordinator := ProofCoordinator_new 10 p_author [] true.

(** One proof comes out of it, and nothing is left behind. *)
Example p_events_outcome :
  match coordinator_run p_validators p_events p_coordinator with
  | (Ok outs, c) =>
      bool_decide (pos_info <$> (outs ≫= made_proofs) = [p_info]) &&
      bool_decide (size (pc_batch_info_to_proof c) = 0%nat) && bool_decide (size (pc_batch_info_to_time c) = 0%nat)
  | _ => false
  end = true.
Proof. by vm_compute. Qed.

Lemma p_signed_ok a : a ∈ p_members → signed_ok p_validators (p_signed a).
Proof. intros Ha. unfold signed_ok. simpl. by rewrite bool_decide_true. Qed.

Lemma p_sent_ok s : s ∈ p_events ≫= event_sent → signed_ok p_validators s.
Proof.
  cbn. rewrite !elem_of_cons, elem_of_nil. intros [->|[->|[->|[->|[]]]]]; apply p_signed_ok;
    apply (bool_decide_unpack _); by vm_compute.
Qed.

Lemma p_empty_cache : cache_sound p_validators [].
Proof. by intros b s ?%not_elem_of_nil. Qed.

Lemma proofs_of_store_valid_witness :
  ∃ outs c', coordinator_run p_validators p_events p_coordinator = (Ok outs, c') ∧
    cache_sound p_validators (pc_proof_cache c').
Proof.
  destruct (ok_with_run (coordinator_run p_validators p_events p_coordinator) (λ _, true))
    as (outs & Hr & _); [by vm_compute|].
  exists outs, (coordinator_run p_validators p_events p_coordinator).2. split; [exact Hr|].
  generalize dependent ((coordinator_run p_validators p_events p_coordinator).2). intros c' Hr.
  exact (proj2 (proofs_of_store_valid p_validators 10 p_author [] true p_events outs c' p_empty_cache p_sent_ok Hr)).
Defined.

(** The signatures of a quorum in two messages, with a tick, a commit notification and
    the first signature once more between them. *)
Definition p_later : list ProofCoordinatorEvent :=
  [AppendSignature [(p_signed 2, p_reading 5)]; Tick 7%Z; CommitNotification [p_info];
   AppendSignature [(p_signed 2, p_reading 8)]; AppendSignature [(p_signed 3, p_reading 9)]].

Lemma p_later_elem s rd : (s, rd) ∈ p_later ≫= event_signatures →
  ∃ a now, a ∈ p_members ∧ now ∈ [5; 8; 9] ∧ s = p_signed a ∧ rd = p_reading now.
Proof.
  cbn. rewrite !elem_of_cons, elem_of_nil.
  intros [[= -> ->]|[[= -> ->]|[[= -> ->]|[]]]]; [exists 2, 5|exists 2, 8|exists 3, 9];
    (split; [apply (bool_decide_unpack _); by vm_compute|split; [set_solver|done]]).
Qed.

Lemma p_stored : batch_exists (batch_key p_info) p_persisted = Ok (Some p_author).
Proof.
  destruct (ok_with_run (batch_exists (batch_key p_info) p_persisted, tt) (λ o, bool_decide (o = Some p_author)))
    as (o & Ho & Hd); [by vm_compute|].
  apply bool_decide_eq_true in Hd. apply (f_equal fst) in Ho. rewrite Hd in Ho. exact Ho.
Qed.

Lemma p_fit : powers_fit p_validators.
Proof.
  intros l Hnd Hall. assert (Hsub : l ⊆+ p_members).
  { apply NoDup_submseteq; [done|]. intros a Ha. specialize (Hall a Ha). simpl in Hall. case_bool_decide; [done|].
    by destruct Hall. }
  etrans; [by apply total_submseteq, fmap_submseteq|]. apply N.leb_le. by vm_compute.
Qed.

Lemma p_calm : calm p_validators p_coordinator p_info (p_later ≫= event_signatures) (p_later ≫= event_ticks).
Proof.
  split.
  - done.
  - intros s rd (a & now & Ha & _ & -> & ->)%p_later_elem. by apply p_signed_ok.
  - cbn. repeat constructor; apply N.leb_le; by vm_compute.
  - intros s rd (a & now & _ & _ & -> & ->)%p_later_elem. simpl. lia.
  - intros i t s rd H. discriminate H.
  - intros s rd (a & now & _ & Hn & -> & ->)%p_later_elem. simpl. unfold i64_min, i64_max. set_unfold in Hn. change (as_i64 10) with 10%Z. lia.
  - intros s rd m (a & now & _ & _ & -> & ->)%p_later_elem. simpl. by rewrite p_stored.
  - intros s rd (a & now & Ha & _ & -> & ->)%p_later_elem _. split; [exact p_stored|]. simpl. by rewrite bool_decide_true.
  - intros now t _ H. by apply not_elem_of_nil in H.
  - intros now s rd Hnow (a & n & _ & Hn & -> & ->)%p_later_elem _. simpl. cbn in Hnow.
    apply list_elem_of_singleton in Hnow as ->. set_unfold in Hn. change (as_i64 10) with 10%Z. lia.
Qed.

Lemma quorum_makes_one_proof_witness :
  ∃ outs c', coordinator_run p_validators p_later p_coordinator = (Ok outs, c') ∧
    proofs_for p_info (outs ≫= made_proofs) = 1%nat ∧ ∀ p, p ∈ outs ≫= made_proofs → proof_valid p_validators p.
Proof.
  destruct (quorum_makes_one_proof p_validators 10 p_author [] true [] [] p_coordinator p_info p_later)
    as (outs & c' & Hr & Hn & Hp); [exact p_fit|by intros s ?%not_elem_of_nil|done|done|exact p_calm|].
  exists outs, c'. split; [exact Hr|]. split; [exact Hn|exact Hp].
Defined.

(** The first validator is Byzantine. *)
Definition p_honest : gset Author := {[ (2 : N); (3 : N) ]}.
Definition p_proof : ProofOfStore := {| pos_info := p_info; pos_multi_signature := ([2; 3] : list N) |}.

Lemma p_authentic : authentic_proof p_validators p_honest (λ _, [p_info]) p_proof.
Proof.
  intros _. exists p_honest. split; [|by left].
  split; [apply (bool_decide_unpack _); by vm_compute|apply N.leb_le; by vm_compute].
Qed.

Lemma proof_of_store_available_witness :
  ∃ a, a ∈ p_honest ∧
    match get_batch_from_local (batch_key p_info) p_persisted with
    | Ok v => ∃ txns, pev_maybe_payload v = Some txns ∧
        hash_batch_payload (bin_author (pev_info v)) txns = bin_digest p_info
    | Err e => e = InternalError
    | Panic m => db_get BatchSchema (batch_key p_info) (bst_db p_persisted) = Panic m
    end.
Proof.
  apply (proof_of_store_available p_validators p_honest (λ _, p_persisted) (λ _, [p_info]) p_proof []).
  - apply N.ltb_lt. by vm_compute.
  - intros a _. exact p_node.
  - exact p_authentic.
  - by intros b s ?%not_elem_of_nil.
  - apply N.leb_le. by vm_compute.
  - apply (ProofOfStore_verify_spec p_proof p_validators [] p_empty_cache). by vm_compute.
Defined.
