(* ===== verification/ConcreteShuffler.v ===== *)
(** * Shuffling on concrete blocks

    A transaction is a number: its sender is the number of tens, its sequence
    number the last digit; senders 1 and 2 call the platform, the others contracts. *)

From S2P Require Import Prelude Gaptos Types ConsensusDb BatchStore Shuffler UseCaseShuffler BlockPreparer.
From S2P Require Import Concrete.

#[local] Existing Instances concrete_gaptos.

#[local] Instance sh_types : QuorumStoreTypes := {|
  batch_payload_num_bytes _ txns := 8 * N.of_nat (length txns);
  txn_gas_unit_price t := (t : N);
  txn_sender t := (t : N) / 10;
  txn_sequence_number t := (t : N) mod 10;
  txn_expiration_timestamp_secs _ := 1000;
  txn_committed_hash t := encode (t : N);
  bcs_persisted_value _ := Ok [];
  persisted_value_of_bcs _ := Err (Msg "unused");
  bcs_u64 n := Ok [n];
  u64_of_bcs _ := Err (Msg "unused");
  bcs_batch_id _ := Ok [];
  batch_id_of_bcs _ := Err (Msg "unused");
|}.

#[local] Instance sh_txns : TxnTypes := {|
  SignedTransaction_eqdec := N.eq_dec;
  TransactionAuthenticator := N;
  txn_authenticator t := (t : N);
  txn_parse_use_case t := if (t : N) <? 30 then Platform else ContractAddress ((t : N) / 10);
  Filter := N;
  filter_is_empty f := (f : N) =? 0;
  filter_allows f _ _ t := negb ((t : N) =? (f : N));
|}.

Lemma sh_hashes : hashes_identify.
Proof. intros x y H. apply (inj (encode (A := N))) in H. by subst. Qed.

Definition sh_block : list SignedTransaction := [11; 12; 13; 21; 11; 31; 22; 41; 42].

Lemma dedup_keeps_first_witness :
  TxnHashAndAuthenticatorDeduper_dedup sh_block = dedup_first ∅ sh_block ∧
  NoDup (hash_and_authenticator <$> TxnHashAndAuthenticatorDeduper_dedup sh_block).
Proof. destruct (dedup_keeps_first sh_block sh_hashes) as (H1 & _ & H2 & _). split; [exact H1|exact H2]. Defined.

(** The second 11 is gone. *)
Example sh_dedup : bool_decide (TxnHashAndAuthenticatorDeduper_dedup sh_block = [11; 12; 13; 21; 31; 22; 41; 42]) = true.
Proof. by vm_compute. Qed.

Lemma sender_aware_shuffle_correct_witness :
  ∃ out, SenderAwareShuffler_shuffle 2 sh_block = Ok out ∧ out ≡ₚ sh_block ∧ spread 2 out.
Proof.
  destruct (sender_aware_shuffle_correct 2 sh_block) as (out & Hr & Hp & _ & Hs & _);
    [apply N.leb_le; by vm_compute|apply Z.leb_le; by vm_compute|].
  exists out. split; [exact Hr|]. split; [exact Hp|exact Hs].
Defined.

(** Transactions of one sender are at least two apart until only such are left. *)
Example sh_shuffled :
  match SenderAwareShuffler_shuffle 2 sh_block with
  | Ok out => bool_decide (out = [11; 21; 31; 12; 22; 41; 13; 11; 42])
  | _ => false
  end = true.
Proof. by vm_compute. Qed.

Definition sh_config : Config :=
  {| cfg_sender_spread_factor := 2; cfg_platform_use_case_spread_factor := 0; cfg_user_use_case_spread_factor := 1 |}.

Lemma use_case_aware_shuffle_correct_witness :
  ∃ out : list SignedTransaction, UseCaseAwareShuffler_shuffle sh_config sh_block = Ok out ∧ out ≡ₚ sh_block.
Proof.
  destruct (use_case_aware_shuffle_correct sh_config sh_block) as (out & Hr & Hp & _); [apply N.leb_le; by vm_compute|].
  exists out. split; [exact Hr|exact Hp].
Defined.

Definition sh_preparer : BlockPreparer :=
  {| bp_txn_filter := (21 : N); bp_txn_deduper := TxnHashAndAuthenticatorV1;
     bp_txn_shuffler := UseCaseAwareShuffler sh_config |}.

Lemma prepared_block_witness :
  ∃ out, prepare_block sh_preparer HashValue_zero 0 (Ok (sh_block, Some 5)) = Ok out ∧
    N.of_nat (length out) ≤ 5 ∧ NoDup (hash_and_authenticator <$> out).
Proof.
  destruct (prepared_block sh_preparer HashValue_zero 0 sh_block (Some 5) sh_hashes) as (out & Hr & _ & Hm & Hn & _);
    [apply N.leb_le; by vm_compute|].
  exists out. split; [exact Hr|]. split; [exact (Hm 5 eq_refl)|exact (Hn eq_refl)].
Defined.

(** Filtered, deduplicated, shuffled and cut. *)
Example sh_prepared :
  match prepare_block sh_preparer HashValue_zero 0 (Ok (sh_block, Some 5)) with
  | Ok out => bool_decide (out = [11; 31; 22; 12; 41])
  | _ => false
  end = true.
Proof. by vm_compute. Qed.
